(* ===== verification/_CoqProject ===== *)
-Q . S2P
Prelude.v
OrdMap.v
Wire.v
Context.v
Pad.v
Dial.v
DialPlan.v
Eclipse.v
Admission.v
Crypto.v
Codec.v
BoundedChange.v
Reconnect.v
PeerCache.v
EpochBase.v
Intent.v
Authority.v
Membership.v
SignedOp.v
Automerge.v
Catchup.v
GroupPolicy.v
OwnerTenure.v
Invite.v
Roles.v
Receipt.v
Checkpoint.v
Document.v
Paging.v
Closure.v
Close.v
Repair.v
Gate.v
GatedDoc.v
CloseCheck.v
Book.v
Journal.v
Restart.v
RepairTransition.v
JointRepair.v
Recovery.v
Blob.v
Retention.v
Protection.v
CachePlan.v
Housekeeping.v
Diagnostics.v
Budget.v
FileCrypto.v
Listing.v
Files.v
Dispatch.v
Credits.v
DiskStore.v
