(* ===== verification/Prelude.v ===== *)
(** * Mewtual: a verification library of its core

    Mewtual is a peer-to-peer, end-to-end encrypted community application.
    Members of a server replicate documents without a central authority. Each
    replicated document lives in a chain of _epochs_: while an epoch is open its
    members admit signed operations; a member proposes a _close_, the server's
    current owner signs a _receipt_ that names it, the receipt seals the epoch
    and its checkpoint seeds the next one. An owner that signs two receipts for
    one epoch has equivocated: the pair is a _fault_, which only a signed
    _repair_ resolves. Operations that a close excludes go to _recovery
    slots_. A document is an Automerge graph with a log of signed operations,
    which members exchange sealed under the group's channel key; a member that
    was away catches up page by page. Members join by single-use invites that
    the owner or an admin of the owner's roster redeems. Shared files are split
    into chunks, sealed, listed in a replicated index by signed rows and read
    back whole or in ranges. Their blobs are stored by content address, sealed on
    disk, collected by a retention policy and kept under a size limit that
    spares what is pinned. Peers are dialled and admitted under strict budgets,
    network events reach the application through a bounded dispatcher, and
    diagnostics are captured with what is sensitive removed.

    ** What models what

    - [Prelude.v]: results and their monad, bytes and big-endian integers,
      saturating arithmetic, ordered keys, tactics and hint databases.
    - [OrdMap.v]: sorted association lists, the model of [BTreeMap] and
      [BTreeSet] where iteration order is part of an encoding.
    - [Wire.v]: [crates/catcoms-wire/src/codec.rs], [Encoder] and [Decoder].
    - [Context.v]: [crates/catcoms-wire/src/context.rs], document types and the
      key-derivation context.
    - [Pad.v]: [crates/catcoms-storage/src/pad.rs], length padding.
    - [Dial.v]: [EndpointDialScheduler] of [crates/catcoms-discovery/src/lib.rs];
      its mutex-protected state is [EndpointDialState], a live permit is a value
      the step relation may start or drop.
    - [DialPlan.v]: [DiscoveryPolicy] of the same file: candidates merged,
      scored and ranked into a dial plan under a budget window, with replayed
      records dropped ([policy_step]).
    - [Eclipse.v]: [crates/catcoms-discovery/src/eclipse.rs], the advisory
      detector, with its [f64] arithmetic and a stateless reference.
    - [PeerCache.v]: [crates/catcoms-discovery/src/cache.rs], the address cache
      and its tagged serialized form ([cache_step]).
    - [Reconnect.v]: [crates/catcoms-discovery/src/reconnect.rs], the retention
      policy of restart hints.
    - [Admission.v]: [crates/catcoms-net/src/admission.rs], inbound connection
      quotas per address prefix and deny windows.
    - [Crypto.v]: the interface to SHA-256, BLAKE3 and Ed25519, which are not
      part of the repository, with the laws the code relies on.
    - [Codec.v]: record codecs over the wire decoder: a reader monad with the
      error type of its caller, and the [reads]/[consumes] specifications from
      which every exactness theorem is assembled.
    - [EpochBase.v], [Intent.v], [Receipt.v], [Close.v], [CloseCheck.v],
      [Gate.v], [Recovery.v]: the parts of
      [crates/catcoms-replication/src/epoch.rs] in source order; [CloseCheck.v]
      is the validation of a close against the document.
    - [SignedOp.v]: [op.rs], signed and sealed operations, over the cipher
      interface [Aead] and the channel key of [crates/catcoms-mls].
    - [Automerge.v]: the interface to Automerge, which is not part of the
      repository: documents seen through their graph of changes, with the laws
      the code relies on.
    - [Catchup.v]: [catchup_index.rs], bounded certificates of ancestor ranges.
    - [Checkpoint.v]: [checkpoint.rs], the seed change that opens an epoch.
    - [Document.v], [Paging.v], [Closure.v], [GatedDoc.v]: [doc.rs]. In order:
      the document with its log, indexes, snapshot and legacy operations
      ([doc_step]); the catch-up exports ([sync_run]); the dependency closure of
      a close and the delivery query; domain operations through the epoch gate
      and the rebuilding of a document from its vault log ([gated_step]).
    - [Invite.v]: [crates/catcoms-mls/src/invite.rs] and the admission checks of
      [group.rs] and [device.rs] ([invite_step]).
    - [Roles.v]: [crates/catcoms-sync/src/roles.rs] with the roster and the
      protected admission of [lib.rs] ([roles_step]).
    - [Authority.v]: the [OwnerAuthority] trait of [authority.rs] as a type
      class, with the live group and the captured view as instances.
    - [BoundedChange.v]: [bounded_change.rs], the preflight that counts a raw
      change's run-length encoded columns before the parser may expand them.
    - [Membership.v]: the roster queries of [crates/catcoms-mls/src/group.rs],
      over the member list OpenMLS returns; [MlsGroup] is an instance of
      [OwnerAuthority].
    - [GroupPolicy.v]: [crates/catcoms-mls/src/policy.rs] and
      [crates/catcoms-sync/src/group_policy.rs], the signed policy envelope and
      the immutable pin a node keeps ([pin_step], [node_step]).
    - [OwnerTenure.v]: [crates/catcoms-sync/src/owner_tenure.rs], what a device
      has itself observed about when the owner took office ([tenure_step]).
    - [Repair.v] and [Book.v]: repairs, evidence and the receipt book, from
      [epoch.rs] and [epoch/repair_state.rs].
    - [Journal.v]: [epoch/owner_journal.rs], the durable record of what an owner
      has decided and published ([journal_step]).
    - [RepairTransition.v]: [epoch/repair_transition.rs], planning, committing
      and persisting a repair of one replica's gate and book.
    - [JointRepair.v]: [epoch/repair_transition/joint.rs] and
      [epoch/succession.rs], the joint change of journal and replica, and the
      takeover of a frozen epoch by a new owner.
    - [Restart.v]: the joint restart check of gate, book and log, and the
      adoption of a received checkpoint ([epoch.rs], [epoch/adoption.rs]).
    - [Blob.v]: the [BlobStore] trait of [crates/catcoms-storage/src/blob.rs] as
      a class with laws, and [MemoryBlobStore] as an instance that satisfies
      them.
    - [Retention.v]: [crates/catcoms-storage/src/retention.rs], proved against
      the store interface.
    - [DiskStore.v]: [SealingBlobStore] of the same [blob.rs], over a file system
      that may fail any call and lose power at any moment ([store_run]).
    - [Protection.v]: [crates/catcoms-app/src/store/creative_references.rs], the
      addresses that must not be deleted and the delete that honours them
      ([prot_run]).
    - [CachePlan.v]: [crates/catcoms-storage/src/cache.rs] and
      [crates/catcoms-app/src/cache_plan.rs], the size index of the cache and
      the plan of what to evict.
    - [Housekeeping.v]: [crates/catcoms-app/src/cache_housekeeping.rs], the turns
      that carry out that plan around pins, transfers and files in use.
    - [Budget.v]: [crates/catcoms-app/src/store/epoch_budget.rs], reservations of
      disk space for epoch records ([world_step]).
    - [Diagnostics.v]: [crates/catcoms-diagnostics/src], capture modes, redaction,
      the event ring and the hub ([hub_run], [ring_run]).
    - [FileCrypto.v]: [crates/catcoms-storage/src/filecrypto.rs], sealed chunks,
      their references and the manifest of a file.
    - [Listing.v]: the shared file index of [crates/catcoms-app/src/lib.rs]: rows,
      their bounded prefix, writing, reading, unlisting, attestation.
    - [Files.v]: [crates/catcoms-app/src/file_resolution.rs] and the reads and
      uploads of [lib.rs].
    - [Dispatch.v]: [crates/catcoms-net/src/connection_leases.rs], the dispatcher
      of [event_dispatch.rs] and the driver's calls into them ([driver_step]),
      beside the network as it really is ([network_step]).
    - [Credits.v]: the delivery budget of [event_dispatch.rs] ([process_step]).

    ** How the code is rendered

    [Result<A, E>] is [result E A], and [?] is bind; a method with [&mut self]
    takes and returns the state. Machine integers are [N] with the source's
    checked, saturating or wrapping operation written out; bytes are lists of
    [Byte.byte]. A closure passed to commit an operation is a function on the
    caller's state. A mutex makes each method atomic, so interleavings are runs
    of a step relation ([gate_step], [log_step], [unit_step], [book_step],
    [slots_step], [ledger_step], [journal_step], [dial_step], [policy_step],
    [cache_step], [mem_step], [swarm_step], [pin_step], [tenure_step],
    [invite_step], [roles_step], [doc_step], [gated_step], [mount_step],
    [world_step], [driver_step], [network_step], [process_step]) and statements
    about all interleavings quantify over [rtc] of it; where every operation is a
    total function of the state a run is a fold over a list of operations ([store_run],
    [prot_run], [hub_run], [budget_run]). Encoding and decoding are total
    functions, and loops are structural recursion on the list or count they run
    over, except where the source loops until a work list is empty; those take
    fuel:
    - the random eviction of [PeerCache.v], one iteration per entry;
      [eviction_terminates] shows that the excess over the capacity suffices;
    - the column loop of [BoundedChange.v], one per byte; [scan_terminates]
      shows that it never runs out;
    - the graph walks of [Paging.v] and [Closure.v], [closure_fuel], one per
      named head and per dependency edge; [closure_fuel_ok] and
      [held_closure_spec] show that they visit the whole closure;
    - the page loop of [Paging.v], one per log entry, enough by
      [page_loop_fuel];
    - the bounded walk of [Paging.v], its own step budget of 2,048;
    - the ordering loop of [Closure.v], one per selected change, which
      [signed_ops_listing] shows to list every one of them;
    - the splitting of an upload in [Files.v], one per byte, enough because every
      piece is non-empty;
    - the draining of the dispatcher in [Dispatch.v], 2,690 permits, one more than
      the bound [drain_converges] proves; and the polling of the ring in
      [Diagnostics.v], one per event;
    - the names tried for a temporary file in [DiskStore.v], the source's own
      bound of seventeen.

    Hash functions are not assumed injective. Where distinct inputs must have
    distinct hashes, the statement either concludes with [collide m1 m2], which
    names the very two messages that collide, or assumes [distinct_hashes] of
    the finitely many receipts at hand. Signatures are a device's signing
    function and a verification function; [CryptoLaws] says that digests have
    their fixed size, [honest_device] that what a device signs verifies under
    its key.
    Small computable instances ([toy_crypto]) evaluate the witnesses.

    ** What the theorems show

    - _Lifecycle_ ([Gate.v], [Restart.v]): the gate's invariant over every
      interleaving, sealing freezes the accepted set until a repair, which hands
      on the same set, fair shares per device, agreement of admitted metadata
      with the committed log, and that gate and book survive a restart at any
      point of any run.
    - _Receipts_ ([Receipt.v], [Close.v], [Repair.v], [Book.v]): what signing
      and verification establish and refuse, which evidence is a conflict, that
      fault evidence does not depend on delivery order, that a repair resolves
      a fault durably, and crash safety of the book.
    - _User data_ ([Intent.v], [Recovery.v], [Blob.v], [Retention.v],
      [DiskStore.v]): pending intents and recovery snapshots are not lost
      silently, garbage collection never drops a last copy, the store's
      accounting and eviction are exact, and no power cut leaves a torn record
      or loses one that was durable and not deleted, even if it undoes renames.
    - _Disk space_ ([CachePlan.v], [Housekeeping.v], [Protection.v], [Budget.v]):
      eviction takes no more than it must, oldest first, never a pinned or
      protected record and nothing while an input it checks is missing; a pass
      ends however records arrive meanwhile; epoch records stay within their
      limit through failed and abandoned writes, given full inventories.
    - _Shared files_ ([FileCrypto.v], [Listing.v], [Files.v]): what was uploaded
      is what is read, whole or in ranges; what resolves depends on the listed
      references only; a verified author, if its key is not forged, signed that
      very listing.
    - _Delivery_ ([Dispatch.v], [Credits.v]): the application sees a lawful stream
      of peer events, a connection's authority ends with it, the stream catches
      up with the real connections within a bound, and the memory counted is
      exactly that of the credits held.
    - _Diagnostics_ ([Diagnostics.v]): what Safe capture removed cannot come back,
      and the ring is honest about what it dropped.
    - _Wire_ ([Wire.v], [Codec.v], [Repair.v], [Recovery.v], [Pad.v],
      [Context.v]): decoders accept exactly the canonical encodings.
    - _Owner decisions_ ([Journal.v], [RepairTransition.v], [JointRepair.v]): an
      owner's journal never stands for two conflicting receipts, every accepted
      decision can be published, and a repair is applied once, survives restarts
      at every point between its two writes and fences the losing branch.
    - _Ownership_ ([Membership.v], [GroupPolicy.v], [OwnerTenure.v]): the
      committer tests agree; a group's policy pin never changes or disappears
      and is adopted only from the current owner; a device authors only under a
      tenure start that is true of the group's whole history.
    - _Documents_ ([SignedOp.v], [Document.v], [GatedDoc.v]): signed frames are
      exact and keep their authorship however often they are sealed again; log,
      duplicate filter and indexes are right after any history and survive a
      restart; a document behind a gate refines the abstract epoch log, its
      operations are atomic, and one rebuilt from the vault is exactly its log.
    - _Catch-up_ ([Catchup.v], [Paging.v]): pages make progress within their
      bounds and leave no gap, certificates never hide a missing operation, and
      following a cursor to its end leaves nothing behind.
    - _Closes_ ([Closure.v], [CloseCheck.v], [Checkpoint.v]): every replica
      derives the same operations in the same order from a close and validates
      it to the same accounting, the scheduler's hint agrees with it, a receipt
      authorizes one seed, and the delivery query is exact.
    - _Membership_ ([Invite.v], [Roles.v]): an invite admits once, delegated
      authority is never ahead of the disk, a revocation sticks, and nobody
      joins without every authority agreeing.
    - _Hostile input_ ([BoundedChange.v]): the preflight accepts a change exactly
      when its expansion is within budget, and always terminates.
    - _Network budgets_ ([Dial.v], [DialPlan.v], [Admission.v]): limits hold
      across every interleaving, releases restore exactly what was charged, and
      replayed records have no effect on a plan.
    - _Isolation_ ([Eclipse.v], [PeerCache.v], [Reconnect.v]): the detector
      equals its stateless reference and warns only on sustained signs; caches
      and hints are bounded, load back exactly and refuse tampered bytes.

    ** What is not modelled

    Automerge, OpenMLS and the ciphers, which are interfaces with named laws;
    the typed registry and studio schemas, whose validators are arguments; the
    vault, kept files and their export, and [FsBlobStore], which are file I/O
    without logic that the sealing store does not have; staging, promoting and
    discarding the chunks around [publish_upload]; the multiaddr parser in front
    of the dial scheduler; libp2p event loops, the synchronisation services
    around the parts above, the application actor and the desktop shell, which
    are asynchronous plumbing between the parts modelled here.

    ** This file

    The shared prelude: results and their monad, bytes and big-endian integers,
    saturating machine arithmetic, ordered keys, and the tactics and hint
    databases the component files use. *)

From stdpp Require Import base list gmap numbers sorting.
From Stdlib Require Import Init.Byte Strings.Byte.
From Stdlib Require Strings.Ascii Strings.String.

Export Strings.String.StringSyntax.

#[global] Set Default Proof Using "Type".
#[export] Set Warnings "-clear-no-such-hyp".

(** * Results

    [Result<A, E>] with the error type first, so that [result E] is a monad
    for stdpp's [x <- m; k] notation. *)

Inductive result (E A : Type) : Type :=
| Ok (a : A)
| Err (e : E).
Arguments Ok {E A} a.
Arguments Err {E A} e.

#[global] Instance result_ret E : MRet (result E) := fun A a => Ok a.
#[global] Instance result_bind E : MBind (result E) :=
  fun A B k m => match m with Ok a => k a | Err e => Err e end.
#[global] Instance result_fmap E : FMap (result E) :=
  fun A B f m => match m with Ok a => Ok (f a) | Err e => Err e end.

#[global] Instance result_eq_dec {E A} `{EqDecision E, EqDecision A} :
  EqDecision (result E A).
Proof. solve_decision. Defined.

(** [if c { return Err(e); }] *)
Definition refuse_if {E} (c : bool) (e : E) : result E unit :=
  if c then Err e else Ok tt.

(** [o.ok_or(e)?] *)
Definition ok_or {E A} (o : option A) (e : E) : result E A :=
  match o with Some a => Ok a | None => Err e end.

(** [r.map_err(f)] *)
Definition map_err {E F A} (f : E -> F) (r : result E A) : result F A :=
  match r with Ok a => Ok a | Err e => Err (f e) end.

Definition is_ok {E A} (r : result E A) : bool :=
  match r with Ok _ => true | Err _ => false end.

Lemma bind_ok {E A B} (m : result E A) (k : A -> result E B) b :
  (x ← m; k x) = Ok b -> exists a, m = Ok a /\ k a = Ok b.
Proof. destruct m as [a|e]; cbn; [eauto | discriminate]. Qed.

(** Rewriting with these two, instead of reducing the bind, keeps the kernel
    from evaluating the bound computations when it rechecks a proof. *)
Lemma bind_Ok {E A B} (a : A) (k : A -> result E B) : (x ← Ok a; k x) = k a.
Proof. done. Qed.

Lemma bind_step {E A B} (m : result E A) a (k : A -> result E B) r :
  m = Ok a -> k a = r -> (x ← m; k x) = r.
Proof. by intros -> <-. Qed.

Lemma refuse_if_ok {E} c (e : E) u : refuse_if c e = Ok u -> c = false.
Proof. by destruct c. Qed.

Lemma refuse_if_false {E} (e : E) : refuse_if false e = Ok tt.
Proof. done. Qed.

Lemma refuse_if_bind_ok {E A} c (e : E) (k : unit -> result E A) a :
  (x ← refuse_if c e; k x) = Ok a -> c = false /\ k tt = Ok a.
Proof. destruct c; cbn; [discriminate | done]. Qed.

Lemma refuse_if_bind_false {E A} c (e : E) (k : unit -> result E A) :
  c = false -> (x ← refuse_if c e; k x) = k tt.
Proof. by intros ->. Qed.

(** Splits a successful chain of [?] steps into one equation per step. *)
Ltac res_inv :=
  repeat match goal with
  | H : (_ ← refuse_if _ _; _) = Ok _ |- _ =>
      apply refuse_if_bind_ok in H; destruct H
  | H : (_ ← _; _) = Ok _ |- _ =>
      let a := fresh "a" in let Ha := fresh "Ha" in
      apply bind_ok in H; destruct H as (a & Ha & H)
  | H : refuse_if _ _ = Ok _ |- _ => apply refuse_if_ok in H
  | H : Ok _ = Ok _ |- _ => injection H as H; subst
  | H : Err _ = Ok _ |- _ => discriminate H
  | H : mret _ = Ok _ |- _ => cbv [mret result_ret] in H
  end.

(** Booleans read as the propositions they decide. *)
Ltac bool_simpl :=
  repeat match goal with
  | H : _ || _ = false |- _ => apply orb_false_iff in H; destruct H
  | H : _ || _ = true |- _ => apply orb_true_iff in H
  | H : _ && _ = true |- _ => apply andb_true_iff in H; destruct H
  | H : _ && _ = false |- _ => apply andb_false_iff in H
  | H : negb _ = true |- _ => apply negb_true_iff in H
  | H : negb _ = false |- _ => apply negb_false_iff in H
  | H : bool_decide (_ <> _) = false |- _ =>
      apply bool_decide_eq_false in H; apply dec_stable in H
  | H : bool_decide _ = true |- _ => apply bool_decide_eq_true in H
  | H : bool_decide _ = false |- _ => apply bool_decide_eq_false in H
  | H : (_ <? _)%N = true |- _ => apply N.ltb_lt in H
  | H : (_ <? _)%N = false |- _ => apply N.ltb_ge in H
  | H : (_ <=? _)%N = true |- _ => apply N.leb_le in H
  | H : (_ <=? _)%N = false |- _ => apply N.leb_gt in H
  | H : (_ =? _)%N = true |- _ => apply N.eqb_eq in H
  | H : (_ =? _)%N = false |- _ => apply N.eqb_neq in H
  end.

(** * Machine integers

    Unsigned Rust integers are [N]; the width is a bound written out where the
    code can overflow. *)

Definition u8_max : N := 255.
Definition u16_max : N := 65535.
Definition u32_max : N := 4294967295.
Definition u64_max : N := 18446744073709551615.
Definition u128_max : N := 340282366920938463463374607431768211455.

(** [usize] is 64 bits wide on every platform the product ships for. *)
Definition usize_max : N := u64_max.

Definition sat_add (max a b : N) : N := N.min max (a + b).
Definition checked_add (max a b : N) : option N :=
  if (a + b <=? max)%N then Some (a + b)%N else None.

Lemma checked_add_iff max a b n : checked_add max a b = Some n <-> n = (a + b)%N /\ (a + b <= max)%N.
Proof.
  unfold checked_add. destruct (N.leb_spec (a + b) max); split; [intros [= <-]; done|intros [-> _]; done|done|lia].
Qed.

Lemma sat_add_le max a b : (sat_add max a b <= max)%N.
Proof. unfold sat_add; lia. Qed.

(** The length of a slice, as a [usize]. *)
Definition len {A} (l : list A) : N := N.of_nat (length l).

Lemma len_nil {A} : len (@nil A) = 0%N.
Proof. done. Qed.
Lemma len_cons {A} (x : A) l : len (x :: l) = (1 + len l)%N.
Proof. unfold len; cbn [length]; lia. Qed.
Lemma len_app {A} (l k : list A) : len (l ++ k) = (len l + len k)%N.
Proof. unfold len; rewrite length_app; lia. Qed.
Lemma len_zero {A} (l : list A) : len l = 0%N <-> l = [].
Proof. unfold len; destruct l; cbn; split; (done || lia). Qed.

Create HintDb mewtual.
Create Rewrite HintDb mewtual_len.
#[export] Hint Rewrite @len_nil @len_app : mewtual_len.

(** * Bytes *)

#[global] Instance byte_eq_dec : EqDecision byte := Byte.byte_eq_dec.

Definition b2n (b : byte) : N := Byte.to_N b.
Definition n2b (n : N) : byte :=
  match Byte.of_N (n mod 256) with Some b => b | None => x00 end.

Lemma b2n_lt b : (b2n b < 256)%N.
Proof. pose proof (Byte.to_N_bounded b); unfold b2n; lia. Qed.

Lemma n2b_b2n b : n2b (b2n b) = b.
Proof.
  unfold n2b. rewrite N.mod_small by apply b2n_lt.
  unfold b2n. by rewrite Byte.of_to_N.
Qed.

Lemma b2n_n2b n : b2n (n2b n) = (n mod 256)%N.
Proof.
  unfold n2b, b2n.
  destruct (Byte.of_N (n mod 256)) as [b|] eqn:E.
  - by apply Byte.to_of_N in E.
  - apply Byte.of_N_None_iff in E. pose proof (N.mod_lt n 256); lia.
Qed.

Lemma b2n_inj a b : b2n a = b2n b -> a = b.
Proof. intros H. by rewrite <- (n2b_b2n a), <- (n2b_b2n b), H. Qed.

#[global] Program Instance byte_countable : Countable byte :=
  inj_countable' b2n n2b n2b_b2n.

(** Literal byte strings ([b"..."], [&str] constants). *)
Abbreviation bytes := (list byte).

Fixpoint bytes_of_string (s : String.string) : bytes :=
  match s with
  | String.EmptyString => []
  | String.String a s' => Ascii.byte_of_ascii a :: bytes_of_string s'
  end.

Arguments bytes_of_string s%_string_scope.

(** * Big-endian integers: [to_be_bytes] and [from_be_bytes] *)

Fixpoint be_bytes (w : nat) (n : N) : bytes :=
  match w with
  | O => []
  | S w' => n2b (n / 256 ^ N.of_nat w') :: be_bytes w' n
  end.

Definition be_val_from (acc : N) (l : bytes) : N :=
  fold_left (fun a b => a * 256 + b2n b)%N l acc.
Definition be_val (l : bytes) : N := be_val_from 0 l.

Lemma length_be_bytes w n : length (be_bytes w n) = w.
Proof. induction w; cbn; auto. Qed.

Lemma len_be_bytes w n : len (be_bytes w n) = N.of_nat w.
Proof. unfold len; by rewrite length_be_bytes. Qed.
#[export] Hint Rewrite len_be_bytes : mewtual_len.

Lemma pow256_S w : (256 ^ N.of_nat (S w) = 256 * 256 ^ N.of_nat w)%N.
Proof. by rewrite Nat2N.inj_succ, N.pow_succ_r'. Qed.

Lemma pow256_pos w : (0 < 256 ^ N.of_nat w)%N.
Proof. apply N.neq_0_lt_0, N.pow_nonzero; done. Qed.

Lemma be_val_from_bytes w : forall acc n,
  be_val_from acc (be_bytes w n) =
    (acc * 256 ^ N.of_nat w + n mod 256 ^ N.of_nat w)%N.
Proof.
  induction w as [|w IH]; intros acc n.
  - cbn [be_bytes]. unfold be_val_from; cbn [fold_left].
    change (256 ^ N.of_nat 0)%N with 1%N. rewrite N.mod_1_r; lia.
  - cbn [be_bytes]. unfold be_val_from in *; cbn [fold_left].
    rewrite IH, b2n_n2b, pow256_S.
    pose proof (pow256_pos w) as Hp.
    set (p := (256 ^ N.of_nat w)%N) in *.
    rewrite (N.mul_comm 256 p).
    rewrite N.Div0.mod_mul_r. lia.
Qed.

Lemma be_val_be_bytes w n :
  (n < 256 ^ N.of_nat w)%N -> be_val (be_bytes w n) = n.
Proof.
  intros H. unfold be_val. rewrite be_val_from_bytes, N.mod_small; lia.
Qed.

Lemma be_val_from_acc l : forall acc,
  be_val_from acc l = (acc * 256 ^ N.of_nat (length l) + be_val l)%N.
Proof.
  unfold be_val, be_val_from. induction l as [|b l IH]; intros acc.
  - cbn. lia.
  - cbn [fold_left length]. rewrite IH, (IH (0 * 256 + b2n b)%N), pow256_S. lia.
Qed.

Lemma be_val_cons b l :
  be_val (b :: l) = (b2n b * 256 ^ N.of_nat (length l) + be_val l)%N.
Proof.
  unfold be_val, be_val_from. cbn [fold_left].
  change (be_val_from (0 * 256 + b2n b) l =
          (b2n b * 256 ^ N.of_nat (length l) + be_val l)%N).
  rewrite be_val_from_acc. lia.
Qed.

Lemma be_val_lt l : (be_val l < 256 ^ N.of_nat (length l))%N.
Proof.
  induction l as [|b l IH].
  - done.
  - cbn [length]. rewrite be_val_cons, pow256_S. pose proof (b2n_lt b). nia.
Qed.

Lemma be_bytes_mod w : forall n m,
  (n mod 256 ^ N.of_nat w = m mod 256 ^ N.of_nat w)%N ->
  be_bytes w n = be_bytes w m.
Proof.
  induction w as [|w IH]; intros n m H; [done|].
  cbn [be_bytes]. rewrite pow256_S in H.
  pose proof (pow256_pos w) as Hp.
  set (p := (256 ^ N.of_nat w)%N) in *.
  rewrite (N.mul_comm 256 p) in H.
  rewrite !N.Div0.mod_mul_r in H.
  assert (Hn : (n mod p < p)%N) by (apply N.mod_lt; lia).
  assert (Hm : (m mod p < p)%N) by (apply N.mod_lt; lia).
  destruct (N.div_mod_unique p ((n / p) mod 256) ((m / p) mod 256)
              (n mod p) (m mod p)) as [Hq Hr]; [done | done | lia |].
  f_equal.
  - apply b2n_inj. by rewrite !b2n_n2b.
  - by apply IH.
Qed.

Lemma be_bytes_be_val l : be_bytes (length l) (be_val l) = l.
Proof.
  induction l as [|b l IH]; [done|].
  cbn [length be_bytes]. rewrite be_val_cons.
  pose proof (be_val_lt l) as Hl. pose proof (b2n_lt b) as Hb.
  pose proof (pow256_pos (length l)) as Hp.
  set (p := (256 ^ N.of_nat (length l))%N) in *.
  f_equal.
  - rewrite N.div_add_l by lia. rewrite (N.div_small (be_val l)) by done.
    rewrite N.add_0_r. apply n2b_b2n.
  - transitivity (be_bytes (length l) (be_val l)); [|done].
    apply be_bytes_mod. fold p. by rewrite N.add_comm, N.Div0.mod_add.
Qed.

Lemma be_bytes_inj w n m :
  (n < 256 ^ N.of_nat w)%N -> (m < 256 ^ N.of_nat w)%N ->
  be_bytes w n = be_bytes w m -> n = m.
Proof.
  intros Hn Hm H. apply (f_equal be_val) in H.
  by rewrite !be_val_be_bytes in H.
Qed.

#[global] Opaque be_bytes.

(** * Ordered keys

    What [BTreeMap] needs of [Ord]: a comparison that is a strict total order. *)

Class OrdKey (K : Type) := {
  kcmp : K -> K -> comparison;
  kcmp_eq : forall x y, kcmp x y = Eq <-> x = y;
  kcmp_opp : forall x y, kcmp y x = CompOpp (kcmp x y);
  kcmp_lt_trans : forall x y z, kcmp x y = Lt -> kcmp y z = Lt -> kcmp x z = Lt
}.

Definition klt {K} `{OrdKey K} (x y : K) : Prop := kcmp x y = Lt.
Definition kltb {K} `{OrdKey K} (x y : K) : bool :=
  match kcmp x y with Lt => true | _ => false end.

Lemma kltb_klt {K} `{OrdKey K} (x y : K) : kltb x y = true <-> klt x y.
Proof. unfold kltb, klt; destruct (kcmp x y); split; done. Qed.

#[global] Instance klt_decision {K} `{OrdKey K} (x y : K) : Decision (klt x y).
Proof. unfold klt; apply _. Defined.

Lemma klt_irrefl {K} `{OrdKey K} (x : K) : ~ klt x x.
Proof. unfold klt; intros Hx. by rewrite (proj2 (kcmp_eq x x)) in Hx. Qed.

#[global] Instance klt_trans {K} `{OrdKey K} : Transitive (klt (K:=K)).
Proof. intros x y z; apply kcmp_lt_trans. Qed.

Lemma klt_asym {K} `{OrdKey K} (x y : K) : klt x y -> klt y x -> False.
Proof. intros H1 H2. eapply klt_irrefl, klt_trans; eauto. Qed.

Lemma kcmp_gt {K} `{OrdKey K} (x y : K) : kcmp x y = Gt <-> klt y x.
Proof.
  unfold klt. rewrite (kcmp_opp x y). destruct (kcmp x y); cbn; split; done.
Qed.

Lemma klt_total {K} `{OrdKey K} (x y : K) : {klt x y} + {x = y} + {klt y x}.
Proof.
  destruct (kcmp x y) eqn:E.
  - left; right; by apply kcmp_eq.
  - left; left; done.
  - right; by apply kcmp_gt.
Qed.

#[global] Program Instance N_ordkey : OrdKey N := {| kcmp := N.compare |}.
Next Obligation. apply N.compare_eq_iff. Qed.
Next Obligation. intros; apply N.compare_antisym. Qed.
Next Obligation. intros x y z; rewrite !N.compare_lt_iff; lia. Qed.

#[global] Program Instance byte_ordkey : OrdKey byte :=
  {| kcmp x y := N.compare (b2n x) (b2n y) |}.
Next Obligation.
  intros x y; cbn. rewrite N.compare_eq_iff. split; [apply b2n_inj | by intros ->].
Qed.
Next Obligation. intros; cbn; apply N.compare_antisym. Qed.
Next Obligation. intros x y z; cbn; rewrite !N.compare_lt_iff; lia. Qed.

(** Lexicographic order on sequences: [Ord for Vec<T>] and [[T; N]]. *)
Fixpoint lex_cmp {A} `{OrdKey A} (l k : list A) : comparison :=
  match l, k with
  | [], [] => Eq
  | [], _ :: _ => Lt
  | _ :: _, [] => Gt
  | x :: l', y :: k' =>
      match kcmp x y with Eq => lex_cmp l' k' | c => c end
  end.

Lemma lex_cmp_eq {A} `{OrdKey A} (l : list A) : forall k, lex_cmp l k = Eq <-> l = k.
Proof.
  induction l as [|x l IH]; intros [|y k]; cbn; try (split; done).
  destruct (kcmp x y) eqn:E.
  - apply kcmp_eq in E as ->. rewrite IH. split; congruence.
  - split; [done|]. intros [= -> ->]. by rewrite (proj2 (kcmp_eq y y)) in E.
  - split; [done|]. intros [= -> ->]. by rewrite (proj2 (kcmp_eq y y)) in E.
Qed.

Lemma lex_cmp_opp {A} `{OrdKey A} (l : list A) : forall k,
  lex_cmp k l = CompOpp (lex_cmp l k).
Proof.
  induction l as [|x l IH]; intros [|y k]; cbn; try done.
  rewrite (kcmp_opp x y), IH. by destruct (kcmp x y).
Qed.

Lemma lex_cmp_trans {A} `{OrdKey A} (l : list A) : forall k m,
  lex_cmp l k = Lt -> lex_cmp k m = Lt -> lex_cmp l m = Lt.
Proof.
  induction l as [|x l IH]; intros [|y k] [|z m]; cbn; try done.
  destruct (kcmp x y) eqn:Exy; [| |done]; destruct (kcmp y z) eqn:Eyz; try done.
  - apply kcmp_eq in Exy as ->. rewrite Eyz. apply IH.
  - apply kcmp_eq in Exy as ->. by rewrite Eyz.
  - apply kcmp_eq in Eyz as <-. by rewrite Exy.
  - intros _ _. by rewrite (kcmp_lt_trans _ _ _ Exy Eyz).
Qed.

#[global] Instance list_ordkey {A} `{OrdKey A} : OrdKey (list A) :=
  {| kcmp := lex_cmp; kcmp_eq := lex_cmp_eq; kcmp_opp := lex_cmp_opp;
     kcmp_lt_trans := lex_cmp_trans |}.

(** [xs.windows(2).any(|pair| pair[0] >= pair[1])] is the negation of this. *)
Fixpoint strictly_ascending {K} `{OrdKey K} (l : list K) : bool :=
  match l with
  | x :: ((y :: _) as l') => kltb x y && strictly_ascending l'
  | _ => true
  end.

Lemma strictly_ascending_sorted {K} `{OrdKey K} (l : list K) :
  strictly_ascending l = true <-> StronglySorted klt l.
Proof.
  split.
  - intros Hl. apply Sorted_StronglySorted; [apply _|].
    induction l as [|x [|y l] IH]; [repeat constructor..|].
    cbn in Hl. apply andb_true_iff in Hl as [Hxy Hl].
    constructor; [by apply IH|]. constructor. by apply kltb_klt.
  - induction 1 as [|x l Hs IH Hx]; [done|].
    destruct l as [|y l]; [done|]. cbn in *.
    apply andb_true_iff; split; [|done].
    apply kltb_klt. by inversion Hx.
Qed.

(** * Filters *)

Lemma filter_all {A} (P : A -> Prop) `{!forall x, Decision (P x)} (l : list A) :
  Forall P l -> filter P l = l.
Proof. induction 1 as [|x l Hx _ IH]; [done|]. by rewrite filter_cons_True, IH. Qed.

Lemma filter_none {A} (P : A -> Prop) `{!forall x, Decision (P x)} (l : list A) :
  Forall (fun x => ~ P x) l -> filter P l = [].
Proof. induction 1 as [|x l Hx _ IH]; [done|]. by rewrite filter_cons_False. Qed.

Lemma filter_Permutation {A} (P : A -> Prop) `{!forall x, Decision (P x)} (l k : list A) :
  l ≡ₚ k -> filter P l ≡ₚ filter P k.
Proof. by intros ->. Qed.

Lemma sublist_filter_mono {A} (P : A -> Prop) `{!forall x, Decision (P x)} (l k : list A) :
  sublist l k -> sublist (filter P l) (filter P k).
Proof.
  induction 1 as [|x l k _ IH|x l k _ IH]; [done | |]; rewrite !filter_cons;
    case_decide; by try constructor.
Qed.

(** * Sums *)

Fixpoint sum_of {A} (f : A -> N) (l : list A) : N :=
  match l with [] => 0 | x :: l' => f x + sum_of f l' end.

Lemma sum_of_app {A} (f : A -> N) l k : (sum_of f (l ++ k) = sum_of f l + sum_of f k)%N.
Proof. induction l; cbn; lia. Qed.

Lemma sum_of_perm {A} (f : A -> N) l k : l ≡ₚ k -> sum_of f l = sum_of f k.
Proof. induction 1; cbn; lia. Qed.

Lemma sum_of_bound {A} (f : A -> N) b l :
  Forall (fun x => (f x <= b)%N) l -> (sum_of f l <= b * len l)%N.
Proof. induction 1 as [|x l Hx _ IH]; cbn; [apply N.le_0_l|]. rewrite len_cons. lia. Qed.

Lemma sum_of_ext {A} (f g : A -> N) l :
  Forall (fun x => f x = g x) l -> sum_of f l = sum_of g l.
Proof. induction 1 as [|x l Hx _ IH]; [done|]. cbn. by rewrite Hx, IH. Qed.

Lemma sum_of_add {A} (f g : A -> N) l :
  (sum_of (fun x => f x + g x) l = sum_of f l + sum_of g l)%N.
Proof. induction l; cbn; lia. Qed.

Lemma len_concat {A B} (f : A -> list B) l : len (concat (f <$> l)) = sum_of (fun x => len (f x)) l.
Proof. induction l; cbn; [done|]. rewrite len_app. by f_equal. Qed.

Lemma sum_of_const {A} (c : N) (l : list A) : (sum_of (fun _ => c) l = c * len l)%N.
Proof. induction l as [|x l IH]; cbn; [by rewrite N.mul_0_r|]. rewrite IH, len_cons. lia. Qed.

Lemma sum_of_filter_le {A} (f : A -> N) (keep : A -> bool) l :
  (sum_of f (List.filter keep l) <= sum_of f l)%N.
Proof. induction l as [|x l IH]; cbn; [lia|]. destruct (keep x); cbn; lia. Qed.

Lemma len_filter_le {A} (keep : A -> bool) (l : list A) : (len (List.filter keep l) <= len l)%N.
Proof.
  induction l as [|x l IH]; cbn; [lia|].
  rewrite len_cons. destruct (keep x); rewrite ?len_cons; lia.
Qed.

Lemma existsb_false_Forall {A} (f : A -> bool) l :
  existsb f l = false <-> Forall (fun x => f x = false) l.
Proof.
  induction l as [|x l IH]; cbn; [by split|]. by rewrite orb_false_iff, Forall_cons, IH.
Qed.

Lemma Forall_List_filter {A} (P : A -> Prop) (keep : A -> bool) l :
  Forall P l -> Forall P (List.filter keep l).
Proof. induction 1 as [|x l Hx _ IH]; cbn; [done|]. destruct (keep x); by try constructor. Qed.

Lemma elem_List_filter {A} (f : A -> bool) (l : list A) x :
  x ∈ List.filter f l <-> x ∈ l /\ f x = true.
Proof. rewrite !list_elem_of_In. apply List.filter_In. Qed.

Lemma List_filter_id {A} (f : A -> bool) l : Forall (fun x => f x = true) l -> List.filter f l = l.
Proof. induction 1 as [|x l Hx _ IH]; cbn; [done|]. by rewrite Hx, IH. Qed.

Lemma List_filter_perm {A} (f : A -> bool) (l k : list A) : l ≡ₚ k -> List.filter f l ≡ₚ List.filter f k.
Proof.
  induction 1 as [|x l k _ IH|x y l|l1 l2 l3 _ IH1 _ IH2]; cbn.
  - done.
  - destruct (f x); [by constructor | done].
  - destruct (f x), (f y); try done. constructor.
  - by etrans.
Qed.

Lemma StronglySorted_List_filter {A} (R : A -> A -> Prop) (f : A -> bool) l :
  StronglySorted R l -> StronglySorted R (List.filter f l).
Proof.
  induction 1 as [|x l Hs IH Hf]; cbn; [constructor|].
  destruct (f x); [constructor; [done|]|done]. by apply Forall_List_filter.
Qed.

(** * Sorting: [sort_unstable] and [dedup] on totally ordered keys *)

Section sorting.
Context {K : Type} `{OrdKey K}.

Fixpoint kinsert (x : K) (l : list K) : list K :=
  match l with
  | [] => [x]
  | y :: l' => if kltb y x then y :: kinsert x l' else x :: l
  end.

Definition sort_unstable (l : list K) : list K := foldr kinsert [] l.

(** [Vec::dedup] removes consecutive repetitions. *)
Fixpoint dedup_from (x : K) (l : list K) : list K :=
  match l with
  | [] => []
  | y :: l' => match kcmp x y with Eq => dedup_from x l' | _ => y :: dedup_from y l' end
  end.
Definition dedup (l : list K) : list K :=
  match l with [] => [] | x :: l' => x :: dedup_from x l' end.

Definition kle (x y : K) : Prop := ~ klt y x.

#[global] Instance kle_trans : Transitive kle.
Proof.
  intros x y z Hxy Hyz Hzx. destruct (klt_total y x) as [[?|<-]|?]; [by apply Hxy | by apply Hyz |].
  apply Hyz. by transitivity x.
Qed.

Lemma kinsert_perm x l : kinsert x l ≡ₚ x :: l.
Proof.
  induction l as [|y l IH]; cbn; [done|]. destruct (kltb y x); [|done].
  rewrite IH. apply Permutation_swap.
Qed.

Lemma sort_unstable_perm l : sort_unstable l ≡ₚ l.
Proof. induction l as [|x l IH]; cbn; [done|]. by rewrite kinsert_perm, IH. Qed.

Lemma kinsert_sorted x l : StronglySorted kle l -> StronglySorted kle (kinsert x l).
Proof.
  induction 1 as [|y l Hs IH Hy]; cbn; [by repeat constructor|].
  destruct (kltb y x) eqn:E.
  - apply kltb_klt in E. constructor; [done|].
    rewrite kinsert_perm. constructor; [|done]. intros Hxy. by apply (klt_asym x y).
  - constructor; [by constructor|].
    assert (Hxy : kle x y) by (intros Hyx; apply kltb_klt in Hyx; congruence).
    constructor; [done|]. eapply Forall_impl; [exact Hy|]. intros z Hz. by transitivity y.
Qed.

Lemma sort_unstable_sorted l : StronglySorted kle (sort_unstable l).
Proof. induction l as [|x l IH]; cbn; [constructor|]. by apply kinsert_sorted. Qed.

Lemma kle_ne_klt x y : kle x y -> x <> y -> klt x y.
Proof. intros Hle Hne. destruct (klt_total x y) as [[?|?]|?]; [done | done | by destruct Hle]. Qed.

Lemma dedup_from_elem x l z : z ∈ x :: dedup_from x l <-> z ∈ x :: l.
Proof.
  revert x. induction l as [|y l IH]; intros x; cbn [dedup_from]; [done|].
  destruct (kcmp x y) eqn:E.
  - apply kcmp_eq in E as <-. rewrite IH, !elem_of_cons. tauto.
  - rewrite elem_of_cons, IH, !elem_of_cons. tauto.
  - rewrite elem_of_cons, IH, !elem_of_cons. tauto.
Qed.

Lemma dedup_from_sorted l : forall x,
  StronglySorted kle (x :: l) ->
  StronglySorted klt (x :: dedup_from x l) /\ Forall (klt x) (dedup_from x l).
Proof.
  induction l as [|y l IH]; intros x Hs; cbn [dedup_from]; [by repeat constructor|].
  inversion Hs as [|? ? Hs' Hx]; subst. inversion Hx as [|? ? Hxy Hxl]; subst.
  assert (Hgo : kcmp x y <> Eq ->
    StronglySorted klt (x :: y :: dedup_from y l) /\ Forall (klt x) (y :: dedup_from y l)).
  { intros Hne. assert (Hlt : klt x y)
      by (apply kle_ne_klt; [done|]; intros ->; by apply Hne, kcmp_eq).
    destruct (IH y Hs') as [H1 H2].
    assert (HF : Forall (klt x) (y :: dedup_from y l)).
    { constructor; [done|]. eapply Forall_impl; [exact H2|]. intros z Hz. by transitivity y. }
    split; [|done]. by constructor. }
  destruct (kcmp x y) eqn:E; [|by apply Hgo ..].
  apply kcmp_eq in E as <-. apply IH. inversion Hs' as [|? ? Hl _]; subst. by constructor.
Qed.

Lemma sort_dedup_ascending l : strictly_ascending (dedup (sort_unstable l)) = true.
Proof.
  apply strictly_ascending_sorted. pose proof (sort_unstable_sorted l) as Hs.
  destruct (sort_unstable l) as [|x k]; cbn; [constructor|]. by apply dedup_from_sorted.
Qed.

Lemma sort_dedup_elem l z : z ∈ dedup (sort_unstable l) <-> z ∈ l.
Proof.
  rewrite <- (sort_unstable_perm l) at 2.
  destruct (sort_unstable l) as [|x k]; cbn; [done|]. apply dedup_from_elem.
Qed.

(** Sorting distinct keys gives the strictly ascending list. *)
Lemma sort_NoDup_ascending l : NoDup l -> StronglySorted klt (sort_unstable l).
Proof.
  intros Hn. assert (Hn' : NoDup (sort_unstable l)) by (by rewrite sort_unstable_perm).
  pose proof (sort_unstable_sorted l) as Hs.
  induction Hs as [|x k Hs IH Hx]; [constructor|].
  inversion Hn' as [|? ? Hni Hnd]; subst. constructor; [by apply IH|].
  rewrite Forall_forall in *. intros y Hy. apply kle_ne_klt; [by apply Hx|]. by intros ->.
Qed.

(** A strictly ascending list is already sorted. *)
Lemma sort_ascending_id l : StronglySorted klt l -> sort_unstable l = l.
Proof.
  induction 1 as [|x l Hs IH Hx]; [done|]. change (kinsert x (sort_unstable l) = x :: l). rewrite IH.
  destruct Hx as [|y l Hxy _]; [done|]. cbn. destruct (kltb y x) eqn:E; [|done].
  apply kltb_klt in E. destruct (klt_asym x y); done.
Qed.
End sorting.

(** * Sorting with a comparator *)

(** [Ordering::then] *)
Definition then_cmp (c d : comparison) : comparison := match c with Eq => d | r => r end.

(** [sort_by] with a comparator *)
Definition cmp_le {A} (cmp : A -> A -> comparison) (a b : A) : Prop := cmp a b <> Gt.
#[global] Instance cmp_le_dec {A} (cmp : A -> A -> comparison) : RelDecision (cmp_le cmp).
Proof. intros a b. unfold cmp_le. apply _. Defined.
Definition sort_by {A} (cmp : A -> A -> comparison) (l : list A) : list A := merge_sort (cmp_le cmp) l.

(** What [sort_by] needs of a comparator. *)
Record comparator {A} (cmp : A -> A -> comparison) : Prop := mkComparator {
  cmp_opp : forall x y, cmp y x = CompOpp (cmp x y);
  cmp_trans : forall x y z, cmp x y <> Gt -> cmp y z <> Gt -> cmp x z <> Gt
}.

Lemma comparator_then {A} (c d : A -> A -> comparison) :
  comparator c -> comparator d -> comparator (fun x y => then_cmp (c x y) (d x y)).
Proof.
  intros [O1 T1] [O2 T2]. constructor.
  - intros x y. rewrite (O1 x y), (O2 x y). by destruct (c x y), (d x y).
  - intros x y z Hxy Hyz. assert (H1 : c x y <> Gt) by (intros E; by rewrite E in Hxy).
    assert (H2 : c y z <> Gt) by (intros E; by rewrite E in Hyz).
    pose proof (T1 _ _ _ H1 H2) as H3. destruct (c x z) eqn:E; cbn; [|done|done].
    assert (H4 : c z x <> Gt) by (rewrite (O1 x z), E; done).
    pose proof (T1 _ _ _ H2 H4) as H5. pose proof (T1 _ _ _ H4 H1) as H6.
    rewrite (O1 x y) in H5. rewrite (O1 y z) in H6.
    destruct (c x y); [|done|done]. destruct (c y z); [|done|done]. by apply (T2 x y z).
Qed.

Lemma comparator_key {A K} `{OrdKey K} (f : A -> K) : comparator (fun x y => kcmp (f x) (f y)).
Proof.
  constructor; [intros; apply kcmp_opp|]. intros x y z H1 H2 H3%kcmp_gt.
  destruct (klt_total (f x) (f y)) as [[H4|H4]|H4]; [|rewrite H4 in H3|by apply kcmp_gt in H4].
  - apply H2, kcmp_gt. by transitivity (f x).
  - by apply H2, kcmp_gt.
Qed.

Lemma comparator_rev {A} (c : A -> A -> comparison) : comparator c -> comparator (fun x y => c y x).
Proof. intros [O T]. constructor; [intros; apply O|intros x y z H1 H2; by apply (T z y x)]. Qed.

Lemma comparator_Z {A} (f : A -> Z) : comparator (fun x y => Z.compare (f x) (f y)).
Proof. constructor; [intros; apply Z.compare_antisym|intros x y z; apply Z.le_trans]. Qed.

Lemma sort_by_perm {A} (cmp : A -> A -> comparison) l : sort_by cmp l ≡ₚ l.
Proof. apply merge_sort_Permutation. Qed.

Lemma sort_by_sorted {A} (cmp : A -> A -> comparison) l :
  comparator cmp -> StronglySorted (cmp_le cmp) (sort_by cmp l).
Proof.
  intros [O T]. apply StronglySorted_merge_sort.
  - intros x y z. apply T.
  - intros x y. unfold cmp_le. rewrite (O x y). destruct (cmp x y); auto.
Qed.
