(* ===== verification/OrdMap.v ===== *)
(** Ordered maps: [std::collections::BTreeMap] as the association list in
    strictly ascending key order that iterating it yields. *)

From S2P Require Import Prelude.
From stdpp Require Import base list sorting.

(** * Operations *)

Definition bmap (K V : Type) : Type := list (K * V).

Section operations.
Context {K V : Type} `{OrdKey K}.
Implicit Types (m : bmap K V) (k : K) (v : V).

Fixpoint om_get k m : option V :=
  match m with
  | [] => None
  | (k', v) :: m' =>
      match kcmp k k' with Eq => Some v | Lt => None | Gt => om_get k m' end
  end.

Fixpoint om_insert k v m : bmap K V :=
  match m with
  | [] => [(k, v)]
  | (k', v') :: m' =>
      match kcmp k k' with
      | Lt => (k, v) :: m
      | Eq => (k, v) :: m'
      | Gt => (k', v') :: om_insert k v m'
      end
  end.

Fixpoint om_remove k m : bmap K V :=
  match m with
  | [] => []
  | (k', v') :: m' =>
      match kcmp k k' with
      | Lt => m
      | Eq => m'
      | Gt => (k', v') :: om_remove k m'
      end
  end.

Definition om_has k m : bool :=
  match om_get k m with Some _ => true | None => false end.

Definition om_keys m : list K := m.*1.
Definition om_values m : list V := m.*2.

(** [map.retain(|k, v| keep(k, v))] *)
Definition om_retain (keep : K -> V -> bool) m : bmap K V :=
  List.filter (fun kv => keep kv.1 kv.2) m.

Definition om_wf m : Prop := StronglySorted klt (om_keys m).
End operations.

(** * Laws *)

Section laws.
Context {K V : Type} `{OrdKey K}.
Implicit Types (m : bmap K V) (k : K) (v : V).

Lemma om_wf_nil : om_wf (@nil (K * V)).
Proof. constructor. Qed.

Lemma om_wf_cons_inv k v m :
  om_wf ((k, v) :: m) -> om_wf m /\ Forall (klt k) (om_keys m).
Proof. unfold om_wf; cbn. by inversion 1. Qed.

Lemma om_wf_cons k v m :
  om_wf m -> Forall (klt k) (om_keys m) -> om_wf ((k, v) :: m).
Proof. by constructor. Qed.

Lemma om_get_below k m : Forall (klt k) (om_keys m) -> om_get k m = None.
Proof.
  destruct m as [|[k' v'] m]; [done|]. cbn. inversion 1 as [|? ? Hk]; subst.
  unfold klt in Hk. by rewrite Hk.
Qed.

Lemma kcmp_refl k : kcmp k k = Eq.
Proof. by apply kcmp_eq. Qed.

Lemma om_get_insert_eq k v m : om_get k (om_insert k v m) = Some v.
Proof.
  induction m as [|[k' v'] m IH]; cbn; [by rewrite kcmp_refl|].
  destruct (kcmp k k') eqn:E; cbn; rewrite ?kcmp_refl; [done | done |].
  by rewrite E.
Qed.

Lemma om_get_insert_ne k k' v m :
  k <> k' -> om_get k' (om_insert k v m) = om_get k' m.
Proof.
  intros Hne. induction m as [|[k1 v1] m IH]; cbn.
  - destruct (kcmp k' k) eqn:E; [|done|done]. by apply kcmp_eq in E as ->.
  - destruct (kcmp k k1) eqn:E; cbn.
    + apply kcmp_eq in E as ->.
      destruct (kcmp k' k1) eqn:E'; [|done|done]. by apply kcmp_eq in E' as ->.
    + destruct (kcmp k' k) eqn:E'.
      * by apply kcmp_eq in E' as ->.
      * by rewrite (kcmp_lt_trans _ _ _ E' E).
      * done.
    + by rewrite IH.
Qed.

Lemma om_get_insert k k' v m :
  om_get k' (om_insert k v m) =
    match kcmp k' k with Eq => Some v | _ => om_get k' m end.
Proof.
  destruct (kcmp k' k) eqn:E.
  - apply kcmp_eq in E as ->. apply om_get_insert_eq.
  - apply om_get_insert_ne. intros ->. by rewrite kcmp_refl in E.
  - apply om_get_insert_ne. intros ->. by rewrite kcmp_refl in E.
Qed.

Lemma om_insert_keys_Forall (P : K -> Prop) k v m :
  P k -> Forall P (om_keys m) -> Forall P (om_keys (om_insert k v m)).
Proof.
  intros Hk. induction m as [|[k' v'] m IH]; cbn; intros Hm; [by repeat constructor|].
  inversion Hm; subst. destruct (kcmp k k'); cbn; repeat constructor; auto.
Qed.

Lemma om_wf_insert k v m : om_wf m -> om_wf (om_insert k v m).
Proof.
  induction m as [|[k' v'] m IH]; intros Hm.
  - apply om_wf_cons; [done | constructor].
  - apply om_wf_cons_inv in Hm as [Hm Hk]. cbn.
    destruct (kcmp k k') eqn:E.
    + apply kcmp_eq in E as ->. by apply om_wf_cons.
    + apply om_wf_cons; [by apply om_wf_cons|]. cbn. constructor; [done|].
      eapply Forall_impl; [done|]. intros x Hx. by transitivity k'.
    + apply om_wf_cons; [by apply IH|].
      apply om_insert_keys_Forall; [by apply kcmp_gt | done].
Qed.

Lemma om_get_elem k v m : om_wf m -> om_get k m = Some v <-> (k, v) ∈ m.
Proof.
  induction m as [|[k' v'] m IH]; intros Hm; cbn.
  - split; [done|]. by intros ?%not_elem_of_nil.
  - apply om_wf_cons_inv in Hm as [Hm Hk].
    rewrite elem_of_cons. destruct (kcmp k k') eqn:E.
    + apply kcmp_eq in E as ->. split; [intros [= ->]; by left|].
      intros [[= ->]|Hin]; [done|]. exfalso.
      rewrite Forall_forall in Hk. apply (klt_irrefl k'), Hk.
      apply list_elem_of_fmap. by exists (k', v).
    + split; [done|]. intros [[= -> ->]|Hin]; [by rewrite kcmp_refl in E|].
      exfalso. rewrite Forall_forall in Hk. apply (klt_asym k k'); [done|].
      apply Hk, list_elem_of_fmap. by exists (k, v).
    + rewrite IH by done. split; [by right|].
      intros [[= -> ->]|Hin]; [by rewrite kcmp_refl in E | done].
Qed.

Lemma om_ext m1 m2 :
  om_wf m1 -> om_wf m2 -> (forall k, om_get k m1 = om_get k m2) -> m1 = m2.
Proof.
  revert m2. induction m1 as [|[k1 v1] m1 IH]; intros [|[k2 v2] m2] H1 H2 Heq.
  - done.
  - specialize (Heq k2). cbn in Heq. by rewrite kcmp_refl in Heq.
  - specialize (Heq k1). cbn in Heq. by rewrite kcmp_refl in Heq.
  - apply om_wf_cons_inv in H1 as [H1 Hk1]. apply om_wf_cons_inv in H2 as [H2 Hk2].
    assert (k1 = k2) as ->.
    { pose proof (Heq k1) as E1. pose proof (Heq k2) as E2. cbn in E1, E2.
      rewrite kcmp_refl in E1, E2.
      destruct (kcmp k1 k2) eqn:E; [by apply kcmp_eq in E | done |].
      apply kcmp_gt in E. unfold klt in E. by rewrite E in E2. }
    assert (v1 = v2) as ->.
    { specialize (Heq k2). cbn in Heq. rewrite kcmp_refl in Heq. congruence. }
    f_equal. apply IH; [done..|]. intros k. specialize (Heq k). cbn in Heq.
    destruct (kcmp k k2) eqn:E; [| |done].
    + apply kcmp_eq in E as ->. by rewrite !om_get_below.
    + rewrite !om_get_below; [done| |]; eapply Forall_impl; try done;
        intros x Hx; by apply (kcmp_lt_trans k k2).
Qed.

Lemma om_get_keys k m : om_wf m -> om_get k m <> None <-> k ∈ om_keys m.
Proof.
  intros Hm. unfold om_keys. rewrite list_elem_of_fmap. split.
  - destruct (om_get k m) as [v|] eqn:E; [|done]. intros _.
    exists (k, v); split; [done|]. by apply om_get_elem.
  - intros ([k' v] & -> & Hin). cbn. apply om_get_elem in Hin as ->; done.
Qed.

Lemma om_keys_NoDup m : om_wf m -> NoDup (om_keys m).
Proof.
  unfold om_wf. induction 1 as [|k ks Hs IH Hk]; constructor; [|done].
  intros Hin. rewrite Forall_forall in Hk. by apply (klt_irrefl k), Hk.
Qed.

Lemma om_insert_len_new k v m :
  om_get k m = None -> len (om_insert k v m) = (1 + len m)%N.
Proof.
  induction m as [|[k' v'] m IH]; cbn; [done|].
  destruct (kcmp k k'); intros Hg; [done| |]; rewrite ?len_cons; [done|].
  rewrite IH by done. lia.
Qed.

Lemma om_insert_len_old k v v' m :
  om_get k m = Some v' -> len (om_insert k v m) = len m.
Proof.
  induction m as [|[k1 v1] m IH]; cbn; [done|].
  destruct (kcmp k k1); intros Hg; [|done|]; rewrite ?len_cons; [done|].
  rewrite IH by done. lia.
Qed.

Lemma om_insert_len_le k v m : (len (om_insert k v m) <= 1 + len m)%N.
Proof.
  destruct (om_get k m) eqn:E.
  - erewrite om_insert_len_old by done. lia.
  - rewrite om_insert_len_new by done. lia.
Qed.

Lemma om_insert_perm k v m :
  om_get k m = None -> om_insert k v m ≡ₚ (k, v) :: m.
Proof.
  induction m as [|[k' v'] m IH]; cbn; [done|].
  destruct (kcmp k k'); intros Hg; [done|done|].
  rewrite IH by done. constructor.
Qed.

Lemma om_filter_keys_sub (f : K * V -> bool) m (P : K -> Prop) :
  Forall P (om_keys m) -> Forall P (om_keys (List.filter f m)).
Proof.
  induction m as [|[k v] m IH]; cbn; [done|]. inversion 1; subst.
  destruct (f (k, v)); cbn; auto.
Qed.

Lemma om_wf_filter (f : K * V -> bool) m : om_wf m -> om_wf (List.filter f m).
Proof.
  induction m as [|[k v] m IH]; intros Hm; [done|].
  apply om_wf_cons_inv in Hm as [Hm Hk]. cbn.
  destruct (f (k, v)); [|by apply IH].
  apply om_wf_cons; [by apply IH | by apply om_filter_keys_sub].
Qed.

Lemma om_wf_retain keep m : om_wf m -> om_wf (om_retain keep m).
Proof. apply om_wf_filter. Qed.

Lemma om_get_retain keep k m :
  om_wf m ->
  om_get k (om_retain keep m) =
    match om_get k m with
    | Some v => if keep k v then Some v else None
    | None => None
    end.
Proof.
  intros Hm. destruct (om_get k (om_retain keep m)) as [v|] eqn:E.
  - apply om_get_elem in E; [|by apply om_wf_retain].
    apply list_elem_of_In, filter_In in E as [E Hk]. cbn in Hk.
    apply list_elem_of_In, om_get_elem in E; [|done]. by rewrite E, Hk.
  - destruct (om_get k m) as [v|] eqn:E'; [|done].
    destruct (keep k v) eqn:Hk; [|done].
    apply om_get_elem, list_elem_of_In in E'; [|done].
    assert (Hin : (k, v) ∈ om_retain keep m).
    { apply list_elem_of_In, filter_In; split; done. }
    apply om_get_elem in Hin; [|by apply om_wf_retain]. congruence.
Qed.

Lemma om_remove_keys_sub k m (P : K -> Prop) :
  Forall P (om_keys m) -> Forall P (om_keys (om_remove k m)).
Proof.
  induction m as [|[k' v'] m IH]; cbn; [done|]. inversion 1; subst.
  destruct (kcmp k k'); cbn; auto.
Qed.

Lemma om_wf_remove k m : om_wf m -> om_wf (om_remove k m).
Proof.
  induction m as [|[k' v'] m IH]; intros Hm; [done|].
  pose proof Hm as Hm'. apply om_wf_cons_inv in Hm as [Hm Hk]. cbn.
  destruct (kcmp k k'); [done | done |].
  apply om_wf_cons; [by apply IH | by apply om_remove_keys_sub].
Qed.

Lemma om_get_remove_eq k m : om_wf m -> om_get k (om_remove k m) = None.
Proof.
  induction m as [|[k' v'] m IH]; intros Hm; [done|].
  apply om_wf_cons_inv in Hm as [Hm Hk]. cbn.
  destruct (kcmp k k') eqn:E; cbn.
  - apply kcmp_eq in E as ->. by apply om_get_below.
  - by rewrite E.
  - rewrite E. by apply IH.
Qed.

Lemma om_get_remove_ne k k' m :
  om_wf m -> k <> k' -> om_get k' (om_remove k m) = om_get k' m.
Proof.
  intros Hm Hne. induction m as [|[k1 v1] m IH]; [done|].
  apply om_wf_cons_inv in Hm as [Hm Hk]. cbn.
  destruct (kcmp k k1) eqn:E; cbn.
  - apply kcmp_eq in E as ->. destruct (kcmp k' k1) eqn:E'.
    + by apply kcmp_eq in E' as ->.
    + apply om_get_below. eapply Forall_impl; [done|].
      intros x Hx. by apply (kcmp_lt_trans k' k1).
    + done.
  - done.
  - by rewrite IH.
Qed.

Lemma om_remove_len_le k m : (len (om_remove k m) <= len m)%N.
Proof.
  induction m as [|[k' v'] m IH]; [done|]. cbn.
  destruct (kcmp k k'); rewrite ?len_cons; lia.
Qed.

Lemma om_remove_len k m :
  om_has k m = true -> (1 + len (om_remove k m) = len m)%N.
Proof.
  unfold om_has. induction m as [|[k' v'] m IH]; cbn; [done|].
  destruct (kcmp k k'); [|done|]; intros Hh; rewrite ?len_cons; [done|].
  rewrite <- IH by done. lia.
Qed.

(** Rebuilding a map by inserting its own rows in order gives it back. *)
Lemma om_insert_snoc k v m :
  Forall (fun k' => klt k' k) (om_keys m) -> om_insert k v m = m ++ [(k, v)].
Proof.
  induction m as [|[k' v'] m IH]; cbn; [done|]. inversion 1 as [|? ? Hk Hm]; subst.
  apply kcmp_gt in Hk. rewrite Hk. by rewrite IH.
Qed.

Lemma om_wf_app_inv m1 k v m2 :
  om_wf (m1 ++ (k, v) :: m2) -> Forall (fun k' => klt k' k) (om_keys m1).
Proof.
  induction m1 as [|[k' v'] m1 IH]; cbn; [constructor|]. intros Hm.
  apply om_wf_cons_inv in Hm as [Hm Hk]. constructor; [|by apply IH].
  unfold om_keys in Hk. rewrite fmap_app, Forall_app in Hk. destruct Hk as [_ Hk].
  by inversion Hk.
Qed.

Lemma om_wf_app_l m1 m2 : om_wf (m1 ++ m2) -> om_wf m1.
Proof.
  induction m1 as [|[k' v'] m1 IH]; cbn; [constructor|]. intros Hm.
  apply om_wf_cons_inv in Hm as [Hm Hk]. apply om_wf_cons; [by apply IH|].
  unfold om_keys in *. rewrite fmap_app, Forall_app in Hk. by destruct Hk.
Qed.

Lemma om_wf_app_r m1 m2 : om_wf (m1 ++ m2) -> om_wf m2.
Proof.
  induction m1 as [|[k v] m1 IH]; [done|]. cbn [app]. intros Hm.
  apply om_wf_cons_inv in Hm as [Hm _]. by apply IH.
Qed.

(** Summing a function of the values. *)
Lemma om_sum_insert (f : V -> N) k v m :
  (sum_of f (om_values (om_insert k v m)) + from_option f 0 (om_get k m) = sum_of f (om_values m) + f v)%N.
Proof.
  unfold om_values. induction m as [|[k' v'] m IH]; cbn; [lia|]. destruct (kcmp k k'); cbn; lia.
Qed.

Lemma om_sum_remove (f : V -> N) k m :
  (sum_of f (om_values (om_remove k m)) + from_option f 0 (om_get k m) = sum_of f (om_values m))%N.
Proof.
  unfold om_values. induction m as [|[k' v'] m IH]; cbn; [lia|]. destruct (kcmp k k'); cbn; lia.
Qed.

Lemma om_values_get v m : om_wf m -> v ∈ om_values m <-> exists k, om_get k m = Some v.
Proof.
  intros Hm. unfold om_values. rewrite list_elem_of_fmap. split.
  - intros ([k v'] & -> & He). exists k. by apply om_get_elem.
  - intros [k Hk]. exists (k, v). split; [done|]. by apply om_get_elem.
Qed.
End laws.

#[export] Hint Resolve om_wf_nil om_wf_insert om_wf_remove om_wf_retain om_wf_filter : mewtual.

(** * Mapping the values *)

Definition om_map {K V W} (f : V -> W) (m : bmap K V) : bmap K W := (fun e => (e.1, f e.2)) <$> m.

Section om_map.
Context {K V W : Type} `{OrdKey K} (f : V -> W).

Lemma om_get_map k m : om_get k (om_map f m) = f <$> om_get k m.
Proof. induction m as [|[k' v] m IH]; cbn; [done|]. by destruct (kcmp k k'). Qed.

Lemma om_insert_map k v m : om_map f (om_insert k v m) = om_insert k (f v) (om_map f m).
Proof. induction m as [|[k' v'] m IH]; cbn; [done|]. destruct (kcmp k k'); cbn; [done|done|]. f_equal. apply IH. Qed.

Lemma om_keys_map (m : bmap K V) : om_keys (om_map f m) = om_keys m.
Proof. unfold om_keys, om_map. by rewrite <- list_fmap_compose. Qed.

Lemma om_values_map (m : bmap K V) : om_values (om_map f m) = f <$> om_values m.
Proof. unfold om_values, om_map. by rewrite <- !list_fmap_compose. Qed.

Lemma om_wf_map (m : bmap K V) : om_wf m -> om_wf (om_map f m).
Proof. unfold om_wf. by rewrite om_keys_map. Qed.
End om_map.
