(* ===== verification/Wire.v ===== *)
(** The canonical wire codec: [crates/catcoms-wire/src/codec.rs].

    An encoder is its buffer; a decoder is the borrowed input with a cursor,
    and every getter returns its result together with the moved cursor, errors
    included. On top of the getters sit two relations that the record codecs
    of the other files compose: [reads] (an encoding is read back, whatever
    follows it) and [consumes] (what a successful read has consumed). *)

From S2P Require Import Prelude.
From stdpp Require Import base list.
From Stdlib Require Import Init.Byte.
Local Open Scope N_scope.

(** * Errors *)

Inductive WireError : Type :=
| UnexpectedEof (needed had : N)
| LengthOverflow (l remaining : N)
| TrailingBytes (n : N)
| InvalidUtf8
| TooLarge (n : N).

#[global] Instance WireError_eq_dec : EqDecision WireError.
Proof. solve_decision. Defined.

(** * Encoder: the methods, as functions of the buffer *)

Definition put_u8 (v : N) (buf : bytes) : bytes := buf ++ be_bytes 1 v.
Definition put_u16 (v : N) (buf : bytes) : bytes := buf ++ be_bytes 2 v.
Definition put_u32 (v : N) (buf : bytes) : bytes := buf ++ be_bytes 4 v.
Definition put_u64 (v : N) (buf : bytes) : bytes := buf ++ be_bytes 8 v.
Definition put_u128 (v : N) (buf : bytes) : bytes := buf ++ be_bytes 16 v.

Definition put_bytes (v : bytes) (buf : bytes) : result WireError bytes :=
  if len v <=? u32_max
  then Ok (put_u32 (len v) buf ++ v)
  else Err (TooLarge (len v)).

(** [str::from_utf8]: the well-formed byte sequences of the Unicode standard. *)
Definition in_range (lo hi : N) (b : byte) : bool := (lo <=? b2n b) && (b2n b <=? hi).

Fixpoint utf8_valid (s : bytes) : bool :=
  match s with
  | [] => true
  | b0 :: s1 =>
      if in_range 0 127 b0 then utf8_valid s1
      else match s1 with
      | [] => false
      | b1 :: s2 =>
          if in_range 194 223 b0 then in_range 128 191 b1 && utf8_valid s2
          else match s2 with
          | [] => false
          | b2 :: s3 =>
              if in_range 224 224 b0
              then in_range 160 191 b1 && in_range 128 191 b2 && utf8_valid s3
              else if in_range 237 237 b0
              then in_range 128 159 b1 && in_range 128 191 b2 && utf8_valid s3
              else if in_range 225 239 b0
              then in_range 128 191 b1 && in_range 128 191 b2 && utf8_valid s3
              else match s3 with
              | [] => false
              | b3 :: s4 =>
                  (if in_range 240 240 b0 then in_range 144 191 b1
                   else if in_range 241 243 b0 then in_range 128 191 b1
                   else if in_range 244 244 b0 then in_range 128 143 b1
                   else false)
                  && in_range 128 191 b2 && in_range 128 191 b3 && utf8_valid s4
              end
          end
      end
  end.

(** A [&str] is a byte slice that [utf8_valid] accepts. *)
Definition put_str (v : bytes) (buf : bytes) : result WireError bytes :=
  put_bytes v buf.

(** [put_bytes(v).expect(..)] at a call site where [v] is bounded: the call
    panics only when [v] has 4 GiB or more, where this total function keeps
    the prefix modulo [2^32]. *)
Definition put_bytes_x (v : bytes) (buf : bytes) : bytes :=
  put_u32 (len v) buf ++ v.

(** * Decoder *)

Record Decoder := mkDecoder { d_input : bytes; d_pos : nat }.

Definition Decoder_new (input : bytes) : Decoder := mkDecoder input 0.

Definition remaining (d : Decoder) : N :=
  N.of_nat (length (d_input d) - d_pos d).

Definition Decoder_is_empty (d : Decoder) : bool := remaining d =? 0.

(** A read: the result, and the decoder after it (also on error). *)
Definition dec (E A : Type) : Type := Decoder -> result E A * Decoder.

#[global] Instance dec_ret E : MRet (dec E) := fun A a d => (Ok a, d).
#[global] Instance dec_bind E : MBind (dec E) :=
  fun A B k m d =>
    match m d with
    | (Ok a, d') => k a d'
    | (Err e, d') => (Err e, d')
    end.

Definition dec_lift {E A} (r : result E A) : dec E A := fun d => (r, d).
Definition dec_map_err {E F A} (f : E -> F) (m : dec E A) : dec F A :=
  fun d => let '(r, d') := m d in (map_err f r, d').

Definition take (n : N) : dec WireError bytes :=
  fun d =>
    if remaining d <? n
    then (Err (UnexpectedEof n (remaining d)), d)
    else (Ok (firstn (N.to_nat n) (skipn (d_pos d) (d_input d))),
          mkDecoder (d_input d) (d_pos d + N.to_nat n)).

Definition get_be (w : nat) : dec WireError N :=
  b ← take (N.of_nat w); mret (be_val b).

Definition get_u8 : dec WireError N := get_be 1.
Definition get_u16 : dec WireError N := get_be 2.
Definition get_u32 : dec WireError N := get_be 4.
Definition get_u64 : dec WireError N := get_be 8.
Definition get_u128 : dec WireError N := get_be 16.

(** The part of [get_bytes] after the prefix has been read. *)
Definition take_prefixed (l : N) : dec WireError bytes :=
  fun d =>
    if remaining d <? l
    then (Err (LengthOverflow l (remaining d)), d)
    else take l d.

Definition get_bytes : dec WireError bytes :=
  l ← get_u32; take_prefixed l.

Definition get_str : dec WireError bytes :=
  b ← get_bytes;
  dec_lift (if utf8_valid b then Ok b else Err InvalidUtf8).

Definition finish : dec WireError unit :=
  fun d => ((if remaining d =? 0 then Ok tt else Err (TrailingBytes (remaining d))), d).

(** Runs a read over a whole slice. *)
Definition run_dec {E A} (m : dec E A) (input : bytes) : result E A :=
  (m (Decoder_new input)).1.

(** [for _ in 0..count { v.push(read()?) }] *)
Fixpoint get_n {E A} (n : nat) (m : dec E A) : dec E (list A) :=
  match n with
  | O => mret []
  | S n' => x ← m; xs ← get_n n' m; mret (x :: xs)
  end.

(** * Laws of the codec *)

Definition d_rest (d : Decoder) : bytes := skipn (d_pos d) (d_input d).
Definition d_wf (d : Decoder) : Prop := (d_pos d <= length (d_input d))%nat.
Definition advance (n : nat) (d : Decoder) : Decoder :=
  mkDecoder (d_input d) (d_pos d + n).

Lemma remaining_rest d : remaining d = len (d_rest d).
Proof. unfold remaining, len, d_rest. by rewrite length_skipn. Qed.

Lemma d_rest_advance n d : d_rest (advance n d) = skipn n (d_rest d).
Proof. unfold d_rest, advance; cbn. by rewrite skipn_skipn, Nat.add_comm. Qed.

Lemma d_rest_advance_app bs rest d :
  d_rest d = bs ++ rest -> d_rest (advance (length bs) d) = rest.
Proof. intros H. rewrite d_rest_advance, H. by rewrite drop_app_length. Qed.

Lemma advance_0 d : advance 0 d = d.
Proof. destruct d; unfold advance; cbn. by rewrite Nat.add_0_r. Qed.

Lemma advance_advance n m d : advance n (advance m d) = advance (m + n) d.
Proof. unfold advance; cbn. f_equal; lia. Qed.

(** [m] reads [bs] as [v] whatever follows it, and moves past exactly [bs]. *)
Definition reads {E A} (m : dec E A) (bs : bytes) (v : A) : Prop :=
  forall d rest, d_rest d = bs ++ rest -> m d = (Ok v, advance (length bs) d).

(** A successful [m] has consumed some [bs] related to its result by [Q]. *)
Definition consumes {E A} (m : dec E A) (Q : A -> bytes -> Prop) : Prop :=
  forall d v d', m d = (Ok v, d') ->
    exists bs, d_rest d = bs ++ d_rest d' /\ Q v bs.

Section laws.
Context {E : Type}.

Lemma reads_ret {A} (a : A) : reads (E:=E) (mret a) [] a.
Proof. intros d rest _. cbn. by rewrite advance_0. Qed.

Lemma reads_bind {A B} (m : dec E A) (k : A -> dec E B) b1 b2 a b :
  reads m b1 a -> reads (k a) b2 b -> reads (x ← m; k x) (b1 ++ b2) b.
Proof.
  intros Hm Hk d rest Hd. rewrite <- app_assoc in Hd.
  cbv [mbind dec_bind]. rewrite (Hm d (b2 ++ rest) Hd).
  rewrite (Hk _ rest) by (by apply d_rest_advance_app).
  by rewrite advance_advance, length_app.
Qed.

Lemma reads_map_err {F A} (f : E -> F) (m : dec E A) bs a :
  reads m bs a -> reads (dec_map_err f m) bs a.
Proof.
  intros Hm d rest Hd. unfold dec_map_err. by rewrite (Hm d rest Hd).
Qed.

Lemma reads_lift_ok {A} (r : result E A) a : r = Ok a -> reads (dec_lift r) [] a.
Proof. intros -> d rest _. unfold dec_lift. by rewrite advance_0. Qed.

Lemma reads_n {A} (m : dec E A) (enc : A -> bytes) (xs : list A) :
  Forall (fun x => reads m (enc x) x) xs ->
  reads (get_n (length xs) m) (concat (enc <$> xs)) xs.
Proof.
  induction 1 as [|x xs Hx _ IH]; [apply reads_ret|].
  cbn. eapply reads_bind; [done|].
  rewrite <- (app_nil_r (concat _)). eapply reads_bind; [done|]. apply reads_ret.
Qed.

Lemma consumes_ret {A} (a : A) : consumes (E:=E) (mret a) (fun v bs => v = a /\ bs = []).
Proof.
  intros d v d' [= <- <-]. by exists [].
Qed.

Lemma consumes_lift {A} (r : result E A) :
  consumes (dec_lift r) (fun v bs => r = Ok v /\ bs = []).
Proof. intros d v d' [= -> <-]. by exists []. Qed.

Lemma consumes_bind {A B} (m : dec E A) (k : A -> dec E B) Q1 (Q2 : A -> B -> bytes -> Prop) :
  consumes m Q1 -> (forall a, consumes (k a) (Q2 a)) ->
  consumes (x ← m; k x)
    (fun b bs => exists a b1 b2, bs = b1 ++ b2 /\ Q1 a b1 /\ Q2 a b b2).
Proof.
  intros Hm Hk d b d' H. cbv [mbind dec_bind] in H.
  destruct (m d) as [[a|e] d1] eqn:E1; [|discriminate].
  destruct (Hm _ _ _ E1) as (b1 & R1 & HQ1).
  destruct (Hk _ _ _ _ H) as (b2 & R2 & HQ2).
  exists (b1 ++ b2). split; [by rewrite R1, R2, app_assoc|]. by exists a, b1, b2.
Qed.

Lemma consumes_map_err {F A} (f : E -> F) (m : dec E A) Q :
  consumes m Q -> consumes (dec_map_err f m) Q.
Proof.
  intros Hm d v d' H. unfold dec_map_err in H.
  destruct (m d) as [[a|e] d1] eqn:E1; cbn in H; [|discriminate].
  injection H as <- <-. by apply Hm.
Qed.

Lemma consumes_weaken {A} (m : dec E A) (Q Q' : A -> bytes -> Prop) :
  consumes m Q -> (forall a bs, Q a bs -> Q' a bs) -> consumes m Q'.
Proof. intros Hm HQ d v d' H. destruct (Hm _ _ _ H) as (bs & ? & ?); eauto. Qed.

Lemma consumes_n {A} (m : dec E A) (Q : A -> bytes -> Prop) n :
  consumes m Q ->
  consumes (get_n n m) (fun xs bs =>
    length xs = n /\ exists bss, bs = concat bss /\ Forall2 Q xs bss).
Proof.
  intros Hm. induction n as [|n IH].
  - eapply consumes_weaken; [apply consumes_ret|]. intros a bs [-> ->].
    split; [done|]. exists []. by split; [|constructor].
  - eapply consumes_weaken.
    { cbn. eapply (consumes_bind _ _ _ _ Hm). intros x.
      eapply (consumes_bind _ _ _ _ IH). intros xs. apply consumes_ret. }
    intros a bs (x & b1 & b2 & -> & Hx & xs & b3 & b4 & -> & [Hl Hxs] & -> & ->).
    destruct Hxs as (bss & -> & HF). split; [cbn; by rewrite Hl|].
    exists (b1 :: bss). cbn. rewrite app_nil_r. split; [done|]. by constructor.
Qed.
End laws.

(** ** The primitive reads *)

Lemma reads_take bs : reads (take (len bs)) bs bs.
Proof.
  intros d rest Hd. unfold take. rewrite remaining_rest, Hd, len_app.
  destruct (N.ltb_spec (len bs + len rest) (len bs)); [lia|].
  fold (d_rest d). rewrite Hd. unfold len. rewrite Nat2N.id.
  by rewrite take_app_length.
Qed.

Lemma reads_be w v : v < 256 ^ N.of_nat w -> reads (get_be w) (be_bytes w v) v.
Proof.
  intros Hv. unfold get_be. rewrite <- (app_nil_r (be_bytes w v)).
  eapply reads_bind.
  - rewrite <- (len_be_bytes w v). apply reads_take.
  - cbn. rewrite (be_val_be_bytes w v Hv). apply reads_ret.
Qed.

Lemma reads_u8 v : v <= u8_max -> reads get_u8 (be_bytes 1 v) v.
Proof. intros. apply reads_be. change (256 ^ N.of_nat 1) with 256. unfold u8_max in *; lia. Qed.
Lemma reads_u16 v : v <= u16_max -> reads get_u16 (be_bytes 2 v) v.
Proof. intros. apply reads_be. change (256 ^ N.of_nat 2) with 65536. unfold u16_max in *; lia. Qed.
Lemma reads_u32 v : v <= u32_max -> reads get_u32 (be_bytes 4 v) v.
Proof.
  intros. apply reads_be. change (256 ^ N.of_nat 4) with 4294967296.
  unfold u32_max in *; lia.
Qed.
Lemma reads_u64 v : v <= u64_max -> reads get_u64 (be_bytes 8 v) v.
Proof.
  intros. apply reads_be. change (256 ^ N.of_nat 8) with 18446744073709551616.
  unfold u64_max in *; lia.
Qed.
Lemma reads_u128 v : v <= u128_max -> reads get_u128 (be_bytes 16 v) v.
Proof.
  intros. apply reads_be.
  change (256 ^ N.of_nat 16) with 340282366920938463463374607431768211456.
  unfold u128_max in *; lia.
Qed.

(** The bytes one length-prefixed field occupies. *)
Definition lp (v : bytes) : bytes := be_bytes 4 (len v) ++ v.

Lemma len_lp v : len (lp v) = 4 + len v.
Proof. unfold lp. autorewrite with mewtual_len. lia. Qed.
#[export] Hint Rewrite len_lp : mewtual_len.

Lemma put_bytes_x_lp v buf : put_bytes_x v buf = buf ++ lp v.
Proof. unfold put_bytes_x, put_u32, lp. by rewrite app_assoc. Qed.

Lemma put_bytes_ok v buf : len v <= u32_max -> put_bytes v buf = Ok (buf ++ lp v).
Proof.
  intros H. unfold put_bytes. rewrite (proj2 (N.leb_le _ _) H).
  unfold put_u32, lp. by rewrite app_assoc.
Qed.

Lemma reads_bytes v : len v <= u32_max -> reads get_bytes (lp v) v.
Proof.
  intros Hv. unfold get_bytes, lp. eapply reads_bind; [by apply reads_u32|].
  intros d rest Hd. unfold take_prefixed.
  rewrite remaining_rest, Hd, len_app.
  destruct (N.ltb_spec (len v + len rest) (len v)); [lia|].
  by apply (reads_take v d rest).
Qed.

Lemma reads_str v : len v <= u32_max -> utf8_valid v = true -> reads get_str (lp v) v.
Proof.
  intros Hv Hu. unfold get_str. rewrite <- (app_nil_r (lp v)).
  eapply reads_bind; [by apply reads_bytes|]. apply reads_lift_ok. by rewrite Hu.
Qed.

Lemma consumes_take n : consumes (take n) (fun v bs => v = bs /\ len bs = n).
Proof.
  intros d v d' H. unfold take in H.
  destruct (N.ltb_spec (remaining d) n) as [|Hn]; [discriminate|].
  injection H as <- <-. fold (d_rest d) in *. rewrite remaining_rest in Hn.
  assert (Hl : length (firstn (N.to_nat n) (d_rest d)) = N.to_nat n).
  { rewrite length_firstn. unfold len in Hn. lia. }
  exists (firstn (N.to_nat n) (d_rest d)). repeat split.
  - change (mkDecoder _ _) with (advance (N.to_nat n) d).
    by rewrite d_rest_advance, take_drop.
  - unfold len. rewrite Hl. lia.
Qed.

Lemma consumes_be w :
  consumes (get_be w) (fun v bs => bs = be_bytes w v /\ v < 256 ^ N.of_nat w).
Proof.
  eapply consumes_weaken.
  { eapply consumes_bind; [apply consumes_take|]. intros a. apply consumes_ret. }
  intros v bs (a & b1 & b2 & -> & [-> Hl] & -> & ->). rewrite app_nil_r.
  assert (length b1 = w) as <- by (unfold len in Hl; lia).
  by rewrite be_bytes_be_val; split; [|apply be_val_lt].
Qed.

Lemma consumes_bytes : consumes get_bytes (fun v bs => bs = lp v /\ len v <= u32_max).
Proof.
  eapply consumes_weaken.
  { eapply (consumes_bind _ _ _ (fun l v bs => v = bs /\ len bs = l));
      [apply (consumes_be 4)|].
    intros l d v d' H. unfold take_prefixed in H.
    destruct (remaining d <? l); [discriminate|]. by apply consumes_take in H. }
  intros v bs (l & b1 & b2 & -> & [-> Hl] & -> & <-). split; [done|].
  change (256 ^ N.of_nat 4) with 4294967296 in Hl. unfold u32_max. lia.
Qed.

Lemma consumes_str :
  consumes get_str (fun v bs => bs = lp v /\ len v <= u32_max /\ utf8_valid v = true).
Proof.
  eapply consumes_weaken.
  { eapply consumes_bind; [apply consumes_bytes|]. intros a. apply consumes_lift. }
  intros v bs (a & b1 & b2 & -> & [-> Hl] & Hu & ->). rewrite app_nil_r.
  destruct (utf8_valid a) eqn:E; [|discriminate]. by injection Hu as <-.
Qed.

Lemma finish_ok d u d' : finish d = (Ok u, d') -> d' = d /\ d_rest d = [].
Proof.
  unfold finish. rewrite remaining_rest.
  destruct (N.eqb_spec (len (d_rest d)) 0) as [H|]; [|discriminate].
  intros [= _ <-]. by apply len_zero in H.
Qed.

Lemma reads_finish_run {E A} (m : dec E A) (f : WireError -> E) bs v :
  reads m bs v ->
  run_dec (x ← m; _ ← dec_map_err f finish; mret x) bs = Ok v.
Proof.
  intros Hm. unfold run_dec. cbv [mbind dec_bind].
  assert (Hd : d_rest (Decoder_new bs) = bs ++ []) by (by rewrite app_nil_r).
  rewrite (Hm _ [] Hd). unfold dec_map_err, finish.
  by rewrite remaining_rest, (d_rest_advance_app bs [] _ Hd).
Qed.

Lemma consumes_finish_run {E A} (m : dec E A) (f : WireError -> E) Q bs v :
  consumes m Q ->
  run_dec (x ← m; _ ← dec_map_err f finish; mret x) bs = Ok v -> Q v bs.
Proof.
  intros Hm. unfold run_dec. cbv [mbind dec_bind].
  destruct (m (Decoder_new bs)) as [[a|e] d1] eqn:E1; [|discriminate].
  destruct (Hm _ _ _ E1) as (b & R & HQ). unfold dec_map_err.
  destruct (finish d1) as [[u|e] d2] eqn:E2;
    cbn; [|discriminate].
  intros [= <-]. apply finish_ok in E2 as [_ E2].
  rewrite E2, app_nil_r in R. by subst b.
Qed.

(** * Any sequence of fields

    A frame is a sequence of [put_*] calls; its schema is the sequence of
    getters a reader calls in the same order. *)

Inductive field_kind := KU8 | KU16 | KU32 | KU64 | KU128 | KBytes | KStr.

Inductive field :=
| FU8 (v : N) | FU16 (v : N) | FU32 (v : N) | FU64 (v : N) | FU128 (v : N)
| FBytes (v : bytes) | FStr (v : bytes).

Definition kind_of (f : field) : field_kind :=
  match f with
  | FU8 _ => KU8 | FU16 _ => KU16 | FU32 _ => KU32 | FU64 _ => KU64
  | FU128 _ => KU128 | FBytes _ => KBytes | FStr _ => KStr
  end.

(** The value has the Rust type of its field. *)
Definition field_ok (f : field) : Prop :=
  match f with
  | FU8 v => v <= u8_max | FU16 v => v <= u16_max | FU32 v => v <= u32_max
  | FU64 v => v <= u64_max | FU128 v => v <= u128_max
  | FBytes _ => True
  | FStr v => utf8_valid v = true
  end.

Definition put_field (f : field) (buf : bytes) : result WireError bytes :=
  match f with
  | FU8 v => Ok (put_u8 v buf) | FU16 v => Ok (put_u16 v buf)
  | FU32 v => Ok (put_u32 v buf) | FU64 v => Ok (put_u64 v buf)
  | FU128 v => Ok (put_u128 v buf)
  | FBytes v => put_bytes v buf
  | FStr v => put_str v buf
  end.

Fixpoint put_fields (fs : list field) (buf : bytes) : result WireError bytes :=
  match fs with
  | [] => Ok buf
  | f :: fs' => buf' ← put_field f buf; put_fields fs' buf'
  end.

Definition get_field (k : field_kind) : dec WireError field :=
  match k with
  | KU8 => v ← get_u8; mret (FU8 v)
  | KU16 => v ← get_u16; mret (FU16 v)
  | KU32 => v ← get_u32; mret (FU32 v)
  | KU64 => v ← get_u64; mret (FU64 v)
  | KU128 => v ← get_u128; mret (FU128 v)
  | KBytes => v ← get_bytes; mret (FBytes v)
  | KStr => v ← get_str; mret (FStr v)
  end.

Fixpoint get_fields (ks : list field_kind) : dec WireError (list field) :=
  match ks with
  | [] => mret []
  | k :: ks' => f ← get_field k; fs ← get_fields ks'; mret (f :: fs)
  end.

(** Reads a schema and insists that nothing follows. *)
Definition decode_frame (ks : list field_kind) (input : bytes) : result WireError (list field) :=
  run_dec (fs ← get_fields ks; _ ← dec_map_err id finish; mret fs) input.

Definition field_bytes (f : field) : bytes :=
  match f with
  | FU8 v => be_bytes 1 v | FU16 v => be_bytes 2 v | FU32 v => be_bytes 4 v
  | FU64 v => be_bytes 8 v | FU128 v => be_bytes 16 v
  | FBytes v | FStr v => lp v
  end.

Definition field_fits (f : field) : Prop :=
  match f with FBytes v | FStr v => len v <= u32_max | _ => True end.

Lemma put_field_inv f buf out :
  put_field f buf = Ok out -> field_fits f /\ out = buf ++ field_bytes f.
Proof.
  assert (Hb : forall v, put_bytes v buf = Ok out ->
    len v <= u32_max /\ out = buf ++ lp v).
  { intros v. unfold put_bytes. destruct (N.leb_spec (len v) u32_max); [|discriminate].
    intros [= <-]. split; [done|]. unfold put_u32, lp. by rewrite app_assoc. }
  destruct f; cbn; try (intros [= <-]; done); apply Hb.
Qed.

Lemma put_field_fits f buf : field_fits f -> put_field f buf = Ok (buf ++ field_bytes f).
Proof. destruct f; cbn; try done; apply put_bytes_ok. Qed.

Lemma put_fields_inv fs : forall buf out,
  put_fields fs buf = Ok out ->
  Forall field_fits fs /\ out = buf ++ concat (field_bytes <$> fs).
Proof.
  induction fs as [|f fs IH]; intros buf out H; cbn in H.
  - injection H as <-. cbn. by rewrite app_nil_r.
  - apply bind_ok in H as (b & Hb & H). apply put_field_inv in Hb as [Hf ->].
    apply IH in H as [Hfs ->]. split; [by constructor|]. cbn. by rewrite app_assoc.
Qed.

Lemma put_fields_fits fs : forall buf,
  Forall field_fits fs -> put_fields fs buf = Ok (buf ++ concat (field_bytes <$> fs)).
Proof.
  induction fs as [|f fs IH]; intros buf Hf; cbn; [by rewrite app_nil_r|].
  inversion Hf; subst. rewrite put_field_fits by done. cbn.
  rewrite IH by done. by rewrite app_assoc.
Qed.

Lemma reads_field f :
  field_ok f -> field_fits f -> reads (get_field (kind_of f)) (field_bytes f) f.
Proof.
  destruct f as [v|v|v|v|v|v|v];
    cbn [kind_of get_field field_bytes field_ok field_fits]; intros H1 H2;
    match goal with |- reads _ ?b _ => rewrite <- (app_nil_r b) end;
    (eapply reads_bind; [|apply reads_ret]);
    auto using reads_u8, reads_u16, reads_u32, reads_u64, reads_u128, reads_bytes, reads_str.
Qed.

Lemma reads_fields fs :
  Forall field_ok fs -> Forall field_fits fs ->
  reads (get_fields (kind_of <$> fs)) (concat (field_bytes <$> fs)) fs.
Proof.
  intros Hok Hfit. induction fs as [|f fs IH]; [apply reads_ret|].
  inversion Hok; inversion Hfit; subst. cbn.
  eapply reads_bind; [by apply reads_field|].
  rewrite <- (app_nil_r (concat _)). eapply reads_bind; [by apply IH|]. apply reads_ret.
Qed.

Lemma consumes_field k :
  consumes (get_field k)
    (fun f bs => bs = field_bytes f /\ field_ok f /\ field_fits f /\ kind_of f = k).
Proof.
  assert (Hbe : forall w (F : N -> field),
    consumes (v ← get_be w; mret (F v))
      (fun f bs => exists v, f = F v /\ bs = be_bytes w v /\ v < 256 ^ N.of_nat w)).
  { intros w F. eapply consumes_weaken.
    { eapply consumes_bind; [apply consumes_be|]. intros v. apply consumes_ret. }
    intros f bs (v & b1 & b2 & -> & [-> Hv] & -> & ->). rewrite app_nil_r. eauto. }
  destruct k; cbn [get_field];
    try (eapply consumes_weaken; [apply Hbe|]; intros f bs (v & -> & -> & Hv); cbn;
         repeat split; unfold u8_max, u16_max, u32_max, u64_max, u128_max;
         vm_compute (256 ^ _) in Hv; lia).
  - eapply consumes_weaken.
    { eapply consumes_bind; [apply consumes_bytes|]. intros v. apply consumes_ret. }
    intros f bs (v & b1 & b2 & -> & [-> Hv] & -> & ->). by rewrite app_nil_r.
  - eapply consumes_weaken.
    { eapply consumes_bind; [apply consumes_str|]. intros v. apply consumes_ret. }
    intros f bs (v & b1 & b2 & -> & (-> & Hv & Hu) & -> & ->). by rewrite app_nil_r.
Qed.

Lemma consumes_fields ks :
  consumes (get_fields ks) (fun fs bs =>
    bs = concat (field_bytes <$> fs) /\ Forall field_ok fs /\ Forall field_fits fs
    /\ kind_of <$> fs = ks).
Proof.
  induction ks as [|k ks IH]; cbn.
  - eapply consumes_weaken; [apply consumes_ret|]. intros fs bs [-> ->].
    repeat split; constructor.
  - eapply consumes_weaken.
    { eapply consumes_bind; [apply consumes_field|]. intros f.
      eapply consumes_bind; [apply IH|]. intros fs. apply consumes_ret. }
    intros fs bs (f & b1 & b2 & -> & (-> & Hf & Hfit & <-) & gs & b3 & b4 & -> &
                  (-> & Hgs & Hgfit & <-) & -> & ->).
    rewrite app_nil_r. repeat split; by try constructor.
Qed.

(** * Properties *)

(** C27: Canonical framing. A schema accepts a byte string exactly when it is
    the encoding of well-typed values of that schema: whatever sequence of
    [put_*] calls built a frame reads back as the values put, and an accepted
    frame re-encodes to the same bytes, so no two byte strings decode alike. *)
Theorem wire_codec_exact (ks : list field_kind) (input : bytes) (fs : list field) :
  decode_frame ks input = Ok fs <->
  put_fields fs [] = Ok input /\ Forall field_ok fs /\ kind_of <$> fs = ks.
Proof.
  split.
  - intros H. apply (consumes_finish_run _ _ _ _ _ (consumes_fields ks)) in H
      as (-> & Hok & Hfit & Hk). by rewrite put_fields_fits.
  - intros (Hput & Hok & <-). apply put_fields_inv in Hput as [Hfit ->].
    by apply reads_finish_run, reads_fields.
Qed.

(** Truncation and extension fail. No proper prefix of an encoded frame,
    and no frame with bytes appended, decodes under the frame's schema: the
    decoder reports an error, never a truncated field or an ignored tail. *)
Theorem wire_framing_exact (fs : list field) (buf cut extra : bytes) :
  Forall field_ok fs ->
  put_fields fs [] = Ok buf ->
  extra <> [] ->
  buf = cut ++ extra \/ cut = buf ++ extra ->
  exists e, decode_frame (kind_of <$> fs) cut = Err e.
Proof.
  intros Hok Hput Hne Hcut. apply put_fields_inv in Hput as [Hfit ->].
  destruct (decode_frame (kind_of <$> fs) cut) as [gs|e] eqn:Hdec; [|by exists e].
  exfalso. apply (consumes_finish_run _ _ _ _ _ (consumes_fields _)) in Hdec
    as (-> & Hgok & Hgfit & Hk).
  pose proof (reads_fields _ Hok Hfit) as Rf.
  pose proof (reads_fields _ Hgok Hgfit) as Rg. rewrite Hk in Rg.
  assert (Hsame : forall tail1 tail2,
    concat (field_bytes <$> fs) ++ tail1 = concat (field_bytes <$> gs) ++ tail2 ->
    tail1 = tail2).
  { intros t1 t2 Ht.
    set (d := Decoder_new (concat (field_bytes <$> fs) ++ t1)).
    pose proof (Rf d t1 eq_refl) as E1.
    rewrite (Rg d t2 Ht) in E1. injection E1 as -> _.
    by apply app_inv_head in Ht. }
  cbn in *. destruct Hcut as [H|H].
  - apply Hne. symmetry. apply (Hsame [] extra). by rewrite app_nil_r.
  - apply Hne. apply (Hsame extra []). by rewrite app_nil_r.
Qed.

Lemma wire_framing_exact_witness :
  exists e, decode_frame [KU8; KBytes] [x09; x00; x00; x00; x02; x07] = Err e.
Proof.
  apply (wire_framing_exact [FU8 9; FBytes [x07; x08]]
           [x09; x00; x00; x00; x02; x07; x08] [x09; x00; x00; x00; x02; x07] [x08]).
  - repeat constructor; cbn; unfold u8_max; lia.
  - vm_compute. reflexivity.
  - discriminate.
  - left. reflexivity.
Defined.
