(* ===== verification/Context.v ===== *)
(** Document types and the exporter context: [crates/catcoms-wire/src/context.rs]. *)

From S2P Require Import Prelude.
From stdpp Require Import base list countable.
From Stdlib Require Import Init.Byte.
Local Open Scope N_scope.

(** * Document types *)

Inductive DocType : Type :=
| Channel | Wiki | Status | Calendar | InviteLedger | MemberRoles | FileIndex
| Routing | Profile | Livery | Badges | Devices | ChannelIndex | Moderation
| StudioIndex | StudioObject | PostReplies | DocRegistry.

#[global] Instance DocType_eq_dec : EqDecision DocType.
Proof. solve_decision. Defined.

(** [DocType::tag] *)
Definition doc_tag (t : DocType) : N :=
  match t with
  | Channel => 1 | Wiki => 2 | Status => 3 | Calendar => 4 | InviteLedger => 5
  | MemberRoles => 6 | FileIndex => 7 | Routing => 8 | Profile => 9
  | Livery => 10 | Badges => 11 | Devices => 12 | ChannelIndex => 13
  | Moderation => 14 | StudioIndex => 15 | StudioObject => 16
  | PostReplies => 17 | DocRegistry => 18
  end.

(** [DocType::from_tag] *)
Definition doc_from_tag (tag : N) : option DocType :=
  match tag with
  | 1 => Some Channel
  | 2 => Some Wiki
  | 3 => Some Status
  | 4 => Some Calendar
  | 5 => Some InviteLedger
  | 6 => Some MemberRoles
  | 7 => Some FileIndex
  | 8 => Some Routing
  | 9 => Some Profile
  | 10 => Some Livery
  | 11 => Some Badges
  | 12 => Some Devices
  | 13 => Some ChannelIndex
  | 14 => Some Moderation
  | 15 => Some StudioIndex
  | 16 => Some StudioObject
  | 17 => Some PostReplies
  | 18 => Some DocRegistry
  | _ => None
  end.

Definition context_bytes (doc_type_tag doc_id : N) : bytes :=
  be_bytes 2 doc_type_tag ++ be_bytes 16 doc_id.

Definition exporter_context (doc_type : DocType) (doc_id : N) : bytes :=
  context_bytes (doc_tag doc_type) doc_id.

(** * Lemmas *)

Lemma doc_tag_u16 t : doc_tag t <= u16_max.
Proof. destruct t; cbn; unfold u16_max; lia. Qed.

Lemma doc_from_tag_tag t : doc_from_tag (doc_tag t) = Some t.
Proof. by destruct t. Qed.

Lemma doc_tag_from_tag n t : doc_from_tag n = Some t -> doc_tag t = n.
Proof.
  unfold doc_from_tag. intros H.
  repeat (case_match; try discriminate; try (injection H as <-; reflexivity)).
Qed.

Lemma doc_tag_inj t1 t2 : doc_tag t1 = doc_tag t2 -> t1 = t2.
Proof.
  intros H. apply (f_equal doc_from_tag) in H.
  rewrite !doc_from_tag_tag in H. by injection H.
Qed.

#[global] Instance DocType_countable : Countable DocType.
Proof.
  apply (inj_countable doc_tag doc_from_tag), doc_from_tag_tag.
Defined.

(** * Properties *)

(** The exporter context separates documents: it is always 18 bytes, and
    two (type, id) pairs with 128-bit ids have the same context only when they
    are the same pair, so no two documents of a server share a key-derivation
    context. The stable tags that feed it are read back by [from_tag], which
    accepts nothing but the tag of the type it returns. *)
Theorem exporter_context_separates (t1 t2 : DocType) (id1 id2 : N) :
  id1 <= u128_max -> id2 <= u128_max ->
  len (exporter_context t1 id1) = 18 /\
  (exporter_context t1 id1 = exporter_context t2 id2 -> t1 = t2 /\ id1 = id2) /\
  (forall n, doc_from_tag n = Some t1 <-> n = doc_tag t1).
Proof.
  intros H1 H2. unfold exporter_context, context_bytes.
  split; [by autorewrite with mewtual_len|]. split.
  - intros H. apply app_inj_1 in H as [Ht Hid]; [|by rewrite !length_be_bytes].
    split.
    + apply doc_tag_inj, (be_bytes_inj 2); [..|done];
        apply (N.le_lt_trans _ _ _ (doc_tag_u16 _)); done.
    + apply (be_bytes_inj 16); [..|done];
        (eapply N.le_lt_trans; [eassumption|]); done.
  - intros n. split; [by intros ?%doc_tag_from_tag|]. intros ->. apply doc_from_tag_tag.
Qed.

Lemma exporter_context_separates_witness :
  exporter_context Channel 42 <> exporter_context Wiki 42.
Proof.
  destruct (exporter_context_separates Channel Wiki 42 42) as (_ & Hinj & _).
  - vm_compute. discriminate.
  - vm_compute. discriminate.
  - intros H. discriminate (proj1 (Hinj H)).
Defined.
