(* ===== verification/Pad.v ===== *)
(** Size quantization: [crates/catcoms-storage/src/pad.rs], with the storage
    layer's error type ([crates/catcoms-storage/src/lib.rs]). *)

From S2P Require Import Prelude.
From stdpp Require Import base list.
From Stdlib Require Import Init.Byte.
Local Open Scope N_scope.

(** * Errors of the storage layer

    The payloads of [Crypto], [Io] and [CommittedButNotDurable] are diagnostic
    texts and are left out. *)
Inductive StorageError : Type :=
| CidMismatch | BlobSizeLimit | KeepExhausted | KeepWorkExpired | Crypto | Io
| CommittedButNotDurable | VaultBusy | Malformed | InvalidVaultSecret.

#[global] Instance StorageError_eq_dec : EqDecision StorageError.
Proof. solve_decision. Defined.

(** * The padded frame *)

Definition PAD_FOOTER_BYTES : N := 4.
Definition OP_PAD_FLOOR : N := 512.
Definition OP_PAD_CEILING : N := 1024 * 1024.
Definition CHUNK_PAD_FLOOR : N := 4 * 1024.
Definition CHUNK_PAD_CEILING : N := 8 * 1024 * 1024.

(** [usize::next_power_of_two]: the least power of two at or above [x]. *)
Definition next_power_of_two (x : N) : N := 2 ^ N.log2_up x.

Definition padded_len (n floor ceiling : N) : N :=
  if ceiling <? n then n else next_power_of_two (N.max n floor).

Definition pad (body : bytes) (floor ceiling : N) : result StorageError bytes :=
  if u32_max <? len body then Err Malformed
  else
    let target := padded_len (len body) floor ceiling in
    Ok (body ++ replicate (N.to_nat (target - len body)) x00
             ++ be_bytes 4 (len body)).

Definition unpad (frame : bytes) (floor ceiling : N) : result StorageError bytes :=
  if len frame <? PAD_FOOTER_BYTES then Err Malformed
  else
    let split := len frame - PAD_FOOTER_BYTES in
    let n := be_val (skipn (N.to_nat split) frame) in
    if split <? n then Err Malformed
    else if negb (split =? padded_len n floor ceiling) then Err Malformed
    else if existsb (fun b => negb (bool_decide (b = x00)))
              (firstn (N.to_nat (split - n)) (skipn (N.to_nat n) frame))
    then Err Malformed
    else Ok (firstn (N.to_nat n) frame).

(** A ladder as the debug assertions require it. *)
Definition ladder (floor ceiling : N) : Prop :=
  exists a b, floor = 2 ^ a /\ ceiling = 2 ^ b /\ a <= b.

(** * Lemmas *)

Lemma next_power_of_two_ge x : x <= next_power_of_two x.
Proof.
  unfold next_power_of_two. destruct (N.le_gt_cases x 1) as [H|H].
  - assert (1 <= 2 ^ N.log2_up x); [|lia].
    change 1 with (2 ^ 0). apply N.pow_le_mono_r; lia.
  - by apply N.log2_up_spec.
Qed.

Lemma next_power_of_two_least x k : x <= 2 ^ k -> next_power_of_two x <= 2 ^ k.
Proof.
  intros H. unfold next_power_of_two. apply N.pow_le_mono_r; [lia|].
  rewrite <- (N.log2_up_pow2 k) by lia. by apply N.log2_up_le_mono.
Qed.

Lemma padded_len_ge n floor ceiling : n <= padded_len n floor ceiling.
Proof.
  unfold padded_len. destruct (N.ltb_spec ceiling n); [lia|].
  pose proof (next_power_of_two_ge (N.max n floor)); lia.
Qed.

Lemma pad_ok body floor ceiling :
  len body <= u32_max ->
  pad body floor ceiling =
    Ok (body ++ replicate (N.to_nat (padded_len (len body) floor ceiling - len body)) x00
             ++ be_bytes 4 (len body)).
Proof. intros H. unfold pad. by rewrite (proj2 (N.ltb_ge _ _) H). Qed.

Lemma len_replicate {A} n (x : A) : len (replicate n x) = N.of_nat n.
Proof. unfold len. by rewrite length_replicate. Qed.

(** A frame that [unpad] accepts has the shape that [pad] writes. *)
Lemma unpad_shape frame floor ceiling body :
  unpad frame floor ceiling = Ok body ->
  len body <= u32_max /\
  frame = body ++ replicate (N.to_nat (padded_len (len body) floor ceiling - len body)) x00
               ++ be_bytes 4 (len body).
Proof.
  unfold unpad. destruct (N.ltb_spec (len frame) PAD_FOOTER_BYTES) as [|Hf]; [done|].
  unfold PAD_FOOTER_BYTES in *. set (split := len frame - 4) in *.
  set (foot := skipn (N.to_nat split) frame). set (n := be_val foot).
  destruct (N.ltb_spec split n) as [|Hn]; [done|].
  destruct (N.eqb_spec split (padded_len n floor ceiling)) as [Hs|]; cbn [negb]; [|done].
  destruct (existsb _ _) eqn:Hz; [done|]. intros [= <-].
  assert (Hlf : length foot = 4%nat).
  { unfold foot. rewrite length_skipn. unfold split, len in *. lia. }
  assert (Hlb : len (firstn (N.to_nat n) frame) = n).
  { unfold len. rewrite length_firstn. unfold split, len in *. lia. }
  rewrite Hlb. split.
  { pose proof (be_val_lt foot) as Hb. fold n in Hb. rewrite Hlf in Hb.
    change (256 ^ N.of_nat 4) with 4294967296 in Hb. unfold u32_max. lia. }
  rewrite <- Hs.
  assert (Hfoot : be_bytes 4 n = foot) by (unfold n; rewrite <- Hlf; apply be_bytes_be_val).
  rewrite Hfoot.
  assert (Hfill : firstn (N.to_nat (split - n)) (skipn (N.to_nat n) frame)
                  = replicate (N.to_nat (split - n)) x00).
  { symmetry. apply replicate_as_Forall. split.
    - rewrite length_firstn, length_skipn. unfold split, len in *. lia.
    - apply Forall_forall. intros b Hb.
      destruct (bool_decide (b = x00)) eqn:E; [by apply bool_decide_eq_true in E as ->|].
      exfalso. assert (existsb (fun b => negb (bool_decide (b = x00)))
        (firstn (N.to_nat (split - n)) (skipn (N.to_nat n) frame)) = true); [|congruence].
      apply existsb_exists. exists b. rewrite E. split; [by apply list_elem_of_In|done]. }
  rewrite <- Hfill.
  rewrite <- (take_drop (N.to_nat n) frame) at 1. f_equal.
  rewrite <- (take_drop (N.to_nat (split - n)) (skipn (N.to_nat n) frame)) at 1.
  f_equal. unfold foot. rewrite skipn_skipn. f_equal. lia.
Qed.

Lemma unpad_pad body floor ceiling frame :
  pad body floor ceiling = Ok frame -> unpad frame floor ceiling = Ok body.
Proof.
  unfold pad. destruct (N.ltb_spec u32_max (len body)) as [|Hb]; [done|]. intros [= <-].
  pose proof (padded_len_ge (len body) floor ceiling) as Hge.
  set (t := padded_len (len body) floor ceiling) in *.
  set (fill := replicate (N.to_nat (t - len body)) x00).
  assert (Hfill : len fill = t - len body) by (unfold fill; rewrite len_replicate; lia).
  unfold unpad. cbv zeta. autorewrite with mewtual_len. rewrite Hfill. unfold PAD_FOOTER_BYTES.
  replace (len body + (t - len body + N.of_nat 4)) with (t + 4) by lia.
  destruct (N.ltb_spec (t + 4) 4); [lia|].
  replace (t + 4 - 4) with t by lia.
  assert (Hfoot : skipn (N.to_nat t) (body ++ fill ++ be_bytes 4 (len body))
                  = be_bytes 4 (len body)).
  { rewrite app_assoc. apply drop_app_length'. rewrite length_app. unfold len in *. lia. }
  rewrite Hfoot, be_val_be_bytes.
  2: { change (256 ^ N.of_nat 4) with 4294967296. unfold u32_max in Hb. lia. }
  destruct (N.ltb_spec t (len body)); [lia|].
  unfold t at 1. rewrite N.eqb_refl. cbn [negb].
  assert (Hn : N.to_nat (len body) = length body) by (unfold len; lia).
  rewrite Hn. rewrite drop_app_length, take_app_length.
  assert (Hz : firstn (N.to_nat (t - len body)) (fill ++ be_bytes 4 (len body)) = fill).
  { apply take_app_length'. unfold fill. by rewrite length_replicate. }
  rewrite Hz.
  assert (existsb (fun b => negb (bool_decide (b = x00))) fill = false) as ->; [|done].
  apply not_true_iff_false. rewrite existsb_exists. intros (b & Hin & Hb').
  apply list_elem_of_In in Hin. unfold fill in Hin.
  apply elem_of_replicate in Hin as [-> _]. by rewrite bool_decide_eq_true_2 in Hb'.
Qed.

(** * Properties *)

(** [pad] and [unpad] are inverse to each other, both ways: a padded body
    comes back byte for byte, and a frame that [unpad] accepts is exactly the
    frame [pad] writes for the body it returns. So every body has one valid
    frame, the fill carries no bits, and any other frame is [Malformed]. *)
Theorem pad_unpad_inverse (body frame : bytes) (floor ceiling : N) :
  pad body floor ceiling = Ok frame <-> unpad frame floor ceiling = Ok body.
Proof.
  split; [apply unpad_pad|]. intros H. apply unpad_shape in H as [Hb ->].
  by apply pad_ok.
Qed.

(** The observed length reveals a bucket and nothing finer. Under a
    power-of-two ladder, the frame of a body at or below the ceiling is a
    power of two between floor and ceiling plus the footer, it is the least
    such power that holds the body, growth is bounded by the ceiling, and a
    body above the ceiling grows by exactly the footer. *)
Theorem pad_quantizes (body frame : bytes) (floor ceiling : N) :
  ladder floor ceiling ->
  pad body floor ceiling = Ok frame ->
  exists bucket,
    len frame = bucket + PAD_FOOTER_BYTES /\
    len body <= bucket <= N.max (len body) ceiling /\
    (ceiling < len body -> bucket = len body) /\
    (len body <= ceiling ->
       (exists k, bucket = 2 ^ k) /\ floor <= bucket /\
       (forall k, floor <= 2 ^ k -> len body <= 2 ^ k -> bucket <= 2 ^ k)).
Proof.
  intros (a & b & -> & -> & Hab) H.
  assert (Hfl : 2 ^ a <= 2 ^ b) by (apply N.pow_le_mono_r; lia).
  unfold pad in H. destruct (N.ltb_spec u32_max (len body)); [done|]. injection H as <-.
  exists (padded_len (len body) (2 ^ a) (2 ^ b)).
  pose proof (padded_len_ge (len body) (2 ^ a) (2 ^ b)) as Hge.
  split; [|split; [|split]].
  - autorewrite with mewtual_len. rewrite len_replicate. unfold PAD_FOOTER_BYTES. lia.
  - split; [done|]. unfold padded_len.
    destruct (N.ltb_spec (2 ^ b) (len body)); [lia|].
    assert (next_power_of_two (N.max (len body) (2 ^ a)) <= 2 ^ b); [|lia].
    apply next_power_of_two_least. lia.
  - intros Hc. unfold padded_len. by rewrite (proj2 (N.ltb_lt _ _) Hc).
  - intros Hc. unfold padded_len. rewrite (proj2 (N.ltb_ge _ _) Hc). split.
    + by eexists.
    + split.
      * pose proof (next_power_of_two_ge (N.max (len body) (2 ^ a))). lia.
      * intros k H1 H2. apply next_power_of_two_least. lia.
Qed.

Lemma pad_quantizes_witness :
  exists bucket, len (replicate 512 x00 ++ be_bytes 4 0) = bucket + PAD_FOOTER_BYTES.
Proof.
  destruct (pad_quantizes [] (replicate 512 x00 ++ be_bytes 4 0) OP_PAD_FLOOR OP_PAD_CEILING)
    as (bucket & H & _).
  - exists 9, 20. vm_compute. repeat split; discriminate.
  - vm_compute. reflexivity.
  - exists bucket. exact H.
Defined.
