(* ===== verification/Dial.v ===== *)
(** The process-shared endpoint dial scheduler of
    [crates/catcoms-discovery/src/lib.rs]: [EndpointDialScheduler], its
    single-use permits, and the accounting window they are charged to.

    The scheduler's mutex makes every operation atomic, so the shared state is
    passed explicitly; the injected clock is the [now] argument each operation
    reads under the lock. The [BLAKE3] hash is a parameter. *)

From S2P Require Import Prelude.
From stdpp Require Import base list gmap.
From Stdlib Require Import Init.Byte.
Local Open Scope N_scope.

(** * Data *)

Record EndpointDialConfig := mkEndpointDialConfig {
  edc_window_ms : N;
  edc_process_limit : N;
  edc_server_limit : N;
  edc_peer_limit : N;
  edc_endpoint_limit : N;
  edc_prefix_limit : N
}.

(** [EndpointDialConfig::default] *)
Definition EndpointDialConfig_default : EndpointDialConfig :=
  mkEndpointDialConfig 60000 32 8 4 2 8.

Record DialEndpoint := mkDialEndpoint {
  ep_address : bytes;
  ep_principal : bytes;
  ep_attempt_key : bytes;
  ep_prefix_key : bytes
}.

Record EndpointDialState := mkEndpointDialState {
  generation : N;
  eds_window_start_ms : option N;
  process_spent : N;
  server_spent : gmap bytes N;
  peer_spent : gmap bytes N;
  endpoint_spent : gmap bytes N;
  prefix_spent : gmap bytes N
}.

Definition EndpointDialState_default : EndpointDialState :=
  mkEndpointDialState 0 None 0 ∅ ∅ ∅ ∅.

Record EndpointDialPermit := mkEndpointDialPermit {
  p_address : bytes;
  p_server_key : bytes;
  p_peer_key : bytes;
  p_endpoint_key : bytes;
  p_prefix_key : bytes;
  p_generation : N;
  p_window_start_ms : N
}.

(** * Operations *)

Definition increment (key : bytes) (m : gmap bytes N) : gmap bytes N :=
  <[key := sat_add u32_max (default 0 (m !! key)) 1]> m.

Definition decrement (key : bytes) (m : gmap bytes N) : gmap bytes N :=
  match m !! key with
  | None => m
  | Some value =>
      if value - 1 =? 0 then delete key m else <[key := value - 1]> m
  end.

Section scheduler.
Context (blake3 : bytes -> bytes).

Definition scoped_key (domain : bytes) (parts : list bytes) : bytes :=
  blake3 (domain ++ concat ((fun part => be_bytes 8 (len part) ++ part) <$> parts)).

Definition server_domain : bytes := bytes_of_string "catcoms/dial/server/v1".
Definition peer_domain : bytes := bytes_of_string "catcoms/dial/peer/v1".

(** A window has elapsed; a zero configured length counts as one. *)
Definition window_over (cfg : EndpointDialConfig) (start now : N) : bool :=
  N.max (edc_window_ms cfg) 1 <=? now - start.

(** Some limit of the configuration is already reached for this endpoint. *)
Definition dial_denied (cfg : EndpointDialConfig) (s : EndpointDialState)
    (server_key peer_key : bytes) (e : DialEndpoint) : bool :=
  (edc_process_limit cfg <=? process_spent s)
  || (edc_server_limit cfg <=? default 0 (server_spent s !! server_key))
  || (edc_peer_limit cfg <=? default 0 (peer_spent s !! peer_key))
  || (edc_endpoint_limit cfg <=? default 0 (endpoint_spent s !! ep_attempt_key e))
  || (edc_prefix_limit cfg <=? default 0 (prefix_spent s !! ep_prefix_key e)).

Definition charge (server_key peer_key : bytes) (e : DialEndpoint)
    (s : EndpointDialState) : EndpointDialState :=
  mkEndpointDialState (generation s) (eds_window_start_ms s)
    (sat_add u32_max (process_spent s) 1)
    (increment server_key (server_spent s))
    (increment peer_key (peer_spent s))
    (increment (ep_attempt_key e) (endpoint_spent s))
    (increment (ep_prefix_key e) (prefix_spent s)).

(** The loop of [reserve_permits] over the caller's endpoints. *)
Fixpoint grant_loop (cfg : EndpointDialConfig) (server : bytes) (start : N)
    (endpoints : list DialEndpoint) (s : EndpointDialState)
    : list EndpointDialPermit * EndpointDialState :=
  match endpoints with
  | [] => ([], s)
  | e :: endpoints' =>
      let server_key := scoped_key server_domain [server] in
      let peer_key := scoped_key peer_domain [server; ep_principal e] in
      if dial_denied cfg s server_key peer_key e
      then grant_loop cfg server start endpoints' s
      else
        let s' := charge server_key peer_key e s in
        let '(granted, s'') := grant_loop cfg server start endpoints' s' in
        (mkEndpointDialPermit (ep_address e) server_key peer_key
           (ep_attempt_key e) (ep_prefix_key e) (generation s') start
         :: granted, s'')
  end.

(** The window roll at the top of [reserve_permits]: [None] when the
    generation counter is exhausted and the call must grant nothing. *)
Definition roll_window (cfg : EndpointDialConfig) (now : N) (s : EndpointDialState)
    : option EndpointDialState :=
  let expired :=
    match eds_window_start_ms s with
    | None => true
    | Some start => window_over cfg start now
    end in
  if expired then
    let g := sat_add u64_max (generation s) 1 in
    if g =? generation s then None
    else Some (mkEndpointDialState g (Some now) 0 ∅ ∅ ∅ ∅)
  else Some s.

Definition reserve_permits (cfg : EndpointDialConfig) (now : N) (server : bytes)
    (endpoints : list DialEndpoint) (s : EndpointDialState)
    : list EndpointDialPermit * EndpointDialState :=
  match roll_window cfg now s with
  | None => ([], s)
  | Some s1 => grant_loop cfg server (default 0 (eds_window_start_ms s1)) endpoints s1
  end.

(** [Drop for EndpointDialPermit], for a permit that was not started. *)
Definition permit_drop (p : EndpointDialPermit) (s : EndpointDialState) : EndpointDialState :=
  if negb (generation s =? p_generation p) then s
  else mkEndpointDialState (generation s) (eds_window_start_ms s)
         (process_spent s - 1)
         (decrement (p_server_key p) (server_spent s))
         (decrement (p_peer_key p) (peer_spent s))
         (decrement (p_endpoint_key p) (endpoint_spent s))
         (decrement (p_prefix_key p) (prefix_spent s)).

(** [commit_current] consumes the permit: a refusal runs its destructor. *)
Definition commit_current (cfg : EndpointDialConfig) (now : N) (p : EndpointDialPermit)
    (s : EndpointDialState) : option bytes * EndpointDialState :=
  if negb (generation s =? p_generation p)
     || window_over cfg (p_window_start_ms p) now
  then (None, permit_drop p s)
  else (Some (p_address p), s).

(** [reserve]: reserve, then start every permit; [clock i] is the reading
    the i-th start makes. *)
Fixpoint start_all (cfg : EndpointDialConfig) (clock : nat -> N)
    (ps : list EndpointDialPermit) (s : EndpointDialState)
    : list bytes * EndpointDialState :=
  match ps with
  | [] => ([], s)
  | p :: ps' =>
      let '(o, s1) := commit_current cfg (clock 0%nat) p s in
      let '(rest, s2) := start_all cfg (fun i => clock (S i)) ps' s1 in
      (match o with Some a => a :: rest | None => rest end, s2)
  end.

Definition reserve (cfg : EndpointDialConfig) (now : N) (clock : nat -> N)
    (server : bytes) (endpoints : list DialEndpoint) (s : EndpointDialState)
    : list bytes * EndpointDialState :=
  let '(ps, s1) := reserve_permits cfg now server endpoints s in
  start_all cfg clock ps s1.
End scheduler.

(** * Counters as tallies

    A counter map tallies a list of charged keys: every key maps to the number
    of times it occurs, and absent keys do not occur. *)

Fixpoint occ (k : bytes) (l : list bytes) : N :=
  match l with
  | [] => 0
  | x :: l' => (if decide (x = k) then 1 else 0) + occ k l'
  end.

Definition tallies (m : gmap bytes N) (l : list bytes) : Prop :=
  forall k, m !! k = if occ k l =? 0 then None else Some (occ k l).

Lemma occ_app k l1 l2 : occ k (l1 ++ l2) = occ k l1 + occ k l2.
Proof. induction l1; cbn; lia. Qed.

Lemma occ_perm k l1 l2 : l1 ≡ₚ l2 -> occ k l1 = occ k l2.
Proof. induction 1; cbn; lia. Qed.

Lemma occ_le_len k l : occ k l <= len l.
Proof. induction l as [|x l IH]; cbn; [done|]. rewrite len_cons. case_decide; lia. Qed.

Lemma tallies_nil : tallies ∅ [].
Proof. intros k. by rewrite lookup_empty. Qed.

Lemma tallies_perm m l1 l2 : l1 ≡ₚ l2 -> tallies m l1 -> tallies m l2.
Proof. intros Hp Hm k. by rewrite <- (occ_perm k _ _ Hp). Qed.

Lemma tallies_default m l k : tallies m l -> default 0 (m !! k) = occ k l.
Proof. intros Hm. rewrite Hm. destruct (N.eqb_spec (occ k l) 0); cbn; lia. Qed.

Lemma tallies_increment m l k :
  occ k l < u32_max -> tallies m l -> tallies (increment k m) (k :: l).
Proof.
  intros Hlt Hm k'. unfold increment, sat_add. cbn [occ]. rewrite lookup_insert.
  rewrite (tallies_default _ _ _ Hm). case_decide; subst.
  - replace (1 + occ k' l =? 0) with false by (symmetry; apply N.eqb_neq; lia).
    f_equal. lia.
  - rewrite Hm. by rewrite N.add_0_l.
Qed.

Lemma tallies_decrement m l k : tallies m (k :: l) -> tallies (decrement k m) l.
Proof.
  intros Hm k'. unfold decrement.
  assert (Hk : m !! k = Some (1 + occ k l)).
  { rewrite Hm. cbn [occ]. rewrite decide_True by done.
    by replace (1 + occ k l =? 0) with false by (symmetry; apply N.eqb_neq; lia). }
  rewrite Hk. replace (1 + occ k l - 1) with (occ k l) by lia.
  specialize (Hm k'). cbn [occ] in Hm.
  destruct (N.eqb_spec (occ k l) 0) as [H0|H0].
  - rewrite lookup_delete. case_decide; subst; [by rewrite H0|].
    by rewrite Hm, N.add_0_l.
  - rewrite lookup_insert. case_decide; subst.
    + by rewrite (proj2 (N.eqb_neq _ _) H0).
    + by rewrite Hm, N.add_0_l.
Qed.

Lemma tallies_unique m1 m2 l : tallies m1 l -> tallies m2 l -> m1 = m2.
Proof. intros H1 H2. apply map_eq. intros k. by rewrite H1, H2. Qed.

Lemma tallies_size m l : tallies m l -> N.of_nat (size m) <= len l.
Proof.
  intros Hm. assert (Hsub : dom m ⊆ list_to_set l).
  { intros k Hk. apply elem_of_dom in Hk as [v Hv]. rewrite Hm in Hv.
    destruct (N.eqb_spec (occ k l) 0) as [|Hn]; [done|].
    apply elem_of_list_to_set. clear Hm Hv. induction l as [|x l IH]; [done|].
    cbn in Hn. case_decide; subst; [by left|]. right. apply IH. lia. }
  apply subseteq_size in Hsub. rewrite size_dom in Hsub.
  assert (size (list_to_set l : gset bytes) <= length l)%nat.
  { clear Hsub Hm. induction l as [|x l IH]; cbn; [by rewrite size_empty|].
    pose proof (size_union_alt {[x]} (list_to_set l : gset bytes)) as Hs.
    rewrite Hs, size_singleton.
    assert (size ((list_to_set l : gset bytes) ∖ {[x]}) <= size (list_to_set l : gset bytes))%nat
      by (apply subseteq_size, subseteq_difference_l; done).
    lia. }
  unfold len. lia.
Qed.

(** * The scheduler as a transition system

    [live] are the permits handed out and neither started nor dropped;
    [dialled] are the permits whose start succeeded, that is, the sockets the
    scheduler has let the process open. *)

Record dial_world := mkDialWorld {
  dw_state : EndpointDialState;
  dw_live : list EndpointDialPermit;
  dw_dialled : list EndpointDialPermit
}.

Definition dial_init : dial_world := mkDialWorld EndpointDialState_default [] [].

Inductive dial_step (blake3 : bytes -> bytes) (cfg : EndpointDialConfig)
    : dial_world -> dial_world -> Prop :=
| dial_reserve now server eps s live dialled ps s' :
    reserve_permits blake3 cfg now server eps s = (ps, s') ->
    dial_step blake3 cfg (mkDialWorld s live dialled) (mkDialWorld s' (ps ++ live) dialled)
| dial_start now p l1 l2 s dialled a s' :
    commit_current cfg now p s = (Some a, s') ->
    dial_step blake3 cfg (mkDialWorld s (l1 ++ p :: l2) dialled)
      (mkDialWorld s' (l1 ++ l2) (p :: dialled))
| dial_refused now p l1 l2 s dialled s' :
    commit_current cfg now p s = (None, s') ->
    dial_step blake3 cfg (mkDialWorld s (l1 ++ p :: l2) dialled)
      (mkDialWorld s' (l1 ++ l2) dialled)
| dial_dropped p l1 l2 s dialled :
    dial_step blake3 cfg (mkDialWorld s (l1 ++ p :: l2) dialled)
      (mkDialWorld (permit_drop p s) (l1 ++ l2) dialled).

Definition of_generation (g : N) (p : EndpointDialPermit) : Prop := p_generation p = g.
#[global] Instance of_generation_dec g p : Decision (of_generation g p).
Proof. unfold of_generation; apply _. Defined.

(** The permits charged to the current window. *)
Definition charged (w : dial_world) : list EndpointDialPermit :=
  filter (of_generation (generation (dw_state w))) (dw_live w ++ dw_dialled w).

(** The counters tally [ps], and no limit is exceeded. *)
Record accounts (cfg : EndpointDialConfig) (s : EndpointDialState)
    (ps : list EndpointDialPermit) : Prop := mkAccounts {
  acc_process : process_spent s = len ps;
  acc_server : tallies (server_spent s) (p_server_key <$> ps);
  acc_peer : tallies (peer_spent s) (p_peer_key <$> ps);
  acc_endpoint : tallies (endpoint_spent s) (p_endpoint_key <$> ps);
  acc_prefix : tallies (prefix_spent s) (p_prefix_key <$> ps);
  acc_process_le : len ps <= edc_process_limit cfg;
  acc_server_le : forall k, occ k (p_server_key <$> ps) <= edc_server_limit cfg;
  acc_peer_le : forall k, occ k (p_peer_key <$> ps) <= edc_peer_limit cfg;
  acc_endpoint_le : forall k, occ k (p_endpoint_key <$> ps) <= edc_endpoint_limit cfg;
  acc_prefix_le : forall k, occ k (p_prefix_key <$> ps) <= edc_prefix_limit cfg
}.

(** The configuration's limits are [u32]. *)
Definition dial_config_ok (cfg : EndpointDialConfig) : Prop :=
  edc_process_limit cfg <= u32_max /\ edc_server_limit cfg <= u32_max /\
  edc_peer_limit cfg <= u32_max /\ edc_endpoint_limit cfg <= u32_max /\
  edc_prefix_limit cfg <= u32_max.

Definition dial_inv (cfg : EndpointDialConfig) (w : dial_world) : Prop :=
  accounts cfg (dw_state w) (charged w) /\
  generation (dw_state w) <= u64_max /\
  Forall (fun p => p_generation p <= generation (dw_state w)) (dw_live w ++ dw_dialled w).

(** The limits one accounting window promises on a list of permits. *)
Definition limits_ok (cfg : EndpointDialConfig) (ps : list EndpointDialPermit) : Prop :=
  len ps <= edc_process_limit cfg /\
  forall k, occ k (p_server_key <$> ps) <= edc_server_limit cfg /\
            occ k (p_peer_key <$> ps) <= edc_peer_limit cfg /\
            occ k (p_endpoint_key <$> ps) <= edc_endpoint_limit cfg /\
            occ k (p_prefix_key <$> ps) <= edc_prefix_limit cfg.

Lemma accounts_perm cfg s ps ps' : ps ≡ₚ ps' -> accounts cfg s ps -> accounts cfg s ps'.
Proof.
  intros Hp [].
  assert (Hl : len ps = len ps') by (unfold len; by rewrite (Permutation_length Hp)).
  assert (Hf : forall f : EndpointDialPermit -> bytes, f <$> ps ≡ₚ f <$> ps')
    by (intros f; by apply Permutation_map).
  constructor; try congruence; try (eapply tallies_perm; [apply Hf|done]);
    intros k; rewrite <- (occ_perm k _ _ (Hf _)); done.
Qed.

Lemma accounts_nil cfg g start : accounts cfg (mkEndpointDialState g start 0 ∅ ∅ ∅ ∅) [].
Proof. constructor; cbn; auto using tallies_nil; intros; apply N.le_0_l. Qed.

Lemma dial_denied_false cfg s ps sk pk e :
  accounts cfg s ps -> dial_denied cfg s sk pk e = false ->
  len ps < edc_process_limit cfg /\
  occ sk (p_server_key <$> ps) < edc_server_limit cfg /\
  occ pk (p_peer_key <$> ps) < edc_peer_limit cfg /\
  occ (ep_attempt_key e) (p_endpoint_key <$> ps) < edc_endpoint_limit cfg /\
  occ (ep_prefix_key e) (p_prefix_key <$> ps) < edc_prefix_limit cfg.
Proof.
  intros [] H. unfold dial_denied in H. bool_simpl.
  repeat match goal with
  | Ht : tallies ?m ?l, Hb : context [default 0 (?m !! ?k)] |- _ =>
      rewrite (tallies_default m l k Ht) in Hb
  end.
  repeat split; lia.
Qed.

Lemma accounts_charge cfg s ps sk pk e g start :
  dial_config_ok cfg -> accounts cfg s ps -> dial_denied cfg s sk pk e = false ->
  accounts cfg (charge sk pk e s)
    (mkEndpointDialPermit (ep_address e) sk pk (ep_attempt_key e) (ep_prefix_key e) g start :: ps).
Proof.
  intros (C1 & C2 & C3 & C4 & C5) Ha Hd.
  destruct (dial_denied_false _ _ _ _ _ _ Ha Hd) as (D1 & D2 & D3 & D4 & D5).
  destruct Ha. unfold charge. constructor; cbn.
  - rewrite len_cons. unfold sat_add. lia.
  - apply tallies_increment; [lia|done].
  - apply tallies_increment; [lia|done].
  - apply tallies_increment; [lia|done].
  - apply tallies_increment; [lia|done].
  - rewrite len_cons. lia.
  - intros k. specialize (acc_server_le0 k). case_decide; subst; lia.
  - intros k. specialize (acc_peer_le0 k). case_decide; subst; lia.
  - intros k. specialize (acc_endpoint_le0 k). case_decide; subst; lia.
  - intros k. specialize (acc_prefix_le0 k). case_decide; subst; lia.
Qed.

Lemma accounts_refund cfg s p ps :
  accounts cfg s (p :: ps) -> p_generation p = generation s ->
  accounts cfg (permit_drop p s) ps.
Proof.
  intros [] Hg. unfold permit_drop. rewrite Hg, N.eqb_refl. cbn [negb].
  assert (Hocc : forall (f : EndpointDialPermit -> bytes) k lim,
    occ k (f <$> p :: ps) <= lim -> occ k (f <$> ps) <= lim).
  { intros f k lim. cbn [fmap list_fmap occ]. case_decide; lia. }
  rewrite len_cons in *.
  constructor; cbn; try (apply tallies_decrement; done); try (intros k; eapply Hocc; done);
    lia.
Qed.

Section invariant.
Context (blake3 : bytes -> bytes) (cfg : EndpointDialConfig).
Hypothesis Hcfg : dial_config_ok cfg.

Lemma grant_loop_accounts server start eps : forall s ps granted s',
  accounts cfg s ps ->
  grant_loop blake3 cfg server start eps s = (granted, s') ->
  accounts cfg s' (granted ++ ps) /\ generation s' = generation s /\
  eds_window_start_ms s' = eds_window_start_ms s /\
  Forall (fun p => p_generation p = generation s /\ p_window_start_ms p = start) granted.
Proof using All.
  induction eps as [|e eps IH]; intros s ps granted s' Ha H; cbn in H.
  - injection H as <- <-. by split_and!.
  - destruct (dial_denied _ _ _ _ _) eqn:Hd; [by eapply IH|].
    destruct (grant_loop _ _ _ _ _ (charge _ _ _ _)) as [gr s1] eqn:E.
    injection H as <- <-.
    eapply (IH _ _ _ _ (accounts_charge _ _ _ _ _ _ (generation s) start Hcfg Ha Hd))
      in E as (Ha1 & Hg & Hw & HF).
    split_and!.
    + eapply accounts_perm; [|done]. cbn. by rewrite <- Permutation_middle.
    + done.
    + done.
    + constructor; [done|]. exact HF.
Qed.

Lemma reserve_permits_accounts now server eps w ps s' :
  dial_inv cfg w ->
  reserve_permits blake3 cfg now server eps (dw_state w) = (ps, s') ->
  dial_inv cfg (mkDialWorld s' (ps ++ dw_live w) (dw_dialled w)).
Proof using All.
  destruct w as [s live dialled]. unfold dial_inv, charged; cbn.
  intros (Ha & Hmax & HF) H. unfold reserve_permits, roll_window in H.
  set (all := live ++ dialled) in *.
  assert (Hnone : ps = [] -> s' = s ->
    accounts cfg s' (filter (of_generation (generation s')) ((ps ++ live) ++ dialled))
    /\ generation s' <= u64_max
    /\ Forall (fun p => p_generation p <= generation s') ((ps ++ live) ++ dialled))
    by (by intros -> ->).
  assert (Hgo : forall s1 st,
    accounts cfg s1 (filter (of_generation (generation s1)) all) ->
    generation s <= generation s1 <= u64_max ->
    grant_loop blake3 cfg server st eps s1 = (ps, s') ->
    accounts cfg s' (filter (of_generation (generation s')) ((ps ++ live) ++ dialled))
    /\ generation s' <= u64_max
    /\ Forall (fun p => p_generation p <= generation s') ((ps ++ live) ++ dialled)).
  { intros s1 st Ha1 Hle Hg.
    destruct (grant_loop_accounts _ _ _ _ _ _ _ Ha1 Hg) as (Ha2 & Hg2 & _ & HF2).
    rewrite <- app_assoc. fold all. split_and!.
    - rewrite filter_app, Hg2.
      rewrite (filter_all _ ps); [done|].
      eapply Forall_impl; [exact HF2|]. by intros p [? _].
    - lia.
    - apply Forall_app. rewrite Hg2. split.
      + eapply Forall_impl; [exact HF2|]. intros p [-> _]. lia.
      + eapply Forall_impl; [exact HF|]. cbn. lia. }
  destruct (match eds_window_start_ms s with None => true | Some _ => _ end).
  - destruct (N.eqb_spec (sat_add u64_max (generation s) 1) (generation s)) as [|Hne].
    + injection H as <- <-. by apply Hnone.
    + eapply Hgo; [| |exact H]; cbn; [|unfold sat_add in *; lia].
      assert (filter (of_generation (sat_add u64_max (generation s) 1)) all = []) as ->.
      { apply filter_none. eapply Forall_impl; [exact HF|]. cbn.
        unfold of_generation, sat_add in *. intros p Hp Heq. lia. }
      apply accounts_nil.
  - eapply Hgo; [done|lia|exact H].
Qed.

Lemma permit_drop_accounts s l1 p l2 dialled :
  dial_inv cfg (mkDialWorld s (l1 ++ p :: l2) dialled) ->
  dial_inv cfg (mkDialWorld (permit_drop p s) (l1 ++ l2) dialled).
Proof using All.
  unfold dial_inv, charged; cbn. intros (Ha & Hmax & HF).
  assert (Hg : generation (permit_drop p s) = generation s)
    by (unfold permit_drop; by destruct (negb _)).
  rewrite Hg. rewrite <- app_assoc in *. cbn in *. split_and!; [|done|].
  - rewrite filter_app, filter_cons in Ha. rewrite filter_app.
    destruct (decide (of_generation (generation s) p)) as [Hp|Hp].
    + apply accounts_refund; [|done].
      eapply accounts_perm; [|done]. by rewrite <- Permutation_middle.
    + unfold permit_drop. replace (generation s =? p_generation p) with false; [done|].
      symmetry. apply N.eqb_neq. intros Heq. by apply Hp.
  - rewrite Forall_app in *. destruct HF as [HF1 HF2]. split; [done|]. by inversion HF2.
Qed.

Lemma commit_accounts s l1 p l2 dialled now a s' :
  dial_inv cfg (mkDialWorld s (l1 ++ p :: l2) dialled) ->
  commit_current cfg now p s = (Some a, s') ->
  dial_inv cfg (mkDialWorld s' (l1 ++ l2) (p :: dialled)).
Proof using All.
  unfold commit_current. destruct (_ || _); [done|]. intros Hi [= <- <-].
  assert (Hp : (l1 ++ p :: l2) ++ dialled ≡ₚ (l1 ++ l2) ++ p :: dialled).
  { rewrite <- (Permutation_middle l1 l2 p), <- (Permutation_middle (l1 ++ l2) dialled p).
    done. }
  destruct Hi as (Ha & Hmax & HF). split_and!; unfold charged in *; cbn in *.
  - eapply accounts_perm; [|done]. by rewrite Hp.
  - done.
  - by rewrite <- Hp.
Qed.

Lemma dial_step_inv w w' : dial_inv cfg w -> dial_step blake3 cfg w w' -> dial_inv cfg w'.
Proof using All.
  intros Hi Hs. revert Hi. destruct Hs as [now server eps s live dialled ps s' H
            |now p l1 l2 s dialled a s' H
            |now p l1 l2 s dialled s' H
            |p l1 l2 s dialled]; intros Hi.
  - exact (reserve_permits_accounts now server eps _ ps s' Hi H).
  - exact (commit_accounts s l1 p l2 dialled now a s' Hi H).
  - unfold commit_current in H. destruct (_ || _); [|done]. injection H as <-.
    by apply permit_drop_accounts.
  - by apply permit_drop_accounts.
Qed.

Lemma limits_sub ps ps' : sublist ps' ps -> limits_ok cfg ps -> limits_ok cfg ps'.
Proof using Type.
  intros Hs (H0 & H1).
  assert (Hf : forall f : EndpointDialPermit -> bytes, forall k,
    occ k (f <$> ps') <= occ k (f <$> ps)).
  { intros f k. clear -Hs. induction Hs; cbn; lia. }
  split; [apply sublist_length in Hs; unfold len in *; lia|].
  intros k. specialize (H1 k) as (? & ? & ? & ?).
  pose proof (Hf p_server_key k). pose proof (Hf p_peer_key k).
  pose proof (Hf p_endpoint_key k). pose proof (Hf p_prefix_key k). split_and!; lia.
Qed.

Lemma limits_perm ps ps' : ps ≡ₚ ps' -> limits_ok cfg ps -> limits_ok cfg ps'.
Proof using Type.
  intros Hp (H0 & H1). split; [unfold len in *; by rewrite <- (Permutation_length Hp)|].
  intros k. specialize (H1 k).
  by rewrite <- !(occ_perm k _ _ (Permutation_map _ Hp)).
Qed.

Lemma accounts_limits s ps : accounts cfg s ps -> limits_ok cfg ps.
Proof using Type. intros []. split; [done|]. intros k. by split_and!. Qed.

(** Every window, past or present, has stayed within the limits. *)
Definition all_windows_ok (w : dial_world) : Prop :=
  forall g, limits_ok cfg (filter (of_generation g) (dw_live w ++ dw_dialled w)).

Lemma grant_loop_stamps server st l : forall s1 ps1 s2,
  grant_loop blake3 cfg server st l s1 = (ps1, s2) ->
  generation s2 = generation s1 /\ eds_window_start_ms s2 = eds_window_start_ms s1 /\
  Forall (fun p => p_generation p = generation s1 /\ p_window_start_ms p = st) ps1.
Proof using Type.
  induction l as [|e l IH]; intros s1 ps1 s2 H; cbn in H.
  - by injection H as <- <-.
  - destruct (dial_denied _ _ _ _ _); [by apply IH|].
    destruct (grant_loop _ _ _ _ _ _) as [g3 s3] eqn:E. injection H as <- <-.
    apply IH in E as (Hg & Hw & HF). split_and!; [done | done |]. by constructor.
Qed.

Lemma reserve_permits_stamps now server eps s ps s' :
  reserve_permits blake3 cfg now server eps s = (ps, s') ->
  Forall (fun p => p_generation p = generation s' /\
                   p_window_start_ms p = default 0 (eds_window_start_ms s')) ps.
Proof using Type.
  unfold reserve_permits. destruct (roll_window cfg now s) as [s1|].
  - intros H. apply grant_loop_stamps in H as (-> & -> & HF).
    eapply Forall_impl; [exact HF|]. by intros p [-> ->].
  - by intros [= <- <-].
Qed.

Lemma dial_step_windows w w' :
  dial_inv cfg w -> all_windows_ok w -> dial_step blake3 cfg w w' -> all_windows_ok w'.
Proof using Hcfg.
  intros Hi Hw Hs. pose proof (dial_step_inv _ _ Hi Hs) as Hi'. intros g. specialize (Hw g).
  revert Hi' Hw. destruct Hs as [now server eps s live dialled ps s' H
            |now p l1 l2 s dialled a s' H
            |now p l1 l2 s dialled s' H
            |p l1 l2 s dialled]; intros Hi' Hw; cbn in *.
  - destruct (decide (g = generation s')) as [->|Hg].
    + destruct Hi' as (Ha & _). by apply accounts_limits in Ha.
    + rewrite <- app_assoc, filter_app, (filter_none _ ps); [done|].
      eapply Forall_impl; [by eapply reserve_permits_stamps|].
      cbn. unfold of_generation. intros p [-> _] ?. done.
  - eapply limits_perm; [|exact Hw]. apply filter_Permutation.
    rewrite <- !Permutation_middle. done.
  - eapply limits_sub; [|exact Hw]. apply sublist_filter_mono.
    apply sublist_app; [|done]. apply sublist_app; [done|]. by constructor.
  - eapply limits_sub; [|exact Hw]. apply sublist_filter_mono.
    apply sublist_app; [|done]. apply sublist_app; [done|]. by constructor.
Qed.

Lemma dial_reachable_inv w :
  rtc (dial_step blake3 cfg) dial_init w -> dial_inv cfg w /\ all_windows_ok w.
Proof using All.
  assert (H0 : dial_inv cfg dial_init) by (split_and!; [apply accounts_nil | done | constructor]).
  assert (H1 : all_windows_ok dial_init) by (intros g; split; [|intros k]; cbn; split_and?; apply N.le_0_l).
  intros H. revert w H. apply (rtc_ind_r _ dial_init); [done|].
  intros w w' _ Hs [IH1 IH2].
  split; [by eapply dial_step_inv | by eapply dial_step_windows].
Qed.
End invariant.

(** Dropping permits of the running window, in any order, undoes their charge. *)
Lemma drop_all_accounts cfg ps : forall s qs,
  accounts cfg s (ps ++ qs) -> Forall (fun p => p_generation p = generation s) ps ->
  let s' := fold_left (fun s p => permit_drop p s) ps s in
  accounts cfg s' qs /\ generation s' = generation s /\
  eds_window_start_ms s' = eds_window_start_ms s.
Proof.
  induction ps as [|p ps IH]; intros s qs Ha HF; cbn; [done|].
  inversion HF as [|? ? Hp HF']; subst.
  assert (Hs : generation (permit_drop p s) = generation s /\
               eds_window_start_ms (permit_drop p s) = eds_window_start_ms s)
    by (unfold permit_drop; by destruct (negb _)).
  destruct Hs as [Hg Hw]. pose proof (accounts_refund _ _ _ _ Ha Hp) as Ha'.
  destruct (IH _ _ Ha') as (A & B & C); [by rewrite Hg|].
  split_and!; [done | congruence | congruence].
Qed.

Lemma accounts_unique cfg s1 s2 ps :
  accounts cfg s1 ps -> accounts cfg s2 ps -> generation s1 = generation s2 ->
  eds_window_start_ms s1 = eds_window_start_ms s2 -> s1 = s2.
Proof.
  intros A B Hg Hw. destruct s1, s2, A, B; cbn in *. f_equal; try congruence;
    by eapply tallies_unique.
Qed.

Lemma roll_window_accounts cfg now w s1 :
  dial_inv cfg w -> roll_window cfg now (dw_state w) = Some s1 ->
  accounts cfg s1 (filter (of_generation (generation s1)) (dw_live w ++ dw_dialled w)).
Proof.
  intros (Ha & Hmax & HF) H. unfold roll_window in H.
  destruct (match eds_window_start_ms _ with None => true | Some _ => _ end);
    [|by injection H as <-].
  destruct (N.eqb_spec (sat_add u64_max (generation (dw_state w)) 1)
              (generation (dw_state w))) as [|Hne]; [done|].
  injection H as <-. cbn. rewrite filter_none; [apply accounts_nil|].
  eapply Forall_impl; [exact HF|]. cbn. unfold of_generation, sat_add in *. intros p Hp Heq. lia.
Qed.

(** * Properties *)

(** Across every interleaving of reservations, starts, refusals and drops,
    the sockets dialled in any accounting window never exceed the process,
    server, peer, endpoint or prefix limit, and the running window's counters
    hold at most one entry per reservation of that window. *)
Theorem dial_limits_hold blake3 cfg w :
  dial_config_ok cfg -> rtc (dial_step blake3 cfg) dial_init w ->
  (forall g, limits_ok cfg (filter (of_generation g) (dw_dialled w))) /\
  N.of_nat (size (server_spent (dw_state w))) <= edc_process_limit cfg /\
  N.of_nat (size (peer_spent (dw_state w))) <= edc_process_limit cfg /\
  N.of_nat (size (endpoint_spent (dw_state w))) <= edc_process_limit cfg /\
  N.of_nat (size (prefix_spent (dw_state w))) <= edc_process_limit cfg.
Proof.
  intros Hc Hr. destruct (dial_reachable_inv _ _ Hc _ Hr) as [(Ha & _) Hw]. split.
  - intros g. eapply limits_sub; [|apply (Hw g)].
    apply sublist_filter_mono. by apply sublist_inserts_l.
  - destruct Ha. unfold len in *.
    repeat match goal with
    | H : tallies _ _ |- _ => apply tallies_size in H; unfold len in H; rewrite length_fmap in H
    end. split_and!; lia.
Qed.

(** Reserving permits and dropping all of them undialled, in any order,
    leaves the scheduler exactly as the window roll left it: no reservation
    that opens no socket consumes allowance. *)
Theorem reserve_drop_refund blake3 cfg w now server eps s1 ps ps' s' :
  dial_config_ok cfg -> rtc (dial_step blake3 cfg) dial_init w ->
  roll_window cfg now (dw_state w) = Some s1 ->
  reserve_permits blake3 cfg now server eps (dw_state w) = (ps, s') ->
  ps' ≡ₚ ps ->
  fold_left (fun s p => permit_drop p s) ps' s' = s1.
Proof.
  intros Hc Hr Hroll Hres Hp.
  destruct (dial_reachable_inv _ _ Hc _ Hr) as [Hi _].
  pose proof (roll_window_accounts _ _ _ _ Hi Hroll) as Ha.
  unfold reserve_permits in Hres. rewrite Hroll in Hres.
  destruct (grant_loop_accounts _ _ Hc _ _ _ _ _ _ _ Ha Hres) as (Ha' & Hg & Hw & HF).
  destruct (drop_all_accounts cfg ps' s' (filter (of_generation (generation s1))
    (dw_live w ++ dw_dialled w))) as (A & B & C).
  - eapply accounts_perm; [|exact Ha']. by rewrite Hp.
  - rewrite Hp. eapply Forall_impl; [exact HF|]. intros p [? _]. congruence.
  - eapply accounts_unique; [exact A | exact Ha | congruence | congruence].
Qed.

Lemma start_all_in_window cfg clock ps : forall s,
  Forall (fun p => p_generation p = generation s) ps ->
  (forall i p, p ∈ ps -> window_over cfg (p_window_start_ms p) (clock i) = false) ->
  start_all cfg clock ps s = (p_address <$> ps, s).
Proof.
  revert clock. induction ps as [|p ps IH]; intros clock s HF Hc; [done|].
  inversion HF as [|? ? Hp HF']; subst. cbn [start_all fmap list_fmap]. unfold commit_current.
  rewrite Hp, N.eqb_refl, Hc by by left. cbn [negb orb].
  rewrite IH; [done | done |]. intros i q Hq. apply Hc. by right.
Qed.

(** When every start happens inside the accounting window, the immediate
    [reserve] returns exactly the addresses [reserve_permits] granted, charges
    them, and refunds nothing; a permit started after its window has elapsed,
    or in a later window, opens no socket. *)
Theorem reserve_is_permits blake3 cfg now clock server eps s ps s' :
  reserve_permits blake3 cfg now server eps s = (ps, s') ->
  (forall i, window_over cfg (default 0 (eds_window_start_ms s')) (clock i) = false) ->
  reserve blake3 cfg now clock server eps s = (p_address <$> ps, s') /\
  (forall p s2 t, p ∈ ps -> generation s2 <> generation s' ->
     commit_current cfg t p s2 = (None, s2)) /\
  (forall p s2 t, p ∈ ps ->
     window_over cfg (default 0 (eds_window_start_ms s')) t = true ->
     commit_current cfg t p s2 = (None, permit_drop p s2)).
Proof.
  intros Hres Hclock.
  pose proof (reserve_permits_stamps _ _ _ _ _ _ _ _ Hres) as Hst.
  apply Forall_and in Hst as [Hgen Hstart].
  rewrite Forall_forall in Hgen, Hstart. split_and!.
  - unfold reserve. rewrite Hres. apply start_all_in_window; [by apply Forall_forall|].
    intros i p Hp. by rewrite (Hstart p Hp).
  - intros p s2 t Hp Hne. unfold commit_current, permit_drop. rewrite (Hgen p Hp).
    by rewrite (proj2 (N.eqb_neq _ _) Hne).
  - intros p s2 t Hp Ht. unfold commit_current. rewrite (Hstart p Hp), Ht.
    by rewrite orb_true_r.
Qed.

(** A two-endpoint candidate set for the witnesses; the hash is the identity. *)
Definition sample_endpoint (n : N) : DialEndpoint :=
  mkDialEndpoint (be_bytes 1 n) [x01] (be_bytes 1 n) [x02].

Definition sample_run := reserve_permits (fun b => b) EndpointDialConfig_default 7 [x09]
  [sample_endpoint 1; sample_endpoint 1; sample_endpoint 1; sample_endpoint 2]
  EndpointDialState_default.

Lemma sample_config_ok : dial_config_ok EndpointDialConfig_default.
Proof. by vm_compute. Qed.

Definition sample_world : dial_world := mkDialWorld sample_run.2 sample_run.1 [].

Lemma sample_reachable :
  rtc (dial_step (fun b => b) EndpointDialConfig_default) dial_init sample_world.
Proof.
  apply rtc_once. unfold sample_world. rewrite <- (app_nil_r sample_run.1).
  eapply (dial_reserve _ _ 7 [x09]). unfold sample_run. apply surjective_pairing.
Qed.

Lemma dial_limits_hold_witness :
  len (dw_live sample_world) = 3 /\
  limits_ok EndpointDialConfig_default (filter (of_generation 1) (dw_dialled sample_world)).
Proof.
  split; [by vm_compute|].
  apply (dial_limits_hold (fun b => b) _ _ sample_config_ok sample_reachable).
Defined.

Lemma reserve_drop_refund_witness :
  fold_left (fun s p => permit_drop p s) sample_run.1 sample_run.2 =
    mkEndpointDialState 1 (Some 7) 0 ∅ ∅ ∅ ∅.
Proof.
  apply (reserve_drop_refund (fun b => b) EndpointDialConfig_default dial_init 7 [x09]
    [sample_endpoint 1; sample_endpoint 1; sample_endpoint 1; sample_endpoint 2]
    _ sample_run.1);
    [apply sample_config_ok | apply rtc_refl | reflexivity | | reflexivity].
  apply surjective_pairing.
Defined.

Lemma reserve_is_permits_witness :
  (reserve (fun b => b) EndpointDialConfig_default 7 (fun _ => 9) [x09]
    [sample_endpoint 1; sample_endpoint 1; sample_endpoint 1; sample_endpoint 2]
    EndpointDialState_default).1 = [be_bytes 1 1; be_bytes 1 1; be_bytes 1 2].
Proof.
  pose proof (reserve_is_permits (fun b => b) EndpointDialConfig_default 7 (fun _ => 9) [x09]
    [sample_endpoint 1; sample_endpoint 1; sample_endpoint 1; sample_endpoint 2]
    EndpointDialState_default sample_run.1 sample_run.2) as [H _];
    [apply surjective_pairing | intros _; by vm_compute |].
  rewrite H. by vm_compute.
Defined.
