(* ===== verification/DialPlan.v ===== *)
(** The discovery policy of [crates/catcoms-discovery/src/lib.rs]: candidates,
    their merging and scoring ([Merged]), and [DiscoveryPolicy] with its
    anti-replay high-water map, endpoint budget window and ranked dial plan.

    [BTreeMap] is a sorted association list. The injected clock is the [now]
    argument and the generator's next word the [draw] argument of [plan]. The
    window identity [Arc::new(())] is a generation number: a captured window
    keeps its allocation alive, so identities are never reused. Additions whose
    overflow the source does not guard wrap at the width of the target; a jitter
    bound of [u64::MAX], whose successor would be a zero divisor, is outside the
    model. *)

From S2P Require Import Prelude OrdMap.
From stdpp Require Import base list sorting gmap.
From Stdlib Require Import Init.Byte.
Local Open Scope N_scope.

(** * Data *)

Inductive FreshnessPrincipal :=
| Device (key : bytes)
| Transport (key : bytes).
#[global] Instance FreshnessPrincipal_eq_dec : EqDecision FreshnessPrincipal.
Proof. solve_decision. Defined.

(** The derived [Ord]: by variant, then by key. *)
#[global] Program Instance FreshnessPrincipal_ordkey : OrdKey FreshnessPrincipal := {|
  kcmp x y := match x, y with
              | Device a, Device b => kcmp a b
              | Device _, Transport _ => Lt
              | Transport _, Device _ => Gt
              | Transport a, Transport b => kcmp a b
              end |}.
Next Obligation. intros [a|a] [b|b]; cbn [kcmp]; try rewrite kcmp_eq; split; congruence. Qed.
Next Obligation. intros [a|a] [b|b]; cbn [kcmp CompOpp]; done || apply kcmp_opp. Qed.
Next Obligation. intros [a|a] [b|b] [c|c]; cbn [kcmp]; try done; apply kcmp_lt_trans. Qed.

Inductive Source :=
| Rendezvous (id : bytes)
| Pex (id : bytes)
| Cache.

Record Candidate := mkCandidate {
  c_peer : bytes;
  c_addresses : list bytes;
  c_source : Source;
  c_freshness : FreshnessPrincipal;
  c_seq : N;
  c_tag_verified : bool
}.

Record PlannedDial := mkPlannedDial { pd_peer : bytes; pd_addresses : list bytes }.

Record PolicyConfig := mkPolicyConfig {
  dial_budget : N;
  window_ms : N;
  jitter_ms : N;
  roster_headroom : N;
  min_dial_slots : N;
  max_addresses : N;
  max_tracked_peers : N
}.
Definition PolicyConfig_default : PolicyConfig := mkPolicyConfig 8 10000 2000 4 3 8 4096.

Definition SCORE_TAG_VERIFIED : Z := 1000.
Definition SCORE_PER_RENDEZVOUS : Z := 30.
Definition SCORE_PER_PEX : Z := 50.
Definition SCORE_CACHE : Z := 50.
Definition ROOT_CAP : N := 4.

Record Merged := mkMerged {
  m_peer : bytes;
  m_addresses : list bytes;
  rendezvous_roots : list bytes;
  pex_roots : list bytes;
  from_cache : bool;
  m_tag_verified : bool;
  m_seq : N
}.

Record DiscoveryPolicy := mkDiscoveryPolicy {
  dp_config : PolicyConfig;
  best_seq : bmap FreshnessPrincipal N;
  dp_window_start_ms : option N;
  window_len_ms : N;
  window_owner : N;
  spent : N
}.

(** * Merging *)

(** [Merged::new] *)
Definition Merged_new (peer : bytes) : Merged := mkMerged peer [] [] [] false false 0.

(** [if !v.contains(&x) { v.push(x) }] *)
Definition push_new (x : bytes) (v : list bytes) : list bytes :=
  if bool_decide (x ∈ v) then v else v ++ [x].

Fixpoint absorb_addresses (max : N) (new have : list bytes) : list bytes :=
  match new with
  | [] => have
  | a :: rest => if max <=? len have then have else absorb_addresses max rest (push_new a have)
  end.

Definition absorb (m : Merged) (c : Candidate) (max : N) : Merged :=
  let addresses := absorb_addresses max (c_addresses c) (m_addresses m) in
  mkMerged (m_peer m) addresses
    (match c_source c with Rendezvous id => push_new id (rendezvous_roots m) | _ => rendezvous_roots m end)
    (match c_source c with Pex id => push_new id (pex_roots m) | _ => pex_roots m end)
    (match c_source c with Cache => true | _ => from_cache m end)
    (m_tag_verified m || c_tag_verified c)
    (N.max (m_seq m) (c_seq c)).

Definition score (m : Merged) : Z :=
  (if m_tag_verified m then SCORE_TAG_VERIFIED else 0)
  + SCORE_PER_RENDEZVOUS * Z.of_N (N.min (len (rendezvous_roots m)) ROOT_CAP)
  + SCORE_PER_PEX * Z.of_N (N.min (len (pex_roots m)) ROOT_CAP)
  + (if from_cache m then SCORE_CACHE else 0).

(** [iter().min()] *)
Definition min_key (l : list bytes) : option bytes :=
  match l with
  | [] => None
  | x :: rest => Some (fold_left (fun m y => if kltb y m then y else m) rest x)
  end.

Definition bucket (m : Merged) : bytes :=
  match min_key (rendezvous_roots m) with
  | Some id => n2b 0 :: id
  | None => match min_key (pex_roots m) with Some id => n2b 1 :: id | None => [n2b 2] end
  end.

(** * Ordering *)

Definition rank_cmp (a b : Merged) : comparison :=
  then_cmp (Z.compare (score b) (score a))
    (then_cmp (N.compare (m_seq b) (m_seq a)) (kcmp (m_peer a) (m_peer b))).

(** The second sort compares positions; here the item travels with its index. *)
Definition order_cmp (a b : N * Merged) : comparison :=
  then_cmp (Z.compare (score b.2) (score a.2))
    (then_cmp (N.compare a.1 b.1) (kcmp (m_peer a.2) (m_peer b.2))).

(** The index of every item among the items of its bucket. *)
Fixpoint within_buckets (counts : bmap bytes N) (items : list Merged) : list (N * Merged) :=
  match items with
  | [] => []
  | m :: rest =>
      let idx := default 0 (om_get (bucket m) counts) in
      (idx, m) :: within_buckets (om_insert (bucket m) (idx + 1) counts) rest
  end.

Definition ranked (merged : bmap bytes Merged) : list Merged :=
  (sort_by order_cmp (within_buckets [] (sort_by rank_cmp (om_values merged)))).*2.

(** * The policy *)

(** [DiscoveryPolicy::with_config] *)
Definition with_config (config : PolicyConfig) : DiscoveryPolicy :=
  mkDiscoveryPolicy config [] None (window_ms config) 0 0.

Definition remaining_budget (p : DiscoveryPolicy) : N := dial_budget (dp_config p) - spent p.

Definition set_best (b : bmap FreshnessPrincipal N) (p : DiscoveryPolicy) : DiscoveryPolicy :=
  mkDiscoveryPolicy (dp_config p) b (dp_window_start_ms p) (window_len_ms p) (window_owner p) (spent p).
Definition set_spent (s : N) (p : DiscoveryPolicy) : DiscoveryPolicy :=
  mkDiscoveryPolicy (dp_config p) (best_seq p) (dp_window_start_ms p) (window_len_ms p) (window_owner p) s.

(** [endpoint_budget_window] *)
Definition endpoint_budget_window (p : DiscoveryPolicy) : N := window_owner p.

Definition refund_endpoint_budget (endpoints : N) (p : DiscoveryPolicy) : DiscoveryPolicy :=
  if u32_max <? endpoints then p
  else if endpoints <=? spent p then set_spent (spent p - endpoints) p else p.

Definition refund_endpoint_budget_in (window endpoints : N) (p : DiscoveryPolicy) : DiscoveryPolicy :=
  if window =? window_owner p then refund_endpoint_budget endpoints p else p.

Definition forget_device_freshness (device : bytes) (p : DiscoveryPolicy) : DiscoveryPolicy :=
  set_best (om_remove (Device device) (best_seq p)) p.

(** [while best_seq.len() > max { remove the first key }] *)
Fixpoint evict_lowest (max : N) (m : bmap FreshnessPrincipal N) : bmap FreshnessPrincipal N :=
  match m with
  | [] => []
  | _ :: rest => if max <? len m then evict_lowest max rest else m
  end.

Definition evict_tracked (p : DiscoveryPolicy) : DiscoveryPolicy :=
  set_best (evict_lowest (max_tracked_peers (dp_config p)) (best_seq p)) p.

Definition wrap_add (a b : N) : N := (a + b) mod (u64_max + 1).

(** [grant_budget]: the policy with its window rolled; the grant is its
    [remaining_budget]. *)
Definition grant_budget (now draw : N) (p : DiscoveryPolicy) : DiscoveryPolicy :=
  let config := dp_config p in
  let expired := match dp_window_start_ms p with
                 | None => true
                 | Some start => window_len_ms p <=? now - start
                 end in
  if expired then
    let jitter := if jitter_ms config =? 0 then 0 else draw mod (jitter_ms config + 1) in
    mkDiscoveryPolicy config (best_seq p) (Some now) (wrap_add (window_ms config) jitter) (window_owner p + 1) 0
  else p.

(** Step 1 of [plan]: the best sequence each principal presents in this call... *)
Definition raise_max (m : bmap FreshnessPrincipal N) (f : FreshnessPrincipal) (seq : N)
    : bmap FreshnessPrincipal N :=
  om_insert f (N.max (default seq (om_get f m)) seq) m.

Definition incoming_max (candidates : list Candidate) : bmap FreshnessPrincipal N :=
  fold_left (fun m c => raise_max m (c_freshness c) (c_seq c)) candidates [].

(** ... against the high-water mark accepted before. *)
Definition stale_against (best : bmap FreshnessPrincipal N) (f : FreshnessPrincipal) (max_seq : N) : bool :=
  match om_get f best with Some b => max_seq <? b | None => false end.

Definition learn (st : bmap FreshnessPrincipal N * bmap FreshnessPrincipal bool) (e : FreshnessPrincipal * N)
    : bmap FreshnessPrincipal N * bmap FreshnessPrincipal bool :=
  let is_stale := stale_against st.1 e.1 e.2 in
  (if is_stale then st.1 else raise_max st.1 e.1 e.2, om_insert e.1 is_stale st.2).

(** Step 2: merge by peer. *)
Definition merge_candidate (max : N) (merged : bmap bytes Merged) (c : Candidate) : bmap bytes Merged :=
  let m := default (Merged_new (c_peer c)) (om_get (c_peer c) merged) in
  om_insert (c_peer c) (absorb m c max) merged.

Definition merge_fresh (max : N) (stale : bmap FreshnessPrincipal bool) (candidates : list Candidate)
    : bmap bytes Merged :=
  fold_left (fun merged c =>
    if default false (om_get (c_freshness c) stale) then merged else merge_candidate max merged c) candidates [].

(** Steps 4 and 5. *)
Definition roster_clamp (config : PolicyConfig) (roster_size : N) : N :=
  N.max (wrap_add (roster_size - 1) (roster_headroom config)) (min_dial_slots config).

Fixpoint fill (clamp offered remaining spent : N) (order : list Merged) : list PlannedDial * N :=
  match order with
  | [] => ([], spent)
  | m :: rest =>
      if (clamp <=? offered) || (remaining =? 0) then ([], spent)
      else
        let addresses := firstn (N.to_nat remaining) (m_addresses m) in
        if len addresses =? 0 then fill clamp offered remaining spent rest
        else
          let '(out, spent) := fill clamp (offered + 1) (remaining - len addresses)
                                 (sat_add u32_max spent (len addresses mod (u32_max + 1))) rest in
          (mkPlannedDial (m_peer m) addresses :: out, spent)
  end.

Definition plan (candidates : list Candidate) (roster_size now draw : N) (p : DiscoveryPolicy)
    : DiscoveryPolicy * list PlannedDial :=
  let '(best, stale) := fold_left learn (incoming_max candidates) (best_seq p, []) in
  let p := evict_tracked (set_best best p) in
  let merged := merge_fresh (max_addresses (dp_config p)) stale candidates in
  match merged with
  | [] => (p, [])
  | _ =>
      let order := ranked merged in
      let clamp := roster_clamp (dp_config p) roster_size in
      let p := grant_budget now draw p in
      let '(out, spent) := fill clamp 0 (remaining_budget p) (spent p) order in
      (set_spent spent p, out)
  end.

(** * Comparators *)

Lemma rank_comparator : comparator rank_cmp.
Proof.
  apply comparator_then; [apply (comparator_rev _ (comparator_Z score))|].
  apply comparator_then; [exact (comparator_rev _ (comparator_key (K:=N) m_seq))|apply (comparator_key m_peer)].
Qed.

Lemma order_comparator : comparator order_cmp.
Proof.
  apply comparator_then; [apply (comparator_rev _ (comparator_Z (fun a => score a.2)))|].
  apply comparator_then; [exact (comparator_key (K:=N) fst)|apply (comparator_key (fun a => m_peer a.2))].
Qed.

(** * The ranked order *)

Lemma within_buckets_items counts items : (within_buckets counts items).*2 = items.
Proof.
  revert counts. induction items as [|m items IH]; intros counts; [done|]. simpl. f_equal. apply IH.
Qed.

Lemma ranked_perm merged : ranked merged ≡ₚ om_values merged.
Proof. unfold ranked. rewrite sort_by_perm, within_buckets_items. apply sort_by_perm. Qed.

Definition outranks (a b : Merged) : Prop := (score b <= score a)%Z.

Lemma ranked_sorted merged : StronglySorted outranks (ranked merged).
Proof.
  unfold ranked. pose proof (sort_by_sorted order_cmp (within_buckets [] (sort_by rank_cmp (om_values merged))) order_comparator) as Hs.
  induction Hs as [|a l Hs IH Ha]; [constructor|]. rewrite fmap_cons. constructor; [done|].
  apply Forall_fmap. eapply Forall_impl; [exact Ha|]. intros b Hb. unfold outranks, cmp_le, order_cmp in *. cbn.
  destruct (Z.compare_spec (score b.2) (score a.2)); cbn in Hb; [lia|lia|done].
Qed.

(** * Merging *)

Lemma push_new_NoDup x v : NoDup v -> NoDup (push_new x v).
Proof.
  intros Hn. unfold push_new. case_bool_decide as Hx; [done|]. apply NoDup_app. split_and!; [done| |apply NoDup_singleton].
  intros y Hy ->%list_elem_of_singleton. done.
Qed.

Lemma absorb_addresses_spec max new have :
  NoDup have -> len have <= max ->
  let out := absorb_addresses max new have in
  NoDup out /\ len out <= max /\ (forall a, a ∈ out -> a ∈ have \/ a ∈ new) /\ (forall a, a ∈ have -> a ∈ out).
Proof.
  revert have. induction new as [|a new IH]; intros have Hn Hl; cbn [absorb_addresses]; [by split_and!; auto|].
  destruct (N.leb_spec max (len have)) as [Hm|Hm]; [by split_and!; auto|].
  destruct (IH (push_new a have)) as (H1 & H2 & H3 & H4).
  - by apply push_new_NoDup.
  - unfold push_new. case_bool_decide; [done|]. rewrite len_app. unfold len at 2. cbn. lia.
  - assert (Hp : forall x, x ∈ push_new a have <-> x = a \/ x ∈ have).
    { intros x. unfold push_new. case_bool_decide as Ha; [naive_solver|].
      rewrite elem_of_app, list_elem_of_singleton. naive_solver. }
    split_and!; [done|done| |].
    + intros x [[->|Hx]%Hp|Hx]%H3; [right; apply list_elem_of_here|by left|right; by apply list_elem_of_further].
    + intros x Hx. apply H4, Hp. by right.
Qed.

(** What merging makes of the candidates [cs] it has absorbed. *)
Record merged_ok (max : N) (cs : list Candidate) (merged : bmap bytes Merged) : Prop := mkMergedOk {
  mg_wf : om_wf merged;
  mg_peer : forall k m, om_get k merged = Some m -> m_peer m = k;
  mg_nodup : forall k m, om_get k merged = Some m -> NoDup (m_addresses m) /\ len (m_addresses m) <= max;
  mg_from : forall k m a, om_get k merged = Some m -> a ∈ m_addresses m ->
    exists c, c ∈ cs /\ c_peer c = k /\ a ∈ c_addresses c;
  mg_all : forall c, c ∈ cs -> exists m, om_get (c_peer c) merged = Some m
}.

Lemma merge_candidate_ok max cs merged c :
  merged_ok max cs merged -> merged_ok max (cs ++ [c]) (merge_candidate max merged c).
Proof.
  intros [Hw Hp Hn Hf Ha]. unfold merge_candidate.
  set (m0 := default (Merged_new (c_peer c)) (om_get (c_peer c) merged)).
  assert (H0 : m_peer m0 = c_peer c /\ NoDup (m_addresses m0) /\ len (m_addresses m0) <= max /\
    forall a, a ∈ m_addresses m0 -> exists c', c' ∈ cs /\ c_peer c' = c_peer c /\ a ∈ c_addresses c').
  { unfold m0. destruct (om_get (c_peer c) merged) as [m|] eqn:E; cbn [default].
    - destruct (Hn _ _ E). split_and!; [by apply Hp|done|done|]. intros a. by apply Hf.
    - split_and!; [done|apply NoDup_nil_2|unfold len; cbn; lia|]. intros a Hin. by apply not_elem_of_nil in Hin. }
  destruct H0 as (Hp0 & Hn0 & Hl0 & Hf0).
  destruct (absorb_addresses_spec max (c_addresses c) (m_addresses m0) Hn0 Hl0) as (A1 & A2 & A3 & _).
  assert (Hget : forall k m, om_get k (om_insert (c_peer c) (absorb m0 c max) merged) = Some m ->
    k = c_peer c /\ m = absorb m0 c max \/ k <> c_peer c /\ om_get k merged = Some m).
  { intros k m Hk. destruct (decide (k = c_peer c)) as [->|Hne].
    - rewrite om_get_insert_eq in Hk. left. by injection Hk.
    - rewrite om_get_insert_ne in Hk by done. by right. }
  assert (Hmono : forall x, x ∈ cs -> x ∈ cs ++ [c]) by (intros x Hx; apply elem_of_app; by left).
  constructor.
  - by apply om_wf_insert.
  - intros k m [[-> ->]|[_ Hk]]%Hget; [done|by apply Hp].
  - intros k m [[-> ->]|[_ Hk]]%Hget; [done|by apply (Hn k)].
  - intros k m a [[-> ->]|[_ Hk]]%Hget Hin.
    + destruct (A3 a Hin) as [Hin'|Hin'].
      * destruct (Hf0 a Hin') as (c' & ? & ? & ?). exists c'. split_and!; auto.
      * exists c. split_and!; [|done|done]. apply elem_of_app. right. apply list_elem_of_here.
    + destruct (Hf k m a Hk Hin) as (c' & ? & ? & ?). exists c'. split_and!; auto.
  - intros c' [Hc| ->%list_elem_of_singleton]%elem_of_app.
    + destruct (decide (c_peer c' = c_peer c)) as [->|Hne]; [rewrite om_get_insert_eq; eauto|].
      rewrite om_get_insert_ne by done. by apply Ha.
    + rewrite om_get_insert_eq. eauto.
Qed.

Definition not_stale (stale : bmap FreshnessPrincipal bool) (c : Candidate) : bool :=
  negb (default false (om_get (c_freshness c) stale)).

Lemma merge_fresh_filter max stale cs :
  merge_fresh max stale cs = fold_left (merge_candidate max) (List.filter (not_stale stale) cs) [].
Proof.
  unfold merge_fresh. generalize (@nil (bytes * Merged)) as merged.
  induction cs as [|c cs IH]; intros merged; [done|]. cbn [fold_left List.filter].
  destruct (not_stale stale c) eqn:E; unfold not_stale in E; [apply negb_true_iff in E|apply negb_false_iff in E];
    rewrite E; [cbn [fold_left]|]; apply IH.
Qed.

Lemma merge_fresh_ok max stale cs :
  merged_ok max (List.filter (not_stale stale) cs) (merge_fresh max stale cs).
Proof.
  rewrite merge_fresh_filter, <- fold_left_rev_right. rewrite <- (rev_involutive (List.filter (not_stale stale) cs)) at 1.
  induction (rev (List.filter _ cs)) as [|c l IH].
  - constructor; try done; [apply om_wf_nil|]. intros c Hc. by apply not_elem_of_nil in Hc.
  - cbn [foldr rev]. by apply merge_candidate_ok.
Qed.

(** * Freshness *)

Lemma om_get_raise m f seq g :
  om_get g (raise_max m f seq) =
    if decide (g = f) then Some (N.max (default seq (om_get f m)) seq) else om_get g m.
Proof.
  unfold raise_max. destruct (decide (g = f)) as [->|Hne]; [by rewrite om_get_insert_eq|].
  by rewrite om_get_insert_ne.
Qed.

(** The best sequence a principal presents in a list of candidates. *)
Definition best_of (f : FreshnessPrincipal) (cs : list Candidate) (o : option N) : option N :=
  fold_left (fun o c => if decide (c_freshness c = f) then Some (N.max (default (c_seq c) o) (c_seq c)) else o) cs o.

Lemma incoming_get cs f m :
  om_get f (fold_left (fun m c => raise_max m (c_freshness c) (c_seq c)) cs m) = best_of f cs (om_get f m).
Proof.
  revert m. induction cs as [|c cs IH]; intros m; [done|]. cbn [fold_left]. rewrite IH, om_get_raise.
  unfold best_of. cbn [fold_left]. f_equal. destruct (decide (f = c_freshness c)) as [->|Hne].
  - by rewrite decide_True.
  - by rewrite decide_False by congruence.
Qed.

Lemma incoming_wf cs : om_wf (incoming_max cs).
Proof.
  unfold incoming_max. rewrite <- fold_left_rev_right. induction (rev cs) as [|c l IH]; [apply om_wf_nil|].
  cbn [foldr]. by apply om_wf_insert.
Qed.

Lemma best_of_spec f cs o s :
  best_of f cs o = Some s ->
  (o = Some s \/ exists c, c ∈ cs /\ c_freshness c = f /\ c_seq c = s) /\
  (forall c, c ∈ cs -> c_freshness c = f -> c_seq c <= s) /\ (forall s0, o = Some s0 -> s0 <= s).
Proof.
  unfold best_of. revert o. induction cs as [|c cs IH]; intros o; cbn [fold_left].
  - intros ->. split_and!; [by left| |by intros s0 [= ->]]. intros c Hc. by apply not_elem_of_nil in Hc.
  - intros H. apply IH in H as (H1 & H2 & H3). split_and!.
    + destruct (decide (c_freshness c = f)) as [Hf|].
      * destruct H1 as [E|(c' & ? & ?)]; [|right; exists c'; split; [by apply list_elem_of_further|done]].
        injection E as E. destruct o as [s0|]; cbn in E.
        -- destruct (N.max_spec s0 (c_seq c)) as [[_ E']|[_ E']]; [right|left; congruence].
           exists c. split_and!; [apply list_elem_of_here|done|congruence].
        -- right. exists c. split_and!; [apply list_elem_of_here|done|lia].
      * destruct H1 as [|(c' & ? & ?)]; [by left|right; exists c'; split; [by apply list_elem_of_further|done]].
    + intros c' [->|Hc]%elem_of_cons Hf; [|by apply H2]. rewrite decide_True in H3 by done.
      specialize (H3 _ eq_refl). lia.
    + intros s0 ->. destruct (decide (c_freshness c = f)); [|by apply H3].
      specialize (H3 _ eq_refl). cbn in H3. lia.
Qed.

Lemma best_of_None f cs : best_of f cs None = None -> forall c, c ∈ cs -> c_freshness c <> f.
Proof.
  unfold best_of. intros H c Hc Hf. apply list_elem_of_split in Hc as (l1 & l2 & ->).
  rewrite fold_left_app in H. cbn [fold_left] in H. rewrite decide_True in H by done.
  revert H. match goal with |- fold_left _ _ (Some ?x) = None -> _ => generalize x end.
  induction l2 as [|c' l2 IH]; intros x; [done|]. cbn [fold_left]. destruct (decide _); apply IH.
Qed.

(** What learning one call's maxima does to each principal. *)
Definition learned (best : bmap FreshnessPrincipal N) (g : FreshnessPrincipal) (o : option N) : option N :=
  match o with
  | None => om_get g best
  | Some s => if stale_against best g s then om_get g best
              else Some (N.max (default s (om_get g best)) s)
  end.

Lemma learn_all es best st :
  NoDup (es.*1) -> om_wf best -> om_wf st ->
  let out := fold_left learn es (best, st) in
  om_wf out.1 /\ om_wf out.2 /\
  forall g, (forall s, (g, s) ∈ es -> om_get g out.1 = learned best g (Some s) /\
                                      om_get g out.2 = Some (stale_against best g s)) /\
            ((g ∉ es.*1) -> om_get g out.1 = om_get g best /\ om_get g out.2 = om_get g st).
Proof.
  revert best st. induction es as [|[f s] es IH]; intros best st Hn Hb Hs; cbn [fold_left].
  { split_and!; [done|done|]. intros g. split; [|done]. intros s Hin. by apply not_elem_of_nil in Hin. }
  rewrite fmap_cons, NoDup_cons in Hn. destruct Hn as [Hf Hn]. cbn [fst] in Hf.
  set (best' := if stale_against best f s then best else raise_max best f s).
  assert (El : learn (best, st) (f, s) = (best', om_insert f (stale_against best f s) st)) by done.
  cbv zeta. rewrite El. clear El.
  assert (Hg : forall g, g <> f -> om_get g best' = om_get g best).
  { intros g Hne. unfold best'. destruct (stale_against best f s); [done|]. rewrite om_get_raise. by rewrite decide_False. }
  destruct (IH best' (om_insert f (stale_against best f s) st)) as (W1 & W2 & H).
  { done. } { unfold best'. destruct (stale_against _ _ _); [done|]. by apply om_wf_insert. } { by apply om_wf_insert. }
  split_and!; [done|done|]. intros g. destruct (H g) as [H1 H2]. split.
  - intros s' [E|Hin]%elem_of_cons.
    + injection E as -> ->. destruct (H2 Hf) as [-> ->]. rewrite om_get_insert_eq. split; [|done].
      unfold best', learned. destruct (stale_against best f s); [done|]. rewrite om_get_raise. by rewrite decide_True.
    + destruct (H1 s' Hin) as [-> ->]. assert (Hne : g <> f).
      { intros ->. apply Hf. apply list_elem_of_fmap. by exists (f, s'). }
      unfold learned, stale_against. by rewrite (Hg g Hne).
  - rewrite fmap_cons, not_elem_of_cons. cbn [fst]. intros [Hne Hni]. destruct (H2 Hni) as [-> ->].
    rewrite (Hg g Hne), om_get_insert_ne by done. done.
Qed.

(** The effect of step 1 of [plan], principal by principal. *)
Lemma learn_spec cs best :
  om_wf best ->
  let out := fold_left learn (incoming_max cs) (best, []) in
  om_wf out.1 /\ om_wf out.2 /\
  (forall g, om_get g out.1 = learned best g (best_of g cs None)) /\
  (forall g, om_get g out.2 = stale_against best g <$> best_of g cs None).
Proof.
  intros Hb. pose proof (incoming_wf cs) as Hw.
  destruct (learn_all (incoming_max cs) best [] (om_keys_NoDup _ Hw) Hb om_wf_nil) as (W1 & W2 & H).
  cbv zeta. assert (Hin : forall g, best_of g cs None = om_get g (incoming_max cs)).
  { intros g. unfold incoming_max. by rewrite incoming_get. }
  assert (HH : forall g,
    om_get g (fold_left learn (incoming_max cs) (best, [])).1 = learned best g (best_of g cs None) /\
    om_get g (fold_left learn (incoming_max cs) (best, [])).2 = stale_against best g <$> best_of g cs None).
  { intros g. rewrite Hin. destruct (H g) as [H1 H2]. destruct (om_get g (incoming_max cs)) as [s|] eqn:E.
    - apply om_get_elem in E; [|done]. exact (H1 s E).
    - apply H2. intros Hx. apply om_get_keys in Hx; done. }
  split_and!; [done|done|by apply HH|by apply HH].
Qed.

(** A candidate is superseded when everything its signer presents in this call
    is below what was accepted from that signer before. *)
Definition superseded (p : DiscoveryPolicy) (cs : list Candidate) (c : Candidate) : Prop :=
  exists b, om_get (c_freshness c) (best_seq p) = Some b /\
    forall c', c' ∈ cs -> c_freshness c' = c_freshness c -> c_seq c' < b.

Definition learn_call (p : DiscoveryPolicy) (cs : list Candidate)
    : bmap FreshnessPrincipal N * bmap FreshnessPrincipal bool :=
  fold_left learn (incoming_max cs) (best_seq p, []).
Definition surviving (p : DiscoveryPolicy) (cs : list Candidate) : list Candidate :=
  List.filter (not_stale (learn_call p cs).2) cs.

Lemma surviving_spec p cs c :
  om_wf (best_seq p) -> c ∈ surviving p cs <-> c ∈ cs /\ ~ superseded p cs c.
Proof.
  intros Hw. unfold surviving, learn_call. destruct (learn_spec cs (best_seq p) Hw) as (_ & _ & _ & H2).
  rewrite elem_List_filter. unfold not_stale. rewrite H2, negb_true_iff.
  split; intros [Hc H]; (split; [done|]).
  - intros (b & Hb & Hall). destruct (best_of (c_freshness c) cs None) as [s|] eqn:E.
    + cbn in H. unfold stale_against in H. rewrite Hb in H. apply N.ltb_ge in H.
      destruct (best_of_spec _ _ _ _ E) as ([?|(c' & Hc' & Hf & <-)] & _); [done|]. specialize (Hall c' Hc' Hf). lia.
    + by eapply best_of_None in E.
  - destruct (best_of (c_freshness c) cs None) as [s|] eqn:E; [|done]. cbn. unfold stale_against.
    destruct (om_get (c_freshness c) (best_seq p)) as [b|] eqn:Hb; [|done]. apply N.ltb_ge.
    destruct (N.le_gt_cases b s) as [|Hlt]; [done|]. destruct H. exists b. split; [done|].
    intros c' Hc' Hf. destruct (best_of_spec _ _ _ _ E) as (_ & Hle & _). specialize (Hle c' Hc' Hf). lia.
Qed.

(** * Filling the plan *)

Definition total_endpoints (out : list PlannedDial) : N := sum_of (fun d => len (pd_addresses d)) out.
Definition has_addresses (m : Merged) : bool := negb (len (m_addresses m) =? 0).

(** A planned dial offers a non-empty prefix of its peer's merged addresses. *)
Definition offers (m : Merged) (d : PlannedDial) : Prop :=
  pd_peer d = m_peer m /\ pd_addresses d `prefix_of` m_addresses m /\ pd_addresses d <> [].

Lemma fill_spec clamp offered remaining spent0 order :
  spent0 + remaining <= u32_max -> offered <= clamp ->
  let '(out, spent1) := fill clamp offered remaining spent0 order in
  spent1 = spent0 + total_endpoints out /\ total_endpoints out <= remaining /\
  offered + len out <= clamp /\
  exists k, Forall2 offers (List.filter has_addresses (firstn k order)) out /\
    ((length order <= k)%nat \/ total_endpoints out = remaining \/ offered + len out = clamp).
Proof.
  revert offered remaining spent0. induction order as [|m order IH]; intros offered remaining spent0 Hs Ho; cbn [fill].
  { split_and!; [cbn; lia|cbn; lia|unfold len; cbn; lia|]. exists 0%nat. split; [constructor|by left]. }
  destruct (N.leb_spec clamp offered) as [Hc|Hc]; cbn [orb].
  { split_and!; [cbn; lia|cbn; lia|unfold len; cbn; lia|]. exists 0%nat. split; [constructor|]. right; right. unfold len; cbn; lia. }
  destruct (N.eqb_spec remaining 0) as [->|Hr].
  { split_and!; [cbn; lia|cbn; lia|unfold len; cbn; lia|]. exists 0%nat. split; [constructor|]. by right; left. }
  set (addresses := firstn (N.to_nat remaining) (m_addresses m)).
  assert (Hlen : len addresses = N.min remaining (len (m_addresses m)))
    by (unfold addresses, len; rewrite length_take; lia).
  destruct (N.eqb_spec (len addresses) 0) as [He|He].
  - assert (Hf : has_addresses m = false) by (unfold has_addresses; apply negb_false_iff, N.eqb_eq; lia).
    specialize (IH offered remaining spent0 Hs Ho). destruct (fill _ _ _ _ _) as [out spent1].
    destruct IH as (H1 & H2 & H3 & k & Hk & Hd). split_and!; [done|done|done|]. exists (S k).
    cbn [firstn List.filter]. rewrite Hf. split; [done|]. cbn [length]. destruct Hd as [?|?]; [left; lia|by right].
  - assert (Hf : has_addresses m = true) by (unfold has_addresses; apply negb_true_iff, N.eqb_neq; lia).
    assert (Hm : len addresses mod (u32_max + 1) = len addresses) by (apply N.mod_small; lia). rewrite Hm.
    assert (Ha : sat_add u32_max spent0 (len addresses) = spent0 + len addresses) by (unfold sat_add; lia). rewrite Ha.
    specialize (IH (offered + 1) (remaining - len addresses) (spent0 + len addresses)).
    destruct (fill _ _ _ _ _) as [out spent1]. destruct IH as (H1 & H2 & H3 & k & Hk & Hd); [lia|lia|].
    unfold total_endpoints in *. cbn [sum_of pd_addresses]. rewrite len_cons.
    split_and!; [lia|lia|lia|]. exists (S k). cbn [firstn List.filter]. rewrite Hf. split.
    + constructor; [|done]. split_and!; [done|exists (skipn (N.to_nat remaining) (m_addresses m)); symmetry; apply take_drop|].
      cbn. intros E. apply He. by rewrite E.
    + cbn [length]. destruct Hd as [?|[?|?]]; [left; lia|right; left; lia|right; right; lia].
Qed.

(** * The shape of a plan *)

Record policy_ok (p : DiscoveryPolicy) : Prop := mkPolicyOk {
  po_wf : om_wf (best_seq p);
  po_tracked : len (best_seq p) <= max_tracked_peers (dp_config p);
  po_spent : spent p <= dial_budget (dp_config p);
  po_budget : dial_budget (dp_config p) <= u32_max
}.

Lemma evict_lowest_suffix max m : exists k, evict_lowest max m = skipn k m.
Proof.
  induction m as [|e m [k IH]]; [by exists 0%nat|]. cbn [evict_lowest]. destruct (max <? len (e :: m)).
  - by exists (S k).
  - by exists 0%nat.
Qed.

Lemma evict_lowest_len max m : len (evict_lowest max m) <= max.
Proof.
  induction m as [|e m IH]; cbn [evict_lowest]; [unfold len; cbn; lia|].
  by destruct (N.ltb_spec max (len (e :: m))).
Qed.

Lemma om_wf_skipn {K V} `{OrdKey K} k (m : bmap K V) : om_wf m -> om_wf (skipn k m).
Proof. intros Hm. rewrite <- (take_drop k m) in Hm. by apply om_wf_app_r in Hm. Qed.

Lemma evict_lowest_wf max m : om_wf m -> om_wf (evict_lowest max m).
Proof. destruct (evict_lowest_suffix max m) as [k ->]. apply om_wf_skipn. Qed.

Lemma evict_lowest_get max m f s : om_wf m -> om_get f (evict_lowest max m) = Some s -> om_get f m = Some s.
Proof.
  intros Hm. rewrite om_get_elem by (by apply evict_lowest_wf). rewrite om_get_elem by done.
  destruct (evict_lowest_suffix max m) as [k ->]. intros Hin. rewrite <- (take_drop k m). apply elem_of_app. by right.
Qed.

(** The policy after step 1: high-water marks learned, the map bounded. *)
Definition learned_policy (p : DiscoveryPolicy) (cs : list Candidate) : DiscoveryPolicy :=
  evict_tracked (set_best (learn_call p cs).1 p).

Definition merged_of (p : DiscoveryPolicy) (cs : list Candidate) : bmap bytes Merged :=
  merge_fresh (max_addresses (dp_config p)) (learn_call p cs).2 cs.

Lemma plan_unfold cs roster_size now draw p :
  plan cs roster_size now draw p =
    match merged_of p cs with
    | [] => (learned_policy p cs, [])
    | _ =>
        let q := grant_budget now draw (learned_policy p cs) in
        let '(out, spent1) := fill (roster_clamp (dp_config p) roster_size) 0 (remaining_budget q) (spent q)
                                (ranked (merged_of p cs)) in
        (set_spent spent1 q, out)
    end.
Proof.
  unfold plan, merged_of, learned_policy, learn_call. destruct (fold_left learn _ _) as [best stale]. cbn [fst snd].
  change (dp_config (evict_tracked (set_best best p))) with (dp_config p).
  by destruct (merge_fresh _ _ _).
Qed.

Lemma learned_policy_ok p cs : policy_ok p -> policy_ok (learned_policy p cs).
Proof.
  intros [H1 H2 H3 H4]. unfold learned_policy, evict_tracked. constructor; cbn; [|apply evict_lowest_len|done|done].
  apply evict_lowest_wf. by destruct (learn_spec cs (best_seq p) H1) as (? & _).
Qed.

Lemma grant_budget_cases now draw p :
  grant_budget now draw p = p \/
  window_owner (grant_budget now draw p) = window_owner p + 1 /\ spent (grant_budget now draw p) = 0 /\
  best_seq (grant_budget now draw p) = best_seq p /\ dp_config (grant_budget now draw p) = dp_config p.
Proof.
  unfold grant_budget. destruct (dp_window_start_ms p) as [start|]; [destruct (_ <=? _)|]; [right|left|right]; done.
Qed.

Lemma grant_budget_ok now draw p : policy_ok p -> policy_ok (grant_budget now draw p).
Proof.
  intros [H1 H2 H3 H4]. destruct (grant_budget_cases now draw p) as [->|(_ & Es & Eb & Ec)]; [done|].
  constructor; rewrite ?Es, ?Eb, ?Ec; done || lia.
Qed.

Lemma merged_of_ok p cs : merged_ok (max_addresses (dp_config p)) (surviving p cs) (merged_of p cs).
Proof. apply merge_fresh_ok. Qed.

(** The peers of a plan, as the merged peers it was filled from. *)
Lemma plan_shape cs roster_size now draw p :
  policy_ok p ->
  let '(p', out) := plan cs roster_size now draw p in
  policy_ok p' /\ dp_config p' = dp_config p /\ best_seq p' = best_seq (learned_policy p cs) /\
  (window_owner p' = window_owner p /\ spent p' = spent p + total_endpoints out \/
   window_owner p' = window_owner p + 1 /\ spent p' = total_endpoints out) /\
  len out <= roster_clamp (dp_config p) roster_size /\
  exists k, Forall2 offers (List.filter has_addresses (firstn k (ranked (merged_of p cs)))) out /\
    ((length (ranked (merged_of p cs)) <= k)%nat \/ remaining_budget p' = 0 \/
     len out = roster_clamp (dp_config p) roster_size).
Proof.
  intros Hok. rewrite plan_unfold. pose proof (learned_policy_ok p cs Hok) as Hl.
  destruct (merged_of p cs) as [|e merged'] eqn:E.
  - split_and!; [done|done|done|left; cbn; split; [done|lia]|unfold len; cbn; lia|].
    exists 0%nat. split; [constructor|]. by left.
  - set (merged := e :: merged'). set (q := grant_budget now draw (learned_policy p cs)). cbv zeta.
    pose proof (grant_budget_ok now draw _ Hl) as Hq. fold q in Hq.
    assert (Ec : dp_config q = dp_config p /\ best_seq q = best_seq (learned_policy p cs) /\
      (window_owner q = window_owner p /\ spent q = spent p \/ window_owner q = window_owner p + 1 /\ spent q = 0)).
    { unfold q. destruct (grant_budget_cases now draw (learned_policy p cs)) as [->|(-> & -> & -> & ->)];
        split_and!; auto. }
    destruct Ec as (Ec & Eb & Ew). destruct Hq as [Q1 Q2 Q3 Q4].
    pose proof (fill_spec (roster_clamp (dp_config p) roster_size) 0 (remaining_budget q) (spent q) (ranked merged)) as Hf.
    unfold remaining_budget in *. destruct (fill _ _ _ _ _) as [out spent1].
    destruct Hf as (F1 & F2 & F3 & k & Fk & Fd); [lia|lia|].
    split_and!; [|done|done|cbn [set_spent window_owner spent]; lia|lia|].
    + constructor; cbn; [done|done|lia|done].
    + exists k. split; [exact Fk|]. cbn [set_spent dp_config spent]. destruct Fd as [?|[?|?]]; [by left|right; left; lia|right; right; lia].
Qed.

Lemma ranked_elem p cs m :
  m ∈ ranked (merged_of p cs) <-> om_get (m_peer m) (merged_of p cs) = Some m.
Proof.
  destruct (merged_of_ok p cs) as [Hw Hp _ _ _]. rewrite ranked_perm. unfold om_values. rewrite list_elem_of_fmap. split.
  - intros ([k m'] & -> & Hin). cbn. apply om_get_elem in Hin; [|done]. by rewrite (Hp _ _ Hin).
  - intros Hg%om_get_elem; [|done]. by exists (m_peer m, m).
Qed.

Lemma ranked_peers_NoDup p cs : NoDup (m_peer <$> ranked (merged_of p cs)).
Proof.
  destruct (merged_of_ok p cs) as [Hw Hp _ _ _]. rewrite ranked_perm. unfold om_values. rewrite <- list_fmap_compose.
  replace ((m_peer ∘ snd) <$> merged_of p cs) with (om_keys (merged_of p cs)); [by apply om_keys_NoDup|].
  unfold om_keys. apply list_fmap_ext. intros i [k m] Hi. cbn. symmetry. apply Hp. apply om_get_elem; [done|].
  by apply list_elem_of_lookup_2 in Hi.
Qed.

Lemma sublist_List_filter {A} (f : A -> bool) l : sublist (List.filter f l) l.
Proof. induction l as [|x l IH]; [done|]. cbn. destruct (f x); by constructor. Qed.

Lemma offers_peers sel out : Forall2 offers sel out -> pd_peer <$> out = m_peer <$> sel.
Proof. induction 1 as [|m d sel out [H _] _ IH]; [done|]. rewrite !fmap_cons. by rewrite H, IH. Qed.

(** ** Leaving a signer's candidates out *)

Definition without (f : FreshnessPrincipal) (cs : list Candidate) : list Candidate :=
  List.filter (fun c => negb (bool_decide (c_freshness c = f))) cs.

Lemma best_of_without g f cs o :
  best_of g (without f cs) o = if decide (g = f) then o else best_of g cs o.
Proof.
  unfold best_of, without. revert o. induction cs as [|c cs IH]; intros o; [by destruct (decide _)|].
  cbn [List.filter fold_left]. case_bool_decide as Hc; cbn [negb fold_left]; rewrite IH;
    destruct (decide (g = f)) as [->|Hne]; [done| |by rewrite decide_False|done].
  by rewrite (decide_False (P:=c_freshness c = g)) by congruence.
Qed.

Lemma filter_split {A} (P Q R : A -> bool) l :
  (forall x, x ∈ l -> P x = R x && Q x) -> List.filter P l = List.filter Q (List.filter R l).
Proof.
  induction l as [|x l IH]; intros H; [done|]. cbn [List.filter]. rewrite (H x) by apply list_elem_of_here.
  rewrite IH by (intros; apply H; by apply list_elem_of_further). destruct (R x); cbn; done.
Qed.

Lemma superseded_no_effect cs roster_size now draw p f b :
  policy_ok p -> om_get f (best_seq p) = Some b ->
  (forall c, c ∈ cs -> c_freshness c = f -> c_seq c < b) ->
  plan cs roster_size now draw p = plan (without f cs) roster_size now draw p.
Proof.
  intros [Hw _ _ _] Hb Hlow.
  destruct (learn_spec cs (best_seq p) Hw) as (W1 & _ & H1 & H2).
  destruct (learn_spec (without f cs) (best_seq p) Hw) as (W1' & _ & H1' & H2').
  assert (Hstale : forall s, best_of f cs None = Some s -> stale_against (best_seq p) f s = true).
  { intros s E. destruct (best_of_spec _ _ _ _ E) as ([?|(c & Hc & Hf & <-)] & _); [done|].
    unfold stale_against. rewrite Hb. apply N.ltb_lt. by apply Hlow. }
  assert (E1 : (learn_call p cs).1 = (learn_call p (without f cs)).1).
  { apply om_ext; [done|done|]. intros g. unfold learn_call. rewrite H1, H1', best_of_without.
    destruct (decide (g = f)) as [->|]; [|done]. destruct (best_of f cs None) as [s|] eqn:E; [|done].
    cbn. by rewrite (Hstale s eq_refl). }
  assert (E2 : surviving p cs = surviving p (without f cs)).
  { unfold surviving, without at 2. apply filter_split. intros c Hc. unfold not_stale, learn_call.
    rewrite H2, H2', best_of_without. case_bool_decide as Hf; [subst f|by rewrite decide_False].
    cbn [negb andb]. apply negb_false_iff. destruct (best_of (c_freshness c) cs None) as [s|] eqn:E.
    - cbn. by apply Hstale.
    - exfalso. by eapply (best_of_None _ _ E c). }
  rewrite !plan_unfold. unfold merged_of, learned_policy. rewrite !merge_fresh_filter, E1.
  fold (surviving p cs) (surviving p (without f cs)). by rewrite E2.
Qed.

(** High-water marks only rise, as long as they are tracked. *)
Lemma high_water cs roster_size now draw p f s :
  policy_ok p -> om_get f (best_seq (plan cs roster_size now draw p).1) = Some s ->
  (forall c, c ∈ cs -> c_freshness c = f -> ~ superseded p cs c -> c_seq c <= s) /\
  (forall b, om_get f (best_seq p) = Some b -> b <= s).
Proof.
  intros Hok Hs. pose proof (plan_shape cs roster_size now draw p Hok) as Hp. destruct (plan _ _ _ _ _) as [p' out].
  destruct Hp as (_ & _ & Eb & _). cbn [fst] in Hs. rewrite Eb in Hs. destruct Hok as [Hw _ _ _].
  destruct (learn_spec cs (best_seq p) Hw) as (W & _ & H & _).
  apply evict_lowest_get in Hs; [|done]. unfold learn_call in Hs. cbn [set_best best_seq] in Hs. rewrite H in Hs.
  destruct (best_of f cs None) as [t|] eqn:E; cbn [learned] in Hs.
  - destruct (best_of_spec _ _ _ _ E) as ([?|(c0 & Hc0 & Hf0 & Ht)] & Hle & _); [done|].
    unfold stale_against in Hs. destruct (om_get f (best_seq p)) as [b|] eqn:Eb'.
    + destruct (N.ltb_spec t b) as [Hlt|Hge].
      * split; [|intros b' [= <-]; injection Hs as <-; lia]. intros c Hc Hf Hsup. destruct Hsup. exists b.
        rewrite Hf. split; [done|]. intros c' Hc' Hf'. specialize (Hle c' Hc' ltac:(congruence)). lia.
      * injection Hs as <-. cbn. split; [|intros b' [= <-]; lia]. intros c Hc Hf _. specialize (Hle c Hc Hf). lia.
    + injection Hs as <-. cbn. split; [|done]. intros c Hc Hf _. specialize (Hle c Hc Hf). lia.
  - split; [|intros b Hb; rewrite Hb in Hs; injection Hs as <-; lia]. intros c Hc Hf _.
    exfalso. by eapply (best_of_None _ _ E c).
Qed.

(** ** Runs of a policy *)

(** The ledger counts, per budget window, the endpoints offered in it and not
    refunded; a caller refunds at most what it was granted there. *)
Definition outstanding (l : gmap N N) (w : N) : N := default 0 (l !! w).

Inductive policy_step : DiscoveryPolicy * gmap N N -> DiscoveryPolicy * gmap N N -> Prop :=
| step_plan p l cs roster_size now draw p' out :
    plan cs roster_size now draw p = (p', out) ->
    policy_step (p, l)
      (p', <[window_owner p' := outstanding l (window_owner p') + total_endpoints out]> l)
| step_refund p l w n :
    n <= outstanding l w ->
    policy_step (p, l) (refund_endpoint_budget_in w n p, <[w := outstanding l w - n]> l)
| step_forget p l device :
    policy_step (p, l) (forget_device_freshness device p, l).

Record window_ledger_ok (config : PolicyConfig) (st : DiscoveryPolicy * gmap N N) : Prop := mkLedgerOk {
  lo_policy : policy_ok st.1;
  lo_config : dp_config st.1 = config;
  lo_spent : spent st.1 = outstanding st.2 (window_owner st.1);
  lo_new : forall w, window_owner st.1 < w -> outstanding st.2 w = 0;
  lo_bound : forall w, outstanding st.2 w <= dial_budget config
}.

Lemma outstanding_insert l w n w' :
  outstanding (<[w := n]> l) w' = if decide (w' = w) then n else outstanding l w'.
Proof.
  unfold outstanding. destruct (decide (w' = w)) as [->|Hne]; [by rewrite lookup_insert_eq|].
  by rewrite lookup_insert_ne.
Qed.

Lemma ledger_new config :
  dial_budget config <= u32_max -> window_ledger_ok config (with_config config, ∅).
Proof.
  intros H. constructor; cbn; try done.
  - constructor; cbn; [apply om_wf_nil|unfold len; cbn; lia|lia|done].
  - intros w. unfold outstanding. rewrite lookup_empty. cbn. lia.
Qed.

Lemma ledger_plan config p l cs roster_size now draw p' out :
  window_ledger_ok config (p, l) -> plan cs roster_size now draw p = (p', out) ->
  window_ledger_ok config (p', <[window_owner p' := outstanding l (window_owner p') + total_endpoints out]> l).
Proof.
  intros [Hp Hc Hs Hn Hb] Hplan. cbn [fst snd] in *.
  pose proof (plan_shape cs roster_size now draw p Hp) as Hsh. rewrite Hplan in Hsh.
  destruct Hsh as (Hok' & Ec & _ & Hw & _).
  assert (Hspent : spent p' = outstanding l (window_owner p') + total_endpoints out).
  { destruct Hw as [[-> ->]|[-> ->]]; [lia|]. rewrite (Hn (window_owner p + 1)) by lia. lia. }
  constructor; cbn [fst snd]; [done|congruence| | |].
  - rewrite outstanding_insert, decide_True by done. done.
  - intros w Hlt. rewrite outstanding_insert, decide_False by lia. apply Hn. lia.
  - intros w. rewrite outstanding_insert. destruct (decide _); [|done]. rewrite <- Hspent, <- Hc, <- Ec. apply Hok'.
Qed.

Lemma ledger_refund config p l w n :
  window_ledger_ok config (p, l) -> n <= outstanding l w ->
  window_ledger_ok config (refund_endpoint_budget_in w n p, <[w := outstanding l w - n]> l).
Proof.
  intros [[P1 P2 P3 P4] Hc Hs Hn Hb] Hle. cbn [fst snd] in *. pose proof (Hb w) as Hbw. rewrite <- Hc in Hbw.
  unfold refund_endpoint_budget_in, refund_endpoint_budget.
  assert (Hcap : (u32_max <? n) = false) by (apply N.ltb_ge; lia). rewrite Hcap.
  assert (Hb' : forall w', outstanding (<[w := outstanding l w - n]> l) w' <= dial_budget config).
  { intros w'. rewrite outstanding_insert. destruct (decide _); [specialize (Hb w); lia|apply Hb]. }
  destruct (N.eqb_spec w (window_owner p)) as [->|Hne].
  - rewrite (proj2 (N.leb_le _ _)) by lia. constructor; cbn [fst snd set_spent dp_config spent window_owner best_seq].
    + constructor; cbn; [done|done|lia|done].
    + done.
    + rewrite outstanding_insert, decide_True by done. lia.
    + intros w' Hw'. rewrite outstanding_insert, decide_False by lia. by apply Hn.
    + done.
  - constructor; cbn [fst snd]; [done|done| | |done].
    + by rewrite outstanding_insert, decide_False by done.
    + intros w' Hw'. rewrite outstanding_insert. destruct (decide (w' = w)) as [->|]; [|by apply Hn].
      specialize (Hn w Hw'). lia.
Qed.

Lemma window_ledger_step config st st' : policy_step st st' -> window_ledger_ok config st -> window_ledger_ok config st'.
Proof.
  destruct 1 as [p l cs roster_size now draw p' out Hp|p l w n Hle|p l device]; intros Hok.
  - by eapply ledger_plan.
  - by apply ledger_refund.
  - destruct Hok as [[P1 P2 P3 P4] Hc Hs Hn Hb]. cbn [fst snd] in *. constructor; cbn [fst snd]; try done.
    constructor; cbn; [by apply om_wf_remove| |done|done]. etransitivity; [apply om_remove_len_le|done].
Qed.

(** * Properties *)

(** A dial plan is bounded and grounded, whatever the candidates say. It
    offers at most the roster clamp of distinct peers and at most the window's
    endpoint budget of addresses, charging each of them to the window; each
    peer's addresses are distinct, at most [max_addresses], and every one was
    advertised for that peer by a candidate whose signer is not being replayed;
    and the policy stays well-formed with its anti-replay map bounded. *)
Theorem plan_bounded cs roster_size now draw p (Hok : policy_ok p) :
  let '(p', out) := plan cs roster_size now draw p in
  policy_ok p' /\ len out <= roster_clamp (dp_config p) roster_size /\
  total_endpoints out <= dial_budget (dp_config p) /\
  (window_owner p' = window_owner p /\ spent p' = spent p + total_endpoints out \/
   window_owner p' = window_owner p + 1 /\ spent p' = total_endpoints out) /\
  NoDup (pd_peer <$> out) /\
  Forall (fun d => pd_addresses d <> [] /\ NoDup (pd_addresses d) /\
    len (pd_addresses d) <= max_addresses (dp_config p) /\
    forall a, a ∈ pd_addresses d -> exists c, c ∈ cs /\ ~ superseded p cs c /\
      c_peer c = pd_peer d /\ a ∈ c_addresses c) out.
Proof.
  pose proof (plan_shape cs roster_size now draw p Hok) as Hs. destruct (plan _ _ _ _ _) as [p' out].
  destruct Hs as (Hok' & Ec & _ & Hw & Hl & k & Hf & _). split_and!; [done|done| |done| |].
  - destruct Hok' as [_ _ Hb _]. rewrite Ec in Hb. lia.
  - rewrite (offers_peers _ _ Hf). eapply sublist_NoDup; [apply (ranked_peers_NoDup p cs)|]. apply fmap_sublist.
    etransitivity; [apply sublist_List_filter|apply sublist_take].
  - apply Forall_forall. intros d Hd.
    destruct (proj1 (list_elem_of_lookup _ _) Hd) as [i Hi].
    destruct (Forall2_lookup_r _ _ _ _ _ Hf Hi) as (m & Hm & Hp & Hpre & Hne).
    assert (Hr : m ∈ ranked (merged_of p cs)).
    { apply list_elem_of_lookup_2, elem_List_filter in Hm as [Hm _].
      by eapply elem_of_sublist; [exact Hm|apply sublist_take]. }
    apply ranked_elem in Hr. destruct (merged_of_ok p cs) as [_ _ Hn Hfrom _]. destruct (Hn _ _ Hr) as [Hnd Hmax].
    destruct Hpre as [rest Erest]. split_and!; [done| | |].
    + rewrite Erest in Hnd. by apply NoDup_app in Hnd as (? & _).
    + rewrite Erest, len_app in Hmax. lia.
    + intros a Ha. destruct (Hfrom _ _ a Hr) as (c & Hc & Hpc & Hac).
      { rewrite Erest. apply elem_of_app. by left. }
      apply surviving_spec in Hc as [Hc Hsup]; [|apply Hok]. exists c. split_and!; [done|done|congruence|done].
Qed.

(** A plan is best first and drops nobody without cause. The planned peers
    come in non-increasing score; a peer with a surviving candidate and an
    address is left out only when the endpoint budget is exhausted or the roster
    clamp is reached, and then it scores no higher than any peer that was
    planned: an unverified or uncorroborated candidate only sinks. *)
Theorem plan_best_first cs roster_size now draw p (Hok : policy_ok p) :
  let '(p', out) := plan cs roster_size now draw p in
  exists sel, Forall2 offers sel out /\ StronglySorted outranks sel /\
    (forall m, m ∈ sel -> om_get (m_peer m) (merged_of p cs) = Some m) /\
    (forall m, om_get (m_peer m) (merged_of p cs) = Some m -> m_addresses m <> [] ->
       (m_peer m ∉ (pd_peer <$> out)) ->
       (remaining_budget p' = 0 \/ len out = roster_clamp (dp_config p) roster_size) /\
       forall m', m' ∈ sel -> outranks m' m).
Proof.
  pose proof (plan_shape cs roster_size now draw p Hok) as Hs. destruct (plan _ _ _ _ _) as [p' out].
  destruct Hs as (_ & _ & _ & _ & _ & k & Hf & Hd). pose proof (ranked_sorted (merged_of p cs)) as Hsort.
  set (order := ranked (merged_of p cs)) in *. exists (List.filter has_addresses (firstn k order)).
  assert (Hsplit := take_drop k order). split_and!.
  - done.
  - rewrite <- Hsplit in Hsort. apply StronglySorted_app_1_l in Hsort. revert Hsort.
    generalize (firstn k order). clear. induction 1 as [|m l Hs IH Hm]; [constructor|]. cbn. destruct (has_addresses m); [|done].
    constructor; [done|]. by apply Forall_List_filter.
  - intros m [Hm _]%elem_List_filter. apply ranked_elem. by eapply elem_of_sublist; [exact Hm|apply sublist_take].
  - intros m Hm Hne Hnot. apply ranked_elem in Hm. fold order in Hm.
    assert (Hdrop : m ∈ skipn k order).
    { rewrite <- Hsplit, elem_of_app in Hm. destruct Hm as [Hm|]; [|done]. destruct Hnot.
      rewrite (offers_peers _ _ Hf). apply list_elem_of_fmap. exists m. split; [done|]. apply elem_List_filter.
      split; [done|]. unfold has_addresses. apply negb_true_iff, N.eqb_neq. by intros E%len_zero. }
    split.
    + destruct Hd as [Hk|Hd]; [|done]. rewrite drop_ge in Hdrop by done. by apply not_elem_of_nil in Hdrop.
    + intros m' [Hm' _]%elem_List_filter. rewrite <- Hsplit in Hsort. by eapply StronglySorted_app_1_elem_of.
Qed.

(** No window's budget is ever exceeded. In every sequence of plans, refunds
    (of any window's leftovers, in any order, late ones included) and forgotten
    devices, the endpoints offered in a budget window and not refunded to it
    never exceed the dial budget, and the policy's counter is exactly that
    number for the window in force: a late refund never refills a newer window. *)
Theorem window_budget_holds config st
  (Hbudget : dial_budget config <= u32_max)
  (Hrun : rtc policy_step (with_config config, ∅) st) :
  (forall w, outstanding st.2 w <= dial_budget config) /\
  spent st.1 = outstanding st.2 (window_owner st.1) /\
  remaining_budget st.1 + outstanding st.2 (window_owner st.1) = dial_budget config.
Proof.
  assert (Hok : window_ledger_ok config st).
  { eapply rtc_ind_r; [|clear st Hrun|exact Hrun]; [by apply ledger_new|]. intros s s' _ Hstep. by apply window_ledger_step. }
  destruct Hok as [_ Hc Hs _ Hb]. split_and!; [done|done|]. unfold remaining_budget. rewrite Hc.
  specialize (Hb (window_owner st.1)). lia.
Qed.

(** A replayed record has no effect at all. Once a plan has accepted a
    candidate from a signer, and as long as that signer is tracked, a later call
    in which the signer only presents lower sequences plans and learns exactly
    what it would have without those candidates. *)
Theorem replay_has_no_effect cs1 roster1 now1 draw1 p cs2 roster2 now2 draw2 c
  (Hok : policy_ok p) (Hc : c ∈ cs1) (Hfresh : ~ superseded p cs1 c) :
  let p1 := (plan cs1 roster1 now1 draw1 p).1 in
  om_get (c_freshness c) (best_seq p1) <> None ->
  (forall c', c' ∈ cs2 -> c_freshness c' = c_freshness c -> c_seq c' < c_seq c) ->
  plan cs2 roster2 now2 draw2 p1 = plan (without (c_freshness c) cs2) roster2 now2 draw2 p1.
Proof.
  intros p1 Htracked Hlow. destruct (om_get (c_freshness c) (best_seq p1)) as [s|] eqn:Hs; [|done].
  destruct (high_water cs1 roster1 now1 draw1 p _ s Hok Hs) as [Hle _]. specialize (Hle c Hc eq_refl Hfresh).
  apply (superseded_no_effect _ _ _ _ _ _ s); [|done|].
  - pose proof (plan_shape cs1 roster1 now1 draw1 p Hok) as Hsh. unfold p1. by destruct (plan _ _ _ _ _), Hsh.
  - intros c' Hc' Hf. specialize (Hlow c' Hc' Hf). lia.
Qed.

(** * Concrete runs *)

Definition toy_candidate (peer root seq : N) (addresses : list bytes) : Candidate :=
  mkCandidate (be_bytes 1 peer) addresses (Rendezvous (be_bytes 1 root)) (Transport (be_bytes 1 peer)) seq false.

(** One rendezvous floods three peers; a cached one and a second rendezvous vouch
    for two others. *)
Definition toy_addresses : list bytes :=
  [bytes_of_string "/ip4/192.0.2.1/tcp/1"; bytes_of_string "/ip4/192.0.2.1/tcp/2"].
Definition toy_candidates : list Candidate :=
  [toy_candidate 1 100 5 toy_addresses; toy_candidate 2 100 5 toy_addresses; toy_candidate 3 100 5 toy_addresses;
   toy_candidate 4 101 5 toy_addresses;
   mkCandidate (be_bytes 1 5) toy_addresses Cache (Device (be_bytes 1 5)) 9 false].

Definition toy_policy : DiscoveryPolicy := with_config PolicyConfig_default.
Definition toy_plan : DiscoveryPolicy * list PlannedDial := plan toy_candidates 9 0 0 toy_policy.

Lemma toy_policy_ok : policy_ok toy_policy.
Proof. constructor; [apply om_wf_nil|apply N.leb_le; reflexivity..]. Qed.

(** The cached peer first, then the two rendezvous in turn, within the budget. *)
Lemma toy_plan_peers :
  pd_peer <$> toy_plan.2 = (fun n => be_bytes 1 n) <$> [5; 1; 4; 2] /\ total_endpoints toy_plan.2 = 8.
Proof. vm_compute. done. Qed.

Lemma plan_bounded_witness :
  total_endpoints toy_plan.2 = 8 /\
  (let '(p', out) := toy_plan in policy_ok p' /\ total_endpoints out <= dial_budget PolicyConfig_default).
Proof.
  split; [exact (proj2 toy_plan_peers)|].
  pose proof (plan_bounded toy_candidates 9 0 0 toy_policy toy_policy_ok) as H. fold toy_plan in H.
  destruct toy_plan as [p' out]. destruct H as (H1 & _ & H2 & _). split; [exact H1|exact H2].
Defined.

Lemma plan_best_first_witness :
  let '(p', out) := toy_plan in
  exists sel, Forall2 offers sel out /\ StronglySorted outranks sel.
Proof.
  pose proof (plan_best_first toy_candidates 9 0 0 toy_policy toy_policy_ok) as H. fold toy_plan in H.
  destruct toy_plan as [p' out]. destruct H as (sel & H1 & H2 & _). exists sel. split; [exact H1|exact H2].
Defined.

Lemma toy_run_step :
  policy_step (toy_policy, ∅) (toy_plan.1, <[window_owner toy_plan.1 := outstanding ∅ (window_owner toy_plan.1) + total_endpoints toy_plan.2]> ∅).
Proof. apply (step_plan _ _ toy_candidates 9 0 0). by destruct toy_plan eqn:E. Qed.

Lemma window_budget_holds_witness :
  spent toy_plan.1 = outstanding (<[window_owner toy_plan.1 := outstanding ∅ (window_owner toy_plan.1) + total_endpoints toy_plan.2]> ∅) (window_owner toy_plan.1).
Proof.
  exact (proj1 (proj2 (window_budget_holds PolicyConfig_default _ ltac:(apply N.leb_le; reflexivity)
    (rtc_once _ _ toy_run_step)))).
Defined.

Lemma toy_not_superseded : ~ superseded toy_policy toy_candidates (toy_candidate 1 100 5 toy_addresses).
Proof. by intros (b & Hb & _). Qed.

Lemma toy_tracked :
  om_get (Transport (be_bytes 1 1)) (best_seq toy_plan.1) = Some 5.
Proof. vm_compute. reflexivity. Qed.

Lemma replay_has_no_effect_witness :
  plan [toy_candidate 1 102 4 toy_addresses] 9 20000 0 toy_plan.1 = plan [] 9 20000 0 toy_plan.1.
Proof.
  apply (replay_has_no_effect toy_candidates 9 0 0 toy_policy [toy_candidate 1 102 4 toy_addresses] 9 20000 0
    (toy_candidate 1 100 5 toy_addresses) toy_policy_ok).
  - apply list_elem_of_here.
  - exact toy_not_superseded.
  - fold toy_plan. change (om_get (Transport (be_bytes 1 1)) (best_seq toy_plan.1) <> None). rewrite toy_tracked. discriminate.
  - intros c' Hc'. apply list_elem_of_singleton in Hc' as ->. intros _. reflexivity.
Defined.
