(* ===== verification/Eclipse.v ===== *)
(** The advisory eclipse detector of [crates/catcoms-discovery/src/eclipse.rs]:
    [EclipseConfig], the three observed signals, the two suspicion terms and the
    hysteresis of [EclipseDetector::observe].

    The injected clock is the [now] argument of [observe]. The reach ratio is an
    [f64]: usize-to-float conversion, division and comparison are IEEE binary64
    with round-to-nearest-even, through the specification floats of the Standard
    Library.

    The reference definition [history_level] has no state: it reads the whole
    history of observations and asks how long the current unbroken spell of
    suspect, or of healthy, observations has lasted. *)

From S2P Require Import Prelude.
From stdpp Require Import base list.
From Stdlib Require Import Floats.SpecFloat.
Local Open Scope N_scope.

(** * binary64 *)

Definition f64 : Type := spec_float.

(** [n as f64] for an unsigned integer *)
Definition f64_of_N (n : N) : f64 := binary_normalize 53 1024 (Z.of_N n) 0 false.
Definition f64_div (x y : f64) : f64 := SFdiv 53 1024 x y.
Definition f64_lt (x y : f64) : bool := SFltb x y.

(** * Data *)

Record EclipseConfig := mkEclipseConfig {
  roster_floor : N;
  min_reach : f64;
  min_sources : N;
  grace_ms : N;
  clear_ms : N;
  collapse_sustain_ms : N
}.

(** [0.20] is the double nearest to one fifth. *)
Definition EclipseConfig_default : EclipseConfig :=
  mkEclipseConfig 3 (S754_finite false 7205759403792794 (-55)) 2 30000 30000 300000.

Inductive EclipseLevel := LevelOk | Caution.
#[global] Instance EclipseLevel_eq_dec : EqDecision EclipseLevel.
Proof. solve_decision. Defined.

Record EclipseObservation := mkEclipseObservation {
  roster_size : N;
  reachable_devices : N;
  trust_roots : N
}.

Record EclipseDetector := mkEclipseDetector {
  ed_config : EclipseConfig;
  ed_level : EclipseLevel;
  suspect_since : option N;
  clear_since : option N;
  max_sources_seen : N;
  collapse_since : option N
}.

(** * Operations *)

(** [EclipseDetector::new] *)
Definition EclipseDetector_new (config : EclipseConfig) : EclipseDetector :=
  mkEclipseDetector config LevelOk None None 0 None.

Definition reach (o : EclipseObservation) : f64 :=
  if roster_size o <=? 1 then f64_of_N 1
  else f64_div (f64_of_N (reachable_devices o - 1)) (f64_of_N (roster_size o - 1)).

(** The terms read the configuration and the baseline [max_sources_seen] of the
    detector, nothing else. *)
Definition suspicion_terms (config : EclipseConfig) (max_seen : N) (o : EclipseObservation) : bool * bool :=
  if roster_size o <=? roster_floor config then (false, false)
  else
    let low_reach_and_sources := f64_lt (reach o) (min_reach config) && (trust_roots o <? min_sources config) in
    let corroboration_was_possible := min_sources config <=? reachable_devices o - 1 in
    let sources_collapsed :=
      (min_sources config <=? max_seen) && corroboration_was_possible && (trust_roots o <=? 1) in
    (low_reach_and_sources, sources_collapsed).

(** [*slot.get_or_insert(now)], the value; the slot becomes [Some] of it. *)
Definition get_or_insert (slot : option N) (now : N) : N := default now slot.

(** The collapse term's own window: the new slot, and whether it has been held. *)
Definition collapse_window (config : EclipseConfig) (since : option N) (collapsed : bool) (now : N)
    : option N * bool :=
  if collapsed then
    let since := get_or_insert since now in
    (Some since, collapse_sustain_ms config <=? now - since)
  else (None, false).

(** The [match self.level] of [observe]: level, [suspect_since], [clear_since]. *)
Definition hysteresis (config : EclipseConfig) (level : EclipseLevel) (suspect_at clear_at : option N)
    (suspect : bool) (now : N) : EclipseLevel * option N * option N :=
  match level with
  | LevelOk =>
      if suspect then
        let since := get_or_insert suspect_at now in
        if grace_ms config <=? now - since then (Caution, None, None) else (LevelOk, Some since, None)
      else (LevelOk, None, clear_at)
  | Caution =>
      if suspect then (Caution, suspect_at, None)
      else
        let since := get_or_insert clear_at now in
        if clear_ms config <=? now - since then (LevelOk, None, None) else (Caution, None, Some since)
  end.

Definition observe (d : EclipseDetector) (o : EclipseObservation) (now : N) : EclipseDetector :=
  let config := ed_config d in
  let max_seen := N.max (max_sources_seen d) (trust_roots o) in
  let '(low_reach_and_sources, collapsed_now) := suspicion_terms config max_seen o in
  let '(collapse_at, collapse_held) := collapse_window config (collapse_since d) collapsed_now now in
  let suspect := low_reach_and_sources || collapse_held in
  let '(level, suspect_at, clear_at) :=
    hysteresis config (ed_level d) (suspect_since d) (clear_since d) suspect now in
  mkEclipseDetector config level suspect_at clear_at max_seen collapse_at.

(** A session: observations with the clock reading of each, oldest first. *)
Definition observe_all (d : EclipseDetector) (h : list (N * EclipseObservation)) : EclipseDetector :=
  fold_left (fun d no => observe d no.2 no.1) h d.

(** * Reference: the level as a function of the history

    Histories are newest first, so that the current observation is the head. *)

Definition History : Type := list (N * EclipseObservation).

(** When the unbroken run of entries satisfying [p] that ends now began. *)
Fixpoint spell_start (p : History -> bool) (h : History) : option N :=
  match h with
  | [] => None
  | no :: h' => if p h then Some (default no.1 (spell_start p h')) else None
  end.

(** Has it lasted for [span]? *)
Definition lasted (p : History -> bool) (span : N) (h : History) : bool :=
  match h, spell_start p h with
  | no :: _, Some since => span <=? no.1 - since
  | _, _ => false
  end.

Definition best_sources (h : History) : N := foldr (fun no => N.max (trust_roots no.2)) 0 h.

Definition collapsed_at (config : EclipseConfig) (h : History) : bool :=
  match h with
  | [] => false
  | no :: _ => (suspicion_terms config (best_sources h) no.2).2
  end.

Definition suspect_at (config : EclipseConfig) (h : History) : bool :=
  match h with
  | [] => false
  | no :: _ => (suspicion_terms config (best_sources h) no.2).1
               || lasted (collapsed_at config) (collapse_sustain_ms config) h
  end.

Definition healthy_at (config : EclipseConfig) (h : History) : bool := negb (suspect_at config h).

Fixpoint history_level (config : EclipseConfig) (h : History) : EclipseLevel :=
  match h with
  | [] => LevelOk
  | _ :: h' =>
      match history_level config h' with
      | LevelOk => if lasted (suspect_at config) (grace_ms config) h then Caution else LevelOk
      | Caution => if lasted (healthy_at config) (clear_ms config) h then LevelOk else Caution
      end
  end.

(** * Lemmas *)

Lemma spell_start_step p no h :
  spell_start p (no :: h) = if p (no :: h) then Some (get_or_insert (spell_start p h) no.1) else None.
Proof. done. Qed.

Lemma lasted_cons p span no h :
  lasted p span (no :: h) = p (no :: h) && (span <=? no.1 - get_or_insert (spell_start p h) no.1).
Proof. unfold lasted. rewrite spell_start_step. by destruct (p (no :: h)). Qed.

Lemma lasted_now p span h : lasted p span h = true -> p h = true.
Proof. destruct h as [|no h]; [done|]. rewrite lasted_cons. by intros [? _]%andb_true_iff. Qed.

(** What the detector's fields mean, in terms of the history it has seen. *)
Record tracks (config : EclipseConfig) (h : History) (d : EclipseDetector) : Prop := mkTracks {
  tr_config : ed_config d = config;
  tr_level : ed_level d = history_level config h;
  tr_max : max_sources_seen d = best_sources h;
  tr_collapse : collapse_since d = spell_start (collapsed_at config) h;
  tr_suspect : ed_level d = LevelOk -> suspect_since d = spell_start (suspect_at config) h;
  tr_clear : ed_level d = Caution -> clear_since d = spell_start (healthy_at config) h
}.

Lemma tracks_new config : tracks config [] (EclipseDetector_new config).
Proof. by constructor. Qed.

(** The fields [observe] computes before the hysteresis. *)
Lemma observe_unfold config h d now o :
  tracks config h d ->
  observe d o now =
    (let '(level, suspect_at, clear_at) :=
       hysteresis config (ed_level d) (suspect_since d) (clear_since d) (suspect_at config ((now, o) :: h)) now in
     mkEclipseDetector config level suspect_at clear_at (best_sources ((now, o) :: h))
       (spell_start (collapsed_at config) ((now, o) :: h))).
Proof.
  intros [Hc _ Hm Hcol _ _]. unfold observe. rewrite Hc, Hm, Hcol, N.max_comm.
  change (N.max (trust_roots o) (best_sources h)) with (best_sources ((now, o) :: h)).
  rewrite spell_start_step. unfold suspect_at, collapsed_at at 2 3. rewrite lasted_cons. unfold collapsed_at at 2. cbn [snd fst].
  destruct (suspicion_terms _ _ _) as [low col]; cbn [fst snd]. unfold collapse_window. by destruct col.
Qed.

Lemma tracks_observe config h d now o :
  tracks config h d -> tracks config ((now, o) :: h) (observe d o now).
Proof.
  intros Ht. rewrite (observe_unfold _ _ _ _ _ Ht). destruct Ht as [_ Hl _ _ Hs Hk].
  set (h' := (now, o) :: h).
  assert (El : forall p span, lasted p span h' = p h' && (span <=? now - get_or_insert (spell_start p h) now))
    by (intros; apply lasted_cons).
  assert (Es : forall p, spell_start p h' = if p h' then Some (get_or_insert (spell_start p h) now) else None)
    by (intros; apply spell_start_step).
  assert (Eh : healthy_at config h' = negb (suspect_at config h')) by done.
  assert (En : history_level config h' = match history_level config h with
      | LevelOk => if lasted (suspect_at config) (grace_ms config) h' then Caution else LevelOk
      | Caution => if lasted (healthy_at config) (clear_ms config) h' then LevelOk else Caution end) by done.
  rewrite !El, Eh in En. unfold hysteresis. rewrite <- Hl in En.
  destruct (ed_level d); [rewrite (Hs eq_refl)|rewrite (Hk eq_refl)];
    destruct (suspect_at config h') eqn:Hp; cbn [negb andb] in En;
    try destruct (_ <=? _) eqn:Hle; constructor; cbn [ed_config ed_level max_sources_seen collapse_since suspect_since clear_since];
    rewrite ?En, ?Es, ?Eh, ?Hp; done.
Qed.

Lemma tracks_run config h : tracks config (rev h) (observe_all (EclipseDetector_new config) h).
Proof.
  unfold observe_all. rewrite <- fold_left_rev_right. induction (rev h) as [|[now o] k IH]; [apply tracks_new|].
  cbn [foldr fst snd]. by apply tracks_observe.
Qed.

(** A spell, spelled out: the newest entries of the history, every one of them
    in the spell, from the oldest entry's clock reading on. *)
Lemma spell_start_some p h since :
  spell_start p h = Some since ->
  exists spell first older, h = spell ++ first :: older /\ first.1 = since /\
    (forall k, (k <= length spell)%nat -> p (drop k h) = true).
Proof.
  revert since. induction h as [|no h IH]; intros since; [done|]. rewrite spell_start_step.
  destruct (p (no :: h)) eqn:Hp; [|done]. intros [= <-].
  destruct (spell_start p h) as [s|] eqn:E; cbn [get_or_insert default].
  - destruct (IH s eq_refl) as (spell & first & older & -> & Hf & Hall).
    exists (no :: spell), first, older. split_and!; [done|done|]. intros [|k] Hk; [done|]. apply Hall. cbn in Hk. lia.
  - exists [], no, h. split_and!; [done|done|]. intros [|k] Hk; [done|]. cbn in Hk. lia.
Qed.

Lemma small_group_quiet config h :
  Forall (fun no => roster_size no.2 <= roster_floor config) h -> suspect_at config h = false.
Proof.
  destruct 1 as [|[now o] h Ho _]; [done|]. unfold suspect_at. rewrite lasted_cons. unfold collapsed_at at 1. cbn [snd] in *.
  unfold suspicion_terms. by rewrite (proj2 (N.leb_le _ _)).
Qed.

(** Under CAUTION some spell of suspect observations lasted the grace window,
    and no healthy spell has lasted the clear window since. *)
Lemma caution_spell config h :
  history_level config h = Caution ->
  exists recent raised, h = recent ++ raised /\
    lasted (suspect_at config) (grace_ms config) raised = true /\
    (forall k, (k < length recent)%nat -> lasted (healthy_at config) (clear_ms config) (drop k h) = false).
Proof.
  induction h as [|no h IH]; [done|]. cbn [history_level].
  destruct (history_level config h).
  - destruct (lasted _ _ _) eqn:E; [|done]. intros _. exists [], (no :: h). split_and!; [done|done|].
    intros k Hk. cbn in Hk. lia.
  - destruct (lasted (healthy_at config) _ _) eqn:E; [done|]. intros _.
    destruct (IH eq_refl) as (recent & raised & -> & Hr & Hc). exists (no :: recent), raised.
    split_and!; [done|done|]. intros [|k] Hk; [done|]. apply Hc. cbn in Hk. lia.
Qed.

Lemma level_settles config h :
  history_level config h =
    if lasted (suspect_at config) (grace_ms config) h then Caution
    else if lasted (healthy_at config) (clear_ms config) h then LevelOk
    else history_level config (tail h).
Proof.
  destruct h as [|no h]; [done|]. cbn [history_level tail].
  destruct (history_level config h);
    destruct (lasted (suspect_at config) (grace_ms config) (no :: h)) eqn:Es;
    destruct (lasted (healthy_at config) (clear_ms config) (no :: h)) eqn:Eh; try done;
    apply lasted_now in Es, Eh; unfold healthy_at in Eh; by rewrite Es in Eh.
Qed.

(** * Properties *)

(** The incremental detector computes the history-based reference: after any
    sequence of observations with any clock readings, its level is the one
    obtained by asking, at each observation, how long the unbroken spell of
    suspect observations (in the healthy state) or of healthy ones (under
    CAUTION) has lasted; its remembered instants are the starts of those spells
    and its baseline the most trust roots ever seen. *)
Theorem detector_matches_history config h :
  let d := observe_all (EclipseDetector_new config) h in
  ed_level d = history_level config (rev h) /\
  max_sources_seen d = best_sources (rev h) /\
  collapse_since d = spell_start (collapsed_at config) (rev h) /\
  (ed_level d = LevelOk -> suspect_since d = spell_start (suspect_at config) (rev h)) /\
  (ed_level d = Caution -> clear_since d = spell_start (healthy_at config) (rev h)).
Proof. destruct (tracks_run config h). by split_and!. Qed.

(** CAUTION is never raised on a transient. Whenever the detector reports
    CAUTION, the observations it was fed contain an unbroken run, every one of
    them suspect, whose last reading is at least [grace_ms] after its first, and
    since that run no stretch of healthy observations has lasted [clear_ms]. *)
Theorem caution_needs_sustained_suspicion config h
  (Hcaution : ed_level (observe_all (EclipseDetector_new config) h) = Caution) :
  exists older first spell recent, rev h = recent ++ spell ++ first :: older /\
    grace_ms config <= (default first (head spell)).1 - first.1 /\
    (forall k, (k <= length spell)%nat ->
       suspect_at config (drop k (spell ++ first :: older)) = true) /\
    (forall k, (k < length recent)%nat ->
       lasted (healthy_at config) (clear_ms config) (drop k (rev h)) = false).
Proof.
  destruct (tracks_run config h) as [_ Hl _ _ _ _]. rewrite Hcaution in Hl. symmetry in Hl.
  destruct (caution_spell _ _ Hl) as (recent & raised & E & Hr & Hc).
  unfold lasted in Hr. destruct raised as [|no raised]; [done|].
  destruct (spell_start (suspect_at config) (no :: raised)) as [since|] eqn:Es; [|done].
  destruct (spell_start_some _ _ _ Es) as (spell & first & older & E' & <- & Hall).
  exists older, first, spell, recent. rewrite <- E'. split_and!; [done| |done|done].
  apply N.leb_le in Hr. destruct spell as [|x spell]; injection E' as -> ->; done.
Qed.

(** The detector settles: the level reported after any observation is
    CAUTION if suspicion has lasted the grace window, healthy if health has
    lasted the clear window, and otherwise the level before it. Both responses
    are guaranteed, so a sustained eclipse is always reported and a sustained
    recovery always clears it. *)
Theorem detector_settles config h now o :
  let d := observe_all (EclipseDetector_new config) h in
  let history := (now, o) :: rev h in
  ed_level (observe d o now) =
    if lasted (suspect_at config) (grace_ms config) history then Caution
    else if lasted (healthy_at config) (clear_ms config) history then LevelOk
    else ed_level d.
Proof.
  pose proof (tracks_run config h) as Ht. pose proof (tr_level _ _ _ (tracks_observe _ _ _ now o Ht)) as Hl.
  cbv zeta. rewrite Hl, (tr_level _ _ _ Ht). apply level_settles.
Qed.

(** A group at or below the roster floor is never suspected, whatever it
    reaches and whoever vouches for it. *)
Theorem small_group_never_suspect config h
  (Hsmall : Forall (fun no => roster_size no.2 <= roster_floor config) h) :
  ed_level (observe_all (EclipseDetector_new config) h) = LevelOk.
Proof.
  rewrite (tr_level _ _ _ (tracks_run config h)). apply Forall_rev in Hsmall.
  induction Hsmall as [|no k Hno Hk IH]; [done|]. cbn [history_level]. rewrite IH.
  rewrite lasted_cons, small_group_quiet by (by constructor). done.
Qed.

(** * Concrete runs *)

(** Eight of nine members vanish while one root vouches for everybody. *)
Definition toy_eclipse : list (N * EclipseObservation) :=
  [(0, mkEclipseObservation 9 9 3); (60000, mkEclipseObservation 9 2 1);
   (90000, mkEclipseObservation 9 1 1); (100000, mkEclipseObservation 9 2 0)].

Lemma toy_eclipse_caution :
  ed_level (observe_all (EclipseDetector_new EclipseConfig_default) toy_eclipse) = Caution.
Proof. vm_compute. reflexivity. Qed.

(** The honest relay keeps reach high; only the collapse of sources betrays it,
    and only after its own window and the grace window. *)
Lemma honest_relay_detected :
  let relay now := (now, mkEclipseObservation 9 9 1) in
  let run h := ed_level (observe_all (EclipseDetector_new EclipseConfig_default) h) in
  let start := [(0, mkEclipseObservation 9 9 3); relay 60000; relay 359999] in
  run (start ++ [relay 360000; relay 389999]) = LevelOk /\
  run (start ++ [relay 360000; relay 389999; relay 390000]) = Caution.
Proof. vm_compute. done. Qed.

Lemma caution_needs_sustained_suspicion_witness :
  exists older first spell recent, rev toy_eclipse = recent ++ spell ++ first :: older /\
    grace_ms EclipseConfig_default <= (default first (head spell)).1 - first.1 /\
    (forall k, (k <= length spell)%nat ->
       suspect_at EclipseConfig_default (drop k (spell ++ first :: older)) = true) /\
    (forall k, (k < length recent)%nat ->
       lasted (healthy_at EclipseConfig_default) (clear_ms EclipseConfig_default) (drop k (rev toy_eclipse)) = false).
Proof. exact (caution_needs_sustained_suspicion EclipseConfig_default toy_eclipse toy_eclipse_caution). Defined.

Lemma small_group_never_suspect_witness :
  ed_level (observe_all (EclipseDetector_new EclipseConfig_default)
    [(0, mkEclipseObservation 3 3 2); (400000, mkEclipseObservation 3 1 0)]) = LevelOk.
Proof.
  apply small_group_never_suspect. repeat constructor; apply N.leb_le; reflexivity.
Defined.

(** On every roster up to twelve members the rounded quotient decides "below one
    fifth" exactly. *)
Lemma reach_exact_small :
  forallb (fun r => forallb (fun d =>
    Bool.eqb (f64_lt (reach (mkEclipseObservation r d 0)) (min_reach EclipseConfig_default))
             (5 * (d - 1) <? r - 1)) (N.of_nat <$> seq 1 12)) (N.of_nat <$> seq 2 11) = true.
Proof. vm_compute. reflexivity. Qed.
