(* ===== verification/Admission.v ===== *)
(** Inbound connection admission of [crates/catcoms-net/src/admission.rs]: the
    per-prefix connection quota, the peer and prefix deny windows and the
    saturation flag of [Admission], with the [NetworkBehaviour] callbacks that
    charge and release connections.

    The swarm that calls back is libp2p: the model keeps what its documentation
    promises as the steps it can take ([swarm_step]). A hash map is a finite
    map; where the code iterates one, the iteration order is an argument. *)

From S2P Require Import Prelude.
From stdpp Require Import base list gmap relations.
From Stdlib Require Import Init.Byte.
Local Open Scope N_scope.

(** * Addresses *)

(** An [Ipv4Addr] or [Ipv6Addr] as the integer [u32::from] or [u128::from]. *)
Inductive IpAddr : Type := IpV4 (v4 : N) | IpV6 (v6 : N).

(** The components of a multiaddr: the two the code matches on, and the rest. *)
Inductive Protocol : Type := Ip4 (v4 : N) | Ip6 (v6 : N) | OtherProtocol (code : N).

Abbreviation Multiaddr := (list Protocol) (only parsing).
Abbreviation ConnectionId := N (only parsing).
Abbreviation PeerId := bytes (only parsing).

Inductive AddrPrefix : Type := V4 (octets : bytes) | V6 (octets : bytes).

#[global] Instance AddrPrefix_eq_dec : EqDecision AddrPrefix.
Proof. solve_decision. Defined.

#[global] Instance AddrPrefix_countable : Countable AddrPrefix :=
  inj_countable' (fun p => match p with V4 o => inl o | V6 o => inr o end)
    (fun s => match s with inl o => V4 o | inr o => V6 o end)
    (fun p => match p with V4 _ => eq_refl | V6 _ => eq_refl end).

(** [100.64.0.0/10], the carrier-grade NAT range. *)
Definition is_shared (p : AddrPrefix) : bool :=
  match p with
  | V4 [a; b; _; _] => (b2n a =? 100) && (64 <=? b2n b) && (b2n b <=? 127)
  | V4 _ | V6 _ => false
  end.

(** [uN::MAX << (width - bits)], or 0 for no bits; the shift drops what leaves
    the width. *)
Definition net_mask (width max bits : N) : N :=
  if bits =? 0 then 0 else N.land (N.shiftl max (width - bits)) max.

Definition mask (ip : IpAddr) (v4_bits v6_bits : N) : AddrPrefix :=
  match ip with
  | IpV4 v4 => V4 (be_bytes 4 (N.land v4 (net_mask 32 u32_max (N.min v4_bits 32))))
  | IpV6 v6 => V6 (be_bytes 16 (N.land v6 (net_mask 128 u128_max (N.min v6_bits 128))))
  end.

Fixpoint addr_prefix (addr : Multiaddr) (v4_bits v6_bits : N) : option AddrPrefix :=
  match addr with
  | [] => None
  | Ip4 v4 :: _ => Some (mask (IpV4 v4) v4_bits v6_bits)
  | Ip6 v6 :: _ => Some (mask (IpV6 v6) v4_bits v6_bits)
  | OtherProtocol _ :: addr => addr_prefix addr v4_bits v6_bits
  end.

(** * State *)

Record AdmissionConfig := mkAdmissionConfig {
  ipv4_prefix_bits : N;
  ipv6_prefix_bits : N;
  max_conns_per_prefix : N;
  shared_prefix_multiplier : N;
  max_conns_per_prefix_saturated : N;
  refuse_all_when_saturated : bool;
  max_denied_peers : N;
  max_denied_prefixes : N
}.

Definition AdmissionConfig_default : AdmissionConfig :=
  mkAdmissionConfig 24 56 128 8 8 false 16384 4096.

(** The prefix of a refusal is kept as a value; the code renders it as text. *)
Inductive DeniedBecause : Type :=
| PrefixQuota (prefix : AddrPrefix) (held limit : N)
| PeerDenied (remaining_ms : N)
| PrefixDenied (prefix : AddrPrefix) (remaining_ms : N)
| Saturated.

Record AdmissionStats := mkAdmissionStats {
  as_prefixes : N;
  as_inbound_conns : N;
  as_denied_peers : N;
  as_denied_prefixes : N;
  as_refused : N
}.

Record Admission := mkAdmission {
  ad_cfg : AdmissionConfig;
  ad_now_ms : N;
  ad_saturated : bool;
  ad_conns_per_prefix : gmap AddrPrefix (gset N);
  ad_prefix_of_conn : gmap N AddrPrefix;
  ad_prefix_of_peer : gmap bytes AddrPrefix;
  ad_denied_until : gmap bytes N;
  ad_denied_prefix_until : gmap AddrPrefix N;
  ad_refused : N
}.

(** [Admission::new] *)
Definition Admission_new (cfg : AdmissionConfig) (now_ms : N) : Admission :=
  mkAdmission cfg now_ms false ∅ ∅ ∅ ∅ ∅ 0.

Definition with_conns (a : Admission) (conns : gmap AddrPrefix (gset N))
    (of_conn : gmap N AddrPrefix) (of_peer : gmap bytes AddrPrefix) : Admission :=
  mkAdmission (ad_cfg a) (ad_now_ms a) (ad_saturated a) conns of_conn of_peer
    (ad_denied_until a) (ad_denied_prefix_until a) (ad_refused a).

Definition with_denied (a : Admission) (now_ms : N) (peers : gmap bytes N)
    (prefixes : gmap AddrPrefix N) : Admission :=
  mkAdmission (ad_cfg a) now_ms (ad_saturated a) (ad_conns_per_prefix a)
    (ad_prefix_of_conn a) (ad_prefix_of_peer a) peers prefixes (ad_refused a).

(** * Deny windows *)

(** [Iterator::min_by_key]: the first of the least elements. *)
Fixpoint min_by_key {K} (l : list (K * N)) : option (K * N) :=
  match l with
  | [] => None
  | x :: l =>
      match min_by_key l with
      | Some y => if y.2 <? x.2 then Some y else Some x
      | None => Some x
      end
  end.

Section deny.
Context `{Countable K}.
Variable iter : gmap K N -> list (K * N).

(** [map.retain(|_, u| *u > now_ms)] *)
Definition retain_after (now_ms : N) (m : gmap K N) : gmap K N :=
  filter (fun ku => now_ms < ku.2) m.

Definition deny_in (m : gmap K N) (key : K) (until now_ms cap : N) : gmap K N :=
  match m !! key with
  | Some slot => <[key := N.max slot until]> m
  | None =>
      let m := if cap <=? N.of_nat (size m) then retain_after now_ms m else m in
      let m := if cap <=? N.of_nat (size m)
               then match min_by_key (iter m) with
                    | Some soonest => delete soonest.1 m
                    | None => m
                    end
               else m in
      <[key := until]> m
  end.
End deny.

Definition set_now_ms (a : Admission) (now_ms : N) : Admission :=
  with_denied a now_ms (retain_after now_ms (ad_denied_until a))
    (retain_after now_ms (ad_denied_prefix_until a)).

Definition deny_peer_for (iter : gmap bytes N -> list (bytes * N)) (a : Admission) (peer : PeerId)
    (window_ms : N) : Admission :=
  let until := sat_add u64_max (ad_now_ms a) window_ms in
  with_denied a (ad_now_ms a)
    (deny_in iter (ad_denied_until a) peer until (ad_now_ms a) (max_denied_peers (ad_cfg a)))
    (ad_denied_prefix_until a).

Definition deny_prefix_for (iter : gmap AddrPrefix N -> list (AddrPrefix * N)) (a : Admission)
    (prefix : AddrPrefix) (window_ms : N) : Admission :=
  let until := sat_add u64_max (ad_now_ms a) window_ms in
  with_denied a (ad_now_ms a) (ad_denied_until a)
    (deny_in iter (ad_denied_prefix_until a) prefix until (ad_now_ms a)
       (max_denied_prefixes (ad_cfg a))).

Definition in_window (until : option N) (now_ms : N) : bool :=
  match until with Some u => now_ms <? u | None => false end.

Definition is_denied (a : Admission) (peer : PeerId) : bool :=
  in_window (ad_denied_until a !! peer) (ad_now_ms a).

Definition is_prefix_denied (a : Admission) (prefix : AddrPrefix) : bool :=
  in_window (ad_denied_prefix_until a !! prefix) (ad_now_ms a).

(** * Quotas *)

Definition set_saturated (a : Admission) (saturated : bool) : Admission :=
  mkAdmission (ad_cfg a) (ad_now_ms a) saturated (ad_conns_per_prefix a)
    (ad_prefix_of_conn a) (ad_prefix_of_peer a) (ad_denied_until a)
    (ad_denied_prefix_until a) (ad_refused a).

(** The code collects them in the hash map's order, here the finite map's. *)
Definition peers_in_prefix (a : Admission) (prefix : AddrPrefix) : list PeerId :=
  fst <$> map_to_list (filter (fun pp => pp.2 = prefix) (ad_prefix_of_peer a)).

(** The connections charged to a prefix. *)
Definition conns_of (a : Admission) (prefix : AddrPrefix) : gset N :=
  default ∅ (ad_conns_per_prefix a !! prefix).

Definition conns_in_prefix (a : Admission) (prefix : AddrPrefix) : N :=
  N.of_nat (size (conns_of a prefix)).

Definition stats (a : Admission) : AdmissionStats :=
  mkAdmissionStats (N.of_nat (size (ad_conns_per_prefix a))) (N.of_nat (size (ad_prefix_of_conn a)))
    (N.of_nat (size (ad_denied_until a))) (N.of_nat (size (ad_denied_prefix_until a)))
    (ad_refused a).

Definition quota (cfg : AdmissionConfig) (saturated : bool) (prefix : AddrPrefix) : N :=
  let base := if saturated then max_conns_per_prefix_saturated cfg else max_conns_per_prefix cfg in
  if is_shared prefix
  then N.min usize_max (base * N.max (shared_prefix_multiplier cfg) 1)
  else base.

Definition prefix_quota (a : Admission) (prefix : AddrPrefix) : N :=
  quota (ad_cfg a) (ad_saturated a) prefix.

Definition prefix_for (cfg : AdmissionConfig) (addr : Multiaddr) : option AddrPrefix :=
  addr_prefix addr (ipv4_prefix_bits cfg) (ipv6_prefix_bits cfg).

Definition release (a : Admission) (connection_id : ConnectionId) : Admission :=
  match ad_prefix_of_conn a !! connection_id with
  | Some prefix =>
      let of_conn := delete connection_id (ad_prefix_of_conn a) in
      match ad_conns_per_prefix a !! prefix with
      | Some conns =>
          let conns := conns ∖ {[ connection_id ]} in
          with_conns a (if decide (conns = ∅) then delete prefix (ad_conns_per_prefix a)
                        else <[prefix := conns]> (ad_conns_per_prefix a))
            of_conn (ad_prefix_of_peer a)
      | None => with_conns a (ad_conns_per_prefix a) of_conn (ad_prefix_of_peer a)
      end
  | None => a
  end.

Definition refuse (a : Admission) (why : DeniedBecause) : DeniedBecause * Admission :=
  (why, mkAdmission (ad_cfg a) (ad_now_ms a) (ad_saturated a) (ad_conns_per_prefix a)
          (ad_prefix_of_conn a) (ad_prefix_of_peer a) (ad_denied_until a)
          (ad_denied_prefix_until a) (sat_add u64_max (ad_refused a) 1)).

(** Both places that charge a connection do it with these two inserts. *)
Definition charge_conn (a : Admission) (connection_id : ConnectionId) (prefix : AddrPrefix)
    (of_peer : gmap bytes AddrPrefix) : Admission :=
  with_conns a (<[prefix := conns_of a prefix ∪ {[ connection_id ]}]> (ad_conns_per_prefix a))
    (<[connection_id := prefix]> (ad_prefix_of_conn a)) of_peer.

(** * The behaviour's callbacks *)

Definition handle_pending_inbound_connection (a : Admission) (connection_id : ConnectionId)
    (remote_addr : Multiaddr) : result DeniedBecause unit * Admission :=
  match prefix_for (ad_cfg a) remote_addr with
  | None => (Ok tt, a)
  | Some prefix =>
      let quota_check :=
        let held := conns_in_prefix a prefix in
        let limit := prefix_quota a prefix in
        if limit <=? held then
          let '(why, a) := refuse a (PrefixQuota prefix held limit) in (Err why, a)
        else (Ok tt, charge_conn a connection_id prefix (ad_prefix_of_peer a)) in
      match ad_denied_prefix_until a !! prefix with
      | Some until =>
          if ad_now_ms a <? until then
            let '(why, a) := refuse a (PrefixDenied prefix (until - ad_now_ms a)) in (Err why, a)
          else quota_check
      | None => quota_check
      end
  end.

Definition handle_established_inbound_connection (a : Admission) (peer : PeerId)
    : result DeniedBecause unit * Admission :=
  let saturation_check :=
    if ad_saturated a && refuse_all_when_saturated (ad_cfg a)
    then let '(why, a) := refuse a Saturated in (Err why, a)
    else (Ok tt, a) in
  match ad_denied_until a !! peer with
  | Some until =>
      if ad_now_ms a <? until
      then let '(why, a) := refuse a (PeerDenied (until - ad_now_ms a)) in (Err why, a)
      else saturation_check
  | None => saturation_check
  end.

(** The swarm events the behaviour reacts to, with the fields it reads. *)
Inductive FromSwarm : Type :=
| ConnectionEstablished (peer_id : PeerId) (connection_id : ConnectionId) (is_listener : bool)
    (remote_address : Multiaddr)
| ConnectionClosed (peer_id : PeerId) (connection_id : ConnectionId) (remaining_established : N)
| ListenFailure (connection_id : ConnectionId)
| OtherSwarmEvent.

Definition on_swarm_event (a : Admission) (event : FromSwarm) : Admission :=
  match event with
  | ConnectionEstablished peer_id connection_id is_listener remote_address =>
      if negb is_listener then a
      else match prefix_for (ad_cfg a) remote_address with
           | Some prefix =>
               charge_conn a connection_id prefix (<[peer_id := prefix]> (ad_prefix_of_peer a))
           | None => a
           end
  | ConnectionClosed peer_id connection_id remaining_established =>
      let a := release a connection_id in
      if remaining_established =? 0
      then with_conns a (ad_conns_per_prefix a) (ad_prefix_of_conn a)
             (delete peer_id (ad_prefix_of_peer a))
      else a
  | ListenFailure connection_id => release a connection_id
  | OtherSwarmEvent => a
  end.

(** [handle_established_outbound_connection] never refuses and changes nothing. *)
Definition handle_established_outbound_connection (a : Admission)
    : result DeniedBecause unit * Admission := (Ok tt, a).

(** * Prefix masks *)

Lemma net_mask_spec w bits i :
  bits <= w -> N.testbit (net_mask w (N.ones w) bits) i = (w - bits <=? i) && (i <? w).
Proof.
  intros Hb. unfold net_mask. destruct (N.eqb_spec bits 0) as [->|Hne].
  - rewrite N.bits_0. symmetry. apply andb_false_iff.
    destruct (N.ltb_spec i w); [left; apply N.leb_gt; lia | by right].
  - rewrite N.land_spec. destruct (N.leb_spec (w - bits) i) as [Hi|Hi].
    + rewrite N.shiftl_spec_high' by lia. destruct (N.ltb_spec i w).
      * rewrite !N.ones_spec_low by lia. done.
      * rewrite (N.ones_spec_high w i), andb_false_r by lia. done.
    + rewrite N.shiftl_spec_low by lia. done.
Qed.

(** Masking keeps exactly the leading [bits] bits. *)
Lemma land_net_mask w bits a b :
  bits <= w -> a < 2 ^ w -> b < 2 ^ w ->
  N.land a (net_mask w (N.ones w) bits) = N.land b (net_mask w (N.ones w) bits) <->
  N.shiftr a (w - bits) = N.shiftr b (w - bits).
Proof.
  intros Hb Ha Hb'.
  assert (high : forall x i, x < 2 ^ w -> w <= i -> N.testbit x i = false).
  { intros x i Hx Hi. destruct (N.eq_dec x 0) as [->|]; [apply N.bits_0|].
    apply N.bits_above_log2. enough (N.log2 x < w) by lia. apply N.log2_lt_pow2; lia. }
  split; intros E; apply N.bits_inj; intros i.
  - rewrite !N.shiftr_spec by lia. apply (f_equal (fun n => N.testbit n (i + (w - bits)))) in E.
    rewrite !N.land_spec, net_mask_spec in E by done.
    destruct (N.ltb_spec (i + (w - bits)) w); [|by rewrite !high by lia].
    rewrite (proj2 (N.leb_le _ _)), !andb_true_r in E by lia. done.
  - rewrite !N.land_spec, net_mask_spec by done.
    destruct (N.leb_spec (w - bits) i) as [Hi|Hi]; [|by rewrite !andb_false_r].
    apply (f_equal (fun n => N.testbit n (i - (w - bits)))) in E.
    rewrite !N.shiftr_spec in E by lia. rewrite N.sub_add in E by done. by rewrite E.
Qed.

Lemma land_lt a m w : a < 2 ^ w -> N.land a m < 2 ^ w.
Proof.
  intros Ha. destruct (N.eq_dec (N.land a m) 0) as [->|Hne]; [by apply N.neq_0_lt_0, N.pow_nonzero|].
  apply N.log2_lt_pow2; [lia|]. pose proof (N.log2_land a m).
  destruct (N.eq_dec a 0) as [->|]; [done|].
  assert (N.log2 a < w) by (apply N.log2_lt_pow2; lia). lia.
Qed.

(** An address as the swarm reports it: within its width. *)
Definition ip_ok (ip : IpAddr) : Prop :=
  match ip with IpV4 v => v < 2 ^ 32 | IpV6 v => v < 2 ^ 128 end.

(** Two addresses are of one site when they agree on the leading bits. *)
Definition same_site (v4_bits v6_bits : N) (x y : IpAddr) : Prop :=
  match x, y with
  | IpV4 a, IpV4 b =>
      N.shiftr a (32 - N.min v4_bits 32) = N.shiftr b (32 - N.min v4_bits 32)
  | IpV6 a, IpV6 b =>
      N.shiftr a (128 - N.min v6_bits 128) = N.shiftr b (128 - N.min v6_bits 128)
  | _, _ => False
  end.

#[global] Instance V4_inj : Inj (=) (=) V4.
Proof. by intros x y [=]. Qed.
#[global] Instance V6_inj : Inj (=) (=) V6.
Proof. by intros x y [=]. Qed.

Lemma mask_same_site x y v4_bits v6_bits :
  ip_ok x -> ip_ok y -> mask x v4_bits v6_bits = mask y v4_bits v6_bits <-> same_site v4_bits v6_bits x y.
Proof.
  intros Hx Hy. destruct x as [a|a], y as [b|b]; cbn [ip_ok mask same_site] in *; try (split; done).
  - change u32_max with (N.ones 32). rewrite <- land_net_mask by (done || lia). split; [|by intros ->].
    intros E%(inj V4). apply (be_bytes_inj 4) in E; [done | by apply (land_lt _ _ 32)..].
  - change u128_max with (N.ones 128). rewrite <- land_net_mask by (done || lia). split; [|by intros ->].
    intros E%(inj V6). apply (be_bytes_inj 16) in E; [done | by apply (land_lt _ _ 128)..].
Qed.

(** * The deny map *)

Lemma min_by_key_none {K} (l : list (K * N)) : min_by_key l = None -> l = [].
Proof. destruct l as [|x l]; [done|]. cbn. destruct (min_by_key l); [case_match|]; done. Qed.

Lemma min_by_key_some {K} (l : list (K * N)) x :
  min_by_key l = Some x -> x ∈ l /\ forall y, y ∈ l -> x.2 <= y.2.
Proof.
  revert x. induction l as [|z l IH]; intros x; [done|]. cbn.
  destruct (min_by_key l) as [y|] eqn:E.
  - destruct (IH y eq_refl) as [Hin Hmin]. destruct (N.ltb_spec y.2 z.2); intros [= <-].
    + split; [by right|]. intros u [->|Hu]%elem_of_cons; [lia | by apply Hmin].
    + split; [by left|]. intros u [->|Hu]%elem_of_cons; [lia|]. specialize (Hmin u Hu). lia.
  - intros [= <-]. apply min_by_key_none in E as ->. split; [by left|].
    intros u [->|Hu%elem_of_nil]%elem_of_cons; [lia | done].
Qed.

Section deny_lemmas.
Context `{Countable K} (iter : gmap K N -> list (K * N)).
Hypothesis iter_perm : forall m, iter m ≡ₚ map_to_list m.

Lemma retain_after_lookup now m (k : K) u :
  retain_after now m !! k = Some u <-> m !! k = Some u /\ now < u.
Proof. apply map_lookup_filter_Some. Qed.

Lemma size_retain_after now (m : gmap K N) : (size (retain_after now m) <= size m)%nat.
Proof. apply map_subseteq_size, map_filter_subseteq. Qed.

Lemma soonest_some (m : gmap K N) x :
  min_by_key (iter m) = Some x ->
  m !! x.1 = Some x.2 /\ forall k u, m !! k = Some u -> x.2 <= u.
Proof using iter_perm.
  intros [Hin Hmin]%min_by_key_some. rewrite iter_perm in Hin.
  split; [by apply elem_of_map_to_list; destruct x|].
  intros k u Hk. apply (Hmin (k, u)). by rewrite iter_perm, elem_of_map_to_list.
Qed.

Lemma soonest_none (m : gmap K N) : min_by_key (iter m) = None -> size m = 0%nat.
Proof using iter_perm.
  intros E%min_by_key_none. pose proof (iter_perm m) as P. rewrite E in P.
  apply Permutation_nil, map_to_list_empty_iff in P as ->. apply map_size_empty.
Qed.

Lemma deny_in_key m (key : K) until now cap :
  deny_in iter m key until now cap !! key = Some (N.max (default 0 (m !! key)) until).
Proof.
  unfold deny_in. destruct (m !! key) as [slot|] eqn:E; cbn; rewrite lookup_insert_eq; [done|].
  by rewrite N.max_0_l.
Qed.

Lemma deny_in_size m (key : K) until now cap :
  N.of_nat (size m) <= N.max cap 1 ->
  N.of_nat (size (deny_in iter m key until now cap)) <= N.max cap 1.
Proof using iter_perm.
  intros Hs. unfold deny_in. destruct (m !! key) as [slot|] eqn:E.
  { rewrite map_size_insert_Some by (by eexists). done. }
  cbv zeta. set (m1 := if cap <=? N.of_nat (size m) then retain_after now m else m).
  assert (H1 : (size m1 <= size m)%nat)
    by (unfold m1; case_match; [apply size_retain_after | done]).
  match goal with |- context [<[key := until]> ?mm] => set (m2 := mm) end.
  assert (H2 : N.of_nat (size m2) < N.max cap 1).
  { unfold m2. destruct (N.leb_spec cap (N.of_nat (size m1))); [|lia].
    destruct (min_by_key (iter m1)) as [x|] eqn:Ex.
    - apply soonest_some in Ex as [Hx _]. rewrite map_size_delete_Some by (by eexists).
      assert (size m1 <> 0%nat) by (intros Z; apply map_size_empty_inv in Z; by rewrite Z in Hx). lia.
    - apply soonest_none in Ex. lia. }
  rewrite map_size_insert. destruct (m2 !! key); cbn; lia.
Qed.

(** What an insertion at capacity may drop: a new key evicts every expired
    window, or else the one live window closest to its end. *)
Lemma deny_in_other m (key k : K) u until now cap :
  k <> key -> m !! k = Some u ->
  deny_in iter m key until now cap !! k = Some u \/
  (deny_in iter m key until now cap !! k = None /\ m !! key = None /\
   cap <= N.of_nat (size m) /\
   (u <= now \/ forall k' u', m !! k' = Some u' -> now < u' -> u <= u')).
Proof using iter_perm.
  intros Hne Hk. unfold deny_in. destruct (m !! key) as [slot|] eqn:E.
  { left. by rewrite lookup_insert_ne. }
  rewrite lookup_insert_ne by done.
  destruct (N.leb_spec cap (N.of_nat (size m))) as [Hc|Hc]; cycle 1.
  { left. rewrite (proj2 (N.leb_gt _ _)) by done. done. }
  destruct (retain_after now m !! k) as [u'|] eqn:Er; cycle 1.
  { right. split_and!; try done.
    - case_match; [case_match; [|done]|done].
      destruct (decide (k = p.1)) as [->|]; [apply lookup_delete_eq | by rewrite lookup_delete_ne].
    - left. apply N.nlt_ge. intros Hu. apply eq_None_not_Some in Er. apply Er. exists u.
      by apply retain_after_lookup. }
  pose proof Er as [Hk' Hu]%retain_after_lookup. rewrite Hk in Hk'. injection Hk' as <-.
  destruct (cap <=? N.of_nat (size (retain_after now m))); [|by left].
  destruct (min_by_key (iter (retain_after now m))) as [x|] eqn:Ex; [|by left].
  apply soonest_some in Ex as [Hx Hmin]. destruct (decide (k = x.1)) as [->|]; cycle 1.
  { left. by rewrite lookup_delete_ne. }
  right. rewrite lookup_delete_eq. split_and!; try done. right. intros k' u' Hk' Hu'.
  rewrite Er in Hx. injection Hx as ->. apply (Hmin k'). by apply retain_after_lookup.
Qed.
End deny_lemmas.

(** * The swarm *)

(** The behaviour in its swarm: the inbound connections that passed the pending
    stage and are not yet closed or failed, with their remote address, and the
    established connections, inbound or outbound, with their peer. *)
Record swarm := mkSwarm {
  sw_admission : Admission;
  sw_inbound : gmap N (list Protocol);
  sw_established : gmap N bytes
}.

Definition swarm_init (cfg : AdmissionConfig) (now_ms : N) : swarm :=
  mkSwarm (Admission_new cfg now_ms) ∅ ∅.

Definition with_admission (w : swarm) (a : Admission) : swarm :=
  mkSwarm a (sw_inbound w) (sw_established w).

(** The other established connections of a peer, as the swarm counts them. *)
Definition remaining_of (id : ConnectionId) (peer : PeerId) (established : gmap N bytes) : N :=
  N.of_nat (size (filter (fun cp => cp.2 = peer) (delete id established))).

(** One callback or one call by the owning event loop. Connection ids are
    unique; an inbound connection is established only after it was accepted as
    pending, and with the address it was accepted from; the count reported at a
    close is that of the peer's other connections. *)
Inductive swarm_step : swarm -> swarm -> Prop :=
| SPending w id addr a :
    sw_inbound w !! id = None -> sw_established w !! id = None ->
    handle_pending_inbound_connection (sw_admission w) id addr = (Ok tt, a) ->
    swarm_step w (mkSwarm a (<[id := addr]> (sw_inbound w)) (sw_established w))
| SPendingRefused w id addr why a :
    handle_pending_inbound_connection (sw_admission w) id addr = (Err why, a) ->
    swarm_step w (with_admission w a)
| SHandler w peer r a :
    handle_established_inbound_connection (sw_admission w) peer = (r, a) ->
    swarm_step w (with_admission w a)
| SEstablishedIn w peer id addr :
    sw_inbound w !! id = Some addr -> sw_established w !! id = None ->
    swarm_step w (mkSwarm (on_swarm_event (sw_admission w) (ConnectionEstablished peer id true addr))
                    (sw_inbound w) (<[id := peer]> (sw_established w)))
| SEstablishedOut w peer id addr :
    sw_inbound w !! id = None -> sw_established w !! id = None ->
    swarm_step w (mkSwarm (on_swarm_event (sw_admission w) (ConnectionEstablished peer id false addr))
                    (sw_inbound w) (<[id := peer]> (sw_established w)))
| SClosed w peer id :
    sw_established w !! id = Some peer ->
    swarm_step w (mkSwarm (on_swarm_event (sw_admission w)
                             (ConnectionClosed peer id (remaining_of id peer (sw_established w))))
                    (delete id (sw_inbound w)) (delete id (sw_established w)))
| SListenFailure w id :
    sw_established w !! id = None ->
    swarm_step w (mkSwarm (on_swarm_event (sw_admission w) (ListenFailure id))
                    (delete id (sw_inbound w)) (sw_established w))
| SNow w now_ms : swarm_step w (with_admission w (set_now_ms (sw_admission w) now_ms))
| SSaturated w b : swarm_step w (with_admission w (set_saturated (sw_admission w) b))
| SDenyPeer w iter peer window :
    (forall m, iter m ≡ₚ map_to_list m) ->
    swarm_step w (with_admission w (deny_peer_for iter (sw_admission w) peer window))
| SDenyPrefix w iter prefix window :
    (forall m, iter m ≡ₚ map_to_list m) ->
    swarm_step w (with_admission w (deny_prefix_for iter (sw_admission w) prefix window)).

(** * Charging and releasing *)

(** The two connection indexes agree, and no empty set is kept. *)
Record index_ok (a : Admission) : Prop := mkIndexOk {
  ix_agree : forall p id, id ∈ conns_of a p <-> ad_prefix_of_conn a !! id = Some p;
  ix_nonempty : forall p, ad_conns_per_prefix a !! p <> Some ∅
}.

Lemma conns_of_charge a id p peers q :
  conns_of (charge_conn a id p peers) q =
  if decide (q = p) then conns_of a p ∪ {[ id ]} else conns_of a q.
Proof.
  unfold conns_of at 1, charge_conn; cbn. case_decide as E; [subst q|].
  - by rewrite lookup_insert_eq.
  - by rewrite lookup_insert_ne.
Qed.

Lemma charge_index_ok a id p peers :
  index_ok a -> (ad_prefix_of_conn a !! id = None \/ ad_prefix_of_conn a !! id = Some p) ->
  index_ok (charge_conn a id p peers).
Proof.
  intros [Hag Hne] Hid. constructor.
  - intros q i. rewrite conns_of_charge. cbn. destruct (decide (i = id)) as [->|Hi].
    + rewrite lookup_insert_eq. case_decide; [set_solver|]. rewrite Hag.
      destruct Hid; split; intros; congruence.
    + rewrite lookup_insert_ne by done. rewrite <- Hag. case_decide; [subst; set_solver | done].
  - intros q. cbn. destruct (decide (q = p)) as [->|].
    + rewrite lookup_insert_eq. intros [= E]. set_solver.
    + by rewrite lookup_insert_ne.
Qed.

(** Charging a connection twice is recording its peer. *)
Lemma charge_again a id p peers :
  index_ok a -> ad_prefix_of_conn a !! id = Some p ->
  charge_conn a id p peers = with_conns a (ad_conns_per_prefix a) (ad_prefix_of_conn a) peers.
Proof.
  intros [Hag Hne] Hid. unfold charge_conn. pose proof (proj2 (Hag p id) Hid) as Hin.
  f_equal; [|by apply insert_id]. unfold conns_of in *.
  destruct (ad_conns_per_prefix a !! p) as [s|] eqn:E; cbn in *; [|set_solver].
  apply insert_id. rewrite E. f_equal. set_solver.
Qed.

Lemma release_of_conn a id : ad_prefix_of_conn (release a id) = delete id (ad_prefix_of_conn a).
Proof.
  unfold release. destruct (ad_prefix_of_conn a !! id) eqn:E; [by case_match|].
  symmetry. by apply delete_id.
Qed.

Lemma conns_of_release a id q :
  index_ok a -> conns_of (release a id) q = conns_of a q ∖ {[ id ]}.
Proof.
  intros [Hag Hne]. unfold release. destruct (ad_prefix_of_conn a !! id) as [p|] eqn:E; cycle 1.
  { apply leibniz_equiv. intros i. specialize (Hag q i). set_solver. }
  destruct (ad_conns_per_prefix a !! p) as [s|] eqn:Es; cycle 1.
  { pose proof (proj2 (Hag p id) E) as Hin. unfold conns_of in Hin. rewrite Es in Hin. set_solver. }
  unfold conns_of at 1; cbn. destruct (decide (q = p)) as [->|Hq].
  - unfold conns_of. rewrite Es. cbn. case_decide as Hd.
    + by rewrite lookup_delete_eq, Hd.
    + by rewrite lookup_insert_eq.
  - assert (Hni : id ∉ conns_of a q) by (rewrite Hag; congruence).
    transitivity (conns_of a q); [|set_solver].
    case_decide; [by rewrite lookup_delete_ne | by rewrite lookup_insert_ne].
Qed.

Lemma release_index_ok a id : index_ok a -> index_ok (release a id).
Proof.
  intros Ha. constructor.
  - intros p i. rewrite conns_of_release, release_of_conn by done. rewrite elem_of_difference, elem_of_singleton.
    rewrite (ix_agree _ Ha). destruct (decide (i = id)) as [->|].
    + rewrite lookup_delete_eq. naive_solver.
    + rewrite lookup_delete_ne by done. naive_solver.
  - destruct Ha as [Hag Hne]. intros q. unfold release.
    destruct (ad_prefix_of_conn a !! id) as [p|]; [|done].
    destruct (ad_conns_per_prefix a !! p) as [s|]; [|done]. cbn.
    case_decide as Hd; destruct (decide (q = p)) as [->|].
    + by rewrite lookup_delete_eq.
    + by rewrite lookup_delete_ne.
    + rewrite lookup_insert_eq. congruence.
    + by rewrite lookup_insert_ne.
Qed.

(** Releasing a connection gives back exactly what charging it took. *)
Lemma release_charge a id p :
  index_ok a -> ad_prefix_of_conn a !! id = None ->
  release (charge_conn a id p (ad_prefix_of_peer a)) id = a.
Proof.
  intros [Hag Hne] Hid.
  assert (Hni : id ∉ conns_of a p) by (rewrite Hag; congruence).
  unfold release, charge_conn at 1; cbn. rewrite lookup_insert_eq, lookup_insert_eq.
  assert (Hs : (conns_of a p ∪ {[id]}) ∖ {[id]} = conns_of a p) by set_solver.
  rewrite Hs, (delete_insert_id (ad_prefix_of_conn a)) by done. unfold conns_of, with_conns in *; cbn.
  destruct (ad_conns_per_prefix a !! p) as [s|] eqn:E; cbn in *.
  - case_decide as Hd; [subst; by destruct (Hne p)|]. rewrite insert_insert_eq, insert_id by done.
    by destruct a.
  - rewrite decide_True by done. rewrite delete_insert_id by done. by destruct a.
Qed.

Lemma release_fields a id :
  ad_cfg (release a id) = ad_cfg a /\ ad_prefix_of_peer (release a id) = ad_prefix_of_peer a /\
  ad_denied_until (release a id) = ad_denied_until a /\
  ad_denied_prefix_until (release a id) = ad_denied_prefix_until a /\
  ad_now_ms (release a id) = ad_now_ms a.
Proof. unfold release. repeat case_match; done. Qed.

(** * The invariant of the swarm *)

(** The larger of the two quotas a prefix can be held to. *)
Definition most (cfg : AdmissionConfig) (p : AddrPrefix) : N :=
  N.max (quota cfg false p) (quota cfg true p).

Record swarm_ok (cfg : AdmissionConfig) (w : swarm) : Prop := mkSwarmOk {
  so_cfg : ad_cfg (sw_admission w) = cfg;
  so_index : index_ok (sw_admission w);
  so_inbound : forall id p, ad_prefix_of_conn (sw_admission w) !! id = Some p <->
    exists addr, sw_inbound w !! id = Some addr /\ prefix_for cfg addr = Some p;
  so_quota : forall p, conns_in_prefix (sw_admission w) p <= most cfg p;
  so_peers : forall peer p, ad_prefix_of_peer (sw_admission w) !! peer = Some p ->
    exists id, sw_established w !! id = Some peer;
  so_denied : N.of_nat (size (ad_denied_until (sw_admission w))) <= N.max (max_denied_peers cfg) 1;
  so_denied_prefixes :
    N.of_nat (size (ad_denied_prefix_until (sw_admission w))) <= N.max (max_denied_prefixes cfg) 1
}.

Lemma swarm_init_ok cfg now : swarm_ok cfg (swarm_init cfg now).
Proof.
  constructor; cbn; try done.
  - intros id p. rewrite lookup_empty. split; [done|]. intros (addr & E & _). by rewrite lookup_empty in E.
  - intros p. unfold conns_in_prefix, conns_of; cbn. rewrite lookup_empty; cbn. rewrite size_empty. lia.
  - rewrite map_size_empty. lia.
  - rewrite map_size_empty. lia.
Qed.

(** What a pending inbound connection meets, case by case. *)
Inductive pending_case (a : Admission) (id : N) (addr : list Protocol)
  : result DeniedBecause unit * Admission -> Prop :=
| PendingUnmetered : prefix_for (ad_cfg a) addr = None -> pending_case a id addr (Ok tt, a)
| PendingDenied p u :
    prefix_for (ad_cfg a) addr = Some p -> ad_denied_prefix_until a !! p = Some u ->
    ad_now_ms a < u ->
    pending_case a id addr (Err (PrefixDenied p (u - ad_now_ms a)), (refuse a Saturated).2)
| PendingFull p :
    prefix_for (ad_cfg a) addr = Some p -> is_prefix_denied a p = false ->
    prefix_quota a p <= conns_in_prefix a p ->
    pending_case a id addr
      (Err (PrefixQuota p (conns_in_prefix a p) (prefix_quota a p)), (refuse a Saturated).2)
| PendingCharged p :
    prefix_for (ad_cfg a) addr = Some p -> is_prefix_denied a p = false ->
    conns_in_prefix a p < prefix_quota a p ->
    pending_case a id addr (Ok tt, charge_conn a id p (ad_prefix_of_peer a)).

Lemma pending_cases a id addr :
  pending_case a id addr (handle_pending_inbound_connection a id addr).
Proof.
  unfold handle_pending_inbound_connection.
  destruct (prefix_for (ad_cfg a) addr) as [p|] eqn:Ep; [|by constructor].
  assert (Hq : is_prefix_denied a p = false -> pending_case a id addr
    (if prefix_quota a p <=? conns_in_prefix a p
     then let '(why, a) := refuse a (PrefixQuota p (conns_in_prefix a p) (prefix_quota a p)) in (Err why, a)
     else (Ok tt, charge_conn a id p (ad_prefix_of_peer a)))).
  { intros Hd. destruct (N.leb_spec (prefix_quota a p) (conns_in_prefix a p)).
    - by apply PendingFull.
    - by apply (PendingCharged _ _ _ p). }
  destruct (ad_denied_prefix_until a !! p) as [u|] eqn:Eu.
  - destruct (N.ltb_spec (ad_now_ms a) u) as [Hu|Hu]; [by apply PendingDenied|].
    apply Hq. unfold is_prefix_denied, in_window. rewrite Eu. by apply N.ltb_ge.
  - apply Hq. unfold is_prefix_denied. by rewrite Eu.
Qed.

(** Steps that leave the connection indexes alone. *)
Lemma quiet_ok cfg w a :
  swarm_ok cfg w -> ad_cfg a = ad_cfg (sw_admission w) ->
  ad_conns_per_prefix a = ad_conns_per_prefix (sw_admission w) ->
  ad_prefix_of_conn a = ad_prefix_of_conn (sw_admission w) ->
  ad_prefix_of_peer a = ad_prefix_of_peer (sw_admission w) ->
  N.of_nat (size (ad_denied_until a)) <= N.max (max_denied_peers cfg) 1 ->
  N.of_nat (size (ad_denied_prefix_until a)) <= N.max (max_denied_prefixes cfg) 1 ->
  swarm_ok cfg (with_admission w a).
Proof.
  intros [Hc [Hag Hne] Hin Hq Hp Hd Hdp] Ec E1 E2 E3 H1 H2.
  assert (Hco : forall p, conns_of a p = conns_of (sw_admission w) p)
    by (intros p; unfold conns_of; by rewrite E1).
  constructor; cbn; try done.
  - congruence.
  - constructor; intros; [rewrite Hco, E2; apply Hag | rewrite E1; apply Hne].
  - intros id p. rewrite E2. apply Hin.
  - intros p. unfold conns_in_prefix. rewrite Hco. apply Hq.
  - intros peer p. rewrite E3. apply Hp.
Qed.

Lemma size_le_trans {A} `{Countable K} (m m' : gmap K A) b :
  (size m' <= size m)%nat -> N.of_nat (size m) <= b -> N.of_nat (size m') <= b.
Proof. lia. Qed.

Lemma pending_ok cfg w id addr a :
  swarm_ok cfg w -> sw_inbound w !! id = None ->
  handle_pending_inbound_connection (sw_admission w) id addr = (Ok tt, a) ->
  swarm_ok cfg (mkSwarm a (<[id := addr]> (sw_inbound w)) (sw_established w)).
Proof.
  intros Hok Hid E. pose proof (pending_cases (sw_admission w) id addr) as P. rewrite E in P.
  destruct Hok as [Hc Hix Hin Hq Hp Hd Hdp].
  assert (Hnone : ad_prefix_of_conn (sw_admission w) !! id = None).
  { destruct (ad_prefix_of_conn (sw_admission w) !! id) as [q|] eqn:Eq; [|done]. apply Hin in Eq as (? & Hx & _). congruence. }
  subst cfg. inversion P as [Hpf| | |p Hpf Hnd Hlt]; subst.
  - constructor; cbn; try done. intros i q. rewrite Hin. destruct (decide (i = id)) as [->|].
    + rewrite lookup_insert_eq, Hid. naive_solver.
    + by rewrite lookup_insert_ne.
  - constructor; cbn; try done.
    + apply charge_index_ok; auto.
    + intros i q. destruct (decide (i = id)) as [->|]; [|by rewrite !lookup_insert_ne].
      rewrite !lookup_insert_eq. naive_solver.
    + intros q. unfold conns_in_prefix. rewrite conns_of_charge. case_decide; [subst q|apply Hq].
      rewrite size_union_alt.
      pose proof (subseteq_size ({[id]} ∖ conns_of (sw_admission w) p) {[id]} ltac:(set_solver)) as Hs.
      rewrite size_singleton in Hs. unfold conns_in_prefix, prefix_quota, most in *.
      destruct (ad_saturated (sw_admission w)); lia.
Qed.

Lemma size_difference_le (X : gset N) i : (size (X ∖ {[ i ]}) <= size X)%nat.
Proof. apply subseteq_size. set_solver. Qed.

(** A connection ends, established or not. *)
Lemma released_ok cfg w id established :
  swarm_ok cfg w ->
  (forall peer p, ad_prefix_of_peer (sw_admission w) !! peer = Some p ->
     exists i, established !! i = Some peer) ->
  swarm_ok cfg (mkSwarm (release (sw_admission w) id) (delete id (sw_inbound w)) established).
Proof.
  intros [Hc Hix Hin Hq Hp Hd Hdp] Hest.
  destruct (release_fields (sw_admission w) id) as (E1 & E2 & E3 & E4 & _).
  constructor; cbn; rewrite ?E1, ?E2, ?E3, ?E4; try done.
  - by apply release_index_ok.
  - intros i p. rewrite release_of_conn. destruct (decide (i = id)) as [->|].
    + rewrite !lookup_delete_eq. naive_solver.
    + by rewrite !lookup_delete_ne.
  - intros p. unfold conns_in_prefix. rewrite conns_of_release by done.
    pose proof (size_difference_le (conns_of (sw_admission w) p) id).
    specialize (Hq p). unfold conns_in_prefix in Hq. lia.
Qed.

Lemma closed_ok cfg w peer id :
  swarm_ok cfg w -> sw_established w !! id = Some peer ->
  swarm_ok cfg (mkSwarm (on_swarm_event (sw_admission w)
                           (ConnectionClosed peer id (remaining_of id peer (sw_established w))))
                  (delete id (sw_inbound w)) (delete id (sw_established w))).
Proof.
  intros Hok He. pose proof Hok as [Hc Hix Hin Hq Hp Hd Hdp]. cbn [on_swarm_event].
  assert (Hkeep : forall q p, q <> peer -> ad_prefix_of_peer (sw_admission w) !! q = Some p ->
    exists i, delete id (sw_established w) !! i = Some q).
  { intros q p Hne Hqp. destruct (Hp q p Hqp) as [i Hi]. exists i. rewrite lookup_delete_ne; congruence. }
  destruct (N.eqb_spec (remaining_of id peer (sw_established w)) 0) as [Hr|Hr].
  - pose proof (released_ok cfg (mkSwarm (with_conns (sw_admission w) (ad_conns_per_prefix (sw_admission w))
      (ad_prefix_of_conn (sw_admission w)) (delete peer (ad_prefix_of_peer (sw_admission w))))
      (sw_inbound w) (sw_established w)) id (delete id (sw_established w))) as R.
    assert (Hpeers : forall q p, delete peer (ad_prefix_of_peer (sw_admission w)) !! q = Some p ->
      exists i, delete id (sw_established w) !! i = Some q).
    { intros q p Hqp%lookup_delete_Some. naive_solver. }
    cbn [sw_admission sw_inbound] in R.
    replace (with_conns (release _ _) _ _ _) with (release (with_conns (sw_admission w)
      (ad_conns_per_prefix (sw_admission w)) (ad_prefix_of_conn (sw_admission w))
      (delete peer (ad_prefix_of_peer (sw_admission w)))) id); [apply R; [|done]|].
    + destruct Hix. constructor; cbn; try done. intros q p [_ Hqp]%lookup_delete_Some. by eapply Hp.
    + unfold release; cbn. repeat case_match; done.
  - apply released_ok; [done|]. intros q p Hqp. destruct (decide (q = peer)) as [->|]; [|by eapply Hkeep].
    destruct (map_choose (filter (fun cp => cp.2 = peer) (delete id (sw_established w))))
      as (i & x & [Hi Hx]%map_lookup_filter_Some).
    { intros Z. apply Hr. unfold remaining_of. by rewrite Z, map_size_empty. }
    exists i. cbn in Hx. by subst.
Qed.

Lemma established_peers (w : swarm) (peer : bytes) (id : N) (of_peer : gmap bytes AddrPrefix) :
  sw_established w !! id = None ->
  (forall q p, of_peer !! q = Some p -> q = peer \/ exists i, sw_established w !! i = Some q) ->
  forall q p, of_peer !! q = Some p -> exists i, <[id := peer]> (sw_established w) !! i = Some q.
Proof.
  intros Hn H q p Hq. destruct (H q p Hq) as [->|[i Hi]].
  - exists id. apply lookup_insert_eq.
  - exists i. rewrite lookup_insert_ne; congruence.
Qed.

Lemma established_in_ok cfg w peer id addr :
  swarm_ok cfg w -> sw_inbound w !! id = Some addr -> sw_established w !! id = None ->
  swarm_ok cfg (mkSwarm (on_swarm_event (sw_admission w) (ConnectionEstablished peer id true addr))
                  (sw_inbound w) (<[id := peer]> (sw_established w))).
Proof.
  intros [Hc Hix Hin Hq Hp Hd Hdp] Hid Hn. cbn [on_swarm_event negb]. rewrite Hc.
  destruct (prefix_for cfg addr) as [p|] eqn:Ep.
  - rewrite charge_again; [|done|by apply Hin; eauto].
    destruct Hix. constructor; cbn; try done. apply established_peers; [done|].
    intros q p' [[-> _]|[_ Hqp]]%lookup_insert_Some; [by left | right; by eapply Hp].
  - constructor; cbn; try done. apply established_peers; [done|]. intros q p' Hqp. right. by eapply Hp.
Qed.

Lemma established_out_ok cfg w peer id addr :
  swarm_ok cfg w -> sw_established w !! id = None ->
  swarm_ok cfg (mkSwarm (on_swarm_event (sw_admission w) (ConnectionEstablished peer id false addr))
                  (sw_inbound w) (<[id := peer]> (sw_established w))).
Proof.
  intros [Hc Hix Hin Hq Hp Hd Hdp] Hn. constructor; cbn; try done.
  apply established_peers; [done|]. intros q p Hqp. right. by eapply Hp.
Qed.

Lemma handler_fields a peer r a' :
  handle_established_inbound_connection a peer = (r, a') -> a' = a \/ a' = (refuse a Saturated).2.
Proof.
  unfold handle_established_inbound_connection. intros E.
  cbn in E. repeat case_match; injection E as _ <-; (by left) || (by right).
Qed.

Lemma swarm_step_ok cfg w w' : swarm_ok cfg w -> swarm_step w w' -> swarm_ok cfg w'.
Proof.
  intros Hok Hs. pose proof (so_cfg _ _ Hok) as Hc.
  pose proof (so_denied _ _ Hok) as Hd. pose proof (so_denied_prefixes _ _ Hok) as Hdp.
  destruct Hs as [w id addr a Hi _ E|w id addr why a E|w peer r a E|w peer id addr Hi Hn
    |w peer id addr Hi Hn|w peer id He|w id He|w now|w b|w iter peer window Hit|w iter p window Hit].
  - by eapply pending_ok.
  - pose proof (pending_cases (sw_admission w) id addr) as P. rewrite E in P.
    by inversion P; subst; apply quiet_ok.
  - apply handler_fields in E as [->| ->]; by apply quiet_ok.
  - by apply established_in_ok.
  - by apply established_out_ok.
  - by apply closed_ok.
  - apply released_ok; [done|]. apply Hok.
  - apply quiet_ok; try done; cbn; (eapply size_le_trans; [apply size_retain_after | done]).
  - by apply quiet_ok.
  - apply quiet_ok; try done; cbn. rewrite Hc. by apply deny_in_size.
  - apply quiet_ok; try done; cbn. rewrite Hc. by apply deny_in_size.
Qed.

Lemma swarm_run_ok cfg w w' : rtc swarm_step w w' -> swarm_ok cfg w -> swarm_ok cfg w'.
Proof. induction 1; eauto using swarm_step_ok. Qed.

(** A map whose keys all occur as values of another is no larger. *)
Lemma size_keys_values `{Countable J, Countable K} {A} (m : gmap K A) (m' : gmap J K) :
  (forall k x, m !! k = Some x -> exists i, m' !! i = Some k) -> (size m <= size m')%nat.
Proof.
  intros Hk. rewrite <- !length_map_to_list.
  rewrite <- (length_fmap fst (map_to_list m)), <- (length_fmap snd (map_to_list m')).
  apply submseteq_length, NoDup_submseteq; [apply NoDup_fst_map_to_list|].
  intros k ([k' x] & -> & Hin%elem_of_map_to_list)%list_elem_of_fmap.
  destruct (Hk k' x Hin) as [i Hi]. apply list_elem_of_fmap. exists (i, k'). split; [done|].
  by apply elem_of_map_to_list.
Qed.

(** * Deny windows over time *)

(** The prefix is denied until [u] at least, and the clock has not reached [u]. *)
Definition denied_through (p : AddrPrefix) (u : N) (a : Admission) : Prop :=
  ad_now_ms a < u /\ exists v, ad_denied_prefix_until a !! p = Some v /\ u <= v.

(** A step during which the clock stays before [u] and the deny map is not
    full. *)
Definition calm_step (u : N) (w w' : swarm) : Prop :=
  swarm_step w w' /\ ad_now_ms (sw_admission w') < u /\
  N.of_nat (size (ad_denied_prefix_until (sw_admission w)))
    < max_denied_prefixes (ad_cfg (sw_admission w)).

Lemma handler_event_fields a ev :
  ad_cfg (on_swarm_event a ev) = ad_cfg a /\ ad_now_ms (on_swarm_event a ev) = ad_now_ms a /\
  ad_denied_prefix_until (on_swarm_event a ev) = ad_denied_prefix_until a.
Proof.
  destruct ev as [q i l addr|q i n|i|]; cbn [on_swarm_event]; [| |by destruct (release_fields a i) as (?&?&?&?&?)|done].
  - destruct l; [|done]. cbn. by destruct (prefix_for _ _).
  - destruct (release_fields a i) as (?&?&?&?&?). by destruct (n =? 0).
Qed.

Lemma denied_through_step p u w w' :
  calm_step u w w' -> denied_through p u (sw_admission w) ->
  denied_through p u (sw_admission w') /\ ad_cfg (sw_admission w') = ad_cfg (sw_admission w).
Proof.
  intros (Hs & Hnow & Hcap) [Hlt (v & Hv & Huv)].
  assert (Hsame : forall a', ad_cfg a' = ad_cfg (sw_admission w) ->
    ad_denied_prefix_until a' = ad_denied_prefix_until (sw_admission w) -> ad_now_ms a' < u ->
    denied_through p u a' /\ ad_cfg a' = ad_cfg (sw_admission w)).
  { intros a' Hc' Hd' Hn'. split; [|done]. split; [done|]. exists v. by rewrite Hd'. }
  destruct Hs as [w i addr a _ _ E|w i addr why a E|w q r a E|w q i addr _ _|w q i addr _ _|w q i _|w i _
    |w now|w b|w iter q window _|w iter q window Hit]; cbn [sw_admission with_admission] in *.
  - pose proof (pending_cases (sw_admission w) i addr) as P. rewrite E in P. by inversion P; subst; apply Hsame.
  - pose proof (pending_cases (sw_admission w) i addr) as P. rewrite E in P. by inversion P; subst; apply Hsame.
  - apply handler_fields in E as [->| ->]; by apply Hsame.
  - destruct (handler_event_fields (sw_admission w) (ConnectionEstablished q i true addr)) as (?&?&?). by apply Hsame.
  - destruct (handler_event_fields (sw_admission w) (ConnectionEstablished q i false addr)) as (?&?&?). by apply Hsame.
  - destruct (handler_event_fields (sw_admission w)
      (ConnectionClosed q i (remaining_of i q (sw_established w)))) as (?&?&?). by apply Hsame.
  - destruct (handler_event_fields (sw_admission w) (ListenFailure i)) as (?&?&?). by apply Hsame.
  - split; [|done]. split; [done|]. exists v. split; [|done]. cbn in *. apply retain_after_lookup. split; [done | lia].
  - by apply Hsame.
  - by apply Hsame.
  - split; [|done]. split; [done|]. cbn. destruct (decide (q = p)) as [->|Hne].
    + eexists. split; [apply deny_in_key|]. rewrite Hv. cbn. lia.
    + exists v. split; [|done]. destruct (deny_in_other iter Hit (ad_denied_prefix_until (sw_admission w))
        q p v (sat_add u64_max (ad_now_ms (sw_admission w)) window) (ad_now_ms (sw_admission w))
        (max_denied_prefixes (ad_cfg (sw_admission w)))) as [?|(_ & _ & ? & _)]; [done..|lia].
Qed.

Lemma denied_through_run p u w w' :
  rtc (calm_step u) w w' -> denied_through p u (sw_admission w) ->
  denied_through p u (sw_admission w') /\ ad_cfg (sw_admission w') = ad_cfg (sw_admission w).
Proof.
  induction 1 as [|w1 w2 w3 Hs _ IH]; intros Hd; [done|].
  destruct (denied_through_step _ _ _ _ Hs Hd) as [Hd2 <-]. by apply IH.
Qed.

(** * Properties *)

(** Connection quotas hold and the behaviour's memory is bounded. However
    the swarm's callbacks, clock readings, deny windows and saturation changes
    interleave, the connections charged to a prefix are exactly the live
    inbound connections whose address lies in it, pending ones included, and
    never more than its quota; the indexes hold no entry beyond the live
    connections and established peers; and the deny maps stay within their
    caps (a cap of zero still admits one entry). *)
Theorem admission_quota_holds cfg now w :
  rtc swarm_step (swarm_init cfg now) w ->
  let a := sw_admission w in
  (forall p, conns_of a p = dom (filter (fun ia => prefix_for cfg ia.2 = Some p) (sw_inbound w)) /\
     conns_in_prefix a p <= N.max (quota cfg false p) (quota cfg true p)) /\
  as_inbound_conns (stats a) <= N.of_nat (size (sw_inbound w)) /\
  as_prefixes (stats a) <= as_inbound_conns (stats a) /\
  (size (ad_prefix_of_peer a) <= size (sw_established w))%nat /\
  as_denied_peers (stats a) <= N.max (max_denied_peers cfg) 1 /\
  as_denied_prefixes (stats a) <= N.max (max_denied_prefixes cfg) 1.
Proof.
  intros Hr a. subst a. destruct (swarm_run_ok _ _ _ Hr (swarm_init_ok cfg now)) as [Hc [Hag Hne] Hin Hq Hp Hd Hdp].
  split_and!; try done.
  - intros p. split; [|apply Hq]. apply leibniz_equiv. intros i.
    rewrite (Hag p i), Hin, elem_of_dom. split.
    + intros (addr & H1 & H2). exists addr. by apply map_lookup_filter_Some.
    + intros [addr [H1 H2]%map_lookup_filter_Some]. by exists addr.
  - cbn. enough (size (ad_prefix_of_conn (sw_admission w)) <= size (sw_inbound w))%nat by lia.
    rewrite <- !size_dom. apply subseteq_size.
    intros i [p Hi]%elem_of_dom. apply Hin in Hi as (addr & Hi & _). apply elem_of_dom. by exists addr.
  - cbn. enough (size (ad_conns_per_prefix (sw_admission w))
      <= size (ad_prefix_of_conn (sw_admission w)))%nat by lia.
    apply size_keys_values. intros p s Hs.
    destruct (set_choose_L s) as [i Hi]; [intros ->; by apply (Hne p)|].
    exists i. apply Hag. unfold conns_of. by rewrite Hs.
  - by apply size_keys_values.
Qed.

(** Admission at the pending stage is exact, and what it charges is given
    back. A connection from an address with no IP component is accepted and
    not metered. Otherwise it is refused while its prefix is inside a deny
    window, with the time left, or when the prefix holds its quota, with both
    numbers, and a refusal changes only the refusal counter; in every other
    case it is charged, within the quota, and a handshake that then fails
    restores the state before it exactly. *)
Theorem pending_admission_exact a id addr res a' :
  index_ok a -> ad_prefix_of_conn a !! id = None ->
  handle_pending_inbound_connection a id addr = (res, a') ->
  match prefix_for (ad_cfg a) addr with
  | None => res = Ok tt /\ a' = a
  | Some p =>
      match res with
      | Ok _ => is_prefix_denied a p = false /\ conns_in_prefix a p < prefix_quota a p /\
          conns_in_prefix a' p = conns_in_prefix a p + 1 /\
          on_swarm_event a' (ListenFailure id) = a
      | Err why => (forall e, a' = (refuse a e).2) /\
          ((is_prefix_denied a p = true /\ exists u, ad_denied_prefix_until a !! p = Some u /\
              why = PrefixDenied p (u - ad_now_ms a)) \/
           (is_prefix_denied a p = false /\ prefix_quota a p <= conns_in_prefix a p /\
              why = PrefixQuota p (conns_in_prefix a p) (prefix_quota a p)))
      end
  end.
Proof.
  intros Ha Hid E. pose proof (pending_cases a id addr) as P. rewrite E in P.
  inversion P as [Hp|p u Hp Hu Hlt|p Hp Hd Hq|p Hp Hd Hq]; subst; rewrite Hp.
  - done.
  - split; [done|]. left. split; [|by exists u]. unfold is_prefix_denied. rewrite Hu. by apply N.ltb_lt.
  - split; [done|]. by right.
  - split_and!; try done; [|by apply release_charge].
    unfold conns_in_prefix. rewrite conns_of_charge, decide_True by done.
    assert (id ∉ conns_of a p) by (rewrite (ix_agree _ Ha); congruence).
    rewrite size_union, size_singleton by set_solver. lia.
Qed.

(** A prefix deny window binds. After [deny_prefix_for], and until the
    window's end, every inbound connection whose address lies in the prefix is
    refused at the pending stage, under any identity, with at least the rest of
    the window as the time left: no callback, clock reading before the end,
    saturation change or further deny shortens it, as long as the deny map is
    below its cap when other prefixes are added. *)
Theorem deny_window_enforced iter w p window w' id addr :
  let a := sw_admission w in
  let until := sat_add u64_max (ad_now_ms a) window in
  ad_now_ms a < until ->
  rtc (calm_step until) (with_admission w (deny_prefix_for iter a p window)) w' ->
  prefix_for (ad_cfg a) addr = Some p ->
  exists left a', handle_pending_inbound_connection (sw_admission w') id addr =
      (Err (PrefixDenied p left), a') /\
    until - ad_now_ms (sw_admission w') <= left.
Proof.
  intros a until Hw Hr Hp.
  destruct (denied_through_run p until _ _ Hr) as [[Hn (v & Hv & Huv)] Hc].
  { split; [done|]. eexists. split; [apply deny_in_key|]. cbn. lia. }
  cbn in Hc. pose proof (pending_cases (sw_admission w') id addr) as P.
  inversion P as [E|q u E Hu Hlt Heq|q E Hd|q E Hd]; rewrite Hc in E; fold a in E; rewrite Hp in E;
    [done|injection E as <-..].
  - do 2 eexists. split; [done|]. rewrite Hv in Hu. injection Hu as <-. lia.
  - unfold is_prefix_denied in Hd. rewrite Hv in Hd. cbn in Hd. apply N.ltb_ge in Hd. lia.
  - unfold is_prefix_denied in Hd. rewrite Hv in Hd. cbn in Hd. apply N.ltb_ge in Hd. lia.
Qed.

(** The deny map is bounded and fair. A deny never shortens a window it
    finds; the map never exceeds its cap (nor one entry, for a zero cap); and
    another prefix or peer loses its window only when a new key arrives at a
    full map, and then only if the window had expired or ends no later than
    every live one: the longest penalties survive. *)
Theorem deny_in_bounded `{Countable K} (iter : gmap K N -> list (K * N)) m (key : K) until now cap :
  (forall m, iter m ≡ₚ map_to_list m) -> N.of_nat (size m) <= N.max cap 1 ->
  let m' := deny_in iter m key until now cap in
  m' !! key = Some (N.max (default 0 (m !! key)) until) /\
  N.of_nat (size m') <= N.max cap 1 /\
  forall k u, k <> key -> m !! k = Some u ->
    m' !! k = Some u \/
    (m' !! k = None /\ m !! key = None /\ cap <= N.of_nat (size m) /\
     (u <= now \/ forall k' u', m !! k' = Some u' -> now < u' -> u <= u')).
Proof.
  intros Hit Hs m'. split_and!; [apply deny_in_key | by apply deny_in_size|].
  intros k u Hne Hk. by apply deny_in_other.
Qed.

(** * Witnesses *)

Definition toy_addr : list Protocol := [Ip4 16909060; OtherProtocol 6].
Definition toy_site : AddrPrefix := V4 [x01; x02; x03; x00].
Definition toy_peer : bytes := [x2a].

Definition toy_swarm0 : swarm := swarm_init AdmissionConfig_default 1000.
Definition toy_swarm1 : swarm :=
  mkSwarm (handle_pending_inbound_connection (sw_admission toy_swarm0) 7 toy_addr).2
    {[ 7 := toy_addr ]} ∅.
Definition toy_swarm2 : swarm :=
  mkSwarm (on_swarm_event (sw_admission toy_swarm1) (ConnectionEstablished toy_peer 7 true toy_addr))
    {[ 7 := toy_addr ]} {[ 7 := toy_peer ]}.

Lemma toy_swarm_run : rtc swarm_step toy_swarm0 toy_swarm2.
Proof.
  eapply rtc_l with toy_swarm1; [|eapply rtc_l with toy_swarm2; [|apply rtc_refl]].
  - refine (SPending toy_swarm0 7 toy_addr _ _ _ _); by vm_compute.
  - refine (SEstablishedIn toy_swarm1 toy_peer 7 toy_addr _ _); by vm_compute.
Defined.

Lemma admission_quota_holds_witness :
  conns_in_prefix (sw_admission toy_swarm2) toy_site = 1 /\
  conns_in_prefix (sw_admission toy_swarm2) toy_site
    <= N.max (quota AdmissionConfig_default false toy_site) (quota AdmissionConfig_default true toy_site).
Proof.
  split; [by vm_compute|].
  exact (proj2 (proj1 (admission_quota_holds AdmissionConfig_default 1000 toy_swarm2 toy_swarm_run) toy_site)).
Defined.

Lemma toy_index_ok : index_ok (sw_admission toy_swarm2).
Proof. exact (so_index _ _ (swarm_run_ok _ _ _ toy_swarm_run (swarm_init_ok _ _))). Qed.

Lemma pending_admission_exact_witness :
  let a := sw_admission toy_swarm2 in
  exists a', handle_pending_inbound_connection a 8 toy_addr = (Ok tt, a') /\
    conns_in_prefix a toy_site = 1 /\ on_swarm_event a' (ListenFailure 8) = a.
Proof.
  intros a. set (r := handle_pending_inbound_connection a 8 toy_addr).
  assert (Hr : r = (Ok tt, r.2)) by (by vm_compute).
  assert (Hp : prefix_for (ad_cfg a) toy_addr = Some toy_site) by (by vm_compute).
  assert (Hn : ad_prefix_of_conn a !! 8 = None) by (by vm_compute).
  pose proof (pending_admission_exact a 8 toy_addr (Ok tt) r.2 toy_index_ok Hn Hr) as H.
  rewrite Hp in H. destruct H as (_ & _ & _ & H). exists r.2.
  split; [exact Hr|]. split; [by vm_compute | exact H].
Defined.

Lemma deny_window_enforced_witness :
  let w := with_admission toy_swarm2 (deny_prefix_for map_to_list (sw_admission toy_swarm2) toy_site 500) in
  let w' := with_admission w (set_now_ms (sw_admission w) 1499) in
  exists left a', handle_pending_inbound_connection (sw_admission w') 9 toy_addr =
    (Err (PrefixDenied toy_site left), a') /\ 1 <= left.
Proof.
  intros w w'. set (a := sw_admission toy_swarm2).
  assert (H1 : ad_now_ms a < sat_add u64_max (ad_now_ms a) 500) by (by vm_compute).
  assert (H2 : ad_now_ms (sw_admission w') < sat_add u64_max (ad_now_ms a) 500) by (by vm_compute).
  assert (H3 : N.of_nat (size (ad_denied_prefix_until (sw_admission w)))
                 < max_denied_prefixes (ad_cfg (sw_admission w))) by (by vm_compute).
  assert (H4 : prefix_for (ad_cfg a) toy_addr = Some toy_site) by (by vm_compute).
  assert (H5 : sat_add u64_max (ad_now_ms a) 500 - ad_now_ms (sw_admission w') = 1) by (by vm_compute).
  rewrite <- H5. apply (deny_window_enforced map_to_list toy_swarm2 toy_site 500 w' 9 toy_addr H1); [|exact H4].
  apply rtc_once. exact (conj (SNow w 1499) (conj H2 H3)).
Defined.

Lemma deny_in_bounded_witness :
  let m : gmap N N := {[ 1 := 50; 2 := 90 ]} in
  deny_in map_to_list m 3 70 10 2 !! 1 = None /\ deny_in map_to_list m 3 70 10 2 !! 2 = Some 90 /\
  deny_in map_to_list m 3 70 10 2 !! 3 = Some 70.
Proof.
  intros m. split; [by vm_compute|]. split; [by vm_compute|].
  exact (proj1 (deny_in_bounded map_to_list m 3 70 10 2 ltac:(done) ltac:(by vm_compute))).
Defined.
