(* ===== verification/Crypto.v ===== *)
(** The cryptographic interface and the identities built on it.

    The primitives ([sha2], [blake3], [ed25519_dalek]) are not code of the
    repository: they are the operations of the class [Crypto], and what the
    code relies on is the class [CryptoLaws]. The wrappers of
    [crates/catcoms-crypto/src/ids.rs] and [identity.rs] are definitions over
    the class. Nothing below assumes a hash injective: statements that depend
    on collision resistance name the two messages that would collide. *)

From S2P Require Import Prelude.
From stdpp Require Import base list.
From Stdlib Require Import Init.Byte.
Local Open Scope N_scope.

Class Crypto := {
  sha256 : bytes -> bytes;
  blake3 : bytes -> bytes;
  (** [VerifyingKey::from_bytes] accepts these 32 bytes as a curve point. *)
  ed25519_point : bytes -> bool;
  (** [VerifyingKey::verify_strict] *)
  ed25519_verify_strict : bytes -> bytes -> bytes -> bool
}.

(** Digests are 32 bytes long. *)
Class CryptoLaws (C : Crypto) : Prop := {
  sha256_length : forall m, length (sha256 m) = 32%nat;
  blake3_length : forall m, length (blake3 m) = 32%nat
}.

Section identities.
Context {C : Crypto}.

Definition DEVICE_ID_LABEL : bytes := bytes_of_string "catcoms/device-id/v1".

Definition content_id (label data : bytes) : bytes := blake3 (label ++ data).

(** [DeviceId::from_public_key_bytes]; a [DeviceId] is its 32 raw bytes. *)
Definition from_public_key_bytes (public_key : bytes) : bytes :=
  content_id DEVICE_ID_LABEL public_key.

Definition verify_with_public_bytes (public_key msg sig : bytes) : bool :=
  if negb (length public_key =? 32)%nat then false
  else if negb (ed25519_point public_key) then false
  else ed25519_verify_strict public_key msg sig.

(** These two messages are different and have one SHA-256 digest. *)
Definition collide (m1 m2 : bytes) : Prop := m1 <> m2 /\ sha256 m1 = sha256 m2.
End identities.

(** * Signing devices

    What the epoch code uses of an [MlsDevice]: its public leaf key, and
    signing, which can fail inside the MLS provider. *)
Record MlsDevice := mkMlsDevice {
  public_key_bytes : bytes;
  device_sign : bytes -> option bytes
}.

(** A device whose key is a curve point and whose signatures are 64 bytes that
    strict verification accepts: [ed25519_dalek]'s signing contract. *)
Definition honest_device `{C : Crypto} (dev : MlsDevice) : Prop :=
  length (public_key_bytes dev) = 32%nat /\
  ed25519_point (public_key_bytes dev) = true /\
  forall m s, device_sign dev m = Some s ->
    length s = 64%nat /\ ed25519_verify_strict (public_key_bytes dev) m s = true.

Lemma honest_verify `{C : Crypto} dev m s :
  honest_device dev -> device_sign dev m = Some s ->
  verify_with_public_bytes (public_key_bytes dev) m s = true.
Proof.
  intros (Hl & Hp & Hs) H. unfold verify_with_public_bytes. rewrite Hl, Hp. by apply Hs.
Qed.

(** * A concrete instance, for witnesses

    A toy digest of the right length and a toy signature scheme: not secure,
    but it satisfies every law the development relies on. *)
Definition toy_digest (m : bytes) : bytes :=
  replicate 28 x00 ++ be_bytes 4 (fold_left (fun a b => N.land (a * 31 + b2n b + 7) u32_max) m 1).

Definition toy_sign (m : bytes) : bytes := take 64 (m ++ replicate 64 x00).

Lemma length_toy_sign m : length (toy_sign m) = 64%nat.
Proof. unfold toy_sign. rewrite length_take, length_app, length_replicate. lia. Qed.

#[global] Instance toy_crypto : Crypto := {|
  sha256 := toy_digest;
  blake3 := toy_digest;
  ed25519_point _ := true;
  ed25519_verify_strict _ m s := bool_decide (s = toy_sign m)
|}.

#[global] Instance toy_laws : CryptoLaws toy_crypto.
Proof. split; intros m; cbn [sha256 blake3 toy_crypto]; unfold toy_digest; by rewrite length_app, length_be_bytes. Qed.

Definition toy_device (key : N) : MlsDevice :=
  mkMlsDevice (be_bytes 32 key) (fun m => Some (toy_sign m)).

Lemma toy_device_honest key : honest_device (C:=toy_crypto) (toy_device key).
Proof.
  split_and!; [apply length_be_bytes | done |]. intros m s [= <-].
  split; [apply length_toy_sign | by apply bool_decide_eq_true].
Qed.
