(* ===== verification/Codec.v ===== *)
(** The epoch layer's codec vocabulary: [ReplError] of
    [crates/catcoms-replication/src/lib.rs], the small readers and writers of
    [epoch.rs] ([get_fixed], [put_hash], [put_optional_hash], ...), and the
    automation that proves a reader exact: the [mewtual_dec] hint database
    holds one [reads] and one [consumes] lemma per reader, and the tactics
    [reads_go] and [dec_inv] compose them along a [?]-chain. *)

From S2P Require Import Prelude Wire.
From stdpp Require Import base list.
From Stdlib Require Import Init.Byte.
Local Open Scope N_scope.

(** The payloads of the transparent [Mls] and [Keystore] variants are dropped. *)
Inductive ReplError : Type :=
| Mls
| Keystore
| BadSignature
| ActorMismatch
| WrongDocument
| EpochUnavailable (epoch : N)
| Automerge (reason : bytes)
| NoChange
| Malformed
| EpochBound
| EpochScope
| EpochAuthority
| EpochClosed
| ReceiptConflict
| RepairSequenceExhausted
| RecoveryPending
| IntentConflict.

#[global] Instance ReplError_eq_dec : EqDecision ReplError.
Proof. solve_decision. Defined.

(** [x |> f] threads the encoder through a sequence of writes. *)
Declare Scope encoder_scope.
Notation "e |> f" := (f e) (at level 40, left associativity, only parsing) : encoder_scope.
Open Scope encoder_scope.

(** [.map_err(|_| ReplError::Malformed)?] on a read. *)
Definition mal {A} (m : dec WireError A) : dec ReplError A :=
  dec_map_err (fun _ => Malformed) m.

(** [.map_err(|_| ReplError::EpochBound)?] on a write. *)
Definition put_bytes_b (v : bytes) (buf : bytes) : result ReplError bytes :=
  map_err (fun _ => EpochBound) (put_bytes v buf).

Definition get_fixed (n : nat) : dec ReplError bytes :=
  b ← mal get_bytes;
  dec_lift (if (length b =? n)%nat then Ok b else Err Malformed).

Definition put_hash (value buf : bytes) : bytes := put_bytes_x value buf.

(** The one-byte presence tag shared by every optional field. *)
Definition put_option {A} (put : A -> bytes -> bytes) (value : option A) (buf : bytes) : bytes :=
  match value with
  | Some v => put v (put_u8 1 buf)
  | None => put_u8 0 buf
  end.

Definition get_option {A} (get : dec ReplError A) : dec ReplError (option A) :=
  tag ← mal get_u8;
  if tag =? 0 then mret None
  else if tag =? 1 then (v ← get; mret (Some v))
  else dec_lift (Err Malformed).

Definition put_optional_hash (value : option bytes) (buf : bytes) : bytes :=
  put_option put_hash value buf.

Definition get_optional_hash : dec ReplError (option bytes) := get_option (get_fixed 32).

(** Reads the whole input: [d.finish().map_err(|_| ReplError::Malformed)?] *)
Definition run_exact {A} (m : dec ReplError A) (input : bytes) : result ReplError A :=
  run_dec (x ← m; _ ← mal finish; mret x) input.

(** * Exactness of the readers *)

Lemma run_exact_reads {A} (m : dec ReplError A) bs v : reads m bs v -> run_exact m bs = Ok v.
Proof. apply (reads_finish_run m (fun _ => Malformed)). Qed.

Lemma run_exact_consumes {A} (m : dec ReplError A) Q bs v :
  run_exact m bs = Ok v -> consumes m Q -> Q v bs.
Proof. intros H Hm. by apply (consumes_finish_run m (fun _ => Malformed) Q bs v Hm). Qed.

Definition opt_bytes {A} (enc : A -> bytes) (o : option A) : bytes :=
  match o with Some v => be_bytes 1 1 ++ enc v | None => be_bytes 1 0 end.

Lemma len_opt_bytes {A} (enc : A -> bytes) o :
  len (opt_bytes enc o) = 1 + match o with Some v => len (enc v) | None => 0 end.
Proof. destruct o; cbn; by autorewrite with mewtual_len. Qed.
#[export] Hint Rewrite @len_opt_bytes : mewtual_len.

Definition opt_ok {A} (ok : A -> Prop) (o : option A) : Prop :=
  match o with Some v => ok v | None => True end.

Lemma put_option_eq {A} (put : A -> bytes -> bytes) enc o buf :
  (forall v b, put v b = b ++ enc v) -> put_option put o buf = buf ++ opt_bytes enc o.
Proof.
  intros H. destruct o as [v|]; cbn; [|done].
  rewrite H. unfold put_u8. by rewrite app_assoc.
Qed.

Lemma put_hash_eq h buf : put_hash h buf = buf ++ lp h.
Proof. apply put_bytes_x_lp. Qed.

Lemma put_optional_hash_eq o buf : put_optional_hash o buf = buf ++ opt_bytes lp o.
Proof. apply put_option_eq, put_hash_eq. Qed.

Lemma put_bytes_b_ok v buf : len v <= u32_max -> put_bytes_b v buf = Ok (buf ++ lp v).
Proof. intros H. unfold put_bytes_b. by rewrite put_bytes_ok. Qed.

Lemma put_bytes_b_inv v buf out :
  put_bytes_b v buf = Ok out -> out = buf ++ lp v /\ len v <= u32_max.
Proof.
  unfold put_bytes_b, put_bytes. destruct (N.leb_spec (len v) u32_max); cbn; [|done].
  intros [= <-]. split; [|done]. unfold put_u32, lp. by rewrite app_assoc.
Qed.

Lemma len_u32_of_length (l : bytes) n : length l = n -> N.of_nat n <= u32_max -> len l <= u32_max.
Proof. unfold len. by intros ->. Qed.

(** ** Composition of reads *)

Lemma reads_bind_nil {E A B} (m : dec E A) (k : A -> dec E B) bs a b :
  reads m [] a -> reads (k a) bs b -> reads (x ← m; k x) bs b.
Proof. intros. by apply (reads_bind m k [] bs a b). Qed.

Lemma reads_bind_last {E A B} (m : dec E A) (k : A -> dec E B) bs a b :
  reads m bs a -> reads (k a) [] b -> reads (x ← m; k x) bs b.
Proof. intros. rewrite <- (app_nil_r bs). by eapply reads_bind. Qed.

Lemma reads_refuse {E B} c (e : E) (k : unit -> dec E B) bs b :
  c = false -> reads (k tt) bs b -> reads (x ← dec_lift (refuse_if c e); k x) bs b.
Proof. intros -> H. eapply reads_bind_nil; [by apply reads_lift_ok|done]. Qed.

Lemma reads_mal {A} (m : dec WireError A) bs a : reads m bs a -> reads (mal m) bs a.
Proof. apply reads_map_err. Qed.

Lemma reads_fixed n v :
  length v = n -> N.of_nat n <= u32_max -> reads (get_fixed n) (lp v) v.
Proof.
  intros Hl Hn. unfold get_fixed. eapply reads_bind_last.
  - apply reads_mal, reads_bytes. unfold len. by rewrite Hl.
  - apply reads_lift_ok. by rewrite Hl, Nat.eqb_refl.
Qed.

Lemma reads_option {A} (m : dec ReplError A) enc o :
  opt_ok (fun v => reads m (enc v) v) o -> reads (get_option m) (opt_bytes enc o) o.
Proof.
  intros H. unfold get_option. destruct o as [v|]; cbn [opt_bytes].
  - eapply reads_bind; [by apply reads_mal, reads_u8|]. cbn.
    eapply reads_bind_last; [done | apply reads_ret].
  - eapply reads_bind_last; [by apply reads_mal, reads_u8|]. cbn. apply reads_ret.
Qed.

Lemma reads_optional_hash o :
  opt_ok (fun h => length h = 32%nat) o -> reads get_optional_hash (opt_bytes lp o) o.
Proof. intros H. apply reads_option. destruct o; cbn in *; [|done]. by apply reads_fixed. Qed.

(** ** Inversion of reads *)

Lemma dec_bind_ok {E A B} (m : dec E A) (k : A -> dec E B) d b d' :
  (x ← m; k x) d = (Ok b, d') ->
  exists a d1, m d = (Ok a, d1) /\ k a d1 = (Ok b, d').
Proof.
  cbv [mbind dec_bind]. destruct (m d) as [[a|e] d1]; [|discriminate]. by eauto.
Qed.

Lemma dec_ret_ok {E A} (a : A) d b d' : (mret a : dec E A) d = (Ok b, d') -> a = b /\ d = d'.
Proof. by intros [= <- <-]. Qed.

Lemma dec_lift_ok {E A} (r : result E A) d b d' : dec_lift r d = (Ok b, d') -> r = Ok b /\ d = d'.
Proof. by intros [= -> <-]. Qed.

Lemma consumes_at {E A} (m : dec E A) Q d v d' :
  m d = (Ok v, d') -> consumes m Q -> exists bs, d_rest d = bs ++ d_rest d' /\ Q v bs.
Proof. intros H Hm. by apply Hm. Qed.

Lemma consumes_mal {A} (m : dec WireError A) Q : consumes m Q -> consumes (mal m) Q.
Proof. apply consumes_map_err. Qed.

Lemma pow256_8 : 256 ^ N.of_nat 8 = u64_max + 1.
Proof. done. Qed.
Lemma pow256_16 : 256 ^ N.of_nat 16 = u128_max + 1.
Proof. done. Qed.
Lemma pow256_4 : 256 ^ N.of_nat 4 = u32_max + 1.
Proof. done. Qed.
Lemma pow256_2 : 256 ^ N.of_nat 2 = u16_max + 1.
Proof. done. Qed.
Lemma pow256_1 : 256 ^ N.of_nat 1 = u8_max + 1.
Proof. done. Qed.

Lemma consumes_u w (max : N) :
  256 ^ N.of_nat w = max + 1 ->
  consumes (mal (get_be w)) (fun v bs => bs = be_bytes w v /\ v <= max).
Proof.
  intros Hw. apply consumes_mal. eapply consumes_weaken; [apply consumes_be|].
  intros v bs [-> H]. rewrite Hw in H. split; [done|lia].
Qed.

Lemma consumes_m_u8 : consumes (mal get_u8) (fun v bs => bs = be_bytes 1 v /\ v <= u8_max).
Proof. apply consumes_u, pow256_1. Qed.
Lemma consumes_m_u16 : consumes (mal get_u16) (fun v bs => bs = be_bytes 2 v /\ v <= u16_max).
Proof. apply consumes_u, pow256_2. Qed.
Lemma consumes_m_u32 : consumes (mal get_u32) (fun v bs => bs = be_bytes 4 v /\ v <= u32_max).
Proof. apply consumes_u, pow256_4. Qed.
Lemma consumes_m_u64 : consumes (mal get_u64) (fun v bs => bs = be_bytes 8 v /\ v <= u64_max).
Proof. apply consumes_u, pow256_8. Qed.
Lemma consumes_m_u128 : consumes (mal get_u128) (fun v bs => bs = be_bytes 16 v /\ v <= u128_max).
Proof. apply consumes_u, pow256_16. Qed.
Lemma consumes_m_bytes : consumes (mal get_bytes) (fun v bs => bs = lp v /\ len v <= u32_max).
Proof. apply consumes_mal, consumes_bytes. Qed.

Lemma consumes_fixed n :
  consumes (get_fixed n) (fun v bs => bs = lp v /\ length v = n).
Proof.
  eapply consumes_weaken.
  { eapply consumes_bind; [apply consumes_m_bytes|]. intros a. apply consumes_lift. }
  intros v bs (a & b1 & b2 & -> & [-> _] & H & ->). rewrite app_nil_r.
  destruct (Nat.eqb_spec (length a) n); [|done]. by injection H as <-.
Qed.

Lemma consumes_option {A} (m : dec ReplError A) enc (P : A -> Prop) :
  consumes m (fun v bs => bs = enc v /\ P v) ->
  consumes (get_option m) (fun o bs => bs = opt_bytes enc o /\ opt_ok P o).
Proof.
  intros Hm d o d' H. unfold get_option in H.
  apply dec_bind_ok in H as (t & d1 & Ht & H).
  destruct (consumes_m_u8 _ _ _ Ht) as (b1 & R1 & -> & _).
  destruct (N.eqb_spec t 0) as [->|]; [|destruct (N.eqb_spec t 1) as [->|]; [|done]].
  - apply dec_ret_ok in H as [<- <-]. by exists (be_bytes 1 0).
  - apply dec_bind_ok in H as (v & d2 & Hv & H). apply dec_ret_ok in H as [<- <-].
    destruct (Hm _ _ _ Hv) as (b2 & R2 & -> & HP). exists (be_bytes 1 1 ++ enc v).
    split_and!; [|done..].
    by rewrite R1, R2, app_assoc.
Qed.

Lemma consumes_optional_hash :
  consumes get_optional_hash
    (fun o bs => bs = opt_bytes lp o /\ opt_ok (fun h => length h = 32%nat) o).
Proof. apply consumes_option, consumes_fixed. Qed.

(** A boolean stored as one byte. *)
Definition get_flag : dec ReplError bool :=
  tag ← mal get_u8;
  if tag =? 0 then mret false else if tag =? 1 then mret true else dec_lift (Err Malformed).

Lemma reads_flag (b : bool) : reads get_flag (be_bytes 1 (if b then 1 else 0)) b.
Proof.
  unfold get_flag. eapply reads_bind_last; [by apply reads_mal, reads_u8; destruct b|].
  destruct b; cbn [N.eqb Pos.eqb]; apply reads_ret.
Qed.

Lemma consumes_flag : consumes get_flag (fun b bs => bs = be_bytes 1 (if b then 1 else 0)).
Proof.
  intros d b d' H. unfold get_flag in H.
  apply dec_bind_ok in H as (t & d1 & Ht & H). destruct (consumes_m_u8 _ _ _ Ht) as (b1 & R1 & -> & _).
  destruct (N.eqb_spec t 0) as [->|]; [|destruct (N.eqb_spec t 1) as [->|]; [|done]];
    apply dec_ret_ok in H as [<- <-]; by eexists.
Qed.

(** ** Reads whose every failure is one error

    [read.map_err(|_| e)?] for the error type of any module. *)
Definition or_err {E A} (e : E) (m : dec WireError A) : dec E A := dec_map_err (fun _ => e) m.

(** [get_bytes()?.try_into()?] for an array of [n] bytes *)
Definition get_exact {E} (e : E) (n : nat) : dec E bytes :=
  b ← or_err e get_bytes;
  dec_lift (if (length b =? n)%nat then Ok b else Err e).

(** Runs a read over the whole input, [finish()] included. *)
Definition run_or {E A} (e : E) (m : dec E A) (input : bytes) : result E A :=
  run_dec (x ← m; _ ← or_err e finish; mret x) input.

Section or_err.
Context {E : Type} (e : E).

Lemma reads_or {A} (m : dec WireError A) bs a : reads m bs a -> reads (or_err e m) bs a.
Proof. apply reads_map_err. Qed.
Lemma run_or_reads {A} (m : dec E A) bs v : reads m bs v -> run_or e m bs = Ok v.
Proof. apply (reads_finish_run m (fun _ => e)). Qed.
Lemma run_or_consumes {A} (m : dec E A) Q bs v : run_or e m bs = Ok v -> consumes m Q -> Q v bs.
Proof. intros H Hm. by apply (consumes_finish_run m (fun _ => e) Q bs v Hm). Qed.

Lemma consumes_or_be w (max : N) :
  256 ^ N.of_nat w = max + 1 -> consumes (or_err e (get_be w)) (fun v bs => bs = be_bytes w v /\ v <= max).
Proof.
  intros Hw. apply consumes_map_err. eapply consumes_weaken; [apply consumes_be|].
  intros v bs [-> H]. rewrite Hw in H. split; [done|lia].
Qed.
Lemma consumes_or_u8 : consumes (or_err e get_u8) (fun v bs => bs = be_bytes 1 v /\ v <= u8_max).
Proof. apply consumes_or_be, pow256_1. Qed.
Lemma consumes_or_u32 : consumes (or_err e get_u32) (fun v bs => bs = be_bytes 4 v /\ v <= u32_max).
Proof. apply consumes_or_be, pow256_4. Qed.
Lemma consumes_or_u64 : consumes (or_err e get_u64) (fun v bs => bs = be_bytes 8 v /\ v <= u64_max).
Proof. apply consumes_or_be, pow256_8. Qed.
Lemma consumes_or_u128 : consumes (or_err e get_u128) (fun v bs => bs = be_bytes 16 v /\ v <= u128_max).
Proof. apply consumes_or_be, pow256_16. Qed.
Lemma consumes_or_bytes : consumes (or_err e get_bytes) (fun v bs => bs = lp v /\ len v <= u32_max).
Proof. apply consumes_map_err, consumes_bytes. Qed.
Lemma consumes_or_str :
  consumes (or_err e get_str) (fun v bs => bs = lp v /\ len v <= u32_max /\ utf8_valid v = true).
Proof. apply consumes_map_err, consumes_str. Qed.

Lemma reads_exact n v : length v = n -> N.of_nat n <= u32_max -> reads (get_exact e n) (lp v) v.
Proof.
  intros Hl Hn. unfold get_exact. eapply reads_bind_last; [apply reads_or, reads_bytes; unfold len; by rewrite Hl|].
  apply reads_lift_ok. by rewrite Hl, Nat.eqb_refl.
Qed.
Lemma consumes_exact n : consumes (get_exact e n) (fun v bs => bs = lp v /\ length v = n).
Proof.
  eapply consumes_weaken; [eapply consumes_bind; [apply consumes_or_bytes|intros a; apply consumes_lift]|].
  intros v bs (a & b1 & b2 & -> & [-> _] & H & ->). rewrite app_nil_r.
  destruct (Nat.eqb_spec (length a) n); [|done]. by injection H as <-.
Qed.

(** A counted list whose elements are read exactly. *)
Lemma consumes_list {A} (m : dec E A) enc (P : A -> Prop) n :
  consumes m (fun v bs => bs = enc v /\ P v) ->
  consumes (get_n n m) (fun vs bs => bs = concat (enc <$> vs) /\ length vs = n /\ Forall P vs).
Proof.
  intros Hm. eapply consumes_weaken; [by apply consumes_n|]. intros vs bs (Hl & bss & -> & HF). split_and!; [|done|].
  - clear Hl. induction HF as [|v b vs bss [-> _] _ IH]; [done|]. cbn. by rewrite IH.
  - clear Hl. induction HF as [|v b vs bss [_ ?] _ IH]; by constructor.
Qed.
End or_err.

Create HintDb mewtual_dec.
#[export] Hint Resolve consumes_m_u8 consumes_m_u16 consumes_m_u32 consumes_m_u64
  consumes_m_u128 consumes_m_bytes consumes_fixed consumes_optional_hash
  consumes_or_u8 consumes_or_u32 consumes_or_u64 consumes_or_u128 consumes_or_bytes consumes_or_str consumes_exact : mewtual_dec.

(** A guard in a read chain. *)
Definition dec_refuse {E} (c : bool) (e : E) : dec E unit := dec_lift (refuse_if c e).

Lemma dec_refuse_ok {E} c (e : E) d u d' : dec_refuse c e d = (Ok u, d') -> c = false /\ d = d'.
Proof. unfold dec_refuse. intros H. apply dec_lift_ok in H as [H <-]. by apply refuse_if_ok in H. Qed.

Lemma reads_refuse_bind {E B} c (e : E) (k : unit -> dec E B) bs b :
  c = false -> reads (k tt) bs b -> reads (x ← dec_refuse c e; k x) bs b.
Proof. apply reads_refuse. Qed.

(** [dec_inv]: splits [H : chain d = (Ok v, d')] into what each read consumed. *)
Ltac dec_step H :=
  lazymatch type of H with
  | (_ ← _; _) _ = (Ok _, _) =>
      let a := fresh "v" in let d1 := fresh "d" in let Ha := fresh "Hr" in
      apply dec_bind_ok in H; destruct H as (a & d1 & Ha & H); dec_step Ha; dec_step H
  | (mret _) _ = (Ok _, _) => apply dec_ret_ok in H; destruct H as [<- <-]
  | dec_refuse _ _ _ = (Ok _, _) =>
      apply dec_refuse_ok in H; let E := fresh "E" in destruct H as [H E]; symmetry in E; subst
  | dec_lift _ _ = (Ok _, _) =>
      apply dec_lift_ok in H; let E := fresh "E" in destruct H as [H E]; symmetry in E; subst
  | _ =>
      let Q := fresh "Q" in let bs := fresh "bs" in let R := fresh "R" in
      eapply consumes_at in H; [|solve [eauto with mewtual_dec]];
      destruct H as (bs & R & H)
  end.

(** [reads_go]: proves a [reads] goal along a chain whose encoding is a
    right-nested concatenation. *)
Ltac reads_go :=
  lazymatch goal with
  | |- reads (_ ← dec_refuse _ _; _) _ _ => eapply reads_refuse_bind; [|reads_go]
  | |- reads (_ ← dec_lift _; _) _ _ =>
      eapply reads_bind_nil; [apply reads_lift_ok|reads_go]
  | |- reads (_ ← _; _) (_ ++ _) _ => eapply reads_bind; [|reads_go]
  | |- reads (_ ← _; _) _ _ => eapply reads_bind_last; [|reads_go]
  | |- reads (mret _) _ _ => apply reads_ret
  | |- _ => idtac
  end.

(** * Optional trailing extensions

    [if d.is_empty() { None } else { ... }]: what follows the legacy frame. *)
Definition get_more {E A} (m : dec E A) : dec E (option A) :=
  fun d => if Decoder_is_empty d then (Ok None, d) else (x ← m; mret (Some x)) d.

Definition more_bytes {A} (enc : A -> bytes) (o : option A) : bytes :=
  match o with Some v => enc v | None => [] end.

(** [m] reads [bs] as [v] when nothing follows it. *)
Definition reads_all {E A} (m : dec E A) (bs : bytes) (v : A) : Prop :=
  forall d, d_rest d = bs -> m d = (Ok v, advance (length bs) d).

Section more.
Context {E : Type}.

Lemma reads_all_of {A} (m : dec E A) bs v : reads m bs v -> reads_all m bs v.
Proof. intros H d Hd. apply (H d []). by rewrite app_nil_r. Qed.

Lemma reads_all_bind {A B} (m : dec E A) (k : A -> dec E B) b1 b2 a b :
  reads m b1 a -> reads_all (k a) b2 b -> reads_all (x ← m; k x) (b1 ++ b2) b.
Proof.
  intros H1 H2 d Hd. cbv [mbind dec_bind]. rewrite (H1 d b2 Hd).
  rewrite (H2 (advance (length b1) d)) by (by apply d_rest_advance_app).
  by rewrite advance_advance, length_app.
Qed.

Lemma reads_all_last {A B} (m : dec E A) (k : A -> B) bs a :
  reads_all m bs a -> reads_all (x ← m; mret (k x)) bs (k a).
Proof. intros H d Hd. cbv [mbind dec_bind]. by rewrite (H d Hd). Qed.

Lemma reads_all_lift {A B} (r : result E A) (k : A -> dec E B) bs a b :
  r = Ok a -> reads_all (k a) bs b -> reads_all (x ← dec_lift r; k x) bs b.
Proof. by intros ->. Qed.

(** The extension is told from its absence because it is not empty. *)
Lemma reads_all_more {A} (m : dec E A) enc o :
  (forall v, o = Some v -> reads m (enc v) v /\ 0 < len (enc v)) ->
  reads_all (get_more m) (more_bytes enc o) o.
Proof.
  intros H d Hd. unfold get_more, Decoder_is_empty. rewrite remaining_rest, Hd.
  destruct o as [v|]; cbn [more_bytes] in *.
  - destruct (H v eq_refl) as [Hr Hl]. rewrite (proj2 (N.eqb_neq _ _)) by lia.
    by rewrite (reads_all_last m Some (enc v) v (reads_all_of _ _ _ Hr) d Hd).
  - cbn. by rewrite advance_0.
Qed.

Lemma consumes_more {A} (m : dec E A) Q :
  consumes m Q ->
  consumes (get_more m) (fun o bs => match o with Some v => Q v bs | None => bs = [] end).
Proof.
  intros Hm d o d' H. unfold get_more in H. destruct (Decoder_is_empty d).
  - injection H as <- <-. by exists [].
  - apply dec_bind_ok in H as (v & d1 & H & H1). apply dec_ret_ok in H1 as [<- <-].
    destruct (Hm _ _ _ H) as (bs & R & HQ). by exists bs.
Qed.
End more.

Lemma run_exact_reads_all {A} (m : dec ReplError A) bs v : reads_all m bs v -> run_exact m bs = Ok v.
Proof.
  intros Hm. unfold run_exact, run_dec. cbv [mbind dec_bind].
  rewrite (Hm (Decoder_new bs) eq_refl). unfold mal, dec_map_err, finish.
  by rewrite remaining_rest, (d_rest_advance_app bs [] (Decoder_new bs)) by (cbn; by rewrite app_nil_r).
Qed.
