(* ===== verification/BoundedChange.v ===== *)
(** The bounded preflight of raw Automerge changes,
    [crates/catcoms-replication/src/bounded_change.rs]: LEB128 reads over a
    cursor, and the scanner that counts run-length encoded columns without
    expanding them.

    [u64] values are [N] below [2^64] with the shifts truncated as the machine
    does; [i64] is [Z]. The column loop [while !column.done()] takes fuel, one
    unit per byte of the column, and [None] would mean that it ran out:
    [scan_terminates] shows it never does.

    The specification is the expansion the scanner avoids: [column_runs] reads a
    column into its runs, [expand] unrolls them to cells. *)

From S2P Require Import Prelude Wire Codec.
From stdpp Require Import base list.
From Stdlib Require Import Init.Byte.
Local Open Scope N_scope.

Definition MAX_CELLS : N := 1048576.
Definition MAX_PREDECESSORS : N := 262144.
Definition MAX_EXPANDED_STRINGS : N := 16 * 1024 * 1024.
Definition MAX_ACTIONS : N := 65536.
Definition SPECS : list N :=
  [0x01; 0x02; 0x11; 0x13; 0x15; 0x34; 0x42; 0x56; 0x57; 0x70; 0x71; 0x73; 0x94; 0xa5].

(** * The cursor *)

Record Input := mkInput { in_bytes : bytes; in_at : N }.

Definition Input_new (b : bytes) : Input := mkInput b 0.

Definition in_take (n : N) (i : Input) : result ReplError (bytes * Input) :=
  finish ← ok_or (checked_add usize_max (in_at i) n) EpochBound;
  _ ← refuse_if (len (in_bytes i) <? finish) Malformed;
  Ok (firstn (N.to_nat n) (skipn (N.to_nat (in_at i)) (in_bytes i)), mkInput (in_bytes i) finish).

(** [self.take(1)?[0]] *)
Definition in_byte (i : Input) : result ReplError (N * Input) :=
  p ← in_take 1 i;
  Ok (b2n (default (n2b 0) (head p.1)), p.2).

Definition u64_modulus : N := u64_max + 1.
(** [x << n] on [u64] *)
Definition shl64 (x n : N) : N := N.shiftl x n mod u64_modulus.

(** Iterations [k], [k+1], ..., nine of the loop over the ten bytes. *)
Fixpoint unsigned_from (fuel : nat) (k value : N) (i : Input) : result ReplError (N * Input) :=
  match fuel with
  | O => Err Malformed
  | S fuel =>
      p ← in_byte i;
      let '(byte, i) := p in
      _ ← refuse_if ((k =? 9) && (1 <? byte)) Malformed;
      let value := N.lor value (shl64 (N.land byte 127) (k * 7)) in
      if N.land byte 128 =? 0 then Ok (value, i) else unsigned_from fuel (k + 1) value i
  end.
Definition unsigned (i : Input) : result ReplError (N * Input) := unsigned_from 10 0 0 i.

(** [value as i64] *)
Definition as_i64 (value : N) : Z :=
  if value <? 2 ^ 63 then Z.of_N value else (Z.of_N value - 2 ^ 64)%Z.

Fixpoint signed_from (fuel : nat) (k value : N) (i : Input) : result ReplError (Z * Input) :=
  match fuel with
  | O => Err Malformed
  | S fuel =>
      p ← in_byte i;
      let '(byte, i) := p in
      _ ← refuse_if ((k =? 9) && negb (byte =? 0) && negb (byte =? 127)) Malformed;
      let value := N.lor value (shl64 (N.land byte 127) (k * 7)) in
      if N.land byte 128 =? 0 then
        let bits := (k + 1) * 7 in
        let value := if (bits <? 64) && negb (N.land byte 64 =? 0) then N.lor value (shl64 u64_max bits) else value in
        Ok (as_i64 value, i)
      else signed_from fuel (k + 1) value i
  end.
Definition signed (i : Input) : result ReplError (Z * Input) := signed_from 10 0 0 i.

Definition sized (i : Input) : result ReplError (bytes * Input) :=
  p ← unsigned i; in_take p.1 p.2.

Definition in_done (i : Input) : bool := in_at i =? len (in_bytes i).

(** * The budgets *)

Definition checked_mul (max a b : N) : option N := if a * b <=? max then Some (a * b) else None.

(** [charge] *)
Definition charge_total (total value limit : N) : result ReplError N :=
  total ← ok_or (checked_add u64_max total value) EpochBound;
  _ ← refuse_if (limit <? total) EpochBound;
  Ok total.

Record Limits := mkLimits {
  lim_actions : N;
  lim_cells : N;
  lim_predecessors : N;
  lim_strings : N;
  lim_value_bytes : N
}.

(** The running totals of [check_limits]. *)
Record Totals := mkTotals {
  t_cells : N;
  t_strings : N;
  t_predecessors : N;
  t_value_bytes : N;
  t_actions : N
}.
Definition no_totals : Totals := mkTotals 0 0 0 0 0.

Definition charge_cells (l : Limits) (value : N) (t : Totals) : result ReplError Totals :=
  n ← charge_total (t_cells t) value (lim_cells l);
  Ok (mkTotals n (t_strings t) (t_predecessors t) (t_value_bytes t) (t_actions t)).
Definition charge_actions (l : Limits) (value : N) (t : Totals) : result ReplError Totals :=
  n ← charge_total (t_actions t) value (lim_actions l);
  Ok (mkTotals (t_cells t) (t_strings t) (t_predecessors t) (t_value_bytes t) n).
Definition charge_predecessors (l : Limits) (value repeats : N) (t : Totals) : result ReplError Totals :=
  product ← ok_or (checked_mul u64_max value repeats) EpochBound;
  n ← charge_total (t_predecessors t) product (lim_predecessors l);
  Ok (mkTotals (t_cells t) (t_strings t) n (t_value_bytes t) (t_actions t)).
Definition charge_value_bytes (l : Limits) (value repeats : N) (t : Totals) : result ReplError Totals :=
  product ← ok_or (checked_mul u64_max value repeats) EpochBound;
  n ← charge_total (t_value_bytes t) product (lim_value_bytes l);
  Ok (mkTotals (t_cells t) (t_strings t) (t_predecessors t) n (t_actions t)).
Definition charge_strings (l : Limits) (value repeats : N) (t : Totals) : result ReplError Totals :=
  product ← ok_or (checked_mul u64_max value repeats) EpochBound;
  n ← charge_total (t_strings t) product (lim_strings l);
  Ok (mkTotals (t_cells t) n (t_predecessors t) (t_value_bytes t) (t_actions t)).

(** * The scanner *)

(** One pass of the literal loop: the [match typ]. *)
Definition scan_literal (l : Limits) (spec repeats : N) (t : Totals) (i : Input)
    : result ReplError (Totals * Input) :=
  let typ := N.land spec 7 in
  if (typ =? 0) || (typ =? 1) || (typ =? 2) || (typ =? 6) then
    p ← unsigned i;
    let '(value, i) := p in
    t ← (if spec =? 0x70 then charge_predecessors l value repeats t else Ok t);
    t ← (if typ =? 6 then charge_value_bytes l (N.shiftr value 4) repeats t else Ok t);
    Ok (t, i)
  else if typ =? 3 then
    p ← signed i; Ok (t, p.2)
  else if typ =? 5 then
    p ← sized i;
    t ← charge_strings l (len p.1) repeats t;
    Ok (t, p.2)
  else Err Malformed.

Fixpoint scan_literals (l : Limits) (spec repeats : N) (n : nat) (t : Totals) (i : Input)
    : result ReplError (Totals * Input) :=
  match n with
  | O => Ok (t, i)
  | S n => p ← scan_literal l spec repeats t i; scan_literals l spec repeats n p.1 p.2
  end.

(** One iteration of [while !column.done()]. *)
Definition scan_run (l : Limits) (spec : N) (t : Totals) (i : Input) : result ReplError (Totals * Input) :=
  if N.land spec 7 =? 4 then
    p ← unsigned i;
    t ← charge_cells l p.1 t;
    Ok (t, p.2)
  else
    p ← signed i;
    let '(run, i) := p in
    q ← (if (run =? 0)%Z then unsigned i
         else count ← ok_or (if (run =? - 2 ^ 63)%Z then None else Some (Z.to_N (Z.abs run))) EpochBound;
              Ok (count, i));
    let '(count, i) := q in
    t ← charge_cells l count t;
    t ← (if spec =? 0x42 then charge_actions l count t else Ok t);
    if (run =? 0)%Z then Ok (t, i)
    else
      let '(literals, repeats) := if (run <? 0)%Z then (count, 1) else (1, count) in
      scan_literals l spec repeats (N.to_nat literals) t i.

Fixpoint scan_column (fuel : nat) (l : Limits) (spec : N) (t : Totals) (i : Input)
    : option (result ReplError Totals) :=
  if in_done i then Some (Ok t)
  else
    match fuel with
    | O => None
    | S fuel =>
        match scan_run l spec t i with
        | Err e => Some (Err e)
        | Ok (t, i) => scan_column fuel l spec t i
        end
    end.

(** The body of [for (spec, len) in columns]; the fuel is one unit per byte. *)
Definition scan_data (l : Limits) (spec : N) (data : bytes) (t : Totals) : result ReplError Totals :=
  if N.land spec 7 =? 7 then Ok t
  else default (Err Malformed) (scan_column (length data) l spec t (Input_new data)).

Fixpoint scan_columns (l : Limits) (columns : list (N * N)) (t : Totals) (header : Input)
    : result ReplError Totals :=
  match columns with
  | [] => Ok t
  | (spec, n) :: rest =>
      p ← in_take n header;
      t ← scan_data l spec p.1 t;
      scan_columns l rest t p.2
  end.

(** The header loops. *)
Fixpoint skip_actors (n : nat) (i : Input) : result ReplError Input :=
  match n with
  | O => Ok i
  | S n =>
      p ← sized i;
      _ ← refuse_if (negb (len p.1 =? 32)) EpochAuthority;
      skip_actors n p.2
  end.

Fixpoint read_specs (n : nat) (previous : option N) (i : Input) : result ReplError (list (N * N) * Input) :=
  match n with
  | O => Ok ([], i)
  | S n =>
      p ← unsigned i;
      let '(spec, i) := p in
      _ ← refuse_if (negb (bool_decide (spec ∈ SPECS)) ||
                     match previous with Some old => spec <=? old | None => false end) Malformed;
      p ← unsigned i;
      let '(n_bytes, i) := p in
      p ← read_specs n (Some spec) i;
      Ok ((spec, n_bytes) :: p.1, p.2)
  end.

Definition MAGIC : bytes := n2b <$> [0x85; 0x6f; 0x4a; 0x83].

(** From the first byte to the column table: the columns declared, and the
    cursor where their data starts. *)
Definition read_header (input : bytes) : result ReplError (list (N * N) * Input) :=
  _ ← refuse_if ((len input <? 10) || negb (bool_decide (firstn 4 input = MAGIC))
                 || negb (bool_decide (input !! 8%nat = Some (n2b 1)))) Malformed;
  p ← sized (Input_new (skipn 9 input));
  let '(payload, frame) := p in
  _ ← refuse_if (negb (in_done frame)) Malformed;
  p ← unsigned (Input_new payload);
  let '(deps, header) := p in
  _ ← refuse_if (20001 <? deps) EpochBound;
  deps_bytes ← ok_or (checked_mul u64_max deps 32) EpochBound;
  p ← in_take deps_bytes header;
  p ← sized p.2;
  _ ← refuse_if (negb (len p.1 =? 32)) EpochAuthority;
  p ← unsigned p.2;
  p ← unsigned p.2;
  p ← signed p.2;
  p ← sized p.2;
  p ← unsigned p.2;
  let '(actors, header) := p in
  _ ← refuse_if (20001 <? actors) EpochBound;
  header ← skip_actors (N.to_nat actors) header;
  p ← unsigned header;
  let '(count, header) := p in
  _ ← refuse_if (len SPECS <? count) EpochBound;
  read_specs (N.to_nat count) None header.

Definition check_limits (input : bytes) (max_actions max_cells max_predecessors max_strings : N)
    : result ReplError unit :=
  p ← read_header input;
  let l := mkLimits max_actions max_cells max_predecessors max_strings (len input) in
  t ← scan_columns l p.1 no_totals p.2;
  refuse_if (t_actions t =? 0) Malformed.

(** [check] *)
Definition change_check (input : bytes) (max_actions : N) : result ReplError unit :=
  check_limits input max_actions MAX_CELLS MAX_PREDECESSORS MAX_EXPANDED_STRINGS.
Definition check_projection (input : bytes) (max_actions : N) : result ReplError unit :=
  check_limits input max_actions 8192 4096 (64 * 1024).

(** * Reading without budgets *)

Inductive cell :=
| CUnsigned (n : N)
| CSigned (z : Z)
| CText (text : bytes).

(** A run of a column: absent cells, one cell repeated, or cells spelled out. *)
Inductive run :=
| Nulls (n : N)
| Repeat (n : N) (c : cell)
| Literal (cs : list cell).

Definition read_cell (spec : N) (i : Input) : result ReplError (cell * Input) :=
  let typ := N.land spec 7 in
  if (typ =? 0) || (typ =? 1) || (typ =? 2) || (typ =? 6) then p ← unsigned i; Ok (CUnsigned p.1, p.2)
  else if typ =? 3 then p ← signed i; Ok (CSigned p.1, p.2)
  else if typ =? 5 then p ← sized i; Ok (CText p.1, p.2)
  else Err Malformed.

Fixpoint read_cells (spec : N) (n : nat) (i : Input) : result ReplError (list cell * Input) :=
  match n with
  | O => Ok ([], i)
  | S n => p ← read_cell spec i; q ← read_cells spec n p.2; Ok (p.1 :: q.1, q.2)
  end.

Definition read_run (spec : N) (i : Input) : result ReplError (run * Input) :=
  if N.land spec 7 =? 4 then p ← unsigned i; Ok (Nulls p.1, p.2)
  else
    p ← signed i;
    if (p.1 =? 0)%Z then q ← unsigned p.2; Ok (Nulls q.1, q.2)
    else if (p.1 =? - 2 ^ 63)%Z then Err EpochBound
    else if (p.1 <? 0)%Z then q ← read_cells spec (Z.to_nat (Z.abs p.1)) p.2; Ok (Literal q.1, q.2)
    else q ← read_cell spec p.2; Ok (Repeat (Z.to_N p.1) q.1, q.2).

Inductive column_runs (spec : N) : Input -> list run -> Prop :=
| runs_done i : in_done i = true -> column_runs spec i []
| runs_step i r i' rs :
    in_done i = false -> read_run spec i = Ok (r, i') -> column_runs spec i' rs ->
    column_runs spec i (r :: rs).

(** The columns of a change with their runs; raw value bytes (type 7) have none. *)
Inductive change_runs : list (N * N) -> Input -> list (N * list run) -> Prop :=
| change_nil header : change_runs [] header []
| change_cons spec n rest header data header' rs out :
    in_take n header = Ok (data, header') ->
    (if N.land spec 7 =? 7 then rs = [] else column_runs spec (Input_new data) rs) ->
    change_runs rest header' out -> change_runs ((spec, n) :: rest) header ((spec, rs) :: out).

(** ** Expansion and its cost *)

Definition expand (r : run) : list (option cell) :=
  match r with
  | Nulls n => replicate (N.to_nat n) None
  | Repeat n c => replicate (N.to_nat n) (Some c)
  | Literal cs => Some <$> cs
  end.

Definition add_totals (a b : Totals) : Totals :=
  mkTotals (t_cells a + t_cells b) (t_strings a + t_strings b) (t_predecessors a + t_predecessors b)
    (t_value_bytes a + t_value_bytes b) (t_actions a + t_actions b).

(** What materializing one cell costs: strings, predecessors, value bytes. *)
Definition cell_cost (spec : N) (c : cell) : Totals :=
  match c with
  | CUnsigned v => mkTotals 0 0 (if spec =? 0x70 then v else 0)
                     (if N.land spec 7 =? 6 then N.shiftr v 4 else 0) 0
  | CSigned _ => no_totals
  | CText b => mkTotals 0 (len b) 0 0 0
  end.

Definition entry_cost (spec : N) (o : option cell) : Totals :=
  add_totals (mkTotals 1 0 0 0 (if spec =? 0x42 then 1 else 0))
    (match o with Some c => cell_cost spec c | None => no_totals end).

Definition sum_totals {A} (f : A -> Totals) (l : list A) : Totals := foldr (fun x => add_totals (f x)) no_totals l.

(** The cost of the fully expanded change. *)
Definition runs_cost (spec : N) (rs : list run) : Totals := sum_totals (entry_cost spec) (concat (expand <$> rs)).
Definition change_cost (out : list (N * list run)) : Totals := sum_totals (fun c => runs_cost c.1 c.2) out.

Record within (l : Limits) (t : Totals) : Prop := mkWithin {
  wi_cells : t_cells t <= lim_cells l;
  wi_strings : t_strings t <= lim_strings l;
  wi_predecessors : t_predecessors t <= lim_predecessors l;
  wi_value_bytes : t_value_bytes t <= lim_value_bytes l;
  wi_actions : t_actions t <= lim_actions l
}.

(** The limits are machine words. *)
Definition limits_fit (l : Limits) : Prop :=
  lim_cells l <= u64_max /\ lim_strings l <= u64_max /\ lim_predecessors l <= u64_max /\
  lim_value_bytes l <= u64_max /\ lim_actions l <= u64_max.

(** * Totals *)

Lemma totals_eq a b :
  t_cells a = t_cells b -> t_strings a = t_strings b -> t_predecessors a = t_predecessors b ->
  t_value_bytes a = t_value_bytes b -> t_actions a = t_actions b -> a = b.
Proof. destruct a, b; cbn. by intros -> -> -> -> ->. Qed.

Ltac totals :=
  apply totals_eq; cbn [add_totals no_totals t_cells t_strings t_predecessors t_value_bytes t_actions]; lia.

Lemma add_totals_assoc a b c : add_totals a (add_totals b c) = add_totals (add_totals a b) c.
Proof. totals. Qed.
Lemma add_totals_nil a : add_totals a no_totals = a.
Proof. totals. Qed.

Lemma within_mono l a b : within l (add_totals a b) -> within l a.
Proof. intros [H1 H2 H3 H4 H5]. cbn in *. constructor; lia. Qed.

Lemma sum_totals_app {A} (f : A -> Totals) x y :
  sum_totals f (x ++ y) = add_totals (sum_totals f x) (sum_totals f y).
Proof.
  induction x as [|a x IH]; [cbn [app]; change (sum_totals f []) with no_totals; totals|]. cbn [app sum_totals foldr]. fold (sum_totals f (x ++ y)) (sum_totals f x).
  rewrite IH. apply add_totals_assoc.
Qed.

Definition scale_totals (k : N) (t : Totals) : Totals :=
  mkTotals (k * t_cells t) (k * t_strings t) (k * t_predecessors t) (k * t_value_bytes t) (k * t_actions t).

Lemma sum_totals_replicate {A} (f : A -> Totals) n x :
  sum_totals f (replicate n x) = scale_totals (N.of_nat n) (f x).
Proof.
  induction n as [|n IH]; [by apply totals_eq|]. cbn [replicate sum_totals foldr].
  fold (sum_totals f (replicate n x)). rewrite IH. apply totals_eq;
  cbn [add_totals scale_totals t_cells t_strings t_predecessors t_value_bytes t_actions]; lia.
Qed.

Lemma charge_total_iff total value limit n :
  limit <= u64_max -> charge_total total value limit = Ok n <-> n = total + value /\ total + value <= limit.
Proof.
  intros Hl. unfold charge_total. destruct (checked_add u64_max total value) as [m|] eqn:E; cbn [ok_or].
  - apply checked_add_iff in E as [-> _]. rewrite bind_Ok. destruct (N.ltb_spec limit (total + value)); cbn.
    + split; [done|lia].
    + split; [by intros [= <-]|by intros [-> _]].
  - split; [done|]. intros [_ H]. assert (checked_add u64_max total value = Some (total + value)) as E'
      by (apply checked_add_iff; split; [done|lia]). congruence.
Qed.

(** A multiplied charge, for any way [k] of writing the counter back. *)
Lemma charge_product_iff {A} value repeats total limit (k : N -> A) r :
  limit <= u64_max ->
  (product ← ok_or (checked_mul u64_max value repeats) EpochBound;
   n ← charge_total total product limit; Ok (k n)) = (Ok r : result ReplError A) <->
  r = k (total + repeats * value) /\ total + repeats * value <= limit.
Proof.
  intros Hl. unfold checked_mul. rewrite (N.mul_comm repeats). destruct (N.leb_spec (value * repeats) u64_max) as [H|H]; cbn [ok_or].
  - rewrite bind_Ok. split.
    + intros Hb. apply bind_ok in Hb as (n & Hn & [= <-]). apply charge_total_iff in Hn as [-> ?]; done.
    + intros [-> Hle]. assert (E : charge_total total (value * repeats) limit = Ok (total + value * repeats))
        by (by apply charge_total_iff). by rewrite E.
  - split; [done|]. intros [_ ?]. lia.
Qed.

Section scanner.
Context (l : Limits) (Hfit : limits_fit l).

Lemma charge_cells_iff v t t1 :
  charge_cells l v t = Ok t1 <-> t1 = add_totals t (mkTotals v 0 0 0 0) /\ t_cells t1 <= lim_cells l.
Proof using Hfit.
  unfold charge_cells. destruct Hfit as (H & _). split.
  - intros Hb. apply bind_ok in Hb as (n & [-> ?]%charge_total_iff & [= <-]); [|done]. split; [totals|done].
  - intros [-> Hle]. cbn in Hle. rewrite (proj2 (charge_total_iff _ _ _ (t_cells t + v) H)) by done.
    rewrite bind_Ok. f_equal. totals.
Qed.

Lemma charge_actions_iff v t t1 :
  charge_actions l v t = Ok t1 <-> t1 = add_totals t (mkTotals 0 0 0 0 v) /\ t_actions t1 <= lim_actions l.
Proof using Hfit.
  unfold charge_actions. destruct Hfit as (_ & _ & _ & _ & H). split.
  - intros Hb. apply bind_ok in Hb as (n & [-> ?]%charge_total_iff & [= <-]); [|done]. split; [totals|done].
  - intros [-> Hle]. cbn in Hle. rewrite (proj2 (charge_total_iff _ _ _ (t_actions t + v) H)) by done.
    rewrite bind_Ok. f_equal. totals.
Qed.

Lemma charge_predecessors_iff v k t t1 :
  charge_predecessors l v k t = Ok t1 <->
  t1 = add_totals t (mkTotals 0 0 (k * v) 0 0) /\ t_predecessors t1 <= lim_predecessors l.
Proof using Hfit.
  destruct Hfit as (_ & _ & H & _). unfold charge_predecessors. rewrite (charge_product_iff _ _ _ _ (fun n => _)) by done.
  replace (mkTotals (t_cells t) (t_strings t) (t_predecessors t + k * v) (t_value_bytes t) (t_actions t))
    with (add_totals t (mkTotals 0 0 (k * v) 0 0)) by totals. split; intros [-> ?]; done.
Qed.

Lemma charge_value_bytes_iff v k t t1 :
  charge_value_bytes l v k t = Ok t1 <->
  t1 = add_totals t (mkTotals 0 0 0 (k * v) 0) /\ t_value_bytes t1 <= lim_value_bytes l.
Proof using Hfit.
  destruct Hfit as (_ & _ & _ & H & _). unfold charge_value_bytes. rewrite (charge_product_iff _ _ _ _ (fun n => _)) by done.
  replace (mkTotals (t_cells t) (t_strings t) (t_predecessors t) (t_value_bytes t + k * v) (t_actions t))
    with (add_totals t (mkTotals 0 0 0 (k * v) 0)) by totals. split; intros [-> ?]; done.
Qed.

Lemma charge_strings_iff v k t t1 :
  charge_strings l v k t = Ok t1 <->
  t1 = add_totals t (mkTotals 0 (k * v) 0 0 0) /\ t_strings t1 <= lim_strings l.
Proof using Hfit.
  destruct Hfit as (_ & H & _). unfold charge_strings. rewrite (charge_product_iff _ _ _ _ (fun n => _)) by done.
  replace (mkTotals (t_cells t) (t_strings t + k * v) (t_predecessors t) (t_value_bytes t) (t_actions t))
    with (add_totals t (mkTotals 0 (k * v) 0 0 0)) by totals. split; intros [-> ?]; done.
Qed.

(** A conditional charge is a charge of zero when the condition fails. *)
Lemma charge_if (b : bool) (m : result ReplError Totals) t t1 (cost : Totals) (ok : Totals -> Prop) :
  (m = Ok t1 <-> t1 = add_totals t cost /\ ok t1) ->
  (if b then m else Ok t) = Ok t1 <-> t1 = add_totals t (if b then cost else no_totals) /\ (b = true -> ok t1).
Proof using Type.
  intros Hm. destruct b; [rewrite Hm; naive_solver|]. rewrite add_totals_nil. split; [intros [= <-]; done|intros [-> _]; done].
Qed.

Definition pred_ok (t : Totals) : Prop := t_predecessors t <= lim_predecessors l.
Definition value_ok (t : Totals) : Prop := t_value_bytes t <= lim_value_bytes l.

Lemma scan_literal_iff spec k t i t' i' :
  within l t ->
  scan_literal l spec k t i = Ok (t', i') <->
  exists c, read_cell spec i = Ok (c, i') /\ t' = add_totals t (scale_totals k (cell_cost spec c)) /\ within l t'.
Proof using Hfit.
  intros [W1 W2 W3 W4 W5]. unfold scan_literal, read_cell. destruct (_ || _) eqn:E0.
  { destruct (unsigned i) as [[v i1]|e]; [|split; [done|by intros (c & ? & _)]]. rewrite !bind_Ok. cbn [fst snd].
    assert (Hcost : forall t1 t2,
      t1 = add_totals t (if spec =? 0x70 then mkTotals 0 0 (k * v) 0 0 else no_totals) ->
      t2 = add_totals t1 (if N.land spec 7 =? 6 then mkTotals 0 0 0 (k * N.shiftr v 4) 0 else no_totals) ->
      t2 = add_totals t (scale_totals k (cell_cost spec (CUnsigned v)))).
    { intros t1 t2 -> ->. cbn [cell_cost]. destruct (spec =? 0x70), (N.land spec 7 =? 6); unfold scale_totals; totals. }
    split.
    - intros H. apply bind_ok in H as (t1 & H1 & H). apply bind_ok in H as (t2 & H2 & [= <- <-]).
      destruct (proj1 (charge_if _ _ t t1 _ pred_ok (charge_predecessors_iff v k t t1)) H1) as [E1 L1].
      destruct (proj1 (charge_if _ _ t1 t2 _ value_ok (charge_value_bytes_iff (N.shiftr v 4) k t1 t2)) H2) as [E2 L2].
      clear H1 H2. unfold pred_ok, value_ok in L1, L2.
      exists (CUnsigned v). split_and!; [done|by eapply Hcost|]. clear Hcost. subst t2 t1.
      destruct (spec =? 0x70), (N.land spec 7 =? 6); cbn in *; constructor; cbn; try lia;
        try (pose proof (L1 eq_refl)); try (pose proof (L2 eq_refl)); cbn in *; lia.
    - intros (c & [= <- <-] & Et & Hw).
      set (t1 := add_totals t (if spec =? 0x70 then mkTotals 0 0 (k * v) 0 0 else no_totals)).
      set (t2 := add_totals t1 (if N.land spec 7 =? 6 then mkTotals 0 0 0 (k * N.shiftr v 4) 0 else no_totals)).
      rewrite <- (Hcost t1 t2 eq_refl eq_refl) in Et. subst t'.
      apply bind_step with t1.
      { apply (charge_if _ _ t t1 _ pred_ok (charge_predecessors_iff v k t t1)). split; [done|]. intros _.
        destruct (within_mono l t1 _ Hw); done. }
      apply bind_step with t2; [|done].
      apply (charge_if _ _ t1 t2 _ value_ok (charge_value_bytes_iff (N.shiftr v 4) k t1 t2)). split; [done|]. by destruct Hw. }
  destruct (N.land spec 7 =? 3).
  { destruct (signed i) as [[z i1]|e]; [|split; [done|by intros (c & ? & _)]]. rewrite !bind_Ok. cbn [fst snd]. split.
    - intros [= <- <-]. exists (CSigned z). split_and!; [done| |by constructor]. cbn [cell_cost]. unfold scale_totals. totals.
    - intros (c & [= <- <-] & -> & _). do 2 f_equal. cbn [cell_cost]. unfold scale_totals. totals. }
  destruct (N.land spec 7 =? 5); [|split; [done|by intros (c & ? & _)]].
  destruct (sized i) as [[b i1]|e]; [|split; [done|by intros (c & ? & _)]]. rewrite !bind_Ok. cbn [fst snd].
  assert (Ec : add_totals t (mkTotals 0 (k * len b) 0 0 0) = add_totals t (scale_totals k (cell_cost spec (CText b))))
    by (cbn [cell_cost]; unfold scale_totals; totals).
  split.
  - intros H. apply bind_ok in H as (t1 & [E1 L1]%charge_strings_iff & [= <- <-]). exists (CText b).
    rewrite <- Ec. split_and!; [done|done|]. subst t1. cbn in *. constructor; cbn; lia.
  - intros (c & [= <- <-] & -> & Hw). rewrite <- Ec in *. apply bind_step with (add_totals t (mkTotals 0 (k * len b) 0 0 0)); [|done].
    apply charge_strings_iff. split; [done|]. by destruct Hw.
Qed.

Lemma scan_literals_iff spec k n t i t' i' :
  within l t ->
  scan_literals l spec k n t i = Ok (t', i') <->
  exists cs, read_cells spec n i = Ok (cs, i') /\
    t' = add_totals t (scale_totals k (sum_totals (cell_cost spec) cs)) /\ within l t'.
Proof using Hfit.
  revert t i. induction n as [|n IH]; intros t i Hw; cbn [scan_literals read_cells].
  - split.
    + intros [= <- <-]. exists []. split_and!; [done| |done]. unfold scale_totals. cbn [sum_totals foldr]. totals.
    + intros (cs & [= <- <-] & -> & _). do 2 f_equal. unfold scale_totals. cbn [sum_totals foldr]. totals.
  - assert (Ecs : forall c cs, add_totals (add_totals t (scale_totals k (cell_cost spec c))) (scale_totals k (sum_totals (cell_cost spec) cs))
      = add_totals t (scale_totals k (sum_totals (cell_cost spec) (c :: cs)))).
    { intros c cs. cbn [sum_totals foldr]. fold (sum_totals (cell_cost spec) cs).
      generalize (sum_totals (cell_cost spec) cs) (cell_cost spec c). intros a b. unfold scale_totals. totals. }
    split.
    + intros H. apply bind_ok in H as ([t1 i1] & H1 & H). cbn [fst snd] in H.
      apply scan_literal_iff in H1 as (c & Hc & E1 & W1); [|done]. apply IH in H as (cs & Hcs & E2 & W2); [|done].
      exists (c :: cs). rewrite Hc, bind_Ok. cbn [fst snd]. rewrite Hcs, bind_Ok. split_and!; [done| |done].
      by rewrite E2, E1, Ecs.
    + intros (cs & H & Et & Ht). apply bind_ok in H as ([c i1] & Hc & H). apply bind_ok in H as ([cs' i2] & Hcs & [= <- <-]).
      cbn [fst snd] in *. rewrite <- Ecs in Et. subst t'.
      apply bind_step with (add_totals t (scale_totals k (cell_cost spec c)), i1).
      * apply scan_literal_iff; [done|]. exists c. split_and!; [done|done|]. by eapply within_mono.
      * cbn [fst snd]. apply IH; [by eapply within_mono|]. by exists cs'.
Qed.

(** ** Runs *)

Definition count_cost (spec n : N) : Totals := mkTotals n 0 0 0 (if spec =? 0x42 then n else 0).

Lemma charge_count_iff spec n t t2 :
  within l t ->
  (t ← charge_cells l n t; if spec =? 0x42 then charge_actions l n t else Ok t) = Ok t2 <->
  t2 = add_totals t (count_cost spec n) /\ within l t2.
Proof using Hfit.
  intros [W1 W2 W3 W4 W5]. unfold count_cost. split.
  - intros H. apply bind_ok in H as (t1 & [E1 L1]%charge_cells_iff & H). destruct (spec =? 0x42).
    + apply charge_actions_iff in H as [E2 L2]. subst t2 t1. cbn in *. split; [totals|constructor; cbn; lia].
    + injection H as <-. subst t1. cbn in *. split; [totals|constructor; cbn; lia].
  - intros [-> [L1 L2 L3 L4 L5]]. cbn in *. apply bind_step with (add_totals t (mkTotals n 0 0 0 0)).
    + by apply charge_cells_iff.
    + destruct (spec =? 0x42); [apply charge_actions_iff; cbn; split; [totals|lia]|f_equal; totals].
Qed.

Definition run_cost (spec : N) (r : run) : Totals := sum_totals (entry_cost spec) (expand r).

Lemma run_cost_nulls spec n : run_cost spec (Nulls n) = count_cost spec n.
Proof using Type.
  unfold run_cost. cbn [expand]. rewrite sum_totals_replicate, Nnat.N2Nat.id. unfold entry_cost, count_cost, scale_totals.
  destruct (spec =? 0x42); totals.
Qed.

Lemma run_cost_repeat spec n c :
  run_cost spec (Repeat n c) = add_totals (count_cost spec n) (scale_totals n (cell_cost spec c)).
Proof using Type.
  unfold run_cost. cbn [expand]. rewrite sum_totals_replicate, Nnat.N2Nat.id. unfold entry_cost, count_cost, scale_totals.
  destruct (spec =? 0x42); totals.
Qed.

Lemma run_cost_literal spec cs :
  run_cost spec (Literal cs) = add_totals (count_cost spec (len cs)) (sum_totals (cell_cost spec) cs).
Proof using Type.
  unfold run_cost. cbn [expand]. induction cs as [|c cs IH].
  - unfold count_cost. change (sum_totals (entry_cost spec) (Some <$> [])) with no_totals. unfold len. cbn [length sum_totals foldr].
    destruct (spec =? 0x42); totals.
  - rewrite fmap_cons. cbn [sum_totals foldr]. fold (sum_totals (entry_cost spec) (Some <$> cs)) (sum_totals (cell_cost spec) cs).
    rewrite IH. unfold entry_cost, count_cost. rewrite len_cons. destruct (spec =? 0x42); totals.
Qed.

Lemma read_cells_length spec n i cs i' : read_cells spec n i = Ok (cs, i') -> length cs = n.
Proof using Type.
  revert i cs. induction n as [|n IH]; intros i cs; cbn [read_cells]; [by intros [= <- _]|].
  intros H. apply bind_ok in H as ([c i1] & _ & H). apply bind_ok in H as ([cs' i2] & Hcs & [= <- ->]).
  cbn. f_equal. by eapply IH.
Qed.

Lemma scale_one t : scale_totals 1 t = t.
Proof using Type. unfold scale_totals. totals. Qed.

Lemma sum_totals_one {A} (f : A -> Totals) x : sum_totals f [x] = f x.
Proof using Type. cbn [sum_totals foldr]. totals. Qed.

(** The counted part and the scanned part of a run, in the order of the code. *)
Lemma scan_body_iff spec n k m t i t' i' :
  within l t ->
  (t ← (t ← charge_cells l n t; if spec =? 0x42 then charge_actions l n t else Ok t);
   scan_literals l spec k m t i) = Ok (t', i') <->
  exists cs, read_cells spec m i = Ok (cs, i') /\
    t' = add_totals t (add_totals (count_cost spec n) (scale_totals k (sum_totals (cell_cost spec) cs))) /\ within l t'.
Proof using Hfit.
  intros Hw. split.
  - intros H. apply bind_ok in H as (t2 & [E2 W2]%charge_count_iff & H); [|done].
    apply scan_literals_iff in H as (cs & Hcs & Et & Wt); [|done]. exists cs. split_and!; [done| |done].
    by rewrite Et, E2, add_totals_assoc.
  - intros (cs & Hcs & Et & Wt). rewrite add_totals_assoc in Et. subst t'. apply within_mono in Wt as W2.
    apply bind_step with (add_totals t (count_cost spec n)); [by apply charge_count_iff|].
    apply scan_literals_iff; [done|]. by exists cs.
Qed.

Lemma scan_run_iff spec t i t' i' :
  within l t ->
  scan_run l spec t i = Ok (t', i') <->
  exists r, read_run spec i = Ok (r, i') /\ t' = add_totals t (run_cost spec r) /\ within l t'.
Proof using Hfit.
  intros Hw. unfold scan_run, read_run. destruct (N.eqb_spec (N.land spec 7) 4) as [H4|H4].
  { assert (Hs : (spec =? 0x42) = false) by (apply N.eqb_neq; by intros ->).
    destruct (unsigned i) as [[n i1]|e]; [|split; [done|by intros (r & ? & _)]]. rewrite !bind_Ok. cbn [fst snd].
    pose proof (charge_count_iff spec n t) as Hc. rewrite Hs in Hc. split.
    - intros H. apply bind_ok in H as (t1 & H1 & [= <- <-]). exists (Nulls n). rewrite run_cost_nulls. split; [done|].
      apply Hc; [done|]. by rewrite H1.
    - intros (r & [= <- <-] & Ht). rewrite run_cost_nulls in Ht. apply Hc in Ht; [|done].
      apply bind_ok in Ht as (t1 & H1 & [= <-]). by rewrite H1. }
  destruct (signed i) as [[z i1]|e]; [|split; [done|by intros (r & ? & _)]]. rewrite !bind_Ok. cbn [fst snd].
  destruct (Z.eqb_spec z 0) as [->|Hz].
  { destruct (unsigned i1) as [[n i2]|e]; [|split; [done|by intros (r & ? & _)]]. rewrite !bind_Ok. cbn [fst snd].
    split.
    - intros H. exists (Nulls n). rewrite run_cost_nulls.
      assert (H' : (t ← (t ← charge_cells l n t; if spec =? 0x42 then charge_actions l n t else Ok t); Ok (t, i2)) = Ok (t', i')).
      { apply bind_ok in H as (t1 & H1 & H). by rewrite H1. }
      apply bind_ok in H' as (t2 & Hc & [= <- <-]). split; [done|]. by apply charge_count_iff.
    - intros (r & [= <- <-] & Ht). rewrite run_cost_nulls in Ht. apply charge_count_iff in Ht; [|done].
      apply bind_ok in Ht as (t1 & H1 & H2). by rewrite H1, bind_Ok, H2. }
  destruct (Z.eqb_spec z (- 2 ^ 63)) as [Hmin|Hmin]; [split; [done|by intros (r & ? & _)]|].
  cbn [ok_or]. rewrite !bind_Ok. set (n := Z.to_N (Z.abs z)).
  assert (Hassoc : forall k m, (t ← charge_cells l n t; t ← (if spec =? 0x42 then charge_actions l n t else Ok t);
      scan_literals l spec k m t i1) = (t ← (t ← charge_cells l n t; if spec =? 0x42 then charge_actions l n t else Ok t);
      scan_literals l spec k m t i1)).
  { intros k m. by destruct (charge_cells l n t). }
  destruct (Z.ltb_spec z 0) as [Hneg|Hpos]; rewrite Hassoc, scan_body_iff by done.
  - replace (N.to_nat n) with (Z.to_nat (Z.abs z)) by (unfold n; lia). setoid_rewrite scale_one.
    split.
    + intros (cs & Hcs & Ht). exists (Literal cs). rewrite run_cost_literal, Hcs, bind_Ok. split; [done|].
      apply read_cells_length in Hcs. replace (len cs) with n by (unfold len, n; lia). done.
    + intros (r & H & Ht). apply bind_ok in H as ([cs i2] & Hcs & [= <- <-]). cbn [fst snd] in *. exists cs. split; [done|].
      rewrite run_cost_literal in Ht. pose proof (read_cells_length _ _ _ _ _ Hcs). replace (len cs) with n in Ht by (unfold len, n; lia). done.
  - change (N.to_nat 1) with 1%nat. cbn [read_cells]. replace (Z.to_N z) with n by (unfold n; lia). split.
    + intros (cs & H & Ht). apply bind_ok in H as ([c i2] & Hc & H). injection H as <- <-. cbn [fst snd] in *.
      exists (Repeat n c). rewrite Hc, bind_Ok, run_cost_repeat. split; [done|]. rewrite sum_totals_one in Ht. done.
    + intros (r & H & Ht). apply bind_ok in H as ([c i2] & Hc & [= <- <-]). cbn [fst snd] in *. exists [c].
      rewrite Hc, bind_Ok. split; [done|]. by rewrite sum_totals_one, <- run_cost_repeat.
Qed.
End scanner.

(** * Progress *)

(** The cursor moved forward by at least [k], within its bytes. *)
Definition advances (k : N) (i i' : Input) : Prop :=
  in_bytes i' = in_bytes i /\ in_at i + k <= in_at i' /\ in_at i' <= len (in_bytes i).

Lemma advances_trans k m i1 i2 i3 : advances k i1 i2 -> advances m i2 i3 -> advances k i1 i3.
Proof. intros (E1 & H1 & _) (E2 & H2 & H3). unfold advances. rewrite E2, E1 in *. split_and!; [done|lia|lia]. Qed.

Lemma in_take_advances n i b i' : in_take n i = Ok (b, i') -> advances n i i'.
Proof.
  unfold in_take. intros H. apply bind_ok in H as (e & He & H). apply refuse_if_bind_ok in H as [Hl H].
  injection H as _ <-. unfold ok_or in He. destruct (checked_add _ _ _) as [e'|] eqn:E; [|done]. injection He as ->.
  apply checked_add_iff in E as [-> _]. apply N.ltb_ge in Hl. unfold advances. cbn. split_and!; [done|lia|done].
Qed.

Lemma in_byte_advances i v i' : in_byte i = Ok (v, i') -> advances 1 i i'.
Proof.
  unfold in_byte. intros H. apply bind_ok in H as ([b i1] & Hb & [= _ <-]). by eapply in_take_advances.
Qed.

Lemma unsigned_from_advances fuel k value i v i' :
  unsigned_from fuel k value i = Ok (v, i') -> advances 1 i i'.
Proof.
  revert k value i. induction fuel as [|fuel IH]; intros k value i; cbn [unsigned_from]; [done|].
  intros H. apply bind_ok in H as ([byte i1] & Hb%in_byte_advances & H). apply refuse_if_bind_ok in H as [_ H].
  cbv zeta in H. destruct (_ =? 0).
  - by injection H as _ <-.
  - apply IH in H. by eapply advances_trans.
Qed.

Lemma signed_from_advances fuel k value i v i' :
  signed_from fuel k value i = Ok (v, i') -> advances 1 i i'.
Proof.
  revert k value i. induction fuel as [|fuel IH]; intros k value i; cbn [signed_from]; [done|].
  intros H. apply bind_ok in H as ([byte i1] & Hb%in_byte_advances & H). apply refuse_if_bind_ok in H as [_ H].
  cbv zeta in H. destruct (N.land byte 128 =? 0).
  - by injection H as _ <-.
  - apply IH in H. by eapply advances_trans.
Qed.

Lemma sized_advances i b i' : sized i = Ok (b, i') -> advances 1 i i'.
Proof.
  unfold sized. intros H. apply bind_ok in H as ([n i1] & Hn%unsigned_from_advances & H%in_take_advances).
  by eapply advances_trans.
Qed.

Lemma scan_literal_advances l spec k t i t' i' :
  scan_literal l spec k t i = Ok (t', i') -> advances 1 i i'.
Proof.
  unfold scan_literal. destruct (_ || _); [|destruct (_ =? 3); [|destruct (_ =? 5); [|done]]].
  - intros H. apply bind_ok in H as ([v i1] & Hv%unsigned_from_advances & H).
    apply bind_ok in H as (t1 & _ & H). by apply bind_ok in H as (t2 & _ & [= _ <-]).
  - intros H. by apply bind_ok in H as ([v i1] & Hv%signed_from_advances & [= _ <-]).
  - intros H. apply bind_ok in H as ([b i1] & Hv%sized_advances & H). by apply bind_ok in H as (t1 & _ & [= _ <-]).
Qed.

Lemma scan_literals_advances l spec k n t i t' i' m i0 :
  advances m i0 i -> scan_literals l spec k n t i = Ok (t', i') -> advances m i0 i'.
Proof.
  revert t i. induction n as [|n IH]; intros t i Hi; cbn [scan_literals]; [by intros [= _ <-]|].
  intros H. apply bind_ok in H as ([t1 i1] & H1%scan_literal_advances & H). cbn [fst snd] in H.
  apply IH in H; [done|]. by eapply advances_trans.
Qed.

Lemma scan_run_advances l spec t i t' i' : scan_run l spec t i = Ok (t', i') -> advances 1 i i'.
Proof.
  unfold scan_run. destruct (_ =? 4).
  { intros H. apply bind_ok in H as ([v i1] & Hv%unsigned_from_advances & H). by apply bind_ok in H as (t1 & _ & [= _ <-]). }
  intros H. apply bind_ok in H as ([z i1] & Hz%signed_from_advances & H). apply bind_ok in H as ([n i2] & Hn & H).
  assert (H2 : advances 1 i i2).
  { destruct (z =? 0)%Z.
    - apply unsigned_from_advances in Hn. by eapply advances_trans.
    - by apply bind_ok in Hn as (c & _ & [= _ <-]). }
  apply bind_ok in H as (t1 & _ & H). apply bind_ok in H as (t2 & _ & H).
  destruct (z =? 0)%Z; [by injection H as _ <-|]. destruct (z <? 0)%Z; by eapply scan_literals_advances.
Qed.

Definition in_rest (i : Input) : N := len (in_bytes i) - in_at i.

Lemma scan_column_fuel fuel l spec t i :
  in_at i <= len (in_bytes i) -> in_rest i <= N.of_nat fuel -> scan_column fuel l spec t i <> None.
Proof.
  revert t i. induction fuel as [|fuel IH]; intros t i Hi Hf; cbn [scan_column];
    unfold in_rest, in_done in *; destruct (N.eqb_spec (in_at i) (len (in_bytes i))) as [E|E]; try done; [lia|].
  destruct (scan_run l spec t i) as [[t1 i1]|e] eqn:Hr; [|done].
  destruct (scan_run_advances _ _ _ _ _ _ Hr) as (Eb & H1 & H2). apply IH; rewrite Eb; lia.
Qed.

(** * The expansion is what is bounded *)

Lemma scan_column_iff l fuel spec t i t' :
  limits_fit l -> within l t -> in_at i <= len (in_bytes i) -> in_rest i <= N.of_nat fuel ->
  scan_column fuel l spec t i = Some (Ok t') <->
  exists rs, column_runs spec i rs /\ t' = add_totals t (runs_cost spec rs) /\ within l t'.
Proof.
  intros Hfit. revert t i. induction fuel as [|fuel IH]; intros t i Hw Hi Hf; cbn [scan_column].
  - assert (Hd : in_done i = true) by (unfold in_done, in_rest in *; apply N.eqb_eq; lia). rewrite Hd. split.
    + intros [= <-]. exists []. split_and!; [by constructor|unfold runs_cost; cbn; by rewrite add_totals_nil|done].
    + intros (rs & Hrs & -> & _). destruct Hrs; [|congruence]. unfold runs_cost; cbn. by rewrite add_totals_nil.
  - destruct (in_done i) eqn:Hd.
    { split.
      - intros [= <-]. exists []. split_and!; [by constructor|unfold runs_cost; cbn; by rewrite add_totals_nil|done].
      - intros (rs & Hrs & -> & _). destruct Hrs; [|congruence]. unfold runs_cost; cbn. by rewrite add_totals_nil. }
    assert (Ecost : forall r rs, add_totals (add_totals t (run_cost spec r)) (runs_cost spec rs)
        = add_totals t (runs_cost spec (r :: rs))).
    { intros r rs. unfold runs_cost. rewrite fmap_cons. cbn [concat]. rewrite sum_totals_app. by rewrite add_totals_assoc. }
    assert (Hnext : forall t1 i1, scan_run l spec t i = Ok (t1, i1) -> in_at i1 <= len (in_bytes i1) /\ in_rest i1 <= N.of_nat fuel).
    { intros t1 i1 Hr. destruct (scan_run_advances _ _ _ _ _ _ Hr) as (Eb & H1 & H2). unfold in_rest in *. rewrite Eb. lia. }
    split.
    + destruct (scan_run l spec t i) as [[t1 i1]|e] eqn:Hr; [|done]. destruct (Hnext _ _ eq_refl) as [Hi1 Hf1].
      apply scan_run_iff in Hr as (r & Hr & E1 & W1); [|done|done]. intros H.
      apply IH in H as (rs & Hrs & E2 & W2); [|done..]. exists (r :: rs). split_and!; [by econstructor| |done].
      by rewrite E2, E1, Ecost.
    + intros (rs & Hrs & Et & Wt). destruct Hrs as [|i r i1 rs _ Hr Hrs]; [congruence|]. rewrite <- Ecost in Et. subst t'.
      assert (Hs : scan_run l spec t i = Ok (add_totals t (run_cost spec r), i1)).
      { apply scan_run_iff; [done|done|]. exists r. split_and!; [done|done|by eapply within_mono]. }
      rewrite Hs. destruct (Hnext _ _ Hs). apply IH; [by eapply within_mono|done|done|]. by exists rs.
Qed.

Lemma scan_data_iff l spec data t t' :
  limits_fit l -> within l t ->
  scan_data l spec data t = Ok t' <->
  exists rs, (if N.land spec 7 =? 7 then rs = [] else column_runs spec (Input_new data) rs) /\
    t' = add_totals t (runs_cost spec rs) /\ within l t'.
Proof.
  intros Hfit Hw. unfold scan_data. destruct (N.land spec 7 =? 7).
  - split.
    + intros [= <-]. exists []. split_and!; [done|unfold runs_cost; cbn; by rewrite add_totals_nil|done].
    + intros (rs & -> & -> & _). unfold runs_cost; cbn. by rewrite add_totals_nil.
  - rewrite <- scan_column_iff with (fuel := length data); [|done|done|unfold len; cbn; lia|unfold in_rest, len; cbn; lia].
    destruct (scan_column (length data) l spec t (Input_new data)) as [r|] eqn:E.
    + change (r = Ok t' <-> Some r = Some (Ok t')). split; [by intros ->|by intros [= ->]].
    + exfalso. eapply scan_column_fuel; [| |exact E]; [unfold len; cbn; lia|unfold in_rest, len; cbn; lia].
Qed.

Lemma scan_columns_iff l columns t header t' :
  limits_fit l -> within l t ->
  scan_columns l columns t header = Ok t' <->
  exists out, change_runs columns header out /\ t' = add_totals t (change_cost out) /\ within l t'.
Proof.
  intros Hfit. revert t header. induction columns as [|[spec n] columns IH]; intros t header Hw; cbn [scan_columns].
  - split.
    + intros [= <-]. exists []. split_and!; [constructor|unfold change_cost; cbn; by rewrite add_totals_nil|done].
    + intros (out & Hout & -> & _). inversion Hout. unfold change_cost; cbn. by rewrite add_totals_nil.
  - assert (Ecost : forall rs out, add_totals (add_totals t (runs_cost spec rs)) (change_cost out)
        = add_totals t (change_cost ((spec, rs) :: out))).
    { intros rs out. unfold change_cost. cbn [sum_totals foldr fst snd]. by rewrite add_totals_assoc. }
    split.
    + intros H. apply bind_ok in H as ([data h'] & Hd & H). apply bind_ok in H as (t1 & H1 & H). cbn [fst snd] in *.
      apply scan_data_iff in H1 as (rs & Hrs & E1 & W1); [|done|done]. apply IH in H as (out & Hout & E2 & W2); [|done].
      exists ((spec, rs) :: out). split_and!; [by econstructor| |done]. by rewrite E2, E1, Ecost.
    + intros (out & Hout & Et & Wt). inversion Hout as [|? ? ? ? data h' rs out' Hd Hrs Hrest]; subst.
      rewrite <- Ecost in *. apply bind_step with (data, h'); [done|]. cbn [fst snd].
      apply bind_step with (add_totals t (runs_cost spec rs)).
      * apply scan_data_iff; [done|done|]. exists rs. split_and!; [done|done|by eapply within_mono].
      * apply IH; [by eapply within_mono|]. by exists out'.
Qed.

(** * LEB128 *)

(** The value of a base-128 sequence, least significant first. *)
Fixpoint leb_val (bs : list N) : N :=
  match bs with [] => 0 | b :: rest => b mod 128 + 128 * leb_val rest end.

(** Continuation bits: set on every byte but the last. *)
Fixpoint leb_shape (bs : list N) : bool :=
  match bs with
  | [] => false
  | [b] => b <? 128
  | b :: rest => (128 <=? b) && leb_shape rest
  end.

(** Two's complement: the sign is bit six of the last byte. *)
Definition sleb_val (bs : list N) : Z :=
  let negative := 64 <=? (default 0 (last bs)) mod 128 in
  (Z.of_N (leb_val bs) - if negative then 2 ^ Z.of_nat (7 * length bs) else 0)%Z.

(** The cursor consumed exactly [bs]. *)
Definition consumed (i i' : Input) (bs : list N) : Prop :=
  in_bytes i' = in_bytes i /\ in_at i' = in_at i + len bs /\ in_at i' <= len (in_bytes i) /\
  b2n <$> firstn (length bs) (skipn (N.to_nat (in_at i)) (in_bytes i)) = bs.

Lemma in_byte_consumed i v i' : in_byte i = Ok (v, i') -> exists b : byte, v = b2n b /\ consumed i i' [v].
Proof.
  intros H. pose proof (in_byte_advances _ _ _ H) as (Eb & _ & Hle). unfold in_byte in H.
  apply bind_ok in H as ([bs i1] & Hb & [= <- <-]). unfold in_take in Hb.
  apply bind_ok in Hb as (e & He & Hb). apply refuse_if_bind_ok in Hb as [Hl Hb]. injection Hb as <- <-.
  unfold ok_or in He. destruct (checked_add _ _ _) as [e'|] eqn:E; [|done]. injection He as ->.
  apply checked_add_iff in E as [-> _]. cbn [fst snd in_at in_bytes] in *. change (N.to_nat 1) with 1%nat.
  destruct (skipn (N.to_nat (in_at i)) (in_bytes i)) as [|b rest] eqn:Es.
  - apply (f_equal length) in Es. rewrite length_drop in Es. cbn in Es. unfold len in *. lia.
  - exists b. split; [done|]. unfold consumed. cbn [in_bytes in_at length]. rewrite Es. unfold len in *. cbn. split_and!; [done|lia|lia|done].
Qed.

Lemma consumed_cons i i1 i2 b bs : consumed i i1 [b] -> consumed i1 i2 bs -> consumed i i2 (b :: bs).
Proof.
  intros (E1 & A1 & L1 & F1) (E2 & A2 & L2 & F2). unfold consumed. rewrite E1 in *. rewrite A1 in *.
  change (len [b]) with 1 in *. rewrite len_cons. split_and!; [done|lia|done|].
  replace (N.to_nat (in_at i + 1)) with (S (N.to_nat (in_at i))) in F2 by lia. cbn [length] in F1.
  destruct (skipn (N.to_nat (in_at i)) (in_bytes i)) as [|x rest] eqn:Es; [done|].
  assert (Er : skipn (S (N.to_nat (in_at i))) (in_bytes i) = rest).
  { replace (S (N.to_nat (in_at i))) with (N.to_nat (in_at i) + 1)%nat by lia.
    by rewrite <- drop_drop, Es. }
  rewrite Er in F2. cbn [length firstn]. rewrite fmap_cons, F2. cbn in F1. congruence.
Qed.

Lemma byte_high (b : byte) : (N.land (b2n b) 128 =? 0) = (b2n b <? 128).
Proof. destruct b; reflexivity. Qed.
Lemma byte_sign (b : byte) : negb (N.land (b2n b) 64 =? 0) = (64 <=? b2n b mod 128).
Proof. destruct b; reflexivity. Qed.
Lemma land_127 n : N.land n 127 = n mod 128.
Proof. exact (N.land_ones n 7). Qed.

Lemma lor_shift a b k : a < 2 ^ k -> N.lor a (N.shiftl b k) = a + b * 2 ^ k.
Proof.
  intros Ha. rewrite N.shiftl_mul_pow2.
  assert (Hland : N.land a (b * 2 ^ k) = 0); [|by rewrite N.add_nocarry_lxor, N.lxor_lor].
  apply N.bits_inj_0. intros n. rewrite N.land_spec. destruct (N.lt_ge_cases n k) as [Hn|Hn].
  - rewrite N.mul_pow2_bits_low by done. apply andb_false_r.
  - rewrite <- (N.mod_small a (2 ^ k)) by done. rewrite N.mod_pow2_bits_high by done. done.
Qed.

Lemma leb_val_bound bs : leb_val bs < 2 ^ (7 * len bs).
Proof.
  induction bs as [|b bs IH]; [cbn; lia|]. cbn [leb_val]. rewrite len_cons.
  replace (7 * (1 + len bs)) with (7 + 7 * len bs) by lia. rewrite N.pow_add_r. change (2 ^ 7) with 128.
  pose proof (N.mod_lt b 128). lia.
Qed.

Lemma shl64_small x n : x * 2 ^ n < u64_modulus -> shl64 x n = N.shiftl x n.
Proof. intros H. unfold shl64. rewrite N.mod_small; [done|]. by rewrite N.shiftl_mul_pow2. Qed.

Lemma pow_split k : k <= 9 -> 2 ^ (7 * k) * 2 ^ (63 - 7 * k) = 2 ^ 63.
Proof. intros H. rewrite <- N.pow_add_r. f_equal. lia. Qed.

(** One byte of either loop, while its bits still fit the word. *)
Lemma leb_step k value (b : byte) :
  k <= 9 -> value < 2 ^ (7 * k) -> (k = 9 -> b2n b mod 128 <= 1) ->
  N.lor value (shl64 (N.land (b2n b) 127) (k * 7)) = value + 2 ^ (7 * k) * (b2n b mod 128) /\
  value + 2 ^ (7 * k) * (b2n b mod 128) < u64_modulus.
Proof.
  intros Hk Hv Hb. rewrite land_127. set (x := b2n b mod 128) in *. rewrite (N.mul_comm k 7).
  assert (Hfit : value + 2 ^ (7 * k) * x < u64_modulus).
  { assert (Hx : x < 128) by (apply N.mod_lt; done). destruct (N.eq_dec k 9) as [->|Hne].
    - specialize (Hb eq_refl). change (2 ^ (7 * 9)) with 9223372036854775808 in *. unfold u64_modulus, u64_max. lia.
    - assert (Hp : 2 ^ (7 * k) * 128 <= 2 ^ 63).
      { change 128 with (2 ^ 7). rewrite <- N.pow_add_r. apply N.pow_le_mono_r; lia. }
      change (2 ^ 63) with 9223372036854775808 in Hp. unfold u64_modulus, u64_max. nia. }
  split; [|done]. rewrite shl64_small by lia. rewrite lor_shift by done. lia.
Qed.

Lemma unsigned_from_spec fuel k value i v i' :
  k + N.of_nat fuel = 10 -> value < 2 ^ (7 * k) -> unsigned_from fuel k value i = Ok (v, i') ->
  exists bs, consumed i i' bs /\ leb_shape bs = true /\ v = value + 2 ^ (7 * k) * leb_val bs /\ v <= u64_max.
Proof.
  revert k value i. induction fuel as [|fuel IH]; intros k value i Hk Hv; cbn [unsigned_from]; [done|].
  intros H. apply bind_ok in H as ([byte i1] & Hb & H). apply in_byte_consumed in Hb as (b & -> & Hc).
  apply refuse_if_bind_ok in H as [H9 H].
  assert (Hb9 : k = 9 -> b2n b <= 1).
  { intros ->. cbn in H9. by apply N.ltb_ge in H9. }
  destruct (leb_step k value b) as [Ev Hfit]; [lia|done|intros E; specialize (Hb9 E); rewrite N.mod_small; lia|].
  rewrite Ev in H. cbv zeta in H. rewrite byte_high in H. destruct (N.ltb_spec (b2n b) 128) as [Hlt|Hge].
  - injection H as <- <-. exists [b2n b]. cbn [leb_val leb_shape]. split_and!; [done|by apply N.ltb_lt|lia|].
    unfold u64_modulus in Hfit. lia.
  - assert (k < 9) by (destruct (N.eq_dec k 9) as [E|E]; [specialize (Hb9 E)|]; lia).
    assert (Hp : 2 ^ (7 * (k + 1)) = 2 ^ (7 * k) * 128).
    { change 128 with (2 ^ 7). rewrite <- N.pow_add_r. f_equal. lia. }
    apply IH in H as (bs & Hbs & Hs & Hv' & Hle); [|lia|rewrite Hp; pose proof (N.mod_lt (b2n b) 128); nia].
    exists (b2n b :: bs). split_and!; [by eapply consumed_cons| |cbn [leb_val]; rewrite Hv', Hp; nia|done].
    cbn [leb_shape]. destruct bs; [done|]. by rewrite (proj2 (N.leb_le _ _)).
Qed.

Lemma consumed_len i i' bs : consumed i i' bs -> in_at i' <= len (in_bytes i').
Proof. intros (E & _ & L & _). by rewrite E. Qed.

Lemma consumed_in_byte i i' (b : byte) :
  len (in_bytes i) <= usize_max -> consumed i i' [b2n b] -> in_byte i = Ok (b2n b, i').
Proof.
  intros Hl (E & A & L & F). change (len [b2n b]) with 1 in A. unfold in_byte, in_take.
  assert (Ea : checked_add usize_max (in_at i) 1 = Some (in_at i + 1)) by (apply checked_add_iff; split; [done|lia]).
  rewrite Ea. cbn [ok_or]. rewrite bind_Ok. rewrite refuse_if_bind_false by (apply N.ltb_ge; lia). rewrite bind_Ok. cbn [fst snd].
  change (N.to_nat 1) with 1%nat. change (length [b2n b]) with 1%nat in F.
  destruct (skipn (N.to_nat (in_at i)) (in_bytes i)) as [|x rest]; [done|]. cbn in F. injection F as F.
  destruct i' as [bs' at']. cbn in *. subst. by rewrite F.
Qed.

Lemma consumed_uncons i i' b bs :
  consumed i i' (b :: bs) ->
  exists x : byte, b = b2n x /\ consumed i (mkInput (in_bytes i) (in_at i + 1)) [b] /\
    consumed (mkInput (in_bytes i) (in_at i + 1)) i' bs.
Proof.
  intros (E & A & L & F). rewrite len_cons in A.
  destruct (skipn (N.to_nat (in_at i)) (in_bytes i)) as [|x rest] eqn:Es; [done|]. cbn [length firstn] in F.
  rewrite fmap_cons in F. injection F as Fx Fr. exists x. split; [done|].
  assert (Er : skipn (N.to_nat (in_at i + 1)) (in_bytes i) = rest).
  { replace (N.to_nat (in_at i + 1)) with (N.to_nat (in_at i) + 1)%nat by lia. by rewrite <- drop_drop, Es. }
  unfold consumed. cbn [in_bytes in_at]. rewrite Es, Er. change (len [b]) with 1. cbn [length firstn]. rewrite fmap_cons, Fx.
  split_and!; try done; lia.
Qed.

Lemma leb_shape_cons b bs : leb_shape (b :: bs) = true -> bs = [] /\ b < 128 \/ bs <> [] /\ 128 <= b /\ leb_shape bs = true.
Proof.
  cbn. destruct bs as [|b' bs]; [intros H%N.ltb_lt; by left|]. intros [H1%N.leb_le H2]%andb_true_iff. by right.
Qed.

Lemma unsigned_from_complete fuel k value i i' bs :
  len (in_bytes i) <= usize_max -> k + N.of_nat fuel = 10 -> value < 2 ^ (7 * k) ->
  consumed i i' bs -> leb_shape bs = true -> (length bs <= fuel)%nat -> value + 2 ^ (7 * k) * leb_val bs <= u64_max ->
  unsigned_from fuel k value i = Ok (value + 2 ^ (7 * k) * leb_val bs, i').
Proof.
  intros Hl. revert k value i bs Hl. induction fuel as [|fuel IH]; intros k value i bs Hl Hk Hv Hc Hs Hn Hle.
  { destruct bs; [done|]. cbn in Hn. lia. }
  destruct bs as [|y bs]; [done|]. apply consumed_uncons in Hc as (b & -> & Hc1 & Hc2).
  cbn [unsigned_from]. rewrite (consumed_in_byte _ _ _ Hl Hc1), bind_Ok. cbn [leb_val] in *.
  assert (Hx : k = 9 -> b2n b <= 1 /\ bs = []).
  { intros ->. assert (fuel = 0%nat) as -> by lia. assert (bs = []) as -> by (destruct bs; [done|cbn in Hn; lia]).
    apply leb_shape_cons in Hs as [[_ Hlt]|[? _]]; [|done]. cbn [leb_val] in Hle.
    rewrite N.mod_small in Hle by done. change (2 ^ (7 * 9)) with 9223372036854775808 in *. unfold u64_max in Hle. split; [lia|done]. }
  rewrite refuse_if_bind_false.
  2:{ destruct (N.eqb_spec k 9) as [E|]; [|done]. cbn. apply N.ltb_ge. by apply Hx. }
  destruct (leb_step k value b) as [Ev _]; [lia|done|intros E; destruct (Hx E); rewrite N.mod_small; lia|].
  cbv zeta. rewrite Ev, byte_high. apply leb_shape_cons in Hs as [[-> Hlt]|(Hne & Hge & Hs)].
  - rewrite (proj2 (N.ltb_lt _ _)) by done. cbn [leb_val]. destruct Hc2 as (E & A & _ & _). destruct i' as [bs' at']. cbn in E, A.
    unfold len in A. cbn in A. subst. do 2 f_equal; [lia|f_equal; lia].
  - rewrite (proj2 (N.ltb_ge _ _)) by done.
    assert (Hp : 2 ^ (7 * (k + 1)) = 2 ^ (7 * k) * 128) by (change 128 with (2 ^ 7); rewrite <- N.pow_add_r; f_equal; lia).
    pose proof (N.mod_lt (b2n b) 128 ltac:(done)) as Hm.
    rewrite (IH _ _ _ bs); [do 2 f_equal; rewrite Hp; lia|done|lia|rewrite Hp; nia|done|done|cbn in Hn; lia|rewrite Hp; lia].
Qed.

Lemma last_default_cons (b : N) bs : bs <> [] -> default 0 (last (b :: bs)) = default 0 (last bs).
Proof. by destruct bs. Qed.

Lemma shl64_ones bits : 1 <= bits -> bits <= 63 -> shl64 u64_max bits = N.shiftl (2 ^ (64 - bits) - 1) bits.
Proof.
  intros H1 H2. unfold shl64. rewrite !N.shiftl_mul_pow2.
  assert (Hp : 2 ^ (64 - bits) * 2 ^ bits = u64_modulus) by (rewrite <- N.pow_add_r; by replace (64 - bits + bits) with 64 by lia).
  assert (0 < 2 ^ bits) by (apply N.neq_0_lt_0, N.pow_nonzero; done).
  assert (0 < 2 ^ (64 - bits)) by (apply N.neq_0_lt_0, N.pow_nonzero; done).
  assert (Hge : 2 ^ bits <= u64_modulus) by nia.
  replace (u64_max * 2 ^ bits) with ((2 ^ (64 - bits) - 1) * 2 ^ bits + (2 ^ bits - 1) * u64_modulus).
  2:{ replace u64_max with (u64_modulus - 1) by done. nia. }
  rewrite N.Div0.mod_add. apply N.mod_small. nia.
Qed.

(** The last byte of a signed read: sign extension and the cast to [i64]. *)
Lemma sign_extend k value (b : byte) :
  k <= 9 -> value < 2 ^ (7 * k) -> (k = 9 -> b2n b = 0 \/ b2n b = 127) -> b2n b < 128 ->
  let v := N.lor value (shl64 (N.land (b2n b) 127) (k * 7)) in
  let bits := (k + 1) * 7 in
  let v' := if (bits <? 64) && negb (N.land (b2n b) 64 =? 0) then N.lor v (shl64 u64_max bits) else v in
  let ext := if 64 <=? b2n b then (2 ^ Z.of_N (7 * (k + 1)))%Z else 0%Z in
  (as_i64 v' = Z.of_N (value + 2 ^ (7 * k) * b2n b) - ext)%Z /\
  (- 2 ^ 63 <= as_i64 v' < 2 ^ 63)%Z.
Proof.
  intros Hk Hv H9 Hb. cbv zeta. rewrite byte_sign, (N.mod_small (b2n b)) by done.
  destruct (N.eq_dec k 9) as [->|Hne].
  - change ((9 + 1) * 7 <? 64) with false. cbn [andb]. change (2 ^ (7 * 9)) with 9223372036854775808 in *.
    change (2 ^ Z.of_N (7 * (9 + 1)))%Z with 1180591620717411303424%Z. change (2 ^ 63)%Z with 9223372036854775808%Z.
    destruct (H9 eq_refl) as [E|E]; rewrite E; [change (64 <=? 0) with false|change (64 <=? 127) with true].
    + change (shl64 (N.land 0 127) (9 * 7)) with 0. rewrite N.lor_0_r. unfold as_i64.
      change (2 ^ 63) with 9223372036854775808. rewrite (proj2 (N.ltb_lt _ _)) by done. lia.
    + change (shl64 (N.land 127 127) (9 * 7)) with (N.shiftl 1 63). rewrite lor_shift by done. unfold as_i64.
      change (2 ^ 63) with 9223372036854775808. change (2 ^ 64)%Z with 18446744073709551616%Z.
      rewrite (proj2 (N.ltb_ge _ _)) by lia. lia.
  - destruct (leb_step k value b) as [Ev _]; [done|done|done|]. rewrite Ev, (N.mod_small (b2n b)) by done.
    rewrite (proj2 (N.ltb_lt ((k + 1) * 7) 64)) by lia. cbn [andb]. replace ((k + 1) * 7) with (7 * (k + 1)) by lia.
    assert (Hp : 2 ^ (7 * (k + 1)) = 2 ^ (7 * k) * 128) by (change 128 with (2 ^ 7); rewrite <- N.pow_add_r; f_equal; lia).
    assert (Hz : (2 ^ Z.of_N (7 * (k + 1)) = Z.of_N (2 ^ (7 * (k + 1))))%Z) by (by rewrite N2Z.inj_pow).
    assert (Hb63 : 2 ^ (7 * (k + 1)) <= 2 ^ 63) by (apply N.pow_le_mono_r; lia). rewrite Hz.
    set (P := 2 ^ (7 * k)) in *. rewrite Hp in *. clear Hp Hz.
    change (2 ^ 63) with 9223372036854775808 in *. change (2 ^ 63)%Z with 9223372036854775808%Z.
    destruct (N.leb_spec 64 (b2n b)) as [Hs|Hs].
    + rewrite shl64_ones by lia. rewrite lor_shift; [|].
      2:{ replace (2 ^ (7 * (k + 1))) with (P * 128); [nia|]. unfold P. change 128 with (2 ^ 7). rewrite <- N.pow_add_r. f_equal. lia. }
      assert (Eo : (2 ^ (64 - 7 * (k + 1)) - 1) * 2 ^ (7 * (k + 1)) = 18446744073709551616 - P * 128).
      { rewrite N.mul_sub_distr_r, <- N.pow_add_r. replace (64 - 7 * (k + 1) + 7 * (k + 1)) with 64 by lia.
        change (2 ^ 64) with 18446744073709551616. rewrite N.mul_1_l. f_equal. unfold P. change 128 with (2 ^ 7). rewrite <- N.pow_add_r. f_equal. lia. }
      rewrite Eo. unfold as_i64. change (2 ^ 63) with 9223372036854775808. change (2 ^ 64)%Z with 18446744073709551616%Z.
      rewrite (proj2 (N.ltb_ge _ _)) by nia. nia.
    + unfold as_i64. change (2 ^ 63) with 9223372036854775808. rewrite (proj2 (N.ltb_lt _ _)) by nia. nia.
Qed.

Lemma signed_from_spec fuel k value i z i' :
  k + N.of_nat fuel = 10 -> value < 2 ^ (7 * k) -> signed_from fuel k value i = Ok (z, i') ->
  exists bs, consumed i i' bs /\ leb_shape bs = true /\
    (let ext := if 64 <=? default 0 (last bs) then (2 ^ Z.of_N (7 * (k + len bs)))%Z else 0%Z in
     z = (Z.of_N (value + 2 ^ (7 * k) * leb_val bs) - ext)%Z) /\ (- 2 ^ 63 <= z < 2 ^ 63)%Z.
Proof.
  revert k value i. induction fuel as [|fuel IH]; intros k value i Hk Hv; cbn [signed_from]; [done|].
  intros H. apply bind_ok in H as ([byte i1] & Hb & H). apply in_byte_consumed in Hb as (b & -> & Hc).
  apply refuse_if_bind_ok in H as [H9 H].
  assert (Hb9 : k = 9 -> b2n b = 0 \/ b2n b = 127).
  { intros ->. cbn in H9. destruct (N.eqb_spec (b2n b) 0); [by left|]. destruct (N.eqb_spec (b2n b) 127); [by right|done]. }
  cbv zeta in H. rewrite byte_high in H. destruct (N.ltb_spec (b2n b) 128) as [Hlt|Hge].
  - injection H as <- <-. destruct (sign_extend k value b) as [Es Hr]; [lia|done|done|done|].
    exists [b2n b]. cbn [leb_shape leb_val last default]. rewrite (N.mod_small (b2n b)) by done.
    replace (b2n b + 128 * 0) with (b2n b) by lia. change (len [b2n b]) with 1.
    split_and!; [done|by apply N.ltb_lt|exact Es|apply Hr|apply Hr].
  - assert (k < 9) by (destruct (N.eq_dec k 9) as [E|E]; [destruct (Hb9 E)|]; lia).
    destruct (leb_step k value b) as [Ev _]; [lia|done|lia|]. rewrite Ev in H.
    assert (Hp : 2 ^ (7 * (k + 1)) = 2 ^ (7 * k) * 128) by (change 128 with (2 ^ 7); rewrite <- N.pow_add_r; f_equal; lia).
    pose proof (N.mod_lt (b2n b) 128 ltac:(done)) as Hm.
    apply IH in H as (bs & Hbs & Hs & Hz & Hr); [|lia|rewrite Hp; nia].
    assert (Hne : bs <> []) by (by intros ->). exists (b2n b :: bs). rewrite last_default_cons by done. cbn [leb_val]. rewrite len_cons.
    split_and!; [by eapply consumed_cons| | |apply Hr|apply Hr].
    + cbn [leb_shape]. destruct bs; [done|]. by rewrite (proj2 (N.leb_le _ _)).
    + cbv zeta in *. rewrite Hz. replace (k + 1 + len bs) with (k + (1 + len bs)) by lia. f_equal. f_equal. rewrite Hp. lia.
Qed.

Lemma leb_shape_last bs : leb_shape bs = true -> default 0 (last bs) < 128.
Proof.
  induction bs as [|b bs IH]; [done|]. intros [[-> H]|(Hne & _ & H)]%leb_shape_cons; [done|].
  rewrite last_default_cons by done. by apply IH.
Qed.

Lemma consumed_same_length i i' bs bs' : consumed i i' bs -> consumed i i' bs' -> length bs = length bs'.
Proof. intros (_ & A & _) (_ & A' & _). unfold len in *. lia. Qed.

Lemma unsigned_from_length fuel k value i v i' :
  unsigned_from fuel k value i = Ok (v, i') -> exists bs, consumed i i' bs /\ (length bs <= fuel)%nat.
Proof.
  revert k value i. induction fuel as [|fuel IH]; intros k value i; cbn [unsigned_from]; [done|].
  intros H. apply bind_ok in H as ([byte i1] & Hb & H). apply in_byte_consumed in Hb as (b & -> & Hc).
  apply refuse_if_bind_ok in H as [_ H]. cbv zeta in H. destruct (_ =? 0).
  - injection H as _ <-. exists [b2n b]. split; [done|cbn; lia].
  - apply IH in H as (bs & Hbs & Hl). exists (b2n b :: bs). split; [by eapply consumed_cons|cbn; lia].
Qed.

(** * Properties *)

(** C24: the scanner accepts exactly the changes whose full expansion is within
    budget, without expanding them. A change passes if and only if its header
    reads, its columns read into runs, and the expansion of those runs (which
    the scanner never builds) has at least one action and at most the allowed
    actions, cells, predecessors, string bytes and value bytes. *)
Theorem check_limits_exact input max_actions max_cells max_predecessors max_strings
  (Ha : max_actions <= u64_max) (Hc : max_cells <= u64_max) (Hp : max_predecessors <= u64_max)
  (Hs : max_strings <= u64_max) (Hi : len input <= u64_max) :
  check_limits input max_actions max_cells max_predecessors max_strings = Ok tt <->
  exists columns header out,
    read_header input = Ok (columns, header) /\ change_runs columns header out /\
    0 < t_actions (change_cost out) /\
    within (mkLimits max_actions max_cells max_predecessors max_strings (len input)) (change_cost out).
Proof.
  unfold check_limits. set (l := mkLimits max_actions max_cells max_predecessors max_strings (len input)).
  assert (Hfit : limits_fit l) by (unfold limits_fit, l; cbn; auto).
  assert (Hw : within l no_totals) by (constructor; cbn; lia).
  assert (E0 : forall t, add_totals no_totals t = t) by (intros; totals).
  split.
  - intros H. apply bind_ok in H as ([columns header] & Hh & H). apply bind_ok in H as (t & Ht & H). cbn [fst snd] in *.
    apply scan_columns_iff in Ht as (out & Hout & Et & Wt); [|done|done]. rewrite E0 in Et. subst t.
    apply refuse_if_ok, N.eqb_neq in H. exists columns, header, out. split_and!; [done|done|lia|done].
  - intros (columns & header & out & Hh & Hout & Hpos & Wt). apply bind_step with (columns, header); [done|]. cbn [fst snd].
    apply bind_step with (change_cost out).
    + apply scan_columns_iff; [done|done|]. exists out. by rewrite E0.
    + unfold refuse_if. by rewrite (proj2 (N.eqb_neq _ _)) by lia.
Qed.

(** The column loop terminates on every input: each iteration consumes a
    byte, so one unit of fuel per byte suffices whatever the bytes claim, and
    more fuel gives the same answer. *)
Theorem scan_terminates l spec t data :
  exists r, scan_column (length data) l spec t (Input_new data) = Some r /\
    forall extra, scan_column (length data + extra) l spec t (Input_new data) = Some r.
Proof.
  assert (Hmore : forall fuel extra t i r, scan_column fuel l spec t i = Some r -> scan_column (fuel + extra) l spec t i = Some r).
  { clear t. intros fuel extra. induction fuel as [|fuel IH]; intros t i r; cbn [scan_column Nat.add].
    - destruct (in_done i) eqn:E; [|done]. intros [= <-]. destruct extra; cbn [scan_column]; by rewrite E.
    - destruct (in_done i); [done|]. destruct (scan_run l spec t i) as [[t1 i1]|e]; [apply IH|done]. }
  destruct (scan_column (length data) l spec t (Input_new data)) as [r|] eqn:E.
  - exists r. split; [done|]. intros extra. by apply Hmore.
  - exfalso. eapply scan_column_fuel; [| |exact E]; [unfold len; cbn; lia|unfold in_rest, len; cbn; lia].
Qed.

(** Variable-length integers are read exactly, at machine width. The unsigned
    reader succeeds precisely on base-128 sequences of at most ten bytes whose
    value fits 64 bits, and returns that value; what the signed reader returns
    is the two's complement value of the bytes it consumed and fits an [i64]. *)
Theorem leb_reads_exact i (Hlen : len (in_bytes i) <= usize_max) :
  (forall v i', unsigned i = Ok (v, i') <->
     exists bs, consumed i i' bs /\ leb_shape bs = true /\ (length bs <= 10)%nat /\ v = leb_val bs /\ v <= u64_max) /\
  (forall z i', signed i = Ok (z, i') ->
     exists bs, consumed i i' bs /\ leb_shape bs = true /\ z = sleb_val bs /\ (- 2 ^ 63 <= z < 2 ^ 63)%Z).
Proof.
  split.
  - intros v i'. split.
    + intros H. pose proof (unsigned_from_length 10 0 0 i v i' H) as (bs' & Hbs' & Hl).
      apply unsigned_from_spec in H as (bs & Hbs & Hsh & -> & Hle); [|done|done]. exists bs.
      rewrite N.mul_0_r, N.pow_0_r in *. rewrite N.mul_1_l, N.add_0_l in *. split_and!; try done.
      pose proof (consumed_same_length _ _ _ _ Hbs Hbs'). lia.
    + intros (bs & Hbs & Hsh & Hl & -> & Hle). unfold unsigned.
      rewrite (unsigned_from_complete 10 0 0 i i' bs); try done; [f_equal; f_equal; lia|].
      rewrite N.mul_0_r, N.pow_0_r. lia.
  - intros z i' H. apply signed_from_spec in H as (bs & Hbs & Hsh & Hz & Hr); [|done|done]. exists bs.
    split_and!; [done|done| |apply Hr|apply Hr]. rewrite Hz. unfold sleb_val. cbv zeta.
    assert (Hlast : default 0 (last bs) mod 128 = default 0 (last bs)) by (by apply N.mod_small, leb_shape_last). rewrite Hlast.
    rewrite N.mul_0_r, N.pow_0_r, N.mul_1_l, !N.add_0_l. unfold len. by replace (Z.of_N (7 * N.of_nat (length bs))) with (Z.of_nat (7 * length bs)) by lia.
Qed.

(** * Concrete changes *)

(** A kind-1 chunk with the given columns, with a specification and
    a length below 128. *)
Definition toy_change (columns : list (N * list N)) : bytes :=
  let payload := [0; 32] ++ repeat 1 32 ++ [1; 1; 0; 0; 0; len columns]
    ++ concat ((fun c => [c.1; len c.2]) <$> columns)
    ++ concat (snd <$> columns) in
  n2b <$> [0x85; 0x6f; 0x4a; 0x83; 0; 0; 0; 0; 1; len payload] ++ payload.

(** Seven repeated actions pass a limit of seven, eight do not; a run of a
    thousand million cells is refused from six bytes. *)
Lemma toy_changes_checked :
  change_check (toy_change [(0x42, [7; 1])]) 7 = Ok tt /\
  change_check (toy_change [(0x42, [8; 1])]) 7 = Err EpochBound /\
  change_check (toy_change [(0x42, [0x80; 0x80; 0x80; 0x80; 0x08; 1])]) MAX_ACTIONS = Err EpochBound /\
  change_check (toy_change [(0x15, [1; 5; 104])]) 7 = Err Malformed.
Proof. vm_compute. done. Qed.

Lemma check_limits_exact_witness :
  exists columns header out,
    read_header (toy_change [(0x42, [7; 1])]) = Ok (columns, header) /\ change_runs columns header out /\
    0 < t_actions (change_cost out).
Proof.
  destruct (proj1 (check_limits_exact (toy_change [(0x42, [7; 1])]) 7 MAX_CELLS MAX_PREDECESSORS MAX_EXPANDED_STRINGS
    ltac:(vm_compute; discriminate) ltac:(vm_compute; discriminate) ltac:(vm_compute; discriminate)
    ltac:(vm_compute; discriminate) ltac:(vm_compute; discriminate)) (proj1 toy_changes_checked))
    as (columns & header & out & H1 & H2 & H3 & _).
  exists columns, header, out. split; [exact H1|split; [exact H2|exact H3]].
Defined.

Lemma leb_reads_exact_witness :
  exists bs, consumed (Input_new [n2b 0xe5; n2b 0x8e; n2b 0x26]) (mkInput [n2b 0xe5; n2b 0x8e; n2b 0x26] 3) bs /\
    leb_shape bs = true /\ (length bs <= 10)%nat /\ 624485 = leb_val bs /\ 624485 <= u64_max.
Proof.
  apply (proj1 (leb_reads_exact (Input_new [n2b 0xe5; n2b 0x8e; n2b 0x26]) ltac:(vm_compute; discriminate))).
  vm_compute. reflexivity.
Defined.
