(* ===== verification/Reconnect.v ===== *)
(** Restart hints of [crates/catcoms-discovery/src/reconnect.rs]: which locally
    proven routes are kept for the next launch. A route is a peer identity and a
    multiaddr string (its UTF-8 bytes); input order is priority. *)

From S2P Require Import Prelude Wire Codec.
From stdpp Require Import base list.
From Stdlib Require Import Init.Byte.
Local Open Scope N_scope.

Definition MAX_PEER_DIAL_BATCH : N := 2.
Definition MAX_CONNECTED_PEER_SNAPSHOT : N := 320.
Definition MAX_RECONNECT_PEERS : N := 8.
Definition MAX_RECONNECT_ROUTES_PER_PEER : N := MAX_PEER_DIAL_BATCH.
Definition MAX_RECONNECT_RETAINED_ROUTES : N := MAX_RECONNECT_PEERS * MAX_RECONNECT_ROUTES_PER_PEER.
Definition MAX_RECONNECT_ROUTE_BYTES : N := 512.
Definition RECONNECT_ROUTE_WIRE_OVERHEAD : N := 4 + 32 + 4.
Definition MAX_RECONNECT_SERIALIZED_ROUTE_BYTES : N := 8 * 1024.
Definition MAX_RECONNECT_ROUTE_CANDIDATES : N :=
  MAX_CONNECTED_PEER_SNAPSHOT * MAX_PEER_DIAL_BATCH + MAX_RECONNECT_RETAINED_ROUTES.

Definition Route : Type := bytes * bytes.

(** A route kept under its peer, if there is room and it is new. *)
Definition keep_route (address : bytes) (routes : list bytes) : list bytes :=
  if (len routes <? MAX_RECONNECT_ROUTES_PER_PEER) && negb (bool_decide (address ∈ routes))
  then routes ++ [address] else routes.

(** The entry of the peer, or a new one at the end while the limit allows. *)
Fixpoint keep_peer (room : N) (peer address : bytes) (peers : list (bytes * list bytes))
    : list (bytes * list bytes) :=
  match peers with
  | [] => if 0 <? room then [(peer, keep_route address [])] else []
  | (p, routes) :: rest =>
      if bool_decide (p = peer) then (p, keep_route address routes) :: rest
      else (p, routes) :: keep_peer (room - 1) peer address rest
  end.

Definition group_route (limit : N) (peers : list (bytes * list bytes)) (route : Route)
    : list (bytes * list bytes) :=
  if MAX_RECONNECT_ROUTE_BYTES <? len route.2 then peers
  else keep_peer limit route.1 route.2 peers.

Definition group_routes (limit : N) (routes : list Route) : list (bytes * list bytes) :=
  fold_left (group_route limit) routes [].

(** The routes at one redundancy level, peer by peer. *)
Definition routes_at (peers : list (bytes * list bytes)) (route_index : nat) : list Route :=
  omap (fun p => (fun address => (p.1, address)) <$> p.2 !! route_index) peers.

Definition route_len (r : Route) : N := RECONNECT_ROUTE_WIRE_OVERHEAD + len r.2.

(** Keeps every route that still fits the byte budget. *)
Fixpoint fit_routes (used : N) (routes : list Route) : list Route :=
  match routes with
  | [] => []
  | r :: rest =>
      if used + route_len r <=? MAX_RECONNECT_SERIALIZED_ROUTE_BYTES
      then r :: fit_routes (used + route_len r) rest
      else fit_routes used rest
  end.

Definition retain_reconnect_routes (routes : list Route) (peer_limit : N) : list Route :=
  let limit := N.min peer_limit MAX_RECONNECT_PEERS in
  let peers := group_routes limit (take (N.to_nat MAX_RECONNECT_ROUTE_CANDIDATES) routes) in
  fit_routes 1 (concat (routes_at peers <$> seq 0 (N.to_nat MAX_RECONNECT_ROUTES_PER_PEER))).

(** * Lemmas *)

(** A peer with its first route and, perhaps, a second one. *)
Definition Entry : Type := bytes * (bytes * option bytes).
Definition entry_peers (t : list Entry) : list (bytes * list bytes) :=
  (fun e => (e.1, e.2.1 :: option_list e.2.2)) <$> t.
Definition firsts (t : list Entry) : list Route := (fun e => (e.1, e.2.1)) <$> t.
Definition seconds (t : list Entry) : list Route := omap (fun e => (fun a => (e.1, a)) <$> e.2.2) t.

Record entries_ok (limit : N) (t : list Entry) : Prop := mkEntriesOk {
  en_nodup : NoDup t.*1;
  en_limit : len t <= limit;
  en_bytes : Forall (fun e => len e.2.1 <= MAX_RECONNECT_ROUTE_BYTES /\
    opt_ok (fun a => len a <= MAX_RECONNECT_ROUTE_BYTES /\ a <> e.2.1) e.2.2) t
}.

Lemma entry_routes t :
  concat (routes_at (entry_peers t) <$> seq 0 (N.to_nat MAX_RECONNECT_ROUTES_PER_PEER))
  = firsts t ++ seconds t.
Proof.
  change (concat (routes_at (entry_peers t) <$> [0%nat; 1%nat]) = firsts t ++ seconds t).
  transitivity (routes_at (entry_peers t) 0 ++ routes_at (entry_peers t) 1 ++ []); [done|].
  rewrite app_nil_r. unfold routes_at, entry_peers, firsts, seconds. f_equal.
  - induction t as [|[p [a ob]] t IH]; [done|]. simpl. f_equal. exact IH.
  - induction t as [|[p [a [b|]]] t IH]; [done| |exact IH]. simpl. f_equal. exact IH.
Qed.

Lemma keep_peer_entries room peer address t :
  exists t', keep_peer room peer address (entry_peers t) = entry_peers t' /\
    ((t'.*1) = (t.*1) \/ ((peer ∉ t.*1) /\ (t'.*1) = (t.*1) ++ [peer])) /\ len t' <= N.max (len t) room /\
    (forall P : Entry -> Prop, Forall P t ->
       P (peer, (address, None)) ->
       (forall a, P (peer, (a, None)) -> a <> address -> P (peer, (a, Some address))) -> Forall P t').
Proof.
  revert room. induction t as [|[p [a ob]] t IH]; intros room; cbn [entry_peers fmap list_fmap keep_peer].
  - destruct (N.ltb_spec 0 room).
    + exists [(peer, (address, None))]. split_and!; [done|right; split; [apply not_elem_of_nil|done]|unfold len in *; cbn; lia|].
      intros P _ H1 _. by constructor.
    + exists []. split_and!; [done|by left|unfold len; cbn; lia|done].
  - case_bool_decide as Hp; cbn [fst snd] in *.
    + subst p. exists ((peer, (a, match ob with
        | Some b => Some b
        | None => if bool_decide (address = a) then None else Some address
        end)) :: t). split_and!.
      * cbn. f_equal. f_equal. unfold keep_route. destruct ob as [b|]; cbn; [done|].
        case_bool_decide as Hin; [|case_bool_decide; [subst; exfalso; apply Hin, list_elem_of_here|done]].
        apply list_elem_of_singleton in Hin as ->. by rewrite bool_decide_eq_true_2.
      * by left.
      * unfold len in *; cbn; lia.
      * intros P HP H1 H2. inversion_clear HP. constructor; [|done]. destruct ob; [done|].
        case_bool_decide; [done|]. by apply H2.
    + destruct (IH (room - 1)) as (t' & E & Hk & Hl & HF). exists ((p, (a, ob)) :: t'). split_and!.
      * simpl. f_equal. exact E.
      * destruct Hk as [Hk|[Hn Hk]]; [left; cbn; by rewrite Hk|right; cbn; rewrite Hk].
        split; [|done]. rewrite elem_of_cons. naive_solver.
      * unfold len in *; cbn. lia.
      * intros P HP H1 H2. inversion_clear HP. constructor; [done|]. by apply HF.
Qed.

Lemma group_routes_entries limit routes :
  exists t, group_routes limit routes = entry_peers t /\ entries_ok limit t /\
    Forall (fun e => (e.1, e.2.1) ∈ routes /\ opt_ok (fun a => (e.1, a) ∈ routes) e.2.2) t.
Proof.
  unfold group_routes. rewrite <- (rev_involutive routes). generalize (rev routes) as l. clear routes.
  induction l as [|[peer address] l (t & E & [H1 H2 H3] & H4)].
  { exists []. split_and!; [done| |done]. constructor; [apply NoDup_nil_2|unfold len; cbn; lia|done]. }
  cbn [rev]. rewrite fold_left_app, E. cbn [fold_left]. unfold group_route. cbn [fst snd].
  assert (Hmono : forall r, r ∈ rev l -> r ∈ rev l ++ [(peer, address)])
    by (intros r Hr; apply elem_of_app; by left).
  destruct (N.ltb_spec MAX_RECONNECT_ROUTE_BYTES (len address)) as [Hb|Hb].
  { exists t. split_and!; [done|done|]. eapply Forall_impl; [exact H4|]. intros [p [a [b|]]]; cbn; naive_solver. }
  destruct (keep_peer_entries limit peer address t) as (t' & E' & Hk & Hl & HF).
  exists t'. split_and!; [done|constructor|].
  - destruct Hk as [->|[Hn ->]]; [done|]. apply NoDup_app. split_and!; [done| |apply NoDup_singleton].
    intros x Hx ->%list_elem_of_singleton. done.
  - lia.
  - apply HF; [done|by split|]. intros a [Ha _] Hne. split; [done|]. cbn. auto.
  - apply HF.
    + eapply Forall_impl; [exact H4|]. intros [p [a [b|]]]; cbn; naive_solver.
    + split; [|done]. cbn. apply elem_of_app. right. apply list_elem_of_here.
    + intros a [Ha _] _. split; [done|]. cbn. apply elem_of_app. right. apply list_elem_of_here.
Qed.

Lemma fit_routes_sub used rs : sublist (fit_routes used rs) rs.
Proof.
  revert used. induction rs as [|r rs IH]; intros used; cbn; [constructor|].
  destruct (_ <=? _); by constructor.
Qed.

Definition routes_len (rs : list Route) : N := sum_of route_len rs.

Lemma fit_routes_len used rs :
  used <= MAX_RECONNECT_SERIALIZED_ROUTE_BYTES ->
  used + routes_len (fit_routes used rs) <= MAX_RECONNECT_SERIALIZED_ROUTE_BYTES.
Proof.
  unfold routes_len. revert used. induction rs as [|r rs IH]; intros used Hu; cbn; [lia|].
  destruct (N.leb_spec (used + route_len r) MAX_RECONNECT_SERIALIZED_ROUTE_BYTES) as [H|]; [|auto].
  cbn. specialize (IH _ H). lia.
Qed.

Lemma fit_routes_all used rs k :
  used + routes_len rs <= MAX_RECONNECT_SERIALIZED_ROUTE_BYTES ->
  fit_routes used (rs ++ k) = rs ++ fit_routes (used + routes_len rs) k.
Proof.
  unfold routes_len. revert used. induction rs as [|r rs IH]; intros used H; cbn in *; [by rewrite N.add_0_r|].
  rewrite (proj2 (N.leb_le _ _)) by lia. rewrite IH by lia. by rewrite N.add_assoc.
Qed.

Lemma fit_routes_twice used rs : fit_routes used (fit_routes used rs) = fit_routes used rs.
Proof.
  revert used. induction rs as [|r rs IH]; intros used; [done|]. cbn.
  destruct (_ <=? _) eqn:E; [|done]. cbn. rewrite E. by rewrite IH.
Qed.

(** Dropping some second routes. *)
Definition trimmed (t t' : list Entry) : Prop :=
  Forall2 (fun e e' => e'.1 = e.1 /\ e'.2.1 = e.2.1 /\ (e'.2.2 = e.2.2 \/ e'.2.2 = None)) t t'.

Lemma fit_seconds used t : exists t', trimmed t t' /\ fit_routes used (seconds t) = seconds t'.
Proof.
  revert used. induction t as [|[p [a ob]] t IH]; intros used; [by exists []; split; [constructor|]|].
  destruct ob as [b|].
  - unfold seconds in *. simpl. destruct (_ <=? _).
    + destruct (IH (used + route_len (p, b))) as (t' & Ht & E). exists ((p, (a, Some b)) :: t').
      split; [constructor; [by auto|done]|]. simpl. f_equal. exact E.
    + destruct (IH used) as (t' & Ht & E). exists ((p, (a, None)) :: t').
      split; [constructor; [by auto|done]|]. exact E.
  - destruct (IH used) as (t' & Ht & E). exists ((p, (a, None)) :: t').
    split; [constructor; [by auto|done]|]. exact E.
Qed.

Lemma trimmed_ok limit t t' : trimmed t t' -> entries_ok limit t -> entries_ok limit t' /\ firsts t' = firsts t.
Proof.
  intros Ht [H1 H2 H3].
  assert (E1 : (t'.*1) = (t.*1) /\ firsts t' = firsts t).
  { clear H1 H2 H3. induction Ht as [|[p [a ob]] [p' [a' ob']] t t' (E1 & E2 & _) _ [IH1 IH2]]; [done|].
    cbn in *. subst. unfold firsts in *. split; simpl; f_equal; done. }
  destruct E1 as [E1 E2]. split; [|done]. constructor.
  - by rewrite E1.
  - pose proof (Forall2_length _ _ _ Ht) as El. unfold len, Entry in *. rewrite <- El. exact H2.
  - clear H1 H2 E1 E2. induction Ht as [|[p [a ob]] [p' [a' ob']] t t' (E1 & E2 & E3) _ IH]; [done|].
    inversion_clear H3 as [|? ? [Ha Hb] Hr]. constructor; [|auto]. cbn in *. subst.
    split; [done|]. destruct E3 as [->| ->]; done.
Qed.

Lemma firsts_fit limit t :
  entries_ok limit t -> limit <= MAX_RECONNECT_PEERS ->
  1 + routes_len (firsts t) <= MAX_RECONNECT_SERIALIZED_ROUTE_BYTES.
Proof.
  intros [_ Hl Hb] Hle. unfold routes_len.
  assert (Hs : sum_of route_len (firsts t) <= 552 * len (firsts t)).
  { apply sum_of_bound. unfold firsts. apply Forall_fmap. eapply Forall_impl; [exact Hb|].
    intros e [He _]. unfold route_len, RECONNECT_ROUTE_WIRE_OVERHEAD. cbn. unfold MAX_RECONNECT_ROUTE_BYTES in He. lia. }
  assert (len (firsts t) = len t) by (unfold firsts, len; by rewrite length_fmap).
  unfold MAX_RECONNECT_SERIALIZED_ROUTE_BYTES, MAX_RECONNECT_PEERS in *. lia.
Qed.

(** What is kept: the first routes of the grouped peers, then some second ones. *)
Lemma retain_shape routes peer_limit :
  exists t, entries_ok (N.min peer_limit MAX_RECONNECT_PEERS) t /\
    retain_reconnect_routes routes peer_limit = firsts t ++ seconds t /\
    1 + routes_len (firsts t ++ seconds t) <= MAX_RECONNECT_SERIALIZED_ROUTE_BYTES /\
    Forall (fun r => r ∈ routes) (firsts t ++ seconds t) /\
    (exists t0, group_routes (N.min peer_limit MAX_RECONNECT_PEERS)
                  (take (N.to_nat MAX_RECONNECT_ROUTE_CANDIDATES) routes) = entry_peers t0 /\
                firsts t0 = firsts t /\ fit_routes (1 + routes_len (firsts t)) (seconds t0) = seconds t).
Proof.
  unfold retain_reconnect_routes. set (limit := N.min peer_limit MAX_RECONNECT_PEERS).
  destruct (group_routes_entries limit (take (N.to_nat MAX_RECONNECT_ROUTE_CANDIDATES) routes)) as (t & E & Hok & Hin).
  rewrite E, entry_routes. pose proof (firsts_fit limit t Hok ltac:(unfold limit; lia)) as Hfit.
  rewrite fit_routes_all by done.
  destruct (fit_seconds (1 + routes_len (firsts t)) t) as (t' & Ht & Es).
  destruct (trimmed_ok limit t t' Ht Hok) as [Hok' Ef]. exists t'. rewrite Ef, Es. split_and!; try done.
  - pose proof (fit_routes_len _ (seconds t) Hfit) as Hl. rewrite Es in Hl.
    unfold routes_len in *. rewrite sum_of_app. lia.
  - rewrite <- Es. apply Forall_app. split.
    + unfold firsts. apply Forall_fmap. eapply Forall_impl; [exact Hin|]. intros e [He _]. cbn.
      by apply elem_of_take in He as (? & ?%list_elem_of_lookup_2 & _).
    + apply Forall_forall. intros r Hr. apply (sublist_subseteq _ _ (fit_routes_sub _ _)) in Hr.
      unfold seconds in Hr. apply list_elem_of_omap in Hr as (e & He & Hr).
      rewrite Forall_forall in Hin. destruct (Hin e He) as [_ Ho]. destruct e as [p [a [b|]]]; cbn in *; [|done].
      injection Hr as <-. by apply elem_of_take in Ho as (? & ?%list_elem_of_lookup_2 & _).
  - by exists t.
Qed.

Lemma keep_peer_new room peer address l :
  peer ∉ (l.*1) -> len l < room -> keep_peer room peer address l = l ++ [(peer, keep_route address [])].
Proof.
  revert room. induction l as [|[p rs] l IH]; intros room Hn Hl; cbn [keep_peer app].
  - by rewrite (proj2 (N.ltb_lt _ _)).
  - rewrite fmap_cons, not_elem_of_cons in Hn. destruct Hn as [Hne Hn]. cbn in Hne.
    rewrite bool_decide_eq_false_2 by congruence. rewrite IH; [done|done|unfold len in *; cbn in *; lia].
Qed.

Lemma keep_peer_old room peer address l1 rs l2 :
  peer ∉ (l1.*1) ->
  keep_peer room peer address (l1 ++ (peer, rs) :: l2) = l1 ++ (peer, keep_route address rs) :: l2.
Proof.
  revert room. induction l1 as [|[p qs] l1 IH]; intros room Hn; cbn [keep_peer app].
  - by rewrite bool_decide_eq_true_2.
  - rewrite fmap_cons, not_elem_of_cons in Hn. destruct Hn as [Hne Hn]. cbn in Hne.
    rewrite bool_decide_eq_false_2 by congruence. by rewrite IH.
Qed.

Definition first_only (t : list Entry) : list (bytes * list bytes) := (fun e => (e.1, [e.2.1])) <$> t.

Lemma first_only_keys t : (first_only t).*1 = t.*1.
Proof. unfold first_only. rewrite <- list_fmap_compose. by apply list_fmap_ext. Qed.
Lemma entry_peers_keys t : (entry_peers t).*1 = t.*1.
Proof. unfold entry_peers. rewrite <- list_fmap_compose. by apply list_fmap_ext. Qed.

Lemma group_firsts limit t1 t2 :
  NoDup ((t1 ++ t2).*1) -> len (t1 ++ t2) <= limit ->
  Forall (fun e => len e.2.1 <= MAX_RECONNECT_ROUTE_BYTES) t2 ->
  fold_left (group_route limit) (firsts t2) (first_only t1) = first_only (t1 ++ t2).
Proof.
  revert t1. induction t2 as [|[p [a ob]] t2 IH]; intros t1 Hn Hl HF; [by rewrite app_nil_r|].
  inversion_clear HF as [|? ? Ha HF']. cbn [fst snd] in Ha. unfold firsts; simpl. unfold group_route at 2. cbn [fst snd].
  rewrite (proj2 (N.ltb_ge _ _)) by done.
  assert (Hp : p ∉ (t1.*1)).
  { rewrite fmap_app, NoDup_app in Hn. destruct Hn as (_ & Hn & _). intros Hx. apply (Hn p Hx). apply list_elem_of_here. }
  rewrite keep_peer_new; [|by rewrite first_only_keys|].
  2:{ unfold first_only, len in *. rewrite length_fmap. rewrite length_app in Hl. cbn in Hl. lia. }
  replace (first_only t1 ++ [(p, keep_route a [])]) with (first_only (t1 ++ [(p, (a, ob))]))
    by (unfold first_only; by rewrite fmap_app).
  rewrite (cons_middle _ t1 t2), app_assoc in Hn, Hl |- *. apply IH; done.
Qed.

Lemma group_seconds limit t1 t2 :
  NoDup ((t1 ++ t2).*1) ->
  Forall (fun e => opt_ok (fun a => len a <= MAX_RECONNECT_ROUTE_BYTES /\ a <> e.2.1) e.2.2) t2 ->
  fold_left (group_route limit) (seconds t2) (entry_peers t1 ++ first_only t2) = entry_peers (t1 ++ t2).
Proof.
  revert t1. induction t2 as [|[p [a ob]] t2 IH]; intros t1 Hn HF; [by rewrite !app_nil_r|].
  inversion_clear HF as [|? ? Ha HF']. cbn [fst snd] in Ha.
  assert (Hp : p ∉ (t1.*1)).
  { rewrite fmap_app, NoDup_app in Hn. destruct Hn as (_ & Hn & _). intros Hx. apply (Hn p Hx). apply list_elem_of_here. }
  assert (Hstep : fold_left (group_route limit) (seconds t2) (entry_peers (t1 ++ [(p, (a, ob))]) ++ first_only t2)
    = entry_peers ((t1 ++ [(p, (a, ob))]) ++ t2)).
  { apply IH; [|done]. by rewrite <- app_assoc. }
  rewrite <- app_assoc in Hstep. cbn [app] in Hstep. rewrite <- Hstep.
  unfold entry_peers at 2. rewrite fmap_app, <- app_assoc. destruct ob as [b|]; [|done].
  destruct Ha as [Hb Hne]. unfold seconds; simpl. unfold group_route at 2. cbn [fst snd].
  rewrite (proj2 (N.ltb_ge _ _)) by done. unfold first_only at 1. simpl.
  rewrite keep_peer_old by (by rewrite entry_peers_keys). f_equal. f_equal. f_equal. f_equal.
  unfold keep_route. cbn. rewrite bool_decide_eq_false_2; [done|]. by intros ->%list_elem_of_singleton.
Qed.

Lemma group_entries limit t :
  entries_ok limit t -> group_routes limit (firsts t ++ seconds t) = entry_peers t.
Proof.
  intros [H1 H2 H3]. unfold group_routes. rewrite fold_left_app.
  pose proof (group_firsts limit [] t H1 H2) as Hf. cbn [app first_only fmap list_fmap] in Hf. rewrite Hf.
  - apply (group_seconds limit [] t H1). eapply Forall_impl; [exact H3|]. by intros e [_ ?].
  - eapply Forall_impl; [exact H3|]. by intros e [? _].
Qed.

Lemma seconds_len t : (length (seconds t) <= length t)%nat.
Proof. unfold seconds. induction t as [|[p [a [b|]]] t IH]; [done|apply le_n_S, IH|apply le_S, IH]. Qed.

Lemma firsts_keys t : ((firsts t).*1) = (t.*1).
Proof. unfold firsts. rewrite <- list_fmap_compose. by apply list_fmap_ext. Qed.

Lemma seconds_keys t : sublist ((seconds t).*1) (t.*1).
Proof. unfold seconds. induction t as [|[p [a [b|]]] t IH]; simpl; by constructor. Qed.

Lemma elem_firsts t r : r ∈ firsts t <-> exists ob, (r.1, (r.2, ob)) ∈ t.
Proof.
  unfold firsts. rewrite list_elem_of_fmap. split.
  - intros ([p [a ob]] & -> & H). by exists ob.
  - intros [ob H]. exists (r.1, (r.2, ob)). by destruct r.
Qed.

Lemma elem_seconds t r : r ∈ seconds t <-> exists a, (r.1, (a, Some r.2)) ∈ t.
Proof.
  unfold seconds. rewrite list_elem_of_omap. split.
  - intros ([p [a [b|]]] & H & E); cbn in E; [|done]. injection E as <-. by exists a.
  - intros [a H]. exists (r.1, (a, Some r.2)). by destruct r.
Qed.

Lemma NoDup_keys {A B} (l : list (A * B)) : NoDup (l.*1) -> NoDup l.
Proof. apply NoDup_fmap_1. Qed.

Lemma entries_key limit t e e' : entries_ok limit t -> e ∈ t -> e' ∈ t -> e.1 = e'.1 -> e = e'.
Proof.
  intros [Hn _ _] He He' Hk. destruct e as [k v], e' as [k' v']; cbn in Hk; subst k'.
  apply list_elem_of_lookup in He as [i Hi], He' as [j Hj].
  assert (i = j) as -> by (eapply (NoDup_lookup (t.*1)); [done|rewrite list_lookup_fmap, Hi; done|rewrite list_lookup_fmap, Hj; done]).
  congruence.
Qed.

Lemma kept_nodup limit t : entries_ok limit t -> NoDup (firsts t ++ seconds t).
Proof.
  intros Hok. pose proof Hok as [Hn _ Hb]. apply NoDup_app. split_and!.
  - apply NoDup_keys. by rewrite firsts_keys.
  - intros r [ob H1]%elem_firsts [a H2]%elem_seconds.
    pose proof (entries_key _ _ _ _ Hok H1 H2 eq_refl) as [= Ea _]. rewrite Forall_forall in Hb.
    destruct (Hb _ H2) as [_ [_ Hne]]. cbn in Hne. congruence.
  - apply NoDup_keys. eapply sublist_NoDup; [exact Hn|]. apply seconds_keys.
Qed.

(** * Properties *)

(** Restart hints are bounded in every dimension and diverse first. Of any
    candidate list, what is kept is drawn from it, fits the serialized byte cap
    with its count byte, names at most the allowed peers (never more than eight)
    with at most two distinct routes each, and lists one route of every kept
    peer, in priority order, before any second route; no peer's only route is
    ever dropped for another's redundancy. *)
Theorem reconnect_bounded routes peer_limit :
  let kept := retain_reconnect_routes routes peer_limit in
  (forall r, r ∈ kept -> r ∈ routes /\ len r.2 <= MAX_RECONNECT_ROUTE_BYTES) /\
  1 + routes_len kept <= MAX_RECONNECT_SERIALIZED_ROUTE_BYTES /\ NoDup kept /\
  exists peers extra, kept = peers ++ extra /\ NoDup (peers.*1) /\ NoDup (extra.*1) /\
    len peers <= N.min peer_limit MAX_RECONNECT_PEERS /\
    (forall p, p ∈ (extra.*1) -> p ∈ (peers.*1)) /\
    peers.*1 = (group_routes (N.min peer_limit MAX_RECONNECT_PEERS)
                 (take (N.to_nat MAX_RECONNECT_ROUTE_CANDIDATES) routes)).*1.
Proof.
  destruct (retain_shape routes peer_limit) as (t & Hok & -> & Hlen & Hin & t0 & E0 & Ef & _).
  pose proof Hok as [Hn Hl Hb]. rewrite Forall_forall in Hb.
  pose proof (proj1 (Forall_forall _ _) Hin) as Hin'. cbv zeta. split_and!.
  - intros r Hr. split; [by apply Hin'|]. apply elem_of_app in Hr as [[ob Hr]%elem_firsts|[a Hr]%elem_seconds].
    + by destruct (Hb _ Hr).
    + by destruct (Hb _ Hr) as [_ [? _]].
  - done.
  - by eapply kept_nodup.
  - exists (firsts t), (seconds t). rewrite firsts_keys, E0, entry_peers_keys, <- (firsts_keys t0), Ef, firsts_keys.
    split_and!; try done.
    + eapply sublist_NoDup; [exact Hn|]. apply seconds_keys.
    + unfold len in *. unfold firsts. by rewrite length_fmap.
    + intros p Hp. by apply (sublist_subseteq _ _ (seconds_keys t)).
Qed.

(** The retention policy is idempotent, so the hints an encoder kept are
    exactly the hints a later launch keeps when it applies the same policy. *)
Theorem reconnect_idempotent routes peer_limit :
  retain_reconnect_routes (retain_reconnect_routes routes peer_limit) peer_limit
  = retain_reconnect_routes routes peer_limit.
Proof.
  destruct (retain_shape routes peer_limit) as (t & Hok & -> & Hlen & _).
  unfold retain_reconnect_routes. rewrite take_ge.
  2:{ rewrite length_app. pose proof (seconds_len t). unfold firsts. rewrite length_fmap.
      destruct Hok as [_ Hl _]. unfold len, MAX_RECONNECT_PEERS in Hl.
      unfold Entry in *. change (N.to_nat MAX_RECONNECT_ROUTE_CANDIDATES) with 656%nat. lia. }
  rewrite group_entries, entry_routes by done.
  rewrite <- (app_nil_r (firsts t ++ seconds t)) at 1. rewrite fit_routes_all by done. cbn. by rewrite app_nil_r.
Qed.
