(* ===== verification/PeerCache.v ===== *)
(** The cross-session address cache of [crates/catcoms-discovery/src/cache.rs]:
    [CachedPeer], [AddressCache], its capacity-bounded [insert], and the
    integrity-tagged serialization.

    [BTreeMap] is a sorted association list ([OrdMap.v]). BLAKE3's keyed hash and
    the random generator are parameters: the generator is a state with
    [next_u32]. [expect] on a length that does not fit its prefix panics, which
    is the error of [to_bytes]. *)

From S2P Require Import Prelude OrdMap Wire Codec.
From stdpp Require Import base list relations.
From Stdlib Require Import Init.Byte.
Local Open Scope N_scope.

(** * Data *)

Definition CACHE_DOMAIN : bytes := bytes_of_string "catcoms/addr-cache/v1".
Definition MAX_DECODE_ENTRIES : N := 65536.
Definition MAX_DECODE_ADDRESSES : N := 32.

Inductive CacheError := CacheTampered | CacheMalformed.

Record CachedPeer := mkCachedPeer {
  cp_peer : bytes;
  cp_addresses : list bytes;
  cp_seq : N;
  cp_record : bytes
}.

Record CacheConfig := mkCacheConfig { cc_max_entries : N }.
Definition CacheConfig_default : CacheConfig := mkCacheConfig 256.

Record AddressCache := mkAddressCache {
  ac_entries : bmap bytes CachedPeer;
  ac_config : CacheConfig
}.

(** * Operations *)

(** [AddressCache::new] *)
Definition AddressCache_new (config : CacheConfig) : AddressCache := mkAddressCache [] config.

Definition cache_len (c : AddressCache) : N := len (ac_entries c).
Definition cache_is_empty (c : AddressCache) : bool := cache_len c =? 0.
Definition cache_get (c : AddressCache) (peer : bytes) : option CachedPeer := om_get peer (ac_entries c).
Definition cache_candidates (c : AddressCache) : list CachedPeer := om_values (ac_entries c).

(** [AddressCache::retain] *)
Definition cache_retain (keep : CachedPeer -> bool) (c : AddressCache) : AddressCache :=
  mkAddressCache (om_retain (fun _ cp => keep cp) (ac_entries c)) (ac_config c).

Section insert.
Context {R : Type} (next_u32 : R -> N * R).

(** [while entries.len() > max { ... }], with fuel for its iterations. *)
Fixpoint evict_random (fuel : nat) (max : N) (entries : bmap bytes CachedPeer) (rng : R)
    : bmap bytes CachedPeer * R :=
  match fuel with
  | O => (entries, rng)
  | S fuel =>
      if max <? len entries then
        let '(draw, rng) := next_u32 rng in
        match om_keys entries !! N.to_nat (draw mod len entries) with
        | Some v => evict_random fuel max (om_remove v entries) rng
        | None => (entries, rng)
        end
      else (entries, rng)
  end.

(** [AddressCache::insert]; every iteration removes an entry, so the number of
    entries bounds the loop. *)
Definition cache_insert (peer : CachedPeer) (c : AddressCache) (rng : R) : AddressCache * R :=
  let stale := match om_get (cp_peer peer) (ac_entries c) with
               | Some existing => cp_seq peer <=? cp_seq existing
               | None => false
               end in
  if stale then (c, rng)
  else
    let entries := om_insert (cp_peer peer) peer (ac_entries c) in
    let '(entries, rng) := evict_random (length entries) (cc_max_entries (ac_config c)) entries rng in
    (mkAddressCache entries (ac_config c), rng).
End insert.

Section serialization.
Context (keyed_hash : bytes -> bytes -> bytes).

Fixpoint put_addresses (addresses : list bytes) (buf : bytes) : result WireError bytes :=
  match addresses with
  | [] => Ok buf
  | a :: rest => buf ← put_str a buf; put_addresses rest buf
  end.

Definition put_cached_peer (cp : CachedPeer) (buf : bytes) : result WireError bytes :=
  buf ← put_bytes (cp_peer cp) buf;
  buf ← put_addresses (cp_addresses cp) (put_u32 (len (cp_addresses cp)) (put_u64 (cp_seq cp) buf));
  put_bytes (cp_record cp) buf.

Fixpoint put_cached_peers (cps : list CachedPeer) (buf : bytes) : result WireError bytes :=
  match cps with
  | [] => Ok buf
  | cp :: rest => buf ← put_cached_peer cp buf; put_cached_peers rest buf
  end.

(** [AddressCache::to_bytes] *)
Definition cache_to_bytes (c : AddressCache) (integrity_key : bytes) : result WireError bytes :=
  buf ← put_str CACHE_DOMAIN [];
  body ← put_cached_peers (om_values (ac_entries c)) (put_u32 (cache_len c) buf);
  Ok (body ++ keyed_hash integrity_key body).

Definition cmal {A} (m : dec WireError A) : dec CacheError A := dec_map_err (fun _ => CacheMalformed) m.

Definition get_cached_peer : dec CacheError CachedPeer :=
  peer ← cmal get_bytes;
  seq ← cmal get_u64;
  n_addr ← cmal get_u32;
  _ ← dec_refuse (MAX_DECODE_ADDRESSES <? n_addr) CacheMalformed;
  addresses ← get_n (N.to_nat n_addr) (cmal get_str);
  record ← cmal get_bytes;
  mret (mkCachedPeer peer addresses seq record).

Definition get_cached_peers : dec CacheError (list CachedPeer) :=
  domain ← cmal get_str;
  _ ← dec_refuse (negb (bool_decide (domain = CACHE_DOMAIN))) CacheMalformed;
  count ← cmal get_u32;
  _ ← dec_refuse (MAX_DECODE_ENTRIES <? count) CacheMalformed;
  get_n (N.to_nat count) get_cached_peer.

Definition index_peers (cps : list CachedPeer) : bmap bytes CachedPeer :=
  fold_left (fun m cp => om_insert (cp_peer cp) cp m) cps [].

(** [while entries.len() > max { remove the first key }] *)
Fixpoint drop_lowest (max : N) (entries : bmap bytes CachedPeer) : bmap bytes CachedPeer :=
  match entries with
  | [] => []
  | _ :: rest => if max <? len entries then drop_lowest max rest else entries
  end.

(** [AddressCache::from_bytes] *)
Definition cache_from_bytes (input integrity_key : bytes) (config : CacheConfig)
    : result CacheError AddressCache :=
  _ ← refuse_if (len input <? 32) CacheMalformed;
  let n := N.to_nat (len input - 32) in
  let body := firstn n input in
  let tag := skipn n input in
  _ ← refuse_if (negb (bool_decide (keyed_hash integrity_key body = tag))) CacheTampered;
  peers ← run_dec (x ← get_cached_peers; _ ← cmal finish; mret x) body;
  Ok (mkAddressCache (drop_lowest (cc_max_entries config) (index_peers peers)) config).
End serialization.

(** * Well-formed caches *)

(** Keys are sorted and are the peers' own, and the configured capacity holds. *)
Record cache_ok (c : AddressCache) : Prop := mkCacheOk {
  ck_wf : om_wf (ac_entries c);
  ck_keys : Forall (fun kv => kv.1 = cp_peer kv.2) (ac_entries c);
  ck_bound : cache_len c <= cc_max_entries (ac_config c)
}.

(** What Rust's types promise of a cached peer, and the decoder's address cap. *)
Record peer_fits (cp : CachedPeer) : Prop := mkPeerFits {
  pf_peer : len (cp_peer cp) <= u32_max;
  pf_seq : cp_seq cp <= u64_max;
  pf_count : len (cp_addresses cp) <= MAX_DECODE_ADDRESSES;
  pf_addresses : Forall (fun a => len a <= u32_max /\ utf8_valid a = true) (cp_addresses cp);
  pf_record : len (cp_record cp) <= u32_max
}.

(** ** Eviction *)

Lemma Forall_sublist {A} (P : A -> Prop) l k : sublist l k -> Forall P k -> Forall P l.
Proof. intros Hs. rewrite !Forall_forall. intros Hk x Hx. by eapply Hk, elem_of_sublist. Qed.

Lemma sublist_full {A} (l k : list A) : sublist l k -> (length k <= length l)%nat -> l = k.
Proof.
  induction 1 as [|x l k Hs IH|x l k Hs IH]; intros Hl; [done|f_equal; apply IH; cbn in Hl; lia|].
  apply sublist_length in Hs. cbn in Hl. lia.
Qed.

Lemma om_remove_sublist {V} (k : bytes) (m : bmap bytes V) : sublist (om_remove k m) m.
Proof.
  induction m as [|[k' v'] m IH]; [done|]. cbn [om_remove]. destruct (kcmp k k'); [apply sublist_cons; reflexivity|reflexivity|by apply sublist_skip].
Qed.

Lemma om_wf_sublist {V} (m m' : bmap bytes V) : sublist m' m -> om_wf m -> om_wf m'.
Proof.
  intros Hs. induction Hs as [|[k v] m' m Hs IH|[k v] m' m Hs IH]; intros Hm; [done| |].
  - apply om_wf_cons_inv in Hm as [Hm Hk]. apply om_wf_cons; [by apply IH|].
    eapply Forall_sublist; [|exact Hk]. unfold om_keys. by apply fmap_sublist.
  - apply om_wf_cons_inv in Hm as [Hm _]. by apply IH.
Qed.

Lemma om_has_key {V} (m : bmap bytes V) k : om_wf m -> k ∈ om_keys m -> om_has k m = true.
Proof. intros Hm Hk. apply om_get_keys in Hk; [|done]. unfold om_has. by destruct (om_get k m). Qed.

Section insert_lemmas.
Context {R : Type} (next_u32 : R -> N * R).

(** Given an iteration per entry, the loop ends with its guard false: exactly
    the excess has been removed. *)
Lemma evict_random_spec fuel max entries rng :
  om_wf entries -> (length entries <= fuel)%nat ->
  let out := (evict_random next_u32 fuel max entries rng).1 in
  len out = N.min max (len entries) /\ sublist out entries.
Proof.
  revert entries rng. induction fuel as [|fuel IH]; intros entries rng Hm Hf.
  - destruct entries as [|? ?]; cbn in *; [|lia]. split; [unfold len; cbn; lia|done].
  - cbn [evict_random]. destruct (N.ltb_spec max (len entries)) as [Hlt|Hge]; [|cbn; split; [lia|done]].
    destruct (next_u32 rng) as [draw rng'].
    assert (Hi : (N.to_nat (draw mod len entries) < length (om_keys entries))%nat).
    { unfold om_keys. rewrite length_fmap. assert (draw mod len entries < len entries) by (apply N.mod_lt; lia).
      unfold len in *. lia. }
    apply lookup_lt_is_Some_2 in Hi as [v Hv]. rewrite Hv.
    pose proof (om_has_key entries v Hm (list_elem_of_lookup_2 _ _ _ Hv)) as Hh.
    apply om_remove_len in Hh.
    destruct (IH (om_remove v entries) rng') as [Hl Hs].
    + by apply om_wf_remove.
    + unfold len in Hh. lia.
    + split; [lia|]. etransitivity; [exact Hs|apply om_remove_sublist].
Qed.

Lemma cache_insert_shape peer c rng :
  om_wf (ac_entries c) ->
  let c' := (cache_insert next_u32 peer c rng).1 in
  c' = c /\ (exists old, cache_get c (cp_peer peer) = Some old /\ cp_seq peer <= cp_seq old) \/
  ac_config c' = ac_config c /\
  (forall old, cache_get c (cp_peer peer) = Some old -> cp_seq old < cp_seq peer) /\
  sublist (ac_entries c') (om_insert (cp_peer peer) peer (ac_entries c)) /\
  cache_len c' = N.min (cc_max_entries (ac_config c)) (len (om_insert (cp_peer peer) peer (ac_entries c))).
Proof.
  intros Hm. unfold cache_insert, cache_get.
  set (entries := om_insert (cp_peer peer) peer (ac_entries c)).
  assert (Hfresh : let out := evict_random next_u32 (length entries) (cc_max_entries (ac_config c)) entries rng in
    let c' := mkAddressCache out.1 (ac_config c) in
    sublist (ac_entries c') entries /\ cache_len c' = N.min (cc_max_entries (ac_config c)) (len entries)).
  { destruct (evict_random_spec (length entries) (cc_max_entries (ac_config c)) entries rng) as [Hl Hs]; [by apply om_wf_insert|done|].
    by split. }
  destruct (evict_random _ _ _ _ _) as [out rng']. cbn [fst] in Hfresh. destruct Hfresh as [Hs Hl].
  destruct (om_get (cp_peer peer) (ac_entries c)) as [old|]; cbn [fst].
  - destruct (N.leb_spec (cp_seq peer) (cp_seq old)); [left; eauto|right]. split_and!; [done| |done|done].
    intros ? [= <-]. lia.
  - right. split_and!; [done| |done|done]. done.
Qed.

Lemma cache_insert_ok peer c rng : cache_ok c -> cache_ok (cache_insert next_u32 peer c rng).1.
Proof.
  intros [Hm Hk Hb]. destruct (cache_insert_shape peer c rng Hm) as [[-> _]|(Hc & _ & Hs & Hl)]; [done|].
  constructor.
  - eapply om_wf_sublist; [exact Hs|]. by apply om_wf_insert.
  - eapply Forall_sublist; [exact Hs|]. apply Forall_forall. intros [k v] Hin.
    apply om_get_elem in Hin; [|by apply om_wf_insert]. rewrite om_get_insert in Hin.
    destruct (kcmp k (cp_peer peer)) eqn:E.
    + injection Hin as <-. by apply kcmp_eq in E.
    + apply om_get_elem in Hin; [|done]. rewrite Forall_forall in Hk. by apply (Hk (k, v)).
    + apply om_get_elem in Hin; [|done]. rewrite Forall_forall in Hk. by apply (Hk (k, v)).
  - rewrite Hc, Hl. lia.
Qed.
End insert_lemmas.

(** ** Encoding *)

Definition peer_bytes (cp : CachedPeer) : bytes :=
  lp (cp_peer cp) ++ be_bytes 8 (cp_seq cp) ++ be_bytes 4 (len (cp_addresses cp)) ++
  concat (lp <$> cp_addresses cp) ++ lp (cp_record cp).

Definition cache_body (entries : bmap bytes CachedPeer) : bytes :=
  lp CACHE_DOMAIN ++ be_bytes 4 (len entries) ++ concat (peer_bytes <$> om_values entries).

Lemma put_addresses_ok addresses buf :
  Forall (fun a => len a <= u32_max /\ utf8_valid a = true) addresses ->
  put_addresses addresses buf = Ok (buf ++ concat (lp <$> addresses)).
Proof.
  intros Ha. revert buf. induction Ha as [|a rest [Hl _] Hr IH]; intros buf; [by rewrite app_nil_r|].
  cbn [put_addresses]. unfold put_str. rewrite put_bytes_ok, bind_Ok, IH by done. simpl. by rewrite <- app_assoc.
Qed.

Lemma put_cached_peer_ok cp buf : peer_fits cp -> put_cached_peer cp buf = Ok (buf ++ peer_bytes cp).
Proof.
  intros [H1 H2 H3 H4 H5]. unfold put_cached_peer. rewrite put_bytes_ok, bind_Ok by done.
  rewrite put_addresses_ok, bind_Ok, put_bytes_ok by done. unfold put_u32, put_u64, peer_bytes. by rewrite <- !app_assoc.
Qed.

Lemma put_cached_peers_ok cps buf :
  Forall peer_fits cps -> put_cached_peers cps buf = Ok (buf ++ concat (peer_bytes <$> cps)).
Proof.
  intros Hc. revert buf. induction Hc as [|cp rest Hcp Hr IH]; intros buf; [by rewrite app_nil_r|].
  cbn [put_cached_peers]. rewrite put_cached_peer_ok, bind_Ok, IH by done. simpl. by rewrite <- app_assoc.
Qed.

Lemma reads_cached_peer cp : peer_fits cp -> reads get_cached_peer (peer_bytes cp) cp.
Proof.
  destruct cp as [peer addresses seq record]. intros [H1 H2 H3 H4 H5].
  unfold get_cached_peer, peer_bytes, cmal. cbn [cp_peer cp_addresses cp_seq cp_record] in *. reads_go.
  - apply reads_map_err. by apply reads_bytes.
  - apply reads_map_err. by apply reads_u64.
  - apply reads_map_err. apply reads_u32. unfold MAX_DECODE_ADDRESSES, u32_max in *. lia.
  - by apply N.ltb_ge.
  - unfold len. rewrite Nnat.Nat2N.id. apply reads_n. eapply Forall_impl; [exact H4|].
    intros a [Ha Hu]. apply reads_map_err. by apply reads_str.
  - apply reads_map_err. by apply reads_bytes.
Qed.

Lemma reads_cached_peers entries :
  Forall peer_fits (om_values entries) -> len entries <= MAX_DECODE_ENTRIES ->
  reads get_cached_peers (cache_body entries) (om_values entries).
Proof.
  intros Hf Hn. unfold get_cached_peers, cache_body, cmal. eapply reads_bind; [|eapply reads_refuse_bind; [|eapply reads_bind; [|eapply reads_refuse_bind]]].
  - apply reads_map_err. apply reads_str; [|vm_compute; reflexivity]. vm_compute. discriminate.
  - by rewrite bool_decide_eq_true_2.
  - apply reads_map_err. apply reads_u32. unfold MAX_DECODE_ENTRIES, u32_max in *. lia.
  - by apply N.ltb_ge.
  - assert (El : N.to_nat (len entries) = length (om_values entries)).
    { unfold len, om_values. by rewrite Nnat.Nat2N.id, length_fmap. }
    rewrite El. apply reads_n. eapply Forall_impl; [exact Hf|]. apply reads_cached_peer.
Qed.

Lemma index_peers_values m1 m2 :
  om_wf (m1 ++ m2) -> Forall (fun kv => kv.1 = cp_peer kv.2) m2 ->
  fold_left (fun m cp => om_insert (cp_peer cp) cp m) (om_values m2) m1 = m1 ++ m2.
Proof.
  revert m1. induction m2 as [|[k v] m2 IH]; intros m1 Hm Hk; [by rewrite app_nil_r|].
  inversion_clear Hk as [|? ? Hkv Hr]. cbn [fst snd] in Hkv. simpl. rewrite <- Hkv, om_insert_snoc.
  - rewrite IH; [by rewrite <- app_assoc|by rewrite <- app_assoc|done].
  - by eapply om_wf_app_inv.
Qed.

Lemma drop_lowest_drop max entries :
  drop_lowest max entries = drop (N.to_nat (len entries - max)) entries.
Proof.
  induction entries as [|kv rest IH]; [by rewrite drop_nil|]. cbn [drop_lowest].
  destruct (N.ltb_spec max (len (kv :: rest))) as [Hlt|Hge].
  - rewrite IH, len_cons in *. replace (N.to_nat (1 + len rest - max)) with (S (N.to_nat (len rest - max))) by lia. done.
  - by replace (len (kv :: rest) - max) with 0 by lia.
Qed.

Lemma drop_lowest_ok max entries :
  sublist (drop_lowest max entries) entries /\ len (drop_lowest max entries) <= max.
Proof.
  rewrite drop_lowest_drop. split; [apply sublist_drop|]. unfold len. rewrite length_drop. lia.
Qed.

Lemma index_peers_wf cps : om_wf (index_peers cps) /\ Forall (fun kv => kv.1 = cp_peer kv.2) (index_peers cps).
Proof.
  unfold index_peers. rewrite <- fold_left_rev_right.
  induction (rev cps) as [|cp l [Hm Hk]]; [split; [apply om_wf_nil|done]|]. cbn [foldr].
  assert (Hm' := om_wf_insert (cp_peer cp) cp _ Hm). split; [done|].
  apply Forall_forall. intros [k v] Hin. apply om_get_elem in Hin; [|done]. rewrite om_get_insert in Hin.
  rewrite Forall_forall in Hk. destruct (kcmp k (cp_peer cp)) eqn:E;
    [injection Hin as <-; by apply kcmp_eq in E|..]; apply om_get_elem in Hin; try done; by apply (Hk (k, v)).
Qed.

Lemma loaded_ok peers config :
  cache_ok (mkAddressCache (drop_lowest (cc_max_entries config) (index_peers peers)) config).
Proof.
  destruct (index_peers_wf peers) as [Hm Hk].
  destruct (drop_lowest_ok (cc_max_entries config) (index_peers peers)) as [Hs Hl].
  constructor; [by eapply om_wf_sublist|by eapply Forall_sublist|done].
Qed.

Section serialization_lemmas.
Context (keyed_hash : bytes -> bytes -> bytes).
Context (keyed_hash_len : forall k m, length (keyed_hash k m) = 32%nat).

Lemma cache_to_bytes_ok c key :
  Forall peer_fits (om_values (ac_entries c)) ->
  cache_to_bytes keyed_hash c key = Ok (cache_body (ac_entries c) ++ keyed_hash key (cache_body (ac_entries c))).
Proof.
  intros Hf. unfold cache_to_bytes, put_str. rewrite put_bytes_ok, bind_Ok by (vm_compute; discriminate).
  rewrite put_cached_peers_ok, bind_Ok by done. unfold put_u32, cache_len, cache_body. by rewrite <- !app_assoc.
Qed.

(** A tagged body is split where it was joined. *)
Lemma from_bytes_tagged body tag key config :
  length tag = 32%nat ->
  cache_from_bytes keyed_hash (body ++ tag) key config =
    (_ ← refuse_if (negb (bool_decide (keyed_hash key body = tag))) CacheTampered;
     peers ← run_dec (x ← get_cached_peers; _ ← cmal finish; mret x) body;
     Ok (mkAddressCache (drop_lowest (cc_max_entries config) (index_peers peers)) config)).
Proof using Type.
  intros Ht. unfold cache_from_bytes.
  assert (E : len (body ++ tag) = len body + 32) by (unfold len; rewrite length_app, Ht; lia).
  rewrite E, refuse_if_bind_false by (apply N.ltb_ge; lia). cbv zeta.
  replace (N.to_nat (len body + 32 - 32)) with (length body) by (unfold len; lia).
  by rewrite take_app_length, drop_app_length.
Qed.

Lemma from_bytes_inv input key config c :
  cache_from_bytes keyed_hash input key config = Ok c ->
  exists body peers, input = body ++ keyed_hash key body /\
    run_dec (x ← get_cached_peers; _ ← cmal finish; mret x) body = Ok peers /\
    c = mkAddressCache (drop_lowest (cc_max_entries config) (index_peers peers)) config.
Proof using Type.
  unfold cache_from_bytes. intros H. apply refuse_if_bind_ok in H as [_ H]. cbv zeta in H.
  apply refuse_if_bind_ok in H as [Ht H]. apply negb_false_iff, bool_decide_eq_true in Ht.
  apply bind_ok in H as (peers & Hp & H). injection H as <-. eexists _, peers. split_and!; [|exact Hp|done].
  rewrite Ht. symmetry. apply take_drop.
Qed.
End serialization_lemmas.

Lemma evict_random_done {R} (next_u32 : R -> N * R) fuel max entries rng :
  len entries <= max -> evict_random next_u32 fuel max entries rng = (entries, rng).
Proof. intros H. destruct fuel; [done|]. cbn [evict_random]. by rewrite (proj2 (N.ltb_ge _ _)). Qed.

Lemma evict_random_fuel {R} (next_u32 : R -> N * R) excess extra max entries rng :
  om_wf entries -> len entries <= max + N.of_nat excess ->
  evict_random next_u32 (excess + extra) max entries rng = evict_random next_u32 excess max entries rng.
Proof.
  revert entries rng. induction excess as [|excess IH]; intros entries rng Hm Hl.
  - rewrite !evict_random_done by lia. done.
  - cbn [evict_random Nat.add]. destruct (max <? len entries); [|done]. destruct (next_u32 rng) as [draw rng'].
    destruct (_ !! _) as [v|] eqn:Hv; [|done]. apply IH; [by apply om_wf_remove|].
    pose proof (om_has_key entries v Hm (list_elem_of_lookup_2 _ _ _ Hv)) as Hh.
    apply om_remove_len in Hh. lia.
Qed.

(** * Properties *)

(** The eviction loop of an insertion terminates. Whatever the generator
    draws, the victim index is always in range, every iteration removes an
    entry, and after as many iterations as there are entries over capacity the
    guard is false: more iterations change nothing, exactly the excess is gone
    and nothing else has changed. *)
Theorem eviction_terminates {R} (next_u32 : R -> N * R) max (entries : bmap bytes CachedPeer) rng
  (Hwf : om_wf entries) :
  let excess := N.to_nat (len entries - max) in
  (forall extra, evict_random next_u32 (excess + extra) max entries rng
                 = evict_random next_u32 excess max entries rng) /\
  len (evict_random next_u32 excess max entries rng).1 = N.min max (len entries) /\
  sublist (evict_random next_u32 excess max entries rng).1 entries.
Proof.
  set (excess := N.to_nat (len entries - max)).
  assert (Hfuel : forall extra, evict_random next_u32 (excess + extra) max entries rng
                 = evict_random next_u32 excess max entries rng)
    by (intros; apply evict_random_fuel; [done|lia]).
  split; [done|]. rewrite <- (Hfuel (length entries)). apply evict_random_spec; [done|lia].
Qed.

(** An insertion refreshes and never rolls back. In a well-formed cache it
    keeps the cache well-formed and within capacity; every entry afterwards is
    the inserted one under its own key or was there before; no surviving peer's
    signed sequence decreases; and with room to spare nobody is evicted and the
    inserted peer's entry is the one with the larger sequence. *)
Theorem insert_keeps_freshest {R} (next_u32 : R -> N * R) peer c rng (Hok : cache_ok c) :
  let c' := (cache_insert next_u32 peer c rng).1 in
  cache_ok c' /\
  (forall k v', cache_get c' k = Some v' ->
     k = cp_peer peer /\ v' = peer \/ cache_get c k = Some v') /\
  (forall k v v', cache_get c k = Some v -> cache_get c' k = Some v' -> cp_seq v <= cp_seq v') /\
  (cache_len c < cc_max_entries (ac_config c) ->
     (forall k, cache_get c k <> None -> cache_get c' k <> None) /\
     exists v', cache_get c' (cp_peer peer) = Some v' /\ cp_seq peer <= cp_seq v').
Proof.
  pose proof (cache_insert_ok next_u32 peer c rng Hok) as Hok'. destruct Hok as [Hm _ _].
  destruct (cache_insert_shape next_u32 peer c rng Hm) as [[E Hold]|(Hc & Hnew & Hs & Hl)]; cbv zeta in *.
  { rewrite E in *. split_and!; [done|by right|intros k v v' -> [= <-]; lia|]. intros _. split; [done|exact Hold]. }
  revert Hok' Hs Hl. generalize (cache_insert next_u32 peer c rng).1 as c'. intros c' Hok' Hs Hl. pose proof Hok' as [Hm' _ _].
  assert (Hin : forall k v', cache_get c' k = Some v' -> om_get k (om_insert (cp_peer peer) peer (ac_entries c)) = Some v').
  { intros k v' Hg. apply om_get_elem in Hg; [|done]. apply om_get_elem; [by apply om_wf_insert|].
    by eapply elem_of_sublist. }
  assert (Hcase : forall k v', cache_get c' k = Some v' ->
     k = cp_peer peer /\ v' = peer \/ k <> cp_peer peer /\ cache_get c k = Some v').
  { intros k v' Hg%Hin. destruct (decide (k = cp_peer peer)) as [->|Hne].
    - rewrite om_get_insert_eq in Hg. left. by injection Hg.
    - rewrite om_get_insert_ne in Hg by done. by right. }
  split_and!.
  - done.
  - intros k v' Hg. destruct (Hcase k v' Hg) as [?|[_ ?]]; auto.
  - intros k v v' Hv Hv'. destruct (Hcase k v' Hv') as [[-> ->]|[_ E]].
    + specialize (Hnew _ Hv). lia.
    + assert (v = v') as -> by congruence. lia.
  - intros Hroom. assert (E : ac_entries c' = om_insert (cp_peer peer) peer (ac_entries c)).
    { pose proof (om_insert_len_le (cp_peer peer) peer (ac_entries c)). unfold cache_len in *.
      apply sublist_full; [done|]. unfold len in *. lia. }
    unfold cache_get. rewrite E. split.
    + intros k Hk. rewrite om_get_insert. by destruct (kcmp k (cp_peer peer)).
    + exists peer. rewrite om_get_insert_eq. split; [done|lia].
Qed.

Section at_rest.
Context (keyed_hash : bytes -> bytes -> bytes).
Context (keyed_hash_len : forall k m, length (keyed_hash k m) = 32%nat).

(** A saved cache loads back. A well-formed cache whose peers fit their
    length prefixes, hold at most 32 addresses each and number at most 65,536
    serializes without a panic; loading those bytes under the same key restores
    it exactly, and loading them under a smaller capacity keeps the entries with
    the highest keys. *)
Theorem cache_round_trip c key (Hok : cache_ok c)
  (Hfits : Forall peer_fits (om_values (ac_entries c))) (Hmany : cache_len c <= MAX_DECODE_ENTRIES) :
  exists out, cache_to_bytes keyed_hash c key = Ok out /\
    cache_from_bytes keyed_hash out key (ac_config c) = Ok c /\
    forall config, cache_from_bytes keyed_hash out key config
      = Ok (mkAddressCache (drop (N.to_nat (cache_len c - cc_max_entries config)) (ac_entries c)) config).
Proof using keyed_hash_len.
  rewrite cache_to_bytes_ok by done. eexists. split; [done|].
  assert (Hload : forall config, cache_from_bytes keyed_hash
      (cache_body (ac_entries c) ++ keyed_hash key (cache_body (ac_entries c))) key config
      = Ok (mkAddressCache (drop (N.to_nat (cache_len c - cc_max_entries config)) (ac_entries c)) config)).
  { intros config. rewrite from_bytes_tagged by done.
    rewrite refuse_if_bind_false by (by rewrite bool_decide_eq_true_2).
    unfold cmal. rewrite (reads_finish_run _ _ _ (om_values (ac_entries c))) by (by apply reads_cached_peers).
    rewrite bind_Ok, drop_lowest_drop. destruct Hok as [Hm Hk _].
    unfold index_peers. by rewrite (index_peers_values [] (ac_entries c) Hm Hk). }
  split; [|done]. rewrite Hload. destruct Hok as [_ _ Hb]. replace (_ - _) with 0 by lia. by destruct c.
Qed.

(** A load trusts nothing untagged. It succeeds only on a body followed by
    that body's keyed hash, and the cache it returns is well-formed and within
    the given capacity; any other 32-byte tag is refused as tampering, whatever
    the body says, and shorter inputs are malformed. *)
Theorem load_refuses_tampering input key config :
  (forall c, cache_from_bytes keyed_hash input key config = Ok c ->
     cache_ok c /\ ac_config c = config /\ exists body, input = body ++ keyed_hash key body) /\
  (forall body tag, input = body ++ tag -> length tag = 32%nat -> tag <> keyed_hash key body ->
     cache_from_bytes keyed_hash input key config = Err CacheTampered) /\
  (len input < 32 -> cache_from_bytes keyed_hash input key config = Err CacheMalformed).
Proof using Type.
  split_and!.
  - intros c Hc. apply from_bytes_inv in Hc as (body & peers & -> & _ & ->). split_and!; [apply loaded_ok|done|eauto].
  - intros body tag -> Hl Ht. rewrite from_bytes_tagged by done. rewrite bool_decide_eq_false_2 by congruence. done.
  - intros Hl. unfold cache_from_bytes. by rewrite (proj2 (N.ltb_lt _ _)).
Qed.
End at_rest.

(** ** Runs *)

(** What a caller may do with a cache: insert and prune in memory, or replace it
    by one loaded from storage under any capacity. *)
Inductive cache_step {R} (next_u32 : R -> N * R) (keyed_hash : bytes -> bytes -> bytes)
    : AddressCache -> AddressCache -> Prop :=
| step_insert peer c rng : cache_step next_u32 keyed_hash c (cache_insert next_u32 peer c rng).1
| step_retain keep c : cache_step next_u32 keyed_hash c (cache_retain keep c)
| step_load input key config c c' :
    cache_from_bytes keyed_hash input key config = Ok c' -> cache_step next_u32 keyed_hash c c'.

Lemma cache_retain_ok keep c : cache_ok c -> cache_ok (cache_retain keep c).
Proof.
  intros [Hm Hk Hb]. constructor; cbn.
  - by apply om_wf_retain.
  - by apply Forall_List_filter.
  - etransitivity; [apply len_filter_le|exact Hb].
Qed.

(** C26: every cache a program can hold is well-formed: however insertions,
    pruning and loads of arbitrary bytes follow each other, its keys are
    strictly ascending, each entry is filed under its own peer, and it is within
    its configured capacity. *)
Theorem cache_always_well_formed {R} (next_u32 : R -> N * R) keyed_hash config c
  (Hrun : rtc (cache_step next_u32 keyed_hash) (AddressCache_new config) c) : cache_ok c.
Proof.
  eapply rtc_ind_r; [|clear c Hrun|exact Hrun]; [constructor; [apply om_wf_nil|done|unfold cache_len, len; cbn; lia]|].
  intros c c' _ Hstep Hok. destruct Hstep as [peer c rng|keep c|input key config' c c' Hl].
  - by apply cache_insert_ok.
  - by apply cache_retain_ok.
  - apply from_bytes_inv in Hl as (body & peers & _ & _ & ->). by apply loaded_ok.
Qed.

(** * Concrete caches *)

(** A linear congruential generator and a toy keyed hash. *)
Definition toy_next (s : N) : N * N := let s := (s * 1103515245 + 12345) mod 4294967296 in (s, s).
Definition toy_keyed (key body : bytes) : bytes :=
  be_bytes 32 (fold_left (fun acc b => (acc * 257 + b2n b + 1) mod 1000003) (key ++ body) 7).

Definition toy_cached (p seq : N) : CachedPeer :=
  mkCachedPeer (be_bytes 2 p) [bytes_of_string "/ip4/10.0.0.1/tcp/4001"] seq [].

Definition toy_cache : AddressCache :=
  fold_left (fun c p => (cache_insert toy_next (toy_cached p (10 + p)) c p).1) [7; 3; 300; 5]
    (AddressCache_new (mkCacheConfig 3)).

Lemma toy_cache_ok : cache_ok toy_cache.
Proof. unfold toy_cache. cbn [fold_left]. do 4 apply cache_insert_ok. constructor; [apply om_wf_nil|done|done]. Qed.

Lemma toy_cache_fits : Forall peer_fits (om_values (ac_entries toy_cache)).
Proof.
  vm_compute (om_values _). repeat constructor; vm_compute; done.
Qed.

Lemma toy_cache_len : cache_len toy_cache = 3.
Proof. vm_compute. reflexivity. Qed.

Lemma cache_always_well_formed_witness :
  cache_ok (cache_retain (fun cp => 11 <? cp_seq cp)
    (cache_insert toy_next (toy_cached 7 17) (AddressCache_new (mkCacheConfig 3)) 7).1).
Proof.
  apply (cache_always_well_formed toy_next toy_keyed (mkCacheConfig 3)).
  eapply rtc_l; [apply step_insert|]. eapply rtc_l; [apply step_retain|]. apply rtc_refl.
Defined.

Lemma eviction_terminates_witness :
  len (evict_random toy_next 2 1 (ac_entries toy_cache) 5).1 = 1.
Proof. exact (proj1 (proj2 (eviction_terminates toy_next 1 (ac_entries toy_cache) 5 (ck_wf _ toy_cache_ok)))). Defined.

Lemma insert_keeps_freshest_witness :
  cache_ok (cache_insert toy_next (toy_cached 9 1) toy_cache 4).1.
Proof. exact (proj1 (insert_keeps_freshest toy_next (toy_cached 9 1) toy_cache 4 toy_cache_ok)). Defined.

Lemma cache_round_trip_witness :
  exists out, cache_to_bytes toy_keyed toy_cache [] = Ok out /\
    cache_from_bytes toy_keyed out [] (mkCacheConfig 3) = Ok toy_cache.
Proof.
  destruct (cache_round_trip toy_keyed (fun k m => length_be_bytes 32 _) toy_cache [] toy_cache_ok toy_cache_fits
    ltac:(rewrite toy_cache_len; apply N.leb_le; reflexivity)) as (out & E & H & _).
  exists out. split; [exact E|exact H].
Defined.

(** The tag is not vacuous: flipping the last byte of a saved cache is caught. *)
Lemma load_refuses_tampering_witness :
  cache_from_bytes toy_keyed (be_bytes 40 0) [] (mkCacheConfig 3) = Err CacheTampered.
Proof.
  apply (proj1 (proj2 (load_refuses_tampering toy_keyed (be_bytes 40 0) [] (mkCacheConfig 3)))
           (be_bytes 8 0) (be_bytes 32 0)); [reflexivity|reflexivity|]. vm_compute. discriminate.
Defined.
