(* ===== verification/EpochBase.v ===== *)
(** The shared base of [crates/catcoms-replication/src/epoch.rs]: its bounds,
    the domain-separated transcript hash, logical documents and the ids derived
    from them, and the document header every persisted record begins with. *)

From S2P Require Import Prelude Wire Context Crypto Codec.
From stdpp Require Import base list.
From Stdlib Require Import Init.Byte.
Local Open Scope N_scope.

(** * Bounds *)

Definition MAX_DOMAIN_OP_BYTES : N := 64 * 1024.
Definition MAX_SIGNED_EPOCH_OP_BYTES : N := 256 * 1024.
Definition MAX_CLOSE_RECORD_BYTES : N := 4 * 1024.
Definition MAX_RECEIPT_BYTES : N := 1024.
Definition MAX_RECOVERY_SNAPSHOT_BYTES : N := 6 * 1024 * 1024.
Definition MAX_RECOVERY_SLOTS_BYTES : N := 3 * MAX_RECOVERY_SNAPSHOT_BYTES + 1024.
Definition MAX_RECEIPT_BOOK_BYTES : N := 8 * 1024.
Definition MAX_EPOCH_GATE_BYTES : N := 3 * 1024 * 1024.
Definition MAX_INTENTS_PER_DOCUMENT : N := 10000.
Definition MAX_INTENT_BYTES_PER_DOCUMENT : N := 4 * 1024 * 1024.
Definition MAX_INTENT_LEDGER_BYTES : N := 5 * 1024 * 1024.
Definition MAX_EPOCH_OPERATIONS : N := 20000.
Definition MAX_EPOCH_BYTES : N := 4 * 1024 * 1024.
Definition MAX_DEVICE_OPERATIONS : N := 5000.
Definition MAX_DEVICE_BYTES : N := 1024 * 1024.
Definition MAX_QUARANTINED : N := 1024.
Definition RECOVERY_GRACE_MS : N := 7 * 24 * 60 * 60 * 1000.
Definition MAX_SERVER_ID_BYTES : N := 256.
Definition MAX_LOGICAL_KEY_BYTES : N := 192.
Definition MAX_HEADS : N := 64.
Definition MAX_RECOVERY_ITEMS : N := MAX_EPOCH_OPERATIONS.
Definition MAX_RECOVERY_CONFLICTS : N := 1024.
Definition MAX_CONFLICT_VALUES : N := 4.
Definition MAX_RECOVERY_TARGET_BYTES : N := 256.

Definition is_epoch_managed_doc_type (t : DocType) : bool :=
  match t with
  | StudioIndex | StudioObject | PostReplies | DocRegistry => true
  | _ => false
  end.

Definition is_empty {A} (l : list A) : bool := match l with [] => true | _ => false end.

(** * Logical documents *)

Record LogicalDocument := mkLogicalDocument {
  server_id : bytes;
  doc_type : DocType;
  logical_key : bytes
}.

#[global] Instance LogicalDocument_eq_dec : EqDecision LogicalDocument.
Proof. solve_decision. Defined.

Definition LogicalDocument_new (server_id : bytes) (doc_type : DocType) (logical_key : bytes)
    : result ReplError LogicalDocument :=
  if negb (is_epoch_managed_doc_type doc_type)
     || is_empty server_id || (MAX_SERVER_ID_BYTES <? len server_id)
     || is_empty logical_key || (MAX_LOGICAL_KEY_BYTES <? len logical_key)
  then Err EpochBound
  else Ok (mkLogicalDocument server_id doc_type logical_key).

(** What [LogicalDocument::new] establishes. *)
Definition document_ok (d : LogicalDocument) : Prop :=
  LogicalDocument_new (server_id d) (doc_type d) (logical_key d) = Ok d.

(** [put_bytes(server_id), put_u16(tag), put_bytes(logical_key)] *)
Definition put_document (d : LogicalDocument) (e : bytes) : bytes :=
  e |> put_bytes_x (server_id d) |> put_u16 (doc_tag (doc_type d))
    |> put_bytes_x (logical_key d).

Definition get_document : dec ReplError LogicalDocument :=
  sid ← mal get_bytes;
  tag ← mal get_u16;
  t ← dec_lift (ok_or (doc_from_tag tag) Malformed);
  key ← mal get_bytes;
  dec_lift (LogicalDocument_new sid t key).

(** * Transcript hashes and derived ids *)

Section ids.
Context {C : Crypto}.

(** The bytes fed to SHA-256. The source's [expect] on a part of 4 GiB or more
    is the only difference to this total function. *)
Definition transcript (domain : bytes) (parts : list bytes) : bytes :=
  concat (lp <$> (domain :: parts)).

Definition hash_parts (domain : bytes) (parts : list bytes) : bytes :=
  sha256 (transcript domain parts).

Definition epoch_zero_id (t : DocType) (key : bytes) : N :=
  be_val (firstn 16 (hash_parts (bytes_of_string "catcoms-doc-epoch0:v1")
                       [be_bytes 8 (doc_tag t); key])).

Definition epoch_id (t : DocType) (key : bytes) (checkpoint_epoch : N)
    (close_record_hash : bytes) : N :=
  be_val (firstn 16 (hash_parts (bytes_of_string "catcoms-doc-epoch:v1")
                       [be_bytes 8 (doc_tag t); key; be_bytes 8 checkpoint_epoch;
                        close_record_hash])).

Definition tenure_id_of (sid owner_public_key : bytes) (tenure_start_group_epoch : N) : bytes :=
  hash_parts (bytes_of_string "catcoms-tenure:v1")
    [sid; owner_public_key; be_bytes 8 tenure_start_group_epoch].
End ids.

(** * Lemmas *)

Definition document_bytes (d : LogicalDocument) : bytes :=
  lp (server_id d) ++ be_bytes 2 (doc_tag (doc_type d)) ++ lp (logical_key d).

Lemma document_ok_spec d :
  document_ok d <->
  is_epoch_managed_doc_type (doc_type d) = true /\
  0 < len (server_id d) <= MAX_SERVER_ID_BYTES /\
  0 < len (logical_key d) <= MAX_LOGICAL_KEY_BYTES.
Proof.
  unfold document_ok, LogicalDocument_new. destruct d as [sid t key]; cbn [server_id doc_type logical_key].
  assert (He : forall l : bytes, is_empty l = false <-> 0 < len l).
  { intros [|x l]; cbn; [split; [done|unfold len; cbn; lia]|]. split; [|done]. rewrite len_cons; lia. }
  destruct (is_epoch_managed_doc_type t); cbn; [|split; [done | by intros [? _]]].
  destruct (is_empty sid) eqn:E1; cbn.
  { split; [done|]. intros (_ & H & _). assert (is_empty sid = false) by (apply He; lia). congruence. }
  destruct (N.ltb_spec MAX_SERVER_ID_BYTES (len sid)); cbn; [split; [done|lia]|].
  destruct (is_empty key) eqn:E2; cbn.
  { split; [done|]. intros (_ & _ & H1). assert (is_empty key = false) by (apply He; lia). congruence. }
  destruct (N.ltb_spec MAX_LOGICAL_KEY_BYTES (len key)); cbn; [split; [done|lia]|].
  apply He in E1, E2. split; [|done]. intros _. split_and!; (done || lia).
Qed.

Lemma LogicalDocument_new_ok sid t key d :
  LogicalDocument_new sid t key = Ok d -> d = mkLogicalDocument sid t key /\ document_ok d.
Proof.
  intros H. assert (d = mkLogicalDocument sid t key) as ->.
  { unfold LogicalDocument_new in H. destruct (_ || _); [done|]. by injection H as <-. }
  by split.
Qed.

Lemma document_len d : document_ok d -> len (document_bytes d) <= 458.
Proof.
  intros (_ & H1 & H2)%document_ok_spec. unfold document_bytes. autorewrite with mewtual_len.
  unfold MAX_SERVER_ID_BYTES, MAX_LOGICAL_KEY_BYTES in *. lia.
Qed.

Lemma put_document_eq d e : put_document d e = e ++ document_bytes d.
Proof.
  unfold put_document, document_bytes, put_u16. rewrite !put_bytes_x_lp. by rewrite <- !app_assoc.
Qed.

Lemma document_ok_u32 d :
  document_ok d -> len (server_id d) <= u32_max /\ len (logical_key d) <= u32_max.
Proof.
  intros (_ & H1 & H2)%document_ok_spec.
  unfold MAX_SERVER_ID_BYTES, MAX_LOGICAL_KEY_BYTES, u32_max in *. lia.
Qed.

Lemma reads_document d : document_ok d -> reads get_document (document_bytes d) d.
Proof.
  intros H. destruct (document_ok_u32 d H). unfold get_document, document_bytes. reads_go.
  - by apply reads_mal, reads_bytes.
  - apply reads_mal, reads_u16, doc_tag_u16.
  - by rewrite doc_from_tag_tag.
  - by apply reads_mal, reads_bytes.
  - by apply reads_lift_ok.
Qed.

Lemma consumes_document :
  consumes get_document (fun d bs => bs = document_bytes d /\ document_ok d).
Proof.
  intros d v d' H. unfold get_document in H. dec_step H.
  destruct Hr as [-> _], Hr0 as [-> _], Hr2 as [-> _].
  destruct (doc_from_tag v1) as [t|] eqn:Et; [|done]. injection Hr1 as ->.
  apply doc_tag_from_tag in Et as <-. apply LogicalDocument_new_ok in H as [-> Hok].
  exists (document_bytes (mkLogicalDocument v0 v2 v3)). split; [|done].
  unfold document_bytes; cbn. rewrite R, R0, R1. by rewrite <- !app_assoc.
Qed.
#[export] Hint Resolve consumes_document : mewtual_dec.

(** A transcript determines its parts. *)
Lemma lp_app_inj a b r s :
  len a <= u32_max -> len b <= u32_max -> lp a ++ r = lp b ++ s -> a = b /\ r = s.
Proof.
  intros Ha Hb H. unfold lp in H. rewrite <- !app_assoc in H.
  apply app_inj_1 in H as [Hl H]; [|by rewrite !length_be_bytes].
  apply be_bytes_inj in Hl; [|rewrite pow256_4; lia ..].
  apply app_inj_1 in H; [done|]. unfold len in Hl. lia.
Qed.

Lemma concat_lp_inj (ps qs : list bytes) :
  Forall (fun p => len p <= u32_max) ps -> Forall (fun p => len p <= u32_max) qs ->
  concat (lp <$> ps) = concat (lp <$> qs) -> ps = qs.
Proof.
  intros Hps. revert qs. induction Hps as [|p ps Hp _ IH]; intros qs Hqs H;
    destruct Hqs as [|q qs Hq Hqs]; [done| | |]; cbn in H.
  - apply (f_equal len) in H. autorewrite with mewtual_len in H. lia.
  - apply (f_equal len) in H. autorewrite with mewtual_len in H. lia.
  - apply lp_app_inj in H as [-> H]; [|done..]. f_equal. by apply IH.
Qed.

Section hashes.
Context {C : Crypto}.

Lemma hash_parts_inj domain parts domain' parts' :
  Forall (fun p => len p <= u32_max) (domain :: parts) ->
  Forall (fun p => len p <= u32_max) (domain' :: parts') ->
  hash_parts domain parts = hash_parts domain' parts' ->
  (domain = domain' /\ parts = parts') \/
  collide (transcript domain parts) (transcript domain' parts').
Proof.
  intros H1 H2 H. destruct (decide (transcript domain parts = transcript domain' parts')) as [Ht|Ht].
  - left. unfold transcript in Ht. apply concat_lp_inj in Ht; [|done..]. by injection Ht.
  - by right.
Qed.

Lemma hash_parts_length `{!CryptoLaws C} domain parts : length (hash_parts domain parts) = 32%nat.
Proof. apply sha256_length. Qed.
End hashes.

(** * Properties *)

(** Transcript hashes separate domains and framings: two equal
    [hash_parts] values come from the same domain and the same parts, or they
    are a SHA-256 collision of these two very transcripts. In particular no concatenation of
    parts can be re-split into another record's transcript, and document ids
    derived from different logical keys or epochs have different preimages. *)
Theorem hash_parts_separates {C : Crypto} (domain domain' : bytes) (parts parts' : list bytes) :
  Forall (fun p => len p <= u32_max) (domain :: parts) ->
  Forall (fun p => len p <= u32_max) (domain' :: parts') ->
  hash_parts domain parts = hash_parts domain' parts' ->
  (domain = domain' /\ parts = parts') \/
  collide (transcript domain parts) (transcript domain' parts').
Proof. apply hash_parts_inj. Qed.

Lemma hash_parts_separates_witness :
  ([x01] = [x01] /\ [[x02]; [x03]] = [[x02]; [x03]]) \/
  collide (C:=toy_crypto) (transcript [x01] [[x02]; [x03]]) (transcript [x01] [[x02]; [x03]]).
Proof.
  apply (hash_parts_separates (C:=toy_crypto) [x01] [x01] [[x02]; [x03]] [[x02]; [x03]]);
    [repeat constructor; vm_compute; discriminate ..|reflexivity].
Defined.
