(* ===== verification/Intent.v ===== *)
(** Domain operations and the durable intent ledger of
    [crates/catcoms-replication/src/epoch.rs]: [DomainOp], [LocalIntent] and
    [IntentLedger] (prepare, the removals, and the persisted encoding). *)

From S2P Require Import Prelude OrdMap Wire Context Crypto Codec EpochBase.
From stdpp Require Import base list relations.
From Stdlib Require Import Init.Byte.
Local Open Scope N_scope.

(** * Domain operations *)

Record DomainOp := mkDomainOp {
  op_nonce : bytes;
  op_doc_type : DocType;
  op_logical_key : bytes;
  op_body : bytes
}.

#[global] Instance DomainOp_eq_dec : EqDecision DomainOp.
Proof. solve_decision. Defined.

Definition DomainOp_encode (op : DomainOp) : result ReplError bytes :=
  if negb (is_epoch_managed_doc_type (op_doc_type op))
     || is_empty (op_logical_key op) || (MAX_LOGICAL_KEY_BYTES <? len (op_logical_key op))
  then Err EpochBound
  else
    let e := [] |> put_u8 1 |> put_bytes_x (op_nonce op)
                |> put_u16 (doc_tag (op_doc_type op)) in
    e ← put_bytes_b (op_logical_key op) e;
    e ← put_bytes_b (op_body op) e;
    if MAX_DOMAIN_OP_BYTES <? len e then Err EpochBound else Ok e.

Definition DomainOp_read : dec ReplError DomainOp :=
  version ← mal get_u8;
  _ ← dec_refuse (negb (version =? 1)) Malformed;
  nonce ← get_fixed 16;
  tag ← mal get_u16;
  t ← dec_lift (ok_or (doc_from_tag tag) Malformed);
  key ← mal get_bytes;
  body ← mal get_bytes;
  mret (mkDomainOp nonce t key body).

Definition DomainOp_decode (input : bytes) : result ReplError DomainOp :=
  _ ← refuse_if (MAX_DOMAIN_OP_BYTES <? len input) EpochBound;
  op ← run_exact DomainOp_read input;
  e ← DomainOp_encode op;
  _ ← refuse_if (bool_decide (e <> input)) Malformed;
  mret op.

Definition DomainOp_id {C : Crypto} (op : DomainOp) (author : bytes) : bytes :=
  hash_parts (bytes_of_string "catcoms-domain-op:v1") [op_logical_key op; author; op_nonce op].

(** * The intent ledger *)

Record LocalIntent := mkLocalIntent { author : bytes; operation : DomainOp }.

#[global] Instance LocalIntent_eq_dec : EqDecision LocalIntent.
Proof. solve_decision. Defined.

Record IntentLedger := mkIntentLedger {
  il_document : LogicalDocument;
  intents : bmap bytes LocalIntent;
  encoded_operation_bytes : N
}.

Definition IntentLedger_new (document : LogicalDocument) : IntentLedger :=
  mkIntentLedger document [] 0.

Section ledger.
Context {C : Crypto}.

(** On an error the ledger is left as it was. *)
Definition prepare (who : bytes) (op : DomainOp) (l : IntentLedger)
    : result ReplError (bytes * IntentLedger) :=
  _ ← refuse_if (bool_decide (op_doc_type op <> doc_type (il_document l))
                 || bool_decide (op_logical_key op <> logical_key (il_document l))) EpochScope;
  e ← DomainOp_encode op;
  let encoded_len := len e in
  let id := DomainOp_id op who in
  match om_get id (intents l) with
  | Some existing =>
      if bool_decide (author existing = who) && bool_decide (operation existing = op)
      then Ok (id, l) else Err IntentConflict
  | None =>
      _ ← refuse_if ((len (intents l) =? MAX_INTENTS_PER_DOCUMENT)
                     || (MAX_INTENT_BYTES_PER_DOCUMENT
                         <? sat_add usize_max (encoded_operation_bytes l) encoded_len))
            EpochBound;
      Ok (id, mkIntentLedger (il_document l) (om_insert id (mkLocalIntent who op) (intents l))
                (encoded_operation_bytes l + encoded_len))
  end.

(** [intent.operation.encode().map_or(0, |bytes| bytes.len())] *)
Definition encoded_size (i : LocalIntent) : N :=
  match DomainOp_encode (operation i) with Ok e => len e | Err _ => 0 end.

(** The [retain] of [remove_ids], with its running subtraction. *)
Fixpoint retain_ids (ids : list bytes) (m : bmap bytes LocalIntent) (size : N)
    : bmap bytes LocalIntent * N :=
  match m with
  | [] => ([], size)
  | (id, i) :: m' =>
      if bool_decide (id ∈ ids) then retain_ids ids m' (size - encoded_size i)
      else let '(kept, size') := retain_ids ids m' size in ((id, i) :: kept, size')
  end.

(** [remove_ids], shared by [remove_receipted], [remove_to_manual_recovery] and
    [remove_disposed]: the number removed, and the ledger after it. *)
Definition remove_ids (ids : list bytes) (l : IntentLedger) : N * IntentLedger :=
  let '(kept, size) := retain_ids ids (intents l) (encoded_operation_bytes l) in
  (len (intents l) - len kept, mkIntentLedger (il_document l) kept size).

Fixpoint put_intents (xs : list LocalIntent) (e : bytes) : result ReplError bytes :=
  match xs with
  | [] => Ok e
  | i :: xs' =>
      let e := e |> put_bytes_x (author i) in
      b ← DomainOp_encode (operation i);
      e ← put_bytes_b b e;
      put_intents xs' e
  end.

Definition IntentLedger_encode (l : IntentLedger) : result ReplError bytes :=
  let e := [] |> put_u8 1 in
  e ← put_bytes_b (server_id (il_document l)) e;
  let e := e |> put_u16 (doc_tag (doc_type (il_document l))) in
  e ← put_bytes_b (logical_key (il_document l)) e;
  _ ← refuse_if (u32_max <? len (intents l)) EpochBound;
  let e := e |> put_u32 (len (intents l)) in
  e ← put_intents (om_values (intents l)) e;
  if MAX_INTENT_LEDGER_BYTES <? len e then Err EpochBound else Ok e.

(** The loop of [IntentLedger::decode]. *)
Fixpoint read_intents (count : nat) (prior_id : option bytes) (l : IntentLedger)
    : dec ReplError IntentLedger :=
  match count with
  | O => mret l
  | S count' =>
      who ← get_fixed 32;
      b ← mal get_bytes;
      op ← dec_lift (DomainOp_decode b);
      let id := DomainOp_id op who in
      _ ← dec_refuse (match prior_id with Some prior => negb (kltb prior id) | None => false end)
            Malformed;
      p ← dec_lift (prepare who op l);
      _ ← dec_refuse (bool_decide (p.1 <> id)) Malformed;
      read_intents count' (Some id) p.2
  end.

Definition IntentLedger_read : dec ReplError IntentLedger :=
  version ← mal get_u8;
  _ ← dec_refuse (negb (version =? 1)) Malformed;
  document ← get_document;
  count ← mal get_u32;
  _ ← dec_refuse (MAX_INTENTS_PER_DOCUMENT <? count) EpochBound;
  read_intents (N.to_nat count) None (IntentLedger_new document).

Definition IntentLedger_decode (input : bytes) : result ReplError IntentLedger :=
  _ ← refuse_if (MAX_INTENT_LEDGER_BYTES <? len input) EpochBound;
  l ← run_exact IntentLedger_read input;
  e ← IntentLedger_encode l;
  _ ← refuse_if (bool_decide (e <> input)) Malformed;
  mret l.
End ledger.

(** * Lemmas on domain operations *)

Definition DomainOp_bytes (op : DomainOp) : bytes :=
  be_bytes 1 1 ++ lp (op_nonce op) ++ be_bytes 2 (doc_tag (op_doc_type op)) ++
  lp (op_logical_key op) ++ lp (op_body op).

Lemma DomainOp_encode_inv op e :
  DomainOp_encode op = Ok e ->
  e = DomainOp_bytes op /\ len e <= MAX_DOMAIN_OP_BYTES /\
  len (op_logical_key op) <= u32_max /\ len (op_body op) <= u32_max.
Proof.
  unfold DomainOp_encode. destruct (_ || _); [done|]. intros H. res_inv.
  apply put_bytes_b_inv in Ha as [-> Hk], Ha0 as [-> Hb].
  destruct (N.ltb_spec MAX_DOMAIN_OP_BYTES (len
    (((([] |> put_u8 1 |> put_bytes_x (op_nonce op) |> put_u16 (doc_tag (op_doc_type op)))
      ++ lp (op_logical_key op)) ++ lp (op_body op))))) as [|Hl]; [done|].
  injection H as <-. split_and!; try done.
  unfold put_u16, put_u8, DomainOp_bytes. rewrite put_bytes_x_lp. by rewrite <- !app_assoc.
Qed.

Lemma reads_DomainOp op e :
  length (op_nonce op) = 16%nat -> DomainOp_encode op = Ok e -> reads DomainOp_read e op.
Proof.
  intros Hn (-> & _ & Hk & Hb)%DomainOp_encode_inv.
  unfold DomainOp_read, DomainOp_bytes. destruct op as [nonce t key body]; cbn in *. reads_go.
  - by apply reads_mal, reads_u8.
  - done.
  - by apply reads_fixed.
  - apply reads_mal, reads_u16, doc_tag_u16.
  - by rewrite doc_from_tag_tag.
  - by apply reads_mal, reads_bytes.
  - by apply reads_mal, reads_bytes.
Qed.

Lemma consumes_DomainOp : consumes DomainOp_read (fun op bs => length (op_nonce op) = 16%nat).
Proof.
  intros d op d' H. unfold DomainOp_read in H. dec_step H. cbn.
  exists (bs ++ bs0 ++ bs1 ++ bs2 ++ bs3). destruct Hr1 as [_ ->]. split; [|done].
  rewrite R, R0, R1, R2, R3. by rewrite <- !app_assoc.
Qed.

Lemma DomainOp_decode_spec bs op :
  DomainOp_decode bs = Ok op <-> length (op_nonce op) = 16%nat /\ DomainOp_encode op = Ok bs.
Proof.
  unfold DomainOp_decode. split.
  - intros H. res_inv. bool_simpl.
    pose proof (run_exact_consumes _ _ _ _ Ha consumes_DomainOp) as Hn; cbn in Hn. split; [done|].
    by rewrite Ha0, H0.
  - intros [Hn He]. destruct (DomainOp_encode_inv _ _ He) as (_ & Hl & _).
    rewrite refuse_if_bind_false by (by apply N.ltb_ge).
    rewrite (run_exact_reads _ _ _ (reads_DomainOp _ _ Hn He)). cbn. rewrite He. cbn.
    rewrite bool_decide_eq_false_2; [done|]. by intros [].
Qed.

(** * The ledger invariant *)

(** The bytes a map's operations encode to. *)
Definition total_size (m : bmap bytes LocalIntent) : N :=
  sum_of (fun kv => encoded_size kv.2) m.

Section invariant.
Context {C : Crypto}.

(** One entry of a ledger for [document]: keyed by its own id, in scope,
    encodable, and of the fixed-size types' lengths. *)
Definition intent_ok (document : LogicalDocument) (id : bytes) (i : LocalIntent) : Prop :=
  id = DomainOp_id (operation i) (author i) /\
  length (author i) = 32%nat /\ length (op_nonce (operation i)) = 16%nat /\
  op_doc_type (operation i) = doc_type document /\
  op_logical_key (operation i) = logical_key document /\
  (exists e, DomainOp_encode (operation i) = Ok e).

Record ledger_ok (l : IntentLedger) : Prop := mkLedgerOk {
  lo_document : document_ok (il_document l);
  lo_wf : om_wf (intents l);
  lo_intents : Forall (fun kv => intent_ok (il_document l) kv.1 kv.2) (intents l);
  lo_bytes : encoded_operation_bytes l = total_size (intents l);
  lo_count : len (intents l) <= MAX_INTENTS_PER_DOCUMENT;
  lo_bound : encoded_operation_bytes l <= MAX_INTENT_BYTES_PER_DOCUMENT
}.

Lemma total_size_insert id i m :
  om_get id m = None -> total_size (om_insert id i m) = encoded_size i + total_size m.
Proof. intros Hg. unfold total_size. by rewrite (sum_of_perm _ _ _ (om_insert_perm id i m Hg)). Qed.

Lemma ledger_new_ok document : document_ok document -> ledger_ok (IntentLedger_new document).
Proof. intros H. constructor; cbn; try done. constructor. Qed.

Lemma prepare_inv who op l id l' :
  prepare who op l = Ok (id, l') ->
  id = DomainOp_id op who /\
  op_doc_type op = doc_type (il_document l) /\ op_logical_key op = logical_key (il_document l) /\
  exists e, DomainOp_encode op = Ok e /\
  ((om_get id (intents l) = Some (mkLocalIntent who op) /\ l' = l) \/
   (om_get id (intents l) = None /\
    len (intents l) <> MAX_INTENTS_PER_DOCUMENT /\
    encoded_operation_bytes l + len e <= MAX_INTENT_BYTES_PER_DOCUMENT /\
    l' = mkIntentLedger (il_document l) (om_insert id (mkLocalIntent who op) (intents l))
           (encoded_operation_bytes l + len e))).
Proof.
  unfold prepare. intros H. res_inv. bool_simpl.
  destruct (om_get (DomainOp_id op who) (intents l)) as [i|] eqn:Hg.
  - destruct (bool_decide (author i = who) && bool_decide (operation i = op)) eqn:Hb; [|done].
    bool_simpl. simplify_eq. destruct i as [au o]; cbn in *.
    split_and!; [done.. |]. exists a. split; [done|]. by left.
  - res_inv. bool_simpl. simplify_eq.
    split_and!; [done.. |]. exists a. split; [done|]. right. split_and!; try done.
    unfold sat_add, usize_max, u64_max, MAX_INTENT_BYTES_PER_DOCUMENT in *. lia.
Qed.

Lemma encoded_size_ok i e : DomainOp_encode (operation i) = Ok e -> encoded_size i = len e.
Proof. unfold encoded_size. by intros ->. Qed.

Lemma prepare_ok who op l id l' :
  ledger_ok l -> length who = 32%nat -> length (op_nonce op) = 16%nat ->
  prepare who op l = Ok (id, l') -> ledger_ok l'.
Proof.
  intros [Hd Hw HF Hb Hc Hm] Hwho Hn H.
  apply prepare_inv in H as (-> & Ht & Hk & e & He & [[Hg ->]|(Hg & Hne & Hle & ->)]);
    [by constructor|].
  constructor; cbn; [done | by apply om_wf_insert | | | | done].
  - rewrite (om_insert_perm _ _ _ Hg). constructor; [|done]. unfold intent_ok; cbn.
    split_and!; try done. by eexists.
  - rewrite total_size_insert by done. rewrite (encoded_size_ok _ e) by done. lia.
  - rewrite om_insert_len_new by done. unfold MAX_INTENTS_PER_DOCUMENT in *. lia.
Qed.

Lemma retain_ids_spec ids m : forall size,
  total_size m <= size ->
  retain_ids ids m size =
    (List.filter (fun kv => negb (bool_decide (kv.1 ∈ ids))) m,
     size - (total_size m
             - total_size (List.filter (fun kv => negb (bool_decide (kv.1 ∈ ids))) m))).
Proof.
  unfold total_size. induction m as [|[id i] m IH]; intros size Hs; cbn in *.
  - f_equal. lia.
  - pose proof (sum_of_filter_le (fun kv : bytes * LocalIntent => encoded_size kv.2)
      (fun kv => negb (bool_decide (kv.1 ∈ ids))) m) as Hle.
    destruct (bool_decide (id ∈ ids)); cbn [negb].
    + rewrite IH by lia. f_equal. lia.
    + rewrite IH by lia. cbn. f_equal. lia.
Qed.

Lemma remove_ids_spec ids l :
  ledger_ok l ->
  let kept := om_retain (fun id _ => negb (bool_decide (id ∈ ids))) (intents l) in
  remove_ids ids l =
    (len (intents l) - len kept, mkIntentLedger (il_document l) kept (total_size kept)).
Proof.
  intros [Hd Hw HF Hb Hc Hm]. unfold remove_ids, om_retain.
  rewrite retain_ids_spec by lia. cbv zeta. f_equal. f_equal. rewrite Hb.
  unfold total_size. pose proof (sum_of_filter_le (fun kv : bytes * LocalIntent => encoded_size kv.2)
    (fun kv => negb (bool_decide (kv.1 ∈ ids))) (intents l)). lia.
Qed.

Lemma remove_ids_ok ids l : ledger_ok l -> ledger_ok (remove_ids ids l).2.
Proof.
  intros Hl. rewrite (remove_ids_spec ids l Hl). destruct Hl as [Hd Hw HF Hb Hc Hm].
  unfold om_retain, total_size in *. constructor; cbn; [done | by apply om_wf_filter | | done | |].
  - by apply Forall_List_filter.
  - pose proof (len_filter_le (fun kv : bytes * LocalIntent => negb (bool_decide (kv.1 ∈ ids)))
      (intents l)). lia.
  - pose proof (sum_of_filter_le (fun kv : bytes * LocalIntent => encoded_size kv.2)
      (fun kv => negb (bool_decide (kv.1 ∈ ids))) (intents l)). lia.
Qed.

(** ** The persisted encoding *)

Definition intent_bytes (i : LocalIntent) : bytes :=
  lp (author i) ++ lp (DomainOp_bytes (operation i)).

Definition ledger_bytes (l : IntentLedger) : bytes :=
  be_bytes 1 1 ++ document_bytes (il_document l) ++ be_bytes 4 (len (intents l)) ++
  concat (intent_bytes <$> om_values (intents l)).

Lemma intent_ok_encode document id i :
  intent_ok document id i -> DomainOp_encode (operation i) = Ok (DomainOp_bytes (operation i)).
Proof.
  intros (_ & _ & _ & _ & _ & e & He).
  by destruct (DomainOp_encode_inv _ _ He) as (<- & _).
Qed.

Lemma DomainOp_bytes_u32 op e :
  DomainOp_encode op = Ok e -> len (DomainOp_bytes op) <= u32_max.
Proof.
  intros He. destruct (DomainOp_encode_inv _ _ He) as (<- & Hl & _).
  unfold MAX_DOMAIN_OP_BYTES, u32_max in *. lia.
Qed.

Lemma put_intents_ok document (xs : list LocalIntent) : forall e,
  Forall (fun i => exists id, intent_ok document id i) xs ->
  put_intents xs e = Ok (e ++ concat (intent_bytes <$> xs)).
Proof.
  induction xs as [|i xs IH]; intros e HF.
  - cbn [put_intents fmap list_fmap concat]. by rewrite app_nil_r.
  - inversion HF as [|? ? [id Hi] HF']; subst.
    pose proof (intent_ok_encode _ _ _ Hi) as He.
    cbn [put_intents fmap list_fmap concat]. rewrite He. rewrite bind_Ok.
    rewrite put_bytes_b_ok by (by eapply DomainOp_bytes_u32). rewrite bind_Ok.
    rewrite IH by done. rewrite put_bytes_x_lp. unfold intent_bytes. by rewrite <- !app_assoc.
Qed.

Lemma len_intent_bytes document id i :
  intent_ok document id i -> len (intent_bytes i) = 40 + encoded_size i.
Proof.
  intros Hi. rewrite (encoded_size_ok i _ (intent_ok_encode _ _ _ Hi)).
  destruct Hi as (_ & Ha & _). unfold intent_bytes. autorewrite with mewtual_len.
  assert (len (author i) = 32) as -> by (unfold len; by rewrite Ha). lia.
Qed.

Lemma len_ledger_bytes l :
  ledger_ok l -> len (ledger_bytes l) <= MAX_INTENT_LEDGER_BYTES.
Proof.
  intros [Hd Hw HF Hb Hc Hm]. unfold ledger_bytes. autorewrite with mewtual_len.
  pose proof (document_len _ Hd).
  assert (Hs : len (concat (intent_bytes <$> om_values (intents l))) =
               40 * len (intents l) + total_size (intents l)).
  { unfold om_values. rewrite <- list_fmap_compose, len_concat.
    unfold total_size. rewrite <- sum_of_const, <- sum_of_add. apply sum_of_ext.
    eapply Forall_impl; [exact HF|]. intros kv Hi. by apply (len_intent_bytes _ _ _ Hi). }
  rewrite Hs.
  unfold MAX_INTENT_LEDGER_BYTES, MAX_INTENTS_PER_DOCUMENT, MAX_INTENT_BYTES_PER_DOCUMENT in *. lia.
Qed.

Lemma IntentLedger_encode_ok l : ledger_ok l -> IntentLedger_encode l = Ok (ledger_bytes l).
Proof.
  intros Hl. pose proof (len_ledger_bytes l Hl) as Hlen. destruct Hl as [Hd Hw HF Hb Hc Hm].
  destruct (document_ok_u32 _ Hd). unfold IntentLedger_encode.
  rewrite put_bytes_b_ok by done. rewrite bind_Ok.
  rewrite put_bytes_b_ok by done. rewrite bind_Ok.
  rewrite refuse_if_bind_false
    by (apply N.ltb_ge; unfold MAX_INTENTS_PER_DOCUMENT, u32_max in *; lia).
  rewrite (put_intents_ok (il_document l)); cycle 1.
  { unfold om_values. apply Forall_fmap. eapply Forall_impl; [exact HF|]. by eexists. }
  rewrite bind_Ok.
  assert (He : put_u32 (len (intents l))
      (put_u16 (doc_tag (doc_type (il_document l))) (put_u8 1 [] ++ lp (server_id (il_document l)))
       ++ lp (logical_key (il_document l))) ++ concat (intent_bytes <$> om_values (intents l))
      = ledger_bytes l).
  { unfold put_u32, put_u16, put_u8, ledger_bytes, document_bytes. by rewrite <- !app_assoc. }
  rewrite He. by rewrite (proj2 (N.ltb_ge _ _) Hlen).
Qed.

Lemma prepare_snoc document m1 id i m2 :
  ledger_ok (mkIntentLedger document (m1 ++ (id, i) :: m2) (total_size (m1 ++ (id, i) :: m2))) ->
  prepare (author i) (operation i) (mkIntentLedger document m1 (total_size m1)) =
    Ok (id, mkIntentLedger document (m1 ++ [(id, i)]) (total_size (m1 ++ [(id, i)]))).
Proof.
  intros [Hd Hw HF Hb Hc Hm]; cbn in *.
  apply Forall_app in HF as [_ HF]. inversion HF as [|? ? Hi _]; subst; cbn in Hi.
  pose proof (om_wf_app_inv _ _ _ _ Hw) as Hlt.
  pose proof (intent_ok_encode _ _ _ Hi) as He. pose proof (encoded_size_ok i _ He) as Hsz.
  destruct Hi as (Hid & Ha & Hn & Ht & Hk & _).
  unfold prepare; cbn. rewrite Ht, Hk, !bool_decide_eq_false_2 by (by intros []).
  rewrite refuse_if_bind_false by done. rewrite He. rewrite bind_Ok.
  rewrite <- Hid.
  assert (Hg : om_get id m1 = None).
  { destruct (om_get id m1) as [v|] eqn:E; [|done]. exfalso.
    assert (Hin : id ∈ om_keys m1)
      by (apply (om_get_keys id m1 (om_wf_app_l _ _ Hw)); by rewrite E).
    rewrite Forall_forall in Hlt. by apply (klt_irrefl id), Hlt. }
  rewrite Hg. unfold total_size in *. rewrite sum_of_app in Hm. cbn in Hm.
  unfold len in Hc. rewrite length_app in Hc. cbn in Hc.
  rewrite refuse_if_bind_false.
  - rewrite om_insert_snoc by done. rewrite sum_of_app; cbn. rewrite Hsz.
    by rewrite N.add_0_r; destruct i.
  - apply orb_false_iff. split.
    + apply N.eqb_neq. unfold len, MAX_INTENTS_PER_DOCUMENT in *. lia.
    + apply N.ltb_ge. unfold sat_add. rewrite Hsz in Hm. lia.
Qed.

Lemma reads_intents document m2 : forall m1 prior,
  ledger_ok (mkIntentLedger document (m1 ++ m2) (total_size (m1 ++ m2))) ->
  (forall p, prior = Some p -> Forall (klt p) (om_keys m2)) ->
  reads (read_intents (length m2) prior (mkIntentLedger document m1 (total_size m1)))
    (concat (intent_bytes <$> om_values m2))
    (mkIntentLedger document (m1 ++ m2) (total_size (m1 ++ m2))).
Proof.
  induction m2 as [|[id i] m2 IH]; intros m1 prior Hok Hprior.
  - cbn. rewrite app_nil_r. apply reads_ret.
  - pose proof (prepare_snoc _ _ _ _ _ Hok) as Hprep.
    assert (Hi : intent_ok document id i).
    { destruct Hok as [_ _ HF _ _ _]; cbn in HF. apply Forall_app in HF as [_ HF].
      by inversion HF. }
    assert (Hw : Forall (klt id) (om_keys m2)).
    { destruct Hok as [_ Hw _ _ _ _]; cbn in Hw.
      by apply om_wf_app_r, om_wf_cons_inv in Hw as [_ Hw]. }
    pose proof (intent_ok_encode _ _ _ Hi) as He.
    assert (Hsplit : m1 ++ (id, i) :: m2 = (m1 ++ [(id, i)]) ++ m2) by by rewrite <- app_assoc.
    cbn [length read_intents om_values fmap list_fmap concat snd]. cbv zeta.
    fold (om_values m2). unfold intent_bytes at 1. rewrite <- app_assoc.
    destruct Hi as (Hid & Ha & Hn & _).
    eapply reads_bind; [by apply reads_fixed|].
    eapply reads_bind; [by eapply reads_mal, reads_bytes, DomainOp_bytes_u32|].
    eapply reads_bind_nil; [apply reads_lift_ok, DomainOp_decode_spec; split; [exact Hn|exact He]|].
    rewrite <- Hid.
    eapply reads_refuse_bind.
    { destruct prior as [p|]; [|done]. apply negb_false_iff, kltb_klt.
      specialize (Hprior p eq_refl). by inversion Hprior. }
    eapply reads_bind_nil; [by apply reads_lift_ok|]. cbn [fst snd].
    eapply reads_refuse_bind; [by apply bool_decide_eq_false_2; intros []|].
    rewrite Hsplit in *. apply IH; [done|]. by intros p [= <-].
Qed.

Lemma consumes_intents n : forall prior l, ledger_ok l ->
  consumes (read_intents n prior l) (fun l' _ => ledger_ok l').
Proof.
  induction n as [|n IH]; intros prior l Hl d l' d' H; cbn [read_intents] in H; cbv zeta in H.
  - apply dec_ret_ok in H as [<- <-]. by exists [].
  - apply dec_bind_ok in H as (who & d1 & H1 & H).
    destruct (consumes_fixed _ _ _ _ H1) as (b1 & R1 & -> & Hwho).
    apply dec_bind_ok in H as (b & d2 & H2 & H).
    destruct (consumes_m_bytes _ _ _ H2) as (b2 & R2 & _).
    apply dec_bind_ok in H as (op & d3 & H3 & H). apply dec_lift_ok in H3 as [H3 <-].
    apply DomainOp_decode_spec in H3 as [Hn _].
    apply dec_bind_ok in H as (u & d4 & H4 & H). apply dec_refuse_ok in H4 as [_ <-].
    apply dec_bind_ok in H as ([id l1] & d5 & H5 & H). apply dec_lift_ok in H5 as [H5 <-].
    apply dec_bind_ok in H as (u' & d6 & H6 & H). apply dec_refuse_ok in H6 as [_ <-].
    cbn [fst snd] in H. destruct (IH _ _ (prepare_ok _ _ _ _ _ Hl Hwho Hn H5) _ _ _ H)
      as (b3 & R3 & Hok).
    exists (lp who ++ b2 ++ b3). split; [|done]. rewrite R1, R2, R3. by rewrite <- !app_assoc.
Qed.

Lemma IntentLedger_decode_ok l :
  ledger_ok l -> IntentLedger_decode (ledger_bytes l) = Ok l.
Proof.
  intros Hl. unfold IntentLedger_decode.
  rewrite refuse_if_bind_false by (apply N.ltb_ge; by apply len_ledger_bytes).
  assert (Hr : reads IntentLedger_read (ledger_bytes l) l).
  { destruct Hl as [Hd Hw HF Hb Hc Hm] eqn:HE. clear HE. unfold IntentLedger_read, ledger_bytes. reads_go.
    - by apply reads_mal, reads_u8.
    - done.
    - by apply reads_document.
    - apply reads_mal, reads_u32. unfold MAX_INTENTS_PER_DOCUMENT, u32_max in *. lia.
    - by apply N.ltb_ge.
    - unfold len. rewrite Nat2N.id. destruct l as [document m b]; cbn in *. subst b.
      by apply (reads_intents document m [] None). }
  rewrite (run_exact_reads _ _ _ Hr), bind_Ok, (IntentLedger_encode_ok l Hl), bind_Ok.
  rewrite bool_decide_eq_false_2; [done|]. by intros [].
Qed.

Lemma IntentLedger_decode_inv bs l :
  IntentLedger_decode bs = Ok l -> IntentLedger_encode l = Ok bs /\ ledger_ok l.
Proof.
  unfold IntentLedger_decode. intros H. res_inv. bool_simpl. subst.
  split; [done|].
  apply (run_exact_consumes _ (fun l _ => ledger_ok l) _ _ Ha).
  intros d l' d' H'. unfold IntentLedger_read in H'.
  apply dec_bind_ok in H' as (v & d1 & H1 & H').
  destruct (consumes_m_u8 _ _ _ H1) as (b1 & R1 & _).
  apply dec_bind_ok in H' as (u & d2 & H2 & H'). apply dec_refuse_ok in H2 as [_ <-].
  apply dec_bind_ok in H' as (doc & d3 & H3 & H').
  destruct (consumes_document _ _ _ H3) as (b3 & R3 & _ & Hdoc).
  apply dec_bind_ok in H' as (c & d4 & H4 & H').
  destruct (consumes_m_u32 _ _ _ H4) as (b4 & R4 & _).
  apply dec_bind_ok in H' as (u' & d5 & H5 & H'). apply dec_refuse_ok in H5 as [_ <-].
  destruct (consumes_intents _ _ _ (ledger_new_ok _ Hdoc) _ _ _ H') as (b6 & R6 & Hok).
  exists (b1 ++ b3 ++ b4 ++ b6). split; [|done].
  rewrite R1, R3, R4, R6. by rewrite <- !app_assoc.
Qed.
End invariant.

(** * The ledger as a transition system *)

Inductive ledger_step {C : Crypto} : IntentLedger -> IntentLedger -> Prop :=
| step_prepare who op l id l' :
    length who = 32%nat -> length (op_nonce op) = 16%nat ->
    prepare who op l = Ok (id, l') -> ledger_step l l'
| step_remove ids l : ledger_step l (remove_ids ids l).2.

Lemma ledger_reachable_ok {C : Crypto} document l :
  document_ok document -> rtc ledger_step (IntentLedger_new document) l -> ledger_ok l.
Proof.
  intros Hd Hr. assert (Hgo : forall l1 l2, rtc ledger_step l1 l2 -> ledger_ok l1 -> ledger_ok l2).
  { clear. induction 1 as [|l1 l2 l3 Hs _ IH]; [done|]. intros H1. apply IH.
    destruct Hs; [by eapply prepare_ok | by apply remove_ids_ok]. }
  eapply Hgo; [done|]. by apply ledger_new_ok.
Qed.

(** * Properties of the ledger *)

(** Crash safety of the intent ledger. Every ledger reachable from an
    empty one by successful [prepare]s and by removals encodes (the 5 MiB cap
    never rejects it), stays within the 10,000-intent and 4 MiB budgets, counts
    exactly the bytes of its pending operations, and decoding the persisted
    bytes restores that very ledger. Restoring trusts nothing: any bytes that
    decode are the encoding of the ledger they give, which satisfies the whole
    invariant (every entry keyed by its recomputed id, in scope, in budget). *)
Theorem intent_ledger_crash_safe {C : Crypto} (document : LogicalDocument) (l : IntentLedger) :
  document_ok document -> rtc ledger_step (IntentLedger_new document) l ->
  (exists bs, IntentLedger_encode l = Ok bs /\ len bs <= MAX_INTENT_LEDGER_BYTES /\
              IntentLedger_decode bs = Ok l) /\
  len (intents l) <= MAX_INTENTS_PER_DOCUMENT /\
  encoded_operation_bytes l = total_size (intents l) /\
  encoded_operation_bytes l <= MAX_INTENT_BYTES_PER_DOCUMENT /\
  (forall input l', IntentLedger_decode input = Ok l' ->
     IntentLedger_encode l' = Ok input /\ ledger_ok l').
Proof.
  intros Hd Hr. pose proof (ledger_reachable_ok _ _ Hd Hr) as Hl. split.
  - exists (ledger_bytes l). split_and!;
      [by apply IntentLedger_encode_ok | by apply len_ledger_bytes | by apply IntentLedger_decode_ok].
  - destruct Hl. split_and!; try done. apply IntentLedger_decode_inv.
Qed.

(** [prepare] is idempotent and detects nonce reuse. After a successful
    [prepare] the intent is stored under its id and every other entry is
    unchanged; repeating the call returns the same id and ledger; and any
    different in-scope operation by the same author with the same nonce is
    refused with [IntentConflict]. *)
Theorem prepare_idempotent {C : Crypto} who op l id l' :
  prepare who op l = Ok (id, l') ->
  om_get id (intents l') = Some (mkLocalIntent who op) /\
  (forall id', id' <> id -> om_get id' (intents l') = om_get id' (intents l)) /\
  prepare who op l' = Ok (id, l') /\
  (forall op' e', op' <> op -> op_nonce op' = op_nonce op ->
     op_doc_type op' = op_doc_type op -> op_logical_key op' = op_logical_key op ->
     DomainOp_encode op' = Ok e' -> prepare who op' l' = Err IntentConflict).
Proof.
  intros H. apply prepare_inv in H as (-> & Ht & Hk & e & He & Hcase).
  set (id := DomainOp_id op who) in *.
  assert (Hl' : om_get id (intents l') = Some (mkLocalIntent who op) /\
                il_document l' = il_document l /\
                (forall id', id' <> id -> om_get id' (intents l') = om_get id' (intents l))).
  { destruct Hcase as [[Hg ->]|(Hg & _ & _ & ->)]; cbn; [done|].
    split_and!; [apply om_get_insert_eq | done |]. intros id' Hne. by apply om_get_insert_ne. }
  destruct Hl' as (Hget & Hdoc & Hothers). split_and!; try done.
  - unfold prepare. rewrite Hdoc, Ht, Hk, !bool_decide_eq_false_2 by (by intros []).
    rewrite refuse_if_bind_false by done. rewrite He, bind_Ok. fold id. rewrite Hget. cbn.
    by rewrite !bool_decide_eq_true_2.
  - intros op' e' Hne Hn Ht' Hk' He'. unfold prepare.
    rewrite Hdoc, Ht', Hk', Ht, Hk, !bool_decide_eq_false_2 by (by intros []).
    rewrite refuse_if_bind_false by done. rewrite He', bind_Ok.
    assert (DomainOp_id op' who = id) as ->
      by (unfold id, DomainOp_id; by rewrite Hn, Hk').
    rewrite Hget. cbn. rewrite (bool_decide_eq_false_2 (op = op')) by congruence.
    by rewrite andb_false_r.
Qed.

(** The removals drop exactly the named ids and keep the accounting exact:
    what remains is looked up as before, the count returned is the number of
    entries dropped, and the byte counter is the total of what remains. *)
Theorem remove_ids_exact {C : Crypto} (ids : list bytes) (l : IntentLedger) :
  ledger_ok l ->
  let '(n, l') := remove_ids ids l in
  (forall id, om_get id (intents l') =
     if bool_decide (id ∈ ids) then None else om_get id (intents l)) /\
  n + len (intents l') = len (intents l) /\
  encoded_operation_bytes l' = total_size (intents l').
Proof.
  intros Hl. rewrite (remove_ids_spec ids l Hl). destruct Hl as [Hd Hw _ _ _ _]. cbn.
  split_and!; [|unfold om_retain|done].
  - intros id. rewrite om_get_retain by done. destruct (om_get id (intents l)); by case_bool_decide.
  - pose proof (len_filter_le (fun kv : bytes * LocalIntent => negb (bool_decide (kv.1 ∈ ids)))
      (intents l)). lia.
Qed.

(** ** Witnesses *)

Definition sample_document : LogicalDocument :=
  mkLogicalDocument [x01; x02] StudioObject [x03].
Definition sample_author : bytes := be_bytes 32 5.
Definition sample_op (body : bytes) : DomainOp :=
  mkDomainOp (be_bytes 16 7) StudioObject [x03] body.

Definition sample_ledger : IntentLedger :=
  match prepare (C:=toy_crypto) sample_author (sample_op [x0a]) (IntentLedger_new sample_document) with
  | Ok (_, l) => l
  | Err _ => IntentLedger_new sample_document
  end.

Lemma sample_ledger_reachable :
  rtc (ledger_step (C:=toy_crypto)) (IntentLedger_new sample_document) sample_ledger.
Proof.
  apply rtc_once. eapply (step_prepare sample_author (sample_op [x0a]));
    [by rewrite ?length_be_bytes .. |]. by vm_compute.
Qed.

Lemma intent_ledger_crash_safe_witness :
  len (intents sample_ledger) = 1 /\
  exists bs, IntentLedger_encode sample_ledger = Ok bs /\
             IntentLedger_decode (C:=toy_crypto) bs = Ok sample_ledger.
Proof.
  split; [by vm_compute|].
  destruct (intent_ledger_crash_safe (C:=toy_crypto) sample_document sample_ledger)
    as [(bs & He & _ & Hd) _]; [by vm_compute | apply sample_ledger_reachable |].
  by exists bs.
Defined.

Lemma prepare_idempotent_witness :
  prepare (C:=toy_crypto) sample_author (sample_op [x0b]) sample_ledger = Err IntentConflict.
Proof.
  destruct (prepare_idempotent (C:=toy_crypto) sample_author (sample_op [x0a])
    (IntentLedger_new sample_document) (DomainOp_id (sample_op [x0a]) sample_author)
    sample_ledger) as (_ & _ & _ & H).
  - by vm_compute.
  - by eapply (H (sample_op [x0b])).
Defined.

Definition sample_id : bytes := DomainOp_id (C:=toy_crypto) (sample_op [x0a]) sample_author.

Lemma remove_ids_exact_witness :
  om_get sample_id (intents (remove_ids [sample_id] sample_ledger).2) = None.
Proof.
  assert (Hok : ledger_ok (C:=toy_crypto) sample_ledger)
    by (apply (ledger_reachable_ok sample_document); [by vm_compute | apply sample_ledger_reachable]).
  pose proof (remove_ids_exact (C:=toy_crypto) [sample_id] sample_ledger Hok) as H.
  destruct (remove_ids [sample_id] sample_ledger) as [n l']. destruct H as [H _].
  cbn [snd]. rewrite H. by rewrite bool_decide_eq_true_2 by (by left).
Defined.
