(* ===== verification/Authority.v ===== *)
(** Owner authority ([crates/catcoms-replication/src/authority.rs]).

    [OwnerAuthority] is the sealed trait of the same name: the four facts every
    repair and adoption check reads. Its two instances are the live MLS group
    and the view captured from it. The MLS library behind [ServerGroup] is not
    code of the repository; the group is the record of the four answers. *)

From S2P Require Import Prelude Crypto.
From stdpp Require Import base list.
Local Open Scope N_scope.

Class OwnerAuthority (G : Type) := {
  group_id : G -> bytes;
  group_epoch : G -> N;
  designated_committer : G -> option bytes;
  member_signature_key : G -> bytes -> option bytes
}.

Record ServerGroup := mkServerGroup {
  sg_group_id : bytes;
  sg_epoch : N;
  sg_designated_committer : option bytes;
  sg_member_signature_key : bytes -> option bytes
}.

#[global] Instance ServerGroup_authority : OwnerAuthority ServerGroup := {|
  group_id := sg_group_id;
  group_epoch := sg_epoch;
  designated_committer := sg_designated_committer;
  member_signature_key := sg_member_signature_key
|}.

Record CapturedOwnerAuthority := mkCapturedOwnerAuthority {
  ca_group_id : bytes;
  ca_epoch : N;
  ca_committer : option (bytes * bytes)
}.

#[global] Instance CapturedOwnerAuthority_eq_dec : EqDecision CapturedOwnerAuthority.
Proof. solve_decision. Defined.

Definition capture (group : ServerGroup) : CapturedOwnerAuthority :=
  mkCapturedOwnerAuthority (group_id group) (group_epoch group)
    (owner ← designated_committer group;
     key ← member_signature_key group owner;
     Some (owner, key)).

Definition captured_key (c : CapturedOwnerAuthority) (device : bytes) : option bytes :=
  match ca_committer c with
  | Some (owner, key) => if bool_decide (owner = device) then Some key else None
  | None => None
  end.

#[global] Instance CapturedOwnerAuthority_authority : OwnerAuthority CapturedOwnerAuthority := {|
  group_id := ca_group_id;
  group_epoch := ca_epoch;
  designated_committer c := fst <$> ca_committer c;
  member_signature_key := captured_key
|}.

(** [group.designated_committer() == Some(owner) && group.member_signature_key(&owner)
    == Some(key)]: the check every authority decision makes, in this order. *)
Definition is_current_owner {G} `{OwnerAuthority G} (g : G) (owner key : bytes) : bool :=
  bool_decide (designated_committer g = Some owner)
  && bool_decide (member_signature_key g owner = Some key).

Lemma is_current_owner_true {G} `{OwnerAuthority G} (g : G) owner key :
  is_current_owner g owner key = true <->
  designated_committer g = Some owner /\ member_signature_key g owner = Some key.
Proof. unfold is_current_owner. by rewrite andb_true_iff, !bool_decide_eq_true. Qed.

(** The captured view answers the owner check as the live group does. *)
Lemma capture_is_current_owner group owner key :
  is_current_owner (capture group) owner key = is_current_owner group owner key.
Proof.
  apply eq_bool_prop_intro. rewrite !Is_true_true, !is_current_owner_true. cbn.
  unfold captured_key; cbn. destruct (sg_designated_committer group) as [o|]; cbn; [|naive_solver].
  destruct (sg_member_signature_key group o) as [k|] eqn:E; cbn; [case_bool_decide|]; naive_solver.
Qed.
