(* ===== verification/Membership.v ===== *)
(** The roster queries of [crates/catcoms-mls/src/group.rs] and the node's own
    committer test of [crates/catcoms-sync/src/lib.rs].

    What OpenMLS keeps is not code of the repository; the model holds exactly
    what the queries read of it: the group id, the epoch, whether the local
    instance is active, and the list [members()] returns, in its order. The
    derived-key hash is a parameter. *)

From S2P Require Import Prelude Crypto Authority.
From stdpp Require Import base list.
Local Open Scope N_scope.

Record Member := mkMember {
  mb_index : N;
  mb_signature_key : bytes;
  mb_credential : bytes
}.
#[global] Instance Member_eq_dec : EqDecision Member.
Proof. solve_decision. Defined.

Record MlsGroup := mkMlsGroup {
  mg_group_id : bytes;
  mg_epoch : N;
  mg_members : list Member;
  mg_active : bool
}.

(** [members().min_by_key(|m| m.index.u32())]: the first of the smallest. *)
Fixpoint min_member (members : list Member) : option Member :=
  match members with
  | [] => None
  | m :: rest =>
      match min_member rest with
      | Some n => if mb_index n <? mb_index m then Some n else Some m
      | None => Some m
      end
  end.

Section roster.
Context {C : Crypto}.

Definition member_id (m : Member) : bytes := from_public_key_bytes (mb_signature_key m).

(** [members().find(|m| DeviceId::from_public_key_bytes(..) == *device_id)] *)
Fixpoint find_member (device_id : bytes) (members : list Member) : option Member :=
  match members with
  | [] => None
  | m :: rest => if bool_decide (member_id m = device_id) then Some m else find_member device_id rest
  end.

(** [ServerGroup::designated_committer] *)
Definition mls_designated_committer (g : MlsGroup) : option bytes := member_id <$> min_member (mg_members g).

Definition device_id (dev : MlsDevice) : bytes := from_public_key_bytes (public_key_bytes dev).

(** [ServerGroup::is_designated_committer] *)
Definition is_designated_committer (g : MlsGroup) (dev : MlsDevice) : bool :=
  bool_decide (mls_designated_committer g = Some (device_id dev)).

(** [members().map(|m| m.index.u32()).min()] *)
Definition designated_committer_index (g : MlsGroup) : option N :=
  match mb_index <$> mg_members g with
  | [] => None
  | i :: rest => Some (fold_left N.min rest i)
  end.

Definition member_leaf_index (g : MlsGroup) (device : bytes) : option N :=
  mb_index <$> find_member device (mg_members g).

(** [ServerGroup::member_signature_key] *)
Definition mls_member_signature_key (g : MlsGroup) (device : bytes) : option bytes :=
  mb_signature_key <$> find_member device (mg_members g).

Definition member_device_ids (g : MlsGroup) : list bytes := member_id <$> mg_members g.
Definition contains_device (g : MlsGroup) (device : bytes) : bool := bool_decide (device ∈ member_device_ids g).
Definition member_count (g : MlsGroup) : N := len (mg_members g).

(** [ChannelSync::is_designated_committer] compares leaf indices. *)
Definition node_is_committer (g : MlsGroup) (dev : MlsDevice) : bool :=
  match member_leaf_index g (device_id dev), designated_committer_index g with
  | Some i, Some c => i =? c
  | _, _ => false
  end.

(** [ServerGroup::designated_committer_leaf] *)
Definition LEAF_CONTEXT : bytes := bytes_of_string "catcoms/mls-committer-leaf/v1".
Definition designated_committer_leaf (derive_key : bytes -> bytes -> bytes) (g : MlsGroup) : option (N * bytes) :=
  m ← min_member (mg_members g);
  Some (mb_index m, derive_key LEAF_CONTEXT (be_bytes 4 (mb_index m) ++ mb_signature_key m ++ mb_credential m)).

#[global] Instance MlsGroup_authority : OwnerAuthority MlsGroup := {|
  group_id := mg_group_id;
  group_epoch := mg_epoch;
  designated_committer := mls_designated_committer;
  member_signature_key := mls_member_signature_key
|}.

(** * Lemmas *)

(** A well-formed roster: leaves and device identities are distinct. *)
Record roster_ok (g : MlsGroup) : Prop := mkRosterOk {
  ro_index : NoDup (mb_index <$> mg_members g);
  ro_ids : NoDup (member_device_ids g)
}.

Lemma min_member_spec l m :
  min_member l = Some m -> m ∈ l /\ Forall (fun n => mb_index m <= mb_index n) l.
Proof.
  revert m. induction l as [|x l IH]; intros m; cbn [min_member]; [done|].
  destruct (min_member l) as [n|] eqn:E.
  - destruct (IH n eq_refl) as [Hn Hall]. destruct (N.ltb_spec (mb_index n) (mb_index x)); intros [= <-].
    + split; [by apply list_elem_of_further|]. constructor; [lia|done].
    + split; [apply list_elem_of_here|]. constructor; [lia|]. eapply Forall_impl; [exact Hall|]. cbn. lia.
  - intros [= <-]. destruct l as [|y l]; [|by cbn in E; destruct (min_member l) as [?|]; [destruct (_ <? _)|]].
    split; [apply list_elem_of_here|]. by repeat constructor.
Qed.

Lemma min_member_None l : min_member l = None <-> l = [].
Proof.
  destruct l as [|x l]; [done|]. cbn. split; [|done]. by destruct (min_member l) as [n|]; [destruct (_ <? _)|].
Qed.

Lemma fold_min_spec l i : let m := fold_left N.min l i in (m = i \/ m ∈ l) /\ m <= i /\ Forall (fun n => m <= n) l.
Proof.
  revert i. induction l as [|x l IH]; intros i; cbn [fold_left]; [split_and!; [by left|done|done]|].
  destruct (IH (N.min i x)) as (H1 & H2 & H3). cbv zeta in *. split_and!; [|lia|constructor; [lia|done]].
  destruct H1 as [->|H1]; [|right; by apply list_elem_of_further].
  destruct (N.min_spec i x) as [[_ ->]|[_ ->]]; [by left|right; apply list_elem_of_here].
Qed.

Lemma committer_index_min g : designated_committer_index g = mb_index <$> min_member (mg_members g).
Proof.
  unfold designated_committer_index. destruct (mg_members g) as [|x l] eqn:E; [done|]. rewrite fmap_cons.
  destruct (min_member (x :: l)) as [m|] eqn:Em; [|by apply min_member_None in Em].
  apply min_member_spec in Em as [Hm Hall]. cbn. f_equal.
  destruct (fold_min_spec (mb_index <$> l) (mb_index x)) as (H1 & H2 & H3). cbv zeta in *.
  inversion_clear Hall as [|? ? Hx Hl]. apply N.le_antisymm.
  - apply elem_of_cons in Hm as [->|Hm]; [done|]. rewrite Forall_forall in H3. apply H3. apply list_elem_of_fmap. by exists m.
  - destruct H1 as [->|H1]; [done|]. apply list_elem_of_fmap in H1 as (n & -> & Hn).
    rewrite Forall_forall in Hl. by apply Hl.
Qed.

Lemma find_member_spec d l m : find_member d l = Some m -> m ∈ l /\ member_id m = d.
Proof.
  induction l as [|x l IH]; cbn; [done|]. case_bool_decide as Hx.
  - intros [= <-]. split; [apply list_elem_of_here|done].
  - intros [? ?]%IH. split; [by apply list_elem_of_further|done].
Qed.

Lemma find_member_elem l m : NoDup (member_id <$> l) -> m ∈ l -> find_member (member_id m) l = Some m.
Proof.
  induction l as [|x l IH]; intros Hn Hm; [by apply not_elem_of_nil in Hm|]. rewrite fmap_cons, NoDup_cons in Hn.
  destruct Hn as [Hx Hn]. cbn. apply elem_of_cons in Hm as [->|Hm]; [by rewrite bool_decide_eq_true_2|].
  rewrite bool_decide_eq_false_2; [by apply IH|]. intros E. apply Hx. rewrite E. apply list_elem_of_fmap. by exists m.
Qed.

Lemma find_min_member g m :
  roster_ok g -> min_member (mg_members g) = Some m -> find_member (member_id m) (mg_members g) = Some m.
Proof. intros [_ Hd] Hm. apply find_member_elem; [done|]. by apply min_member_spec in Hm as [? _]. Qed.

(** The node's test by leaf index is the group's test by identity. *)
Lemma node_committer_agrees g dev : roster_ok g -> node_is_committer g dev = is_designated_committer g dev.
Proof.
  intros Hok. pose proof (find_min_member g) as Hmin. destruct Hok as [Hi Hd].
  unfold node_is_committer, is_designated_committer, member_leaf_index, mls_designated_committer.
  rewrite committer_index_min. destruct (min_member (mg_members g)) as [m|] eqn:Em; cbn [fmap option_fmap option_map].
  - case_bool_decide as E.
    + injection E as E. rewrite <- E, (Hmin m) by done. cbn. apply N.eqb_refl.
    + destruct (find_member (device_id dev) (mg_members g)) as [n|] eqn:En; [|done]. cbn. apply N.eqb_neq. intros Ei.
      apply E. apply find_member_spec in En as [Hn <-]. apply min_member_spec in Em as [Hm _].
      apply list_elem_of_lookup in Hn as [i Hn], Hm as [j Hm].
      assert (i = j) as -> by (eapply (NoDup_lookup (mb_index <$> mg_members g)); [done|rewrite list_lookup_fmap, Hn; done|rewrite list_lookup_fmap, Hm; cbn; congruence]).
      congruence.
  - rewrite bool_decide_eq_false_2 by done. by destruct (find_member _ _).
Qed.

(** * Properties *)

(** The three committer tests agree. On a roster with distinct leaves and
    device identities, a node's own test by leaf index, the group's test by
    device identity, and the owner check the receipt code makes (committer
    identity and that member's signature key) all say the same, and at most one
    device passes. *)
Theorem committer_tests_agree g dev (Hok : roster_ok g) :
  node_is_committer g dev = is_designated_committer g dev /\
  (is_designated_committer g dev = true <->
     exists key, is_current_owner g (device_id dev) key = true) /\
  (forall other, is_designated_committer g dev = true -> is_designated_committer g other = true ->
     device_id other = device_id dev).
Proof.
  pose proof (find_min_member g) as Hmin. split_and!; [by apply node_committer_agrees| |].
  - unfold is_designated_committer. rewrite bool_decide_eq_true. split.
    + intros E. unfold mls_designated_committer in E. destruct (min_member (mg_members g)) as [m|] eqn:Em; [|done].
      injection E as E. exists (mb_signature_key m). apply is_current_owner_true. cbn. unfold mls_designated_committer.
      rewrite Em. cbn. rewrite E. split; [done|]. unfold mls_member_signature_key. by rewrite <- E, (Hmin m) by done.
    + intros [key [H _]%is_current_owner_true]. exact H.
  - unfold is_designated_committer. intros other. rewrite !bool_decide_eq_true. congruence.
Qed.
End roster.

Definition toy_roster : MlsGroup :=
  mkMlsGroup (bytes_of_string "g") 5
    [mkMember 3 (be_bytes 32 66) []; mkMember 1 (be_bytes 32 65) []; mkMember 7 (be_bytes 32 67) []] true.

Lemma toy_roster_ok : roster_ok (C:=toy_crypto) toy_roster.
Proof. constructor; apply (bool_decide_eq_true_1 _); vm_compute; reflexivity. Qed.

Lemma committer_tests_agree_witness :
  node_is_committer (C:=toy_crypto) toy_roster (toy_device 65) = is_designated_committer (C:=toy_crypto) toy_roster (toy_device 65).
Proof. exact (proj1 (committer_tests_agree (C:=toy_crypto) toy_roster (toy_device 65) toy_roster_ok)). Defined.
