(* ===== verification/SignedOp.v ===== *)
(** Signed and sealed operations ([crates/catcoms-replication/src/op.rs]).

    A [SignedOp] is a change with its author's inner signature; a [SealedOp] is
    a padded [SignedOp] under a document's channel key. The AEAD cipher and the
    group's key exporter are not code of the repository: the class [Aead] and
    the field [cg_export] stand for them, and [AeadLaws] says what sealing
    relies on. *)

From S2P Require Import Prelude Wire Context Pad Crypto Codec BoundedChange EpochBase Intent Authority Membership.
From stdpp Require Import base list.
From Stdlib Require Import Init.Byte.
Local Open Scope N_scope.

(** * The cipher, the random source and the channel key *)

(** [XChaCha20Poly1305::{encrypt, decrypt}]: key, nonce, text. *)
Class Aead := {
  aead_encrypt : bytes -> bytes -> bytes -> option bytes;
  aead_decrypt : bytes -> bytes -> bytes -> option bytes
}.

(** Decryption inverts encryption, and the ciphertext carries a 16-byte tag. *)
Class AeadLaws (A : Aead) : Prop := {
  aead_opens k n p c : aead_encrypt k n p = Some c -> aead_decrypt k n c = Some p;
  aead_tag k n p c : aead_encrypt k n p = Some c -> len c = len p + 16
}.

(** The injected random source: an unbounded byte stream and a position. *)
Record Rng := mkRng { rng_stream : nat -> Byte.byte; rng_at : nat }.

Definition fill_bytes (n : nat) (r : Rng) : bytes * Rng :=
  (rng_stream r <$> seq (rng_at r) n, mkRng (rng_stream r) (rng_at r + n)).

(** A group as sealing sees it: the roster and the epoch exporter. *)
Record ChannelGroup := mkChannelGroup {
  cg_mls : MlsGroup;
  cg_export : bytes -> bytes -> N -> option bytes
}.

Definition CHANNEL_EXPORTER_LABEL : bytes := bytes_of_string "catcoms channel v1".
Definition KEY_LEN : N := 32.

Definition channel_secret (g : ChannelGroup) (t : DocType) (doc_id : N) : result ReplError bytes :=
  secret ← ok_or (cg_export g CHANNEL_EXPORTER_LABEL (exporter_context t doc_id) KEY_LEN) Mls;
  _ ← refuse_if (negb (len secret =? KEY_LEN)) Mls;
  Ok secret.

Record SealedBlob := mkSealedBlob { sb_nonce : bytes; sb_ciphertext : bytes }.

#[global] Instance SealedBlob_eq_dec : EqDecision SealedBlob.
Proof. solve_decision. Defined.

Section keystore.
Context {A : Aead}.

(** [catcoms_crypto::seal] and [unseal] *)
Definition seal (key plaintext : bytes) (rng : Rng) : result ReplError SealedBlob * Rng :=
  let '(nonce, rng) := fill_bytes 24 rng in
  (match aead_encrypt key nonce plaintext with
   | Some c => Ok (mkSealedBlob nonce c)
   | None => Err Keystore
   end, rng).

Definition unseal (key : bytes) (blob : SealedBlob) : result ReplError bytes :=
  ok_or (aead_decrypt key (sb_nonce blob) (sb_ciphertext blob)) Keystore.
End keystore.

(** * Signed operations *)

Definition OP_DOMAIN : bytes := bytes_of_string "catcoms/op/v1".
Definition DOMAIN_OP_DOMAIN : bytes := bytes_of_string "catcoms/op/v2".

Definition check_domain_delta (delta : bytes) (t : DocType) : result ReplError unit :=
  _ ← refuse_if (MAX_SIGNED_EPOCH_OP_BYTES <? len delta) EpochBound;
  _ ← refuse_if ((len delta <? 10) || bool_decide (firstn 4 delta <> MAGIC)
                 || bool_decide (nth_error delta 8 <> Some x01)) Malformed;
  change_check delta (if bool_decide (t = DocRegistry) then 7 else MAX_ACTIONS).

Record SignedOp := mkSignedOp {
  so_doc_type : DocType;
  so_doc_id : N;
  so_author_device : bytes;
  so_author_pubkey : bytes;
  so_delta : bytes;
  so_domain_op : option bytes;
  so_signature : bytes
}.

#[global] Instance SignedOp_eq_dec : EqDecision SignedOp.
Proof. solve_decision. Defined.

Definition signing_payload (t : DocType) (doc_id : N) (author_pubkey delta : bytes)
    (domain_op : option bytes) : bytes :=
  let e := [] |> put_bytes_x (match domain_op with Some _ => DOMAIN_OP_DOMAIN | None => OP_DOMAIN end)
              |> put_u16 (doc_tag t)
              |> put_u128 doc_id
              |> put_bytes_x author_pubkey
              |> put_bytes_x delta in
  match domain_op with Some d => put_bytes_x d e | None => e end.

(** [SignedOp::encode] *)
Definition op_encode (op : SignedOp) : bytes :=
  let e := [] |> put_u16 (doc_tag (so_doc_type op))
              |> put_u128 (so_doc_id op)
              |> put_bytes_x (so_author_pubkey op)
              |> put_bytes_x (so_delta op)
              |> put_bytes_x (so_signature op) in
  match so_domain_op op with Some d => e |> put_u8 2 |> put_bytes_x d | None => e end.

(** The version byte and the domain operation after it. *)
Definition get_domain_op (t : DocType) : dec ReplError bytes :=
  version ← mal get_u8;
  _ ← dec_refuse (negb (version =? 2)) Malformed;
  encoded ← mal get_bytes;
  parsed ← dec_lift (DomainOp_decode encoded);
  _ ← dec_refuse (bool_decide (op_doc_type parsed <> t)) EpochScope;
  mret encoded.

Section signed.
Context {C : Crypto}.

Definition get_signed_op : dec ReplError SignedOp :=
  tag ← mal get_u16;
  t ← dec_lift (ok_or (doc_from_tag tag) Malformed);
  doc_id ← mal get_u128;
  author_pubkey ← mal get_bytes;
  delta ← mal get_bytes;
  signature ← get_fixed 64;
  domain_op ← get_more (get_domain_op t);
  mret (mkSignedOp t doc_id (from_public_key_bytes author_pubkey) author_pubkey delta domain_op signature).

(** [SignedOp::decode] *)
Definition op_decode (input : bytes) : result ReplError SignedOp :=
  op ← run_exact get_signed_op input;
  _ ← match so_domain_op op with Some _ => check_domain_delta (so_delta op) (so_doc_type op) | None => Ok tt end;
  Ok op.

(** [SignedOp::sign] *)
Definition op_sign (dev : MlsDevice) (t : DocType) (doc_id : N) (delta : bytes)
    : result ReplError SignedOp :=
  let pk := public_key_bytes dev in
  signature ← ok_or (device_sign dev (signing_payload t doc_id pk delta None)) Mls;
  Ok (mkSignedOp t doc_id (device_id dev) pk delta None signature).

Definition sign_domain (dev : MlsDevice) (t : DocType) (doc_id : N) (delta : bytes) (domain_op : DomainOp)
    : result ReplError SignedOp :=
  _ ← refuse_if (bool_decide (op_doc_type domain_op <> t)) EpochScope;
  _ ← check_domain_delta delta t;
  encoded_domain ← DomainOp_encode domain_op;
  let pk := public_key_bytes dev in
  signature ← ok_or (device_sign dev (signing_payload t doc_id pk delta (Some encoded_domain))) Mls;
  Ok (mkSignedOp t doc_id (device_id dev) pk delta (Some encoded_domain) signature).

(** The v2 checks [verify] makes before the signature. *)
Definition domain_op_valid (op : SignedOp) : bool :=
  match so_domain_op op with
  | None => true
  | Some encoded =>
      is_ok (check_domain_delta (so_delta op) (so_doc_type op))
      && match DomainOp_decode encoded with
         | Ok d => bool_decide (op_doc_type d = so_doc_type op)
         | Err _ => false
         end
  end.

(** [SignedOp::verify] *)
Definition op_verify (op : SignedOp) : bool :=
  if bool_decide (from_public_key_bytes (so_author_pubkey op) <> so_author_device op) then false
  else if negb (domain_op_valid op) then false
  else verify_with_public_bytes (so_author_pubkey op)
         (signing_payload (so_doc_type op) (so_doc_id op) (so_author_pubkey op) (so_delta op) (so_domain_op op))
         (so_signature op).

(** [SignedOp::parsed_domain_op] *)
Definition parsed_domain_op (op : SignedOp) : result ReplError (option DomainOp) :=
  match so_domain_op op with
  | None => Ok None
  | Some encoded => Some <$> DomainOp_decode encoded
  end.

(** [SignedOp::hash] *)
Definition signed_op_hash (op : SignedOp) : bytes := blake3 (op_encode op).
End signed.

(** * Sealed operations *)

Record SealedOp := mkSealedOp {
  sl_doc_type : DocType;
  sl_doc_id : N;
  sl_epoch : N;
  sl_blob : SealedBlob
}.

#[global] Instance SealedOp_eq_dec : EqDecision SealedOp.
Proof. solve_decision. Defined.

Section sealed.
Context {C : Crypto} {A : Aead}.

(** [SealedOp::seal]; a step that fails leaves the random source untouched
    unless the nonce was already drawn. *)
Definition op_seal (op : SignedOp) (g : ChannelGroup) (rng : Rng) : result ReplError SealedOp * Rng :=
  match channel_secret g (so_doc_type op) (so_doc_id op) with
  | Err e => (Err e, rng)
  | Ok key =>
      match pad (op_encode op) OP_PAD_FLOOR OP_PAD_CEILING with
      | Err _ => (Err Malformed, rng)
      | Ok padded =>
          let '(blob, rng) := seal key padded rng in
          (b ← blob; Ok (mkSealedOp (so_doc_type op) (so_doc_id op) (mg_epoch (cg_mls g)) b), rng)
      end
  end.

(** [SealedOp::open] *)
Definition op_open (s : SealedOp) (channel_key : bytes) : result ReplError SignedOp :=
  plaintext ← unseal channel_key (sl_blob s);
  body ← map_err (fun _ => Malformed) (unpad plaintext OP_PAD_FLOOR OP_PAD_CEILING);
  op_decode body.

(** [SealedOp::encode] *)
Definition sealed_encode (s : SealedOp) : bytes :=
  [] |> put_u16 (doc_tag (sl_doc_type s))
     |> put_u128 (sl_doc_id s)
     |> put_u64 (sl_epoch s)
     |> put_bytes_x (sb_nonce (sl_blob s))
     |> put_bytes_x (sb_ciphertext (sl_blob s)).

Definition get_sealed_op : dec ReplError SealedOp :=
  tag ← mal get_u16;
  t ← dec_lift (ok_or (doc_from_tag tag) Malformed);
  doc_id ← mal get_u128;
  epoch ← mal get_u64;
  nonce ← get_fixed 24;
  ciphertext ← mal get_bytes;
  mret (mkSealedOp t doc_id epoch (mkSealedBlob nonce ciphertext)).

(** [SealedOp::decode] *)
Definition sealed_decode (input : bytes) : result ReplError SealedOp := run_exact get_sealed_op input.
End sealed.

(** * Lemmas *)

Lemma length_fill n r : length (fill_bytes n r).1 = n.
Proof. cbn. by rewrite length_fmap, length_seq. Qed.

Lemma channel_secret_inv g t id key : channel_secret g t id = Ok key -> length key = 32%nat.
Proof.
  unfold channel_secret. intros H. res_inv. bool_simpl. unfold len, KEY_LEN in *. lia.
Qed.

(** The v2 tail of a frame. *)
Definition domain_tail (d : bytes) : bytes := be_bytes 1 2 ++ lp d.

Lemma op_encode_eq op :
  op_encode op = be_bytes 2 (doc_tag (so_doc_type op)) ++ be_bytes 16 (so_doc_id op) ++
    lp (so_author_pubkey op) ++ lp (so_delta op) ++ lp (so_signature op) ++ more_bytes domain_tail (so_domain_op op).
Proof.
  unfold op_encode, put_u16, put_u128, put_u8, domain_tail.
  destruct (so_domain_op op) as [d|]; rewrite !put_bytes_x_lp; cbn [app more_bytes];
    by rewrite <- ?app_assoc, ?app_nil_r.
Qed.

Lemma signing_payload_eq t id pk delta dom :
  signing_payload t id pk delta dom =
    lp (match dom with Some _ => DOMAIN_OP_DOMAIN | None => OP_DOMAIN end) ++ be_bytes 2 (doc_tag t) ++
    be_bytes 16 id ++ lp pk ++ lp delta ++ more_bytes lp dom.
Proof.
  unfold signing_payload, put_u16, put_u128.
  destruct dom as [d|]; rewrite !put_bytes_x_lp; cbn [app more_bytes]; by rewrite <- ?app_assoc, ?app_nil_r.
Qed.

(** The fields' widths, which the Rust types give. *)
Record signed_op_typed (op : SignedOp) : Prop := mkOpTyped {
  st_id : so_doc_id op <= u128_max;
  st_pubkey : len (so_author_pubkey op) <= u32_max;
  st_delta : len (so_delta op) <= u32_max;
  st_signature : length (so_signature op) = 64%nat;
  st_domain d : so_domain_op op = Some d -> len d <= u32_max
}.

Definition domain_field_ok (t : DocType) (d : bytes) : Prop :=
  exists parsed, DomainOp_decode d = Ok parsed /\ op_doc_type parsed = t.

(** What decoding guarantees of an operation. *)
Record signed_op_ok `{C : Crypto} (op : SignedOp) : Prop := mkSignedOpOk {
  sk_typed : signed_op_typed op;
  sk_author : so_author_device op = from_public_key_bytes (so_author_pubkey op);
  sk_domain d : so_domain_op op = Some d ->
    domain_field_ok (so_doc_type op) d /\ check_domain_delta (so_delta op) (so_doc_type op) = Ok tt
}.

Lemma DomainOp_decode_len d parsed : DomainOp_decode d = Ok parsed -> len d <= u32_max.
Proof.
  intros [_ H]%DomainOp_decode_spec. destruct (DomainOp_encode_inv _ _ H) as (_ & Hl & _).
  unfold MAX_DOMAIN_OP_BYTES, u32_max in *. lia.
Qed.

Lemma reads_domain_op t d : domain_field_ok t d -> reads (get_domain_op t) (domain_tail d) d.
Proof.
  intros (parsed & Hd & Ht). unfold get_domain_op, domain_tail. pose proof (DomainOp_decode_len _ _ Hd).
  reads_go.
  - by apply reads_mal, reads_u8.
  - done.
  - by apply reads_mal, reads_bytes.
  - exact Hd.
  - apply bool_decide_eq_false_2. by intros [].
Qed.

Lemma consumes_domain_op t : consumes (get_domain_op t) (fun d bs => bs = domain_tail d /\ domain_field_ok t d).
Proof.
  intros d v d' H. unfold get_domain_op in H. dec_step H. bool_simpl. destruct Hr as [-> _], Hr1 as [-> _].
  exists (be_bytes 1 v0 ++ lp v2). split; [by rewrite R, R0, <- !app_assoc|]. subst. split; [done|].
  by eexists.
Qed.

Lemma consumes_domain_more t :
  consumes (get_more (get_domain_op t)) (fun o bs => match o with
    | Some d => bs = domain_tail d /\ domain_field_ok t d | None => bs = [] end).
Proof. exact (consumes_more _ _ (consumes_domain_op t)). Qed.
#[local] Hint Resolve consumes_domain_more : mewtual_dec.

Section framing.
Context {C : Crypto}.

(** [get_signed_op] accepts exactly the frames of well-typed operations. *)
Lemma reads_signed_op op : signed_op_ok op -> reads_all get_signed_op (op_encode op) op.
Proof.
  intros [[] Hauthor Hdom]. rewrite op_encode_eq. unfold get_signed_op. destruct op; cbn in *. subst.
  eapply reads_all_bind; [apply reads_mal, reads_u16, doc_tag_u16|].
  eapply reads_all_lift; [by rewrite doc_from_tag_tag|].
  eapply reads_all_bind; [by apply reads_mal, reads_u128|].
  eapply reads_all_bind; [by apply reads_mal, reads_bytes|].
  eapply reads_all_bind; [by apply reads_mal, reads_bytes|].
  eapply reads_all_bind; [by apply reads_fixed|].
  eapply (reads_all_last (get_more _) (fun d => mkSignedOp _ _ _ _ _ d _)), reads_all_more.
  intros d ->. split; [by apply reads_domain_op, Hdom|].
  unfold domain_tail. autorewrite with mewtual_len. lia.
Qed.

Lemma consumes_signed_op :
  consumes get_signed_op (fun op bs => bs = op_encode op /\ signed_op_typed op /\
    so_author_device op = from_public_key_bytes (so_author_pubkey op) /\
    forall d, so_domain_op op = Some d -> domain_field_ok (so_doc_type op) d).
Proof.
  intros d op d' H. unfold get_signed_op in H. dec_step H.
  destruct Hr as [-> _], Hr1 as [-> ?], Hr2 as [-> ?], Hr3 as [-> ?], Hr4 as [-> ?].
  destruct (doc_from_tag v) as [t|] eqn:Et; [|done]. injection Hr0 as <-. apply doc_tag_from_tag in Et. subst v.
  eexists. split; [|split; [|split]]; cycle 1.
  - rewrite op_encode_eq. cbn. reflexivity.
  - constructor; cbn; try done. intros q ->. destruct Hr5 as (_ & p & Hp & _). by eapply DomainOp_decode_len.
  - split; [done|]. cbn. intros q ->. by destruct Hr5.
  - rewrite R, R0, R1, R2, R3, R4. rewrite <- !app_assoc. repeat f_equal.
    destruct v5; [by destruct Hr5 as [-> _] | by subst].
Qed.

(** Decoding accepts exactly the encodings of valid operations. *)
Lemma op_decode_spec bs op : op_decode bs = Ok op <-> bs = op_encode op /\ signed_op_ok op.
Proof.
  unfold op_decode. split.
  - intros H. apply bind_ok in H as (o & Ho & H). apply bind_ok in H as ([] & Hc & [= ->]).
    pose proof (run_exact_consumes _ _ _ _ Ho consumes_signed_op) as (-> & Ht & Ha & Hd). split; [done|].
    constructor; [done..|]. intros d E. rewrite E in Hc. auto.
  - intros [-> Hok]. rewrite (run_exact_reads_all _ _ _ (reads_signed_op _ Hok)), bind_Ok.
    destruct (so_domain_op op) as [d|] eqn:E; [|done]. by rewrite (proj2 (sk_domain _ Hok d E)).
Qed.

Lemma op_decode_encode op : signed_op_ok op -> op_decode (op_encode op) = Ok op.
Proof. intros H. by apply op_decode_spec. Qed.

Lemma op_encode_inj a b : signed_op_ok a -> signed_op_ok b -> op_encode a = op_encode b -> a = b.
Proof. intros Ha Hb E. apply op_decode_encode in Ha, Hb. rewrite E in Ha. congruence. Qed.
End framing.

(** The part of an operation its author's signature covers. *)
Definition authored (op : SignedOp) : DocType * N * bytes * bytes * option bytes :=
  (so_doc_type op, so_doc_id op, so_author_pubkey op, so_delta op, so_domain_op op).

Definition op_payload (op : SignedOp) : bytes :=
  signing_payload (so_doc_type op) (so_doc_id op) (so_author_pubkey op) (so_delta op) (so_domain_op op).

Lemma be_app_inj w a b r s : a < 256 ^ N.of_nat w -> b < 256 ^ N.of_nat w ->
  be_bytes w a ++ r = be_bytes w b ++ s -> a = b /\ r = s.
Proof.
  intros Ha Hb H. apply app_inj_1 in H as [H ->]; [|by rewrite !length_be_bytes].
  split; [|done]. by rewrite <- (be_val_be_bytes w a Ha), H, be_val_be_bytes.
Qed.

Lemma signing_payload_inj a b :
  signed_op_typed a -> signed_op_typed b -> op_payload a = op_payload b -> authored a = authored b.
Proof.
  intros [] [] H. unfold op_payload in H. rewrite !signing_payload_eq in H.
  assert (Hd : forall o : option bytes, len (match o with Some _ => DOMAIN_OP_DOMAIN | None => OP_DOMAIN end) <= u32_max)
    by (intros []; by vm_compute).
  apply lp_app_inj in H as [H0 H]; [|apply Hd..].
  apply be_app_inj in H as [H1%doc_tag_inj H];
    [|rewrite pow256_2, N.add_1_r; apply N.lt_succ_r, doc_tag_u16 ..].
  apply be_app_inj in H as [H2 H]; [|rewrite pow256_16; lia ..].
  apply lp_app_inj in H as [H3 H]; [|done..]. apply lp_app_inj in H as [H4 H]; [|done..].
  unfold authored. rewrite H1, H2, H3, H4. f_equal.
  destruct (so_domain_op a) as [d|], (so_domain_op b) as [d'|]; cbn in *; try done.
  f_equal. rewrite <- (app_nil_r (lp d)), <- (app_nil_r (lp d')) in H. apply lp_app_inj in H as [? _]; auto.
Qed.

Section authorship.
Context {C : Crypto}.

Lemma op_verify_true op :
  op_verify op = true <->
  from_public_key_bytes (so_author_pubkey op) = so_author_device op /\ domain_op_valid op = true /\
  verify_with_public_bytes (so_author_pubkey op) (op_payload op) (so_signature op) = true.
Proof.
  unfold op_verify. case_bool_decide as E; cbn [negb].
  - split; [done|]. by intros [? _].
  - destruct (domain_op_valid op); cbn [negb]; naive_solver.
Qed.

Lemma verify_point pk m s : verify_with_public_bytes pk m s = true -> ed25519_verify_strict pk m s = true.
Proof. unfold verify_with_public_bytes. by repeat case_match. Qed.

Lemma domain_op_valid_true op d :
  so_domain_op op = Some d ->
  domain_op_valid op = true <->
  domain_field_ok (so_doc_type op) d /\ check_domain_delta (so_delta op) (so_doc_type op) = Ok tt.
Proof.
  intros E. unfold domain_op_valid, domain_field_ok. rewrite E.
  destruct (check_domain_delta _ _) as [[]|e]; cbn; [|naive_solver].
  destruct (DomainOp_decode d) as [p|e] eqn:Ed; [|naive_solver].
  rewrite bool_decide_eq_true. naive_solver.
Qed.

(** An operation a device signed is valid, verifies and names that device. *)
Definition sane_request (t : DocType) (doc_id : N) (delta : bytes) : Prop :=
  doc_id <= u128_max /\ len delta <= u32_max.

Lemma op_sign_ok dev t id delta op :
  honest_device dev -> sane_request t id delta -> op_sign dev t id delta = Ok op ->
  signed_op_ok op /\ op_verify op = true /\ so_author_device op = device_id dev.
Proof.
  intros Hdev [Hid Hl] H. unfold op_sign in H. apply bind_ok in H as (s & Hs & [= <-]).
  destruct (device_sign _ _) as [s'|] eqn:E; [|done]. injection Hs as ->.
  pose proof Hdev as (Hk & _ & Hsig). destruct (Hsig _ _ E) as [Hsl _]. split_and!.
  - constructor; cbn; [constructor; cbn; try done; by apply (len_u32_of_length _ 32) | done | done].
  - apply op_verify_true. split_and!; [done..|]. by apply (honest_verify dev).
  - done.
Qed.

Lemma sign_domain_ok dev t id delta dop op :
  honest_device dev -> sane_request t id delta -> length (op_nonce dop) = 16%nat ->
  sign_domain dev t id delta dop = Ok op ->
  signed_op_ok op /\ op_verify op = true /\ so_author_device op = device_id dev /\ so_domain_op op <> None.
Proof.
  intros Hdev [Hid Hl] Hn H. unfold sign_domain in H. apply refuse_if_bind_ok in H as [Ht H]. bool_simpl.
  apply bind_ok in H as ([] & Hc & H). apply bind_ok in H as (e & He & H). apply bind_ok in H as (s & Hs & [= <-]).
  destruct (device_sign _ _) as [s'|] eqn:E; [|done]. injection Hs as ->.
  pose proof Hdev as (Hk & _ & Hsig). destruct (Hsig _ _ E) as [Hsl _].
  assert (Hf : domain_field_ok t e) by (exists dop; split; [by apply DomainOp_decode_spec | done]).
  split_and!; [| |done..].
  - constructor; cbn; [constructor; cbn; try done| done |].
    + by apply (len_u32_of_length _ 32).
    + intros d [= <-]. destruct Hf as (p & Hp & _). by eapply DomainOp_decode_len.
    + by intros d [= <-].
  - apply op_verify_true. split_and!; [done| |by apply (honest_verify dev)].
    by eapply (domain_op_valid_true _ e).
Qed.
End authorship.

(** * Sealing *)

Section sealing.
Context {C : Crypto} {A : Aead} `{!AeadLaws A}.

Lemma op_seal_inv op g rng s rng' :
  op_seal op g rng = (Ok s, rng') ->
  exists key padded c nonce, channel_secret g (so_doc_type op) (so_doc_id op) = Ok key /\
    pad (op_encode op) OP_PAD_FLOOR OP_PAD_CEILING = Ok padded /\
    length nonce = 24%nat /\ aead_encrypt key nonce padded = Some c /\
    s = mkSealedOp (so_doc_type op) (so_doc_id op) (mg_epoch (cg_mls g)) (mkSealedBlob nonce c).
Proof.
  unfold op_seal. destruct (channel_secret _ _ _) as [key|] eqn:Ek; [|done].
  destruct (pad _ _ _) as [padded|] eqn:Ep; [|done]. unfold seal.
  pose proof (length_fill 24 rng) as Hn. destruct (fill_bytes 24 rng) as [nonce r] eqn:Ef. cbn in Hn.
  destruct (aead_encrypt key nonce padded) as [c|] eqn:Ec; [|done]. intros [= <- <-].
  by exists key, padded, c, nonce.
Qed.

Lemma pad_len body frame : pad body OP_PAD_FLOOR OP_PAD_CEILING = Ok frame ->
  len frame = padded_len (len body) OP_PAD_FLOOR OP_PAD_CEILING + 4.
Proof.
  unfold pad. destruct (_ <? _); [done|]. intros [= <-]. autorewrite with mewtual_len. rewrite len_replicate.
  pose proof (padded_len_ge (len body) OP_PAD_FLOOR OP_PAD_CEILING). lia.
Qed.

(** What is sealed opens under the same channel key, and its transported size
    is the bucket and a constant. *)
Lemma op_seal_spec op g rng s rng' :
  signed_op_ok op -> op_seal op g rng = (Ok s, rng') ->
  (exists key, channel_secret g (so_doc_type op) (so_doc_id op) = Ok key /\ op_open s key = Ok op) /\
  sl_doc_type s = so_doc_type op /\ sl_doc_id s = so_doc_id op /\ sl_epoch s = mg_epoch (cg_mls g) /\
  len (sealed_encode s) + 4 = padded_len (len (op_encode op)) OP_PAD_FLOOR OP_PAD_CEILING + 82.
Proof using Type*.
  intros Hok H. apply op_seal_inv in H as (key & padded & c & nonce & Hk & Hp & Hn & Hc & ->).
  split; [|split_and!; [done..|]].
  - exists key. split; [done|]. unfold op_open, unseal. cbn [sl_blob sb_nonce sb_ciphertext].
    rewrite (aead_opens _ _ _ _ Hc). cbn [ok_or]. rewrite bind_Ok, (unpad_pad _ _ _ _ Hp). cbn [map_err].
    rewrite bind_Ok. by apply op_decode_encode.
  - apply pad_len in Hp. pose proof (aead_tag _ _ _ _ Hc) as Ht.
    unfold sealed_encode. cbn [sl_doc_type sl_doc_id sl_epoch sl_blob sb_nonce sb_ciphertext].
    unfold put_u16, put_u128, put_u64. rewrite !put_bytes_x_lp. autorewrite with mewtual_len.
    rewrite Ht, Hp. unfold len in *. rewrite Hn. lia.
Qed.

Definition sealed_typed (s : SealedOp) : Prop :=
  sl_doc_id s <= u128_max /\ sl_epoch s <= u64_max /\
  length (sb_nonce (sl_blob s)) = 24%nat /\ len (sb_ciphertext (sl_blob s)) <= u32_max.

Lemma sealed_encode_eq s :
  sealed_encode s = be_bytes 2 (doc_tag (sl_doc_type s)) ++ be_bytes 16 (sl_doc_id s) ++
    be_bytes 8 (sl_epoch s) ++ lp (sb_nonce (sl_blob s)) ++ lp (sb_ciphertext (sl_blob s)).
Proof. unfold sealed_encode, put_u16, put_u128, put_u64. rewrite !put_bytes_x_lp. cbn [app]. by rewrite <- !app_assoc. Qed.

Lemma sealed_decode_spec bs s : sealed_decode bs = Ok s <-> bs = sealed_encode s /\ sealed_typed s.
Proof.
  split.
  - intros H. eapply (run_exact_consumes get_sealed_op (fun s bs => bs = sealed_encode s /\ sealed_typed s) _ _ H). clear.
    intros d s d' H. unfold get_sealed_op in H. dec_step H.
    destruct Hr as [-> _], Hr1 as [-> ?], Hr2 as [-> ?], Hr3 as [-> ?], Hr4 as [-> ?].
    destruct (doc_from_tag v) as [t|] eqn:Et; [|done]. injection Hr0 as <-. apply doc_tag_from_tag in Et. subst v.
    eexists. split; [|split; [rewrite sealed_encode_eq; cbn; reflexivity | by split_and!]].
    rewrite R, R0, R1, R2, R3. by rewrite <- !app_assoc.
  - intros [-> (H1 & H2 & H3 & H4)]. unfold sealed_decode. apply run_exact_reads. rewrite sealed_encode_eq.
    destruct s as [t id ep [n c]]; cbn in *. unfold get_sealed_op. reads_go.
    + apply reads_mal, reads_u16, doc_tag_u16.
    + by rewrite doc_from_tag_tag.
    + by apply reads_mal, reads_u128.
    + by apply reads_mal, reads_u64.
    + by apply reads_fixed.
    + by apply reads_mal, reads_bytes.
Qed.
End sealing.

(** * Properties *)

(** The device's key verifies only payloads from this list: no forgery. *)
Definition unforgeable `{C : Crypto} (pk : bytes) (signed : list bytes) : Prop :=
  forall m s, ed25519_verify_strict pk m s = true -> m ∈ signed.

(** Signed operations have one canonical form. Decoding accepts a byte
    string exactly when it is the encoding of an operation whose fields have
    their widths, whose author is the content address of the carried key and,
    for a v2 envelope, whose domain operation is canonical, of the same
    document type and whose raw change passes the bounded preflight. So the
    optional tail makes v1 and v2 unambiguous and the stored hash identifies
    one operation: equal encodings are equal operations. *)
Theorem signed_op_exact {C : Crypto} (bs : bytes) (op : SignedOp) :
  (op_decode bs = Ok op <-> bs = op_encode op /\ signed_op_ok op) /\
  (forall op', signed_op_ok op -> signed_op_ok op' -> op_encode op = op_encode op' -> op = op').
Proof. split; [apply op_decode_spec | intros; by apply op_encode_inj]. Qed.

(** C21: Re-sealed history keeps its authorship. Suppose the key of an author
    verifies nothing but the payloads of the operations that author signed.
    Then whatever operation a peer puts into a sealed frame, under whichever
    channel key and epoch, if it opens and verifies under that author's key it
    agrees with an operation the author signed in document, key, change bytes
    and domain operation: a relay can neither alter nor re-attribute it, nor
    turn a v1 operation into a v2 one. *)
Theorem resealed_history_authentic {C : Crypto} {A : Aead} (pk : bytes) (ops : list SignedOp) (s : SealedOp)
    (channel_key : bytes) (op : SignedOp) :
  unforgeable pk (op_payload <$> ops) -> Forall signed_op_typed ops ->
  op_open s channel_key = Ok op -> op_verify op = true -> so_author_pubkey op = pk ->
  so_author_device op = from_public_key_bytes pk /\ exists op', op' ∈ ops /\ authored op = authored op'.
Proof.
  intros Hu Hops Ho Hv <-. apply op_verify_true in Hv as (Ha & _ & Hv). split; [done|].
  apply verify_point, Hu, list_elem_of_fmap in Hv as (op' & E & Hin). exists op'. split; [done|].
  unfold op_open in Ho. apply bind_ok in Ho as (p & _ & Ho). apply bind_ok in Ho as (b & _ & Ho).
  apply op_decode_spec in Ho as [_ [Ht _ _]]. apply signing_payload_inj; [done| |done].
  by eapply Forall_forall in Hops.
Qed.

(** A sealed operation arrives as it was. Sealing a valid operation under a
    group's channel key and carrying it over the wire gives back the same
    sealed frame, which opens under that key to the very operation; the frame
    names the operation's document and the group's epoch; and its size on the
    wire, with the four bytes of list framing, is the padding bucket of the
    operation and 82, which is what the catch-up pager charges before sealing. *)
Theorem sealed_op_travels {C : Crypto} {A : Aead} {L : AeadLaws A} op g rng s rng' :
  signed_op_ok op -> op_seal op g rng = (Ok s, rng') ->
  mg_epoch (cg_mls g) <= u64_max -> len (op_encode op) + 20 <= u32_max ->
  sealed_decode (sealed_encode s) = Ok s /\
  (exists key, channel_secret g (so_doc_type op) (so_doc_id op) = Ok key /\ op_open s key = Ok op) /\
  (sl_doc_type s, sl_doc_id s, sl_epoch s) = (so_doc_type op, so_doc_id op, mg_epoch (cg_mls g)) /\
  len (sealed_encode s) + 4 = padded_len (len (op_encode op)) OP_PAD_FLOOR OP_PAD_CEILING + 82.
Proof.
  intros Hok H He Hl. destruct (op_seal_spec _ _ _ _ _ Hok H) as (Hopen & E1 & E2 & E3 & Hlen).
  split; [|split_and!; [done|by rewrite E1, E2, E3|done]].
  apply sealed_decode_spec. split; [done|]. unfold sealed_typed. rewrite E2, E3.
  apply op_seal_inv in H as (key & padded & c & nonce & _ & Hp & Hn & Hc & ->).
  split_and!; [apply Hok|done|done|]. cbn [sl_blob sb_ciphertext]. rewrite (aead_tag _ _ _ _ Hc), (pad_len _ _ Hp).
  assert (padded_len (len (op_encode op)) OP_PAD_FLOOR OP_PAD_CEILING <= N.max (len (op_encode op)) OP_PAD_CEILING).
  { unfold padded_len. destruct (N.ltb_spec OP_PAD_CEILING (len (op_encode op))); [lia|].
    transitivity OP_PAD_CEILING; [|lia]. apply (next_power_of_two_least _ 20). unfold OP_PAD_FLOOR, OP_PAD_CEILING in *. lia. }
  assert (OP_PAD_CEILING + 20 <= u32_max) by (by vm_compute). lia.
Qed.

(** * Witnesses *)

(** A cipher that appends an empty tag, and one that opens what it wrote. *)
#[global] Instance toy_aead : Aead := {|
  aead_encrypt _ _ p := Some (p ++ replicate 16 x00);
  aead_decrypt _ _ c := if len c <? 16 then None else Some (firstn (length c - 16) c)
|}.

#[global] Instance toy_aead_laws : AeadLaws toy_aead.
Proof.
  split; cbv [aead_encrypt aead_decrypt toy_aead]; intros k n p c H;
    assert (c = p ++ replicate 16 x00) as -> by congruence; clear H.
  - rewrite (proj2 (N.ltb_ge _ _)) by (autorewrite with mewtual_len; rewrite len_replicate; lia).
    rewrite length_app, length_replicate. f_equal. rewrite firstn_app.
    replace (length p + 16 - 16)%nat with (length p) by lia. rewrite firstn_all, Nat.sub_diag. cbn [firstn].
    by rewrite app_nil_r.
  - autorewrite with mewtual_len. by rewrite len_replicate.
Qed.

Definition toy_channel_group : ChannelGroup :=
  mkChannelGroup (mkMlsGroup [x01] 3 [] true) (fun _ _ n => Some (replicate (N.to_nat n) x2a)).
Definition toy_rng : Rng := mkRng (fun n => n2b (N.of_nat n)) 0.

Definition toy_signed_op : SignedOp :=
  let pk := public_key_bytes (toy_device 7) in
  mkSignedOp Channel 5 (from_public_key_bytes (C:=toy_crypto) pk) pk [x0a; x0b] None
    (toy_sign (signing_payload Channel 5 pk [x0a; x0b] None)).

Lemma toy_signed_op_ok : signed_op_ok (C:=toy_crypto) toy_signed_op.
Proof.
  constructor; [constructor|done|done]; [by vm_compute .. | | done]. apply length_toy_sign.
Qed.

Definition toy_sealed_op : SealedOp :=
  match (op_seal toy_signed_op toy_channel_group toy_rng).1 with Ok s => s | Err _ => mkSealedOp Channel 0 0 (mkSealedBlob [] []) end.
Lemma toy_op_seal :
  op_seal toy_signed_op toy_channel_group toy_rng = (Ok toy_sealed_op, (op_seal toy_signed_op toy_channel_group toy_rng).2).
Proof. vm_compute. reflexivity. Qed.
Lemma toy_op_len : len (op_encode toy_signed_op) + 20 <= u32_max.
Proof. vm_compute. discriminate. Qed.
Lemma toy_op_open : op_open (C:=toy_crypto) toy_sealed_op (replicate 32 x2a) = Ok toy_signed_op.
Proof. vm_compute. reflexivity. Qed.

Lemma sealed_op_travels_witness : sealed_decode (sealed_encode toy_sealed_op) = Ok toy_sealed_op.
Proof.
  apply (sealed_op_travels (C:=toy_crypto) toy_signed_op toy_channel_group toy_rng toy_sealed_op _ toy_signed_op_ok toy_op_seal).
  - discriminate.
  - exact toy_op_len.
Defined.

(** A signature scheme under which exactly one payload was ever signed. *)
Definition one_payload_crypto (payload : bytes) : Crypto := {|
  sha256 := toy_digest;
  blake3 := toy_digest;
  ed25519_point _ := true;
  ed25519_verify_strict _ m s := bool_decide (m = payload) && bool_decide (s = toy_sign m)
|}.
Definition once_crypto : Crypto := one_payload_crypto (op_payload toy_signed_op).

Lemma once_unforgeable pk : unforgeable (C:=once_crypto) pk (op_payload <$> [toy_signed_op]).
Proof.
  intros m s H. cbn in H. apply andb_true_iff in H as [H _]. apply bool_decide_eq_true in H as ->.
  apply list_elem_of_here.
Qed.
Lemma once_open : op_open (C:=once_crypto) toy_sealed_op (replicate 32 x2a) = Ok toy_signed_op.
Proof. vm_compute. reflexivity. Qed.
Lemma once_verify : op_verify (C:=once_crypto) toy_signed_op = true.
Proof. vm_compute. reflexivity. Qed.

Lemma resealed_history_authentic_witness :
  exists op', op' ∈ [toy_signed_op] /\ authored toy_signed_op = authored op'.
Proof.
  apply (resealed_history_authentic (C:=once_crypto) (so_author_pubkey toy_signed_op) [toy_signed_op] toy_sealed_op
    (replicate 32 x2a) toy_signed_op).
  - exact (once_unforgeable (so_author_pubkey toy_signed_op)).
  - constructor; [exact (sk_typed _ toy_signed_op_ok) | constructor].
  - exact once_open.
  - exact once_verify.
  - reflexivity.
Defined.
