(* ===== verification/Automerge.v ===== *)
(** The interface to Automerge, the CRDT library behind every document.

    Automerge is not code of the repository. A [Change] is what the repository
    reads of a parsed change, the class [Automerge] holds the document's
    operations, and [AutomergeLaws] what the code relies on: the changes of a
    document form a graph that is closed under dependencies, enumerated
    dependencies first, and never loses a change. A document is seen through
    its graph, the partial map from hashes to changes; [behind] is ancestry. *)

From S2P Require Import Prelude.
From stdpp Require Import base list gmap relations.
From Stdlib Require Import Init.Byte.
Local Open Scope N_scope.

Record Change := mkChange {
  ch_hash : bytes;
  ch_deps : list bytes;
  ch_actor : bytes;
  ch_raw : bytes;
  ch_seq : N;
  ch_start_op : N;
  ch_timestamp : Z;
  ch_message : option bytes;
  ch_extra : bytes;
  ch_op_count : N;
  (** the map keys its operations name *)
  ch_map_keys : list bytes
}.

#[global] Instance Change_eq_dec : EqDecision Change.
Proof. solve_decision. Defined.

(** * Graphs of changes *)

Definition graph := bytes -> option Change.

(** [a] is [h] itself or one of its ancestors, all of them known. *)
Inductive behind (G : graph) : bytes -> bytes -> Prop :=
| behind_self h c : G h = Some c -> behind G h h
| behind_dep h c p a : G h = Some c -> p ∈ ch_deps c -> behind G p a -> behind G h a.

Definition extends (G G' : graph) : Prop := forall h c, G h = Some c -> G' h = Some c.

(** Every dependency of a known change is known. *)
Definition deps_closed (G : graph) : Prop :=
  forall h c p, G h = Some c -> p ∈ ch_deps c -> is_Some (G p).

(** The two graphs name the same changes by the same hashes. *)
Definition agree (G G' : graph) : Prop :=
  forall h c c', G h = Some c -> G' h = Some c' -> ch_deps c = ch_deps c'.

#[global] Instance extends_preorder : PreOrder extends.
Proof. split; [by intros G h c|]. intros G1 G2 G3 H1 H2 h c H. by apply H2, H1. Qed.

Lemma behind_known G h a : behind G h a -> is_Some (G h) /\ is_Some (G a).
Proof. induction 1 as [h c E|h c p a E _ _ [_ IH]]; rewrite ?E; eauto. Qed.

Lemma behind_trans G h p a : behind G h p -> behind G p a -> behind G h a.
Proof. induction 1 as [|h c p q E Hp _ IH]; [done|]. intros Ha. eapply behind_dep; eauto. Qed.

Lemma behind_extends G G' h a : extends G G' -> behind G h a -> behind G' h a.
Proof.
  intros HG. induction 1 as [h c E|h c p a E Hp _ IH]; [by eapply behind_self, HG|].
  eapply behind_dep; [by apply HG|done|done].
Qed.

(** What lies behind a change another graph also knows lies in that graph. *)
Lemma behind_agree G G' h a :
  agree G G' -> deps_closed G' -> behind G h a -> is_Some (G' h) -> behind G' h a.
Proof.
  intros Hag Hcl. induction 1 as [h c E|h c p a E Hp _ IH]; intros [c' E'].
  - by eapply behind_self.
  - rewrite (Hag _ _ _ E E') in Hp. eapply behind_dep; [done..|]. apply IH. by eapply Hcl.
Qed.

(** * Enumerated graphs *)

Definition hashes (l : list Change) : list bytes := ch_hash <$> l.

(** Dependencies come first: every change depends only on earlier ones. *)
Definition deps_first (l : list Change) : Prop :=
  forall l1 c l2, l = l1 ++ c :: l2 -> forall p, p ∈ ch_deps c -> p ∈ hashes l1.

(** The graph [l] enumerates. *)
Definition enumerated (l : list Change) (G : graph) : Prop :=
  NoDup (hashes l) /\ deps_first l /\ forall h c, G h = Some c <-> c ∈ l /\ ch_hash c = h.

Lemma enumerated_hash l G h : enumerated l G -> is_Some (G h) <-> h ∈ hashes l.
Proof.
  intros (_ & _ & H). unfold hashes. rewrite list_elem_of_fmap. split.
  - intros [c Hc]. apply H in Hc as [Hc <-]. eauto.
  - intros (c & -> & Hc). exists c. by apply H.
Qed.

Lemma enumerated_closed l G : enumerated l G -> deps_closed G.
Proof.
  intros He h c p Hc Hp. pose proof He as (_ & Hd & Hg). apply Hg in Hc as [Hc _].
  apply list_elem_of_split in Hc as (l1 & l2 & ->). apply (enumerated_hash _ _ _ He).
  unfold hashes. rewrite fmap_app. apply elem_of_app. left. by eapply Hd.
Qed.

(** A change's ancestors are enumerated no later than it. *)
Lemma behind_earlier l G l1 c l2 a :
  enumerated l G -> l = l1 ++ c :: l2 -> behind G (ch_hash c) a -> a = ch_hash c \/ a ∈ hashes l1.
Proof.
  intros He. revert c l2 a. pose proof He as (Hn & Hd & Hg).
  induction l1 as [l1 IH] using (induction_ltof1 _ (@length Change)). unfold ltof in IH.
  intros c l2 a -> Hb. inversion Hb as [h c' E|h c' p a' E Hp Hb']; subst; [by left|right].
  assert (c' = c) as ->.
  { apply Hg in E as [E Eh]. apply list_elem_of_split in E as (m1 & m2 & E).
    assert (Hc : (m1 ++ c' :: m2) !! length l1 = Some c) by (rewrite <- E; by apply list_lookup_middle).
    assert (Hm : (m1 ++ c' :: m2) !! length m1 = Some c') by (by apply list_lookup_middle).
    rewrite E in Hn. unfold hashes in Hn.
    assert (length m1 = length l1) as Hlen.
    { eapply NoDup_lookup; [exact Hn| |]; rewrite list_lookup_fmap; [rewrite Hm|rewrite Hc]; cbn; [done|by f_equal]. }
    rewrite <- Hlen, Hm in Hc. congruence. }
  pose proof (Hd _ _ _ eq_refl p Hp) as Hpl. unfold hashes in Hpl. apply list_elem_of_fmap in Hpl as (q & -> & Hq).
  apply list_elem_of_split in Hq as (k1 & k2 & ->).
  destruct (IH k1 ltac:(rewrite length_app; cbn; lia) q (k2 ++ c :: l2) a ltac:(by rewrite <- app_assoc) Hb') as [->|Ha].
  - unfold hashes. rewrite fmap_app. apply elem_of_app. right. left.
  - unfold hashes in *. rewrite fmap_app. apply elem_of_app. by left.
Qed.

(** * The library *)

Class Automerge := {
  AutoCommit : Type;
  (** [Change::from_bytes]; the error carries its rendered text *)
  change_from_bytes : bytes -> result bytes Change;
  (** [AutoCommit::new().with_actor(..)] *)
  am_new : bytes -> AutoCommit;
  am_set_actor : bytes -> AutoCommit -> AutoCommit;
  (** [get_changes_meta(&[])] *)
  am_changes : AutoCommit -> list Change;
  am_get_change_by_hash : AutoCommit -> graph;
  am_get_heads : AutoCommit -> list bytes;
  (** these two may leave a partly mutated document behind an error *)
  am_load_incremental : bytes -> AutoCommit -> result bytes unit * AutoCommit;
  am_apply_changes : list Change -> AutoCommit -> result bytes unit * AutoCommit;
  am_commit : AutoCommit -> AutoCommit;
  am_get_last_local_change : AutoCommit -> option Change;
  am_save : AutoCommit -> bytes;
  am_load : bytes -> result bytes AutoCommit;
  (** [get(ROOT, key)] holds the scalar [Uint(1)] *)
  am_marker : AutoCommit -> bytes -> result bytes bool;
  (** [put(ROOT, key, 1u64)] *)
  am_put_one : bytes -> AutoCommit -> result bytes AutoCommit;
  am_root_keys : AutoCommit -> list bytes
}.

Class AutomergeLaws (M : Automerge) : Prop := {
  am_graph d : enumerated (am_changes d) (am_get_change_by_hash d);
  am_new_empty actor : am_changes (am_new actor) = [];
  am_set_actor_changes actor d : am_changes (am_set_actor actor d) = am_changes d;
  am_load_incremental_extends b d :
    extends (am_get_change_by_hash d) (am_get_change_by_hash (am_load_incremental b d).2);
  am_apply_extends cs d :
    extends (am_get_change_by_hash d) (am_get_change_by_hash (am_apply_changes cs d).2);
  am_commit_extends d : extends (am_get_change_by_hash d) (am_get_change_by_hash (am_commit d));
  am_put_one_extends k d d' : am_put_one k d = Ok d' -> extends (am_get_change_by_hash d) (am_get_change_by_hash d');
  (** a head is a change no other change depends on *)
  am_heads_spec d h :
    h ∈ am_get_heads d <->
    is_Some (am_get_change_by_hash d h) /\
    forall h' c, am_get_change_by_hash d h' = Some c -> (h ∉ ch_deps c);
  am_heads_nodup d : NoDup (am_get_heads d);
  (** a change whose dependencies are known enters the graph at once *)
  am_load_incremental_ready b c d d' :
    change_from_bytes b = Ok c -> am_load_incremental b d = (Ok tt, d') ->
    (forall p, p ∈ ch_deps c -> is_Some (am_get_change_by_hash d p)) ->
    is_Some (am_get_change_by_hash d' (ch_hash c));
  (** a root key was put there by some change *)
  am_root_keys_spec d k : k ∈ am_root_keys d -> exists c, c ∈ am_changes d /\ k ∈ ch_map_keys c;
  (** an empty document holds nothing but what it is given *)
  am_apply_new actor c x :
    x ∈ am_changes (am_apply_changes [c] (am_new actor)).2 -> x = c;
  am_load_save d : exists d', am_load (am_save d) = Ok d' /\
    am_changes d' = am_changes d /\ am_get_heads d' = am_get_heads d
}.

Section laws.
Context {M : Automerge} {L : AutomergeLaws M}.

Definition doc_extends (d d' : AutoCommit) : Prop :=
  extends (am_get_change_by_hash d) (am_get_change_by_hash d').

Lemma doc_closed d : deps_closed (am_get_change_by_hash d).
Proof using L. eapply enumerated_closed, am_graph. Qed.

Lemma same_changes_extends d d' : am_changes d = am_changes d' -> doc_extends d d'.
Proof using L.
  intros E h c. destruct (am_graph d) as (_ & _ & H), (am_graph d') as (_ & _ & H').
  rewrite H, H', E. done.
Qed.
End laws.

(** * A concrete instance, for witnesses

    A document is the list of the raw changes it was given, over any parser of
    changes; saving writes every byte behind a marker. In [toy_automerge] a
    change is one byte for its own hash and one for each dependency. *)

Definition escape (raw : bytes) : bytes := concat ((fun b => [x01; b]) <$> raw) ++ [x00].

Fixpoint unescape (cur bs : bytes) : list bytes :=
  match bs with
  | x01 :: b :: rest => unescape (cur ++ [b]) rest
  | x00 :: rest => cur :: unescape [] rest
  | _ => []
  end.

Lemma unescape_escape raws : unescape [] (concat (escape <$> raws)) = raws.
Proof.
  induction raws as [|raw raws IH]; [done|]. cbn [fmap list_fmap concat]. unfold escape at 1. rewrite <- app_assoc.
  enough (H : forall cur, unescape cur (concat ((fun b => [x01; b]) <$> raw) ++ [x00] ++ concat (escape <$> raws)) =
    (cur ++ raw) :: raws) by apply H.
  induction raw as [|b raw IHr]; intros cur; [cbn; by rewrite IH, app_nil_r|].
  cbn [fmap list_fmap concat app unescape]. rewrite IHr, <- app_assoc. done.
Qed.

Definition toy_hash (b : Byte.byte) : bytes := replicate 31 x00 ++ [b].

Definition toy_change_from_bytes (bs : bytes) : result bytes Change :=
  match bs with
  | [] => Err []
  | b :: ds => Ok (mkChange (toy_hash b) (toy_hash <$> ds) [] bs 1 1 0 None [] 1 [])
  end.

Definition toy_find (l : list Change) (h : bytes) : option Change :=
  head (filter (fun c => ch_hash c = h) l).

Definition toy_ready (l : list Change) (c : Change) : bool :=
  bool_decide (Forall (fun p => p ∈ hashes l) (ch_deps c) /\ ch_hash c ∉ hashes l).

Definition toy_apply (l : list Change) (c : Change) : list Change :=
  if toy_ready l c then l ++ [c] else l.

(** The changes a list of candidates builds up, one at a time. *)
Definition toy_build (cs : list Change) : list Change := fold_left toy_apply cs [].

Lemma toy_apply_ok l c : NoDup (hashes l) /\ deps_first l -> NoDup (hashes (toy_apply l c)) /\ deps_first (toy_apply l c).
Proof.
  intros [Hn Hd]. unfold toy_apply, toy_ready. case_bool_decide as H; [|done]. destruct H as [Hf Hc]. split.
  - unfold hashes in *. rewrite fmap_app. apply NoDup_app. cbn. split_and!; [done| |apply NoDup_singleton].
    intros x Hx ->%list_elem_of_singleton. done.
  - intros l1 x l2 E p Hp. destruct (decide (l2 = [])) as [->|Hl2].
    + apply app_inj_tail in E as [-> ->]. by eapply Forall_forall in Hf.
    + destruct (exists_last Hl2) as (m & y & ->). rewrite app_comm_cons, app_assoc in E. apply app_inj_tail in E as [E _].
      by eapply Hd.
Qed.

Lemma toy_build_ok cs : NoDup (hashes (toy_build cs)) /\ deps_first (toy_build cs).
Proof.
  unfold toy_build. assert (H0 : NoDup (hashes []) /\ deps_first []).
  { split; [apply NoDup_nil_2|]. intros [|] ? ? [=]. }
  revert H0. generalize (@nil Change). induction cs as [|c cs IH]; intros l Hl; [done|]. by apply IH, toy_apply_ok.
Qed.

Lemma toy_build_snoc cs c : toy_build (cs ++ [c]) = toy_apply (toy_build cs) c.
Proof. unfold toy_build. by rewrite fold_left_app. Qed.

Lemma toy_find_spec l h c : NoDup (hashes l) -> toy_find l h = Some c <-> c ∈ l /\ ch_hash c = h.
Proof.
  intros Hn. unfold toy_find. split.
  - intros E. apply head_Some_elem_of in E. apply list_elem_of_filter in E as [? ?]. done.
  - intros [Hc Hh]. destruct (filter (fun c => ch_hash c = h) l) as [|c' r] eqn:E; cbn.
    + exfalso. apply (not_elem_of_nil c). rewrite <- E. by apply list_elem_of_filter.
    + assert (H : c' ∈ filter (fun c => ch_hash c = h) l) by (rewrite E; left).
      apply list_elem_of_filter in H as [Hh' Hc']. f_equal. unfold hashes in Hn. apply NoDup_fmap_1 in Hn as Hn1.
      apply list_elem_of_lookup in Hc as [i Hi], Hc' as [j Hj].
      assert (i = j) as ->; [|congruence].
      eapply (NoDup_lookup _ _ _ h Hn); rewrite list_lookup_fmap, ?Hi, ?Hj; cbn; by f_equal.
Qed.

Definition toy_heads (l : list Change) : list bytes :=
  filter (fun h => Forall (fun c => h ∉ ch_deps c) l) (hashes l).

Section parsing.
Context (parse : bytes -> result bytes Change).

Definition parse_ok (raw : bytes) : option Change := match parse raw with Ok c => Some c | Err _ => None end.

Definition built (d : list bytes) : list Change := toy_build (omap parse_ok d).

(** A change is applied by its raw bytes, if they are what it was parsed from. *)
Definition apply_raw (d : list bytes) (c : Change) : list bytes :=
  if bool_decide (parse_ok (ch_raw c) = Some c) then d ++ [ch_raw c] else d.

Definition parsing_automerge : Automerge := {|
  AutoCommit := list bytes;
  change_from_bytes := parse;
  am_new _ := [];
  am_set_actor _ d := d;
  am_changes d := built d;
  am_get_change_by_hash d := toy_find (built d);
  am_get_heads d := toy_heads (built d);
  am_load_incremental b d := match parse b with Ok _ => (Ok tt, d ++ [b]) | Err e => (Err e, d) end;
  am_apply_changes cs d := (Ok tt, fold_left apply_raw cs d);
  am_commit d := d;
  am_get_last_local_change d := last (built d);
  am_save d := concat (escape <$> d);
  am_load b := Ok (unescape [] b);
  am_marker d k := Ok (existsb (fun c => bool_decide (k ∈ ch_map_keys c)) (built d));
  am_put_one _ d := Ok d;
  am_root_keys _ := []
|}.

Lemma toy_apply_elem l c x : x ∈ l -> x ∈ toy_apply l c.
Proof using. intros H. unfold toy_apply. destruct (toy_ready l c); [apply elem_of_app; by left|done]. Qed.

Lemma built_snoc d b : built (d ++ [b]) = match parse_ok b with Some c => toy_apply (built d) c | None => built d end.
Proof using.
  unfold built. rewrite omap_app. cbn [omap list_omap]. destruct (parse_ok b); [by rewrite toy_build_snoc|by rewrite app_nil_r].
Qed.

Lemma built_extends d b : extends (toy_find (built d)) (toy_find (built (d ++ [b]))).
Proof using.
  rewrite built_snoc. destruct (parse_ok b) as [x|] eqn:E; [|reflexivity].
  intros h c. unfold built. rewrite <- (toy_build_snoc (omap parse_ok d) x). rewrite !toy_find_spec by apply toy_build_ok.
  intros [H ?]. split; [|done]. rewrite toy_build_snoc. by apply toy_apply_elem.
Qed.

#[global] Instance parsing_automerge_laws : AutomergeLaws parsing_automerge.
Proof using.
  assert (G : forall d : list bytes, enumerated (built d) (toy_find (built d))).
  { intros d. unfold built. destruct (toy_build_ok (omap parse_ok d)). split_and!; [done..|]. intros. by apply toy_find_spec. }
  constructor.
  - exact G.
  - done.
  - done.
  - intros b d. cbn. destruct (parse b); [apply built_extends|reflexivity].
  - intros cs d. cbn. revert d. induction cs as [|c cs IH]; intros d; cbn; [reflexivity|]. etransitivity; [|apply IH].
    unfold apply_raw. case_bool_decide; [apply built_extends|reflexivity].
  - intros d. reflexivity.
  - intros k d d' [= <-]. reflexivity.
  - intros d h. cbn. unfold toy_heads. rewrite list_elem_of_filter, (enumerated_hash _ _ h (G d)), Forall_forall.
    destruct (G d) as (_ & _ & Hg). split.
    + intros [H1 H2]. split; [done|]. intros h' c [Hc _]%Hg. by apply H1.
    + intros [H1 H2]. split; [|done]. intros c Hc. apply (H2 (ch_hash c)). by apply Hg.
  - intros d. cbn. apply NoDup_filter. apply toy_build_ok.
  - intros b c d d' Hb. cbn in Hb |- *. rewrite Hb. intros [= <-] Hp. apply (enumerated_hash _ _ _ (G (d ++ [b]))).
    rewrite built_snoc. unfold parse_ok. rewrite Hb. unfold toy_apply, toy_ready. case_bool_decide as H.
    + unfold hashes. rewrite fmap_app. apply elem_of_app. right. left.
    + destruct (decide (ch_hash c ∈ hashes (built d))) as [|Hn]; [done|]. destruct H. split; [|done].
      apply Forall_forall. intros p Hin. apply (enumerated_hash _ _ _ (G d)), Hp, Hin.
  - by intros d k ?%elem_of_nil.
  - intros actor c x. cbn. unfold apply_raw, built. case_bool_decide as Hc; [|by intros ?%elem_of_nil]. cbn. rewrite Hc.
    unfold toy_build, toy_apply; cbn. destruct (toy_ready [] c); [by intros ?%list_elem_of_singleton|by intros ?%elem_of_nil].
  - intros d. exists d. cbn. by rewrite unescape_escape.
Qed.
End parsing.

#[global] Instance toy_automerge : Automerge := parsing_automerge toy_change_from_bytes.
#[global] Instance toy_automerge_laws : AutomergeLaws toy_automerge := parsing_automerge_laws toy_change_from_bytes.
