(* ===== verification/Catchup.v ===== *)
(** Ancestry certificates ([crates/catcoms-replication/src/catchup_index.rs]).

    For each change a document holds, the index may keep a few ranges of log
    positions known to carry that change or its ancestors. A catch-up page
    skips those ranges without reading the operations in them, so the ranges
    must never cover a position that carries anything else. *)

From S2P Require Import Prelude Automerge.
From stdpp Require Import base list gmap sorting.
From Stdlib Require Import Init.Byte.
Local Open Scope N_scope.

Definition MAX_ENTRIES : N := 4096.
Definition MAX_RANGES : N := 8.
Definition MAX_PARENTS : N := 32.
Definition MAX_MERGED_RANGES : N := MAX_PARENTS * MAX_RANGES + 1.

Record LogRange := mkLogRange { lr_start : N; lr_end : N }.

#[global] Instance LogRange_eq_dec : EqDecision LogRange.
Proof. solve_decision. Defined.

(** The filled part of the fixed array, and whether it is exhaustive. *)
Record Certificate := mkCertificate { ce_ranges : list LogRange; ce_complete : bool }.

Record AncestryIndex := mkAncestryIndex {
  ai_certificates : gmap bytes Certificate;
  ai_order : list bytes;
  ai_capacity : N
}.

Definition with_capacity (capacity : N) : AncestryIndex :=
  mkAncestryIndex ∅ [] (N.min capacity MAX_ENTRIES).

(** [AncestryIndex::default] *)
Definition index_default : AncestryIndex := with_capacity MAX_ENTRIES.

Definition index_get (ix : AncestryIndex) (hash : bytes) : option Certificate := ai_certificates ix !! hash.

(** * Merging ranges *)

Definition by_start_end (a b : LogRange) : comparison :=
  then_cmp (N.compare (lr_start a) (lr_start b)) (N.compare (lr_end a) (lr_end b)).
Definition by_width (a b : LogRange) : comparison :=
  then_cmp (N.compare (lr_end b - lr_start b) (lr_end a - lr_start a)) (N.compare (lr_start a) (lr_start b)).
Definition by_start (a b : LogRange) : comparison := N.compare (lr_start a) (lr_start b).

(** One step of the in-place loop; the written prefix is held last first. *)
Definition merge_step (written : list LogRange) (next : LogRange) : list LogRange :=
  match written with
  | last :: rest =>
      if lr_start next <=? lr_end last
      then mkLogRange (lr_start last) (N.max (lr_end last) (lr_end next)) :: rest
      else next :: written
  | [] => [next]
  end.

Definition merge_ranges (ranges : list LogRange) : list LogRange :=
  rev (fold_left merge_step (sort_by by_start_end ranges) []).

(** * Recording a change *)

(** The union over the first [MAX_PARENTS] dependencies. *)
Fixpoint gather (certificates : gmap bytes Certificate) (deps : list bytes) (ranges : list LogRange) (complete : bool)
    : list LogRange * bool :=
  match deps with
  | [] => (ranges, complete)
  | dependency :: rest =>
      match certificates !! dependency with
      | Some parent => gather certificates rest (ranges ++ ce_ranges parent) (complete && ce_complete parent)
      | None => gather certificates rest ranges false
      end
  end.

(** The ranges a new slot of [hash] starts from. *)
Definition inherited_ranges (certificates : gmap bytes Certificate) (hash : bytes) (deps : list bytes)
    : list LogRange * bool :=
  match certificates !! hash with
  | Some existing => (ce_ranges existing, ce_complete existing)
  | None => gather certificates (firstn (N.to_nat MAX_PARENTS) deps) [] (len deps <=? MAX_PARENTS)
  end.

(** At most [MAX_RANGES] of them: the widest, then in log order again. *)
Definition cap_ranges (ranges : list LogRange) (complete : bool) : Certificate :=
  if MAX_RANGES <? len ranges
  then mkCertificate (sort_by by_start (firstn (N.to_nat MAX_RANGES) (sort_by by_width ranges))) false
  else mkCertificate ranges complete.

(** Room for one more entry: the oldest is dropped when the index is full. *)
Definition evict (ix : AncestryIndex) : gmap bytes Certificate * list bytes :=
  if ai_capacity ix <=? N.of_nat (size (ai_certificates ix))
  then match ai_order ix with
       | oldest :: rest => (delete oldest (ai_certificates ix), rest)
       | [] => (ai_certificates ix, [])
       end
  else (ai_certificates ix, ai_order ix).

(** One queue entry per hash. *)
Definition index_insert (hash : bytes) (certificate : Certificate) (ix : AncestryIndex) : AncestryIndex :=
  match ai_certificates ix !! hash with
  | Some _ => mkAncestryIndex (<[hash := certificate]> (ai_certificates ix)) (ai_order ix) (ai_capacity ix)
  | None =>
      let '(certificates, order) := evict ix in
      mkAncestryIndex (<[hash := certificate]> certificates) (order ++ [hash]) (ai_capacity ix)
  end.

(** [AncestryIndex::record] *)
Definition index_record (position : N) (hash : bytes) (deps : list bytes) (ix : AncestryIndex) : AncestryIndex :=
  if (u64_max <? position + 1) || (u32_max <? position + 1) then ix
  else if ai_capacity ix =? 0 then ix
  else
    let '(ranges, complete) := inherited_ranges (ai_certificates ix) hash deps in
    let ranges := merge_ranges (ranges ++ [mkLogRange (position + 1 - 1) (position + 1)]) in
    index_insert hash (cap_ranges ranges complete) ix.

(** * Ranges as sets of positions *)

Definition range_covers (ranges : list LogRange) (p : N) : Prop :=
  exists r, r ∈ ranges /\ lr_start r <= p < lr_end r.

(** Non-empty, in order and with a gap between any two. *)
Definition range_ok (r : LogRange) : Prop := lr_start r < lr_end r.
Definition apart (a b : LogRange) : Prop := lr_end a < lr_start b.
Definition ranges_ok (l : list LogRange) : Prop := Forall range_ok l /\ StronglySorted apart l.

Lemma range_covers_app a b p : range_covers (a ++ b) p <-> range_covers a p \/ range_covers b p.
Proof. unfold range_covers. setoid_rewrite elem_of_app. naive_solver. Qed.

Lemma range_covers_perm a b p : a ≡ₚ b -> range_covers a p <-> range_covers b p.
Proof. intros H. unfold range_covers. by setoid_rewrite H. Qed.

Lemma covers_sublist a b p : (forall r, r ∈ a -> r ∈ b) -> range_covers a p -> range_covers b p.
Proof. intros H (r & Hr & Hp). exists r. auto. Qed.

Lemma covers_singleton r p : range_covers [r] p <-> lr_start r <= p < lr_end r.
Proof. unfold range_covers. setoid_rewrite list_elem_of_singleton. naive_solver. Qed.

Lemma covers_cons r l p : range_covers (r :: l) p <-> lr_start r <= p < lr_end r \/ range_covers l p.
Proof. by rewrite (range_covers_app [r] l), covers_singleton. Qed.

Lemma comparator_N {A} (f : A -> N) : comparator (fun x y => N.compare (f x) (f y)).
Proof. constructor; [intros; apply N.compare_antisym|intros x y z; apply N.le_trans]. Qed.

Lemma by_start_end_comparator : comparator by_start_end.
Proof. apply comparator_then; apply comparator_N. Qed.

Lemma by_start_comparator : comparator by_start.
Proof. apply comparator_N. Qed.

(** The written prefix, last first: its ranges are apart and start no later
    than what is still to be read. *)
Definition written_ok (w : list LogRange) : Prop := Forall range_ok w /\ StronglySorted (fun a b => apart b a) w.

Lemma merge_step_ok w r :
  written_ok w -> range_ok r -> (forall x, head w = Some x -> lr_start x <= lr_start r) ->
  written_ok (merge_step w r) /\ (forall p, range_covers (merge_step w r) p <-> range_covers w p \/ lr_start r <= p < lr_end r) /\
  (forall x, head (merge_step w r) = Some x -> lr_start x <= lr_start r).
Proof.
  intros [Hf Hs] Hr Hh. destruct w as [|l w]; cbn [merge_step].
  - split_and!; [split; repeat constructor; done| |by intros x [= <-]].
    intros p. rewrite covers_singleton. unfold range_covers. setoid_rewrite elem_of_nil. naive_solver.
  - specialize (Hh l eq_refl). apply Forall_cons in Hf as [Hl Hf]. inversion Hs as [|? ? Hs' Hap]; subst.
    destruct (N.leb_spec (lr_start r) (lr_end l)) as [Hle|Hlt].
    + split_and!; [split| |by intros x [= <-]].
      * constructor; [|done]. unfold range_ok in *. cbn. lia.
      * constructor; [done|]. eapply Forall_impl; [done|]. by intros x.
      * intros p. rewrite !covers_cons. cbn. unfold range_ok in *. split; [|naive_solver lia].
        intros [H|H]; [|auto]. destruct (N.lt_ge_cases p (lr_end l)); [left; left; lia|right; lia].
    + split_and!; [split| |by intros x [= <-]].
      * constructor; [done|]. by constructor.
      * constructor; [done|]. constructor; [done|]. eapply Forall_impl; [done|]. unfold apart, range_ok in *. intros x Hx. lia.
      * intros p. rewrite (covers_cons r). tauto.
Qed.

Lemma merge_fold_ok l : forall w, written_ok w -> Forall range_ok l -> StronglySorted (cmp_le by_start_end) l ->
  (forall x r, head w = Some x -> r ∈ l -> lr_start x <= lr_start r) ->
  written_ok (fold_left merge_step l w) /\ (forall p, range_covers (fold_left merge_step l w) p <-> range_covers w p \/ range_covers l p).
Proof.
  induction l as [|r l IH]; intros w Hw Hf Hs Hh; cbn [fold_left].
  - split; [done|]. intros p. unfold range_covers at 3. setoid_rewrite elem_of_nil. naive_solver.
  - apply Forall_cons in Hf as [Hr Hf]. inversion Hs as [|? ? Hs' Hle]; subst.
    destruct (merge_step_ok w r Hw Hr) as (H1 & H2 & H3); [intros x Hx; eapply Hh; [done|left]|].
    destruct (IH _ H1 Hf Hs') as [H4 H5].
    { intros x y Hx Hy. transitivity (lr_start r); [by apply H3|]. eapply Forall_forall in Hle; [|done].
      unfold cmp_le, by_start_end, then_cmp in Hle. destruct (N.compare_spec (lr_start r) (lr_start y)); lia || done. }
    split; [done|]. intros p. rewrite H5, H2, covers_cons. tauto.
Qed.

Lemma merge_ranges_ok l : Forall range_ok l ->
  ranges_ok (merge_ranges l) /\ (forall p, range_covers (merge_ranges l) p <-> range_covers l p).
Proof.
  intros Hf. unfold merge_ranges. pose proof (sort_by_perm by_start_end l) as Hp.
  destruct (merge_fold_ok (sort_by by_start_end l) []) as [[H1 H2] H3].
  - split; constructor.
  - by rewrite Hp.
  - apply sort_by_sorted, by_start_end_comparator.
  - done.
  - split; [split|].
    + by rewrite <- Permutation_rev.
    + clear -H2. induction H2 as [|a w Hs IH Hf]; [constructor|]. cbn. apply StronglySorted_app_2; [|done|repeat constructor].
      intros x y Hx ->%list_elem_of_singleton. rewrite <- Permutation_rev in Hx. by eapply Forall_forall in Hf.
    + intros p. rewrite <- (range_covers_perm _ _ p (Permutation_rev _)), H3, (range_covers_perm _ _ p Hp).
      unfold range_covers at 1. setoid_rewrite elem_of_nil. naive_solver.
Qed.

(** * The index invariant

    [log] lists, per position, the hash of the change the operation there
    carries, if it parses. *)
Section index.
Context (G : graph) (log : list (option bytes)).

(** Every covered position carries the change itself or an ancestor. *)
Definition ranges_sound (h : bytes) (ranges : list LogRange) : Prop :=
  forall p, range_covers ranges p -> exists a, log !! N.to_nat p = Some (Some a) /\ behind G h a.

(** Every ancestor is carried at some covered position. *)
Definition ranges_complete (h : bytes) (ranges : list LogRange) : Prop :=
  forall a, behind G h a -> exists p, range_covers ranges p /\ log !! N.to_nat p = Some (Some a).

Record certificate_ok (h : bytes) (c : Certificate) : Prop := mkCertificateOk {
  co_known : is_Some (G h);
  co_ranges : ranges_ok (ce_ranges c);
  co_len : len (ce_ranges c) <= MAX_RANGES;
  co_sound : ranges_sound h (ce_ranges c);
  co_complete : ce_complete c = true -> ranges_complete h (ce_ranges c)
}.

Record ancestry_ok (ix : AncestryIndex) : Prop := mkAncestryOk {
  ao_certificate h c : index_get ix h = Some c -> certificate_ok h c;
  ao_order : NoDup (ai_order ix);
  ao_dom h : is_Some (index_get ix h) <-> h ∈ ai_order ix;
  ao_bound : N.of_nat (size (ai_certificates ix)) <= ai_capacity ix;
  ao_capacity : ai_capacity ix <= MAX_ENTRIES
}.
End index.

(** What lies behind a known change never changes. *)
Lemma behind_stable G G' h a : extends G G' -> deps_closed G -> is_Some (G h) -> behind G' h a -> behind G h a.
Proof.
  intros HG Hc Hh H. revert Hh. induction H as [h c E|h c p a E Hp _ IH]; intros [c' E'].
  - by eapply behind_self.
  - rewrite (HG _ _ E') in E. injection E as <-. eapply behind_dep; [done..|]. apply IH. by eapply Hc.
Qed.

Lemma ancestry_extends G G' log log' ix :
  extends G G' -> deps_closed G -> ancestry_ok G log ix -> ancestry_ok G' (log ++ log') ix.
Proof.
  intros HG Hc []. constructor; [|done..]. intros h c E. destruct (ao_certificate0 h c E) as [[x Hk] Hr Hl Hs Hcm].
  constructor; [exists x; by apply HG|done|done| |].
  - intros p Hp. destruct (Hs p Hp) as (a & Ha & Hb). exists a. split; [by apply lookup_app_l_Some|].
    by eapply behind_extends.
  - intros Hco a Hb. eapply behind_stable in Hb; [|done..]. destruct (Hcm Hco a Hb) as (p & Hp & Ha).
    exists p. split; [done|]. by apply lookup_app_l_Some.
Qed.

Lemma with_capacity_ok G log n : ancestry_ok G log (with_capacity n).
Proof.
  constructor; cbn.
  - intros h c E. unfold index_get in E. cbn in E. by rewrite lookup_empty in E.
  - apply NoDup_nil_2.
  - intros h. unfold index_get; cbn. rewrite lookup_empty, elem_of_nil. split; [by intros [? [=]]|done].
  - rewrite map_size_empty. lia.
  - lia.
Qed.

Lemma gather_spec certs deps : forall ranges complete rs co,
  gather certs deps ranges complete = (rs, co) ->
  (forall p, range_covers rs p <-> range_covers ranges p \/
     exists d c, d ∈ deps /\ certs !! d = Some c /\ range_covers (ce_ranges c) p) /\
  (Forall range_ok ranges -> (forall d c, d ∈ deps -> certs !! d = Some c -> Forall range_ok (ce_ranges c)) ->
     Forall range_ok rs) /\
  (co = true -> complete = true /\ forall d, d ∈ deps -> exists c, certs !! d = Some c /\ ce_complete c = true).
Proof.
  induction deps as [|d deps IH]; intros ranges complete rs co; cbn [gather].
  - intros [= <- <-]. setoid_rewrite elem_of_nil. split_and!; naive_solver.
  - destruct (certs !! d) as [c|] eqn:E; intros H; apply IH in H as (H1 & H2 & H3); clear IH.
    + split_and!.
      * intros p. rewrite H1, range_covers_app. setoid_rewrite elem_of_cons. naive_solver.
      * intros Hr Hd. apply H2; [|naive_solver set_solver]. apply Forall_app. split; [done|]. eapply Hd; [left|done].
      * intros [[? ?]%andb_true_iff Hd]%H3. split; [done|]. intros q [->|Hq]%elem_of_cons; [eauto|auto].
    + split_and!.
      * intros p. rewrite H1. setoid_rewrite elem_of_cons. naive_solver.
      * intros Hr Hd. apply H2; [done|]. naive_solver set_solver.
      * by intros [? _]%H3.
Qed.

(** The debug assertion: at most 257 ranges are merged per insertion. *)
Lemma gather_len certs deps : (forall d c, certs !! d = Some c -> len (ce_ranges c) <= MAX_RANGES) ->
  forall ranges complete, len (gather certs deps ranges complete).1 <= len ranges + MAX_RANGES * len deps.
Proof.
  intros Hc. induction deps as [|d deps IH]; intros ranges complete; cbn [gather].
  - cbn. lia.
  - rewrite len_cons. destruct (certs !! d) as [c|] eqn:E.
    + etransitivity; [apply IH|]. rewrite len_app. pose proof (Hc _ _ E). lia.
    + etransitivity; [apply IH|]. lia.
Qed.

(** * Recording keeps the invariant *)

Lemma StronglySorted_pair {A} (R : A -> A -> Prop) l a b :
  StronglySorted R l -> a ∈ l -> b ∈ l -> a = b \/ R a b \/ R b a.
Proof.
  induction 1 as [|x l _ IH Hx]; [by intros ?%elem_of_nil|]. rewrite Forall_forall in Hx.
  intros [->|Ha]%elem_of_cons [->|Hb]%elem_of_cons; auto.
Qed.

Lemma ranges_ok_nodup l : ranges_ok l -> NoDup l.
Proof.
  intros [Hf Hs]. induction Hs as [|x l _ IH Hx]; [apply NoDup_nil_2|]. apply Forall_cons in Hf as [Hr Hf].
  apply NoDup_cons. split; [|auto]. intros Hin. eapply Forall_forall in Hx; [|done]. unfold apart, range_ok in *. lia.
Qed.

(** Any selection of separate ranges, put back in order. *)
Lemma apart_sort l : Forall range_ok l -> ranges_ok l -> forall k, (forall r, r ∈ k -> r ∈ l) -> NoDup k ->
  ranges_ok (sort_by by_start k).
Proof.
  intros Hf [_ Hs] k Hk Hn. pose proof (sort_by_perm by_start k) as Hp. split.
  - rewrite Hp. apply Forall_forall. intros r Hr. eapply Forall_forall in Hf; [done|by apply Hk].
  - pose proof (sort_by_sorted by_start k by_start_comparator) as Hss.
    assert (Hin : forall r, r ∈ sort_by by_start k -> r ∈ l) by (intros r; rewrite Hp; apply Hk).
    assert (Hnd : NoDup (sort_by by_start k)) by (by rewrite Hp).
    revert Hss Hin Hnd. clear Hp Hk Hn. induction (sort_by by_start k) as [|a m IH]; intros Hss Hin Hnd; [constructor|].
    inversion Hss as [|? ? Hss' Ha]; subst. apply NoDup_cons in Hnd as [Hna Hnd].
    constructor; [apply IH; [done| |done]; intros r Hr; apply Hin; by right|].
    apply Forall_forall. intros b Hb. eapply Forall_forall in Ha; [|done].
    destruct (StronglySorted_pair _ l a b Hs) as [E|[E|E]]; [apply Hin; left|apply Hin; by right| | |].
    + by subst.
    + done.
    + exfalso. apply Ha. unfold by_start. apply N.compare_gt_iff. pose proof (proj1 (Forall_forall _ _) Hf b ltac:(apply Hin; by right)).
      unfold apart, range_ok in *. lia.
Qed.

Lemma cap_ranges_ok ranges complete :
  ranges_ok ranges ->
  let c := cap_ranges ranges complete in
  ranges_ok (ce_ranges c) /\ len (ce_ranges c) <= MAX_RANGES /\
  (forall p, range_covers (ce_ranges c) p -> range_covers ranges p) /\
  (ce_complete c = true -> complete = true /\ ce_ranges c = ranges).
Proof.
  intros Hok. unfold cap_ranges. destruct (N.ltb_spec MAX_RANGES (len ranges)) as [Hl|Hl]; cbn; [|by split_and!].
  set (k := firstn (N.to_nat MAX_RANGES) (sort_by by_width ranges)).
  assert (Hk : forall r, r ∈ k -> r ∈ ranges).
  { intros r Hr. apply elem_of_take in Hr as (i & Hi & _). apply list_elem_of_lookup_2 in Hi. by rewrite sort_by_perm in Hi. }
  assert (Hn : NoDup k).
  { eapply sublist_NoDup; [|apply (sublist_take (sort_by by_width ranges) (N.to_nat MAX_RANGES))].
    rewrite sort_by_perm. by apply ranges_ok_nodup. }
  split_and!; [by apply (apart_sort ranges); [apply Hok|..]| |..].
  - unfold len. rewrite (Permutation_length (sort_by_perm by_start k)). unfold k. rewrite length_firstn. lia.
  - intros p. apply covers_sublist. intros r. rewrite sort_by_perm. apply Hk.
  - done.
Qed.

Section record_ok.
Context (G : graph) (log : list (option bytes)) (hash : bytes) (c : Change).
Hypothesis Hc : G hash = Some c.
Hypothesis Hclosed : deps_closed G.

Abbreviation log' := (log ++ [Some hash]).

(** What [hash] inherits describes the log before the new slot. *)
Lemma inherited_ranges_ok ix rs co :
  ancestry_ok G log ix -> inherited_ranges (ai_certificates ix) hash (ch_deps c) = (rs, co) ->
  Forall range_ok rs /\ ranges_sound G log hash rs /\
  (co = true -> forall a, behind G hash a -> a = hash \/ exists p, range_covers rs p /\ log !! N.to_nat p = Some (Some a)).
Proof using Hc Hclosed.
  intros Hix. unfold inherited_ranges. destruct (ai_certificates ix !! hash) as [e|] eqn:E.
  - intros [= <- <-]. destruct (ao_certificate _ _ _ Hix _ _ E) as [_ [Hr _] _ Hs Hcm]. split_and!; [done..|].
    intros Hco a Ha. right. by apply Hcm.
  - intros H. apply gather_spec in H as (H1 & H2 & H3).
    assert (Hin : forall d, d ∈ firstn (N.to_nat MAX_PARENTS) (ch_deps c) -> d ∈ ch_deps c).
    { intros d Hd. apply elem_of_take in Hd as (i & Hi & _). by eapply list_elem_of_lookup_2. }
    split_and!.
    + apply H2; [constructor|]. intros d e' _ He'. by destruct (ao_certificate _ _ _ Hix _ _ He') as [_ [? _] _ _ _].
    + intros p [Hp|(d & e' & Hd & He' & Hp)]%H1; [by destruct Hp as (? & ?%elem_of_nil & _)|].
      destruct (co_sound _ _ _ _ (ao_certificate _ _ _ Hix _ _ He') p Hp) as (a & Ha & Hb). exists a. split; [done|].
      by eapply behind_dep; [| |]; eauto.
    + intros Hco a Ha. destruct (H3 Hco) as [Hlen Hd]. bool_simpl.
      rewrite firstn_all2 in Hd, H1 by (unfold len in Hlen; lia).
      inversion Ha as [h' c' Eh|h' c' p a' Eh Hp Hb]; subst; [by left|right].
      rewrite Hc in Eh. injection Eh as <-. destruct (Hd p Hp) as (e' & He' & Hce).
      destruct (co_complete _ _ _ _ (ao_certificate _ _ _ Hix _ _ He') Hce a Hb) as (q & Hq & Hl).
      exists q. split; [|done]. apply H1. right. by exists p, e'.
Qed.

Lemma new_certificate_ok ix rs co :
  ancestry_ok G log ix -> inherited_ranges (ai_certificates ix) hash (ch_deps c) = (rs, co) ->
  certificate_ok G log' hash
    (cap_ranges (merge_ranges (rs ++ [mkLogRange (len log + 1 - 1) (len log + 1)])) co).
Proof using Hc Hclosed.
  intros Hix H. destruct (inherited_ranges_ok _ _ _ Hix H) as (Hr & Hs & Hcm).
  assert (Hlast : log' !! N.to_nat (len log) = Some (Some hash)).
  { unfold len. rewrite Nnat.Nat2N.id. by apply list_lookup_middle. }
  destruct (merge_ranges_ok (rs ++ [mkLogRange (len log + 1 - 1) (len log + 1)])) as [Hm Hcov].
  { apply Forall_app. split; [done|]. repeat constructor. unfold range_ok; cbn. lia. }
  assert (Hcov' : forall p, range_covers (merge_ranges (rs ++ [mkLogRange (len log + 1 - 1) (len log + 1)])) p <->
    range_covers rs p \/ p = len log).
  { intros p. rewrite Hcov, range_covers_app, covers_singleton. cbn. split; (intros [?|?]; [by left|right; lia]). }
  destruct (cap_ranges_ok _ co Hm) as (C1 & C2 & C3 & C4). constructor; [by eexists|done..| |].
  - intros p Hp. apply C3, Hcov' in Hp as [Hp| ->].
    + destruct (Hs p Hp) as (a & Ha & Hb). exists a. split; [by apply lookup_app_l_Some|done].
    + exists hash. split; [done|]. by eapply behind_self.
  - intros Hco a Ha. destruct (C4 Hco) as [Hco' ->]. destruct (Hcm Hco' a Ha) as [->|(p & Hp & Hl)].
    + exists (len log). split; [|done]. apply Hcov'. by right.
    + exists p. split; [apply Hcov'; by left|by apply lookup_app_l_Some].
Qed.

Lemma ancestry_size l ix : ancestry_ok G l ix -> size (ai_certificates ix) = length (ai_order ix).
Proof using.
  intros [_ Hn Hd _ _]. rewrite <- size_dom, <- (size_list_to_set (C:=gset bytes)) by done.
  f_equal. apply set_eq. intros h. rewrite elem_of_dom, elem_of_list_to_set. apply Hd.
Qed.

Lemma evict_ok l ix : ancestry_ok G l ix -> 0 < ai_capacity ix ->
  (forall h x, (evict ix).1 !! h = Some x -> index_get ix h = Some x) /\ NoDup (evict ix).2 /\
  (forall h, is_Some ((evict ix).1 !! h) <-> h ∈ (evict ix).2) /\
  N.of_nat (size (evict ix).1) + 1 <= ai_capacity ix.
Proof using.
  intros Hix Hcap. pose proof (ancestry_size _ _ Hix) as Hsz. destruct Hix as [_ Hn Hd Hb _].
  unfold evict. destruct (N.leb_spec (ai_capacity ix) (N.of_nat (size (ai_certificates ix)))) as [Hle|Hlt]; [|cbn; split_and!; [done..|lia]].
  destruct (ai_order ix) as [|oldest rest]; [cbn in Hsz; lia|]. cbn. apply NoDup_cons in Hn as [Ho Hn]. split_and!.
  - intros h x. by intros [_ ?]%lookup_delete_Some.
  - done.
  - intros h. rewrite lookup_delete_is_Some. unfold index_get in Hd. rewrite Hd, elem_of_cons. naive_solver.
  - rewrite map_size_delete. destruct (Hd oldest) as [_ Ho']. destruct Ho' as [y Hy]; [left|]. unfold index_get in Hy. rewrite Hy. cbn. lia.
Qed.

Lemma index_insert_ok ix cert :
  ancestry_ok G log' ix -> 0 < ai_capacity ix -> certificate_ok G log' hash cert ->
  ancestry_ok G log' (index_insert hash cert ix).
Proof using Hc.
  intros Hix Hcap Hcert. unfold index_insert. destruct (ai_certificates ix !! hash) as [e|] eqn:E.
  - destruct Hix as [H1 H2 H3 H4 H5]. constructor; cbn; [|done| |by rewrite map_size_insert_Some|done].
    + intros h d. unfold index_get; cbn. intros [[<- <-]|[_ Hd]]%lookup_insert_Some; [done|by apply H1].
    + intros h. unfold index_get; cbn. rewrite lookup_insert_is_Some'. unfold index_get in H3. rewrite H3.
      split; [intros [<-|?]; [|done]|by right]. apply H3. by rewrite E.
  - destruct (evict_ok _ ix Hix Hcap) as (V1 & V2 & V3 & V4). destruct (evict ix) as [certs order].
    cbn [fst snd] in *.
    assert (Hh : hash ∉ order).
    { intros Hin. apply V3 in Hin as [x Hx]. apply V1 in Hx. unfold index_get in Hx. congruence. }
    constructor; cbn.
    + intros h d. unfold index_get; cbn. intros [[<- <-]|[_ Hd]]%lookup_insert_Some; [done|].
      apply (ao_certificate _ _ _ Hix), V1, Hd.
    + apply NoDup_app. split_and!; [done| |apply NoDup_singleton]. intros x Hx ->%list_elem_of_singleton. done.
    + intros h. unfold index_get; cbn. rewrite lookup_insert_is_Some', elem_of_app, list_elem_of_singleton, V3. naive_solver.
    + rewrite map_size_insert_None; [lia|]. apply eq_None_not_Some. by rewrite V3.
    + apply Hix.
Qed.

(** [AncestryIndex::record] at the end of the log. *)
Lemma index_record_ok ix :
  ancestry_ok G log ix -> ancestry_ok G log' (index_record (len log) hash (ch_deps c) ix).
Proof using Hc Hclosed.
  intros Hix. pose proof (ancestry_extends G G log [Some hash] ix (reflexivity G) Hclosed Hix) as Hix'.
  unfold index_record. destruct (_ || _); [done|]. destruct (N.eqb_spec (ai_capacity ix) 0) as [|Hcap]; [done|].
  destruct (inherited_ranges _ _ _) as [rs co] eqn:E.
  apply index_insert_ok; [done|lia|]. by eapply new_certificate_ok.
Qed.
End record_ok.
