(* ===== verification/GroupPolicy.v ===== *)
(** The immutable communication policy of a group:
    [crates/catcoms-mls/src/policy.rs] (the signed envelope) and
    [crates/catcoms-sync/src/group_policy.rs] (the pin a node keeps).

    The pin's transitions are state passing on [PolicyState], the fields of
    [ChannelSync] the code reads and writes; the voice actor it reconciles
    afterwards is not part of that state. *)

From S2P Require Import Prelude Wire Codec Crypto Authority Membership.
From stdpp Require Import base list relations.
From Stdlib Require Import Init.Byte.
Local Open Scope N_scope.

Definition POLICY_DOMAIN : bytes := bytes_of_string "catcoms/group-policy/v1".
Definition BODY_DOMAIN : bytes := bytes_of_string "catcoms/group-policy/body/v1".
Definition MAX_GROUP_POLICY_BYTES : N := 4096.

Inductive GroupMode := LegacyUnverified | PeerToPeer | Dedicated.
#[global] Instance GroupMode_eq_dec : EqDecision GroupMode.
Proof. solve_decision. Defined.

Inductive PolicyError :=
| PolicyMalformed
| PolicyUnauthorized
| PolicyInvalid
| PolicyConflict
| AdmissionAuthorityUnavailable
| PendingPersistence
| PolicyMls.

(** The variants of [SyncError] this code and the tenure code return. *)
Inductive SyncError :=
| SyncMalformed
| SyncPolicy (e : PolicyError).

Record GroupPolicy := mkGroupPolicy {
  gp_group_id : bytes;
  gp_mode : GroupMode;
  gp_dedicated_service : option bytes;
  gp_issued_epoch : N;
  gp_issuer_public_key : bytes;
  gp_signature : bytes
}.
#[global] Instance GroupPolicy_eq_dec : EqDecision GroupPolicy.
Proof. solve_decision. Defined.

Section policy.
Context {C : Crypto}.

Definition mode_tag (m : GroupMode) : N :=
  match m with PeerToPeer => 1 | Dedicated => 2 | LegacyUnverified => 0 end.

Definition policy_body (p : GroupPolicy) : bytes :=
  [] |> put_bytes_x BODY_DOMAIN
     |> put_bytes_x (gp_group_id p)
     |> put_u8 (mode_tag (gp_mode p))
     |> put_bytes_x (default [] (gp_dedicated_service p)).

Definition policy_digest (p : GroupPolicy) : bytes := blake3 (policy_body p).

Definition policy_signing_payload (p : GroupPolicy) : bytes :=
  [] |> put_bytes_x POLICY_DOMAIN
     |> put_bytes_x (policy_body p)
     |> put_u64 (gp_issued_epoch p)
     |> put_bytes_x (gp_issuer_public_key p).

Definition policy_issuer (p : GroupPolicy) : bytes := from_public_key_bytes (gp_issuer_public_key p).

Definition policy_verify_self (p : GroupPolicy) : bool :=
  (len (gp_group_id p) <=? 256) && negb (len (gp_group_id p) =? 0) && (len (gp_issuer_public_key p) =? 32)
  && match gp_mode p, gp_dedicated_service p with
     | PeerToPeer, None => true
     | Dedicated, Some _ => true
     | _, _ => false
     end
  && verify_with_public_bytes (gp_issuer_public_key p) (policy_signing_payload p) (gp_signature p).

Definition with_policy_signature (p : GroupPolicy) (s : bytes) : GroupPolicy :=
  mkGroupPolicy (gp_group_id p) (gp_mode p) (gp_dedicated_service p) (gp_issued_epoch p) (gp_issuer_public_key p) s.

Definition policy_sign (owner : MlsDevice) (p : GroupPolicy) : result PolicyError GroupPolicy :=
  s ← ok_or (device_sign owner (policy_signing_payload p)) PolicyMls;
  Ok (with_policy_signature p s).

(** [GroupPolicy::issue] *)
Definition policy_issue (g : MlsGroup) (owner : MlsDevice) (mode : GroupMode) : result PolicyError GroupPolicy :=
  _ ← refuse_if (negb (is_designated_committer g owner)) PolicyUnauthorized;
  _ ← refuse_if (bool_decide (mode = LegacyUnverified)) PolicyMalformed;
  policy_sign owner
    (mkGroupPolicy (mg_group_id g) mode (if bool_decide (mode = Dedicated) then Some (device_id owner) else None)
       (mg_epoch g) (public_key_bytes owner) (replicate 64 x00)).

Definition policy_verify_pin (p : GroupPolicy) (g : MlsGroup) : result PolicyError unit :=
  refuse_if (negb (policy_verify_self p) || bool_decide (gp_group_id p <> mg_group_id g)
             || (mg_epoch g <? gp_issued_epoch p)) PolicyInvalid.

Definition policy_verify_current_owner (p : GroupPolicy) (g : MlsGroup) : result PolicyError unit :=
  _ ← policy_verify_pin p g;
  refuse_if (bool_decide (mls_designated_committer g <> Some (policy_issuer p))) PolicyUnauthorized.

(** [GroupPolicy::endorse] *)
Definition policy_endorse (p : GroupPolicy) (g : MlsGroup) (owner : MlsDevice) : result PolicyError GroupPolicy :=
  _ ← policy_verify_pin p g;
  _ ← refuse_if (negb (is_designated_committer g owner)) PolicyUnauthorized;
  policy_sign owner
    (mkGroupPolicy (gp_group_id p) (gp_mode p) (gp_dedicated_service p) (mg_epoch g) (public_key_bytes owner)
       (gp_signature p)).

(** [GroupPolicy::encode] *)
Definition policy_encode (p : GroupPolicy) : bytes :=
  [] |> put_bytes_x (policy_signing_payload p) |> put_bytes_x (gp_signature p).

Definition get_domain (domain : bytes) : dec PolicyError unit :=
  s ← or_err PolicyMalformed get_str;
  dec_refuse (negb (bool_decide (s = domain))) PolicyMalformed.

Definition get_envelope : dec PolicyError (bytes * bytes) :=
  signed ← or_err PolicyMalformed get_bytes;
  signature ← get_exact PolicyMalformed 64;
  mret (signed, signature).

Definition get_signed : dec PolicyError (bytes * N * bytes) :=
  _ ← get_domain POLICY_DOMAIN;
  body ← or_err PolicyMalformed get_bytes;
  issued_epoch ← or_err PolicyMalformed get_u64;
  issuer_public_key ← or_err PolicyMalformed get_bytes;
  mret (body, issued_epoch, issuer_public_key).

Definition get_mode : dec PolicyError GroupMode :=
  tag ← or_err PolicyMalformed get_u8;
  dec_lift (if tag =? 1 then Ok PeerToPeer else if tag =? 2 then Ok Dedicated else Err PolicyMalformed).

Definition get_service : dec PolicyError (option bytes) :=
  service ← or_err PolicyMalformed get_bytes;
  dec_lift (match service with
            | [] => Ok None
            | _ => if (length service =? 32)%nat then Ok (Some service) else Err PolicyMalformed
            end).

Definition get_body : dec PolicyError (bytes * GroupMode * option bytes) :=
  _ ← get_domain BODY_DOMAIN;
  group_id ← or_err PolicyMalformed get_bytes;
  mode ← get_mode;
  service ← get_service;
  mret (group_id, mode, service).

(** [GroupPolicy::decode] *)
Definition policy_decode (input : bytes) : result PolicyError GroupPolicy :=
  _ ← refuse_if (MAX_GROUP_POLICY_BYTES <? len input) PolicyMalformed;
  e ← run_or PolicyMalformed get_envelope input;
  s ← run_or PolicyMalformed get_signed e.1;
  b ← run_or PolicyMalformed get_body s.1.1;
  let p := mkGroupPolicy b.1.1 b.1.2 b.2 s.1.2 s.2 e.2 in
  _ ← refuse_if (negb (policy_verify_self p)) PolicyInvalid;
  Ok p.

(** * The pin *)

Definition PIN_VERSION : N := 1.
Definition CTRL_GROUP_POLICY : byte := n2b 4.

Record PolicyState := mkPolicyState {
  ps_group : MlsGroup;
  ps_device : MlsDevice;
  ps_policy : option GroupPolicy;
  ps_active : bool;
  ps_revision : N;
  ps_publish_ready : bool;
  ps_last_topic : option bytes;
  ps_outbox : list (bytes * bytes);
  ps_control_topic : bytes;
  ps_max_outbox : N
}.

Definition encode_pin (policy : option GroupPolicy) : bytes :=
  [] |> put_u8 PIN_VERSION |> put_bytes_x (match policy with Some p => policy_encode p | None => [] end).

Definition get_pin : dec SyncError (option GroupPolicy) :=
  version ← or_err SyncMalformed get_u8;
  _ ← dec_refuse (negb (version =? PIN_VERSION)) (SyncPolicy PolicyMalformed);
  encoded ← or_err SyncMalformed get_bytes;
  dec_lift (match encoded with
            | [] => Ok None
            | _ => Some <$> map_err SyncPolicy (policy_decode encoded)
            end).

Definition decode_pin (input : bytes) : result SyncError (option GroupPolicy) :=
  run_dec (x ← get_pin; _ ← or_err SyncMalformed finish; mret x) input.

Definition require_supported (p : GroupPolicy) : result PolicyError unit :=
  refuse_if (bool_decide (gp_mode p <> PeerToPeer)) PolicyMalformed.

Definition group_mode (st : PolicyState) : GroupMode :=
  if negb (ps_active st) then LegacyUnverified
  else match ps_policy st with Some p => gp_mode p | None => LegacyUnverified end.

Definition policy_allows_member_mesh (st : PolicyState) : bool :=
  bool_decide (group_mode st = PeerToPeer) && mg_active (ps_group st)
  && contains_device (ps_group st) (device_id (ps_device st)).

(** [self.group_policy_revision.wrapping_add(1)] *)
Definition bump (revision : N) : N := (revision + 1) mod (u64_max + 1).

Definition set_policy (p : option GroupPolicy) (active : bool) (revision : N) (st : PolicyState) : PolicyState :=
  mkPolicyState (ps_group st) (ps_device st) p active revision (ps_publish_ready st) (ps_last_topic st)
    (ps_outbox st) (ps_control_topic st) (ps_max_outbox st).

Definition self_is_committer (st : PolicyState) : bool := node_is_committer (ps_group st) (ps_device st).

Definition initialize_group_policy (mode : GroupMode) (st : PolicyState) : result SyncError PolicyState :=
  _ ← refuse_if (bool_decide (mode <> PeerToPeer)) (SyncPolicy PolicyMalformed);
  _ ← refuse_if (negb (self_is_committer st)) (SyncPolicy PolicyUnauthorized);
  match ps_policy st with
  | Some p => if bool_decide (gp_mode p = mode) then Ok st else Err (SyncPolicy PolicyConflict)
  | None =>
      p ← map_err SyncPolicy (policy_issue (ps_group st) (ps_device st) mode);
      Ok (set_policy (Some p) (ps_active st) (bump (ps_revision st)) st)
  end.

Definition initialize_new_group_policy (st : PolicyState) : result SyncError PolicyState :=
  _ ← refuse_if (negb (mg_epoch (ps_group st) =? 0) || negb (member_count (ps_group st) =? 1))
        (SyncPolicy PolicyUnauthorized);
  st ← initialize_group_policy PeerToPeer st;
  Ok (set_policy (ps_policy st) true (ps_revision st) st).

Definition admission_policy (st : PolicyState) : result SyncError (option GroupPolicy) :=
  match ps_policy st with
  | None => Ok None
  | Some p =>
      _ ← map_err SyncPolicy (require_supported p);
      if self_is_committer st then
        p ← map_err SyncPolicy (policy_endorse p (ps_group st) (ps_device st)); Ok (Some p)
      else
        _ ← map_err SyncPolicy (policy_verify_current_owner p (ps_group st)); Ok (Some p)
  end.

(** The invite carries an optional policy; nothing else of it is read here. *)
Definition invite_policy_matches (st : PolicyState) (offered : option GroupPolicy) : bool :=
  match ps_policy st, offered with
  | None, None => true
  | Some pin, Some offered =>
      is_ok (require_supported offered) && is_ok (policy_verify_pin offered (ps_group st))
      && bool_decide (policy_digest pin = policy_digest offered)
  | _, _ => false
  end.

Definition policy_admission_ready (st : PolicyState) : result SyncError unit :=
  let pinned := bool_decide (ps_policy st <> None) in
  _ ← refuse_if (pinned && negb (ps_active st)) (SyncPolicy PendingPersistence);
  refuse_if (pinned && bool_decide (designated_committer_index (ps_group st) <> Some 0))
    (SyncPolicy AdmissionAuthorityUnavailable).

(** The outbox without the previous policy frame of its own topic. *)
Definition drop_previous (st : PolicyState) : list (bytes * bytes) :=
  List.filter (fun f => negb (bool_decide (Some f.1 = ps_last_topic st)
                              && bool_decide (head f.2 = Some CTRL_GROUP_POLICY))) (ps_outbox st).

Definition publish_group_policy (st : PolicyState) : result SyncError PolicyState :=
  _ ← refuse_if (negb (self_is_committer st)) (SyncPolicy PolicyUnauthorized);
  p ← admission_policy st;
  p ← ok_or p (SyncPolicy PolicyInvalid);
  let frame := CTRL_GROUP_POLICY :: policy_encode p in
  let outbox := drop_previous st in
  let room := len outbox <? ps_max_outbox st in
  Ok (mkPolicyState (ps_group st) (ps_device st) (ps_policy st) true (ps_revision st) true
        (if room then Some (ps_control_topic st) else ps_last_topic st)
        (if room then outbox ++ [(ps_control_topic st, frame)] else outbox)
        (ps_control_topic st) (ps_max_outbox st)).

Definition republish_group_policy_if_ready (st : PolicyState) : PolicyState :=
  if ps_publish_ready st && self_is_committer st then
    match publish_group_policy st with Ok st => st | Err _ => st end
  else st.

(** The closure of [on_group_policy]: a policy acceptable as the pin. *)
Definition accept_policy (input : bytes) (st : PolicyState) : result SyncError GroupPolicy :=
  p ← map_err SyncPolicy (policy_decode input);
  _ ← map_err SyncPolicy (require_supported p);
  _ ← map_err SyncPolicy (policy_verify_current_owner p (ps_group st));
  _ ← refuse_if (match ps_policy st with
                 | Some pin => bool_decide (policy_digest pin <> policy_digest p)
                 | None => false end) (SyncPolicy PolicyConflict);
  _ ← refuse_if (match ps_policy st with
                 | Some pin => gp_issued_epoch p <? gp_issued_epoch pin
                 | None => false end) (SyncPolicy PolicyInvalid);
  Ok p.

Definition on_group_policy (input : bytes) (st : PolicyState) : PolicyState :=
  match accept_policy input st with
  | Err _ => st
  | Ok p =>
      let pending_local := bool_decide (ps_policy st <> None) && negb (ps_active st) && self_is_committer st in
      let changed := bool_decide (ps_policy st <> Some p) in
      set_policy (if changed then Some p else ps_policy st)
        (if pending_local then ps_active st else true)
        (if changed then bump (ps_revision st) else ps_revision st) st
  end.

(** The policy fields of [ChannelSync::adopt_routing_state]. *)
Definition adopt_policy (p : option GroupPolicy) (st : PolicyState) : PolicyState :=
  set_policy p (bool_decide (p <> None))
    (if bool_decide (ps_policy st <> p) then bump (ps_revision st) else ps_revision st) st.

(** The policy fields [ChannelSync::new] starts with. *)
Definition fresh_policy_state (g : MlsGroup) (dev : MlsDevice) (topic : bytes) (max_outbox : N) : PolicyState :=
  mkPolicyState g dev None false 0 false None [] topic max_outbox.

(** A restart: the saved pin is decoded, checked against the restored group and
    adopted ([ChannelSync::restore]). *)
Definition restore_policy (saved : bytes) (st : PolicyState) : result SyncError PolicyState :=
  p ← decode_pin saved;
  _ ← match p with
      | Some p => _ ← map_err SyncPolicy (require_supported p); map_err SyncPolicy (policy_verify_pin p (ps_group st))
      | None => Ok tt
      end;
  let st := adopt_policy p (fresh_policy_state (ps_group st) (ps_device st) (ps_control_topic st) (ps_max_outbox st)) in
  Ok (mkPolicyState (ps_group st) (ps_device st) (ps_policy st) (ps_active st) (ps_revision st)
        (bool_decide (ps_policy st <> None)) (ps_last_topic st) (ps_outbox st) (ps_control_topic st) (ps_max_outbox st)).
End policy.

(** * The envelope's codec *)

Section codec.
Context {C : Crypto}.

Definition body_bytes (p : GroupPolicy) : bytes :=
  lp BODY_DOMAIN ++ lp (gp_group_id p) ++ be_bytes 1 (mode_tag (gp_mode p)) ++
  lp (default [] (gp_dedicated_service p)).

Definition payload_bytes (p : GroupPolicy) : bytes :=
  lp POLICY_DOMAIN ++ lp (body_bytes p) ++ be_bytes 8 (gp_issued_epoch p) ++ lp (gp_issuer_public_key p).

Lemma policy_body_eq p : policy_body p = body_bytes p.
Proof. unfold policy_body, body_bytes, put_u8. rewrite !put_bytes_x_lp. by rewrite <- !app_assoc. Qed.

Lemma policy_payload_eq p : policy_signing_payload p = payload_bytes p.
Proof. unfold policy_signing_payload, payload_bytes, put_u64. rewrite !put_bytes_x_lp, policy_body_eq. by rewrite <- !app_assoc. Qed.

Lemma policy_encode_eq p : policy_encode p = lp (payload_bytes p) ++ lp (gp_signature p).
Proof. unfold policy_encode. by rewrite !put_bytes_x_lp, policy_payload_eq. Qed.

(** What a Rust value of the type and a valid signature give. *)
Record group_policy_ok (p : GroupPolicy) : Prop := mkPolicyOk {
  pk_epoch : gp_issued_epoch p <= u64_max;
  pk_service : opt_ok (fun s => length s = 32%nat) (gp_dedicated_service p);
  pk_signature : length (gp_signature p) = 64%nat;
  pk_verify : policy_verify_self p = true
}.

Lemma verify_self_parts p :
  policy_verify_self p = true ->
  len (gp_group_id p) <= 256 /\ gp_group_id p <> [] /\ len (gp_issuer_public_key p) = 32 /\
  (gp_mode p = PeerToPeer /\ gp_dedicated_service p = None \/
   gp_mode p = Dedicated /\ gp_dedicated_service p <> None) /\
  verify_with_public_bytes (gp_issuer_public_key p) (policy_signing_payload p) (gp_signature p) = true.
Proof.
  unfold policy_verify_self. intros H. bool_simpl. split_and!; try done.
  - intros E. by rewrite E in *.
  - destruct (gp_mode p), (gp_dedicated_service p); try done; [by left|by right].
Qed.

Lemma policy_sizes p :
  group_policy_ok p -> len (body_bytes p) <= 329 /\ len (payload_bytes p) <= 404 /\ len (policy_encode p) <= 476.
Proof.
  intros [He Hs Hg (H1 & _ & H3 & _)%verify_self_parts].
  assert (E : len (default [] (gp_dedicated_service p)) <= 32).
  { destruct (gp_dedicated_service p); cbn in *; [unfold len; rewrite Hs; lia|unfold len; cbn; lia]. }
  assert (E1 : len (body_bytes p) <= 329).
  { unfold body_bytes. rewrite !len_app, !len_lp, len_be_bytes. change (len BODY_DOMAIN) with 28. lia. }
  assert (E2 : len (payload_bytes p) <= 404).
  { unfold payload_bytes. rewrite !len_app, !len_lp, len_be_bytes. change (len POLICY_DOMAIN) with 23. lia. }
  split_and!; [done|done|]. rewrite policy_encode_eq, len_app, !len_lp. unfold len at 2. rewrite Hg. lia.
Qed.

Lemma consumes_domain dom : consumes (get_domain dom) (fun _ bs => bs = lp dom).
Proof.
  eapply consumes_weaken; [eapply consumes_bind; [apply consumes_or_str|intros a; apply consumes_lift]|].
  intros v bs (a & b1 & b2 & -> & (-> & _) & H & ->). rewrite app_nil_r. apply refuse_if_ok in H.
  apply negb_false_iff, bool_decide_eq_true in H. by subst.
Qed.

Lemma consumes_mode :
  consumes get_mode (fun m bs => bs = be_bytes 1 (mode_tag m) /\ m <> LegacyUnverified).
Proof.
  eapply consumes_weaken; [eapply consumes_bind; [apply consumes_or_u8|intros a; apply consumes_lift]|].
  intros v bs (a & b1 & b2 & -> & (-> & _) & H & ->). rewrite app_nil_r.
  destruct (N.eqb_spec a 1) as [Ea|]; [injection H as <-; by subst a|].
  destruct (N.eqb_spec a 2) as [Ea|]; [injection H as <-; by subst a|done].
Qed.

Lemma consumes_service :
  consumes get_service (fun o bs => bs = lp (default [] o) /\ opt_ok (fun s => length s = 32%nat) o).
Proof.
  eapply consumes_weaken; [eapply consumes_bind; [apply consumes_or_bytes|intros a; apply consumes_lift]|].
  intros v bs (a & b1 & b2 & -> & (-> & _) & H & ->). rewrite app_nil_r.
  destruct a as [|c a]; [by injection H as <-|].
  destruct (Nat.eqb_spec (length (c :: a)) 32); [|done]. by injection H as <-.
Qed.
#[local] Hint Resolve consumes_domain consumes_mode consumes_service : mewtual_dec.

Lemma consumes_policy_envelope :
  consumes get_envelope (fun e bs => bs = lp e.1 ++ lp e.2 /\ length e.2 = 64%nat).
Proof.
  intros d v d' H. unfold get_envelope in H. dec_step H. destruct Hr as [-> _], Hr0 as [-> Hl].
  eexists. split; [|by split]. by rewrite R, R0, app_assoc.
Qed.

Lemma consumes_signed :
  consumes get_signed (fun s bs =>
    bs = lp POLICY_DOMAIN ++ lp s.1.1 ++ be_bytes 8 s.1.2 ++ lp s.2 /\ s.1.2 <= u64_max).
Proof.
  intros d v d' H. unfold get_signed in H. dec_step H. subst. destruct Hr0 as [-> _], Hr1 as [-> Hl], Hr2 as [-> _].
  eexists. split; [|by split]. by rewrite R, R0, R1, R2, <- !app_assoc.
Qed.

Lemma consumes_body :
  consumes get_body (fun b bs =>
    bs = lp BODY_DOMAIN ++ lp b.1.1 ++ be_bytes 1 (mode_tag b.1.2) ++ lp (default [] b.2) /\
    opt_ok (fun s => length s = 32%nat) b.2).
Proof.
  intros d v d' H. unfold get_body in H. dec_step H. subst. destruct Hr0 as [-> _], Hr1 as [-> _], Hr2 as [-> Hl].
  eexists. split; [|by split]. by rewrite R, R0, R1, R2, <- !app_assoc.
Qed.

Lemma policy_decode_inv b p : policy_decode b = Ok p -> b = policy_encode p /\ group_policy_ok p.
Proof.
  unfold policy_decode. intros H. apply refuse_if_bind_ok in H as [_ H].
  apply bind_ok in H as ([signed sig] & He & H). apply bind_ok in H as ([[body ep] key] & Hs & H).
  apply bind_ok in H as ([[gid mode] svc] & Hb & H). cbn [fst snd] in *.
  apply refuse_if_bind_ok in H as [Hv H]. injection H as <-. apply negb_false_iff in Hv.
  destruct (run_or_consumes _ _ _ _ _ He consumes_policy_envelope) as [E1 L1].
  destruct (run_or_consumes _ _ _ _ _ Hs consumes_signed) as [E2 L2].
  destruct (run_or_consumes _ _ _ _ _ Hb consumes_body) as [E3 L3]. cbn [fst snd] in *.
  split; [|by constructor]. rewrite policy_encode_eq. unfold payload_bytes, body_bytes. cbn [gp_group_id gp_mode gp_dedicated_service gp_issued_epoch gp_issuer_public_key gp_signature].
  by rewrite E1, E2, E3.
Qed.

Lemma reads_domain dom :
  len dom <= u32_max -> utf8_valid dom = true -> reads (get_domain dom) (lp dom) tt.
Proof.
  intros Hl Hu. unfold get_domain. eapply reads_bind_last; [by apply reads_or, reads_str|].
  apply reads_lift_ok. by rewrite bool_decide_eq_true_2.
Qed.

Lemma policy_decode_ok p : group_policy_ok p -> policy_decode (policy_encode p) = Ok p.
Proof.
  intros Hok. destruct (policy_sizes p Hok) as (S1 & S2 & S3). destruct Hok as [He Hs Hg Hv].
  destruct (verify_self_parts p Hv) as (V1 & _ & V3 & V4 & _).
  unfold policy_decode. rewrite refuse_if_bind_false by (apply N.ltb_ge; unfold MAX_GROUP_POLICY_BYTES; lia).
  eapply bind_step; [rewrite policy_encode_eq; apply run_or_reads with (v := (payload_bytes p, gp_signature p))|cbn [fst snd]].
  { eapply reads_bind; [apply reads_or, reads_bytes; unfold u32_max; lia|].
    eapply reads_bind_last; [|apply reads_ret]. eapply reads_bind_last; [apply reads_or, reads_bytes; unfold len; rewrite Hg; done|].
    apply reads_lift_ok. by rewrite Hg. }
  eapply bind_step; [apply run_or_reads with (v := (body_bytes p, gp_issued_epoch p, gp_issuer_public_key p))|cbn [fst snd]].
  { eapply reads_bind; [by apply reads_domain|]. eapply reads_bind; [apply reads_or, reads_bytes; unfold u32_max; lia|].
    eapply reads_bind; [by apply reads_or, reads_u64|].
    eapply reads_bind_last; [apply reads_or, reads_bytes; unfold u32_max; lia|apply reads_ret]. }
  eapply bind_step; [apply run_or_reads with (v := (gp_group_id p, gp_mode p, gp_dedicated_service p))|cbn [fst snd]].
  { eapply reads_bind; [by apply reads_domain|]. eapply reads_bind; [apply reads_or, reads_bytes; unfold u32_max; lia|].
    eapply reads_bind with (a := gp_mode p).
    { eapply reads_bind_last; [apply reads_or, reads_u8; destruct (gp_mode p); done|].
      apply reads_lift_ok. destruct V4 as [[-> _]|[-> _]]; done. }
    eapply reads_bind_last with (a := gp_dedicated_service p); [|apply reads_ret].
    eapply reads_bind_last; [apply reads_or, reads_bytes|apply reads_lift_ok]; destruct (gp_dedicated_service p) as [s|]; cbn in *.
    - unfold len. by rewrite Hs.
    - done.
    - destruct s; [done|]. by rewrite Hs.
    - done. }
  destruct p as [gid m svc ep key sig]. cbn [gp_group_id gp_mode gp_dedicated_service gp_issued_epoch gp_issuer_public_key gp_signature] in *.
  by rewrite refuse_if_bind_false by (by apply negb_false_iff).
Qed.
End codec.

(** * The life of a pin *)

Section life.
Context {C : Crypto}.

(** What every pin of group [g] satisfies. *)
Record pin_ok (g : MlsGroup) (p : GroupPolicy) : Prop := mkPinOk {
  pn_policy : group_policy_ok p;
  pn_mode : gp_mode p = PeerToPeer;
  pn_group : gp_group_id p = mg_group_id g;
  pn_epoch : gp_issued_epoch p <= mg_epoch g
}.

(** The device signs as its library documents; the group has a proper id. *)
Record node_env (g : MlsGroup) (dev : MlsDevice) : Prop := mkNodeEnv {
  ne_device : honest_device dev;
  ne_id : mg_group_id g <> [] /\ len (mg_group_id g) <= 256;
  ne_epoch : mg_epoch g <= u64_max
}.

(** The one body a group can pin, whoever signs it and whenever. *)
Definition supported_body (gid : bytes) : bytes := policy_body (mkGroupPolicy gid PeerToPeer None 0 [] []).

Lemma pin_ok_body g p : pin_ok g p -> policy_body p = supported_body (mg_group_id g) /\ gp_dedicated_service p = None.
Proof.
  intros [[_ _ _ (_ & _ & _ & Hm & _)%verify_self_parts] Hmode Hg _]. destruct Hm as [[_ Hs]|[Hm _]]; [|congruence].
  split; [|done]. unfold policy_body, supported_body. by rewrite Hg, Hmode, Hs.
Qed.

Lemma pin_verify g p : pin_ok g p -> policy_verify_pin p g = Ok tt.
Proof.
  intros [[_ _ _ Hv] _ Hg He]. unfold policy_verify_pin. rewrite Hv, bool_decide_eq_false_2, (proj2 (N.ltb_ge _ _)); [done|done|].
  by intros [].
Qed.

Lemma verify_pin_ok g p :
  gp_issued_epoch p <= u64_max -> opt_ok (fun s => length s = 32%nat) (gp_dedicated_service p) ->
  length (gp_signature p) = 64%nat -> require_supported p = Ok tt -> policy_verify_pin p g = Ok tt -> pin_ok g p.
Proof.
  unfold require_supported, policy_verify_pin. intros H1 H2 H3 Hm H. res_inv. bool_simpl. by repeat constructor.
Qed.

Lemma pin_ok_mono g g' p :
  mg_group_id g' = mg_group_id g -> mg_epoch g <= mg_epoch g' -> pin_ok g p -> pin_ok g' p.
Proof. intros Hg He [H1 H2 H3 H4]. constructor; [done|done|congruence|lia]. Qed.

(** A fresh signature under the node's own key over a body of its group. *)
Lemma sign_pin_ok g dev p q :
  node_env g dev -> gp_mode p = PeerToPeer -> gp_dedicated_service p = None -> gp_group_id p = mg_group_id g ->
  gp_issued_epoch p <= mg_epoch g -> gp_issuer_public_key p = public_key_bytes dev ->
  policy_sign dev p = Ok q ->
  pin_ok g q /\ policy_issuer q = device_id dev /\ gp_issued_epoch q = gp_issued_epoch p.
Proof.
  intros [Hd [Hi1 Hi2] He] Hm Hs Hg Hep Hk. unfold policy_sign. destruct (device_sign dev _) as [s|] eqn:Es; [|done].
  cbn [ok_or mbind result_bind]. intros [= <-]. pose proof Hd as (Hl & _ & H64). destruct (H64 _ _ Es) as [Hsl _].
  apply (honest_verify _ _ _ Hd) in Es. destruct p as [gid m svc ep key sig]. unfold with_policy_signature, policy_issuer.
  cbn [gp_group_id gp_mode gp_dedicated_service gp_issued_epoch gp_issuer_public_key gp_signature] in *. subst.
  split; [|done]. constructor; [|done..]. constructor; [cbn; lia|done|done|].
  unfold policy_verify_self. cbn [gp_group_id gp_mode gp_dedicated_service gp_issued_epoch gp_issuer_public_key gp_signature].
  change (policy_signing_payload (mkGroupPolicy (mg_group_id g) PeerToPeer None ep (public_key_bytes dev) s))
    with (policy_signing_payload (mkGroupPolicy (mg_group_id g) PeerToPeer None ep (public_key_bytes dev) sig)).
  rewrite Es, (proj2 (N.leb_le _ _)), (proj2 (N.eqb_neq _ _)) by (done || by intros E%len_zero). unfold len. by rewrite Hl.
Qed.

Lemma issue_pin_ok g dev p :
  node_env g dev -> policy_issue g dev PeerToPeer = Ok p -> pin_ok g p /\ policy_issuer p = device_id dev.
Proof.
  intros He. unfold policy_issue. intros H. apply refuse_if_bind_ok in H as [_ H]. apply refuse_if_bind_ok in H as [_ H].
  apply (sign_pin_ok _ _ _ _ He) in H; [|done..]. by destruct H as (? & ? & _).
Qed.

Lemma endorse_pin_ok g dev p q :
  node_env g dev -> pin_ok g p -> policy_endorse p g dev = Ok q ->
  pin_ok g q /\ policy_issuer q = device_id dev /\ gp_issued_epoch q = mg_epoch g /\ is_designated_committer g dev = true.
Proof.
  intros He Hp. unfold policy_endorse. rewrite (pin_verify g p Hp), bind_Ok. intros H.
  apply refuse_if_bind_ok in H as [Hc H]. destruct (pin_ok_body _ _ Hp) as [_ Hs].
  apply (sign_pin_ok _ _ _ _ He) in H as (H1 & H2 & H3); [|apply Hp|done|apply Hp|done|done].
  split_and!; [done|done|done|by apply negb_false_iff].
Qed.

Lemma map_err_ok {E F A} (f : E -> F) (r : result E A) a : map_err f r = Ok a -> r = Ok a.
Proof. by destruct r; [intros [= <-]|]. Qed.

(** What a received message must be to be taken. *)
Record acceptable (st : PolicyState) (b : bytes) (p : GroupPolicy) : Prop := mkAcceptable {
  ac_bytes : b = policy_encode p;
  ac_pin : pin_ok (ps_group st) p;
  ac_owner : mls_designated_committer (ps_group st) = Some (policy_issuer p);
  ac_digest : forall pin, ps_policy st = Some pin -> policy_digest pin = policy_digest p;
  ac_epoch : forall pin, ps_policy st = Some pin -> gp_issued_epoch pin <= gp_issued_epoch p
}.

Lemma accept_policy_exact b st p : accept_policy b st = Ok p <-> acceptable st b p.
Proof.
  unfold accept_policy. split.
  - intros H. apply bind_ok in H as (q & [-> Hq]%map_err_ok%policy_decode_inv & H).
    apply bind_ok in H as ([] & Hs%map_err_ok & H). apply bind_ok in H as ([] & Ho%map_err_ok & H).
    unfold policy_verify_current_owner in Ho. apply bind_ok in Ho as ([] & Hv & Ho). res_inv. bool_simpl.
    constructor; [done|apply verify_pin_ok; try done; apply Hq|done| |];
      intros pin Epin; rewrite Epin in *; bool_simpl; done.
  - intros [-> Hp Ho Hd He]. eapply bind_step; [by rewrite policy_decode_ok by apply Hp|].
    eapply bind_step; [unfold require_supported; rewrite bool_decide_eq_false_2; [done|by intros []; apply Hp]|].
    eapply bind_step; [unfold policy_verify_current_owner; rewrite (pin_verify _ _ Hp), bind_Ok, bool_decide_eq_false_2; [done|by rewrite Ho; intros []]|].
    destruct (ps_policy st) as [pin|]; [|done].
    rewrite refuse_if_bind_false by (apply bool_decide_eq_false_2; intros []; by apply Hd).
    by rewrite refuse_if_bind_false by (by apply N.ltb_ge, He).
Qed.

(** ** Saving and restoring *)

Lemma pin_round_trip o :
  opt_ok group_policy_ok o -> decode_pin (encode_pin o) = Ok o.
Proof.
  intros Ho. apply (reads_finish_run get_pin (fun _ => SyncMalformed)).
  unfold get_pin, encode_pin, put_u8. rewrite put_bytes_x_lp. cbn [app].
  eapply reads_bind; [by apply reads_map_err, reads_u8|]. eapply reads_refuse_bind; [done|].
  destruct o as [p|]; cbn in Ho.
  - destruct (policy_sizes p Ho) as (_ & _ & Hl).
    eapply reads_bind_last; [apply reads_map_err, reads_bytes; unfold u32_max; lia|]. apply reads_lift_ok.
    destruct (policy_encode p) eqn:E; [by rewrite policy_encode_eq in E|]. rewrite <- E, policy_decode_ok by done. done.
  - eapply reads_bind_last; [by apply reads_map_err, reads_bytes|]. by apply reads_lift_ok.
Qed.

Definition set_group (g : MlsGroup) (topic : bytes) (st : PolicyState) : PolicyState :=
  mkPolicyState g (ps_device st) (ps_policy st) (ps_active st) (ps_revision st) (ps_publish_ready st)
    (ps_last_topic st) (ps_outbox st) topic (ps_max_outbox st).
Definition set_outbox (outbox : list (bytes * bytes)) (st : PolicyState) : PolicyState :=
  mkPolicyState (ps_group st) (ps_device st) (ps_policy st) (ps_active st) (ps_revision st) (ps_publish_ready st)
    (ps_last_topic st) outbox (ps_control_topic st) (ps_max_outbox st).

(** What a running node can do: each policy operation, any message from the
    network, a commit that advances its group, any other use of its outbox. *)
Inductive pin_step (st : PolicyState) : PolicyState -> Prop :=
| step_initialize mode st' : initialize_group_policy mode st = Ok st' -> pin_step st st'
| step_initialize_new st' : initialize_new_group_policy st = Ok st' -> pin_step st st'
| step_publish st' : publish_group_policy st = Ok st' -> pin_step st st'
| step_republish : pin_step st (republish_group_policy_if_ready st)
| step_receive b : pin_step st (on_group_policy b st)
| step_commit g topic :
    mg_group_id g = mg_group_id (ps_group st) -> mg_epoch (ps_group st) <= mg_epoch g -> mg_epoch g <= u64_max ->
    pin_step st (set_group g topic st)
| step_outbox outbox : pin_step st (set_outbox outbox st).

(** A node and its last sealed snapshot: the group and the pin saved with it.
    A crash at any point loads that snapshot. *)
Record PolicyNode := mkPolicyNode { pd_state : PolicyState; pd_saved : MlsGroup * bytes }.

Inductive node_step : PolicyNode -> PolicyNode -> Prop :=
| step_run st st' d : pin_step st st' -> node_step (mkPolicyNode st d) (mkPolicyNode st' d)
| step_save st d : node_step (mkPolicyNode st d) (mkPolicyNode st (ps_group st, encode_pin (ps_policy st)))
| step_crash st d topic st' :
    restore_policy d.2 (set_group d.1 topic st) = Ok st' -> node_step (mkPolicyNode st d) (mkPolicyNode st' d).

Record state_ok (st : PolicyState) : Prop := mkStateOk {
  ss_env : node_env (ps_group st) (ps_device st);
  ss_pin : opt_ok (pin_ok (ps_group st)) (ps_policy st);
  ss_active : ps_active st = true -> ps_policy st <> None
}.

Record node_ok (n : PolicyNode) : Prop := mkNodeOk {
  nk_state : state_ok (pd_state n);
  nk_id : mg_group_id (pd_saved n).1 = mg_group_id (ps_group (pd_state n));
  nk_env : node_env (pd_saved n).1 (ps_device (pd_state n));
  nk_saved : exists o, decode_pin (pd_saved n).2 = Ok o /\ opt_ok (pin_ok (pd_saved n).1) o /\
    (o <> None -> ps_policy (pd_state n) <> None)
}.

(** Pins only ever appear. *)
Definition keeps_pin (st st' : PolicyState) : Prop :=
  mg_group_id (ps_group st') = mg_group_id (ps_group st) /\ ps_device st' = ps_device st /\
  (ps_policy st <> None -> ps_policy st' <> None).

Lemma initialize_ok mode st st' :
  state_ok st -> initialize_group_policy mode st = Ok st' ->
  state_ok st' /\ keeps_pin st st' /\ ps_policy st' <> None.
Proof.
  intros Hok H. unfold initialize_group_policy in H. apply refuse_if_bind_ok in H as [Hm H].
  apply refuse_if_bind_ok in H as [_ H]. bool_simpl. subst mode.
  destruct (ps_policy st) as [p|] eqn:Ep.
  - destruct (bool_decide _); [|done]. injection H as <-. split_and!; [done|by repeat split|by rewrite Ep].
  - apply bind_ok in H as (p & Hp%map_err_ok & H). injection H as <-.
    apply issue_pin_ok in Hp as [Hp _]; [|apply Hok].
    split_and!; [|by repeat split|done]. destruct Hok. by constructor.
Qed.

Lemma admission_policy_ok st p :
  state_ok st -> self_is_committer st = true -> admission_policy st = Ok (Some p) ->
  pin_ok (ps_group st) p /\ policy_issuer p = device_id (ps_device st) /\ gp_issued_epoch p = mg_epoch (ps_group st) /\
  is_designated_committer (ps_group st) (ps_device st) = true /\ ps_policy st <> None.
Proof.
  intros [He Hp _] Hc. unfold admission_policy. destruct (ps_policy st) as [q|]; [|done]. cbn in Hp. intros H.
  apply bind_ok in H as (_ & _ & H). rewrite Hc in H. apply bind_ok in H as (q' & Hq%map_err_ok & H). injection H as ->.
  destruct (endorse_pin_ok _ _ _ _ He Hp Hq) as (? & ? & ? & ?). by split_and!.
Qed.

Lemma publish_inv st st' :
  publish_group_policy st = Ok st' ->
  self_is_committer st = true /\ (exists p, admission_policy st = Ok (Some p)) /\
  ps_group st' = ps_group st /\ ps_device st' = ps_device st /\ ps_policy st' = ps_policy st /\ ps_active st' = true.
Proof.
  unfold publish_group_policy. intros H. res_inv. destruct a as [p|]; [|done]. bool_simpl. split_and!; try done. by exists p.
Qed.

Lemma publish_ok st st' : state_ok st -> publish_group_policy st = Ok st' -> state_ok st' /\ keeps_pin st st'.
Proof.
  intros Hok (Hc & (p & Hp) & Eg & Ed & Ep & Ea)%publish_inv.
  destruct (admission_policy_ok _ _ Hok Hc Hp) as (_ & _ & _ & _ & Hne). destruct Hok as [H1 H2 _].
  split; [constructor|split_and!]; by rewrite ?Eg, ?Ed, ?Ep.
Qed.

Lemma receive_ok b st : state_ok st -> state_ok (on_group_policy b st) /\ keeps_pin st (on_group_policy b st).
Proof.
  intros Hok. unfold on_group_policy. destruct (accept_policy b st) as [p|] eqn:E; [|by split].
  apply accept_policy_exact in E as [_ Hp _ _ _]. destruct Hok as [H1 H2 _]. unfold keeps_pin. cbn.
  destruct (bool_decide (ps_policy st <> Some p)) eqn:Ec; [by split; [constructor|split_and!]|].
  apply bool_decide_eq_false, dec_stable in Ec. rewrite Ec in *. by split; [constructor|split_and!].
Qed.

Lemma pin_step_ok st st' : state_ok st -> pin_step st st' -> state_ok st' /\ keeps_pin st st'.
Proof.
  intros Hok H. destruct H as [mode st' H|st' H|st' H| |b|g topic Hg He Hm|outbox].
  - by destruct (initialize_ok _ _ _ Hok H) as (? & ? & _).
  - unfold initialize_new_group_policy in H. res_inv. destruct (initialize_ok _ _ _ Hok Ha) as ([? ? ?] & ? & ?).
    split; [by constructor|done].
  - by apply publish_ok.
  - unfold republish_group_policy_if_ready. destruct (_ && _); [|by split].
    destruct (publish_group_policy st) as [st'|] eqn:E; [by apply publish_ok|by split].
  - by apply receive_ok.
  - split; [|by repeat split]. destruct Hok as [[H1 H2 H3] H4 H5]. constructor; cbn; [by constructor; rewrite ?Hg| |done].
    destruct (ps_policy st) as [p|]; [|done]. by eapply pin_ok_mono.
  - destruct Hok. by split; [constructor|].
Qed.

(** A restart never fails, and gives back exactly the pin that was saved. *)
Lemma restore_policy_ok saved st o :
  decode_pin saved = Ok o -> opt_ok (pin_ok (ps_group st)) o ->
  exists st', restore_policy saved st = Ok st' /\ ps_policy st' = o /\ ps_group st' = ps_group st /\
    ps_device st' = ps_device st /\ ps_active st' = bool_decide (o <> None).
Proof.
  intros Hd Ho. unfold restore_policy. rewrite Hd, bind_Ok. destruct o as [p|]; [|by eexists]. cbn in Ho.
  eexists. split; [eapply bind_step; [|reflexivity]|done]. unfold require_supported.
  rewrite bool_decide_eq_false_2 by (by intros []; apply Ho). by rewrite (pin_verify _ _ Ho).
Qed.

Lemma node_step_ok n n' :
  node_ok n -> node_step n n' ->
  node_ok n' /\ mg_group_id (ps_group (pd_state n')) = mg_group_id (ps_group (pd_state n)) /\
  ((exists p, decode_pin (pd_saved n).2 = Ok (Some p)) -> exists p, decode_pin (pd_saved n').2 = Ok (Some p)).
Proof.
  intros Hn H. destruct H as [st st' d H|st d|st d topic st' H]; destruct Hn as [Hs Hid He (o & Hd & Ho & Hkeep)]; cbn [pd_state pd_saved fst snd] in *.
  - destruct (pin_step_ok _ _ Hs H) as [Hs' (K1 & K2 & K3)]. split_and!; [|done|done].
    constructor; cbn [pd_state pd_saved fst snd]; [done|congruence|by rewrite K2|]. exists o. eauto.
  - assert (Hp : opt_ok group_policy_ok (ps_policy st)).
    { destruct Hs as [_ Hp _]. destruct (ps_policy st); [|done]. apply Hp. }
    pose proof (pin_round_trip _ Hp) as Hrt. split_and!; [|done|].
    + constructor; cbn [pd_state pd_saved fst snd]; [done|done|apply Hs|]. exists (ps_policy st). split_and!; [done|apply Hs|done].
    + intros [p Ep]. rewrite Hd in Ep. injection Ep as ->. destruct (ps_policy st) as [q|]; [by exists q|].
      exfalso. by apply Hkeep.
  - destruct (restore_policy_ok d.2 (set_group d.1 topic st) o Hd Ho) as (st2 & E & E1 & E2 & E3 & E4).
    rewrite E in H. injection H as <-. cbn [ps_group set_group ps_device] in *. split_and!; [|by rewrite E2|done].
    constructor; cbn [pd_state pd_saved fst snd].
    + constructor; rewrite ?E1, ?E2, ?E3; [done|done|]. rewrite E4. by intros ?%bool_decide_eq_true.
    + by rewrite E2.
    + by rewrite E3.
    + exists o. split_and!; [done|done|by rewrite E1].
Qed.
End life.

(** * Properties *)

Section properties.
Context {C : Crypto}.

(** The policy envelope's codec is exact: bytes decode to a policy exactly
    when they are its encoding and the policy is one a signer can have made, so
    nothing else decodes, and the signature of every decoded policy verifies. *)
Theorem policy_codec_exact b p : policy_decode b = Ok p <-> b = policy_encode p /\ group_policy_ok p.
Proof. split; [apply policy_decode_inv|]. intros [-> Hp]. by apply policy_decode_ok. Qed.

(** C23: an immutable pin. In every run of a node (issue, publication, arbitrary
    messages, owner changes, crashes that reload the last snapshot) whatever
    policy it holds is a valid peer-to-peer policy of its own group, whose body
    is the one its group id determines; a mesh is allowed only under such a
    pin; and once a pin has been saved, it is never lost and every restart
    succeeds. *)
Theorem pin_immutable n n' (Hok : node_ok n) (Hrun : rtc node_step n n') :
  let st := pd_state n' in
  let gid := mg_group_id (ps_group (pd_state n)) in
  mg_group_id (ps_group st) = gid /\
  (forall p, ps_policy st = Some p ->
     pin_ok (ps_group st) p /\ policy_body p = supported_body gid /\ gp_dedicated_service p = None) /\
  (policy_allows_member_mesh st = true -> exists p, ps_policy st = Some p /\ policy_verify_pin p (ps_group st) = Ok tt) /\
  ((exists p, decode_pin (pd_saved n).2 = Ok (Some p)) ->
     ps_policy st <> None /\
     exists o st', decode_pin (pd_saved n').2 = Ok (Some o) /\
       restore_policy (pd_saved n').2 (set_group (pd_saved n').1 (ps_control_topic st) st) = Ok st' /\
       ps_policy st' = Some o /\ group_mode st' = PeerToPeer).
Proof.
  assert (Hinv : node_ok n' /\ mg_group_id (ps_group (pd_state n')) = mg_group_id (ps_group (pd_state n)) /\
    ((exists p, decode_pin (pd_saved n).2 = Ok (Some p)) -> exists p, decode_pin (pd_saved n').2 = Ok (Some p))).
  { induction Hrun as [n|n m n' Hs _ IH]; [by split_and!|].
    destruct (node_step_ok _ _ Hok Hs) as (Hm & Eg & Hk). destruct (IH Hm) as (? & ? & ?). split_and!; [done|congruence|auto]. }
  clear Hok Hrun. destruct Hinv as ([[He Hp Hact] Hid Hes (o & Hd & Ho & Hkeep)] & Hgid & Hsaved). cbv zeta. split_and!.
  - done.
  - intros p Ep. rewrite Ep in Hp. cbn in Hp. destruct (pin_ok_body _ _ Hp) as [Hb Hsv]. by rewrite <- Hgid.
  - unfold policy_allows_member_mesh, group_mode. destruct (ps_active _); [|done]. intros _.
    destruct (ps_policy (pd_state n')) as [p|]; [|by destruct (Hact eq_refl)]. exists p. split; [done|]. by apply pin_verify.
  - intros (p & Hp')%Hsaved. rewrite Hd in Hp'. injection Hp' as ->. split; [by apply Hkeep|].
    set (st0 := set_group (pd_saved n').1 (ps_control_topic (pd_state n')) (pd_state n')).
    destruct (restore_policy_ok (pd_saved n').2 st0 (Some p) Hd Ho) as (st' & E & E1 & _ & _ & E4).
    exists p, st'. split_and!; [done|done|done|]. unfold group_mode. rewrite E4, E1, bool_decide_eq_true_2 by done. apply Ho.
Qed.

(** What a message from the network can do to the pin, exactly. Either it is
    the encoding of a supported policy for this group, signed by the group's
    current owner, with the pinned digest if there is a pin and no older than
    it: then it becomes the pin, and authorises the mesh unless a local pin is
    still waiting to be saved; or nothing changes. *)
Theorem received_policy_exact st b :
  (exists p, acceptable st b p /\
     ps_policy (on_group_policy b st) = Some p /\
     ps_active (on_group_policy b st) =
       (if bool_decide (ps_policy st <> None) && negb (ps_active st) && self_is_committer st then ps_active st else true) /\
     ps_revision (on_group_policy b st) =
       (if bool_decide (ps_policy st = Some p) then ps_revision st else bump (ps_revision st)))
  \/ ((forall p, ~ acceptable st b p) /\ on_group_policy b st = st).
Proof.
  unfold on_group_policy. destruct (accept_policy b st) as [p|e] eqn:E; [left|right].
  - exists p. split; [by apply accept_policy_exact|]. cbn. destruct (bool_decide (ps_policy st <> Some p)) eqn:Ec; bool_simpl.
    + by rewrite (bool_decide_eq_false_2 (ps_policy st = Some p)).
    + by rewrite Ec, (bool_decide_eq_true_2 (Some p = Some p)).
  - split; [|done]. intros p Hp%accept_policy_exact. congruence.
Qed.

(** A published policy is heard. A committer that holds a pin and can sign
    can always publish; when its outbox has room the frame it queues carries a
    policy that every member in the same group state accepts, whatever endorsement
    of the pin it held before, and a member that is not itself the committer
    then runs the mesh mode. *)
Theorem policy_announcement_heard st pin
    (Hok : state_ok st) (Hroster : roster_ok (ps_group st)) (Hpin : ps_policy st = Some pin)
    (Hown : self_is_committer st = true) (Hsign : forall m, device_sign (ps_device st) m <> None)
    (Hroom : len (drop_previous st) < ps_max_outbox st) :
  exists st' p, publish_group_policy st = Ok st' /\
    ps_outbox st' = drop_previous st ++ [(ps_control_topic st, CTRL_GROUP_POLICY :: policy_encode p)] /\
    forall other, state_ok other -> ps_group other = ps_group st ->
      let heard := on_group_policy (policy_encode p) other in
      ps_policy heard = Some p /\ policy_digest p = policy_digest pin /\
      (self_is_committer other = false -> group_mode heard = PeerToPeer).
Proof.
  pose proof (ss_pin _ Hok) as Hp. rewrite Hpin in Hp. cbn in Hp.
  assert (Hc : is_designated_committer (ps_group st) (ps_device st) = true) by (by rewrite <- node_committer_agrees).
  assert (exists p, policy_endorse pin (ps_group st) (ps_device st) = Ok p) as [p Hend].
  { unfold policy_endorse. rewrite (pin_verify _ _ Hp), bind_Ok, Hc. cbn [negb]. rewrite refuse_if_bind_false by done.
    unfold policy_sign. destruct (device_sign _ _) as [s|] eqn:Es; [by eexists|by apply Hsign in Es]. }
  assert (Hadm : admission_policy st = Ok (Some p)).
  { unfold admission_policy. rewrite Hpin, Hown, Hend. eapply bind_step; [|reflexivity].
    unfold require_supported. rewrite bool_decide_eq_false_2 by (by intros []; apply Hp). done. }
  destruct (admission_policy_ok _ _ Hok Hown Hadm) as (Hpp & Hiss & Hep & Hdc & _).
  eexists _, p. split; [unfold publish_group_policy; by rewrite Hown, Hadm|].
  split; [cbn [ps_outbox]; by rewrite (proj2 (N.ltb_lt _ _))|].
  intros other Ho Eg heard.
  assert (Hacc : acceptable other (policy_encode p) p).
  { unfold is_designated_committer in Hdc. apply bool_decide_eq_true in Hdc.
    constructor; [done|by rewrite Eg|by rewrite Eg, Hiss| |]; intros q Eq; pose proof (ss_pin _ Ho) as Hq; rewrite Eq, Eg in Hq; cbn in Hq.
    - unfold policy_digest. by rewrite (proj1 (pin_ok_body _ _ Hq)), (proj1 (pin_ok_body _ _ Hpp)).
    - rewrite Hep. apply Hq. }
  apply accept_policy_exact in Hacc. subst heard. unfold on_group_policy. rewrite Hacc. cbn.
  assert (Epol : (if bool_decide (ps_policy other <> Some p) then Some p else ps_policy other) = Some p).
  { destruct (bool_decide _) eqn:Ec; [done|]. by bool_simpl. }
  split_and!; [done|unfold policy_digest; by rewrite (proj1 (pin_ok_body _ _ Hp)), (proj1 (pin_ok_body _ _ Hpp))|].
  intros Hnc. unfold group_mode. cbn. rewrite Hnc, andb_false_r, Epol. cbn. apply Hpp.
Qed.
End properties.

(** * Witnesses *)

Definition toy_policy_group : MlsGroup :=
  mkMlsGroup (bytes_of_string "g") 0 [mkMember 0 (be_bytes 32 65) []] true.

Definition toy_policy_state : PolicyState :=
  mkPolicyState toy_policy_group (toy_device 65) None false 0 false None [] (bytes_of_string "ctl") 256.

Definition toy_pinned : PolicyState :=
  match initialize_new_group_policy (C:=toy_crypto) toy_policy_state with Ok st => st | Err _ => toy_policy_state end.

Definition toy_saved : MlsGroup * bytes := (toy_policy_group, encode_pin (ps_policy toy_pinned)).

Lemma toy_policy_env : node_env (C:=toy_crypto) toy_policy_group (toy_device 65).
Proof. constructor; [apply toy_device_honest|by vm_compute|by vm_compute]. Qed.

Lemma toy_policy_state_ok : state_ok (C:=toy_crypto) toy_policy_state.
Proof. constructor; [apply toy_policy_env|done|done]. Qed.

Lemma toy_initialized : initialize_new_group_policy (C:=toy_crypto) toy_policy_state = Ok toy_pinned.
Proof. vm_compute. reflexivity. Qed.

Lemma toy_pinned_ok : state_ok (C:=toy_crypto) toy_pinned.
Proof. eapply pin_step_ok; [apply toy_policy_state_ok|]. apply step_initialize_new, toy_initialized. Qed.

Lemma toy_saved_ok : node_ok (C:=toy_crypto) (mkPolicyNode toy_pinned toy_saved).
Proof.
  eapply node_step_ok; [|exact (step_save (C:=toy_crypto) toy_pinned (toy_policy_group, encode_pin None))].
  constructor; [apply toy_pinned_ok|done|apply toy_policy_env|]. exists None.
  split; [vm_compute; reflexivity|]. split; [exact I|]. intros Hn. destruct (Hn eq_refl).
Qed.

Lemma toy_saved_pin : exists p, decode_pin (C:=toy_crypto) toy_saved.2 = Ok (Some p).
Proof. vm_compute. by eexists. Qed.

(** The owner publishes after the snapshot and the node crashes. *)
Definition toy_restored : PolicyState :=
  match restore_policy (C:=toy_crypto) toy_saved.2 (set_group toy_policy_group [] toy_pinned) with
  | Ok st => st | Err _ => toy_pinned end.

Lemma toy_policy_run : rtc (node_step (C:=toy_crypto)) (mkPolicyNode toy_pinned toy_saved) (mkPolicyNode toy_restored toy_saved).
Proof.
  eapply rtc_l; [apply step_run, (step_receive (C:=toy_crypto) _ [])|].
  eapply rtc_l; [|apply rtc_refl]. apply (step_crash (C:=toy_crypto)) with (topic := []). vm_compute. reflexivity.
Qed.

Lemma pin_immutable_witness : ps_policy toy_restored <> None.
Proof.
  exact (proj1 (proj2 (proj2 (proj2 (pin_immutable (C:=toy_crypto) _ _ toy_saved_ok toy_policy_run))) toy_saved_pin)).
Defined.

Lemma toy_pinned_group : ps_group toy_pinned = toy_policy_group.
Proof. vm_compute. reflexivity. Qed.
Lemma toy_pinned_roster : roster_ok (C:=toy_crypto) (ps_group toy_pinned).
Proof. rewrite toy_pinned_group. constructor; apply (bool_decide_eq_true_1 _); vm_compute; reflexivity. Qed.
Lemma toy_pinned_pin : exists pin, ps_policy toy_pinned = Some pin.
Proof. vm_compute. by eexists. Qed.
Lemma toy_pinned_owner : self_is_committer (C:=toy_crypto) toy_pinned = true.
Proof. vm_compute. reflexivity. Qed.
Lemma toy_pinned_signs m : device_sign (ps_device toy_pinned) m <> None.
Proof. assert (E : ps_device toy_pinned = toy_device 65) by (vm_compute; reflexivity). by rewrite E. Qed.
Lemma toy_pinned_room : len (drop_previous toy_pinned) < ps_max_outbox toy_pinned.
Proof. vm_compute. reflexivity. Qed.

Lemma policy_announcement_heard_witness :
  exists st' p, publish_group_policy (C:=toy_crypto) toy_pinned = Ok st' /\
    ps_policy (on_group_policy (C:=toy_crypto) (policy_encode p) toy_policy_state) = Some p.
Proof.
  destruct toy_pinned_pin as [pin E].
  destruct (policy_announcement_heard (C:=toy_crypto) toy_pinned pin toy_pinned_ok toy_pinned_roster E
    toy_pinned_owner toy_pinned_signs toy_pinned_room) as (st' & p & H1 & _ & H3).
  exists st', p. split; [exact H1|].
  exact (proj1 (H3 toy_policy_state toy_policy_state_ok (eq_sym toy_pinned_group))).
Defined.
