(* ===== verification/OwnerTenure.v ===== *)
(** Locally observed owner tenure, [crates/catcoms-sync/src/owner_tenure.rs]:
    what a device may believe about when the current owner took office, and the
    archived witness of a retired owner.

    A device signs receipts only under a tenure start it has observed; the
    question is whether the bookkeeping can ever claim a start that is not the
    true one. The specification is the group's whole history, a group state per
    epoch, of which the device sees only the transitions it applied: gaps,
    missed observations, restarts and records of older versions included. *)

From S2P Require Import Prelude Wire Codec Crypto Authority Membership GroupPolicy EpochBase.
From stdpp Require Import base list relations.
From Stdlib Require Import Init.Byte.
Local Open Scope N_scope.

Record Position := mkPosition {
  po_owner : option bytes;
  po_leaf : option (N * bytes);
  po_owner_key : option bytes;
  po_epoch : N
}.
#[global] Instance Position_eq_dec : EqDecision Position.
Proof. solve_decision. Defined.

Record ArchivedOwnerTenure := mkArchivedOwnerTenure {
  ao_owner_key : bytes;
  ao_start : N;
  ao_tenure_id : bytes;
  ao_retired_at : N
}.
#[global] Instance ArchivedOwnerTenure_eq_dec : EqDecision ArchivedOwnerTenure.
Proof. solve_decision. Defined.

Record OwnerTenure := mkOwnerTenure {
  ot_position : Position;
  ot_start : option N;
  ot_imported : bool;
  ot_archive : option ArchivedOwnerTenure
}.

Inductive ObservedOwnerTenure :=
| Observed (start : N)
| Imported (start : N)
| Unknown.

Definition WITNESS_BYTES : N := 32 + 8 + 32 + 8.

Section tenure.
Context {C : Crypto} (derive_key : bytes -> bytes -> bytes).

Definition committer_key (g : MlsGroup) (owner : bytes) : option bytes :=
  key ← mls_member_signature_key g owner;
  if (length key =? 32)%nat then Some key else None.

(** [Position::of] *)
Definition Position_of (g : MlsGroup) : Position :=
  let owner := mls_designated_committer g in
  mkPosition owner (designated_committer_leaf derive_key g) (id ← owner; committer_key g id) (mg_epoch g).

(** [ArchivedOwnerTenure::mint] *)
Definition mint (g : MlsGroup) (owner_key : bytes) (start retired_at : N) : ArchivedOwnerTenure :=
  mkArchivedOwnerTenure owner_key start (tenure_id_of (mg_group_id g) owner_key start) retired_at.

(** [OwnerTenure::unknown], [new] and [joined] *)
Definition tenure_unknown (g : MlsGroup) : OwnerTenure := mkOwnerTenure (Position_of g) None false None.

Definition tenure_new (g : MlsGroup) : OwnerTenure :=
  let state := tenure_unknown g in
  if (po_epoch (ot_position state) =? 0) && bool_decide (po_owner (ot_position state) <> None)
  then mkOwnerTenure (ot_position state) (Some 0) false None else state.

Definition tenure_joined (g : MlsGroup) (dev : MlsDevice) : OwnerTenure :=
  let state := tenure_unknown g in
  if bool_decide (mls_designated_committer g = Some (device_id dev))
  then mkOwnerTenure (ot_position state) (Some (po_epoch (ot_position state))) false None else state.

(** The start a step derives or carries, and whether it derived it. *)
Definition next_start (t : OwnerTenure) (before after : Position) : option N * bool :=
  if bool_decide (po_owner after = None)
     || bool_decide (checked_add u64_max (po_epoch before) 1 <> Some (po_epoch after)) then (None, false)
  else if bool_decide (po_owner before <> None) && bool_decide (po_owner after <> None)
          && bool_decide (po_owner before <> po_owner after) then (Some (po_epoch after), true)
  else if bool_decide (po_owner before <> None) && bool_decide (po_owner before = po_owner after)
          && bool_decide (po_leaf before <> po_leaf after) then (Some (po_epoch after), true)
  else if bool_decide (ot_position t = before) then (ot_start t, false)
  else (None, false).

(** [OwnerTenure::applied] *)
Definition tenure_applied (t : OwnerTenure) (before : Position) (g : MlsGroup) : OwnerTenure :=
  let after := Position_of g in
  if bool_decide (after = before) then t
  else
    let '(start, computed) := next_start t before after in
    let archive :=
      if computed && bool_decide (ot_position t = before) && negb (ot_imported t) then
        match po_owner_key before, ot_start t with
        | Some key, Some held => Some (mint g key held (po_epoch after))
        | _, _ => ot_archive t
        end
      else ot_archive t in
    mkOwnerTenure after start (ot_imported t && negb computed && bool_decide (start <> None)) archive.

(** [OwnerTenure::archived] and [observed] *)
Definition tenure_archived (t : OwnerTenure) (g : MlsGroup) : option ArchivedOwnerTenure :=
  if bool_decide (ot_position t <> Position_of g) then None else ot_archive t.

Definition tenure_observed (t : OwnerTenure) (g : MlsGroup) : ObservedOwnerTenure :=
  if bool_decide (ot_position t <> Position_of g) then Unknown
  else
    match ot_start t, ot_imported t with
    | Some start, false => Observed start
    | Some start, true => Imported start
    | None, _ => Unknown
    end.

Definition verification_owner_tenure_start (t : OwnerTenure) (g : MlsGroup) : option N :=
  match tenure_observed t g with Observed start | Imported start => Some start | Unknown => None end.
Definition authoring_owner_tenure_start (t : OwnerTenure) (g : MlsGroup) : option N :=
  match tenure_observed t g with Observed start => Some start | _ => None end.

(** ** The persisted tail *)

Definition Archived_encode (a : ArchivedOwnerTenure) : bytes :=
  ao_owner_key a ++ be_bytes 8 (ao_start a) ++ ao_tenure_id a ++ be_bytes 8 (ao_retired_at a).

Definition Archived_decode (b : bytes) (g : MlsGroup) (epoch : N) : result SyncError ArchivedOwnerTenure :=
  _ ← refuse_if (negb (len b =? WITNESS_BYTES)) SyncMalformed;
  let owner_key := firstn 32 b in
  let start := be_val (firstn 8 (skipn 32 b)) in
  let tenure_id := firstn 32 (skipn 40 b) in
  let retired_at := be_val (firstn 8 (skipn 72 b)) in
  let witness := mint g owner_key start retired_at in
  _ ← refuse_if (bool_decide (ao_tenure_id witness <> tenure_id) || (retired_at <=? start) || (epoch <? retired_at))
        SyncMalformed;
  Ok witness.

Definition put_bytes_s (v buf : bytes) : result SyncError bytes :=
  map_err (fun _ => SyncMalformed) (put_bytes v buf).

Definition leaf_bytes (leaf : option (N * bytes)) : bytes :=
  match leaf with None => [] | Some (index, digest) => be_bytes 4 index ++ digest end.

(** [OwnerTenure::encode] *)
Definition tenure_encode (t : OwnerTenure) (g : MlsGroup) : result SyncError bytes :=
  _ ← refuse_if (bool_decide (ot_position t <> Position_of g)) SyncMalformed;
  let buf := put_u64 (po_epoch (ot_position t)) (put_u8 (if bool_decide (ot_archive t = None) then 2 else 3) []) in
  buf ← put_bytes_s (default [] (po_owner (ot_position t))) buf;
  buf ← put_bytes_s (match ot_start t with Some epoch => be_bytes 8 epoch | None => [] end) buf;
  buf ← put_bytes_s (leaf_bytes (po_leaf (ot_position t))) buf;
  let buf := put_u8 (if ot_imported t then 1 else 0) buf in
  match ot_archive t with
  | Some a => put_bytes_s (Archived_encode a) buf
  | None => Ok buf
  end.

(** An optional field of fixed size: empty when absent. *)
Definition get_sized_option {A} (n : nat) (read : bytes -> A) : dec SyncError (option A) :=
  b ← or_err SyncMalformed get_bytes;
  dec_lift (match b with
            | [] => Ok None
            | _ => if (length b =? n)%nat then Ok (Some (read b)) else Err SyncMalformed
            end).

Definition read_leaf (b : bytes) : N * bytes := (be_val (firstn 4 b), skipn 4 b).

Definition get_import_flag : dec SyncError bool :=
  v ← or_err SyncMalformed get_u8;
  dec_lift (if v =? 0 then Ok false else if v =? 1 then Ok true else Err SyncMalformed).

(** The fields in wire order; the first version has neither leaf nor flag. *)
Definition get_tenure_state (g : MlsGroup) : dec SyncError OwnerTenure :=
  version ← or_err SyncMalformed get_u8;
  _ ← dec_refuse (negb ((1 <=? version) && (version <=? 3))) SyncMalformed;
  epoch ← or_err SyncMalformed get_u64;
  owner ← get_sized_option 32 id;
  start ← get_sized_option 8 be_val;
  extra ← (if 2 <=? version
           then (leaf ← get_sized_option 36 read_leaf; imported ← get_import_flag; mret (leaf, imported))
           else mret (designated_committer_leaf derive_key g,
                      match start with Some s => negb (s =? epoch) | None => false end));
  archive ← (if version =? 3
             then (b ← or_err SyncMalformed get_bytes; a ← dec_lift (Archived_decode b g epoch); mret (Some a))
             else mret None);
  mret (mkOwnerTenure (mkPosition owner extra.1 (id ← owner; committer_key g id) epoch) start extra.2 archive).

(** [OwnerTenure::decode] *)
Definition tenure_decode (input : bytes) (g : MlsGroup) : result SyncError OwnerTenure :=
  _ ← refuse_if (98 + 4 + WITNESS_BYTES <? len input) SyncMalformed;
  t ← run_dec (x ← get_tenure_state g; _ ← or_err SyncMalformed finish; mret x) input;
  _ ← refuse_if (bool_decide (ot_position t <> Position_of g)
                 || match ot_start t with
                    | Some start => bool_decide (po_owner (ot_position t) = None) || (po_epoch (ot_position t) <? start)
                    | None => false
                    end
                 || (ot_imported t && bool_decide (ot_start t = None))) SyncMalformed;
  Ok t.

(** [ChannelSync::with_observed_mls_transition], on the fields it owns: the
    group the work left behind, the tenure, and the owner's admin roster. *)
Definition observed_transition (before after : MlsGroup) (t : OwnerTenure) (admins : list bytes)
    : OwnerTenure * list bytes :=
  let t := tenure_applied t (Position_of before) after in
  let admins := if bool_decide (mls_designated_committer before <> mls_designated_committer after) then [] else admins in
  (t, List.filter (contains_device after) admins).
End tenure.

(** * The group's history *)

Section history.
Context {C : Crypto} (derive_key : bytes -> bytes -> bytes).

(** One group state per epoch, all of one group. *)
Record history_ok (H : N -> MlsGroup) (gid : bytes) : Prop := mkHistoryOk {
  hi_epoch : forall e, mg_epoch (H e) = e;
  hi_id : forall e, mg_group_id (H e) = gid;
  hi_index : forall e, Forall (fun m => mb_index m <= u32_max) (mg_members (H e))
}.

Definition same_office (H : N -> MlsGroup) (a b : N) : Prop :=
  mls_designated_committer (H a) = mls_designated_committer (H b) /\
  designated_committer_leaf derive_key (H a) = designated_committer_leaf derive_key (H b).

(** The owner in office at [e] took office at [s]: the same identity on the same
    leaf in every epoch since, and not in the epoch before. *)
Record tenure_began (H : N -> MlsGroup) (s e : N) : Prop := mkTenureBegan {
  tb_le : s <= e;
  tb_owner : mls_designated_committer (H e) <> None;
  tb_since : forall k, s <= k -> k <= e -> same_office H k e;
  tb_before : 0 < s -> ~ same_office H (s - 1) e
}.

(** A witness tells the truth: its owner held office from [start] to the epoch
    before [retired_at], and not at [retired_at]. *)
Record witness_true (H : N -> MlsGroup) (gid : bytes) (a : ArchivedOwnerTenure) : Prop := mkWitnessTrue {
  wt_order : ao_start a < ao_retired_at a;
  wt_held : tenure_began H (ao_start a) (ao_retired_at a - 1);
  wt_left : ~ same_office H (ao_retired_at a) (ao_retired_at a - 1);
  wt_key : (owner ← mls_designated_committer (H (ao_retired_at a - 1));
            committer_key (H (ao_retired_at a - 1)) owner) = Some (ao_owner_key a);
  wt_id : ao_tenure_id a = tenure_id_of gid (ao_owner_key a) (ao_start a)
}.

(** ** A device's run through the history

    Epochs only advance. A step may observe a transition of any length, miss one
    altogether, or save and reload at the current epoch. A device may start from
    the bytes of a first-version record, as an upgraded build finds them. *)

Definition first_version (b : bytes) : Prop := head b = Some x01.

(** What the first version guaranteed of the start it wrote at epoch [e], and
    all it guaranteed. Its rule saw only the owner's identity, so an earlier
    start may be stale; but it set the start to the epoch itself only at the
    founding or when the step into [e] changed the owner. *)
Definition first_version_rule (H : N -> MlsGroup) (e : N) (start : option N) : Prop :=
  start = Some e -> 0 < e -> mls_designated_committer (H (e - 1)) <> mls_designated_committer (H e).

Inductive tenure_start (H : N -> MlsGroup) : N * OwnerTenure -> Prop :=
| start_founding : tenure_start H (0, tenure_new derive_key (H 0))
| start_unknown e : e <= u64_max -> tenure_start H (e, tenure_unknown derive_key (H e))
| start_joined e dev :
    e <= u64_max -> (0 < e -> contains_device (H (e - 1)) (device_id dev) = false) ->
    tenure_start H (e, tenure_joined derive_key (H e) dev)
| start_first_version e b t :
    e <= u64_max -> first_version b -> tenure_decode derive_key b (H e) = Ok t ->
    first_version_rule H e (ot_start t) ->
    tenure_start H (e, t).

Inductive tenure_step (H : N -> MlsGroup) : N * OwnerTenure -> N * OwnerTenure -> Prop :=
| step_observe e e' t :
    e <= e' -> e' <= u64_max ->
    tenure_step H (e, t) (e', tenure_applied derive_key t (Position_of derive_key (H e)) (H e'))
| step_missed e e' t : e <= e' -> e' <= u64_max -> tenure_step H (e, t) (e', t)
| step_reload e t b t' :
    tenure_encode derive_key t (H e) = Ok b -> tenure_decode derive_key b (H e) = Ok t' ->
    tenure_step H (e, t) (e, t').

Record tenure_sound (H : N -> MlsGroup) (gid : bytes) (t : OwnerTenure) : Prop := mkTenureSound {
  so_position : exists p, ot_position t = Position_of derive_key (H p) /\
    (forall s, ot_start t = Some s -> ot_imported t = false -> tenure_began H s p);
  so_archive : forall a, ot_archive t = Some a -> witness_true H gid a
}.

Lemma committer_member g d : mls_designated_committer g = Some d -> contains_device g d = true.
Proof.
  unfold mls_designated_committer, contains_device, member_device_ids. intros E.
  destruct (min_member (mg_members g)) as [m|] eqn:Em; [|done]. injection E as <-.
  apply bool_decide_eq_true, list_elem_of_fmap. exists m. split; [done|]. by apply min_member_spec in Em as [? _].
Qed.

Lemma tenure_began_self H e :
  mls_designated_committer (H e) <> None -> (0 < e -> ~ same_office H (e - 1) e) -> tenure_began H e e.
Proof.
  intros Ho Hb. constructor; [done|done| |done]. intros k H1 H2. assert (k = e) as -> by lia. done.
Qed.

Lemma tenure_began_extend H s e :
  tenure_began H s e -> same_office H e (e + 1) -> tenure_began H s (e + 1).
Proof.
  intros [H1 H2 H3 H4] [E1 E2]. constructor.
  - lia.
  - by rewrite <- E1.
  - intros k Hk1 Hk2. destruct (N.eq_dec k (e + 1)) as [->|Hne]; [done|].
    destruct (H3 k) as [F1 F2]; [lia|lia|]. split; congruence.
  - intros Hs [F1 F2]. apply (H4 Hs). split; congruence.
Qed.

(** What decoding accepts, whatever the version. *)
Lemma tenure_decode_checked b g t :
  tenure_decode derive_key b g = Ok t ->
  ot_position t = Position_of derive_key g /\
  opt_ok (fun s => s <= mg_epoch g /\ mls_designated_committer g <> None) (ot_start t) /\
  (ot_imported t = true -> ot_start t <> None).
Proof.
  unfold tenure_decode. intros Hd. apply refuse_if_bind_ok in Hd as [_ Hd]. apply bind_ok in Hd as (t' & _ & Hd).
  apply refuse_if_bind_ok in Hd as [Hd [= ->]]. apply orb_false_iff in Hd as [Hd Hi]. apply orb_false_iff in Hd as [Hp Hs].
  apply bool_decide_eq_false in Hp. apply dec_stable in Hp. split_and!; [done| |].
  - destruct (ot_start t) as [s|]; [|done]. apply orb_false_iff in Hs as [Ho Hs]. rewrite Hp in Ho, Hs.
    apply bool_decide_eq_false in Ho. apply N.ltb_ge in Hs. by split.
  - intros E. rewrite E in Hi. by apply bool_decide_eq_false in Hi.
Qed.

(** A first-version record is promoted exactly when its start is the epoch it
    was written at, and imported otherwise; it carries no witness. *)
Lemma first_version_decoded b g t :
  first_version b -> tenure_decode derive_key b g = Ok t ->
  ot_archive t = None /\ (ot_imported t = false -> forall s, ot_start t = Some s -> s = mg_epoch g).
Proof.
  intros Hv Hd. destruct (tenure_decode_checked _ _ _ Hd) as [Hp _]. unfold tenure_decode in Hd.
  apply refuse_if_bind_ok in Hd as [_ Hd]. apply bind_ok in Hd as (t' & Hr & Hd). apply refuse_if_bind_ok in Hd as [_ [= ->]].
  unfold run_dec in Hr. destruct ((x ← get_tenure_state derive_key g; _ ← _; mret x) _) as [r d'] eqn:E in Hr. cbn in Hr. subst r.
  apply dec_bind_ok in E as (t1 & d1 & E & F). apply dec_bind_ok in F as (? & ? & _ & F). apply dec_ret_ok in F as [-> _].
  apply dec_bind_ok in E as (v & d2 & Ev & E). apply consumes_or_u8 in Ev as (bs & Hb & -> & Hmax).
  assert (v = 1) as ->.
  { unfold first_version in Hv. change (d_rest (Decoder_new b)) with b in Hb. subst b.
    pose proof (length_be_bytes 1 v) as Hl. destruct (be_bytes 1 v) as [|c1 [|c2 l]] eqn:Eb; [done| |done].
    cbn [app head] in Hv. injection Hv as ->.
    apply (f_equal be_val) in Eb. rewrite be_val_be_bytes in Eb by (rewrite pow256_1; lia). exact Eb. }
  apply dec_bind_ok in E as (? & d3 & _ & E). apply dec_bind_ok in E as (epoch & d4 & _ & E).
  apply dec_bind_ok in E as (owner & d5 & _ & E). apply dec_bind_ok in E as (start & d6 & _ & E).
  apply dec_bind_ok in E as (extra & d7 & Ex & E). apply dec_ret_ok in Ex as [<- _].
  apply dec_bind_ok in E as (archive & d8 & Ea & E). apply dec_ret_ok in Ea as [<- _]. apply dec_ret_ok in E as [<- _].
  cbn [ot_position ot_archive ot_imported ot_start snd] in *. split; [done|]. intros Hi s ->.
  apply (f_equal po_epoch) in Hp. cbn in Hp. rewrite <- Hp. apply negb_false_iff, N.eqb_eq in Hi. exact Hi.
Qed.

Section run.
Context (H : N -> MlsGroup) (gid : bytes) (Hh : history_ok H gid).

Lemma position_epoch e : po_epoch (Position_of derive_key (H e)) = e.
Proof using Hh. apply Hh. Qed.

Lemma position_inj e e' : Position_of derive_key (H e) = Position_of derive_key (H e') -> e = e'.
Proof using Hh. intros E. by rewrite <- (position_epoch e), <- (position_epoch e'), E. Qed.

Lemma tenure_start_sound st : tenure_start H st -> tenure_sound H gid st.2.
Proof using Hh.
  destruct 1 as [|e _|e dev _ Hnew|e b t _ Hv Hd Hrule]; cbn [snd].
  - unfold tenure_new. destruct (_ && _) eqn:E; cbn; (constructor; [exists 0; split; [done|]|done]); cbn; [|done].
    intros s [= <-] _. apply andb_true_iff in E as [_ E%bool_decide_eq_true]. by apply tenure_began_self.
  - constructor; [by exists e|done].
  - unfold tenure_joined. case_bool_decide as E; cbn; (constructor; [exists e; split; [done|]|done]); cbn; [|done].
    intros s [= <-] _. rewrite (hi_epoch _ _ Hh). apply tenure_began_self; [by rewrite E|].
    intros He [F _]. rewrite E in F. apply committer_member in F. rewrite (Hnew He) in F. done.
  - destruct (tenure_decode_checked _ _ _ Hd) as (Hp & Hs & _). destruct (first_version_decoded _ _ _ Hv Hd) as [Ha Hi].
    constructor; [|by rewrite Ha]. exists e. split; [done|]. intros s Es Eimp. pose proof (Hi Eimp s Es) as ->.
    rewrite (hi_epoch _ _ Hh) in *. rewrite Es in Hs. apply tenure_began_self; [apply Hs|].
    intros He [F _]. by apply (Hrule Es He).
Qed.

(** What a step derives is the truth; what it carries stays true. *)
Lemma next_start_sound t e e' start computed :
  tenure_sound H gid t ->
  next_start t (Position_of derive_key (H e)) (Position_of derive_key (H e')) = (start, computed) ->
  (computed = true -> e' = e + 1 /\ start = Some e' /\ ~ same_office H e e' /\ mls_designated_committer (H e') <> None) /\
  (computed = false -> forall s, start = Some s ->
     e' = e + 1 /\ ot_position t = Position_of derive_key (H e) /\ ot_start t = Some s /\
     (mls_designated_committer (H e) <> None -> same_office H e e')).
Proof using Hh.
  intros Hs. unfold next_start. rewrite !position_epoch. cbn [po_owner po_leaf Position_of].
  destruct (bool_decide (mls_designated_committer (H e') = None)
    || bool_decide (checked_add u64_max e 1 <> Some e')) eqn:Egap; [intros [= <- <-]; split; done|].
  apply orb_false_iff in Egap as [Eo Ee]. apply bool_decide_eq_false in Eo, Ee. apply dec_stable in Ee.
  assert (e' = e + 1) as -> by (unfold checked_add in Ee; destruct (_ <=? _); congruence).
  destruct (_ && _) eqn:E1.
  { intros [= <- <-]. split; [|done]. intros _. bool_simpl. split_and!; [done|done| |done]. intros [F _]. done. }
  destruct (bool_decide (mls_designated_committer (H e) <> None)
    && bool_decide (mls_designated_committer (H e) = mls_designated_committer (H (e + 1)))
    && bool_decide (designated_committer_leaf derive_key (H e) <> designated_committer_leaf derive_key (H (e + 1)))) eqn:E2.
  { intros [= <- <-]. split; [|done]. intros _. bool_simpl. split_and!; [done|done| |done]. intros [_ F]. done. }
  destruct (bool_decide (ot_position t = Position_of derive_key (H e))) eqn:Ep; intros [= <- <-]; (split; [done|]); [|done].
  apply bool_decide_eq_true in Ep. intros _ s Hst. split_and!; [done|done|done|].
  intros Hbefore.
  assert (Eown : mls_designated_committer (H e) = mls_designated_committer (H (e + 1))).
  { destruct (decide (mls_designated_committer (H e) = mls_designated_committer (H (e + 1)))) as [|Hne]; [done|].
    rewrite !bool_decide_eq_true_2 in E1 by done. done. }
  split; [done|].
  destruct (decide (designated_committer_leaf derive_key (H e) = designated_committer_leaf derive_key (H (e + 1)))) as [|Hne]; [done|].
  rewrite !bool_decide_eq_true_2 in E2 by done. done.
Qed.

Lemma tenure_applied_sound t e e' :
  tenure_sound H gid t ->
  tenure_sound H gid (tenure_applied derive_key t (Position_of derive_key (H e)) (H e')).
Proof using Hh.
  intros Hs. unfold tenure_applied. case_bool_decide as Eeq; [done|].
  destruct (next_start t _ _) as [start computed] eqn:En.
  destruct (next_start_sound _ _ _ _ _ Hs En) as [Hcomp Hcarry]. destruct Hs as [(p & Ep & Hp) Ha].
  constructor; cbn [ot_position ot_start ot_imported ot_archive].
  - exists e'. split; [done|]. intros s -> Himp. destruct computed.
    + destruct (Hcomp eq_refl) as (-> & [= ->] & Hno & Ho). apply tenure_began_self; [done|].
      intros _. by replace (e + 1 - 1) with e by lia.
    + rewrite bool_decide_eq_true_2, andb_true_r, andb_true_r in Himp by done.
      destruct (Hcarry eq_refl s eq_refl) as (-> & Epos & Est & Hsame).
      assert (p = e) as -> by (apply position_inj; congruence).
      specialize (Hp s Est Himp). apply tenure_began_extend; [done|]. apply Hsame. apply Hp.
  - intros a. destruct (computed && bool_decide (ot_position t = Position_of derive_key (H e)) && negb (ot_imported t)) eqn:Ec; [|by apply Ha].
    bool_simpl. destruct (po_owner_key _) as [key|] eqn:Ek; [|by apply Ha]. destruct (ot_start t) as [held|] eqn:Est; [|by apply Ha].
    intros [= <-]. destruct (Hcomp ltac:(done)) as (-> & _ & Hno & _).
    assert (p = e) as -> by (apply position_inj; congruence). specialize (Hp held eq_refl ltac:(done)).
    unfold mint. cbn [po_epoch Position_of]. rewrite (hi_epoch _ _ Hh). constructor; cbn; replace (e + 1 - 1) with e by lia.
    + pose proof (tb_le _ _ _ Hp). lia.
    + done.
    + intros [F1 F2]. apply Hno. split; congruence.
    + exact Ek.
    + by rewrite (hi_id _ _ Hh).
Qed.
End run.
End history.

(** * The persisted tail *)

Section codec.
Context {C : Crypto} {L : CryptoLaws C} (derive_key : bytes -> bytes -> bytes).
Context (derive_key_length : forall c m, length (derive_key c m) = 32%nat).

Definition archive_ok (g : MlsGroup) (a : ArchivedOwnerTenure) : Prop :=
  length (ao_owner_key a) = 32%nat /\ ao_start a < ao_retired_at a /\ ao_retired_at a <= mg_epoch g /\
  ao_tenure_id a = tenure_id_of (mg_group_id g) (ao_owner_key a) (ao_start a).

(** A state that may be saved with the group it describes. *)
Record saved_ok (g : MlsGroup) (t : OwnerTenure) : Prop := mkSavedOk {
  sv_position : ot_position t = Position_of derive_key g;
  sv_epoch : mg_epoch g <= u64_max;
  sv_index : Forall (fun m => mb_index m <= u32_max) (mg_members g);
  sv_start : opt_ok (fun s => s <= mg_epoch g /\ mls_designated_committer g <> None) (ot_start t);
  sv_imported : ot_imported t = true -> ot_start t <> None;
  sv_archive : opt_ok (archive_ok g) (ot_archive t)
}.

Lemma committer_length g d : mls_designated_committer g = Some d -> length d = 32%nat.
Proof using L.
  unfold mls_designated_committer. destruct (min_member _) as [m|]; [|done]. intros [= <-]. apply blake3_length.
Qed.

Lemma leaf_fits g i d :
  Forall (fun m => mb_index m <= u32_max) (mg_members g) ->
  designated_committer_leaf derive_key g = Some (i, d) -> i <= u32_max /\ length d = 32%nat.
Proof using derive_key_length.
  intros Hf. unfold designated_committer_leaf. destruct (min_member _) as [m|] eqn:E; [|done]. cbn. intros [= <- <-].
  split; [|apply derive_key_length]. apply min_member_spec in E as [Hm _]. rewrite Forall_forall in Hf. by apply Hf.
Qed.

Lemma reads_sized_option {A} n (read : bytes -> A) (b : bytes) o :
  (b = [] /\ o = None) \/ (length b = n /\ b <> [] /\ o = Some (read b)) -> len b <= u32_max ->
  reads (get_sized_option n read) (lp b) o.
Proof using Type.
  intros Hb Hl. unfold get_sized_option. eapply reads_bind_last; [by apply reads_or, reads_bytes|].
  apply reads_lift_ok. destruct Hb as [[-> ->]|(Hn & Hne & ->)]; [done|]. destruct b; [done|]. by rewrite Hn, Nat.eqb_refl.
Qed.

Lemma be_val_8 s : s <= u64_max -> be_val (be_bytes 8 s) = s.
Proof using Type. intros H. apply be_val_be_bytes. rewrite pow256_8. lia. Qed.

Lemma archived_round_trip g a :
  mg_epoch g <= u64_max -> archive_ok g a -> length (tenure_id_of (mg_group_id g) (ao_owner_key a) (ao_start a)) = 32%nat ->
  length (Archived_encode a) = 80%nat /\ Archived_decode (Archived_encode a) g (mg_epoch g) = Ok a.
Proof using Type.
  intros He (Hk & Hlt & Hle & Hid) Hl. destruct a as [key s tid r]. cbn [ao_owner_key ao_start ao_tenure_id ao_retired_at] in *. subst tid.
  set (tid := tenure_id_of (mg_group_id g) key s) in *.
  assert (E80 : length (Archived_encode (mkArchivedOwnerTenure key s tid r)) = 80%nat)
    by (unfold Archived_encode; cbn [ao_owner_key ao_start ao_tenure_id ao_retired_at]; rewrite !length_app, !length_be_bytes, Hk, Hl; done).
  split; [done|]. unfold Archived_decode. rewrite refuse_if_bind_false; [|unfold len; rewrite E80; done].
  unfold Archived_encode. cbn [ao_owner_key ao_start ao_tenure_id ao_retired_at].
  assert (E1 : firstn 32 (key ++ be_bytes 8 s ++ tid ++ be_bytes 8 r) = key) by (rewrite <- Hk; apply take_app_length).
  assert (E2 : skipn 32 (key ++ be_bytes 8 s ++ tid ++ be_bytes 8 r) = be_bytes 8 s ++ tid ++ be_bytes 8 r)
    by (rewrite <- Hk; apply drop_app_length).
  assert (E3 : skipn 40 (key ++ be_bytes 8 s ++ tid ++ be_bytes 8 r) = tid ++ be_bytes 8 r).
  { change 40%nat with (32 + 8)%nat. rewrite <- drop_drop, E2. exact (drop_app_length (be_bytes 8 s) _). }
  assert (E4 : skipn 72 (key ++ be_bytes 8 s ++ tid ++ be_bytes 8 r) = be_bytes 8 r).
  { change 72%nat with (40 + 32)%nat. rewrite <- drop_drop, E3, <- Hl. apply drop_app_length. }
  rewrite E1, E2, E3, E4. change (firstn 8 (be_bytes 8 s ++ tid ++ be_bytes 8 r)) with (be_bytes 8 s).
  assert (E5 : firstn 32 (tid ++ be_bytes 8 r) = tid) by (rewrite <- Hl; apply take_app_length). rewrite E5.
  change (firstn 8 (be_bytes 8 r)) with (be_bytes 8 r). rewrite !be_val_8 by lia. cbv zeta.
  rewrite refuse_if_bind_false; [done|]. unfold mint. cbn [ao_tenure_id].
  rewrite bool_decide_eq_false_2, (proj2 (N.leb_gt _ _)), (proj2 (N.ltb_ge _ _)); [done|done|done|]. by intros [].
Qed.

Definition tenure_state_bytes (t : OwnerTenure) : bytes :=
  be_bytes 1 (if bool_decide (ot_archive t = None) then 2 else 3) ++ be_bytes 8 (po_epoch (ot_position t)) ++
  lp (default [] (po_owner (ot_position t))) ++
  lp (match ot_start t with Some epoch => be_bytes 8 epoch | None => [] end) ++
  lp (leaf_bytes (po_leaf (ot_position t))) ++ be_bytes 1 (if ot_imported t then 1 else 0) ++
  (match ot_archive t with Some a => lp (Archived_encode a) | None => [] end).

Lemma put_bytes_s_ok v buf : len v <= u32_max -> put_bytes_s v buf = Ok (buf ++ lp v).
Proof using Type. intros H. unfold put_bytes_s. by rewrite put_bytes_ok. Qed.

(** The sizes of the variable fields. *)
Lemma saved_sizes g t :
  saved_ok g t ->
  (len (default [] (po_owner (ot_position t))) <= 32 /\
   len (match ot_start t with Some epoch => be_bytes 8 epoch | None => [] end) <= 8 /\
   len (leaf_bytes (po_leaf (ot_position t))) <= 36 /\
   match ot_archive t with Some a => length (Archived_encode a) = 80%nat | None => True end).
Proof using L derive_key_length.
  intros [Hp He Hi Hs _ Ha]. rewrite Hp. cbn [po_owner po_leaf Position_of]. split_and!.
  - destruct (mls_designated_committer g) as [d|] eqn:E; [|unfold len; cbn; lia]. cbn. unfold len. rewrite (committer_length _ _ E). lia.
  - destruct (ot_start t); [|unfold len; cbn; lia]. rewrite len_be_bytes. lia.
  - destruct (designated_committer_leaf derive_key g) as [[i d]|] eqn:E; [|unfold len; cbn; lia]. cbn [leaf_bytes].
    destruct (leaf_fits _ _ _ Hi E) as [_ Hd]. rewrite len_app, len_be_bytes. unfold len. rewrite Hd. lia.
  - destruct (ot_archive t) as [a|]; [|done]. cbn in Ha. apply archived_round_trip with g; [done|done|apply hash_parts_length].
Qed.

Lemma tenure_encode_ok g t : saved_ok g t -> tenure_encode derive_key t g = Ok (tenure_state_bytes t).
Proof using L derive_key_length.
  intros Hok. destruct (saved_sizes g t Hok) as (S1 & S2 & S3 & S4). unfold tenure_encode.
  rewrite refuse_if_bind_false by (apply bool_decide_eq_false_2; intros F; by apply F, Hok). cbv zeta.
  rewrite put_bytes_s_ok, bind_Ok by (unfold u32_max; lia). rewrite put_bytes_s_ok, bind_Ok by (unfold u32_max; lia).
  rewrite put_bytes_s_ok, bind_Ok by (unfold u32_max; lia). unfold tenure_state_bytes, put_u8, put_u64.
  destruct (ot_archive t) as [a|].
  - rewrite put_bytes_s_ok by (unfold len; rewrite S4; unfold u32_max; lia). by rewrite <- !app_assoc.
  - by rewrite app_nil_r, <- !app_assoc.
Qed.

Lemma read_leaf_bytes i d : i <= u32_max -> read_leaf (be_bytes 4 i ++ d) = (i, d).
Proof using Type.
  intros H. unfold read_leaf. change (firstn 4 (be_bytes 4 i ++ d)) with (be_bytes 4 i).
  rewrite be_val_be_bytes by (rewrite pow256_4; lia). done.
Qed.

Lemma reads_tenure_state g t : saved_ok g t -> reads (get_tenure_state derive_key g) (tenure_state_bytes t) t.
Proof using L derive_key_length.
  intros Hok. destruct (saved_sizes g t Hok) as (S1 & S2 & S3 & S4). pose proof Hok as [Hp He Hi Hs Him Ha].
  unfold get_tenure_state, tenure_state_bytes.
  eapply reads_bind; [apply reads_or, reads_u8; destruct (bool_decide _); done|].
  eapply reads_refuse_bind; [destruct (bool_decide _); done|].
  eapply reads_bind; [apply reads_or, reads_u64; rewrite Hp; done|].
  eapply reads_bind; [apply (reads_sized_option 32 id _ (po_owner (ot_position t))); [|unfold u32_max; lia]|].
  { rewrite Hp. cbn. destruct (mls_designated_committer g) as [d|] eqn:E; cbn; [right|by left].
    pose proof (committer_length _ _ E) as Hd. split_and!; [done|by intros ->|done]. }
  eapply reads_bind; [apply (reads_sized_option 8 be_val _ (ot_start t)); [|unfold u32_max; lia]|].
  { destruct (ot_start t) as [s|]; [right|by left]. cbn in Hs. split_and!; [apply length_be_bytes|done|]. by rewrite be_val_8 by lia. }
  assert (Ev : (2 <=? (if bool_decide (ot_archive t = None) then 2 else 3)) = true) by (by destruct (bool_decide _)). rewrite Ev.
  rewrite (app_assoc (lp (leaf_bytes _))). eapply reads_bind.
  { eapply reads_bind; [apply (reads_sized_option 36 read_leaf _ (po_leaf (ot_position t))); [|unfold u32_max; lia]|].
    - rewrite Hp. cbn [po_leaf Position_of]. destruct (designated_committer_leaf derive_key g) as [[i d]|] eqn:E; [right|by left].
      destruct (leaf_fits _ _ _ Hi E) as [Hidx Hd]. cbn [leaf_bytes]. split_and!; [rewrite length_app, length_be_bytes, Hd; done| |].
      + intros F. apply (f_equal length) in F. rewrite length_app, length_be_bytes in F. done.
      + by rewrite read_leaf_bytes.
    - eapply reads_bind_last; [|apply reads_ret]. unfold get_import_flag.
      eapply reads_bind_last; [apply reads_or, reads_u8; destruct (ot_imported t); done|].
      apply reads_lift_ok with (a := ot_imported t). by destruct (ot_imported t). }
  eapply reads_bind_last with (a := ot_archive t).
  { destruct (ot_archive t) as [a|] eqn:Ea; [rewrite bool_decide_eq_false_2 by done|rewrite bool_decide_eq_true_2 by done; apply reads_ret].
    change (3 =? 3) with true. cbn iota. cbn in Ha. destruct (archived_round_trip g a He Ha (hash_parts_length _ _)) as [Hl Hd].
    eapply reads_bind_last; [apply reads_or, reads_bytes; unfold len; rewrite Hl; done|].
    eapply reads_bind_nil; [|apply reads_ret]. apply reads_lift_ok. rewrite Hp. cbn [po_epoch Position_of]. exact Hd. }
  cbn [fst snd]. assert (Et : t = mkOwnerTenure (mkPosition (po_owner (ot_position t)) (po_leaf (ot_position t))
    (id ← po_owner (ot_position t); committer_key g id) (po_epoch (ot_position t))) (ot_start t) (ot_imported t) (ot_archive t)).
  { destruct t as [pos st im ar]. cbn in *. subst pos. done. }
  rewrite <- Et. apply reads_ret.
Qed.

Lemma tenure_decode_ok g t : saved_ok g t -> tenure_decode derive_key (tenure_state_bytes t) g = Ok t.
Proof using L derive_key_length.
  intros Hok. destruct (saved_sizes g t Hok) as (S1 & S2 & S3 & S4). pose proof Hok as [Hp He Hi Hs Him Ha].
  unfold tenure_decode. rewrite refuse_if_bind_false.
  2:{ apply N.ltb_ge. unfold tenure_state_bytes. autorewrite with mewtual_len.
      assert (len (match ot_archive t with Some a => lp (Archived_encode a) | None => [] end) <= 84).
      { destruct (ot_archive t); [|unfold len; cbn; lia]. rewrite len_lp. unfold len. rewrite S4. lia. }
      unfold WITNESS_BYTES. lia. }
  unfold or_err. rewrite (reads_finish_run _ _ _ t) by (by apply reads_tenure_state). rewrite bind_Ok, refuse_if_bind_false; [done|].
  apply orb_false_iff. split; [apply orb_false_iff; split|].
  - apply bool_decide_eq_false_2. by intros [].
  - destruct (ot_start t) as [s|]; [|done]. cbn in Hs. rewrite Hp. cbn [po_owner po_epoch Position_of].
    rewrite bool_decide_eq_false_2 by apply Hs. apply N.ltb_ge. apply Hs.
  - destruct (ot_imported t); [|done]. cbn. apply bool_decide_eq_false_2. by apply Him.
Qed.
End codec.

(** * Runs *)

Section runs.
Context {C : Crypto} {L : CryptoLaws C} (derive_key : bytes -> bytes -> bytes).
Context (derive_key_length : forall c m, length (derive_key c m) = 32%nat).
Context (H : N -> MlsGroup) (gid : bytes) (Hh : history_ok H gid).

(** What every state of a run satisfies, besides telling the truth. *)
Record run_ok (st : N * OwnerTenure) : Prop := mkRunOk {
  ru_epoch : st.1 <= u64_max;
  ru_sound : tenure_sound derive_key H gid st.2;
  ru_fields : exists p, p <= st.1 /\ ot_position st.2 = Position_of derive_key (H p) /\
    opt_ok (fun s => s <= p /\ mls_designated_committer (H p) <> None) (ot_start st.2) /\
    (ot_imported st.2 = true -> ot_start st.2 <> None) /\
    opt_ok (fun a => ao_retired_at a <= p) (ot_archive st.2)
}.

Lemma tenure_start_run st : tenure_start derive_key H st -> run_ok st.
Proof using Hh.
  intros Hst. constructor; [|by apply tenure_start_sound|].
  - destruct Hst; cbn; done || lia.
  - destruct Hst as [|e He|e dev He Hnew|e b t He Hv Hd _]; cbn [fst snd].
    + exists 0. unfold tenure_new. destruct (_ && _) eqn:E; cbn; split_and!; try done. by bool_simpl.
    + exists e. by split_and!.
    + exists e. unfold tenure_joined. case_bool_decide as E; cbn; split_and!; try done; [rewrite (hi_epoch _ _ Hh); lia|by rewrite E].
    + exists e. destruct (tenure_decode_checked _ _ _ _ Hd) as (Hp & Hs & Hi). rewrite (hi_epoch _ _ Hh) in Hs.
      destruct (first_version_decoded _ _ _ _ Hv Hd) as [-> _]. by split_and!.
Qed.

Lemma run_saved e t :
  run_ok (e, t) -> ot_position t = Position_of derive_key (H e) -> saved_ok derive_key (H e) t.
Proof using Hh.
  intros [He [_ Ha] (p & Hp & Epos & Hs & Hi & Har)] Ecur. cbn [fst snd] in *.
  assert (p = e) as -> by (apply (position_inj derive_key H gid Hh); congruence).
  constructor; rewrite ?(hi_epoch _ _ Hh); try done; [apply Hh|].
  destruct (ot_archive t) as [a|]; [|done]. cbn in *. destruct (Ha a eq_refl) as [Wo _ _ Wk Wi].
  unfold archive_ok. rewrite (hi_epoch _ _ Hh), (hi_id _ _ Hh). split_and!; [|done|done|done].
  destruct (mls_designated_committer (H (ao_retired_at a - 1))) as [o|]; [|done]. cbn in Wk. unfold committer_key in Wk.
  destruct (mls_member_signature_key _ o) as [k|]; [|done]. cbn in Wk.
  destruct (Nat.eqb_spec (length k) 32); [|done]. by injection Wk as ->.
Qed.

Lemma next_start_bound t before after start computed :
  next_start t before after = (start, computed) -> start <> None ->
  po_owner after <> None /\ po_epoch after = po_epoch before + 1 /\
  (start = Some (po_epoch after) \/ start = ot_start t /\ ot_position t = before).
Proof using Type.
  unfold next_start. destruct (_ || _) eqn:E; [by intros [= <- <-]|]. apply orb_false_iff in E as [E1 E2].
  apply bool_decide_eq_false in E1, E2. apply dec_stable in E2.
  assert (Ee : po_epoch after = po_epoch before + 1) by (unfold checked_add in E2; destruct (_ <=? _); congruence).
  destruct (_ && _); [intros [= <- <-] _; by auto|]. destruct (_ && bool_decide (po_leaf before <> _)); [intros [= <- <-] _; by auto|].
  destruct (bool_decide (ot_position t = before)) eqn:Ep; intros [= <- <-] Hne; [|done]. apply bool_decide_eq_true in Ep. by auto.
Qed.

Lemma tenure_step_run st st' : tenure_step derive_key H st st' -> run_ok st -> run_ok st'.
Proof using Hh L derive_key_length.
  destruct 1 as [e e' t Hle Hmax|e e' t Hle Hmax|e t b t' Hb Ht']; intros Hrun.
  - destruct Hrun as [He Hs (p & Hp & Epos & Hst & Hi & Har)]. cbn [fst snd] in *.
    constructor; cbn [fst snd]; [done|by apply tenure_applied_sound|].
    unfold tenure_applied. case_bool_decide as Eeq; [exists p; split_and!; done || lia|].
    destruct (next_start t _ _) as [start computed] eqn:En. exists e'. cbn [ot_position ot_start ot_imported ot_archive].
    split_and!; [done|done| | |].
    + destruct start as [s|]; [|done]. cbn. destruct (next_start_bound _ _ _ _ _ En ltac:(done)) as (Ho & Eep & Hs').
      cbn [po_owner po_epoch Position_of] in *. rewrite !(hi_epoch _ _ Hh) in *. split; [|done].
      destruct Hs' as [[= ->]|[E1 E2]]; [lia|]. rewrite <- E1 in Hst. cbn in Hst.
      assert (p = e) as -> by (apply (position_inj derive_key H gid Hh); congruence). lia.
    + intros Him. bool_simpl. done.
    + destruct (_ && _ && _) eqn:Ec.
      * bool_simpl. assert (p = e) as -> by (apply (position_inj derive_key H gid Hh); congruence).
        assert (Hmono : opt_ok (fun a => ao_retired_at a <= e') (ot_archive t)).
        { destruct (ot_archive t); [|done]. cbn in *. lia. }
        destruct (po_owner_key _) as [key|]; [|done]. destruct (ot_start t) as [held|]; [|done]. cbn. rewrite (hi_epoch _ _ Hh). lia.
      * destruct (ot_archive t); [|done]. cbn in *. lia.
  - destruct Hrun as [He Hs (p & Hp & Hrest)]. cbn [fst snd] in *. constructor; cbn [fst snd]; [done|done|].
    exists p. split; [lia|done].
  - assert (Ecur : ot_position t = Position_of derive_key (H e)).
    { unfold tenure_encode in Hb. apply refuse_if_bind_ok in Hb as [Hb _]. apply bool_decide_eq_false in Hb. by apply dec_stable in Hb. }
    pose proof (run_saved _ _ Hrun Ecur) as Hsave.
    rewrite (tenure_encode_ok derive_key derive_key_length _ _ Hsave) in Hb. injection Hb as <-.
    rewrite (tenure_decode_ok derive_key derive_key_length _ _ Hsave) in Ht'. by injection Ht' as <-.
Qed.

Lemma tenure_run st0 st : tenure_start derive_key H st0 -> rtc (tenure_step derive_key H) st0 st -> run_ok st.
Proof using Hh L derive_key_length.
  intros H0 Hrun. eapply rtc_ind_r; [|clear st Hrun|exact Hrun]; [by apply tenure_start_run|].
  intros st st' _ Hstep. by apply tenure_step_run.
Qed.

(** * Properties *)

(** C22: a device never signs under a tenure it did not observe. Along any run
    (transitions of any length, missed ones, saves and reloads), from a founding,
    a join, no record, or the bytes of any first-version record (promoted when
    its start is the epoch it was saved at, imported otherwise): if the authoring
    start is present then the owner in office has been on the same leaf in every
    epoch since it, and was not in office in the epoch before; and the archived
    witness, if shown, names an owner that held office from exactly its start to
    exactly its retirement. *)
Theorem observed_tenure_true st0 e t
  (Hstart : tenure_start derive_key H st0) (Hrun : rtc (tenure_step derive_key H) st0 (e, t)) :
  (forall s, authoring_owner_tenure_start derive_key t (H e) = Some s -> tenure_began derive_key H s e) /\
  (forall a, tenure_archived derive_key t (H e) = Some a -> witness_true derive_key H gid a).
Proof using Hh L derive_key_length.
  destruct (tenure_run _ _ Hstart Hrun) as [_ [(p & Ep & Hp) Ha] _]. cbn [fst snd] in *. split.
  - intros s. unfold authoring_owner_tenure_start, tenure_observed. case_bool_decide as Ec; [done|].
    assert (p = e) as -> by (apply (position_inj derive_key H gid Hh); congruence).
    destruct (ot_start t) as [s'|]; [|done]. destruct (ot_imported t); [done|]. intros [= ->]. by apply Hp.
  - intros a. unfold tenure_archived. case_bool_decide; [done|]. apply Ha.
Qed.

(** The saved tail is exact. Every reachable state that describes the current
    group encodes and decodes to itself, import flag and archived witness
    included, so a restart neither loses nor strengthens what was known; a state
    that does not describe the current group refuses to be saved. *)
Theorem tenure_crash_safe st0 e t
  (Hstart : tenure_start derive_key H st0) (Hrun : rtc (tenure_step derive_key H) st0 (e, t)) :
  (ot_position t = Position_of derive_key (H e) ->
     exists b, tenure_encode derive_key t (H e) = Ok b /\ tenure_decode derive_key b (H e) = Ok t) /\
  (ot_position t <> Position_of derive_key (H e) -> tenure_encode derive_key t (H e) = Err SyncMalformed).
Proof using Hh L derive_key_length.
  split.
  - intros Ecur. pose proof (run_saved _ _ (tenure_run _ _ Hstart Hrun) Ecur) as Hs. exists (tenure_state_bytes t).
    split; [exact (tenure_encode_ok derive_key derive_key_length _ _ Hs)|exact (tenure_decode_ok derive_key derive_key_length _ _ Hs)].
  - intros Hne. unfold tenure_encode. by rewrite (bool_decide_eq_true_2 (ot_position t <> _)).
Qed.

(** A founder that observes every commit as it happens. *)
Fixpoint follow (n : nat) : OwnerTenure :=
  match n with
  | O => tenure_new derive_key (H 0)
  | S n => tenure_applied derive_key (follow n) (Position_of derive_key (H (N.of_nat n))) (H (N.of_nat n + 1))
  end.

(** A founder that follows the group commit by commit always knows: whatever
    owners come and go, its state is the fully observed start of the current
    tenure, never unknown or imported. *)
Theorem founder_always_knows n
  (Howned : forall k, k <= N.of_nat n -> mls_designated_committer (H k) <> None) (Hmax : N.of_nat n <= u64_max) :
  exists s, tenure_observed derive_key (follow n) (H (N.of_nat n)) = Observed s /\
    tenure_began derive_key H s (N.of_nat n).
Proof using Hh.
  assert (Hinv : ot_position (follow n) = Position_of derive_key (H (N.of_nat n)) /\ ot_imported (follow n) = false /\
    (exists s, ot_start (follow n) = Some s) /\ tenure_sound derive_key H gid (follow n)).
  { induction n as [|n IH].
    - cbn [follow]. split; [|split; [|split]].
      + unfold tenure_new. by destruct (_ && _).
      + unfold tenure_new. by destruct (_ && _).
      + unfold tenure_new. cbn [tenure_unknown ot_position po_epoch po_owner Position_of]. rewrite (hi_epoch _ _ Hh).
        rewrite bool_decide_eq_true_2 by (apply Howned; lia). by exists 0.
      + apply (tenure_start_sound derive_key H gid Hh (0, _)). constructor.
    - destruct IH as (Ep & Ei & (s & Es) & Hs); [intros; apply Howned; lia|lia|]. cbn [follow].
      replace (N.of_nat (S n)) with (N.of_nat n + 1) in * by lia.
      pose proof (tenure_applied_sound derive_key H gid Hh _ (N.of_nat n) (N.of_nat n + 1) Hs) as Hs'.
      split; [|split; [|split; [|done]]].
      + unfold tenure_applied. case_bool_decide as E; [congruence|]. by destruct (next_start _ _ _).
      + unfold tenure_applied. case_bool_decide; [done|]. destruct (next_start _ _ _). cbn. by rewrite Ei.
      + unfold tenure_applied. case_bool_decide; [eauto|]. destruct (next_start _ _ _) as [st cp] eqn:En. cbn.
        unfold next_start in En. rewrite !position_epoch with (gid := gid) in En by done.
        assert (Ec : checked_add u64_max (N.of_nat n) 1 = Some (N.of_nat n + 1)).
        { unfold checked_add. by rewrite (proj2 (N.leb_le _ _)). }
        rewrite Ec in En. cbn [po_owner Position_of] in En.
        rewrite (bool_decide_eq_false_2 (mls_designated_committer (H (N.of_nat n + 1)) = None)) in En by (apply Howned; lia).
        rewrite (bool_decide_eq_false_2 (Some _ <> Some _)) in En by (by intros []). cbn [orb] in En.
        destruct (_ && _) in En; [injection En as <- _; eauto|]. destruct (_ && _) in En; [injection En as <- _; eauto|].
        rewrite bool_decide_eq_true_2 in En by done. injection En as <- _. eauto. }
  destruct Hinv as (Ep & Ei & (s & Es) & [(p & Ep' & Hp) _]). exists s.
  assert (p = N.of_nat n) as -> by (apply (position_inj derive_key H gid Hh); congruence).
  split; [|by apply Hp]. unfold tenure_observed. rewrite bool_decide_eq_false_2 by (by intros []). by rewrite Es, Ei.
Qed.
End runs.

(** * A concrete history *)

(** Member A on leaf 0 owns the group until epoch 2 removes it; B succeeds. *)
Definition toy_derive (context m : bytes) : bytes := toy_digest (context ++ m).
Definition toy_history (e : N) : MlsGroup :=
  let b := mkMember 1 (be_bytes 32 66) (bytes_of_string "b") in
  mkMlsGroup (bytes_of_string "g") e
    (if e <? 2 then [mkMember 0 (be_bytes 32 65) (bytes_of_string "a"); b] else [b]) true.

Lemma toy_history_ok : history_ok toy_history (bytes_of_string "g").
Proof.
  constructor; [done|done|]. intros e. cbn. destruct (e <? 2); repeat constructor; apply N.leb_le; reflexivity.
Qed.

Lemma toy_derive_length c m : length (toy_derive c m) = 32%nat.
Proof. apply (sha256_length (C:=toy_crypto)). Qed.

Definition toy_followed : OwnerTenure := follow (C:=toy_crypto) toy_derive toy_history 3.

Lemma toy_followed_knows :
  authoring_owner_tenure_start (C:=toy_crypto) toy_derive toy_followed (toy_history 3) = Some 2 /\
  (ao_start <$> tenure_archived (C:=toy_crypto) toy_derive toy_followed (toy_history 3)) = Some 0.
Proof. vm_compute. done. Qed.

Lemma toy_followed_run :
  rtc (tenure_step (C:=toy_crypto) toy_derive toy_history)
    (0, tenure_new (C:=toy_crypto) toy_derive (toy_history 0)) (3, toy_followed).
Proof.
  eapply rtc_l; [apply (step_observe _ _ 0 1); apply N.leb_le; reflexivity|].
  eapply rtc_l; [apply (step_observe _ _ 1 2); apply N.leb_le; reflexivity|].
  eapply rtc_l; [apply (step_observe _ _ 2 3); apply N.leb_le; reflexivity|]. apply rtc_refl.
Qed.

(** First-version records of the same group: one written as B took over, one
    with a start from before the last commit. *)
Definition toy_first_version (g : MlsGroup) (start : N) : bytes :=
  be_bytes 1 1 ++ be_bytes 8 (mg_epoch g) ++ lp (default [] (mls_designated_committer (C:=toy_crypto) g)) ++ lp (be_bytes 8 start).

Definition toy_promoted : OwnerTenure :=
  mkOwnerTenure (Position_of (C:=toy_crypto) toy_derive (toy_history 2)) (Some 2) false None.

Lemma toy_first_version_read :
  tenure_decode (C:=toy_crypto) toy_derive (toy_first_version (toy_history 2) 2) (toy_history 2) = Ok toy_promoted /\
  (ot_imported <$> tenure_decode (C:=toy_crypto) toy_derive (toy_first_version (toy_history 1) 0) (toy_history 1)) = Ok true.
Proof. vm_compute. done. Qed.

Lemma toy_promoted_start : tenure_start (C:=toy_crypto) toy_derive toy_history (2, toy_promoted).
Proof.
  apply (start_first_version _ _ 2 (toy_first_version (toy_history 2) 2)); [done|done|apply toy_first_version_read|].
  intros _ _. vm_compute. discriminate.
Qed.

Lemma toy_promoted_run :
  rtc (tenure_step (C:=toy_crypto) toy_derive toy_history) (2, toy_promoted)
    (3, tenure_applied (C:=toy_crypto) toy_derive toy_promoted (Position_of (C:=toy_crypto) toy_derive (toy_history 2)) (toy_history 3)).
Proof. apply rtc_once, (step_observe _ _ 2 3); apply N.leb_le; reflexivity. Qed.

(** A founder and an upgraded device, each through its own run. *)
Lemma observed_tenure_true_witness :
  (exists a, tenure_archived (C:=toy_crypto) toy_derive toy_followed (toy_history 3) = Some a /\ ao_start a = 0 /\
     witness_true (C:=toy_crypto) toy_derive toy_history (bytes_of_string "g") a) /\
  tenure_began (C:=toy_crypto) toy_derive toy_history 2 3.
Proof.
  split.
  - pose proof (proj2 toy_followed_knows) as Ha.
    destruct (tenure_archived toy_derive toy_followed (toy_history 3)) as [a|] eqn:E; [|discriminate Ha].
    exists a. split; [reflexivity|]. split; [injection Ha as Ha; exact Ha|].
    exact (proj2 (observed_tenure_true (C:=toy_crypto) toy_derive toy_derive_length toy_history _ toy_history_ok _ 3 toy_followed
      (start_founding toy_derive toy_history) toy_followed_run) a E).
  - apply (proj1 (observed_tenure_true (C:=toy_crypto) toy_derive toy_derive_length toy_history _ toy_history_ok _ 3 _
      toy_promoted_start toy_promoted_run) 2). vm_compute. reflexivity.
Defined.

Lemma toy_followed_current : ot_position toy_followed = Position_of (C:=toy_crypto) toy_derive (toy_history 3).
Proof. vm_compute. reflexivity. Qed.

Lemma tenure_crash_safe_witness :
  exists b, tenure_encode (C:=toy_crypto) toy_derive toy_followed (toy_history 3) = Ok b /\
    tenure_decode (C:=toy_crypto) toy_derive b (toy_history 3) = Ok toy_followed.
Proof.
  exact (proj1 (tenure_crash_safe (C:=toy_crypto) toy_derive toy_derive_length toy_history _ toy_history_ok _ 3 toy_followed
    (start_founding toy_derive toy_history) toy_followed_run) toy_followed_current).
Defined.

Lemma toy_history_owned e : mls_designated_committer (C:=toy_crypto) (toy_history e) <> None.
Proof. unfold toy_history, mls_designated_committer. cbn [mg_members]. by destruct (e <? 2). Qed.

Lemma founder_always_knows_witness :
  exists s, tenure_observed (C:=toy_crypto) toy_derive toy_followed (toy_history 3) = Observed s /\
    tenure_began (C:=toy_crypto) toy_derive toy_history s 3.
Proof.
  exact (founder_always_knows (C:=toy_crypto) toy_derive toy_history _ toy_history_ok 3
    (fun k _ => toy_history_owned k) ltac:(vm_compute; discriminate)).
Defined.
