(* ===== verification/Invite.v ===== *)
(** Single-use, device-bound invites: [crates/catcoms-mls/src/invite.rs], the
    admission checks of [crates/catcoms-mls/src/group.rs] that consume them, and
    the key-package lifetime policy of [device.rs].

    OpenMLS is represented by what the checks read: a key package is its leaf
    signature key, the identity of its basic credential and its lifetime, and
    adding it to the group is a parameter. The ledger's hash sets are [gset]s; a
    snapshot may list them in any order. *)

From S2P Require Import Prelude Wire Codec Crypto Authority Membership GroupPolicy.
From stdpp Require Import base list gmap relations.
From Stdlib Require Import Init.Byte.
Local Open Scope N_scope.

Definition INVITE_DOMAIN : bytes := bytes_of_string "catcoms/invite/v2".
Definition POLICY_INVITE_DOMAIN : bytes := bytes_of_string "catcoms/invite/v3".
Definition MEMBERSHIP_DOMAIN : bytes := bytes_of_string "catcoms/membership/v1".
Definition MAX_INVITE_ADDRS : N := 64.

Inductive InviteError :=
| WrongGroup
| BadInviteSignature
| InviterNotMember
| CredentialMismatch
| AlreadyUsed
| Revoked
| Expired
| InviteMalformed
| CommitterReAdded
| KeyPackageExpiresTooSoon
| KeyPackageLifetimeTooLong.

(** The variants of [MlsError] these functions return. *)
Inductive MlsError :=
| MlsProtocol
| MlsInvite (e : InviteError).

Record MembershipCredential := mkMembershipCredential {
  mc_device_id : bytes;
  mc_group_id : bytes;
  mc_invite_nonce : bytes
}.

Record InviteToken := mkInviteToken {
  it_group_id : bytes;
  it_inviter_device_id : bytes;
  it_inviter_public_key : bytes;
  it_invite_nonce : bytes;
  it_expires_at_ms : N;
  it_bootstrap : list bytes;
  it_rendezvous : list bytes;
  it_policy : option GroupPolicy;
  it_signature : bytes
}.

(** * The credential *)

(** [MembershipCredential::encode] *)
Definition membership_encode (m : MembershipCredential) : bytes :=
  [] |> put_bytes_x MEMBERSHIP_DOMAIN
     |> put_bytes_x (mc_device_id m)
     |> put_bytes_x (mc_group_id m)
     |> put_bytes_x (mc_invite_nonce m).

Definition get_membership : dec InviteError MembershipCredential :=
  domain ← or_err InviteMalformed get_str;
  _ ← dec_refuse (negb (bool_decide (domain = MEMBERSHIP_DOMAIN))) InviteMalformed;
  device_id ← get_exact InviteMalformed 32;
  group_id ← or_err InviteMalformed get_bytes;
  invite_nonce ← get_exact InviteMalformed 16;
  mret (mkMembershipCredential device_id group_id invite_nonce).

(** [MembershipCredential::decode] *)
Definition membership_decode (input : bytes) : result InviteError MembershipCredential :=
  run_or InviteMalformed get_membership input.

(** What is read of an OpenMLS [KeyPackage]; the identity is absent when the
    credential is not a basic one. Lifetimes are in seconds. *)
Record KeyPackage := mkKeyPackage {
  kp_identity : option bytes;
  kp_leaf_key : bytes;
  kp_not_before : N;
  kp_not_after : N
}.

Definition membership_from_key_package (kp : KeyPackage) : result InviteError MembershipCredential :=
  identity ← ok_or (kp_identity kp) InviteMalformed;
  membership_decode identity.

(** * The token *)

(** [for addr in list { e.put_str(addr) }] *)
Definition put_all (l : list bytes) (buf : bytes) : bytes := fold_left (fun b a => put_bytes_x a b) l buf.
(** [e.put_u32(list.len() as u32)] *)
Definition put_count {A} (l : list A) (buf : bytes) : bytes := put_u32 (len l mod (u32_max + 1)) buf.

Section token.
Context {C : Crypto}.

Definition write_unsigned (t : InviteToken) (e : bytes) : bytes :=
  let e := e |> put_bytes_x (if bool_decide (it_policy t <> None) then POLICY_INVITE_DOMAIN else INVITE_DOMAIN)
             |> put_bytes_x (it_group_id t)
             |> put_bytes_x (it_inviter_device_id t)
             |> put_bytes_x (it_inviter_public_key t)
             |> put_bytes_x (it_invite_nonce t)
             |> put_u64 (it_expires_at_ms t)
             |> put_count (it_bootstrap t)
             |> put_all (it_bootstrap t)
             |> put_count (it_rendezvous t)
             |> put_all (it_rendezvous t) in
  match it_policy t with
  | Some policy => put_bytes_x (policy_encode policy) e
  | None => e
  end.

Definition unsigned_bytes (t : InviteToken) : bytes := write_unsigned t [].

(** [InviteToken::verify] and [verify_self] *)
Definition token_verify (t : InviteToken) (inviter_public_key : bytes) : bool :=
  verify_with_public_bytes inviter_public_key (unsigned_bytes t) (it_signature t).

Definition token_verify_self (t : InviteToken) : bool :=
  if bool_decide (from_public_key_bytes (it_inviter_public_key t) <> it_inviter_device_id t) then false
  else
    match it_policy t with
    | Some policy => bool_decide (gp_group_id policy = it_group_id t) && policy_verify_self policy
    | None => true
    end && token_verify t (it_inviter_public_key t).

(** [ServerGroup::mint_invite_with_rendezvous] *)
Definition mint_invite (g : MlsGroup) (inviter : MlsDevice) (nonce : bytes) (expires_at_ms : N)
    (bootstrap rendezvous : list bytes) : result MlsError InviteToken :=
  let t := mkInviteToken (mg_group_id g) (device_id inviter) (public_key_bytes inviter) nonce expires_at_ms
             bootstrap rendezvous None [] in
  signature ← ok_or (device_sign inviter (unsigned_bytes t)) MlsProtocol;
  Ok (mkInviteToken (mg_group_id g) (device_id inviter) (public_key_bytes inviter) nonce expires_at_ms
        bootstrap rendezvous None signature).

(** [InviteToken::bind_policy] *)
Definition bind_policy (t : InviteToken) (inviter : MlsDevice) (policy : GroupPolicy) : result MlsError InviteToken :=
  _ ← refuse_if (bool_decide (device_id inviter <> it_inviter_device_id t)
                 || bool_decide (gp_group_id policy <> it_group_id t)
                 || negb (policy_verify_self policy)) (MlsInvite BadInviteSignature);
  let bound s := mkInviteToken (it_group_id t) (it_inviter_device_id t) (it_inviter_public_key t) (it_invite_nonce t)
                   (it_expires_at_ms t) (it_bootstrap t) (it_rendezvous t) (Some policy) s in
  signature ← ok_or (device_sign inviter (unsigned_bytes (bound (it_signature t)))) MlsProtocol;
  Ok (bound signature).

(** [InviteToken::encode] *)
Definition token_encode (t : InviteToken) : bytes := put_bytes_x (it_signature t) (write_unsigned t []).

Definition get_addrs : dec InviteError (list bytes) :=
  count ← or_err InviteMalformed get_u32;
  _ ← dec_refuse (MAX_INVITE_ADDRS <? count) InviteMalformed;
  get_n (N.to_nat count) (or_err InviteMalformed get_str).

Definition get_policy (domain : bytes) : dec InviteError (option GroupPolicy) :=
  if bool_decide (domain = POLICY_INVITE_DOMAIN) then
    b ← or_err InviteMalformed get_bytes;
    p ← dec_lift (map_err (fun _ => InviteMalformed) (policy_decode b));
    mret (Some p)
  else mret None.

Definition get_token : dec InviteError InviteToken :=
  domain ← or_err InviteMalformed get_str;
  _ ← dec_refuse (negb (bool_decide (domain = INVITE_DOMAIN)) && negb (bool_decide (domain = POLICY_INVITE_DOMAIN)))
        InviteMalformed;
  group_id ← or_err InviteMalformed get_bytes;
  inviter_device_id ← get_exact InviteMalformed 32;
  inviter_public_key ← or_err InviteMalformed get_bytes;
  invite_nonce ← get_exact InviteMalformed 16;
  expires_at_ms ← or_err InviteMalformed get_u64;
  bootstrap ← get_addrs;
  rendezvous ← get_addrs;
  policy ← get_policy domain;
  signature ← get_exact InviteMalformed 64;
  mret (mkInviteToken group_id inviter_device_id inviter_public_key invite_nonce expires_at_ms
          bootstrap rendezvous policy signature).

(** [InviteToken::decode] *)
Definition token_decode (input : bytes) : result InviteError InviteToken := run_or InviteMalformed get_token input.
End token.

(** * The ledger *)

Record InviteLedger := mkInviteLedger {
  il_consumed : gset bytes;
  il_revoked : gset bytes
}.
Definition InviteLedger_new : InviteLedger := mkInviteLedger ∅ ∅.

Definition revoke (nonce : bytes) (l : InviteLedger) : InviteLedger :=
  mkInviteLedger (il_consumed l) ({[nonce]} ∪ il_revoked l).

Definition ledger_check (l : InviteLedger) (t : InviteToken) (now_ms : N) : result InviteError unit :=
  _ ← refuse_if (it_expires_at_ms t <? now_ms) Expired;
  _ ← refuse_if (bool_decide (it_invite_nonce t ∈ il_revoked l)) Revoked;
  refuse_if (bool_decide (it_invite_nonce t ∈ il_consumed l)) AlreadyUsed.

Definition consume (nonce : bytes) (l : InviteLedger) : result InviteError InviteLedger :=
  _ ← refuse_if (bool_decide (nonce ∈ il_consumed l)) AlreadyUsed;
  Ok (mkInviteLedger ({[nonce]} ∪ il_consumed l) (il_revoked l)).

(** [InviteLedger::snapshot], given the orders the two sets iterate in *)
Definition snapshot_of (consumed revoked : list bytes) : bytes :=
  [] |> put_count consumed |> put_all consumed |> put_count revoked |> put_all revoked.

Definition get_nonces : dec InviteError (list bytes) :=
  count ← or_err InviteMalformed get_u32;
  get_n (N.to_nat count) (get_exact InviteMalformed 16).

(** [InviteLedger::restore] *)
Definition ledger_restore (input : bytes) : result InviteError InviteLedger :=
  p ← run_or InviteMalformed (c ← get_nonces; r ← get_nonces; mret (c, r)) input;
  Ok (mkInviteLedger (list_to_set p.1) (list_to_set p.2)).

(** * Admission *)

Definition MIN_ADMITTED_KEY_PACKAGE_LIFETIME_MS : N := 30 * 24 * 60 * 60 * 1000.
Definition sat_mul (max a b : N) : N := N.min max (a * b).

Section admission.
Context {C : Crypto}.
(** OpenMLS: its bound on the length of a lifetime, and [add_member], which on
    success returns the group after the merged commit. After a failure the
    group may have changed. *)
Context (has_acceptable_range : N -> N -> bool).
Context {Outcome : Type} (add_member : MlsGroup -> MlsDevice -> KeyPackage -> option Outcome * MlsGroup).

(** [check_admitted_lifetime] *)
Definition check_admitted_lifetime (kp : KeyPackage) (now_ms : N) : result InviteError unit :=
  _ ← refuse_if (negb (has_acceptable_range (kp_not_before kp) (kp_not_after kp))) KeyPackageLifetimeTooLong;
  refuse_if (sat_mul u64_max (kp_not_after kp) 1000
             <? sat_add u64_max now_ms MIN_ADMITTED_KEY_PACKAGE_LIFETIME_MS) KeyPackageExpiresTooSoon.

Definition check_credential (g : MlsGroup) (kp : KeyPackage) (t : InviteToken) : result InviteError unit :=
  membership ← membership_from_key_package kp;
  refuse_if (bool_decide (mc_group_id membership <> mg_group_id g)
             || bool_decide (mc_invite_nonce membership <> it_invite_nonce t)
             || bool_decide (from_public_key_bytes (kp_leaf_key kp) <> mc_device_id membership)) CredentialMismatch.

Definition check_inviter (g : MlsGroup) (t : InviteToken) : result InviteError unit :=
  inviter_pk ← ok_or (mls_member_signature_key g (it_inviter_device_id t)) InviterNotMember;
  refuse_if (negb (token_verify t inviter_pk)) BadInviteSignature.

(** [ServerGroup::validate_invite_binding] *)
Definition validate_invite_binding (g : MlsGroup) (kp : KeyPackage) (t : InviteToken) : result MlsError unit :=
  _ ← map_err MlsInvite (refuse_if (bool_decide (it_group_id t <> mg_group_id g)) WrongGroup);
  _ ← map_err MlsInvite (check_inviter g t);
  map_err MlsInvite (check_credential g kp t).

(** [ServerGroup::validate_device_binding] *)
Definition validate_device_binding (g : MlsGroup) (kp : KeyPackage) (expected bind_nonce : bytes) : result MlsError unit :=
  membership ← map_err MlsInvite (membership_from_key_package kp);
  refuse_if (bool_decide (mc_group_id membership <> mg_group_id g)
             || bool_decide (mc_invite_nonce membership <> bind_nonce)
             || bool_decide (mc_device_id membership <> expected)
             || bool_decide (from_public_key_bytes (kp_leaf_key kp) <> mc_device_id membership))
    (MlsInvite CredentialMismatch).

(** The state an admission works on. *)
Definition admit_state : Type := MlsGroup * InviteLedger.

(** [ServerGroup::add_member_via_invite] *)
Definition add_member_via_invite (inviter : MlsDevice) (kp : KeyPackage) (t : InviteToken) (now_ms : N) (s : admit_state)
    : result MlsError Outcome * admit_state :=
  let '(g, ledger) := s in
  match
    (_ ← refuse_if (bool_decide (it_group_id t <> mg_group_id g)) WrongGroup;
     _ ← ledger_check ledger t now_ms;
     _ ← check_inviter g t;
     check_credential g kp t)
  with
  | Err e => (Err (MlsInvite e), s)
  | Ok _ =>
      match add_member g inviter kp with
      | (None, g) => (Err MlsProtocol, (g, ledger))
      | (Some outcome, g) =>
          match consume (it_invite_nonce t) ledger with
          | Err e => (Err (MlsInvite e), (g, ledger))
          | Ok ledger => (Ok outcome, (g, ledger))
          end
      end
  end.
End admission.

(** * Receiving a commit *)

(** What is read of a staged commit: whether its sender is a new member, the
    key packages it adds and the leaves it removes. *)
Record StagedCommit := mkStagedCommit {
  sc_external : bool;
  sc_adds : list KeyPackage;
  sc_removes : list N
}.

Section receive.
Context {C : Crypto}.

Definition check_add (g : MlsGroup) (kp : KeyPackage) : result InviteError unit :=
  membership ← membership_from_key_package kp;
  refuse_if (bool_decide (mc_group_id membership <> mg_group_id g)
             || bool_decide (from_public_key_bytes (kp_leaf_key kp) <> mc_device_id membership)) CredentialMismatch.

Fixpoint check_adds (g : MlsGroup) (adds : list KeyPackage) : result InviteError unit :=
  match adds with
  | [] => Ok tt
  | kp :: adds => _ ← check_add g kp; check_adds g adds
  end.

Fixpoint find_leaf (index : N) (members : list Member) : option Member :=
  match members with
  | [] => None
  | m :: rest => if mb_index m =? index then Some m else find_leaf index rest
  end.

Definition removes_device (g : MlsGroup) (device : bytes) (removes : list N) : bool :=
  existsb (fun index =>
    match find_leaf index (mg_members g) with
    | Some m => bool_decide (member_id m = device)
    | None => false
    end) removes.

Definition adds_device (device : bytes) (adds : list KeyPackage) : bool :=
  existsb (fun kp => bool_decide (from_public_key_bytes (kp_leaf_key kp) = device)) adds.

(** What [ServerGroup::process_incoming] checks before it merges a commit; the
    value says whether the commit removes anyone. *)
Definition check_staged_commit (g : MlsGroup) (c : StagedCommit) : result InviteError bool :=
  _ ← refuse_if (sc_external c) CredentialMismatch;
  _ ← check_adds g (sc_adds c);
  _ ← refuse_if (match mls_designated_committer g with
                 | Some committer => removes_device g committer (sc_removes c) && adds_device committer (sc_adds c)
                 | None => false
                 end) CommitterReAdded;
  Ok (negb (bool_decide (sc_removes c = []))).
End receive.

(** * Exactness of the codecs *)

Lemma put_all_eq l buf : put_all l buf = buf ++ concat (lp <$> l).
Proof.
  revert buf. induction l as [|a l IH]; intros buf; cbn [put_all fold_left]; [by rewrite app_nil_r|].
  unfold put_all in IH. rewrite IH, put_bytes_x_lp. cbn. by rewrite <- app_assoc.
Qed.

Lemma put_count_eq {A} (l : list A) buf : len l <= u32_max -> put_count l buf = buf ++ be_bytes 4 (len l).
Proof. intros H. unfold put_count, put_u32. rewrite N.mod_small; [done|lia]. Qed.

Definition membership_bytes (m : MembershipCredential) : bytes :=
  lp MEMBERSHIP_DOMAIN ++ lp (mc_device_id m) ++ lp (mc_group_id m) ++ lp (mc_invite_nonce m).

Record membership_ok (m : MembershipCredential) : Prop := mkMembershipOk {
  mk_device : length (mc_device_id m) = 32%nat;
  mk_group : len (mc_group_id m) <= u32_max;
  mk_nonce : length (mc_invite_nonce m) = 16%nat
}.

Lemma membership_encode_eq m : membership_encode m = membership_bytes m.
Proof. unfold membership_encode, membership_bytes. rewrite !put_bytes_x_lp. by rewrite <- !app_assoc. Qed.

Lemma membership_decode_ok m : membership_ok m -> membership_decode (membership_encode m) = Ok m.
Proof.
  intros [H1 H2 H3]. rewrite membership_encode_eq. apply run_or_reads. unfold get_membership, membership_bytes.
  eapply reads_bind; [by apply reads_or, reads_str|]. eapply reads_refuse_bind; [by rewrite bool_decide_eq_true_2|].
  eapply reads_bind; [by apply reads_exact|]. eapply reads_bind; [by apply reads_or, reads_bytes|].
  eapply reads_bind_last; [by apply reads_exact|]. destruct m. apply reads_ret.
Qed.

Lemma membership_decode_inv b m : membership_decode b = Ok m -> b = membership_encode m /\ membership_ok m.
Proof.
  intros H. eapply (run_or_consumes _ get_membership (fun m bs => bs = membership_encode m /\ membership_ok m) _ _ H). clear.
  intros d m d' H. unfold get_membership in H. dec_step H. apply negb_false_iff, bool_decide_eq_true in Hr0. subst.
  destruct Hr as (-> & _), Hr1 as [-> ?], Hr2 as [-> ?], Hr3 as [-> ?].
  eexists. split; [|split; [reflexivity|by constructor]]. rewrite membership_encode_eq. unfold membership_bytes. cbn.
  by rewrite R, R0, R1, R2, <- !app_assoc.
Qed.

(** ** The token *)

Section token_codec.
Context {C : Crypto}.

Definition addr_ok (a : bytes) : Prop := len a <= u32_max /\ utf8_valid a = true.
Definition addrs_ok (l : list bytes) : Prop := len l <= MAX_INVITE_ADDRS /\ Forall addr_ok l.

(** What the Rust types and the encoder's bounds give. *)
Record token_ok (t : InviteToken) : Prop := mkTokenOk {
  tk_group : len (it_group_id t) <= u32_max;
  tk_inviter : length (it_inviter_device_id t) = 32%nat;
  tk_key : len (it_inviter_public_key t) <= u32_max;
  tk_nonce : length (it_invite_nonce t) = 16%nat;
  tk_expires : it_expires_at_ms t <= u64_max;
  tk_bootstrap : addrs_ok (it_bootstrap t);
  tk_rendezvous : addrs_ok (it_rendezvous t);
  tk_policy : opt_ok group_policy_ok (it_policy t);
  tk_signature : length (it_signature t) = 64%nat
}.

Definition addrs_bytes (l : list bytes) : bytes := be_bytes 4 (len l) ++ concat (lp <$> l).

Definition token_domain (t : InviteToken) : bytes :=
  if bool_decide (it_policy t <> None) then POLICY_INVITE_DOMAIN else INVITE_DOMAIN.

Definition policy_tail (p : option GroupPolicy) : bytes :=
  match p with Some p => lp (policy_encode p) | None => [] end.

Definition token_bytes (t : InviteToken) : bytes :=
  lp (token_domain t) ++ lp (it_group_id t) ++ lp (it_inviter_device_id t) ++ lp (it_inviter_public_key t) ++
  lp (it_invite_nonce t) ++ be_bytes 8 (it_expires_at_ms t) ++ addrs_bytes (it_bootstrap t) ++
  addrs_bytes (it_rendezvous t) ++ policy_tail (it_policy t).

Lemma addrs_ok_u32 l : addrs_ok l -> len l <= u32_max.
Proof. intros [H _]. unfold MAX_INVITE_ADDRS, u32_max in *. lia. Qed.

Lemma write_unsigned_eq t e : addrs_ok (it_bootstrap t) -> addrs_ok (it_rendezvous t) -> write_unsigned t e = e ++ token_bytes t.
Proof.
  intros Hb%addrs_ok_u32 Hr%addrs_ok_u32. unfold write_unsigned, token_bytes, addrs_bytes, policy_tail, put_u64. fold (token_domain t).
  destruct (it_policy t); rewrite !put_all_eq, !put_count_eq, !put_bytes_x_lp by done;
    rewrite ?app_nil_r; by rewrite <- !app_assoc.
Qed.

Lemma unsigned_bytes_eq t : token_ok t -> unsigned_bytes t = token_bytes t.
Proof. intros H. unfold unsigned_bytes. rewrite write_unsigned_eq; [done|apply H|apply H]. Qed.

Lemma token_encode_eq t : token_ok t -> token_encode t = token_bytes t ++ lp (it_signature t).
Proof. intros H. unfold token_encode. rewrite put_bytes_x_lp, write_unsigned_eq; [done|apply H|apply H]. Qed.

Lemma consumes_addrs : consumes get_addrs (fun l bs => bs = addrs_bytes l /\ addrs_ok l).
Proof.
  intros d l d' H. unfold get_addrs in H. apply dec_bind_ok in H as (n & d1 & Hn & H).
  destruct (consumes_or_u32 _ _ _ _ Hn) as (b1 & R1 & -> & _).
  apply dec_bind_ok in H as (u & d2 & Hr & H). apply dec_refuse_ok in Hr as [Hmax <-]. apply N.ltb_ge in Hmax.
  destruct (consumes_list _ lp addr_ok (N.to_nat n) (consumes_or_str InviteMalformed) _ _ _ H) as (b2 & R2 & -> & Hl & HF).
  assert (n = len l) as -> by (unfold len; lia). exists (addrs_bytes l). split_and!; [|done|by split].
  unfold addrs_bytes. by rewrite R1, R2, app_assoc.
Qed.

Lemma reads_addrs l : addrs_ok l -> reads get_addrs (addrs_bytes l) l.
Proof.
  intros Hl. pose proof (addrs_ok_u32 _ Hl). destruct Hl as [Hmax HF]. unfold get_addrs, addrs_bytes.
  eapply reads_bind; [by apply reads_or, reads_u32|]. eapply reads_refuse_bind; [by apply N.ltb_ge|].
  unfold len. rewrite Nat2N.id. apply reads_n. eapply Forall_impl; [exact HF|]. intros a [? ?]. by apply reads_or, reads_str.
Qed.

Lemma consumes_policy dom :
  consumes (get_policy dom) (fun p bs => bs = policy_tail p /\ opt_ok group_policy_ok p /\
    (p <> None <-> dom = POLICY_INVITE_DOMAIN)).
Proof.
  intros d p d' H. unfold get_policy in H. destruct (bool_decide (dom = POLICY_INVITE_DOMAIN)) eqn:E.
  - dec_step H. apply bool_decide_eq_true in E. subst. destruct Hr as [-> _].
    destruct (policy_decode v) as [q|] eqn:Eq; [|done]. injection Hr0 as ->. apply policy_decode_inv in Eq as [-> Hq].
    eexists. split; [exact R|]. by split_and!.
  - apply dec_ret_ok in H as [<- <-]. apply bool_decide_eq_false in E. exists []. by split_and!.
Qed.
#[local] Hint Resolve consumes_addrs consumes_policy : mewtual_dec.

Lemma token_decode_inv b t : token_decode b = Ok t -> b = token_encode t /\ token_ok t.
Proof.
  intros H. eapply (run_or_consumes _ get_token (fun t bs => bs = token_encode t /\ token_ok t) _ _ H). clear.
  intros d t d' H. unfold get_token in H. dec_step H.
  destruct Hr as (-> & _), Hr1 as [-> ?], Hr2 as [-> ?], Hr3 as [-> ?], Hr4 as [-> ?], Hr5 as [-> ?], Hr6 as [-> ?],
    Hr7 as [-> ?], Hr8 as (-> & ? & Hdom), Hr9 as [-> ?].
  assert (Hok : token_ok (mkInviteToken v1 v2 v3 v4 v5 v6 v7 v8 v9)) by (by constructor).
  assert (Ed : token_domain (mkInviteToken v1 v2 v3 v4 v5 v6 v7 v8 v9) = v).
  { unfold token_domain. cbn. apply andb_false_iff in Hr0. rewrite !negb_false_iff, !bool_decide_eq_true in Hr0.
    case_bool_decide as E; [symmetry; by apply Hdom|]. destruct Hr0 as [->|F]; [done|]. apply Hdom in F. done. }
  eexists. split; [|split; [reflexivity|done]]. rewrite token_encode_eq by done. unfold token_bytes. rewrite Ed. cbn [it_group_id it_inviter_device_id it_inviter_public_key it_invite_nonce it_expires_at_ms it_bootstrap it_rendezvous it_policy it_signature].
  by rewrite R, R0, R1, R2, R3, R4, R5, R6, R7, R8, <- !app_assoc.
Qed.

Lemma token_decode_ok t : token_ok t -> token_decode (token_encode t) = Ok t.
Proof.
  intros Hok. rewrite token_encode_eq by done. destruct Hok as [H1 H2 H3 H4 H5 H6 H7 H8 H9].
  apply run_or_reads. unfold get_token, token_bytes. rewrite <- !app_assoc.
  eapply reads_bind; [apply reads_or, reads_str; unfold token_domain; by destruct (bool_decide _)|].
  eapply reads_refuse_bind; [unfold token_domain; by destruct (bool_decide (it_policy t <> None))|].
  eapply reads_bind; [by apply reads_or, reads_bytes|]. eapply reads_bind; [by apply reads_exact|].
  eapply reads_bind; [by apply reads_or, reads_bytes|]. eapply reads_bind; [by apply reads_exact|].
  eapply reads_bind; [by apply reads_or, reads_u64|]. eapply reads_bind; [by apply reads_addrs|].
  eapply reads_bind; [by apply reads_addrs|]. eapply reads_bind with (a := it_policy t).
  { unfold get_policy, token_domain, policy_tail. destruct (it_policy t) as [p|]; [|exact (reads_ret None)].
    cbn in H8. destruct (policy_sizes p H8) as (_ & _ & Hs).
    eapply reads_bind_last; [apply reads_or, reads_bytes; unfold u32_max; lia|].
    eapply reads_bind_nil; [|apply reads_ret]. apply reads_lift_ok. by rewrite policy_decode_ok. }
  eapply reads_bind_last; [by apply reads_exact|]. destruct t. apply reads_ret.
Qed.
End token_codec.

(** ** The ledger *)

Definition nonce_ok (n : bytes) : Prop := length n = 16%nat.
Definition lists_nonces (l : list bytes) (s : gset bytes) : Prop := NoDup l /\ list_to_set l = s.

(** A snapshot lists the sets in the order the hash tables happen to have. *)
Definition is_snapshot (l : InviteLedger) (b : bytes) : Prop :=
  exists consumed revoked, lists_nonces consumed (il_consumed l) /\ lists_nonces revoked (il_revoked l) /\
    b = snapshot_of consumed revoked.

Record invite_ledger_ok (l : InviteLedger) : Prop := mkLedgerOk {
  lk_consumed : set_Forall nonce_ok (il_consumed l);
  lk_revoked : set_Forall nonce_ok (il_revoked l)
}.
Definition ledger_fits (l : InviteLedger) : Prop :=
  N.of_nat (size (il_consumed l)) <= u32_max /\ N.of_nat (size (il_revoked l)) <= u32_max.

Lemma enumerates_len l s : lists_nonces l s -> len l = N.of_nat (size s).
Proof. intros [Hn <-]. unfold len. by rewrite size_list_to_set. Qed.

Lemma enumerates_ok l s : lists_nonces l s -> set_Forall nonce_ok s -> Forall nonce_ok l.
Proof. intros [_ <-] H. apply Forall_forall. intros n Hn. apply H. by apply elem_of_list_to_set. Qed.

Lemma reads_nonces l :
  Forall nonce_ok l -> len l <= u32_max -> reads get_nonces (addrs_bytes l) l.
Proof.
  intros HF Hl. unfold get_nonces, addrs_bytes. eapply reads_bind; [by apply reads_or, reads_u32|].
  unfold len. rewrite Nat2N.id. apply reads_n. eapply Forall_impl; [exact HF|]. intros a Ha. by apply reads_exact.
Qed.

Lemma snapshot_restores l b : invite_ledger_ok l -> ledger_fits l -> is_snapshot l b -> ledger_restore b = Ok l.
Proof.
  intros [H1 H2] [F1 F2] (cs & rs & Hc & Hr & ->). rewrite <- (enumerates_len _ _ Hc) in F1. rewrite <- (enumerates_len _ _ Hr) in F2.
  unfold ledger_restore. rewrite (run_or_reads _ _ _ (cs, rs)).
  - rewrite bind_Ok. destruct Hc as [_ Hc], Hr as [_ Hr]. cbn [fst snd]. rewrite Hc, Hr. by destruct l.
  - unfold snapshot_of. rewrite !put_all_eq, !put_count_eq by done. rewrite <- !app_assoc. cbn [app].
    rewrite (app_assoc (be_bytes 4 (len cs))).
    eapply reads_bind; [apply reads_nonces; [by eapply enumerates_ok|done]|].
    eapply reads_bind_last; [apply reads_nonces; [by eapply enumerates_ok|done]|]. apply reads_ret.
Qed.

(** * Runs of an admitting node *)

Section runs.
Context {C : Crypto} {Outcome : Type}.
Context (add_member : MlsGroup -> MlsDevice -> KeyPackage -> option Outcome * MlsGroup).

(** One successful admission: the group and time it was checked at. *)
Record admitted := mkAdmitted {
  ad_group : MlsGroup;
  ad_token : InviteToken;
  ad_package : KeyPackage;
  ad_now : N
}.
Definition ad_nonce (a : admitted) : bytes := it_invite_nonce (ad_token a).

Record invite_node := mkInviteNode { nd_group : MlsGroup; nd_ledger : InviteLedger; nd_log : list admitted }.

(** Admission requests with arbitrary tokens and packages at arbitrary times,
    revocations, any change of the group, and restarts from a snapshot. *)
Inductive invite_step : invite_node -> invite_node -> Prop :=
| invite_admit g l log inviter kp t now o g' l' :
    nonce_ok (it_invite_nonce t) ->
    add_member_via_invite add_member inviter kp t now (g, l) = (Ok o, (g', l')) ->
    invite_step (mkInviteNode g l log) (mkInviteNode g' l' (log ++ [mkAdmitted g t kp now]))
| invite_refuse g l log inviter kp t now e g' l' :
    add_member_via_invite add_member inviter kp t now (g, l) = (Err e, (g', l')) ->
    invite_step (mkInviteNode g l log) (mkInviteNode g' l' log)
| invite_revoke g l log nonce :
    nonce_ok nonce -> invite_step (mkInviteNode g l log) (mkInviteNode g (revoke nonce l) log)
| invite_group g l log g' : invite_step (mkInviteNode g l log) (mkInviteNode g' l log)
| invite_restart g l log b l' :
    ledger_fits l -> is_snapshot l b -> ledger_restore b = Ok l' ->
    invite_step (mkInviteNode g l log) (mkInviteNode g l' log).

(** What an admission was checked against. *)
Record admitted_ok (a : admitted) : Prop := mkAdmittedOk {
  ao_group : it_group_id (ad_token a) = mg_group_id (ad_group a);
  ao_fresh : ad_now a <= it_expires_at_ms (ad_token a);
  ao_inviter : exists pk, mls_member_signature_key (ad_group a) (it_inviter_device_id (ad_token a)) = Some pk /\
    token_verify (ad_token a) pk = true;
  ao_bound : kp_identity (ad_package a) = Some (membership_encode
    (mkMembershipCredential (from_public_key_bytes (kp_leaf_key (ad_package a))) (mg_group_id (ad_group a)) (ad_nonce a)))
}.

Lemma check_credential_ok g kp t :
  check_credential g kp t = Ok tt ->
  kp_identity kp = Some (membership_encode
    (mkMembershipCredential (from_public_key_bytes (kp_leaf_key kp)) (mg_group_id g) (it_invite_nonce t))).
Proof.
  unfold check_credential, membership_from_key_package. intros H. apply bind_ok in H as (m & Hm & H).
  destruct (kp_identity kp) as [b|]; [|done]. apply membership_decode_inv in Hm as [-> _].
  res_inv. bool_simpl. destruct m as [d gid n]. cbn in *. by subst.
Qed.

Lemma admit_inv inviter kp t now g l o g' l' :
  add_member_via_invite add_member inviter kp t now (g, l) = (Ok o, (g', l')) ->
  admitted_ok (mkAdmitted g t kp now) /\ (it_invite_nonce t ∉ il_consumed l) /\ (it_invite_nonce t ∉ il_revoked l) /\
  l' = mkInviteLedger ({[it_invite_nonce t]} ∪ il_consumed l) (il_revoked l).
Proof.
  unfold add_member_via_invite. destruct (_ ← _; _) as [[]|] eqn:E; [|done].
  apply refuse_if_bind_ok in E as [Eg E]. apply bind_ok in E as ([] & El & E). apply bind_ok in E as ([] & Ei & E).
  unfold ledger_check in El. unfold check_inviter in Ei. apply bind_ok in Ei as (pk & Hpk & Hv).
  destruct (add_member g inviter kp) as [[o'|] g1]; [|done]. destruct (consume _ l) as [l1|] eqn:Ec; [|done].
  intros [= <- <- <-]. unfold consume in Ec. apply refuse_if_bind_ok in El as [Et El]. apply refuse_if_bind_ok in El as [Er El].
  apply refuse_if_bind_ok in Ec as [_ Ec]. injection Ec as <-. res_inv. bool_simpl.
  split_and!; [|done|done|done]. constructor; cbn; [done|done| |by apply check_credential_ok].
  destruct (mls_member_signature_key _ _) as [pk'|]; [|done]. injection Hpk as ->. by exists pk.
Qed.

Lemma refuse_keeps_ledger inviter kp t now g l e g' l' :
  add_member_via_invite add_member inviter kp t now (g, l) = (Err e, (g', l')) -> l' = l.
Proof.
  unfold add_member_via_invite. destruct (_ ← _; _) as [[]|]; [|by intros [= <- <- <-]].
  destruct (add_member g inviter kp) as [[o'|] g1]; [|by intros [= <- <- <-]].
  destruct (consume _ l); [done|]. by intros [= <- <- <-].
Qed.

(** One step: the ledger only grows, and at most one fresh nonce is admitted. *)
Lemma invite_step_ok n n' :
  invite_ledger_ok (nd_ledger n) -> invite_step n n' ->
  invite_ledger_ok (nd_ledger n') /\ il_consumed (nd_ledger n) ⊆ il_consumed (nd_ledger n') /\
  il_revoked (nd_ledger n) ⊆ il_revoked (nd_ledger n') /\
  (nd_log n' = nd_log n \/
   exists a, nd_log n' = nd_log n ++ [a] /\ admitted_ok a /\ (ad_nonce a ∉ il_consumed (nd_ledger n)) /\
     (ad_nonce a ∉ il_revoked (nd_ledger n)) /\ ad_nonce a ∈ il_consumed (nd_ledger n')).
Proof.
  intros Hok H. destruct H as [g l log inviter kp t now o g' l' Hn H|g l log inviter kp t now e g' l' H|g l log nonce Hn|g l log g'|g l log b l' Hf Hs H]; cbn in *.
  - apply admit_inv in H as (Ha & Hc & Hr & ->). cbn. split_and!; [|set_solver|done|].
    + destruct Hok. constructor; cbn; [|done]. apply set_Forall_union; [|done]. by apply set_Forall_singleton.
    + right. eexists. split_and!; [reflexivity|done|done|done|]. unfold ad_nonce. cbn. set_solver.
  - apply refuse_keeps_ledger in H as ->. by split_and!; [done..|left].
  - split_and!; [|done|set_solver|by left]. destruct Hok. constructor; cbn; [done|]. apply set_Forall_union; [|done].
    by apply set_Forall_singleton.
  - by split_and!; [done..|left].
  - rewrite (snapshot_restores l b) in H by done. injection H as <-. by split_and!; [done..|left].
Qed.
End runs.

(** * Properties *)

Section properties.
Context {C : Crypto} {Outcome : Type}.
Context (add_member : MlsGroup -> MlsDevice -> KeyPackage -> option Outcome * MlsGroup).

(** C18: an invite admits once. However admissions, refusals, revocations, group
    changes and restarts from a snapshot follow each other, the invites redeemed
    are pairwise distinct, none was already used or revoked, and each was
    checked in time, against a current member's signature, with a key package
    bound to exactly this group, this invite and its own leaf key. *)
Theorem invite_single_use n n'
    (Hok : invite_ledger_ok (nd_ledger n)) (Hrun : rtc (invite_step add_member) n n') :
  exists new, nd_log n' = nd_log n ++ new /\ NoDup (ad_nonce <$> new) /\
    Forall (fun a => admitted_ok a /\ (ad_nonce a ∉ il_consumed (nd_ledger n)) /\ (ad_nonce a ∉ il_revoked (nd_ledger n)) /\
                     ad_nonce a ∈ il_consumed (nd_ledger n')) new.
Proof.
  enough (Hex : exists new, nd_log n' = nd_log n ++ new /\ NoDup (ad_nonce <$> new) /\
    il_consumed (nd_ledger n) ⊆ il_consumed (nd_ledger n') /\
    Forall (fun a => admitted_ok a /\ (ad_nonce a ∉ il_consumed (nd_ledger n)) /\ (ad_nonce a ∉ il_revoked (nd_ledger n)) /\
                     ad_nonce a ∈ il_consumed (nd_ledger n')) new).
  { destruct Hex as (new & H1 & H2 & _ & H3). by exists new. }
  induction Hrun as [n|n m n' Hs _ IH].
  { exists []. rewrite app_nil_r. split_and!; [done|constructor|done|constructor]. }
  destruct (invite_step_ok _ _ _ Hok Hs) as (Hm & Hc & Hr & Hlog). destruct (IH Hm) as (new & E & Hnd & Hc' & HF).
  destruct Hlog as [Elog|(a & Elog & Ha & Hac & Har & Hin)].
  - exists new. split_and!; [congruence|done|set_solver|]. eapply Forall_impl; [exact HF|]. cbn. intros b (? & ? & ? & ?). split_and!; set_solver.
  - exists (a :: new). split_and!; [by rewrite E, Elog, <- app_assoc| |set_solver|].
    + rewrite fmap_cons. constructor; [|done]. intros (b & Eb & Hb)%list_elem_of_fmap. rewrite Forall_forall in HF.
      destruct (HF _ Hb) as (_ & Hnc & _). rewrite <- Eb in Hnc. done.
    + constructor; [split_and!; set_solver|]. eapply Forall_impl; [exact HF|]. cbn. intros b (? & ? & ? & ?). split_and!; set_solver.
Qed.

(** The inviter's signature covers the whole invite: two invites with the same
    signed bytes differ at most in the signature itself, so no field (the
    rendezvous list and the policy included) can be altered, added or stripped
    under an existing signature; and the token's own bytes decode to it and to
    nothing else. *)
Theorem invite_signature_binds t1 t2 (H1 : token_ok t1) (H2 : token_ok t2) :
  (unsigned_bytes t1 = unsigned_bytes t2 ->
     t2 = mkInviteToken (it_group_id t1) (it_inviter_device_id t1) (it_inviter_public_key t1) (it_invite_nonce t1)
            (it_expires_at_ms t1) (it_bootstrap t1) (it_rendezvous t1) (it_policy t1) (it_signature t2)) /\
  (forall b, token_decode b = Ok t1 <-> b = token_encode t1).
Proof.
  split.
  - intros E. set (t := mkInviteToken _ _ _ _ _ _ _ _ _).
    assert (Ht : token_ok t) by (destruct H1, H2; by constructor).
    assert (Eenc : token_encode t = token_encode t2).
    { rewrite !token_encode_eq by done. rewrite (unsigned_bytes_eq t1), (unsigned_bytes_eq t2) in E by done.
      change (token_bytes t) with (token_bytes t1). by rewrite E. }
    pose proof (token_decode_ok _ Ht) as D. rewrite Eenc, (token_decode_ok _ H2) in D. by injection D.
  - intros b. split; [by intros [-> _]%token_decode_inv|]. intros ->. by apply token_decode_ok.
Qed.

(** An invite works exactly once. A freshly minted invite authenticates itself
    and survives encoding; a device that builds its key package for it is
    admitted while the invite is fresh, if the MLS layer can add it; afterwards
    every further attempt with that invite is refused whatever key package it
    brings. *)
Theorem minted_invite_admits g g' inviter nonce expires_at_ms bootstrap rendezvous t l kp now o
    (Hdev : honest_device inviter) (Hlaw : CryptoLaws C)
    (Hmember : mls_member_signature_key g (device_id inviter) = Some (public_key_bytes inviter))
    (Hgid : len (mg_group_id g) <= u32_max) (Hnonce : nonce_ok nonce) (Hexp : expires_at_ms <= u64_max)
    (Hb : addrs_ok bootstrap) (Hr : addrs_ok rendezvous)
    (Hmint : mint_invite g inviter nonce expires_at_ms bootstrap rendezvous = Ok t)
    (Hkp : kp_identity kp = Some (membership_encode
       (mkMembershipCredential (from_public_key_bytes (kp_leaf_key kp)) (mg_group_id g) nonce)))
    (Hfresh : (nonce ∉ il_consumed l)) (Hlive : (nonce ∉ il_revoked l)) (Hnow : now <= expires_at_ms)
    (Hadd : add_member g inviter kp = (Some o, g')) :
  token_verify_self t = true /\ token_decode (token_encode t) = Ok t /\
  exists l', add_member_via_invite add_member inviter kp t now (g, l) = (Ok o, (g', l')) /\
    forall g2 inviter2 kp2 now2, now2 <= expires_at_ms -> mg_group_id g2 = mg_group_id g ->
      add_member_via_invite add_member inviter2 kp2 t now2 (g2, l') = (Err (MlsInvite AlreadyUsed), (g2, l')).
Proof.
  unfold mint_invite in Hmint. cbv zeta in Hmint. apply bind_ok in Hmint as (sig & Hsig & Hmint).
  destruct (device_sign inviter _) as [sig'|] eqn:Es; [|done]. injection Hsig as ->. injection Hmint as <-.
  pose proof Hdev as (Hl & _ & H64). destruct (H64 _ _ Es) as [Hsl _]. apply (honest_verify _ _ _ Hdev) in Es.
  set (t := mkInviteToken (mg_group_id g) (device_id inviter) (public_key_bytes inviter) nonce expires_at_ms bootstrap rendezvous None sig).
  assert (Hv : token_verify t (public_key_bytes inviter) = true) by exact Es.
  assert (Ht : token_ok t).
  { constructor; try done; [apply Hlaw|]. cbn. unfold len. by rewrite Hl. }
  split_and!.
  - unfold token_verify_self. rewrite bool_decide_eq_false_2 by (by intros []). exact Hv.
  - by apply token_decode_ok.
  - exists (mkInviteLedger ({[nonce]} ∪ il_consumed l) (il_revoked l)). split.
    + unfold add_member_via_invite, check_inviter, check_credential, membership_from_key_package, ledger_check.
      cbn [it_group_id it_expires_at_ms it_invite_nonce it_inviter_device_id t].
      rewrite (bool_decide_eq_false_2 (mg_group_id g <> mg_group_id g)) by (by intros []). rewrite (proj2 (N.ltb_ge _ _)) by done.
      rewrite (bool_decide_eq_false_2 (nonce ∈ il_revoked l)), (bool_decide_eq_false_2 (nonce ∈ il_consumed l)) by done.
      rewrite Hmember, Hkp. cbn [ok_or refuse_if negb mbind result_bind]. rewrite Hv. cbn [negb refuse_if mbind result_bind].
      rewrite membership_decode_ok by (constructor; [apply Hlaw|done|done]). cbn [mbind result_bind mc_group_id mc_invite_nonce mc_device_id].
      rewrite !bool_decide_eq_false_2 by (by intros []). cbn [orb refuse_if]. rewrite Hadd. unfold consume.
      by rewrite (bool_decide_eq_false_2 (nonce ∈ il_consumed l)).
    + intros g2 inviter2 kp2 now2 Hnow2 Eg. unfold add_member_via_invite, ledger_check.
      cbn [it_group_id it_expires_at_ms it_invite_nonce il_consumed il_revoked t].
      rewrite (bool_decide_eq_false_2 (mg_group_id g <> mg_group_id g2)) by (rewrite Eg; by intros []). rewrite (proj2 (N.ltb_ge _ _)) by done.
      rewrite (bool_decide_eq_false_2 (nonce ∈ il_revoked l)) by done.
      by rewrite (bool_decide_eq_true_2 (nonce ∈ {[nonce]} ∪ il_consumed l)) by set_solver.
Qed.

(** What a received commit must not do, exactly. A commit passes the checks
    before the merge if and only if it does not come from outside, every device
    it adds carries a credential bound to this group and to its own leaf key,
    and it does not both remove the designated committer's leaf and add a leaf
    of the same device. *)
Theorem staged_commit_exact g c removed :
  check_staged_commit g c = Ok removed <->
  sc_external c = false /\
  Forall (fun kp => exists m, kp_identity kp = Some (membership_encode m) /\ membership_ok m /\
    mc_group_id m = mg_group_id g /\ mc_device_id m = from_public_key_bytes (kp_leaf_key kp)) (sc_adds c) /\
  (forall committer, mls_designated_committer g = Some committer ->
     (exists index m, index ∈ sc_removes c /\ find_leaf index (mg_members g) = Some m /\ member_id m = committer) ->
     Forall (fun kp => from_public_key_bytes (kp_leaf_key kp) <> committer) (sc_adds c)) /\
  removed = negb (bool_decide (sc_removes c = [])).
Proof.
  assert (Hadds : forall adds, check_adds g adds = Ok tt <->
    Forall (fun kp => exists m, kp_identity kp = Some (membership_encode m) /\ membership_ok m /\
      mc_group_id m = mg_group_id g /\ mc_device_id m = from_public_key_bytes (kp_leaf_key kp)) adds).
  { induction adds as [|kp adds IH]; [done|]. cbn [check_adds]. rewrite Forall_cons, <- IH. unfold check_add, membership_from_key_package. split.
    - intros H. apply bind_ok in H as ([] & H & Hrest). split; [|done]. apply bind_ok in H as (m & Hm & H).
      destruct (kp_identity kp) as [b|]; [|done]. apply membership_decode_inv in Hm as [-> Hm]. res_inv. bool_simpl. by exists m.
    - intros [(m & -> & Hm & Eg & Ed) Hrest]. cbn [ok_or]. eapply bind_step; [|exact Hrest].
      rewrite bind_Ok. eapply bind_step; [by apply membership_decode_ok|].
      rewrite !bool_decide_eq_false_2 by (try rewrite Eg; try rewrite Ed; by intros []). done. }
  assert (Hrem : forall committer, removes_device g committer (sc_removes c) = true <->
    exists index m, index ∈ sc_removes c /\ find_leaf index (mg_members g) = Some m /\ member_id m = committer).
  { intros committer. unfold removes_device. rewrite existsb_exists. split.
    - intros (i & Hi%list_elem_of_In & H). destruct (find_leaf i _) as [m|] eqn:E; [|done]. apply bool_decide_eq_true in H. by exists i, m.
    - intros (i & m & Hi%list_elem_of_In & E & H). exists i. rewrite E. split; [done|]. by apply bool_decide_eq_true. }
  assert (Hadd : forall committer, adds_device committer (sc_adds c) = false <->
    Forall (fun kp => from_public_key_bytes (kp_leaf_key kp) <> committer) (sc_adds c)).
  { intros committer. unfold adds_device. split.
    - intros H. apply existsb_false_Forall in H. eapply Forall_impl; [exact H|]. cbn. intros kp. by rewrite bool_decide_eq_false.
    - intros H. apply not_true_iff_false. intros (kp & Hk%list_elem_of_In & Hd%bool_decide_eq_true)%existsb_exists.
      rewrite Forall_forall in H. by apply (H kp). }
  unfold check_staged_commit. split.
  - intros H. apply refuse_if_bind_ok in H as [He H]. apply bind_ok in H as ([] & Ha & H). apply refuse_if_bind_ok in H as [Hc H].
    injection H as <-. split_and!; [done|by apply Hadds| |done]. intros committer E Hex%Hrem. rewrite E, Hex in Hc. by apply Hadd.
  - intros (-> & Ha & Hc & ->). cbn [refuse_if]. rewrite bind_Ok. eapply bind_step; [by apply Hadds|].
    rewrite refuse_if_bind_false; [done|]. destruct (mls_designated_committer g) as [committer|]; [|done].
    destruct (removes_device g committer (sc_removes c)) eqn:E; [|done]. apply Hadd, Hc; [done|]. by apply Hrem.
Qed.
End properties.

(** * Witnesses *)

Definition toy_invite_nonce : bytes := be_bytes 16 7.
Definition toy_joiner : KeyPackage :=
  mkKeyPackage (Some (membership_encode (mkMembershipCredential
    (from_public_key_bytes (C:=toy_crypto) (be_bytes 32 66)) (bytes_of_string "g") toy_invite_nonce))) (be_bytes 32 66) 0 1.

(** An MLS layer that seats the new leaf on the next index. *)
Definition toy_add (g : MlsGroup) (dev : MlsDevice) (kp : KeyPackage) : option unit * MlsGroup :=
  (Some tt, mkMlsGroup (mg_group_id g) (mg_epoch g + 1)
              (mg_members g ++ [mkMember (len (mg_members g)) (kp_leaf_key kp) []]) (mg_active g)).

Definition toy_token : InviteToken :=
  match mint_invite (C:=toy_crypto) toy_policy_group (toy_device 65) toy_invite_nonce 1000 [] [bytes_of_string "/dns/r"] with
  | Ok t => t
  | Err _ => mkInviteToken [] [] [] [] 0 [] [] None []
  end.

Lemma toy_token_minted :
  mint_invite (C:=toy_crypto) toy_policy_group (toy_device 65) toy_invite_nonce 1000 [] [bytes_of_string "/dns/r"] = Ok toy_token.
Proof. vm_compute. reflexivity. Qed.

Lemma toy_addrs_nil : addrs_ok [].
Proof. split; [done|constructor]. Qed.
Lemma toy_addrs_one : addrs_ok [bytes_of_string "/dns/r"].
Proof. split; [done|]. repeat constructor; done. Qed.
Lemma toy_inviter_member :
  mls_member_signature_key (C:=toy_crypto) toy_policy_group (device_id (C:=toy_crypto) (toy_device 65)) = Some (be_bytes 32 65).
Proof. vm_compute. reflexivity. Qed.

Lemma minted_invite_admits_witness :
  exists l', add_member_via_invite (C:=toy_crypto) toy_add (toy_device 65) toy_joiner toy_token 5 (toy_policy_group, InviteLedger_new)
    = (Ok tt, (snd (toy_add toy_policy_group (toy_device 65) toy_joiner), l')).
Proof.
  destruct (proj2 (proj2 (minted_invite_admits (C:=toy_crypto) toy_add toy_policy_group _ (toy_device 65) toy_invite_nonce 1000 []
    [bytes_of_string "/dns/r"] toy_token InviteLedger_new toy_joiner 5 tt (toy_device_honest 65) toy_laws toy_inviter_member
    ltac:(vm_compute; discriminate) eq_refl ltac:(vm_compute; discriminate) toy_addrs_nil toy_addrs_one toy_token_minted eq_refl
    ltac:(apply not_elem_of_empty) ltac:(apply not_elem_of_empty) ltac:(vm_compute; discriminate) eq_refl))) as (l' & H & _).
  exists l'. exact H.
Defined.

Lemma toy_empty_ledger : invite_ledger_ok InviteLedger_new.
Proof. constructor; apply set_Forall_empty. Qed.

Definition toy_invite_start : invite_node := mkInviteNode toy_policy_group InviteLedger_new [].

Definition toy_admission := add_member_via_invite (C:=toy_crypto) toy_add (toy_device 65) toy_joiner toy_token 5 (toy_policy_group, InviteLedger_new).
Definition toy_invite_end : invite_node :=
  mkInviteNode toy_admission.2.1 toy_admission.2.2 [mkAdmitted toy_policy_group toy_token toy_joiner 5].

Lemma toy_admission_ok : toy_admission = (Ok tt, (toy_admission.2.1, toy_admission.2.2)).
Proof. vm_compute. reflexivity. Qed.

Lemma toy_admission_run : rtc (invite_step (C:=toy_crypto) toy_add) toy_invite_start toy_invite_end.
Proof.
  eapply rtc_l; [|apply rtc_refl].
  exact (invite_admit (C:=toy_crypto) toy_add toy_policy_group InviteLedger_new [] (toy_device 65) toy_joiner toy_token 5 tt
    _ _ eq_refl toy_admission_ok).
Qed.

Lemma invite_single_use_witness :
  exists new, nd_log toy_invite_end = new /\ NoDup (ad_nonce <$> new) /\ new <> [].
Proof.
  destruct (invite_single_use (C:=toy_crypto) toy_add toy_invite_start toy_invite_end toy_empty_ledger toy_admission_run)
    as (new & E & Hnd & _).
  change (nd_log toy_invite_start ++ new) with new in E. exists new. split; [exact E|]. split; [exact Hnd|].
  rewrite <- E. discriminate.
Defined.

Lemma toy_token_ok : token_ok (C:=toy_crypto) toy_token.
Proof. apply token_decode_inv with (b := token_encode toy_token). vm_compute. reflexivity. Qed.

Lemma invite_signature_binds_witness : token_decode (C:=toy_crypto) (token_encode toy_token) = Ok toy_token.
Proof. apply (proj2 (invite_signature_binds (C:=toy_crypto) toy_token toy_token toy_token_ok toy_token_ok)). reflexivity. Defined.
