(* ===== verification/Roles.v ===== *)
(** Who may invite: the owner-local admin roster of
    [crates/catcoms-sync/src/lib.rs] ([set_admin], [inviter_is_authorized], the
    persistence handshake), its published copy in [roles.rs], and the admission
    [admit_now] that reads it.

    A [BTreeSet] of device ids is the ascending list of its elements. The
    document that carries the published copy is Automerge's: reading it gives
    the bytes stored under the roster key, and posting to it may fail. *)

From S2P Require Import Prelude Wire Codec Crypto Authority Membership GroupPolicy EpochBase OwnerTenure Invite.
From stdpp Require Import base list gmap relations sorting.
From Stdlib Require Import Init.Byte.
Local Open Scope N_scope.

Definition ROLE_ROSTER_DOMAIN : bytes := bytes_of_string "catcoms/role-roster/v2".

(** [BTreeSet::insert] and [remove] *)
Definition roster_insert (d : bytes) (l : list bytes) : list bytes := if bool_decide (d ∈ l) then l else kinsert d l.
Definition roster_remove (d : bytes) (l : list bytes) : list bytes := List.filter (fun x => negb (bool_decide (x = d))) l.

Definition authorizes_device (owner : bytes) (admins : list bytes) (device : bytes) (current_member durable : bool) : bool :=
  current_member && (bool_decide (device = owner) || (durable && bool_decide (device ∈ admins))).

(** [x as u16] *)
Definition as_u16 (n : N) : N := n mod (u16_max + 1).

Definition roster_payload (group_id : bytes) (gen : N) (fps : list bytes) : bytes :=
  ROLE_ROSTER_DOMAIN ++ be_bytes 2 (as_u16 (len group_id)) ++ group_id ++ be_bytes 8 gen ++
  be_bytes 2 (as_u16 (len fps)) ++ concat fps.

Definition encode_roster (gen : N) (owner_pk : bytes) (fps : list bytes) (sig : bytes) : bytes :=
  be_bytes 8 gen ++ owner_pk ++ be_bytes 2 (as_u16 (len fps)) ++ concat fps ++ sig.

(** [v[s..s + 32]] for [n] consecutive slices *)
Fixpoint slices (n : nat) (v : bytes) : list bytes :=
  match n with O => [] | S n => firstn 32 v :: slices n (skipn 32 v) end.

Inductive RolesError :=
| RolesUnauthorized
| RolesMls
| RolesNoSuchDoc.

Record RolesState := mkRolesState {
  ro_group : MlsGroup;
  ro_device : MlsDevice;
  ro_admins : list bytes;
  ro_durable : bool;
  ro_gen : N
}.

Section roles.
Context {C : Crypto}.

(** [read_published_roster], on the bytes stored under the roster key *)
Definition read_published_roster (v group_id owner_id : bytes) : option (list bytes) :=
  if len v <? 42 + 64 then None
  else
    let gen := be_val (firstn 8 v) in
    let owner_pk := firstn 32 (skipn 8 v) in
    let n := be_val (firstn 2 (skipn 40 v)) in
    if negb (len v =? 42 + n * 32 + 64) then None
    else
      let fps := slices (N.to_nat n) (skipn 42 v) in
      if negb (strictly_ascending fps) then None
      else
        let sig := firstn 64 (skipn (42 + N.to_nat n * 32) v) in
        if bool_decide (from_public_key_bytes owner_pk <> owner_id) then None
        else if negb (verify_with_public_bytes owner_pk (roster_payload group_id gen fps) sig) then None
        else Some fps.

(** [ChannelSync::inviter_is_authorized]; the document is absent or holds bytes *)
Definition inviter_is_authorized (st : RolesState) (published : option bytes) (device : bytes) : bool :=
  match mls_designated_committer (ro_group st) with
  | None => false
  | Some owner =>
      if negb (contains_device (ro_group st) device) then false
      else if bool_decide (owner = device) then true
      else if node_is_committer (ro_group st) (ro_device st) then
        authorizes_device owner (ro_admins st) device (contains_device (ro_group st) device) (ro_durable st)
      else
        match published with
        | Some v =>
            match read_published_roster v (mg_group_id (ro_group st)) owner with
            | Some fps => bool_decide (device ∈ fps)
            | None => false
            end
        | None => false
        end
  end.

Definition published_roster_omits (st : RolesState) (published : option bytes) (device : bytes) : bool :=
  match mls_designated_committer (ro_group st), published with
  | Some owner, Some v =>
      match read_published_roster v (mg_group_id (ro_group st)) owner with
      | Some fps => negb (bool_decide (device ∈ fps))
      | None => false
      end
  | _, _ => false
  end.

Definition set_admins (admins : list bytes) (gen : N) (st : RolesState) : RolesState :=
  mkRolesState (ro_group st) (ro_device st) admins (ro_durable st) gen.
Definition set_durable (b : bool) (st : RolesState) : RolesState :=
  mkRolesState (ro_group st) (ro_device st) (ro_admins st) b (ro_gen st).

(** [publish_roster]: the generation moves before anything can fail. *)
Definition publish_roster (post : bytes -> bool) (st : RolesState) : result RolesError unit * RolesState :=
  let st := set_admins (ro_admins st) (sat_add u64_max (ro_gen st) 1) st in
  (sig ← ok_or (device_sign (ro_device st) (roster_payload (mg_group_id (ro_group st)) (ro_gen st) (ro_admins st))) RolesMls;
   refuse_if (negb (post (encode_roster (ro_gen st) (public_key_bytes (ro_device st)) (ro_admins st) sig))) RolesNoSuchDoc,
   st).

(** [ChannelSync::set_admin] *)
Definition set_admin (post : bytes -> bool) (device : bytes) (admin : bool) (st : RolesState)
    : result RolesError unit * RolesState :=
  if negb (node_is_committer (ro_group st) (ro_device st)) then (Err RolesUnauthorized, st)
  else if admin then
    if negb (contains_device (ro_group st) device) then (Err RolesUnauthorized, st)
    else publish_roster post (set_admins (roster_insert device (ro_admins st)) (ro_gen st) st)
  else publish_roster post (set_admins (roster_remove device (ro_admins st)) (ro_gen st) st).

Definition require_admin_persistence (st : RolesState) : RolesState := set_durable false st.

Definition confirm_admin_persistence (generation : N) (st : RolesState) : RolesState :=
  if generation =? ro_gen st then set_durable true st else st.

(** The roster's part of an observed MLS transition. *)
Definition roles_transition (after : MlsGroup) (st : RolesState) : RolesState :=
  let admins := if bool_decide (mls_designated_committer (ro_group st) <> mls_designated_committer after) then []
                else ro_admins st in
  mkRolesState after (ro_device st) (List.filter (contains_device after) admins) (ro_durable st) (ro_gen st).

(** The roster's part of [ChannelSync::restore]: the saved list, its members only. *)
Definition roles_restore (g : MlsGroup) (dev : MlsDevice) (admins : list bytes) (gen : N) : RolesState :=
  mkRolesState g dev (List.filter (contains_device g) admins) true gen.
End roles.

(** * Admission *)

Record AdmitNode := mkAdmitNode {
  an_policy : PolicyState;
  an_roles : RolesState;
  an_ledger : InviteLedger;
  an_tenure : OwnerTenure
}.

Section admission.
Context {C : Crypto} {Outcome : Type}.
(** OpenMLS and the derived-key hash. *)
Context (parse_key_package : bytes -> option KeyPackage) (has_acceptable_range : N -> N -> bool).
Context (add_member : MlsGroup -> MlsDevice -> KeyPackage -> option Outcome * MlsGroup).
Context (derive_key : bytes -> bytes -> bytes).

(** [MlsDevice::parse_admitted_key_package] *)
Definition parse_admitted_key_package (b : bytes) (now_ms : N) : result MlsError KeyPackage :=
  kp ← ok_or (parse_key_package b) MlsProtocol;
  _ ← map_err MlsInvite (check_admitted_lifetime has_acceptable_range kp now_ms);
  Ok kp.

(** The state-changing part of [ChannelSync::admit_now]: up to the merged Add,
    with the transition observed whether or not the Add succeeded. *)
Definition admit_now (invite : InviteToken) (kp_bytes : bytes) (published : option bytes) (now clock_ms : N) (n : AdmitNode)
    : option Outcome * AdmitNode :=
  let st := an_roles n in
  let g := ro_group st in
  if negb (node_is_committer g (ro_device st)) || negb (inviter_is_authorized st published (it_inviter_device_id invite))
  then (None, n)
  else if negb (is_ok (policy_admission_ready (an_policy n))) then (None, n)
  else if negb (invite_policy_matches (an_policy n) (it_policy invite)) then (None, n)
  else
    match parse_admitted_key_package kp_bytes clock_ms with
    | Err _ => (None, n)
    | Ok kp =>
        let '(r, (g', ledger)) := add_member_via_invite add_member (ro_device st) kp invite now (g, an_ledger n) in
        let n' := mkAdmitNode (set_group g' (ps_control_topic (an_policy n)) (an_policy n)) (roles_transition g' st) ledger
                    (tenure_applied derive_key (an_tenure n) (Position_of derive_key g) g') in
        (match r with Ok o => Some o | Err _ => None end, n')
    end.
End admission.

(** * The published copy *)

Section published.
Context {C : Crypto}.

Definition id_ok (d : bytes) : Prop := length d = 32%nat.

Lemma length_concat_ids l : Forall id_ok l -> length (concat l) = (length l * 32)%nat.
Proof. induction 1 as [|d l Hd _ IH]; [done|]. cbn. unfold id_ok in Hd. rewrite length_app, IH, Hd. done. Qed.

Lemma slices_concat l rest : Forall id_ok l -> slices (length l) (concat l ++ rest) = l.
Proof.
  induction 1 as [|d l Hd _ IH]; [done|]. unfold id_ok in Hd. cbn [length slices concat]. rewrite <- app_assoc.
  assert (firstn 32 (d ++ concat l ++ rest) = d) as -> by (rewrite <- Hd; apply take_app_length).
  assert (skipn 32 (d ++ concat l ++ rest) = concat l ++ rest) as -> by (rewrite <- Hd; apply drop_app_length). by rewrite IH.
Qed.

Lemma slices_split n v : (n * 32 <= length v)%nat -> v = concat (slices n v) ++ skipn (n * 32) v /\ Forall id_ok (slices n v).
Proof.
  revert v. induction n as [|n IH]; intros v Hl; [by split; [|constructor]|]. cbn [slices concat].
  destruct (IH (skipn 32 v)) as [E F]; [rewrite length_drop; lia|]. split.
  - rewrite <- app_assoc. replace (S n * 32)%nat with (32 + n * 32)%nat by lia. rewrite <- drop_drop, <- E. symmetry. apply take_drop.
  - constructor; [|done]. unfold id_ok. rewrite length_take. lia.
Qed.

Lemma length_slices n v : length (slices n v) = n.
Proof. revert v. induction n as [|n IH]; intros v; [done|]. cbn. by rewrite IH. Qed.

Lemma as_u16_small n : n <= u16_max -> as_u16 n = n.
Proof. intros H. unfold as_u16. apply N.mod_small. lia. Qed.

(** A roster value that an owner with this id published for this group. *)
Record published_by (group_id owner_id : bytes) (fps : list bytes) (v : bytes) : Prop := mkPublishedBy {
  pb_value : exists gen owner_pk sig, v = encode_roster gen owner_pk fps sig /\ gen <= u64_max /\
    length owner_pk = 32%nat /\ length sig = 64%nat /\ from_public_key_bytes owner_pk = owner_id /\
    verify_with_public_bytes owner_pk (roster_payload group_id gen fps) sig = true;
  pb_ids : Forall id_ok fps;
  pb_count : len fps <= u16_max;
  pb_sorted : strictly_ascending fps = true
}.

Lemma read_published v gid owner fps : published_by gid owner fps v -> read_published_roster v gid owner = Some fps.
Proof.
  intros [(gen & pk & sig & -> & Hg & Hpk & Hsig & Ho & Hv) Hid Hn Hs]. unfold encode_roster. rewrite as_u16_small by done.
  pose proof (length_concat_ids _ Hid) as Hc. set (c := concat fps) in *.
  assert (E8 : firstn 8 (be_bytes 8 gen ++ pk ++ be_bytes 2 (len fps) ++ c ++ sig) = be_bytes 8 gen)
    by exact (take_app_length (be_bytes 8 gen) _).
  assert (D8 : skipn 8 (be_bytes 8 gen ++ pk ++ be_bytes 2 (len fps) ++ c ++ sig) = pk ++ be_bytes 2 (len fps) ++ c ++ sig)
    by exact (drop_app_length (be_bytes 8 gen) _).
  assert (D40 : skipn 40 (be_bytes 8 gen ++ pk ++ be_bytes 2 (len fps) ++ c ++ sig) = be_bytes 2 (len fps) ++ c ++ sig).
  { change 40%nat with (8 + 32)%nat. rewrite <- drop_drop, D8, <- Hpk. apply drop_app_length. }
  assert (D42 : skipn 42 (be_bytes 8 gen ++ pk ++ be_bytes 2 (len fps) ++ c ++ sig) = c ++ sig).
  { change 42%nat with (40 + 2)%nat. rewrite <- drop_drop, D40. exact (drop_app_length (be_bytes 2 (len fps)) _). }
  assert (Hlen : len (be_bytes 8 gen ++ pk ++ be_bytes 2 (len fps) ++ c ++ sig) = 42 + len fps * 32 + 64).
  { unfold len. rewrite !length_app, !length_be_bytes, Hpk, Hc, Hsig. lia. }
  unfold read_published_roster. rewrite Hlen, (proj2 (N.ltb_ge _ _)) by lia. rewrite E8, D8, D40, D42.
  assert (firstn 2 (be_bytes 2 (len fps) ++ c ++ sig) = be_bytes 2 (len fps)) as -> by exact (take_app_length (be_bytes 2 (len fps)) _).
  assert (firstn 32 (pk ++ be_bytes 2 (len fps) ++ c ++ sig) = pk) as -> by (rewrite <- Hpk; apply take_app_length).
  rewrite (be_val_be_bytes 2) by (rewrite pow256_2; lia). rewrite (be_val_be_bytes 8) by (rewrite pow256_8; lia).
  rewrite N.eqb_refl. cbn [negb]. cbv zeta. assert (N.to_nat (len fps) = length fps) as -> by (unfold len; lia).
  subst c. rewrite slices_concat, Hs by done. cbn [negb].
  rewrite <- drop_drop, D42, <- Hc, drop_app_length, <- Hsig, take_ge by lia.
  rewrite bool_decide_eq_false_2 by (by intros []). by rewrite Hv.
Qed.

Lemma published_inv v gid owner fps : read_published_roster v gid owner = Some fps -> published_by gid owner fps v.
Proof.
  unfold read_published_roster. destruct (len v <? 42 + 64) eqn:E1; [done|]. cbv zeta.
  set (n := be_val (firstn 2 (skipn 40 v))). destruct (len v =? 42 + n * 32 + 64) eqn:E2; [|done]. cbn [negb].
  destruct (strictly_ascending _) eqn:E3; [|done]. cbn [negb]. destruct (bool_decide _) eqn:E4; [done|].
  destruct (verify_with_public_bytes _ _ _) eqn:E5; [|done]. cbn [negb]. intros [= <-]. bool_simpl.
  assert (Hlv : length v = (42 + N.to_nat n * 32 + 64)%nat) by (unfold len in E2; lia).
  assert (Hn : n < 65536).
  { pose proof (be_val_lt (firstn 2 (skipn 40 v))) as H. rewrite length_take, length_drop, Hlv in H.
    replace (2 `min` (42 + N.to_nat n * 32 + 64 - 40))%nat with 2%nat in H by lia. exact H. }
  destruct (slices_split (N.to_nat n) (skipn 42 v)) as [Ec Hid]; [rewrite length_drop; lia|].
  set (fps := slices (N.to_nat n) (skipn 42 v)) in *.
  assert (Hlf : len fps = n) by (unfold len, fps; rewrite length_slices; lia).
  constructor; [|done|unfold u16_max; lia|done].
  exists (be_val (firstn 8 v)), (firstn 32 (skipn 8 v)), (firstn 64 (skipn (42 + N.to_nat n * 32) v)).
  rewrite <- drop_drop in E5 |- *.
  split_and!; [| |rewrite length_take, length_drop; lia|rewrite length_take, !length_drop; lia|done|done].
  - unfold encode_roster. rewrite as_u16_small, Hlf by (unfold u16_max; lia).
    assert (B8 : be_bytes 8 (be_val (firstn 8 v)) = firstn 8 v).
    { replace 8%nat with (length (firstn 8 v)) at 1 by (rewrite length_take; lia). apply be_bytes_be_val. }
    assert (B2 : be_bytes 2 n = firstn 2 (skipn 40 v)).
    { unfold n. replace 2%nat with (length (firstn 2 (skipn 40 v))) at 1 by (rewrite length_take, length_drop; lia). apply be_bytes_be_val. }
    rewrite B8, B2, (take_ge (skipn _ (skipn 42 v)) 64) by (rewrite !length_drop; lia). rewrite <- Ec.
    change 42%nat with (40 + 2)%nat. rewrite <- drop_drop, take_drop. change 40%nat with (8 + 32)%nat.
    rewrite <- drop_drop, take_drop. symmetry. apply take_drop.
  - pose proof (be_val_lt (firstn 8 v)) as H. rewrite length_take in H. replace (8 `min` length v)%nat with 8%nat in H by lia.
    rewrite pow256_8 in H. lia.
Qed.

Lemma concat_ids_inj l k : Forall id_ok l -> Forall id_ok k -> concat l = concat k -> l = k.
Proof.
  intros Hl Hk E. assert (length l = length k).
  { apply (f_equal length) in E. rewrite !length_concat_ids in E by done. lia. }
  rewrite <- (slices_concat l []), <- (slices_concat k []) by done. congruence.
Qed.

(** The signed bytes name one group, one generation and one roster. *)
Lemma roster_payload_inj gid gen fps gid' gen' fps' :
  len gid <= u16_max -> len gid' <= u16_max -> gen <= u64_max -> gen' <= u64_max ->
  Forall id_ok fps -> Forall id_ok fps' ->
  roster_payload gid gen fps = roster_payload gid' gen' fps' -> gid = gid' /\ gen = gen' /\ fps = fps'.
Proof.
  intros Hg Hg' Hn Hn' Hf Hf' E. unfold roster_payload in E. apply (app_inj_1 _ _ _ _ eq_refl) in E as [_ E].
  apply app_inj_1 in E as [E1 E]; [|by rewrite !length_be_bytes].
  rewrite !as_u16_small in E1 by done. apply be_bytes_inj in E1; [|rewrite pow256_2; lia|rewrite pow256_2; lia].
  apply app_inj_1 in E as [-> E]; [|unfold len in E1; lia].
  apply app_inj_1 in E as [E2 E]; [|by rewrite !length_be_bytes].
  apply be_bytes_inj in E2; [|rewrite pow256_8; lia|rewrite pow256_8; lia].
  apply app_inj_1 in E as [_ E]; [|by rewrite !length_be_bytes]. split_and!; [done|done|]. by apply concat_ids_inj.
Qed.
End published.

(** * Role changes and their persistence *)

Section durability.
Context {C : Crypto}.

(** The native role transaction ([set_admin_pending_save]): validate, close the
    barrier, change and publish. *)
Definition set_admin_pending_save (post : bytes -> bool) (device : bytes) (admin : bool) (st : RolesState) : RolesState :=
  if negb (node_is_committer (ro_group st) (ro_device st)) then st
  else if admin && negb (contains_device (ro_group st) device) then st
  else snd (set_admin post device admin (require_admin_persistence st)).

(** A sealed snapshot of the roster and the group it is saved with. *)
Record RolesSaved := mkRolesSaved { rv_group : MlsGroup; rv_admins : list bytes; rv_gen : N }.
Definition save_of (st : RolesState) : RolesSaved := mkRolesSaved (ro_group st) (ro_admins st) (ro_gen st).

(** A node, the saves on their way to the disk in order, and the disk. *)
Record RolesNode := mkRolesNode { rn_state : RolesState; rn_pending : list RolesSaved; rn_disk : RolesSaved }.

(** Role transactions (their label), snapshots, their completion, confirmation of a generation
    some completed snapshot covers, commits of the group, and crashes. *)
Inductive roles_step : option (bytes * bool) -> RolesNode -> RolesNode -> Prop :=
| roles_txn st p d post device admin :
    ro_gen st < u64_max ->
    roles_step (Some (device, admin)) (mkRolesNode st p d) (mkRolesNode (set_admin_pending_save post device admin st) p d)
| roles_capture st p d : roles_step None (mkRolesNode st p d) (mkRolesNode st (p ++ [save_of st]) d)
| roles_complete st s p d : roles_step None (mkRolesNode st (s :: p) d) (mkRolesNode st p s)
| roles_confirm st p d generation :
    generation <= rv_gen d ->
    roles_step None (mkRolesNode st p d) (mkRolesNode (confirm_admin_persistence generation st) p d)
| roles_commit st p d g : roles_step None (mkRolesNode st p d) (mkRolesNode (roles_transition g st) p d)
| roles_crash st p d :
    roles_step None (mkRolesNode st p d) (mkRolesNode (roles_restore (rv_group d) (ro_device st) (rv_admins d) (rv_gen d)) [] d).

(** Every snapshot is of an older generation or still covers the roster. *)
Definition covered (st : RolesState) (s : RolesSaved) : Prop :=
  rv_gen s <= ro_gen st /\ (rv_gen s = ro_gen st -> ro_admins st ⊆ rv_admins s).

Record roles_ok (n : RolesNode) : Prop := mkRolesOk {
  rk_saves : Forall (covered (rn_state n)) (rn_disk n :: rn_pending n);
  rk_order : StronglySorted (fun a b => rv_gen a <= rv_gen b) (rn_disk n :: rn_pending n);
  rk_durable : ro_durable (rn_state n) = true -> rv_gen (rn_disk n) = ro_gen (rn_state n)
}.

Lemma filter_subseteq (f : bytes -> bool) (l : list bytes) : List.filter f l ⊆ l.
Proof. intros x Hx. apply list_elem_of_In, filter_In in Hx as [Hx _]. by apply list_elem_of_In. Qed.

(** A transaction either does nothing or moves to a fresh generation behind the barrier. *)
Lemma txn_cases post device admin st :
  ro_gen st < u64_max ->
  set_admin_pending_save post device admin st = st \/
  (ro_gen (set_admin_pending_save post device admin st) = ro_gen st + 1 /\
   ro_durable (set_admin_pending_save post device admin st) = false /\
   ro_admins (set_admin_pending_save post device admin st) =
     if admin then roster_insert device (ro_admins st) else roster_remove device (ro_admins st)).
Proof.
  intros Hg. unfold set_admin_pending_save, set_admin, publish_roster. cbn.
  destruct (node_is_committer _ _); cbn; [|by left].
  assert (E : sat_add u64_max (ro_gen st) 1 = ro_gen st + 1) by (unfold sat_add; lia).
  destruct admin; cbn.
  - destruct (contains_device _ _); cbn; [|by left]. right. by rewrite E.
  - right. by rewrite E.
Qed.

Lemma transition_admins g st : ro_admins (roles_transition g st) ⊆ ro_admins st.
Proof.
  unfold roles_transition. cbn. destruct (bool_decide _); [cbn; set_solver|]. apply filter_subseteq.
Qed.

Lemma covered_shrink st st' s :
  ro_gen st' = ro_gen st -> ro_admins st' ⊆ ro_admins st -> covered st s -> covered st' s.
Proof. intros Eg Ha [H1 H2]. split; [lia|]. intros E. rewrite Eg in E. specialize (H2 E). set_solver. Qed.

Lemma covered_newer st st' s : ro_gen st < ro_gen st' -> covered st s -> covered st' s.
Proof. intros Hlt [H1 H2]. split; lia. Qed.

Lemma roles_step_ok ev n n' : roles_ok n -> roles_step ev n n' -> roles_ok n'.
Proof.
  intros [Hs Ho Hd] H. destruct H as [st p d post device admin Hg|st p d|st s p d|st p d generation Hgen|st p d g|st p d]; cbn in *.
  - destruct (txn_cases post device admin st Hg) as [->|(Eg & Edur & _)]; [by constructor|].
    constructor; cbn; [|done|by rewrite Edur]. eapply Forall_impl; [exact Hs|]. intros s. apply covered_newer. lia.
  - constructor; cbn; [| |done].
    + rewrite app_comm_cons. apply Forall_app. split; [done|]. constructor; [|done]. by split.
    + rewrite app_comm_cons. apply StronglySorted_app_2; [|done|by repeat constructor].
      intros a b Ha Hb. apply list_elem_of_singleton in Hb as ->. rewrite Forall_forall in Hs. by apply Hs in Ha as [? _].
  - inversion_clear Hs as [|? ? Hd0 Hs']. inversion_clear Hs' as [|? ? Hs0 Hp]. inversion_clear Ho as [|? ? Ho' Hle]. inversion_clear Ho' as [|? ? Ho'' Hle'].
    constructor; cbn; [by constructor|by constructor|]. intros Hdur. specialize (Hd Hdur). inversion_clear Hle. destruct Hs0. lia.
  - unfold confirm_admin_persistence. destruct (N.eqb_spec generation (ro_gen st)) as [->|]; [|by constructor].
    constructor; cbn; [|done|].
    + eapply Forall_impl; [exact Hs|]. intros s. by apply covered_shrink.
    + intros _. inversion_clear Hs as [|? ? [? _] _]. lia.
  - constructor; cbn; [|done|done]. eapply Forall_impl; [exact Hs|]. intros s. apply covered_shrink; [done|apply transition_admins].
  - constructor; cbn; [|by repeat constructor|done]. constructor; [|done]. split; cbn; [done|]. intros _. apply filter_subseteq.
Qed.

Definition any_step (n n' : RolesNode) : Prop := exists ev, roles_step ev n n'.
(** The same steps without a grant to [d]. *)
Definition no_grant (d : bytes) (n n' : RolesNode) : Prop := exists ev, roles_step ev n n' /\ ev <> Some (d, true).

(** [d] is in no roster that could come back. *)
Definition forgotten (d : bytes) (n : RolesNode) : Prop :=
  (d ∉ ro_admins (rn_state n)) /\ Forall (fun s => d ∉ rv_admins s) (rn_disk n :: rn_pending n).

Lemma elem_of_filter_false (f : bytes -> bool) (l : list bytes) d : d ∉ l -> d ∉ List.filter f l.
Proof. intros H F. apply H. by apply filter_subseteq in F. Qed.

Lemma forgotten_step d n n' : forgotten d n -> no_grant d n n' -> forgotten d n'.
Proof.
  intros [Ha Hs] (ev & H & Hno). inversion_clear Hs as [|? ? Hd Hp].
  destruct H as [st p s post device admin Hg|st p s|st s' p s|st p s generation Hgen|st p s g|st p s]; cbn in *.
  - split; [|by constructor]. cbn. destruct (txn_cases post device admin st Hg) as [->|(_ & _ & ->)]; [done|].
    destruct admin; [|by apply elem_of_filter_false]. assert (Hne : d <> device) by congruence.
    unfold roster_insert. destruct (bool_decide _); [done|]. rewrite kinsert_perm. set_solver.
  - split; [done|]. cbn. rewrite app_comm_cons. apply Forall_app. split; [by constructor|]. by constructor.
  - split; [done|]. inversion_clear Hp. by constructor.
  - split; [|by constructor]. cbn. unfold confirm_admin_persistence. by destruct (_ =? _).
  - split; [|by constructor]. cbn. intros F. by apply (transition_admins g st) in F.
  - split; [|by constructor]. cbn. by apply elem_of_filter_false.
Qed.

Lemma committer_authorized st published device :
  node_is_committer (ro_group st) (ro_device st) = true -> inviter_is_authorized st published device = true ->
  contains_device (ro_group st) device = true /\
  exists owner, mls_designated_committer (ro_group st) = Some owner /\
    (owner = device \/ ro_durable st = true /\ device ∈ ro_admins st).
Proof.
  intros Hc. unfold inviter_is_authorized, authorizes_device. destruct (mls_designated_committer _) as [owner|]; [|done].
  destruct (contains_device _ _); [|done]. cbn [negb andb]. rewrite Hc. intros H. split; [done|]. exists owner. split; [done|].
  destruct (bool_decide (owner = device)) eqn:E; [apply bool_decide_eq_true in E; by left|]. apply bool_decide_eq_false in E.
  rewrite bool_decide_eq_false_2 in H by congruence. cbn [orb] in H. bool_simpl. by right.
Qed.
End durability.

(** * Properties *)

Section properties.
Context {C : Crypto}.

(** C19: delegated authority is durable. In every interleaving of role changes,
    snapshots, their completions, confirmations, commits and crashes, if the
    owner's node authorises a device other than the owner, that device is a
    current member and its grant is in the snapshot on disk, so no admission is
    made on a grant that a crash could forget. *)
Theorem delegated_authority_durable n n' published device
    (Hok : roles_ok n) (Hrun : rtc any_step n n')
    (Hown : node_is_committer (ro_group (rn_state n')) (ro_device (rn_state n')) = true)
    (Hauth : inviter_is_authorized (rn_state n') published device = true) :
  contains_device (ro_group (rn_state n')) device = true /\
  (mls_designated_committer (ro_group (rn_state n')) = Some device \/ device ∈ rv_admins (rn_disk n')).
Proof.
  assert (Hok' : roles_ok n').
  { clear Hown Hauth. induction Hrun as [|n m n' (ev & Hs) _ IH]; [done|]. by eapply IH, roles_step_ok. }
  destruct (committer_authorized _ _ _ Hown Hauth) as (Hm & owner & Eo & Hcase). split; [done|].
  destruct Hcase as [->|[Hdur Hin]]; [by left|right]. destruct Hok' as [Hs _ Hd]. specialize (Hd Hdur).
  inversion_clear Hs as [|? ? [_ Hcov] _]. by apply Hcov.
Qed.

(** C20: a revocation sticks. Once a device is in no roster that could come back
    (the node's, the disk's, a snapshot still being written), no run of role
    changes to others, commits, removals, re-additions and crashes authorises it
    again on the owner's node without a new grant, unless it becomes the owner
    itself. *)
Theorem revocation_sticks d n n' published
    (Hgone : forgotten d n) (Hrun : rtc (no_grant d) n n')
    (Hown : node_is_committer (ro_group (rn_state n')) (ro_device (rn_state n')) = true)
    (Hauth : inviter_is_authorized (rn_state n') published d = true) :
  mls_designated_committer (ro_group (rn_state n')) = Some d.
Proof.
  assert (Hgone' : forgotten d n').
  { clear Hown Hauth. induction Hrun as [|n m n' Hs _ IH]; [done|]. by eapply IH, forgotten_step. }
  destruct (committer_authorized _ _ _ Hown Hauth) as (_ & owner & Eo & [->|[_ Hin]]); [done|]. by destruct Hgone'.
Qed.

(** The published roster is exactly what the owner signed: a stored value
    reads as a roster if and only if it is the encoding of that ascending roster
    with a signature of the current owner over this group, that generation and
    that very list; the signed bytes determine all three. *)
Theorem published_roster_exact v gid owner fps :
  (read_published_roster v gid owner = Some fps <-> published_by gid owner fps v) /\
  (forall gen gid' gen' fps', len gid <= u16_max -> len gid' <= u16_max -> gen <= u64_max -> gen' <= u64_max ->
     Forall id_ok fps -> Forall id_ok fps' ->
     roster_payload gid gen fps = roster_payload gid' gen' fps' -> gid = gid' /\ gen = gen' /\ fps = fps').
Proof.
  split; [split; [apply published_inv|apply read_published]|]. intros. by eapply roster_payload_inj.
Qed.

(** Nobody joins without every authority agreeing. Whatever invite and key
    package arrive, if the node admits a member then it is the committer, the
    inviter is the owner or an admin in its durable roster and a current member
    that signed the invite, the invite carries the policy the node has pinned
    (for a pinned group: peer-to-peer, with the group's own body, already
    activated, and the committer on leaf zero), the key package stays valid for
    thirty more days and is bound to this invite, and the invite is spent; if it
    does not admit, the ledger is as it was. *)
Theorem admission_authorized {Outcome} parse range (add_member : MlsGroup -> MlsDevice -> KeyPackage -> option Outcome * MlsGroup)
    derive_key invite kp_bytes published now clock_ms n r n'
    (Hpol : state_ok (an_policy n)) (Hsame : ps_group (an_policy n) = ro_group (an_roles n))
    (Hrun : admit_now parse range add_member derive_key invite kp_bytes published now clock_ms n = (r, n')) :
  let g := ro_group (an_roles n) in
  match r with
  | Some _ =>
      node_is_committer g (ro_device (an_roles n)) = true /\
      contains_device g (it_inviter_device_id invite) = true /\
      (mls_designated_committer g = Some (it_inviter_device_id invite) \/
       ro_durable (an_roles n) = true /\ it_inviter_device_id invite ∈ ro_admins (an_roles n)) /\
      match ps_policy (an_policy n), it_policy invite with
      | None, None => True
      | Some pin, Some p => policy_digest p = policy_digest pin /\ policy_body pin = supported_body (mg_group_id g) /\
          ps_active (an_policy n) = true /\ designated_committer_index g = Some 0
      | _, _ => False
      end /\
      (exists kp, parse kp_bytes = Some kp /\ admitted_ok (mkAdmitted g invite kp now) /\
         sat_add u64_max clock_ms MIN_ADMITTED_KEY_PACKAGE_LIFETIME_MS <= kp_not_after kp * 1000) /\
      (it_invite_nonce invite ∉ il_consumed (an_ledger n)) /\ it_invite_nonce invite ∈ il_consumed (an_ledger n')
  | None => an_ledger n' = an_ledger n
  end.
Proof.
  cbv zeta. revert Hrun. unfold admit_now. cbv zeta.
  destruct (node_is_committer (ro_group (an_roles n)) (ro_device (an_roles n))) eqn:Hc; [|intros [= <- <-]; done]. cbn [negb orb].
  destruct (inviter_is_authorized _ _ _) eqn:Hauth; [|intros [= <- <-]; done]. cbn [negb].
  destruct (is_ok (policy_admission_ready _)) eqn:Hready; [|intros [= <- <-]; done]. cbn [negb].
  destruct (invite_policy_matches _ _) eqn:Hmatch; [|intros [= <- <-]; done]. cbn [negb].
  destruct (parse_admitted_key_package _ _ _ _) as [kp|] eqn:Hkp; [|intros [= <- <-]; done].
  destruct (add_member_via_invite _ _ _ _ _ _) as [[o|e] [g' l']] eqn:Hadd; intros [= <- <-];
    [|cbn; by apply refuse_keeps_ledger in Hadd].
  destruct (committer_authorized _ _ _ Hc Hauth) as (Hm & owner & Eo & Hcase).
  apply admit_inv in Hadd as (Had & Hfresh & _ & ->). cbn [an_ledger il_consumed].
  split_and!; [done|done| | | |done|set_solver].
  - destruct Hcase as [->|?]; [by left|by right].
  - unfold invite_policy_matches in Hmatch. destruct (ps_policy (an_policy n)) as [pin|] eqn:Epin, (it_policy invite) as [p|]; try done.
    pose proof (ss_pin _ Hpol) as Hp. rewrite Epin, Hsame in Hp. cbn in Hp. bool_simpl. split_and!; [done|by apply pin_ok_body| |].
    + revert Hready. unfold policy_admission_ready. rewrite Epin, (bool_decide_eq_true_2 (Some pin <> None)) by done. cbn [andb].
      by destruct (ps_active (an_policy n)).
    + revert Hready. unfold policy_admission_ready. rewrite Epin, (bool_decide_eq_true_2 (Some pin <> None)) by done. cbn [andb].
      destruct (ps_active (an_policy n)); [|done]. cbn. rewrite Hsame.
      destruct (bool_decide (designated_committer_index _ <> Some 0)) eqn:E; [done|]. by bool_simpl.
  - unfold parse_admitted_key_package in Hkp. apply bind_ok in Hkp as (kp' & Hparse & Hkp).
    destruct (parse kp_bytes) as [kp0|] eqn:E; [|done]. injection Hparse as ->. apply bind_ok in Hkp as ([] & Hlife%map_err_ok & Hkp).
    injection Hkp as ->. unfold check_admitted_lifetime in Hlife. res_inv. bool_simpl. exists kp. split_and!; [done|done|].
    unfold sat_mul in *. lia.
Qed.
End properties.

(** * Witnesses *)

Definition toy_pair_group : MlsGroup :=
  mkMlsGroup (bytes_of_string "g") 1 [mkMember 0 (be_bytes 32 65) []; mkMember 1 (be_bytes 32 66) []] true.
Definition toy_admin : bytes := device_id (C:=toy_crypto) (toy_device 66).
Definition toy_roles : RolesState := mkRolesState toy_pair_group (toy_device 65) [] true 0.
Definition toy_roles_start : RolesNode := mkRolesNode toy_roles [] (save_of toy_roles).
Definition toy_granted : RolesState := set_admin_pending_save (C:=toy_crypto) (fun _ => true) toy_admin true toy_roles.
Definition toy_roles_end : RolesNode :=
  mkRolesNode (confirm_admin_persistence 1 toy_granted) [] (save_of toy_granted).

Lemma toy_roles_start_ok : roles_ok toy_roles_start.
Proof. constructor; [by repeat constructor|by repeat constructor|done]. Qed.

Lemma toy_granted_gen : 1 <= rv_gen (save_of toy_granted).
Proof. vm_compute. discriminate. Qed.

Lemma toy_roles_run : rtc (any_step (C:=toy_crypto)) toy_roles_start toy_roles_end.
Proof.
  eapply rtc_l; [exists (Some (toy_admin, true)); exact (roles_txn (C:=toy_crypto) toy_roles [] (save_of toy_roles) (fun _ => true) toy_admin true eq_refl)|].
  fold toy_granted. eapply rtc_l; [exists None; apply (roles_capture (C:=toy_crypto))|]. cbn [app].
  eapply rtc_l; [exists None; apply (roles_complete (C:=toy_crypto))|].
  eapply rtc_l; [exists None; exact (roles_confirm (C:=toy_crypto) toy_granted [] (save_of toy_granted) 1 toy_granted_gen)|]. apply rtc_refl.
Qed.

Lemma toy_end_owner :
  node_is_committer (C:=toy_crypto) (ro_group (rn_state toy_roles_end)) (ro_device (rn_state toy_roles_end)) = true.
Proof. vm_compute. reflexivity. Qed.
Lemma toy_end_authorized : inviter_is_authorized (C:=toy_crypto) (rn_state toy_roles_end) None toy_admin = true.
Proof. vm_compute. reflexivity. Qed.

Lemma delegated_authority_durable_witness :
  contains_device (C:=toy_crypto) (ro_group (rn_state toy_roles_end)) toy_admin = true.
Proof.
  exact (proj1 (delegated_authority_durable (C:=toy_crypto) toy_roles_start toy_roles_end None toy_admin
    toy_roles_start_ok toy_roles_run toy_end_owner toy_end_authorized)).
Defined.

Definition toy_roles_owner : bytes := device_id (C:=toy_crypto) (toy_device 65).
Lemma toy_owner_forgotten : forgotten toy_roles_owner toy_roles_start.
Proof. split; [apply not_elem_of_nil|]. repeat constructor. apply not_elem_of_nil. Qed.
Lemma toy_start_owner :
  node_is_committer (C:=toy_crypto) (ro_group (rn_state toy_roles_start)) (ro_device (rn_state toy_roles_start)) = true.
Proof. vm_compute. reflexivity. Qed.
Lemma toy_owner_authorized : inviter_is_authorized (C:=toy_crypto) (rn_state toy_roles_start) None toy_roles_owner = true.
Proof. vm_compute. reflexivity. Qed.
(** A commit and a crash, without any grant. *)
Lemma toy_quiet_run : rtc (no_grant (C:=toy_crypto) toy_roles_owner) toy_roles_start toy_roles_start.
Proof.
  eapply rtc_l; [exists None; split; [exact (roles_commit (C:=toy_crypto) toy_roles [] (save_of toy_roles) toy_policy_group)|discriminate]|].
  eapply rtc_l; [exists None; split; [apply (roles_crash (C:=toy_crypto))|discriminate]|]. apply rtc_refl.
Qed.

Lemma revocation_sticks_witness :
  mls_designated_committer (C:=toy_crypto) (ro_group (rn_state toy_roles_start)) = Some toy_roles_owner.
Proof.
  exact (revocation_sticks (C:=toy_crypto) toy_roles_owner toy_roles_start toy_roles_start None toy_owner_forgotten toy_quiet_run
    toy_start_owner toy_owner_authorized).
Defined.

Definition toy_long_joiner : KeyPackage := mkKeyPackage (kp_identity toy_joiner) (kp_leaf_key toy_joiner) 0 3000000.
Definition toy_roles_derive (c m : bytes) : bytes := replicate 32 x00.
Definition toy_admit_node : AdmitNode :=
  mkAdmitNode toy_policy_state (mkRolesState toy_policy_group (toy_device 65) [] true 0) InviteLedger_new
    (tenure_new (C:=toy_crypto) toy_roles_derive toy_policy_group).
Definition toy_admit := admit_now (C:=toy_crypto) (fun _ => Some toy_long_joiner) (fun _ _ => true) toy_add toy_roles_derive
  toy_token [] None 5 5 toy_admit_node.

Lemma toy_admit_ok : toy_admit = (Some tt, toy_admit.2).
Proof. vm_compute. reflexivity. Qed.

Lemma admission_authorized_witness : it_invite_nonce toy_token ∈ il_consumed (an_ledger toy_admit.2).
Proof.
  exact (proj2 (proj2 (proj2 (proj2 (proj2 (proj2
    (admission_authorized (C:=toy_crypto) (fun _ => Some toy_long_joiner) (fun _ _ => true) toy_add toy_roles_derive toy_token [] None 5 5
      toy_admit_node (Some tt) toy_admit.2 toy_policy_state_ok eq_refl toy_admit_ok))))))).
Defined.
