(* ===== verification/Receipt.v ===== *)
(** Owner receipts of [crates/catcoms-replication/src/epoch.rs]:
    [InheritedCheckpoint], [Receipt], [VerifiedReceipt] and
    [ReceiptHeadProof], with their transcripts, signatures, verification and
    wire codecs. *)

From S2P Require Import Prelude Wire Context Crypto Codec EpochBase Authority.
From stdpp Require Import base list.
From Stdlib Require Import Init.Byte.
Local Open Scope N_scope.

(** * Signed envelopes

    Every signed record is [put_bytes(unsigned), put_bytes(signature)]. *)

Definition envelope (unsigned signature : bytes) : bytes :=
  [] |> put_bytes_x unsigned |> put_bytes_x signature.

Definition read_envelope : dec ReplError (bytes * bytes) :=
  unsigned ← mal get_bytes;
  signature ← get_fixed 64;
  mret (unsigned, signature).

(** [owner.sign(..)?] *)
Definition sign_with (dev : MlsDevice) (msg : bytes) : result ReplError bytes :=
  ok_or (device_sign dev msg) Mls.

(** * Inherited checkpoints *)

Inductive InheritedCheckpoint : Type :=
| EpochZero
| Checkpoint (epoch : N) (close_record_hash seed_change_hash : bytes).

#[global] Instance InheritedCheckpoint_eq_dec : EqDecision InheritedCheckpoint.
Proof. solve_decision. Defined.

Definition inherited_encode_into (i : InheritedCheckpoint) (e : bytes) : bytes :=
  match i with
  | EpochZero => e |> put_u64 0 |> put_optional_hash None |> put_optional_hash None
  | Checkpoint epoch close seed =>
      e |> put_u64 epoch |> put_optional_hash (Some close) |> put_optional_hash (Some seed)
  end.

Definition inherited_decode_from : dec ReplError InheritedCheckpoint :=
  epoch ← mal get_u64;
  close ← get_optional_hash;
  seed ← get_optional_hash;
  dec_lift
    match close, seed with
    | None, None => if epoch =? 0 then Ok EpochZero else Err Malformed
    | Some c, Some s => if 0 <? epoch then Ok (Checkpoint epoch c s) else Err Malformed
    | _, _ => Err Malformed
    end.

Definition inherited_epoch (i : InheritedCheckpoint) : N :=
  match i with EpochZero => 0 | Checkpoint epoch _ _ => epoch end.

(** * Receipts *)

Record Receipt := mkReceipt {
  r_document : LogicalDocument;
  r_closed_epoch : N;
  r_close_record_hash : bytes;
  r_seed_change_hash : bytes;
  r_tenure_start_group_epoch : N;
  r_tenure_id : bytes;
  r_inherited : InheritedCheckpoint;
  r_owner_public_key : bytes;
  r_signature : bytes
}.

#[global] Instance Receipt_eq_dec : EqDecision Receipt.
Proof. solve_decision. Defined.

Record VerifiedReceipt := mkVerifiedReceipt {
  vr_document : LogicalDocument;
  vr_closed_epoch : N;
  vr_close_record_hash : bytes;
  vr_receipt_hash : bytes;
  vr_seed_change_hash : bytes
}.

Definition Receipt_unsigned_bytes (r : Receipt) : bytes :=
  [] |> put_u8 1
     |> put_document (r_document r)
     |> put_u64 (r_closed_epoch r)
     |> put_hash (r_close_record_hash r)
     |> put_hash (r_seed_change_hash r)
     |> put_u64 (r_tenure_start_group_epoch r)
     |> put_hash (r_tenure_id r)
     |> inherited_encode_into (r_inherited r)
     |> put_bytes_x (r_owner_public_key r).

Definition Receipt_encode (r : Receipt) : bytes :=
  envelope (Receipt_unsigned_bytes r) (r_signature r).

(** The fields read from the unsigned transcript, with the given signature. *)
Definition Receipt_read (signature : bytes) : dec ReplError Receipt :=
  version ← mal get_u8;
  _ ← dec_refuse (negb (version =? 1)) Malformed;
  document ← get_document;
  closed_epoch ← mal get_u64;
  close_record_hash ← get_fixed 32;
  seed_change_hash ← get_fixed 32;
  start ← mal get_u64;
  tenure ← get_fixed 32;
  inherited ← inherited_decode_from;
  key ← mal get_bytes;
  mret (mkReceipt document closed_epoch close_record_hash seed_change_hash start tenure
          inherited key signature).

Section receipts.
Context {C : Crypto}.

Definition Receipt_signature_hash (r : Receipt) : bytes :=
  hash_parts (bytes_of_string "catcoms-receipt-sig:v1") [Receipt_unsigned_bytes r].

Definition Receipt_hash (r : Receipt) : bytes :=
  hash_parts (bytes_of_string "catcoms-receipt:v1") [Receipt_unsigned_bytes r; r_signature r].

Definition receipt_tenure_id (r : Receipt) : bytes :=
  tenure_id_of (server_id (r_document r)) (r_owner_public_key r) (r_tenure_start_group_epoch r).

Definition with_signature (r : Receipt) (s : bytes) : Receipt :=
  mkReceipt (r_document r) (r_closed_epoch r) (r_close_record_hash r) (r_seed_change_hash r)
    (r_tenure_start_group_epoch r) (r_tenure_id r) (r_inherited r) (r_owner_public_key r) s.

Definition Receipt_sign (document : LogicalDocument) (closed_epoch : N)
    (close_record_hash seed_change_hash : bytes) (tenure_start_group_epoch : N)
    (inherited : InheritedCheckpoint) (owner : MlsDevice) : result ReplError Receipt :=
  _ ← refuse_if ((closed_epoch =? u64_max) || (closed_epoch <? inherited_epoch inherited))
        EpochScope;
  let key := public_key_bytes owner in
  let r := mkReceipt document closed_epoch close_record_hash seed_change_hash
             tenure_start_group_epoch
             (tenure_id_of (server_id document) key tenure_start_group_epoch)
             inherited key (replicate 64 x00) in
  s ← sign_with owner (Receipt_signature_hash r);
  let r := with_signature r s in
  _ ← refuse_if (MAX_RECEIPT_BYTES <? len (Receipt_encode r)) EpochBound;
  mret r.

Definition Receipt_verify_signature_only (r : Receipt) : result ReplError unit :=
  _ ← refuse_if ((MAX_SERVER_ID_BYTES <? len (server_id (r_document r)))
                 || (MAX_LOGICAL_KEY_BYTES <? len (logical_key (r_document r)))
                 || negb (len (r_owner_public_key r) =? 32)) EpochBound;
  _ ← refuse_if (bool_decide (r_tenure_id r <> receipt_tenure_id r)
                 || (r_closed_epoch r =? u64_max)
                 || (r_closed_epoch r <? inherited_epoch (r_inherited r))
                 || negb (verify_with_public_bytes (r_owner_public_key r)
                            (Receipt_signature_hash r) (r_signature r))) EpochAuthority;
  mret tt.

Definition restore_verified_from_vault (r : Receipt) : result ReplError VerifiedReceipt :=
  _ ← Receipt_verify_signature_only r;
  mret (mkVerifiedReceipt (r_document r) (r_closed_epoch r) (r_close_record_hash r)
          (Receipt_hash r) (r_seed_change_hash r)).

Definition Receipt_verify_current_owner {G} `{OwnerAuthority G} (r : Receipt) (group : G)
    (expected_tenure_start_group_epoch : N) : result ReplError VerifiedReceipt :=
  _ ← refuse_if (bool_decide (server_id (r_document r) <> group_id group)) EpochScope;
  let owner := from_public_key_bytes (r_owner_public_key r) in
  _ ← refuse_if (negb (is_current_owner group owner (r_owner_public_key r))
                 || negb (r_tenure_start_group_epoch r =? expected_tenure_start_group_epoch)
                 || (group_epoch group <? r_tenure_start_group_epoch r)) EpochAuthority;
  restore_verified_from_vault r.

Definition Receipt_decode (input : bytes) : result ReplError Receipt :=
  _ ← refuse_if (MAX_RECEIPT_BYTES <? len input) EpochBound;
  p ← run_exact read_envelope input;
  r ← run_exact (Receipt_read p.2) p.1;
  _ ← refuse_if (negb (len (r_owner_public_key r) =? 32)
                 || bool_decide (r_tenure_id r <> receipt_tenure_id r)) Malformed;
  _ ← refuse_if ((r_closed_epoch r =? u64_max)
                 || (r_closed_epoch r <? inherited_epoch (r_inherited r))
                 || bool_decide (Receipt_encode r <> input)) Malformed;
  mret r.
End receipts.

(** * Envelope lemmas *)

Lemma envelope_eq u s : envelope u s = lp u ++ lp s.
Proof. unfold envelope. by rewrite !put_bytes_x_lp. Qed.

Lemma reads_envelope u s :
  len u <= u32_max -> length s = 64%nat -> reads read_envelope (envelope u s) (u, s).
Proof.
  intros Hu Hs. rewrite envelope_eq. unfold read_envelope. reads_go.
  - by apply reads_mal, reads_bytes.
  - by apply reads_fixed.
Qed.

Lemma consumes_envelope :
  consumes read_envelope (fun p bs =>
    bs = envelope p.1 p.2 /\ len p.1 <= u32_max /\ length p.2 = 64%nat).
Proof.
  intros d p d' H. unfold read_envelope in H. dec_step H.
  destruct Hr as [-> Hu], Hr0 as [-> Hs]. exists (envelope v v0). cbn [fst snd].
  rewrite envelope_eq. split; [|done]. by rewrite R, R0, <- app_assoc.
Qed.

Lemma sign_with_ok dev m s : sign_with dev m = Ok s <-> device_sign dev m = Some s.
Proof. unfold sign_with, ok_or. destruct (device_sign dev m); naive_solver. Qed.

(** * Inherited-checkpoint lemmas *)

Definition inherited_ok (i : InheritedCheckpoint) : Prop :=
  match i with
  | EpochZero => True
  | Checkpoint epoch c s =>
      0 < epoch <= u64_max /\ length c = 32%nat /\ length s = 32%nat
  end.

Definition inherited_bytes (i : InheritedCheckpoint) : bytes :=
  match i with
  | EpochZero => be_bytes 8 0 ++ opt_bytes lp None ++ opt_bytes lp None
  | Checkpoint epoch c s => be_bytes 8 epoch ++ opt_bytes lp (Some c) ++ opt_bytes lp (Some s)
  end.

Lemma inherited_encode_eq i e : inherited_encode_into i e = e ++ inherited_bytes i.
Proof.
  destruct i; unfold inherited_encode_into, inherited_bytes, put_u64;
    rewrite !put_optional_hash_eq; by rewrite <- !app_assoc.
Qed.

Lemma reads_inherited i : inherited_ok i -> reads inherited_decode_from (inherited_bytes i) i.
Proof.
  intros H. unfold inherited_decode_from, inherited_bytes.
  destruct i as [|epoch c s]; [|destruct H as ((Hp & Hm) & Hc & Hs)]; reads_go.
  - apply reads_mal, reads_u64, N.le_0_l.
  - by apply reads_optional_hash.
  - by apply reads_optional_hash.
  - by apply reads_lift_ok.
  - by apply reads_mal, reads_u64.
  - by apply reads_optional_hash.
  - by apply reads_optional_hash.
  - apply reads_lift_ok. by rewrite (proj2 (N.ltb_lt _ _) Hp).
Qed.

Lemma consumes_inherited :
  consumes inherited_decode_from (fun i bs => bs = inherited_bytes i /\ inherited_ok i).
Proof.
  intros d i d' H. unfold inherited_decode_from in H. dec_step H.
  destruct Hr as [-> Hu], Hr0 as [-> Hc], Hr1 as [-> Hs].
  exists (be_bytes 8 v ++ opt_bytes lp v0 ++ opt_bytes lp v1).
  split; [by rewrite R, R0, R1, <- !app_assoc|].
  destruct v0 as [c|], v1 as [s|]; try done; cbn in Hc, Hs.
  - destruct (N.ltb_spec 0 v); [|done]. injection H as <-. split; [done|]. split_and!; done.
  - destruct (N.eqb_spec v 0) as [->|]; [|done]. injection H as <-. done.
Qed.
#[export] Hint Resolve consumes_inherited : mewtual_dec.

Lemma len_inherited i : inherited_ok i -> len (inherited_bytes i) <= 82.
Proof.
  destruct i as [|epoch c s]; cbn [inherited_ok inherited_bytes]; autorewrite with mewtual_len; [lia|].
  intros (_ & Hc & Hs). unfold len. rewrite Hc, Hs. lia.
Qed.

(** * Receipt lemmas *)

Definition Receipt_body (r : Receipt) : bytes :=
  be_bytes 1 1 ++ document_bytes (r_document r) ++ be_bytes 8 (r_closed_epoch r) ++
  lp (r_close_record_hash r) ++ lp (r_seed_change_hash r) ++
  be_bytes 8 (r_tenure_start_group_epoch r) ++ lp (r_tenure_id r) ++
  inherited_bytes (r_inherited r) ++ lp (r_owner_public_key r).

Lemma Receipt_unsigned_eq r : Receipt_unsigned_bytes r = Receipt_body r.
Proof.
  unfold Receipt_unsigned_bytes, Receipt_body, put_u8, put_u64.
  rewrite put_bytes_x_lp, inherited_encode_eq, !put_hash_eq, put_document_eq.
  by rewrite <- !app_assoc.
Qed.

(** The field lengths and ranges of the Rust types, and a bounded document. *)
Record receipt_fields_ok (r : Receipt) : Prop := {
  rf_document : document_ok (r_document r);
  rf_closed : r_closed_epoch r <= u64_max;
  rf_close : length (r_close_record_hash r) = 32%nat;
  rf_seed : length (r_seed_change_hash r) = 32%nat;
  rf_start : r_tenure_start_group_epoch r <= u64_max;
  rf_tenure : length (r_tenure_id r) = 32%nat;
  rf_inherited : inherited_ok (r_inherited r);
  rf_key : length (r_owner_public_key r) = 32%nat;
  rf_signature : length (r_signature r) = 64%nat
}.

Lemma len_of_length {A} (l : list A) n : length l = n -> len l = N.of_nat n.
Proof. unfold len. by intros ->. Qed.

Lemma len_Receipt_body r : receipt_fields_ok r -> len (Receipt_body r) <= 705.
Proof.
  intros []. unfold Receipt_body. autorewrite with mewtual_len.
  pose proof (document_len _ rf_document0). pose proof (len_inherited _ rf_inherited0).
  rewrite (len_of_length _ _ rf_close0), (len_of_length _ _ rf_seed0),
    (len_of_length _ _ rf_tenure0), (len_of_length _ _ rf_key0). lia.
Qed.

Lemma len_Receipt_encode r : receipt_fields_ok r -> len (Receipt_encode r) <= 777.
Proof.
  intros H. unfold Receipt_encode. rewrite envelope_eq, Receipt_unsigned_eq.
  autorewrite with mewtual_len. pose proof (len_Receipt_body r H). destruct H.
  rewrite (len_of_length _ _ rf_signature0). lia.
Qed.

Lemma reads_Receipt r :
  receipt_fields_ok r -> reads (Receipt_read (r_signature r)) (Receipt_body r) r.
Proof.
  intros []. unfold Receipt_read, Receipt_body. destruct r; cbn in *. reads_go.
  - by apply reads_mal, reads_u8.
  - done.
  - by apply reads_document.
  - by apply reads_mal, reads_u64.
  - by apply reads_fixed.
  - by apply reads_fixed.
  - by apply reads_mal, reads_u64.
  - by apply reads_fixed.
  - by apply reads_inherited.
  - apply reads_mal, reads_bytes. by apply (len_u32_of_length _ 32).
Qed.

(** What the transcript reader establishes; the key's length is checked later. *)
Lemma consumes_Receipt s :
  length s = 64%nat ->
  consumes (Receipt_read s) (fun r bs => bs = Receipt_body r /\ r_signature r = s /\
    (length (r_owner_public_key r) = 32%nat -> receipt_fields_ok r)).
Proof.
  intros Hs d r d' H. unfold Receipt_read in H. dec_step H. bool_simpl. subst.
  destruct Hr as [-> _], Hr1 as [-> ?], Hr2 as [-> ?], Hr3 as [-> ?], Hr4 as [-> ?],
    Hr5 as [-> ?], Hr6 as [-> ?], Hr7 as [-> ?], Hr8 as [-> _].
  eexists; split_and!; [|reflexivity|done|by intros; constructor].
  unfold Receipt_body; cbn. rewrite R, R0, R1, R2, R3, R4, R5, R6, R7. by rewrite <- !app_assoc.
Qed.

Section lemmas.
Context {C : Crypto}.

(** What the receipt decoder accepts. *)
Definition receipt_canonical (r : Receipt) : Prop :=
  receipt_fields_ok r /\ r_tenure_id r = receipt_tenure_id r /\
  r_closed_epoch r <> u64_max /\ inherited_epoch (r_inherited r) <= r_closed_epoch r.

Lemma Receipt_decode_spec bs r :
  Receipt_decode bs = Ok r <-> receipt_canonical r /\ Receipt_encode r = bs.
Proof.
  unfold Receipt_decode. split.
  - intros H. res_inv. bool_simpl. destruct a as [u s]; cbn [fst snd] in *.
    destruct (run_exact_consumes _ _ _ _ Ha consumes_envelope) as (-> & _ & Hs); cbn in *.
    destruct (run_exact_consumes _ _ _ _ Ha0 (consumes_Receipt s Hs)) as (-> & _ & Hf).
    split; [|done]. split_and!; try done. apply Hf. unfold len in *. lia.
  - intros [(Hf & Ht & Hm & Hi) <-]. pose proof (len_Receipt_encode r Hf) as Hl.
    rewrite refuse_if_bind_false by (apply N.ltb_ge; unfold MAX_RECEIPT_BYTES; lia).
    pose proof (len_Receipt_body r Hf) as Hb.
    assert (He : run_exact read_envelope (Receipt_encode r)
                 = Ok (Receipt_unsigned_bytes r, r_signature r)).
    { apply run_exact_reads, reads_envelope; [|by destruct Hf].
      rewrite Receipt_unsigned_eq. unfold u32_max. lia. }
    rewrite He, bind_Ok. cbn [fst snd]. rewrite Receipt_unsigned_eq.
    rewrite (run_exact_reads _ _ _ (reads_Receipt r Hf)), bind_Ok.
    rewrite refuse_if_bind_false; cycle 1.
    { apply orb_false_iff. split; [|by apply bool_decide_eq_false_2; intros []].
      apply negb_false_iff, N.eqb_eq. destruct Hf. by apply (len_of_length _ 32). }
    rewrite refuse_if_bind_false; [done|].
    rewrite !orb_false_iff. split_and!.
    + by apply N.eqb_neq.
    + by apply N.ltb_ge.
    + apply bool_decide_eq_false_2. by intros [].
Qed.

Lemma Receipt_body_signature r s : Receipt_body (with_signature r s) = Receipt_body r.
Proof. done. Qed.

Lemma Receipt_signature_hash_with r s :
  Receipt_signature_hash (with_signature r s) = Receipt_signature_hash r.
Proof. done. Qed.

Lemma Receipt_verify_signature_only_ok r :
  Receipt_verify_signature_only r = Ok tt <->
  len (server_id (r_document r)) <= MAX_SERVER_ID_BYTES /\
  len (logical_key (r_document r)) <= MAX_LOGICAL_KEY_BYTES /\
  len (r_owner_public_key r) = 32 /\
  r_tenure_id r = receipt_tenure_id r /\ r_closed_epoch r <> u64_max /\
  inherited_epoch (r_inherited r) <= r_closed_epoch r /\
  verify_with_public_bytes (r_owner_public_key r) (Receipt_signature_hash r) (r_signature r) = true.
Proof.
  unfold Receipt_verify_signature_only. split.
  - intros H. res_inv. bool_simpl. by split_and!.
  - intros (H1 & H2 & H3 & H4 & H5 & H6 & H7).
    rewrite refuse_if_bind_false.
    + rewrite refuse_if_bind_false; [done|]. rewrite !orb_false_iff. split_and!.
      * apply bool_decide_eq_false_2. by intros [].
      * by apply N.eqb_neq.
      * by apply N.ltb_ge.
      * by rewrite H7.
    + rewrite !orb_false_iff. split_and!; [by apply N.ltb_ge .. |].
      apply negb_false_iff. by apply N.eqb_eq.
Qed.

Lemma restore_verified_ok r v :
  restore_verified_from_vault r = Ok v <->
  Receipt_verify_signature_only r = Ok tt /\
  v = mkVerifiedReceipt (r_document r) (r_closed_epoch r) (r_close_record_hash r)
        (Receipt_hash r) (r_seed_change_hash r).
Proof.
  unfold restore_verified_from_vault. split.
  - intros H. res_inv. by destruct a.
  - by intros [-> ->].
Qed.

Lemma Receipt_verify_current_owner_ok {G} `{OwnerAuthority G} r (g : G) t v :
  Receipt_verify_current_owner r g t = Ok v <->
  server_id (r_document r) = group_id g /\
  is_current_owner g (from_public_key_bytes (r_owner_public_key r)) (r_owner_public_key r) = true /\
  r_tenure_start_group_epoch r = t /\ r_tenure_start_group_epoch r <= group_epoch g /\
  restore_verified_from_vault r = Ok v.
Proof.
  unfold Receipt_verify_current_owner. split.
  - intros H'. res_inv. bool_simpl. by split_and!.
  - intros (H1 & H2 & H3 & H4 & H5).
    rewrite refuse_if_bind_false by (apply bool_decide_eq_false_2; by intros []).
    rewrite refuse_if_bind_false; [done|]. rewrite H2, !orb_false_iff. split_and!; [done | |].
    + apply negb_false_iff. by apply N.eqb_eq.
    + by apply N.ltb_ge.
Qed.

Lemma Receipt_sign_ok document closed close seed start inherited owner r :
  Receipt_sign document closed close seed start inherited owner = Ok r ->
  closed <> u64_max /\ inherited_epoch inherited <= closed /\
  exists s, device_sign owner (Receipt_signature_hash r) = Some s /\
    r = mkReceipt document closed close seed start
          (tenure_id_of (server_id document) (public_key_bytes owner) start)
          inherited (public_key_bytes owner) s.
Proof.
  unfold Receipt_sign. intros H. res_inv. bool_simpl. apply sign_with_ok in Ha.
  split_and!; [done..|]. exists a. by split.
Qed.
End lemmas.

(** * Head proofs *)

Record ReceiptHeadProof := mkReceiptHeadProof {
  hp_document : LogicalDocument;
  hp_receipt_hash : bytes;
  hp_tenure_start_group_epoch : N;
  hp_requester : bytes;
  hp_request_nonce : bytes;
  hp_owner_public_key : bytes;
  hp_signature : bytes
}.

#[global] Instance ReceiptHeadProof_eq_dec : EqDecision ReceiptHeadProof.
Proof. solve_decision. Defined.

Definition HeadProof_unsigned_bytes (p : ReceiptHeadProof) : bytes :=
  [] |> put_u8 1
     |> put_document (hp_document p)
     |> put_hash (hp_receipt_hash p)
     |> put_u64 (hp_tenure_start_group_epoch p)
     |> put_bytes_x (hp_requester p)
     |> put_bytes_x (hp_request_nonce p)
     |> put_bytes_x (hp_owner_public_key p).

Definition HeadProof_encode (p : ReceiptHeadProof) : bytes :=
  envelope (HeadProof_unsigned_bytes p) (hp_signature p).

Definition HeadProof_read (signature : bytes) : dec ReplError ReceiptHeadProof :=
  version ← mal get_u8;
  _ ← dec_refuse (negb (version =? 1)) Malformed;
  document ← get_document;
  receipt_hash ← get_fixed 32;
  start ← mal get_u64;
  requester ← get_fixed 32;
  nonce ← get_fixed 16;
  key ← mal get_bytes;
  mret (mkReceiptHeadProof document receipt_hash start requester nonce key signature).

Definition HeadProof_decode (input : bytes) : result ReplError ReceiptHeadProof :=
  _ ← refuse_if (MAX_RECEIPT_BYTES <? len input) EpochBound;
  e ← run_exact read_envelope input;
  p ← run_exact (HeadProof_read e.2) e.1;
  _ ← refuse_if (negb (len (hp_owner_public_key p) =? 32)
                 || bool_decide (HeadProof_encode p <> input)) Malformed;
  mret p.

Section head_proofs.
Context {C : Crypto}.

Definition HeadProof_signature_hash (p : ReceiptHeadProof) : bytes :=
  hash_parts (bytes_of_string "catcoms-receipt-head-proof-sig:v1") [HeadProof_unsigned_bytes p].

Definition HeadProof_sign (receipt : Receipt) (requester request_nonce : bytes)
    (owner : MlsDevice) : result ReplError ReceiptHeadProof :=
  _ ← refuse_if (bool_decide (r_owner_public_key receipt <> public_key_bytes owner)) EpochAuthority;
  let proof s := mkReceiptHeadProof (r_document receipt) (Receipt_hash receipt)
                   (r_tenure_start_group_epoch receipt) requester request_nonce
                   (public_key_bytes owner) s in
  s ← sign_with owner (HeadProof_signature_hash (proof (replicate 64 x00)));
  _ ← refuse_if (MAX_RECEIPT_BYTES <? len (HeadProof_encode (proof s))) EpochBound;
  mret (proof s).

Definition HeadProof_verify (p : ReceiptHeadProof) (group : ServerGroup) (receipt : Receipt)
    (expected_requester expected_nonce : bytes) : result ReplError VerifiedReceipt :=
  let owner := from_public_key_bytes (hp_owner_public_key p) in
  _ ← refuse_if
        (bool_decide (hp_document p <> r_document receipt)
         || bool_decide (server_id (hp_document p) <> group_id group)
         || bool_decide (hp_receipt_hash p <> Receipt_hash receipt)
         || negb (hp_tenure_start_group_epoch p =? r_tenure_start_group_epoch receipt)
         || bool_decide (hp_requester p <> expected_requester)
         || bool_decide (hp_request_nonce p <> expected_nonce)
         || bool_decide (hp_owner_public_key p <> r_owner_public_key receipt)
         || negb (is_current_owner group owner (hp_owner_public_key p))
         || negb (verify_with_public_bytes (hp_owner_public_key p)
                    (HeadProof_signature_hash p) (hp_signature p))) EpochAuthority;
  Receipt_verify_current_owner receipt group (hp_tenure_start_group_epoch p).
End head_proofs.

Definition HeadProof_body (p : ReceiptHeadProof) : bytes :=
  be_bytes 1 1 ++ document_bytes (hp_document p) ++ lp (hp_receipt_hash p) ++
  be_bytes 8 (hp_tenure_start_group_epoch p) ++ lp (hp_requester p) ++
  lp (hp_request_nonce p) ++ lp (hp_owner_public_key p).

Lemma HeadProof_unsigned_eq p : HeadProof_unsigned_bytes p = HeadProof_body p.
Proof.
  unfold HeadProof_unsigned_bytes, HeadProof_body, put_u8, put_u64.
  rewrite put_hash_eq, put_document_eq, !put_bytes_x_lp. by rewrite <- !app_assoc.
Qed.

Record head_proof_ok (p : ReceiptHeadProof) : Prop := {
  ho_document : document_ok (hp_document p);
  ho_hash : length (hp_receipt_hash p) = 32%nat;
  ho_start : hp_tenure_start_group_epoch p <= u64_max;
  ho_requester : length (hp_requester p) = 32%nat;
  ho_nonce : length (hp_request_nonce p) = 16%nat;
  ho_key : length (hp_owner_public_key p) = 32%nat;
  ho_signature : length (hp_signature p) = 64%nat
}.

Lemma len_HeadProof_body p : head_proof_ok p -> len (HeadProof_body p) <= 595.
Proof.
  intros []. unfold HeadProof_body. autorewrite with mewtual_len.
  pose proof (document_len _ ho_document0).
  rewrite (len_of_length _ _ ho_hash0), (len_of_length _ _ ho_requester0),
    (len_of_length _ _ ho_nonce0), (len_of_length _ _ ho_key0). lia.
Qed.

Lemma reads_HeadProof p :
  head_proof_ok p -> reads (HeadProof_read (hp_signature p)) (HeadProof_body p) p.
Proof.
  intros []. unfold HeadProof_read, HeadProof_body. destruct p; cbn in *. reads_go.
  - by apply reads_mal, reads_u8.
  - done.
  - by apply reads_document.
  - by apply reads_fixed.
  - by apply reads_mal, reads_u64.
  - by apply reads_fixed.
  - by apply reads_fixed.
  - apply reads_mal, reads_bytes. by apply (len_u32_of_length _ 32).
Qed.

Lemma consumes_HeadProof s :
  length s = 64%nat ->
  consumes (HeadProof_read s) (fun p _ =>
    length (hp_owner_public_key p) = 32%nat -> head_proof_ok p).
Proof.
  intros Hs d p d' H. unfold HeadProof_read in H. dec_step H. bool_simpl. subst.
  destruct Hr as [-> _], Hr1 as [-> ?], Hr2 as [-> ?], Hr3 as [-> ?], Hr4 as [-> ?],
    Hr5 as [-> ?], Hr6 as [-> _].
  eexists; split; [|by intros; constructor].
  rewrite R, R0, R1, R2, R3, R4, R5. rewrite !app_assoc. reflexivity.
Qed.

Lemma HeadProof_decode_spec bs p :
  HeadProof_decode bs = Ok p <-> head_proof_ok p /\ HeadProof_encode p = bs.
Proof.
  unfold HeadProof_decode. split.
  - intros H. res_inv. bool_simpl. destruct a as [u s]; cbn [fst snd] in *.
    destruct (run_exact_consumes _ _ _ _ Ha consumes_envelope) as (-> & _ & Hs); cbn in *.
    pose proof (run_exact_consumes _ _ _ _ Ha0 (consumes_HeadProof s Hs)) as Hf; cbn in Hf.
    split; [|done]. apply Hf. unfold len in *. lia.
  - intros [Hf <-]. pose proof (len_HeadProof_body p Hf) as Hb.
    assert (Hl : len (HeadProof_encode p) <= 667).
    { unfold HeadProof_encode. rewrite envelope_eq, HeadProof_unsigned_eq.
      autorewrite with mewtual_len. destruct Hf. rewrite (len_of_length _ _ ho_signature0). lia. }
    rewrite refuse_if_bind_false by (apply N.ltb_ge; unfold MAX_RECEIPT_BYTES; lia).
    assert (He : run_exact read_envelope (HeadProof_encode p)
                 = Ok (HeadProof_unsigned_bytes p, hp_signature p)).
    { apply run_exact_reads, reads_envelope; [|by destruct Hf].
      rewrite HeadProof_unsigned_eq. unfold u32_max. lia. }
    rewrite He, bind_Ok. cbn [fst snd]. rewrite HeadProof_unsigned_eq.
    rewrite (run_exact_reads _ _ _ (reads_HeadProof p Hf)), bind_Ok.
    rewrite refuse_if_bind_false; [done|]. rewrite orb_false_iff. split.
    + apply negb_false_iff, N.eqb_eq. destruct Hf. by apply (len_of_length _ 32).
    + apply bool_decide_eq_false_2. by intros [].
Qed.

(** * Properties *)

(** The signing inputs a current owner supplies. *)
Definition signable (document : LogicalDocument) (closed : N) (close seed : bytes) (start : N)
    (inherited : InheritedCheckpoint) : Prop :=
  document_ok document /\ closed < u64_max /\ length close = 32%nat /\ length seed = 32%nat /\
  start <= u64_max /\ inherited_ok inherited /\ inherited_epoch inherited <= closed.

(** [group] names [owner] as the designated committer of [document]'s server. *)
Definition owns {C : Crypto} (group : ServerGroup) (document : LogicalDocument)
    (owner : MlsDevice) : Prop :=
  group_id group = server_id document /\
  is_current_owner group (from_public_key_bytes (public_key_bytes owner))
    (public_key_bytes owner) = true.

Lemma signable_fields {C : Crypto} `{!CryptoLaws C} document closed close seed start inherited key s :
  signable document closed close seed start inherited -> length key = 32%nat -> length s = 64%nat ->
  receipt_fields_ok (mkReceipt document closed close seed start
    (tenure_id_of (server_id document) key start) inherited key s).
Proof.
  intros (? & ? & ? & ? & ? & ? & ?) Hk Hs. constructor; cbn; try done; [lia|].
  apply hash_parts_length.
Qed.

Lemma Receipt_sign_total {C : Crypto} `{!CryptoLaws C} document closed close seed start inherited owner :
  signable document closed close seed start inherited -> honest_device owner ->
  (forall m, device_sign owner m <> None) ->
  exists r, Receipt_sign document closed close seed start inherited owner = Ok r /\
    receipt_canonical r /\ Receipt_verify_signature_only r = Ok tt /\
    r_document r = document /\ r_closed_epoch r = closed /\
    r_tenure_start_group_epoch r = start /\ r_owner_public_key r = public_key_bytes owner.
Proof.
  intros Hsig Hh Htot. pose proof Hsig as (Hd & Hc & Hcl & Hse & Hst & Hin & Hle).
  set (r0 := mkReceipt document closed close seed start
    (tenure_id_of (server_id document) (public_key_bytes owner) start) inherited
    (public_key_bytes owner) (replicate 64 x00)).
  destruct (device_sign owner (Receipt_signature_hash r0)) as [s|] eqn:Hs; [|by apply Htot in Hs].
  pose proof Hh as (Hk & _ & Hok). destruct (Hok _ _ Hs) as [Hls _].
  assert (Hf : receipt_fields_ok (with_signature r0 s))
    by exact (signable_fields _ _ _ _ _ _ _ _ Hsig Hk Hls).
  exists (with_signature r0 s). split_and!; try done.
  - unfold Receipt_sign. rewrite refuse_if_bind_false; cycle 1.
    { rewrite orb_false_iff. split; [apply N.eqb_neq; lia | by apply N.ltb_ge]. }
    cbv zeta. fold r0. rewrite (proj2 (sign_with_ok _ _ _) Hs), bind_Ok.
    rewrite refuse_if_bind_false; [done|]. apply N.ltb_ge.
    pose proof (len_Receipt_encode _ Hf). unfold MAX_RECEIPT_BYTES. lia.
  - unfold receipt_canonical. split_and!; try done. cbn. lia.
  - apply Receipt_verify_signature_only_ok. apply document_ok_spec in Hd as (_ & [_ ?] & [_ ?]).
    cbn. split_and!; try done; [by apply (len_of_length _ 32) | lia |].
    by apply (honest_verify owner).
Qed.

(** Receipts work end to end. For any signable input, a working owner
    device produces a receipt (the size cap never rejects it) whose wire bytes
    decode to it; every peer whose group names that device as designated
    committer verifies it against the tenure start it was signed for; and the
    same receipt is refused for every other tenure start, which is what stops
    an old tenure's receipt from being replayed after the owner returns. *)
Theorem receipt_sign_verify {C : Crypto} `{!CryptoLaws C}
    document closed close seed start inherited owner group :
  signable document closed close seed start inherited -> honest_device owner ->
  (forall m, device_sign owner m <> None) ->
  owns group document owner -> start <= group_epoch group ->
  exists r, Receipt_sign document closed close seed start inherited owner = Ok r /\
    Receipt_decode (Receipt_encode r) = Ok r /\
    Receipt_verify_current_owner r group start =
      Ok (mkVerifiedReceipt document closed close (Receipt_hash r) seed) /\
    (forall t, t <> start -> Receipt_verify_current_owner r group t = Err EpochAuthority).
Proof.
  intros Hsig Hh Htot [Hg Ho] Hle.
  destruct (Receipt_sign_total _ _ _ _ _ _ _ Hsig Hh Htot)
    as (r & Hs & Hcan & Hv & Hd & Hc & Hst & Hk).
  exists r. split; [done|]. split; [by apply Receipt_decode_spec|].
  pose proof (Receipt_sign_ok _ _ _ _ _ _ _ _ Hs) as (_ & _ & s & _ & Hr).
  split.
  - apply Receipt_verify_current_owner_ok. rewrite Hd, Hk, Hst. split_and!; try done.
    apply restore_verified_ok. split; [done|]. by rewrite Hr.
  - intros t Ht. unfold Receipt_verify_current_owner.
    rewrite refuse_if_bind_false by (rewrite Hd, Hg; apply bool_decide_eq_false_2; by intros []).
    rewrite Hk, Ho, Hst. cbn [negb orb].
    by rewrite (proj2 (N.eqb_neq start t)) by congruence.
Qed.

Lemma Receipt_body_inj r1 r2 :
  receipt_fields_ok r1 -> receipt_fields_ok r2 -> Receipt_body r1 = Receipt_body r2 ->
  r_signature r1 = r_signature r2 -> r1 = r2.
Proof.
  intros H1 H2 Hb Hs. pose proof (run_exact_reads _ _ _ (reads_Receipt r1 H1)) as E1.
  pose proof (run_exact_reads _ _ _ (reads_Receipt r2 H2)) as E2.
  rewrite Hb, Hs in E1. congruence.
Qed.

(** What [Receipt_hash] digests. *)
Definition Receipt_transcript (r : Receipt) : bytes :=
  transcript (bytes_of_string "catcoms-receipt:v1") [Receipt_unsigned_bytes r; r_signature r].

(** A receipt hash names one receipt, up to a collision of the two hash transcripts. *)
Lemma Receipt_hash_inj {C : Crypto} r1 r2 :
  receipt_fields_ok r1 -> receipt_fields_ok r2 -> Receipt_hash r1 = Receipt_hash r2 ->
  r1 = r2 \/ collide (Receipt_transcript r1) (Receipt_transcript r2).
Proof.
  intros H1 H2 H. pose proof (len_Receipt_body r1 H1) as L1. pose proof (len_Receipt_body r2 H2) as L2.
  assert (Hs : forall r, receipt_fields_ok r -> len (r_signature r) <= u32_max)
    by (intros r []; by apply (len_u32_of_length _ 64)).
  unfold Receipt_hash in H. unfold Receipt_transcript. rewrite !Receipt_unsigned_eq in *.
  apply hash_parts_inj in H as [[_ H]|H]; [| by right | |].
  - left. apply Receipt_body_inj; [done | done | congruence | congruence].
  - repeat constructor; [by vm_compute | unfold u32_max; lia | by apply Hs].
  - repeat constructor; [by vm_compute | unfold u32_max; lia | by apply Hs].
Qed.

(** A verified receipt hash is a commitment: two well-formed receipts with
    the same hash are the same receipt, unless their two hash transcripts collide
    under SHA-256; and a receipt that verifies against a group was signed by the
    designated committer's key over the domain-separated transcript. *)
Theorem receipt_verification_binds {C : Crypto} {G} `{OwnerAuthority G} (g : G) r1 r2 t1 t2 v1 v2 :
  receipt_fields_ok r1 -> receipt_fields_ok r2 ->
  Receipt_verify_current_owner r1 g t1 = Ok v1 ->
  Receipt_verify_current_owner r2 g t2 = Ok v2 ->
  (vr_receipt_hash v1 = vr_receipt_hash v2 ->
   r1 = r2 \/ collide (Receipt_transcript r1) (Receipt_transcript r2)) /\
  r_owner_public_key r1 = r_owner_public_key r2 /\
  designated_committer g = Some (from_public_key_bytes (r_owner_public_key r1)) /\
  verify_with_public_bytes (r_owner_public_key r1) (Receipt_signature_hash r1) (r_signature r1) = true.
Proof.
  intros F1 F2 H1 H2.
  apply Receipt_verify_current_owner_ok in H1 as (_ & O1 & _ & _ & V1).
  apply Receipt_verify_current_owner_ok in H2 as (_ & O2 & _ & _ & V2).
  apply restore_verified_ok in V1 as [S1 ->]. apply restore_verified_ok in V2 as [_ ->].
  apply is_current_owner_true in O1 as [D1 K1]. apply is_current_owner_true in O2 as [D2 K2].
  apply Receipt_verify_signature_only_ok in S1 as (_ & _ & _ & _ & _ & _ & Hv).
  split_and!; try done.
  - cbn. by apply Receipt_hash_inj.
  - rewrite D1 in D2. injection D2 as E. rewrite E in K1. congruence.
Qed.

(** A head proof is bound to one query. The proof an honest current owner
    signs for a receipt survives the wire and verifies for exactly the
    requester and nonce it was signed for; replayed to any other requester, or
    under any other nonce, or against any other receipt hash, it is refused. *)
Theorem head_proof_bound_to_query {C : Crypto} `{!CryptoLaws C}
    receipt requester nonce owner group p :
  receipt_canonical receipt -> Receipt_verify_signature_only receipt = Ok tt ->
  honest_device owner -> owns group (r_document receipt) owner ->
  r_tenure_start_group_epoch receipt <= group_epoch group ->
  length requester = 32%nat -> length nonce = 16%nat ->
  HeadProof_sign receipt requester nonce owner = Ok p ->
  HeadProof_decode (HeadProof_encode p) = Ok p /\
  is_ok (HeadProof_verify p group receipt requester nonce) = true /\
  (forall receipt' requester' nonce',
     requester' <> requester \/ nonce' <> nonce \/ Receipt_hash receipt' <> Receipt_hash receipt ->
     HeadProof_verify p group receipt' requester' nonce' = Err EpochAuthority).
Proof.
  intros [Hf _] Hv Hh [Hg Ho] Hle Hlr Hln Hs. unfold HeadProof_sign in Hs. res_inv. bool_simpl.
  apply sign_with_ok in Ha. pose proof Hh as (Hk & _ & Hok). destruct (Hok _ _ Ha) as [Hla _].
  split_and!.
  - apply HeadProof_decode_spec. split; [|done]. destruct Hf.
    constructor; cbn; try done. apply hash_parts_length.
  - unfold HeadProof_verify; cbn [hp_document hp_receipt_hash hp_tenure_start_group_epoch
      hp_requester hp_request_nonce hp_owner_public_key hp_signature].
    rewrite refuse_if_bind_false.
    + assert (Hr : Receipt_verify_current_owner receipt group (r_tenure_start_group_epoch receipt)
        = Ok (mkVerifiedReceipt (r_document receipt) (r_closed_epoch receipt)
            (r_close_record_hash receipt) (Receipt_hash receipt) (r_seed_change_hash receipt))).
      { apply Receipt_verify_current_owner_ok. rewrite H, Ho. split_and!; try done.
        by apply restore_verified_ok. }
      by rewrite Hr.
    + rewrite Ho, Hg, H, N.eqb_refl. rewrite !bool_decide_eq_false_2 by (by intros []).
      cbn [negb orb]. apply negb_false_iff. by apply (honest_verify owner).
  - intros receipt' requester' nonce' Hne. unfold HeadProof_verify.
    cbn [hp_document hp_receipt_hash hp_tenure_start_group_epoch
      hp_requester hp_request_nonce hp_owner_public_key hp_signature].
    match goal with |- (_ ← refuse_if ?c _; _) = _ => destruct c eqn:Hc; [done|exfalso] end.
    bool_simpl. destruct Hne as [Hne|[Hne|Hne]]; congruence.
Qed.

(** ** Witnesses *)

Definition toy_owner : MlsDevice := toy_device 9.
Definition toy_document : LogicalDocument := mkLogicalDocument [x01; x02] StudioObject [x03].
Definition toy_group : ServerGroup :=
  mkServerGroup [x01; x02] 12 (Some (from_public_key_bytes (C:=toy_crypto) (be_bytes 32 9)))
    (fun d => if bool_decide (d = from_public_key_bytes (C:=toy_crypto) (be_bytes 32 9))
              then Some (be_bytes 32 9) else None).

Lemma toy_owns : owns (C:=toy_crypto) toy_group toy_document toy_owner.
Proof. split; [done|]. by vm_compute. Qed.

Lemma toy_signable :
  signable toy_document 4 (be_bytes 32 1) (be_bytes 32 2) 3
    (Checkpoint 2 (be_bytes 32 6) (be_bytes 32 7)).
Proof. by vm_compute. Qed.

Lemma toy_total m : device_sign toy_owner m <> None.
Proof. done. Qed.

Definition toy_receipt_at (closed : N) (seed : N) : Receipt :=
  match Receipt_sign (C:=toy_crypto) toy_document closed (be_bytes 32 1) (be_bytes 32 seed) 3
          (Checkpoint 2 (be_bytes 32 6) (be_bytes 32 7)) toy_owner with
  | Ok r => r
  | Err _ => mkReceipt toy_document 0 [] [] 0 [] EpochZero [] []
  end.

Lemma toy_receipt_canonical : receipt_canonical (C:=toy_crypto) (toy_receipt_at 4 2).
Proof.
  assert (Hd : Receipt_decode (C:=toy_crypto) (Receipt_encode (toy_receipt_at 4 2))
               = Ok (toy_receipt_at 4 2)) by by vm_compute.
  by apply Receipt_decode_spec in Hd as [? _].
Qed.

Lemma receipt_sign_verify_witness :
  exists r, Receipt_sign (C:=toy_crypto) toy_document 4 (be_bytes 32 1) (be_bytes 32 2) 3
      (Checkpoint 2 (be_bytes 32 6) (be_bytes 32 7)) toy_owner = Ok r /\
    Receipt_decode (C:=toy_crypto) (Receipt_encode r) = Ok r.
Proof.
  destruct (receipt_sign_verify (C:=toy_crypto) toy_document 4 (be_bytes 32 1) (be_bytes 32 2) 3
    (Checkpoint 2 (be_bytes 32 6) (be_bytes 32 7)) toy_owner toy_group) as (r & Hs & Hd & _);
    [apply toy_signable | apply toy_device_honest | apply toy_total | apply toy_owns |
     by vm_compute |]. by exists r.
Defined.

Lemma receipt_verification_binds_witness :
  r_owner_public_key (toy_receipt_at 4 2) = r_owner_public_key (toy_receipt_at 4 2).
Proof.
  apply (receipt_verification_binds (C:=toy_crypto) toy_group (toy_receipt_at 4 2)
    (toy_receipt_at 4 2) 3 3
    (mkVerifiedReceipt toy_document 4 (be_bytes 32 1) (Receipt_hash (toy_receipt_at 4 2)) (be_bytes 32 2))
    (mkVerifiedReceipt toy_document 4 (be_bytes 32 1) (Receipt_hash (toy_receipt_at 4 2)) (be_bytes 32 2)));
    [apply toy_receipt_canonical | apply toy_receipt_canonical | by vm_compute | by vm_compute].
Defined.

Definition toy_proof : ReceiptHeadProof :=
  match HeadProof_sign (C:=toy_crypto) (toy_receipt_at 4 2) (be_bytes 32 77) (be_bytes 16 5) toy_owner with
  | Ok p => p
  | Err _ => mkReceiptHeadProof toy_document [] 0 [] [] [] []
  end.

Lemma head_proof_bound_to_query_witness :
  HeadProof_verify (C:=toy_crypto) toy_proof toy_group (toy_receipt_at 4 2)
    (be_bytes 32 77) (be_bytes 16 6) = Err EpochAuthority.
Proof.
  destruct (head_proof_bound_to_query (C:=toy_crypto) (toy_receipt_at 4 2) (be_bytes 32 77)
    (be_bytes 16 5) toy_owner toy_group toy_proof) as (_ & _ & H).
  - apply toy_receipt_canonical.
  - by vm_compute.
  - apply toy_device_honest.
  - apply toy_owns.
  - by vm_compute.
  - by vm_compute.
  - by vm_compute.
  - by vm_compute.
  - apply H. right. left. by vm_compute.
Defined.
