(* ===== verification/Checkpoint.v ===== *)
(** Checkpoint seeds ([crates/catcoms-replication/src/checkpoint.rs]).

    A seed is one canonical Automerge change that opens the next epoch of a
    document. It carries no device signature: a verified owner's receipt names
    its exact hash, and nothing else authorizes it. The typed projection writer
    and validator of a consumer are arguments, as in the source. *)

From S2P Require Import Prelude Wire Context Crypto Codec BoundedChange EpochBase Authority Automerge Receipt.
From stdpp Require Import base list.
From Stdlib Require Import Init.Byte.
Local Open Scope N_scope.

Definition MAX_CHECKPOINT_BYTES : N := 2 * 1024 * 1024.

Record CheckpointOrigin := mkCheckpointOrigin {
  cp_document : LogicalDocument;
  cp_epoch : N;
  cp_close_hash : bytes;
  cp_seed_hash : bytes
}.

#[global] Instance CheckpointOrigin_eq_dec : EqDecision CheckpointOrigin.
Proof. solve_decision. Defined.

Record CheckpointSeed := mkCheckpointSeed { cs_origin : CheckpointOrigin; cs_bytes : bytes }.

(** Built only by [checkpoint_verify]; its field is private. *)
Record VerifiedCheckpoint := mkVerifiedCheckpoint { vc_seed : CheckpointSeed }.

(** [put_bytes(v).map_err(|_| ReplError::Malformed)?] *)
Definition put_bytes_m (v buf : bytes) : result ReplError bytes := map_err (fun _ => Malformed) (put_bytes v buf).

Definition starts_with (prefix key : bytes) : bool := bool_decide (prefix `prefix_of` key).
Definition MARKER_PREFIX : bytes := bytes_of_string "_p1/op/".

(** [CheckpointOrigin::encode] *)
Definition origin_encode (o : CheckpointOrigin) : result ReplError bytes :=
  let e := put_u8 1 [] in
  e ← put_bytes_m (server_id (cp_document o)) e;
  let e := put_u16 (doc_tag (doc_type (cp_document o))) e in
  e ← put_bytes_m (logical_key (cp_document o)) e;
  let e := put_u64 (cp_epoch o) e in
  e ← put_bytes_m (cp_close_hash o) e;
  put_bytes_m (cp_seed_hash o) e.

Definition get_origin : dec ReplError (bytes * DocType * bytes * N * bytes * bytes) :=
  version ← mal get_u8;
  _ ← dec_refuse (negb (version =? 1)) Malformed;
  server ← mal get_bytes;
  tag ← mal get_u16;
  kind ← dec_lift (ok_or (doc_from_tag tag) Malformed);
  key ← mal get_bytes;
  epoch ← mal get_u64;
  close_hash ← get_fixed 32;
  seed_hash ← get_fixed 32;
  mret (server, kind, key, epoch, close_hash, seed_hash).

(** [CheckpointOrigin::decode] *)
Definition origin_decode (input : bytes) : result ReplError CheckpointOrigin :=
  _ ← refuse_if (1024 <? len input) EpochBound;
  fields ← run_exact get_origin input;
  let '(server, kind, key, epoch, close_hash, seed_hash) := fields in
  _ ← refuse_if (epoch =? 0) EpochScope;
  document ← LogicalDocument_new server kind key;
  let result := mkCheckpointOrigin document epoch close_hash seed_hash in
  e ← origin_encode result;
  _ ← refuse_if (bool_decide (e <> input)) Malformed;
  Ok result.

Section seeds.
Context {C : Crypto} {M : Automerge}.

(** [CheckpointOrigin::doc_id] *)
Definition origin_doc_id (o : CheckpointOrigin) : N :=
  epoch_id (doc_type (cp_document o)) (logical_key (cp_document o)) (cp_epoch o) (cp_close_hash o).

Definition seed_actor (doc_id : N) : bytes :=
  hash_parts (bytes_of_string "catcoms-seed-actor:v1") [be_bytes 16 doc_id].

Definition am_error {A} (r : result bytes A) : result ReplError A := map_err Codec.Automerge r.

(** What a parsed seed must look like, and what its operations may not name. *)
Definition seed_shape (origin : CheckpointOrigin) (bytes hash : bytes) (change : Change) : bool :=
  bool_decide (ch_hash change = hash) && bool_decide (ch_raw change = bytes)
  && bool_decide (ch_actor change = seed_actor (origin_doc_id origin))
  && (ch_seq change =? 1) && (ch_start_op change =? 1)
  && is_empty (ch_deps change) && (ch_timestamp change =? 0)%Z
  && match ch_message change with Some m => is_empty m | None => true end
  && is_empty (ch_extra change) && negb (ch_op_count change =? 0).

Definition validate_change (origin : CheckpointOrigin) (bs : bytes) : result ReplError Change :=
  _ ← refuse_if (MAX_CHECKPOINT_BYTES <? len bs) EpochBound;
  _ ← refuse_if ((len bs <? 10) || bool_decide (firstn 4 bs <> MAGIC)
                 || bool_decide (nth_error bs 8 <> Some x01)) Malformed;
  let hash := sha256 (skipn 8 bs) in
  _ ← refuse_if (bool_decide (hash <> cp_seed_hash origin)
                 || bool_decide (firstn 4 (skipn 4 bs) <> firstn 4 hash)) BadSignature;
  _ ← change_check bs MAX_ACTIONS;
  change ← map_err (fun _ => Malformed) (change_from_bytes bs);
  _ ← refuse_if (negb (seed_shape origin bs hash change)) Malformed;
  _ ← refuse_if (existsb (starts_with MARKER_PREFIX) (ch_map_keys change)) Malformed;
  Ok change.

Definition reject_markers (doc : AutoCommit) : result ReplError unit :=
  refuse_if (existsb (starts_with MARKER_PREFIX) (am_root_keys doc)) Malformed.

(** [doc.apply_changes([change]).map_err(am_error)?] on a scratch document. *)
Definition apply_seed (change : Change) (doc : AutoCommit) : result ReplError AutoCommit :=
  let '(r, doc) := am_apply_changes [change] doc in
  _ ← am_error r; Ok doc.

(** [CheckpointSeed::build] *)
Definition checkpoint_build (document : LogicalDocument) (checkpoint_epoch : N) (close_hash : bytes)
    (write_projection : AutoCommit -> result ReplError AutoCommit) : result ReplError CheckpointSeed :=
  _ ← LogicalDocument_new (server_id document) (doc_type document) (logical_key document);
  _ ← refuse_if (checkpoint_epoch =? 0) EpochScope;
  let id := epoch_id (doc_type document) (logical_key document) checkpoint_epoch close_hash in
  doc ← write_projection (am_new (seed_actor id));
  let doc := am_commit doc in
  change ← ok_or (am_get_last_local_change doc) NoChange;
  let origin := mkCheckpointOrigin document checkpoint_epoch close_hash (ch_hash change) in
  _ ← validate_change origin (ch_raw change);
  _ ← reject_markers doc;
  Ok (mkCheckpointSeed origin (ch_raw change)).

(** The origin a receipt names. *)
Definition receipt_origin (document : LogicalDocument) (closed_epoch : N) (close_hash seed_hash : bytes)
    : result ReplError CheckpointOrigin :=
  epoch ← ok_or (if closed_epoch + 1 <=? u64_max then Some (closed_epoch + 1) else None) EpochBound;
  Ok (mkCheckpointOrigin document epoch close_hash seed_hash).

(** [CheckpointSeed::verify] *)
Definition checkpoint_verify (receipt : VerifiedReceipt) (bs : bytes)
    (validate_projection : LogicalDocument -> N -> AutoCommit -> result ReplError unit)
    : result ReplError VerifiedCheckpoint :=
  origin ← receipt_origin (vr_document receipt) (vr_closed_epoch receipt) (vr_close_record_hash receipt)
             (vr_seed_change_hash receipt);
  change ← validate_change origin bs;
  doc ← apply_seed change (am_new (seed_actor (origin_doc_id origin)));
  _ ← reject_markers doc;
  _ ← validate_projection (cp_document origin) (cp_epoch origin) doc;
  Ok (mkVerifiedCheckpoint (mkCheckpointSeed origin bs)).

(** The inspection of a seed whose receipt is only known to be well signed;
    the scratch document has an actor of the library's choosing. *)
Definition inspect_unconfirmed_seed (receipt : Receipt) (bs : bytes) (actor : bytes) : result ReplError AutoCommit :=
  _ ← Receipt_verify_signature_only receipt;
  origin ← receipt_origin (r_document receipt) (r_closed_epoch receipt) (r_close_record_hash receipt)
             (r_seed_change_hash receipt);
  change ← validate_change origin bs;
  doc ← apply_seed change (am_new actor);
  _ ← reject_markers doc;
  Ok doc.
End seeds.

(** * Lemmas *)

Lemma put_bytes_m_ok v buf : len v <= u32_max -> put_bytes_m v buf = Ok (buf ++ lp v).
Proof. intros H. unfold put_bytes_m. by rewrite put_bytes_ok. Qed.

Record origin_ok (o : CheckpointOrigin) : Prop := mkOriginOk {
  oo_document : document_ok (cp_document o);
  oo_epoch : 0 < cp_epoch o <= u64_max;
  oo_close : length (cp_close_hash o) = 32%nat;
  oo_seed : length (cp_seed_hash o) = 32%nat
}.

Definition origin_bytes (o : CheckpointOrigin) : bytes :=
  be_bytes 1 1 ++ lp (server_id (cp_document o)) ++ be_bytes 2 (doc_tag (doc_type (cp_document o))) ++
  lp (logical_key (cp_document o)) ++ be_bytes 8 (cp_epoch o) ++ lp (cp_close_hash o) ++ lp (cp_seed_hash o).

Lemma origin_encode_ok o : origin_ok o -> origin_encode o = Ok (origin_bytes o).
Proof.
  intros [Hd _ Hc Hs]. destruct (document_ok_u32 _ Hd) as (Hsid & Hkey). unfold origin_encode.
  rewrite put_bytes_m_ok by done. rewrite bind_Ok, put_bytes_m_ok by done.
  rewrite bind_Ok, put_bytes_m_ok by (by apply (len_u32_of_length _ 32)).
  rewrite bind_Ok, put_bytes_m_ok by (by apply (len_u32_of_length _ 32)).
  unfold origin_bytes, put_u8, put_u16, put_u64. cbn [app]. by rewrite <- !app_assoc.
Qed.

Lemma origin_bytes_len o : origin_ok o -> len (origin_bytes o) <= 1024.
Proof.
  intros [Hd _ Hc Hs]. pose proof (document_len _ Hd) as Hl. unfold document_bytes in Hl. unfold origin_bytes.
  autorewrite with mewtual_len in *. unfold len in *. rewrite Hc, Hs. lia.
Qed.

Lemma reads_origin o : origin_ok o ->
  reads get_origin (origin_bytes o) (server_id (cp_document o), doc_type (cp_document o), logical_key (cp_document o),
    cp_epoch o, cp_close_hash o, cp_seed_hash o).
Proof.
  intros [Hd He Hc Hs]. destruct (document_ok_u32 _ Hd) as (Hsid & Hkey). unfold get_origin, origin_bytes. reads_go.
  - by apply reads_mal, reads_u8.
  - done.
  - by apply reads_mal, reads_bytes.
  - apply reads_mal, reads_u16, doc_tag_u16.
  - by rewrite doc_from_tag_tag.
  - by apply reads_mal, reads_bytes.
  - apply reads_mal, reads_u64. lia.
  - by apply reads_fixed.
  - by apply reads_fixed.
Qed.

Lemma consumes_origin : consumes get_origin (fun f bs =>
  let '(server, kind, key, epoch, close_hash, seed_hash) := f in
  epoch <= u64_max /\ length close_hash = 32%nat /\ length seed_hash = 32%nat).
Proof.
  intros d f d' H. unfold get_origin in H. dec_step H.
  destruct Hr5 as [-> ?], Hr6 as [-> ?], Hr7 as [-> ?].
  eexists. split; [|split_and!; done]. rewrite R, R0, R1, R2, R3, R4, R5. by rewrite !app_assoc.
Qed.

Lemma origin_decode_spec bs o : origin_decode bs = Ok o <-> bs = origin_bytes o /\ origin_ok o.
Proof.
  unfold origin_decode. split.
  - intros H. apply refuse_if_bind_ok in H as [_ H]. apply bind_ok in H as (f & Hf & H).
    pose proof (run_exact_consumes _ _ _ _ Hf consumes_origin) as Hw. destruct f as [[[[[server kind] key] epoch] ch] sh].
    destruct Hw as (He & Hc & Hs). apply refuse_if_bind_ok in H as [Hz H]. apply bind_ok in H as (doc & Hd & H).
    apply bind_ok in H as (e & Ee & H). apply refuse_if_bind_ok in H as [Heq H]. injection H as <-. bool_simpl.
    apply LogicalDocument_new_ok in Hd as [_ Hd].
    assert (Hok : origin_ok (mkCheckpointOrigin doc epoch ch sh)) by (constructor; cbn; [done|lia|done..]).
    split; [|done]. rewrite (origin_encode_ok _ Hok) in Ee. congruence.
  - intros [-> Hok]. rewrite refuse_if_bind_false by (by apply N.ltb_ge, origin_bytes_len).
    rewrite (run_exact_reads _ _ _ (reads_origin _ Hok)), bind_Ok.
    rewrite refuse_if_bind_false by (apply N.eqb_neq; pose proof (oo_epoch _ Hok); lia).
    pose proof (oo_document _ Hok) as Hd. unfold document_ok in Hd. rewrite Hd, bind_Ok.
    destruct o as [doc ep ch sh]. cbn [cp_document cp_epoch cp_close_hash cp_seed_hash].
    rewrite (origin_encode_ok _ Hok), bind_Ok. rewrite refuse_if_bind_false; [done|].
    apply bool_decide_eq_false_2. by intros [].
Qed.

Section seed_lemmas.
Context {C : Crypto} {M : Automerge}.

(** The frame around a seed's hashed part is determined by its hash. *)
Lemma seed_frame bs : 10 <= len bs -> firstn 4 bs = MAGIC ->
  firstn 4 (skipn 4 bs) = firstn 4 (sha256 (skipn 8 bs)) ->
  bs = MAGIC ++ firstn 4 (sha256 (skipn 8 bs)) ++ skipn 8 bs.
Proof.
  intros Hl Hm Hc. rewrite <- Hm, <- Hc. symmetry. etransitivity; [|apply (take_drop 4)]. f_equal.
  etransitivity; [|apply (take_drop 4)]. f_equal. by rewrite drop_drop.
Qed.

Lemma validate_change_inv origin bs change :
  validate_change origin bs = Ok change ->
  len bs <= MAX_CHECKPOINT_BYTES /\ sha256 (skipn 8 bs) = cp_seed_hash origin /\
  bs = MAGIC ++ firstn 4 (cp_seed_hash origin) ++ skipn 8 bs /\
  change_check bs MAX_ACTIONS = Ok tt /\ change_from_bytes bs = Ok change /\
  seed_shape origin bs (cp_seed_hash origin) change = true /\
  existsb (starts_with MARKER_PREFIX) (ch_map_keys change) = false.
Proof.
  unfold validate_change. intros H. apply refuse_if_bind_ok in H as [H1 H]. apply refuse_if_bind_ok in H as [H2 H].
  apply refuse_if_bind_ok in H as [H3 H]. apply bind_ok in H as ([] & H4 & H). apply bind_ok in H as (c & H5 & H).
  apply refuse_if_bind_ok in H as [H6 H]. apply refuse_if_bind_ok in H as [H7 [= <-]].
  bool_simpl. destruct (change_from_bytes bs) as [c'|] eqn:E; [|done]. injection H5 as ->.
  split_and!; [done|done| |done|done|congruence|done]. etransitivity; [by apply seed_frame|]. congruence.
Qed.

(** Two byte strings that pass for one origin are equal, or SHA-256 collides
    on the very parts it was applied to. *)
Lemma validate_change_unique o o' b b' c c' :
  cp_seed_hash o = cp_seed_hash o' -> validate_change o b = Ok c -> validate_change o' b' = Ok c' ->
  b = b' \/ collide (skipn 8 b) (skipn 8 b').
Proof.
  intros E (_ & Hh & Hb & _)%validate_change_inv (_ & Hh' & Hb' & _)%validate_change_inv.
  destruct (decide (skipn 8 b = skipn 8 b')) as [Et|Et]; [left; congruence|right]. split; [done|congruence].
Qed.

Lemma checkpoint_verify_inv r bs v vc :
  checkpoint_verify r bs v = Ok vc ->
  exists origin change doc, receipt_origin (vr_document r) (vr_closed_epoch r) (vr_close_record_hash r)
      (vr_seed_change_hash r) = Ok origin /\ validate_change origin bs = Ok change /\
    am_apply_changes [change] (am_new (seed_actor (origin_doc_id origin))) = (Ok tt, doc) /\
    v (cp_document origin) (cp_epoch origin) doc = Ok tt /\
    vc = mkVerifiedCheckpoint (mkCheckpointSeed origin bs).
Proof.
  unfold checkpoint_verify. intros H. apply bind_ok in H as (o & Ho & H). apply bind_ok in H as (c & Hc & H).
  apply bind_ok in H as (doc & Hdoc & H). apply bind_ok in H as ([] & _ & H). apply bind_ok in H as ([] & Hv & [= <-]).
  exists o, c, doc. split_and!; try done. unfold apply_seed in Hdoc.
  destruct (am_apply_changes _ _) as [[[]|e] d]; [|done]. cbn in Hdoc. by injection Hdoc as ->.
Qed.

Lemma reject_markers_seed `{!AutomergeLaws M} actor change :
  existsb (starts_with MARKER_PREFIX) (ch_map_keys change) = false ->
  reject_markers (am_apply_changes [change] (am_new actor)).2 = Ok tt.
Proof.
  intros H. unfold reject_markers. destruct (existsb _ (am_root_keys _)) eqn:E; [|done]. exfalso.
  apply existsb_exists in E as (k & Hk%list_elem_of_In & Hp).
  apply am_root_keys_spec in Hk as (c & ->%am_apply_new & Hk).
  apply not_true_iff_false in H. apply H, existsb_exists. exists k. split; [by apply list_elem_of_In|done].
Qed.
End seed_lemmas.

(** * Properties *)

(** A checkpoint's origin is saved in one form: decoding accepts a byte
    string exactly when it is the encoding of an origin with a valid document,
    a non-zero 64-bit epoch and two 32-byte hashes. *)
Theorem origin_exact (bs : bytes) (o : CheckpointOrigin) :
  origin_decode bs = Ok o <-> origin_encode o = Ok bs /\ origin_ok o.
Proof.
  rewrite origin_decode_spec. split; intros [H Hok]; (split; [|done]).
  - by rewrite H, origin_encode_ok.
  - rewrite (origin_encode_ok _ Hok) in H. congruence.
Qed.

(** A receipt authorizes one seed. What verification accepts under a
    receipt has the SHA-256 the receipt names, is at most two MiB, opens the
    epoch after the closed one of the receipt's document, and depends on no
    other change; and any two accepted byte strings are equal, whatever
    validators ran, unless the parts that were hashed are a SHA-256 collision. *)
Theorem checkpoint_seed_unique {C : Crypto} {M : Automerge} r bs v vc :
  checkpoint_verify r bs v = Ok vc ->
  let origin := cs_origin (vc_seed vc) in
  cs_bytes (vc_seed vc) = bs /\ len bs <= MAX_CHECKPOINT_BYTES /\
  cp_document origin = vr_document r /\ cp_epoch origin = vr_closed_epoch r + 1 /\
  sha256 (skipn 8 bs) = vr_seed_change_hash r /\
  (exists change, change_from_bytes bs = Ok change /\ ch_hash change = vr_seed_change_hash r /\ ch_deps change = []) /\
  forall bs' v' vc', checkpoint_verify r bs' v' = Ok vc' -> bs' = bs \/ collide (skipn 8 bs') (skipn 8 bs).
Proof.
  intros H. apply checkpoint_verify_inv in H as (o & c & doc & Ho & Hc & _ & _ & ->). cbn.
  unfold receipt_origin in Ho. destruct (_ <=? _); [|done]. cbn in Ho. injection Ho as <-.
  pose proof (validate_change_inv _ _ _ Hc) as (Hl & Hh & _ & _ & Hp & Hs & _). cbn in *.
  split_and!; try done.
  - exists c. split; [done|]. unfold seed_shape in Hs. bool_simpl. split; [done|]. by destruct (ch_deps c).
  - intros bs' v' vc' H'. apply checkpoint_verify_inv in H' as (o' & c' & doc' & Ho' & Hc' & _).
    eapply validate_change_unique; [|exact Hc'|exact Hc]. unfold receipt_origin in Ho'.
    destruct (_ <=? _); [|done]. cbn in Ho'. by injection Ho' as <-.
Qed.

(** The seed an owner builds is the seed every member installs. If building
    succeeds and a receipt for the closed epoch names the seed's hash, then
    verification of those bytes under that receipt succeeds, with the same
    origin, wherever Automerge applies the change and the schema accepts the
    result: the marker scan cannot refuse it. *)
Theorem built_seed_installs {C : Crypto} {M : Automerge} {L : AutomergeLaws M} document epoch close w seed
    (r : VerifiedReceipt) (v : LogicalDocument -> N -> AutoCommit -> result ReplError unit) :
  checkpoint_build document epoch close w = Ok seed ->
  vr_document r = document -> vr_closed_epoch r + 1 = epoch -> epoch <= u64_max -> vr_close_record_hash r = close ->
  vr_seed_change_hash r = cp_seed_hash (cs_origin seed) ->
  (forall change doc, change_from_bytes (cs_bytes seed) = Ok change ->
     am_apply_changes [change] (am_new (seed_actor (origin_doc_id (cs_origin seed)))) = (Ok tt, doc) ->
     v document epoch doc = Ok tt) ->
  (forall change, change_from_bytes (cs_bytes seed) = Ok change ->
     (am_apply_changes [change] (am_new (seed_actor (origin_doc_id (cs_origin seed))))).1 = Ok tt) ->
  checkpoint_verify r (cs_bytes seed) v = Ok (mkVerifiedCheckpoint seed).
Proof.
  intros H Hd He Hb Hcl Hs Hv Ha. unfold checkpoint_build in H. apply bind_ok in H as (d' & _ & H).
  apply refuse_if_bind_ok in H as [_ H]. apply bind_ok in H as (doc & _ & H). apply bind_ok in H as (ch & _ & H).
  apply bind_ok in H as (c & Hc & H). apply bind_ok in H as ([] & _ & [= <-]). cbn [cs_origin cs_bytes cp_seed_hash] in *.
  pose proof (validate_change_inv _ _ _ Hc) as (_ & _ & _ & _ & Hp & _ & Hm).
  unfold checkpoint_verify, receipt_origin. rewrite He, (proj2 (N.leb_le _ _) Hb). cbn [ok_or]. rewrite !bind_Ok, Hd, Hcl, Hs, Hc, bind_Ok.
  specialize (Ha _ Hp). specialize (Hv c). unfold apply_seed.
  pose proof (reject_markers_seed (seed_actor (origin_doc_id (mkCheckpointOrigin document epoch close (ch_hash ch)))) c Hm) as Hr.
  destruct (am_apply_changes _ _) as [rr dd] eqn:E. cbn [fst snd] in *. subst rr. cbn [am_error map_err].
  rewrite !bind_Ok, Hr, bind_Ok. cbn [cp_document cp_epoch]. by rewrite (Hv dd Hp eq_refl), bind_Ok.
Qed.

(** * Witnesses *)

Definition toy_seed_bytes : bytes := toy_change [(0x42, [7; 1])].
Definition toy_seed_document : LogicalDocument := mkLogicalDocument [x01] DocRegistry [x02].
Definition toy_seed_change : Change :=
  mkChange (sha256 (Crypto:=toy_crypto) (skipn 8 toy_seed_bytes)) []
    (seed_actor (C:=toy_crypto) (epoch_id (C:=toy_crypto) DocRegistry [x02] 4 (be_bytes 32 9)))
    toy_seed_bytes 1 1 0 None [] 1 [].
Definition seed_automerge : Automerge :=
  parsing_automerge (fun bs => if bool_decide (bs = toy_seed_bytes) then Ok toy_seed_change else Err []).
Definition toy_seed_receipt : VerifiedReceipt :=
  mkVerifiedReceipt toy_seed_document 3 (be_bytes 32 9) (be_bytes 32 1) (ch_hash toy_seed_change).
Definition toy_seed : CheckpointSeed :=
  mkCheckpointSeed (mkCheckpointOrigin toy_seed_document 4 (be_bytes 32 9) (ch_hash toy_seed_change)) toy_seed_bytes.
Definition accept_projection {M : Automerge} : LogicalDocument -> N -> AutoCommit -> result ReplError unit := fun _ _ _ => Ok tt.

Lemma toy_seed_built :
  checkpoint_build (C:=toy_crypto) (M:=seed_automerge) toy_seed_document 4 (be_bytes 32 9)
    (fun d => Ok (d ++ [toy_seed_bytes])) = Ok toy_seed.
Proof. vm_compute. reflexivity. Qed.

Lemma toy_seed_verified :
  checkpoint_verify (C:=toy_crypto) (M:=seed_automerge) toy_seed_receipt toy_seed_bytes (accept_projection (M:=seed_automerge))
  = Ok (mkVerifiedCheckpoint toy_seed).
Proof. vm_compute. reflexivity. Qed.

Lemma toy_seed_facts :
  (vr_document toy_seed_receipt = toy_seed_document) /\ (vr_closed_epoch toy_seed_receipt + 1 = 4) /\ 4 <= u64_max /\
  vr_close_record_hash toy_seed_receipt = be_bytes 32 9 /\
  vr_seed_change_hash toy_seed_receipt = cp_seed_hash (cs_origin toy_seed).
Proof. split_and!; [reflexivity..|discriminate|reflexivity|reflexivity]. Qed.

Lemma checkpoint_seed_unique_witness :
  sha256 (Crypto:=toy_crypto) (skipn 8 toy_seed_bytes) = vr_seed_change_hash toy_seed_receipt.
Proof.
  exact (proj1 (proj2 (proj2 (proj2 (proj2 (checkpoint_seed_unique (C:=toy_crypto) (M:=seed_automerge)
    toy_seed_receipt toy_seed_bytes (accept_projection (M:=seed_automerge)) _ toy_seed_verified)))))).
Defined.

Lemma built_seed_installs_witness :
  checkpoint_verify (C:=toy_crypto) (M:=seed_automerge) toy_seed_receipt (cs_bytes toy_seed) (accept_projection (M:=seed_automerge))
  = Ok (mkVerifiedCheckpoint toy_seed).
Proof.
  destruct toy_seed_facts as (F1 & F2 & F3 & F4 & F5).
  apply (built_seed_installs (C:=toy_crypto) (M:=seed_automerge)
    (L:=parsing_automerge_laws (fun bs => if bool_decide (bs = toy_seed_bytes) then Ok toy_seed_change else Err []))
    toy_seed_document 4 (be_bytes 32 9) (fun d => Ok (d ++ [toy_seed_bytes])) toy_seed toy_seed_receipt
    (accept_projection (M:=seed_automerge)) toy_seed_built F1 F2 F3 F4 F5).
  - intros change doc _ _. reflexivity.
  - intros change _. reflexivity.
Defined.
