(* ===== verification/Document.v ===== *)
(** Encrypted documents ([crates/catcoms-replication/src/doc.rs]): the state,
    the legacy operations (local edits, ingress, catch-up import), the log with
    its derived indexes, and the vault snapshot.

    The injected observers of the [*_observed] variants see the document and
    cannot change it; the model leaves them out. A closure that edits the
    Automerge document is a function from document to outcome and document. *)

From S2P Require Import Prelude Wire Context Pad Crypto Codec EpochBase Intent Authority Membership SignedOp Automerge Catchup Receipt Checkpoint.
From stdpp Require Import base list gmap.
From Stdlib Require Import Init.Byte.
Local Open Scope N_scope.

Definition MAX_CACHED_SNAPSHOT_BYTES : N := 1048576.

Record AppliedOp := mkAppliedOp { ap_author_device : bytes; ap_change : bytes }.

Section document.
Context {C : Crypto} {A : Aead} {M : Automerge}.

(** [SnapshotKey]: the heads and the length of the log. *)
Definition SnapshotKey : Type := list bytes * N.

Record EncryptedDoc := mkEncryptedDoc {
  ed_doc_type : DocType;
  ed_doc_id : N;
  ed_doc : AutoCommit;
  ed_log : list SignedOp;
  ed_applied : gset bytes;
  ed_change_authors : gmap bytes bytes;
  ed_authors_indexed : nat;
  ed_snapshot_cache : option (SnapshotKey * bytes);
  ed_checkpoint : option CheckpointOrigin;
  ed_catchup_index : AncestryIndex
}.

(** Assignments to single fields. *)
Definition set_doc (doc : AutoCommit) (d : EncryptedDoc) : EncryptedDoc :=
  mkEncryptedDoc (ed_doc_type d) (ed_doc_id d) doc (ed_log d) (ed_applied d) (ed_change_authors d)
    (ed_authors_indexed d) (ed_snapshot_cache d) (ed_checkpoint d) (ed_catchup_index d).
Definition set_cache (cache : option (SnapshotKey * bytes)) (d : EncryptedDoc) : EncryptedDoc :=
  mkEncryptedDoc (ed_doc_type d) (ed_doc_id d) (ed_doc d) (ed_log d) (ed_applied d) (ed_change_authors d)
    (ed_authors_indexed d) cache (ed_checkpoint d) (ed_catchup_index d).
Definition set_authors (authors : gmap bytes bytes) (n : nat) (d : EncryptedDoc) : EncryptedDoc :=
  mkEncryptedDoc (ed_doc_type d) (ed_doc_id d) (ed_doc d) (ed_log d) (ed_applied d) authors n (ed_snapshot_cache d)
    (ed_checkpoint d) (ed_catchup_index d).

(** [EncryptedDoc::new] *)
Definition doc_new (t : DocType) (doc_id : N) (actor : bytes) : EncryptedDoc :=
  mkEncryptedDoc t doc_id (am_new actor) [] ∅ ∅ 0 None None index_default.

(** [EncryptedDoc::from_checkpoint] *)
Definition from_checkpoint (checkpoint : VerifiedCheckpoint) (actor : bytes) : result ReplError EncryptedDoc :=
  let origin := cs_origin (vc_seed checkpoint) in
  change ← validate_change origin (cs_bytes (vc_seed checkpoint));
  let result := doc_new (doc_type (cp_document origin)) (origin_doc_id origin) actor in
  doc ← apply_seed change (ed_doc result);
  Ok (mkEncryptedDoc (ed_doc_type result) (ed_doc_id result) doc [] ∅ ∅ 0 None (Some origin) index_default).

Definition is_epoch_managed (t : DocType) : bool :=
  match t with StudioIndex | StudioObject | PostReplies | DocRegistry => true | _ => false end.

Definition check_doc (d : EncryptedDoc) (t : DocType) (doc_id : N) : result ReplError unit :=
  refuse_if (bool_decide (t <> ed_doc_type d) || negb (doc_id =? ed_doc_id d)) WrongDocument.

(** [Change::from_bytes(op.delta.clone()).ok().map(|c| c.hash())] *)
Definition carried (op : SignedOp) : option bytes :=
  match change_from_bytes (so_delta op) with Ok change => Some (ch_hash change) | Err _ => None end.

Definition index_catchup_op (ix : AncestryIndex) (doc : AutoCommit) (position : N) (op : SignedOp) : AncestryIndex :=
  if is_epoch_managed (so_doc_type op) then ix
  else match change_from_bytes (so_delta op) with
       | Err _ => ix
       | Ok change =>
           match am_get_change_by_hash doc (ch_hash change) with
           | Some canonical => index_record position (ch_hash change) (ch_deps canonical) ix
           | None => ix
           end
       end.

(** [EncryptedDoc::record] *)
Definition doc_record (op : SignedOp) (d : EncryptedDoc) : bool * EncryptedDoc :=
  let hash := signed_op_hash op in
  if bool_decide (hash ∈ ed_applied d) then (false, d)
  else (true, mkEncryptedDoc (ed_doc_type d) (ed_doc_id d) (ed_doc d) (ed_log d ++ [op]) ({[hash]} ∪ ed_applied d)
                (ed_change_authors d) (ed_authors_indexed d) (ed_snapshot_cache d) (ed_checkpoint d)
                (index_catchup_op (ed_catchup_index d) (ed_doc d) (len (ed_log d)) op)).

(** * Reads *)

Definition op_count (d : EncryptedDoc) : N := len (ed_log d).

(** [EncryptedDoc::heads] *)
Definition doc_heads (d : EncryptedDoc) : list bytes := sort_unstable (am_get_heads (ed_doc d)).

Definition knows_changes (d : EncryptedDoc) (hashes : list bytes) : bool :=
  forallb (fun h => bool_decide (is_Some (am_get_change_by_hash (ed_doc d) h))) hashes.

(** The loop of [sync_frontier]. *)
Fixpoint frontier_loop (max : N) (hashes : list bytes) (seen : gset bytes) (out : list bytes) : list bytes :=
  match hashes with
  | [] => out
  | hash :: rest =>
      if max <=? len out then out
      else if bool_decide (hash ∈ seen) then frontier_loop max rest seen out
      else frontier_loop max rest ({[hash]} ∪ seen) (out ++ [hash])
  end.

Definition frontier_candidates (doc : AutoCommit) : list bytes :=
  let heads := am_get_heads doc in
  heads ++ concat (ch_deps <$> omap (am_get_change_by_hash doc) heads).

Definition sync_frontier (d : EncryptedDoc) (max : N) : list bytes :=
  frontier_loop max (frontier_candidates (ed_doc d)) ∅ [].

(** * Legacy ingress *)

(** [EncryptedDoc::apply_signed_tracked_observed] *)
Definition apply_signed_tracked (op : SignedOp) (d : EncryptedDoc) : result ReplError (option AppliedOp) * EncryptedDoc :=
  match (_ ← check_doc d (so_doc_type op) (so_doc_id op);
         _ ← refuse_if (is_epoch_managed (ed_doc_type d)) EpochScope;
         refuse_if (bool_decide (so_domain_op op <> None)) Malformed) with
  | Err e => (Err e, d)
  | Ok _ =>
      if bool_decide (signed_op_hash op ∈ ed_applied d) then (Ok None, d)
      else if negb (op_verify op) then (Err BadSignature, d)
      else match change_from_bytes (so_delta op) with
           | Err e => (Err (Codec.Automerge e), d)
           | Ok parsed =>
               if (length (ch_actor parsed) =? length (so_author_device op))%nat
                  && bool_decide (ch_actor parsed <> so_author_device op)
               then (Err ActorMismatch, d)
               else
                 let '(outcome, doc) := am_load_incremental (so_delta op) (ed_doc d) in
                 match outcome with
                 | Err e => (Err (Codec.Automerge e), set_doc doc d)
                 | Ok _ => (Ok (Some (mkAppliedOp (so_author_device op) (ch_hash parsed))),
                            (doc_record op (set_doc doc d)).2)
                 end
           end
  end.

(** [EncryptedDoc::ingest_tracked_observed] *)
Definition ingest_tracked (sealed : SealedOp) (g : ChannelGroup) (d : EncryptedDoc)
    : result ReplError (option AppliedOp) * EncryptedDoc :=
  match (_ ← check_doc d (sl_doc_type sealed) (sl_doc_id sealed);
         _ ← refuse_if (negb (sl_epoch sealed =? mg_epoch (cg_mls g))) (EpochUnavailable (sl_epoch sealed));
         key ← channel_secret g (ed_doc_type d) (ed_doc_id d);
         op_open sealed key) with
  | Err e => (Err e, d)
  | Ok op => apply_signed_tracked op d
  end.

(** [EncryptedDoc::ingest_with_key_tracked_observed] *)
Definition ingest_with_key_tracked (sealed : SealedOp) (expected_epoch : N) (key : bytes) (d : EncryptedDoc)
    : result ReplError (option AppliedOp) * EncryptedDoc :=
  match (_ ← check_doc d (sl_doc_type sealed) (sl_doc_id sealed);
         _ ← refuse_if (negb (sl_epoch sealed =? expected_epoch)) (EpochUnavailable (sl_epoch sealed));
         op_open sealed key) with
  | Err e => (Err e, d)
  | Ok op => apply_signed_tracked op d
  end.

(** The loop of [import_catchup_tracked_observed]. *)
Fixpoint import_loop (key : bytes) (epoch : N) (ops : list SealedOp) (applied : list AppliedOp) (d : EncryptedDoc)
    : list AppliedOp * result ReplError unit * EncryptedDoc :=
  match ops with
  | [] => (applied, Ok tt, d)
  | sealed :: rest =>
      match (_ ← check_doc d (sl_doc_type sealed) (sl_doc_id sealed);
             _ ← refuse_if (negb (sl_epoch sealed =? epoch)) (EpochUnavailable (sl_epoch sealed));
             op_open sealed key) with
      | Err e => (applied, Err e, d)
      | Ok op =>
          let '(result, d) := apply_signed_tracked op d in
          match result with
          | Ok (Some tracked) => import_loop key epoch rest (applied ++ [tracked]) d
          | Ok None => import_loop key epoch rest applied d
          | Err e => (applied, Err e, d)
          end
      end
  end.

Definition import_catchup_tracked (ops : list SealedOp) (g : ChannelGroup) (d : EncryptedDoc)
    : list AppliedOp * result ReplError unit * EncryptedDoc :=
  match channel_secret g (ed_doc_type d) (ed_doc_id d) with
  | Err e => ([], Err e, d)
  | Ok key => import_loop key (mg_epoch (cg_mls g)) ops [] d
  end.

(** * Local edits *)

(** [EncryptedDoc::edit_tracked_observed] *)
Definition edit_tracked (dev : MlsDevice) (g : ChannelGroup) (rng : Rng)
    (edit : AutoCommit -> result bytes unit * AutoCommit) (d : EncryptedDoc)
    : result ReplError (SealedOp * bytes) * EncryptedDoc * Rng :=
  if is_epoch_managed (ed_doc_type d) then (Err EpochScope, d, rng)
  else
    let '(outcome, doc) := edit (ed_doc d) in
    match outcome with
    | Err e => (Err (Codec.Automerge e), set_doc doc d, rng)
    | Ok _ =>
        let d := set_doc (am_commit doc) d in
        match (change ← ok_or (am_get_last_local_change (ed_doc d)) NoChange;
               op ← op_sign dev (ed_doc_type d) (ed_doc_id d) (ch_raw change);
               Ok (change, op)) with
        | Err e => (Err e, d, rng)
        | Ok (change, op) =>
            let '(sealed, rng) := op_seal op g rng in
            match sealed with
            | Err e => (Err e, d, rng)
            | Ok sealed => (Ok (sealed, ch_hash change), (doc_record op d).2, rng)
            end
        end
    end.

(** * Attribution *)

(** The author the signed envelope names for the change it carries. *)
Definition attribute (authors : gmap bytes bytes) (op : SignedOp) : gmap bytes bytes :=
  match change_from_bytes (so_delta op) with
  | Ok change => <[ch_hash change := so_author_device op]> authors
  | Err _ => authors
  end.

Definition index_authors (d : EncryptedDoc) : EncryptedDoc :=
  set_authors (fold_left attribute (skipn (ed_authors_indexed d) (ed_log d)) (ed_change_authors d))
    (length (ed_log d)) d.

(** * The vault snapshot *)

Fixpoint put_log (log : list SignedOp) (e : bytes) : result ReplError bytes :=
  match log with
  | [] => Ok e
  | op :: rest => e ← put_bytes_m (op_encode op) e; put_log rest e
  end.

Definition encode_snapshot (d : EncryptedDoc) : result ReplError bytes :=
  let doc_bytes := am_save (ed_doc d) in
  count ← ok_or (if len (ed_log d) <=? u32_max then Some (len (ed_log d)) else None) Malformed;
  let e := [] |> put_u16 (doc_tag (ed_doc_type d)) |> put_u128 (ed_doc_id d) in
  e ← put_bytes_m doc_bytes e;
  let e := put_u32 count e in
  e ← put_log (ed_log d) e;
  match ed_checkpoint d with
  | None => Ok e
  | Some origin =>
      let e := put_u8 1 e in
      encoded ← origin_encode origin;
      put_bytes_m encoded e
  end.

(** [EncryptedDoc::snapshot] *)
Definition doc_snapshot (d : EncryptedDoc) : result ReplError bytes * EncryptedDoc :=
  let key := (am_get_heads (ed_doc d), len (ed_log d)) in
  match (match ed_snapshot_cache d with
         | Some (cached_key, bs) => if bool_decide (cached_key = key) then Some bs else None
         | None => None
         end) with
  | Some bs => (Ok bs, d)
  | None =>
      match encode_snapshot d with
      | Err e => (Err e, d)
      | Ok bs => (Ok bs, set_cache (if len bs <=? MAX_CACHED_SNAPSHOT_BYTES then Some (key, bs) else None) d)
      end
  end.

Definition get_log_op : dec ReplError SignedOp :=
  b ← mal get_bytes;
  dec_lift (op_decode b).

(** One operation of the restored log, with the sets derived from it. *)
Definition restore_op (doc : AutoCommit) (s : list SignedOp * gset bytes * AncestryIndex) (op : SignedOp)
    : list SignedOp * gset bytes * AncestryIndex :=
  let '(log, applied, ix) := s in
  (log ++ [op], {[signed_op_hash op]} ∪ applied, index_catchup_op ix doc (len log) op).

Definition get_checkpoint (t : DocType) (doc_id : N) (doc : AutoCommit) : dec ReplError CheckpointOrigin :=
  version ← mal get_u8;
  _ ← dec_refuse (negb (version =? 1)) Malformed;
  b ← mal get_bytes;
  origin ← dec_lift (origin_decode b);
  _ ← dec_refuse (bool_decide (doc_type (cp_document origin) <> t) || negb (origin_doc_id origin =? doc_id)) EpochScope;
  seed ← dec_lift (ok_or (am_get_change_by_hash doc (cp_seed_hash origin)) Malformed);
  _ ← dec_lift (validate_change origin (ch_raw seed));
  mret origin.

Definition get_doc_snapshot : dec ReplError EncryptedDoc :=
  tag ← mal get_u16;
  t ← dec_lift (ok_or (doc_from_tag tag) Malformed);
  doc_id ← mal get_u128;
  doc_bytes ← mal get_bytes;
  doc ← dec_lift (am_error (am_load doc_bytes));
  count ← mal get_u32;
  ops ← get_n (N.to_nat count) get_log_op;
  let '(log, applied, ix) := fold_left (restore_op doc) ops ([], ∅, index_default) in
  checkpoint ← get_more (get_checkpoint t doc_id doc);
  mret (mkEncryptedDoc t doc_id doc log applied ∅ 0 None checkpoint ix).

(** [EncryptedDoc::restore] *)
Definition doc_restore (input : bytes) : result ReplError EncryptedDoc := run_exact get_doc_snapshot input.

Definition restore_for_actor (input actor : bytes) : result ReplError EncryptedDoc :=
  restored ← doc_restore input;
  Ok (set_doc (am_set_actor actor (ed_doc restored)) restored).
End document.

(** * The invariant *)

Section invariant.
Context {C : Crypto} {A : Aead} {M : Automerge}.

Definition doc_graph (d : EncryptedDoc) : graph := am_get_change_by_hash (ed_doc d).
Definition carried_log (d : EncryptedDoc) : list (option bytes) := carried <$> ed_log d.

(** The operation belongs to this document, is canonical and verifies. *)
Definition logged_ok (d : EncryptedDoc) (op : SignedOp) : Prop :=
  so_doc_type op = ed_doc_type d /\ so_doc_id op = ed_doc_id d /\ signed_op_ok op /\ op_verify op = true.

(** The checkpoint origin names this document, and its seed is in the graph. *)
Definition checkpoint_ok (d : EncryptedDoc) (o : CheckpointOrigin) : Prop :=
  origin_ok o /\ doc_type (cp_document o) = ed_doc_type d /\ origin_doc_id o = ed_doc_id d /\
  exists seed, doc_graph d (cp_seed_hash o) = Some seed /\ is_ok (validate_change o (ch_raw seed)) = true.

Record document_core (d : EncryptedDoc) : Prop := mkDocumentCore {
  di_id : ed_doc_id d <= u128_max;
  di_log : Forall (logged_ok d) (ed_log d);
  di_applied : ed_applied d = list_to_set (signed_op_hash <$> ed_log d);
  di_nodup : NoDup (signed_op_hash <$> ed_log d);
  di_index : ancestry_ok (doc_graph d) (carried_log d) (ed_catchup_index d);
  di_checkpoint o : ed_checkpoint d = Some o -> checkpoint_ok d o;
  di_authors : (ed_authors_indexed d <= length (ed_log d))%nat /\
    ed_change_authors d = fold_left attribute (firstn (ed_authors_indexed d) (ed_log d)) ∅
}.

(** A cached snapshot encodes an earlier state of this very document. *)
Definition snapshot_cache_ok (d : EncryptedDoc) (key : SnapshotKey) (bs : bytes) : Prop :=
  exists d0, document_core d0 /\ extends (doc_graph d0) (doc_graph d) /\ ed_log d0 `prefix_of` ed_log d /\
    (ed_doc_type d0, ed_doc_id d0, ed_checkpoint d0) = (ed_doc_type d, ed_doc_id d, ed_checkpoint d) /\
    key = (am_get_heads (ed_doc d0), len (ed_log d0)) /\ encode_snapshot d0 = Ok bs.

Definition document_inv (d : EncryptedDoc) : Prop :=
  document_core d /\ forall key bs, ed_snapshot_cache d = Some (key, bs) -> snapshot_cache_ok d key bs.

(** A cached snapshot stays valid while the document only grows. *)
Lemma cache_grows d d' key bs :
  extends (doc_graph d) (doc_graph d') -> ed_log d `prefix_of` ed_log d' ->
  (ed_doc_type d, ed_doc_id d, ed_checkpoint d) = (ed_doc_type d', ed_doc_id d', ed_checkpoint d') ->
  snapshot_cache_ok d key bs -> snapshot_cache_ok d' key bs.
Proof.
  intros HG Hl He (d0 & H0 & H1 & H2 & H3 & H4 & H5). exists d0.
  split_and!; [done|by etransitivity|by etransitivity|congruence|done..].
Qed.
End invariant.

(** * Steps keep the invariant *)

Section preservation.
Context {C : Crypto} {A : Aead} {M : Automerge} {L : AutomergeLaws M}.

Lemma index_catchup_op_ok ix doc log op :
  ancestry_ok (am_get_change_by_hash doc) (carried <$> log) ix ->
  ancestry_ok (am_get_change_by_hash doc) (carried <$> log ++ [op]) (index_catchup_op ix doc (len log) op).
Proof using L.
  intros H. pose proof (doc_closed doc) as Hc. rewrite fmap_app. cbn [fmap list_fmap].
  assert (H' : ancestry_ok (am_get_change_by_hash doc) ((carried <$> log) ++ [carried op]) ix)
    by (by eapply ancestry_extends).
  unfold index_catchup_op. destruct (is_epoch_managed _); [done|]. 
  destruct (change_from_bytes (so_delta op)) as [ch|e] eqn:Ech; [|done].
  assert (carried op = Some (ch_hash ch)) as Ec by (unfold carried; by rewrite Ech). rewrite Ec in H' |- *.
  destruct (am_get_change_by_hash doc (ch_hash ch)) as [c|] eqn:E; [|done].
  replace (len log) with (len (carried <$> log)) by (unfold len; by rewrite length_fmap).
  by apply index_record_ok.
Qed.

Lemma set_doc_inv doc d :
  document_inv d -> extends (doc_graph d) (am_get_change_by_hash doc) -> document_inv (set_doc doc d).
Proof using L.
  intros [[] Hcache] HG. split; [constructor; try done|].
  - unfold doc_graph, carried_log. cbn. rewrite <- (app_nil_r (carried <$> ed_log d)).
    eapply ancestry_extends; [exact HG|apply doc_closed|done].
  - intros o Ho. destruct (di_checkpoint0 o Ho) as (H1 & H2 & H3 & seed & H4 & H5). split_and!; [done..|].
    exists seed. split; [by apply HG|done].
  - intros key bs Hk. eapply cache_grows; [exact HG|done..|by apply Hcache].
Qed.

Lemma doc_record_inv op d : document_inv d -> logged_ok d op -> document_inv (doc_record op d).2.
Proof using L.
  intros Hd Ho. unfold doc_record. case_bool_decide as Hin; [done|]. destruct Hd as [[] Hcache]. cbn. split; [constructor; cbn|].
  - done.
  - apply Forall_app. split; [done|]. by constructor.
  - rewrite di_applied0, fmap_app, list_to_set_app_L. cbn. set_solver.
  - rewrite fmap_app. apply NoDup_app. split_and!; [done| |apply NoDup_singleton].
    intros x Hx ->%list_elem_of_singleton. apply Hin. rewrite di_applied0. by apply elem_of_list_to_set.
  - unfold carried_log, doc_graph; cbn. by apply index_catchup_op_ok.
  - done.
  - destruct di_authors0 as [H1 H2]. rewrite length_app. split; [lia|]. by rewrite take_app_le by lia.
  - intros key bs Hk. eapply cache_grows; [..|by apply Hcache]; cbn; [done|by eexists|done].
Qed.

Lemma set_cache_inv cache d :
  document_inv d -> (forall key bs, cache = Some (key, bs) -> snapshot_cache_ok d key bs) -> document_inv (set_cache cache d).
Proof using. intros [[] _] Hc. by split. Qed.

(** ** Ingress *)

Lemma check_doc_ok d t id u : check_doc d t id = Ok u -> t = ed_doc_type d /\ id = ed_doc_id d.
Proof using. unfold check_doc. intros H%refuse_if_ok. bool_simpl. done. Qed.

(** What [apply_signed_tracked] can do: nothing, a mutation of the document
    alone behind an error, or one recorded operation. *)
Lemma apply_signed_cases op d :
  let '(r, d') := apply_signed_tracked op d in
  d' = d /\ (forall x, r <> Ok (Some x)) /\ (r = Ok None -> signed_op_hash op ∈ ed_applied d) \/
  exists parsed, change_from_bytes (so_delta op) = Ok parsed /\ op_verify op = true /\
    so_doc_type op = ed_doc_type d /\ so_doc_id op = ed_doc_id d /\
    is_epoch_managed (ed_doc_type d) = false /\ so_domain_op op = None /\
    (signed_op_hash op ∉ ed_applied d) /\
    let '(outcome, doc) := am_load_incremental (so_delta op) (ed_doc d) in
    match outcome with
    | Err e => r = Err (Codec.Automerge e) /\ d' = set_doc doc d
    | Ok _ => r = Ok (Some (mkAppliedOp (so_author_device op) (ch_hash parsed))) /\ d' = (doc_record op (set_doc doc d)).2
    end.
Proof using.
  unfold apply_signed_tracked.
  destruct (_ ← check_doc d _ _; _) as [u|e] eqn:Eg; [|by left].
  apply bind_ok in Eg as ([] & [Ht Hi]%check_doc_ok & Eg). apply refuse_if_bind_ok in Eg as [Em Eg].
  apply refuse_if_ok in Eg. bool_simpl.
  case_bool_decide as Hin; [by left|]. destruct (op_verify op) eqn:Ev; [|by left]. cbn [negb].
  destruct (change_from_bytes (so_delta op)) as [parsed|e] eqn:Ep; [|by left].
  destruct (_ && _); [by left|]. destruct (am_load_incremental _ _) as [[x|e] doc] eqn:El; right; exists parsed; by split_and!.
Qed.

(** A known operation changes nothing. *)
Lemma apply_signed_known op d :
  so_doc_type op = ed_doc_type d -> so_doc_id op = ed_doc_id d -> is_epoch_managed (ed_doc_type d) = false ->
  so_domain_op op = None -> signed_op_hash op ∈ ed_applied d -> apply_signed_tracked op d = (Ok None, d).
Proof using.
  intros Ht Hi Hm Hd Hin. unfold apply_signed_tracked, check_doc. rewrite Ht, Hi, N.eqb_refl, Hm, Hd.
  rewrite !bool_decide_eq_false_2 by (by intros []). cbn. by rewrite bool_decide_eq_true_2.
Qed.

Lemma apply_signed_inv op d :
  document_inv d -> signed_op_ok op -> document_inv (apply_signed_tracked op d).2.
Proof using L.
  intros Hd Hok. pose proof (apply_signed_cases op d) as H. destruct (apply_signed_tracked op d) as [r d'].
  destruct H as [(-> & _)|(parsed & _ & Hv & Ht & Hi & _ & _ & _ & H)]; [done|]. cbn [snd].
  pose proof (am_load_incremental_extends (so_delta op) (ed_doc d)) as Hx.
  destruct (am_load_incremental _ _) as [[x|e] doc]; destruct H as [_ ->].
  - apply doc_record_inv; [by apply set_doc_inv|]. by split_and!.
  - by apply set_doc_inv.
Qed.

Lemma opened_ok s key op : op_open s key = Ok op -> signed_op_ok op.
Proof using.
  unfold op_open. intros H. apply bind_ok in H as (p & _ & H). apply bind_ok in H as (b & _ & H).
  by apply op_decode_spec in H as [_ H].
Qed.

(** Both single-operation entries and the import loop apply opened operations. *)
Lemma guarded_apply_inv (r : result ReplError SignedOp) d :
  document_inv d -> (forall op, r = Ok op -> signed_op_ok op) ->
  document_inv (match r with Err e => (Err e, d) | Ok op => apply_signed_tracked op d end).2.
Proof using L. intros Hd Hr. destruct r as [op|]; [|done]. by apply apply_signed_inv; [|apply Hr]. Qed.

Lemma ingest_tracked_inv sealed g d : document_inv d -> document_inv (ingest_tracked sealed g d).2.
Proof using L.
  intros Hd. apply guarded_apply_inv; [done|]. intros op H. res_inv. by eapply opened_ok.
Qed.

Lemma ingest_with_key_inv sealed e key d : document_inv d -> document_inv (ingest_with_key_tracked sealed e key d).2.
Proof using L.
  intros Hd. apply guarded_apply_inv; [done|]. intros op H. res_inv. by eapply opened_ok.
Qed.

Lemma import_loop_inv key epoch ops : forall applied d,
  document_inv d -> document_inv (import_loop key epoch ops applied d).2.
Proof using L.
  induction ops as [|s ops IH]; intros applied d Hd; cbn [import_loop]; [done|].
  destruct (_ ← check_doc d _ _; _) as [op|e] eqn:E; [|done].
  assert (Hok : signed_op_ok op) by (res_inv; by eapply opened_ok).
  pose proof (apply_signed_inv op d Hd Hok) as H. destruct (apply_signed_tracked op d) as [[[t|]|e] d']; cbn in H; auto.
Qed.

Lemma import_catchup_inv ops g d : document_inv d -> document_inv (import_catchup_tracked ops g d).2.
Proof using L. intros Hd. unfold import_catchup_tracked. destruct (channel_secret _ _ _); [by apply import_loop_inv|done]. Qed.

(** ** Edits, creation and derived indexes *)

(** An editing closure adds changes; the one it commits is below 4 GiB. *)
Definition edit_safe (edit : AutoCommit -> result bytes unit * AutoCommit) (doc : AutoCommit) : Prop :=
  extends (am_get_change_by_hash doc) (am_get_change_by_hash (edit doc).2) /\
  forall change, am_get_last_local_change (am_commit (edit doc).2) = Some change -> len (ch_raw change) <= u32_max.

Lemma edit_tracked_inv dev g rng edit d :
  document_inv d -> honest_device dev -> edit_safe edit (ed_doc d) -> document_inv (edit_tracked dev g rng edit d).1.2.
Proof using L.
  intros Hd Hdev [Hx Hl]. unfold edit_tracked. destruct (is_epoch_managed _); [done|].
  destruct (edit (ed_doc d)) as [[u|e] doc]; cbn [snd] in *; [|by apply set_doc_inv].
  assert (Hd' : document_inv (set_doc (am_commit doc) d)).
  { apply set_doc_inv; [done|]. etransitivity; [exact Hx|apply am_commit_extends]. }
  destruct (change ← _; _) as [[change op]|e] eqn:E; [|done].
  apply bind_ok in E as (ch & Hch & E). apply bind_ok in E as (o & Ho & [= -> ->]).
  destruct (op_seal op g rng) as [[sealed|e] rng']; [|done]. apply doc_record_inv; [done|].
  cbn [set_doc ed_doc_type ed_doc_id ed_doc] in *. destruct (am_get_last_local_change _) as [ch'|] eqn:Ec; [|done]. injection Hch as ->.
  destruct (op_sign_ok dev _ _ _ op Hdev ltac:(split; [apply Hd|by apply Hl]) Ho) as (H1 & H2 & _).
  unfold op_sign in Ho. apply bind_ok in Ho as (sg & _ & [= <-]). by split_and!.
Qed.

Lemma doc_new_inv t id actor : id <= u128_max -> document_inv (doc_new t id actor).
Proof using.
  intros Hid. split; [constructor; cbn; try done|done].
  - apply NoDup_nil_2.
  - apply with_capacity_ok.
Qed.

Lemma from_checkpoint_inv vc actor d :
  origin_ok (cs_origin (vc_seed vc)) -> origin_doc_id (cs_origin (vc_seed vc)) <= u128_max ->
  (forall c, change_from_bytes (cs_bytes (vc_seed vc)) = Ok c -> ch_deps c = [] ->
     is_Some (am_get_change_by_hash (am_apply_changes [c] (am_new actor)).2 (ch_hash c))) ->
  from_checkpoint vc actor = Ok d -> document_inv d.
Proof using L.
  intros Ho Hid Hin H. unfold from_checkpoint in H. apply bind_ok in H as (c & Hc & H). apply bind_ok in H as (doc & Hdoc & [= <-]).
  cbn in Hdoc. unfold apply_seed in Hdoc. pose proof (validate_change_inv _ _ _ Hc) as (_ & _ & _ & _ & Hp & Hs & _).
  unfold seed_shape in Hs. bool_simpl. specialize (Hin c Hp ltac:(by destruct (ch_deps c))).
  destruct (am_apply_changes [c] (am_new actor)) as [[u|e] doc'] eqn:E; [|done]. cbn in Hdoc. injection Hdoc as ->.
  split; [constructor; cbn; try done; [apply NoDup_nil_2|apply with_capacity_ok|]|done].
  intros o [= <-]. unfold checkpoint_ok, doc_graph; cbn. split_and!; [done..|].
  destruct Hin as [seed Hseed]. assert (seed = c) as ->.
  { destruct (am_graph doc) as (_ & _ & Hg). apply Hg in Hseed as [Hseed _]. apply (am_apply_new actor c). by rewrite E. }
  exists c. split; [match goal with H : ch_hash c = _ |- _ => by rewrite <- H end|]. match goal with H : ch_raw c = _ |- _ => rewrite H end. by rewrite Hc.
Qed.

Lemma index_authors_inv d : document_inv d -> document_inv (index_authors d).
Proof using.
  intros [[] Hcache]. split; [constructor; cbn; try done|by intros key bs Hk; eapply cache_grows; [..|apply Hcache]]. destruct di_authors0 as [H1 H2]. split; [done|].
  rewrite firstn_all, H2, <- fold_left_app. by rewrite take_drop.
Qed.
End preservation.

(** * The snapshot is faithful *)

Section snapshot.
Context {C : Crypto} {A : Aead} {M : Automerge} {L : AutomergeLaws M}.

(** Every change lies behind a head. *)
Lemma behind_head doc h : is_Some (am_get_change_by_hash doc h) ->
  exists head, head ∈ am_get_heads doc /\ behind (am_get_change_by_hash doc) head h.
Proof using L.
  pose proof (am_graph doc) as He. pose proof He as (_ & Hd & Hg). intros Hh.
  apply (enumerated_hash _ _ _ He) in Hh. unfold hashes in Hh. apply list_elem_of_fmap in Hh as (c & -> & Hc).
  apply list_elem_of_split in Hc as (l1 & l2 & Hl). remember (length l2) as n eqn:Hn. revert l1 c l2 Hl Hn.
  induction n as [n IH] using lt_wf_ind. intros l1 c l2 Hl ->.
  assert (Hself : behind (am_get_change_by_hash doc) (ch_hash c) (ch_hash c)).
  { eapply behind_self, Hg. split; [rewrite Hl; apply elem_of_app; right; left|done]. }
  destruct (decide (Exists (fun x => ch_hash c ∈ ch_deps x) (am_changes doc))) as [Hex|Hno].
  - apply Exists_exists in Hex as (x & Hx & Hdep). pose proof Hx as Hx'. rewrite Hl in Hx. apply elem_of_app in Hx as [Hx|Hx].
    + apply list_elem_of_split in Hx as (k1 & k2 & ->). exfalso.
      assert (Hin : ch_hash c ∈ hashes k1) by (eapply Hd; [rewrite Hl; by rewrite <- app_assoc|done]).
      destruct He as (Hn & _). rewrite Hl in Hn. unfold hashes in *. rewrite !fmap_app in Hn. cbn in Hn.
      apply NoDup_app in Hn as (_ & Hn & _). apply (Hn (ch_hash c)); [|left]. apply elem_of_app. by left.
    + apply elem_of_cons in Hx as [->|Hx].
      * exfalso. assert (Hin : ch_hash c ∈ hashes l1) by (by eapply Hd).
        destruct He as (Hn & _). rewrite Hl in Hn. unfold hashes in *. rewrite fmap_app in Hn.
        apply NoDup_app in Hn as (_ & Hn & _). apply (Hn (ch_hash c)); [done|left].
      * apply list_elem_of_split in Hx as (k1 & k2 & ->).
        destruct (IH (length k2)) with (l1 := l1 ++ c :: k1) (c := x) (l2 := k2) as (hd & H1 & H2); [rewrite length_app; cbn; lia| |done|].
        { rewrite Hl. by rewrite <- app_assoc. }
        exists hd. split; [done|]. eapply behind_trans; [exact H2|]. eapply behind_dep; [by apply Hg|exact Hdep|done].
  - exists (ch_hash c). split; [|done]. apply am_heads_spec. split; [by apply behind_known in Hself as [? _]|].
    intros h' c' Hc' Hin. apply Hno, Exists_exists. exists c'. split; [by apply Hg in Hc' as [? _]|done].
Qed.

(** So a document that only grew and kept its heads did not grow. *)
Lemma same_heads doc doc' h :
  doc_extends doc doc' -> am_get_heads doc = am_get_heads doc' ->
  am_get_change_by_hash doc h = am_get_change_by_hash doc' h.
Proof using L.
  intros HG Hh. destruct (am_get_change_by_hash doc h) as [c|] eqn:E; [by rewrite (HG _ _ E)|].
  destruct (am_get_change_by_hash doc' h) as [c'|] eqn:E'; [|done]. exfalso.
  destruct (behind_head doc' h) as (hd & Hin & Hb); [by eexists|]. rewrite <- Hh in Hin. apply am_heads_spec in Hin as [Hk _].
  eapply behind_stable in Hb; [|exact HG|apply doc_closed|done]. apply behind_known in Hb as [_ [x Hx]]. congruence.
Qed.

Definition checkpoint_tail (o : CheckpointOrigin) : bytes := be_bytes 1 1 ++ lp (origin_bytes o).

Definition doc_snapshot_bytes (d : EncryptedDoc) : bytes :=
  be_bytes 2 (doc_tag (ed_doc_type d)) ++ be_bytes 16 (ed_doc_id d) ++ lp (am_save (ed_doc d)) ++
  be_bytes 4 (len (ed_log d)) ++ concat ((fun op => lp (op_encode op)) <$> ed_log d) ++
  more_bytes checkpoint_tail (ed_checkpoint d).

Lemma put_bytes_m_inv v e out : put_bytes_m v e = Ok out -> out = e ++ lp v /\ len v <= u32_max.
Proof using.
  intros H. destruct (N.le_gt_cases (len v) u32_max) as [Hl|Hl]; [rewrite put_bytes_m_ok in H by done; by injection H as <-|].
  unfold put_bytes_m, put_bytes in H. by rewrite (proj2 (N.leb_gt _ _) Hl) in H.
Qed.

Lemma put_log_inv log : forall e out, put_log log e = Ok out ->
  out = e ++ concat ((fun op => lp (op_encode op)) <$> log) /\ Forall (fun op => len (op_encode op) <= u32_max) log.
Proof using.
  induction log as [|op log IH]; intros e out H; cbn [put_log] in H.
  - injection H as <-. cbn. by rewrite app_nil_r.
  - apply bind_ok in H as (e1 & [-> Hl]%put_bytes_m_inv & H). apply IH in H as [-> Hf]. split; [|by constructor].
    cbn. by rewrite <- app_assoc.
Qed.

Lemma encode_snapshot_inv d bs :
  document_core d -> encode_snapshot d = Ok bs ->
  bs = doc_snapshot_bytes d /\ len (am_save (ed_doc d)) <= u32_max /\ len (ed_log d) <= u32_max /\
  Forall (fun op => len (op_encode op) <= u32_max) (ed_log d).
Proof using.
  intros Hd H. unfold encode_snapshot in H. apply bind_ok in H as (n & Hn & H).
  destruct (N.leb_spec (len (ed_log d)) u32_max) as [Hl|]; [|done]. injection Hn as <-.
  apply bind_ok in H as (e & [-> Hs]%put_bytes_m_inv & H). apply bind_ok in H as (e & [-> Hf]%put_log_inv & H).
  split_and!; try done. unfold doc_snapshot_bytes, put_u32, put_u16, put_u128 in *. destruct (ed_checkpoint d) as [o|] eqn:Eo.
  - rewrite (origin_encode_ok o) in H by (by apply (di_checkpoint d Hd o Eo)). rewrite bind_Ok in H.
    apply put_bytes_m_inv in H as [-> _]. unfold checkpoint_tail, put_u8. cbn [app more_bytes]. by rewrite <- !app_assoc.
  - injection H as <-. cbn [app more_bytes]. by rewrite <- !app_assoc, app_nil_r.
Qed.

Lemma reads_log_op op : signed_op_ok op -> len (op_encode op) <= u32_max -> reads get_log_op (lp (op_encode op)) op.
Proof using.
  intros Hok Hl. unfold get_log_op. rewrite <- (app_nil_r (lp _)). eapply reads_bind; [by apply reads_mal, reads_bytes|].
  apply reads_lift_ok. by apply op_decode_encode.
Qed.

Lemma restore_fold doc ops : forall log applied ix,
  ancestry_ok (am_get_change_by_hash doc) (carried <$> log) ix ->
  exists ix', fold_left (restore_op doc) ops (log, applied, ix) =
    (log ++ ops, list_to_set (signed_op_hash <$> ops) ∪ applied, ix') /\
    ancestry_ok (am_get_change_by_hash doc) (carried <$> log ++ ops) ix'.
Proof using L.
  induction ops as [|op ops IH]; intros log applied ix H; cbn [fold_left].
  - exists ix. rewrite app_nil_r. split; [|done]. cbn. f_equal. f_equal. set_solver.
  - destruct (IH (log ++ [op]) ({[signed_op_hash op]} ∪ applied) _ (index_catchup_op_ok ix doc log op H)) as (ix' & E & Hix).
    exists ix'. cbn [restore_op]. rewrite <- app_assoc in E, Hix. split; [|done]. rewrite E. cbn. f_equal. f_equal. set_solver.
Qed.

Lemma reads_checkpoint t id doc o :
  origin_ok o -> doc_type (cp_document o) = t -> origin_doc_id o = id ->
  (exists seed, am_get_change_by_hash doc (cp_seed_hash o) = Some seed /\ is_ok (validate_change o (ch_raw seed)) = true) ->
  reads (get_checkpoint t id doc) (checkpoint_tail o) o.
Proof using.
  intros Ho Ht Hi (seed & Hs & Hv). unfold get_checkpoint, checkpoint_tail.
  pose proof (origin_bytes_len _ Ho) as Hl. unfold u32_max in *.
  destruct (validate_change o (ch_raw seed)) as [c|] eqn:Ev; [|done]. reads_go.
  - by apply reads_mal, reads_u8.
  - done.
  - apply reads_mal, reads_bytes. unfold u32_max. lia.
  - by apply origin_decode_spec.
  - rewrite Ht, Hi, N.eqb_refl, bool_decide_eq_false_2; [done|]. by intros [].
  - by rewrite Hs.
  - exact Ev.
Qed.

(** The parts of a document a restart must not change. *)
Definition persisted (d : EncryptedDoc) : DocType * N * list SignedOp * gset bytes * option CheckpointOrigin :=
  (ed_doc_type d, ed_doc_id d, ed_log d, ed_applied d, ed_checkpoint d).

Lemma restore_encode d bs :
  document_core d -> encode_snapshot d = Ok bs ->
  exists d', doc_restore bs = Ok d' /\ document_inv d' /\ persisted d' = persisted d /\
    am_changes (ed_doc d') = am_changes (ed_doc d) /\ am_get_heads (ed_doc d') = am_get_heads (ed_doc d).
Proof using L.
  intros Hd H. destruct (encode_snapshot_inv d bs Hd H) as (-> & Hs & Hl & Hf).
  destruct (am_load_save (ed_doc d)) as (doc' & Hload & Hch & Hhd).
  destruct (restore_fold doc' (ed_log d) [] ∅ index_default (with_capacity_ok _ _ _)) as (ix & Efold & Hix). cbn [app] in *.
  assert (Hg : forall h c, am_get_change_by_hash (ed_doc d) h = Some c -> am_get_change_by_hash doc' h = Some c)
    by (by apply same_changes_extends).
  assert (Hcp : forall o, ed_checkpoint d = Some o -> reads (get_checkpoint (ed_doc_type d) (ed_doc_id d) doc') (checkpoint_tail o) o).
  { intros o Ho. destruct (di_checkpoint d Hd o Ho) as (H1 & H2 & H3 & seed & H4 & H5). apply reads_checkpoint; try done.
    exists seed. split; [by apply Hg|done]. }
  set (d' := mkEncryptedDoc (ed_doc_type d) (ed_doc_id d) doc' (ed_log d) (list_to_set (signed_op_hash <$> ed_log d) ∪ ∅) ∅ 0 None
    (ed_checkpoint d) ix).
  exists d'. split; [|split; [|split_and!; [|done..]]].
  - apply run_exact_reads_all. unfold get_doc_snapshot, doc_snapshot_bytes.
    eapply reads_all_bind; [apply reads_mal, reads_u16, doc_tag_u16|].
    eapply reads_all_lift; [by rewrite doc_from_tag_tag|].
    eapply reads_all_bind; [apply reads_mal, reads_u128, Hd|].
    eapply reads_all_bind; [by apply reads_mal, reads_bytes|].
    eapply reads_all_lift; [by rewrite Hload|].
    eapply reads_all_bind; [by apply reads_mal, reads_u32|].
    eapply reads_all_bind with (a := ed_log d).
    { unfold len. rewrite Nnat.Nat2N.id. apply (reads_n get_log_op (fun op => lp (op_encode op))). apply Forall_forall. intros op Hop.
      apply reads_log_op; [|by eapply Forall_forall in Hf]. pose proof (di_log d Hd) as HL. eapply Forall_forall in HL; [|done]. apply HL. }
    rewrite Efold. apply (reads_all_last (get_more _) (fun cp => mkEncryptedDoc _ _ _ _ _ _ _ _ cp _)), reads_all_more.
    intros o Ho. split; [by apply Hcp|]. unfold checkpoint_tail. autorewrite with mewtual_len. lia.
  - destruct Hd. split; [constructor; cbn; try done|done].
    + set_solver.
    + intros o Ho. destruct (di_checkpoint0 o Ho) as (H1 & H2 & H3 & seed & H4 & H5). split_and!; [done..|].
      exists seed. split; [by apply Hg|done].
    + split; [lia|done].
  - unfold persisted. cbn. rewrite (di_applied d Hd). repeat f_equal. set_solver.
Qed.
End snapshot.

(** * Runs of a document *)

Section runs.
Context {C : Crypto} {A : Aead} {M : Automerge} {L : AutomergeLaws M}.

(** Everything that can happen to a legacy document, including a restart from
    the snapshot the vault holds. *)
Inductive doc_step : EncryptedDoc -> EncryptedDoc -> Prop :=
| ds_edit dev g rng edit d :
    honest_device dev -> edit_safe edit (ed_doc d) -> doc_step d (edit_tracked dev g rng edit d).1.2
| ds_ingest sealed g d : doc_step d (ingest_tracked sealed g d).2
| ds_ingest_key sealed epoch key d : doc_step d (ingest_with_key_tracked sealed epoch key d).2
| ds_import ops g d : doc_step d (import_catchup_tracked ops g d).2
| ds_authors d : doc_step d (index_authors d)
| ds_snapshot d : doc_step d (doc_snapshot d).2
| ds_restart actor bs d d' :
    (doc_snapshot d).1 = Ok bs -> restore_for_actor bs actor = Ok d' -> doc_step d d'.

Lemma doc_snapshot_inv d :
  document_inv d -> document_inv (doc_snapshot d).2 /\
  forall bs, (doc_snapshot d).1 = Ok bs -> snapshot_cache_ok d (am_get_heads (ed_doc d), len (ed_log d)) bs.
Proof using.
  intros Hd. set (key := (am_get_heads (ed_doc d), len (ed_log d))).
  assert (Hnow : forall bs, encode_snapshot d = Ok bs -> snapshot_cache_ok d key bs) by (intros bs He; exists d; by split_and!; [apply Hd|..]).
  unfold doc_snapshot. fold key.
  destruct (match ed_snapshot_cache d with Some _ => _ | None => None end) as [bs|] eqn:Ec.
  - split; [done|]. intros bs' [= <-]. destruct (ed_snapshot_cache d) as [[k b]|] eqn:Eca; [|done].
    case_bool_decide; [|done]. injection Ec as ->. subst k. by apply Hd.
  - destruct (encode_snapshot d) as [bs|e] eqn:Ee; [|done]. split.
    + apply set_cache_inv; [done|]. intros k b. destruct (_ <=? _); [|done]. intros [= <- <-]. by apply Hnow.
    + intros bs' [= <-]. by apply Hnow.
Qed.

(** What a snapshot restores to, cached or not. *)
Lemma doc_snapshot_restores d bs actor :
  document_inv d -> (doc_snapshot d).1 = Ok bs ->
  exists d', restore_for_actor bs actor = Ok d' /\ document_inv d' /\ persisted d' = persisted d /\
    forall h, doc_graph d' h = doc_graph d h.
Proof using L.
  intros Hd H. apply (doc_snapshot_inv d Hd) in H as (d0 & Hc0 & HG & Hp & He & Hk & Henc).
  injection Hk as Hheads Hlen. assert (ed_log d0 = ed_log d) as Elog.
  { destruct Hp as [k Hp]. rewrite Hp in Hlen. rewrite len_app in Hlen. destruct k; [by rewrite Hp, app_nil_r|].
    rewrite len_cons in Hlen. lia. }
  destruct (restore_encode d0 bs Hc0 Henc) as (d1 & Hr & H1 & H2 & H3 & _).
  assert (Hsame : forall h, doc_graph d1 h = doc_graph d h).
  { intros h. transitivity (doc_graph d0 h); [|by apply same_heads].
    destruct (am_graph (ed_doc d1)) as (_ & _ & G1), (am_graph (ed_doc d0)) as (_ & _ & G0). unfold doc_graph.
    rewrite H3 in G1. apply option_eq. intros c. by rewrite G1, G0. }
  assert (Hact : doc_extends (ed_doc d1) (am_set_actor actor (ed_doc d1))).
  { apply same_changes_extends. by rewrite am_set_actor_changes. }
  unfold restore_for_actor. rewrite Hr, bind_Ok. eexists. split; [done|]. split; [by apply set_doc_inv|]. split.
  - unfold persisted in *. cbn. injection H2 as -> -> -> -> ->. injection He as -> -> ->. rewrite Elog.
    destruct Hd as [Hd _]. by rewrite (di_applied d Hd), (di_applied d0 Hc0), Elog.
  - intros h. rewrite <- Hsame. unfold doc_graph. cbn.
    destruct (am_graph (ed_doc d1)) as (_ & _ & G1), (am_graph (am_set_actor actor (ed_doc d1))) as (_ & _ & G2).
    rewrite am_set_actor_changes in G2. apply option_eq. intros c. by rewrite G1, G2.
Qed.

Lemma doc_step_inv d d' : document_inv d -> doc_step d d' -> document_inv d'.
Proof using L.
  intros Hd Hs. destruct Hs as [dev g rng edit d ? ?| | | | | |actor bs d d' Hb Hr].
  - by apply edit_tracked_inv.
  - by apply ingest_tracked_inv.
  - by apply ingest_with_key_inv.
  - by apply import_catchup_inv.
  - by apply index_authors_inv.
  - by apply doc_snapshot_inv.
  - destruct (doc_snapshot_restores d bs actor Hd Hb) as (d1 & Hr' & H1 & _). congruence.
Qed.

Lemma doc_run_inv d d' : document_inv d -> rtc doc_step d d' -> document_inv d'.
Proof using L. intros Hd. induction 1 as [|? ? ? Hs _ IH]; [done|]. by apply IH, (doc_step_inv _ _ Hd Hs). Qed.
End runs.

(** * Growth *)

Section growth.
Context {C : Crypto} {A : Aead} {M : Automerge} {L : AutomergeLaws M}.

(** The document kept its identity, its log and its changes. *)
Definition grows (d d' : EncryptedDoc) : Prop :=
  extends (doc_graph d) (doc_graph d') /\ ed_log d `prefix_of` ed_log d' /\ ed_applied d ⊆ ed_applied d' /\
  ed_doc_type d = ed_doc_type d' /\ ed_doc_id d = ed_doc_id d'.

#[global] Instance grows_preorder : PreOrder grows.
Proof using.
  split; [by intros d|]. intros d1 d2 d3 (A1 & A2 & A3 & A4 & A5) (B1 & B2 & B3 & B4 & B5).
  split_and!; [by etransitivity..|congruence|congruence].
Qed.

Lemma set_doc_grows doc d : extends (doc_graph d) (am_get_change_by_hash doc) -> grows d (set_doc doc d).
Proof using. intros H. by split_and!. Qed.

Lemma doc_record_grows op d : grows d (doc_record op d).2.
Proof using L.
  unfold doc_record. case_bool_decide; [reflexivity|]. split_and!; [done|by eexists| |done|done]. cbn. set_solver.
Qed.

Lemma apply_signed_grows op d : grows d (apply_signed_tracked op d).2.
Proof using L.
  pose proof (apply_signed_cases op d) as H. destruct (apply_signed_tracked op d) as [r d'].
  destruct H as [(-> & _)|(parsed & _ & _ & _ & _ & _ & _ & _ & H)]; [reflexivity|]. cbn [snd].
  pose proof (am_load_incremental_extends (so_delta op) (ed_doc d)) as Hx.
  destruct (am_load_incremental _ _) as [[x|e] doc]; destruct H as [_ ->]; [|by apply set_doc_grows].
  etransitivity; [by apply set_doc_grows|apply doc_record_grows].
Qed.

Lemma import_loop_grows key epoch ops : forall applied d, grows d (import_loop key epoch ops applied d).2.
Proof using L.
  induction ops as [|s ops IH]; intros applied d; cbn [import_loop]; [reflexivity|].
  destruct (_ ← check_doc d _ _; _) as [op|e]; [|reflexivity]. pose proof (apply_signed_grows op d) as H.
  destruct (apply_signed_tracked op d) as [[[t|]|e] d']; cbn in H; [| |done]; (etransitivity; [exact H|apply IH]).
Qed.

Lemma import_catchup_grows ops g d : grows d (import_catchup_tracked ops g d).2.
Proof using L. unfold import_catchup_tracked. destruct (channel_secret _ _ _); [apply import_loop_grows|reflexivity]. Qed.

Lemma doc_step_grows d d' : document_inv d -> doc_step d d' -> grows d d'.
Proof using L.
  intros Hd Hs. destruct Hs as [dev g rng edit d ? [Hx _]|sealed g d|sealed epoch key d|ops g d|d|d|actor bs d d' Hb Hr].
  - unfold edit_tracked. destruct (is_epoch_managed _); [reflexivity|].
    destruct (edit (ed_doc d)) as [[u|e] doc]; cbn [snd] in *; [|by apply set_doc_grows].
    assert (grows d (set_doc (am_commit doc) d)) by (apply set_doc_grows; etransitivity; [exact Hx|apply am_commit_extends]).
    destruct (change ← _; _) as [[change op]|e]; [|done]. destruct (op_seal op g rng) as [[sealed|e] rng']; [|done].
    cbn. etransitivity; [done|apply doc_record_grows].
  - unfold ingest_tracked. destruct (_ ← _; _); [apply apply_signed_grows|reflexivity].
  - unfold ingest_with_key_tracked. destruct (_ ← _; _); [apply apply_signed_grows|reflexivity].
  - apply import_catchup_grows.
  - by split_and!.
  - unfold doc_snapshot. destruct (match ed_snapshot_cache d with Some _ => _ | None => _ end); [reflexivity|].
    by destruct (encode_snapshot d).
  - destruct (doc_snapshot_restores d bs actor Hd Hb) as (d1 & Hr' & _ & H2 & H3). assert (d1 = d') as <- by congruence.
    unfold persisted in H2. injection H2 as E1 E2 E3 E4 _. split_and!; [|by rewrite E3|by rewrite E4|done..].
    intros h c Hc. by rewrite H3.
Qed.

Lemma doc_run_grows d d' : document_inv d -> rtc doc_step d d' -> grows d d' /\ document_inv d'.
Proof using L.
  intros Hd. induction 1 as [|d1 d2 d3 Hs _ IH]; [done|]. destruct (IH (doc_step_inv _ _ Hd Hs)) as [H1 H2].
  split; [|done]. etransitivity; [by apply doc_step_grows|done].
Qed.

(** A successful import has recorded everything it was given. *)
Lemma import_loop_applied key epoch outs : forall ops applied d applied' d',
  import_loop key epoch outs applied d = (applied', Ok tt, d') -> Forall2 (fun s op => op_open s key = Ok op) outs ops ->
  Forall (fun op => signed_op_hash op ∈ ed_applied d') ops.
Proof using L.
  induction outs as [|s outs IH]; intros ops applied d applied' d' H HF; inversion HF as [|? op ? ops' Ho HF']; subst; [constructor|].
  cbn [import_loop] in H. destruct (_ ← check_doc d _ _; _) as [op'|e] eqn:E; [|done].
  assert (op' = op) as -> by (res_inv; congruence).
  pose proof (apply_signed_cases op d) as Hc. destruct (apply_signed_tracked op d) as [r d1].
  assert (Hgo : forall ap, signed_op_hash op ∈ ed_applied d1 -> import_loop key epoch outs ap d1 = (applied', Ok tt, d') ->
    Forall (fun op => signed_op_hash op ∈ ed_applied d') (op :: ops')).
  { intros ap Hin Hl. constructor; [|by eapply IH]. pose proof (import_loop_grows key epoch outs ap d1) as (_ & _ & Hg & _).
    rewrite Hl in Hg. by apply Hg. }
  destruct Hc as [(-> & Hn & Hk)|(parsed & _ & _ & _ & _ & _ & _ & Hin & Hc)].
  - destruct r as [[x|]|e]; [by destruct (Hn x)|by eapply Hgo; [apply Hk|]|done].
  - destruct (am_load_incremental _ _) as [[u|e] doc]; destruct Hc as [-> ->]; [|done]. eapply Hgo; [|done].
    unfold doc_record. rewrite (bool_decide_eq_false_2 (signed_op_hash op ∈ ed_applied (set_doc doc d))) by done. cbn. set_solver.
Qed.

(** Every hash a frontier names is a change the node holds. *)
Lemma frontier_known d max h : h ∈ sync_frontier d max -> is_Some (doc_graph d h).
Proof using L.
  intros H. assert (Hin : h ∈ frontier_candidates (ed_doc d)).
  { unfold sync_frontier in H. revert H. generalize (frontier_candidates (ed_doc d)). intros l.
    enough (HG : forall seen out, h ∈ frontier_loop max l seen out -> h ∈ out \/ h ∈ l) by (intros [?%elem_of_nil|?]%HG; done).
    induction l as [|x l IH]; intros seen out Hl; cbn [frontier_loop] in Hl; [by left|]. destruct (_ <=? _); [by left|].
    case_bool_decide; apply IH in Hl as [Hl|Hl]; [by left|right; by right| |right; by right].
    apply elem_of_app in Hl as [Hl| ->%list_elem_of_singleton]; [by left|right; left]. }
  unfold frontier_candidates in Hin. apply elem_of_app in Hin as [Hin|Hin]; [by apply am_heads_spec in Hin as [? _]|].
  apply list_elem_of_In, in_concat in Hin as (deps & Hd & Hh). apply list_elem_of_In in Hd, Hh.
  apply list_elem_of_fmap in Hd as (c & -> & Hc). apply list_elem_of_omap in Hc as (hd & _ & Hc).
  by eapply doc_closed.
Qed.
End growth.

(** * Properties *)

(** C10: A document's log, its duplicate filter and its ancestry index are
    right after any history of local edits, ingress, catch-up imports,
    snapshots and restarts, whatever peers send. Every logged operation
    verifies and belongs to this document, none is logged twice, the filter
    holds exactly the hashes of the log, the index stays within 4096 entries
    of at most eight ranges, and a certificate covers a log position only if
    the operation there carries the certified change or one of its ancestors
    in the document's graph; a complete certificate misses none of them. *)
Theorem document_log_authentic {C : Crypto} {A : Aead} {M : Automerge} {L : AutomergeLaws M} t id actor d :
  id <= u128_max -> rtc doc_step (doc_new t id actor) d ->
  NoDup (signed_op_hash <$> ed_log d) /\
  (forall h, h ∈ ed_applied d <-> h ∈ signed_op_hash <$> ed_log d) /\
  Forall (fun op => op_verify op = true /\ so_doc_type op = ed_doc_type d /\ so_doc_id op = ed_doc_id d) (ed_log d) /\
  N.of_nat (size (ai_certificates (ed_catchup_index d))) <= MAX_ENTRIES /\
  forall h c, index_get (ed_catchup_index d) h = Some c ->
    len (ce_ranges c) <= MAX_RANGES /\
    (forall p, range_covers (ce_ranges c) p -> exists op a,
       ed_log d !! N.to_nat p = Some op /\ carried op = Some a /\ behind (doc_graph d) h a) /\
    (ce_complete c = true -> forall a, behind (doc_graph d) h a -> exists p op,
       range_covers (ce_ranges c) p /\ ed_log d !! N.to_nat p = Some op /\ carried op = Some a).
Proof.
  intros Hid Hr. destruct (doc_run_inv _ _ (doc_new_inv t id actor Hid) Hr) as [[_ Hl Ha Hn Hi _ _] _].
  split_and!; [done| | | |].
  - intros h. by rewrite Ha, elem_of_list_to_set.
  - eapply Forall_impl; [exact Hl|]. by intros op (H1 & H2 & _ & H3).
  - etransitivity; apply Hi.
  - intros h c Hc. destruct (ao_certificate _ _ _ Hi h c Hc) as [_ _ H1 H2 H3]. split_and!; [done| |].
    + intros p Hp. destruct (H2 p Hp) as (a & Hlk & Hb). unfold carried_log in Hlk. rewrite list_lookup_fmap in Hlk.
      destruct (ed_log d !! N.to_nat p) as [op|] eqn:E; [|done]. injection Hlk as Hlk. by exists op, a.
    + intros Hco a Hb. destruct (H3 Hco a Hb) as (p & Hp & Hlk). unfold carried_log in Hlk. rewrite list_lookup_fmap in Hlk.
      destruct (ed_log d !! N.to_nat p) as [op|] eqn:E; [|done]. injection Hlk as Hlk. by exists p, op.
Qed.

(** C11: A document survives a restart at any point. After any history, the
    snapshot it hands to the vault, whether freshly encoded or served from the
    cache, restores, under whatever local actor, to a document of the same
    type, id, signed log, duplicate filter and checkpoint origin, with exactly
    the same change graph; so the cache key of heads and log length never
    serves stale bytes. *)
Theorem snapshot_crash_safe {C : Crypto} {A : Aead} {M : Automerge} {L : AutomergeLaws M} t id actor d bs actor' :
  id <= u128_max -> rtc doc_step (doc_new t id actor) d -> (doc_snapshot d).1 = Ok bs ->
  exists d', restore_for_actor bs actor' = Ok d' /\ persisted d' = persisted d /\
    forall h, doc_graph d' h = doc_graph d h.
Proof.
  intros Hid Hr Hb. pose proof (doc_run_inv _ _ (doc_new_inv t id actor Hid) Hr) as Hd.
  destruct (doc_snapshot_restores d bs actor' Hd Hb) as (d' & H1 & _ & H2 & H3). by exists d'.
Qed.

(** Delivery is at least once, application is exactly once. If an inbound
    frame is applied, it verified, its operation is now the last of the log and
    its change is reported under the author its signature names; delivering
    the same frame again changes nothing and reports nothing. A frame that is
    refused leaves log, filter and index as they were. *)
Theorem ingest_exactly_once {C : Crypto} {A : Aead} {M : Automerge} sealed g d r d' :
  ingest_tracked sealed g d = (r, d') ->
  match r with
  | Ok (Some a) => exists op, op_verify op = true /\ ed_log d' = ed_log d ++ [op] /\
      ap_author_device a = so_author_device op /\ carried op = Some (ap_change a) /\
      ingest_tracked sealed g d' = (Ok None, d')
  | Ok None => d' = d
  | Err _ => (ed_log d', ed_applied d', ed_catchup_index d') = (ed_log d, ed_applied d, ed_catchup_index d)
  end.
Proof.
  unfold ingest_tracked. destruct (_ ← check_doc d _ _; _) as [op|e] eqn:E; [|by intros [= <- <-]]. intros H.
  pose proof (apply_signed_cases op d) as Hc. rewrite H in Hc.
  destruct Hc as [(-> & Hn & _)|(parsed & Hp & Hv & Ht & Hi & Hm & Hdom & Hin & Hc)].
  - destruct r as [[a|]|]; [by destruct (Hn a)|done|done].
  - destruct (am_load_incremental _ _) as [[u|e] doc]; destruct Hc as [-> ->]; [|done].
    exists op. unfold doc_record. rewrite (bool_decide_eq_false_2 (signed_op_hash op ∈ ed_applied (set_doc doc d))) by done.
    cbn [snd]. split_and!; [done..| |].
    + unfold carried. by rewrite Hp.
    + unfold check_doc in *. cbn [ed_doc_type ed_doc_id set_doc] in *. rewrite E. apply apply_signed_known; try done. cbn. set_solver.
Qed.

(** * Witnesses *)

(** Operations of one author: each change is one byte, then its dependencies. *)
Definition toy_doc_op (delta : bytes) : SignedOp :=
  let pk := public_key_bytes (toy_device 7) in
  mkSignedOp Channel 5 (from_public_key_bytes (C:=toy_crypto) pk) pk delta None
    (toy_sign (signing_payload Channel 5 pk delta None)).
Definition toy_sealed (delta : bytes) : SealedOp :=
  match (op_seal (toy_doc_op delta) toy_channel_group toy_rng).1 with Ok s => s | Err _ => mkSealedOp Channel 0 0 (mkSealedBlob [] []) end.
Definition toy_deliver (delta : bytes) (d : EncryptedDoc (M:=toy_automerge)) : EncryptedDoc (M:=toy_automerge) :=
  (ingest_tracked (C:=toy_crypto) (M:=toy_automerge) (toy_sealed delta) toy_channel_group d).2.

Definition toy_doc0 : EncryptedDoc (M:=toy_automerge) := doc_new (M:=toy_automerge) Channel 5 [].
Definition toy_doc1 : EncryptedDoc (M:=toy_automerge) := toy_deliver [x01] toy_doc0.
Definition toy_doc2 : EncryptedDoc (M:=toy_automerge) := toy_deliver [x02; x01] toy_doc1.
Definition toy_doc3 : EncryptedDoc (M:=toy_automerge) := toy_deliver [x03; x02] toy_doc2.

Lemma toy_doc_run : rtc (doc_step (C:=toy_crypto) (M:=toy_automerge)) toy_doc0 toy_doc3.
Proof.
  eapply rtc_l; [apply (ds_ingest (toy_sealed [x01]) toy_channel_group toy_doc0)|].
  eapply rtc_l; [apply (ds_ingest (toy_sealed [x02; x01]) toy_channel_group toy_doc1)|].
  eapply rtc_l; [apply (ds_ingest (toy_sealed [x03; x02]) toy_channel_group toy_doc2)|]. apply rtc_refl.
Qed.

Definition toy_doc_bytes : bytes := match (doc_snapshot toy_doc3).1 with Ok bs => bs | Err _ => [] end.
Lemma toy_doc_snapshot : (doc_snapshot toy_doc3).1 = Ok toy_doc_bytes.
Proof. vm_compute. reflexivity. Qed.
Lemma toy_doc_applied : len (ed_log toy_doc3) = 3.
Proof. vm_compute. reflexivity. Qed.

Lemma document_log_authentic_witness : NoDup (signed_op_hash (C:=toy_crypto) <$> ed_log toy_doc3) /\ len (ed_log toy_doc3) = 3.
Proof.
  split; [|exact toy_doc_applied].
  apply (document_log_authentic (C:=toy_crypto) (M:=toy_automerge) (L:=toy_automerge_laws) Channel 5 [] toy_doc3);
    [discriminate | exact toy_doc_run].
Defined.

Lemma snapshot_crash_safe_witness :
  exists d', restore_for_actor (C:=toy_crypto) (M:=toy_automerge) toy_doc_bytes [x01] = Ok d' /\ persisted d' = persisted toy_doc3.
Proof.
  destruct (snapshot_crash_safe (C:=toy_crypto) (M:=toy_automerge) (L:=toy_automerge_laws) Channel 5 [] toy_doc3 toy_doc_bytes [x01])
    as (d' & H1 & H2 & _); [discriminate|exact toy_doc_run|exact toy_doc_snapshot|].
  exists d'. split; [exact H1|exact H2].
Defined.

Lemma toy_ingest_first :
  ingest_tracked (C:=toy_crypto) (M:=toy_automerge) (toy_sealed [x01]) toy_channel_group toy_doc0 =
  (Ok (Some (mkAppliedOp (so_author_device (toy_doc_op [x01])) (toy_hash x01))), toy_doc1).
Proof. vm_compute. reflexivity. Qed.

Lemma ingest_exactly_once_witness :
  exists op, ed_log toy_doc1 = ed_log toy_doc0 ++ [op] /\
    ingest_tracked (C:=toy_crypto) (M:=toy_automerge) (toy_sealed [x01]) toy_channel_group toy_doc1 = (Ok None, toy_doc1).
Proof.
  destruct (ingest_exactly_once (C:=toy_crypto) (M:=toy_automerge) _ _ _ _ _ toy_ingest_first) as (op & _ & H1 & _ & _ & H2).
  exists op. split; [exact H1|exact H2].
Defined.
