(* ===== verification/Paging.v ===== *)
(** Catch-up export ([crates/catcoms-replication/src/doc.rs]): the closure of a
    requester's frontier, exact and budgeted, and the resumable pages served
    from it. *)

From S2P Require Import Prelude Wire Context Pad Crypto Codec EpochBase Intent Authority Membership SignedOp Automerge Catchup Receipt Checkpoint Document.
From stdpp Require Import base list gmap sorting relations.
From Stdlib Require Import Init.Byte.
Local Open Scope N_scope.

Definition MAX_CATCHUP_PAGE_SCANNED_OPS : N := 256.
Definition MAX_CATCHUP_PAGE_CLOSURE_STEPS : N := 2048.

Section closures.
Context (G : graph) (ix : AncestryIndex) (max_stack : N).

(** The walk of [held_closure]; the stack's top is its head. *)
Fixpoint held_loop (fuel : nat) (stack : list bytes) (have : gset bytes) : gset bytes :=
  match fuel, stack with
  | O, _ | _, [] => have
  | S fuel, hash :: stack =>
      match G hash with
      | None => held_loop fuel stack have
      | Some change =>
          if bool_decide (hash ∈ have) then held_loop fuel stack have
          else held_loop fuel (rev (ch_deps change) ++ stack) ({[hash]} ∪ have)
      end
  end.

(** What one certificate adds: ranges, the budget left, and whether the walk
    may stop at this change. *)
Definition use_certificate (hash : bytes) (remaining : N) (ranges : list LogRange) : list LogRange * N * bool :=
  match index_get ix hash with
  | None => (ranges, remaining, false)
  | Some certificate =>
      let take := N.min (len (ce_ranges certificate)) remaining in
      (ranges ++ firstn (N.to_nat take) (ce_ranges certificate), remaining - take,
       ce_complete certificate && (take =? len (ce_ranges certificate)))
  end.

(** The walk of [held_closure_bounded]: every iteration spends one step. *)
Fixpoint bounded_loop (fuel : nat) (remaining : N) (stack : list bytes) (have : gset bytes) (ranges : list LogRange)
    : gset bytes * list LogRange :=
  match fuel, stack with
  | O, _ | _, [] => (have, ranges)
  | S fuel, hash :: stack =>
      if remaining =? 0 then (have, ranges)
      else
        let remaining := remaining - 1 in
        if bool_decide (hash ∈ have) then bounded_loop fuel remaining stack have ranges
        else match G hash with
             | None => bounded_loop fuel remaining stack have ranges
             | Some change =>
                 let have := {[hash]} ∪ have in
                 let '(ranges, remaining, stop) := use_certificate hash remaining ranges in
                 if stop then bounded_loop fuel remaining stack have ranges
                 else
                   let take := N.min (N.min (len (ch_deps change)) remaining)
                                 (max_stack - len stack) in
                   bounded_loop fuel (remaining - take) (rev (firstn (N.to_nat take) (ch_deps change)) ++ stack) have ranges
             end
  end.
End closures.

Section pages.
Context {C : Crypto} {A : Aead} {M : Automerge}.

(** Enough for the walk: every pop is of a head or of a scheduled dependency. *)
Definition closure_fuel (doc : AutoCommit) (heads : list bytes) : nat :=
  length heads + sum_list (length ∘ ch_deps <$> am_changes doc).

Definition held_closure (d : EncryptedDoc) (have_heads : list bytes) : gset bytes :=
  held_loop (doc_graph d) (closure_fuel (ed_doc d) have_heads) (rev have_heads) ∅.

(** The input frontier, the step budget and the pending stack have one cap. *)
Definition closure_within (steps : N) (d : EncryptedDoc) (have_heads : list bytes) : gset bytes * list LogRange :=
  let stack := rev (firstn (N.to_nat steps) have_heads) in
  let '(have, ranges) := bounded_loop (doc_graph d) (ed_catchup_index d) steps (N.to_nat steps) steps stack ∅ [] in
  (have, merge_ranges ranges).

Definition held_closure_bounded (d : EncryptedDoc) (have_heads : list bytes) : gset bytes * list LogRange :=
  closure_within MAX_CATCHUP_PAGE_CLOSURE_STEPS d have_heads.

(** [while ranges.get(range_index).is_some_and(|range| range.end <= position)] *)
Fixpoint drop_passed (position : N) (ranges : list LogRange) : list LogRange :=
  match ranges with
  | [] => []
  | range :: rest => if lr_end range <=? position then drop_passed position rest else ranges
  end.

Definition peer_holds (have : gset bytes) (op : SignedOp) : bool :=
  match carried op with Some hash => bool_decide (hash ∈ have) | None => false end.

(** What an operation is charged before it is sealed. *)
Definition page_bytes (op : SignedOp) : N :=
  sat_add usize_max (padded_len (len (op_encode op)) OP_PAD_FLOOR OP_PAD_CEILING) 82.

Record PageState := mkPageState {
  pg_position : N;
  pg_scanned : N;
  pg_ranges : list LogRange;
  pg_out : list SealedOp;
  pg_used : N;
  pg_rng : Rng
}.

(** The loop of [export_catchup_page_inner]. *)
Fixpoint page_loop (fuel : nat) (log : list SignedOp) (have : gset bytes) (budget : N) (g : ChannelGroup)
    (bounded : bool) (s : PageState) : result ReplError PageState * Rng :=
  match fuel, log !! N.to_nat (pg_position s) with
  | O, _ | _, None => (Ok s, pg_rng s)
  | S fuel, Some op =>
      let ranges := drop_passed (pg_position s) (pg_ranges s) in
      let go := page_loop fuel log have budget g bounded in
      match (match ranges with
             | range :: _ => if lr_start range <=? pg_position s then Some (lr_end range) else None
             | [] => None
             end) with
      | Some jump => go (mkPageState jump (pg_scanned s) ranges (pg_out s) (pg_used s) (pg_rng s))
      | None =>
          if bounded && (MAX_CATCHUP_PAGE_SCANNED_OPS <=? pg_scanned s)
          then (Ok (mkPageState (pg_position s) (pg_scanned s) ranges (pg_out s) (pg_used s) (pg_rng s)), pg_rng s)
          else
            let scanned := pg_scanned s + 1 in
            if peer_holds have op
            then go (mkPageState (pg_position s + 1) scanned ranges (pg_out s) (pg_used s) (pg_rng s))
            else if negb (is_empty (pg_out s)) && (budget <? sat_add usize_max (pg_used s) (page_bytes op))
            then (Ok (mkPageState (pg_position s) scanned ranges (pg_out s) (pg_used s) (pg_rng s)), pg_rng s)
            else let '(sealed, rng) := op_seal op g (pg_rng s) in
                 match sealed with
                 | Err e => (Err e, rng)
                 | Ok sealed => go (mkPageState (pg_position s + 1) scanned ranges (pg_out s ++ [sealed])
                                      (sat_add usize_max (pg_used s) (page_bytes op)) rng)
                 end
      end
  end.

Definition export_catchup_page_inner (d : EncryptedDoc) (have_heads : list bytes) (from budget : N) (g : ChannelGroup)
    (rng : Rng) (bounded : bool) : result ReplError (list SealedOp * option N) * Rng :=
  let '(have, ranges) := if bounded then held_closure_bounded d have_heads else (held_closure d have_heads, []) in
  let '(r, rng) := page_loop (length (ed_log d)) (ed_log d) have budget g bounded
                     (mkPageState (N.min from (len (ed_log d))) 0 ranges [] 0 rng) in
  (s ← r; Ok (pg_out s, if pg_position s <? len (ed_log d) then Some (pg_position s) else None), rng).

Definition export_catchup_page (d : EncryptedDoc) (have_heads : list bytes) (from budget : N) (g : ChannelGroup) (rng : Rng)
    : result ReplError (list SealedOp * option N) * Rng :=
  export_catchup_page_inner d have_heads from budget g rng true.

Definition export_legacy_catchup_page (d : EncryptedDoc) (have_heads : list bytes) (budget : N) (g : ChannelGroup) (rng : Rng)
    : result ReplError (list SealedOp * option N) * Rng :=
  export_catchup_page_inner d have_heads 0 budget g rng false.

(** The loop shared by [export_catchup] and [export_catchup_since]. *)
Fixpoint seal_all (log : list SignedOp) (skip : SignedOp -> bool) (g : ChannelGroup) (out : list SealedOp) (rng : Rng)
    : result ReplError (list SealedOp) * Rng :=
  match log with
  | [] => (Ok out, rng)
  | op :: rest =>
      if skip op then seal_all rest skip g out rng
      else let '(sealed, rng) := op_seal op g rng in
           match sealed with
           | Err e => (Err e, rng)
           | Ok s => seal_all rest skip g (out ++ [s]) rng
           end
  end.

Definition export_catchup (d : EncryptedDoc) (g : ChannelGroup) (rng : Rng) : result ReplError (list SealedOp) * Rng :=
  seal_all (ed_log d) (fun _ => false) g [] rng.

Definition export_catchup_since (d : EncryptedDoc) (have_heads : list bytes) (g : ChannelGroup) (rng : Rng)
    : result ReplError (list SealedOp) * Rng :=
  seal_all (ed_log d) (peer_holds (held_closure d have_heads)) g [] rng.
End pages.

(** * The exact closure *)

(** The dependencies a walk may still schedule. *)
Definition pending_deps (have : gset bytes) (l : list Change) : nat :=
  sum_list (length ∘ ch_deps <$> filter (fun c => ch_hash c ∉ have) l).

Lemma pending_insert have l c : NoDup (hashes l) -> c ∈ l -> (ch_hash c ∉ have) ->
  (pending_deps ({[ch_hash c]} ∪ have) l + length (ch_deps c) <= pending_deps have l)%nat.
Proof.
  unfold pending_deps, hashes. intros Hn Hc Hh.
  assert (Hmono : forall k : list Change, (sum_list (length ∘ ch_deps <$> filter (fun x => ch_hash x ∉ {[ch_hash c]} ∪ have) k) <=
    sum_list (length ∘ ch_deps <$> filter (fun x => ch_hash x ∉ have) k))%nat).
  { induction k as [|x k IH]; [done|]. rewrite !filter_cons. repeat case_decide; cbn in *; [lia| |lia|lia]. set_solver. }
  induction l as [|x l IH]; [by apply elem_of_nil in Hc|]. cbn in Hn. apply NoDup_cons in Hn as [Hx Hn].
  apply elem_of_cons in Hc as [->|Hc].
  - rewrite !filter_cons. rewrite (decide_False (P := ch_hash x ∉ {[ch_hash x]} ∪ have)) by set_solver.
    rewrite (decide_True (P := ch_hash x ∉ have)) by done. cbn. specialize (Hmono l). lia.
  - specialize (IH Hn Hc). assert (ch_hash x <> ch_hash c) by (intros E; apply Hx; rewrite E; by apply list_elem_of_fmap_2).
    rewrite !filter_cons. destruct (decide (ch_hash x ∈ have)).
    + rewrite !decide_False by set_solver. lia.
    + rewrite !decide_True by set_solver. cbn. lia.
Qed.

(** Everything recorded has its known dependencies recorded or scheduled. *)
Definition walk_ok (G : graph) (stack : list bytes) (have : gset bytes) : Prop :=
  forall x c p, x ∈ have -> G x = Some c -> p ∈ ch_deps c -> is_Some (G p) -> p ∈ have \/ p ∈ stack.

Lemma held_loop_spec l G fuel : enumerated l G -> forall stack have,
  (length stack + pending_deps have l <= fuel)%nat -> walk_ok G stack have ->
  let R := held_loop G fuel stack have in
  (forall h, h ∈ R -> h ∈ have \/ exists s, s ∈ stack /\ behind G s h) /\
  have ⊆ R /\ (forall s, s ∈ stack -> is_Some (G s) -> s ∈ R) /\ walk_ok G [] R.
Proof.
  intros He. pose proof He as (Hn & _ & Hg). induction fuel as [|fuel IH]; intros stack have Hf Hw R.
  - subst R. destruct stack; [|cbn in Hf; lia]. cbn. split_and!; [auto|done|by intros s ?%elem_of_nil|done].
  - destruct stack as [|hash stack]; [subst R; cbn; split_and!; [auto|done|by intros s ?%elem_of_nil|done]|].
    subst R. cbn [held_loop]. destruct (G hash) as [c|] eqn:Ec; [case_bool_decide as Hin|].
    + destruct (IH stack have ltac:(cbn in Hf; lia)) as (H1 & H2 & H3 & H4).
      { intros x c' p Hx Ex Hp Hk. destruct (Hw x c' p Hx Ex Hp Hk) as [|[->|]%elem_of_cons]; auto. }
      split_and!; [|done| |done].
      * intros h [?|(s & Hs & Hb)]%H1; [auto|]. right. exists s. split; [by right|done].
      * intros s [->|Hs]%elem_of_cons Hk; [by apply H2|auto].
    + pose proof (proj1 (Hg _ _) Ec) as [Hcl Hch].
      pose proof (pending_insert have l c Hn Hcl ltac:(by rewrite Hch)) as Hp. rewrite Hch in Hp.
      destruct (IH (rev (ch_deps c) ++ stack) ({[hash]} ∪ have)) as (H1 & H2 & H3 & H4).
      { rewrite length_app, length_rev. cbn in Hf. lia. }
      { intros x c' p Hx Ex Hpp Hk. apply elem_of_union in Hx as [->%elem_of_singleton|Hx].
        - rewrite Ec in Ex. injection Ex as <-. right. apply elem_of_app. left. by rewrite <- Permutation_rev.
        - destruct (Hw x c' p Hx Ex Hpp Hk) as [?|[->|?]%elem_of_cons]; [set_solver|left; set_solver|].
          right. apply elem_of_app. by right. }
      split_and!.
      * intros h [[->%elem_of_singleton|?]%elem_of_union|(s & Hs & Hb)]%H1; [|auto|].
        -- right. exists hash. split; [left|by eapply behind_self].
        -- right. apply elem_of_app in Hs as [Hs|Hs]; [|exists s; split; [by right|done]].
           exists hash. split; [left|]. rewrite <- Permutation_rev in Hs. by eapply behind_dep.
      * set_solver.
      * intros s [->|Hs]%elem_of_cons Hk; [apply H2; set_solver|]. apply H3; [|done]. apply elem_of_app. by right.
      * done.
    + destruct (IH stack have ltac:(cbn in Hf; lia)) as (H1 & H2 & H3 & H4).
      { intros x c' p Hx Ex Hp Hk. destruct (Hw x c' p Hx Ex Hp Hk) as [|[->|]%elem_of_cons]; auto. by destruct Hk; congruence. }
      split_and!; [|done| |done].
      * intros h [?|(s & Hs & Hb)]%H1; [auto|]. right. exists s. split; [by right|done].
      * intros s [->|Hs]%elem_of_cons Hk; [by destruct Hk; congruence|auto].
Qed.

Section exact_closure.
Context {C : Crypto} {A : Aead} {M : Automerge} {L : AutomergeLaws M}.

Lemma closure_fuel_ok (doc : AutoCommit) (heads : list bytes) :
  (length (rev heads) + pending_deps ∅ (am_changes doc) <= closure_fuel doc heads)%nat.
Proof using.
  unfold closure_fuel, pending_deps. rewrite length_rev. apply Nat.add_le_mono_l.
  generalize (am_changes doc). induction l as [|x l IH]; [done|]. rewrite filter_cons. case_decide; cbn in *; lia.
Qed.

Lemma held_closure_spec d heads h :
  h ∈ held_closure d heads <-> exists s, s ∈ heads /\ behind (doc_graph d) s h.
Proof using L.
  unfold held_closure. pose proof (am_graph (ed_doc d)) as He.
  destruct (held_loop_spec _ _ (closure_fuel (ed_doc d) heads) He (rev heads) ∅) as (H1 & _ & H3 & H4).
  { apply closure_fuel_ok. }
  { intros x c p Hx. set_solver. }
  split.
  - intros [?|(s & Hs & Hb)]%H1; [set_solver|]. exists s. split; [|done]. by rewrite <- Permutation_rev in Hs.
  - intros (s & Hs & Hb). assert (Hin : s ∈ held_loop (doc_graph d) (closure_fuel (ed_doc d) heads) (rev heads) ∅).
    { apply H3; [by rewrite <- Permutation_rev|]. by apply behind_known in Hb as [? _]. }
    clear H1 H3 Hs. induction Hb as [h c E|h c p a E Hp Hb IH]; [done|]. apply IH.
    destruct (H4 h c p Hin E Hp) as [?|?%elem_of_nil]; [|done|done]. by apply behind_known in Hb as [? _].
Qed.
End exact_closure.

(** * The budgeted closure *)

Section bounded.
Context (G : graph) (log : list (option bytes)) (ix : AncestryIndex) (max_stack : N).
Hypothesis Hix : ancestry_ok G log ix.

(** [a] is behind one of [stack], or was already known. *)
Definition from_stack (stack : list bytes) (a : bytes) : Prop := exists s, s ∈ stack /\ behind G s a.

Lemma use_certificate_spec hash remaining ranges rs rem stop :
  use_certificate ix hash remaining ranges = (rs, rem, stop) -> Forall range_ok ranges ->
  Forall range_ok rs /\ rem + len rs = remaining + len ranges /\
  forall p, range_covers rs p -> range_covers ranges p \/ exists a, log !! N.to_nat p = Some (Some a) /\ behind G hash a.
Proof using Hix.
  unfold use_certificate. destruct (index_get ix hash) as [c|] eqn:E; intros [= <- <- <-] Hf; [|split_and!; [done..|auto]].
  destruct (ao_certificate _ _ _ Hix _ _ E) as [_ [Hr _] _ Hs _].
  assert (Hsub : forall r, r ∈ firstn (N.to_nat (N.min (len (ce_ranges c)) remaining)) (ce_ranges c) -> r ∈ ce_ranges c).
  { intros r Hr'. apply elem_of_take in Hr' as (i & Hi & _). by eapply list_elem_of_lookup_2. }
  split_and!.
  - apply Forall_app. split; [done|]. apply Forall_forall. intros r Hr'. eapply Forall_forall in Hr; [done|auto].
  - rewrite len_app. unfold len. rewrite length_firstn. lia.
  - intros p [?|Hp]%range_covers_app; [auto|]. right. apply Hs. by eapply covers_sublist.
Qed.

Lemma bounded_loop_spec fuel : forall remaining stack have ranges have' ranges',
  bounded_loop G ix max_stack fuel remaining stack have ranges = (have', ranges') -> Forall range_ok ranges ->
  Forall range_ok ranges' /\
  N.of_nat (size have') + len ranges' <= N.of_nat (size have) + len ranges + remaining /\
  (forall h, h ∈ have' -> h ∈ have \/ from_stack stack h) /\
  (forall p, range_covers ranges' p -> range_covers ranges p \/ exists a, log !! N.to_nat p = Some (Some a) /\ from_stack stack a).
Proof using Hix.
  assert (Hpush : forall s (stack : list bytes) a, from_stack stack a -> from_stack (s :: stack) a).
  { intros s stack a (x & Hx & Hb). exists x. split; [by right|done]. }
  induction fuel as [|fuel IH]; intros remaining stack have ranges have' ranges'; cbn [bounded_loop].
  { intros [= <- <-] Hf. split_and!; [done|lia|auto|auto]. }
  destruct stack as [|hash stack]; [intros [= <- <-] Hf; split_and!; [done|lia|auto|auto]|].
  destruct (N.eqb_spec remaining 0) as [|Hrem]; [intros [= <- <-] Hf; split_and!; [done|lia|auto|auto]|].
  assert (Hskip : bounded_loop G ix max_stack fuel (remaining - 1) stack have ranges = (have', ranges') -> Forall range_ok ranges ->
    Forall range_ok ranges' /\ N.of_nat (size have') + len ranges' <= N.of_nat (size have) + len ranges + remaining /\
    (forall h, h ∈ have' -> h ∈ have \/ from_stack (hash :: stack) h) /\
    (forall p, range_covers ranges' p -> range_covers ranges p \/ exists a, log !! N.to_nat p = Some (Some a) /\ from_stack (hash :: stack) a)).
  { intros H Hf. destruct (IH _ _ _ _ _ _ H Hf) as (H1 & H2 & H3 & H4). split_and!; [done|lia| |].
    - intros h [?|?]%H3; auto.
    - intros p [?|(a & ? & ?)]%H4; [auto|]. right. exists a. auto. }
  case_bool_decide as Hin; [exact Hskip|]. destruct (G hash) as [c|] eqn:Ec; [|exact Hskip]. clear Hskip.
  destruct (use_certificate ix hash (remaining - 1) ranges) as [[rs rem] stop] eqn:Eu. intros H Hf.
  destruct (use_certificate_spec _ _ _ _ _ _ Eu Hf) as (U1 & U2 & U3).
  assert (Hsz : N.of_nat (size ({[hash]} ∪ have)) = N.of_nat (size have) + 1).
  { rewrite size_union by set_solver. rewrite size_singleton. lia. }
  assert (Hself : from_stack (hash :: stack) hash) by (exists hash; split; [left|by eapply behind_self]).
  assert (Hfin : forall k rem', rem' <= rem -> (forall x, x ∈ k -> x ∈ ch_deps c) ->
    bounded_loop G ix max_stack fuel rem' (k ++ stack) ({[hash]} ∪ have) rs = (have', ranges') ->
    Forall range_ok ranges' /\ N.of_nat (size have') + len ranges' <= N.of_nat (size have) + len ranges + remaining /\
    (forall h, h ∈ have' -> h ∈ have \/ from_stack (hash :: stack) h) /\
    (forall p, range_covers ranges' p -> range_covers ranges p \/ exists a, log !! N.to_nat p = Some (Some a) /\ from_stack (hash :: stack) a)).
  { intros k rem' Hrem' Hk H'. destruct (IH _ _ _ _ _ _ H' U1) as (H1 & H2 & H3 & H4).
    assert (Hks : forall a, from_stack (k ++ stack) a -> from_stack (hash :: stack) a).
    { intros a (s & [Hs|Hs]%elem_of_app & Hb); [|by apply Hpush; exists s].
      exists hash. split; [left|]. eapply behind_dep; eauto. }
    split_and!; [done|lia| |].
    - intros h [[->%elem_of_singleton|?]%elem_of_union|?]%H3; auto.
    - intros p [[?|(a & ? & ?)]%U3|(a & ? & ?)]%H4; [auto| |].
      + right. exists a. split; [done|]. exists hash. split; [left|done].
      + right. exists a. auto. }
  destruct stop.
  - apply (Hfin [] rem); [lia|by intros x ?%elem_of_nil|done].
  - eapply Hfin; [|..|exact H]; [lia|]. intros x Hx. rewrite <- Permutation_rev in Hx.
    apply elem_of_take in Hx as (i & Hi & _). by eapply list_elem_of_lookup_2.
Qed.
End bounded.

Section bounded_doc.
Context {C : Crypto} {A : Aead} {M : Automerge} {L : AutomergeLaws M}.

(** What a page may leave out: an operation whose change is behind a head the
    requester named. *)
Definition behind_heads (d : EncryptedDoc) (heads : list bytes) (op : SignedOp) : Prop :=
  exists s a, s ∈ heads /\ carried op = Some a /\ behind (doc_graph d) s a.

Lemma closure_within_spec steps d heads have ranges :
  document_inv d -> closure_within steps d heads = (have, ranges) ->
  ranges_ok ranges /\ (forall h, h ∈ have -> exists s, s ∈ heads /\ behind (doc_graph d) s h) /\
  N.of_nat (size have) <= steps /\
  forall p, range_covers ranges p -> exists op, ed_log d !! N.to_nat p = Some op /\ behind_heads d heads op.
Proof using.
  intros [Hd _] H. unfold closure_within in H. destruct (bounded_loop _ _ _ _ _ _ _ _) as [hv rs] eqn:E.
  injection H as <- <-.
  assert (Hst : forall a, from_stack (doc_graph d) (rev (firstn (N.to_nat steps) heads)) a ->
    exists s, s ∈ heads /\ behind (doc_graph d) s a).
  { intros a (s & Hs & Hb). exists s. split; [|done]. rewrite <- Permutation_rev in Hs.
    apply elem_of_take in Hs as (i & Hi & _). by eapply list_elem_of_lookup_2. }
  destruct (bounded_loop_spec _ _ _ _ (di_index d Hd) _ _ _ _ _ _ _ E ltac:(constructor)) as (H1 & H2 & H3 & H4).
  destruct (merge_ranges_ok rs H1) as [Hm Hc]. split_and!; [apply Hm| | |].
  - intros h [Hh|Hh]%H3; [by apply not_elem_of_empty in Hh|by apply Hst].
  - rewrite size_empty in H2. change (len []) with 0 in H2. lia.
  - intros p [(r & ?%elem_of_nil & _)|(a & Hl & Hs)]%Hc%H4; [done|]. unfold carried_log in Hl. rewrite list_lookup_fmap in Hl.
    destruct (ed_log d !! N.to_nat p) as [op|] eqn:Eo; [|done]. injection Hl as Hl. exists op. split; [done|].
    destruct (Hst a Hs) as (s & ? & ?). by exists s, a.
Qed.
End bounded_doc.

(** From here on the budgeted walk is its specification. *)
#[global] Opaque closure_within.

(** * One page *)

Section page.
Context {C : Crypto} {A : Aead} {M : Automerge}.
Context (log : list SignedOp) (have : gset bytes) (budget : N) (g : ChannelGroup) (bounded : bool).
Context (Skip : SignedOp -> Prop).
Hypothesis Hhave : forall op, peer_holds have op = true -> Skip op.

Definition sealed_as (s : SealedOp) (op : SignedOp) : Prop := exists rng rng', op_seal op g rng = (Ok s, rng').

(** Ranges still ahead cover only what may be skipped. *)
Definition ranges_skip (ranges : list LogRange) : Prop :=
  ranges_ok ranges /\ forall p, range_covers ranges p -> exists op, log !! N.to_nat p = Some op /\ Skip op.

(** The state after [ops] were put on the page. *)
Record page_ok (s : PageState) (ops : list SignedOp) : Prop := mkPageOk {
  po_position : pg_position s <= len log;
  po_ranges : ranges_skip (pg_ranges s);
  po_out : Forall2 sealed_as (pg_out s) ops;
  po_used : pg_used s = N.min usize_max (sum_of page_bytes ops);
  po_budget : (length ops <= 1)%nat \/ sum_of page_bytes ops <= budget;
  po_scanned : len ops <= pg_scanned s /\ (bounded = true -> pg_scanned s <= MAX_CATCHUP_PAGE_SCANNED_OPS)
}.

Lemma drop_passed_spec position ranges :
  (exists k, ranges = k ++ drop_passed position ranges) /\
  forall r rest, drop_passed position ranges = r :: rest -> position < lr_end r.
Proof using.
  induction ranges as [|r ranges [[k IH] IH2]]; cbn [drop_passed]; [by split; [exists []|]|].
  destruct (N.leb_spec (lr_end r) position).
  - split; [|done]. exists (r :: k). cbn. by f_equal.
  - split; [by exists []|]. by intros r' rest [= <- <-].
Qed.

Lemma drop_passed_skip position ranges : ranges_skip ranges -> ranges_skip (drop_passed position ranges).
Proof using.
  intros [[Hf Hs] Hc]. destruct (drop_passed_spec position ranges) as [[k Hk] _]. rewrite Hk in Hf, Hs. split; [split|].
  - by apply Forall_app in Hf as [_ ?].
  - by apply StronglySorted_app_1_r in Hs.
  - intros p Hp. apply Hc. eapply covers_sublist; [|done]. intros r Hr. rewrite Hk. apply elem_of_app. by right.
Qed.

(** A certified interval at the cursor: it ends beyond it and inside the log. *)
Lemma range_jump position r rest :
  ranges_skip (r :: rest) -> position < lr_end r -> lr_start r <= position ->
  lr_end r <= len log /\ forall p op, position <= p < lr_end r -> log !! N.to_nat p = Some op -> Skip op.
Proof using.
  intros [_ Hc] H1 H2. split.
  - destruct (Hc (lr_end r - 1)) as (op & Hop & _); [exists r; split; [left|lia]|].
    apply lookup_lt_Some in Hop. unfold len. lia.
  - intros p op Hp Hop. destruct (Hc p) as (op' & Hop' & Hs); [exists r; split; [left|lia]|]. congruence.
Qed.

(** What the rest of the loop adds to the page. *)
Definition page_extends (s s' : PageState) (ops : list SignedOp) : Prop :=
  pg_position s <= pg_position s' /\
  exists more, page_ok s' (ops ++ more) /\ (forall op, op ∈ more -> op ∈ log) /\
    forall p op, pg_position s <= p < pg_position s' -> log !! N.to_nat p = Some op -> op ∈ more \/ Skip op.

Lemma page_extends_refl s s' ops : pg_position s = pg_position s' -> page_ok s' ops -> page_extends s s' ops.
Proof using. intros E Hp. split; [lia|]. exists []. rewrite app_nil_r. split_and!; [done|by intros op ?%elem_of_nil|]. intros; lia. Qed.

(** The cursor moved over one slot or one interval. *)
Lemma page_extends_step s m s' ops add :
  pg_position s <= pg_position m -> (forall op, op ∈ add -> op ∈ log) ->
  (forall p op, pg_position s <= p < pg_position m -> log !! N.to_nat p = Some op -> op ∈ add \/ Skip op) ->
  page_extends m s' (ops ++ add) -> page_extends s s' ops.
Proof using.
  intros H1 H2 H3 (H4 & more & H5 & H6 & H7). split; [lia|]. exists (add ++ more). rewrite app_assoc. split_and!; [done| |].
  - intros op [?|?]%elem_of_app; auto.
  - intros p op Hp Hop. destruct (N.lt_ge_cases p (pg_position m)) as [Hlt|Hge].
    + destruct (H3 p op ltac:(lia) Hop); [left; apply elem_of_app; by left|by right].
    + destruct (H7 p op ltac:(lia) Hop); [left; apply elem_of_app; by right|by right].
Qed.

(** Sealing one more operation within the budget. *)
Lemma page_ok_push s ops op sealed rng' :
  budget < usize_max -> page_ok s ops -> log !! N.to_nat (pg_position s) = Some op -> op_seal op g (pg_rng s) = (Ok sealed, rng') ->
  (is_empty (pg_out s) = true \/ sat_add usize_max (pg_used s) (page_bytes op) <= budget) ->
  (bounded = true -> pg_scanned s < MAX_CATCHUP_PAGE_SCANNED_OPS) ->
  page_ok (mkPageState (pg_position s + 1) (pg_scanned s + 1) (drop_passed (pg_position s) (pg_ranges s)) (pg_out s ++ [sealed])
    (sat_add usize_max (pg_used s) (page_bytes op)) rng') (ops ++ [op]).
Proof using.
  intros Hbudget [H1 H2 H3 H4 H5 [H6 H7]] Hop Hs Hb Hsc. apply lookup_lt_Some in Hop. constructor; cbn.
  - unfold len in *. lia.
  - by apply drop_passed_skip.
  - apply Forall2_app; [done|]. constructor; [|constructor]. by exists (pg_rng s), rng'.
  - rewrite sum_of_app, H4. unfold sat_add. cbn. lia.
  - rewrite sum_of_app, length_app. cbn. destruct Hb as [He|Hb].
    + left. apply Forall2_length in H3. destruct (pg_out s); [|done]. cbn in *. lia.
    + right. rewrite H4 in Hb. unfold sat_add in Hb. lia.
  - rewrite len_app. change (len [op]) with 1. split; [lia|]. intros Hbd. specialize (Hsc Hbd). lia.
Qed.

Lemma page_loop_spec fuel : budget < usize_max -> forall s ops s' rng',
  page_loop fuel log have budget g bounded s = (Ok s', rng') -> page_ok s ops -> page_extends s s' ops.
Proof using Hhave.
  intros Hbudget. induction fuel as [|fuel IH]; intros s ops s' rng'; cbn [page_loop].
  { intros [= <- <-] Hok. by apply page_extends_refl. }
  destruct (log !! N.to_nat (pg_position s)) as [op|] eqn:Eop; [|intros [= <- <-] Hok; by apply page_extends_refl].
  pose proof (lookup_lt_Some _ _ _ Eop) as Hlt. intros H Hok. pose proof Hok as [H1 H2 H3 H4 H5 [H6 H7]].
  pose proof (drop_passed_skip (pg_position s) _ H2) as Hdr. destruct (drop_passed_spec (pg_position s) (pg_ranges s)) as [_ Hend].
  set (ranges := drop_passed (pg_position s) (pg_ranges s)) in *.
  destruct (match ranges with range :: _ => _ | [] => None end) as [jump|] eqn:Ej.
  - destruct ranges as [|r rest]; [done|]. destruct (N.leb_spec (lr_start r) (pg_position s)) as [Hst|]; [|done].
    injection Ej as <-. specialize (Hend _ _ eq_refl). destruct (range_jump _ _ _ Hdr Hend Hst) as [Hle Hsk].
    eapply (page_extends_step s _ s' ops []); [|by intros ? ?%elem_of_nil| |rewrite app_nil_r; eapply IH; [exact H|]]; cbn.
    + lia.
    + intros p q Hp Hq. right. by eapply Hsk.
    + by constructor.
  - clear Ej. destruct (bounded && _) eqn:Ebd.
    { injection H as <- <-. apply page_extends_refl; [done|]. by constructor. }
    assert (Hsc : bounded = true -> pg_scanned s < MAX_CATCHUP_PAGE_SCANNED_OPS).
    { intros ->. cbn in Ebd. by apply N.leb_gt in Ebd. }
    assert (Hone : forall q p, pg_position s <= p < pg_position s + 1 -> log !! N.to_nat p = Some q -> q = op).
    { intros q p Hp Hq. replace p with (pg_position s) in Hq by lia. congruence. }
    destruct (peer_holds have op) eqn:Eh.
    + eapply (page_extends_step s _ s' ops []); [|by intros ? ?%elem_of_nil| |rewrite app_nil_r; eapply IH; [exact H|]]; cbn.
      * lia.
      * intros p q Hp Hq. right. rewrite (Hone q p Hp Hq). by apply Hhave.
      * constructor; cbn; try done; [unfold len; lia|]. split; [lia|]. intros Hb. specialize (Hsc Hb). lia.
    + destruct (negb (is_empty (pg_out s)) && _) eqn:Eb.
      { injection H as <- <-. apply page_extends_refl; [done|]. constructor; cbn; try done. split; [lia|]. intros Hb. specialize (Hsc Hb). lia. }
      destruct (op_seal op g (pg_rng s)) as [[sealed|e] rng1] eqn:Es; [|done].
      eapply (page_extends_step s _ s' ops [op]); [| | |eapply IH; [exact H|]]; cbn.
      * lia.
      * intros q ->%list_elem_of_singleton. by eapply list_elem_of_lookup_2.
      * intros p q Hp Hq. left. rewrite (Hone q p Hp Hq). left.
      * apply page_ok_push; try done. apply andb_false_iff in Eb as [Eb|Eb]; [left|right]; bool_simpl; done.
Qed.

(** A page that starts inside the log moves past at least one operation. *)
Lemma page_loop_progress fuel s s' rng' :
  budget < usize_max -> page_loop (S fuel) log have budget g bounded s = (Ok s', rng') -> page_ok s [] -> pg_scanned s = 0 ->
  pg_position s < len log -> pg_position s < pg_position s'.
Proof using Hhave.
  intros Hbudget H Hok Hsc Hlt. cbn [page_loop] in H. pose proof Hok as [H1 H2 H3 H4 H5 _].
  pose proof (Forall2_nil_inv_r _ _ H3) as Hout.
  destruct (log !! N.to_nat (pg_position s)) as [op|] eqn:Eop; [|apply lookup_ge_None in Eop; unfold len in Hlt; lia].
  pose proof (drop_passed_skip (pg_position s) _ H2) as Hdr. destruct (drop_passed_spec (pg_position s) (pg_ranges s)) as [_ Hend].
  assert (Hgo : forall m ops, page_ok m ops -> pg_position s < pg_position m ->
    page_loop fuel log have budget g bounded m = (Ok s', rng') -> pg_position s < pg_position s').
  { intros m ops Hm Hp Hl. destruct (page_loop_spec fuel Hbudget m ops s' rng' Hl Hm) as [? _]. lia. }
  assert (Hmove : forall pos rs n, pos <= len log -> ranges_skip rs -> n <= 1 ->
    page_ok (mkPageState pos n rs (pg_out s) (pg_used s) (pg_rng s)) []).
  { intros pos rs n Hpos Hrs Hn. constructor; cbn; try done. split; [unfold len; cbn; lia|]. unfold MAX_CATCHUP_PAGE_SCANNED_OPS. lia. }
  destruct (match drop_passed _ _ with range :: _ => _ | [] => None end) as [jump|] eqn:Ej.
  - destruct (drop_passed (pg_position s) (pg_ranges s)) as [|r rest]; [done|].
    destruct (N.leb_spec (lr_start r) (pg_position s)) as [Hst|]; [|done].
    injection Ej as <-. specialize (Hend _ _ eq_refl). destruct (range_jump _ _ _ Hdr Hend Hst) as [Hle _].
    eapply (Hgo _ []); [| |exact H]; [apply Hmove; [done|done|lia]|exact Hend].
  - clear Ej. assert (Hs0 : (MAX_CATCHUP_PAGE_SCANNED_OPS <=? pg_scanned s) = false) by (by rewrite Hsc).
    rewrite Hs0, andb_false_r in H. destruct (peer_holds have op).
    + eapply (Hgo _ []); [| |exact H]; [|cbn; lia]. rewrite Hsc in *. apply Hmove; [lia|done|lia].
    + rewrite Hout in H at 1. cbn [is_empty negb andb] in H.
      destruct (op_seal op g (pg_rng s)) as [[sealed|e] rng1] eqn:Es; [|done].
      eapply (Hgo _ ([] ++ [op])); [| |exact H]; [|cbn; lia]. apply page_ok_push; try done.
      * left. by rewrite Hout.
      * intros _. by rewrite Hsc.
Qed.

(** The fuel is never what stops a page. *)
Lemma page_loop_fuel fuel : forall k s, (N.to_nat (len log - pg_position s) <= fuel)%nat ->
  page_loop (fuel + k) log have budget g bounded s = page_loop fuel log have budget g bounded s.
Proof using.
  induction fuel as [|fuel IH]; intros k s Hf.
  - assert (log !! N.to_nat (pg_position s) = None) as E by (apply lookup_ge_None; unfold len in Hf; lia).
    destruct k; cbn; by rewrite ?E.
  - cbn [plus page_loop]. destruct (log !! N.to_nat (pg_position s)) as [op|] eqn:Eop; [|done].
    destruct (drop_passed_spec (pg_position s) (pg_ranges s)) as [_ Hend].
    assert (Hgo : forall m, pg_position s < pg_position m ->
      page_loop (fuel + k) log have budget g bounded m = page_loop fuel log have budget g bounded m) by (intros m Hm; apply IH; lia).
    destruct (match drop_passed _ _ with range :: _ => _ | [] => None end) as [jump|] eqn:Ej.
    + destruct (drop_passed (pg_position s) (pg_ranges s)) as [|r rest]; [done|]. destruct (_ <=? _); [|done].
      injection Ej as <-. apply Hgo. by eapply Hend.
    + destruct (bounded && _); [done|]. destruct (peer_holds have op); [apply Hgo; cbn; lia|].
      destruct (negb _ && _); [done|]. destruct (op_seal op g (pg_rng s)) as [[sealed|e] rng1]; [apply Hgo; cbn; lia|done].
Qed.
End page.

(** * Pages of a document *)

Section doc_page.
Context {C : Crypto} {A : Aead} {M : Automerge} {L : AutomergeLaws M}.

(** What one page does: it carries [ops] and resumes at [upto]. *)
Record page_served (d : EncryptedDoc) (heads : list bytes) (from upto budget : N) (g : ChannelGroup) (bounded : bool)
    (out : list SealedOp) (ops : list SignedOp) : Prop := mkPageServed {
  ps_sealed : Forall2 (sealed_as g) out ops;
  ps_logged op : op ∈ ops -> op ∈ ed_log d;
  ps_covers p op : from <= p < upto -> ed_log d !! N.to_nat p = Some op -> op ∈ ops \/ behind_heads d heads op;
  ps_budget : (length ops <= 1)%nat \/ sum_of page_bytes ops <= budget;
  ps_count : bounded = true -> len ops <= MAX_CATCHUP_PAGE_SCANNED_OPS
}.

Lemma closure_skips d heads (bounded : bool) have ranges :
  document_inv d ->
  (if bounded then held_closure_bounded d heads else (held_closure d heads, [])) = (have, ranges) ->
  (forall op, peer_holds have op = true -> behind_heads d heads op) /\ ranges_skip (ed_log d) (behind_heads d heads) ranges.
Proof using L.
  intros Hd H. assert (Hh : (forall h, h ∈ have -> exists s, s ∈ heads /\ behind (doc_graph d) s h) ->
    forall op, peer_holds have op = true -> behind_heads d heads op).
  { intros Hs op Ho. unfold peer_holds in Ho. destruct (carried op) as [a|] eqn:Ea; [|done]. bool_simpl.
    destruct (Hs a Ho) as (s & ? & ?). by exists s, a. }
  destruct bounded.
  - destruct (closure_within_spec _ d heads have ranges Hd H) as (H1 & H2 & _ & H3). split; [by apply Hh|by split].
  - injection H as <- <-. split; [apply Hh; intros h; by rewrite held_closure_spec|]. split; [split; constructor|].
    by intros p (r & ?%elem_of_nil & _).
Qed.

Lemma export_page_spec d heads from budget g rng bounded out next rng' :
  document_inv d -> budget < usize_max ->
  export_catchup_page_inner d heads from budget g rng bounded = (Ok (out, next), rng') ->
  (exists ops, page_served d heads from (default (len (ed_log d)) next) budget g bounded out ops) /\
  (forall n, next = Some n -> from < n < len (ed_log d)).
Proof using L.
  intros Hd Hb H. unfold export_catchup_page_inner in H.
  destruct (if bounded then _ else _) as [have ranges] eqn:Ec. destruct (closure_skips _ _ _ _ _ Hd Ec) as [Hh Hr]. clear Ec.
  set (s0 := mkPageState (N.min from (len (ed_log d))) 0 ranges [] 0 rng) in *.
  destruct (page_loop _ _ _ _ _ _ s0) as [[s|e] rng1] eqn:El; [|done]. cbn in H. injection H as Hout Hnext <-.
  assert (Hok0 : page_ok (ed_log d) budget g bounded (behind_heads d heads) s0 []).
  { constructor; cbn; try done; [lia|left; lia]. }
  destruct (page_loop_spec _ _ _ _ _ _ Hh _ Hb _ _ _ _ El Hok0) as (Hpos & ops & Hok & Hlog & Hcov). cbn [app] in Hok.
  destruct Hok as [P1 P2 P3 P4 P5 [P6 P7]]. subst out. split.
  - exists ops. constructor; try done.
    + intros p op Hp Hop. apply (Hcov p); [|done]. subst next. cbn in Hpos |- *.
      pose proof (lookup_lt_Some _ _ _ Hop) as Hlt. destruct (N.ltb_spec (pg_position s) (len (ed_log d))); cbn in Hp; unfold len in *; lia.
    + intros Hbd. specialize (P7 Hbd). lia.
  - intros n Hn. subst next. destruct (N.ltb_spec (pg_position s) (len (ed_log d))) as [Hlt|]; [|done]. injection Hn as <-.
    split; [|done]. destruct (N.lt_ge_cases from (len (ed_log d))) as [Hf|Hf].
    + assert (exists f, length (ed_log d) = S f) as [f Ef] by (destruct (length (ed_log d)) eqn:E; [unfold len in Hf; lia|eauto]).
      rewrite Ef in El. pose proof (page_loop_progress _ _ _ _ _ _ Hh f s0 s rng1 Hb El Hok0 eq_refl) as Hpr. cbn in Hpr. lia.
    + cbn in Hpos. lia.
Qed.
End doc_page.

(** * A whole catch-up *)

Section sync.
Context {C : Crypto} {A : Aead} {AL : AeadLaws A} {M : Automerge} {L : AutomergeLaws M}.

(** A requester follows one provider's cursor: each round names its current
    frontier, imports the page, and both sides may live on in between. The
    hashes the two graphs share name the same changes. *)
Inductive sync_run (max budget : N) : EncryptedDoc -> EncryptedDoc -> N -> EncryptedDoc -> EncryptedDoc -> Prop :=
| sync_last p r pos g rng out rng' applied r' :
    agree (doc_graph p) (doc_graph r) ->
    export_catchup_page p (sync_frontier r max) pos budget g rng = (Ok (out, None), rng') ->
    import_catchup_tracked out g r = (applied, Ok tt, r') ->
    sync_run max budget p r pos p r'
| sync_more p r pos g rng out n rng' applied r1 p1 r2 p' r' :
    agree (doc_graph p) (doc_graph r) ->
    export_catchup_page p (sync_frontier r max) pos budget g rng = (Ok (out, Some n), rng') ->
    import_catchup_tracked out g r = (applied, Ok tt, r1) ->
    rtc doc_step p p1 -> rtc doc_step r1 r2 ->
    sync_run max budget p1 r2 n p' r' -> sync_run max budget p r pos p' r'.

(** The node has recorded the operation, or already holds its change. *)
Definition caught_up (r : EncryptedDoc) (op : SignedOp) : Prop :=
  signed_op_hash op ∈ ed_applied r \/ exists a, carried op = Some a /\ is_Some (doc_graph r a).

Lemma caught_up_grows r r' op : grows r r' -> caught_up r op -> caught_up r' op.
Proof using.
  intros (HG & _ & Ha & _) [H|(a & H1 & [c Hc])]; [left; by apply Ha|]. right. exists a. split; [done|]. exists c. by apply HG.
Qed.

(** Sealed operations of one document open under its channel key. *)
Lemma sealed_opens g t id key out ops :
  channel_secret g t id = Ok key -> Forall2 (sealed_as g) out ops ->
  Forall (fun op => so_doc_type op = t /\ so_doc_id op = id /\ signed_op_ok op) ops ->
  Forall2 (fun s op => op_open s key = Ok op) out ops.
Proof using AL.
  intros Hk. induction 1 as [|s o out ops (rg & rg' & Hseal) _ IH]; intros Hf; [constructor|].
  apply Forall_cons in Hf as [(T1 & T2 & T3) Hf]. constructor; [|by apply IH].
  destruct (op_seal_spec o g rg s rg' T3 Hseal) as [(key' & Hk' & Hopen) _]. rewrite T1, T2, Hk in Hk'. by injection Hk' as <-.
Qed.

(** One round settles the slots between its cursor and the next. *)
Lemma round_caught_up max budget p r pos g rng out next rng' applied r' :
  document_inv p -> document_inv r -> budget < usize_max -> ed_doc_type p = ed_doc_type r -> ed_doc_id p = ed_doc_id r ->
  agree (doc_graph p) (doc_graph r) ->
  export_catchup_page p (sync_frontier r max) pos budget g rng = (Ok (out, next), rng') ->
  import_catchup_tracked out g r = (applied, Ok tt, r') ->
  forall q op, pos <= q < default (len (ed_log p)) next -> ed_log p !! N.to_nat q = Some op -> caught_up r' op.
Proof using AL L.
  intros Hp Hr Hb Et Ei Hag Hx Hi q op Hq Hop.
  destruct (export_page_spec _ _ _ _ _ _ _ _ _ _ Hp Hb Hx) as [[ops [Hs Hl Hc _ _]] _].
  pose proof (import_catchup_grows out g r) as Hg. rewrite Hi in Hg.
  destruct (Hc q op Hq Hop) as [Hin|(s & a & Hsf & Hca & Hbh)].
  - left. unfold import_catchup_tracked in Hi. destruct (channel_secret g _ _) as [key|] eqn:Ek; [|done].
    assert (HF : Forall2 (fun s o => op_open s key = Ok o) out ops).
    { rewrite <- Et, <- Ei in Ek. eapply (sealed_opens g _ _ key _ _ Ek); [exact Hs|]. apply Forall_forall. intros o Ho.
      pose proof (di_log p (proj1 Hp)) as HL. eapply Forall_forall in HL as (T1 & T2 & T3 & _); [|by apply Hl]. done. }
    pose proof (import_loop_applied _ _ _ _ _ _ _ _ Hi HF) as Hap. eapply Forall_forall in Hap; [|exact Hin]. exact Hap.
  - right. exists a. split; [done|]. destruct Hg as (HG & _).
    assert (Hk : is_Some (doc_graph r a)).
    { eapply behind_known. eapply behind_agree; [exact Hag|apply doc_closed|exact Hbh|]. by eapply frontier_known. }
    destruct Hk as [c Hk]. exists c. by apply HG.
Qed.

Lemma sync_run_caught_up max budget p r pos p' r' :
  budget < usize_max -> sync_run max budget p r pos p' r' ->
  document_inv p -> document_inv r -> ed_doc_type p = ed_doc_type r -> ed_doc_id p = ed_doc_id r ->
  (forall q op, q < pos -> ed_log p !! N.to_nat q = Some op -> caught_up r op) ->
  Forall (caught_up r') (ed_log p').
Proof using AL L.
  intros Hb Hrun. induction Hrun as [p r pos g rng out rng' applied r' Hag Hx Hi
    |p r pos g rng out n rng' applied r1 p1 r2 p' r' Hag Hx Hi Hp1 Hr1 _ IH]; intros Hp Hr Et Ei Hprev.
  - apply Forall_forall. intros op Hop. apply list_elem_of_lookup in Hop as [i Hop].
    pose proof (import_catchup_grows out g r) as Hg. rewrite Hi in Hg. pose proof (lookup_lt_Some _ _ _ Hop) as Hlt.
    rewrite <- (Nnat.Nat2N.id i) in Hop. destruct (N.lt_ge_cases (N.of_nat i) pos) as [Hlo|Hhi].
    + eapply caught_up_grows; [exact Hg|]. by eapply Hprev.
    + eapply (round_caught_up _ _ _ _ _ _ _ _ _ _ _ _ Hp Hr Hb Et Ei Hag Hx Hi (N.of_nat i)); [|done]. cbn. unfold len. lia.
  - pose proof (import_catchup_grows out g r) as Hg. pose proof (import_catchup_inv out g r Hr) as Hr1'. rewrite Hi in Hg, Hr1'.
    destruct (doc_run_grows _ _ Hp Hp1) as [Gp Hp1'], (doc_run_grows _ _ Hr1' Hr1) as [Gr Hr2'].
    apply IH; [done|done| | |].
    + destruct Gp as (_ & _ & _ & E1 & _), Gr as (_ & _ & _ & E2 & _), Hg as (_ & _ & _ & E3 & _). congruence.
    + destruct Gp as (_ & _ & _ & _ & E1), Gr as (_ & _ & _ & _ & E2), Hg as (_ & _ & _ & _ & E3). congruence.
    + intros q op Hq Hop. eapply caught_up_grows; [exact Gr|].
      destruct (export_page_spec _ _ _ _ _ _ _ _ _ _ Hp Hb Hx) as [_ Hn]. destruct (Hn n eq_refl) as [_ Hlen].
      assert (Hop' : ed_log p !! N.to_nat q = Some op).
      { destruct Gp as (_ & [k Ek] & _). rewrite Ek, lookup_app_l in Hop; [done|]. unfold len in Hlen. lia. }
      destruct (N.lt_ge_cases q pos) as [Hlo|Hhi].
      * eapply caught_up_grows; [exact Hg|]. by eapply Hprev.
      * eapply (round_caught_up _ _ _ _ _ _ _ _ _ _ _ _ Hp Hr Hb Et Ei Hag Hx Hi q); [|done]. cbn. lia.
Qed.

Lemma seal_all_spec log skip g : forall out rng out' rng',
  seal_all log skip g out rng = (Ok out', rng') ->
  exists add, out' = out ++ add /\ Forall2 (sealed_as g) add (filter (fun op => skip op = false) log).
Proof using.
  induction log as [|op log IH]; intros out rng out' rng' H; cbn [seal_all] in H.
  - injection H as <- <-. exists []. by rewrite app_nil_r.
  - rewrite filter_cons. destruct (skip op) eqn:E.
    + rewrite decide_False by done. by eapply IH.
    + rewrite decide_True by done. destruct (op_seal op g rng) as [[s|e] rng1] eqn:Es; [|done].
      apply IH in H as (add & -> & HF). exists (s :: add). rewrite <- app_assoc. split; [done|].
      constructor; [by exists rng, rng1|done].
Qed.
End sync.

(** * Properties *)

(** C5: Catch-up converges. A requester that follows one provider's cursor to
    the end, naming its own frontier in every round and importing every page,
    ends with every operation of the provider's log either in its own log's
    duplicate filter or with its change already in its graph; both documents
    may be edited, receive and restart between rounds, the frontier may be
    truncated at any length and the budget may be any. The assumption is that
    equal change hashes in the two documents name changes with equal
    dependencies. *)
Theorem catchup_converges {C : Crypto} {A : Aead} {AL : AeadLaws A} {M : Automerge} {L : AutomergeLaws M}
    t id a1 a2 p r max budget p' r' :
  id <= u128_max -> budget < usize_max ->
  rtc doc_step (doc_new t id a1) p -> rtc doc_step (doc_new t id a2) r ->
  sync_run max budget p r 0 p' r' ->
  Forall (fun op => signed_op_hash op ∈ ed_applied r' \/ exists a, carried op = Some a /\ is_Some (doc_graph r' a)) (ed_log p').
Proof.
  intros Hid Hb Hp Hr Hrun.
  destruct (doc_run_grows _ _ (doc_new_inv t id a1 Hid) Hp) as [(_ & _ & _ & P1 & P2) Ip].
  destruct (doc_run_grows _ _ (doc_new_inv t id a2 Hid) Hr) as [(_ & _ & _ & R1 & R2) Ir].
  cbn in P1, P2, R1, R2. eapply sync_run_caught_up; [exact Hb|exact Hrun|done|done|congruence|congruence|]. intros; lia.
Qed.

(** A catch-up page makes progress within its bounds and leaves no gap.
    Whatever heads a requester names and wherever its cursor stands, a page
    carries only logged operations, at most 256 of them and, beyond the first,
    within the byte budget; every operation from the cursor to where the page
    resumes is on the page or carries a change behind one of the named heads;
    and it resumes strictly later and inside the log, so following the cursor
    ends after at most as many pages as the log has operations. *)
Theorem catchup_page_sound {C : Crypto} {A : Aead} {M : Automerge} {L : AutomergeLaws M}
    t id actor d heads from budget g rng out next rng' :
  id <= u128_max -> budget < usize_max -> rtc doc_step (doc_new t id actor) d ->
  export_catchup_page d heads from budget g rng = (Ok (out, next), rng') ->
  (exists ops, Forall2 (sealed_as g) out ops /\ (forall op, op ∈ ops -> op ∈ ed_log d) /\
     len ops <= MAX_CATCHUP_PAGE_SCANNED_OPS /\ ((length ops <= 1)%nat \/ sum_of page_bytes ops <= budget) /\
     forall p op, from <= p < default (len (ed_log d)) next -> ed_log d !! N.to_nat p = Some op ->
       op ∈ ops \/ exists s a, s ∈ heads /\ carried op = Some a /\ behind (doc_graph d) s a) /\
  (forall n, next = Some n -> from < n < len (ed_log d)).
Proof.
  intros Hid Hb Hr Hx. pose proof (doc_run_inv _ _ (doc_new_inv t id actor Hid) Hr) as Hd.
  destruct (export_page_spec _ _ _ _ _ _ _ _ _ _ Hd Hb Hx) as [[ops [H1 H2 H3 H4 H5]] Hn]. split; [|exact Hn].
  exists ops. split_and!; [done|done|by apply H5|done|done].
Qed.

(** The unbounded difference is exact. The walk from the named heads
    terminates on every graph and yields exactly the changes at or behind a
    head this node can resolve, so the export seals, in log order, exactly the
    operations that do not carry such a change. *)
Theorem export_since_exact {C : Crypto} {A : Aead} {M : Automerge} {L : AutomergeLaws M} d heads g rng out rng' :
  (forall h, h ∈ held_closure d heads <-> exists s, s ∈ heads /\ behind (doc_graph d) s h) /\
  (export_catchup_since d heads g rng = (Ok out, rng') ->
   Forall2 (sealed_as g) out (filter (fun op => peer_holds (held_closure d heads) op = false) (ed_log d))).
Proof.
  split; [apply held_closure_spec|]. intros H. apply seal_all_spec in H as (add & -> & HF). exact HF.
Qed.

(** * Witnesses *)

Lemma agree_extends G G' : extends G' G -> agree G G'.
Proof. intros H h c c' Hc Hc'. apply H in Hc'. congruence. Qed.

Lemma toy_doc1_run : rtc (doc_step (C:=toy_crypto) (M:=toy_automerge)) toy_doc0 toy_doc1.
Proof. eapply rtc_l; [apply (ds_ingest (toy_sealed [x01]) toy_channel_group toy_doc0)|]. apply rtc_refl. Qed.

Lemma toy_doc13_run : rtc (doc_step (C:=toy_crypto) (M:=toy_automerge)) toy_doc1 toy_doc3.
Proof.
  eapply rtc_l; [apply (ds_ingest (toy_sealed [x02; x01]) toy_channel_group toy_doc1)|].
  eapply rtc_l; [apply (ds_ingest (toy_sealed [x03; x02]) toy_channel_group toy_doc2)|]. apply rtc_refl.
Qed.

Lemma toy_doc0_inv : document_inv (C:=toy_crypto) (M:=toy_automerge) toy_doc0.
Proof. apply doc_new_inv. discriminate. Qed.

Lemma toy_agree : agree (doc_graph toy_doc3) (doc_graph toy_doc1).
Proof.
  apply agree_extends.
  destruct (doc_run_grows (M:=toy_automerge) (L:=toy_automerge_laws) toy_doc1 toy_doc3) as [(H & _) _]; [|exact toy_doc13_run|exact H].
  exact (proj2 (doc_run_grows (M:=toy_automerge) (L:=toy_automerge_laws) _ _ toy_doc0_inv toy_doc1_run)).
Qed.

(** Room for one operation: the second page resumes at the third operation. *)
Definition toy_page (from : N) : result ReplError (list SealedOp * option N) * Rng :=
  export_catchup_page (M:=toy_automerge) toy_doc3 (sync_frontier toy_doc1 8) from 700 toy_channel_group toy_rng.

Lemma toy_page_first :
  exists out, toy_page 0 = (Ok (out, Some 2), (toy_page 0).2) /\ len out = 1.
Proof. eexists. vm_compute. split; reflexivity. Qed.

Definition toy_full_page : list SealedOp :=
  match (export_catchup_page (M:=toy_automerge) toy_doc3 (sync_frontier toy_doc1 8) 0 5000 toy_channel_group toy_rng).1 with
  | Ok p => p.1 | Err _ => [] end.
Definition toy_caught_up : EncryptedDoc (M:=toy_automerge) :=
  (import_catchup_tracked (C:=toy_crypto) (M:=toy_automerge) toy_full_page toy_channel_group toy_doc1).2.

Lemma toy_full_export :
  export_catchup_page (M:=toy_automerge) toy_doc3 (sync_frontier toy_doc1 8) 0 5000 toy_channel_group toy_rng =
  (Ok (toy_full_page, None), mkRng (rng_stream toy_rng) 48).
Proof. vm_compute. reflexivity. Qed.

Lemma toy_full_import :
  import_catchup_tracked (C:=toy_crypto) (M:=toy_automerge) toy_full_page toy_channel_group toy_doc1 =
  ((import_catchup_tracked (C:=toy_crypto) (M:=toy_automerge) toy_full_page toy_channel_group toy_doc1).1.1, Ok tt, toy_caught_up).
Proof. vm_compute. reflexivity. Qed.

Lemma toy_sync : sync_run (C:=toy_crypto) (M:=toy_automerge) 8 5000 toy_doc3 toy_doc1 0 toy_doc3 toy_caught_up.
Proof. eapply sync_last; [exact toy_agree|exact toy_full_export|exact toy_full_import]. Qed.

Lemma toy_doc_run' : rtc (doc_step (C:=toy_crypto) (M:=toy_automerge)) (doc_new (M:=toy_automerge) Channel 5 []) toy_doc3.
Proof. exact toy_doc_run. Qed.

Lemma catchup_converges_witness : Forall (caught_up (C:=toy_crypto) (M:=toy_automerge) toy_caught_up) (ed_log toy_doc3).
Proof.
  exact (catchup_converges (C:=toy_crypto) (M:=toy_automerge) (L:=toy_automerge_laws) Channel 5 [] [] toy_doc3 toy_doc1 8 5000
    toy_doc3 toy_caught_up ltac:(discriminate) ltac:(reflexivity) toy_doc_run' toy_doc1_run toy_sync).
Defined.

Lemma catchup_page_sound_witness : 0 < 2 < len (ed_log toy_doc3).
Proof.
  destruct toy_page_first as (out & H & _).
  exact (proj2 (catchup_page_sound (C:=toy_crypto) (M:=toy_automerge) (L:=toy_automerge_laws) Channel 5 [] toy_doc3
    (sync_frontier toy_doc1 8) 0 700 toy_channel_group toy_rng out (Some 2) _ ltac:(discriminate) ltac:(reflexivity) toy_doc_run' H) 2 eq_refl).
Defined.
