(* ===== verification/Closure.v ===== *)
(** Canonical closures and delivery evidence
    ([crates/catcoms-replication/src/doc.rs]): [signed_ops_for_heads], the
    signed operations behind a close in a canonical dependency order, and
    [holders_of], the devices that provably hold a change. *)

From S2P Require Import Prelude Wire Context Pad Crypto Codec EpochBase Intent Authority Membership SignedOp Automerge Catchup Receipt Checkpoint Document Paging.
From stdpp Require Import base list gmap sorting relations.
From Stdlib Require Import Init.Byte.
Local Open Scope N_scope.

(** A [BTreeSet] is a finite set, iterated in key order. *)
Definition ascending (s : gset bytes) : list bytes := sort_unstable (elements s).

Definition pop_first (s : gset bytes) : option (bytes * gset bytes) :=
  match ascending s with [] => None | x :: _ => Some (x, s ∖ {[x]}) end.

Section closure.
Context {C : Crypto} {A : Aead} {M : Automerge}.

(** The walk that collects the named closure: an unknown hash is malformed. *)
Fixpoint wanted_loop (fuel : nat) (G : graph) (stack : list bytes) (wanted : gset bytes) : result ReplError (gset bytes) :=
  match fuel, stack with
  | O, _ | _, [] => Ok wanted
  | S fuel, hash :: stack =>
      if bool_decide (hash ∈ wanted) then wanted_loop fuel G stack wanted
      else match G hash with
           | None => Err Malformed
           | Some change => wanted_loop fuel G (rev (ch_deps change) ++ stack) ({[hash]} ∪ wanted)
           end
  end.

(** The signed operation of every selected change. *)
Fixpoint select_ops (selected : gset bytes) (log : list SignedOp) (by_change : gmap bytes SignedOp)
    : result ReplError (gmap bytes SignedOp) :=
  match log with
  | [] => Ok by_change
  | op :: rest =>
      change ← map_err Codec.Automerge (change_from_bytes (so_delta op));
      if bool_decide (ch_hash change ∈ selected) then
        _ ← refuse_if (bool_decide (so_domain_op op = None)) Malformed;
        _ ← refuse_if (bool_decide (is_Some (by_change !! ch_hash change))) Malformed;
        select_ops selected rest (<[ch_hash change := op]> by_change)
      else select_ops selected rest by_change
  end.

(** [dependents.entry(dependency).or_default().push(hash)] *)
Definition push_dependent (hash dependency : bytes) (dependents : gmap bytes (list bytes)) : gmap bytes (list bytes) :=
  <[dependency := default [] (dependents !! dependency) ++ [hash]]> dependents.

(** The selected dependencies of one change, with multiplicity. *)
Definition selected_deps (selected : gset bytes) (change : Change) : list bytes :=
  filter (fun p => p ∈ selected) (ch_deps change).

Fixpoint count_deps (G : graph) (selected : gset bytes) (hashes : list bytes)
    (counts : gmap bytes N) (dependents : gmap bytes (list bytes)) : result ReplError (gmap bytes N * gmap bytes (list bytes)) :=
  match hashes with
  | [] => Ok (counts, dependents)
  | hash :: rest =>
      change ← ok_or (G hash) Malformed;
      let deps := selected_deps selected change in
      count_deps G selected rest (<[hash := len deps]> counts)
        (fold_left (fun m dependency => push_dependent hash dependency m) deps dependents)
  end.

(** One dependency of [dependent] is out. *)
Fixpoint release_dependents (dependents : list bytes) (counts : gmap bytes N) (ready : gset bytes)
    : result ReplError (gmap bytes N * gset bytes) :=
  match dependents with
  | [] => Ok (counts, ready)
  | dependent :: rest =>
      count ← ok_or (counts !! dependent) Malformed;
      count ← ok_or (if count =? 0 then None else Some (count - 1)) Malformed;
      release_dependents rest (<[dependent := count]> counts) (if count =? 0 then {[dependent]} ∪ ready else ready)
  end.

Fixpoint order_loop (fuel : nat) (dependents : gmap bytes (list bytes)) (counts : gmap bytes N) (ready : gset bytes)
    (by_change : gmap bytes SignedOp) (out : list SignedOp) : result ReplError (gmap bytes SignedOp * list SignedOp) :=
  match fuel, pop_first ready with
  | O, _ | _, None => Ok (by_change, out)
  | S fuel, Some (hash, ready) =>
      op ← ok_or (by_change !! hash) Malformed;
      s ← release_dependents (default [] (dependents !! hash)) counts ready;
      order_loop fuel dependents s.1 s.2 (delete hash by_change) (out ++ [op])
  end.

(** [.filter_map(|(hash, count)| ( *count == 0).then_some( *hash))] *)
Definition initially_ready (counts : gmap bytes N) : gset bytes :=
  list_to_set (fst <$> filter (fun e => e.2 = 0) (map_to_list counts)).

(** [EncryptedDoc::signed_ops_for_heads] *)
Definition signed_ops_for_heads (d : EncryptedDoc) (heads : list bytes) (unsigned_seed : option bytes)
    : result ReplError (list SignedOp) :=
  _ ← refuse_if (bool_decide (unsigned_seed <> (cp_seed_hash <$> ed_checkpoint d))) EpochScope;
  wanted ← wanted_loop (closure_fuel (ed_doc d) heads) (doc_graph d) (rev heads) ∅;
  selected ← match unsigned_seed with
             | None => Ok wanted
             | Some seed => _ ← refuse_if (bool_decide (seed ∉ wanted)) Malformed; Ok (wanted ∖ {[seed]})
             end;
  by_change ← select_ops selected (ed_log d) ∅;
  _ ← refuse_if (negb (size by_change =? size selected)%nat) Malformed;
  cd ← count_deps (doc_graph d) selected (ascending selected) ∅ ∅;
  r ← order_loop (size selected) cd.2 cd.1 (initially_ready cd.1) by_change [];
  _ ← refuse_if (bool_decide (r.1 <> ∅)) Malformed;
  Ok r.2.
End closure.

(** * The named closure *)

Lemma wanted_loop_held G fuel : forall stack w R, wanted_loop fuel G stack w = Ok R -> R = held_loop G fuel stack w.
Proof.
  induction fuel as [|fuel IH]; intros stack w R H; cbn [wanted_loop held_loop] in *; [by injection H as <-|].
  destruct stack as [|hash stack]; [by injection H as <-|]. case_bool_decide as Hin.
  - destruct (G hash); [|by apply IH]. by apply IH.
  - destruct (G hash); [by apply IH|done].
Qed.

Lemma wanted_loop_ok G fuel : deps_closed G -> forall stack w,
  Forall (fun s => is_Some (G s)) stack -> exists R, wanted_loop fuel G stack w = Ok R.
Proof.
  intros Hc. induction fuel as [|fuel IH]; intros stack w Hs; cbn [wanted_loop]; [eauto|].
  destruct stack as [|hash stack]; [eauto|]. apply Forall_cons in Hs as [[c Hh] Hs]. case_bool_decide; [by apply IH|].
  rewrite Hh. apply IH, Forall_app. split; [|done]. apply Forall_rev, Forall_forall. intros p Hp. by eapply Hc.
Qed.

(** A walk that ends has looked up everything that was on its stack. *)
Lemma wanted_loop_known l G s : enumerated l G -> forall fuel stack w R,
  (length stack + pending_deps w l <= fuel)%nat -> (forall x, x ∈ w -> is_Some (G x)) -> s ∈ stack ->
  wanted_loop fuel G stack w = Ok R -> is_Some (G s).
Proof.
  intros He. pose proof He as (Hn & _ & Hg).
  induction fuel as [|fuel IH]; intros stack w R Hf Hk Hs HR; cbn [wanted_loop] in HR.
  - destruct stack; [by apply elem_of_nil in Hs|cbn in Hf; lia].
  - destruct stack as [|x stack]; [by apply elem_of_nil in Hs|]. case_bool_decide as Hx.
    + apply elem_of_cons in Hs as [->|Hs]; [by apply Hk|]. eapply IH; [|done|done|exact HR]. cbn in Hf. lia.
    + destruct (G x) as [c|] eqn:Ec; [|done]. apply elem_of_cons in Hs as [->|Hs]; [by rewrite Ec|].
      pose proof (proj1 (Hg _ _) Ec) as [Hc Hh]. pose proof (pending_insert w _ c Hn Hc ltac:(by rewrite Hh)) as Hp. rewrite Hh in Hp.
      apply (IH (rev (ch_deps c) ++ stack) ({[x]} ∪ w) R); [rewrite length_app, length_rev; cbn in Hf; lia| |apply elem_of_app; by right|exact HR].
      intros y [->%elem_of_singleton|Hy]%elem_of_union; [by rewrite Ec|auto].
Qed.

(** * The operations of the selected changes *)

Section selection.
Context {M : Automerge}.

(** The selected operations of a log, with their changes. *)
Definition selection (selected : gset bytes) (log : list SignedOp) : list (bytes * SignedOp) :=
  omap (fun op => h ← carried op; if bool_decide (h ∈ selected) then Some (h, op) else None) log.

Lemma elem_of_selection selected log h op :
  (h, op) ∈ selection selected log <-> op ∈ log /\ carried op = Some h /\ h ∈ selected.
Proof.
  unfold selection. rewrite list_elem_of_omap. split.
  - intros (o & Ho & E). destruct (carried o) as [x|] eqn:Ec; [|done]. cbn in E. case_bool_decide; [|done]. by injection E as <- <-.
  - intros (H1 & H2 & H3). exists op. split; [done|]. rewrite H2. cbn. by rewrite bool_decide_eq_true_2.
Qed.

(** Which logs the selection accepts. *)
Definition selectable (selected : gset bytes) (log : list SignedOp) : Prop :=
  Forall (fun op => is_Some (carried op)) log /\
  Forall (fun e => so_domain_op e.2 <> None) (selection selected log) /\ NoDup (selection selected log).*1.

Lemma selection_cons selected op log :
  selection selected (op :: log) =
  match carried op with
  | Some h => if bool_decide (h ∈ selected) then (h, op) :: selection selected log else selection selected log
  | None => selection selected log
  end.
Proof. unfold selection. cbn [omap list_omap]. destruct (carried op) as [h|]; cbn; [|done]. by case_bool_decide. Qed.

Lemma select_ops_spec selected log : forall acc m,
  select_ops selected log acc = Ok m <->
  selectable selected log /\ Forall (fun h => acc !! h = None) (selection selected log).*1 /\
  m = list_to_map (selection selected log) ∪ acc.
Proof.
  unfold selectable. induction log as [|op log IH]; intros acc m; cbn [select_ops].
  - cbn. split; [intros [= <-]; split_and!; try done; [apply NoDup_nil_2|by rewrite (left_id_L ∅ (∪))]|].
    intros (_ & _ & ->). by rewrite (left_id_L ∅ (∪)).
  - rewrite selection_cons, Forall_cons. destruct (change_from_bytes (so_delta op)) as [c|e] eqn:Ec; cbn [map_err].
    2:{ assert (carried op = None) as -> by (unfold carried; by rewrite Ec). split; [done|]. by intros (((x & H) & _) & _). }
    assert (carried op = Some (ch_hash c)) as -> by (unfold carried; by rewrite Ec). rewrite bind_Ok.
    case_bool_decide as Hin; [|rewrite IH; naive_solver].
    cbn [fmap list_fmap fst snd list_to_map foldr]. rewrite !Forall_cons, NoDup_cons. cbn [snd]. split.
    + intros H. apply refuse_if_bind_ok in H as [H1 H]. apply refuse_if_bind_ok in H as [H2 H]. bool_simpl.
      apply IH in H as ((P1 & P2 & P3) & P4 & ->). apply eq_None_not_Some in H2.
      assert (Hn : ch_hash c ∉ (selection selected log).*1).
      { intros Hx. eapply Forall_forall in P4; [|exact Hx]. by rewrite lookup_insert_eq in P4. }
      split_and!; try done.
      * eapply Forall_impl; [exact P4|]. intros h Hh. by apply lookup_insert_None in Hh as [? _].
      * rewrite <- insert_union_r by (by apply not_elem_of_list_to_map_1). by rewrite insert_union_l.
    + intros (((_ & P1) & (P2 & P3) & (P4 & P5)) & (P6 & P7) & ->).
      rewrite refuse_if_bind_false by (by apply bool_decide_eq_false_2).
      rewrite refuse_if_bind_false by (apply bool_decide_eq_false_2; rewrite P6; by intros [? [=]]).
      apply IH. split_and!; try done.
      * apply Forall_forall. intros h Hh. rewrite lookup_insert_None. split; [by eapply Forall_forall in P7|]. by intros <-.
      * rewrite <- insert_union_r by (by apply not_elem_of_list_to_map_1). by rewrite insert_union_l.
Qed.

#[global] Instance selectable_proper selected : Proper ((≡ₚ) ==> iff) (selectable selected).
Proof.
  assert (H : forall l k, l ≡ₚ k -> selectable selected l -> selectable selected k).
  { intros l k E (H1 & H2 & H3). assert (Es : selection selected l ≡ₚ selection selected k) by (unfold selection; by rewrite E).
    split_and!; [by rewrite <- E|by rewrite <- Es|by rewrite <- Es]. }
  intros l k E. split; apply H; [done|by symmetry].
Qed.

(** The selection does not depend on the order of arrival. *)
Lemma select_ops_perm selected l k m : l ≡ₚ k -> select_ops selected l ∅ = Ok m -> select_ops selected k ∅ = Ok m.
Proof.
  intros E H. apply select_ops_spec in H as (H1 & _ & ->). apply select_ops_spec.
  assert (Es : selection selected l ≡ₚ selection selected k) by (unfold selection; by rewrite E). split_and!.
  - by rewrite <- E.
  - apply Forall_forall. intros h _. apply lookup_empty.
  - f_equal. apply list_to_map_proper; [apply H1|exact Es].
Qed.

Lemma select_ops_lookup selected log m h op :
  select_ops selected log ∅ = Ok m -> m !! h = Some op <-> op ∈ log /\ carried op = Some h /\ h ∈ selected.
Proof.
  intros H. apply select_ops_spec in H as ((_ & _ & Hn) & _ & ->). rewrite (right_id_L ∅ (∪)).
  rewrite <- elem_of_list_to_map by done. apply elem_of_selection.
Qed.
End selection.

(** * Counting dependencies *)

(** How often [x] occurs in [l]. *)
Definition edge_count (x : bytes) (l : list bytes) : N := len (filter (fun y => y = x) l).

Lemma edge_count_app x l k : edge_count x (l ++ k) = edge_count x l + edge_count x k.
Proof. unfold edge_count. by rewrite filter_app, len_app. Qed.

Lemma edge_count_cons x y l : edge_count x (y :: l) = (if decide (y = x) then 1 else 0) + edge_count x l.
Proof. unfold edge_count. rewrite filter_cons. case_decide; [by rewrite len_cons|done]. Qed.

Lemma edge_count_pos x l : x ∈ l <-> 0 < edge_count x l.
Proof.
  induction l as [|y l IH]; [split; [by intros ?%elem_of_nil|done]|]. rewrite elem_of_cons, edge_count_cons, IH. case_decide; naive_solver lia.
Qed.

(** Entries of [l] that are not yet out. *)
Definition missing (out l : list bytes) : N := len (filter (fun y => y ∉ out) l).

Lemma missing_snoc out x l : (x ∉ out) -> missing out l = missing (out ++ [x]) l + edge_count x l.
Proof.
  intros Hx. unfold missing. induction l as [|y l IH]; [done|]. rewrite edge_count_cons, !filter_cons.
  destruct (decide (y = x)) as [->|Hne].
  - rewrite (decide_True (P := x ∉ out)) by done. rewrite (decide_False (P := x ∉ out ++ [x])) by set_solver. rewrite len_cons. lia.
  - destruct (decide (y ∈ out)).
    + rewrite !decide_False by set_solver. lia.
    + rewrite !decide_True by set_solver. rewrite !len_cons. lia.
Qed.

Lemma missing_zero out l : missing out l = 0 <-> forall y, y ∈ l -> y ∈ out.
Proof.
  unfold missing. rewrite len_zero. split.
  - intros H y Hy. destruct (decide (y ∈ out)) as [|Hn]; [done|]. exfalso. apply (not_elem_of_nil y). rewrite <- H.
    by apply list_elem_of_filter.
  - intros H. apply elem_of_nil_inv. intros y Hy. apply list_elem_of_filter in Hy as [Hn Hy]. auto.
Qed.

Definition dependents_of (m : gmap bytes (list bytes)) (p : bytes) : list bytes := default [] (m !! p).

Lemma push_deps_occ hash deps : forall m p h,
  edge_count h (dependents_of (fold_left (fun m d => push_dependent hash d m) deps m) p) =
  edge_count h (dependents_of m p) + (if decide (h = hash) then edge_count p deps else 0).
Proof.
  induction deps as [|d deps IH]; intros m p h; cbn [fold_left]; [change (edge_count p []) with 0; case_decide; lia|].
  rewrite IH, edge_count_cons. unfold push_dependent, dependents_of. destruct (decide (d = p)) as [->|Hne].
  - rewrite lookup_insert_eq. cbn [from_option id]. rewrite edge_count_app, edge_count_cons. change (edge_count h []) with 0.
    destruct (decide (hash = h)) as [->|]; [rewrite !decide_True by done; lia|]. rewrite !decide_False by done. lia.
  - rewrite lookup_insert_ne by done. case_decide; lia.
Qed.

(** Releasing the dependents of one change subtracts their occurrences. *)
Lemma release_spec D : forall counts ready,
  (forall h, h ∈ D -> exists n, counts !! h = Some n /\ edge_count h D <= n) ->
  exists counts' ready', release_dependents D counts ready = Ok (counts', ready') /\
    (forall h, counts' !! h = (fun n => n - edge_count h D) <$> counts !! h) /\
    (forall h, h ∈ ready' <-> h ∈ ready \/ h ∈ D /\ counts' !! h = Some 0).
Proof.
  induction D as [|x D IH]; intros counts ready Hc; cbn [release_dependents].
  - exists counts, ready. split_and!; [done|..]; intros h.
    + change (edge_count h []) with 0. destruct (counts !! h) as [n|]; cbn; [by rewrite N.sub_0_r|done].
    + rewrite elem_of_nil. naive_solver.
  - destruct (Hc x) as (n & Hn & Hle); [left|]. rewrite edge_count_cons, decide_True in Hle by done. rewrite Hn. cbn [ok_or].
    rewrite bind_Ok, (proj2 (N.eqb_neq n 0)) by lia. cbn [ok_or]. rewrite bind_Ok.
    edestruct (IH (<[x := n - 1]> counts) (if n - 1 =? 0 then {[x]} ∪ ready else ready)) as (c' & r' & -> & H1 & H2).
    { intros h Hh. destruct (decide (h = x)) as [->|Hne]; [exists (n - 1); rewrite lookup_insert_eq; split; [done|lia]|].
      destruct (Hc h) as (k & Hk & Hok); [by right|]. exists k. rewrite lookup_insert_ne by done. split; [done|].
      rewrite edge_count_cons, decide_False in Hok by done. lia. }
    exists c', r'. assert (Hcnt : forall h, c' !! h = (fun n => n - edge_count h (x :: D)) <$> counts !! h).
    { intros h. rewrite H1, edge_count_cons. destruct (decide (x = h)) as [->|Hne].
      - rewrite lookup_insert_eq, Hn. cbn. f_equal. lia.
      - rewrite lookup_insert_ne by done. destruct (counts !! h); cbn; [f_equal; lia|done]. }
    split_and!; [done|done|]. intros h. rewrite H2, elem_of_cons. destruct (decide (h = x)) as [->|Hne].
    + specialize (Hcnt x). rewrite Hn in Hcnt. cbn in Hcnt. rewrite edge_count_cons, decide_True in Hcnt by done.
      destruct (N.eqb_spec (n - 1) 0) as [Hz|Hz].
      * split; intros _; [right; split; [by left|rewrite Hcnt; f_equal; lia]|left; set_solver].
      * split; [intros [?|[? ?]]; [by left|right; split; [by right|done]]|].
        intros [?|[_ Hc0]]; [by left|]. destruct (decide (x ∈ D)) as [|Hx]; [by right|]. exfalso.
        rewrite edge_count_pos in Hx. assert (edge_count x D = 0) by lia. rewrite Hcnt in Hc0. injection Hc0 as Hc0. lia.
    + assert (h ∈ (if n - 1 =? 0 then {[x]} ∪ ready else ready) <-> h ∈ ready) as -> by (destruct (n - 1 =? 0); set_solver).
      split; (intros [?|[Hin ?]]; [by left|right; split; [|done]]); [by right|by destruct Hin].
Qed.
Section counting.
Context (G : graph) (selected : gset bytes).
Hypothesis Hknown : forall h, h ∈ selected -> is_Some (G h).

(** The selected dependencies of a hash. *)
Definition sdeps (h : bytes) : list bytes := match G h with Some c => selected_deps selected c | None => [] end.

Lemma count_deps_spec hashes : NoDup hashes -> (forall h, h ∈ hashes -> h ∈ selected) -> forall counts dependents,
  exists counts' dependents', count_deps G selected hashes counts dependents = Ok (counts', dependents') /\
    (forall h, counts' !! h = if decide (h ∈ hashes) then Some (len (sdeps h)) else counts !! h) /\
    (forall p h, edge_count h (dependents_of dependents' p) =
       edge_count h (dependents_of dependents p) + (if decide (h ∈ hashes) then edge_count p (sdeps h) else 0)).
Proof using Hknown.
  induction hashes as [|x hs IH]; intros Hn Hs counts dependents; cbn [count_deps].
  - exists counts, dependents. split_and!; [done|..]; intros; rewrite decide_False by apply not_elem_of_nil; [done|lia].
  - apply NoDup_cons in Hn as [Hx Hn]. destruct (Hknown x) as [c Hc]; [apply Hs; left|]. rewrite Hc. cbn [ok_or]. rewrite bind_Ok.
    assert (Esd : sdeps x = selected_deps selected c) by (unfold sdeps; by rewrite Hc). rewrite <- Esd.
    edestruct (IH Hn) as (c' & d' & -> & H1 & H2); [intros h Hh; apply Hs; by right|]. exists c', d'. split_and!; [done|..].
    + intros h. rewrite H1. destruct (decide (h ∈ hs)) as [Hin|Hin]; [rewrite decide_True by (by right); done|].
      destruct (decide (h = x)) as [->|Hne].
      * rewrite decide_True by left. by rewrite lookup_insert_eq.
      * rewrite decide_False by (by rewrite elem_of_cons; intros [?|?]). by rewrite lookup_insert_ne.
    + intros p h. rewrite H2, push_deps_occ. destruct (decide (h = x)) as [->|Hne].
      * rewrite (decide_False (P := x ∈ hs)), (decide_True (P := x ∈ x :: hs)) by (done || left). lia.
      * destruct (decide (h ∈ hs)); [rewrite decide_True by (by right); lia|].
        rewrite decide_False by (by rewrite elem_of_cons; intros [?|?]). lia.
Qed.

End counting.

(** * The canonical order *)

Lemma pop_first_spec s :
  match pop_first s with Some (x, s') => x ∈ s /\ s' = s ∖ {[x]} | None => s = ∅ end.
Proof.
  unfold pop_first, ascending. pose proof (sort_unstable_perm (elements s)) as Hp.
  destruct (sort_unstable (elements s)) as [|x l].
  - apply Permutation_nil in Hp. apply leibniz_equiv. by apply elements_empty_iff.
  - split; [|done]. apply elem_of_elements. rewrite <- Hp. left.
Qed.

Lemma prefix_snoc_cases {X} (hs : list X) x hs1 h hs2 :
  hs ++ [x] = hs1 ++ h :: hs2 -> (hs1 = hs /\ h = x) \/ exists k, hs = hs1 ++ h :: k.
Proof.
  intros E. destruct (decide (length hs2 = 0%nat)) as [Hl|Hl].
  - destruct hs2; [|done]. apply app_inj_tail in E as [-> ->]. by left.
  - right. destruct (exists_last (l := hs2)) as (k & y & ->); [by destruct hs2|].
    rewrite app_comm_cons, app_assoc in E. apply app_inj_tail in E as [-> _]. by exists k.
Qed.

Section ordering.
Context (G : graph) (selected : gset bytes) (by0 : gmap bytes SignedOp) (dependents : gmap bytes (list bytes)).
Abbreviation sdeps := (sdeps G selected).
Hypothesis Hby : forall h, is_Some (by0 !! h) <-> h ∈ selected.
Hypothesis Hdep : forall p h, edge_count h (dependents_of dependents p) = if decide (h ∈ selected) then edge_count p (sdeps h) else 0.

(** Every listed change comes after its selected dependencies. *)
Definition in_order (hs : list bytes) : Prop :=
  forall hs1 h hs2, hs = hs1 ++ h :: hs2 -> forall p, p ∈ sdeps h -> p ∈ hs1.

(** The loop's state when the changes [hs] are out. *)
Record order_ok (hs : list bytes) (counts : gmap bytes N) (ready : gset bytes) (by_change : gmap bytes SignedOp)
    (out : list SignedOp) : Prop := mkOrderOk {
  or_nodup : NoDup hs;
  or_selected h : h ∈ hs -> h ∈ selected;
  or_order : in_order hs;
  or_counts h : h ∈ selected -> counts !! h = Some (missing hs (sdeps h));
  or_ready h : h ∈ ready <-> h ∈ selected /\ (h ∉ hs) /\ missing hs (sdeps h) = 0;
  or_by h : by_change !! h = if decide (h ∈ hs) then None else by0 !! h;
  or_out : Forall2 (fun h op => by0 !! h = Some op) hs out
}.

Lemma order_step hs counts ready by_change out hash op :
  order_ok hs counts ready by_change out -> hash ∈ ready -> by_change !! hash = Some op ->
  exists counts' ready', release_dependents (dependents_of dependents hash) counts (ready ∖ {[hash]}) = Ok (counts', ready') /\
    order_ok (hs ++ [hash]) counts' ready' (delete hash by_change) (out ++ [op]).
Proof using Hby Hdep.
  intros Hok Hr Hop. pose proof (proj1 (or_ready _ _ _ _ _ Hok hash) Hr) as (Hsel & Hnew & Hzero).
  assert (Hmiss : forall h, missing hs (sdeps h) = missing (hs ++ [hash]) (sdeps h) + edge_count hash (sdeps h)) by (intros h; by apply missing_snoc).
  assert (Hdone : forall h, h ∈ hs ++ [hash] -> edge_count hash (sdeps h) = 0).
  { intros h Hh. assert (Hn : hash ∉ sdeps h); [|rewrite edge_count_pos in Hn; lia]. intros Hin.
    apply elem_of_app in Hh as [Hh| ->%list_elem_of_singleton].
    - apply list_elem_of_split in Hh as (h1 & h2 & E). pose proof (or_order _ _ _ _ _ Hok _ _ _ E _ Hin) as Hx.
      apply Hnew. rewrite E. apply elem_of_app. by left.
    - by apply Hnew, (proj1 (missing_zero hs (sdeps hash)) Hzero). }
  destruct (release_spec (dependents_of dependents hash) counts (ready ∖ {[hash]})) as (c' & r' & Hrel & Hc & Hr').
  { intros h Hh%edge_count_pos. rewrite Hdep in *. case_decide as Hs; [|lia]. exists (missing hs (sdeps h)).
    split; [by apply (or_counts _ _ _ _ _ Hok)|]. rewrite (Hmiss h). lia. }
  assert (Hcnt : forall h, h ∈ selected -> c' !! h = Some (missing (hs ++ [hash]) (sdeps h))).
  { intros h Hs. rewrite Hc, (or_counts _ _ _ _ _ Hok h Hs), Hdep, decide_True by done. cbn. f_equal. rewrite (Hmiss h). lia. }
  exists c', r'. split; [done|]. constructor.
  - apply NoDup_app. split_and!; [apply Hok| |apply NoDup_singleton]. by intros x Hx ->%list_elem_of_singleton.
  - intros h [?| ->%list_elem_of_singleton]%elem_of_app; [by apply (or_selected _ _ _ _ _ Hok)|done].
  - intros hs1 h hs2 E p Hp. apply prefix_snoc_cases in E as [[-> ->]|[k E]]; [|by eapply (or_order _ _ _ _ _ Hok)].
    by apply (proj1 (missing_zero hs (sdeps hash)) Hzero).
  - exact Hcnt.
  - intros h. rewrite Hr', edge_count_pos, Hdep. split.
    + intros [[H1 H2]%elem_of_difference|[H1 H2]].
      * apply (or_ready _ _ _ _ _ Hok) in H1 as (S1 & S2 & S3). split_and!; [done|set_solver|]. rewrite (Hmiss h) in S3. lia.
      * case_decide as Hs; [|lia]. split_and!; [done| |].
        -- intros Hin%Hdone. lia.
        -- rewrite (Hcnt h Hs) in H2. by injection H2.
    + intros (S1 & S2 & S3). rewrite decide_True by done. destruct (N.eq_dec (edge_count hash (sdeps h)) 0) as [Hz|Hz].
      * left. apply elem_of_difference. split; [|set_solver]. apply (or_ready _ _ _ _ _ Hok). split_and!; [done|set_solver|].
        rewrite (Hmiss h). lia.
      * right. split; [lia|]. by rewrite (Hcnt h S1), S3.
  - intros h. destruct (decide (h = hash)) as [->|Hne].
    + rewrite lookup_delete_eq, decide_True; [done|]. apply elem_of_app. right. left.
    + rewrite lookup_delete_ne, (or_by _ _ _ _ _ Hok) by done. destruct (decide (h ∈ hs)); [rewrite decide_True by set_solver; done|].
      rewrite decide_False by set_solver. done.
  - apply Forall2_app; [apply Hok|]. constructor; [|constructor]. pose proof (or_by _ _ _ _ _ Hok hash) as Hb.
    rewrite decide_False in Hb by done. congruence.
Qed.

Lemma order_loop_spec fuel : forall hs counts ready by_change out,
  order_ok hs counts ready by_change out -> (size selected <= length hs + fuel)%nat ->
  exists hs' counts' by_change' out', order_loop fuel dependents counts ready by_change out = Ok (by_change', out') /\
    order_ok hs' counts' ∅ by_change' out'.
Proof using Hby Hdep.
  assert (Hfull : forall hs counts ready by_change out, order_ok hs counts ready by_change out ->
    (size selected <= length hs)%nat -> ready = ∅).
  { intros hs counts ready by_change out Hok Hl. apply set_eq. intros h. split; [|by intros ?%elem_of_empty].
    intros (Hs & Hn & _)%(or_ready _ _ _ _ _ Hok). exfalso.
    assert (Hsub : (length (h :: hs) <= length (elements selected))%nat).
    { apply submseteq_length, NoDup_submseteq; [apply NoDup_cons; split; [done|apply Hok]|].
      intros x [->|Hx]%elem_of_cons; apply elem_of_elements; [done|by apply (or_selected _ _ _ _ _ Hok)]. }
    cbn in Hsub. unfold size, set_size in Hl. cbn in Hl. lia. }
  induction fuel as [|fuel IH]; intros hs counts ready by_change out Hok Hf; cbn [order_loop].
  - assert (ready = ∅) as -> by (eapply Hfull; [done|lia]). by exists hs, counts, by_change, out.
  - pose proof (pop_first_spec ready) as Hp. destruct (pop_first ready) as [[hash ready']|].
    + destruct Hp as [Hr ->]. pose proof (proj1 (or_ready _ _ _ _ _ Hok hash) Hr) as (Hsel & Hnew & _).
      destruct (proj2 (Hby hash) Hsel) as [op Hop0].
      assert (Hop : by_change !! hash = Some op) by (rewrite (or_by _ _ _ _ _ Hok), decide_False; done).
      rewrite Hop. cbn [ok_or]. rewrite bind_Ok. fold (dependents_of dependents hash).
      destruct (order_step _ _ _ _ _ _ _ Hok Hr Hop) as (c' & r' & -> & Hok'). rewrite bind_Ok. cbn [fst snd].
      apply (IH (hs ++ [hash])); [done|]. rewrite length_app. cbn. lia.
    + subst ready. by exists hs, counts, by_change, out.
Qed.

(** When nothing is ready any more, everything is out. *)
Lemma order_complete l hs counts by_change out :
  enumerated l G -> (forall h, h ∈ selected -> is_Some (G h)) -> order_ok hs counts ∅ by_change out ->
  forall h, h ∈ selected -> h ∈ hs.
Proof using.
  intros He Hk Hok h Hs. pose proof He as (_ & Hd & Hg). destruct (Hk h Hs) as [c Hc]. apply Hg in Hc as [Hc Hh].
  apply list_elem_of_split in Hc as (l1 & l2 & Hl). revert c l2 h Hs Hh Hl.
  induction l1 as [l1 IH] using (induction_ltof1 _ (@length Change)). unfold ltof in IH. intros c l2 h Hs Hh Hl.
  destruct (decide (h ∈ hs)) as [|Hn]; [done|]. exfalso. apply (not_elem_of_empty (C:=gset bytes) h), (or_ready _ _ _ _ _ Hok).
  split_and!; [done..|]. apply missing_zero. intros p Hp. unfold Closure.sdeps in Hp.
  assert (Hc : G h = Some c) by (apply Hg; split; [rewrite Hl; apply elem_of_app; right; left|done]). rewrite Hc in Hp.
  apply list_elem_of_filter in Hp as [Hps Hp]. pose proof (Hd _ _ _ Hl p Hp) as Hpl. unfold hashes in Hpl.
  apply list_elem_of_fmap in Hpl as (q & -> & Hq). apply list_elem_of_split in Hq as (k1 & k2 & ->).
  eapply (IH k1); [rewrite length_app; cbn; lia|done|done|]. rewrite Hl. by rewrite <- app_assoc.
Qed.
End ordering.

Lemma initially_ready_spec counts h : h ∈ initially_ready counts <-> counts !! h = Some 0.
Proof.
  unfold initially_ready. rewrite elem_of_list_to_set, list_elem_of_fmap. split.
  - intros ([k n] & -> & H). apply list_elem_of_filter in H as [H1 H2]. cbn in *. subst n. by apply elem_of_map_to_list.
  - intros H. exists (h, 0). split; [done|]. apply list_elem_of_filter. split; [done|]. by apply elem_of_map_to_list.
Qed.

Lemma missing_nil l : missing [] l = len l.
Proof. unfold missing. induction l as [|x l IH]; [done|]. rewrite filter_cons, decide_True by apply not_elem_of_nil. by rewrite !len_cons, IH. Qed.

Lemma elem_of_ascending s h : h ∈ ascending s <-> h ∈ s.
Proof. unfold ascending. by rewrite sort_unstable_perm, elem_of_elements. Qed.

(** What a canonical listing of a set of changes is. *)
Record listing (G : graph) (selected : gset bytes) (by0 : gmap bytes SignedOp) (hs : list bytes) (out : list SignedOp) : Prop := mkListing {
  li_nodup : NoDup hs;
  li_elem h : h ∈ hs <-> h ∈ selected;
  li_order : in_order G selected hs;
  li_out : Forall2 (fun h op => by0 !! h = Some op) hs out
}.

(** The two loops list every selected change, dependencies first. *)
Lemma order_selected l G selected by0 :
  enumerated l G -> (forall h, h ∈ selected -> is_Some (G h)) -> (forall h, is_Some (by0 !! h) <-> h ∈ selected) ->
  exists cd out hs, count_deps G selected (ascending selected) ∅ ∅ = Ok cd /\
    order_loop (size selected) cd.2 cd.1 (initially_ready cd.1) by0 [] = Ok (∅, out) /\ listing G selected by0 hs out.
Proof.
  intros He Hk Hby.
  destruct (count_deps_spec G selected Hk (ascending selected)) with (counts := ∅ : gmap bytes N) (dependents := ∅ : gmap bytes (list bytes))
    as (counts & dependents & Ec & H1 & H2).
  { unfold ascending. rewrite sort_unstable_perm. apply NoDup_elements. }
  { intros h. by rewrite elem_of_ascending. }
  assert (Hdep : forall p h, edge_count h (dependents_of dependents p) = if decide (h ∈ selected) then edge_count p (sdeps G selected h) else 0).
  { intros p h. rewrite H2. unfold dependents_of at 1. rewrite lookup_empty. change (edge_count h (default [] None)) with 0.
    rewrite N.add_0_l. apply decide_ext, elem_of_ascending. }
  assert (Hcnt : forall h, counts !! h = if decide (h ∈ selected) then Some (len (sdeps G selected h)) else None).
  { intros h. rewrite H1, lookup_empty. apply decide_ext, elem_of_ascending. }
  destruct (order_loop_spec G selected by0 dependents Hby Hdep (size selected) [] counts (initially_ready counts) by0 [])
    as (hs & c' & b' & out & El & Hok).
  { constructor.
    - apply NoDup_nil_2.
    - by intros h ?%elem_of_nil.
    - intros hs1 h hs2 E. by destruct hs1.
    - intros h Hs. by rewrite Hcnt, decide_True, missing_nil.
    - intros h. rewrite initially_ready_spec, Hcnt, missing_nil. case_decide; [|by split; [|intros [? _]]].
      split; [intros [= E]|by intros (_ & _ & ->)]. split_and!; [done|apply not_elem_of_nil|done].
    - intros h. by rewrite decide_False by apply not_elem_of_nil.
    - constructor. }
  { cbn. lia. }
  pose proof (order_complete G selected by0 l hs _ _ _ He Hk Hok) as Hall.
  assert (b' = ∅) as ->.
  { apply map_eq. intros h. rewrite lookup_empty, (or_by _ _ _ _ _ _ _ _ Hok). case_decide as Hin; [done|].
    apply eq_None_not_Some. rewrite Hby. intros Hs. by apply Hin, Hall. }
  exists (counts, dependents), out, hs. split_and!; [done|done|]. constructor; try apply Hok.
  intros h. split; [apply (or_selected _ _ _ _ _ _ _ _ Hok)|apply Hall].
Qed.

Section signed_ops.
Context {C : Crypto} {A : Aead} {M : Automerge} {L : AutomergeLaws M}.

(** The changes a close with these heads selects. *)
Definition selected_changes (d : EncryptedDoc) (heads : list bytes) (seed : option bytes) : gset bytes :=
  held_closure d heads ∖ (match seed with Some s => {[s]} | None => ∅ end).

Lemma selected_known d heads seed h : h ∈ selected_changes d heads seed -> is_Some (doc_graph d h).
Proof using L.
  unfold selected_changes. intros [(s & _ & Hb)%held_closure_spec _]%elem_of_difference. by eapply behind_known.
Qed.

(** Exactly when the closure is served, and what it is then. *)
Definition servable (d : EncryptedDoc) (heads : list bytes) (seed : option bytes) (by_change : gmap bytes SignedOp) : Prop :=
  seed = cp_seed_hash <$> ed_checkpoint d /\ Forall (fun s => is_Some (doc_graph d s)) heads /\
  (forall s, seed = Some s -> s ∈ held_closure d heads) /\
  select_ops (selected_changes d heads seed) (ed_log d) ∅ = Ok by_change /\
  size by_change = size (selected_changes d heads seed).

Lemma wanted_closure d heads w :
  wanted_loop (closure_fuel (ed_doc d) heads) (doc_graph d) (rev heads) ∅ = Ok w -> w = held_closure d heads.
Proof using. apply wanted_loop_held. Qed.

Lemma by_change_dom d heads seed by_change h :
  servable d heads seed by_change -> is_Some (by_change !! h) <-> h ∈ selected_changes d heads seed.
Proof using.
  intros (_ & _ & _ & Hs & Hz).
  assert (Hsub : dom by_change ⊆ selected_changes d heads seed).
  { intros x Hx%elem_of_dom. destruct Hx as [op Hop]. by apply (select_ops_lookup _ _ _ _ _ Hs) in Hop as (_ & _ & ?). }
  rewrite <- size_dom in Hz. rewrite <- elem_of_dom. split; [apply Hsub|]. intros Hin.
  assert (dom by_change = selected_changes d heads seed) as ->; [|done].
  apply leibniz_equiv. apply set_subseteq_size_equiv; [done|lia].
Qed.

(** The tail of the computation, once the selection is known. *)
Definition order_ops (G : graph) (selected : gset bytes) (by_change : gmap bytes SignedOp) : result ReplError (list SignedOp) :=
  cd ← count_deps G selected (ascending selected) ∅ ∅;
  r ← order_loop (size selected) cd.2 cd.1 (initially_ready cd.1) by_change [];
  _ ← refuse_if (bool_decide (r.1 <> ∅)) Malformed;
  Ok r.2.

Lemma signed_ops_eq d heads seed by_change :
  servable d heads seed by_change ->
  signed_ops_for_heads d heads seed = order_ops (doc_graph d) (selected_changes d heads seed) by_change.
Proof using L.
  intros (Hseed & Hheads & Hin & Hsel & Hsize). unfold signed_ops_for_heads.
  rewrite refuse_if_bind_false by (apply bool_decide_eq_false_2; by intros []).
  destruct (wanted_loop_ok (doc_graph d) (closure_fuel (ed_doc d) heads) (doc_closed _) (rev heads) ∅) as [w Hw]; [by apply Forall_rev|].
  rewrite Hw, bind_Ok. apply wanted_closure in Hw as ->.
  assert (Hstep : match seed with None => Ok (held_closure d heads) | Some s =>
      _ ← refuse_if (bool_decide (s ∉ held_closure d heads)) Malformed; Ok (held_closure d heads ∖ {[s]}) end =
    (Ok (selected_changes d heads seed) : result ReplError _)).
  { unfold selected_changes. destruct seed as [s|]; [|f_equal; set_solver].
    rewrite refuse_if_bind_false; [done|]. apply bool_decide_eq_false_2. intros Hn. by apply Hn, Hin. }
  rewrite Hstep, bind_Ok, Hsel, bind_Ok. by rewrite refuse_if_bind_false by (apply negb_false_iff; by apply Nat.eqb_eq).
Qed.

Lemma signed_ops_listing d heads seed by_change :
  servable d heads seed by_change ->
  exists out hs, signed_ops_for_heads d heads seed = Ok out /\ listing (doc_graph d) (selected_changes d heads seed) by_change hs out.
Proof using L.
  intros Hsv. destruct (order_selected _ (doc_graph d) (selected_changes d heads seed) by_change (am_graph (ed_doc d)))
    as (cd & out & hs & Hc & Ho & Hl); [apply selected_known|intros h; by apply by_change_dom|].
  exists out, hs. split; [|done]. rewrite (signed_ops_eq _ _ _ _ Hsv). unfold order_ops. rewrite Hc, bind_Ok, Ho, bind_Ok.
  cbn [fst snd]. by rewrite refuse_if_bind_false by (apply bool_decide_eq_false_2; by intros []).
Qed.

Lemma count_deps_ext G G' selected hs : (forall h, h ∈ hs -> G h = G' h) -> forall counts dependents,
  count_deps G selected hs counts dependents = count_deps G' selected hs counts dependents.
Proof using.
  induction hs as [|h hs IH]; intros E counts dependents; cbn [count_deps]; [done|]. rewrite E by left.
  destruct (G' h); cbn [ok_or]; [|done]. rewrite !bind_Ok. apply IH. intros x Hx. apply E. by right.
Qed.

(** Two replicas with the same changes and the same operations, however they
    arrived. *)
Definition same_content (d d' : EncryptedDoc) : Prop :=
  (forall h, doc_graph d h = doc_graph d' h) /\ ed_log d ≡ₚ ed_log d' /\ ed_checkpoint d = ed_checkpoint d'.

Lemma behind_ext G G' h a : (forall h, G h = G' h) -> behind G h a -> behind G' h a.
Proof using. intros E. apply behind_extends. intros x c. by rewrite E. Qed.

Lemma held_closure_same d d' heads : same_content d d' -> held_closure d heads = held_closure d' heads.
Proof using L.
  intros (E & _). apply set_eq. intros h. rewrite !held_closure_spec.
  split; intros (s & Hs & Hb); exists s; (split; [done|]); (eapply behind_ext; [|exact Hb]); done.
Qed.

Lemma servable_same d d' heads seed by_change :
  same_content d d' -> servable d heads seed by_change -> servable d' heads seed by_change.
Proof using L.
  intros Hsame. pose proof (held_closure_same d d' heads Hsame) as Ec. destruct Hsame as (E & Hl & Hcp).
  unfold servable, selected_changes. rewrite Ec, Hcp. intros (H1 & H2 & H3 & H4 & H5). split_and!; try done.
  - eapply Forall_impl; [exact H2|]. intros s Hs. cbn in Hs |- *. by rewrite <- E.
  - by eapply select_ops_perm.
Qed.

Lemma signed_ops_servable d heads seed out :
  signed_ops_for_heads d heads seed = Ok out -> exists by_change, servable d heads seed by_change.
Proof using L.
  unfold signed_ops_for_heads. intros H. apply refuse_if_bind_ok in H as [H1 H]. apply bind_ok in H as (w & Hw & H).
  apply bind_ok in H as (sel & Hsel & H). apply bind_ok in H as (m & Hm & H). apply refuse_if_bind_ok in H as [Hz _].
  bool_simpl. apply Nat.eqb_eq in Hz. pose proof (wanted_closure _ _ _ Hw) as ->.
  assert (sel = selected_changes d heads seed /\ forall s, seed = Some s -> s ∈ held_closure d heads) as [-> Hin].
  { unfold selected_changes. destruct seed as [s|]; [|injection Hsel as <-; split; [set_solver|done]].
    apply refuse_if_bind_ok in Hsel as [Hs [= <-]]. split; [done|]. intros s' [= <-]. by apply bool_decide_eq_false, dec_stable in Hs. }
  exists m. split_and!; try done. apply Forall_forall. intros s Hs.
  eapply (wanted_loop_known _ _ s (am_graph (ed_doc d))); [apply closure_fuel_ok| | |exact Hw].
  - by intros x ?%elem_of_empty.
  - by rewrite <- Permutation_rev.
Qed.

Lemma signed_ops_same d d' heads seed out :
  same_content d d' -> signed_ops_for_heads d heads seed = Ok out -> signed_ops_for_heads d' heads seed = Ok out.
Proof using L.
  intros Hsame H. destruct (signed_ops_servable _ _ _ _ H) as [m Hm].
  rewrite (signed_ops_eq _ _ _ _ (servable_same _ _ _ _ _ Hsame Hm)), <- H, (signed_ops_eq _ _ _ _ Hm).
  unfold order_ops, selected_changes. rewrite (held_closure_same d d' heads Hsame).
  by rewrite (count_deps_ext (doc_graph d') (doc_graph d)) by (intros h _; symmetry; apply Hsame).
Qed.

(** A replica that holds at least as much. *)
Definition ahead (d d' : EncryptedDoc) : Prop :=
  extends (doc_graph d) (doc_graph d') /\ ed_log d ⊆ ed_log d' /\ ed_checkpoint d = ed_checkpoint d'.

Lemma held_closure_ahead d d' heads :
  ahead d d' -> Forall (fun s => is_Some (doc_graph d s)) heads -> held_closure d heads = held_closure d' heads.
Proof using L.
  intros (HG & _) Hh. apply set_eq. intros h. rewrite !held_closure_spec. split; intros (s & Hs & Hb); exists s; (split; [done|]).
  - by eapply behind_extends.
  - eapply behind_agree; [|apply doc_closed|exact Hb|by eapply Forall_forall in Hh].
    intros x c c' Hc Hc'. apply HG in Hc'. congruence.
Qed.

(** It serves the same closure, if it serves it: what it holds beyond the named
    heads does not matter. *)
Lemma signed_ops_ahead d d' heads seed out out' :
  ahead d d' -> signed_ops_for_heads d heads seed = Ok out -> signed_ops_for_heads d' heads seed = Ok out' -> out' = out.
Proof using L.
  intros Ha H H'. destruct (signed_ops_servable _ _ _ _ H) as [m Hm], (signed_ops_servable _ _ _ _ H') as [m' Hm'].
  pose proof (held_closure_ahead d d' heads Ha ltac:(apply Hm)) as Ec. destruct Ha as (HG & Hlog & _).
  assert (Esel : selected_changes d' heads seed = selected_changes d heads seed) by (unfold selected_changes; by rewrite Ec).
  assert (Em : m' = m).
  { pose proof Hm as (_ & _ & _ & Hs & _). pose proof Hm' as (_ & _ & _ & Hs' & _). apply map_eq. intros h. apply option_eq. intros op.
    assert (Hsub : forall o, m !! h = Some o -> m' !! h = Some o).
    { intros o (O1 & O2 & O3)%(select_ops_lookup _ _ _ _ _ Hs). apply (select_ops_lookup _ _ _ _ _ Hs').
      rewrite Esel. split_and!; [by apply Hlog|done..]. }
    split; [|apply Hsub]. intros Hop. destruct (m !! h) as [o|] eqn:E; [specialize (Hsub o eq_refl); congruence|exfalso].
    assert (Hin : h ∈ selected_changes d heads seed) by (rewrite <- Esel; by eapply by_change_dom; [|eexists]).
    apply (by_change_dom _ _ _ _ _ Hm) in Hin. rewrite E in Hin. by destruct Hin. }
  rewrite (signed_ops_eq _ _ _ _ Hm) in H. rewrite (signed_ops_eq _ _ _ _ Hm'), Em, Esel in H'. unfold order_ops in *.
  rewrite (count_deps_ext (doc_graph d') (doc_graph d)), H in H'; [by injection H'|].
  intros h Hh%elem_of_ascending.
  destruct (selected_known _ _ _ _ Hh) as [c Hc]. rewrite Hc. by apply HG.
Qed.
End signed_ops.

(** * Delivery evidence *)

Definition MAX_DELIVERY_TARGETS : N := 64.

Section holders.
Context {C : Crypto} {A : Aead} {M : Automerge}.

(** [*bit_of.entry(h).or_default() |= 1 << i] *)
Fixpoint bit_of (i : N) (targets : list bytes) (m : gmap bytes N) : gmap bytes N :=
  match targets with
  | [] => m
  | h :: rest => bit_of (i + 1) rest (<[h := N.lor (default 0 (m !! h)) (N.shiftl 1 i)]> m)
  end.

(** One change of the pass: the bits it carries, and its author's share. *)
Definition carry_step (bits : gmap bytes N) (authors : gmap bytes bytes) (s : gmap bytes N * gmap bytes N) (meta : Change)
    : gmap bytes N * gmap bytes N :=
  let '(held, by_device) := s in
  let mask := fold_left (fun mask dep => N.lor mask (default 0 (held !! dep))) (ch_deps meta)
                (default 0 (bits !! ch_hash meta)) in
  if mask =? 0 then s
  else (<[ch_hash meta := mask]> held,
        match authors !! ch_hash meta with
        | Some device => <[device := N.lor (default 0 (by_device !! device)) mask]> by_device
        | None => by_device
        end).

(** The devices whose mask has bit [i]. *)
Definition holders_at (by_device : gmap bytes N) (i : N) : list bytes :=
  sort_unstable (fst <$> filter (fun e => N.testbit e.2 i = true) (map_to_list by_device)).

(** [EncryptedDoc::holders_of] *)
Definition holders_of (d : EncryptedDoc) (targets : list bytes) : list (list bytes) * EncryptedDoc :=
  let n := N.min (len targets) MAX_DELIVERY_TARGETS in
  if n =? 0 then (replicate (length targets) [], d)
  else
    let d := index_authors d in
    let bits := bit_of 0 (firstn (N.to_nat n) targets) ∅ in
    let '(_, by_device) := fold_left (carry_step bits (ed_change_authors d)) (am_changes (ed_doc d)) (∅, ∅) in
    (imap (fun i _ => if (N.of_nat i <? n) then holders_at by_device (N.of_nat i) else []) targets, d).
End holders.

(** ** Masks *)

Definition bit (m : gmap bytes N) (h : bytes) (j : N) : Prop := N.testbit (default 0 (m !! h)) j = true.

Lemma bit_empty h j : ~ bit ∅ h j.
Proof. unfold bit. rewrite lookup_empty. change (N.testbit 0 j <> true). by rewrite N.bits_0. Qed.

Lemma bit_insert_lor m h mask x j :
  bit (<[h := N.lor (default 0 (m !! h)) mask]> m) x j <-> bit m x j \/ x = h /\ N.testbit mask j = true.
Proof.
  unfold bit. destruct (decide (x = h)) as [->|Hne].
  - rewrite lookup_insert_eq. cbn. rewrite N.lor_spec, orb_true_iff. naive_solver.
  - rewrite lookup_insert_ne by done. naive_solver.
Qed.

Lemma testbit_shift i j : N.testbit (N.shiftl 1 i) j = true <-> j = i.
Proof.
  rewrite N.shiftl_1_l, N.pow2_bits_eqb, N.eqb_eq. naive_solver.
Qed.

Lemma bit_of_spec targets : forall i m h j,
  bit (bit_of i targets m) h j <-> bit m h j \/ exists k, targets !! k = Some h /\ j = i + N.of_nat k.
Proof.
  induction targets as [|t targets IH]; intros i m h j; cbn [bit_of].
  - split; [by left|]. intros [?|(k & Hk & _)]; [done|]. by rewrite lookup_nil in Hk.
  - rewrite IH, bit_insert_lor, testbit_shift. split.
    + intros [[?|[-> ->]]|(k & Hk & ->)]; [by left|right; exists 0%nat; split; [done|lia]|right; exists (S k); split; [done|lia]].
    + intros [?|(k & Hk & ->)]; [left; by left|]. destruct k as [|k].
      * cbn in Hk. injection Hk as ->. left. right. split; [done|lia].
      * right. exists k. split; [done|lia].
Qed.

Lemma fold_lor_spec held deps j : forall mask,
  N.testbit (fold_left (fun mask dep => N.lor mask (default 0 (held !! dep))) deps mask) j = true <->
  N.testbit mask j = true \/ exists p, p ∈ deps /\ bit held p j.
Proof.
  induction deps as [|p deps IH]; intros mask; cbn [fold_left].
  - split; [by left|]. by intros [?|(p & ?%elem_of_nil & _)].
  - rewrite IH, N.lor_spec, orb_true_iff. setoid_rewrite elem_of_cons. split.
    + intros [[?|?]|(q & ? & ?)]; [by left|right; exists p; auto|right; exists q; auto].
    + intros [?|(q & [->|?] & ?)]; [auto|left; by right|right; eauto].
Qed.

Section carry.
Context (l : list Change) (G : graph) (bits : gmap bytes N) (authors : gmap bytes bytes) (target : N -> bytes -> Prop).
Hypothesis He : enumerated l G.
Hypothesis Hbits : forall h j, bit bits h j <-> target j h.

(** The pass after the changes [l1]: each carries the targets behind it, and
    each device the targets behind what it authored. *)
Record carry_ok (l1 : list Change) (s : gmap bytes N * gmap bytes N) : Prop := mkCarryOk {
  ca_held h j : bit s.1 h j <-> h ∈ hashes l1 /\ exists t, target j t /\ behind G h t;
  ca_device D j : bit s.2 D j <-> exists h t, h ∈ hashes l1 /\ authors !! h = Some D /\ target j t /\ behind G h t
}.

Lemma carry_step_ok l1 c l2 s : l = l1 ++ c :: l2 -> carry_ok l1 s -> carry_ok (l1 ++ [c]) (carry_step bits authors s c).
Proof using He Hbits.
  intros El [Hh Hd]. destruct s as [held by_device]. cbn [fst snd] in *. pose proof He as (Hn & Hdf & Hg).
  assert (Hc : G (ch_hash c) = Some c) by (apply Hg; split; [rewrite El; apply elem_of_app; right; left|done]).
  assert (Hnew : ch_hash c ∉ hashes l1).
  { intros Hin. rewrite El in Hn. unfold hashes in *. rewrite fmap_app in Hn. apply NoDup_app in Hn as (_ & Hn & _).
    by apply (Hn (ch_hash c)); [|left]. }
  set (mask := fold_left (fun mask dep => N.lor mask (default 0 (held !! dep))) (ch_deps c) (default 0 (bits !! ch_hash c))).
  assert (Hmask : forall j, N.testbit mask j = true <-> exists t, target j t /\ behind G (ch_hash c) t).
  { intros j. unfold mask. rewrite fold_lor_spec. change (N.testbit (default 0 (bits !! ch_hash c)) j = true) with (bit bits (ch_hash c) j).
    rewrite Hbits. split.
    - intros [?|(p & Hp & [_ (t & Ht & Hb)]%Hh)]; [exists (ch_hash c); split; [done|by eapply behind_self]|].
      exists t. split; [done|]. by eapply behind_dep.
    - intros (t & Ht & Hb). inversion Hb as [h c' E|h c' p t' E Hp Hb']; subst; [by left|right].
      rewrite Hc in E. injection E as <-. exists p. split; [done|]. apply Hh. split; [by eapply Hdf|eauto]. }
  assert (Happ : forall h, h ∈ hashes (l1 ++ [c]) <-> h ∈ hashes l1 \/ h = ch_hash c).
  { intros h. unfold hashes. rewrite fmap_app, elem_of_app. cbn. by rewrite list_elem_of_singleton. }
  assert (Hold : forall j, ~ bit held (ch_hash c) j) by (intros j [? _]%Hh; done).
  unfold carry_step. fold mask. destruct (N.eqb_spec mask 0) as [Hz|Hz].
  - assert (Hnone : forall j t, target j t -> behind G (ch_hash c) t -> False).
    { intros j t Ht Hb. assert (N.testbit mask j = true) as Hx by (apply Hmask; eauto). by rewrite Hz, N.bits_0 in Hx. }
    constructor; cbn [fst snd].
    + intros h j. rewrite Hh, Happ. split; [intros [? ?]; split; [by left|done]|]. intros [[?| ->] (t & Ht & Hb)]; [eauto|]. by destruct (Hnone j t).
    + intros D j. rewrite Hd. setoid_rewrite Happ. split; [intros (h & t & ? & ? & ? & ?); exists h, t; auto|].
      intros (h & t & [?| ->] & Ha & Ht & Hb); [eauto 8|]. by destruct (Hnone j t).
  - constructor; cbn [fst snd].
    + intros h j. rewrite Happ. destruct (decide (h = ch_hash c)) as [->|Hne].
      * unfold bit. rewrite lookup_insert_eq. cbn. rewrite Hmask. split; [intros ?; split; [by right|done]|by intros [_ ?]].
      * unfold bit. rewrite lookup_insert_ne by done. fold (bit held h j). rewrite Hh.
        split; [intros [? ?]; split; [by left|done]|intros [[?|?] ?]; [by split|done]].
    + intros D j. setoid_rewrite Happ. destruct (authors !! ch_hash c) as [dev|] eqn:Ea.
      * rewrite bit_insert_lor, Hd, Hmask. split.
        -- intros [(h & t & ? & ? & ? & ?)|[-> (t & ? & ?)]]; [exists h, t; auto|exists (ch_hash c), t; auto].
        -- intros (h & t & [?| ->] & Ha & ? & ?); [left; eauto 8|]. right. split; [congruence|eauto].
      * rewrite Hd. split; [intros (h & t & ? & ? & ? & ?); exists h, t; auto|].
        intros (h & t & [?| ->] & Ha & ? & ?); [eauto 8|congruence].
Qed.

Lemma carry_fold l2 : forall l1 s, l = l1 ++ l2 -> carry_ok l1 s -> carry_ok l (fold_left (carry_step bits authors) l2 s).
Proof using He Hbits.
  induction l2 as [|c l2 IH]; intros l1 s El Hs; cbn [fold_left]; [by rewrite El, app_nil_r|].
  apply (IH (l1 ++ [c])); [by rewrite <- app_assoc|]. by eapply carry_step_ok.
Qed.
End carry.

Lemma holders_at_spec by_device i D : D ∈ holders_at by_device i <-> bit by_device D i.
Proof.
  unfold holders_at, bit. rewrite sort_unstable_perm, list_elem_of_fmap. split.
  - intros ([k n] & -> & H). apply list_elem_of_filter in H as [H1 H2]. apply elem_of_map_to_list in H2. cbn in *. by rewrite H2.
  - intros H. destruct (by_device !! D) as [n|] eqn:E; [|change (N.testbit 0 i = true) in H; by rewrite N.bits_0 in H]. exists (D, n). split; [done|].
    apply list_elem_of_filter. split; [done|]. by apply elem_of_map_to_list.
Qed.

Lemma holders_at_nodup by_device i : NoDup (holders_at by_device i).
Proof.
  unfold holders_at. rewrite sort_unstable_perm.
  eapply sublist_NoDup; [apply (NoDup_fst_map_to_list by_device)|]. apply fmap_sublist, sublist_filter.
Qed.

(** The author of a change, from the signed envelope that carries it last. *)
Definition author_of {M : Automerge} (d : EncryptedDoc) (h : bytes) : option bytes := fold_left attribute (ed_log d) ∅ !! h.

Lemma attribute_some {M : Automerge} log h D : forall m : gmap bytes bytes,
  fold_left attribute log m !! h = Some D ->
  m !! h = Some D \/ exists op, op ∈ log /\ carried op = Some h /\ so_author_device op = D.
Proof.
  induction log as [|op log IH]; intros m H; cbn [fold_left] in H; [by left|].
  apply IH in H as [H|(o & Ho & H)]; [|right; exists o; split; [by right|done]].
  unfold attribute in H. destruct (change_from_bytes (so_delta op)) as [c|] eqn:Ec; [|by left].
  destruct (decide (ch_hash c = h)) as [<-|Hne].
  - rewrite lookup_insert_eq in H. injection H as <-. right. exists op. split; [left|]. unfold carried. by rewrite Ec.
  - rewrite lookup_insert_ne in H by done. by left.
Qed.

(** The pass over the graph marks, per device, the targets behind what it
    authored. *)
Lemma holders_pass {C : Crypto} {A : Aead} {M : Automerge} {L : AutomergeLaws M} d targets n :
  document_core d -> forall D j,
  bit (fold_left (carry_step (bit_of 0 (firstn (N.to_nat n) targets) ∅) (ed_change_authors (index_authors d)))
         (am_changes (ed_doc d)) (∅, ∅)).2 D j <->
  exists h x, author_of d h = Some D /\ j < n /\ targets !! N.to_nat j = Some x /\ behind (doc_graph d) h x.
Proof.
  intros Hd D j.
  assert (Hau : ed_change_authors (index_authors d) = fold_left attribute (ed_log d) ∅).
  { unfold index_authors. cbn. destruct (di_authors d Hd) as [_ ->]. by rewrite <- fold_left_app, take_drop. }
  assert (Hbits : forall h j, bit (bit_of 0 (firstn (N.to_nat n) targets) ∅) h j <-> j < n /\ targets !! N.to_nat j = Some h).
  { intros h k. rewrite bit_of_spec. split.
    - intros [?%bit_empty|(q & Hk & ->)]; [done|]. apply lookup_take_Some in Hk as [Hk Hkn]. rewrite N.add_0_l, Nnat.Nat2N.id. split; [lia|done].
    - intros [Hj Hx]. right. exists (N.to_nat k). split; [|lia]. apply lookup_take_Some. split; [done|lia]. }
  destruct (carry_fold (am_changes (ed_doc d)) (doc_graph d) _ (ed_change_authors (index_authors d))
    (fun j x => j < n /\ targets !! N.to_nat j = Some x) (am_graph _) Hbits (am_changes (ed_doc d)) [] (∅, ∅) eq_refl) as [_ Hdev].
  { constructor; cbn [fst snd].
    - intros h k. split; [by intros ?%bit_empty|]. by intros [?%elem_of_nil _].
    - intros E k. split; [by intros ?%bit_empty|]. by intros (h & x & ?%elem_of_nil & _). }
  rewrite Hdev, Hau. unfold author_of. split.
  - intros (h & x & _ & Ha & [Hj Hx] & Hb). by exists h, x.
  - intros (h & x & Ha & Hj & Hx & Hb). exists h, x. split_and!; try done.
    apply (enumerated_hash _ _ _ (am_graph (ed_doc d))). by apply behind_known in Hb as [? _].
Qed.

(** * Properties *)

(** C6: A close's content does not depend on who computes it. When the closure
    of the named heads is served, it lists every change at or behind a head
    other than the checkpoint seed exactly once, each as the domain operation
    of the log that carries it, and every change after all its selected
    dependencies; and any replica with the same changes, the same operations
    in whatever order they arrived and the same checkpoint serves the very
    same list, as does any replica that holds more and serves these heads. *)
Theorem closure_ops_canonical {C : Crypto} {A : Aead} {M : Automerge} {L : AutomergeLaws M} d heads seed out :
  signed_ops_for_heads d heads seed = Ok out ->
  (exists hs, NoDup hs /\
     (forall h, h ∈ hs <-> (exists s, s ∈ heads /\ behind (doc_graph d) s h) /\ seed <> Some h) /\
     Forall2 (fun h op => op ∈ ed_log d /\ carried op = Some h /\ so_domain_op op <> None) hs out /\
     forall hs1 h hs2 c p, hs = hs1 ++ h :: hs2 -> doc_graph d h = Some c -> p ∈ ch_deps c -> seed <> Some p -> p ∈ hs1) /\
  (forall d', same_content d d' -> signed_ops_for_heads d' heads seed = Ok out) /\
  (forall d' out', ahead d d' -> signed_ops_for_heads d' heads seed = Ok out' -> out' = out).
Proof.
  intros H. destruct (signed_ops_servable _ _ _ _ H) as [m Hm].
  assert (Hsel : forall h, h ∈ selected_changes d heads seed <-> (exists s, s ∈ heads /\ behind (doc_graph d) s h) /\ seed <> Some h).
  { intros h. unfold selected_changes. rewrite elem_of_difference, held_closure_spec. destruct seed as [s|]; [|set_solver].
    rewrite elem_of_singleton. split; (intros [? Hn]; split; [done|]); intros E; apply Hn; congruence. }
  split; [|split; [by intros d' ?; eapply signed_ops_same|by intros d' out' ? ?; eapply signed_ops_ahead]].
  - destruct (signed_ops_listing _ _ _ _ Hm) as (out' & hs & Ho & [H1 H2 H3 H4]). rewrite H in Ho. injection Ho as <-.
    exists hs. split_and!; [done|intros h; by rewrite H2| |].
    + destruct Hm as (_ & _ & _ & Hs & _). pose proof Hs as Hs'. apply select_ops_spec in Hs' as ((_ & Hdom & _) & _).
      eapply Forall2_impl; [exact H4|]. intros h op Hop. apply (select_ops_lookup _ _ _ _ _ Hs) in Hop as (P1 & P2 & P3).
      split_and!; [done..|]. eapply (proj1 (Forall_forall _ _) Hdom (h, op)). by apply elem_of_selection.
    + intros hs1 h hs2 c p E Hc Hp Hseed. apply (H3 _ _ _ E). unfold sdeps. rewrite Hc. apply list_elem_of_filter. split; [|done].
      apply Hsel. split; [|done]. assert (Hh : h ∈ selected_changes d heads seed) by (apply H2; rewrite E; apply elem_of_app; right; left).
      apply Hsel in Hh as [(s & Hs & Hb) _]. exists s. split; [done|]. eapply behind_trans; [exact Hb|].
      eapply behind_dep; [exact Hc|exact Hp|]. destruct (doc_closed (ed_doc d) h c p Hc Hp) as [q Hq]. by eapply behind_self.
Qed.

(** A sound closure is always served. If the caller names the document's
    own checkpoint seed and known heads that include it, every logged change
    parses, and every selected change is carried by exactly one operation, a
    domain operation, then the closure is returned: the dependency order never
    gets stuck and its counters never underflow. *)
Theorem closure_ops_total {C : Crypto} {A : Aead} {M : Automerge} {L : AutomergeLaws M} d heads seed :
  seed = cp_seed_hash <$> ed_checkpoint d -> Forall (fun s => is_Some (doc_graph d s)) heads ->
  (forall s, seed = Some s -> s ∈ held_closure d heads) ->
  selectable (selected_changes d heads seed) (ed_log d) ->
  (forall h, h ∈ selected_changes d heads seed -> exists op, op ∈ ed_log d /\ carried op = Some h) ->
  exists out, signed_ops_for_heads d heads seed = Ok out.
Proof.
  intros H1 H2 H3 H4 H5. set (sel := selected_changes d heads seed) in *.
  set (m := list_to_map (selection sel (ed_log d)) ∪ ∅ : gmap bytes SignedOp).
  assert (Hs : select_ops sel (ed_log d) ∅ = Ok m).
  { apply select_ops_spec. split_and!; [done| |done]. apply Forall_forall. intros h _. apply lookup_empty. }
  assert (Hsv : servable d heads seed m).
  { split_and!; try done. fold sel. rewrite <- size_dom. f_equal. apply set_eq. intros h. rewrite elem_of_dom. split.
    - intros [op Hop]. by apply (select_ops_lookup _ _ _ _ _ Hs) in Hop as (_ & _ & ?).
    - intros Hh. destruct (H5 h Hh) as (op & Ho & Hc). exists op. by apply (select_ops_lookup _ _ _ _ _ Hs). }
  destruct (signed_ops_listing _ _ _ _ Hsv) as (out & hs & Ho & _). by exists out.
Qed.

(** Delivery evidence is exact. For each of the first 64 targets the query
    names, once each, exactly the devices that authored some change with the
    target at or behind it in the graph, and nobody for the others; and an
    attribution always comes from a logged operation that verifies under that
    device, so no member can fake another's receipt. *)
Theorem holders_exact {C : Crypto} {A : Aead} {M : Automerge} {L : AutomergeLaws M} t id actor d targets :
  id <= u128_max -> rtc doc_step (doc_new t id actor) d ->
  (forall i target, targets !! i = Some target -> exists slot, (holders_of d targets).1 !! i = Some slot /\ NoDup slot /\
     forall D, D ∈ slot <-> N.of_nat i < MAX_DELIVERY_TARGETS /\ exists h, author_of d h = Some D /\ behind (doc_graph d) h target) /\
  (forall h D, author_of d h = Some D -> exists op,
     op ∈ ed_log d /\ op_verify op = true /\ so_author_device op = D /\ carried op = Some h).
Proof.
  intros Hid Hr. destruct (doc_run_inv _ _ (doc_new_inv t id actor Hid) Hr) as [Hd _]. split.
  2:{ intros h D H. apply attribute_some in H as [H|(op & Ho & Hc & Ha)]; [by rewrite lookup_empty in H|]. exists op.
      pose proof (di_log d Hd) as Hl. eapply Forall_forall in Hl as (_ & _ & _ & Hv); [|done]. done. }
  intros i target Hi. pose proof (lookup_lt_Some _ _ _ Hi) as Hlt. unfold holders_of.
  set (n := N.min (len targets) MAX_DELIVERY_TARGETS).
  destruct (N.eqb_spec n 0) as [Hz|Hz]; [unfold n, len, MAX_DELIVERY_TARGETS in Hz; lia|].
  pose proof (holders_pass d targets n Hd) as Hdev.
  cbn [ed_doc index_authors set_authors]. destruct (fold_left _ _ _) as [held by_device]. cbn [fst snd] in *.
  rewrite list_lookup_imap, Hi. cbn [fmap option_fmap option_map]. eexists. split; [done|].
  destruct (N.ltb_spec (N.of_nat i) n) as [Hin|Hin].
  - split; [apply holders_at_nodup|]. intros D. rewrite holders_at_spec, Hdev. split.
    + intros (h & x & Ha & _ & Hx & Hb). rewrite Nnat.Nat2N.id, Hi in Hx. injection Hx as ->. split; [unfold n in Hin; lia|eauto].
    + intros [_ (h & Ha & Hb)]. exists h, target. by rewrite Nnat.Nat2N.id.
  - split; [apply NoDup_nil_2|]. intros D. rewrite elem_of_nil. split; [done|]. intros [Hm _].
    unfold n, len, MAX_DELIVERY_TARGETS in *. lia.
Qed.

(** * Witnesses *)

(** A diamond of four changes under one author's domain operations. *)
Definition toy_domain_op (delta : bytes) : SignedOp :=
  let op := toy_doc_op delta in
  mkSignedOp (so_doc_type op) (so_doc_id op) (so_author_device op) (so_author_pubkey op) delta (Some []) (so_signature op).
Definition toy_diamond (log : list bytes) : EncryptedDoc (M:=toy_automerge) :=
  mkEncryptedDoc (M:=toy_automerge) DocRegistry 5 [[x01]; [x03; x01]; [x02; x01]; [x04; x02; x03]] (toy_domain_op <$> log) ∅ ∅ 0 None None
    index_default.
Definition diamond : EncryptedDoc (M:=toy_automerge) := toy_diamond [[x01]; [x03; x01]; [x02; x01]; [x04; x02; x03]].

Lemma diamond_ops :
  signed_ops_for_heads diamond [toy_hash x04] None = Ok (toy_domain_op <$> [[x01]; [x02; x01]; [x03; x01]; [x04; x02; x03]]).
Proof. vm_compute. reflexivity. Qed.

Lemma closure_ops_canonical_witness :
  signed_ops_for_heads (toy_diamond [[x02; x01]; [x04; x02; x03]; [x03; x01]; [x01]]) [toy_hash x04] None =
  Ok (toy_domain_op <$> [[x01]; [x02; x01]; [x03; x01]; [x04; x02; x03]]).
Proof.
  apply (proj1 (proj2 (closure_ops_canonical (C:=toy_crypto) (L:=toy_automerge_laws) diamond [toy_hash x04] None _ diamond_ops))).
  split; [reflexivity|split; [|reflexivity]]. apply (fmap_Permutation toy_domain_op).
  apply (bool_decide_unpack ([[x01]; [x03; x01]; [x02; x01]; [x04; x02; x03]] ≡ₚ [[x02; x01]; [x04; x02; x03]; [x03; x01]; [x01]])).
  vm_compute. exact I.
Defined.

Lemma diamond_selectable : selectable (selected_changes diamond [toy_hash x04] None) (ed_log diamond).
Proof.
  split; [|split].
  - apply (bool_decide_unpack (Forall (fun op => is_Some (carried op)) (ed_log diamond))). vm_compute. exact I.
  - apply (bool_decide_unpack (Forall (fun e => so_domain_op e.2 <> None)
      (selection (selected_changes diamond [toy_hash x04] None) (ed_log diamond)))). vm_compute. exact I.
  - apply (bool_decide_unpack (NoDup (selection (selected_changes diamond [toy_hash x04] None) (ed_log diamond)).*1)). vm_compute. exact I.
Qed.

Lemma diamond_carried h :
  h ∈ selected_changes diamond [toy_hash x04] None -> exists op, op ∈ ed_log diamond /\ carried op = Some h.
Proof.
  intros Hh. assert (H : Forall (fun h => Exists (fun op => carried op = Some h) (ed_log diamond))
    (elements (selected_changes diamond [toy_hash x04] None))).
  { apply (bool_decide_unpack (Forall (fun h => Exists (fun op => carried op = Some h) (ed_log diamond))
      (elements (selected_changes diamond [toy_hash x04] None)))). vm_compute. exact I. }
  eapply Forall_forall in H; [|by apply elem_of_elements]. by apply Exists_exists in H.
Qed.

Lemma diamond_heads : Forall (fun s => is_Some (doc_graph diamond s)) [toy_hash x04].
Proof. constructor; [vm_compute; by eexists|constructor]. Qed.

Lemma closure_ops_total_witness : exists out, signed_ops_for_heads diamond [toy_hash x04] None = Ok out.
Proof.
  apply (closure_ops_total (C:=toy_crypto) (L:=toy_automerge_laws) diamond [toy_hash x04] None).
  - reflexivity.
  - exact diamond_heads.
  - discriminate.
  - exact diamond_selectable.
  - exact diamond_carried.
Defined.

Lemma holders_exact_witness :
  exists slot, (holders_of toy_doc3 [toy_hash x01]).1 !! 0%nat = Some slot /\ NoDup slot.
Proof.
  destruct (proj1 (holders_exact (C:=toy_crypto) (L:=toy_automerge_laws) Channel 5 [] toy_doc3 [toy_hash x01]
    ltac:(discriminate) toy_doc_run') 0%nat (toy_hash x01) eq_refl) as (slot & H1 & H2 & _).
  exists slot. split; [exact H1|exact H2].
Defined.
