(* ===== verification/Close.v ===== *)
(** Close records of [crates/catcoms-replication/src/epoch.rs]: [CloseRecord],
    its transcript, signing, membership verification and wire codec. *)

From S2P Require Import Prelude Wire Context Crypto Codec EpochBase Authority Receipt.
From stdpp Require Import base list.
From Stdlib Require Import Init.Byte.
Local Open Scope N_scope.

Record CloseRecord := mkCloseRecord {
  cr_server_id : bytes;
  cr_doc_type : DocType;
  cr_doc_id : N;
  cr_closed_epoch : N;
  cr_heads : list bytes;
  cr_author_public_key : bytes;
  cr_signature : bytes
}.

#[global] Instance CloseRecord_eq_dec : EqDecision CloseRecord.
Proof. solve_decision. Defined.

(** [for head in &self.heads { put_hash(&mut e, head) }] *)
Definition put_hashes (hs : list bytes) (e : bytes) : bytes :=
  fold_left (fun e h => e |> put_hash h) hs e.

Definition CloseRecord_unsigned_bytes (c : CloseRecord) : bytes :=
  [] |> put_u8 1
     |> put_bytes_x (cr_server_id c)
     |> put_u16 (doc_tag (cr_doc_type c))
     |> put_u128 (cr_doc_id c)
     |> put_u64 (cr_closed_epoch c)
     |> put_u16 (len (cr_heads c))
     |> put_hashes (cr_heads c)
     |> put_bytes_x (cr_author_public_key c).

Definition CloseRecord_encode (c : CloseRecord) : bytes :=
  envelope (CloseRecord_unsigned_bytes c) (cr_signature c).

Definition CloseRecord_read (signature : bytes) : dec ReplError CloseRecord :=
  version ← mal get_u8;
  _ ← dec_refuse (negb (version =? 1)) Malformed;
  sid ← mal get_bytes;
  tag ← mal get_u16;
  t ← dec_lift (ok_or (doc_from_tag tag) Malformed);
  doc_id ← mal get_u128;
  closed_epoch ← mal get_u64;
  count ← mal get_u16;
  _ ← dec_refuse ((count =? 0) || (MAX_HEADS <? count)) EpochBound;
  heads ← get_n (N.to_nat count) (get_fixed 32);
  key ← mal get_bytes;
  mret (mkCloseRecord sid t doc_id closed_epoch heads key signature).

Definition CloseRecord_decode (input : bytes) : result ReplError CloseRecord :=
  _ ← refuse_if (MAX_CLOSE_RECORD_BYTES <? len input) EpochBound;
  e ← run_exact read_envelope input;
  c ← run_exact (CloseRecord_read e.2) e.1;
  _ ← refuse_if (is_empty (cr_server_id c)
                 || (MAX_SERVER_ID_BYTES <? len (cr_server_id c))
                 || negb (len (cr_author_public_key c) =? 32)
                 || (cr_closed_epoch c =? u64_max)
                 || negb (strictly_ascending (cr_heads c))) Malformed;
  _ ← refuse_if (bool_decide (CloseRecord_encode c <> input)) Malformed;
  mret c.

Section close.
Context {C : Crypto}.

Definition CloseRecord_signature_hash (c : CloseRecord) : bytes :=
  hash_parts (bytes_of_string "catcoms-close-sig:v1")
    [cr_server_id c; be_bytes 8 (doc_tag (cr_doc_type c)); be_bytes 16 (cr_doc_id c);
     be_bytes 8 (cr_closed_epoch c); CloseRecord_unsigned_bytes c].

Definition CloseRecord_hash (c : CloseRecord) : bytes :=
  hash_parts (bytes_of_string "catcoms-close:v1") [CloseRecord_unsigned_bytes c].

Definition CloseRecord_author (c : CloseRecord) : bytes :=
  from_public_key_bytes (cr_author_public_key c).

Definition CloseRecord_sign (doc : LogicalDocument) (doc_id closed_epoch : N)
    (heads : list bytes) (author : MlsDevice) : result ReplError CloseRecord :=
  let heads := dedup (sort_unstable heads) in
  _ ← refuse_if ((closed_epoch =? u64_max) || is_empty heads || (MAX_HEADS <? len heads))
        EpochBound;
  let record s := mkCloseRecord (server_id doc) (doc_type doc) doc_id closed_epoch heads
                    (public_key_bytes author) s in
  s ← sign_with author (CloseRecord_signature_hash (record (replicate 64 x00)));
  _ ← refuse_if (MAX_CLOSE_RECORD_BYTES <? len (CloseRecord_encode (record s))) EpochBound;
  mret (record s).

Definition CloseRecord_verify_for (c : CloseRecord) (doc : LogicalDocument)
    (expected_doc_id : N) (group : ServerGroup) (historical_receipt : option VerifiedReceipt)
    : result ReplError unit :=
  _ ← refuse_if (bool_decide (cr_server_id c <> server_id doc)
                 || bool_decide (cr_doc_type c <> doc_type doc)
                 || negb (cr_doc_id c =? expected_doc_id)
                 || bool_decide (cr_server_id c <> group_id group)) EpochScope;
  _ ← refuse_if (is_empty (cr_heads c)
                 || (MAX_HEADS <? len (cr_heads c))
                 || negb (strictly_ascending (cr_heads c))
                 || (cr_closed_epoch c =? u64_max)
                 || negb (verify_with_public_bytes (cr_author_public_key c)
                            (CloseRecord_signature_hash c) (cr_signature c))) EpochAuthority;
  match member_signature_key group (CloseRecord_author c) with
  | Some expected =>
      if bool_decide (expected = cr_author_public_key c) then Ok tt else Err EpochAuthority
  | None =>
      match historical_receipt with
      | Some verified =>
          if bool_decide (vr_document verified = doc)
             && (vr_closed_epoch verified =? cr_closed_epoch c)
             && bool_decide (vr_close_record_hash verified = CloseRecord_hash c)
          then Ok tt else Err EpochAuthority
      | None => Err EpochAuthority
      end
  end.
End close.

(** * Lemmas *)

Definition CloseRecord_body (c : CloseRecord) : bytes :=
  be_bytes 1 1 ++ lp (cr_server_id c) ++ be_bytes 2 (doc_tag (cr_doc_type c)) ++
  be_bytes 16 (cr_doc_id c) ++ be_bytes 8 (cr_closed_epoch c) ++
  be_bytes 2 (len (cr_heads c)) ++ concat (lp <$> cr_heads c) ++ lp (cr_author_public_key c).

Lemma put_hashes_eq hs : forall e, put_hashes hs e = e ++ concat (lp <$> hs).
Proof.
  induction hs as [|h hs IH]; intros e; cbn [put_hashes fold_left fmap list_fmap concat].
  - by rewrite app_nil_r.
  - fold (put_hashes hs (put_hash h e)). rewrite IH, put_hash_eq. by rewrite <- app_assoc.
Qed.

Lemma CloseRecord_unsigned_eq c : CloseRecord_unsigned_bytes c = CloseRecord_body c.
Proof.
  unfold CloseRecord_unsigned_bytes, CloseRecord_body, put_u8, put_u16, put_u64, put_u128.
  rewrite put_hashes_eq, !put_bytes_x_lp. by rewrite <- !app_assoc.
Qed.

Record close_ok (c : CloseRecord) : Prop := {
  co_server : 0 < len (cr_server_id c) <= MAX_SERVER_ID_BYTES;
  co_doc_id : cr_doc_id c <= u128_max;
  co_closed : cr_closed_epoch c < u64_max;
  co_heads : Forall (fun h => length h = 32%nat) (cr_heads c);
  co_count : 0 < len (cr_heads c) <= MAX_HEADS;
  co_sorted : strictly_ascending (cr_heads c) = true;
  co_key : length (cr_author_public_key c) = 32%nat;
  co_signature : length (cr_signature c) = 64%nat
}.

Lemma len_hashes hs : Forall (fun h : bytes => length h = 32%nat) hs ->
  len (concat (lp <$> hs)) = 36 * len hs.
Proof.
  intros HF. rewrite len_concat, <- sum_of_const. apply sum_of_ext.
  eapply Forall_impl; [exact HF|]. intros h Hh. cbn. rewrite len_lp, (len_of_length _ _ Hh). done.
Qed.

Lemma len_CloseRecord_encode c : close_ok c ->
  len (CloseRecord_body c) <= 2629 /\ len (CloseRecord_encode c) <= 2701.
Proof.
  intros []. assert (Hb : len (CloseRecord_body c) <= 2629).
  { unfold CloseRecord_body. autorewrite with mewtual_len. rewrite (len_hashes _ co_heads0).
    rewrite (len_of_length _ _ co_key0). unfold MAX_SERVER_ID_BYTES, MAX_HEADS in *. lia. }
  split; [done|]. unfold CloseRecord_encode.
  rewrite envelope_eq, CloseRecord_unsigned_eq. autorewrite with mewtual_len.
  rewrite (len_of_length _ _ co_signature0). lia.
Qed.

Lemma reads_hashes hs :
  Forall (fun h : bytes => length h = 32%nat) hs ->
  reads (get_n (length hs) (get_fixed 32)) (concat (lp <$> hs)) hs.
Proof.
  intros HF. apply reads_n. eapply Forall_impl; [exact HF|]. intros h Hh. by apply reads_fixed.
Qed.

Lemma consumes_hashes n :
  consumes (get_n n (get_fixed 32)) (fun hs bs =>
    bs = concat (lp <$> hs) /\ length hs = n /\ Forall (fun h : bytes => length h = 32%nat) hs).
Proof.
  eapply consumes_weaken; [apply consumes_n, consumes_fixed|].
  intros hs bs (Hl & bss & -> & HF). split_and!; [|done|].
  - clear Hl. induction HF as [|h b hs bss [-> _] _ IH]; [done|]. cbn. by rewrite IH.
  - clear Hl. induction HF as [|h b hs bss [_ Hh] _ IH]; by constructor.
Qed.
#[export] Hint Resolve consumes_hashes : mewtual_dec.

Lemma reads_CloseRecord c :
  close_ok c -> reads (CloseRecord_read (cr_signature c)) (CloseRecord_body c) c.
Proof.
  intros []. unfold CloseRecord_read, CloseRecord_body. destruct c; cbn in *. reads_go.
  - by apply reads_mal, reads_u8.
  - done.
  - apply reads_mal, reads_bytes. unfold MAX_SERVER_ID_BYTES, u32_max in *. lia.
  - apply reads_mal, reads_u16, doc_tag_u16.
  - by rewrite doc_from_tag_tag.
  - by apply reads_mal, reads_u128.
  - apply reads_mal, reads_u64. lia.
  - apply reads_mal, reads_u16. unfold MAX_HEADS, u16_max in *. lia.
  - rewrite orb_false_iff, N.eqb_neq, N.ltb_ge. lia.
  - unfold len. rewrite Nat2N.id. by apply reads_hashes.
  - apply reads_mal, reads_bytes. by apply (len_u32_of_length _ 32).
Qed.

Lemma is_empty_len {A} (l : list A) : is_empty l = false -> 0 < len l.
Proof. destruct l; [done|]. rewrite len_cons. lia. Qed.

Lemma is_empty_pos {A} (l : list A) : 0 < len l -> is_empty l = false.
Proof. by destruct l. Qed.

Lemma consumes_CloseRecord s :
  length s = 64%nat ->
  consumes (CloseRecord_read s) (fun c _ =>
    is_empty (cr_server_id c) = false -> len (cr_server_id c) <= MAX_SERVER_ID_BYTES ->
    length (cr_author_public_key c) = 32%nat -> cr_closed_epoch c <> u64_max ->
    strictly_ascending (cr_heads c) = true -> close_ok c).
Proof.
  intros Hs d c d' H. unfold CloseRecord_read in H. dec_step H. bool_simpl. subst.
  destruct Hr1 as [_ ?], Hr4 as [_ ?], Hr5 as [_ ?], Hr6 as [_ ?], Hr8 as (_ & Hl & HF), Hr9 as [_ _].
  eexists; split; [rewrite R, R0, R1, R2, R3, R4, R5, R6; rewrite !app_assoc; reflexivity|].
  cbn. intros E1 E2 E3 E4 E5. apply is_empty_len in E1.
  constructor; cbn; try done; [lia|]. unfold len. rewrite Hl, N2Nat.id. lia.
Qed.

Lemma CloseRecord_decode_spec bs c :
  CloseRecord_decode bs = Ok c <-> close_ok c /\ CloseRecord_encode c = bs.
Proof.
  unfold CloseRecord_decode. split.
  - intros H. res_inv. bool_simpl. destruct a as [u s]; cbn [fst snd] in *.
    destruct (run_exact_consumes _ _ _ _ Ha consumes_envelope) as (-> & _ & Hs); cbn in *.
    pose proof (run_exact_consumes _ _ _ _ Ha0 (consumes_CloseRecord s Hs)) as Hf; cbn in Hf.
    split; [|done]. apply Hf; try done. unfold len in *. lia.
  - intros [Hf <-]. destruct (len_CloseRecord_encode c Hf) as [Hb Hl].
    rewrite refuse_if_bind_false by (apply N.ltb_ge; unfold MAX_CLOSE_RECORD_BYTES; lia).
    assert (He : run_exact read_envelope (CloseRecord_encode c)
                 = Ok (CloseRecord_unsigned_bytes c, cr_signature c)).
    { apply run_exact_reads, reads_envelope; [|by destruct Hf].
      rewrite CloseRecord_unsigned_eq. unfold u32_max. lia. }
    rewrite He, bind_Ok. cbn [fst snd]. rewrite CloseRecord_unsigned_eq.
    rewrite (run_exact_reads _ _ _ (reads_CloseRecord c Hf)), bind_Ok.
    destruct Hf. rewrite refuse_if_bind_false.
    + rewrite refuse_if_bind_false; [done|]. apply bool_decide_eq_false_2. by intros [].
    + rewrite !orb_false_iff. split_and!.
      * apply is_empty_pos. lia.
      * apply N.ltb_ge. lia.
      * apply negb_false_iff, N.eqb_eq. by apply (len_of_length _ 32).
      * apply N.eqb_neq. lia.
      * by rewrite co_sorted0.
Qed.

Lemma dedup_from_len (x : bytes) l : len (dedup_from x l) <= len l.
Proof.
  revert x. induction l as [|y l IH]; intros x; cbn [dedup_from]; [done|].
  destruct (kcmp x y); rewrite ?len_cons; [specialize (IH x) | specialize (IH y) ..]; lia.
Qed.

Lemma sort_dedup_len (l : list bytes) : len (dedup (sort_unstable l)) <= len l.
Proof.
  assert (Hl : len (sort_unstable l) = len l)
    by (unfold len; by rewrite (Permutation_length (sort_unstable_perm l))).
  destruct (sort_unstable l) as [|x k]; cbn [dedup]; [rewrite <- Hl; done|].
  rewrite len_cons in *. pose proof (dedup_from_len x k). lia.
Qed.

(** * Properties *)

(** Close records work end to end. Signing from any head list, in any
    order and with repetitions, when it succeeds, gives a record carrying
    exactly those heads, which decodes from its wire bytes and which a group
    that lists the author accepts without a historical receipt. *)
Theorem close_record_sign_verify {C : Crypto} doc doc_id closed heads author group c :
  document_ok doc -> doc_id <= u128_max -> closed <= u64_max ->
  Forall (fun h => length h = 32%nat) heads -> honest_device author ->
  group_id group = server_id doc ->
  member_signature_key group (from_public_key_bytes (public_key_bytes author))
    = Some (public_key_bytes author) ->
  CloseRecord_sign doc doc_id closed heads author = Ok c ->
  (forall h, h ∈ cr_heads c <-> h ∈ heads) /\
  CloseRecord_decode (CloseRecord_encode c) = Ok c /\
  CloseRecord_verify_for c doc doc_id group None = Ok tt.
Proof.
  intros Hdoc Hid Hcl HF Hh Hg Hm Hs. unfold CloseRecord_sign in Hs. res_inv. bool_simpl.
  apply sign_with_ok in Ha. pose proof Hh as (Hk & _ & Hok). destruct (Hok _ _ Ha) as [Hla _].
  set (c := mkCloseRecord _ _ _ _ _ _ a).
  assert (Hc : close_ok c).
  { apply document_ok_spec in Hdoc as (_ & Hsv & _). constructor; cbn; try done; [lia | |
      split; [by apply is_empty_len | done] | apply sort_dedup_ascending].
    rewrite Forall_forall in *. intros h Hin. by apply HF, sort_dedup_elem. }
  split_and!.
  - intros h. apply sort_dedup_elem.
  - by apply CloseRecord_decode_spec.
  - unfold CloseRecord_verify_for. cbn [c cr_server_id cr_doc_type cr_doc_id].
    rewrite refuse_if_bind_false; cycle 1.
    { rewrite Hg, N.eqb_refl, !bool_decide_eq_false_2 by (by intros []). done. }
    destruct Hc. rewrite refuse_if_bind_false; cycle 1.
    { rewrite !orb_false_iff. split_and!.
      - apply is_empty_pos. lia.
      - apply N.ltb_ge. lia.
      - by rewrite co_sorted0.
      - apply N.eqb_neq. lia.
      - apply negb_false_iff. by apply (honest_verify author). }
    unfold CloseRecord_author. cbn [c cr_author_public_key].
    rewrite Hm. by rewrite bool_decide_eq_true_2.
Qed.

(** Who may close. [verify_for] accepts a record only if its scope matches
    the document, the expected epoch document and the group; its signature
    verifies over the domain-separated transcript; and its author is a current
    member with that very key, or has left and a verified receipt for the same
    document and epoch names this exact close. A removed author's close with no
    such receipt, and a member id presented with another key, are refused. *)
Theorem close_verify_authority {C : Crypto} c doc doc_id group historical :
  CloseRecord_verify_for c doc doc_id group historical = Ok tt ->
  cr_server_id c = server_id doc /\ cr_doc_type c = doc_type doc /\ cr_doc_id c = doc_id /\
  cr_server_id c = group_id group /\
  verify_with_public_bytes (cr_author_public_key c) (CloseRecord_signature_hash c)
    (cr_signature c) = true /\
  (member_signature_key group (CloseRecord_author c) = Some (cr_author_public_key c) \/
   (member_signature_key group (CloseRecord_author c) = None /\
    exists v, historical = Some v /\ vr_document v = doc /\
      vr_closed_epoch v = cr_closed_epoch c /\ vr_close_record_hash v = CloseRecord_hash c)).
Proof.
  unfold CloseRecord_verify_for. intros H. res_inv. bool_simpl. split_and!; try done.
  destruct (member_signature_key group (CloseRecord_author c)) as [k|].
  - case_bool_decide; [|done]. subst. by left.
  - right. split; [done|]. destruct historical as [v|]; [|done]. exists v.
    match goal with Hx : (if ?b then _ else _) = Ok _ |- _ => destruct b eqn:Hb; [|done] end.
    bool_simpl. by split_and!.
Qed.

(** ** Witnesses *)

Definition toy_close : CloseRecord :=
  match CloseRecord_sign (C:=toy_crypto) toy_document 11 4
          [be_bytes 32 8; be_bytes 32 3; be_bytes 32 8] toy_owner with
  | Ok c => c
  | Err _ => mkCloseRecord [] Channel 0 0 [] [] []
  end.

Lemma close_record_sign_verify_witness :
  CloseRecord_verify_for (C:=toy_crypto) toy_close toy_document 11 toy_group None = Ok tt.
Proof.
  apply (close_record_sign_verify (C:=toy_crypto) toy_document 11 4
    [be_bytes 32 8; be_bytes 32 3; be_bytes 32 8] toy_owner toy_group toy_close);
    [by vm_compute | by vm_compute | by vm_compute | by repeat constructor |
     apply toy_device_honest | done | by vm_compute | by vm_compute].
Defined.

Lemma close_verify_authority_witness :
  cr_doc_id toy_close = 11.
Proof.
  apply (close_verify_authority (C:=toy_crypto) toy_close toy_document 11 toy_group None).
  by vm_compute.
Defined.
