(* ===== verification/Repair.v ===== *)
(** Receipt equivocation and its repair, of
    [crates/catcoms-replication/src/epoch.rs] and [epoch/repair_state.rs]:
    [TenureSelection], [receipts_conflict], [ReceiptRepair] with its codec and
    authority checks, [conflicting_receipt_pair] and [ResolvedRepair]. *)

From S2P Require Import Prelude Wire Context Crypto Codec EpochBase Intent Authority Receipt Close.
From stdpp Require Import base list.
From Stdlib Require Import Init.Byte.
Local Open Scope N_scope.

(** * Tenure selections and conflicts *)

Record TenureSelection := mkTenureSelection {
  ts_tenure_id : bytes;
  ts_tenure_start_group_epoch : N;
  ts_inherited : InheritedCheckpoint;
  ts_owner_public_key : bytes
}.

#[global] Instance TenureSelection_eq_dec : EqDecision TenureSelection.
Proof. solve_decision. Defined.

(** [TenureSelection::from(&receipt)] *)
Definition selection_of (r : Receipt) : TenureSelection :=
  mkTenureSelection (r_tenure_id r) (r_tenure_start_group_epoch r) (r_inherited r)
    (r_owner_public_key r).

(** [[a, b]], sorted. *)
Definition sort_pair (p : bytes * bytes) : bytes * bytes :=
  if kltb p.2 p.1 then (p.2, p.1) else p.

Definition pair_contains (p : bytes * bytes) (h : bytes) : bool :=
  bool_decide (p.1 = h) || bool_decide (p.2 = h).

Section conflicts.
Context {C : Crypto}.

Definition canonical_receipt_pair (a b : Receipt) : Receipt * Receipt :=
  if kltb (Receipt_hash a) (Receipt_hash b) then (a, b) else (b, a).

Definition receipts_conflict (a b : Receipt) : bool :=
  bool_decide (r_document a = r_document b)
  && bool_decide (r_tenure_id a = r_tenure_id b)
  && bool_decide (Receipt_hash a <> Receipt_hash b)
  && ((r_closed_epoch a =? r_closed_epoch b)
      || bool_decide (selection_of a <> selection_of b)).
End conflicts.

(** * Repairs *)

Record ReceiptRepair := mkReceiptRepair {
  rp_document : LogicalDocument;
  rp_tenure_id : bytes;
  rp_issuer_tenure_start_group_epoch : option N;
  rp_receipt_hashes : bytes * bytes;
  rp_selected_receipt_hash : bytes;
  rp_repair_sequence : N;
  rp_owner_public_key : bytes;
  rp_signature : bytes
}.

#[global] Instance ReceiptRepair_eq_dec : EqDecision ReceiptRepair.
Proof. solve_decision. Defined.

Definition next_sequence_after (high_water : N) : result ReplError N :=
  ok_or (checked_add u64_max high_water 1) RepairSequenceExhausted.

Definition is_v2 (r : ReceiptRepair) : bool :=
  match rp_issuer_tenure_start_group_epoch r with Some _ => true | None => false end.

Definition Repair_unsigned_bytes (r : ReceiptRepair) : bytes :=
  let e := [] |> put_u8 (if is_v2 r then 2 else 1)
              |> put_document (rp_document r)
              |> put_hash (rp_tenure_id r) in
  let e := match rp_issuer_tenure_start_group_epoch r with
           | Some start => e |> put_u64 start
           | None => e
           end in
  e |> put_hash (rp_receipt_hashes r).1
    |> put_hash (rp_receipt_hashes r).2
    |> put_hash (rp_selected_receipt_hash r)
    |> put_u64 (rp_repair_sequence r)
    |> put_bytes_x (rp_owner_public_key r).

Definition Repair_encode (r : ReceiptRepair) : bytes :=
  envelope (Repair_unsigned_bytes r) (rp_signature r).

Definition read_issuer (version : N) : dec ReplError (option N) :=
  if version =? 2 then (start ← mal get_u64; mret (Some start)) else mret None.

Definition Repair_read (signature : bytes) : dec ReplError ReceiptRepair :=
  version ← mal get_u8;
  _ ← dec_refuse (negb (version =? 1) && negb (version =? 2)) Malformed;
  document ← get_document;
  tenure ← get_fixed 32;
  issuer ← read_issuer version;
  h0 ← get_fixed 32;
  h1 ← get_fixed 32;
  selected ← get_fixed 32;
  sequence ← mal get_u64;
  key ← mal get_bytes;
  mret (mkReceiptRepair document tenure issuer (h0, h1) selected sequence key signature).

Definition Repair_decode (input : bytes) : result ReplError ReceiptRepair :=
  _ ← refuse_if (MAX_RECEIPT_BYTES <? len input) EpochBound;
  e ← run_exact read_envelope input;
  r ← run_exact (Repair_read e.2) e.1;
  _ ← refuse_if (negb (len (rp_owner_public_key r) =? 32)
                 || negb (kltb (rp_receipt_hashes r).1 (rp_receipt_hashes r).2)
                 || negb (pair_contains (rp_receipt_hashes r) (rp_selected_receipt_hash r)))
        Malformed;
  _ ← refuse_if (bool_decide (Repair_encode r <> input)) Malformed;
  mret r.

Section repairs.
Context {C : Crypto}.

Definition Repair_signature_hash (r : ReceiptRepair) : bytes :=
  hash_parts (if is_v2 r then bytes_of_string "catcoms-repair-sig:v2"
              else bytes_of_string "catcoms-repair-sig:v1") [Repair_unsigned_bytes r].

Definition Repair_hash (r : ReceiptRepair) : bytes :=
  hash_parts (if is_v2 r then bytes_of_string "catcoms-repair:v2"
              else bytes_of_string "catcoms-repair:v1")
    [Repair_unsigned_bytes r; rp_signature r].

Definition Repair_sign (document : LogicalDocument) (tenure : bytes)
    (receipt_hashes : bytes * bytes) (selected : bytes) (sequence : N) (owner : MlsDevice)
    : result ReplError ReceiptRepair :=
  let hs := sort_pair receipt_hashes in
  _ ← refuse_if (bool_decide (hs.1 = hs.2) || negb (pair_contains hs selected)) Malformed;
  let repair s := mkReceiptRepair document tenure None hs selected sequence
                    (public_key_bytes owner) s in
  s ← sign_with owner (Repair_signature_hash (repair (replicate 64 x00)));
  _ ← refuse_if (MAX_RECEIPT_BYTES <? len (Repair_encode (repair s))) EpochBound;
  mret (repair s).

Definition Repair_sign_in_tenure (document : LogicalDocument) (fault_tenure_id : bytes)
    (receipt_hashes : bytes * bytes) (selected : bytes) (sequence issuer_start : N)
    (owner : MlsDevice) : result ReplError ReceiptRepair :=
  _ ← refuse_if (sequence =? 0) ReceiptConflict;
  v1 ← Repair_sign document fault_tenure_id receipt_hashes selected sequence owner;
  let repair s := mkReceiptRepair (rp_document v1) (rp_tenure_id v1) (Some issuer_start)
                    (rp_receipt_hashes v1) (rp_selected_receipt_hash v1) (rp_repair_sequence v1)
                    (rp_owner_public_key v1) s in
  s ← sign_with owner (Repair_signature_hash (repair (rp_signature v1)));
  _ ← refuse_if (MAX_RECEIPT_BYTES <? len (Repair_encode (repair s))) EpochBound;
  mret (repair s).

Definition verify_historical (r : ReceiptRepair) : result ReplError unit :=
  refuse_if
    (is_empty (server_id (rp_document r))
     || (MAX_SERVER_ID_BYTES <? len (server_id (rp_document r)))
     || is_empty (logical_key (rp_document r))
     || (MAX_LOGICAL_KEY_BYTES <? len (logical_key (rp_document r)))
     || negb (len (rp_owner_public_key r) =? 32)
     || (MAX_RECEIPT_BYTES <? len (Repair_encode r))
     || negb (kltb (rp_receipt_hashes r).1 (rp_receipt_hashes r).2)
     || negb (pair_contains (rp_receipt_hashes r) (rp_selected_receipt_hash r))
     || negb (verify_with_public_bytes (rp_owner_public_key r)
                (Repair_signature_hash r) (rp_signature r))) EpochAuthority.

Definition Repair_verify_current_owner {G} `{OwnerAuthority G} (r : ReceiptRepair) (group : G)
    (expected_issuer_tenure_start : N) : result ReplError unit :=
  _ ← refuse_if (bool_decide (server_id (rp_document r) <> group_id group)) EpochScope;
  let owner := from_public_key_bytes (rp_owner_public_key r) in
  _ ← refuse_if
        (bool_decide (rp_issuer_tenure_start_group_epoch r <> Some expected_issuer_tenure_start)
         || (group_epoch group <? expected_issuer_tenure_start)
         || negb (is_current_owner group owner (rp_owner_public_key r))) EpochAuthority;
  verify_historical r.

(** [ReceiptRepair::verify_signature_only] *)
Definition Repair_verify_signature_only (r : ReceiptRepair) : result ReplError unit :=
  _ ← verify_historical r;
  _ ← Repair_decode (Repair_encode r);
  mret tt.

(** One receipt of [conflicting_receipt_pair]'s loop. *)
Definition check_evidence_receipt (document : LogicalDocument) (r : Receipt)
    : result ReplError unit :=
  _ ← refuse_if ((MAX_SERVER_ID_BYTES <? len (server_id (r_document r)))
                 || (MAX_LOGICAL_KEY_BYTES <? len (logical_key (r_document r)))
                 || negb (len (r_owner_public_key r) =? 32)) EpochBound;
  r' ← Receipt_decode (Receipt_encode r);
  _ ← refuse_if (bool_decide (r' <> r)) Malformed;
  _ ← Receipt_verify_signature_only r;
  refuse_if (bool_decide (r_document r <> document)) EpochScope.

Definition conflicting_receipt_pair (document : LogicalDocument) (a b : Receipt)
    : result ReplError unit :=
  _ ← check_evidence_receipt document a;
  _ ← check_evidence_receipt document b;
  refuse_if (negb (receipts_conflict a b)) ReceiptConflict.

Definition check_evidence (r : ReceiptRepair) (a b : Receipt) : result ReplError unit :=
  _ ← conflicting_receipt_pair (rp_document r) a b;
  let hashes := sort_pair (Receipt_hash a, Receipt_hash b) in
  refuse_if (bool_decide (rp_tenure_id r <> r_tenure_id a)
             || bool_decide (rp_receipt_hashes r <> hashes)
             || negb (pair_contains (rp_receipt_hashes r) (rp_selected_receipt_hash r))
             || negb (is_v2 r)
             || (rp_repair_sequence r =? 0)) ReceiptConflict.
End repairs.

(** * Resolved repairs *)

Record ResolvedRepair := mkResolvedRepair {
  rs_repair : ReceiptRepair;
  rs_selected : Receipt;
  rs_losing : Receipt
}.

#[global] Instance ResolvedRepair_eq_dec : EqDecision ResolvedRepair.
Proof. solve_decision. Defined.

Definition Resolved_encode_into (s : ResolvedRepair) (e : bytes) : bytes :=
  e |> put_bytes_x (Repair_encode (rs_repair s))
    |> put_bytes_x (Receipt_encode (rs_selected s))
    |> put_bytes_x (Receipt_encode (rs_losing s)).

Section resolved.
Context {C : Crypto}.

Definition covers (s : ResolvedRepair) (receipt : Receipt) : bool :=
  bool_decide (r_document receipt = rp_document (rs_repair s))
  && bool_decide (r_tenure_id receipt = rp_tenure_id (rs_repair s))
  && (bool_decide (Receipt_hash receipt = Receipt_hash (rs_losing s))
      || (bool_decide (selection_of (rs_selected s) <> selection_of (rs_losing s))
          && bool_decide (selection_of receipt = selection_of (rs_losing s)))).

(** A receipt read from a length-prefixed field. *)
Definition read_receipt : dec ReplError Receipt :=
  b ← mal get_bytes;
  dec_lift (Receipt_decode b).

Definition Resolved_decode_from : dec ReplError ResolvedRepair :=
  b ← mal get_bytes;
  repair ← dec_lift (Repair_decode b);
  selected ← read_receipt;
  losing ← read_receipt;
  mret (mkResolvedRepair repair selected losing).

Definition Resolved_verify (s : ResolvedRepair) (document : option LogicalDocument)
    (sequence : N) : result ReplError unit :=
  _ ← verify_historical (rs_repair s);
  _ ← check_evidence (rs_repair s) (rs_selected s) (rs_losing s);
  refuse_if (bool_decide (document <> Some (rp_document (rs_repair s)))
             || bool_decide (rp_selected_receipt_hash (rs_repair s)
                             <> Receipt_hash (rs_selected s))
             || negb (sequence =? rp_repair_sequence (rs_repair s))
             || (sequence =? 0)) ReceiptConflict.
End resolved.

(** * Lemmas *)

Definition Repair_body (r : ReceiptRepair) : bytes :=
  be_bytes 1 (if is_v2 r then 2 else 1) ++ document_bytes (rp_document r) ++
  lp (rp_tenure_id r) ++
  match rp_issuer_tenure_start_group_epoch r with Some s => be_bytes 8 s | None => [] end ++
  lp (rp_receipt_hashes r).1 ++ lp (rp_receipt_hashes r).2 ++
  lp (rp_selected_receipt_hash r) ++ be_bytes 8 (rp_repair_sequence r) ++
  lp (rp_owner_public_key r).

Lemma Repair_unsigned_eq r : Repair_unsigned_bytes r = Repair_body r.
Proof.
  unfold Repair_unsigned_bytes, Repair_body, is_v2, put_u8, put_u64. cbv zeta.
  rewrite !put_hash_eq, ?put_bytes_x_lp.
  destruct (rp_issuer_tenure_start_group_epoch r); rewrite !put_document_eq; by rewrite <- !app_assoc.
Qed.

Record repair_ok (r : ReceiptRepair) : Prop := {
  ro_document : document_ok (rp_document r);
  ro_tenure : length (rp_tenure_id r) = 32%nat;
  ro_issuer : opt_ok (fun s => s <= u64_max) (rp_issuer_tenure_start_group_epoch r);
  ro_hash0 : length (rp_receipt_hashes r).1 = 32%nat;
  ro_hash1 : length (rp_receipt_hashes r).2 = 32%nat;
  ro_selected : length (rp_selected_receipt_hash r) = 32%nat;
  ro_sequence : rp_repair_sequence r <= u64_max;
  ro_key : length (rp_owner_public_key r) = 32%nat;
  ro_signature : length (rp_signature r) = 64%nat;
  ro_order : kltb (rp_receipt_hashes r).1 (rp_receipt_hashes r).2 = true;
  ro_choice : pair_contains (rp_receipt_hashes r) (rp_selected_receipt_hash r) = true
}.

Lemma len_Repair_body r : repair_ok r -> len (Repair_body r) <= 655.
Proof.
  intros []. unfold Repair_body. autorewrite with mewtual_len.
  pose proof (document_len _ ro_document0).
  rewrite (len_of_length _ _ ro_tenure0), (len_of_length _ _ ro_hash2), (len_of_length _ _ ro_hash3),
    (len_of_length _ _ ro_selected0), (len_of_length _ _ ro_key0).
  destruct (rp_issuer_tenure_start_group_epoch r); autorewrite with mewtual_len; lia.
Qed.

Lemma len_Repair_encode r : repair_ok r -> len (Repair_encode r) <= 727.
Proof.
  intros H. unfold Repair_encode. rewrite envelope_eq, Repair_unsigned_eq.
  autorewrite with mewtual_len. pose proof (len_Repair_body r H). destruct H.
  rewrite (len_of_length _ _ ro_signature0). lia.
Qed.

Lemma reads_issuer o :
  opt_ok (fun s => s <= u64_max) o ->
  reads (read_issuer (if match o with Some _ => true | None => false end then 2 else 1))
    match o with Some s => be_bytes 8 s | None => [] end o.
Proof.
  destruct o as [s|]; intros H; unfold read_issuer; cbn [N.eqb Pos.eqb].
  - eapply reads_bind_last; [by apply reads_mal, reads_u64 | apply reads_ret].
  - apply reads_ret.
Qed.

Lemma consumes_issuer version :
  consumes (read_issuer version) (fun o bs => opt_ok (fun s => s <= u64_max) o).
Proof.
  intros d o d' H. unfold read_issuer in H. destruct (version =? 2).
  - dec_step H. destruct Hr as [-> Hs]. by eexists.
  - apply dec_ret_ok in H as [<- <-]. by exists [].
Qed.
#[export] Hint Resolve consumes_issuer : mewtual_dec.

Lemma reads_Repair r :
  repair_ok r -> reads (Repair_read (rp_signature r)) (Repair_body r) r.
Proof.
  intros []. unfold Repair_read, Repair_body.
  destruct r as [doc ten iss [h0 h1] sel seq key sig]; cbn in *.
  assert (Hver : (if is_v2 (mkReceiptRepair doc ten iss (h0, h1) sel seq key sig)
                  then 2 else 1) <= u8_max) by (by destruct iss).
  reads_go.
  - by apply reads_mal, reads_u8.
  - unfold is_v2; cbn. by destruct iss.
  - by apply reads_document.
  - by apply reads_fixed.
  - by apply reads_issuer.
  - by apply reads_fixed.
  - by apply reads_fixed.
  - by apply reads_fixed.
  - by apply reads_mal, reads_u64.
  - apply reads_mal, reads_bytes. by apply (len_u32_of_length _ 32).
Qed.

Lemma consumes_Repair s :
  length s = 64%nat ->
  consumes (Repair_read s) (fun r _ =>
    length (rp_owner_public_key r) = 32%nat ->
    kltb (rp_receipt_hashes r).1 (rp_receipt_hashes r).2 = true ->
    pair_contains (rp_receipt_hashes r) (rp_selected_receipt_hash r) = true -> repair_ok r).
Proof.
  intros Hs d r d' H. unfold Repair_read in H. dec_step H.
  destruct Hr as [-> _], Hr1 as [-> ?], Hr2 as [-> ?], Hr4 as [-> ?],
    Hr5 as [-> ?], Hr6 as [-> ?], Hr7 as [-> ?], Hr8 as [-> _].
  eexists; split; [rewrite R, R0, R1, R2, R3, R4, R5, R6, R7; rewrite !app_assoc; reflexivity|].
  cbn. intros E1 E2 E3. by constructor.
Qed.

Lemma Repair_decode_spec bs r :
  Repair_decode bs = Ok r <-> repair_ok r /\ Repair_encode r = bs.
Proof.
  unfold Repair_decode. split.
  - intros H. res_inv. bool_simpl. destruct a as [u s]; cbn [fst snd] in *.
    destruct (run_exact_consumes _ _ _ _ Ha consumes_envelope) as (-> & _ & Hs); cbn in *.
    pose proof (run_exact_consumes _ _ _ _ Ha0 (consumes_Repair s Hs)) as Hf; cbn in Hf.
    split; [|done]. apply Hf; try done. unfold len in *. lia.
  - intros [Hf <-]. pose proof (len_Repair_body r Hf) as Hb. pose proof (len_Repair_encode r Hf) as Hl.
    rewrite refuse_if_bind_false by (apply N.ltb_ge; unfold MAX_RECEIPT_BYTES; lia).
    assert (He : run_exact read_envelope (Repair_encode r)
                 = Ok (Repair_unsigned_bytes r, rp_signature r)).
    { apply run_exact_reads, reads_envelope; [|by destruct Hf].
      rewrite Repair_unsigned_eq. unfold u32_max. lia. }
    rewrite He, bind_Ok. cbn [fst snd]. rewrite Repair_unsigned_eq.
    rewrite (run_exact_reads _ _ _ (reads_Repair r Hf)), bind_Ok.
    destruct Hf. rewrite refuse_if_bind_false.
    + rewrite refuse_if_bind_false; [done|]. apply bool_decide_eq_false_2. by intros [].
    + rewrite !orb_false_iff. split_and!; [|by rewrite ro_order0 | by rewrite ro_choice0].
      apply negb_false_iff, N.eqb_eq. by apply (len_of_length _ 32).
Qed.

Section conflict_lemmas.
Context {C : Crypto}.

Lemma receipts_conflict_true a b :
  receipts_conflict a b = true <->
  r_document a = r_document b /\ r_tenure_id a = r_tenure_id b /\
  Receipt_hash a <> Receipt_hash b /\
  (r_closed_epoch a = r_closed_epoch b \/ selection_of a <> selection_of b).
Proof.
  unfold receipts_conflict. rewrite !andb_true_iff, orb_true_iff, !bool_decide_eq_true, N.eqb_eq.
  tauto.
Qed.

Lemma receipts_conflict_sym a b : receipts_conflict a b = receipts_conflict b a.
Proof.
  apply eq_bool_prop_intro. rewrite !Is_true_true, !receipts_conflict_true. naive_solver.
Qed.

Lemma canonical_pair_sym a b :
  Receipt_hash a <> Receipt_hash b -> canonical_receipt_pair a b = canonical_receipt_pair b a.
Proof.
  intros Hne. unfold canonical_receipt_pair.
  destruct (klt_total (Receipt_hash a) (Receipt_hash b)) as [[H|H]|H]; [|done|];
    rewrite (proj2 (kltb_klt _ _) H).
  - destruct (kltb (Receipt_hash b) (Receipt_hash a)) eqn:E; [|done].
    apply kltb_klt in E. by destruct (klt_asym _ _ H E).
  - destruct (kltb (Receipt_hash a) (Receipt_hash b)) eqn:E; [|done].
    apply kltb_klt in E. by destruct (klt_asym _ _ H E).
Qed.

(** The pair is one of the two orders, and strictly ascending when the hashes differ. *)
Lemma canonical_pair_cases a b :
  Receipt_hash a <> Receipt_hash b ->
  (canonical_receipt_pair a b = (a, b) /\ klt (Receipt_hash a) (Receipt_hash b)) \/
  (canonical_receipt_pair a b = (b, a) /\ klt (Receipt_hash b) (Receipt_hash a)).
Proof.
  intros Hne. unfold canonical_receipt_pair.
  destruct (kltb (Receipt_hash a) (Receipt_hash b)) eqn:E.
  - left. split; [done|]. by apply kltb_klt.
  - right. split; [done|].
    destruct (klt_total (Receipt_hash a) (Receipt_hash b)) as [[H|H]|H]; [|done|done].
    apply kltb_klt in H. congruence.
Qed.

Lemma sort_pair_hashes a b :
  sort_pair (Receipt_hash a, Receipt_hash b) = sort_pair (Receipt_hash b, Receipt_hash a).
Proof.
  unfold sort_pair; cbn. destruct (klt_total (Receipt_hash a) (Receipt_hash b)) as [[H|H]|H].
  - rewrite (proj2 (kltb_klt _ _) H). destruct (kltb (Receipt_hash b) (Receipt_hash a)) eqn:E; [|done].
    apply kltb_klt in E. by destruct (klt_asym _ _ H E).
  - by rewrite H.
  - rewrite (proj2 (kltb_klt _ _) H). destruct (kltb (Receipt_hash a) (Receipt_hash b)) eqn:E; [|done].
    apply kltb_klt in E. by destruct (klt_asym _ _ H E).
Qed.

Lemma sort_pair_ascending p : klt p.1 p.2 -> sort_pair p = p.
Proof.
  intros H. unfold sort_pair. destruct (kltb p.2 p.1) eqn:E; [|done].
  apply kltb_klt in E. by destruct (klt_asym _ _ H E).
Qed.

Lemma sort_pair_sorted p : p.1 <> p.2 -> klt (sort_pair p).1 (sort_pair p).2.
Proof.
  intros Hne. unfold sort_pair. destruct (kltb p.2 p.1) eqn:E; cbn.
  - by apply kltb_klt.
  - destruct (klt_total p.1 p.2) as [[H|H]|H]; [done|done|]. apply kltb_klt in H. congruence.
Qed.

Lemma verify_historical_ok r :
  verify_historical r = Ok tt <->
  0 < len (server_id (rp_document r)) <= MAX_SERVER_ID_BYTES /\
  0 < len (logical_key (rp_document r)) <= MAX_LOGICAL_KEY_BYTES /\
  len (rp_owner_public_key r) = 32 /\ len (Repair_encode r) <= MAX_RECEIPT_BYTES /\
  kltb (rp_receipt_hashes r).1 (rp_receipt_hashes r).2 = true /\
  pair_contains (rp_receipt_hashes r) (rp_selected_receipt_hash r) = true /\
  verify_with_public_bytes (rp_owner_public_key r) (Repair_signature_hash r) (rp_signature r) = true.
Proof.
  assert (He : forall l : bytes, is_empty l = false <-> 0 < len l).
  { intros [|x l]; [split; [done|unfold len; cbn; lia]|]. rewrite len_cons. split; [lia|done]. }
  unfold verify_historical. split.
  - intros H. res_inv. bool_simpl. rewrite He in *. by split_and!.
  - intros ([H1 H1'] & [H2 H2'] & H3 & H4 & H5 & H6 & H7).
    apply He in H1, H2.
    apply N.eqb_eq in H3. apply N.ltb_ge in H1', H2', H4.
    by rewrite H1, H1', H2, H2', H3, H4, H5, H6, H7.
Qed.

Lemma Repair_verify_current_owner_ok {G} `{OwnerAuthority G} r (g : G) t :
  Repair_verify_current_owner r g t = Ok tt <->
  server_id (rp_document r) = group_id g /\
  rp_issuer_tenure_start_group_epoch r = Some t /\ t <= group_epoch g /\
  is_current_owner g (from_public_key_bytes (rp_owner_public_key r)) (rp_owner_public_key r) = true /\
  verify_historical r = Ok tt.
Proof.
  unfold Repair_verify_current_owner. split.
  - intros H'. res_inv. bool_simpl. by split_and!.
  - intros (H1 & H2 & H3 & H4 & H5).
    rewrite refuse_if_bind_false by (apply bool_decide_eq_false_2; by intros []).
    rewrite refuse_if_bind_false; [done|]. rewrite H4, !orb_false_iff. split_and!; [| |done].
    + apply bool_decide_eq_false_2. by intros [].
    + by apply N.ltb_ge.
Qed.

Lemma check_evidence_receipt_ok document r :
  check_evidence_receipt document r = Ok tt <->
  receipt_canonical r /\ Receipt_verify_signature_only r = Ok tt /\ r_document r = document.
Proof.
  unfold check_evidence_receipt. split.
  - intros H. res_inv. bool_simpl. subst. destruct a0.
    apply Receipt_decode_spec in Ha as [Hc _]. by split_and!.
  - intros (Hc & Hv & <-). pose proof Hv as Hv'.
    apply Receipt_verify_signature_only_ok in Hv' as (H1 & H2 & H3 & _).
    rewrite refuse_if_bind_false; cycle 1.
    { rewrite !orb_false_iff. split_and!; [by apply N.ltb_ge .. |].
      apply negb_false_iff. by apply N.eqb_eq. }
    rewrite (proj2 (Receipt_decode_spec _ r)) by done. rewrite bind_Ok.
    rewrite refuse_if_bind_false by (apply bool_decide_eq_false_2; by intros []).
    rewrite Hv, bind_Ok. by rewrite bool_decide_eq_false_2 by (by intros []).
Qed.

Lemma conflicting_receipt_pair_ok document a b :
  conflicting_receipt_pair document a b = Ok tt <->
  receipt_canonical a /\ receipt_canonical b /\
  Receipt_verify_signature_only a = Ok tt /\ Receipt_verify_signature_only b = Ok tt /\
  r_document a = document /\ r_document b = document /\ receipts_conflict a b = true.
Proof.
  unfold conflicting_receipt_pair. split.
  - intros H. res_inv. bool_simpl. destruct a0, a1.
    apply check_evidence_receipt_ok in Ha as (? & ? & ?), Ha0 as (? & ? & ?). by split_and!.
  - intros (? & ? & ? & ? & ? & ? & Hc).
    rewrite (proj2 (check_evidence_receipt_ok document a)), bind_Ok by done.
    rewrite (proj2 (check_evidence_receipt_ok document b)), bind_Ok by done.
    by rewrite Hc.
Qed.

Lemma check_evidence_ok r a b :
  check_evidence r a b = Ok tt <->
  conflicting_receipt_pair (rp_document r) a b = Ok tt /\
  rp_tenure_id r = r_tenure_id a /\
  rp_receipt_hashes r = sort_pair (Receipt_hash a, Receipt_hash b) /\
  pair_contains (rp_receipt_hashes r) (rp_selected_receipt_hash r) = true /\
  is_v2 r = true /\ rp_repair_sequence r <> 0.
Proof.
  unfold check_evidence. split.
  - intros H. res_inv. bool_simpl. destruct a0. by split_and!.
  - intros (H1 & H2 & H3 & H4 & H5 & H6). rewrite H1, bind_Ok. cbv zeta.
    rewrite H4, H5. rewrite !bool_decide_eq_false_2 by (by intros []).
    by rewrite (proj2 (N.eqb_neq _ _) H6).
Qed.

Lemma Repair_sign_ok document tenure hashes selected sequence owner r :
  Repair_sign document tenure hashes selected sequence owner = Ok r ->
  klt (sort_pair hashes).1 (sort_pair hashes).2 /\
  pair_contains (sort_pair hashes) selected = true /\
  exists s, device_sign owner (Repair_signature_hash r) = Some s /\
    r = mkReceiptRepair document tenure None (sort_pair hashes) selected sequence
          (public_key_bytes owner) s.
Proof.
  unfold Repair_sign. intros H. res_inv. bool_simpl.
  match goal with Hs : sign_with _ _ = Ok _ |- _ => apply sign_with_ok in Hs end.
  split_and!; [|done | by eexists].
  match goal with Hne : (sort_pair hashes).1 <> _ |- _ => revert Hne end.
  intros Hne. apply sort_pair_sorted. intros E. apply Hne. unfold sort_pair.
  by destruct (kltb hashes.2 hashes.1).
Qed.

Lemma Repair_sign_in_tenure_ok document tenure hashes selected sequence start owner r :
  Repair_sign_in_tenure document tenure hashes selected sequence start owner = Ok r ->
  sequence <> 0 /\ klt (sort_pair hashes).1 (sort_pair hashes).2 /\
  pair_contains (sort_pair hashes) selected = true /\
  exists s, device_sign owner (Repair_signature_hash r) = Some s /\
    r = mkReceiptRepair document tenure (Some start) (sort_pair hashes) selected sequence
          (public_key_bytes owner) s.
Proof.
  unfold Repair_sign_in_tenure. intros H. res_inv. bool_simpl.
  match goal with Hs : Repair_sign _ _ _ _ _ _ = Ok _ |- _ =>
    apply Repair_sign_ok in Hs as (? & ? & s1 & _ & ->) end.
  match goal with Hs : sign_with _ _ = Ok _ |- _ => apply sign_with_ok in Hs end.
  split_and!; [done..|]. by eexists.
Qed.
End conflict_lemmas.

(** * Properties *)

(** Every signed epoch record has one canonical wire form. For domain
    operations, receipts, head proofs, close records and repairs alike, a byte
    string decodes to a value exactly when the value is well-formed and encodes
    to those very bytes: receipts with a recomputed tenure id, a closable epoch
    and an inherited checkpoint no later than it; one to 64 strictly ascending
    heads in a close; an ascending pair containing the selected hash in a
    repair, with the issuer tenure present exactly in version 2. *)
Theorem epoch_codecs_exact {C : Crypto} (input : bytes) :
  (forall op, DomainOp_decode input = Ok op <->
     length (op_nonce op) = 16%nat /\ DomainOp_encode op = Ok input) /\
  (forall r, Receipt_decode input = Ok r <-> receipt_canonical r /\ Receipt_encode r = input) /\
  (forall p, HeadProof_decode input = Ok p <-> head_proof_ok p /\ HeadProof_encode p = input) /\
  (forall c, CloseRecord_decode input = Ok c <-> close_ok c /\ CloseRecord_encode c = input) /\
  (forall r, Repair_decode input = Ok r <-> repair_ok r /\ Repair_encode r = input).
Proof.
  split_and!; intros x.
  - apply DomainOp_decode_spec.
  - apply Receipt_decode_spec.
  - apply HeadProof_decode_spec.
  - apply CloseRecord_decode_spec.
  - apply Repair_decode_spec.
Qed.

(** A captured authority view gives the live group's verdict: verifying a
    receipt, or a repair, against the view captured from a group returns the
    same value or the same error as verifying it against the group. *)
Theorem captured_authority_same_verdict {C : Crypto} (group : ServerGroup) :
  (forall r t, Receipt_verify_current_owner r (capture group) t =
               Receipt_verify_current_owner r group t) /\
  (forall r t, Repair_verify_current_owner r (capture group) t =
               Repair_verify_current_owner r group t).
Proof.
  split; intros r t.
  - unfold Receipt_verify_current_owner. by rewrite capture_is_current_owner.
  - unfold Repair_verify_current_owner. by rewrite capture_is_current_owner.
Qed.

(** Equivocation evidence is objective. [conflicting_receipt_pair] accepts
    a pair exactly when both receipts are canonical and self-signed, name the
    document, share the tenure, differ, and either close the same epoch or
    claim different inherited checkpoints; the order the two are presented in
    changes neither the verdict nor the canonical pair recorded. *)
Theorem conflict_evidence_exact {C : Crypto} document a b :
  (conflicting_receipt_pair document a b = Ok tt <->
   receipt_canonical a /\ receipt_canonical b /\
   Receipt_verify_signature_only a = Ok tt /\ Receipt_verify_signature_only b = Ok tt /\
   r_document a = document /\ r_document b = document /\
   r_tenure_id a = r_tenure_id b /\ Receipt_hash a <> Receipt_hash b /\
   (r_closed_epoch a = r_closed_epoch b \/ selection_of a <> selection_of b)) /\
  (conflicting_receipt_pair document a b = Ok tt <-> conflicting_receipt_pair document b a = Ok tt) /\
  (conflicting_receipt_pair document a b = Ok tt ->
   canonical_receipt_pair a b = canonical_receipt_pair b a).
Proof.
  rewrite !conflicting_receipt_pair_ok, !receipts_conflict_true. split_and!.
  - naive_solver.
  - naive_solver.
  - intros (_ & _ & _ & _ & _ & _ & _ & _ & Hne & _). by apply canonical_pair_sym.
Qed.

(** Repairs work end to end and are bound to the issuing tenure. A repair
    an honest current owner signs in its tenure for two distinct receipt hashes
    survives the wire, verifies against that tenure's start, and is refused for
    every other tenure start; a version-1 repair never verifies as live
    authority. *)
Theorem repair_sign_verify {C : Crypto} `{!CryptoLaws C}
    document tenure hashes selected sequence start owner group r :
  document_ok document -> length tenure = 32%nat -> length hashes.1 = 32%nat ->
  length hashes.2 = 32%nat -> sequence <= u64_max -> start <= u64_max ->
  honest_device owner -> owns group document owner -> start <= group_epoch group ->
  Repair_sign_in_tenure document tenure hashes selected sequence start owner = Ok r ->
  Repair_decode (Repair_encode r) = Ok r /\
  Repair_verify_current_owner r group start = Ok tt /\
  (forall t, t <> start -> Repair_verify_current_owner r group t = Err EpochAuthority) /\
  (forall t v1, Repair_sign document tenure hashes selected sequence owner = Ok v1 ->
     Repair_verify_current_owner v1 group t = Err EpochAuthority).
Proof.
  intros Hd Ht Hh0 Hh1 Hseq Hst Hh [Hg Ho] Hle H. pose proof Hh as (Hk & _ & Hok).
  apply Repair_sign_in_tenure_ok in H as (Hnz & Hsorted & Hsel & s & Hs & Hr).
  destruct (Hok _ _ Hs) as [Hls _].
  assert (Hlens : length (sort_pair hashes).1 = 32%nat /\ length (sort_pair hashes).2 = 32%nat)
    by (unfold sort_pair; by destruct (kltb _ _)).
  assert (Hsel32 : length selected = 32%nat).
  { unfold pair_contains in Hsel. bool_simpl. destruct Hsel as [E|E]; bool_simpl; naive_solver. }
  assert (Hrok : repair_ok r).
  { destruct Hlens. rewrite Hr. constructor; cbn; try done. by apply kltb_klt. }
  assert (Hver : forall t, t = start -> Repair_verify_current_owner r group t = Ok tt).
  { intros t ->. apply Repair_verify_current_owner_ok.
    pose proof (len_Repair_encode r Hrok). destruct Hrok.
    apply document_ok_spec in ro_document0 as (_ & ? & ?).
    assert (Hvh : verify_historical r = Ok tt).
    { apply verify_historical_ok. split_and!; try done; try lia.
      - by apply (len_of_length _ 32).
      - unfold MAX_RECEIPT_BYTES. lia.
      - rewrite Hr at 1 3. by apply (honest_verify owner). }
    rewrite Hr at 1 2 3 4. by split_and!. }
  split_and!; [by apply Repair_decode_spec | by apply Hver | |].
  - intros t Hne. rewrite Hr. unfold Repair_verify_current_owner; cbn.
    rewrite refuse_if_bind_false by (cbn in Hg; rewrite Hg; apply bool_decide_eq_false_2; by intros []).
    rewrite bool_decide_eq_true_2 by congruence. done.
  - intros t v1 Hv1. apply Repair_sign_ok in Hv1 as (_ & _ & s1 & _ & ->).
    unfold Repair_verify_current_owner; cbn.
    rewrite refuse_if_bind_false by (cbn in Hg; rewrite Hg; apply bool_decide_eq_false_2; by intros []).
    by rewrite bool_decide_eq_true_2.
Qed.

(** ** Witnesses *)

Definition toy_hashes : bytes * bytes :=
  (Receipt_hash (C:=toy_crypto) (toy_receipt_at 4 2), Receipt_hash (C:=toy_crypto) (toy_receipt_at 4 8)).

Definition toy_repair : ReceiptRepair :=
  match Repair_sign_in_tenure (C:=toy_crypto) toy_document (r_tenure_id (toy_receipt_at 4 2))
          toy_hashes toy_hashes.1 1 3 toy_owner with
  | Ok r => r
  | Err _ => mkReceiptRepair toy_document [] None ([], []) [] 0 [] []
  end.

Lemma repair_sign_verify_witness :
  Repair_verify_current_owner (C:=toy_crypto) toy_repair toy_group 3 = Ok tt /\
  Repair_verify_current_owner (C:=toy_crypto) toy_repair toy_group 2 = Err EpochAuthority.
Proof.
  destruct (repair_sign_verify (C:=toy_crypto) toy_document (r_tenure_id (toy_receipt_at 4 2))
    toy_hashes toy_hashes.1 1 3 toy_owner toy_group toy_repair) as (_ & Hv & Hne & _);
    [by vm_compute | by vm_compute | by vm_compute | by vm_compute | by vm_compute |
     by vm_compute | apply toy_device_honest | apply toy_owns | by vm_compute | by vm_compute |].
  split; [exact Hv|]. by apply Hne.
Defined.
