(* ===== verification/Gate.v ===== *)
(** The epoch lifecycle gate of [crates/catcoms-replication/src/epoch.rs]:
    [EpochGate] with its admission, sealing, settlement and persistence, and the
    commit of a planned repair ([commit_repair] of [epoch/repair_transition.rs]).

    The gate's one mutex makes each method atomic, so the protected state is
    passed explicitly and every method is one step. *)

From S2P Require Import Prelude OrdMap Wire Context Crypto Codec EpochBase Authority Receipt Close.
From stdpp Require Import base list relations sorting.
From Stdlib Require Import Init.Byte.
Local Open Scope N_scope.

(** * Data *)

Record AdmittedOperation := mkAdmittedOperation {
  op_hash : bytes;
  domain_op_id : bytes;
  ao_author : bytes;
  encoded_len : N
}.

#[global] Instance AdmittedOperation_eq_dec : EqDecision AdmittedOperation.
Proof. solve_decision. Defined.

Inductive Admission : Type :=
| Accepted
| Duplicate
| Quarantined
| RejectedQuarantineFull.

#[global] Instance Admission_eq_dec : EqDecision Admission.
Proof. solve_decision. Defined.

Inductive EpochPhase : Type := Open | Closing | Settled | Fault.

#[global] Instance EpochPhase_eq_dec : EqDecision EpochPhase.
Proof. solve_decision. Defined.

Inductive ReceiptIngest : Type :=
| IngestAdvanced
| IngestDuplicate
| IngestStale
| IngestFault.

#[global] Instance ReceiptIngest_eq_dec : EqDecision ReceiptIngest.
Proof. solve_decision. Defined.

Record EpochGateInner := mkEpochGateInner {
  gi_owner : bytes;
  gi_phase : EpochPhase;
  gi_receipt_hash : option bytes;
  gi_operations : bmap bytes AdmittedOperation;
  gi_operation_ids : bmap bytes bytes;
  gi_total_bytes : N;
  gi_by_device : bmap bytes (N * N);
  gi_quarantine : list bytes
}.

Record EpochGate := mkEpochGate {
  g_document : LogicalDocument;
  g_doc_id : N;
  g_epoch : N;
  g_inner : EpochGateInner
}.

(** Updates of single fields, as the source assigns them. *)
Definition set_phase (p : EpochPhase) (h : option bytes) (i : EpochGateInner) : EpochGateInner :=
  mkEpochGateInner (gi_owner i) p h (gi_operations i) (gi_operation_ids i) (gi_total_bytes i)
    (gi_by_device i) (gi_quarantine i).

Definition set_owner (owner : bytes) (i : EpochGateInner) : EpochGateInner :=
  mkEpochGateInner owner (gi_phase i) (gi_receipt_hash i) (gi_operations i) (gi_operation_ids i)
    (gi_total_bytes i) (gi_by_device i) (gi_quarantine i).

Definition set_quarantine (q : list bytes) (i : EpochGateInner) : EpochGateInner :=
  mkEpochGateInner (gi_owner i) (gi_phase i) (gi_receipt_hash i) (gi_operations i)
    (gi_operation_ids i) (gi_total_bytes i) (gi_by_device i) q.

Definition with_inner (g : EpochGate) (i : EpochGateInner) : EpochGate :=
  mkEpochGate (g_document g) (g_doc_id g) (g_epoch g) i.

(** * Operations *)

Definition EpochGate_new (document : LogicalDocument) (doc_id epoch : N) (owner : bytes)
    : EpochGate :=
  mkEpochGate document doc_id epoch (mkEpochGateInner owner Open None [] [] 0 [] []).

Definition verify_scope (g : EpochGate) (document : LogicalDocument) (doc_id : N)
    : result ReplError unit :=
  refuse_if (bool_decide (g_document g <> document) || negb (g_doc_id g =? doc_id)) EpochScope.

Definition close_lower_bound_reached (count size : N) (by_device : bmap bytes (N * N))
    (owner : bytes) : bool :=
  (10000 <=? count) || (2 * 1024 * 1024 <=? size)
  || existsb (fun e => bool_decide (e.1 <> owner)
                       && ((MAX_DEVICE_OPERATIONS <=? e.2.1) || (MAX_DEVICE_BYTES <=? e.2.2)))
       by_device.

Definition close_candidate_ready (g : EpochGate) : bool :=
  let i := g_inner g in
  bool_decide (gi_phase i = Open)
  && close_lower_bound_reached (len (gi_operations i)) (gi_total_bytes i) (gi_by_device i)
       (gi_owner i).

Definition update_owner (g : EpochGate) (owner : bytes) : EpochGate :=
  with_inner g (set_owner owner (g_inner g)).

(** [let entry = by_device.entry(author).or_default(); entry.0 += 1; entry.1 += len] *)
Definition charge_device (author : bytes) (size : N) (m : bmap bytes (N * N))
    : bmap bytes (N * N) :=
  let entry := default (0, 0) (om_get author m) in
  om_insert author (entry.1 + 1, entry.2 + size) m.

(** The bookkeeping of an accepted operation. *)
Definition charge_op (op : AdmittedOperation) (i : EpochGateInner) : EpochGateInner :=
  mkEpochGateInner (gi_owner i) (gi_phase i) (gi_receipt_hash i)
    (om_insert (op_hash op) op (gi_operations i))
    (om_insert (domain_op_id op) (op_hash op) (gi_operation_ids i))
    (gi_total_bytes i + encoded_len op)
    (charge_device (ao_author op) (encoded_len op) (gi_by_device i))
    (gi_quarantine i).

(** The duplicate tests both admission paths begin with: [None] when the
    operation is new. *)
Definition admit_known (i : EpochGateInner) (op : AdmittedOperation)
    : option (result ReplError Admission) :=
  if om_has (op_hash op) (gi_operations i) then Some (Ok Duplicate)
  else match om_get (domain_op_id op) (gi_operation_ids i) with
       | Some existing =>
           Some (if bool_decide (existing = op_hash op) then Ok Duplicate else Err IntentConflict)
       | None => None
       end.

Definition admit_open (owner : bytes) (op : AdmittedOperation) (i : EpochGateInner)
    : result ReplError (Admission * EpochGateInner) :=
  match admit_known i op with
  | Some r => (fun a => (a, i)) <$> r
  | None =>
      _ ← refuse_if ((encoded_len op =? 0)
                     || (MAX_SIGNED_EPOCH_OP_BYTES <? encoded_len op)
                     || (len (gi_operations i) =? MAX_EPOCH_OPERATIONS)
                     || (MAX_EPOCH_BYTES
                         <? sat_add usize_max (gi_total_bytes i) (encoded_len op))) EpochBound;
      let per_device := default (0, 0) (om_get (ao_author op) (gi_by_device i)) in
      _ ← refuse_if (bool_decide (ao_author op <> owner)
                     && ((MAX_DEVICE_OPERATIONS <=? per_device.1)
                         || (MAX_DEVICE_BYTES
                             <? sat_add usize_max per_device.2 (encoded_len op)))) EpochBound;
      Ok (Accepted, charge_op op i)
  end.

Definition admit_local (g : EpochGate) (op : AdmittedOperation)
    : result ReplError (Admission * EpochGate) :=
  let i := g_inner g in
  _ ← refuse_if (bool_decide (gi_phase i <> Open)) EpochClosed;
  p ← admit_open (gi_owner i) op i;
  Ok (p.1, with_inner g p.2).

Definition admit_inbound_locked (op : AdmittedOperation) (i : EpochGateInner)
    : result ReplError (Admission * EpochGateInner) :=
  match admit_known i op with
  | Some r => (fun a => (a, i)) <$> r
  | None =>
      match gi_phase i with
      | Open => admit_open (gi_owner i) op i
      | Closing =>
          if bool_decide (op_hash op ∈ gi_quarantine i) then Ok (Quarantined, i)
          else if len (gi_quarantine i) =? MAX_QUARANTINED then Ok (RejectedQuarantineFull, i)
          else Ok (Quarantined, set_quarantine (gi_quarantine i ++ [op_hash op]) i)
      | Settled | Fault => Err EpochClosed
      end
  end.

Definition admit_inbound (g : EpochGate) (op : AdmittedOperation)
    : result ReplError (Admission * EpochGate) :=
  p ← admit_inbound_locked op (g_inner g);
  Ok (p.1, with_inner g p.2).

(** [transition_verified_receipt]: the receipt-book commit runs on every
    successful path and on no other, so it is the caller's continuation of [Ok]. *)
Definition transition_verified_receipt (g : EpochGate) (verified : VerifiedReceipt)
    (outcome : ReceiptIngest) : result ReplError (list AdmittedOperation * EpochGate) :=
  _ ← refuse_if (bool_decide (vr_document verified <> g_document g)
                 || negb (vr_closed_epoch verified =? g_epoch g)) EpochScope;
  let i := g_inner g in
  match outcome with
  | IngestStale => Ok ([], g)
  | IngestFault =>
      match gi_phase i with
      | Open | Closing | Fault =>
          Ok (om_values (gi_operations i), with_inner g (set_phase Fault None i))
      | Settled => Err ReceiptConflict
      end
  | IngestAdvanced | IngestDuplicate =>
      match gi_phase i with
      | Open =>
          Ok (om_values (gi_operations i),
              with_inner g (set_phase Closing (Some (vr_receipt_hash verified)) i))
      | Closing =>
          if bool_decide (gi_receipt_hash i = Some (vr_receipt_hash verified))
          then Ok (om_values (gi_operations i), g)
          else Err ReceiptConflict
      | Settled | Fault => Err ReceiptConflict
      end
  end.

Definition seal_verified_receipt (g : EpochGate) (verified : VerifiedReceipt)
    : result ReplError (list AdmittedOperation * EpochGate) :=
  transition_verified_receipt g verified IngestAdvanced.

Definition mark_settled (g : EpochGate) (receipt_hash : bytes) : result ReplError EpochGate :=
  let i := g_inner g in
  _ ← refuse_if (bool_decide (gi_phase i <> Closing)
                 || bool_decide (gi_receipt_hash i <> Some receipt_hash)) ReceiptConflict;
  Ok (with_inner g (set_phase Settled (gi_receipt_hash i) (set_quarantine [] i))).

(** The gate's move to [Fault] in [ReceiptBook::check_opening_receipt]. *)
Definition gate_fault (g : EpochGate) : EpochGate :=
  with_inner g (set_phase Fault None (g_inner g)).

Definition accepted_hashes (g : EpochGate) : list bytes := om_keys (gi_operations (g_inner g)).

(** ** Persistence *)

Definition phase_tag (p : EpochPhase) : N :=
  match p with Open => 1 | Closing => 2 | Settled => 3 | Fault => 4 end.

Definition phase_from_tag (n : N) : result ReplError EpochPhase :=
  match n with
  | 1 => Ok Open
  | 2 => Ok Closing
  | 3 => Ok Settled
  | 4 => Ok Fault
  | _ => Err Malformed
  end.

Fixpoint put_operations (ops : list AdmittedOperation) (e : bytes) : result ReplError bytes :=
  match ops with
  | [] => Ok e
  | op :: ops' =>
      let e := e |> put_hash (op_hash op) |> put_hash (domain_op_id op)
                 |> put_bytes_x (ao_author op) in
      _ ← refuse_if (u32_max <? encoded_len op) EpochBound;
      put_operations ops' (e |> put_u32 (encoded_len op))
  end.

Definition EpochGate_encode (g : EpochGate) : result ReplError bytes :=
  let i := g_inner g in
  let e := [] |> put_u8 1 in
  e ← put_bytes_b (server_id (g_document g)) e;
  let e := e |> put_u16 (doc_tag (doc_type (g_document g))) in
  e ← put_bytes_b (logical_key (g_document g)) e;
  let e := e |> put_u128 (g_doc_id g)
             |> put_u64 (g_epoch g)
             |> put_bytes_x (gi_owner i)
             |> put_u8 (phase_tag (gi_phase i))
             |> put_optional_hash (gi_receipt_hash i) in
  _ ← refuse_if (u32_max <? len (gi_operations i)) EpochBound;
  e ← put_operations (om_values (gi_operations i)) (e |> put_u32 (len (gi_operations i)));
  _ ← refuse_if (u32_max <? len (gi_quarantine i)) EpochBound;
  let e := e |> put_u32 (len (gi_quarantine i))
             |> put_hashes (sort_unstable (gi_quarantine i)) in
  if MAX_EPOCH_GATE_BYTES <? len e then Err EpochBound else Ok e.

(** [prior.is_some_and(|prior| prior >= key)] *)
Definition not_after (prior : option bytes) (key : bytes) : bool :=
  match prior with Some p => negb (kltb p key) | None => false end.

Definition read_operation : dec ReplError AdmittedOperation :=
  h ← get_fixed 32;
  id ← get_fixed 32;
  who ← get_fixed 32;
  size ← mal get_u32;
  mret (mkAdmittedOperation h id who size).

Fixpoint read_operations (count : nat) (prior : option bytes) (i : EpochGateInner)
    : dec ReplError EpochGateInner :=
  match count with
  | O => mret i
  | S count' =>
      op ← read_operation;
      _ ← dec_refuse (not_after prior (op_hash op)) Malformed;
      _ ← dec_refuse ((encoded_len op =? 0)
                      || (MAX_SIGNED_EPOCH_OP_BYTES <? encoded_len op)
                      || (len (gi_operations i) =? MAX_EPOCH_OPERATIONS)
                      || (MAX_EPOCH_BYTES
                          <? sat_add usize_max (gi_total_bytes i) (encoded_len op))
                      || om_has (op_hash op) (gi_operations i)
                      || om_has (domain_op_id op) (gi_operation_ids i)) Malformed;
      read_operations count' (Some (op_hash op)) (charge_op op i)
  end.

(** The quarantine loop; the local set it keeps holds exactly the hashes read. *)
Fixpoint read_quarantine (count : nat) (prior : option bytes) (i : EpochGateInner)
    : dec ReplError EpochGateInner :=
  match count with
  | O => mret i
  | S count' =>
      h ← get_fixed 32;
      _ ← dec_refuse (om_has h (gi_operations i)
                      || bool_decide (h ∈ gi_quarantine i)
                      || not_after prior h) Malformed;
      read_quarantine count' (Some h) (set_quarantine (gi_quarantine i ++ [h]) i)
  end.

Definition phase_consistent (p : EpochPhase) (h : option bytes) (q : list bytes) : bool :=
  match p, h with
  | Open, None => is_empty q
  | Closing, Some _ => true
  | Settled, Some _ => is_empty q
  | Fault, None => true
  | _, _ => false
  end.

Definition EpochGate_read : dec ReplError EpochGate :=
  version ← mal get_u8;
  _ ← dec_refuse (negb (version =? 1)) Malformed;
  document ← get_document;
  doc_id ← mal get_u128;
  epoch ← mal get_u64;
  owner ← get_fixed 32;
  tag ← mal get_u8;
  phase ← dec_lift (phase_from_tag tag);
  receipt_hash ← get_optional_hash;
  count ← mal get_u32;
  _ ← dec_refuse (MAX_EPOCH_OPERATIONS <? count) EpochBound;
  i ← read_operations (N.to_nat count) None (mkEpochGateInner owner Open None [] [] 0 [] []);
  qcount ← mal get_u32;
  _ ← dec_refuse (MAX_QUARANTINED <? qcount) EpochBound;
  i ← read_quarantine (N.to_nat qcount) None i;
  mret (mkEpochGate document doc_id epoch (set_phase phase receipt_hash i)).

(** The phase test of the source follows [finish]. *)
Definition EpochGate_decode (input : bytes) : result ReplError EpochGate :=
  _ ← refuse_if (MAX_EPOCH_GATE_BYTES <? len input) EpochBound;
  g ← run_exact EpochGate_read input;
  _ ← refuse_if (negb (phase_consistent (gi_phase (g_inner g)) (gi_receipt_hash (g_inner g))
                         (gi_quarantine (g_inner g)))) Malformed;
  mret g.

(** ** Admission with the document mutation

    [admit_local_and_commit] and [admit_inbound_and_commit] run [commit] on the
    document state [s] inside the same critical section. *)

Definition commit_accepted {S} (commit : S -> S) (s : S) (p : Admission * EpochGate)
    : Admission * EpochGate * S :=
  (p, if bool_decide (p.1 = Accepted) then commit s else s).

Definition admit_local_and_commit {S} (g : EpochGate) (op : AdmittedOperation)
    (commit : S -> S) (s : S) : result ReplError (Admission * EpochGate * S) :=
  commit_accepted commit s <$> admit_local g op.

Definition admit_inbound_and_commit {S} (g : EpochGate) (op : AdmittedOperation)
    (commit : S -> S) (s : S) : result ReplError (Admission * EpochGate * S) :=
  commit_accepted commit s <$> admit_inbound g op.

(** * Accounting *)

Definition dev_count (d : bytes) (m : bmap bytes AdmittedOperation) : N :=
  sum_of (fun kv => if bool_decide (ao_author kv.2 = d) then 1 else 0) m.
Definition dev_bytes (d : bytes) (m : bmap bytes AdmittedOperation) : N :=
  sum_of (fun kv => if bool_decide (ao_author kv.2 = d) then encoded_len kv.2 else 0) m.
Definition ops_bytes (m : bmap bytes AdmittedOperation) : N :=
  sum_of (fun kv => encoded_len kv.2) m.

Definition operation_ok (h : bytes) (op : AdmittedOperation) : Prop :=
  h = op_hash op /\ length (op_hash op) = 32%nat /\ length (domain_op_id op) = 32%nat /\
  length (ao_author op) = 32%nat /\ 0 < encoded_len op <= MAX_SIGNED_EPOCH_OP_BYTES.

(** The derived fields are functions of the operations. *)
Record accounted (i : EpochGateInner) : Prop := mkAccounted {
  ac_wf : om_wf (gi_operations i);
  ac_ids_wf : om_wf (gi_operation_ids i);
  ac_dev_wf : om_wf (gi_by_device i);
  ac_ops : Forall (fun kv => operation_ok kv.1 kv.2) (gi_operations i);
  ac_ids : forall id h, om_get id (gi_operation_ids i) = Some h <->
             exists op, om_get h (gi_operations i) = Some op /\ domain_op_id op = id;
  ac_total : gi_total_bytes i = ops_bytes (gi_operations i);
  ac_dev : forall d, om_get d (gi_by_device i) =
             if dev_count d (gi_operations i) =? 0 then None
             else Some (dev_count d (gi_operations i), dev_bytes d (gi_operations i));
  ac_count : len (gi_operations i) <= MAX_EPOCH_OPERATIONS;
  ac_bytes : gi_total_bytes i <= MAX_EPOCH_BYTES
}.

Lemma dev_count_zero_bytes d m : dev_count d m = 0 -> dev_bytes d m = 0.
Proof.
  unfold dev_count, dev_bytes. induction m as [|kv m IH]; cbn; [done|].
  destruct (bool_decide (ao_author kv.2 = d)); [lia|]. intros H. rewrite IH; lia.
Qed.

Lemma accounted_device i d :
  accounted i ->
  default (0, 0) (om_get d (gi_by_device i)) =
    (dev_count d (gi_operations i), dev_bytes d (gi_operations i)).
Proof.
  intros [_ _ _ _ _ _ Hd _ _]. rewrite Hd.
  destruct (N.eqb_spec (dev_count d (gi_operations i)) 0) as [E|E]; [|done].
  cbn. by rewrite E, dev_count_zero_bytes.
Qed.

Lemma om_has_false {V} k (m : bmap bytes V) : om_has k m = false <-> om_get k m = None.
Proof. unfold om_has. by destruct (om_get k m). Qed.

(** A fresh operation within the epoch bounds. *)
Definition fresh_op (i : EpochGateInner) (op : AdmittedOperation) : Prop :=
  om_get (op_hash op) (gi_operations i) = None /\
  om_get (domain_op_id op) (gi_operation_ids i) = None /\
  0 < encoded_len op <= MAX_SIGNED_EPOCH_OP_BYTES /\
  len (gi_operations i) < MAX_EPOCH_OPERATIONS /\
  gi_total_bytes i + encoded_len op <= MAX_EPOCH_BYTES.

Lemma accounted_charge i op :
  accounted i -> fresh_op i op ->
  length (op_hash op) = 32%nat -> length (domain_op_id op) = 32%nat ->
  length (ao_author op) = 32%nat ->
  accounted (charge_op op i).
Proof.
  intros Ha (Hh & Hid & Hlen & Hcnt & Hb) L1 L2 L3. pose proof (accounted_device i (ao_author op) Ha) as Hdev.
  destruct Ha as [W1 W2 W3 HF HI HT HD HC HB].
  pose proof (om_insert_perm (op_hash op) op _ Hh) as Hp.
  assert (Hsum : forall f : bytes * AdmittedOperation -> N,
    sum_of f (om_insert (op_hash op) op (gi_operations i))
    = f (op_hash op, op) + sum_of f (gi_operations i))
    by (intros f; by rewrite (sum_of_perm _ _ _ Hp)).
  constructor; cbn.
  - by apply om_wf_insert.
  - by apply om_wf_insert.
  - unfold charge_device. by apply om_wf_insert.
  - rewrite Hp. constructor; [|done]. unfold operation_ok; cbn. destruct Hlen. by split_and!.
  - intros id h. destruct (decide (id = domain_op_id op)) as [->|Hne].
    + rewrite om_get_insert_eq. split.
      * intros [= <-]. exists op. by rewrite om_get_insert_eq.
      * intros (op' & Hop & Hid'). destruct (decide (h = op_hash op)) as [->|Hn]; [done|].
        rewrite om_get_insert_ne in Hop by congruence.
        assert (Hx : om_get (domain_op_id op) (gi_operation_ids i) = Some h)
          by (apply HI; by exists op'). congruence.
    + rewrite om_get_insert_ne by congruence. rewrite HI. split.
      * intros (op' & Hop & Hid'). exists op'. split; [|done].
        rewrite om_get_insert_ne; [done|]. intros <-. congruence.
      * intros (op' & Hop & Hid'). exists op'. split; [|done].
        destruct (decide (h = op_hash op)) as [->|Hn].
        { rewrite om_get_insert_eq in Hop. congruence. }
        by rewrite om_get_insert_ne in Hop by congruence.
  - unfold ops_bytes in *. rewrite Hsum. cbn. lia.
  - intros d. unfold charge_device, dev_count, dev_bytes. rewrite !Hsum. cbn.
    fold (dev_count d (gi_operations i)) (dev_bytes d (gi_operations i)).
    destruct (decide (d = ao_author op)) as [->|Hne].
    + rewrite om_get_insert_eq, Hdev.
      rewrite bool_decide_eq_true_2 by done. cbn.
      replace (1 + dev_count (ao_author op) (gi_operations i) =? 0) with false
        by (symmetry; apply N.eqb_neq; lia). f_equal. f_equal; lia.
    + rewrite om_get_insert_ne by congruence. rewrite bool_decide_eq_false_2 by congruence.
      by rewrite !N.add_0_l, HD.
  - rewrite om_insert_len_new by done. lia.
  - done.
Qed.

(** Two accountings of the same operations agree. *)
Lemma accounted_unique i j :
  accounted i -> accounted j -> gi_operations i = gi_operations j ->
  gi_operation_ids i = gi_operation_ids j /\ gi_total_bytes i = gi_total_bytes j /\
  gi_by_device i = gi_by_device j.
Proof.
  intros [A1 A2 A3 A4 A5 A6 A7 A8 A9] [B1 B2 B3 B4 B5 B6 B7 B8 B9] E. split_and!.
  - apply om_ext; [done..|]. intros id.
    destruct (om_get id (gi_operation_ids i)) as [h|] eqn:Ei.
    + symmetry. apply B5. rewrite <- E. by apply A5.
    + destruct (om_get id (gi_operation_ids j)) as [h|] eqn:Ej; [|done].
      apply B5 in Ej. rewrite <- E in Ej. apply A5 in Ej. congruence.
  - by rewrite A6, B6, E.
  - apply om_ext; [done..|]. intros d. by rewrite A7, B7, E.
Qed.

(** * The gate invariant *)

Record gate_ok (g : EpochGate) : Prop := mkGateOk {
  go_document : document_ok (g_document g);
  go_doc_id : g_doc_id g <= u128_max;
  go_epoch : g_epoch g <= u64_max;
  go_owner : length (gi_owner (g_inner g)) = 32%nat;
  go_receipt : opt_ok (fun h => length h = 32%nat) (gi_receipt_hash (g_inner g));
  go_accounted : accounted (g_inner g);
  go_quarantine : NoDup (gi_quarantine (g_inner g));
  go_quarantine_len : Forall (fun h => length h = 32%nat /\
    om_get h (gi_operations (g_inner g)) = None) (gi_quarantine (g_inner g));
  go_quarantine_max : len (gi_quarantine (g_inner g)) <= MAX_QUARANTINED;
  go_phase : phase_consistent (gi_phase (g_inner g)) (gi_receipt_hash (g_inner g))
               (gi_quarantine (g_inner g)) = true
}.

Lemma accounted_new owner p h q :
  accounted (mkEpochGateInner owner p h [] [] 0 [] q).
Proof.
  constructor; cbn; try constructor; try done.
  intros (op & H & _). done.
Qed.

Lemma gate_new_ok document doc_id epoch owner :
  document_ok document -> doc_id <= u128_max -> epoch <= u64_max -> length owner = 32%nat ->
  gate_ok (EpochGate_new document doc_id epoch owner).
Proof.
  intros. constructor; cbn; try done; [apply accounted_new | apply NoDup_nil_2].
Qed.

(** [op] has the lengths of its Rust types. *)
Definition op_typed (op : AdmittedOperation) : Prop :=
  length (op_hash op) = 32%nat /\ length (domain_op_id op) = 32%nat /\
  length (ao_author op) = 32%nat.

Lemma admit_known_some i op r :
  admit_known i op = Some r -> r = Ok Duplicate \/ r = Err IntentConflict.
Proof.
  unfold admit_known. destruct (om_has _ _); [intros [= <-]; by left|].
  destruct (om_get _ _); [|done]. case_bool_decide; intros [= <-]; [by left | by right].
Qed.

Lemma admit_known_none i op :
  admit_known i op = None ->
  om_get (op_hash op) (gi_operations i) = None /\
  om_get (domain_op_id op) (gi_operation_ids i) = None.
Proof.
  unfold admit_known. destruct (om_has (op_hash op) (gi_operations i)) eqn:E; [done|].
  apply om_has_false in E. by destruct (om_get (domain_op_id op) _).
Qed.

Lemma admit_open_ok owner op i a i' :
  accounted i -> admit_open owner op i = Ok (a, i') ->
  (a = Duplicate /\ i' = i /\ admit_known i op = Some (Ok Duplicate)) \/
  (a = Accepted /\ i' = charge_op op i /\ admit_known i op = None /\ fresh_op i op /\
   (ao_author op <> owner ->
    dev_count (ao_author op) (gi_operations i) < MAX_DEVICE_OPERATIONS /\
    dev_bytes (ao_author op) (gi_operations i) + encoded_len op <= MAX_DEVICE_BYTES)).
Proof.
  intros Ha. unfold admit_open. destruct (admit_known i op) as [r|] eqn:Ek.
  - intros H. left. destruct (admit_known_some _ _ _ Ek) as [->| ->]; [|done].
    by injection H as <- <-.
  - intros H. right. apply admit_known_none in Ek as Hk. destruct Hk as [H1 H2].
    rewrite (accounted_device i _ Ha) in H. res_inv. bool_simpl.
    simplify_eq. pose proof (ac_count _ Ha). split_and!; try done.
    + unfold fresh_op, sat_add, usize_max, u64_max, MAX_EPOCH_BYTES in *. split_and!; (done || lia).
    + intros Hne. cbn [fst snd] in *.
      match goal with Hx : _ \/ _ |- _ => destruct Hx as [Hx|Hx] end; bool_simpl; [done|].
      unfold sat_add, usize_max, u64_max, MAX_DEVICE_BYTES in *. lia.
Qed.

(** * Repair

    A signed repair is the one way out of [Fault]. What it plans is in
    [RepairTransition]; here is the commit of the planned state, from
    [epoch/repair_transition.rs]. *)

Inductive RepairDisposition : Type := Transitioned | Retargeted | Screened.

#[global] Instance RepairDisposition_eq_dec : EqDecision RepairDisposition.
Proof. solve_decision. Defined.

#[global] Instance EpochGateInner_eq_dec : EqDecision EpochGateInner.
Proof. solve_decision. Defined.

Definition commit_shape (p : EpochPhase) (h : option bytes) : bool :=
  match p, h with Open, None => true | Closing, Some _ => true | _, _ => false end.

(** [EpochGate::commit_repair], on the inner state under the lock. *)
Definition commit_repair (inner expected next : EpochGateInner) (disposition : RepairDisposition)
    : result ReplError EpochGateInner :=
  _ ← refuse_if (bool_decide (inner <> expected) || bool_decide (gi_phase inner = Settled)) ReceiptConflict;
  _ ← (if bool_decide (disposition = Screened) then
         refuse_if (bool_decide (next <> expected)) ReceiptConflict
       else
         _ ← refuse_if (negb (commit_shape (gi_phase next) (gi_receipt_hash next))) ReceiptConflict;
         let unchanged := set_phase (gi_phase expected) (gi_receipt_hash expected) next in
         _ ← refuse_if (bool_decide (gi_phase next = Open) && bool_decide (gi_quarantine next <> []))
               ReceiptConflict;
         let unchanged := if bool_decide (gi_phase next = Open)
                          then set_quarantine (gi_quarantine expected) unchanged else unchanged in
         refuse_if (bool_decide (unchanged <> expected)) ReceiptConflict);
  Ok next.

(** The accepted work and its accounting: all a repair must leave alone. *)
Definition same_work (i j : EpochGateInner) : Prop :=
  gi_owner j = gi_owner i /\ gi_operations j = gi_operations i /\
  gi_operation_ids j = gi_operation_ids i /\ gi_total_bytes j = gi_total_bytes i /\
  gi_by_device j = gi_by_device i.

Lemma commit_repair_ok inner expected next d next' :
  commit_repair inner expected next d = Ok next' ->
  inner = expected /\ next' = next /\ gi_phase inner <> Settled /\ same_work inner next /\
  gi_phase next <> Settled /\
  (d = Screened -> next = inner) /\
  (gi_phase next <> Open -> gi_quarantine next = gi_quarantine inner) /\
  (d <> Screened -> commit_shape (gi_phase next) (gi_receipt_hash next) = true /\
                    (gi_phase next = Open -> gi_quarantine next = [])).
Proof.
  unfold commit_repair. intros H. apply refuse_if_bind_ok in H as [Hg H]. bool_simpl. subst expected.
  apply bind_ok in H as ([] & Hc & H). injection H as <-. case_bool_decide as Hd.
  - apply refuse_if_ok in Hc. bool_simpl. subst. by split_and!.
  - apply refuse_if_bind_ok in Hc as [Hs Hc]. apply refuse_if_bind_ok in Hc as [Hq Hc].
    apply refuse_if_ok in Hc. apply negb_false_iff in Hs. apply bool_decide_eq_false, dec_stable in Hc.
    assert (Hno : gi_phase next <> Settled) by (intros E; rewrite E in Hs; done).
    assert (Hw : same_work inner next).
    { unfold same_work. by case_bool_decide; rewrite <- Hc; split_and!. }
    split_and!; try done.
    + intros Ho. rewrite bool_decide_eq_false_2 in Hc by done. by rewrite <- Hc.
    + intros _. split; [done|]. intros Ho. rewrite (bool_decide_eq_true_2 _ Ho) in Hq. cbn [andb] in Hq. by bool_simpl.
Qed.

(** * The gate as a transition system *)

Inductive gate_step : EpochGate -> EpochGate -> Prop :=
| gs_local op a g g' :
    op_typed op -> admit_local g op = Ok (a, g') -> gate_step g g'
| gs_inbound op a g g' :
    op_typed op -> admit_inbound g op = Ok (a, g') -> gate_step g g'
| gs_receipt verified outcome ops g g' :
    length (vr_receipt_hash verified) = 32%nat ->
    transition_verified_receipt g verified outcome = Ok (ops, g') -> gate_step g g'
| gs_settled h g g' : mark_settled g h = Ok g' -> gate_step g g'
| gs_owner owner g : length owner = 32%nat -> gate_step g (update_owner g owner)
| gs_opening_fault g :
    gi_phase (g_inner g) = Open \/ gi_phase (g_inner g) = Closing -> gate_step g (gate_fault g)
| gs_repair expected next disposition inner g :
    opt_ok (fun h => length h = 32%nat) (gi_receipt_hash next) ->
    commit_repair (g_inner g) expected next disposition = Ok inner -> gate_step g (with_inner g inner).

Lemma gate_ok_charge g op :
  gate_ok g -> op_typed op -> fresh_op (g_inner g) op -> gi_phase (g_inner g) = Open ->
  gate_ok (with_inner g (charge_op op (g_inner g))).
Proof.
  intros [] (L1 & L2 & L3) Hf Hp.
  assert (Hq : gi_quarantine (g_inner g) = [] /\ gi_receipt_hash (g_inner g) = None).
  { rewrite Hp in go_phase0. destruct (gi_receipt_hash (g_inner g)); [done|].
    by destruct (gi_quarantine (g_inner g)). }
  destruct Hq as [Hq Hr]. constructor; cbn; try done.
  - by apply accounted_charge.
  - rewrite Hq. constructor.
Qed.

Lemma accounted_ext i j :
  gi_operations i = gi_operations j -> gi_operation_ids i = gi_operation_ids j ->
  gi_total_bytes i = gi_total_bytes j -> gi_by_device i = gi_by_device j ->
  accounted i -> accounted j.
Proof. destruct i, j; cbn. intros -> -> -> -> []. by constructor. Qed.

Lemma gate_ok_phase g p h :
  gate_ok g -> opt_ok (fun h => length h = 32%nat) h ->
  phase_consistent p h (gi_quarantine (g_inner g)) = true ->
  gate_ok (with_inner g (set_phase p h (g_inner g))).
Proof. intros [] Hh Hc. constructor; cbn; try done. by eapply accounted_ext; [..|done]. Qed.

Lemma admit_inbound_ok op g a g' :
  gate_ok g -> admit_inbound g op = Ok (a, g') ->
  (g' = g /\ a <> Accepted) \/
  (a = Accepted /\ gi_phase (g_inner g) = Open /\ fresh_op (g_inner g) op /\
   g' = with_inner g (charge_op op (g_inner g)) /\
   (ao_author op <> gi_owner (g_inner g) ->
    dev_count (ao_author op) (gi_operations (g_inner g)) < MAX_DEVICE_OPERATIONS /\
    dev_bytes (ao_author op) (gi_operations (g_inner g)) + encoded_len op <= MAX_DEVICE_BYTES)) \/
  (a = Quarantined /\ gi_phase (g_inner g) = Closing /\
   ~ (op_hash op ∈ gi_quarantine (g_inner g)) /\
   om_get (op_hash op) (gi_operations (g_inner g)) = None /\
   len (gi_quarantine (g_inner g)) < MAX_QUARANTINED /\
   g' = with_inner g (set_quarantine (gi_quarantine (g_inner g) ++ [op_hash op]) (g_inner g))).
Proof.
  intros Hg H. unfold admit_inbound in H. apply bind_ok in H as ([a1 i1] & H & E).
  injection E as <- <-. unfold admit_inbound_locked in H.
  assert (Hid : forall i1, i1 = g_inner g -> with_inner g i1 = g) by (intros ? ->; by destruct g).
  destruct (admit_known (g_inner g) op) as [r|] eqn:Ek.
  { left. destruct (admit_known_some _ _ _ Ek) as [->| ->]; [|done].
    injection H as <- <-. by split; [apply Hid|]. }
  destruct (gi_phase (g_inner g)) eqn:Hp; try done.
  - apply admit_open_ok in H as [(-> & -> & H)|(-> & -> & _ & Hf & Hs)];
      [congruence | | by apply Hg]. right. left. by split_and!.
  - case_bool_decide as Hin; [injection H as <- <-; left; by split; [apply Hid|]|].
    destruct (N.eqb_spec (len (gi_quarantine (g_inner g))) MAX_QUARANTINED) as [|Hne];
      injection H as <- <-; [left; by split; [apply Hid|]|].
    right. right. apply admit_known_none in Ek as [Ek _].
    split_and!; try done. pose proof (go_quarantine_max _ Hg). lia.
Qed.

Lemma admit_local_ok op g a g' :
  gate_ok g -> admit_local g op = Ok (a, g') ->
  (g' = g /\ a = Duplicate) \/
  (a = Accepted /\ gi_phase (g_inner g) = Open /\ fresh_op (g_inner g) op /\
   g' = with_inner g (charge_op op (g_inner g)) /\
   (ao_author op <> gi_owner (g_inner g) ->
    dev_count (ao_author op) (gi_operations (g_inner g)) < MAX_DEVICE_OPERATIONS /\
    dev_bytes (ao_author op) (gi_operations (g_inner g)) + encoded_len op <= MAX_DEVICE_BYTES)).
Proof.
  intros Hg H. unfold admit_local in H. cbv zeta in H.
  apply refuse_if_bind_ok in H as [Hp H]. apply bool_decide_eq_false in Hp. apply dec_stable in Hp.
  apply bind_ok in H as ([a1 i1] & H & E). injection E as <- <-.
  apply admit_open_ok in H as [(-> & -> & _)|(-> & -> & _ & Hf & Hs)]; [| |by apply Hg].
  - left. split; [|done]. by destruct g.
  - right. by split_and!.
Qed.

Lemma transition_ok g v o ops g' :
  transition_verified_receipt g v o = Ok (ops, g') ->
  g' = g \/ (gi_phase (g_inner g) <> Settled /\ g' = gate_fault g) \/
  (gi_phase (g_inner g) = Open /\
   g' = with_inner g (set_phase Closing (Some (vr_receipt_hash v)) (g_inner g))).
Proof.
  unfold transition_verified_receipt, gate_fault. intros H. cbv zeta in H.
  apply refuse_if_bind_ok in H as [_ H].
  destruct o, (gi_phase (g_inner g)) eqn:Hp; try done; try (case_bool_decide; [|done]);
    simplify_eq; auto 6.
Qed.

Lemma mark_settled_ok g h g' :
  mark_settled g h = Ok g' ->
  gi_phase (g_inner g) = Closing /\ gi_receipt_hash (g_inner g) = Some h /\
  g' = with_inner g (set_phase Settled (gi_receipt_hash (g_inner g))
                       (set_quarantine [] (g_inner g))).
Proof. unfold mark_settled. intros H. cbv zeta in H. res_inv. bool_simpl. by split_and!. Qed.

Lemma gate_ok_repair g expected next d inner :
  gate_ok g -> opt_ok (fun h => length h = 32%nat) (gi_receipt_hash next) -> commit_repair (g_inner g) expected next d = Ok inner ->
  gate_ok (with_inner g inner).
Proof.
  intros Hg Hl H. apply commit_repair_ok in H as (_ & -> & _ & (W1 & W2 & W3 & W4 & W5) & _ & Hscr & Hq & Hshape).
  destruct (decide (d = Screened)) as [Hd|Hd]; [rewrite (Hscr Hd); by destruct g|]. destruct (Hshape Hd) as [Hs Ho], Hg.
  assert (gi_quarantine next = gi_quarantine (g_inner g) \/ gi_quarantine next = []) as Hqq.
  { destruct (decide (gi_phase next = Open)); [right; auto|left; auto]. }
  constructor; cbn; rewrite ?W1, ?W2; try done.
  - by eapply accounted_ext; [..|done].
  - destruct Hqq as [-> | ->]; [done|apply NoDup_nil_2].
  - destruct Hqq as [-> | ->]; [done|constructor].
  - destruct Hqq as [-> | ->]; [done|by vm_compute].
  - unfold commit_shape in Hs. destruct (gi_phase next), (gi_receipt_hash next); try done. cbn. by rewrite Ho.
Qed.

Lemma gate_step_ok g g' : gate_ok g -> gate_step g g' -> gate_ok g'.
Proof.
  intros Hg Hs.
  destruct Hs as [op a g g' Ht H|op a g g' Ht H|v o ops g g' Hl H|h g g' H|owner g Hl|g Hp|expected next d inner g Hl H].
  - apply admit_local_ok in H as [[-> _]|(-> & Hp & Hf & -> & _)]; [done | by apply gate_ok_charge | done].
  - apply admit_inbound_ok in H as [[-> _]|[(-> & Hp & Hf & -> & _)|(-> & Hp & Hn & Hg0 & Hm & ->)]];
      [done | by apply gate_ok_charge | | done].
    destruct Ht as (L1 & _), Hg. constructor; cbn; try done.
    + by eapply accounted_ext; [..|done].
    + apply NoDup_app. split_and!; [done | | apply NoDup_singleton].
      intros x Hx Hx'%list_elem_of_singleton. by subst.
    + apply Forall_app. by split; [|repeat constructor].
    + rewrite len_app. unfold len at 2; cbn. lia.
    + rewrite Hp in *. by destruct (gi_receipt_hash (g_inner g)).
  - apply transition_ok in H as [->|[[_ ->]|[Hp ->]]]; [done | |].
    + by apply gate_ok_phase.
    + apply gate_ok_phase; [done..|]. by destruct (gi_quarantine (g_inner g)).
  - apply mark_settled_ok in H as (Hp & Hr & ->). destruct Hg. rewrite Hr in *.
    constructor; cbn; try done; [by eapply accounted_ext; [..|done] | apply NoDup_nil_2].
  - destruct Hg. constructor; cbn; try done. by eapply accounted_ext; [..|done].
  - by apply gate_ok_phase.
  - by apply gate_ok_repair with expected next d.
Qed.

Lemma gate_reachable_ok g g' : rtc gate_step g g' -> gate_ok g -> gate_ok g'.
Proof. induction 1 as [|g1 g2 g3 Hs _ IH]; [done|]. intros H. apply IH. by eapply gate_step_ok. Qed.

(** ** Lifecycle *)












(** ** Per-device shares under one owner *)

Definition shares_ok (g : EpochGate) : Prop :=
  forall d, d <> gi_owner (g_inner g) ->
    dev_count d (gi_operations (g_inner g)) <= MAX_DEVICE_OPERATIONS /\
    dev_bytes d (gi_operations (g_inner g)) <= MAX_DEVICE_BYTES.

Lemma shares_charge g op :
  shares_ok g -> fresh_op (g_inner g) op ->
  (ao_author op <> gi_owner (g_inner g) ->
    dev_count (ao_author op) (gi_operations (g_inner g)) < MAX_DEVICE_OPERATIONS /\
    dev_bytes (ao_author op) (gi_operations (g_inner g)) + encoded_len op <= MAX_DEVICE_BYTES) ->
  shares_ok (with_inner g (charge_op op (g_inner g))).
Proof.
  intros Hs (Hn & _) Hlim d Hd. cbn in *. specialize (Hs d Hd).
  pose proof (om_insert_perm (op_hash op) op _ Hn) as Hp.
  unfold dev_count, dev_bytes in *. rewrite !(sum_of_perm _ _ _ Hp). cbn.
  case_bool_decide as E; [|lia]. subst d. specialize (Hlim Hd). lia.
Qed.

Lemma shares_step g g' :
  gate_ok g -> shares_ok g -> gate_step g g' ->
  gi_owner (g_inner g') = gi_owner (g_inner g) -> shares_ok g'.
Proof.
  intros Hg Hsh Hs.
  destruct Hs as [op a g g' Ht H|op a g g' Ht H|v o ops g g' Hl H|h g g' H|owner g Hl|g Hp|expected next d inner g Hl H]; intros Ho.
  - apply admit_local_ok in H as [[-> _]|(-> & Hp & Hf & -> & Hlim)]; [done | by apply shares_charge | done].
  - apply admit_inbound_ok in H as [[-> _]|[(-> & Hp & Hf & -> & Hlim)|(-> & Hp & Hn & Hg0 & Hm & ->)]];
      [done | by apply shares_charge | done | done].
  - by apply transition_ok in H as [->|[[Hp ->]|[Hp ->]]].
  - by apply mark_settled_ok in H as (Hp & Hr & ->).
  - cbn in Ho. intros d. cbn. rewrite Ho. apply Hsh.
  - done.
  - apply commit_repair_ok in H as (_ & -> & _ & (W1 & W2 & _) & _). intros e. cbn. rewrite W1, W2. apply Hsh.
Qed.

(** ** The committed log

    The document state is the list of committed operations, newest first. *)

Inductive log_step : EpochGate * list AdmittedOperation ->
                     EpochGate * list AdmittedOperation -> Prop :=
| ls_local op a g l g' l' :
    op_typed op -> admit_local_and_commit g op (cons op) l = Ok (a, g', l') ->
    log_step (g, l) (g', l')
| ls_inbound op a g l g' l' :
    op_typed op -> admit_inbound_and_commit g op (cons op) l = Ok (a, g', l') ->
    log_step (g, l) (g', l')
| ls_other g l g' :
    gate_step g g' -> gi_operations (g_inner g') = gi_operations (g_inner g) ->
    log_step (g, l) (g', l).

Lemma commit_accepted_ok {S} (r : result ReplError (Admission * EpochGate)) commit (s : S) a g' s' :
  commit_accepted commit s <$> r = Ok (a, g', s') ->
  r = Ok (a, g') /\ s' = if bool_decide (a = Accepted) then commit s else s.
Proof. destruct r as [[a1 g1]|]; [|done]. intros [= <- <- <-]. done. Qed.

Lemma log_step_agrees g l g' l' :
  log_step (g, l) (g', l') -> gate_ok g -> l ≡ₚ om_values (gi_operations (g_inner g)) ->
  gate_ok g' /\ l' ≡ₚ om_values (gi_operations (g_inner g')).
Proof.
  assert (Hins : forall op, fresh_op (g_inner g) op ->
    l ≡ₚ om_values (gi_operations (g_inner g)) ->
    op :: l ≡ₚ om_values (gi_operations (charge_op op (g_inner g)))).
  { intros op (Hn & _) Hl. cbn. unfold om_values.
    rewrite (om_insert_perm _ op _ Hn). cbn. by rewrite Hl. }
  intros Hs Hg Hl. inversion Hs as [op a g0 l0 g1 l1 Ht H|op a g0 l0 g1 l1 Ht H|g0 l0 g1 Hs' Hops]; subst.
  - apply commit_accepted_ok in H as [H ->].
    split; [by eapply gate_step_ok; [|eapply gs_local]|].
    apply admit_local_ok in H as [[-> ->]|(-> & _ & Hf & -> & _)]; [done | | done].
    rewrite bool_decide_eq_true_2 by done. by apply Hins.
  - apply commit_accepted_ok in H as [H ->].
    split; [by eapply gate_step_ok; [|eapply gs_inbound]|].
    apply admit_inbound_ok in H as [[-> Hne]|[(-> & _ & Hf & -> & _)|(-> & _ & _ & _ & _ & ->)]];
      [| | |done].
    + by rewrite bool_decide_eq_false_2.
    + rewrite bool_decide_eq_true_2 by done. by apply Hins.
    + done.
  - split; [by eapply gate_step_ok|]. by rewrite Hops.
Qed.

(** * Persistence lemmas *)

Definition op_bytes (op : AdmittedOperation) : bytes :=
  lp (op_hash op) ++ lp (domain_op_id op) ++ lp (ao_author op) ++ be_bytes 4 (encoded_len op).

Definition gate_bytes (g : EpochGate) : bytes :=
  let i := g_inner g in
  be_bytes 1 1 ++ document_bytes (g_document g) ++ be_bytes 16 (g_doc_id g) ++
  be_bytes 8 (g_epoch g) ++ lp (gi_owner i) ++ be_bytes 1 (phase_tag (gi_phase i)) ++
  opt_bytes lp (gi_receipt_hash i) ++ be_bytes 4 (len (gi_operations i)) ++
  concat (op_bytes <$> om_values (gi_operations i)) ++
  be_bytes 4 (len (gi_quarantine i)) ++ concat (lp <$> sort_unstable (gi_quarantine i)).

(** The gate a restart sees: the quarantine in canonical order. *)
Definition sorted_gate (g : EpochGate) : EpochGate :=
  with_inner g (set_quarantine (sort_unstable (gi_quarantine (g_inner g))) (g_inner g)).

Lemma put_operations_ok (ops : list AdmittedOperation) : forall e,
  Forall (fun op => exists h, operation_ok h op) ops ->
  put_operations ops e = Ok (e ++ concat (op_bytes <$> ops)).
Proof.
  induction ops as [|op ops IH]; intros e HF.
  - cbn [put_operations fmap list_fmap concat]. by rewrite app_nil_r.
  - inversion HF as [|? ? [h (_ & _ & _ & _ & Hl)] HF']; subst.
    cbn [put_operations fmap list_fmap concat].
    rewrite refuse_if_bind_false
      by (apply N.ltb_ge; unfold MAX_SIGNED_EPOCH_OP_BYTES, u32_max in *; lia).
    rewrite IH by done. rewrite !put_hash_eq, ?put_bytes_x_lp. unfold op_bytes, put_u32.
    by rewrite <- !app_assoc.
Qed.

Lemma len_op_bytes h op : operation_ok h op -> len (op_bytes op) = 112.
Proof.
  intros (_ & H1 & H2 & H3 & _). unfold op_bytes. autorewrite with mewtual_len.
  by rewrite (len_of_length _ _ H1), (len_of_length _ _ H2), (len_of_length _ _ H3).
Qed.

Lemma accounted_values i :
  accounted i -> Forall (fun op => exists h, operation_ok h op) (om_values (gi_operations i)).
Proof.
  intros Ha. unfold om_values. apply Forall_fmap.
  eapply Forall_impl; [exact (ac_ops _ Ha)|]. by eexists.
Qed.

Lemma sort_unstable_len (l : list bytes) : len (sort_unstable l) = len l.
Proof. unfold len. by rewrite (Permutation_length (sort_unstable_perm l)). Qed.

Lemma len_gate_bytes g : gate_ok g -> len (gate_bytes g) <= MAX_EPOCH_GATE_BYTES.
Proof.
  intros []. unfold gate_bytes. cbv zeta. autorewrite with mewtual_len.
  pose proof (document_len _ go_document0).
  assert (Ho : len (concat (op_bytes <$> om_values (gi_operations (g_inner g))))
               = 112 * len (gi_operations (g_inner g))).
  { rewrite len_concat. pose proof (accounted_values _ go_accounted0) as HF.
    rewrite (sum_of_ext _ (fun _ => 112)), sum_of_const.
    - unfold om_values, len. by rewrite length_fmap.
    - eapply Forall_impl; [exact HF|]. intros op [h Hop]. by apply (len_op_bytes h). }
  assert (Hq : len (concat (lp <$> sort_unstable (gi_quarantine (g_inner g))))
               = 36 * len (gi_quarantine (g_inner g))).
  { rewrite len_hashes, sort_unstable_len; [done|].
    rewrite sort_unstable_perm. eapply Forall_impl; [exact go_quarantine_len0|]. by intros h []. }
  rewrite Ho, Hq, (len_of_length _ _ go_owner0). pose proof (ac_count _ go_accounted0).
  assert (match gi_receipt_hash (g_inner g) with Some v => len (lp v) | None => 0 end <= 36).
  { destruct (gi_receipt_hash (g_inner g)) as [h|]; [|lia]. rewrite len_lp.
    cbn in go_receipt0. rewrite (len_of_length _ _ go_receipt0). lia. }
  unfold MAX_EPOCH_GATE_BYTES, MAX_EPOCH_OPERATIONS, MAX_QUARANTINED in *. lia.
Qed.

Lemma EpochGate_encode_ok g : gate_ok g -> EpochGate_encode g = Ok (gate_bytes g).
Proof.
  intros Hg. pose proof (len_gate_bytes g Hg) as Hlen. destruct Hg.
  destruct (document_ok_u32 _ go_document0). pose proof (ac_count _ go_accounted0).
  unfold EpochGate_encode. cbv zeta.
  rewrite put_bytes_b_ok, bind_Ok by done. rewrite put_bytes_b_ok, bind_Ok by done.
  rewrite refuse_if_bind_false
    by (apply N.ltb_ge; unfold MAX_EPOCH_OPERATIONS, u32_max in *; lia).
  rewrite put_operations_ok, bind_Ok by (by apply accounted_values).
  rewrite refuse_if_bind_false
    by (apply N.ltb_ge; unfold MAX_QUARANTINED, u32_max in *; lia).
  rewrite put_hashes_eq, put_optional_hash_eq, put_bytes_x_lp.
  unfold put_u8, put_u16, put_u32, put_u64, put_u128.
  match goal with |- (if _ <? len ?e then _ else _) = _ =>
    assert (He : e = gate_bytes g)
      by (unfold gate_bytes, document_bytes; cbv zeta; by rewrite <- !app_assoc) end.
  rewrite He. by rewrite (proj2 (N.ltb_ge _ _) Hlen).
Qed.

Lemma reads_operation op h :
  operation_ok h op -> reads read_operation (op_bytes op) op.
Proof.
  intros (_ & H1 & H2 & H3 & H4). unfold read_operation, op_bytes. destruct op; cbn in *. reads_go.
  - by apply reads_fixed.
  - by apply reads_fixed.
  - by apply reads_fixed.
  - apply reads_mal, reads_u32. unfold MAX_SIGNED_EPOCH_OP_BYTES, u32_max in *. lia.
Qed.

Lemma consumes_operation :
  consumes read_operation (fun op bs => bs = op_bytes op /\ op_typed op).
Proof.
  intros d op d' H. unfold read_operation in H. dec_step H.
  destruct Hr as [-> ?], Hr0 as [-> ?], Hr1 as [-> ?], Hr2 as [-> ?].
  eexists; split; [|split; [reflexivity|by split_and!]].
  unfold op_bytes; cbn. rewrite R, R0, R1, R2. by rewrite <- !app_assoc.
Qed.
#[export] Hint Resolve consumes_operation : mewtual_dec.

(** The unaccounted part of the state. *)
Definition same_frame (i j : EpochGateInner) : Prop :=
  gi_owner i = gi_owner j /\ gi_phase i = gi_phase j /\
  gi_receipt_hash i = gi_receipt_hash j /\ gi_quarantine i = gi_quarantine j.

Lemma get_app_below h op (m1 m2 : bmap bytes AdmittedOperation) :
  om_wf (m1 ++ (h, op) :: m2) -> om_get h m1 = None.
Proof.
  intros Hw. pose proof (om_wf_app_inv _ _ _ _ Hw) as Hlt.
  destruct (om_get h m1) as [v|] eqn:E; [|done]. exfalso.
  assert (Hin : h ∈ om_keys m1)
    by (apply (om_get_keys h m1 (om_wf_app_l _ _ Hw)); by rewrite E).
  rewrite Forall_forall in Hlt. by apply (klt_irrefl h), Hlt.
Qed.

Lemma accounted_prefix_fresh i j h op m2 :
  accounted i -> accounted j -> gi_operations j = gi_operations i ++ (h, op) :: m2 ->
  h = op_hash op /\ fresh_op i op.
Proof.
  intros Hi Hj Hsplit. pose proof (ac_wf _ Hj) as Hw. rewrite Hsplit in Hw.
  pose proof (ac_ops _ Hj) as HF. rewrite Hsplit, Forall_app in HF. destruct HF as [_ HF].
  inversion HF as [|? ? (Hh & _ & _ & _ & Hl) _]; subst. cbn in *. subst h. split; [done|].
  pose proof (get_app_below _ _ _ _ Hw) as Hn.
  assert (Hgj : om_get (op_hash op) (gi_operations j) = Some op).
  { apply om_get_elem; [apply Hj|]. rewrite Hsplit. apply elem_of_app. right. by left. }
  split_and!; try done.
  - destruct (om_get (domain_op_id op) (gi_operation_ids i)) as [h'|] eqn:E; [|done]. exfalso.
    apply (ac_ids _ Hi) in E as (op' & Hop' & Hid').
    assert (Hop'j : om_get h' (gi_operations j) = Some op').
    { apply om_get_elem; [apply Hj|]. rewrite Hsplit. apply elem_of_app. left.
      apply om_get_elem; [apply Hi | done]. }
    assert (E1 : om_get (domain_op_id op) (gi_operation_ids j) = Some h')
      by (apply (ac_ids _ Hj); by exists op').
    assert (E2 : om_get (domain_op_id op) (gi_operation_ids j) = Some (op_hash op))
      by (apply (ac_ids _ Hj); by exists op).
    congruence.
  - by destruct Hl.
  - by destruct Hl.
  - pose proof (ac_count _ Hj) as Hc. rewrite Hsplit, len_app, len_cons in Hc. lia.
  - pose proof (ac_bytes _ Hj) as Hb. rewrite (ac_total _ Hj), Hsplit in Hb.
    rewrite (ac_total _ Hi). unfold ops_bytes in *. rewrite sum_of_app in Hb. cbn in Hb. lia.
Qed.

Lemma reads_operations j m2 : forall i prior,
  accounted j -> accounted i -> gi_operations j = gi_operations i ++ m2 ->
  (forall p, prior = Some p -> Forall (klt p) (om_keys m2)) ->
  exists i', accounted i' /\ gi_operations i' = gi_operations j /\ same_frame i' i /\
    reads (read_operations (length m2) prior i) (concat (op_bytes <$> om_values m2)) i'.
Proof.
  induction m2 as [|[h op] m2 IH]; intros i prior Hj Hi Hsplit Hprior.
  - exists i. rewrite app_nil_r in Hsplit. split_and!; try done. apply reads_ret.
  - destruct (accounted_prefix_fresh _ _ _ _ _ Hi Hj Hsplit) as [-> Hf].
    pose proof (ac_wf _ Hj) as Hw. rewrite Hsplit in Hw.
    pose proof (ac_ops _ Hj) as HF. rewrite Hsplit, Forall_app in HF. destruct HF as [_ HF].
    inversion HF as [|? ? Hop _]; subst. cbn in Hop. pose proof Hop as (_ & L1 & L2 & L3 & _).
    assert (Hops : gi_operations (charge_op op i) = gi_operations i ++ [(op_hash op, op)])
      by (cbn; apply om_insert_snoc; by apply (om_wf_app_inv _ _ _ _ Hw)).
    destruct (IH (charge_op op i) (Some (op_hash op))) as (i' & A1 & A2 & A3 & A4).
    + done.
    + by apply accounted_charge.
    + rewrite Hops, <- app_assoc. done.
    + intros p [= <-]. by apply om_wf_app_r, om_wf_cons_inv in Hw as [_ Hw].
    + exists i'. split_and!; try done.
      cbn [length read_operations om_values fmap list_fmap concat snd].
      eapply reads_bind; [by eapply reads_operation|].
      eapply reads_refuse_bind.
      { destruct prior as [p|]; [|done]. unfold not_after. apply negb_false_iff, kltb_klt.
        specialize (Hprior p eq_refl). by inversion Hprior. }
      eapply reads_refuse_bind; [|exact A4].
      destruct Hf as (F1 & F2 & [F3 F3'] & F4 & F5). rewrite !orb_false_iff. split_and!.
      * apply N.eqb_neq. lia.
      * by apply N.ltb_ge.
      * apply N.eqb_neq. lia.
      * apply N.ltb_ge. unfold sat_add. lia.
      * by apply om_has_false.
      * by apply om_has_false.
Qed.

Lemma reads_quarantine q2 : forall i prior,
  Forall (fun h => length h = 32%nat /\ om_get h (gi_operations i) = None) q2 ->
  StronglySorted klt (gi_quarantine i ++ q2) ->
  (forall p, prior = Some p -> Forall (klt p) q2) ->
  reads (read_quarantine (length q2) prior i) (concat (lp <$> q2))
    (set_quarantine (gi_quarantine i ++ q2) i).
Proof.
  induction q2 as [|h q2 IH]; intros i prior HF Hs Hprior.
  - cbn [length read_quarantine fmap list_fmap concat]. rewrite app_nil_r.
    destruct i; apply reads_ret.
  - inversion HF as [|? ? [Hl Hn] HF']; subst. cbn [length read_quarantine fmap list_fmap concat].
    assert (Hsplit : gi_quarantine i ++ h :: q2 = (gi_quarantine i ++ [h]) ++ q2)
      by by rewrite <- app_assoc.
    eapply reads_bind; [by apply reads_fixed|]. eapply reads_refuse_bind.
    { rewrite !orb_false_iff. split_and!; [by apply om_has_false | |].
      - apply bool_decide_eq_false_2. intros Hin. clear -Hs Hin.
        induction (gi_quarantine i) as [|x q IH]; [by apply not_elem_of_nil in Hin|].
        cbn in Hs. inversion Hs as [|? ? Hs' Hx]; subst.
        apply elem_of_cons in Hin as [<-|Hin]; [|by apply IH].
        rewrite Forall_app in Hx. destruct Hx as [_ Hx]. inversion Hx as [|? ? Hxx _].
        by apply (klt_irrefl h).
      - destruct prior as [p|]; [|done]. unfold not_after. apply negb_false_iff, kltb_klt.
        specialize (Hprior p eq_refl). by inversion Hprior. }
    rewrite Hsplit in *. specialize (IH (set_quarantine (gi_quarantine i ++ [h]) i) (Some h)).
    cbn in IH. apply IH; [done | done |]. intros p [= <-].
    clear -Hs. rewrite <- app_assoc in Hs. cbn in Hs.
    induction (gi_quarantine i) as [|x q IH]; cbn in Hs; [by inversion Hs|].
    apply IH. by inversion Hs.
Qed.

Lemma phase_from_tag_tag p : phase_from_tag (phase_tag p) = Ok p.
Proof. by destruct p. Qed.

Lemma phase_tag_from_tag n p : phase_from_tag n = Ok p -> n = phase_tag p.
Proof.
  unfold phase_from_tag. intros H.
  destruct n as [|[[[]|[]|]|[[]|[]|]|]]; try discriminate H; by injection H as <-.
Qed.

Lemma is_empty_sort (q : list bytes) : is_empty (sort_unstable q) = is_empty q.
Proof.
  pose proof (Permutation_length (sort_unstable_perm q)).
  destruct q, (sort_unstable _) eqn:E; cbn in *; done.
Qed.

Lemma reads_gate g : gate_ok g -> reads EpochGate_read (gate_bytes g) (sorted_gate g).
Proof.
  intros []. pose proof (ac_count _ go_accounted0) as Hc.
  assert (HqF : Forall (fun h => length h = 32%nat /\ om_get h (gi_operations (g_inner g)) = None)
                  (sort_unstable (gi_quarantine (g_inner g)))) by (by rewrite sort_unstable_perm).
  destruct (reads_operations (g_inner g) (gi_operations (g_inner g))
    (mkEpochGateInner (gi_owner (g_inner g)) Open None [] [] 0 [] []) None)
    as (i' & A1 & A2 & (A3 & _ & _ & A4) & A5); [done | apply accounted_new | done | done |].
  assert (Heq : sorted_gate g = mkEpochGate (g_document g) (g_doc_id g) (g_epoch g)
    (set_phase (gi_phase (g_inner g)) (gi_receipt_hash (g_inner g))
       (set_quarantine (gi_quarantine i' ++ sort_unstable (gi_quarantine (g_inner g))) i'))).
  { destruct (accounted_unique _ _ A1 go_accounted0 A2) as (B1 & B2 & B3).
    unfold sorted_gate, with_inner, set_phase, set_quarantine; cbn.
    by rewrite A2, B1, B2, B3, A3, A4. }
  rewrite Heq.
  unfold EpochGate_read, gate_bytes. cbv zeta. reads_go.
  - by apply reads_mal, reads_u8.
  - done.
  - by apply reads_document.
  - by apply reads_mal, reads_u128.
  - by apply reads_mal, reads_u64.
  - by apply reads_fixed.
  - apply reads_mal, reads_u8. by destruct (gi_phase (g_inner g)).
  - apply phase_from_tag_tag.
  - by apply reads_optional_hash.
  - apply reads_mal, reads_u32. unfold MAX_EPOCH_OPERATIONS, u32_max in *. lia.
  - by apply N.ltb_ge.
  - unfold len. rewrite Nat2N.id. exact A5.
  - apply reads_mal, reads_u32. unfold MAX_QUARANTINED, u32_max in *. lia.
  - by apply N.ltb_ge.
  - rewrite <- sort_unstable_len. unfold len. rewrite Nat2N.id.
    apply reads_quarantine; cbn in *; [by rewrite A2 | | done].
    rewrite A4. by apply sort_NoDup_ascending.
Qed.

Lemma EpochGate_decode_ok g :
  gate_ok g -> EpochGate_decode (gate_bytes g) = Ok (sorted_gate g).
Proof.
  intros Hg. unfold EpochGate_decode.
  rewrite refuse_if_bind_false by (apply N.ltb_ge; by apply len_gate_bytes).
  rewrite (run_exact_reads _ _ _ (reads_gate g Hg)), bind_Ok. cbn.
  destruct Hg. rewrite refuse_if_bind_false; [done|]. apply negb_false_iff.
  rewrite <- go_phase0. unfold phase_consistent. by rewrite is_empty_sort.
Qed.

(** ** What a decoded gate satisfies *)

(** Keys up to [prior]. *)
Definition keys_upto (prior : option bytes) (ks : list bytes) : Prop :=
  match prior with
  | None => ks = []
  | Some p => Forall (fun k => k = p \/ klt k p) ks
  end.

Lemma keys_upto_below prior ks k :
  keys_upto prior ks -> not_after prior k = false -> Forall (fun k' => klt k' k) ks.
Proof.
  unfold keys_upto, not_after. destruct prior as [p|]; [|intros ->; constructor].
  intros HF Hp%negb_false_iff%kltb_klt. eapply Forall_impl; [exact HF|].
  intros k' [->|Hk]; [done|]. by transitivity p.
Qed.

Lemma keys_upto_snoc prior ks k :
  keys_upto prior ks -> not_after prior k = false -> keys_upto (Some k) (ks ++ [k]).
Proof.
  intros H1 H2. pose proof (keys_upto_below _ _ _ H1 H2) as HF. cbn.
  apply Forall_app. split; [|by repeat constructor].
  eapply Forall_impl; [exact HF|]. by right.
Qed.

Lemma consumes_operations n : forall prior i,
  accounted i -> keys_upto prior (om_keys (gi_operations i)) ->
  consumes (read_operations n prior i) (fun i' bs => accounted i' /\ same_frame i' i /\
    exists m2, gi_operations i' = gi_operations i ++ m2 /\ length m2 = n /\
      bs = concat (op_bytes <$> om_values m2)).
Proof.
  induction n as [|n IH]; intros prior i Hi Hk d i' d' H; cbn [read_operations] in H.
  - apply dec_ret_ok in H as [<- <-]. exists []. split; [done|]. split_and!; try done.
    exists []. by rewrite app_nil_r.
  - apply dec_bind_ok in H as (op & d1 & H1 & H).
    destruct (consumes_operation _ _ _ H1) as (b1 & R1 & -> & Ht).
    apply dec_bind_ok in H as (u & d2 & H2 & H). apply dec_refuse_ok in H2 as [Hna <-].
    apply dec_bind_ok in H as (u' & d3 & H3 & H). apply dec_refuse_ok in H3 as [Hb <-].
    bool_simpl.
    repeat match goal with Hx : om_has _ _ = false |- _ => apply om_has_false in Hx end.
    assert (Hf : fresh_op i op).
    { pose proof (ac_count _ Hi). pose proof (ac_bytes _ Hi).
      unfold fresh_op, sat_add, usize_max, u64_max, MAX_EPOCH_BYTES in *. split_and!; (done || lia). }
    pose proof (keys_upto_below _ _ _ Hk Hna) as Hbelow.
    assert (Hops : gi_operations (charge_op op i) = gi_operations i ++ [(op_hash op, op)])
      by (cbn; by apply om_insert_snoc).
    destruct Ht as (L1 & L2 & L3).
    destruct (IH (Some (op_hash op)) (charge_op op i)) with (d := d1) (v := i') (d' := d')
      as (b2 & R2 & A1 & A2 & m2 & A3 & A4 & A5).
    + by apply accounted_charge.
    + rewrite Hops. unfold om_keys. rewrite fmap_app. by eapply keys_upto_snoc.
    + done.
    + exists (op_bytes op ++ b2). split; [by rewrite R1, R2, app_assoc|]. split_and!; try done.
      exists ((op_hash op, op) :: m2). rewrite A3, Hops, <- app_assoc. split; [done|].
      split; [cbn; by rewrite A4|]. by rewrite A5.
Qed.

Lemma consumes_quarantine n : forall prior i,
  keys_upto prior (gi_quarantine i) -> StronglySorted klt (gi_quarantine i) ->
  consumes (read_quarantine n prior i) (fun i' bs =>
    exists q2, i' = set_quarantine (gi_quarantine i ++ q2) i /\ length q2 = n /\
      bs = concat (lp <$> q2) /\ StronglySorted klt (gi_quarantine i ++ q2) /\
      Forall (fun h => length h = 32%nat /\ om_get h (gi_operations i) = None) q2).
Proof.
  induction n as [|n IH]; intros prior i Hk Hs d i' d' H; cbn [read_quarantine] in H.
  - apply dec_ret_ok in H as [<- <-]. exists []. split; [done|]. exists [].
    rewrite app_nil_r. destruct i. by split_and!.
  - apply dec_bind_ok in H as (h & d1 & H1 & H).
    destruct (consumes_fixed _ _ _ _ H1) as (b1 & R1 & -> & Hl).
    apply dec_bind_ok in H as (u & d2 & H2 & H). apply dec_refuse_ok in H2 as [Hb <-].
    bool_simpl.
    repeat match goal with Hx : om_has _ _ = false |- _ => apply om_has_false in Hx end.
    match goal with Hx : not_after _ _ = false |- _ =>
      pose proof (keys_upto_below _ _ _ Hk Hx) as Hbelow;
      pose proof (keys_upto_snoc _ _ _ Hk Hx) as Hk' end.
    assert (Hs' : StronglySorted klt (gi_quarantine i ++ [h])).
    { clear -Hs Hbelow. induction Hs as [|x q Hs IH Hx]; cbn; [by repeat constructor|].
      inversion Hbelow; subst. constructor; [by apply IH|]. apply Forall_app.
      split; [done|by repeat constructor]. }
    destruct (IH (Some h) (set_quarantine (gi_quarantine i ++ [h]) i) Hk' Hs' _ _ _ H)
      as (b2 & R2 & q2 & A1 & A2 & A3 & A4 & A5). cbn in *.
    exists (lp h ++ b2). split; [by rewrite R1, R2, app_assoc|]. exists (h :: q2).
    rewrite <- app_assoc in A1, A4. cbn in A1, A4. split_and!; [done | cbn; by rewrite A2 | cbn; by rewrite A3 | done | by constructor].
Qed.

Lemma sorted_NoDup (l : list bytes) : StronglySorted klt l -> NoDup l.
Proof.
  induction 1 as [|x l Hs IH Hx]; [apply NoDup_nil_2|]. apply NoDup_cons. split; [|done].
  intros Hin. rewrite Forall_forall in Hx. by apply (klt_irrefl x), Hx.
Qed.

Lemma consumes_gate :
  consumes EpochGate_read (fun g bs =>
    bs = gate_bytes g /\
    (phase_consistent (gi_phase (g_inner g)) (gi_receipt_hash (g_inner g))
       (gi_quarantine (g_inner g)) = true -> gate_ok g)).
Proof.
  intros d g d' H. unfold EpochGate_read in H.
  apply dec_bind_ok in H as (v & d1 & H1 & H). destruct (consumes_m_u8 _ _ _ H1) as (b1 & R1 & -> & _).
  apply dec_bind_ok in H as (u & d2 & H2 & H). apply dec_refuse_ok in H2 as [Hv <-]. bool_simpl. subst v.
  apply dec_bind_ok in H as (doc & d3 & H3 & H). destruct (consumes_document _ _ _ H3) as (b3 & R3 & -> & Hdoc).
  apply dec_bind_ok in H as (id & d4 & H4 & H). destruct (consumes_m_u128 _ _ _ H4) as (b4 & R4 & -> & Hid).
  apply dec_bind_ok in H as (ep & d5 & H5 & H). destruct (consumes_m_u64 _ _ _ H5) as (b5 & R5 & -> & Hep).
  apply dec_bind_ok in H as (ow & d6 & H6 & H). destruct (consumes_fixed _ _ _ _ H6) as (b6 & R6 & -> & How).
  apply dec_bind_ok in H as (tg & d7 & H7 & H). destruct (consumes_m_u8 _ _ _ H7) as (b7 & R7 & -> & _).
  apply dec_bind_ok in H as (ph & d8 & H8 & H). apply dec_lift_ok in H8 as [H8 <-].
  apply phase_tag_from_tag in H8 as ->.
  apply dec_bind_ok in H as (rh & d9 & H9 & H).
  destruct (consumes_optional_hash _ _ _ H9) as (b9 & R9 & -> & Hrh).
  apply dec_bind_ok in H as (c & d10 & H10 & H). destruct (consumes_m_u32 _ _ _ H10) as (b10 & R10 & -> & _).
  apply dec_bind_ok in H as (u2 & d11 & H11 & H). apply dec_refuse_ok in H11 as [Hc <-].
  apply dec_bind_ok in H as (i & d12 & H12 & H).
  destruct (consumes_operations _ None _ (accounted_new ow Open None []) eq_refl _ _ _ H12)
    as (b12 & R12 & Ha & (F1 & _ & _ & F4) & m2 & Hm & Hml & ->). cbn in Hm, F1, F4. subst m2.
  apply dec_bind_ok in H as (qc & d13 & H13 & H). destruct (consumes_m_u32 _ _ _ H13) as (b13 & R13 & -> & _).
  apply dec_bind_ok in H as (u3 & d14 & H14 & H). apply dec_refuse_ok in H14 as [Hqc <-].
  apply dec_bind_ok in H as (i2 & d15 & H15 & H).
  assert (Hs0 : StronglySorted klt (gi_quarantine i)) by (rewrite F4; constructor).
  destruct (consumes_quarantine _ None i F4 Hs0 _ _ _ H15)
    as (b15 & R15 & q2 & -> & Hql & -> & Hqs & HqF).
  apply dec_ret_ok in H as [<- <-]. rewrite F4 in *. cbn [app] in *. bool_simpl.
  assert (Hclen : len (gi_operations i) = c) by (unfold len; lia).
  assert (Hqlen : len q2 = qc) by (unfold len; lia).
  eexists; split; [|split; [reflexivity|]].
  - unfold gate_bytes; cbv zeta.
    cbn [g_inner g_document g_doc_id g_epoch set_phase set_quarantine gi_owner gi_phase
      gi_receipt_hash gi_operations gi_quarantine].
    rewrite Hclen, Hqlen, (sort_ascending_id q2) by done.
    rewrite R1, R3, R4, R5, R6, R7, R9, R10, R12, R13, R15, F1. by rewrite <- !app_assoc.
  - cbn. intros Hpc. constructor; cbn; try done; try lia.
    + by rewrite F1.
    + by eapply accounted_ext; [..|exact Ha].
    + by apply sorted_NoDup.
Qed.

Lemma EpochGate_decode_inv bs g :
  EpochGate_decode bs = Ok g -> EpochGate_encode g = Ok bs /\ gate_ok g.
Proof.
  unfold EpochGate_decode. intros H. res_inv. bool_simpl.
  match goal with Hr : run_exact _ _ = Ok _ |- _ =>
    destruct (run_exact_consumes _ _ _ _ Hr consumes_gate) as [-> Hok] end.
  assert (Hg : gate_ok g) by (by apply Hok). split; [|done]. by apply EpochGate_encode_ok.
Qed.

(** * Properties *)

(** The gate invariant. Whatever the interleaving of local and inbound
    admissions, receipts, faults, settlement and owner changes, every gate
    reachable from a new one keeps its derived totals equal to its operations,
    stays within 20,000 operations and 4 MiB, keeps at most 1,024 distinct
    quarantined hashes none of which is accepted, and holds a receipt hash and
    a quarantine exactly where its phase allows them. *)
Theorem gate_invariant document doc_id epoch owner g :
  document_ok document -> doc_id <= u128_max -> epoch <= u64_max -> length owner = 32%nat ->
  rtc gate_step (EpochGate_new document doc_id epoch owner) g -> gate_ok g.
Proof.
  intros Hd Hi He Ho Hr. eapply gate_reachable_ok; [done|]. by apply gate_new_ok.
Qed.


(** Fair shares. As long as the owner does not change, no device other
    than the owner ever has more than 5,000 operations or 1 MiB accepted in one
    epoch, so a single member cannot fill the epoch. *)
Theorem gate_device_share document doc_id epoch owner g :
  document_ok document -> doc_id <= u128_max -> epoch <= u64_max -> length owner = 32%nat ->
  rtc (fun g1 g2 => gate_step g1 g2 /\ gi_owner (g_inner g2) = gi_owner (g_inner g1))
    (EpochGate_new document doc_id epoch owner) g ->
  forall d, d <> owner ->
    dev_count d (gi_operations (g_inner g)) <= MAX_DEVICE_OPERATIONS /\
    dev_bytes d (gi_operations (g_inner g)) <= MAX_DEVICE_BYTES.
Proof.
  intros Hd Hi He Ho Hr.
  assert (Hgo : forall g1 g2,
    rtc (fun g1 g2 => gate_step g1 g2 /\ gi_owner (g_inner g2) = gi_owner (g_inner g1)) g1 g2 ->
    gate_ok g1 -> shares_ok g1 -> shares_ok g2 /\ gi_owner (g_inner g2) = gi_owner (g_inner g1)).
  { induction 1 as [|g1 g2 g3 [Hs Hown] _ IH]; intros Hok Hsh; [done|].
    destruct (IH (gate_step_ok _ _ Hok Hs) (shares_step _ _ Hok Hsh Hs Hown)). split; [done | congruence]. }
  destruct (Hgo _ _ Hr (gate_new_ok _ _ _ _ Hd Hi He Ho)) as [Hsh Hown]; [done|].
  cbn in Hown. intros d Hne. apply Hsh. by rewrite Hown.
Qed.

(** The admitted metadata and the committed document log never disagree:
    in any run of admissions with their commits, interleaved with receipts,
    faults, settlement and owner changes, the committed operations are exactly
    the accepted ones, each once. *)
Theorem gate_log_agreement document doc_id epoch owner g log :
  document_ok document -> doc_id <= u128_max -> epoch <= u64_max -> length owner = 32%nat ->
  rtc log_step (EpochGate_new document doc_id epoch owner, []) (g, log) ->
  log ≡ₚ om_values (gi_operations (g_inner g)).
Proof.
  intros Hd Hi He Ho Hr.
  assert (Hgo : forall x y, rtc log_step x y -> gate_ok x.1 ->
    x.2 ≡ₚ om_values (gi_operations (g_inner x.1)) ->
    y.2 ≡ₚ om_values (gi_operations (g_inner y.1))).
  { induction 1 as [|[g1 l1] [g2 l2] z Hs _ IH]; intros Hok Hl; [done|].
    destruct (log_step_agrees _ _ _ _ Hs Hok Hl) as [Hok2 Hl2]. by apply IH. }
  apply (Hgo _ _ Hr); [by apply gate_new_ok | done].
Qed.

(** Crash safety of the gate. A well-formed gate always encodes, within
    the 3 MiB cap, and its bytes decode to the same gate with the quarantine in
    canonical order, all accounting recomputed; the restored gate is
    well-formed and encodes to the same bytes. Conversely any bytes that decode
    are the encoding of the well-formed gate they give, so a record with
    reordered, duplicated or over-budget operations, a quarantine overlapping
    the accepted set, or a phase its receipt hash contradicts is refused. *)
Theorem gate_crash_safe g :
  gate_ok g ->
  (exists bs, EpochGate_encode g = Ok bs /\ len bs <= MAX_EPOCH_GATE_BYTES /\
     EpochGate_decode bs = Ok (sorted_gate g) /\ gate_ok (sorted_gate g) /\
     EpochGate_encode (sorted_gate g) = Ok bs) /\
  (forall input g', EpochGate_decode input = Ok g' ->
     EpochGate_encode g' = Ok input /\ gate_ok g').
Proof.
  intros Hg. split; [|apply EpochGate_decode_inv]. exists (gate_bytes g). pose proof (EpochGate_decode_ok g Hg) as Hdec.
  destruct (EpochGate_decode_inv _ _ Hdec) as [He Hok].
  split_and!; [by apply EpochGate_encode_ok | by apply len_gate_bytes | done..].
Qed.

Definition toy_op (n who : N) : AdmittedOperation :=
  mkAdmittedOperation (be_bytes 32 n) (be_bytes 32 (1000 + n)) (be_bytes 32 who) 100.

Definition admit_or_same (g : EpochGate) (op : AdmittedOperation) : EpochGate :=
  match admit_inbound g op with Ok (_, g') => g' | Err _ => g end.

Definition toy_gate0 : EpochGate := EpochGate_new toy_document 11 4 (be_bytes 32 9).
Definition toy_gate_a : EpochGate := admit_or_same toy_gate0 (toy_op 5 9).
Definition toy_gate1 : EpochGate := admit_or_same toy_gate_a (toy_op 3 8).

Definition toy_verified : VerifiedReceipt :=
  mkVerifiedReceipt toy_document 4 (be_bytes 32 1) (be_bytes 32 77) (be_bytes 32 2).

Definition toy_gate2 : EpochGate :=
  match seal_verified_receipt toy_gate1 toy_verified with Ok (_, g) => g | Err _ => toy_gate1 end.
Definition toy_gate3 : EpochGate := admit_or_same toy_gate2 (toy_op 2 8).

Lemma toy_op_typed n who : op_typed (toy_op n who).
Proof. by split_and!; apply length_be_bytes. Qed.

Lemma toy_step_a : gate_step toy_gate0 toy_gate_a.
Proof. apply (gs_inbound (toy_op 5 9) Accepted); [apply toy_op_typed | by vm_compute]. Qed.
Lemma toy_step_1 : gate_step toy_gate_a toy_gate1.
Proof. apply (gs_inbound (toy_op 3 8) Accepted); [apply toy_op_typed | by vm_compute]. Qed.
Lemma toy_step_2 : gate_step toy_gate1 toy_gate2.
Proof.
  apply (gs_receipt toy_verified IngestAdvanced (om_values (gi_operations (g_inner toy_gate1))));
    by vm_compute.
Qed.
Lemma toy_step_3 : gate_step toy_gate2 toy_gate3.
Proof. apply (gs_inbound (toy_op 2 8) Quarantined); [apply toy_op_typed | by vm_compute]. Qed.

Lemma toy_run2 : rtc gate_step toy_gate0 toy_gate2.
Proof.
  eapply rtc_l; [apply toy_step_a|]. eapply rtc_l; [apply toy_step_1|]. apply rtc_once, toy_step_2.
Qed.

Lemma toy_run : rtc gate_step toy_gate0 toy_gate3.
Proof. eapply rtc_r; [apply toy_run2 | apply toy_step_3]. Qed.

Lemma toy_document_ok : document_ok toy_document.
Proof. by vm_compute. Qed.

Lemma gate_invariant_witness :
  gate_ok toy_gate3 /\ gi_phase (g_inner toy_gate3) = Closing /\
  gi_quarantine (g_inner toy_gate3) = [be_bytes 32 2].
Proof.
  split; [|by vm_compute].
  apply (gate_invariant toy_document 11 4 (be_bytes 32 9));
    [apply toy_document_ok | by vm_compute | by vm_compute | by vm_compute | apply toy_run].
Defined.

Lemma toy_gate_ok g : rtc gate_step toy_gate0 g -> gate_ok g.
Proof. intros H. eapply gate_reachable_ok; [done|]. apply gate_new_ok; by vm_compute. Qed.





Lemma gate_device_share_witness :
  dev_count (be_bytes 32 8) (gi_operations (g_inner toy_gate_a)) <= MAX_DEVICE_OPERATIONS.
Proof.
  apply (gate_device_share toy_document 11 4 (be_bytes 32 9));
    [apply toy_document_ok | by vm_compute | by vm_compute | by vm_compute | | by vm_compute].
  apply rtc_once. split; [apply toy_step_a | by vm_compute].
Defined.

Lemma gate_log_agreement_witness :
  [toy_op 5 9] ≡ₚ om_values (gi_operations (g_inner toy_gate_a)).
Proof.
  apply (gate_log_agreement toy_document 11 4 (be_bytes 32 9));
    [apply toy_document_ok | by vm_compute | by vm_compute | by vm_compute |].
  apply rtc_once. apply (ls_inbound (toy_op 5 9) Accepted); [apply toy_op_typed | by vm_compute].
Defined.

Lemma gate_crash_safe_witness :
  exists bs, EpochGate_encode toy_gate3 = Ok bs /\ EpochGate_decode bs = Ok (sorted_gate toy_gate3).
Proof.
  destruct (gate_crash_safe toy_gate3 (toy_gate_ok _ toy_run)) as [(bs & He & _ & Hd & _) _].
  exists bs. split; [exact He | exact Hd].
Defined.
