(* ===== verification/GatedDoc.v ===== *)
(** Epoch-managed documents ([crates/catcoms-replication/src/doc.rs]): domain
    edits and ingress through the epoch gate, and the rebuilding of a
    document from an authenticated vault log.

    The gate runs the document mutation inside its critical section, so an
    operation is one step on the pair of gate and document. The validators and
    the preflight of a consumer are functions of what the code hands them. *)

From S2P Require Import Prelude OrdMap Wire Context Pad Crypto Codec EpochBase Intent Authority Membership SignedOp Automerge Catchup Receipt Checkpoint Document Close Gate.
From stdpp Require Import base list gmap relations.
From Stdlib Require Import Init.Byte.
Local Open Scope N_scope.

(** [HEX[usize::from(byte >> 4)]], [HEX[usize::from(byte & 0x0f)]] *)
Definition HEX : bytes := bytes_of_string "0123456789abcdef".
Definition hex_digit (n : N) : Byte.byte := nth (N.to_nat n) HEX x00.
Definition hex_byte (b : Byte.byte) : bytes :=
  [hex_digit (N.shiftr (b2n b) 4); hex_digit (N.land (b2n b) 0x0f)].

Definition domain_marker_key (op_id : bytes) : bytes := MARKER_PREFIX ++ concat (hex_byte <$> op_id).

Section gated.
Context {C : Crypto} {A : Aead} {M : Automerge}.

Definition has_domain_marker (d : EncryptedDoc) (op_id : bytes) : result ReplError bool :=
  am_error (am_marker (ed_doc d) (domain_marker_key op_id)).

Definition verify_checkpoint_scope (d : EncryptedDoc) (logical : LogicalDocument) (gate : EpochGate)
    : result ReplError unit :=
  match ed_checkpoint d with
  | Some origin =>
      refuse_if (bool_decide (cp_document origin <> logical) || negb (cp_epoch origin =? g_epoch gate)) EpochScope
  | None =>
      refuse_if (negb (g_epoch gate =? 0)
                 || negb (ed_doc_id d =? epoch_zero_id (doc_type logical) (logical_key logical))) EpochScope
  end.

(** [self.doc = staged; self.record(op)], run inside the gate. *)
Definition commit_staged (staged : AutoCommit) (op : SignedOp) (d : EncryptedDoc) : EncryptedDoc :=
  (doc_record op (set_doc staged d)).2.

(** The gate's view of an operation of author [author]. *)
Definition admitted_operation (op : SignedOp) (domain_op : DomainOp) : AdmittedOperation :=
  mkAdmittedOperation (signed_op_hash op) (DomainOp_id domain_op (so_author_device op)) (so_author_device op)
    (len (op_encode op)).

(** ** Local edits *)

(** [edit_domain_preflight_gated] up to the signed operation: nothing of the
    document has changed yet. *)
Definition stage_edit (logical : LogicalDocument) (gate : EpochGate) (dev : MlsDevice) (g : ChannelGroup)
    (domain_op : DomainOp) (edit : AutoCommit -> result bytes unit * AutoCommit)
    (validate_change : DomainOp -> Change -> result ReplError unit) (preflight : AutoCommit -> result ReplError unit)
    (d : EncryptedDoc) : result ReplError (AutoCommit * Change * SignedOp) :=
  _ ← refuse_if (bool_decide (doc_type logical <> ed_doc_type d)
                 || bool_decide (server_id logical <> mg_group_id (cg_mls g))
                 || bool_decide (op_doc_type domain_op <> ed_doc_type d)
                 || bool_decide (op_logical_key domain_op <> logical_key logical)) EpochScope;
  _ ← verify_scope gate logical (ed_doc_id d);
  _ ← verify_checkpoint_scope d logical gate;
  _ ← refuse_if (bool_decide (mls_member_signature_key (cg_mls g) (device_id dev) <> Some (public_key_bytes dev)))
        EpochAuthority;
  marked ← has_domain_marker d (DomainOp_id domain_op (device_id dev));
  _ ← refuse_if marked NoChange;
  let '(outcome, staged) := edit (ed_doc d) in
  _ ← am_error outcome;
  staged ← am_error (am_put_one (domain_marker_key (DomainOp_id domain_op (device_id dev))) staged);
  let staged := am_commit staged in
  change ← ok_or (am_get_last_local_change staged) NoChange;
  _ ← validate_change domain_op change;
  _ ← refuse_if (bool_decide (ch_actor change <> device_id dev)) EpochAuthority;
  _ ← preflight staged;
  op ← sign_domain dev (ed_doc_type d) (ed_doc_id d) (ch_raw change) domain_op;
  Ok (staged, change, op).

Definition edit_domain_preflight_gated (logical : LogicalDocument) (dev : MlsDevice) (g : ChannelGroup) (rng : Rng)
    (domain_op : DomainOp) (edit : AutoCommit -> result bytes unit * AutoCommit)
    (validate_change : DomainOp -> Change -> result ReplError unit) (preflight : AutoCommit -> result ReplError unit)
    (gate : EpochGate) (d : EncryptedDoc) : result ReplError (SealedOp * bytes) * EpochGate * EncryptedDoc * Rng :=
  match stage_edit logical gate dev g domain_op edit validate_change preflight d with
  | Err e => (Err e, gate, d, rng)
  | Ok (staged, change, op) =>
      let '(sealed, rng) := op_seal op g rng in
      match sealed with
      | Err e => (Err e, gate, d, rng)
      | Ok sealed =>
          match admit_local_and_commit gate (admitted_operation op domain_op) (commit_staged staged op) d with
          | Err e => (Err e, gate, d, rng)
          | Ok (admission, gate, d) =>
              (if bool_decide (admission <> Accepted) then Err Malformed else Ok (sealed, ch_hash change), gate, d, rng)
          end
      end
  end.

(** ** Ingress *)

(** The checks of [apply_domain_gated] on an operation that is not in the log. *)
Definition stage_inbound (logical : LogicalDocument) (op : SignedOp)
    (validate_change : DomainOp -> Change -> result ReplError unit) (preflight : AutoCommit -> result ReplError unit)
    (d : EncryptedDoc) : result ReplError (AutoCommit * DomainOp) :=
  _ ← refuse_if (negb (op_verify op)) BadSignature;
  _ ← refuse_if (MAX_SIGNED_EPOCH_OP_BYTES <? len (op_encode op)) EpochBound;
  parsed ← parsed_domain_op op;
  domain_op ← ok_or parsed Malformed;
  _ ← refuse_if (bool_decide (doc_type logical <> ed_doc_type d)
                 || bool_decide (op_doc_type domain_op <> ed_doc_type d)
                 || bool_decide (op_logical_key domain_op <> logical_key logical)) EpochScope;
  change ← am_error (change_from_bytes (so_delta op));
  _ ← refuse_if (bool_decide (ch_actor change <> so_author_device op)) EpochAuthority;
  _ ← refuse_if (bool_decide (ed_checkpoint d <> None)
                 && (is_empty (ch_deps change)
                     || existsb (fun h => bool_decide (am_get_change_by_hash (ed_doc d) h = None)) (ch_deps change)))
        EpochScope;
  _ ← validate_change domain_op change;
  let '(outcome, staged) := am_load_incremental (so_delta op) (ed_doc d) in
  _ ← am_error outcome;
  marker_is_one ← am_error (am_marker staged (domain_marker_key (DomainOp_id domain_op (so_author_device op))));
  _ ← refuse_if (negb marker_is_one) Malformed;
  _ ← preflight staged;
  Ok (staged, domain_op).

Definition apply_domain_gated (logical : LogicalDocument) (op : SignedOp)
    (validate_change : DomainOp -> Change -> result ReplError unit) (preflight : AutoCommit -> result ReplError unit)
    (gate : EpochGate) (d : EncryptedDoc) : result ReplError Admission * EpochGate * EncryptedDoc :=
  match (_ ← check_doc d (so_doc_type op) (so_doc_id op); verify_scope gate logical (ed_doc_id d)) with
  | Err e => (Err e, gate, d)
  | Ok _ =>
      if bool_decide (signed_op_hash op ∈ ed_applied d) then (Ok Duplicate, gate, d)
      else match stage_inbound logical op validate_change preflight d with
           | Err e => (Err e, gate, d)
           | Ok (staged, domain_op) =>
               match admit_inbound_and_commit gate (admitted_operation op domain_op) (commit_staged staged op) d with
               | Err e => (Err e, gate, d)
               | Ok (Duplicate, gate, d) =>
                   (marked ← has_domain_marker d (DomainOp_id domain_op (so_author_device op));
                    if (marked : bool) then Ok Duplicate else Err Malformed, gate, d)
               | Ok (admission, gate, d) => (Ok admission, gate, d)
               end
           end
  end.

(** The checks of [ingest_domain_preflight_gated] before the application. *)
Definition open_inbound (logical : LogicalDocument) (gate : EpochGate) (sealed : SealedOp) (g : ChannelGroup)
    (d : EncryptedDoc) : result ReplError SignedOp :=
  _ ← check_doc d (sl_doc_type sealed) (sl_doc_id sealed);
  _ ← refuse_if (bool_decide (server_id logical <> mg_group_id (cg_mls g))) EpochScope;
  _ ← verify_scope gate logical (ed_doc_id d);
  _ ← verify_checkpoint_scope d logical gate;
  _ ← refuse_if (negb (sl_epoch sealed =? mg_epoch (cg_mls g))) (EpochUnavailable (sl_epoch sealed));
  key ← channel_secret g (ed_doc_type d) (ed_doc_id d);
  op ← op_open sealed key;
  _ ← refuse_if (bool_decide (signed_op_hash op ∉ ed_applied d)
                 && bool_decide (mls_member_signature_key (cg_mls g) (so_author_device op) <> Some (so_author_pubkey op)))
        EpochAuthority;
  Ok op.

Definition ingest_domain_preflight_gated (logical : LogicalDocument) (sealed : SealedOp) (g : ChannelGroup)
    (validate_change : DomainOp -> Change -> result ReplError unit) (preflight : AutoCommit -> result ReplError unit)
    (gate : EpochGate) (d : EncryptedDoc) : result ReplError Admission * EpochGate * EncryptedDoc :=
  match open_inbound logical gate sealed g d with
  | Err e => (Err e, gate, d)
  | Ok op => apply_domain_gated logical op validate_change preflight gate d
  end.

(** ** Rebuilding from the vault log *)

(** The accumulators of [restore_domain_log]. *)
Record RestoreState := mkRestoreState {
  rs_total : N;
  rs_metadata : list AdmittedOperation;
  rs_ids : gset bytes
}.

(** The checks of one logged operation before its change is applied. *)
Definition check_logged (logical : LogicalDocument) (validate : DomainOp -> Change -> AutoCommit -> bool -> result ReplError unit)
    (s : RestoreState) (d : EncryptedDoc) (op : SignedOp) : result ReplError (DomainOp * Change) :=
  _ ← check_doc d (so_doc_type op) (so_doc_id op);
  let encoded_len := len (op_encode op) in
  let total := sat_add usize_max (rs_total s) encoded_len in
  _ ← refuse_if ((MAX_SIGNED_EPOCH_OP_BYTES <? encoded_len) || (MAX_EPOCH_BYTES <? total)) EpochBound;
  _ ← refuse_if (negb (op_verify op)) BadSignature;
  parsed ← parsed_domain_op op;
  domain ← ok_or parsed Malformed;
  _ ← refuse_if (bool_decide (op_doc_type domain <> doc_type logical)
                 || bool_decide (op_logical_key domain <> logical_key logical)) EpochScope;
  change ← map_err (fun _ => Malformed) (change_from_bytes (so_delta op));
  _ ← refuse_if (bool_decide (ch_actor change <> so_author_device op)) EpochAuthority;
  _ ← refuse_if (bool_decide (DomainOp_id domain (so_author_device op) ∈ rs_ids s)
                 || bool_decide (signed_op_hash op ∈ ed_applied d)
                 || bool_decide (is_Some (am_get_change_by_hash (ed_doc d) (ch_hash change)))
                 || (bool_decide (ed_checkpoint d <> None) && is_empty (ch_deps change))
                 || existsb (fun h => bool_decide (am_get_change_by_hash (ed_doc d) h = None)) (ch_deps change)) Malformed;
  let current_view := bool_decide (am_get_heads (ed_doc d) = sort_unstable (ch_deps change)) in
  _ ← validate domain change (ed_doc d) current_view;
  Ok (domain, change).

Fixpoint restore_log_loop (logical : LogicalDocument) (validate : DomainOp -> Change -> AutoCommit -> bool -> result ReplError unit)
    (operations : list SignedOp) (s : RestoreState) (d : EncryptedDoc)
    : result ReplError (list AdmittedOperation) * EncryptedDoc :=
  match operations with
  | [] => (Ok (rs_metadata s), d)
  | op :: rest =>
      match check_logged logical validate s d op with
      | Err e => (Err e, d)
      | Ok (domain, change) =>
          let '(outcome, doc) := am_apply_changes [change] (ed_doc d) in
          let d := set_doc doc d in
          match (_ ← am_error outcome; has_domain_marker d (DomainOp_id domain (so_author_device op))) with
          | Err e => (Err e, d)
          | Ok false => (Err Malformed, d)
          | Ok true =>
              restore_log_loop logical validate rest
                (mkRestoreState (sat_add usize_max (rs_total s) (len (op_encode op)))
                   (rs_metadata s ++ [admitted_operation op domain])
                   ({[DomainOp_id domain (so_author_device op)]} ∪ rs_ids s))
                (doc_record op d).2
          end
      end
  end.

Definition restore_domain_log (logical : LogicalDocument) (operations : list SignedOp)
    (validate : DomainOp -> Change -> AutoCommit -> bool -> result ReplError unit) (d : EncryptedDoc)
    : result ReplError (list AdmittedOperation) * EncryptedDoc :=
  if negb (is_empty (ed_log d)) || (MAX_EPOCH_OPERATIONS <? len operations) then (Err EpochBound, d)
  else restore_log_loop logical validate operations (mkRestoreState 0 [] ∅) d.

(** ** The checkpoint seed and projections *)

Definition checkpoint_bytes (d : EncryptedDoc) : result ReplError (option bytes) :=
  match ed_checkpoint d with
  | None => Ok None
  | Some origin => change ← ok_or (am_get_change_by_hash (ed_doc d) (cp_seed_hash origin)) Malformed; Ok (Some (ch_raw change))
  end.

(** [apply_changes([Change::from_bytes(raw)..])] *)
Definition apply_raw_change (raw : bytes) (projection : AutoCommit) : result ReplError AutoCommit :=
  change ← map_err (fun _ => Malformed) (change_from_bytes raw);
  apply_seed change projection.

Fixpoint apply_closure (operations : list SignedOp) (projection : AutoCommit) : result ReplError AutoCommit :=
  match operations with
  | [] => Ok projection
  | op :: rest => projection ← apply_raw_change (so_delta op) projection; apply_closure rest projection
  end.

Definition projection_for_closure (d : EncryptedDoc) (operations : list SignedOp) : result ReplError AutoCommit :=
  let projection := am_new (replicate 32 x00) in
  seed ← checkpoint_bytes d;
  projection ← match seed with Some raw => apply_raw_change raw projection | None => Ok projection end;
  apply_closure operations projection.
End gated.

(** * What a staged operation satisfies *)

Section staging.
Context {C : Crypto} {A : Aead} {M : Automerge}.

(** The metadata a logged operation stands for. *)
Definition admitted_of (op : SignedOp) : AdmittedOperation :=
  match parsed_domain_op op with
  | Ok (Some domain_op) => admitted_operation op domain_op
  | _ => mkAdmittedOperation (signed_op_hash op) [] (so_author_device op) (len (op_encode op))
  end.

Lemma admitted_of_parsed op domain_op :
  parsed_domain_op op = Ok (Some domain_op) -> admitted_of op = admitted_operation op domain_op.
Proof. intros H. unfold admitted_of. by rewrite H. Qed.

Lemma admitted_of_hash op : op_hash (admitted_of op) = signed_op_hash op.
Proof. unfold admitted_of. by repeat case_match. Qed.

(** A domain operation in the scope of the document. *)
Definition domain_logged (logical : LogicalDocument) (d : EncryptedDoc) (op : SignedOp) : Prop :=
  exists domain_op, parsed_domain_op op = Ok (Some domain_op) /\ op_doc_type domain_op = ed_doc_type d /\
    op_logical_key domain_op = logical_key logical.

Lemma op_typed_admitted `{!CryptoLaws C} op domain_op :
  from_public_key_bytes (so_author_pubkey op) = so_author_device op -> op_typed (admitted_operation op domain_op).
Proof.
  intros E. split_and!; cbn; [apply blake3_length|apply hash_parts_length|]. rewrite <- E. apply blake3_length.
Qed.

Lemma parsed_signed dev t id delta domain_op op :
  length (op_nonce domain_op) = 16%nat -> sign_domain dev t id delta domain_op = Ok op ->
  parsed_domain_op op = Ok (Some domain_op) /\ so_author_device op = device_id dev /\ so_doc_type op = t /\
  so_doc_id op = id /\ so_delta op = delta /\ so_author_pubkey op = public_key_bytes dev /\
  check_domain_delta delta t = Ok tt.
Proof.
  intros Hn H. unfold sign_domain in H. apply refuse_if_bind_ok in H as [_ H]. apply bind_ok in H as ([] & Hc & H).
  apply bind_ok in H as (e & He & H). apply bind_ok in H as (s & _ & [= <-]). split_and!; try done.
  unfold parsed_domain_op. cbn. by rewrite (proj2 (DomainOp_decode_spec e domain_op)).
Qed.

Lemma stage_edit_inv logical gate dev g dop edit v p d staged change op :
  length (op_nonce dop) = 16%nat ->
  stage_edit logical gate dev g dop edit v p d = Ok (staged, change, op) ->
  parsed_domain_op op = Ok (Some dop) /\ so_author_device op = device_id dev /\
  op_doc_type dop = ed_doc_type d /\ op_logical_key dop = logical_key logical /\
  sign_domain dev (ed_doc_type d) (ed_doc_id d) (ch_raw change) dop = Ok op /\ ch_actor change = device_id dev /\
  mls_member_signature_key (cg_mls g) (device_id dev) = Some (public_key_bytes dev) /\
  p staged = Ok tt /\ v dop change = Ok tt /\
  exists put, am_put_one (domain_marker_key (DomainOp_id dop (device_id dev))) (edit (ed_doc d)).2 = Ok put /\
    staged = am_commit put.
Proof.
  intros Hn H. unfold stage_edit in H. apply refuse_if_bind_ok in H as [Hs H]. bool_simpl.
  apply bind_ok in H as ([] & _ & H). apply bind_ok in H as ([] & _ & H). apply refuse_if_bind_ok in H as [Hm H].
  apply bind_ok in H as (mk & _ & H). apply refuse_if_bind_ok in H as [_ H].
  destruct (edit (ed_doc d)) as [outcome st]. apply bind_ok in H as (u & _ & H). apply bind_ok in H as (put & Hput & H).
  cbv zeta in H. apply bind_ok in H as (ch & _ & H). apply bind_ok in H as ([] & Hv & H).
  apply refuse_if_bind_ok in H as [Ha H]. apply bind_ok in H as ([] & Hp & H). apply bind_ok in H as (o & Ho & [= <- <- <-]).
  bool_simpl. destruct (parsed_signed _ _ _ _ _ _ Hn Ho) as (P1 & P2 & _). split_and!; try done.
  exists put. split; [|done]. cbn. unfold am_error in Hput. by destruct (am_put_one _ _); simplify_eq/=.
Qed.

Lemma stage_inbound_inv logical op v p d staged dop :
  stage_inbound logical op v p d = Ok (staged, dop) ->
  op_verify op = true /\ parsed_domain_op op = Ok (Some dop) /\ len (op_encode op) <= MAX_SIGNED_EPOCH_OP_BYTES /\
  domain_logged logical d op /\ p staged = Ok tt /\
  (exists change, change_from_bytes (so_delta op) = Ok change /\ ch_actor change = so_author_device op) /\
  am_marker staged (domain_marker_key (DomainOp_id dop (so_author_device op))) = Ok true /\
  am_load_incremental (so_delta op) (ed_doc d) = (Ok tt, staged) /\
  (ed_checkpoint d <> None -> forall change, change_from_bytes (so_delta op) = Ok change ->
     ch_deps change <> [] /\ forall h, h ∈ ch_deps change -> is_Some (am_get_change_by_hash (ed_doc d) h)).
Proof.
  intros H. unfold stage_inbound in H. apply refuse_if_bind_ok in H as [Hv H]. apply refuse_if_bind_ok in H as [Hl H].
  apply bind_ok in H as (parsed & Hp & H). apply bind_ok in H as (dd & Hd & H). apply refuse_if_bind_ok in H as [Hs H].
  apply bind_ok in H as (ch & Hc & H). apply refuse_if_bind_ok in H as [Ha H]. apply refuse_if_bind_ok in H as [Hk H].
  apply bind_ok in H as ([] & Hval & H). destruct (am_load_incremental (so_delta op) (ed_doc d)) as [outcome st] eqn:El.
  apply bind_ok in H as ([] & Ho & H). apply bind_ok in H as (mk & Hmk & H). apply refuse_if_bind_ok in H as [Hm1 H].
  apply bind_ok in H as ([] & Hpre & [= <- <-]). bool_simpl. unfold am_error in *.
  destruct parsed as [dp|]; [|done]. injection Hd as ->.
  destruct (change_from_bytes (so_delta op)) as [c|] eqn:Ec; [|done]. injection Hc as ->.
  destruct outcome as [[]|]; [|done]. destruct (am_marker _ _) as [m|] eqn:Em; [|done]. injection Hmk as ->.
  split_and!; try done.
  - by exists dd.
  - by exists ch.
  - by destruct mk.
  - intros Hck change [= <-]. destruct Hk as [Hk|Hk]; [by rewrite bool_decide_eq_true_2 in Hk|]. apply orb_false_iff in Hk as [K1 K2].
    split; [by intros E; rewrite E in K1|]. intros h Hh. destruct (am_get_change_by_hash _ h) eqn:E; [done|exfalso].
    rewrite <- not_true_iff_false, existsb_exists in K2. apply K2. exists h. split; [by apply list_elem_of_In|].
    by apply bool_decide_eq_true_2.
Qed.
End staging.

(** * Gate and document together *)

Section agreement.
Context {C : Crypto} {A : Aead} {M : Automerge} {CL : CryptoLaws C} {L : AutomergeLaws M}.

(** The document's log as the gate counts it, newest first. *)
Definition doc_admitted (d : EncryptedDoc) : list AdmittedOperation := reverse (admitted_of <$> ed_log d).

Record gated_ok (logical : LogicalDocument) (g : EpochGate) (d : EncryptedDoc) : Prop := mkGatedOk {
  gk_gate : gate_ok g;
  gk_document : document_inv d;
  gk_domain : Forall (domain_logged logical d) (ed_log d);
  gk_agree : doc_admitted d ≡ₚ om_values (gi_operations (g_inner g))
}.

Lemma admitted_values_get (m : bmap bytes AdmittedOperation) op :
  om_wf m -> Forall (fun kv => operation_ok kv.1 kv.2) m -> op ∈ om_values m -> om_get (op_hash op) m = Some op.
Proof using.
  intros Hw HF H. unfold om_values in H. apply list_elem_of_fmap in H as ([h o] & -> & H). cbn.
  rewrite Forall_forall in HF. destruct (HF _ H) as (E & _). cbn in E. subst h. by apply om_get_elem.
Qed.

(** The gate and the document know the same operations. *)
Lemma gated_known logical g d op :
  gated_ok logical g d -> om_get (signed_op_hash op) (gi_operations (g_inner g)) = None -> signed_op_hash op ∉ ed_applied d.
Proof using.
  intros [[] [[] _] _ Hp] Hn Hin. rewrite di_applied in Hin. apply elem_of_list_to_set, list_elem_of_fmap in Hin as (o & Eo & Ho).
  assert (Hv : admitted_of o ∈ om_values (gi_operations (g_inner g))).
  { rewrite <- Hp. unfold doc_admitted. apply elem_of_reverse, list_elem_of_fmap. by exists o. }
  apply admitted_values_get in Hv; [|apply go_accounted..]. rewrite admitted_of_hash, <- Eo in Hv. congruence.
Qed.

Lemma commit_staged_log staged op d :
  (signed_op_hash op ∉ ed_applied d) -> ed_log (commit_staged staged op d) = ed_log d ++ [op].
Proof using. intros H. unfold commit_staged, doc_record. cbn. by rewrite bool_decide_eq_false_2. Qed.

Lemma commit_staged_frame staged op d :
  ed_doc_type (commit_staged staged op d) = ed_doc_type d /\ ed_doc_id (commit_staged staged op d) = ed_doc_id d /\
  ed_checkpoint (commit_staged staged op d) = ed_checkpoint d /\ ed_doc (commit_staged staged op d) = staged.
Proof using. unfold commit_staged, doc_record. by case_bool_decide. Qed.

Lemma doc_admitted_snoc d d' op : ed_log d' = ed_log d ++ [op] -> doc_admitted d' = admitted_of op :: doc_admitted d.
Proof using. intros H. unfold doc_admitted. by rewrite H, fmap_app, reverse_app. Qed.

(** Admitting an operation with its commit is a step of the abstract log. *)
Lemma admit_simulates logical g d (r : result ReplError (Admission * EpochGate)) op dop staged a g' d' :
  gated_ok logical g d -> parsed_domain_op op = Ok (Some dop) ->
  (r = Ok (Accepted, g') -> om_get (signed_op_hash op) (gi_operations (g_inner g)) = None) ->
  commit_accepted (commit_staged staged op) d <$> r = Ok (a, g', d') ->
  commit_accepted (cons (admitted_operation op dop)) (doc_admitted d) <$> r = Ok (a, g', doc_admitted d').
Proof using.
  intros Hg Hp Hfresh H. apply commit_accepted_ok in H as [-> ->]. cbn. unfold commit_accepted. cbn.
  case_bool_decide as E; [|done]. subst a. rewrite (doc_admitted_snoc d (commit_staged staged op d) op); [by rewrite (admitted_of_parsed _ _ Hp)|].
  by eapply commit_staged_log, gated_known; [|apply Hfresh].
Qed.

(** Committing a valid operation keeps the document's invariant. *)
Lemma commit_staged_inv logical staged op d :
  document_inv d -> Forall (domain_logged logical d) (ed_log d) -> extends (doc_graph d) (am_get_change_by_hash staged) ->
  logged_ok d op -> domain_logged logical d op ->
  document_inv (commit_staged staged op d) /\
  Forall (domain_logged logical (commit_staged staged op d)) (ed_log (commit_staged staged op d)).
Proof using L.
  intros Hd HF Hx Ho Hl. split; [apply doc_record_inv; [by apply set_doc_inv|done]|].
  assert (Hlog : Forall (domain_logged logical (commit_staged staged op d)) (ed_log d)).
  { eapply Forall_impl; [exact HF|]. intros o. unfold domain_logged. by rewrite (proj1 (commit_staged_frame staged op d)). }
  unfold commit_staged, doc_record in *. cbn in *. case_bool_decide; [done|]. cbn in *.
  apply Forall_app. by split; [|constructor].
Qed.

(** Nothing but the two admissions touches the accepted operations. *)
Inductive gated_step (logical : LogicalDocument) : EpochGate * EncryptedDoc -> EpochGate * EncryptedDoc -> Prop :=
| gt_edit dev grp rng dop edit v p g d r g' d' rng' :
    honest_device dev -> length (op_nonce dop) = 16%nat -> doc_extends (ed_doc d) (edit (ed_doc d)).2 ->
    edit_domain_preflight_gated logical dev grp rng dop edit v p g d = (r, g', d', rng') ->
    gated_step logical (g, d) (g', d')
| gt_ingest sealed grp v p g d r g' d' :
    ingest_domain_preflight_gated logical sealed grp v p g d = (r, g', d') ->
    gated_step logical (g, d) (g', d')
| gt_gate g g' d :
    gate_step g g' -> gi_operations (g_inner g') = gi_operations (g_inner g) -> gated_step logical (g, d) (g', d)
| gt_snapshot g d : gated_step logical (g, d) (g, (doc_snapshot d).2)
| gt_authors g d : gated_step logical (g, d) (g, index_authors d)
| gt_restart actor bs g d d' :
    (doc_snapshot d).1 = Ok bs -> restore_for_actor bs actor = Ok d' -> gated_step logical (g, d) (g, d').

(** What the two gated operations do: nothing at all, an admission that leaves
    the document alone, or the accepted operation, staged and committed. *)
Inductive admits (logical : LogicalDocument) (g : EpochGate) (d : EncryptedDoc)
    : option Admission -> EpochGate -> EncryptedDoc -> Prop :=
| ad_nothing a : a <> Some Accepted -> admits logical g d a g d
| ad_commit op dop staged a g' d' :
    signed_op_ok op -> logged_ok d op -> domain_logged logical d op -> parsed_domain_op op = Ok (Some dop) ->
    extends (doc_graph d) (am_get_change_by_hash staged) ->
    admit_local_and_commit g (admitted_operation op dop) (commit_staged staged op) d = Ok (a, g', d') \/
    admit_inbound_and_commit g (admitted_operation op dop) (commit_staged staged op) d = Ok (a, g', d') ->
    admits logical g d (Some a) g' d'.

Lemma edit_admits logical dev grp rng dop edit v p g d r g' d' rng' :
  honest_device dev -> length (op_nonce dop) = 16%nat -> doc_extends (ed_doc d) (edit (ed_doc d)).2 ->
  ed_doc_id d <= u128_max -> gate_ok g ->
  edit_domain_preflight_gated logical dev grp rng dop edit v p g d = (r, g', d', rng') ->
  exists a, admits logical g d a g' d' /\ (is_ok r = true <-> a = Some Accepted) /\ (is_ok r = false -> g' = g /\ d' = d).
Proof using L.
  intros Hdev Hn Hx Hid Hgate H. unfold edit_domain_preflight_gated in H.
  destruct (stage_edit _ _ _ _ _ _ _ _ _) as [[[staged change] op]|e] eqn:Es; [|simplify_eq; exists None; by split; [constructor|]].
  destruct (op_seal op grp rng) as [[sealed|e] rng1]; [|simplify_eq; exists None; by split; [constructor|]].
  destruct (admit_local_and_commit _ _ _ _) as [[[a g1] d1]|e] eqn:Ea; [|simplify_eq; exists None; by split; [constructor|]].
  injection H as <- <- <- <-. apply stage_edit_inv in Es as (P1 & P2 & P3 & P4 & P5 & P6 & _ & _ & _ & put & Hput & ->); [|done].
  destruct (parsed_signed _ _ _ _ _ _ Hn P5) as (_ & _ & Q1 & Q2 & Q3 & Q4 & Hcd).
  assert (Hlen : len (ch_raw change) <= u32_max).
  { unfold check_domain_delta in Hcd. apply refuse_if_bind_ok in Hcd as [Hl _]. bool_simpl. unfold MAX_SIGNED_EPOCH_OP_BYTES, u32_max in *. lia. }
  destruct (sign_domain_ok dev _ _ _ _ _ Hdev (conj Hid Hlen) Hn P5) as (R1 & R2 & _).
  exists (Some a). split; [|split; [by case_bool_decide as E; cbn; split; congruence|]]; last first.
  { intros Hr. apply commit_accepted_ok in Ea as [Ea ->]. by apply admit_local_ok in Ea as [[-> ->]|(-> & _)]. }
  eapply (ad_commit _ _ _ op dop (am_commit put)); try done.
  - exists dop. by split_and!.
  - etransitivity; [exact Hx|]. etransitivity; [by eapply am_put_one_extends|apply am_commit_extends].
  - by left.
Qed.

Lemma apply_admits logical op v p g d r g' d' :
  gate_ok g -> signed_op_ok op -> apply_domain_gated logical op v p g d = (r, g', d') ->
  exists a, admits logical g d a g' d' /\ (r = Ok Accepted <-> a = Some Accepted) /\ (is_ok r = false -> g' = g /\ d' = d).
Proof using L.
  intros Hgate Hok H. unfold apply_domain_gated in H.
  destruct (_ ← check_doc d _ _; _) as [u|e] eqn:Eg; [|simplify_eq; exists None; by split; [constructor|]].
  apply bind_ok in Eg as (u' & [Ht Hi]%check_doc_ok & _).
  case_bool_decide as Hin; [simplify_eq; exists None; by split; [constructor|]|].
  destruct (stage_inbound _ _ _ _ _) as [[staged dop]|e] eqn:Es; [|simplify_eq; exists None; by split; [constructor|]].
  apply stage_inbound_inv in Es as (Hv & Hp & _ & Hl & _ & _ & _ & Hload & _).
  destruct (admit_inbound_and_commit _ _ _ _) as [[[a g1] d1]|e] eqn:Ea; [|simplify_eq; exists None; by split; [constructor|]].
  exists (Some a). assert (Hr : (r = Ok Accepted <-> a = Accepted) /\ g' = g1 /\ d' = d1 /\ (is_ok r = false -> a = Duplicate)).
  { destruct a; [..|]; simplify_eq; try done. split_and!; try done. split; [|done].
    destruct (has_domain_marker _ _) as [[]|]; done. }
  destruct Hr as (Hr & -> & -> & He). split_and!.
  - apply (ad_commit _ _ _ op dop staged); try done; [|by right].
    pose proof (am_load_incremental_extends (so_delta op) (ed_doc d)) as Hx. by rewrite Hload in Hx.
  - rewrite Hr. split; congruence.
  - intros ->%He. apply commit_accepted_ok in Ea as [Ea ->]. split; [|done].
    by apply admit_inbound_ok in Ea as [[-> _]|[(? & _)|(? & _)]].
Qed.

Lemma open_inbound_inv logical gate sealed grp d op :
  open_inbound logical gate sealed grp d = Ok op ->
  signed_op_ok op /\ ((signed_op_hash op ∉ ed_applied d) ->
    mls_member_signature_key (cg_mls grp) (so_author_device op) = Some (so_author_pubkey op)).
Proof using.
  intros H. unfold open_inbound in H. apply bind_ok in H as (? & _ & H). apply refuse_if_bind_ok in H as [_ H].
  apply bind_ok in H as (? & _ & H). apply bind_ok in H as (? & _ & H). apply refuse_if_bind_ok in H as [_ H].
  apply bind_ok in H as (key & _ & H). apply bind_ok in H as (o & Ho & H). apply refuse_if_bind_ok in H as [Hm [= <-]].
  split; [by eapply opened_ok|]. intros Hin. apply andb_false_iff in Hm as [Hm|Hm]; apply bool_decide_eq_false in Hm; [done|].
  by apply dec_stable in Hm.
Qed.

(** An operation of the log opens again, whatever has become of its author. *)
Lemma open_inbound_again logical g g' sealed grp grp' d d' op :
  open_inbound logical g sealed grp d = Ok op ->
  (g_document g', g_doc_id g', g_epoch g') = (g_document g, g_doc_id g, g_epoch g) ->
  (ed_doc_type d', ed_doc_id d', ed_checkpoint d') = (ed_doc_type d, ed_doc_id d, ed_checkpoint d) ->
  (mg_group_id (cg_mls grp'), mg_epoch (cg_mls grp'), cg_export grp') = (mg_group_id (cg_mls grp), mg_epoch (cg_mls grp), cg_export grp) ->
  signed_op_hash op ∈ ed_applied d' -> open_inbound logical g' sealed grp' d' = Ok op.
Proof using.
  intros H [= G1 G2 G3] [= D1 D2 D3] [= M1 M2 M3] Hin.
  unfold open_inbound, check_doc, verify_scope, verify_checkpoint_scope, channel_secret in *.
  rewrite G1, G2, G3, D1, D2, D3, M1, M2, M3.
  apply bind_ok in H as (u1 & H1 & H). rewrite H1, bind_Ok. apply bind_ok in H as (u2 & H2 & H). rewrite H2, bind_Ok.
  apply bind_ok in H as (u3 & H3 & H). rewrite H3, bind_Ok. apply bind_ok in H as (u4 & H4 & H). rewrite H4, bind_Ok.
  apply bind_ok in H as (u5 & H5 & H). rewrite H5, bind_Ok. apply bind_ok in H as (key & H6 & H). rewrite H6, bind_Ok.
  apply bind_ok in H as (o & H7 & H). rewrite H7, bind_Ok. apply refuse_if_bind_ok in H as [_ [= ->]].
  rewrite refuse_if_bind_false; [done|]. apply andb_false_iff. left. apply bool_decide_eq_false_2. by intros ?.
Qed.

Lemma ingest_admits logical sealed grp v p g d r g' d' :
  gate_ok g -> ingest_domain_preflight_gated logical sealed grp v p g d = (r, g', d') ->
  exists a, admits logical g d a g' d' /\ (r = Ok Accepted <-> a = Some Accepted) /\ (is_ok r = false -> g' = g /\ d' = d).
Proof using L.
  intros Hg H. unfold ingest_domain_preflight_gated in H.
  destruct (open_inbound _ _ _ _ _) as [op|e] eqn:Eo; [|simplify_eq; exists None; by split; [constructor|]].
  apply open_inbound_inv in Eo as [Hok _]. by eapply apply_admits.
Qed.

(** The operation an accepted delivery committed. *)
Lemma ingest_accepted logical sealed grp v p g d g' d' :
  gate_ok g -> ingest_domain_preflight_gated logical sealed grp v p g d = (Ok Accepted, g', d') ->
  exists op dop staged, open_inbound logical g sealed grp d = Ok op /\ stage_inbound logical op v p d = Ok (staged, dop) /\
    (signed_op_hash op ∉ ed_applied d) /\ so_doc_type op = ed_doc_type d /\ so_doc_id op = ed_doc_id d /\
    verify_scope g logical (ed_doc_id d) = Ok tt /\
    g' = with_inner g (charge_op (admitted_operation op dop) (g_inner g)) /\ d' = commit_staged staged op d.
Proof using.
  intros Hg H. unfold ingest_domain_preflight_gated in H. destruct (open_inbound _ _ _ _ _) as [op|e] eqn:Eo; [|done].
  unfold apply_domain_gated in H. destruct (_ ← check_doc d _ _; _) as [u|e] eqn:Eg; [|done].
  apply bind_ok in Eg as (u' & [Ht Hi]%check_doc_ok & Hs). case_bool_decide as Hin; [done|].
  destruct (stage_inbound _ _ _ _ _) as [[staged dop]|e] eqn:Es; [|done].
  destruct (admit_inbound_and_commit _ _ _ _) as [[[a g1] d1]|e] eqn:Ea; [|done].
  assert (Ha : a = Accepted /\ g1 = g' /\ d1 = d').
  { destruct a; simplify_eq; try done. by destruct (has_domain_marker _ _) as [[]|]. }
  destruct Ha as (-> & -> & ->). apply commit_accepted_ok in Ea as [Ea ->].
  apply admit_inbound_ok in Ea as [[_ ?]|[(_ & _ & _ & -> & _)|(? & _)]]; [done| |done|done].
  exists op, dop, staged. by destruct u.
Qed.

(** Only an open gate accepts, and only an accepted operation reaches the document. *)
Lemma admits_open logical g d a g' d' :
  gate_ok g -> admits logical g d a g' d' ->
  (a = Some Accepted -> gi_phase (g_inner g) = Open) /\
  (a <> Some Accepted -> d' = d /\ gi_operations (g_inner g') = gi_operations (g_inner g)).
Proof using.
  intros Hg H. destruct H as [a Ha|op dop staged a g' d' _ _ _ _ _ [H|H]]; [done|..];
    apply commit_accepted_ok in H as [H ->].
  - apply admit_local_ok in H as [[-> ->]|(-> & ? & _)]; done.
  - apply admit_inbound_ok in H as [[-> Ha]|[(-> & ? & _)|(-> & _ & _ & _ & _ & ->)]]; try done.
    rewrite bool_decide_eq_false_2 by done. split; [congruence|done].
Qed.

(** Every outcome is a step of the abstract log, or none, and keeps the invariant. *)
Lemma admits_simulates logical g d a g' d' :
  gated_ok logical g d -> admits logical g d a g' d' ->
  rtc log_step (g, doc_admitted d) (g', doc_admitted d') /\ gated_ok logical g' d'.
Proof using CL L.
  intros Hg H. destruct H as [a _|op dop staged a g' d' Hok Hlog Hdom Hp Hx Had]; [done|].
  assert (Htyped : op_typed (admitted_operation op dop)) by (apply op_typed_admitted; symmetry; apply Hok).
  assert (Hs : log_step (g, doc_admitted d) (g', doc_admitted d')).
  { destruct Had as [Had|Had]; [eapply ls_local|eapply ls_inbound]; try exact Htyped; eapply admit_simulates; try done; intros E.
    - apply admit_local_ok in E as [[_ ?]|(_ & _ & Hf & _)]; [done|apply Hf|apply Hg].
    - apply admit_inbound_ok in E as [[_ ?]|[(_ & _ & Hf & _)|(? & _)]]; [done|apply Hf|done|apply Hg]. }
  split; [by apply rtc_once|]. pose proof Hg as [H1 H2 H3 H4]. destruct (log_step_agrees _ _ _ _ Hs H1 H4) as [G1 G2].
  assert (Hd' : d' = d \/ d' = commit_staged staged op d).
  { destruct Had as [Had|Had]; apply commit_accepted_ok in Had as [_ ->]; case_bool_decide; auto. }
  destruct Hd' as [->| ->]; [by split|]. destruct (commit_staged_inv logical staged op d) as [D1 D2]; [done..|]. by split.
Qed.

(** A step that keeps log and type of the document is invisible to the gate. *)
Lemma gated_same_log logical g d d' :
  gated_ok logical g d -> document_inv d' -> ed_log d' = ed_log d -> ed_doc_type d' = ed_doc_type d ->
  rtc log_step (g, doc_admitted d) (g, doc_admitted d') /\ gated_ok logical g d'.
Proof using.
  intros [] Hd El Et. assert (E : doc_admitted d' = doc_admitted d) by (unfold doc_admitted; by rewrite El).
  rewrite E. split; [done|]. split; try done; [|by rewrite E]. rewrite El. unfold domain_logged. by rewrite Et.
Qed.

Lemma doc_snapshot_frame d : ed_log (doc_snapshot d).2 = ed_log d /\ ed_doc_type (doc_snapshot d).2 = ed_doc_type d.
Proof using. unfold doc_snapshot. destruct (match ed_snapshot_cache d with Some _ => _ | None => None end); [done|]. by case_match. Qed.

Lemma gated_step_simulates logical g d g' d' :
  gated_ok logical g d -> gated_step logical (g, d) (g', d') ->
  rtc log_step (g, doc_admitted d) (g', doc_admitted d') /\ gated_ok logical g' d'.
Proof using CL L.
  intros Hg Hs. pose proof (gk_document _ _ _ Hg) as Hd.
  inversion Hs as [dev grp rng dop edit v p g0 d0 r g1 d1 rng' Hdev Hn Hx H|sealed grp v p g0 d0 r g1 d1 H|g0 g1 d0 H Hops|g0 d0|g0 d0
    |actor bs g0 d0 d1 Hb Hr]; subst.
  - destruct (edit_admits _ _ _ _ _ _ _ _ _ _ _ _ _ _ Hdev Hn Hx ltac:(apply Hd) ltac:(apply Hg) H) as (a & Ha & _). by eapply admits_simulates.
  - destruct (ingest_admits _ _ _ _ _ _ _ _ _ _ ltac:(apply Hg) H) as (a & Ha & _). by eapply admits_simulates.
  - assert (Hl : log_step (g, doc_admitted d') (g', doc_admitted d')) by (by apply ls_other).
    destruct (log_step_agrees _ _ _ _ Hl ltac:(apply Hg) ltac:(apply Hg)) as [G1 G2].
    split; [by apply rtc_once|]. destruct Hg. by split.
  - apply gated_same_log; [done|by apply doc_snapshot_inv|apply doc_snapshot_frame..].
  - by apply gated_same_log; [|apply index_authors_inv|..].
  - destruct (doc_snapshot_restores d bs actor Hd Hb) as (d1 & Hr' & D1 & D2 & _). rewrite Hr in Hr'. injection Hr' as <-.
    unfold persisted in D2. injection D2 as E1 E2 E3 E4 E5. by apply gated_same_log.
Qed.

Lemma gated_run_simulates logical x y :
  rtc (gated_step logical) x y -> gated_ok logical x.1 x.2 ->
  rtc log_step (x.1, doc_admitted x.2) (y.1, doc_admitted y.2) /\ gated_ok logical y.1 y.2.
Proof using CL L.
  induction 1 as [|[g1 d1] [g2 d2] z Hs _ IH]; intros Hg; [done|].
  destruct (gated_step_simulates _ _ _ _ _ Hg Hs) as [H1 H2]. destruct (IH H2) as [H3 H4]. split; [by etransitivity|done].
Qed.

End agreement.

(** * The rebuilt log *)

Section rebuilding.
Context {C : Crypto} {A : Aead} {M : Automerge} {L : AutomergeLaws M}.

(** What the loop has established of the operations it took. *)
Record restored_ok (logical : LogicalDocument) (d0 d : EncryptedDoc) (ops : list SignedOp) (s : RestoreState) : Prop := mkRestoredOk {
  ro_inv : document_inv d;
  ro_log : ed_log d = ops;
  ro_frame : (ed_doc_type d, ed_doc_id d, ed_checkpoint d) = (ed_doc_type d0, ed_doc_id d0, ed_checkpoint d0);
  ro_domain : Forall (domain_logged logical d) ops;
  ro_metadata : rs_metadata s = admitted_of <$> ops;
  ro_ids : rs_ids s = list_to_set (domain_op_id <$> rs_metadata s);
  ro_distinct : NoDup (domain_op_id <$> rs_metadata s);
  ro_total : rs_total s = sum_of (fun op => len (op_encode op)) ops;
  ro_bytes : rs_total s <= MAX_EPOCH_BYTES;
  ro_each : Forall (fun op => len (op_encode op) <= MAX_SIGNED_EPOCH_OP_BYTES) ops;
  ro_changes : Forall (fun op => exists change, change_from_bytes (so_delta op) = Ok change /\
    ch_actor change = so_author_device op /\ forall h, h ∈ ch_deps change -> is_Some (doc_graph d h)) ops
}.

Lemma check_logged_inv logical v s d op dop change :
  check_logged logical v s d op = Ok (dop, change) ->
  so_doc_type op = ed_doc_type d /\ so_doc_id op = ed_doc_id d /\ op_verify op = true /\
  parsed_domain_op op = Ok (Some dop) /\ op_doc_type dop = doc_type logical /\
  op_logical_key dop = logical_key logical /\ change_from_bytes (so_delta op) = Ok change /\
  ch_actor change = so_author_device op /\ (DomainOp_id dop (so_author_device op) ∉ rs_ids s) /\
  (signed_op_hash op ∉ ed_applied d) /\ (forall h, h ∈ ch_deps change -> is_Some (doc_graph d h)) /\
  len (op_encode op) <= MAX_SIGNED_EPOCH_OP_BYTES /\ sat_add usize_max (rs_total s) (len (op_encode op)) <= MAX_EPOCH_BYTES.
Proof using.
  intros H. unfold check_logged in H. apply bind_ok in H as (? & [H1 H2]%check_doc_ok & H). cbv zeta in H.
  apply refuse_if_bind_ok in H as [Hb H]. apply refuse_if_bind_ok in H as [Hv H]. apply bind_ok in H as (parsed & Hp & H).
  apply bind_ok in H as (dd & Hd & H). apply refuse_if_bind_ok in H as [Hs H]. apply bind_ok in H as (ch & Hc & H).
  apply refuse_if_bind_ok in H as [Ha H]. apply refuse_if_bind_ok in H as [Hm H]. apply bind_ok in H as (? & _ & [= <- <-]).
  destruct parsed as [dp|]; [|done]. injection Hd as ->.
  destruct (change_from_bytes (so_delta op)) as [c|] eqn:Ec; [|done]. injection Hc as ->.
  repeat (apply orb_false_iff in Hm as [Hm ?]). bool_simpl. split_and!; try done.
  intros h Hh. unfold doc_graph. destruct (am_get_change_by_hash _ h) eqn:E; [done|exfalso].
  match goal with K : existsb _ _ = false |- _ => rewrite <- not_true_iff_false, existsb_exists in K; apply K end.
  exists h. split; [by apply list_elem_of_In|]. by apply bool_decide_eq_true_2.
Qed.

Lemma restored_snoc logical v s d0 d ops op dop change doc u :
  restored_ok logical d0 d ops s -> signed_op_ok op -> ed_doc_type d0 = doc_type logical ->
  check_logged logical v s d op = Ok (dop, change) -> am_apply_changes [change] (ed_doc d) = (Ok u, doc) ->
  restored_ok logical d0 (doc_record op (set_doc doc d)).2 (ops ++ [op])
    (mkRestoreState (sat_add usize_max (rs_total s) (len (op_encode op))) (rs_metadata s ++ [admitted_operation op dop])
       ({[DomainOp_id dop (so_author_device op)]} ∪ rs_ids s)).
Proof using L.
  intros [] Hok Ht Hc Hap. apply check_logged_inv in Hc as (C1 & C2 & C3 & C4 & C5 & C6 & C7 & C8 & C9 & C10 & C11 & C12 & C13).
  pose proof (am_apply_extends [change] (ed_doc d)) as Hx. rewrite Hap in Hx. cbn in Hx.
  injection ro_frame0 as F1 F2 F3.
  destruct (commit_staged_inv logical doc op d) as [D1 D2]; [done|by rewrite ro_log0|done|by split_and!|exists dop; split_and!; congruence|].
  pose proof (commit_staged_log doc op d C10) as El. unfold commit_staged in *.
  destruct (commit_staged_frame doc op d) as (E1 & E2 & E3 & E4). unfold commit_staged in *.
  assert (Hkeep : forall o : SignedOp, (exists c, change_from_bytes (so_delta o) = Ok c /\ ch_actor c = so_author_device o /\
    forall h, h ∈ ch_deps c -> is_Some (doc_graph d h)) -> exists c, change_from_bytes (so_delta o) = Ok c /\
    ch_actor c = so_author_device o /\ forall h, h ∈ ch_deps c -> is_Some (doc_graph (doc_record op (set_doc doc d)).2 h)).
  { intros o (c & K1 & K2 & K3). exists c. split_and!; [done..|]. intros h Hh. destruct (K3 h Hh) as [y Hy].
    unfold doc_graph. rewrite E4. exists y. by apply Hx. }
  constructor; cbn [rs_total rs_metadata rs_ids].
  - done.
  - by rewrite El, ro_log0.
  - by rewrite E1, E2, E3, F1, F2, F3.
  - rewrite <- ro_log0, <- El. done.
  - rewrite fmap_app, ro_metadata0. cbn. by rewrite (admitted_of_parsed _ _ C4).
  - rewrite fmap_app, list_to_set_app_L, ro_ids0. cbn. set_solver.
  - rewrite fmap_app. apply NoDup_app. split_and!; [done| |apply NoDup_singleton].
    intros x Hx' ->%list_elem_of_singleton. apply C9. rewrite ro_ids0. by apply elem_of_list_to_set.
  - rewrite sum_of_app, <- ro_total0. cbn. unfold sat_add, usize_max, u64_max, MAX_EPOCH_BYTES in *. lia.
  - done.
  - apply Forall_app. by split; [|constructor].
  - apply Forall_app. split; [eapply Forall_impl; [exact ro_changes0|exact Hkeep]|].
    constructor; [|done]. apply Hkeep. exists change. by split_and!.
Qed.

Lemma restore_log_loop_ok logical v rest : forall s d0 d ops metadata d',
  restored_ok logical d0 d ops s -> Forall signed_op_ok rest -> ed_doc_type d0 = doc_type logical ->
  restore_log_loop logical v rest s d = (Ok metadata, d') ->
  exists s', restored_ok logical d0 d' (ops ++ rest) s' /\ metadata = rs_metadata s'.
Proof using L.
  induction rest as [|op rest IH]; intros s d0 d ops metadata d' Hr HF Ht H; cbn [restore_log_loop] in H.
  - injection H as <- <-. rewrite app_nil_r. by exists s.
  - inversion HF; subst. destruct (check_logged _ _ _ _ _) as [[dop change]|e] eqn:Ec; [|done].
    destruct (am_apply_changes [change] (ed_doc d)) as [[u|e] doc] eqn:Ea; [|done]. cbn [am_error map_err] in H. rewrite bind_Ok in H.
    destruct (has_domain_marker _ _) as [[]|]; [|done..].
    rewrite (cons_middle op), app_assoc. eapply IH; [|done..|exact H]. by eapply restored_snoc.
Qed.
End rebuilding.

(** * Properties *)

(** C1: the gated document refines the abstract epoch log. Whatever the
    interleaving of local domain edits, inbound operations, receipts, faults,
    settlement, owner changes, snapshots and restarts, the pair of gate and
    document simulates the abstract log the gate was specified with: the
    document's signed log is, operation by operation, what the gate admitted,
    each once. So the document never holds more than 20,000 operations or 4 MiB
    of them, and every one is a verified domain operation of its scope. *)
Theorem gated_document_refines {C : Crypto} {A : Aead} {M : Automerge} {CL : CryptoLaws C} {L : AutomergeLaws M}
    logical epoch owner d0 g d :
  document_ok logical -> epoch <= u64_max -> length owner = 32%nat -> document_inv d0 -> ed_log d0 = [] ->
  rtc (gated_step logical) (EpochGate_new logical (ed_doc_id d0) epoch owner, d0) (g, d) ->
  rtc log_step (EpochGate_new logical (ed_doc_id d0) epoch owner, []) (g, doc_admitted d) /\
  (admitted_of <$> ed_log d) ≡ₚ om_values (gi_operations (g_inner g)) /\
  len (ed_log d) <= MAX_EPOCH_OPERATIONS /\ sum_of (fun op => len (op_encode op)) (ed_log d) <= MAX_EPOCH_BYTES /\
  Forall (fun op => op_verify op = true /\ domain_logged logical d op) (ed_log d).
Proof.
  intros Hl He Ho Hd0 Hlog Hr. assert (E0 : doc_admitted d0 = []) by (unfold doc_admitted; by rewrite Hlog).
  assert (Hg0 : gated_ok logical (EpochGate_new logical (ed_doc_id d0) epoch owner) d0).
  { split; [apply gate_new_ok; try done; apply Hd0|done|by rewrite Hlog|by rewrite E0]. }
  destruct (gated_run_simulates _ _ _ Hr Hg0) as [Hs [Hg Hd HF Hp]]. cbn in *. rewrite E0 in Hs.
  assert (Hp' : (admitted_of <$> ed_log d) ≡ₚ om_values (gi_operations (g_inner g))).
  { rewrite <- Hp. unfold doc_admitted. by rewrite reverse_Permutation. }
  assert (Hsum : sum_of (fun op => len (op_encode op)) (ed_log d) = ops_bytes (gi_operations (g_inner g))).
  { unfold ops_bytes. transitivity (sum_of encoded_len (om_values (gi_operations (g_inner g)))).
    - rewrite <- (sum_of_perm _ _ _ Hp'). clear. induction (ed_log d) as [|o l IH]; [done|]. cbn. rewrite IH. f_equal.
      unfold admitted_of. by repeat case_match.
    - unfold om_values. clear. induction (gi_operations (g_inner g)) as [|o l IH]; [done|]. cbn. by rewrite IH. }
  destruct Hg. split_and!; try done.
  - pose proof (ac_count _ go_accounted) as Hc. apply Permutation_length in Hp'. unfold om_values in Hp'. rewrite !length_fmap in Hp'.
    unfold len in *. lia.
  - rewrite Hsum, <- (ac_total _ go_accounted). by apply ac_bytes.
  - apply Forall_forall. intros op Hop. rewrite Forall_forall in HF. split; [|by apply HF].
    destruct Hd as [[] _]. rewrite Forall_forall in di_log. by destruct (di_log op Hop) as (_ & _ & _ & ?).
Qed.

(** C16: gated operations are atomic. A local edit or an inbound operation that
    fails leaves gate and document exactly as they were; one that is not
    accepted (a duplicate, or an operation quarantined behind a seal) never
    touches the document or the accepted set; and once the gate has left
    [Open], no edit succeeds and nothing inbound is accepted, so an edit that
    loses the race with a seal stays out of the document whole. *)
Theorem gated_operations_atomic {C : Crypto} {A : Aead} {M : Automerge} {L : AutomergeLaws M} logical g d :
  gate_ok g -> document_inv d ->
  (forall dev grp rng dop edit v p r g' d' rng',
     honest_device dev -> length (op_nonce dop) = 16%nat -> doc_extends (ed_doc d) (edit (ed_doc d)).2 ->
     edit_domain_preflight_gated logical dev grp rng dop edit v p g d = (r, g', d', rng') ->
     (is_ok r = false -> g' = g /\ d' = d) /\ (gi_phase (g_inner g) <> Open -> is_ok r = false)) /\
  (forall sealed grp v p r g' d',
     ingest_domain_preflight_gated logical sealed grp v p g d = (r, g', d') ->
     (is_ok r = false -> g' = g /\ d' = d) /\
     (r <> Ok Accepted -> d' = d /\ gi_operations (g_inner g') = gi_operations (g_inner g)) /\
     (gi_phase (g_inner g) <> Open -> r <> Ok Accepted)).
Proof.
  intros Hg Hd. split.
  - intros dev grp rng dop edit v p r g' d' rng' Hdev Hn Hx H.
    destruct (edit_admits _ _ _ _ _ _ _ _ _ _ _ _ _ _ Hdev Hn Hx ltac:(apply Hd) Hg H) as (a & Ha & Hr & He).
    split; [done|]. intros Hph. destruct (is_ok r); [|done]. destruct Hph. apply (admits_open _ _ _ _ _ _ Hg Ha). by apply Hr.
  - intros sealed grp v p r g' d' H. destruct (ingest_admits _ _ _ _ _ _ _ _ _ _ Hg H) as (a & Ha & Hr & He).
    destruct (admits_open _ _ _ _ _ _ Hg Ha) as [O1 O2]. split_and!; [done| |].
    + intros Hn. apply O2. by intros ->%Hr.
    + intros Hph Ho. by apply Hph, O1, Hr.
Qed.

(** What an accepted inbound operation is, and that it is accepted once.
    It verifies under the key its author holds as a current member of the
    group, is a domain operation of this logical document whose change that
    very author wrote, has set its marker in the document, and enters the
    document's log and the gate's accounting together; the same ciphertext
    delivered again, even after its author has left the group, is a duplicate
    that changes nothing. *)
Theorem gated_ingest_accepts {C : Crypto} {A : Aead} {M : Automerge} {L : AutomergeLaws M} logical sealed grp v p g d g' d' :
  gated_ok logical g d -> ingest_domain_preflight_gated logical sealed grp v p g d = (Ok Accepted, g', d') ->
  exists op dop, ed_log d' = ed_log d ++ [op] /\ op_verify op = true /\
    mls_member_signature_key (cg_mls grp) (so_author_device op) = Some (so_author_pubkey op) /\
    parsed_domain_op op = Ok (Some dop) /\ domain_logged logical d' op /\
    (exists change, change_from_bytes (so_delta op) = Ok change /\ ch_actor change = so_author_device op) /\
    has_domain_marker d' (DomainOp_id dop (so_author_device op)) = Ok true /\
    om_get (signed_op_hash op) (gi_operations (g_inner g')) = Some (admitted_of op) /\
    forall members active v' p',
      let later := mkChannelGroup (mkMlsGroup (mg_group_id (cg_mls grp)) (mg_epoch (cg_mls grp)) members active) (cg_export grp) in
      ingest_domain_preflight_gated logical sealed later v' p' g' d' = (Ok Duplicate, g', d').
Proof.
  intros Hg H. pose proof (gk_gate _ _ _ Hg) as Hgate.
  destruct (ingest_accepted _ _ _ _ _ _ _ _ _ Hgate H) as (op & dop & staged & Ho & Hs & Hin & Ht & Hi & Hsc & -> & ->).
  destruct (open_inbound_inv _ _ _ _ _ _ Ho) as [_ Hmem].
  destruct (stage_inbound_inv _ _ _ _ _ _ _ Hs) as (Hv & Hp & _ & Hl & _ & Hch & Hmk & _).
  pose proof (commit_staged_log staged op d Hin) as El. destruct (commit_staged_frame staged op d) as (E1 & E2 & E3 & E4).
  exists op, dop. split_and!; try done.
  - by apply Hmem.
  - destruct Hl as (dd & L1 & L2 & L3). exists dd. by rewrite E1.
  - unfold has_domain_marker, am_error. by rewrite E4, Hmk.
  - cbn. rewrite om_get_insert_eq. by rewrite (admitted_of_parsed _ _ Hp).
  - intros members active v' p'. cbv zeta.
    assert (Happ : signed_op_hash op ∈ ed_applied (commit_staged staged op d)).
    { unfold commit_staged, doc_record. cbn. rewrite bool_decide_eq_false_2 by done. cbn. set_solver. }
    unfold ingest_domain_preflight_gated.
    rewrite (open_inbound_again logical g _ sealed grp _ d _ op Ho); [|done|by rewrite E1, E2, E3|done|done].
    unfold apply_domain_gated, check_doc, verify_scope in *. rewrite E1, E2, Ht, Hi, N.eqb_refl.
    rewrite (bool_decide_eq_false_2 (ed_doc_type d <> ed_doc_type d)) by (by intros []). cbn [negb orb refuse_if]. rewrite bind_Ok. cbn [with_inner g_document g_doc_id].
    rewrite Hsc. by rewrite (bool_decide_eq_true_2 (signed_op_hash op ∈ _)).
Qed.

(** C17: a rebuilt document is exactly its authenticated log. If the vault's
    operations restore, the document's log is those operations in order, all of
    this document, verified, with distinct domain identifiers, within the epoch
    and per-operation budgets, each change written by its signer with every
    dependency present; the metadata handed back is theirs. A saved gate that
    holds this metadata agrees with the rebuilt document, so the pair may go on. *)
Theorem restored_log_sound {C : Crypto} {A : Aead} {M : Automerge} {L : AutomergeLaws M} logical v d0 ops metadata d :
  document_inv d0 -> Forall signed_op_ok ops -> ed_doc_type d0 = doc_type logical ->
  restore_domain_log logical ops v d0 = (Ok metadata, d) ->
  ed_log d = ops /\ metadata = admitted_of <$> ops /\ NoDup (domain_op_id <$> metadata) /\
  len ops <= MAX_EPOCH_OPERATIONS /\ sum_of (fun op => len (op_encode op)) ops <= MAX_EPOCH_BYTES /\
  Forall (fun op => op_verify op = true /\ len (op_encode op) <= MAX_SIGNED_EPOCH_OP_BYTES /\
    exists change, change_from_bytes (so_delta op) = Ok change /\ ch_actor change = so_author_device op /\
      forall h, h ∈ ch_deps change -> is_Some (doc_graph d h)) ops /\
  document_inv d /\
  forall g, gate_ok g -> metadata ≡ₚ om_values (gi_operations (g_inner g)) -> gated_ok logical g d.
Proof.
  intros Hd HF Ht H. unfold restore_domain_log in H.
  destruct (negb (is_empty (ed_log d0)) || _) eqn:Eb; [done|]. bool_simpl.
  assert (Hlog : ed_log d0 = []) by (by destruct (ed_log d0)).
  destruct (restore_log_loop_ok logical v ops (mkRestoreState 0 [] ∅) d0 d0 [] metadata d) as (s & [] & ->); try done.
  { constructor; cbn; try done; apply NoDup_nil_2. }
  cbn [app] in *. split_and!; try done.
  - rewrite <- ro_total0. done.
  - apply Forall_forall. intros op Hop. rewrite Forall_forall in ro_each0, ro_changes0.
    destruct ro_inv0 as [[] _]. rewrite ro_log0, Forall_forall in di_log.
    split_and!; [by destruct (di_log op Hop) as (_ & _ & _ & ?)|by apply ro_each0|by apply ro_changes0].
  - intros g Hg Hp. split; try done; [by rewrite ro_log0|]. unfold doc_admitted. by rewrite reverse_Permutation, ro_log0, <- ro_metadata0.
Qed.

(** * Witnesses *)

Definition toy_logical : LogicalDocument := mkLogicalDocument (mg_group_id (cg_mls toy_channel_group)) DocRegistry [x02].
Definition toy_domain : DomainOp := mkDomainOp (replicate 16 x05) DocRegistry [x02] [x09].
Definition toy_author : bytes := device_id (C:=toy_crypto) (toy_device 7).
Definition toy_marker : bytes := domain_marker_key (DomainOp_id (C:=toy_crypto) toy_domain toy_author).
Definition toy_gated_change : Change :=
  mkChange (be_bytes 32 6) [] toy_author toy_seed_bytes 1 1 0 None [] 1 [toy_marker].
Definition parse_gated (bs : bytes) : result bytes Change :=
  if bool_decide (bs = toy_seed_bytes) then Ok toy_gated_change else Err [].
Definition gated_automerge : Automerge := parsing_automerge parse_gated.
Definition toy_gated_id : N := epoch_zero_id (C:=toy_crypto) DocRegistry [x02].
Definition toy_members : ChannelGroup :=
  mkChannelGroup (mkMlsGroup (mg_group_id (cg_mls toy_channel_group)) 3
    [mkMember 0 (public_key_bytes (toy_device 7)) []] true) (cg_export toy_channel_group).

Definition toy_gated_doc0 : EncryptedDoc (M:=gated_automerge) := doc_new (M:=gated_automerge) DocRegistry toy_gated_id [].
Definition toy_gated_gate0 : EpochGate := EpochGate_new toy_logical toy_gated_id 0 toy_author.

Definition toy_edit (d : list bytes) : result bytes unit * list bytes := (Ok tt, d ++ [toy_seed_bytes]).
Definition toy_edited := edit_domain_preflight_gated (C:=toy_crypto) (M:=gated_automerge) toy_logical (toy_device 7) toy_members
  toy_rng toy_domain toy_edit (fun _ _ => Ok tt) (fun _ => Ok tt) toy_gated_gate0 toy_gated_doc0.
Definition toy_gated_gate1 : EpochGate := toy_edited.1.1.2.
Definition toy_gated_doc1 : EncryptedDoc (M:=gated_automerge) := toy_edited.1.2.

Lemma toy_edit_extends (d : list bytes) : doc_extends (M:=gated_automerge) d (toy_edit d).2.
Proof. apply built_extends. Qed.

Lemma toy_edited_eq : toy_edited = (toy_edited.1.1.1, toy_gated_gate1, toy_gated_doc1, toy_edited.2).
Proof. unfold toy_gated_gate1, toy_gated_doc1. by destruct toy_edited as [[[]]]. Qed.

Lemma toy_gated_run :
  rtc (gated_step (C:=toy_crypto) (M:=gated_automerge) toy_logical) (toy_gated_gate0, toy_gated_doc0) (toy_gated_gate1, toy_gated_doc1).
Proof.
  apply rtc_once. refine (gt_edit (C:=toy_crypto) (M:=gated_automerge) _ (toy_device 7) toy_members toy_rng toy_domain toy_edit
    (fun _ _ => Ok tt) (fun _ => Ok tt) _ _ _ _ _ _ (toy_device_honest 7) eq_refl (toy_edit_extends _) toy_edited_eq).
Qed.

Lemma toy_gated_doc0_inv : document_inv (C:=toy_crypto) (M:=gated_automerge) toy_gated_doc0.
Proof. apply (doc_new_inv (C:=toy_crypto) (M:=gated_automerge)). by vm_compute. Qed.

Lemma toy_logical_ok : document_ok toy_logical.
Proof. by vm_compute. Qed.

Lemma toy_author_len : length toy_author = 32%nat.
Proof. vm_compute. reflexivity. Qed.

Lemma toy_gated_count : len (ed_log toy_gated_doc1) = 1.
Proof. vm_compute. reflexivity. Qed.

Lemma gated_document_refines_witness :
  (admitted_of (C:=toy_crypto) <$> ed_log toy_gated_doc1) ≡ₚ om_values (gi_operations (g_inner toy_gated_gate1)) /\
  len (ed_log toy_gated_doc1) = 1.
Proof.
  split; [|exact toy_gated_count].
  exact (proj1 (proj2 (gated_document_refines (C:=toy_crypto) (M:=gated_automerge) (L:=parsing_automerge_laws parse_gated)
    toy_logical 0 toy_author toy_gated_doc0 toy_gated_gate1 toy_gated_doc1 toy_logical_ok ltac:(discriminate) toy_author_len
    toy_gated_doc0_inv eq_refl toy_gated_run))).
Defined.

Lemma toy_gated_gate0_ok : gate_ok toy_gated_gate0.
Proof. apply gate_new_ok; [exact toy_logical_ok|by vm_compute|by vm_compute|exact toy_author_len]. Qed.

Lemma toy_gated_ok : gated_ok (C:=toy_crypto) (M:=gated_automerge) toy_logical toy_gated_gate0 toy_gated_doc0.
Proof. split; [exact toy_gated_gate0_ok|exact toy_gated_doc0_inv|constructor|reflexivity]. Qed.

(** A seal that wins the race: the same edit against a closing gate. *)
Definition toy_closing_gate : EpochGate :=
  with_inner toy_gated_gate0 (set_phase Closing (Some (be_bytes 32 1)) (g_inner toy_gated_gate0)).

Lemma toy_closing_ok : gate_ok toy_closing_gate.
Proof. apply gate_ok_phase; [exact toy_gated_gate0_ok|by vm_compute|reflexivity]. Qed.

Lemma gated_operations_atomic_witness :
  let outcome := edit_domain_preflight_gated (C:=toy_crypto) (M:=gated_automerge) toy_logical (toy_device 7) toy_members
    toy_rng toy_domain toy_edit (fun _ _ => Ok tt) (fun _ => Ok tt) toy_closing_gate toy_gated_doc0 in
  is_ok outcome.1.1.1 = false.
Proof.
  destruct (gated_operations_atomic (C:=toy_crypto) (M:=gated_automerge) (L:=parsing_automerge_laws parse_gated) toy_logical
    toy_closing_gate toy_gated_doc0 toy_closing_ok toy_gated_doc0_inv) as [H _].
  cbv zeta. destruct (edit_domain_preflight_gated _ _ _ _ _ _ _ _ _ _) as [[[r g'] d'] rng'] eqn:E.
  refine (proj2 (H _ _ _ toy_domain _ _ _ _ _ _ _ (toy_device_honest 7) eq_refl (toy_edit_extends _) E) _). discriminate.
Defined.

Definition toy_gated_sealed : SealedOp :=
  match toy_edited.1.1.1 with Ok s => s.1 | Err _ => mkSealedOp Channel 0 0 (mkSealedBlob [] []) end.
Definition toy_received := ingest_domain_preflight_gated (C:=toy_crypto) (M:=gated_automerge) toy_logical toy_gated_sealed toy_members
  (fun _ _ => Ok tt) (fun _ => Ok tt) toy_gated_gate0 toy_gated_doc0.

Lemma pair_eta_l {X Y} (p : X * Y) x : p.1 = x -> p = (x, p.2).
Proof. destruct p. by intros <-. Qed.

Lemma toy_received_ok :
  ingest_domain_preflight_gated (C:=toy_crypto) (M:=gated_automerge) toy_logical toy_gated_sealed toy_members
    (fun _ _ => Ok tt) (fun _ => Ok tt) toy_gated_gate0 toy_gated_doc0 = (Ok Accepted, toy_received.1.2, toy_received.2).
Proof. fold toy_received. apply pair_eta_l, pair_eta_l. vm_compute. reflexivity. Qed.

Lemma gated_ingest_accepts_witness : exists op, ed_log toy_received.2 = ed_log toy_gated_doc0 ++ [op].
Proof.
  destruct (gated_ingest_accepts (C:=toy_crypto) (M:=gated_automerge) (L:=parsing_automerge_laws parse_gated) toy_logical
    toy_gated_sealed toy_members (fun _ _ => Ok tt) (fun _ => Ok tt) toy_gated_gate0 toy_gated_doc0 toy_received.1.2 toy_received.2 toy_gated_ok toy_received_ok)
    as (op & _ & H & _).
  exists op. exact H.
Defined.

Definition toy_rebuilt := restore_domain_log (C:=toy_crypto) (M:=gated_automerge) toy_logical (ed_log toy_gated_doc1)
  (fun _ _ _ _ => Ok tt) toy_gated_doc0.
Definition toy_metadata : list AdmittedOperation := match toy_rebuilt.1 with Ok m => m | Err _ => [] end.

Lemma toy_rebuilt_ok :
  restore_domain_log (C:=toy_crypto) (M:=gated_automerge) toy_logical (ed_log toy_gated_doc1) (fun _ _ _ _ => Ok tt) toy_gated_doc0
  = (Ok toy_metadata, toy_rebuilt.2).
Proof. fold toy_rebuilt. apply pair_eta_l. vm_compute. reflexivity. Qed.

Lemma toy_gated_log_ok : Forall (signed_op_ok (C:=toy_crypto)) (ed_log toy_gated_doc1).
Proof.
  destruct (gated_run_simulates (C:=toy_crypto) (M:=gated_automerge) (L:=parsing_automerge_laws parse_gated) _ _ _ toy_gated_run
    toy_gated_ok) as [_ [_ [[] _] _ _]]. eapply Forall_impl; [exact di_log|]. by intros op (_ & _ & ? & _).
Qed.

Lemma restored_log_sound_witness : ed_log toy_rebuilt.2 = ed_log toy_gated_doc1.
Proof.
  exact (proj1 (restored_log_sound (C:=toy_crypto) (M:=gated_automerge) (L:=parsing_automerge_laws parse_gated) toy_logical
    (fun _ _ _ _ => Ok tt) toy_gated_doc0 (ed_log toy_gated_doc1) toy_metadata toy_rebuilt.2 toy_gated_doc0_inv toy_gated_log_ok
    eq_refl toy_rebuilt_ok)).
Defined.
