(* ===== verification/CloseCheck.v ===== *)
(** Validation of a close against the document it closes
    ([CloseRecord::verify_and_validate] and [ClosureStats] of
    [crates/catcoms-replication/src/epoch.rs]): authority, the dependency-closed
    operation set, its accounting, and the lower bound a close must reach. *)

From S2P Require Import Prelude OrdMap Wire Context Pad Crypto Codec EpochBase Intent Authority Membership SignedOp Automerge Catchup Receipt Checkpoint Document Paging Closure Close Gate GatedDoc.
From stdpp Require Import base list gmap relations.
From Stdlib Require Import Init.Byte.
Local Open Scope N_scope.

Record ClosureStats := mkClosureStats {
  kl_operations : list SignedOp;
  kl_operation_count : N;
  kl_encoded_bytes : N;
  kl_by_device : bmap bytes (N * N)
}.

(** The accumulators of the accounting loop. *)
Record Tally := mkTally {
  ta_bytes : N;
  ta_by_device : bmap bytes (N * N);
  ta_ids : gset bytes
}.

Section validation.
Context {C : Crypto} {A : Aead} {M : Automerge}.

(** The checks of one operation of the closure, up to its length. *)
Definition check_closed_op (c : CloseRecord) (logical : LogicalDocument) (ids : gset bytes) (op : SignedOp)
    : result ReplError bytes :=
  _ ← refuse_if (bool_decide (so_doc_type op <> cr_doc_type c) || negb (so_doc_id op =? cr_doc_id c) || negb (op_verify op))
        EpochAuthority;
  change ← am_error (change_from_bytes (so_delta op));
  _ ← refuse_if (bool_decide (ch_actor change <> so_author_device op)) EpochAuthority;
  parsed ← parsed_domain_op op;
  domain ← ok_or parsed Malformed;
  _ ← refuse_if (bool_decide (op_doc_type domain <> cr_doc_type c)
                 || bool_decide (op_logical_key domain <> logical_key logical)) EpochScope;
  let id := DomainOp_id domain (so_author_device op) in
  _ ← refuse_if (bool_decide (id ∈ ids)) Malformed;
  _ ← refuse_if (MAX_SIGNED_EPOCH_OP_BYTES <? len (op_encode op)) EpochBound;
  Ok id.

Fixpoint tally_ops (c : CloseRecord) (logical : LogicalDocument) (ops : list SignedOp) (t : Tally) : result ReplError Tally :=
  match ops with
  | [] => Ok t
  | op :: rest =>
      id ← check_closed_op c logical (ta_ids t) op;
      let size := len (op_encode op) in
      total ← ok_or (checked_add usize_max (ta_bytes t) size) EpochBound;
      let entry := default (0, 0) (om_get (so_author_device op) (ta_by_device t)) in
      bytes ← ok_or (checked_add usize_max entry.2 size) EpochBound;
      tally_ops c logical rest
        (mkTally total (om_insert (so_author_device op) (entry.1 + 1, bytes) (ta_by_device t)) ({[id]} ∪ ta_ids t))
  end.

(** [CloseRecord::verify_and_validate] *)
Definition verify_and_validate (c : CloseRecord) (logical : LogicalDocument) (expected_doc_id : N) (group : ServerGroup)
    (historical_receipt : option VerifiedReceipt) (d : EncryptedDoc) (unsigned_seed : option bytes)
    : result ReplError ClosureStats :=
  _ ← CloseRecord_verify_for c logical expected_doc_id group historical_receipt;
  _ ← refuse_if (bool_decide (cr_server_id c <> server_id logical)
                 || bool_decide (cr_doc_type c <> doc_type logical)
                 || bool_decide (ed_doc_type d <> cr_doc_type c)
                 || negb (ed_doc_id d =? cr_doc_id c)
                 || negb (match ed_checkpoint d with Some origin => cp_epoch origin | None => 0 end =? cr_closed_epoch c))
        EpochScope;
  operations ← signed_ops_for_heads d (cr_heads c) unsigned_seed;
  t ← tally_ops c logical operations (mkTally 0 [] ∅);
  _ ← refuse_if ((MAX_EPOCH_OPERATIONS <? len operations) || (MAX_EPOCH_BYTES <? ta_bytes t)) EpochBound;
  owner ← ok_or (designated_committer group) EpochAuthority;
  _ ← refuse_if (negb (close_lower_bound_reached (len operations) (ta_bytes t) (ta_by_device t) owner)) EpochBound;
  Ok (mkClosureStats operations (len operations) (ta_bytes t) (ta_by_device t)).

(** [ClosureStats::domain_operation_ids], collected in iteration order. *)
Fixpoint operation_ids (ops : list SignedOp) : result ReplError (list bytes) :=
  match ops with
  | [] => Ok []
  | op :: rest =>
      parsed ← parsed_domain_op op;
      domain ← ok_or parsed Malformed;
      ids ← operation_ids rest;
      Ok (DomainOp_id domain (so_author_device op) :: ids)
  end.

Definition domain_operation_ids (s : ClosureStats) : result ReplError (gset bytes) :=
  ids ← operation_ids (kl_operations s); Ok (list_to_set ids).
End validation.

(** * The accounting *)

Section accounting.
Context {C : Crypto} {A : Aead} {M : Automerge}.

Definition op_size (op : SignedOp) : N := len (op_encode op).
Definition closed_id (op : SignedOp) : bytes := domain_op_id (admitted_of op).

(** The share of one author in a list of operations. *)
Definition share_count (dev : bytes) (ops : list SignedOp) : N :=
  sum_of (fun op => if bool_decide (so_author_device op = dev) then 1 else 0) ops.
Definition share_bytes (dev : bytes) (ops : list SignedOp) : N :=
  sum_of (fun op => if bool_decide (so_author_device op = dev) then op_size op else 0) ops.
Definition share (dev : bytes) (ops : list SignedOp) : option (N * N) :=
  if share_count dev ops =? 0 then None else Some (share_count dev ops, share_bytes dev ops).

(** An operation a close of this document may contain. *)
Record closable (c : CloseRecord) (logical : LogicalDocument) (op : SignedOp) : Prop := mkClosable {
  cl_type : so_doc_type op = cr_doc_type c;
  cl_id : so_doc_id op = cr_doc_id c;
  cl_verify : op_verify op = true;
  cl_actor : exists change, change_from_bytes (so_delta op) = Ok change /\ ch_actor change = so_author_device op;
  cl_domain : exists domain, parsed_domain_op op = Ok (Some domain) /\ op_doc_type domain = cr_doc_type c /\
                op_logical_key domain = logical_key logical;
  cl_size : op_size op <= MAX_SIGNED_EPOCH_OP_BYTES
}.

Lemma check_closed_op_spec c logical ids op id :
  check_closed_op c logical ids op = Ok id <-> closable c logical op /\ id = closed_id op /\ (id ∉ ids).
Proof.
  unfold check_closed_op, closed_id. split.
  - intros H. apply refuse_if_bind_ok in H as [H1 H]. apply bind_ok in H as (ch & Hch & H). apply refuse_if_bind_ok in H as [Ha H].
    apply bind_ok in H as (p & Hp & H). apply bind_ok in H as (dom & Hd & H). apply refuse_if_bind_ok in H as [Hs H]. cbv zeta in H.
    apply refuse_if_bind_ok in H as [Hin H]. apply refuse_if_bind_ok in H as [Hl [= <-]]. bool_simpl.
    destruct p as [dp|]; [|done]. injection Hd as ->. rewrite (admitted_of_parsed _ _ Hp). split_and!; try done.
    unfold am_error in Hch. destruct (change_from_bytes (so_delta op)) as [c'|] eqn:Ec; [|done]. injection Hch as ->.
    constructor; try done; [by exists ch|by exists dom].
  - intros ([H1 H2 H3 (ch & Hch & Ha) (dom & Hp & Ht & Hk) Hl] & -> & Hin). rewrite (admitted_of_parsed _ _ Hp) in *. cbn in *.
    rewrite H1, H2, H3, N.eqb_refl. rewrite refuse_if_bind_false by (by rewrite bool_decide_eq_false_2 by (by intros [])).
    rewrite Hch. cbn [am_error map_err]. rewrite bind_Ok, refuse_if_bind_false by (by rewrite bool_decide_eq_false_2 by (by intros [])).
    rewrite Hp, bind_Ok. cbn [ok_or]. rewrite bind_Ok. rewrite refuse_if_bind_false by (by rewrite !bool_decide_eq_false_2 by (by intros [])).
    cbv zeta. rewrite refuse_if_bind_false by (by rewrite bool_decide_eq_false_2).
    by rewrite refuse_if_bind_false by (by apply N.ltb_ge).
Qed.

Record tally_of (ops : list SignedOp) (t : Tally) : Prop := mkTallyOf {
  tl_bytes : ta_bytes t = sum_of op_size ops;
  tl_ids : ta_ids t = list_to_set (closed_id <$> ops);
  tl_wf : om_wf (ta_by_device t);
  tl_device dev : om_get dev (ta_by_device t) = share dev ops
}.

Lemma share_none dev ops : share_count dev ops = 0 -> share_bytes dev ops = 0.
Proof.
  unfold share_count, share_bytes. induction ops as [|op ops IH]; cbn; [done|]. destruct (bool_decide _); [lia|]. intros H. rewrite IH; lia.
Qed.

Lemma share_default dev ops : default (0, 0) (share dev ops) = (share_count dev ops, share_bytes dev ops).
Proof. unfold share. destruct (N.eqb_spec (share_count dev ops) 0) as [E|]; [|done]. cbn. by rewrite E, share_none. Qed.

Lemma share_le dev ops : share_bytes dev ops <= sum_of op_size ops.
Proof. unfold share_bytes. induction ops as [|op ops IH]; cbn; [done|]. destruct (bool_decide _); lia. Qed.

Lemma tally_nil : tally_of [] (mkTally 0 [] ∅).
Proof. constructor; [done..|apply om_wf_nil|done]. Qed.

Lemma tally_snoc ops op t :
  tally_of ops t ->
  tally_of (ops ++ [op]) (mkTally (ta_bytes t + op_size op)
    (om_insert (so_author_device op) (share_count (so_author_device op) ops + 1, share_bytes (so_author_device op) ops + op_size op)
       (ta_by_device t)) ({[closed_id op]} ∪ ta_ids t)).
Proof.
  intros []. constructor; cbn.
  - rewrite sum_of_app. cbn. lia.
  - rewrite fmap_app, list_to_set_app_L, tl_ids0. cbn. set_solver.
  - by apply om_wf_insert.
  - intros dev. unfold share, share_count, share_bytes. rewrite !sum_of_app. cbn. destruct (decide (so_author_device op = dev)) as [->|Hne].
    + rewrite om_get_insert_eq, bool_decide_eq_true_2 by done. rewrite !N.add_0_r.
      by rewrite (proj2 (N.eqb_neq _ _)) by lia.
    + rewrite om_get_insert_ne by congruence. rewrite bool_decide_eq_false_2 by done. rewrite !N.add_0_r. apply tl_device0.
Qed.

Lemma tally_step c logical op rest done t :
  tally_of done t -> closable c logical op -> (closed_id op ∉ closed_id <$> done) -> sum_of op_size (done ++ [op]) <= usize_max ->
  exists t', tally_of (done ++ [op]) t' /\ tally_ops c logical (op :: rest) t = tally_ops c logical rest t'.
Proof.
  intros Ht Hc Hid Hsum. eexists. split; [by apply tally_snoc|]. destruct Ht. rewrite sum_of_app in Hsum. cbn in Hsum.
  pose proof (share_le (so_author_device op) done) as Hsh. cbn [tally_ops].
  rewrite (proj2 (check_closed_op_spec c logical (ta_ids t) op (closed_id op))), bind_Ok; last first.
  { split_and!; [done..|]. rewrite tl_ids0. by rewrite elem_of_list_to_set. }
  cbv zeta. unfold checked_add. fold (op_size op). rewrite tl_device0, share_default. cbn [fst snd].
  rewrite !(proj2 (N.leb_le _ _)) by lia. cbn [ok_or]. by rewrite !bind_Ok.
Qed.

Lemma tally_ops_inv c logical rest : forall done t t',
  tally_of done t -> tally_ops c logical rest t = Ok t' ->
  tally_of (done ++ rest) t' /\ Forall (closable c logical) rest /\
  (NoDup (closed_id <$> done) -> NoDup (closed_id <$> done ++ rest)).
Proof.
  induction rest as [|op rest IH]; intros done t t' Ht H; cbn [tally_ops] in H.
  - injection H as <-. by rewrite app_nil_r.
  - apply bind_ok in H as (id & (Hc & -> & Hid)%check_closed_op_spec & H). cbv zeta in H.
    apply bind_ok in H as (total & Htot & H). apply bind_ok in H as (by_dev & Hdev & H). unfold checked_add in *.
    destruct (N.leb_spec (ta_bytes t + len (op_encode op)) usize_max) as [Hle|]; [|done]. injection Htot as <-.
    destruct (_ <=? usize_max) eqn:E2 in Hdev; [|done]. injection Hdev as <-.
    rewrite (tl_device _ _ Ht), share_default in H. cbn [fst snd] in H.
    pose proof (tally_snoc _ op _ Ht) as Ht'. destruct (IH _ _ _ Ht' H) as (T1 & T2 & T3).
    rewrite (cons_middle op), app_assoc. split_and!; [done|by constructor|]. intros Hn. apply T3.
    rewrite fmap_app. apply NoDup_app. split_and!; [done| |apply NoDup_singleton].
    intros x Hx ->%list_elem_of_singleton. apply Hid. rewrite (tl_ids _ _ Ht). by apply elem_of_list_to_set.
Qed.

Lemma tally_ops_total c logical rest : forall done t,
  tally_of done t -> Forall (closable c logical) rest -> NoDup (closed_id <$> done ++ rest) ->
  sum_of op_size (done ++ rest) <= usize_max -> exists t', tally_ops c logical rest t = Ok t'.
Proof.
  induction rest as [|op rest IH]; intros done t Ht HF Hn Hs; [by exists t|]. inversion HF; subst.
  rewrite (cons_middle op), app_assoc in Hn, Hs. destruct (tally_step c logical op rest done t) as (t1 & Ht1 & ->); try done.
  - rewrite fmap_app in Hn. apply NoDup_app in Hn as [Hn _]. rewrite fmap_app in Hn. apply NoDup_app in Hn as (_ & Hn & _).
    intros Hin. apply (Hn _ Hin). left.
  - rewrite sum_of_app in Hs. lia.
  - by eapply IH.
Qed.
End accounting.

(** * The gate's running totals *)

Section totals.
Context {C : Crypto} {A : Aead} {M : Automerge}.

Lemma gate_ids_nodup i : accounted i -> NoDup (domain_op_id <$> om_values (gi_operations i)).
Proof.
  intros [W _ _ _ HI _ _ _ _]. unfold om_values. rewrite <- list_fmap_compose. apply NoDup_fmap_2_strong.
  - intros [h op] [h' op'] H H' E. cbn in E. apply om_get_elem in H, H'; [|done..].
    assert (E1 : om_get (domain_op_id op) (gi_operation_ids i) = Some h) by (apply HI; by exists op).
    assert (E2 : om_get (domain_op_id op') (gi_operation_ids i) = Some h') by (apply HI; by exists op').
    rewrite E in E1. rewrite E1 in E2. injection E2 as ->. congruence.
  - apply (NoDup_fmap_1 fst). by apply om_keys_NoDup.
Qed.

Lemma sum_om_values {B} (f : B -> N) (m : bmap bytes B) : sum_of (fun kv => f kv.2) m = sum_of f (om_values m).
Proof. unfold om_values. induction m as [|kv m IH]; cbn; [done|]. by rewrite IH. Qed.

Lemma sum_admitted (f : AdmittedOperation -> N) (g : SignedOp -> N) ops :
  (forall op, f (admitted_of op) = g op) -> sum_of f (admitted_of <$> ops) = sum_of g ops.
Proof. intros E. induction ops as [|op ops IH]; cbn; [done|]. by rewrite E, IH. Qed.

Lemma admitted_of_author op : ao_author (admitted_of op) = so_author_device op.
Proof. unfold admitted_of. by repeat case_match. Qed.
Lemma admitted_of_size op : encoded_len (admitted_of op) = op_size op.
Proof. unfold admitted_of. by repeat case_match. Qed.

(** A list of operations the gate admitted, and nothing else. *)
Definition all_admitted (i : EpochGateInner) (ops : list SignedOp) : Prop :=
  (admitted_of <$> ops) ≡ₚ om_values (gi_operations i).

Lemma admitted_totals i ops :
  accounted i -> all_admitted i ops ->
  len ops = len (gi_operations i) /\ sum_of op_size ops = gi_total_bytes i /\ NoDup (closed_id <$> ops) /\
  (forall dev, share dev ops = om_get dev (gi_by_device i)) /\
  Forall (fun op => op_size op <= MAX_SIGNED_EPOCH_OP_BYTES) ops.
Proof.
  intros Ha Hp. unfold all_admitted in Hp. pose proof (gate_ids_nodup i Ha) as Hn.
  assert (Hsum : forall (f : AdmittedOperation -> N) (g : SignedOp -> N), (forall op, f (admitted_of op) = g op) ->
    sum_of g ops = sum_of (fun kv => f kv.2) (gi_operations i)).
  { intros f g E. rewrite (sum_om_values f), <- (sum_of_perm _ _ _ Hp). symmetry. by apply sum_admitted. }
  split_and!.
  - apply Permutation_length in Hp. unfold om_values in Hp. rewrite !length_fmap in Hp. unfold len. by rewrite Hp.
  - rewrite (ac_total _ Ha). unfold ops_bytes. apply Hsum, admitted_of_size.
  - assert (E : closed_id <$> ops = domain_op_id <$> (admitted_of <$> ops)) by (rewrite <- list_fmap_compose; reflexivity).
    by rewrite E, Hp.
  - intros dev. rewrite (ac_dev _ Ha). unfold share, dev_count, dev_bytes, share_count, share_bytes.
    rewrite (Hsum (fun o => if bool_decide (ao_author o = dev) then 1 else 0)) by (intros op; by rewrite admitted_of_author).
    by rewrite (Hsum (fun o => if bool_decide (ao_author o = dev) then encoded_len o else 0))
      by (intros op; by rewrite admitted_of_author, admitted_of_size).
  - apply Forall_forall. intros op Hop. rewrite <- admitted_of_size.
    assert (Hv : admitted_of op ∈ om_values (gi_operations i)) by (rewrite <- Hp; by apply list_elem_of_fmap_2).
    unfold om_values in Hv. apply list_elem_of_fmap in Hv as (kv & -> & Hkv). pose proof (ac_ops _ Ha) as HF.
    rewrite Forall_forall in HF. by destruct (HF _ Hkv) as (_ & _ & _ & _ & _ & ?).
Qed.

(** Every logged change is written by the device that signed it. *)
Definition changes_attributed (d : EncryptedDoc) : Prop :=
  Forall (fun op => exists change, change_from_bytes (so_delta op) = Ok change /\ ch_actor change = so_author_device op) (ed_log d).

(** The close is of this document's epoch. *)
Definition close_scope (c : CloseRecord) (logical : LogicalDocument) (d : EncryptedDoc) : Prop :=
  cr_server_id c = server_id logical /\ cr_doc_type c = doc_type logical /\ ed_doc_type d = cr_doc_type c /\
  ed_doc_id d = cr_doc_id c /\ match ed_checkpoint d with Some origin => cp_epoch origin | None => 0 end = cr_closed_epoch c.

Lemma gated_closable logical g d c :
  gated_ok logical g d -> changes_attributed d -> close_scope c logical d -> Forall (closable c logical) (ed_log d).
Proof.
  intros [Hg [[] _] HF Hp] Hc (_ & _ & S3 & S4 & _). apply Forall_forall. intros op Hop.
  assert (Hall : all_admitted (g_inner g) (ed_log d)) by (unfold all_admitted; rewrite <- Hp; unfold doc_admitted; by rewrite reverse_Permutation).
  destruct (admitted_totals _ _ (go_accounted _ Hg) Hall) as (_ & _ & _ & _ & Hsz). unfold changes_attributed in Hc.
  rewrite Forall_forall in Hc, HF, di_log, Hsz. destruct (di_log op Hop) as (L1 & L2 & _ & L4), (HF op Hop) as (dom & D1 & D2 & D3).
  constructor; [congruence|congruence|done|by apply Hc|exists dom; split_and!; congruence|by apply Hsz].
Qed.
Lemma same_content_sym d d' : same_content d d' -> same_content d' d.
Proof. intros (H1 & H2 & H3). by split_and!. Qed.

Lemma validate_same {L : AutomergeLaws M} c logical doc_id group historical d d' seed s :
  same_content d d' -> ed_doc_type d' = ed_doc_type d -> ed_doc_id d' = ed_doc_id d ->
  verify_and_validate c logical doc_id group historical d seed = Ok s ->
  verify_and_validate c logical doc_id group historical d' seed = Ok s.
Proof.
  intros Hsame Et Ei H. unfold verify_and_validate in *. apply bind_ok in H as ([] & Hv & H). apply bind_ok in H as ([] & Hs & H).
  apply bind_ok in H as (ops & Hops & H). rewrite Hv, bind_Ok, Et, Ei, <- (proj2 (proj2 Hsame)), Hs, bind_Ok.
  by rewrite (signed_ops_same _ _ _ _ _ Hsame Hops), bind_Ok.
Qed.

(** A validation whose operations tally, up to the lower bound. *)
Lemma validate_tallied c logical doc_id group historical d seed ops shares owner :
  CloseRecord_verify_for c logical doc_id group historical = Ok tt -> close_scope c logical d ->
  signed_ops_for_heads d (cr_heads c) seed = Ok ops -> Forall (closable c logical) ops -> NoDup (closed_id <$> ops) ->
  len ops <= MAX_EPOCH_OPERATIONS -> sum_of op_size ops <= MAX_EPOCH_BYTES ->
  om_wf shares -> (forall dev, om_get dev shares = share dev ops) -> designated_committer group = Some owner ->
  verify_and_validate c logical doc_id group historical d seed =
    if close_lower_bound_reached (len ops) (sum_of op_size ops) shares owner
    then Ok (mkClosureStats ops (len ops) (sum_of op_size ops) shares) else Err EpochBound.
Proof.
  intros Hv (S1 & S2 & S3 & S4 & S5) Hops HF Hn Hc Hb Hw Hsh Ho.
  destruct (tally_ops_total c logical ops [] (mkTally 0 [] ∅) tally_nil HF Hn) as [t Ht].
  { cbn [app]. unfold usize_max, u64_max, MAX_EPOCH_BYTES in *. lia. }
  destruct (tally_ops_inv c logical ops [] _ _ tally_nil Ht) as ([B1 _ B3 B4] & _). cbn [app] in *.
  assert (Edev : ta_by_device t = shares) by (apply om_ext; [done..|]; intros dev; by rewrite B4, Hsh).
  unfold verify_and_validate.
  rewrite Hv, bind_Ok, S1, S2, S3, S4, S5, S2, !N.eqb_refl, refuse_if_bind_false by (by rewrite !bool_decide_eq_false_2 by (by intros [])).
  rewrite Hops, bind_Ok, Ht, bind_Ok, Ho, B1, Edev. cbn [ok_or].
  rewrite refuse_if_bind_false by (apply orb_false_iff; split; apply N.ltb_ge; lia). rewrite bind_Ok.
  destruct (close_lower_bound_reached _ _ _ _); [|done]. by rewrite refuse_if_bind_false.
Qed.
End totals.

(** * Properties *)

(** What a validated close vouches for, exactly. A close validates with these
    statistics if and only if it verifies under its author's authority, is of
    this document's epoch, and its operations are the dependency closure of its
    heads, each one verified, in scope, written by its signer and no domain
    operation twice; the totals and per-author shares are exactly theirs, are
    within the epoch budgets, and reach the lower bound of a close. *)
Theorem close_stats_exact {C : Crypto} {A : Aead} {M : Automerge} c logical doc_id group historical d seed s :
  verify_and_validate c logical doc_id group historical d seed = Ok s <->
  CloseRecord_verify_for c logical doc_id group historical = Ok tt /\ close_scope c logical d /\
  signed_ops_for_heads d (cr_heads c) seed = Ok (kl_operations s) /\
  Forall (closable c logical) (kl_operations s) /\ NoDup (closed_id <$> kl_operations s) /\
  kl_operation_count s = len (kl_operations s) /\ kl_encoded_bytes s = sum_of op_size (kl_operations s) /\
  om_wf (kl_by_device s) /\ (forall dev, om_get dev (kl_by_device s) = share dev (kl_operations s)) /\
  kl_operation_count s <= MAX_EPOCH_OPERATIONS /\ kl_encoded_bytes s <= MAX_EPOCH_BYTES /\
  exists owner, designated_committer group = Some owner /\
    close_lower_bound_reached (kl_operation_count s) (kl_encoded_bytes s) (kl_by_device s) owner = true.
Proof.
  split.
  - intros H. unfold verify_and_validate in H. apply bind_ok in H as ([] & Hv & H). apply refuse_if_bind_ok in H as [Hs H].
    apply bind_ok in H as (ops & Hops & H). apply bind_ok in H as (t & Ht & H). apply refuse_if_bind_ok in H as [Hb H].
    apply bind_ok in H as (owner & Ho & H). apply refuse_if_bind_ok in H as [Hlow [= <-]]. bool_simpl.
    cbn [kl_operations kl_operation_count kl_encoded_bytes kl_by_device].
    destruct (tally_ops_inv c logical ops [] _ _ tally_nil Ht) as ([] & HF & Hn). cbn [app] in *.
    split_and!; try done.
    + by apply Hn, NoDup_nil_2.
    + exists owner. by destruct (designated_committer group); [injection Ho as ->|].
  - destruct s as [ops count total shares]. cbn [kl_operations kl_operation_count kl_encoded_bytes kl_by_device].
    intros (Hv & Hs & Hops & HF & Hn & -> & -> & Hw & Hsh & Hc & Hb & owner & Ho & Hlow).
    by rewrite (validate_tallied _ _ _ _ _ _ _ ops shares owner Hv Hs Hops HF Hn Hc Hb Hw Hsh Ho), Hlow.
Qed.

(** Everyone validates the same close. Replicas with the same changes and
    operations, in whatever order they arrived, validate a close to the very
    same statistics; and a replica further ahead that validates it reports
    exactly the same operations and accounting, so the checkpoint built from a
    close does not depend on who builds it. *)
Theorem close_validates_everywhere {C : Crypto} {A : Aead} {M : Automerge} {L : AutomergeLaws M}
    c logical doc_id group historical d d' seed :
  ed_doc_type d' = ed_doc_type d -> ed_doc_id d' = ed_doc_id d ->
  (same_content d d' -> forall s,
     verify_and_validate c logical doc_id group historical d seed = Ok s <->
     verify_and_validate c logical doc_id group historical d' seed = Ok s) /\
  (ahead d d' -> forall s s',
     verify_and_validate c logical doc_id group historical d seed = Ok s ->
     verify_and_validate c logical doc_id group historical d' seed = Ok s' -> s' = s).
Proof.
  intros Et Ei. split.
  - intros Hsame s. split; intros H; eapply validate_same; try exact H; try done. by apply same_content_sym.
  - intros Ha s s' H H'. unfold verify_and_validate in *. apply bind_ok in H as ([] & Hv & H). apply bind_ok in H as ([] & Hs & H).
    apply bind_ok in H as (ops & Hops & H). rewrite Hv, bind_Ok in H'. apply bind_ok in H' as ([] & _ & H').
    apply bind_ok in H' as (ops' & Hops' & H'). rewrite (signed_ops_ahead _ _ _ _ _ _ Ha Hops Hops') in H'. congruence.
Qed.

(** The scheduler's hint is exact. For a gated document, a close in scope
    and in authority that covers the whole log, issued under the owner the gate
    knows, validates exactly when the gate's own running totals reach the lower
    bound, and then reports those totals: the cheap hint neither promises a
    close that would be refused nor misses one. *)
Theorem close_hint_exact {C : Crypto} {A : Aead} {M : Automerge} c logical doc_id group historical g d seed ops :
  gated_ok logical g d -> changes_attributed d -> close_scope c logical d ->
  CloseRecord_verify_for c logical doc_id group historical = Ok tt ->
  designated_committer group = Some (gi_owner (g_inner g)) ->
  signed_ops_for_heads d (cr_heads c) seed = Ok ops -> ops ≡ₚ ed_log d ->
  verify_and_validate c logical doc_id group historical d seed =
    let i := g_inner g in
    if close_lower_bound_reached (len (gi_operations i)) (gi_total_bytes i) (gi_by_device i) (gi_owner i)
    then Ok (mkClosureStats ops (len (gi_operations i)) (gi_total_bytes i) (gi_by_device i))
    else Err EpochBound.
Proof.
  intros Hg Hc Hs Hv Ho Hops Hp. pose proof (gk_gate _ _ _ Hg) as [_ _ _ _ _ Hacc _ _ _ _].
  assert (Hall : all_admitted (g_inner g) ops).
  { unfold all_admitted. rewrite Hp, <- (gk_agree _ _ _ Hg). unfold doc_admitted. by rewrite reverse_Permutation. }
  destruct (admitted_totals _ _ Hacc Hall) as (T1 & T2 & T3 & T4 & _). pose proof (ac_count _ Hacc) as Hcnt. pose proof (ac_bytes _ Hacc) as Hbytes.
  cbv zeta. rewrite <- T1, <- T2. apply validate_tallied; try done; try lia; [|apply Hacc].
  rewrite Hp. by eapply gated_closable.
Qed.

(** * Witnesses *)

(** The members' view of the group that closes the toy document. *)
Definition toy_close_group : ServerGroup :=
  mkServerGroup (server_id toy_logical) 3 (Some toy_author)
    (fun dev => if bool_decide (dev = toy_author) then Some (public_key_bytes (toy_device 7)) else None).
Definition toy_gated_close : CloseRecord :=
  match CloseRecord_sign (C:=toy_crypto) toy_logical toy_gated_id 0 [ch_hash toy_gated_change] (toy_device 7) with
  | Ok c => c
  | Err _ => mkCloseRecord [] Channel 0 0 [] [] []
  end.

Lemma toy_close_verified :
  CloseRecord_verify_for (C:=toy_crypto) toy_gated_close toy_logical toy_gated_id toy_close_group None = Ok tt.
Proof. vm_compute. reflexivity. Qed.

Lemma toy_close_scope : close_scope (M:=gated_automerge) toy_gated_close toy_logical toy_gated_doc1.
Proof. split_and!; vm_compute; reflexivity. Qed.

Lemma toy_close_ops :
  signed_ops_for_heads (M:=gated_automerge) toy_gated_doc1 (cr_heads toy_gated_close) None = Ok (ed_log toy_gated_doc1).
Proof. vm_compute. reflexivity. Qed.

Lemma toy_gated_ok1 : gated_ok (C:=toy_crypto) (M:=gated_automerge) toy_logical toy_gated_gate1 toy_gated_doc1.
Proof.
  exact (proj2 (gated_run_simulates (C:=toy_crypto) (M:=gated_automerge) (L:=parsing_automerge_laws parse_gated) toy_logical
    (toy_gated_gate0, toy_gated_doc0) (toy_gated_gate1, toy_gated_doc1) toy_gated_run toy_gated_ok)).
Qed.

Lemma toy_log_eq : exists op, ed_log toy_gated_doc1 = [op] /\ change_from_bytes (Automerge:=gated_automerge) (so_delta op) = Ok toy_gated_change /\
  ch_actor toy_gated_change = so_author_device op.
Proof. eexists. split; [vm_compute; reflexivity|]. split; vm_compute; reflexivity. Qed.

Lemma toy_attributed : changes_attributed (M:=gated_automerge) toy_gated_doc1.
Proof.
  destruct toy_log_eq as (op & E & H1 & H2). unfold changes_attributed. rewrite E. constructor; [|constructor].
  exists toy_gated_change. split; [exact H1|exact H2].
Qed.

Lemma toy_gate_owner : designated_committer toy_close_group = Some (gi_owner (g_inner toy_gated_gate1)).
Proof. vm_compute. reflexivity. Qed.

Lemma toy_below_bound :
  close_lower_bound_reached (len (gi_operations (g_inner toy_gated_gate1))) (gi_total_bytes (g_inner toy_gated_gate1))
    (gi_by_device (g_inner toy_gated_gate1)) (gi_owner (g_inner toy_gated_gate1)) = false.
Proof. vm_compute. reflexivity. Qed.

(** One small operation does not make a close. *)
Lemma close_hint_exact_witness :
  verify_and_validate (C:=toy_crypto) (M:=gated_automerge) toy_gated_close toy_logical toy_gated_id toy_close_group None
    toy_gated_doc1 None = Err EpochBound.
Proof.
  rewrite (close_hint_exact (C:=toy_crypto) (M:=gated_automerge) toy_gated_close toy_logical toy_gated_id toy_close_group None
    toy_gated_gate1 toy_gated_doc1 None (ed_log toy_gated_doc1) toy_gated_ok1 toy_attributed toy_close_scope toy_close_verified
    toy_gate_owner toy_close_ops (reflexivity _)).
  cbv zeta. rewrite toy_below_bound. reflexivity.
Defined.

Definition other_diamond : EncryptedDoc (M:=toy_automerge) := toy_diamond [[x02; x01]; [x04; x02; x03]; [x03; x01]; [x01]].

Lemma diamonds_same : same_content (M:=toy_automerge) Closure.diamond other_diamond.
Proof.
  split; [reflexivity|split; [|reflexivity]]. apply (fmap_Permutation toy_domain_op).
  apply (bool_decide_unpack ([[x01]; [x03; x01]; [x02; x01]; [x04; x02; x03]] ≡ₚ [[x02; x01]; [x04; x02; x03]; [x03; x01]; [x01]])).
  vm_compute. exact I.
Qed.

Definition toy_stats : ClosureStats := mkClosureStats (ed_log Closure.diamond) 4 800 [].

Lemma close_validates_everywhere_witness :
  verify_and_validate (C:=toy_crypto) (M:=toy_automerge) toy_gated_close toy_logical 5 toy_close_group None Closure.diamond None = Ok toy_stats <->
  verify_and_validate (C:=toy_crypto) (M:=toy_automerge) toy_gated_close toy_logical 5 toy_close_group None other_diamond None = Ok toy_stats.
Proof.
  exact (proj1 (close_validates_everywhere (C:=toy_crypto) (M:=toy_automerge) (L:=toy_automerge_laws) toy_gated_close toy_logical 5
    toy_close_group None Closure.diamond other_diamond None eq_refl eq_refl) diamonds_same toy_stats).
Defined.
