(* ===== verification/Book.v ===== *)
(** The peer receipt book of [crates/catcoms-replication/src/epoch.rs]:
    [ReceiptBook] (ingest, opening re-check, repair, persistence), its atomic
    coupling with the epoch gate, and the restart check of the two together. *)

From S2P Require Import Prelude OrdMap Wire Context Crypto Codec EpochBase Authority.
From S2P Require Import Receipt Close Repair Gate.
From stdpp Require Import base list relations.
From Stdlib Require Import Init.Byte.
Local Open Scope N_scope.

(** * Data *)

Inductive ReceiptRepairIngest : Type := RepairApplied | RepairDuplicate.

Record ReceiptBook := mkReceiptBook {
  bk_document : option LogicalDocument;
  bk_tenure : option TenureSelection;
  bk_latest : option Receipt;
  bk_previous_until_installed : option Receipt;
  bk_fault : option (Receipt * Receipt);
  bk_repair_sequence : N;
  bk_resolved_repair : option ResolvedRepair
}.

Definition ReceiptBook_default : ReceiptBook := mkReceiptBook None None None None None 0 None.

#[global] Instance ReceiptBook_eq_dec : EqDecision ReceiptBook.
Proof. solve_decision. Defined.

Definition is_faulted (b : ReceiptBook) : bool :=
  match bk_fault b with Some _ => true | None => false end.

Definition mark_latest_installed (b : ReceiptBook) : ReceiptBook :=
  mkReceiptBook (bk_document b) (bk_tenure b) (bk_latest b) None (bk_fault b)
    (bk_repair_sequence b) (bk_resolved_repair b).

Definition repair_sequence_for_issuer_tenure (b : ReceiptBook) (issuer_tenure_start : N) : N :=
  match bk_resolved_repair b with
  | Some s =>
      if bool_decide (rp_issuer_tenure_start_group_epoch (rs_repair s) = Some issuer_tenure_start)
      then rp_repair_sequence (rs_repair s) else 0
  | None => 0
  end.

(** * Operations *)

Section operations.
Context {C : Crypto}.

Definition is_repaired_loser (b : ReceiptBook) (receipt : Receipt) : bool :=
  match bk_resolved_repair b with Some s => covers s receipt | None => false end.

(** [self.latest]/[tenure]/[fault] after recording equivocation evidence. *)
Definition record_fault (b : ReceiptBook) (tenure : option TenureSelection)
    (evidence : Receipt * Receipt) : ReceiptBook :=
  mkReceiptBook (bk_document b) tenure (Some evidence.1) (bk_previous_until_installed b)
    (Some evidence) (bk_repair_sequence b) (bk_resolved_repair b).

(** The part of [ingest_verified] after the tenure has been reconciled. *)
Definition ingest_head (b : ReceiptBook) (receipt : Receipt) : ReceiptIngest * ReceiptBook :=
  let advance previous :=
    (IngestAdvanced,
     mkReceiptBook (bk_document b) (bk_tenure b) (Some receipt) previous (bk_fault b)
       (bk_repair_sequence b) (bk_resolved_repair b)) in
  match bk_latest b with
  | Some latest =>
      if bool_decide (r_tenure_id latest = r_tenure_id receipt) then
        if r_closed_epoch latest =? r_closed_epoch receipt then
          if bool_decide (Receipt_hash latest = Receipt_hash receipt) then (IngestDuplicate, b)
          else (IngestFault, record_fault b (bk_tenure b) (canonical_receipt_pair latest receipt))
        else if r_closed_epoch receipt <? r_closed_epoch latest then (IngestStale, b)
        else advance (Some latest)
      else advance (Some latest)
  | None => advance (bk_previous_until_installed b)
  end.

Definition ingest_verified (b : ReceiptBook) (receipt : Receipt)
    : result ReplError (ReceiptIngest * ReceiptBook) :=
  _ ← refuse_if (match bk_document b with
                 | Some d => bool_decide (d <> r_document receipt)
                 | None => false
                 end) EpochScope;
  let b := mkReceiptBook (Some (default (r_document receipt) (bk_document b))) (bk_tenure b)
             (bk_latest b) (bk_previous_until_installed b) (bk_fault b) (bk_repair_sequence b)
             (bk_resolved_repair b) in
  if is_faulted b then Ok (IngestFault, b)
  else if is_repaired_loser b receipt then Ok (IngestStale, b)
  else
    let selection := selection_of receipt in
    match bk_tenure b with
    | Some current =>
        if bool_decide (ts_tenure_id current = ts_tenure_id selection) then
          if bool_decide (current <> selection) then
            let evidence := canonical_receipt_pair (default receipt (bk_latest b)) receipt in
            Ok (IngestFault, record_fault b (Some (selection_of evidence.1)) evidence)
          else Ok (ingest_head b receipt)
        else
          Ok (ingest_head (mkReceiptBook (bk_document b) (Some selection) None (bk_latest b)
                (bk_fault b) (bk_repair_sequence b) (bk_resolved_repair b)) receipt)
    | None =>
        Ok (ingest_head (mkReceiptBook (bk_document b) (Some selection) (bk_latest b)
              (bk_previous_until_installed b) (bk_fault b) (bk_repair_sequence b)
              (bk_resolved_repair b)) receipt)
    end.

(** Verify, ingest into a copy, and commit the copy inside the gate's transition. *)
Definition ingest_and_seal (b : ReceiptBook) (receipt : Receipt) (group : ServerGroup)
    (expected_tenure_start_group_epoch : N) (gate : EpochGate)
    : result ReplError (ReceiptIngest * list AdmittedOperation * ReceiptBook * EpochGate) :=
  verified ← Receipt_verify_current_owner receipt group expected_tenure_start_group_epoch;
  _ ← refuse_if (negb (g_epoch gate =? r_closed_epoch receipt)) EpochScope;
  next ← ingest_verified b receipt;
  sealed ← transition_verified_receipt gate verified next.1;
  Ok (next.1, sealed.1, next.2, sealed.2).

(** [opening.closed_epoch.checked_add(1) == Some(epoch)] *)
Definition opens (opening : Receipt) (epoch : N) : bool :=
  bool_decide (checked_add u64_max (r_closed_epoch opening) 1 = Some epoch).

Definition check_opening_receipt (b : ReceiptBook) (receipt opening : Receipt)
    (group : ServerGroup) (tenure_start : N) (gate : EpochGate)
    : result ReplError (ReceiptIngest * ReceiptBook * EpochGate) :=
  _ ← Receipt_verify_current_owner receipt group tenure_start;
  _ ← refuse_if (bool_decide (r_document receipt <> g_document gate)
                 || bool_decide (r_document receipt <> r_document opening)
                 || negb (r_closed_epoch receipt =? r_closed_epoch opening)
                 || negb (opens opening (g_epoch gate))
                 || bool_decide (r_tenure_id receipt <> r_tenure_id opening)) EpochScope;
  if is_faulted b then Ok (IngestFault, b, gate)
  else if is_repaired_loser b receipt then Ok (IngestStale, b, gate)
  else
    _ ← refuse_if (match gi_phase (g_inner gate) with Open | Closing => false | _ => true end)
          EpochClosed;
    if bool_decide (receipt = opening) then Ok (IngestDuplicate, b, gate)
    else
      _ ← refuse_if (negb (receipts_conflict opening receipt)) ReceiptConflict;
      Ok (IngestFault,
          mkReceiptBook (bk_document b) (bk_tenure b) (bk_latest b)
            (bk_previous_until_installed b) (Some (canonical_receipt_pair opening receipt))
            (bk_repair_sequence b) (bk_resolved_repair b),
          gate_fault gate).

(** The selected and the losing receipt of a fault pair, by the repair's choice. *)
Definition select_receipt (repair : ReceiptRepair) (a b : Receipt)
    : result ReplError (Receipt * Receipt) :=
  if bool_decide (Receipt_hash a = rp_selected_receipt_hash repair) then Ok (a, b)
  else if bool_decide (Receipt_hash b = rp_selected_receipt_hash repair) then Ok (b, a)
  else Err ReceiptConflict.

Definition resolve_fault (bk : ReceiptBook) (repair : ReceiptRepair)
    (expected_issuer_tenure_start : N)
    : result ReplError (ReceiptRepairIngest * Receipt * ReceiptBook) :=
  p ← ok_or (bk_fault bk) ReceiptConflict;
  let '(a, b) := p in
  _ ← restore_verified_from_vault a;
  _ ← restore_verified_from_vault b;
  _ ← refuse_if
        (bool_decide (rp_document repair <> r_document a)
         || bool_decide (rp_document repair <> r_document b)
         || bool_decide (rp_tenure_id repair <> r_tenure_id a)
         || bool_decide (rp_tenure_id repair <> r_tenure_id b)
         || (rp_repair_sequence repair
             <=? repair_sequence_for_issuer_tenure bk expected_issuer_tenure_start))
        ReceiptConflict;
  _ ← refuse_if (bool_decide (sort_pair (Receipt_hash a, Receipt_hash b)
                              <> rp_receipt_hashes repair)) ReceiptConflict;
  q ← select_receipt repair a b;
  let '(selected, losing) := q in
  Ok (RepairApplied, losing,
      mkReceiptBook (bk_document bk) (Some (selection_of selected)) (Some selected) None None
        (rp_repair_sequence repair) (Some (mkResolvedRepair repair selected losing))).

Definition apply_repair {G} `{OwnerAuthority G} (bk : ReceiptBook) (repair : ReceiptRepair)
    (group : G) (expected_issuer_tenure_start : N)
    : result ReplError (ReceiptRepairIngest * Receipt * ReceiptBook) :=
  _ ← Repair_verify_current_owner repair group expected_issuer_tenure_start;
  match bk_resolved_repair bk with
  | Some resolved =>
      if bool_decide (rs_repair resolved = repair) && negb (is_faulted bk)
      then Ok (RepairDuplicate, rs_losing resolved, bk)
      else resolve_fault bk repair expected_issuer_tenure_start
  | None => resolve_fault bk repair expected_issuer_tenure_start
  end.

(** ** Persistence *)

Definition put_tenure_fields (t : TenureSelection) (e : bytes) : bytes :=
  e |> put_hash (ts_tenure_id t)
    |> put_u64 (ts_tenure_start_group_epoch t)
    |> inherited_encode_into (ts_inherited t)
    |> put_bytes_x (ts_owner_public_key t).

Definition put_tenure (t : option TenureSelection) (e : bytes) : bytes :=
  put_option put_tenure_fields t e.

Definition get_tenure : dec ReplError (option TenureSelection) :=
  get_option
    (tid ← get_fixed 32;
     start ← mal get_u64;
     inherited ← inherited_decode_from;
     key ← mal get_bytes;
     _ ← dec_refuse (negb (len key =? 32)) Malformed;
     mret (mkTenureSelection tid start inherited key)).

Definition put_receipt (r : option Receipt) (e : bytes) : bytes :=
  put_option (fun r e => e |> put_bytes_x (Receipt_encode r)) r e.

Definition get_receipt : dec ReplError (option Receipt) := get_option read_receipt.

Definition put_fault (f : option (Receipt * Receipt)) (e : bytes) : bytes :=
  put_option (fun f e => e |> put_bytes_x (Receipt_encode f.1) |> put_bytes_x (Receipt_encode f.2)) f e.

Definition get_fault : dec ReplError (option (Receipt * Receipt)) :=
  get_option (a ← read_receipt; b ← read_receipt; mret (a, b)).

(** [latest] is neither member of the fault pair. *)
Definition historical_fault (fault : option (Receipt * Receipt)) (latest : option Receipt) : bool :=
  match fault, latest with
  | Some (a, b), Some r => bool_decide (r <> a) && bool_decide (r <> b)
  | _, _ => false
  end.

Definition book_version (b : ReceiptBook) (adoption : bool) : N :=
  match bk_resolved_repair b with
  | Some _ => if adoption then 5 else 4
  | None =>
      if adoption then 3
      else if historical_fault (bk_fault b) (bk_latest b) then 2 else 1
  end.

Definition encode_mode (b : ReceiptBook) (adoption : bool) : result ReplError bytes :=
  let e := [] |> put_u8 (book_version b adoption)
              |> put_tenure (bk_tenure b)
              |> put_receipt (bk_latest b)
              |> put_receipt (bk_previous_until_installed b)
              |> put_fault (bk_fault b)
              |> put_u64 (bk_repair_sequence b) in
  let e := match bk_resolved_repair b with
           | Some s => e |> Resolved_encode_into s
           | None => e
           end in
  if MAX_RECEIPT_BOOK_BYTES <? len e then Err EpochBound else Ok e.

Definition ReceiptBook_encode (b : ReceiptBook) : result ReplError bytes := encode_mode b false.

Definition read_resolved (version : N) : dec ReplError (option ResolvedRepair) :=
  if (version =? 4) || (version =? 5) then (s ← Resolved_decode_from; mret (Some s))
  else mret None.

(** The fields as read, with the version; the document is derived afterwards. *)
Definition book_read (adoption : bool) : dec ReplError (N * ReceiptBook) :=
  version ← mal get_u8;
  _ ← dec_refuse (if adoption then negb (version =? 3) && negb (version =? 5)
                  else negb (version =? 1) && negb (version =? 2) && negb (version =? 4))
        Malformed;
  tenure ← get_tenure;
  latest ← get_receipt;
  previous ← get_receipt;
  fault ← get_fault;
  sequence ← mal get_u64;
  resolved ← read_resolved version;
  let document :=
    match latest with
    | Some r => Some (r_document r)
    | None => (fun s => rp_document (rs_repair s)) <$> resolved
    end in
  mret (version, mkReceiptBook document tenure latest previous fault sequence resolved).

(** The fault pair is ordered, conflicting, and related to the latest receipt. *)
Definition fault_consistent (adoption : bool) (version : N) (latest : option Receipt)
    (a b : Receipt) : bool :=
  kltb (Receipt_hash a) (Receipt_hash b)
  && bool_decide (r_document a = r_document b)
  && bool_decide (r_tenure_id a = r_tenure_id b)
  && receipts_conflict a b
  && match latest with
     | None => false
     | Some l =>
         bool_decide (l = a) || bool_decide (l = b) || adoption
         || (((version =? 2) || (version =? 4))
             && (r_closed_epoch a =? r_closed_epoch b)
             && opens a (r_closed_epoch l)
             && (bool_decide (selection_of l = selection_of a)
                 || bool_decide (selection_of l = selection_of b)))
     end.

Definition receipt_in_scope (document : option LogicalDocument) (r : option Receipt) : bool :=
  match r with Some r => bool_decide (document = Some (r_document r)) | None => true end.

Definition decode_mode (input : bytes) (adoption : bool) : result ReplError ReceiptBook :=
  _ ← refuse_if (MAX_RECEIPT_BOOK_BYTES <? len input) EpochBound;
  p ← run_exact (book_read adoption) input;
  let '(version, b) := p in
  let present {A} (o : option A) := match o with Some _ => true | None => false end in
  _ ← refuse_if (negb (Bool.eqb (present (bk_tenure b)) (present (bk_latest b)))) Malformed;
  _ ← refuse_if (negb (present (bk_latest b)) && present (bk_previous_until_installed b)) Malformed;
  _ ← refuse_if (match bk_tenure b, bk_latest b with
                 | Some t, Some l => bool_decide (t <> selection_of l)
                 | _, _ => false
                 end) Malformed;
  _ ← refuse_if (match bk_fault b with
                 | Some (x, y) => negb (fault_consistent adoption version (bk_latest b) x y)
                 | None => false
                 end) Malformed;
  _ ← refuse_if (negb adoption && negb (version =? 4)
                 && negb (Bool.eqb (version =? 2) (historical_fault (bk_fault b) (bk_latest b))))
        Malformed;
  _ ← refuse_if (negb (receipt_in_scope (bk_document b) (bk_previous_until_installed b)
                       && receipt_in_scope (bk_document b) (fst <$> bk_fault b)
                       && receipt_in_scope (bk_document b) (snd <$> bk_fault b))) Malformed;
  _ ← match bk_resolved_repair b with
      | Some s => Resolved_verify s (bk_document b) (bk_repair_sequence b)
      | None => Ok tt
      end;
  mret b.

Definition ReceiptBook_decode (input : bytes) : result ReplError ReceiptBook :=
  decode_mode input false.
End operations.

Lemma opens_succ r n : opens r n = true <-> r_closed_epoch r + 1 = n /\ r_closed_epoch r + 1 <= u64_max.
Proof.
  unfold opens, checked_add. rewrite bool_decide_eq_true.
  destruct (N.leb_spec (r_closed_epoch r + 1) u64_max); split; (naive_solver lia).
Qed.

(** * The book invariant *)

Section invariant.
Context {C : Crypto}.

Record book_ok (b : ReceiptBook) : Prop := mkBookOk {
  bo_tenure : bk_tenure b = selection_of <$> bk_latest b;
  bo_document : bk_document b =
    match bk_latest b with
    | Some r => Some (r_document r)
    | None => (fun s => rp_document (rs_repair s)) <$> bk_resolved_repair b
    end;
  bo_latest : opt_ok receipt_canonical (bk_latest b);
  bo_previous : opt_ok receipt_canonical (bk_previous_until_installed b);
  bo_fault_receipts :
    opt_ok (fun f => receipt_canonical f.1 /\ receipt_canonical f.2) (bk_fault b);
  bo_orphan : bk_latest b = None -> bk_previous_until_installed b = None;
  bo_scope : receipt_in_scope (bk_document b) (bk_previous_until_installed b) = true;
  bo_fault : opt_ok (fun f => fault_consistent false 4 (bk_latest b) f.1 f.2 = true /\
    bk_document b = Some (r_document f.1)) (bk_fault b);
  bo_sequence : bk_repair_sequence b <= u64_max;
  bo_resolved : opt_ok (fun s => repair_ok (rs_repair s) /\ receipt_canonical (rs_selected s) /\
    receipt_canonical (rs_losing s) /\
    Resolved_verify s (bk_document b) (bk_repair_sequence b) = Ok tt) (bk_resolved_repair b)
}.

Lemma canonical_pair_facts l r :
  receipts_conflict l r = true ->
  let p := canonical_receipt_pair l r in
  klt (Receipt_hash p.1) (Receipt_hash p.2) /\ receipts_conflict p.1 p.2 = true /\
  (p = (l, r) \/ p = (r, l)).
Proof.
  intros Hc. pose proof Hc as (_ & _ & Hne & _)%receipts_conflict_true.
  destruct (canonical_pair_cases _ _ Hne) as [[-> Hlt]|[-> Hlt]]; cbn; split_and!; try done;
    [by left | by rewrite receipts_conflict_sym | by right].
Qed.

(** A pair whose first member is the latest receipt is consistent in every version. *)
Lemma fault_consistent_head v l r :
  receipts_conflict l r = true ->
  let p := canonical_receipt_pair l r in fault_consistent false v (Some p.1) p.1 p.2 = true.
Proof.
  intros Hc. cbv zeta. destruct (canonical_pair_facts _ _ Hc) as (Hlt & Hc' & _).
  pose proof Hc' as (Hd & Ht & _)%receipts_conflict_true. unfold fault_consistent.
  rewrite (proj2 (kltb_klt _ _) Hlt), Hc', !bool_decide_eq_true_2 by done. done.
Qed.

Lemma canonical_pair_Forall (P : Receipt -> Prop) l r :
  P l -> P r -> P (canonical_receipt_pair l r).1 /\ P (canonical_receipt_pair l r).2.
Proof. unfold canonical_receipt_pair. by destruct (kltb _ _). Qed.

Lemma record_fault_ok b l r t :
  book_ok b -> bk_latest b = Some l -> receipt_canonical r -> r_document r = r_document l ->
  receipts_conflict l r = true -> t = Some (selection_of (canonical_receipt_pair l r).1) ->
  book_ok (record_fault b t (canonical_receipt_pair l r)).
Proof.
  intros [] Hl Hr Hd Hc ->. rewrite Hl in *. cbn in bo_latest0.
  destruct (canonical_pair_Forall receipt_canonical l r bo_latest0 Hr) as [C1 C2].
  destruct (canonical_pair_Forall (fun x => Some (r_document x) = bk_document b) l r)
    as [D1 D2]; [congruence | congruence |].
  constructor; cbn; try done. split; [by apply (fault_consistent_head 4) | done].
Qed.

(** [l] and [r] are told apart by their hashes. *)
Definition distinguished (l r : Receipt) : Prop := Receipt_hash l = Receipt_hash r -> l = r.

Lemma selections_differ_conflict l r :
  distinguished l r -> r_document l = r_document r ->
  r_tenure_id l = r_tenure_id r -> selection_of l <> selection_of r ->
  receipts_conflict l r = true.
Proof.
  intros Hdist Hd Ht Hs. apply receipts_conflict_true. split_and!; try done; [|by right].
  intros E. apply Hs. by rewrite (Hdist E).
Qed.

(** The branches of [ingest_verified] on a well-formed book. *)
Inductive ingested (b : ReceiptBook) (r : Receipt) : ReceiptIngest -> ReceiptBook -> Prop :=
| ing_faulted f : bk_fault b = Some f -> ingested b r IngestFault b
| ing_loser : bk_fault b = None -> is_repaired_loser b r = true -> ingested b r IngestStale b
| ing_first :
    bk_fault b = None -> is_repaired_loser b r = false -> bk_latest b = None ->
    ingested b r IngestAdvanced
      (mkReceiptBook (Some (r_document r)) (Some (selection_of r)) (Some r) None None
         (bk_repair_sequence b) (bk_resolved_repair b))
| ing_baseline l :
    bk_fault b = None -> is_repaired_loser b r = false -> bk_latest b = Some l ->
    r_tenure_id l = r_tenure_id r -> selection_of l <> selection_of r ->
    ingested b r IngestFault
      (record_fault b (Some (selection_of (canonical_receipt_pair l r).1))
         (canonical_receipt_pair l r))
| ing_duplicate l :
    bk_fault b = None -> is_repaired_loser b r = false -> bk_latest b = Some l ->
    selection_of l = selection_of r -> r_closed_epoch l = r_closed_epoch r ->
    Receipt_hash l = Receipt_hash r -> ingested b r IngestDuplicate b
| ing_same_epoch l :
    bk_fault b = None -> is_repaired_loser b r = false -> bk_latest b = Some l ->
    selection_of l = selection_of r -> r_closed_epoch l = r_closed_epoch r ->
    Receipt_hash l <> Receipt_hash r ->
    ingested b r IngestFault (record_fault b (bk_tenure b) (canonical_receipt_pair l r))
| ing_stale l :
    bk_fault b = None -> is_repaired_loser b r = false -> bk_latest b = Some l ->
    selection_of l = selection_of r -> r_closed_epoch r < r_closed_epoch l ->
    ingested b r IngestStale b
| ing_advance l :
    bk_fault b = None -> is_repaired_loser b r = false -> bk_latest b = Some l ->
    (r_tenure_id l <> r_tenure_id r \/
     (selection_of l = selection_of r /\ r_closed_epoch l < r_closed_epoch r)) ->
    ingested b r IngestAdvanced
      (mkReceiptBook (bk_document b) (Some (selection_of r)) (Some r) (Some l) None
         (bk_repair_sequence b) (bk_resolved_repair b)).

Lemma ingest_cases b r o b' :
  book_ok b -> ingest_verified b r = Ok (o, b') ->
  ingested b r o b' /\ (bk_document b = None \/ bk_document b = Some (r_document r)).
Proof.
  intros Hb H. unfold ingest_verified in H. apply refuse_if_bind_ok in H as [Hd H].
  destruct (bk_document b) as [d|] eqn:Ed.
  - apply bool_decide_eq_false in Hd. apply dec_stable in Hd. subst d. split; [|by right].
    cbv zeta in H. cbn [default from_option id] in H.
    match type of H with context [is_faulted ?x] => assert (Hx : x = b) by (destruct b; cbn in *; congruence) end.
    rewrite Hx in H. unfold is_faulted in H.
    destruct (bk_fault b) as [f|] eqn:Ef; [injection H as <- <-; by econstructor|].
    destruct (is_repaired_loser b r) eqn:El; [injection H as <- <-; by constructor|].
    pose proof (bo_tenure _ Hb) as Ht. destruct (bk_latest b) as [l|] eqn:Ell; cbn in Ht; rewrite Ht in H.
    + case_bool_decide as Hid; [case_bool_decide as Hs|].
      * injection H as <- <-. by apply ing_baseline.
      * unfold ingest_head in H. rewrite Ell in H.
        injection Hs as Htid Hst Hin Hkey. rewrite Htid in H.
        rewrite bool_decide_eq_true_2 in H by done.
        assert (Hsel : selection_of l = selection_of r) by (unfold selection_of; congruence).
        destruct (N.eqb_spec (r_closed_epoch l) (r_closed_epoch r)) as [Hc|Hc].
        -- case_bool_decide; injection H as <- <-; [by eapply ing_duplicate | by apply ing_same_epoch].
        -- destruct (N.ltb_spec (r_closed_epoch r) (r_closed_epoch l)); injection H as <- <-.
           ++ by eapply ing_stale.
           ++ rewrite Ed, Ht, Ef, Hsel. rewrite <- Ed. apply ing_advance; try done. right. split; [done|lia].
      * unfold ingest_head in H. cbn in H. injection H as <- <-.
        rewrite ?Ef, ?Ed. rewrite <- Ed. apply ing_advance; try done. by left.
    + unfold ingest_head in H. cbn in H. injection H as <- <-.
      rewrite ?Ef, ?Ed, (bo_orphan _ Hb Ell). by apply ing_first.
  - split; [|by left]. cbv zeta in H. cbn [default from_option id] in H.
    pose proof (bo_document _ Hb) as Hdoc. rewrite Ed in Hdoc.
    destruct (bk_latest b) as [l|] eqn:Ell; [done|].
    destruct (bk_resolved_repair b) as [s|] eqn:Er; [done|].
    destruct (bk_fault b) as [f|] eqn:Ef.
    { pose proof (bo_fault _ Hb) as Hf. rewrite Ef, Ell in Hf. cbn in Hf. destruct Hf as [Hf _].
      unfold fault_consistent in Hf. by rewrite andb_false_r in Hf. }
    assert (El : is_repaired_loser b r = false) by (unfold is_repaired_loser; by rewrite Er).
    pose proof (bo_tenure _ Hb) as Ht. rewrite Ell in Ht. cbn in Ht. rewrite Ht in H.
    unfold ingest_head in H. cbn in H. injection H as <- <-.
    rewrite (bo_orphan _ Hb Ell), <- Er. by apply ing_first.
Qed.

Lemma ingest_ok b r o b' :
  book_ok b -> receipt_canonical r -> opt_ok (fun l => distinguished l r) (bk_latest b) ->
  ingest_verified b r = Ok (o, b') -> book_ok b'.
Proof.
  intros Hb Hr Hdist H. destruct (ingest_cases _ _ _ _ Hb H) as [Hi Hd].
  pose proof (bo_document _ Hb) as Hdoc.
  assert (Hld : forall l, bk_latest b = Some l -> r_document l = r_document r).
  { intros l Hl. rewrite Hl in Hdoc. destruct Hd; congruence. }
  destruct Hi as [f Hf|Hf Hl|Hf Hn Hl|l Hf Hn Hl Ht Hs|l Hf Hn Hl Hs Hc Hh|l Hf Hn Hl Hs Hc Hh
                 |l Hf Hn Hl Hs Hc|l Hf Hn Hl Hcase]; try done.
  - destruct Hb. constructor; cbn; try done.
    assert (Hdr : bk_document b = Some (r_document r) \/ bk_resolved_repair b = None).
    { destruct Hd as [Hd|]; [right|by left]. rewrite Hl in Hdoc. rewrite Hd in Hdoc.
      by destruct (bk_resolved_repair b). }
    destruct Hdr as [Hdr|Hdr]; [by rewrite <- Hdr | by rewrite Hdr].
  - rewrite Hl in Hdist. pose proof (selections_differ_conflict l r Hdist (Hld _ Hl) Ht Hs) as Hc.
    apply record_fault_ok; try done. by rewrite (Hld _ Hl).
  - assert (Hc' : receipts_conflict l r = true).
    { apply receipts_conflict_true. unfold selection_of in Hs. injection Hs as Ht _ _ _.
      split_and!; try done; [by apply Hld | by left]. }
    apply record_fault_ok; try done; [by rewrite (Hld _ Hl)|].
    rewrite (bo_tenure _ Hb), Hl. cbn. unfold canonical_receipt_pair.
    destruct (kltb _ _); cbn; congruence.
  - destruct Hb. rewrite Hl in *. cbn in *.
    rewrite (Hld l eq_refl) in bo_document0.
    constructor; cbn; try done. rewrite bo_document0, (Hld l eq_refl). by apply bool_decide_eq_true_2.
Qed.

Lemma fault_consistent_true v l a b :
  fault_consistent false v l a b = true ->
  klt (Receipt_hash a) (Receipt_hash b) /\ r_document a = r_document b /\
  r_tenure_id a = r_tenure_id b /\ receipts_conflict a b = true /\
  exists r, l = Some r /\ (r = a \/ r = b \/
    (historical_fault (Some (a, b)) l = true /\ (v = 2 \/ v = 4) /\
     r_closed_epoch a = r_closed_epoch b /\ opens a (r_closed_epoch r) = true /\
     (selection_of r = selection_of a \/ selection_of r = selection_of b))).
Proof.
  unfold fault_consistent. rewrite !andb_true_iff, !bool_decide_eq_true, kltb_klt.
  intros ((((Hlt & Hd) & Ht) & Hc) & Hl). split_and!; try done.
  destruct l as [r|]; [|done]. exists r. split; [done|].
  rewrite !orb_true_iff, !andb_true_iff, !orb_true_iff, !bool_decide_eq_true, !N.eqb_eq in Hl.
  destruct (decide (r = a)); [by left|]. destruct (decide (r = b)); [by right; left|].
  right. right. destruct Hl as [[[?|?]|?]|(((? & ?) & ?) & ?)]; try done. split_and!; try done.
  cbn. by rewrite !bool_decide_eq_true_2.
Qed.

Lemma fault_consistent_version v v' l a b :
  fault_consistent false v l a b = true ->
  (historical_fault (Some (a, b)) l = true -> v' = 2 \/ v' = 4) ->
  fault_consistent false v' l a b = true.
Proof.
  intros H Hv. destruct (fault_consistent_true _ _ _ _ H) as (Hlt & Hd & Ht & Hc & r & -> & Hr).
  unfold fault_consistent. rewrite (proj2 (kltb_klt _ _) Hlt), Hc.
  rewrite (bool_decide_eq_true_2 _ Hd), (bool_decide_eq_true_2 _ Ht). cbn [andb].
  destruct Hr as [->|[->|(Hh & _ & He & Ho & Hs)]].
  - by rewrite bool_decide_eq_true_2.
  - by rewrite (bool_decide_eq_true_2 (b = b)), orb_true_r.
  - apply Hv in Hh. rewrite Ho, (proj2 (N.eqb_eq _ _) He).
    assert (Hs' : bool_decide (selection_of r = selection_of a)
                  || bool_decide (selection_of r = selection_of b) = true).
    { rewrite orb_true_iff, !bool_decide_eq_true. done. }
    rewrite Hs'. destruct Hh as [->| ->]; cbn; by rewrite orb_true_r.
Qed.

Lemma resolve_fault_ok bk repair start o losing bk' :
  book_ok bk -> repair_ok repair -> verify_historical repair = Ok tt ->
  rp_issuer_tenure_start_group_epoch repair = Some start ->
  resolve_fault bk repair start = Ok (o, losing, bk') -> book_ok bk'.
Proof.
  intros Hb Hrep Hh Hiss H. unfold resolve_fault in H.
  destruct (bk_fault bk) as [[a b]|] eqn:Ha; [cbn [ok_or] in H; rewrite bind_Ok in H | done].
  res_inv. bool_simpl. destruct a2 as [sel los]. simplify_eq.
  destruct Hb. rewrite Ha in *. cbn in bo_fault0, bo_fault_receipts0.
  destruct bo_fault_receipts0 as [Ca Cb], bo_fault0 as [Hf Hdoc].
  destruct (fault_consistent_true _ _ _ _ Hf) as (_ & _ & Ht & Hc & _).
  apply restore_verified_ok in Ha0 as [Va _], Ha1 as [Vb _].
  assert (Hev : forall x y, (x, y) = (a, b) \/ (x, y) = (b, a) ->
    Receipt_hash x = rp_selected_receipt_hash repair ->
    receipt_canonical x /\ receipt_canonical y /\ bk_document bk = Some (r_document x) /\
    Resolved_verify (mkResolvedRepair repair x y) (bk_document bk) (rp_repair_sequence repair) = Ok tt).
  { intros x y Hxy Hx.
    assert (Hce : check_evidence repair x y = Ok tt).
    { apply check_evidence_ok. rewrite conflicting_receipt_pair_ok.
      destruct Hrep. unfold is_v2. rewrite Hiss.
      destruct Hxy as [[= -> ->]|[= -> ->]]; split_and!; try (done || congruence || lia).
      - rewrite receipts_conflict_sym. done.
      - rewrite sort_pair_hashes. done. }
    split_and!; [by destruct Hxy as [[= -> ->]|[= -> ->]] .. | | ].
    - destruct Hxy as [[= -> ->]|[= -> ->]]; congruence.
    - unfold Resolved_verify. cbn [rs_repair rs_selected rs_losing]. rewrite Hh, bind_Ok, Hce, bind_Ok.
      unfold refuse_if. match goal with |- (if ?c then _ else _) = _ => assert (Hz : c = false); [|by rewrite Hz] end. rewrite !orb_false_iff. split_and!.
      + apply bool_decide_eq_false_2. intros []. congruence.
      + apply bool_decide_eq_false_2. intros []. done.
      + apply negb_false_iff, N.eqb_refl.
      + apply N.eqb_neq. lia. }
  assert (Hsl : ((sel, losing) = (a, b) \/ (sel, losing) = (b, a)) /\
                Receipt_hash sel = rp_selected_receipt_hash repair).
  { unfold select_receipt in Ha2. repeat case_bool_decide; simplify_eq; auto. }
  destruct Hsl as [Hsl Hsel]. destruct (Hev _ _ Hsl Hsel) as (C1 & C2 & Hd & HR).
  constructor; cbn; try done. by apply ro_sequence.
Qed.

Lemma apply_repair_ok {G} `{OwnerAuthority G} bk repair (group : G) start o losing bk' :
  book_ok bk -> repair_ok repair -> apply_repair bk repair group start = Ok (o, losing, bk') ->
  book_ok bk'.
Proof.
  intros Hb Hr H'. unfold apply_repair in H'. res_inv. destruct a.
  apply Repair_verify_current_owner_ok in Ha as (_ & Hi & _ & _ & Hh).
  destruct (bk_resolved_repair bk) as [s|] eqn:Es; [destruct (_ && _)|].
  - by simplify_eq.
  - by eapply resolve_fault_ok.
  - by eapply resolve_fault_ok.
Qed.

Lemma mark_installed_ok b : book_ok b -> book_ok (mark_latest_installed b).
Proof. intros []. by constructor. Qed.
End invariant.

(** * Persistence lemmas *)

Section persistence.
Context {C : Crypto}.

Definition tenure_bytes (t : TenureSelection) : bytes :=
  lp (ts_tenure_id t) ++ be_bytes 8 (ts_tenure_start_group_epoch t) ++
  inherited_bytes (ts_inherited t) ++ lp (ts_owner_public_key t).

Definition receipt_bytes (r : Receipt) : bytes := lp (Receipt_encode r).

Definition fault_bytes (f : Receipt * Receipt) : bytes := receipt_bytes f.1 ++ receipt_bytes f.2.

Definition resolved_bytes (s : ResolvedRepair) : bytes :=
  lp (Repair_encode (rs_repair s)) ++ receipt_bytes (rs_selected s) ++ receipt_bytes (rs_losing s).

Definition book_bytes (b : ReceiptBook) : bytes :=
  be_bytes 1 (book_version b false) ++ opt_bytes tenure_bytes (bk_tenure b) ++
  opt_bytes receipt_bytes (bk_latest b) ++ opt_bytes receipt_bytes (bk_previous_until_installed b) ++
  opt_bytes fault_bytes (bk_fault b) ++ be_bytes 8 (bk_repair_sequence b) ++
  match bk_resolved_repair b with Some s => resolved_bytes s | None => [] end.

Definition tenure_ok (t : TenureSelection) : Prop :=
  length (ts_tenure_id t) = 32%nat /\ ts_tenure_start_group_epoch t <= u64_max /\
  inherited_ok (ts_inherited t) /\ length (ts_owner_public_key t) = 32%nat.

Lemma selection_tenure_ok r : receipt_canonical r -> tenure_ok (selection_of r).
Proof. by intros [[] _]. Qed.

Lemma put_tenure_fields_eq t e : put_tenure_fields t e = e ++ tenure_bytes t.
Proof.
  unfold put_tenure_fields, tenure_bytes, put_u64.
  rewrite put_bytes_x_lp, inherited_encode_eq, put_hash_eq. by rewrite <- !app_assoc.
Qed.

Lemma put_tenure_eq t e : put_tenure t e = e ++ opt_bytes tenure_bytes t.
Proof. apply put_option_eq. intros. apply put_tenure_fields_eq. Qed.

Lemma put_receipt_eq r e : put_receipt r e = e ++ opt_bytes receipt_bytes r.
Proof. unfold put_receipt. apply put_option_eq. intros. apply put_bytes_x_lp. Qed.

Lemma put_fault_eq f e : put_fault f e = e ++ opt_bytes fault_bytes f.
Proof.
  unfold put_fault. apply put_option_eq. intros. rewrite !put_bytes_x_lp. by rewrite <- app_assoc.
Qed.

Lemma Resolved_encode_eq s e : Resolved_encode_into s e = e ++ resolved_bytes s.
Proof.
  unfold Resolved_encode_into, resolved_bytes. rewrite !put_bytes_x_lp. by rewrite <- !app_assoc.
Qed.

Lemma len_receipt_bytes r : receipt_canonical r -> len (receipt_bytes r) <= 781.
Proof.
  intros [H _]. unfold receipt_bytes. autorewrite with mewtual_len.
  pose proof (len_Receipt_encode r H). lia.
Qed.

Lemma len_tenure_bytes t : tenure_ok t -> len (tenure_bytes t) <= 162.
Proof.
  intros (H1 & H2 & H3 & H4). unfold tenure_bytes. autorewrite with mewtual_len.
  pose proof (len_inherited _ H3). rewrite (len_of_length _ _ H1), (len_of_length _ _ H4). lia.
Qed.

Lemma len_opt_le {A} (enc : A -> bytes) (P : A -> Prop) n o :
  (forall a, P a -> len (enc a) <= n) -> opt_ok P o -> len (opt_bytes enc o) <= n + 1.
Proof.
  intros Hn Ho. rewrite len_opt_bytes. destruct o as [a|]; cbn in *; [|lia].
  specialize (Hn a Ho). lia.
Qed.

Lemma len_resolved_bytes s :
  repair_ok (rs_repair s) -> receipt_canonical (rs_selected s) -> receipt_canonical (rs_losing s) ->
  len (resolved_bytes s) <= 2293.
Proof.
  intros H1 H2 H3. unfold resolved_bytes. autorewrite with mewtual_len.
  pose proof (len_Repair_encode _ H1). pose proof (len_receipt_bytes _ H2).
  pose proof (len_receipt_bytes _ H3). lia.
Qed.

Lemma book_tenure_ok b : book_ok b -> opt_ok tenure_ok (bk_tenure b).
Proof.
  intros []. rewrite bo_tenure0. destruct (bk_latest b); [|done]. cbn in *.
  by apply selection_tenure_ok.
Qed.

Lemma len_book_bytes b : book_ok b -> len (book_bytes b) <= 5602.
Proof.
  intros Hb. pose proof (book_tenure_ok b Hb) as Ht. destruct Hb. unfold book_bytes.
  rewrite !len_app, !len_be_bytes.
  pose proof (len_opt_le _ _ _ _ len_tenure_bytes Ht).
  pose proof (len_opt_le _ _ _ _ len_receipt_bytes bo_latest0).
  pose proof (len_opt_le _ _ _ _ len_receipt_bytes bo_previous0).
  assert (len (opt_bytes fault_bytes (bk_fault b)) <= 1562 + 1).
  { refine (len_opt_le _ _ _ _ _ bo_fault_receipts0). intros f [F1 F2]. unfold fault_bytes.
    autorewrite with mewtual_len. pose proof (len_receipt_bytes _ F1).
    pose proof (len_receipt_bytes _ F2). lia. }
  assert (len match bk_resolved_repair b with Some s => resolved_bytes s | None => [] end <= 2293).
  { destruct (bk_resolved_repair b) as [s|]; [|done]. destruct bo_resolved0 as (? & ? & ? & _).
    by apply len_resolved_bytes. }
  lia.
Qed.

Lemma encode_mode_eq b :
  encode_mode b false =
  if MAX_RECEIPT_BOOK_BYTES <? len (book_bytes b) then Err EpochBound else Ok (book_bytes b).
Proof.
  unfold encode_mode. cbv zeta.
  assert (He : match bk_resolved_repair b with
    | Some s => ([] |> put_u8 (book_version b false) |> put_tenure (bk_tenure b)
        |> put_receipt (bk_latest b) |> put_receipt (bk_previous_until_installed b)
        |> put_fault (bk_fault b) |> put_u64 (bk_repair_sequence b) |> Resolved_encode_into s)
    | None => ([] |> put_u8 (book_version b false) |> put_tenure (bk_tenure b)
        |> put_receipt (bk_latest b) |> put_receipt (bk_previous_until_installed b)
        |> put_fault (bk_fault b) |> put_u64 (bk_repair_sequence b))
    end = book_bytes b).
  { unfold book_bytes, put_u8, put_u64. rewrite put_fault_eq, !put_receipt_eq, put_tenure_eq.
    destruct (bk_resolved_repair b); rewrite ?Resolved_encode_eq, ?app_nil_r; by rewrite <- !app_assoc. }
  by rewrite He.
Qed.

Lemma encode_ok b : book_ok b -> ReceiptBook_encode b = Ok (book_bytes b).
Proof.
  intros Hb. unfold ReceiptBook_encode. rewrite encode_mode_eq.
  pose proof (len_book_bytes b Hb). rewrite (proj2 (N.ltb_ge _ _)); [done|].
  unfold MAX_RECEIPT_BOOK_BYTES. lia.
Qed.

Lemma reads_receipt_field r : receipt_canonical r -> reads read_receipt (receipt_bytes r) r.
Proof.
  intros H. pose proof (len_Receipt_encode r (proj1 H)) as Hl. unfold read_receipt, receipt_bytes.
  eapply reads_bind_last; [apply reads_mal, reads_bytes; unfold u32_max; lia|].
  apply reads_lift_ok. by apply Receipt_decode_spec.
Qed.

Lemma consumes_receipt_field :
  consumes read_receipt (fun r bs => bs = receipt_bytes r /\ receipt_canonical r).
Proof.
  intros d r d' H. unfold read_receipt in H. dec_step H. destruct Hr as [-> _].
  apply Receipt_decode_spec in H as [H He]. eexists; split_and!; [exact R | | done].
  unfold receipt_bytes. by rewrite He.
Qed.
#[local] Hint Resolve consumes_receipt_field : mewtual_dec.

Lemma reads_tenure t : opt_ok tenure_ok t -> reads get_tenure (opt_bytes tenure_bytes t) t.
Proof.
  intros H. apply reads_option. destruct t as [[tid start inh key]|]; [|done].
  destruct H as (H1 & H2 & H3 & H4); cbn in *. unfold tenure_bytes; cbn. reads_go.
  - by apply reads_fixed.
  - by apply reads_mal, reads_u64.
  - by apply reads_inherited.
  - apply reads_mal, reads_bytes. by apply (len_u32_of_length _ 32).
  - apply negb_false_iff, N.eqb_eq. by apply (len_of_length _ 32).
Qed.

Lemma consumes_tenure :
  consumes get_tenure (fun t bs => bs = opt_bytes tenure_bytes t /\ opt_ok tenure_ok t).
Proof.
  apply consumes_option. intros d t d' H. dec_step H. bool_simpl.
  destruct Hr as [-> ?], Hr0 as [-> ?], Hr1 as [-> ?], Hr2 as [-> ?].
  eexists; split_and!; [|reflexivity|].
  - unfold tenure_bytes; cbn. rewrite R, R0, R1, R2. by rewrite <- !app_assoc.
  - unfold tenure_ok; cbn. split_and!; try done. unfold len in *. lia.
Qed.

Definition fault_receipts_ok (f : Receipt * Receipt) : Prop :=
  receipt_canonical f.1 /\ receipt_canonical f.2.

Lemma reads_fault f :
  opt_ok fault_receipts_ok f -> reads get_fault (opt_bytes fault_bytes f) f.
Proof.
  intros H. apply reads_option. destruct f as [[a b]|]; [|done]. destruct H as [H1 H2]; cbn in *.
  unfold fault_bytes; cbn. reads_go; by apply reads_receipt_field.
Qed.

Lemma consumes_fault :
  consumes get_fault (fun f bs => bs = opt_bytes fault_bytes f /\ opt_ok fault_receipts_ok f).
Proof.
  apply consumes_option. intros d t d' H. dec_step H. destruct Hr as [-> ?], Hr0 as [-> ?].
  eexists; split_and!; [|reflexivity|done]. unfold fault_bytes; cbn. rewrite R, R0.
  by rewrite <- !app_assoc.
Qed.

Lemma consumes_receipt_opt :
  consumes get_receipt (fun r bs => bs = opt_bytes receipt_bytes r /\ opt_ok receipt_canonical r).
Proof. apply consumes_option, consumes_receipt_field. Qed.

Definition resolved_fields_ok (s : ResolvedRepair) : Prop :=
  repair_ok (rs_repair s) /\ receipt_canonical (rs_selected s) /\ receipt_canonical (rs_losing s).

Lemma reads_resolved s : resolved_fields_ok s -> reads Resolved_decode_from (resolved_bytes s) s.
Proof.
  intros (H1 & H2 & H3). destruct s as [r a b]. unfold Resolved_decode_from, resolved_bytes.
  cbn [rs_repair rs_selected rs_losing] in *.
  pose proof (len_Repair_encode r H1). reads_go.
  - apply reads_mal, reads_bytes. unfold u32_max. lia.
  - by apply Repair_decode_spec.
  - by apply reads_receipt_field.
  - by apply reads_receipt_field.
Qed.

Lemma consumes_resolved :
  consumes Resolved_decode_from (fun s bs => bs = resolved_bytes s /\ resolved_fields_ok s).
Proof.
  intros d s d' H. unfold Resolved_decode_from in H. dec_step H.
  destruct Hr as [-> _], Hr1 as [-> ?], Hr2 as [-> ?]. apply Repair_decode_spec in Hr0 as [? <-].
  eexists; split; [|split; [reflexivity | by split_and!]].
  unfold resolved_bytes; cbn [rs_repair rs_selected rs_losing]. rewrite R, R0, R1.
  by rewrite <- !app_assoc.
Qed.

Lemma book_version_cases b :
  (exists s, bk_resolved_repair b = Some s /\ book_version b false = 4) \/
  (bk_resolved_repair b = None /\
   book_version b false = if historical_fault (bk_fault b) (bk_latest b) then 2 else 1).
Proof. unfold book_version. destruct (bk_resolved_repair b); [left | right]; eauto. Qed.

Lemma reads_book b :
  book_ok b -> reads (book_read false) (book_bytes b) (book_version b false, b).
Proof.
  intros Hb. pose proof (book_tenure_ok b Hb) as Ht. destruct Hb. unfold book_read, book_bytes.
  assert (Hres : reads (read_resolved (book_version b false))
    match bk_resolved_repair b with Some s => resolved_bytes s | None => [] end
    (bk_resolved_repair b)).
  { unfold read_resolved. destruct (book_version_cases b) as [(s & Es & ->)|[Es ->]]; rewrite Es in *.
    - cbn [N.eqb Pos.eqb orb]. eapply reads_bind_last; [|apply reads_ret]. apply reads_resolved.
      by destruct bo_resolved0 as (? & ? & ? & _).
    - destruct (historical_fault _ _); cbn [N.eqb Pos.eqb orb]; apply reads_ret. }
  assert (Hv : book_version b false = 1 \/ book_version b false = 2 \/ book_version b false = 4).
  { destruct (book_version_cases b) as [(s & _ & ->)|[_ ->]]; [by right; right|].
    destruct (historical_fault _ _); auto. }
  replace (book_version b false, b) with (book_version b false,
    mkReceiptBook match bk_latest b with
      | Some r => Some (r_document r)
      | None => (fun s => rp_document (rs_repair s)) <$> bk_resolved_repair b
      end (bk_tenure b) (bk_latest b) (bk_previous_until_installed b) (bk_fault b)
      (bk_repair_sequence b) (bk_resolved_repair b))
    by (rewrite <- bo_document0; by destruct b).
  reads_go; try done.
  - apply reads_mal, reads_u8. by destruct Hv as [->|[->| ->]].
  - by destruct Hv as [->|[->| ->]].
  - by apply reads_tenure.
  - apply reads_option. destruct (bk_latest b); [|done]. by apply reads_receipt_field.
  - apply reads_option. destruct (bk_previous_until_installed b); [|done]. by apply reads_receipt_field.
  - by apply reads_fault.
  - by apply reads_mal, reads_u64.
Qed.

Lemma Resolved_verify_unit s d n u : Resolved_verify s d n = Ok u -> Resolved_verify s d n = Ok tt.
Proof. by destruct u. Qed.

Lemma decode_ok b : book_ok b -> ReceiptBook_decode (book_bytes b) = Ok b.
Proof.
  intros Hb. unfold ReceiptBook_decode, decode_mode.
  pose proof (len_book_bytes b Hb) as Hl.
  rewrite refuse_if_bind_false by (apply N.ltb_ge; unfold MAX_RECEIPT_BOOK_BYTES; lia).
  rewrite (run_exact_reads _ _ _ (reads_book b Hb)), bind_Ok.
  destruct Hb. destruct (bk_latest b) as [l|] eqn:El.
  - rewrite bo_tenure0. rewrite !refuse_if_bind_false; try done.
    + destruct (bk_resolved_repair b) as [s|]; [|done].
      destruct bo_resolved0 as (_ & _ & _ & ->). done.
    + apply negb_false_iff. rewrite bo_scope0. destruct (bk_fault b) as [[x y]|]; [|done].
      destruct bo_fault0 as [Hf Hd]; cbn in *. rewrite Hd.
      destruct (fault_consistent_true _ _ _ _ Hf) as (_ & <- & _).
      by rewrite !bool_decide_eq_true_2.
    + destruct (book_version_cases b) as [(s & Es & ->)|[Es ->]]; [done|]. rewrite El.
      by destruct (historical_fault (bk_fault b) (Some l)).
    + destruct (bk_fault b) as [[x y]|] eqn:Ef; [|done]. destruct bo_fault0 as [Hf _]; cbn in Hf.
      apply negb_false_iff. apply (fault_consistent_version _ _ _ _ _ Hf). intros Hh.
      destruct (book_version_cases b) as [(s & Es & ->)|[Es ->]]; [by right|].
      rewrite Ef, El, Hh. by left.
    + apply bool_decide_eq_false_2. by intros [].
  - rewrite bo_tenure0. rewrite (bo_orphan0 eq_refl).
    destruct (bk_fault b) as [[x y]|] eqn:Ef.
    { destruct bo_fault0 as [Hf _]. by destruct (fault_consistent_true _ _ _ _ Hf) as (_ & _ & _ & _ & r & ? & _). }
    rewrite !refuse_if_bind_false; try done.
    + destruct (bk_resolved_repair b) as [s|]; [|done].
      destruct bo_resolved0 as (_ & _ & _ & ->). done.
    + destruct (book_version_cases b) as [(s & Es & ->)|[Es ->]]; [done|]. by rewrite Ef.
Qed.

Lemma consumes_book :
  consumes (book_read false) (fun p bs =>
    (p.1 = 1 \/ p.1 = 2 \/ p.1 = 4) /\
    (p.1 = 4 <-> exists s, bk_resolved_repair p.2 = Some s) /\
    (book_version p.2 false = p.1 -> bs = book_bytes p.2) /\
    opt_ok receipt_canonical (bk_latest p.2) /\
    opt_ok receipt_canonical (bk_previous_until_installed p.2) /\
    opt_ok fault_receipts_ok (bk_fault p.2) /\ bk_repair_sequence p.2 <= u64_max /\
    opt_ok resolved_fields_ok (bk_resolved_repair p.2) /\
    bk_document p.2 = match bk_latest p.2 with
                      | Some r => Some (r_document r)
                      | None => (fun s => rp_document (rs_repair s)) <$> bk_resolved_repair p.2
                      end).
Proof.
  assert (Hres : forall v, v = 1 \/ v = 2 \/ v = 4 -> consumes (read_resolved v) (fun o bs =>
    (v = 4 <-> exists s, o = Some s) /\ opt_ok resolved_fields_ok o /\
    bs = match o with Some s => resolved_bytes s | None => [] end)).
  { intros v Hv d o d' H. unfold read_resolved in H. destruct Hv as [->|[->| ->]]; cbn in H.
    - apply dec_ret_ok in H as [<- <-]. exists []. split_and!; naive_solver.
    - apply dec_ret_ok in H as [<- <-]. exists []. split_and!; naive_solver.
    - apply dec_bind_ok in H as (s & d1 & Hs & H). apply dec_ret_ok in H as [<- <-].
      destruct (consumes_resolved _ _ _ Hs) as (bs & R & -> & Hok).
      exists (resolved_bytes s). split; [done|]. split; [naive_solver | done]. }
  intros d [v b] d' H. unfold book_read in H.
  apply dec_bind_ok in H as (v' & d1 & Hv & H). destruct (consumes_m_u8 _ _ _ Hv) as (b1 & R1 & -> & _).
  apply dec_bind_ok in H as (u & d2 & Hu & H). apply dec_refuse_ok in Hu as [Hu <-].
  assert (Hcase : v' = 1 \/ v' = 2 \/ v' = 4).
  { clear - Hu. rewrite !andb_false_iff, !negb_false_iff, !N.eqb_eq in Hu. tauto. }
  apply dec_bind_ok in H as (t & d3 & Ht & H). destruct (consumes_tenure _ _ _ Ht) as (b3 & R3 & -> & _).
  apply dec_bind_ok in H as (l & d4 & Hl & H).
  destruct (consumes_receipt_opt _ _ _ Hl) as (b4 & R4 & -> & Cl).
  apply dec_bind_ok in H as (p & d5 & Hp & H).
  destruct (consumes_receipt_opt _ _ _ Hp) as (b5 & R5 & -> & Cp).
  apply dec_bind_ok in H as (f & d6 & Hf & H). destruct (consumes_fault _ _ _ Hf) as (b6 & R6 & -> & Cf).
  apply dec_bind_ok in H as (q & d7 & Hq & H). destruct (consumes_m_u64 _ _ _ Hq) as (b7 & R7 & -> & Cq).
  apply dec_bind_ok in H as (s & d8 & Hs & H).
  destruct (Hres _ Hcase _ _ _ Hs) as (b8 & R8 & Hiff & Cs & ->).
  apply dec_ret_ok in H as [[= <- <-] <-].
  eexists; split; [rewrite R1, R3, R4, R5, R6, R7, R8; rewrite !app_assoc; reflexivity|].
  cbn [fst snd bk_latest bk_previous_until_installed bk_fault bk_repair_sequence bk_resolved_repair
       bk_document]. split_and!; try done. intros Hver. unfold book_bytes. rewrite Hver.
  cbn [bk_latest bk_previous_until_installed bk_fault bk_repair_sequence bk_resolved_repair bk_tenure].
  by rewrite <- !app_assoc.
Qed.

Lemma decode_inv input b :
  ReceiptBook_decode input = Ok b -> book_ok b /\ ReceiptBook_encode b = Ok input.
Proof.
  unfold ReceiptBook_decode, decode_mode. intros H.
  apply refuse_if_bind_ok in H as [Hlen H]. apply bind_ok in H as ([v b'] & Hread & H).
  destruct (run_exact_consumes _ _ _ _ Hread consumes_book)
    as (Hv & Hv4 & Hbytes & Cl & Cp & Cf & Cq & Cs & Hdoc); cbn [fst snd] in *.
  apply refuse_if_bind_ok in H as [Htl H]. apply refuse_if_bind_ok in H as [Horph H].
  apply refuse_if_bind_ok in H as [Hsel H]. apply refuse_if_bind_ok in H as [Hfault H].
  apply refuse_if_bind_ok in H as [Hhist H]. apply refuse_if_bind_ok in H as [Hscope H].
  apply bind_ok in H as (u & Hres & H). injection H as ->.
  apply negb_false_iff, andb_true_iff in Hscope as [[Hs1 Hs2]%andb_true_iff Hs3].
  assert (Hver : book_version b false = v).
  { unfold book_version. destruct (bk_resolved_repair b) as [s|].
    - symmetry. apply Hv4. by exists s.
    - assert (v <> 4) by (intros [s ?]%Hv4; done). cbn [negb] in Hhist.
      rewrite (proj2 (N.eqb_neq v 4)) in Hhist by done. cbn [negb andb] in Hhist.
      apply negb_false_iff, eqb_prop in Hhist. rewrite <- Hhist.
      destruct Hv as [->|[->| ->]]; done. }
  assert (Hok : book_ok b).
  { constructor; try done.
    - destruct (bk_tenure b), (bk_latest b); try done. apply bool_decide_eq_false, dec_stable in Hsel.
      cbn. by rewrite Hsel.
    - intros E. rewrite E in Horph. by destruct (bk_previous_until_installed b).
    - destruct (bk_fault b) as [[x y]|] eqn:Ef; [|done]. apply negb_false_iff in Hfault. split.
      + apply (fault_consistent_version _ _ _ _ _ Hfault). by right.
      + cbn in *. by apply bool_decide_eq_true in Hs2.
    - destruct (bk_resolved_repair b) as [s|]; [|done]. destruct Cs as (? & ? & ?).
      destruct u. split_and!; done. }
  split; [done|]. rewrite (encode_ok _ Hok), (Hbytes Hver). done.
Qed.
End persistence.

(** * Properties *)

(** The book's mutating operations over a set of receipts, receipts and repairs
    being as their decoders deliver them. *)
Inductive book_step {C : Crypto} (rs : list Receipt) : ReceiptBook -> ReceiptBook -> Prop :=
| bs_ingest r o b b' :
    r ∈ rs -> receipt_canonical r -> ingest_verified b r = Ok (o, b') -> book_step rs b b'
| bs_repair (group : ServerGroup) repair start o losing b b' :
    repair_ok repair -> apply_repair b repair group start = Ok (o, losing, b') -> book_step rs b b'
| bs_installed b : book_step rs b (mark_latest_installed b).

(** No two receipts of the set share a hash. *)
Definition distinct_hashes {C : Crypto} (rs : list Receipt) : Prop :=
  Forall (fun l => Forall (distinguished l) rs) rs.

#[global] Instance distinct_hashes_dec {C : Crypto} rs : Decision (distinct_hashes rs).
Proof. unfold distinct_hashes, distinguished. apply _. Defined.

Lemma distinct_hashes_elem {C : Crypto} rs l r :
  distinct_hashes rs -> l ∈ rs -> r ∈ rs -> distinguished l r.
Proof. unfold distinct_hashes. rewrite Forall_forall. setoid_rewrite Forall_forall. auto. Qed.

(** The receipts an ingest compares against or selects from. *)
Definition book_known (rs : list Receipt) (b : ReceiptBook) : Prop :=
  opt_ok (fun r => r ∈ rs) (bk_latest b) /\
  opt_ok (fun f => f.1 ∈ rs /\ f.2 ∈ rs) (bk_fault b).

Lemma book_default_ok {C : Crypto} : book_ok ReceiptBook_default.
Proof. by constructor. Qed.

Lemma record_fault_known {C : Crypto} rs b t l r :
  l ∈ rs -> r ∈ rs -> book_known rs (record_fault b t (canonical_receipt_pair l r)).
Proof.
  intros Hl Hr. destruct (canonical_pair_Forall (fun x => x ∈ rs) l r Hl Hr). by repeat split.
Qed.

Lemma ingest_known {C : Crypto} rs b r o b' :
  book_ok b -> book_known rs b -> r ∈ rs -> ingest_verified b r = Ok (o, b') -> book_known rs b'.
Proof.
  intros Hb Hk Hr H. destruct (ingest_cases _ _ _ _ Hb H) as [Hi _]. pose proof Hk as [Kl Kf].
  destruct Hi as [f Hf|Hf Hl|Hf Hn Hl|l Hf Hn Hl Ht Hs|l Hf Hn Hl Hs Hc Hh|l Hf Hn Hl Hs Hc Hh
                 |l Hf Hn Hl Hs Hc|l Hf Hn Hl Hcase]; try done; rewrite Hl in Kl;
    by apply record_fault_known.
Qed.

Lemma resolve_fault_known {C : Crypto} rs bk repair start o losing bk' :
  book_known rs bk -> resolve_fault bk repair start = Ok (o, losing, bk') -> book_known rs bk'.
Proof.
  intros [_ Kf] H. unfold resolve_fault in H. destruct (bk_fault bk) as [[a b]|]; [|done].
  cbn [ok_or] in H. rewrite bind_Ok in H. res_inv. destruct a2 as [sel los]. simplify_eq.
  destruct Kf as [Ka Kb]. unfold select_receipt in Ha1. repeat case_bool_decide; simplify_eq; done.
Qed.

Lemma book_step_ok {C : Crypto} rs b b' :
  distinct_hashes rs -> book_step rs b b' -> book_ok b -> book_known rs b ->
  book_ok b' /\ book_known rs b'.
Proof.
  intros Hd Hs Hb Hk. revert Hb Hk.
  destruct Hs as [r o b1 b2 Hin Hr H|group repair start o losing b1 b2 Hr H|b1]; intros Hb Hk.
  - split; [|by eapply ingest_known]. eapply ingest_ok; [done.. | | done].
    destruct Hk as [Kl _]. destruct (bk_latest b1); [|done]. by eapply distinct_hashes_elem.
  - split; [exact (apply_repair_ok _ _ _ _ _ _ _ Hb Hr H)|].
    unfold apply_repair in H. res_inv. destruct (bk_resolved_repair b1); [destruct (_ && _)|];
      simplify_eq; try done; by eapply resolve_fault_known.
  - by split; [apply mark_installed_ok|].
Qed.

Lemma book_run_ok {C : Crypto} rs b b' :
  distinct_hashes rs -> rtc (book_step rs) b b' -> book_ok b -> book_known rs b ->
  book_ok b' /\ book_known rs b'.
Proof.
  intros Hd Hr. induction Hr as [|x y z Hs _ IH]; [done|]. intros Hb Hk.
  destruct (book_step_ok _ _ _ Hd Hs Hb Hk). by apply IH.
Qed.

(** Every book reachable from the empty one by ingesting receipts, applying
    repairs and installing checkpoints is well-formed (tenure and document
    agree with the latest receipt, fault evidence is an ordered conflicting
    pair of the document's receipts, a resolved repair is verified and carries
    the book's sequence), encodes within 8 KiB, and decodes back to itself,
    provided no two of the receipts it was given share a hash. Conversely bytes
    that decode are a well-formed book's own encoding: orphaned predecessors,
    unordered or consistent "fault" pairs, a version that misstates the
    evidence, or an unverifiable repair are refused. *)
Theorem book_crash_safe {C : Crypto} rs b :
  distinct_hashes rs -> rtc (book_step rs) ReceiptBook_default b ->
  (book_ok b /\ exists bs, ReceiptBook_encode b = Ok bs /\ len bs <= MAX_RECEIPT_BOOK_BYTES /\
     ReceiptBook_decode bs = Ok b) /\
  (forall input b', ReceiptBook_decode input = Ok b' ->
     ReceiptBook_encode b' = Ok input /\ book_ok b').
Proof.
  intros Hd Hr. destruct (book_run_ok _ _ _ Hd Hr book_default_ok) as [H _]; [done|].
  split; [|intros input b' E; by destruct (decode_inv _ _ E)]. split; [done|]. exists (book_bytes b).
  split_and!; [by apply encode_ok | | by apply decode_ok].
  pose proof (len_book_bytes b H). unfold MAX_RECEIPT_BOOK_BYTES. lia.
Qed.

Lemma ingest_scope {C : Crypto} b r o b' :
  ingest_verified b r = Ok (o, b') ->
  bk_document b = None \/ bk_document b = Some (r_document r).
Proof.
  unfold ingest_verified. intros [Hd _]%refuse_if_bind_ok. destruct (bk_document b); [|by left].
  apply bool_decide_eq_false, dec_stable in Hd. right. by rewrite Hd.
Qed.

(** What ingesting a verified receipt does on each outcome. An advance
    installs the receipt above the previous head, which it keeps until the
    checkpoint is installed, and within a tenure the closed epoch strictly
    grows; a duplicate or stale receipt changes nothing; a fault freezes the
    evidence: a book already faulted is unchanged, otherwise the ordered pair
    of the old head and the receipt is recorded and its first member is the
    provisional head. *)
Theorem ingest_outcomes {C : Crypto} b r o b' :
  book_ok b -> ingest_verified b r = Ok (o, b') ->
  match o with
  | IngestAdvanced =>
      bk_fault b' = None /\ bk_latest b' = Some r /\ bk_previous_until_installed b' = bk_latest b /\
      forall l, bk_latest b = Some l -> r_tenure_id l = r_tenure_id r ->
        r_closed_epoch l < r_closed_epoch r /\ bk_tenure b' = bk_tenure b
  | IngestDuplicate => b' = b /\ exists l, bk_latest b = Some l /\ Receipt_hash l = Receipt_hash r
  | IngestStale => b' = b
  | IngestFault =>
      (is_faulted b = true /\ b' = b) \/
      (is_faulted b = false /\ exists l, bk_latest b = Some l /\ r_tenure_id l = r_tenure_id r /\
         bk_fault b' = Some (canonical_receipt_pair l r) /\
         bk_latest b' = Some (canonical_receipt_pair l r).1 /\
         (r_closed_epoch l = r_closed_epoch r \/ selection_of l <> selection_of r))
  end.
Proof.
  intros Hb H. destruct (ingest_cases _ _ _ _ Hb H) as [Hi _].
  assert (Hsel : forall l, selection_of l = selection_of r -> r_tenure_id l = r_tenure_id r)
    by (unfold selection_of; intros l E; congruence).
  destruct Hi as [f Hf|Hf Hl|Hf Hn Hl|l Hf Hn Hl Ht Hs|l Hf Hn Hl Hs Hc Hh|l Hf Hn Hl Hs Hc Hh
                 |l Hf Hn Hl Hs Hc|l Hf Hn Hl Hcase]; unfold is_faulted; rewrite ?Hf; cbn; try done.
  - by left.
  - split_and!; try done. intros l'. by rewrite Hl.
  - right. split; [done|]. exists l. auto 10.
  - split; [done|]. by exists l.
  - right. split; [done|]. exists l. split_and!; auto.
  - split_and!; try done. intros l' [= <-]%(eq_trans (eq_sym Hl)) Ht.
    destruct Hcase as [|[Hs Hc]]; [done|]. split; [done|]. by rewrite (bo_tenure _ Hb), Hl, <- Hs.
Qed.

Lemma ingest_conflict_faults {C : Crypto} b l r :
  bk_document b = Some (r_document r) -> bk_fault b = None -> is_repaired_loser b r = false ->
  bk_latest b = Some l -> bk_tenure b = Some (selection_of l) -> receipts_conflict l r = true ->
  ingest_verified b r =
    Ok (IngestFault, record_fault b (Some (selection_of (canonical_receipt_pair l r).1))
                       (canonical_receipt_pair l r)).
Proof.
  intros Hd Hf Hn Hl Ht (_ & Htid & Hh & Hc)%receipts_conflict_true. unfold ingest_verified.
  rewrite Hd, refuse_if_bind_false by (apply bool_decide_eq_false_2; by intros []).
  cbv zeta. cbn [default from_option id]. rewrite <- Hd.
  replace (mkReceiptBook _ _ _ _ _ _ _) with b by (by destruct b).
  unfold is_faulted. rewrite Hf, Hn, Ht, Hl.
  rewrite bool_decide_eq_true_2 by done. case_bool_decide as Hs; [done|].
  assert (selection_of (canonical_receipt_pair l r).1 = selection_of l) as ->
    by (unfold canonical_receipt_pair; by destruct (kltb _ _)).
  unfold ingest_head. rewrite Hl. rewrite bool_decide_eq_true_2 by done.
  destruct Hc as [Hc|]; [|done]. rewrite (proj2 (N.eqb_eq _ _) Hc).
  rewrite bool_decide_eq_false_2 by done. by rewrite Ht.
Qed.

Lemma ingest_faulted {C : Crypto} b r f :
  bk_document b = Some (r_document r) -> bk_fault b = Some f ->
  ingest_verified b r = Ok (IngestFault, b).
Proof.
  intros Hd Hf. unfold ingest_verified.
  rewrite Hd, refuse_if_bind_false by (apply bool_decide_eq_false_2; by intros []).
  cbv zeta. cbn [default from_option id]. rewrite <- Hd.
  replace (mkReceiptBook _ _ _ _ _ _ _) with b by (by destruct b).
  unfold is_faulted. by rewrite Hf.
Qed.

(** The book after an advance. *)
Lemma advance_shape {C : Crypto} b r b' :
  book_ok b -> ingest_verified b r = Ok (IngestAdvanced, b') ->
  is_repaired_loser b r = false /\
  b' = mkReceiptBook (Some (r_document r)) (Some (selection_of r)) (Some r) (bk_latest b) None
         (bk_repair_sequence b) (bk_resolved_repair b).
Proof.
  intros Hb H. pose proof (ingest_scope _ _ _ _ H) as Hd.
  destruct (ingest_cases _ _ _ _ Hb H) as [Hi _].
  inversion Hi as [| |Hf Hn Hl| | | | |l Hf Hn Hl Hcase]; subst; split; try done.
  - by rewrite Hl.
  - rewrite Hl. destruct Hd as [Hd|Hd]; [|by rewrite Hd].
    pose proof (bo_document _ Hb) as Hdoc. rewrite Hl in Hdoc. congruence.
Qed.

(** C7: fault evidence does not depend on delivery order. Two conflicting
    receipts that would each advance the same book leave the same book,
    faulted with the same ordered pair, whichever arrives first, and any
    further receipt for the document leaves that book unchanged. *)
Theorem fault_order_independent {C : Crypto} b r1 r2 b1 b2 :
  book_ok b -> receipt_canonical r1 -> receipt_canonical r2 -> receipts_conflict r1 r2 = true ->
  ingest_verified b r1 = Ok (IngestAdvanced, b1) ->
  ingest_verified b r2 = Ok (IngestAdvanced, b2) ->
  exists bf, ingest_verified b1 r2 = Ok (IngestFault, bf) /\
             ingest_verified b2 r1 = Ok (IngestFault, bf) /\
             bk_fault bf = Some (canonical_receipt_pair r1 r2) /\
             forall r3, r_document r3 = r_document r1 ->
               ingest_verified bf r3 = Ok (IngestFault, bf).
Proof.
  intros Hb H1 H2 Hc A1 A2. destruct (advance_shape _ _ _ Hb A1) as [N1 ->].
  destruct (advance_shape _ _ _ Hb A2) as [N2 ->].
  pose proof Hc as (Hd & Ht & Hh & _)%receipts_conflict_true.
  eexists. split; [|split].
  - by apply ingest_conflict_faults; cbn; try done; rewrite Hd.
  - rewrite (ingest_conflict_faults _ r2 r1); cbn; try done; [| by rewrite Hd | by rewrite receipts_conflict_sym].
    rewrite (canonical_pair_sym r2 r1) by done. unfold record_fault; cbn. by rewrite Hd.
  - split; [done|]. intros r3 Hd3. eapply ingest_faulted; [|done]. cbn. by rewrite Hd3.
Qed.

Lemma resolve_fault_shape {C : Crypto} bk repair start o losing bk' :
  resolve_fault bk repair start = Ok (o, losing, bk') ->
  exists a b sel, bk_fault bk = Some (a, b) /\ ((sel, losing) = (a, b) \/ (sel, losing) = (b, a)) /\
    o = RepairApplied /\ Receipt_hash sel = rp_selected_receipt_hash repair /\
    rp_document repair = r_document losing /\ rp_tenure_id repair = r_tenure_id losing /\
    repair_sequence_for_issuer_tenure bk start < rp_repair_sequence repair /\
    bk' = mkReceiptBook (bk_document bk) (Some (selection_of sel)) (Some sel) None None
            (rp_repair_sequence repair) (Some (mkResolvedRepair repair sel losing)).
Proof.
  intros H. unfold resolve_fault in H. destruct (bk_fault bk) as [[a b]|]; [|done].
  cbn [ok_or] in H. rewrite bind_Ok in H. res_inv. bool_simpl. destruct a2 as [sel los]. simplify_eq.
  exists a, b, sel. unfold select_receipt in Ha1.
  repeat case_bool_decide; simplify_eq; split_and!; auto.
Qed.

(** A verified repair resolves a fault, durably. Applying it clears the
    fault, installs exactly the receipt it selects and raises the sequence of
    its issuer's tenure; afterwards the losing receipt is screened as stale by
    any delivery, and applying the same repair again is a duplicate that
    returns the same loser and changes nothing. *)
Theorem repair_resolves_fault {C : Crypto} {G} `{OwnerAuthority G} bk repair (group : G) start losing bk' :
  book_ok bk -> repair_ok repair ->
  apply_repair bk repair group start = Ok (RepairApplied, losing, bk') ->
  is_faulted bk = true /\ book_ok bk' /\ is_faulted bk' = false /\
  (exists sel, bk_latest bk' = Some sel /\ Receipt_hash sel = rp_selected_receipt_hash repair) /\
  repair_sequence_for_issuer_tenure bk start < repair_sequence_for_issuer_tenure bk' start /\
  ingest_verified bk' losing = Ok (IngestStale, bk') /\
  apply_repair bk' repair group start = Ok (RepairDuplicate, losing, bk').
Proof.
  intros Hb Hr Ha. pose proof (apply_repair_ok _ _ _ _ _ _ _ Hb Hr Ha) as Hb'.
  unfold apply_repair in Ha. apply bind_ok in Ha as ([] & Hv & Ha).
  pose proof Hv as (_ & Hiss & _ & _ & _)%Repair_verify_current_owner_ok.
  assert (Hres : resolve_fault bk repair start = Ok (RepairApplied, losing, bk')).
  { destruct (bk_resolved_repair bk); [destruct (_ && _)|]; try done. }
  destruct (resolve_fault_shape _ _ _ _ _ _ Hres) as (a & b & sel & Hf & Hsl & _ & Hsel & Hd & Ht & Hq & ->).
  assert (Hdoc : bk_document bk = Some (r_document losing)).
  { pose proof (bo_fault _ Hb) as F. rewrite Hf in F. destruct F as [F ->].
    destruct (fault_consistent_true _ _ _ _ F) as (_ & E & _). cbn.
    destruct Hsl as [[= -> ->]|[= -> ->]]; cbn in *; congruence. }
  unfold is_faulted at 1. rewrite Hf. split_and!; try done.
  - by exists sel.
  - unfold repair_sequence_for_issuer_tenure at 2; cbn. by rewrite bool_decide_eq_true_2.
  - unfold ingest_verified. cbn [bk_document]. rewrite Hdoc.
    rewrite refuse_if_bind_false by (apply bool_decide_eq_false_2; by intros []).
    cbv zeta. cbn [default from_option id is_faulted bk_fault].
    unfold is_repaired_loser, covers; cbn. rewrite !bool_decide_eq_true_2 by done. done.
  - unfold apply_repair. rewrite Hv, bind_Ok. cbn [bk_resolved_repair rs_repair rs_losing].
    by rewrite bool_decide_eq_true_2.
Qed.

(** ** Witnesses *)

Definition ingest_or_same (b : ReceiptBook) (r : Receipt) : ReceiptBook :=
  match ingest_verified (C:=toy_crypto) b r with Ok (_, b') => b' | Err _ => b end.

Definition toy_book1 : ReceiptBook := ingest_or_same ReceiptBook_default (toy_receipt_at 3 5).
Definition toy_book2 : ReceiptBook := ingest_or_same toy_book1 (toy_receipt_at 4 2).
Definition toy_book3 : ReceiptBook := ingest_or_same toy_book1 (toy_receipt_at 4 8).
Definition toy_faulted : ReceiptBook := ingest_or_same toy_book2 (toy_receipt_at 4 8).

Definition toy_receipts : list Receipt := [toy_receipt_at 3 5; toy_receipt_at 4 2; toy_receipt_at 4 8].

Lemma toy_distinct : distinct_hashes (C:=toy_crypto) toy_receipts.
Proof. apply (bool_decide_eq_true_1 (distinct_hashes (C:=toy_crypto) toy_receipts)). by vm_compute. Qed.

Lemma toy_canonical_of (r : Receipt) :
  Receipt_decode (C:=toy_crypto) (Receipt_encode r) = Ok r -> receipt_canonical (C:=toy_crypto) r.
Proof. by intros [? _]%Receipt_decode_spec. Qed.

Lemma toy_run_book : rtc (book_step (C:=toy_crypto) toy_receipts) ReceiptBook_default toy_faulted.
Proof.
  eapply rtc_l; [|eapply rtc_l; [|eapply rtc_l; [|apply rtc_refl]]].
  - eapply (bs_ingest _ (toy_receipt_at 3 5) IngestAdvanced _ toy_book1);
      [apply list_elem_of_here | apply toy_canonical_of; by vm_compute | by vm_compute].
  - eapply (bs_ingest _ (toy_receipt_at 4 2) IngestAdvanced _ toy_book2);
      [apply list_elem_of_further, list_elem_of_here | apply toy_canonical_of; by vm_compute | by vm_compute].
  - eapply (bs_ingest _ (toy_receipt_at 4 8) IngestFault _ toy_faulted);
      [do 2 apply list_elem_of_further; apply list_elem_of_here | apply toy_canonical_of; by vm_compute | by vm_compute].
Qed.

Lemma toy_book_ok1 : book_ok (C:=toy_crypto) toy_book1.
Proof. apply (decode_inv (C:=toy_crypto) (book_bytes toy_book1) toy_book1). by vm_compute. Qed.
Lemma toy_faulted_ok : book_ok (C:=toy_crypto) toy_faulted.
Proof. apply (decode_inv (C:=toy_crypto) (book_bytes toy_faulted) toy_faulted). by vm_compute. Qed.

Lemma book_crash_safe_witness :
  exists bs, ReceiptBook_encode toy_faulted = Ok bs /\
    ReceiptBook_decode (C:=toy_crypto) bs = Ok toy_faulted.
Proof.
  destruct (book_crash_safe (C:=toy_crypto) toy_receipts toy_faulted toy_distinct toy_run_book)
    as [(_ & bs & He & _ & Hd) _]. exact (ex_intro _ bs (conj He Hd)).
Defined.

Lemma ingest_outcomes_witness :
  bk_latest toy_book2 = Some (toy_receipt_at 4 2) /\
  bk_previous_until_installed toy_book2 = bk_latest toy_book1.
Proof.
  destruct (ingest_outcomes (C:=toy_crypto) toy_book1 (toy_receipt_at 4 2) IngestAdvanced toy_book2
    toy_book_ok1) as (_ & Hl & Hp & _); [by vm_compute|]. exact (conj Hl Hp).
Defined.

Lemma fault_order_independent_witness :
  exists bf, ingest_verified (C:=toy_crypto) toy_book2 (toy_receipt_at 4 8) = Ok (IngestFault, bf) /\
             ingest_verified (C:=toy_crypto) toy_book3 (toy_receipt_at 4 2) = Ok (IngestFault, bf).
Proof.
  destruct (fault_order_independent (C:=toy_crypto) toy_book1 (toy_receipt_at 4 2)
    (toy_receipt_at 4 8) toy_book2 toy_book3 toy_book_ok1) as (bf & H1 & H2 & _);
    [apply toy_canonical_of; by vm_compute | apply toy_canonical_of; by vm_compute |
     by vm_compute | by vm_compute | by vm_compute |].
  exact (ex_intro _ bf (conj H1 H2)).
Defined.

Definition repair_or_same (b : ReceiptBook) (repair : ReceiptRepair) : ReceiptBook :=
  match apply_repair (C:=toy_crypto) (G:=ServerGroup) b repair toy_group 3 with
  | Ok (_, _, b') => b'
  | Err _ => b
  end.

Definition toy_repaired : ReceiptBook := repair_or_same toy_faulted toy_repair.

Lemma toy_repair_ok : repair_ok toy_repair.
Proof.
  assert (Hd : Repair_decode (Repair_encode toy_repair) = Ok toy_repair) by by vm_compute.
  apply Repair_decode_spec in Hd as [H _]. exact H.
Qed.

Lemma repair_resolves_fault_witness :
  is_faulted toy_repaired = false /\
  ingest_verified (C:=toy_crypto) toy_repaired (toy_receipt_at 4 8) = Ok (IngestStale, toy_repaired).
Proof.
  destruct (repair_resolves_fault (C:=toy_crypto) toy_faulted toy_repair toy_group 3
    (toy_receipt_at 4 8) toy_repaired toy_faulted_ok) as (_ & _ & Hf & _ & _ & Hs & _);
    [exact toy_repair_ok | by vm_compute |].
  exact (conj Hf Hs).
Defined.
