(* ===== verification/Journal.v ===== *)
(** The owner's decision journal of
    [crates/catcoms-replication/src/epoch/owner_journal.rs]: what a server owner
    has published, is obliged to publish and was told by a repair to choose, so
    that no crash or retry makes it sign two receipts for one epoch. *)

From S2P Require Import Prelude Wire Context Crypto Codec EpochBase Authority.
From S2P Require Import Receipt Close Repair Book.
From stdpp Require Import base list relations.
From Stdlib Require Import Init.Byte.
Local Open Scope N_scope.

(** * Data *)

Definition MAX_OWNER_RECEIPT_JOURNAL_BYTES : N := 7 * MAX_RECEIPT_BYTES + MAX_CLOSE_RECORD_BYTES + 1024.
Definition MAX_V1_BYTES : N := 3 * MAX_RECEIPT_BYTES + 256.

Record OwnerTenure := mkOwnerTenure {
  ot_id : bytes;
  ot_start : N;
  ot_key : bytes
}.

#[global] Instance OwnerTenure_eq_dec : EqDecision OwnerTenure.
Proof. solve_decision. Defined.

(** [OwnerTenure::from(&receipt)] *)
Definition owner_tenure (r : Receipt) : OwnerTenure :=
  mkOwnerTenure (r_tenure_id r) (r_tenure_start_group_epoch r) (r_owner_public_key r).

Inductive JournalRepairEffect : Type :=
| Replace
| RetirePendingAndReplace
| Normalize
| JournalUnchanged.

Record Provenance := mkProvenance {
  pv_resolved : ResolvedRepair;
  pv_retired : option (Receipt * CloseRecord);
  pv_source_finalized : bool
}.

#[global] Instance Provenance_eq_dec : EqDecision Provenance.
Proof. solve_decision. Defined.

Record OwnerReceiptJournal := mkOwnerReceiptJournal {
  oj_document : option LogicalDocument;
  oj_tenure : option OwnerTenure;
  oj_high_water : option Receipt;
  oj_in_flight : option Receipt;
  oj_reconciled : option Receipt;
  oj_provenance : option Provenance;
  oj_version_two : bool
}.

#[global] Instance OwnerReceiptJournal_eq_dec : EqDecision OwnerReceiptJournal.
Proof. solve_decision. Defined.

(** [OwnerReceiptJournal::default] *)
Definition Journal_default : OwnerReceiptJournal :=
  mkOwnerReceiptJournal None None None None None None false.

Definition adjacent (base next : Receipt) : bool :=
  bool_decide (r_document base = r_document next)
  && bool_decide (selection_of base = selection_of next)
  && opens base (r_closed_epoch next).

Definition canonical_head (j : OwnerReceiptJournal) : option Receipt :=
  match oj_reconciled j with Some r => Some r | None => oj_high_water j end.

Definition effective_choice (j : OwnerReceiptJournal) : option Receipt :=
  match oj_in_flight j with Some r => Some r | None => canonical_head j end.

Definition retained_repair (j : OwnerReceiptJournal) : option ReceiptRepair :=
  (fun p => rs_repair (pv_resolved p)) <$> oj_provenance j.

Definition retired_pending (j : OwnerReceiptJournal) : option (Receipt * CloseRecord) :=
  p ← oj_provenance j; pv_retired p.

(** [OwnerReceiptJournal::repair_sequence_for_issuer_tenure] *)
Definition journal_repair_sequence (j : OwnerReceiptJournal) (issuer_tenure_start : N) : N :=
  match retained_repair j with
  | Some repair =>
      if bool_decide (rp_issuer_tenure_start_group_epoch repair = Some issuer_tenure_start)
      then rp_repair_sequence repair else 0
  | None => 0
  end.

Definition is_some {A} (o : option A) : bool := match o with Some _ => true | None => false end.

(** * Operations *)

Section journal.
Context {C : Crypto}.

(** The new proof is of the same issuer tenure and does not raise the sequence. *)
Definition not_newer (repair : ReceiptRepair) (p : Provenance) : bool :=
  bool_decide (rp_issuer_tenure_start_group_epoch repair
               = rp_issuer_tenure_start_group_epoch (rs_repair (pv_resolved p)))
  && (rp_repair_sequence repair <=? rp_repair_sequence (rs_repair (pv_resolved p))).

Definition check_repair_progress (j : OwnerReceiptJournal) (repair : ReceiptRepair)
    : result ReplError unit :=
  refuse_if
    match oj_provenance j with
    | Some p =>
        bool_decide (rs_repair (pv_resolved p) <> repair)
        && (negb (pv_source_finalized p) || not_newer repair p)
    | None => false
    end ReceiptConflict.

(** The receipt may be the first of its tenure. *)
Definition first_of_tenure (j : OwnerReceiptJournal) (receipt : Receipt) : bool :=
  (r_closed_epoch receipt =? inherited_epoch (r_inherited receipt))
  && match oj_tenure j with
     | Some old => ot_start old <? ot_start (owner_tenure receipt)
     | None => true
     end.

Definition changes_tenure (j : OwnerReceiptJournal) (receipt : Receipt) : bool :=
  match oj_tenure j with
  | Some old => bool_decide (old <> owner_tenure receipt)
  | None => false
  end.

(** The mutation at the end of [prepare_verified]. *)
Definition obligate (j : OwnerReceiptJournal) (receipt : Receipt) : OwnerReceiptJournal :=
  mkOwnerReceiptJournal (Some (default (r_document receipt) (oj_document j)))
    (Some (owner_tenure receipt))
    (if changes_tenure j receipt then None else oj_high_water j)
    (Some receipt) (oj_reconciled j) (oj_provenance j) (oj_version_two j).

Definition prepare_verified (j : OwnerReceiptJournal) (receipt : Receipt)
    : result ReplError OwnerReceiptJournal :=
  _ ← refuse_if (match oj_document j with
                 | Some doc => bool_decide (doc <> r_document receipt)
                 | None => false
                 end) EpochScope;
  let changes := changes_tenure j receipt in
  _ ← refuse_if ((negb (is_some (oj_tenure j)) || changes) && negb (first_of_tenure j receipt))
        ReceiptConflict;
  _ ← refuse_if (is_some (oj_provenance j) && (negb (is_some (oj_reconciled j)) || changes))
        ReceiptConflict;
  if changes then Ok (obligate j receipt)
  else
    match oj_in_flight j with
    | Some pending =>
        if bool_decide (Receipt_hash pending = Receipt_hash receipt) then Ok j
        else Err ReceiptConflict
    | None =>
        match canonical_head j with
        | Some base =>
            if bool_decide (Receipt_hash base = Receipt_hash receipt) then Ok j
            else if adjacent base receipt then Ok (obligate j receipt)
            else Err ReceiptConflict
        | None => Ok (obligate j receipt)
        end
    end.

(** [OwnerReceiptJournal::prepare] *)
Definition journal_prepare (j : OwnerReceiptJournal) (receipt : Receipt) (group : ServerGroup)
    (expected_tenure_start_group_epoch : N) : result ReplError OwnerReceiptJournal :=
  _ ← Receipt_verify_current_owner receipt group expected_tenure_start_group_epoch;
  _ ← (if oj_version_two j then (_ ← Receipt_decode (Receipt_encode receipt); Ok tt) else Ok tt);
  prepare_verified j receipt.

Definition validate_retired (resolved : ResolvedRepair) (receipt : Receipt) (close : CloseRecord)
    : result ReplError unit :=
  _ ← refuse_if ((MAX_SERVER_ID_BYTES <? len (cr_server_id close))
                 || (MAX_HEADS <? len (cr_heads close))
                 || negb (len (cr_author_public_key close) =? 32)) EpochBound;
  c ← CloseRecord_decode (CloseRecord_encode close);
  _ ← refuse_if (bool_decide (c <> close)) Malformed;
  _ ← refuse_if (negb (verify_with_public_bytes (cr_author_public_key close)
                         (CloseRecord_signature_hash close) (cr_signature close))) EpochAuthority;
  refuse_if (negb (covers resolved receipt)
             || bool_decide (cr_server_id close <> server_id (r_document receipt))
             || bool_decide (cr_doc_type close <> doc_type (r_document receipt))
             || negb (cr_closed_epoch close =? r_closed_epoch receipt)
             || bool_decide (CloseRecord_hash close <> r_close_record_hash receipt)) ReceiptConflict.

Definition validate_receipt (j : OwnerReceiptJournal) (receipt : Receipt) : result ReplError unit :=
  _ ← Receipt_verify_signature_only receipt;
  r ← Receipt_decode (Receipt_encode receipt);
  _ ← refuse_if (bool_decide (r <> receipt)) Malformed;
  refuse_if (bool_decide (oj_document j <> Some (r_document receipt))
             || bool_decide (oj_tenure j <> Some (owner_tenure receipt))) EpochScope.

Definition validate_role (j : OwnerReceiptJournal) (role : option Receipt) : result ReplError unit :=
  match role with Some r => validate_receipt j r | None => Ok tt end.

Definition validate_adjacency (j : OwnerReceiptJournal) : result ReplError unit :=
  match oj_in_flight j with
  | Some pending =>
      refuse_if (negb match canonical_head j with
                      | Some base => adjacent base pending
                      | None => r_closed_epoch pending =? inherited_epoch (r_inherited pending)
                      end) Malformed
  | None => Ok tt
  end.

(** The shape of the roles around a retained proof. *)
Definition provenance_shape (j : OwnerReceiptJournal) (p : Provenance) : bool :=
  match oj_reconciled j with
  | Some reconciled =>
      bool_decide (reconciled = rs_selected (pv_resolved p))
      && bool_decide (oj_high_water j <> Some reconciled)
  | None =>
      negb (pv_source_finalized p) && negb (is_some (oj_in_flight j))
      && match oj_high_water j with
         | Some r => bool_decide (r = rs_selected (pv_resolved p))
                     || adjacent (rs_selected (pv_resolved p)) r
         | None => false
         end
  end.

Definition validate_provenance (j : OwnerReceiptJournal) (p : Provenance) : result ReplError unit :=
  let s := pv_resolved p in
  _ ← Resolved_verify s (oj_document j) (rp_repair_sequence (rs_repair s));
  _ ← validate_receipt j (rs_selected s);
  _ ← validate_receipt j (rs_losing s);
  _ ← match pv_retired p with
      | Some (r, close) => (_ ← validate_receipt j r; validate_retired s r close)
      | None => Ok tt
      end;
  refuse_if (negb (provenance_shape j p)) Malformed.

Definition validate_v2 (j : OwnerReceiptJournal) : result ReplError unit :=
  _ ← refuse_if (negb (Bool.eqb (is_some (oj_document j)) (is_some (oj_tenure j)))) Malformed;
  _ ← validate_role j (oj_high_water j);
  _ ← validate_role j (oj_in_flight j);
  _ ← validate_role j (oj_reconciled j);
  _ ← validate_adjacency j;
  match oj_provenance j with
  | None => refuse_if (is_some (oj_reconciled j)) Malformed
  | Some p => validate_provenance j p
  end.

Definition hash_is (r : option Receipt) (h : bytes) : bool :=
  match r with Some r => bool_decide (Receipt_hash r = h) | None => false end.

(** The close retained with a retired pending obligation. *)
Definition retire_pending (j : OwnerReceiptJournal) (resolved : ResolvedRepair)
    (retiring_close : option CloseRecord) : result ReplError (option (Receipt * CloseRecord)) :=
  match oj_in_flight j with
  | Some pending =>
      close ← ok_or retiring_close ReceiptConflict;
      _ ← validate_retired resolved pending close;
      Ok (Some (pending, close))
  | None => Ok None
  end.

Definition resolve_repair {G} `{OwnerAuthority G} (j : OwnerReceiptJournal) (repair : ReceiptRepair)
    (a b : Receipt) (retiring_close : option CloseRecord) (group : G)
    (issuer_tenure_start_group_epoch : N)
    : result ReplError (JournalRepairEffect * OwnerReceiptJournal) :=
  _ ← Repair_verify_current_owner repair group issuer_tenure_start_group_epoch;
  _ ← check_evidence repair a b;
  _ ← refuse_if (match oj_document j with
                 | Some doc => bool_decide (doc <> rp_document repair)
                 | None => false
                 end) EpochScope;
  let '(selected, losing) :=
    if bool_decide (Receipt_hash a = rp_selected_receipt_hash repair) then (a, b) else (b, a) in
  let resolved := mkResolvedRepair repair selected losing in
  if match oj_provenance j with
     | Some p => bool_decide (Repair_hash (rs_repair (pv_resolved p)) = Repair_hash repair)
     | None => false
     end then Ok (JournalUnchanged, j)
  else
    let covered := match effective_choice j with Some r => covers resolved r | None => false end in
    let normalized := hash_is (oj_high_water j) (Receipt_hash selected) in
    let normalize := negb (is_some (oj_in_flight j)) && negb (is_some (oj_reconciled j)) && normalized in
    if negb covered && negb normalize then Ok (JournalUnchanged, j)
    else
      _ ← refuse_if (bool_decide (oj_tenure j <> Some (owner_tenure selected))) EpochScope;
      _ ← refuse_if (match oj_provenance j with
                     | Some p => negb (pv_source_finalized p) || not_newer repair p
                     | None => false
                     end) ReceiptConflict;
      retired ← retire_pending j resolved retiring_close;
      let effect := if normalized then Normalize
                    else if is_some retired then RetirePendingAndReplace else Replace in
      let candidate :=
        mkOwnerReceiptJournal (oj_document j) (oj_tenure j) (oj_high_water j) None
          (if normalized then None else Some selected)
          (Some (mkProvenance resolved retired false)) true in
      _ ← validate_v2 candidate;
      Ok (effect, candidate).

Definition cleanup_finalized (j : OwnerReceiptJournal) : OwnerReceiptJournal :=
  if negb (is_some (oj_reconciled j))
     && match oj_provenance j with Some p => pv_source_finalized p | None => false end
  then mkOwnerReceiptJournal (oj_document j) (oj_tenure j) (oj_high_water j) (oj_in_flight j)
         (oj_reconciled j) None (oj_version_two j)
  else j.

Definition mark_published (j : OwnerReceiptJournal) (receipt_hash : bytes)
    : result ReplError OwnerReceiptJournal :=
  if hash_is (oj_high_water j) receipt_hash && negb (hash_is (oj_in_flight j) receipt_hash)
  then Ok j
  else
    _ ← refuse_if (is_some (oj_provenance j) && negb (is_some (oj_reconciled j))) ReceiptConflict;
    let pending := match oj_in_flight j with Some r => Some r | None => oj_reconciled j end in
    decision ← ok_or (if hash_is pending receipt_hash then pending else None) ReceiptConflict;
    Ok (cleanup_finalized
          (mkOwnerReceiptJournal (oj_document j) (oj_tenure j) (Some decision) None None
             (oj_provenance j) (oj_version_two j))).

Definition mark_repair_source_finalized (j : OwnerReceiptJournal) (repair_hash : bytes)
    : result ReplError OwnerReceiptJournal :=
  match oj_provenance j with
  | Some p =>
      if bool_decide (Repair_hash (rs_repair (pv_resolved p)) = repair_hash) then
        Ok (cleanup_finalized
              (mkOwnerReceiptJournal (oj_document j) (oj_tenure j) (oj_high_water j)
                 (oj_in_flight j) (oj_reconciled j)
                 (Some (mkProvenance (pv_resolved p) (pv_retired p) true)) (oj_version_two j)))
      else Err ReceiptConflict
  | None => Err ReceiptConflict
  end.

(** ** Persistence *)

Definition put_owner_tenure (t : OwnerTenure) (e : bytes) : bytes :=
  e |> put_hash (ot_id t) |> put_u64 (ot_start t) |> put_bytes_x (ot_key t).

Definition put_provenance (role : N) (p : Provenance) (e : bytes) : bytes :=
  let e := e |> put_u8 role
             |> Resolved_encode_into (pv_resolved p)
             |> put_u8 (if pv_source_finalized p then 1 else 0)
             |> put_receipt (fst <$> pv_retired p) in
  match pv_retired p with
  | Some (_, close) => e |> put_bytes_x (CloseRecord_encode close)
  | None => e
  end.

Definition Journal_encode (j : OwnerReceiptJournal) : bytes :=
  let e := [] |> put_u8 (if oj_version_two j then 2 else 1)
              |> put_receipt (oj_high_water j)
              |> put_receipt (oj_in_flight j) in
  if negb (oj_version_two j) then
    e |> put_tenure (selection_of <$> match oj_high_water j with
                                      | Some r => Some r
                                      | None => oj_in_flight j
                                      end)
  else
    let e := e |> put_receipt (oj_reconciled j) |> put_option put_owner_tenure (oj_tenure j) in
    match oj_provenance j with
    | None => e |> put_u8 0
    | Some p => e |> put_provenance (if is_some (oj_reconciled j) then 1 else 2) p
    end.

Definition get_owner_tenure : dec ReplError (option OwnerTenure) :=
  get_option
    (tid ← get_fixed 32;
     start ← mal get_u64;
     key ← mal get_bytes;
     mret (mkOwnerTenure tid start key)).

Definition get_retired : dec ReplError (option (Receipt * CloseRecord)) :=
  r ← get_receipt;
  match r with
  | None => mret None
  | Some r => b ← mal get_bytes; c ← dec_lift (CloseRecord_decode b); mret (Some (r, c))
  end.

Definition get_provenance (reconciled : bool) : dec ReplError (option Provenance) :=
  role ← mal get_u8;
  if role =? 0 then mret None
  else if (role =? 1) || (role =? 2) then
    _ ← dec_refuse (negb (Bool.eqb (role =? 1) reconciled)) Malformed;
    resolved ← Resolved_decode_from;
    finalized ← get_flag;
    retired ← get_retired;
    mret (Some (mkProvenance resolved retired finalized))
  else dec_lift (Err Malformed).

(** The fields of either version as read, before any cross-check. *)
Definition journal_read (size : N)
    : dec ReplError (option TenureSelection * OwnerReceiptJournal) :=
  version ← mal get_u8;
  _ ← dec_refuse ((version =? 1) && (MAX_V1_BYTES <? size)) EpochBound;
  _ ← dec_refuse (negb (version =? 1) && negb (version =? 2)) Malformed;
  high_water ← get_receipt;
  in_flight ← get_receipt;
  if version =? 1 then
    selection ← get_tenure;
    mret (selection, mkOwnerReceiptJournal None None high_water in_flight None None false)
  else
    reconciled ← get_receipt;
    tenure ← get_owner_tenure;
    provenance ← get_provenance (is_some reconciled);
    mret (None, mkOwnerReceiptJournal None tenure high_water in_flight reconciled provenance true).

Definition set_scope (j : OwnerReceiptJournal) (document : option LogicalDocument)
    (tenure : option OwnerTenure) : OwnerReceiptJournal :=
  mkOwnerReceiptJournal document tenure (oj_high_water j) (oj_in_flight j) (oj_reconciled j)
    (oj_provenance j) (oj_version_two j).

Definition v1_role_ok (j : OwnerReceiptJournal) (selection : option TenureSelection)
    (role : option Receipt) : bool :=
  match role with
  | Some r => bool_decide (oj_document j = Some (r_document r))
              && bool_decide (selection = Some (selection_of r))
  | None => true
  end.

Definition Journal_decode (input : bytes) : result ReplError OwnerReceiptJournal :=
  _ ← refuse_if (MAX_OWNER_RECEIPT_JOURNAL_BYTES <? len input) EpochBound;
  p ← run_exact (journal_read (len input)) input;
  let '(selection, j) := p in
  let document := r_document <$> effective_choice j in
  if negb (oj_version_two j) then
    let j := set_scope j document (owner_tenure <$> effective_choice j) in
    _ ← refuse_if (negb (Bool.eqb (is_some (oj_document j)) (is_some selection))) Malformed;
    _ ← refuse_if (negb (v1_role_ok j selection (oj_high_water j))
                   || negb (v1_role_ok j selection (oj_in_flight j))) Malformed;
    _ ← validate_adjacency j;
    Ok j
  else
    let j := set_scope j document (oj_tenure j) in
    _ ← validate_v2 j;
    Ok j.
End journal.

(** * Encoding lemmas *)

Section codec.
Context {C : Crypto}.

Definition owner_tenure_bytes (t : OwnerTenure) : bytes :=
  lp (ot_id t) ++ be_bytes 8 (ot_start t) ++ lp (ot_key t).

Definition retired_bytes (r : option (Receipt * CloseRecord)) : bytes :=
  opt_bytes receipt_bytes (fst <$> r) ++
  match r with Some (_, close) => lp (CloseRecord_encode close) | None => [] end.

Definition provenance_bytes (role : N) (p : option Provenance) : bytes :=
  match p with
  | None => be_bytes 1 0
  | Some p =>
      be_bytes 1 role ++ resolved_bytes (pv_resolved p) ++
      be_bytes 1 (if pv_source_finalized p then 1 else 0) ++ retired_bytes (pv_retired p)
  end.

(** The bytes of a journal whose version-1 selection field is [sel]. *)
Definition journal_bytes (sel : option TenureSelection) (j : OwnerReceiptJournal) : bytes :=
  be_bytes 1 (if oj_version_two j then 2 else 1) ++
  opt_bytes receipt_bytes (oj_high_water j) ++ opt_bytes receipt_bytes (oj_in_flight j) ++
  if oj_version_two j then
    opt_bytes receipt_bytes (oj_reconciled j) ++ opt_bytes owner_tenure_bytes (oj_tenure j) ++
    provenance_bytes (if is_some (oj_reconciled j) then 1 else 2) (oj_provenance j)
  else opt_bytes tenure_bytes sel.

Definition v1_selection (j : OwnerReceiptJournal) : option TenureSelection :=
  selection_of <$> match oj_high_water j with Some r => Some r | None => oj_in_flight j end.

Lemma put_owner_tenure_eq t e : put_owner_tenure t e = e ++ owner_tenure_bytes t.
Proof.
  unfold put_owner_tenure, owner_tenure_bytes, put_u64. rewrite put_bytes_x_lp, put_hash_eq.
  by rewrite <- !app_assoc.
Qed.

Lemma put_provenance_eq role p e : put_provenance role p e = e ++ provenance_bytes role (Some p).
Proof.
  unfold put_provenance, provenance_bytes, retired_bytes, put_u8. cbv zeta.
  rewrite put_receipt_eq, Resolved_encode_eq.
  destruct (pv_retired p) as [[r c]|]; rewrite ?put_bytes_x_lp, ?app_nil_r; by rewrite <- !app_assoc.
Qed.

Lemma Journal_encode_eq j : Journal_encode j = journal_bytes (v1_selection j) j.
Proof.
  unfold Journal_encode, journal_bytes, v1_selection. cbv zeta. destruct (oj_version_two j); cbn [negb].
  - destruct (oj_provenance j) as [p|]; rewrite ?put_provenance_eq; cbn [provenance_bytes];
      unfold put_u8; rewrite (put_option_eq _ owner_tenure_bytes) by apply put_owner_tenure_eq;
      rewrite !put_receipt_eq; by rewrite <- !app_assoc.
  - rewrite put_tenure_eq, !put_receipt_eq. unfold put_u8. by rewrite <- !app_assoc.
Qed.

(** ** Field types *)

Definition owner_tenure_ok (t : OwnerTenure) : Prop :=
  length (ot_id t) = 32%nat /\ ot_start t <= u64_max /\ len (ot_key t) <= u32_max.

Definition retired_ok (r : Receipt * CloseRecord) : Prop := receipt_canonical r.1 /\ close_ok r.2.

Definition provenance_ok (p : Provenance) : Prop :=
  resolved_fields_ok (pv_resolved p) /\ opt_ok retired_ok (pv_retired p).

Record journal_typed (j : OwnerReceiptJournal) : Prop := mkJournalTyped {
  jt_high_water : opt_ok receipt_canonical (oj_high_water j);
  jt_in_flight : opt_ok receipt_canonical (oj_in_flight j);
  jt_reconciled : opt_ok receipt_canonical (oj_reconciled j);
  jt_tenure : opt_ok owner_tenure_ok (oj_tenure j);
  jt_provenance : opt_ok provenance_ok (oj_provenance j)
}.

Lemma reads_receipt_opt r :
  opt_ok receipt_canonical r -> reads get_receipt (opt_bytes receipt_bytes r) r.
Proof. intros H. apply reads_option. destruct r; [by apply reads_receipt_field | done]. Qed.

Lemma reads_owner_tenure t :
  opt_ok owner_tenure_ok t -> reads get_owner_tenure (opt_bytes owner_tenure_bytes t) t.
Proof.
  intros H. apply reads_option. destruct t as [[tid start key]|]; [|done].
  destruct H as (H1 & H2 & H3); cbn in *. unfold owner_tenure_bytes; cbn. reads_go.
  - by apply reads_fixed.
  - by apply reads_mal, reads_u64.
  - by apply reads_mal, reads_bytes.
Qed.

Lemma consumes_owner_tenure :
  consumes get_owner_tenure
    (fun t bs => bs = opt_bytes owner_tenure_bytes t /\ opt_ok owner_tenure_ok t).
Proof.
  apply consumes_option. intros d t d' H. dec_step H.
  destruct Hr as [-> ?], Hr0 as [-> ?], Hr1 as [-> ?].
  eexists; split_and!; [|reflexivity|done].
  unfold owner_tenure_bytes; cbn. rewrite R, R0, R1. by rewrite <- !app_assoc.
Qed.

Lemma reads_retired r : opt_ok retired_ok r -> reads get_retired (retired_bytes r) r.
Proof.
  intros H. unfold get_retired, retired_bytes. destruct r as [[r c]|]; cbn [fmap option_fmap option_map].
  - destruct H as [H1 H2]; cbn in H1, H2. eapply reads_bind; [by apply (reads_receipt_opt (Some r))|].
    destruct (len_CloseRecord_encode c H2) as [_ Hl]. reads_go.
    + apply reads_mal, reads_bytes. unfold u32_max. lia.
    + by apply CloseRecord_decode_spec.
  - eapply reads_bind; [by apply (reads_receipt_opt None)|]. apply reads_ret.
Qed.

Lemma consumes_retired :
  consumes get_retired (fun r bs => bs = retired_bytes r /\ opt_ok retired_ok r).
Proof.
  intros d r d' H. unfold get_retired in H. apply dec_bind_ok in H as (o & d1 & Ho & H).
  destruct (consumes_receipt_opt _ _ _ Ho) as (b1 & R1 & -> & Hc). destruct o as [x|].
  - dec_step H. destruct Hr as [-> _]. apply CloseRecord_decode_spec in Hr0 as [Hc2 <-].
    eexists; split_and!; [|reflexivity|done]. unfold retired_bytes; cbn [fmap option_fmap option_map].
    rewrite R1, R. by rewrite <- app_assoc.
  - apply dec_ret_ok in H as [<- <-]. eexists; split_and!; [|reflexivity|done].
    unfold retired_bytes; cbn [fmap option_fmap option_map]. by rewrite R1, app_nil_r.
Qed.

Lemma reads_provenance rec p :
  opt_ok provenance_ok p ->
  reads (get_provenance rec) (provenance_bytes (if rec then 1 else 2) p) p.
Proof.
  intros H. unfold get_provenance. destruct p as [[s r f]|]; cbn [provenance_bytes]; cycle 1.
  { eapply reads_bind_last; [by apply reads_mal, reads_u8|]. apply reads_ret. }
  destruct H as [H1 H2]; cbn in H1, H2.
  eapply reads_bind; [apply reads_mal, reads_u8; by destruct rec|].
  assert (E : forall b : bool, ((if b then 1 else 2) =? 0) = false /\
    (((if b then 1 else 2) =? 1) || ((if b then 1 else 2) =? 2)) = true /\
    ((if b then 1 else 2) =? 1) = b) by (by intros []).
  destruct (E rec) as (-> & -> & ->). cbn [pv_resolved pv_retired pv_source_finalized]. reads_go.
  - by destruct rec.
  - by apply reads_resolved.
  - apply reads_flag.
  - by apply reads_retired.
Qed.
#[local] Hint Resolve consumes_owner_tenure consumes_flag consumes_retired consumes_resolved
  consumes_receipt_opt consumes_tenure : mewtual_dec.

Lemma consumes_provenance rec :
  consumes (get_provenance rec)
    (fun p bs => bs = provenance_bytes (if rec then 1 else 2) p /\ opt_ok provenance_ok p).
Proof.
  intros d p d' H. unfold get_provenance in H. apply dec_bind_ok in H as (t & d1 & Ht & H).
  destruct (consumes_m_u8 _ _ _ Ht) as (b1 & R1 & -> & _).
  destruct (N.eqb_spec t 0) as [->|].
  { apply dec_ret_ok in H as [<- <-]. by eexists. }
  destruct ((t =? 1) || (t =? 2)) eqn:Et; [|done]. dec_step H. bool_simpl.
  destruct Hr0 as [-> ?], Hr2 as [-> ?]. apply eqb_prop in Hr.
  assert (t = if rec then 1 else 2) as ->.
  { rewrite <- Hr. by destruct Et; bool_simpl; subst t. }
  eexists; split_and!; [|reflexivity|done].
  unfold provenance_bytes; cbn [pv_resolved pv_retired pv_source_finalized].
  rewrite R1, R, R0, R2, Hr1. by rewrite <- !app_assoc.
Qed.
#[local] Hint Resolve consumes_provenance : mewtual_dec.

(** The journal as the reader returns it: the scope is derived afterwards. *)
Definition unscoped (j : OwnerReceiptJournal) : OwnerReceiptJournal :=
  set_scope j None (if oj_version_two j then oj_tenure j else None).

Definition v1_shape (j : OwnerReceiptJournal) : Prop :=
  oj_version_two j = false -> oj_reconciled j = None /\ oj_provenance j = None.

Lemma reads_journal size sel j :
  journal_typed j -> v1_shape j -> opt_ok tenure_ok sel ->
  (oj_version_two j = false -> size <= MAX_V1_BYTES) ->
  reads (journal_read size) (journal_bytes sel j)
    (if oj_version_two j then None else sel, unscoped j).
Proof.
  intros [H1 H2 H3 H4 H5] Hv Hs Hz. unfold journal_read, journal_bytes, unscoped, set_scope.
  destruct j as [doc ten hw inf rec prov v2]. cbn [oj_document oj_tenure oj_high_water oj_in_flight
    oj_reconciled oj_provenance oj_version_two] in *.
  eapply reads_bind; [apply reads_mal, reads_u8; by destruct v2|].
  destruct v2; cbn [N.eqb Pos.eqb negb andb].
  - reads_go; try done.
    + by apply reads_receipt_opt.
    + by apply reads_receipt_opt.
    + by apply reads_receipt_opt.
    + by apply reads_owner_tenure.
    + by apply reads_provenance.
  - destruct (Hv eq_refl) as [E1 E2]; cbn in E1, E2; subst rec prov. reads_go; try done.
    + apply N.ltb_ge. by apply Hz.
    + by apply reads_receipt_opt.
    + by apply reads_receipt_opt.
    + by apply reads_tenure.
Qed.

Lemma consumes_journal size :
  consumes (journal_read size) (fun p bs =>
    bs = journal_bytes p.1 p.2 /\ journal_typed p.2 /\ v1_shape p.2 /\ opt_ok tenure_ok p.1 /\
    p.2 = unscoped p.2 /\ (oj_version_two p.2 = true -> p.1 = None)).
Proof.
  intros d p d' H. unfold journal_read in H. apply dec_bind_ok in H as (v & d1 & Hv & H).
  destruct (consumes_m_u8 _ _ _ Hv) as (b1 & R1 & -> & _).
  apply dec_bind_ok in H as ([] & d2 & Hs & H). apply dec_refuse_ok in Hs as [Hs <-].
  apply dec_bind_ok in H as ([] & d3 & Hm & H). apply dec_refuse_ok in Hm as [Hm <-].
  apply dec_bind_ok in H as (hw & d4 & Hhw & H).
  destruct (consumes_receipt_opt _ _ _ Hhw) as (b2 & R2 & -> & Chw).
  apply dec_bind_ok in H as (inf & d5 & Hinf & H).
  destruct (consumes_receipt_opt _ _ _ Hinf) as (b3 & R3 & -> & Cinf).
  destruct (N.eqb_spec v 1) as [->|Hv1].
  - dec_step H. destruct Hr as [-> Hsel]. eexists; split_and!; [|reflexivity|..]; try done.
    unfold journal_bytes; cbn. rewrite R1, R2, R3, R. by rewrite <- !app_assoc.
  - assert (v = 2) as -> by (bool_simpl; destruct Hm; bool_simpl; congruence).
    dec_step H. destruct Hr as [-> ?], Hr0 as [-> ?], Hr1 as [-> ?].
    eexists; split_and!; [|reflexivity|..]; try done.
    unfold journal_bytes; cbn. rewrite R1, R2, R3, R, R0, R4. by rewrite <- !app_assoc.
Qed.

(** * What the validators establish *)

Lemma validate_receipt_ok j r :
  validate_receipt j r = Ok tt <->
  Receipt_verify_signature_only r = Ok tt /\ receipt_canonical r /\
  oj_document j = Some (r_document r) /\ oj_tenure j = Some (owner_tenure r).
Proof.
  unfold validate_receipt. split.
  - intros H. res_inv. bool_simpl. subst. destruct a. apply Receipt_decode_spec in Ha0 as [Hc _].
    by split_and!.
  - intros (H1 & H2 & H3 & H4). rewrite H1, bind_Ok.
    rewrite (proj2 (Receipt_decode_spec _ r)), bind_Ok by done.
    rewrite refuse_if_bind_false by (apply bool_decide_eq_false_2; by intros []).
    by rewrite H3, H4, !bool_decide_eq_false_2 by (by intros []).
Qed.

Lemma validate_role_ok j role :
  validate_role j role = Ok tt <->
  opt_ok (fun r => Receipt_verify_signature_only r = Ok tt /\ receipt_canonical r /\
    oj_document j = Some (r_document r) /\ oj_tenure j = Some (owner_tenure r)) role.
Proof. destruct role as [r|]; cbn; [apply validate_receipt_ok | done]. Qed.

Lemma validate_retired_close s r c : validate_retired s r c = Ok tt -> close_ok c /\ covers s r = true.
Proof.
  unfold validate_retired. intros H. res_inv. bool_simpl. subst.
  apply CloseRecord_decode_spec in Ha as [Hc _]. done.
Qed.

Lemma validate_adjacency_ok j :
  validate_adjacency j = Ok tt <->
  opt_ok (fun pending => match canonical_head j with
    | Some base => adjacent base pending = true
    | None => r_closed_epoch pending = inherited_epoch (r_inherited pending)
    end) (oj_in_flight j).
Proof.
  unfold validate_adjacency. destruct (oj_in_flight j) as [p|]; cbn; [|done].
  unfold refuse_if. destruct (canonical_head j) as [b|].
  - by destruct (adjacent b p).
  - destruct (N.eqb_spec (r_closed_epoch p) (inherited_epoch (r_inherited p))); cbn; naive_solver.
Qed.

Lemma unit_ok {E} (m : result E unit) u : m = Ok u -> m = Ok tt.
Proof. by destruct u. Qed.

Lemma validate_v2_ok j :
  validate_v2 j = Ok tt <->
  is_some (oj_document j) = is_some (oj_tenure j) /\
  validate_role j (oj_high_water j) = Ok tt /\ validate_role j (oj_in_flight j) = Ok tt /\
  validate_role j (oj_reconciled j) = Ok tt /\ validate_adjacency j = Ok tt /\
  match oj_provenance j with
  | None => oj_reconciled j = None
  | Some p => validate_provenance j p = Ok tt
  end.
Proof.
  unfold validate_v2. split.
  - intros H. res_inv. destruct a, a0, a1, a2. bool_simpl. split_and!; try done; [by apply eqb_prop|].
    destruct (oj_provenance j); [done|]. by destruct (oj_reconciled j).
  - intros (H1 & H2 & H3 & H4 & H5 & H6).
    rewrite refuse_if_bind_false by (rewrite H1; apply negb_false_iff, eqb_reflx).
    rewrite H2, bind_Ok, H3, bind_Ok, H4, bind_Ok, H5, bind_Ok.
    destruct (oj_provenance j); [done|]. by rewrite H6.
Qed.

Lemma validate_provenance_ok j p :
  validate_provenance j p = Ok tt <->
  Resolved_verify (pv_resolved p) (oj_document j) (rp_repair_sequence (rs_repair (pv_resolved p))) = Ok tt /\
  validate_receipt j (rs_selected (pv_resolved p)) = Ok tt /\
  validate_receipt j (rs_losing (pv_resolved p)) = Ok tt /\
  opt_ok (fun rc => validate_receipt j rc.1 = Ok tt /\ validate_retired (pv_resolved p) rc.1 rc.2 = Ok tt)
    (pv_retired p) /\
  provenance_shape j p = true.
Proof.
  unfold validate_provenance. cbv zeta. split.
  - intros H. res_inv. destruct a, a0, a1, a2. bool_simpl. split_and!; try done.
    destruct (pv_retired p) as [[r c]|]; [|done]. res_inv. destruct a. done.
  - intros (H1 & H2 & H3 & H4 & H5). rewrite H1, bind_Ok, H2, bind_Ok, H3, bind_Ok.
    destruct (pv_retired p) as [[r c]|]; cbn [opt_ok fst snd] in H4; [destruct H4 as [-> H4]; rewrite bind_Ok, H4|];
      rewrite bind_Ok, H5; done.
Qed.

(** * The journal invariant *)

(** A version-1 journal: two roles of one lineage, no repair. *)
Record v1_ok (j : OwnerReceiptJournal) : Prop := mkV1Ok {
  v1_tenure : oj_tenure j = owner_tenure <$> effective_choice j;
  v1_reconciled : oj_reconciled j = None;
  v1_provenance : oj_provenance j = None;
  v1_high_water : opt_ok receipt_canonical (oj_high_water j);
  v1_in_flight : opt_ok receipt_canonical (oj_in_flight j);
  v1_adjacency : validate_adjacency j = Ok tt
}.

Record journal_ok (j : OwnerReceiptJournal) : Prop := mkJournalOk {
  jk_document : oj_document j = r_document <$> effective_choice j;
  jk_repair : opt_ok (fun p => repair_ok (rs_repair (pv_resolved p))) (oj_provenance j);
  jk_state : if oj_version_two j then validate_v2 j = Ok tt else v1_ok j
}.

Lemma owner_tenure_typed r : receipt_canonical r -> owner_tenure_ok (owner_tenure r).
Proof. intros [[] _]. split_and!; cbn; try done. by apply (len_u32_of_length _ 32). Qed.

Lemma opt_ok_weaken {A} (P Q : A -> Prop) o : (forall a, P a -> Q a) -> opt_ok P o -> opt_ok Q o.
Proof. intros H. destruct o; cbn; auto. Qed.

(** Every role of a well-formed journal is canonical and of the journal's scope. *)
Lemma journal_role_ok j r :
  journal_ok j -> effective_choice j = Some r -> receipt_canonical r /\ oj_tenure j = Some (owner_tenure r).
Proof.
  intros [Hd _ Hs] He. destruct (oj_version_two j).
  - apply validate_v2_ok in Hs as (_ & H1 & H2 & H3 & _). rewrite !validate_role_ok in *.
    unfold effective_choice, canonical_head in He.
    destruct (oj_in_flight j); [|destruct (oj_reconciled j)]; cbn in *; simplify_eq.
    + by destruct H2 as (_ & ? & _ & ?).
    + by destruct H3 as (_ & ? & _ & ?).
    + rewrite He in H1. by destruct H1 as (_ & ? & _ & ?).
  - destruct Hs as [Ht Hr _ H1 H2 _]. rewrite Ht, He. split; [|done].
    unfold effective_choice, canonical_head in He. rewrite Hr in He.
    destruct (oj_in_flight j); cbn in *; simplify_eq; [done|]. by rewrite He in H1.
Qed.

Lemma journal_ok_typed j : journal_ok j -> journal_typed j /\ v1_shape j.
Proof.
  intros Hj. pose proof (fun r => journal_role_ok j r Hj) as Hrole. destruct Hj as [Hd Hrep Hs].
  assert (Hten : opt_ok owner_tenure_ok (oj_tenure j)).
  { destruct (oj_tenure j) as [t|] eqn:Et; [|done]. cbn.
    destruct (effective_choice j) as [r|] eqn:Ee.
    - destruct (Hrole r) as [Hc [= ->]]; [done|]. by apply owner_tenure_typed.
    - exfalso. destruct (oj_version_two j).
      + apply validate_v2_ok in Hs as (H & _). rewrite Hd, Et in H. done.
      + destruct Hs. rewrite Ee in *. cbn in *. congruence. }
  unfold v1_shape. destruct (oj_version_two j).
  - apply validate_v2_ok in Hs as (_ & H1 & H2 & H3 & _ & Hp). rewrite !validate_role_ok in *.
    split; [|done]. constructor; try done.
    + eapply opt_ok_weaken; [|exact H1]. by intros r (_ & ? & _).
    + eapply opt_ok_weaken; [|exact H2]. by intros r (_ & ? & _).
    + eapply opt_ok_weaken; [|exact H3]. by intros r (_ & ? & _).
    + destruct (oj_provenance j) as [p|]; [|done]. cbn in *.
      apply validate_provenance_ok in Hp as (_ & (_ & ? & _)%validate_receipt_ok &
        (_ & ? & _)%validate_receipt_ok & Hr & _). split; [by split_and!|].
      eapply opt_ok_weaken; [|exact Hr]. intros [r c] [(_ & ? & _)%validate_receipt_ok Hv].
      apply validate_retired_close in Hv as [? _]. done.
  - destruct Hs. split; [|done]. constructor; try done; by rewrite ?v1_reconciled0, ?v1_provenance0.
Qed.

Lemma len_owner_tenure_bytes j t :
  journal_ok j -> oj_tenure j = Some t -> len (owner_tenure_bytes t) <= 80.
Proof.
  intros Hj Ht. assert (exists r, receipt_canonical r /\ t = owner_tenure r) as (r & [Hf _] & ->).
  { destruct (effective_choice j) as [r|] eqn:Ee.
    - exists r. destruct (journal_role_ok j r Hj Ee) as [? Hr]. split; [done|]. congruence.
    - exfalso. destruct Hj as [Hd _ Hs]. destruct (oj_version_two j).
      + apply validate_v2_ok in Hs as (H & _). by rewrite Hd, Ht, Ee in H.
      + destruct Hs. rewrite Ee in *. cbn in *. congruence. }
  unfold owner_tenure_bytes; cbn. autorewrite with mewtual_len.
  rewrite (len_of_length _ _ (rf_tenure _ Hf)), (len_of_length _ _ (rf_key _ Hf)). lia.
Qed.

Lemma len_provenance_bytes role p :
  opt_ok provenance_ok p -> len (provenance_bytes role p) <= 5783.
Proof.
  destruct p as [p|]; cbn [provenance_bytes opt_ok]; [|intros _; by autorewrite with mewtual_len].
  intros [(H1 & H2 & H3) H4]. autorewrite with mewtual_len.
  pose proof (len_resolved_bytes _ H1 H2 H3). unfold retired_bytes.
  destruct (pv_retired p) as [[r c]|]; cbn [fmap option_fmap option_map fst]; autorewrite with mewtual_len.
  - destruct H4 as [Hr Hc]; cbn [fst snd] in Hr, Hc. pose proof (len_receipt_bytes _ Hr).
    destruct (len_CloseRecord_encode c Hc). lia.
  - cbn [len length]. lia.
Qed.

Lemma v1_selection_typed j : journal_typed j -> opt_ok tenure_ok (v1_selection j).
Proof.
  intros []. unfold v1_selection. destruct (oj_high_water j); cbn in *; [by apply selection_tenure_ok|].
  destruct (oj_in_flight j); cbn in *; [by apply selection_tenure_ok | done].
Qed.

Lemma len_Journal_encode j :
  journal_ok j -> len (Journal_encode j) <= MAX_OWNER_RECEIPT_JOURNAL_BYTES /\
  (oj_version_two j = false -> len (Journal_encode j) <= MAX_V1_BYTES).
Proof.
  intros Hj. pose proof (journal_ok_typed j Hj) as [Ht _].
  pose proof (len_opt_le _ _ _ _ len_tenure_bytes (v1_selection_typed j Ht)) as Hsel.
  pose proof (len_owner_tenure_bytes j) as Hot.
  destruct Ht. rewrite Journal_encode_eq. unfold journal_bytes.
  pose proof (len_opt_le _ _ _ _ len_receipt_bytes jt_high_water0).
  pose proof (len_opt_le _ _ _ _ len_receipt_bytes jt_in_flight0).
  pose proof (len_opt_le _ _ _ _ len_receipt_bytes jt_reconciled0).
  pose proof (len_provenance_bytes (if is_some (oj_reconciled j) then 1 else 2) _ jt_provenance0).
  assert (len (opt_bytes owner_tenure_bytes (oj_tenure j)) <= 81).
  { rewrite len_opt_bytes. destruct (oj_tenure j) as [t|]; [|lia]. specialize (Hot t Hj eq_refl). lia. }
  unfold MAX_OWNER_RECEIPT_JOURNAL_BYTES, MAX_V1_BYTES, MAX_RECEIPT_BYTES, MAX_CLOSE_RECORD_BYTES.
  destruct (oj_version_two j); rewrite !len_app, len_be_bytes; split; (done || intros; lia).
Qed.

Lemma effective_unscoped j d t : effective_choice (set_scope (unscoped j) d t) = effective_choice j.
Proof. done. Qed.

Lemma adjacent_same base next :
  adjacent base next = true ->
  r_document base = r_document next /\ selection_of base = selection_of next /\
  r_closed_epoch base + 1 = r_closed_epoch next.
Proof.
  unfold adjacent. intros H. bool_simpl. split_and!; try done. by apply opens_succ.
Qed.

(** In a version-1 journal both roles are in the scope of the effective choice. *)
Lemma v1_roles_ok j :
  v1_ok j -> oj_document j = r_document <$> effective_choice j ->
  Bool.eqb (is_some (oj_document j)) (is_some (v1_selection j)) = true /\
  v1_role_ok j (v1_selection j) (oj_high_water j) = true /\
  v1_role_ok j (v1_selection j) (oj_in_flight j) = true.
Proof.
  intros [Ht Hr Hp H1 H2 Ha%validate_adjacency_ok] Hd. rewrite Hd.
  unfold v1_role_ok, v1_selection, effective_choice, canonical_head in *. rewrite Hd, Hr in *.
  destruct (oj_in_flight j) as [i|], (oj_high_water j) as [h|]; cbn in *; try done.
  - apply adjacent_same in Ha as (E1 & E2 & _). by rewrite E1, E2, !bool_decide_eq_true_2.
  - by rewrite !bool_decide_eq_true_2.
  - by rewrite !bool_decide_eq_true_2.
Qed.

Lemma Journal_decode_ok j : journal_ok j -> Journal_decode (Journal_encode j) = Ok j.
Proof.
  intros Hj. destruct (len_Journal_encode j Hj) as [Hl Hl1]. destruct (journal_ok_typed j Hj) as [Ht Hv].
  unfold Journal_decode. rewrite refuse_if_bind_false by (by apply N.ltb_ge).
  pose proof (reads_journal (len (Journal_encode j)) (v1_selection j) j Ht Hv
    (v1_selection_typed j Ht) Hl1) as R.
  rewrite <- Journal_encode_eq in R. rewrite (run_exact_reads _ _ _ R), bind_Ok. clear R.
  change (oj_version_two (unscoped j)) with (oj_version_two j).
  change (effective_choice (unscoped j)) with (effective_choice j).
  destruct Hj as [Hd _ Hs]. destruct (oj_version_two j) eqn:E; cbn [negb].
  - assert (Es : set_scope (unscoped j) (r_document <$> effective_choice j) (oj_tenure (unscoped j)) = j).
    { unfold unscoped, set_scope. rewrite E, <- Hd. cbn. destruct j; cbn in *. by subst. }
    cbv zeta. rewrite Es, Hs. done.
  - assert (Es : set_scope (unscoped j) (r_document <$> effective_choice j)
        (owner_tenure <$> effective_choice j) = j).
    { unfold unscoped, set_scope. rewrite <- Hd, <- (v1_tenure j Hs). by destruct j. }
    cbv zeta. rewrite Es. destruct (v1_roles_ok j Hs Hd) as (R1 & R2 & R3).
    rewrite refuse_if_bind_false by (by rewrite R1). rewrite refuse_if_bind_false by (by rewrite R2, R3).
    by rewrite (v1_adjacency j Hs).
Qed.

Lemma Journal_decode_inv bs j : Journal_decode bs = Ok j -> Journal_encode j = bs /\ journal_ok j.
Proof.
  unfold Journal_decode. intros H. apply refuse_if_bind_ok in H as [_ H].
  apply bind_ok in H as ([sel k] & Hr & H).
  destruct (run_exact_consumes _ _ _ _ Hr (consumes_journal _)) as (Hb & Ht & Hv & Hsel & Hu & Hn).
  cbn [fst snd] in *. clear Hr. cbv zeta in H. unfold v1_shape in Hv.
  destruct (oj_version_two k) eqn:E; cbn [negb] in H.
  - res_inv. destruct a. rewrite Journal_encode_eq. split.
    + unfold journal_bytes; cbn. by rewrite E.
    + constructor; [done | | by cbn; rewrite E]. destruct Ht. cbn.
      eapply opt_ok_weaken; [|exact jt_provenance0]. by intros p [(? & _) _].
  - destruct (Hv eq_refl) as [Er Ep]. res_inv. destruct a. bool_simpl.
    set (j := set_scope k _ _) in *. apply eqb_prop in H.
    assert (Es : v1_selection j = sel).
    { unfold v1_selection. change (oj_high_water j) with (oj_high_water k) in *.
      change (oj_in_flight j) with (oj_in_flight k) in *. cbn [oj_document set_scope j] in H.
      unfold effective_choice, canonical_head in H. rewrite Er in H.
      destruct (oj_high_water k); cbn in *; [by bool_simpl|].
      destruct (oj_in_flight k); cbn in *; [by bool_simpl|]. by destruct sel. }
    rewrite Journal_encode_eq, Es. split; [unfold journal_bytes; cbn; by rewrite E|].
    destruct Ht. constructor; [done | by cbn; rewrite Ep|]. cbn. rewrite E. by constructor.
Qed.
End codec.

(** * Every operation keeps the invariant *)

Section preservation.
Context {C : Crypto}.

Lemma Journal_default_ok : journal_ok Journal_default.
Proof. by repeat constructor. Qed.

Lemma scope_none j : journal_ok j -> effective_choice j = None -> oj_document j = None /\ oj_tenure j = None.
Proof.
  intros [Hd _ Hs] He. rewrite He in Hd. split; [done|]. destruct (oj_version_two j).
  - apply validate_v2_ok in Hs as (H & _). rewrite Hd in H. by destruct (oj_tenure j).
  - by rewrite (v1_tenure j Hs), He.
Qed.

Lemma validate_receipt_scope j j' r :
  oj_document j' = oj_document j -> oj_tenure j' = oj_tenure j ->
  validate_receipt j' r = validate_receipt j r.
Proof. unfold validate_receipt. by intros -> ->. Qed.

Lemma validate_role_scope j j' r :
  oj_document j' = oj_document j -> oj_tenure j' = oj_tenure j ->
  validate_role j' r = validate_role j r.
Proof. intros. destruct r; cbn; [by apply validate_receipt_scope | done]. Qed.

(** The proof part of a journal is unaffected by the roles around it. *)
Lemma validate_provenance_scope j j' p p' :
  oj_document j' = oj_document j -> oj_tenure j' = oj_tenure j ->
  pv_resolved p' = pv_resolved p -> pv_retired p' = pv_retired p ->
  validate_provenance j p = Ok tt -> provenance_shape j' p' = true ->
  validate_provenance j' p' = Ok tt.
Proof.
  intros Hd Ht E1 E2. rewrite !validate_provenance_ok, E1, E2, Hd, !(validate_receipt_scope j j') by done.
  intros (? & ? & ? & Hr & _) Hs. split_and!; try done.
  eapply opt_ok_weaken; [|exact Hr]. intros [r c]. by rewrite (validate_receipt_scope j j').
Qed.

(** A repair decision survives only with its proof. *)
Lemma reconciled_proof j :
  journal_ok j -> oj_provenance j = None -> oj_reconciled j = None.
Proof.
  intros [_ _ Hs] Hp. destruct (oj_version_two j); [|by apply v1_reconciled].
  apply validate_v2_ok in Hs as (_ & _ & _ & _ & _ & H). by rewrite Hp in H.
Qed.

(** The obligation of a receipt that opens a tenure. *)
Lemma obligate_first_ok j r :
  journal_ok j -> receipt_canonical r -> Receipt_verify_signature_only r = Ok tt ->
  (if changes_tenure j r then None else oj_high_water j) = None -> oj_provenance j = None ->
  default (r_document r) (oj_document j) = r_document r ->
  r_closed_epoch r = inherited_epoch (r_inherited r) ->
  journal_ok (obligate j r).
Proof.
  intros Hj Hc Hv Hh Hp Hd Hi. pose proof (reconciled_proof j Hj Hp) as Hr.
  assert (Ead : validate_adjacency (obligate j r) = Ok tt).
  { apply validate_adjacency_ok. cbn. unfold canonical_head; cbn. by rewrite Hh, Hr. }
  constructor; [cbn [oj_document obligate]; by rewrite Hd | by cbn; rewrite Hp|].
  cbn [oj_version_two obligate]. destruct (oj_version_two j).
  - apply validate_v2_ok.
    cbn [obligate oj_document oj_tenure oj_high_water oj_in_flight oj_reconciled oj_provenance].
    rewrite Hh, Hr, Hp. split_and!; try done.
    apply validate_receipt_ok. cbn [oj_document oj_tenure obligate]. by rewrite Hd.
  - constructor; try done;
      cbn [obligate oj_tenure oj_high_water oj_in_flight oj_reconciled oj_provenance];
      by rewrite ?Hh, ?Hr, ?Hp.
Qed.

(** The obligation of a successor of the canonical head. *)
Lemma obligate_next_ok j base r :
  journal_ok j -> receipt_canonical r -> Receipt_verify_signature_only r = Ok tt ->
  oj_in_flight j = None -> canonical_head j = Some base -> adjacent base r = true ->
  (is_some (oj_provenance j) = true -> is_some (oj_reconciled j) = true) ->
  journal_ok (obligate j r).
Proof.
  intros Hj Hc Hv Hi Hb Ha Hpr.
  assert (He : effective_choice j = Some base) by (unfold effective_choice; by rewrite Hi).
  destruct (journal_role_ok j base Hj He) as [Hbc Ht].
  pose proof (adjacent_same _ _ Ha) as (Hdoc & Hsel & _).
  assert (Hot : owner_tenure base = owner_tenure r).
  { unfold owner_tenure. unfold selection_of in Hsel. by injection Hsel as -> -> _ ->. }
  assert (Hd : oj_document j = Some (r_document r)) by (rewrite (jk_document j Hj), He; cbn; congruence).
  assert (Hch : changes_tenure j r = false).
  { unfold changes_tenure. rewrite Ht, Hot. apply bool_decide_eq_false_2. by intros []. }
  assert (Ed : oj_document (obligate j r) = oj_document j) by (cbn; by rewrite Hd).
  assert (Et : oj_tenure (obligate j r) = oj_tenure j) by (cbn; by rewrite Ht, Hot).
  assert (Ead : validate_adjacency (obligate j r) = Ok tt).
  { apply validate_adjacency_ok. cbn. unfold canonical_head in *; cbn. by rewrite Hch, Hb. }
  pose proof Hj as [_ Hrep Hs]. constructor; [by rewrite Ed, Hd | done |]. cbn [oj_version_two obligate].
  destruct (oj_version_two j).
  - apply validate_v2_ok in Hs as (H1 & H2 & H3 & H4 & H5 & H6). apply validate_v2_ok.
    rewrite !(validate_role_scope j (obligate j r)), Ed, Et by done.
    cbn [obligate oj_high_water oj_in_flight oj_reconciled oj_provenance]. rewrite Hch.
    split_and!; try done.
    + apply validate_receipt_ok. by rewrite Hd, Ht, Hot.
    + destruct (oj_provenance j) as [p|]; [|done].
      eapply (validate_provenance_scope j _ p p); try done.
      apply validate_provenance_ok in H6 as (_ & _ & _ & _ & Hsh).
      unfold provenance_shape in *. cbn. rewrite Hch. specialize (Hpr eq_refl).
      by destruct (oj_reconciled j).
  - destruct Hs. constructor; cbn; rewrite ?Hch; try done.
Qed.

Lemma prepare_verified_ok j r j' :
  journal_ok j -> receipt_canonical r -> Receipt_verify_signature_only r = Ok tt ->
  prepare_verified j r = Ok j' -> journal_ok j'.
Proof.
  intros Hj Hc Hv H. unfold prepare_verified in H. cbv zeta in H.
  apply refuse_if_bind_ok in H as [Hd H]. apply refuse_if_bind_ok in H as [Hf H].
  apply refuse_if_bind_ok in H as [Hp H].
  assert (Hdoc : default (r_document r) (oj_document j) = r_document r).
  { destruct (oj_document j); cbn; [by bool_simpl | done]. }
  assert (Hfirst : negb (is_some (oj_tenure j)) || changes_tenure j r = true ->
    r_closed_epoch r = inherited_epoch (r_inherited r)).
  { intros E. rewrite E in Hf. apply negb_false_iff in Hf. unfold first_of_tenure in Hf. by bool_simpl. }
  destruct (changes_tenure j r) eqn:Ech.
  { injection H as <-. apply obligate_first_ok; try done.
    - by rewrite Ech.
    - rewrite orb_true_r, andb_true_r in Hp. by destruct (oj_provenance j).
    - apply Hfirst. by rewrite orb_true_r. }
  rewrite orb_false_r in Hp.
  destruct (oj_in_flight j) as [pending|] eqn:Ei.
  { case_bool_decide; [|done]. by injection H as <-. }
  destruct (canonical_head j) as [base|] eqn:Eb.
  - case_bool_decide; [by injection H as <-|]. destruct (adjacent base r) eqn:Ea; [|done].
    injection H as <-. eapply obligate_next_ok; try done.
    intros E. rewrite E in Hp. by destruct (oj_reconciled j).
  - injection H as <-. assert (He : effective_choice j = None) by (unfold effective_choice; by rewrite Ei).
    destruct (scope_none j Hj He) as [_ Ht].
    assert (Hh : oj_high_water j = None /\ oj_reconciled j = None).
    { unfold canonical_head in Eb. by destruct (oj_reconciled j). }
    destruct Hh as [Hh Hr]. apply obligate_first_ok; try done.
    + by rewrite Ech.
    + rewrite Hr in Hp. by destruct (oj_provenance j).
    + apply Hfirst. by rewrite Ht.
Qed.

Lemma journal_prepare_ok j r group start j' :
  journal_ok j -> receipt_canonical r -> journal_prepare j r group start = Ok j' -> journal_ok j'.
Proof.
  intros Hj Hc H. unfold journal_prepare in H. apply bind_ok in H as (v & Hv & H).
  apply bind_ok in H as ([] & _ & H).
  apply Receipt_verify_current_owner_ok in Hv as (_ & _ & _ & _ & [Hv _]%restore_verified_ok).
  by eapply prepare_verified_ok.
Qed.

(** The shape of a completed publication: the decision was the effective choice. *)
Lemma mark_published_shape j h j' :
  mark_published j h = Ok j' ->
  (j' = j /\ hash_is (oj_high_water j) h = true /\ hash_is (oj_in_flight j) h = false) \/
  exists d, effective_choice j = Some d /\ Receipt_hash d = h /\
    (oj_in_flight j = Some d \/ (oj_in_flight j = None /\ oj_reconciled j = Some d)) /\
    (is_some (oj_provenance j) = true -> is_some (oj_reconciled j) = true) /\
    j' = cleanup_finalized
           (mkOwnerReceiptJournal (oj_document j) (oj_tenure j) (Some d) None None
              (oj_provenance j) (oj_version_two j)).
Proof.
  unfold mark_published. intros H.
  destruct (hash_is (oj_high_water j) h && negb (hash_is (oj_in_flight j) h)) eqn:E.
  { injection H as <-. bool_simpl. by left. }
  right. apply refuse_if_bind_ok in H as [Hp H]. cbv zeta in H. apply bind_ok in H as (d & Hd & H).
  injection H as <-. unfold ok_or, hash_is in Hd. unfold effective_choice, canonical_head.
  assert (Hpr : is_some (oj_provenance j) = true -> is_some (oj_reconciled j) = true)
    by (intros Hx; rewrite Hx in Hp; by destruct (oj_reconciled j)).
  destruct (oj_in_flight j) as [i|]; [|destruct (oj_reconciled j) as [i|]; [|done]];
    (case_bool_decide; [|done]); injection Hd as <-; exists i; split_and!; auto.
Qed.

Lemma mark_published_ok j h j' : journal_ok j -> mark_published j h = Ok j' -> journal_ok j'.
Proof.
  intros Hj [[-> _]|(d & He & _ & Hd & Hpr & ->)]%mark_published_shape; [done|].
  destruct (journal_role_ok j d Hj He) as [Hc Ht].
  pose proof Hj as [Hdoc Hrep Hs]. rewrite He in Hdoc. unfold cleanup_finalized; cbn.
  destruct (oj_version_two j) eqn:Ev; cycle 1.
  { destruct Hs as [Ht' Hr Hp H1 H2 Ha]. rewrite Hp. cbn. constructor; [done|done|]. cbn.
    constructor; try done; cbn; by rewrite Ht. }
  apply validate_v2_ok in Hs as (H1 & H2 & H3 & H4 & H5 & H6).
  assert (Hrole : validate_receipt j d = Ok tt).
  { destruct Hd as [Hd|[_ Hd]]; rewrite Hd in *; done. }
  destruct (oj_provenance j) as [p|] eqn:Ep; cbn; cycle 1.
  { constructor; [done|done|]. cbn. apply validate_v2_ok. cbn. by split_and!. }
  destruct (pv_source_finalized p) eqn:Ef.
  { constructor; [done|done|]. cbn. apply validate_v2_ok. cbn. by split_and!. }
  constructor; [done|done|]. cbn. apply validate_v2_ok. cbn. split_and!; try done.
  eapply (validate_provenance_scope j _ p p); try done.
  apply validate_provenance_ok in H6 as (_ & _ & _ & _ & Hsh). unfold provenance_shape in *. cbn.
  rewrite Ef. cbn. specialize (Hpr eq_refl).
  destruct (oj_reconciled j) as [rec|] eqn:Er; [|done]. bool_simpl.
  destruct Hd as [Hd|[_ [= <-]]]; [|by rewrite bool_decide_eq_true_2].
  rewrite validate_adjacency_ok, Hd in H5. unfold canonical_head in H5. rewrite Er in H5.
  cbn in H5. subst rec. by rewrite H5, orb_true_r.
Qed.

Lemma mark_finalized_ok j h j' :
  journal_ok j -> mark_repair_source_finalized j h = Ok j' -> journal_ok j'.
Proof.
  intros Hj H. pose proof Hj as [Hd Hrep Hs]. unfold mark_repair_source_finalized in H.
  destruct (oj_provenance j) as [p|] eqn:Ep; [|done]. case_bool_decide; [|done]. injection H as <-.
  destruct (oj_version_two j) eqn:Ev; [|by destruct Hs; congruence].
  apply validate_v2_ok in Hs as (H1 & H2 & H3 & H4 & H5 & H6). rewrite Ep in H6.
  pose proof H6 as (_ & _ & _ & _ & Hsh)%validate_provenance_ok. unfold provenance_shape in Hsh.
  unfold cleanup_finalized; cbn. destruct (oj_reconciled j) as [rec|] eqn:Er; cbn.
  - constructor; [by cbn; rewrite Hd; unfold effective_choice, canonical_head; cbn; rewrite Er|done|].
    cbn. apply validate_v2_ok. cbn. split_and!; try done.
    + rewrite validate_adjacency_ok in *. unfold canonical_head in *. cbn. by rewrite Er in H5.
    + eapply (validate_provenance_scope j _ p); done.
  - bool_simpl. destruct (oj_in_flight j) as [i|] eqn:Ei; [done|].
    constructor; [by cbn; rewrite Hd; unfold effective_choice, canonical_head; cbn; rewrite Er, Ei|done|].
    cbn. apply validate_v2_ok. cbn. by split_and!.
Qed.

(** What a repair that changes the journal did. *)
Lemma resolve_repair_shape {G} `{OwnerAuthority G} j repair a b close (group : G) start e j' :
  resolve_repair j repair a b close group start = Ok (e, j') ->
  (e = JournalUnchanged /\ j' = j) \/
  exists s retired (normalized : bool), e <> JournalUnchanged /\ rs_repair s = repair /\
    (rs_selected s = a /\ rs_losing s = b \/ rs_selected s = b /\ rs_losing s = a) /\
    check_evidence repair a b = Ok tt /\
    normalized = hash_is (oj_high_water j) (Receipt_hash (rs_selected s)) /\
    ((exists r, effective_choice j = Some r /\ covers s r = true) \/
     (oj_in_flight j = None /\ oj_reconciled j = None /\ normalized = true)) /\
    oj_tenure j = Some (owner_tenure (rs_selected s)) /\
    j' = mkOwnerReceiptJournal (oj_document j) (oj_tenure j) (oj_high_water j) None
           (if normalized then None else Some (rs_selected s))
           (Some (mkProvenance s retired false)) true /\
    validate_v2 j' = Ok tt.
Proof.
  unfold resolve_repair. intros H0. apply bind_ok in H0 as ([] & Hv & H0).
  apply bind_ok in H0 as ([] & He & H0). apply refuse_if_bind_ok in H0 as [Hd H0].
  set (sel := if bool_decide (Receipt_hash a = rp_selected_receipt_hash repair) then (a, b) else (b, a)) in H0.
  assert (Hsel : sel = (a, b) \/ sel = (b, a)) by (unfold sel; case_bool_decide; auto).
  destruct sel as [selected losing]. cbv zeta in H0.
  match type of H0 with (if ?c then _ else _) = _ => destruct c end.
  { injection H0 as <- <-. by left. }
  match type of H0 with (if ?c then _ else _) = _ => destruct c eqn:Ec end.
  { injection H0 as <- <-. by left. }
  apply refuse_if_bind_ok in H0 as [Ht H0]. apply refuse_if_bind_ok in H0 as [_ H0].
  apply bind_ok in H0 as (retired & _ & H0). apply bind_ok in H0 as ([] & Hval & H0).
  injection H0 as He' <-. right. exists (mkResolvedRepair repair selected losing), retired,
    (hash_is (oj_high_water j) (Receipt_hash selected)).
  cbn [rs_repair rs_selected rs_losing]. apply bool_decide_eq_false, dec_stable in Ht.
  split_and!; try done.
  - rewrite <- He'. by destruct (hash_is _ _), (is_some retired).
  - by destruct Hsel as [[= -> ->]|[= -> ->]]; [left|right].
  - apply andb_false_iff in Ec as [Ec|Ec]; bool_simpl.
    + left. destruct (effective_choice j) as [r|]; [|done]. by exists r.
    + right. destruct (oj_in_flight j); [done|]. by destruct (oj_reconciled j).
Qed.

Lemma resolve_repair_ok {G} `{OwnerAuthority G} j repair a b close (group : G) start e j' :
  journal_ok j -> repair_ok repair ->
  resolve_repair j repair a b close group start = Ok (e, j') -> journal_ok j'.
Proof.
  intros Hj Hr [[_ ->]|(s & retired & nm & _ & <- & _ & _ & Hn & _ & _ & -> & Hv)]%resolve_repair_shape; [done|].
  constructor; [|done|done]. cbn. unfold effective_choice, canonical_head; cbn.
  apply validate_v2_ok in Hv as (_ & H2 & _ & H4 & _). rewrite !validate_role_ok in *. cbn in *.
  destruct nm; cbn in *.
  - unfold hash_is in Hn. destruct (oj_high_water j); [|done]. by destruct H2 as (_ & _ & -> & _).
  - by destruct H4 as (_ & _ & -> & _).
Qed.
End preservation.

(** * Runs of the journal *)

(** The journal with its history: every decision it ever stood for (its
    effective choice after each step) and the repairs that changed it. *)
Record JournalWorld := mkJournalWorld {
  jw_journal : OwnerReceiptJournal;
  jw_choices : list Receipt;
  jw_repairs : list ResolvedRepair
}.

Definition fresh_journal : JournalWorld := mkJournalWorld Journal_default [] [].

Definition stood (w : JournalWorld) (j : OwnerReceiptJournal) (s : list ResolvedRepair) : JournalWorld :=
  mkJournalWorld j (option_list (effective_choice j) ++ jw_choices w) (s ++ jw_repairs w).

(** The repair a changed journal retains. *)
Definition applied_repair (e : JournalRepairEffect) (j : OwnerReceiptJournal) : list ResolvedRepair :=
  match e with
  | JournalUnchanged => []
  | _ => option_list (pv_resolved <$> oj_provenance j)
  end.

(** The journal's operations over a set of receipts, and a restart from its
    stored bytes at any point. *)
Inductive journal_step {C : Crypto} (rs : list Receipt) (w : JournalWorld) : JournalWorld -> Prop :=
| js_prepare r group start j :
    r ∈ rs -> receipt_canonical r -> journal_prepare (jw_journal w) r group start = Ok j ->
    journal_step rs w (stood w j [])
| js_published h j :
    mark_published (jw_journal w) h = Ok j -> journal_step rs w (stood w j [])
| js_repair (group : ServerGroup) repair a b close start e j :
    a ∈ rs -> b ∈ rs -> repair_ok repair ->
    resolve_repair (jw_journal w) repair a b close group start = Ok (e, j) ->
    journal_step rs w (stood w j (applied_repair e j))
| js_finalized h j :
    mark_repair_source_finalized (jw_journal w) h = Ok j -> journal_step rs w (stood w j [])
| js_restart j :
    Journal_decode (Journal_encode (jw_journal w)) = Ok j -> journal_step rs w (stood w j []).

Section runs.
Context {C : Crypto}.

(** A repair of the history names the receipt a loser. *)
Definition repaired (w : JournalWorld) (r : Receipt) : Prop :=
  Exists (fun s => covers s r = true) (jw_repairs w).

Lemma repaired_stood w j s r : repaired w r -> repaired (stood w j s) r.
Proof. unfold repaired. intros H. cbn. apply Exists_app. by right. Qed.

(** The transcript a receipt's tenure id hashes. *)
Definition tenure_transcript (r : Receipt) : bytes :=
  transcript (bytes_of_string "catcoms-tenure:v1")
    [server_id (r_document r); r_owner_public_key r; be_bytes 8 (r_tenure_start_group_epoch r)].

(** Receipts of one document whose tenures start apart have different tenure ids. *)
Lemma tenure_starts_differ a b :
  receipt_canonical a -> receipt_canonical b -> r_tenure_id a = r_tenure_id b ->
  r_tenure_start_group_epoch a <> r_tenure_start_group_epoch b ->
  collide (tenure_transcript a) (tenure_transcript b).
Proof.
  intros (Ha & Ea & _) (Hb & Eb & _) H Hn. rewrite Ea, Eb in H. unfold receipt_tenure_id, tenure_id_of in H.
  assert (Hlen : forall r, receipt_fields_ok r ->
    Forall (fun p => len p <= u32_max) [bytes_of_string "catcoms-tenure:v1"; server_id (r_document r);
      r_owner_public_key r; be_bytes 8 (r_tenure_start_group_epoch r)]).
  { intros r Hr. pose proof (rf_document _ Hr) as (_ & [_ Hs] & _)%document_ok_spec.
    unfold MAX_SERVER_ID_BYTES in Hs. rewrite !Forall_cons. split_and!; [done | | | by rewrite len_be_bytes | done].
    - unfold u32_max. lia.
    - apply (len_u32_of_length _ 32); [apply (rf_key _ Hr) | done]. }
  destruct (hash_parts_inj _ _ _ _ (Hlen _ Ha) (Hlen _ Hb) H) as [[_ E]|Hc]; [|done].
  exfalso. apply Hn. apply (f_equal (fun l => nth 2 l [])) in E. cbn [nth] in E. apply (be_bytes_inj 8); [..|exact E];
    eapply N.le_lt_trans; [apply (rf_start _ Ha)|done|apply (rf_start _ Hb)|done].
Qed.

(** How an earlier decision relates to the one that stands. *)
Definition preceded (w : JournalWorld) (now r : Receipt) : Prop :=
  receipt_canonical r /\ r_document r = r_document now /\
  (repaired w r \/ r_tenure_start_group_epoch r < r_tenure_start_group_epoch now \/
   (selection_of r = selection_of now /\ (r_closed_epoch r < r_closed_epoch now \/ r = now))).

Definition consistent (w : JournalWorld) (a b : Receipt) : Prop :=
  receipts_conflict a b = true ->
  repaired w a \/ repaired w b \/ collide (tenure_transcript a) (tenure_transcript b).

Lemma consistent_sym w a b : consistent w a b -> consistent w b a.
Proof.
  unfold consistent. rewrite receipts_conflict_sym. intros H E.
  destruct (H E) as [?|[?|[H1 H2]]]; [by auto..|]. right; right. split; congruence.
Qed.

Lemma preceded_consistent w now r :
  receipt_canonical now -> preceded w now r -> consistent w r now.
Proof.
  intros Hn (Hr & _ & [Hp|[Hp|[Hs Hp]]]) (_ & Ht & Hh & Hc)%receipts_conflict_true; [by left|..].
  - right; right. apply tenure_starts_differ; [done..|lia].
  - exfalso. destruct Hp as [Hp| ->]; [|done]. destruct Hc; [lia|done].
Qed.

(** The roles of a journal fed from [rs]. *)
Definition roles_from (rs : list Receipt) (j : OwnerReceiptJournal) : Prop :=
  opt_ok (fun r => r ∈ rs) (oj_high_water j) /\ opt_ok (fun r => r ∈ rs) (oj_in_flight j) /\
  opt_ok (fun r => r ∈ rs) (oj_reconciled j).

(** Every earlier decision is accounted for by the one that stands. *)
Record world_ok (rs : list Receipt) (w : JournalWorld) : Prop := mkWorldOk {
  wo_journal : journal_ok (jw_journal w);
  wo_roles : roles_from rs (jw_journal w);
  wo_stands : match effective_choice (jw_journal w) with
              | Some now => now ∈ jw_choices w /\ Forall (preceded w now) (jw_choices w)
              | None => jw_choices w = []
              end;
  wo_consistent : forall a b, a ∈ jw_choices w -> b ∈ jw_choices w -> consistent w a b
}.

Lemma preceded_stood w j s now r : preceded w now r -> preceded (stood w j s) now r.
Proof.
  intros (H1 & H2 & H). split_and!; try done. destruct H; [|by auto]. left. by apply repaired_stood.
Qed.

Lemma consistent_stood w j s a b : consistent w a b -> consistent (stood w j s) a b.
Proof.
  intros H E. destruct (H E) as [H1|[H1|H1]]; [| |by auto].
  - left. by apply repaired_stood.
  - right; left. by apply repaired_stood.
Qed.

(** A step that keeps the effective choice. *)
Lemma stand_still rs w j s :
  world_ok rs w -> journal_ok j -> roles_from rs j ->
  effective_choice j = effective_choice (jw_journal w) -> world_ok rs (stood w j s).
Proof.
  intros [Hj Hr Hs Hc] Hj' Hr' E. constructor; [done..| |].
  - cbn. rewrite E. destruct (effective_choice (jw_journal w)) as [now|]; cbn; [|done].
    destruct Hs as [Hin Hf]. split; [apply list_elem_of_here|]. constructor.
    + apply preceded_stood. rewrite Forall_forall in Hf. by apply Hf.
    + eapply Forall_impl; [exact Hf|]. intros r. apply preceded_stood.
  - assert (Hsub : forall x, x ∈ jw_choices (stood w j s) -> x ∈ jw_choices w).
    { intros x. cbn. rewrite E, elem_of_app. intros [H|H]; [|done].
      destruct (effective_choice (jw_journal w)); cbn in H; [|by apply not_elem_of_nil in H].
      apply list_elem_of_singleton in H as ->. by destruct Hs. }
    intros a b Ha%Hsub Hb%Hsub. apply consistent_stood. by apply Hc.
Qed.

(** A step to a new choice that accounts for every earlier decision. *)
Lemma stand_new rs w j s now :
  world_ok rs w -> journal_ok j -> roles_from rs j -> effective_choice j = Some now ->
  Forall (preceded (stood w j s) now) (jw_choices w) -> world_ok rs (stood w j s).
Proof.
  intros [Hj Hr Hs Hc] Hj' Hr' E Hf. destruct (journal_role_ok _ _ Hj' E) as [Hcan _].
  assert (Hnow : preceded (stood w j s) now now) by (split_and!; auto).
  constructor; [done..| |]; cbn; rewrite E; cbn.
  - split; [apply list_elem_of_here|]. by constructor.
  - rewrite Forall_forall in Hf.
    assert (Hall : forall x, x ∈ now :: jw_choices w -> consistent (stood w j s) x now).
    { intros x Hx. apply preceded_consistent; [done|]. apply elem_of_cons in Hx as [->|Hx]; auto. }
    intros a b Ha Hb. apply elem_of_cons in Hb as [->|Hb]; [by apply Hall|].
    apply elem_of_cons in Ha as [->|Ha].
    + apply consistent_sym, Hall. by apply list_elem_of_further.
    + apply consistent_stood. by apply Hc.
Qed.

(** What an accepted ordinary decision did. *)
Lemma prepare_verified_shape j r j' :
  prepare_verified j r = Ok j' ->
  j' = j \/
  (j' = obligate j r /\ default (r_document r) (oj_document j) = r_document r /\
   ((exists old, oj_tenure j = Some old /\ ot_start old < r_tenure_start_group_epoch r) \/
    effective_choice j = None \/
    (exists base, oj_in_flight j = None /\ canonical_head j = Some base /\ adjacent base r = true))).
Proof.
  unfold prepare_verified. cbv zeta. intros H.
  apply refuse_if_bind_ok in H as [Hd H]. apply refuse_if_bind_ok in H as [Hf H].
  apply refuse_if_bind_ok in H as [Hp H].
  assert (Hdoc : default (r_document r) (oj_document j) = r_document r)
    by (destruct (oj_document j); cbn; [by bool_simpl | done]).
  destruct (changes_tenure j r) eqn:Ech.
  { injection H as <-. right. split_and!; try done. left. rewrite orb_true_r in Hf. cbn in Hf.
    apply negb_false_iff in Hf. unfold first_of_tenure in Hf. bool_simpl.
    unfold changes_tenure in Ech. destruct (oj_tenure j) as [old|]; [|done]. exists old. by bool_simpl. }
  unfold effective_choice. destruct (oj_in_flight j) as [pending|].
  { case_bool_decide; [|done]. injection H as <-. by left. }
  destruct (canonical_head j) as [base|].
  - case_bool_decide; [injection H as <-; by left|]. destruct (adjacent base r) eqn:Ea; [|done].
    injection H as <-. right. split_and!; try done. right; right. by exists base.
  - injection H as <-. right. split_and!; auto.
Qed.

Lemma step_prepare rs w r j :
  world_ok rs w -> r ∈ rs -> receipt_canonical r -> journal_ok j ->
  prepare_verified (jw_journal w) r = Ok j -> world_ok rs (stood w j []).
Proof.
  intros Hw Hin Hc Hj H. pose proof Hw as [Hj0 Hr Hs Hcons].
  apply prepare_verified_shape in H as [-> |(-> & Hdoc & Hcase)]; [by apply stand_still|].
  apply (stand_new _ _ _ _ r); try done.
  { destruct Hr as (H1 & H2 & H3). split_and!; cbn; try done. by destruct (changes_tenure _ _). }
  destruct (effective_choice (jw_journal w)) as [now|] eqn:En; [|by rewrite Hs].
  destruct Hs as [_ Hf]. destruct (journal_role_ok _ _ Hj0 En) as [Hnc Ht].
  assert (Hd : r_document now = r_document r) by (rewrite (jk_document _ Hj0), En in Hdoc; done).
  eapply Forall_impl; [exact Hf|]. intros c (Hcc & Hcd & Hp).
  split_and!; [done|congruence|]. destruct Hp as [Hp|Hp]; [left; by apply repaired_stood|right].
  destruct Hcase as [(old & Eo & Hlt)|[He|(base & Ei & Eb & Ha)]]; [|done|].
  - left. rewrite Ht in Eo. injection Eo as <-. cbn in Hlt.
    destruct Hp as [Hp|[Hsel _]]; [lia|]. unfold selection_of in Hsel. injection Hsel as _ ? _ _. lia.
  - unfold effective_choice in En. rewrite Ei, Eb in En. injection En as ->.
    apply adjacent_same in Ha as (_ & Hsel & Hnext).
    assert (r_tenure_start_group_epoch now = r_tenure_start_group_epoch r)
      by (unfold selection_of in Hsel; by injection Hsel).
    destruct Hp as [Hp|[Hs' [Hp| ->]]]; [left; lia|right..]; (split; [congruence|left; lia]).
Qed.

(** A repair that replaces the standing choice accounts for all before it. *)
Lemma repair_precedes rs w s j now c :
  distinct_hashes rs -> now ∈ rs -> rs_losing s ∈ rs ->
  check_evidence (rs_repair s) (rs_selected s) (rs_losing s) = Ok tt ->
  covers s now = true -> owner_tenure now = owner_tenure (rs_selected s) ->
  preceded w now c -> preceded (stood w j [s]) (rs_selected s) c.
Proof.
  intros Hd Hn Hl He Hcov Ht (Hcc & Hcd & Hp).
  apply check_evidence_ok in He as ((_ & _ & _ & _ & Hsd & Hld & Hconf)%conflicting_receipt_pair_ok & _).
  apply receipts_conflict_true in Hconf as (_ & _ & _ & Hconf).
  unfold covers in Hcov. apply andb_true_iff in Hcov as [Hcov Hwhich].
  apply andb_true_iff in Hcov as [Hdoc Htid]. apply bool_decide_eq_true in Hdoc, Htid.
  split_and!; [done|congruence|].
  assert (Hthis : covers s c = true -> repaired (stood w j [s]) c) by (intros; by left).
  destruct Hp as [Hp|[Hp|[Hsel Hp]]]; [left; by apply repaired_stood|right; left|].
  { unfold owner_tenure in Ht. injection Ht as _ Hst _. lia. }
  assert (Hctid : r_tenure_id c = rp_tenure_id (rs_repair s))
    by (unfold selection_of in Hsel; injection Hsel as -> _ _ _; done).
  assert (Hcdoc : r_document c = rp_document (rs_repair s)) by congruence.
  destruct (decide (selection_of (rs_selected s) = selection_of (rs_losing s))) as [Es|Es]; cycle 1.
  { left. apply Hthis. unfold covers.
    rewrite (bool_decide_eq_true_2 _ Hcdoc), (bool_decide_eq_true_2 _ Hctid). 
    apply orb_true_iff. right. rewrite bool_decide_eq_true_2 by done. cbn. apply bool_decide_eq_true_2.
    rewrite Hsel. apply orb_true_iff in Hwhich as [Hw|Hw]; bool_simpl; [|done].
    by rewrite (distinct_hashes_elem _ _ _ Hd Hn Hl Hw). }
  apply orb_true_iff in Hwhich as [Hw|Hw]; bool_simpl; [|done].
  assert (now = rs_losing s) as -> by by apply (distinct_hashes_elem _ _ _ Hd Hn Hl).
  assert (r_closed_epoch (rs_selected s) = r_closed_epoch (rs_losing s)) by (by destruct Hconf).
  destruct Hp as [Hp| ->].
  - right; right. split; [congruence|]. left. lia.
  - left. apply Hthis. unfold covers. rewrite (bool_decide_eq_true_2 _ Hcdoc), (bool_decide_eq_true_2 _ Hctid).
    by rewrite bool_decide_eq_true_2.
Qed.

Lemma step_repair {G} `{OwnerAuthority G} rs w repair a b close (group : G) start e j :
  distinct_hashes rs -> world_ok rs w -> a ∈ rs -> b ∈ rs -> journal_ok j ->
  resolve_repair (jw_journal w) repair a b close group start = Ok (e, j) ->
  world_ok rs (stood w j (applied_repair e j)).
Proof.
  intros Hd Hw Ha Hb Hj Hres. pose proof Hw as [Hj0 Hr Hs _].
  apply resolve_repair_shape in Hres
    as [[-> ->]|(s & retired & nm & Heff & <- & Hab & _ & Hnm & Hcase & Ht & -> & Hv)]; [by apply stand_still|].
  assert (Hin : rs_selected s ∈ rs /\ rs_losing s ∈ rs) by (destruct Hab as [[-> ->]|[-> ->]]; done).
  destruct Hin as [Hsel Hlos]. destruct Hr as (Rh & Ri & Rr).
  assert (Hnow : (if nm then oj_high_water (jw_journal w) else Some (rs_selected s)) = Some (rs_selected s)).
  { destruct nm; [|done]. unfold hash_is in Hnm. destruct (oj_high_water (jw_journal w)) as [hw|]; [|done].
    symmetry in Hnm. apply bool_decide_eq_true in Hnm. by rewrite (distinct_hashes_elem _ _ _ Hd Rh Hsel Hnm). }
  set (j := mkOwnerReceiptJournal _ _ _ _ _ _ _) in *.
  assert (Ej : effective_choice j = Some (rs_selected s)) by (unfold effective_choice, canonical_head; cbn; by destruct nm).
  assert (Hroles : roles_from rs j) by (unfold roles_from; cbn; by destruct nm).
  destruct Hcase as [(now & En & Hcov)|(Ei & Er & ->)]; cycle 1.
  { apply stand_still; try done. rewrite Ej. unfold effective_choice, canonical_head. by rewrite Ei, Er, Hnow. }
  apply (stand_new _ _ _ _ (rs_selected s)); try done.
  rewrite En in Hs. destruct Hs as [Hnin Hf].
  assert (applied_repair e j = [s]) as -> by by destruct e.
  apply validate_v2_ok in Hv as (_ & _ & _ & _ & _ & (Hres & _)%validate_provenance_ok).
  unfold Resolved_verify in Hres. cbn [pv_resolved] in Hres. res_inv. destruct a1.
  destruct (journal_role_ok _ _ Hj0 En) as [_ Hten].
  eapply Forall_impl; [exact Hf|]. intros c Hp. eapply (repair_precedes rs _ _ _ now); try done; [|congruence].
  unfold effective_choice, canonical_head in En.
  destruct (oj_in_flight _); [|destruct (oj_reconciled _)]; cbn in *; simplify_eq; try done. by rewrite En in Rh.
Qed.

Lemma cleanup_roles j :
  effective_choice (cleanup_finalized j) = effective_choice j /\
  (forall rs, roles_from rs (cleanup_finalized j) <-> roles_from rs j).
Proof. unfold cleanup_finalized. by destruct (_ && _). Qed.

Lemma step_published rs w h j :
  world_ok rs w -> mark_published (jw_journal w) h = Ok j -> world_ok rs (stood w j []).
Proof.
  intros Hw H. pose proof Hw as [Hj (Rh & Ri & Rr) _ _]. apply stand_still; [done|by eapply mark_published_ok|..].
  - apply mark_published_shape in H as [[-> _]|(d & _ & _ & Hd & _ & ->)]; [done|].
    apply cleanup_roles. destruct Hd as [Hd|[_ Hd]]; rewrite Hd in *; done.
  - apply mark_published_shape in H as [[-> _]|(d & -> & _ & _ & _ & ->)]; [done|].
    by rewrite (proj1 (cleanup_roles _)).
Qed.

Lemma step_finalized rs w h j :
  world_ok rs w -> mark_repair_source_finalized (jw_journal w) h = Ok j -> world_ok rs (stood w j []).
Proof.
  intros Hw H. pose proof Hw as [Hj Hr _ _]. pose proof (mark_finalized_ok _ _ _ Hj H) as Hj'.
  unfold mark_repair_source_finalized in H. destruct (oj_provenance (jw_journal w)); [|done].
  case_bool_decide; [|done]. injection H as <-.
  apply stand_still; [done|done|by apply cleanup_roles|by rewrite (proj1 (cleanup_roles _))].
Qed.

Lemma journal_step_ok rs w w' :
  distinct_hashes rs -> journal_step rs w w' -> world_ok rs w -> world_ok rs w'.
Proof.
  intros Hd Hs Hw. pose proof (wo_journal _ _ Hw) as Hj.
  destruct Hs as [r group start j Hin Hc H|h j H|group repair a b close start e j Ha Hb Hr H|h j H|j H].
  - eapply step_prepare; try done; [by eapply journal_prepare_ok|].
    unfold journal_prepare in H. apply bind_ok in H as (v & _ & H). by apply bind_ok in H as ([] & _ & H).
  - by eapply step_published.
  - pose proof (resolve_repair_ok _ _ _ _ _ _ _ _ _ Hj Hr H) as Hj'.
    exact (step_repair _ _ _ _ _ _ _ _ _ _ Hd Hw Ha Hb Hj' H).
  - by eapply step_finalized.
  - rewrite (Journal_decode_ok _ Hj) in H. injection H as <-.
    apply stand_still; try done. apply (wo_roles _ _ Hw).
Qed.

Lemma fresh_journal_ok rs : world_ok rs fresh_journal.
Proof. constructor; [apply Journal_default_ok|done|done|]. by intros a b Ha%not_elem_of_nil. Qed.

Lemma journal_run_ok rs w :
  distinct_hashes rs -> rtc (journal_step rs) fresh_journal w -> world_ok rs w.
Proof.
  intros Hd Hr. pose proof (fresh_journal_ok rs) as Hw. induction Hr as [|x y z Hs _ IH]; [done|].
  apply IH. by eapply journal_step_ok.
Qed.
End runs.

(** * Properties *)

(** C4: an owner never equivocates. Over any interleaving of preparing decisions,
    completing publications, applying repairs, acknowledging sources and
    restarting from stored bytes, two receipts the owner's journal ever stood
    for conflict (one document and tenure, and either one epoch closed twice or
    two inherited baselines) only if a repair the journal applied names one of
    them a loser, or the tenure hash collides. In particular an owner whose
    journal saw no repair never stood for two conflicting receipts. *)
Theorem journal_never_equivocates {C : Crypto} rs w :
  distinct_hashes rs -> rtc (journal_step rs) fresh_journal w ->
  forall a b, a ∈ jw_choices w -> b ∈ jw_choices w -> receipts_conflict a b = true ->
  repaired w a \/ repaired w b \/ collide (tenure_transcript a) (tenure_transcript b).
Proof. intros Hd Hr a b Ha Hb. exact (wo_consistent _ _ (journal_run_ok _ _ Hd Hr) a b Ha Hb). Qed.

(** The journal survives a crash at any point. Every journal reachable from
    the empty one is well-formed, encodes within its cap (the smaller version-1
    cap while it was never repaired) and decodes back to itself, so a restart
    resumes exactly the obligation, publication and repair evidence it had; and
    bytes that decode are a well-formed journal's own encoding. *)
Theorem journal_crash_safe {C : Crypto} rs w :
  distinct_hashes rs -> rtc (journal_step rs) fresh_journal w ->
  let j := jw_journal w in
  (journal_ok j /\ Journal_decode (Journal_encode j) = Ok j /\
   len (Journal_encode j) <= (if oj_version_two j then MAX_OWNER_RECEIPT_JOURNAL_BYTES else MAX_V1_BYTES)) /\
  (forall input j', Journal_decode input = Ok j' -> Journal_encode j' = input /\ journal_ok j').
Proof.
  intros Hd Hr j. pose proof (wo_journal _ _ (journal_run_ok _ _ Hd Hr)) as Hj. fold j in Hj.
  split; [split_and!; [done|by apply Journal_decode_ok|]|apply Journal_decode_inv].
  destruct (len_Journal_encode j Hj) as [H1 H2]. destruct (oj_version_two j); auto.
Qed.

(** The receipt is in the journal's scope, and is its pending decision or head. *)
Definition in_scope (j : OwnerReceiptJournal) (r : Receipt) : Prop :=
  opt_ok (fun d => d = r_document r) (oj_document j) /\ changes_tenure j r = false /\
  (oj_tenure j = None -> r_closed_epoch r = inherited_epoch (r_inherited r)).

Definition standing {C : Crypto} (j : OwnerReceiptJournal) (r : Receipt) : Prop :=
  in_scope j r /\ hash_is (effective_choice j) (Receipt_hash r) = true /\
  (is_some (oj_provenance j) = true -> is_some (oj_reconciled j) = true).

Lemma prepare_standing {C : Crypto} j r : standing j r -> prepare_verified j r = Ok j.
Proof.
  intros ((Hd & Hch & Hf) & He & Hp). unfold prepare_verified. cbv zeta. rewrite Hch.
  rewrite refuse_if_bind_false.
  2:{ destruct (oj_document j); [|done]. cbn in Hd. apply bool_decide_eq_false_2. by intros []. }
  rewrite refuse_if_bind_false.
  2:{ unfold first_of_tenure. destruct (oj_tenure j); [done|]. by rewrite Hf, N.eqb_refl. }
  rewrite refuse_if_bind_false.
  2:{ rewrite orb_false_r. destruct (oj_provenance j); [|done]. by rewrite Hp. }
  unfold effective_choice, hash_is in He. destruct (oj_in_flight j) as [i|]; [by rewrite He|].
  destruct (canonical_head j); [by rewrite He|done].
Qed.

Lemma prepare_stands {C : Crypto} j r j' : prepare_verified j r = Ok j' -> standing j' r.
Proof.
  unfold prepare_verified. cbv zeta. intros H.
  apply refuse_if_bind_ok in H as [Hd H]. apply refuse_if_bind_ok in H as [Hf H].
  apply refuse_if_bind_ok in H as [Hp H].
  assert (Hpr : is_some (oj_provenance j) = true -> is_some (oj_reconciled j) = true)
    by (intros E; rewrite E in Hp; by destruct (oj_reconciled j)).
  assert (Hob : j' = obligate j r -> standing j' r).
  { intros ->. unfold standing, in_scope, changes_tenure, effective_choice, hash_is; cbn.
    rewrite bool_decide_eq_false_2 by (by intros []). rewrite bool_decide_eq_true_2 by done.
    split_and!; try done. destruct (oj_document j); cbn; [by bool_simpl|done]. }
  assert (Hsame : changes_tenure j r = false -> hash_is (effective_choice j) (Receipt_hash r) = true ->
    j' = j -> standing j' r).
  { intros Hch He ->. split_and!; [split_and!|..]; try done.
    - destruct (oj_document j); [|done]. by bool_simpl.
    - intros Ht. rewrite Ht in Hf. cbn in Hf. apply negb_false_iff in Hf.
      unfold first_of_tenure in Hf. by bool_simpl. }
  unfold effective_choice in Hsame. destruct (changes_tenure j r); [injection H as <-; by apply Hob|].
  destruct (oj_in_flight j) as [i|]; [case_bool_decide; [|done]|destruct (canonical_head j) as [b|]];
    [..|injection H as <-; by apply Hob].
  - apply Hsame; [done| |by injection H]. by apply bool_decide_eq_true_2.
  - case_bool_decide; [apply Hsame; [done| |by injection H]; by apply bool_decide_eq_true_2|].
    destruct (adjacent b r); [|done]. injection H as <-. by apply Hob.
Qed.

(** A repaired choice is never already the published head. *)
Lemma reconciled_unpublished {C : Crypto} rs j :
  distinct_hashes rs -> journal_ok j -> roles_from rs j ->
  opt_ok (fun r => hash_is (oj_high_water j) (Receipt_hash r) = false) (oj_reconciled j).
Proof.
  intros Hd Hj (Rh & _ & Rr). destruct (oj_reconciled j) as [r|] eqn:Er; [|done]. cbn.
  destruct (oj_high_water j) as [h|] eqn:Eh; [|done]. cbn in *. apply bool_decide_eq_false_2. intros E.
  apply (distinct_hashes_elem _ _ _ Hd Rh Rr) in E as ->. destruct Hj as [_ _ Hs].
  destruct (oj_version_two j); [|by destruct Hs; congruence].
  apply validate_v2_ok in Hs as (_ & _ & _ & _ & _ & Hs).
  destruct (oj_provenance j); [|congruence]. apply validate_provenance_ok in Hs as (_ & _ & _ & _ & Hsh).
  unfold provenance_shape in Hsh. rewrite Er in Hsh. by bool_simpl.
Qed.

Lemma publish_standing {C : Crypto} j r :
  standing j r -> opt_ok (fun r => hash_is (oj_high_water j) (Receipt_hash r) = false) (oj_reconciled j) ->
  exists j', mark_published j (Receipt_hash r) = Ok j' /\
    hash_is (oj_high_water j') (Receipt_hash r) = true /\ oj_in_flight j' = None /\
    oj_reconciled j' = None /\ in_scope j' r /\ oj_version_two j' = oj_version_two j.
Proof.
  intros (Hsc & He & Hp) Hn. unfold mark_published, effective_choice, canonical_head in *.
  destruct (oj_in_flight j) as [i|] eqn:Ei; [|destruct (oj_reconciled j) as [i|] eqn:Er].
  3:{ exists j. by rewrite He. }
  - rewrite He, andb_false_r, refuse_if_bind_false
      by (destruct (oj_provenance j); [by rewrite Hp|done]).
    eexists. split; [reflexivity|]. unfold cleanup_finalized. by destruct (_ && _).
  - cbn in He, Hn. apply bool_decide_eq_true in He. rewrite <- He, Hn. cbn [andb].
    rewrite refuse_if_bind_false by (destruct (oj_provenance j); done). cbn [hash_is].
    rewrite bool_decide_eq_true_2 by done.
    eexists. split; [reflexivity|]. unfold cleanup_finalized. destruct (_ && _); cbn;
      by rewrite bool_decide_eq_true_2.
Qed.

(** An accepted decision can always be completed, and retries are harmless.
    From any reachable journal, once [prepare] accepts a receipt, preparing it
    again changes nothing, and reporting its publication succeeds: the receipt
    (the journal's copy, with the same hash) becomes the published head with
    nothing left in flight, the same report again changes nothing, and unless
    repair evidence is still retained preparing it once more is a no-op. *)
Theorem journal_decision_completes {C : Crypto} rs w r group start j' :
  distinct_hashes rs -> rtc (journal_step rs) fresh_journal w -> r ∈ rs -> receipt_canonical r ->
  journal_prepare (jw_journal w) r group start = Ok j' ->
  journal_prepare j' r group start = Ok j' /\
  exists j'', mark_published j' (Receipt_hash r) = Ok j'' /\
    hash_is (oj_high_water j'') (Receipt_hash r) = true /\
    oj_in_flight j'' = None /\ effective_choice j'' = oj_high_water j'' /\
    mark_published j'' (Receipt_hash r) = Ok j'' /\
    (oj_provenance j'' = None -> journal_prepare j'' r group start = Ok j'').
Proof.
  intros Hd Hrun Hin Hc H.
  assert (Hw : world_ok rs (stood w j' [])).
  { eapply journal_run_ok; [done|]. eapply rtc_r; [exact Hrun|]. by eapply js_prepare. }
  unfold journal_prepare in *. apply bind_ok in H as (v & Hv & H). apply bind_ok in H as ([] & Hdec & H).
  pose proof (prepare_stands _ _ _ H) as Hst.
  assert (Hcan : forall k : bool, (if k then (_ ← Receipt_decode (Receipt_encode r); Ok tt) else Ok tt) = Ok tt)
    by (intros []; [|done]; rewrite (proj2 (Receipt_decode_spec _ r)) by done; done).
  rewrite Hv, bind_Ok, Hcan, bind_Ok, (prepare_standing _ _ Hst). split; [done|].
  destruct (publish_standing j' r Hst) as (j'' & Hp & Hh & Hi & Hr & Hsc & _).
  { apply (reconciled_unpublished rs); [done|apply (wo_journal _ _ Hw)|apply (wo_roles _ _ Hw)]. }
  exists j''. assert (He : effective_choice j'' = oj_high_water j'')
    by (unfold effective_choice, canonical_head; by rewrite Hi, Hr).
  split_and!; try done.
  - unfold mark_published. by rewrite Hh, Hi.
  - intros Hn. rewrite bind_Ok, Hcan, bind_Ok. apply prepare_standing. split_and!; try apply Hsc.
    + by rewrite He.
    + by rewrite Hn.
Qed.

(** ** Witnesses *)

Definition journal_of (m : result ReplError OwnerReceiptJournal) : OwnerReceiptJournal :=
  match m with Ok j => j | Err _ => Journal_default end.

Definition toy_decide (w : JournalWorld) (r : Receipt) : JournalWorld :=
  stood w (journal_of (journal_prepare (C:=toy_crypto) (jw_journal w) r toy_group 3)) [].

Definition toy_publish (w : JournalWorld) (r : Receipt) : JournalWorld :=
  stood w (journal_of (mark_published (C:=toy_crypto) (jw_journal w) (Receipt_hash (C:=toy_crypto) r))) [].

Definition toy_journal_receipts : list Receipt :=
  [toy_receipt_at 2 5; toy_receipt_at 3 5; toy_receipt_at 4 8; toy_receipt_at 4 2].

Definition toy_w1 : JournalWorld := toy_decide fresh_journal (toy_receipt_at 2 5).
Definition toy_w2 : JournalWorld := toy_publish toy_w1 (toy_receipt_at 2 5).
Definition toy_w3 : JournalWorld := toy_decide toy_w2 (toy_receipt_at 3 5).
Definition toy_w4 : JournalWorld := toy_publish toy_w3 (toy_receipt_at 3 5).
Definition toy_w5 : JournalWorld := toy_decide toy_w4 (toy_receipt_at 4 8).
Definition toy_w6 : JournalWorld := toy_publish toy_w5 (toy_receipt_at 4 8).
Definition toy_repaired_journal : OwnerReceiptJournal :=
  match resolve_repair (C:=toy_crypto) (G:=ServerGroup) (jw_journal toy_w6) toy_repair
          (toy_receipt_at 4 8) (toy_receipt_at 4 2) None toy_group 3 with
  | Ok (_, j) => j
  | Err _ => Journal_default
  end.
Definition toy_w7 : JournalWorld :=
  stood toy_w6 toy_repaired_journal (applied_repair Replace toy_repaired_journal).

Lemma toy_journal_distinct : distinct_hashes (C:=toy_crypto) toy_journal_receipts.
Proof. apply (bool_decide_eq_true_1 (distinct_hashes (C:=toy_crypto) toy_journal_receipts)). by vm_compute. Qed.

Lemma toy_decide_step w r j :
  r ∈ toy_journal_receipts -> Receipt_decode (C:=toy_crypto) (Receipt_encode r) = Ok r ->
  journal_prepare (C:=toy_crypto) (jw_journal w) r toy_group 3 = Ok j ->
  journal_step (C:=toy_crypto) toy_journal_receipts w (stood w j []).
Proof. intros Hin Hc H. eapply js_prepare; [done|by apply toy_canonical_of|exact H]. Qed.

Lemma toy_publish_step w r j :
  mark_published (C:=toy_crypto) (jw_journal w) (Receipt_hash (C:=toy_crypto) r) = Ok j ->
  journal_step (C:=toy_crypto) toy_journal_receipts w (stood w j []).
Proof. apply js_published. Qed.

Lemma toy_journal_run4 : rtc (journal_step (C:=toy_crypto) toy_journal_receipts) fresh_journal toy_w4.
Proof.
  apply rtc_l with toy_w1; [apply (toy_decide_step _ (toy_receipt_at 2 5));
    [apply list_elem_of_here | by vm_compute | by vm_compute]|].
  apply rtc_l with toy_w2; [apply (toy_publish_step _ (toy_receipt_at 2 5)); by vm_compute|].
  apply rtc_l with toy_w3; [apply (toy_decide_step _ (toy_receipt_at 3 5));
    [apply list_elem_of_further, list_elem_of_here | by vm_compute | by vm_compute]|].
  apply rtc_once, (toy_publish_step _ (toy_receipt_at 3 5)); by vm_compute.
Qed.

Lemma toy_journal_run : rtc (journal_step (C:=toy_crypto) toy_journal_receipts) fresh_journal toy_w7.
Proof.
  transitivity toy_w4; [exact toy_journal_run4|].
  apply rtc_l with toy_w5; [apply (toy_decide_step _ (toy_receipt_at 4 8));
    [do 2 apply list_elem_of_further; apply list_elem_of_here | by vm_compute | by vm_compute]|].
  apply rtc_l with toy_w6; [apply (toy_publish_step _ (toy_receipt_at 4 8)); by vm_compute|].
  apply rtc_once. apply (js_repair _ _ toy_group toy_repair (toy_receipt_at 4 8) (toy_receipt_at 4 2) None 3);
    [do 2 apply list_elem_of_further; apply list_elem_of_here |
     do 3 apply list_elem_of_further; apply list_elem_of_here | exact toy_repair_ok | by vm_compute].
Qed.

Lemma journal_never_equivocates_witness :
  repaired (C:=toy_crypto) toy_w7 (toy_receipt_at 4 8) \/
  repaired (C:=toy_crypto) toy_w7 (toy_receipt_at 4 2) \/
  collide (C:=toy_crypto) (tenure_transcript (toy_receipt_at 4 8)) (tenure_transcript (toy_receipt_at 4 2)).
Proof.
  assert (Ha : toy_receipt_at 4 8 ∈ jw_choices toy_w7).
  { apply (bool_decide_eq_true_1 (toy_receipt_at 4 8 ∈ jw_choices toy_w7)). by vm_compute. }
  assert (Hb : toy_receipt_at 4 2 ∈ jw_choices toy_w7).
  { apply (bool_decide_eq_true_1 (toy_receipt_at 4 2 ∈ jw_choices toy_w7)). by vm_compute. }
  assert (Hc : receipts_conflict (C:=toy_crypto) (toy_receipt_at 4 8) (toy_receipt_at 4 2) = true)
    by by vm_compute.
  exact (journal_never_equivocates (C:=toy_crypto) toy_journal_receipts toy_w7 toy_journal_distinct
    toy_journal_run _ _ Ha Hb Hc).
Defined.

Lemma journal_crash_safe_witness :
  Journal_decode (C:=toy_crypto) (Journal_encode (jw_journal toy_w7)) = Ok (jw_journal toy_w7).
Proof.
  destruct (journal_crash_safe (C:=toy_crypto) toy_journal_receipts toy_w7 toy_journal_distinct
    toy_journal_run) as [(_ & H & _) _]. exact H.
Defined.

Lemma journal_decision_completes_witness :
  exists j, mark_published (C:=toy_crypto) (jw_journal toy_w5)
              (Receipt_hash (C:=toy_crypto) (toy_receipt_at 4 8)) = Ok j /\ oj_in_flight j = None.
Proof.
  assert (Hin : toy_receipt_at 4 8 ∈ toy_journal_receipts)
    by (do 2 apply list_elem_of_further; apply list_elem_of_here).
  assert (Hc : receipt_canonical (C:=toy_crypto) (toy_receipt_at 4 8))
    by (apply toy_canonical_of; by vm_compute).
  assert (Hp : journal_prepare (C:=toy_crypto) (jw_journal toy_w4) (toy_receipt_at 4 8) toy_group 3
    = Ok (jw_journal toy_w5)) by by vm_compute.
  destruct (journal_decision_completes (C:=toy_crypto) toy_journal_receipts toy_w4 (toy_receipt_at 4 8)
    toy_group 3 _ toy_journal_distinct toy_journal_run4 Hin Hc Hp) as (_ & j & H & _ & Hi & _).
  exact (ex_intro _ j (conj H Hi)).
Defined.
