(* ===== verification/Restart.v ===== *)
(** The restart unit of an epoch: an epoch gate, its receipt book, the opening
    receipt and the accepted log, as [EpochGate::verify_restart] of
    [crates/catcoms-replication/src/epoch.rs] re-checks them together, and the
    adoption mode of [epoch/adoption.rs]. The theorems show that the live
    operations never leave a unit the restart check would refuse. *)

From S2P Require Import Prelude OrdMap Wire Context Crypto Codec EpochBase Authority.
From S2P Require Import Receipt Close Repair Gate Book.
From stdpp Require Import base list relations.
From Stdlib Require Import Init.Byte.
Local Open Scope N_scope.

Definition MAX_REGISTRY_EPOCH : N := 4096.

(** * The restart check *)

Section restart.
Context {C : Crypto}.

(** [latest], [previous_until_installed] and the fault pair, in the order the check visits them. *)
Definition held_receipts (b : ReceiptBook) : list Receipt :=
  option_list (bk_latest b) ++ option_list (bk_previous_until_installed b) ++
  match bk_fault b with Some (x, y) => [x; y] | None => [] end.

(** One member of the evidence is exactly the opening receipt. *)
Definition opening_fault (b : ReceiptBook) (opening : option Receipt) : bool :=
  match bk_fault b with
  | Some (x, y) =>
      (bool_decide (Some x = opening) || bool_decide (Some y = opening))
      && (r_closed_epoch x =? r_closed_epoch y) && receipts_conflict x y
  | None => false
  end.

Definition in_fault (b : ReceiptBook) (r : Receipt) : bool :=
  match bk_fault b with
  | Some (x, y) => bool_decide (r = x) || bool_decide (r = y)
  | None => false
  end.

(** The receipt loop of [verify_restart_mode]. *)
Fixpoint check_held (g : EpochGate) (b : ReceiptBook) (opening : option Receipt)
    (rs : list Receipt) : result ReplError unit :=
  match rs with
  | [] => Ok tt
  | r :: rs =>
      _ ← refuse_if (bool_decide (r_document r <> g_document g)
                     || (negb (r_closed_epoch r =? g_epoch g)
                         && bool_decide (Some r <> opening)
                         && negb (opening_fault b opening && in_fault b r))) EpochScope;
      _ ← restore_verified_from_vault r;
      check_held g b opening rs
  end.

Definition phase_valid (g : EpochGate) (b : ReceiptBook) (opening : option Receipt) : bool :=
  match gi_phase (g_inner g) with
  | Open => negb (is_faulted b) && bool_decide (bk_latest b = opening)
  | Closing =>
      negb (is_faulted b)
      && match bk_latest b with
         | Some r =>
             (r_closed_epoch r =? g_epoch g)
             && bool_decide (Some (Receipt_hash r) = gi_receipt_hash (g_inner g))
             && match opening with
                | Some prior =>
                    bool_decide (r_tenure_id prior <> r_tenure_id r)
                    || bool_decide (selection_of prior = selection_of r)
                | None => true
                end
         | None => false
         end
  | Fault =>
      match bk_fault b with
      | Some (x, y) =>
          receipts_conflict x y
          && ((r_closed_epoch x =? g_epoch g) || (r_closed_epoch y =? g_epoch g)
              || opening_fault b opening)
      | None => false
      end
  | Settled => false
  end.

(** The pieces common to both modes: log, document scope, opening receipt. *)
Definition check_unit (g : EpochGate) (operations : list AdmittedOperation) (b : ReceiptBook)
    (opening : option Receipt) : result ReplError unit :=
  let i := g_inner g in
  _ ← refuse_if (negb (len operations =? len (gi_operations i))
                 || existsb (fun op => bool_decide (om_get (op_hash op) (gi_operations i) <> Some op))
                      operations
                 || match bk_document b with
                    | Some d => bool_decide (d <> g_document g)
                    | None => false
                    end) Malformed;
  match opening with
  | Some r =>
      _ ← refuse_if (bool_decide (r_document r <> g_document g) || negb (opens r (g_epoch g)))
            EpochScope;
      _ ← restore_verified_from_vault r;
      Ok tt
  | None => refuse_if (negb (g_epoch g =? 0)) EpochScope
  end.

(** [ReceiptBook::verify_adoption_state]: *)
Fixpoint check_adopted (document : LogicalDocument) (rs : list Receipt) : result ReplError unit :=
  match rs with
  | [] => Ok tt
  | r :: rs =>
      _ ← refuse_if (bool_decide (r_document r <> document)
                     || (bool_decide (doc_type document = DocRegistry)
                         && (MAX_REGISTRY_EPOCH <=? r_closed_epoch r))) EpochScope;
      _ ← restore_verified_from_vault r;
      check_adopted document rs
  end.

(** An anchor below the target is of another tenure, repudiated, or an earlier
    receipt of the same selection. *)
Definition anchor_below (b : ReceiptBook) (latest prior : Receipt) : bool :=
  bool_decide (r_tenure_id prior <> r_tenure_id latest)
  || is_repaired_loser b prior
  || ((r_closed_epoch prior <? r_closed_epoch latest)
      && bool_decide (selection_of prior = selection_of latest)).

Definition adoption_valid (b : ReceiptBook) (latest : Receipt) (i : EpochGateInner)
    (opening : option Receipt) : bool :=
  match gi_phase i with
  | Closing =>
      negb (is_faulted b)
      && bool_decide (gi_receipt_hash i = Some (Receipt_hash latest))
      && match bk_previous_until_installed b with
         | Some prior => anchor_below b latest prior
         | None => true
         end
      && match opening with Some prior => anchor_below b latest prior | None => true end
  | Fault =>
      match bk_fault b with
      | Some (x, y) =>
          receipts_conflict x y
          && (bool_decide (latest = x) || bool_decide (latest = y)
              || existsb (fun anchor => bool_decide (anchor = x) || bool_decide (anchor = y))
                   (option_list opening ++ option_list (bk_previous_until_installed b)))
      | None => false
      end
  | Open | Settled => false
  end.

Definition verify_adoption_state (b : ReceiptBook) (document : LogicalDocument)
    (i : EpochGateInner) (opening : option Receipt) : result ReplError unit :=
  latest ← ok_or (bk_latest b) Malformed;
  _ ← check_adopted document (held_receipts b);
  refuse_if (negb (adoption_valid b latest i opening)) Malformed.

Definition verify_restart_mode (g : EpochGate) (operations : list AdmittedOperation)
    (b : ReceiptBook) (opening : option Receipt) (adoption : bool) : result ReplError unit :=
  _ ← check_unit g operations b opening;
  if adoption then verify_adoption_state b (g_document g) (g_inner g) opening
  else
    _ ← refuse_if (match bk_previous_until_installed b with
                   | Some r => bool_decide (Some r <> opening)
                   | None => false
                   end) Malformed;
    _ ← check_held g b opening (held_receipts b);
    refuse_if (negb (phase_valid g b opening)) Malformed.

Definition verify_restart (g : EpochGate) (operations : list AdmittedOperation)
    (b : ReceiptBook) (opening : option Receipt) : result ReplError unit :=
  verify_restart_mode g operations b opening false.

Definition verify_adoption_restart (g : EpochGate) (operations : list AdmittedOperation)
    (b : ReceiptBook) (opening : option Receipt) : result ReplError unit :=
  verify_restart_mode g operations b opening true.

(** [ReceiptBook::ingest_adoption]; the book and the gate change together. *)
Definition ingest_adoption (b : ReceiptBook) (receipt : Receipt) (group : ServerGroup)
    (tenure_start : N) (gate : EpochGate) (opening : option Receipt)
    : result ReplError (ReceiptIngest * ReceiptBook * EpochGate) :=
  _ ← Receipt_verify_current_owner receipt group tenure_start;
  _ ← refuse_if (bool_decide (r_document receipt <> g_document gate)) EpochScope;
  let i := g_inner gate in
  _ ← refuse_if (bool_decide (gi_phase i = Settled)) EpochClosed;
  if is_faulted b then Ok (IngestFault, b, gate)
  else if is_repaired_loser b receipt then Ok (IngestStale, b, gate)
  else
    let conflicting := List.find
      (fun prior => receipts_conflict prior receipt && negb (is_repaired_loser b prior))
      (option_list opening ++ option_list (bk_previous_until_installed b)) in
    next ← match conflicting with
           | Some prior =>
               Ok (IngestFault,
                   mkReceiptBook (bk_document b) (bk_tenure b) (bk_latest b)
                     (bk_previous_until_installed b)
                     (Some (canonical_receipt_pair prior receipt))
                     (bk_repair_sequence b) (bk_resolved_repair b))
           | None => ingest_verified b receipt
           end;
    match next.1 with
    | IngestStale => Ok (IngestStale, b, gate)
    | IngestFault => Ok (IngestFault, next.2, with_inner gate (set_phase Fault None i))
    | IngestAdvanced | IngestDuplicate =>
        _ ← refuse_if (bool_decide (gi_phase i = Fault)) ReceiptConflict;
        latest ← ok_or (bk_latest next.2) ReceiptConflict;
        Ok (next.1, next.2, with_inner gate (set_phase Closing (Some (Receipt_hash latest)) i))
    end.
End restart.

(** * What the check establishes *)

Section checked.
Context {C : Crypto}.

Definition held_ok (g : EpochGate) (b : ReceiptBook) (opening : option Receipt) (r : Receipt) : Prop :=
  r_document r = g_document g /\
  (r_closed_epoch r = g_epoch g \/ Some r = opening \/
   (opening_fault b opening = true /\ in_fault b r = true)) /\
  Receipt_verify_signature_only r = Ok tt.

Definition opening_ok (g : EpochGate) (opening : option Receipt) : Prop :=
  match opening with
  | Some r => r_document r = g_document g /\ opens r (g_epoch g) = true /\
              Receipt_verify_signature_only r = Ok tt
  | None => g_epoch g = 0
  end.

Record receipts_ok (g : EpochGate) (b : ReceiptBook) (opening : option Receipt) : Prop := mkReceiptsOk {
  rk_document : opt_ok (fun d => d = g_document g) (bk_document b);
  rk_opening : opening_ok g opening;
  rk_previous : opt_ok (fun r => Some r = opening) (bk_previous_until_installed b);
  rk_held : Forall (held_ok g b opening) (held_receipts b);
  rk_phase : phase_valid g b opening = true
}.

Definition log_ok (i : EpochGateInner) (ops : list AdmittedOperation) : Prop :=
  len ops = len (gi_operations i) /\
  Forall (fun op => om_get (op_hash op) (gi_operations i) = Some op) ops.

Lemma restore_unit r :
  Receipt_verify_signature_only r = Ok tt <-> exists v, restore_verified_from_vault r = Ok v.
Proof.
  split; [intros H; eexists; by apply restore_verified_ok|]. by intros [v [? _]%restore_verified_ok].
Qed.

Lemma held_refuse g b opening r :
  (bool_decide (r_document r <> g_document g)
   || (negb (r_closed_epoch r =? g_epoch g) && bool_decide (Some r <> opening)
       && negb (opening_fault b opening && in_fault b r))) = false <->
  r_document r = g_document g /\
  (r_closed_epoch r = g_epoch g \/ Some r = opening \/
   (opening_fault b opening = true /\ in_fault b r = true)).
Proof.
  rewrite orb_false_iff, !andb_false_iff, !negb_false_iff, andb_true_iff, N.eqb_eq.
  rewrite !bool_decide_eq_false.
  assert (Hd : ~ r_document r <> g_document g <-> r_document r = g_document g)
    by (split; [apply dec_stable | by intros -> []]).
  assert (Ho : ~ Some r <> opening <-> Some r = opening)
    by (split; [apply dec_stable | by intros <- []]).
  rewrite Hd, Ho. tauto.
Qed.

Lemma check_held_ok g b opening rs :
  check_held g b opening rs = Ok tt <-> Forall (held_ok g b opening) rs.
Proof.
  induction rs as [|r rs IH]; cbn [check_held]; [by split|].
  rewrite Forall_cons, <- IH. unfold held_ok. split.
  - intros H. apply refuse_if_bind_ok in H as [Hr H]. apply bind_ok in H as (v & Hv & H).
    apply held_refuse in Hr as [? ?]. split_and!; try done. apply restore_unit. by exists v.
  - intros ((H1 & H2 & H3) & H4). apply restore_unit in H3 as [v Hv].
    rewrite refuse_if_bind_false by (by apply held_refuse). by rewrite Hv, bind_Ok.
Qed.

Lemma check_unit_ok g ops b opening :
  check_unit g ops b opening = Ok tt <->
  log_ok (g_inner g) ops /\ opt_ok (fun d => d = g_document g) (bk_document b) /\
  opening_ok g opening.
Proof.
  unfold check_unit, log_ok, opening_ok. cbv zeta.
  assert (Hl : (negb (len ops =? len (gi_operations (g_inner g)))
      || existsb (fun op => bool_decide (om_get (op_hash op) (gi_operations (g_inner g)) <> Some op)) ops
      || match bk_document b with Some d => bool_decide (d <> g_document g) | None => false end) = false
    <-> (len ops = len (gi_operations (g_inner g)) /\
         Forall (fun op => om_get (op_hash op) (gi_operations (g_inner g)) = Some op) ops) /\
        opt_ok (fun d => d = g_document g) (bk_document b)).
  { rewrite !orb_false_iff, negb_false_iff, N.eqb_eq, existsb_false_Forall.
    assert (Hf : forall op, bool_decide (om_get (op_hash op) (gi_operations (g_inner g)) <> Some op) = false
      <-> om_get (op_hash op) (gi_operations (g_inner g)) = Some op).
    { intros op. rewrite bool_decide_eq_false. split; [apply dec_stable | by intros -> []]. }
    assert (Hd : match bk_document b with Some d => bool_decide (d <> g_document g) | None => false end = false
      <-> opt_ok (fun d => d = g_document g) (bk_document b)).
    { destruct (bk_document b); cbn; [|done]. rewrite bool_decide_eq_false.
      split; [apply dec_stable | by intros -> []]. }
    rewrite Hd, !Forall_forall. setoid_rewrite Hf. tauto. }
  split.
  - intros [Hc H]%refuse_if_bind_ok. apply Hl in Hc as [Hc Hd]. split_and!; try apply Hc; [done|].
    destruct opening as [r|]; res_inv; bool_simpl; [|done].
    split_and!; [done | done |]. apply restore_unit. by eexists.
  - intros (Hc & Hd & Ho). rewrite refuse_if_bind_false by (by apply Hl).
    destruct opening as [r|]; [|by rewrite Ho]. destruct Ho as (H1 & H2 & H3).
    rewrite refuse_if_bind_false; [|rewrite H2; apply orb_false_iff; split; [|done];
      apply bool_decide_eq_false_2; by intros []].
    apply restore_unit in H3 as [v ->]. done.
Qed.

Lemma verify_restart_ok g ops b opening :
  verify_restart g ops b opening = Ok tt <-> log_ok (g_inner g) ops /\ receipts_ok g b opening.
Proof.
  unfold verify_restart, verify_restart_mode.
  assert (Hp : match bk_previous_until_installed b with
               | Some r => bool_decide (Some r <> opening)
               | None => false
               end = false <-> opt_ok (fun r => Some r = opening) (bk_previous_until_installed b)).
  { destruct (bk_previous_until_installed b); cbn; [|done]. rewrite bool_decide_eq_false.
    split; [apply dec_stable | by intros <- []]. }
  split.
  - intros H. apply bind_ok in H as ([] & Hu & H). apply check_unit_ok in Hu as (Hl & Hd & Ho).
    apply refuse_if_bind_ok in H as [Hpr H]. apply bind_ok in H as ([] & Hh & H).
    apply refuse_if_ok, negb_false_iff in H. apply Hp in Hpr. apply check_held_ok in Hh.
    by split; [|constructor].
  - intros [Hl []]. rewrite (proj2 (check_unit_ok g ops b opening)), bind_Ok by done.
    rewrite refuse_if_bind_false by (by apply Hp).
    rewrite (proj2 (check_held_ok g b opening (held_receipts b))), bind_Ok by done.
    by rewrite rk_phase0.
Qed.

Lemma log_ok_permutation i ops : accounted i -> ops ≡ₚ om_values (gi_operations i) -> log_ok i ops.
Proof.
  intros Ha Hp. split.
  - unfold len. rewrite (Permutation_length Hp). unfold om_values. by rewrite length_fmap.
  - rewrite Hp. unfold om_values. rewrite Forall_fmap, Forall_forall. intros [h op] Hin; cbn.
    pose proof (proj1 (Forall_forall _ _) (ac_ops _ Ha) _ Hin) as [E _]; cbn in E. rewrite <- E.
    by apply om_get_elem; [apply Ha|].
Qed.

(** The receipts' part of the check looks only at the gate's identity, phase and seal. *)
Lemma receipts_ok_gate g g' b opening :
  g_document g' = g_document g -> g_epoch g' = g_epoch g ->
  gi_phase (g_inner g') = gi_phase (g_inner g) ->
  gi_receipt_hash (g_inner g') = gi_receipt_hash (g_inner g) ->
  receipts_ok g b opening -> receipts_ok g' b opening.
Proof.
  intros Hd He Hp Hr []. constructor.
  - by rewrite Hd.
  - unfold opening_ok. by rewrite Hd, He.
  - done.
  - eapply Forall_impl; [done|]. intros r. unfold held_ok. by rewrite Hd, He.
  - unfold phase_valid. by rewrite Hp, Hr, He.
Qed.
End checked.

(** * The live operations keep the unit restartable *)

Section live.
Context {C : Crypto}.

(** A held receipt that needs no opening fault to explain it. *)
Definition plain_held (g : EpochGate) (opening : option Receipt) (r : Receipt) : Prop :=
  r_document r = g_document g /\ (r_closed_epoch r = g_epoch g \/ Some r = opening) /\
  Receipt_verify_signature_only r = Ok tt.

Lemma plain_held_ok g b opening r : plain_held g opening r -> held_ok g b opening r.
Proof. intros (H1 & H2 & H3). split_and!; try done. tauto. Qed.

Lemma unfaulted_plain g b opening :
  bk_fault b = None -> receipts_ok g b opening ->
  opt_ok (plain_held g opening) (bk_latest b) /\
  opt_ok (plain_held g opening) (bk_previous_until_installed b).
Proof.
  intros Hf [_ _ _ Hh _].
  assert (Hp : forall r, held_ok g b opening r -> plain_held g opening r).
  { intros r (H1 & H2 & H3). split_and!; try done.
    unfold opening_fault in H2. rewrite Hf in H2. destruct H2 as [|[|[? _]]]; auto. done. }
  unfold held_receipts in Hh. rewrite !Forall_app in Hh. destruct Hh as (Hl & Hq & _).
  split.
  - destruct (bk_latest b); [|done]. cbn in *. by apply Hp, Forall_singleton.
  - destruct (bk_previous_until_installed b); [|done]. cbn in *. by apply Hp, Forall_singleton.
Qed.

(** Recording a conflict between the head and a receipt of this epoch. *)
Lemma fault_restartable g b opening l r t h :
  bk_fault b = None -> receipts_ok g b opening -> bk_latest b = Some l ->
  plain_held g opening r -> r_closed_epoch r = g_epoch g -> receipts_conflict l r = true ->
  receipts_ok (with_inner g (set_phase Fault h (g_inner g)))
    (record_fault b t (canonical_receipt_pair l r)) opening.
Proof.
  intros Hf Hr Hl Hpr Hc Hconf. destruct (unfaulted_plain _ _ _ Hf Hr) as [Pl Pp].
  rewrite Hl in Pl. destruct (canonical_pair_Forall _ l r Pl Hpr) as [P1 P2].
  destruct (canonical_pair_facts _ _ Hconf) as (_ & Hc' & Hpair).
  destruct Hr. set (p := canonical_receipt_pair l r) in *. destruct p as [x y] eqn:Ep; cbn in *.
  constructor; cbn; try done.
  - unfold held_receipts; cbn. repeat (apply Forall_cons; split); cycle 1.
    + apply Forall_app. split.
      * destruct (bk_previous_until_installed b); [|done]. apply Forall_singleton.
        by apply (plain_held_ok (with_inner g _)).
      * repeat (apply Forall_cons; split); [| |done]; by apply (plain_held_ok (with_inner g _)).
    + by apply (plain_held_ok (with_inner g _)).
  - unfold phase_valid; cbn. rewrite Hc'. cbn. apply orb_true_iff. left. apply orb_true_iff.
    rewrite !N.eqb_eq. destruct Hpair as [[= -> ->]|[= -> ->]]; auto.
Qed.

(** Sealing an open gate with an advance. *)
Lemma advance_restartable g b opening r b' :
  book_ok b -> bk_fault b = None -> receipts_ok g b opening -> gi_phase (g_inner g) = Open ->
  plain_held g opening r -> r_closed_epoch r = g_epoch g ->
  ingested b r IngestAdvanced b' ->
  receipts_ok (with_inner g (set_phase Closing (Some (Receipt_hash r)) (g_inner g))) b' opening.
Proof.
  intros Hb Hf Hr Hp Hpr Hc Hi. destruct (unfaulted_plain _ _ _ Hf Hr) as [Pl _].
  pose proof (rk_phase _ _ _ Hr) as Hph. unfold phase_valid in Hph. rewrite Hp in Hph.
  apply andb_true_iff in Hph as [_ Ho%bool_decide_eq_true].
  destruct Hr. destruct Hpr as (Hd & _ & Hsig).
  inversion Hi as [| |_ _ Hl| | | | |l _ _ Hl Hcase]; subst; rewrite Hl in *; constructor; cbn; try done.
  - apply Forall_singleton. split_and!; cbn; auto.
  - unfold phase_valid; cbn. rewrite (proj2 (N.eqb_eq _ _) Hc). by rewrite bool_decide_eq_true_2.
  - repeat (apply Forall_cons; split); [| |done].
    + split_and!; cbn; auto.
    + by apply (plain_held_ok (with_inner g _)).
  - unfold phase_valid; cbn. rewrite (proj2 (N.eqb_eq _ _) Hc), bool_decide_eq_true_2 by done. cbn.
    rewrite orb_true_iff, !bool_decide_eq_true. destruct Hcase as [|[? _]]; auto.
Qed.

(** The head of an unfaulted, unsettled unit, by phase. *)
Lemma head_by_phase g b opening l :
  receipts_ok g b opening -> bk_latest b = Some l ->
  match gi_phase (g_inner g) with
  | Open => r_closed_epoch l < g_epoch g
  | Closing => r_closed_epoch l = g_epoch g /\ gi_receipt_hash (g_inner g) = Some (Receipt_hash l)
  | Fault => is_faulted b = true
  | Settled => False
  end.
Proof.
  intros Hr Hl. pose proof (rk_phase _ _ _ Hr) as Hph. pose proof (rk_opening _ _ _ Hr) as Hop.
  unfold phase_valid in Hph. unfold is_faulted. destruct (gi_phase (g_inner g)).
  - rewrite Hl in Hph. apply andb_true_iff in Hph as [_ <-%bool_decide_eq_true].
    destruct Hop as (_ & [? _]%opens_succ & _). lia.
  - rewrite Hl in Hph. bool_simpl. split; congruence.
  - done.
  - by destruct (bk_fault b).
Qed.

Lemma ingest_restartable g b opening r v o b' ops g' :
  book_ok b -> receipts_ok g b opening -> opt_ok (fun l => distinguished l r) (bk_latest b) ->
  restore_verified_from_vault r = Ok v -> r_closed_epoch r = g_epoch g ->
  ingest_verified b r = Ok (o, b') -> transition_verified_receipt g v o = Ok (ops, g') ->
  receipts_ok g' b' opening.
Proof.
  intros Hb Hr Hdist Hv Hc Hi Ht. apply restore_verified_ok in Hv as [Hsig ->].
  unfold transition_verified_receipt in Ht. cbv zeta in Ht.
  apply refuse_if_bind_ok in Ht as [Hs Ht]. bool_simpl.
  cbn [vr_document vr_closed_epoch vr_receipt_hash] in *.
  assert (Hpr : plain_held g opening r) by (split_and!; auto).
  pose proof (head_by_phase g b opening) as Hhead.
  destruct (ingest_cases _ _ _ _ Hb Hi) as [Hcase Hdoc].
  assert (Hld : forall l, bk_latest b = Some l -> r_document l = r_document r).
  { intros l Hl. pose proof (bo_document _ Hb) as E. rewrite Hl in E. destruct Hdoc; congruence. }
  assert (Hfault : forall l t, bk_fault b = None -> bk_latest b = Some l ->
    receipts_conflict l r = true ->
    receipts_ok (with_inner g (set_phase Fault None (g_inner g)))
      (record_fault b t (canonical_receipt_pair l r)) opening).
  { intros l t Hf Hl Hconf. by apply fault_restartable. }
  pose proof (rk_phase _ _ _ Hr) as Hph. unfold phase_valid in Hph.
  pose proof Hcase as Hcase'.
  destruct Hcase' as [f Hf|Hf Hl|Hf Hn Hl|l Hf Hn Hl Htid Hsel|l Hf Hn Hl Hsel Hce Hh
    |l Hf Hn Hl Hsel Hce Hh|l Hf Hn Hl Hsel Hce|l Hf Hn Hl Hadv]; try by (injection Ht as <- <-).
  - unfold is_faulted in Hph. rewrite Hf in Hph. destruct (gi_phase (g_inner g)) eqn:Hp; try done.
    injection Ht as <- <-. destruct Hr. constructor; cbn; try done.
    unfold phase_valid; cbn. unfold phase_valid in rk_phase0. by rewrite Hp in rk_phase0.
  - unfold is_faulted in Hph. rewrite Hf, Hl in Hph.
    destruct (gi_phase (g_inner g)) eqn:Hp; try done. injection Ht as <- <-.
    by eapply advance_restartable.
  - rewrite Hl in Hdist. destruct (gi_phase (g_inner g)); try done; injection Ht as <- <-;
      (apply Hfault; [done..|]); by apply selections_differ_conflict; auto.
  - specialize (Hhead l Hr Hl). destruct (gi_phase (g_inner g)); [lia | | done | done].
    case_bool_decide; [|done]. by injection Ht as <- <-.
  - assert (receipts_conflict l r = true).
    { apply receipts_conflict_true. unfold selection_of in Hsel. injection Hsel as Htid _ _ _.
      split_and!; auto. }
    destruct (gi_phase (g_inner g)); try done; injection Ht as <- <-; by apply Hfault.
  - specialize (Hhead l Hr Hl). destruct (gi_phase (g_inner g)) eqn:Hp; try done.
    + injection Ht as <- <-. by eapply advance_restartable.
    + case_bool_decide as Heq; [|done]. destruct Hhead as [Hce Hh]. rewrite Hl in Hdist.
      assert (l = r) as -> by (apply Hdist; congruence). destruct Hadv as [|[_ ?]]; [done|lia].
Qed.

Lemma conflict_pair_members a b x y :
  receipts_conflict a b = true -> canonical_receipt_pair a b = (x, y) ->
  receipts_conflict x y = true /\ ((x = a /\ y = b) \/ (x = b /\ y = a)).
Proof.
  intros Hc E. destruct (canonical_pair_facts _ _ Hc) as (_ & Hc' & Hp). rewrite E in *.
  split; [done|]. destruct Hp as [[= -> ->]|[= -> ->]]; auto.
Qed.

Lemma opening_restartable g b opening r group start o b' g' :
  receipts_ok g b (Some opening) ->
  check_opening_receipt b r opening group start g = Ok (o, b', g') ->
  receipts_ok g' b' (Some opening).
Proof.
  intros Hr H. unfold check_opening_receipt in H.
  apply bind_ok in H as (v & Hv & H).
  apply Receipt_verify_current_owner_ok in Hv as (_ & _ & _ & _ & [Hsig _]%restore_verified_ok).
  apply refuse_if_bind_ok in H as [Hs H]. unfold is_faulted in H.
  destruct (bk_fault b) eqn:Hf; [by injection H as <- <- <-|].
  destruct (is_repaired_loser b r); [by injection H as <- <- <-|].
  apply refuse_if_bind_ok in H as [Hph H]. case_bool_decide; [by injection H as <- <- <-|].
  apply refuse_if_bind_ok in H as [Hc H]. apply negb_false_iff in Hc. injection H as <- <- <-.
  destruct (unfaulted_plain _ _ _ Hf Hr) as [Pl Pp]. bool_simpl.
  destruct (canonical_receipt_pair opening r) as [x y] eqn:Ep.
  destruct (conflict_pair_members _ _ _ _ Hc Ep) as [Hc' Hxy].
  pose proof (rk_opening _ _ _ Hr) as (Hod & Hoo & Hosig).
  assert (Hof : opening_fault (mkReceiptBook (bk_document b) (bk_tenure b) (bk_latest b)
      (bk_previous_until_installed b) (Some (x, y)) (bk_repair_sequence b) (bk_resolved_repair b))
      (Some opening) = true).
  { unfold opening_fault; cbn. rewrite Hc', andb_true_r, andb_true_iff, orb_true_iff, !bool_decide_eq_true, N.eqb_eq.
    destruct Hxy as [[-> ->]|[-> ->]]; auto. }
  destruct Hr. constructor; [exact rk_document0 | exact rk_opening0 | exact rk_previous0 | |].
  - unfold held_receipts; cbn. rewrite !Forall_app, !Forall_cons. split_and!.
    + destruct (bk_latest b); [|done]. apply Forall_singleton. by apply (plain_held_ok (gate_fault g)).
    + destruct (bk_previous_until_installed b); [|done]. apply Forall_singleton.
      by apply (plain_held_ok (gate_fault g)).
    + split_and!; [destruct Hxy as [[-> ->]|[-> ->]]; cbn; congruence | | by destruct Hxy as [[-> ->]|[-> ->]]].
      right. right. split; [done|]. unfold in_fault; cbn. by rewrite bool_decide_eq_true_2.
    + split_and!; [destruct Hxy as [[-> ->]|[-> ->]]; cbn; congruence | | by destruct Hxy as [[-> ->]|[-> ->]]].
      right. right. split; [done|]. unfold in_fault; cbn.
      by rewrite (bool_decide_eq_true_2 (y = y)), orb_true_r.
    + done.
  - unfold phase_valid. cbn [gate_fault with_inner g_inner set_phase gi_phase bk_fault].
    by rewrite Hc', Hof, orb_true_r.
Qed.

(** Evidence against the opening receipt keeps the book well-formed as long as
    the head, when it is above the opening, is of the same tenure. *)
Lemma opening_book_ok g b opening r group start o b' g' :
  book_ok b -> receipts_ok g b (Some opening) -> receipt_canonical r -> receipt_canonical opening ->
  opt_ok (fun l => r_tenure_id l = r_tenure_id opening) (bk_latest b) ->
  check_opening_receipt b r opening group start g = Ok (o, b', g') -> book_ok b'.
Proof.
  intros Hb Hr Cr Co Ht H. unfold check_opening_receipt in H.
  apply bind_ok in H as (v & Hv & H). apply refuse_if_bind_ok in H as [Hs H]. unfold is_faulted in H.
  destruct (bk_fault b) eqn:Hf; [by injection H as <- <- <-|].
  destruct (is_repaired_loser b r); [by injection H as <- <- <-|].
  apply refuse_if_bind_ok in H as [Hph H]. case_bool_decide; [by injection H as <- <- <-|].
  apply refuse_if_bind_ok in H as [Hc H]. apply negb_false_iff in Hc. injection H as <- <- <-.
  bool_simpl. destruct (bk_latest b) as [l|] eqn:Hl; cycle 1.
  { pose proof (rk_phase _ _ _ Hr) as Hz. unfold phase_valid in Hz. rewrite Hl in Hz.
    destruct (gi_phase (g_inner g)); try done; by rewrite andb_false_r in Hz. }
  cbn in Ht.
  destruct (canonical_pair_facts _ _ Hc) as (Hlt & Hc' & Hpair).
  destruct (canonical_pair_Forall receipt_canonical opening r Co Cr) as [C1 C2].
  destruct (canonical_pair_Forall (fun x => r_document x = r_document opening /\
    r_closed_epoch x = r_closed_epoch opening /\ r_tenure_id x = r_tenure_id opening) opening r)
    as [(D1 & E1 & T1) (D2 & E2 & T2)]; [done | by split_and!|].
  pose proof (rk_phase _ _ _ Hr) as Hpv. pose proof (rk_opening _ _ _ Hr) as (Hod & Hoo & _).
  pose proof (rk_document _ _ _ Hr) as Hdoc.
  assert (Hdl : bk_document b = Some (r_document opening)).
  { pose proof (bo_document _ Hb) as E. rewrite Hl in E. rewrite E in *. cbn in Hdoc. congruence. }
  destruct Hb. constructor; cbn; rewrite ?Hl in *; try done. split; [|congruence].
  unfold fault_consistent. rewrite (proj2 (kltb_klt _ _) Hlt), Hc'.
  rewrite !bool_decide_eq_true_2 by congruence. cbn [andb].
  unfold phase_valid in Hpv. rewrite Hl in Hpv. destruct (gi_phase (g_inner g)); try done.
  - apply andb_true_iff in Hpv as [_ [= ->]%bool_decide_eq_true].
    destruct Hpair as [Hp|Hp]; rewrite Hp; cbn;
      rewrite (bool_decide_eq_true_2 (opening = opening)) by done; by rewrite ?orb_true_r.
  - bool_simpl. rewrite !orb_true_iff, !andb_true_iff, N.eqb_eq. right. split_and!; [done | congruence | |].
    + apply opens_succ. apply opens_succ in Hoo. rewrite E1. lia.
    + rewrite !orb_true_iff, !bool_decide_eq_true in *.
      match goal with Hx : _ \/ _ |- _ => destruct Hx as [Hx|Hx]; [congruence|] end.
      destruct Hpair as [Hp|Hp]; rewrite Hp; cbn; auto.
Qed.

Lemma installed_restartable g b opening :
  receipts_ok g b opening -> receipts_ok g (mark_latest_installed b) opening.
Proof.
  intros []. constructor; try done. unfold held_receipts in *; cbn.
  rewrite !Forall_app in *. destruct rk_held0 as (? & _ & ?). by split.
Qed.
End live.

(** * Runs of a unit *)

(** The state of one epoch: gate, committed log (newest first), receipt book. *)
Definition unit_state : Type := EpochGate * list AdmittedOperation * ReceiptBook.

(** One operation on the unit opened by [opening], for receipts of the set
    [rs]. A receipt re-checked against the opening is of the tenure the head
    was issued in: the current owner's. *)
Inductive unit_step {C : Crypto} (rs : list Receipt) (opening : option Receipt) :
    unit_state -> unit_state -> Prop :=
| us_local op a g l b g' l' :
    op_typed op -> admit_local_and_commit g op (cons op) l = Ok (a, g', l') ->
    unit_step rs opening (g, l, b) (g', l', b)
| us_inbound op a g l b g' l' :
    op_typed op -> admit_inbound_and_commit g op (cons op) l = Ok (a, g', l') ->
    unit_step rs opening (g, l, b) (g', l', b)
| us_owner owner g l b :
    length owner = 32%nat -> unit_step rs opening (g, l, b) (update_owner g owner, l, b)
| us_receipt r group start o ops g l b g' b' :
    r ∈ rs -> receipt_canonical r -> ingest_and_seal b r group start g = Ok (o, ops, b', g') ->
    unit_step rs opening (g, l, b) (g', l, b')
| us_opening r first group start o g l b g' b' :
    opening = Some first -> r ∈ rs -> receipt_canonical r ->
    opt_ok (fun h => r_tenure_id h = r_tenure_id first) (bk_latest b) ->
    check_opening_receipt b r first group start g = Ok (o, b', g') ->
    unit_step rs opening (g, l, b) (g', l, b')
| us_installed g l b : unit_step rs opening (g, l, b) (g, l, mark_latest_installed b).

Section runs.
Context {C : Crypto} `{!CryptoLaws C}.
Variable rs : list Receipt.
Variable opening : option Receipt.
Hypothesis distinct : distinct_hashes rs.
Hypothesis opening_known : opt_ok (fun r => r ∈ rs /\ receipt_canonical r) opening.

Record unit_ok (u : unit_state) : Prop := mkUnitOk {
  uo_gate : gate_ok u.1.1;
  uo_log : u.1.2 ≡ₚ om_values (gi_operations (g_inner u.1.1));
  uo_book : book_ok u.2;
  uo_known : book_known rs u.2;
  uo_receipts : receipts_ok u.1.1 u.2 opening
}.

(** Admission and the owner change keep the gate's identity, phase and seal. *)
Lemma admission_keeps_seal g l g' l' :
  log_step (g, l) (g', l') -> gate_ok g ->
  (exists op a, (admit_local g op = Ok (a, g') \/ admit_inbound g op = Ok (a, g'))) ->
  g_document g' = g_document g /\ g_epoch g' = g_epoch g /\
  gi_phase (g_inner g') = gi_phase (g_inner g) /\
  gi_receipt_hash (g_inner g') = gi_receipt_hash (g_inner g).
Proof.
  intros _ Hg (op & a & [H|H]).
  - by apply admit_local_ok in H as [[-> _]|(_ & _ & _ & -> & _)].
  - by apply admit_inbound_ok in H as [[-> _]|[(_ & _ & _ & -> & _)|(_ & _ & _ & _ & _ & ->)]].
Qed.

Lemma admitted_unit_ok g l b g' l' :
  log_step (g, l) (g', l') ->
  (exists op a, (admit_local g op = Ok (a, g') \/ admit_inbound g op = Ok (a, g'))) ->
  unit_ok (g, l, b) -> unit_ok (g', l', b).
Proof.
  intros Hs Ha []. cbn in *. destruct (log_step_agrees _ _ _ _ Hs uo_gate0 uo_log0).
  destruct (admission_keeps_seal _ _ _ _ Hs uo_gate0 Ha) as (? & ? & ? & ?).
  constructor; cbn; try done. by apply (receipts_ok_gate g).
Qed.

Lemma transition_operations g v o ops g' :
  transition_verified_receipt g v o = Ok (ops, g') ->
  gi_operations (g_inner g') = gi_operations (g_inner g).
Proof. by intros [->|[[_ ->]|[_ ->]]]%transition_ok. Qed.

Lemma sealed_unit_ok g l b r group start o ops g' b' :
  r ∈ rs -> receipt_canonical r -> ingest_and_seal b r group start g = Ok (o, ops, b', g') ->
  unit_ok (g, l, b) -> unit_ok (g', l, b').
Proof using distinct CryptoLaws0.
  intros Hin Hr H []. cbn in *. unfold ingest_and_seal in H.
  apply bind_ok in H as (v & Hv & H). apply refuse_if_bind_ok in H as [He H].
  apply bind_ok in H as ([o1 b1] & Hi & H). apply bind_ok in H as ([ops1 g1] & Ht & H).
  cbn [fst snd] in *. injection H as <- <- <- <-. bool_simpl.
  apply Receipt_verify_current_owner_ok in Hv as (_ & _ & _ & _ & Hv).
  assert (Hd : opt_ok (fun l => distinguished l r) (bk_latest b)).
  { destruct uo_known0 as [Kl _]. destruct (bk_latest b); [|done]. by eapply distinct_hashes_elem. }
  constructor; cbn.
  - eapply gate_step_ok; [done|]. eapply gs_receipt; [|done].
    apply restore_verified_ok in Hv as [_ ->]. apply sha256_length.
  - by rewrite (transition_operations _ _ _ _ _ Ht).
  - by eapply ingest_ok.
  - by eapply ingest_known.
  - by eapply ingest_restartable.
Qed.

Lemma opening_unit_ok g l b r first group start o g' b' :
  opening = Some first -> r ∈ rs -> receipt_canonical r ->
  opt_ok (fun h => r_tenure_id h = r_tenure_id first) (bk_latest b) ->
  check_opening_receipt b r first group start g = Ok (o, b', g') ->
  unit_ok (g, l, b) -> unit_ok (g', l, b').
Proof using opening_known.
  intros Ho Hin Hr Ht H Hu. pose proof Hu as []. cbn in *. pose proof opening_known as Hok.
  rewrite Ho in uo_receipts0, Hok. destruct Hok as [Hfin Hfc].
  pose proof (opening_restartable _ _ _ _ _ _ _ _ _ uo_receipts0 H) as Hro.
  pose proof (opening_book_ok _ _ _ _ _ _ _ _ _ uo_book0 uo_receipts0 Hr Hfc Ht H) as Hbo.
  unfold check_opening_receipt in H. apply bind_ok in H as (v & _ & H).
  apply refuse_if_bind_ok in H as [_ H].
  destruct (is_faulted b); [by injection H as <- <- <-|].
  destruct (is_repaired_loser b r); [by injection H as <- <- <-|].
  apply refuse_if_bind_ok in H as [Hph H]. case_bool_decide; [by injection H as <- <- <-|].
  apply refuse_if_bind_ok in H as [_ H]. injection H as <- <- <-.
  constructor; cbn; rewrite ?Ho; try done.
  - by apply gate_ok_phase.
  - destruct uo_known0 as [Kl _]. split; [done|]. cbn.
    by destruct (canonical_pair_Forall (fun x => x ∈ rs) first r Hfin Hin).
Qed.

Lemma unit_step_ok u u' : unit_step rs opening u u' -> unit_ok u -> unit_ok u'.
Proof using distinct CryptoLaws0 opening_known.
  intros Hs. destruct Hs as [op a g l b g' l' Ht H|op a g l b g' l' Ht H|owner g l b Ho
    |r group start o ops g l b g' b' Hin Hr H|r first group start o g l b g' b' Ho Hin Hr Ht H|g l b].
  - pose proof (commit_accepted_ok _ _ _ _ _ _ H) as [Ha _].
    apply admitted_unit_ok; [by eapply ls_local | eauto].
  - pose proof (commit_accepted_ok _ _ _ _ _ _ H) as [Ha _].
    apply admitted_unit_ok; [by eapply ls_inbound | eauto].
  - intros []. cbn in *. constructor; cbn; try done.
    + eapply gate_step_ok; [done|]. by apply gs_owner.
    + by apply (receipts_ok_gate g).
  - by eapply sealed_unit_ok.
  - by eapply opening_unit_ok.
  - intros []. cbn in *. constructor; cbn; try done; [by apply mark_installed_ok | by apply installed_restartable].
Qed.

Lemma unit_run_ok u u' : rtc (unit_step rs opening) u u' -> unit_ok u -> unit_ok u'.
Proof using distinct CryptoLaws0 opening_known. induction 1; [done|]. intros. by eauto using unit_step_ok. Qed.
End runs.

(** * Properties *)

(** C2: end-to-end crash safety of an epoch. Start a fresh gate over a
    well-formed book and opening receipt that pass the restart check; after any
    interleaving of local and inbound admissions with their commits, owner
    changes, receipts that seal or fault the gate, delayed evidence against the
    opening receipt and checkpoint installs, the gate and the book both encode,
    decode, and pass the joint restart check against the committed log, with
    the same accepted operations. The receipts involved have distinct hashes. *)
Theorem restart_unit_survives {C : Crypto} `{!CryptoLaws C}
    (rs : list Receipt) (opening : option Receipt) document doc_id epoch owner b0 g l b :
  document_ok document -> doc_id <= u128_max -> epoch <= u64_max -> length owner = 32%nat ->
  distinct_hashes rs -> opt_ok (fun r => r ∈ rs /\ receipt_canonical r) opening ->
  book_ok b0 -> book_known rs b0 ->
  verify_restart (EpochGate_new document doc_id epoch owner) [] b0 opening = Ok tt ->
  rtc (unit_step rs opening) (EpochGate_new document doc_id epoch owner, [], b0) (g, l, b) ->
  exists gate_bs book_bs g',
    EpochGate_encode g = Ok gate_bs /\ EpochGate_decode gate_bs = Ok g' /\
    ReceiptBook_encode b = Ok book_bs /\ ReceiptBook_decode book_bs = Ok b /\
    verify_restart g' l b opening = Ok tt /\ accepted_hashes g' = accepted_hashes g.
Proof.
  intros Hd Hi He Ho Hdist Hop Hb Hk Hv Hrun.
  apply verify_restart_ok in Hv as [_ Hr].
  assert (H0 : unit_ok rs opening (EpochGate_new document doc_id epoch owner, [], b0)).
  { constructor; cbn; try done. by apply gate_new_ok. }
  destruct (unit_run_ok rs opening Hdist Hop _ _ Hrun H0) as [Hg Hl Hbk _ Hrec]; cbn in *.
  exists (gate_bytes g), (book_bytes b), (sorted_gate g).
  split_and!; [by apply EpochGate_encode_ok | by apply EpochGate_decode_ok | by apply encode_ok |
               by apply decode_ok | | done].
  apply verify_restart_ok. split; [|by apply (receipts_ok_gate g)].
  change (log_ok (g_inner g) l). by apply log_ok_permutation; [apply Hg|].
Qed.

Lemma ingest_fault_faulted {C : Crypto} b r b' :
  ingest_verified b r = Ok (IngestFault, b') -> is_faulted b' = true.
Proof.
  assert (Hh : forall x, ingest_head x r = (IngestFault, b') -> is_faulted b' = true).
  { intros x. unfold ingest_head. destruct (bk_latest x); [|done].
    repeat case_match; intros; simplify_eq; done. }
  unfold ingest_verified. intros [_ H]%refuse_if_bind_ok. cbv zeta in H.
  match type of H with context [is_faulted ?x] => destruct (is_faulted x) eqn:E end;
    [by injection H as <-|].
  repeat case_match; simplify_eq; try done; by eapply Hh.
Qed.

Lemma find_conflict {A} (f : A -> bool) l x : x ∈ l -> f x = true -> List.find f l <> None.
Proof.
  intros Hin Hf Hn. assert (f x = false); [|congruence].
  apply (List.find_none f l Hn x). by apply list_elem_of_In.
Qed.

(** Adopting a received checkpoint never loses the local source and never
    hides equivocation. Whatever the outcome, the gate keeps its identity, its
    accepted operations and its quarantine and does not reopen; a stale receipt
    changes nothing; an accepted target closes the gate under the new head's
    hash; and a receipt that contradicts the opening receipt or the retained
    previous target (unless a repair repudiated that anchor) is a fault even
    when it is below the book's high-water. *)
Theorem adoption_keeps_source {C : Crypto} b r group start g opening o b' g' :
  ingest_adoption b r group start g opening = Ok (o, b', g') ->
  (g_document g' = g_document g /\ g_epoch g' = g_epoch g /\
   gi_operations (g_inner g') = gi_operations (g_inner g) /\
   gi_quarantine (g_inner g') = gi_quarantine (g_inner g)) /\
  (gi_phase (g_inner g') = Open -> g' = g) /\
  match o with
  | IngestStale => b' = b /\ g' = g
  | IngestAdvanced | IngestDuplicate =>
      gi_phase (g_inner g') = Closing /\
      exists l, bk_latest b' = Some l /\ gi_receipt_hash (g_inner g') = Some (Receipt_hash l)
  | IngestFault => is_faulted b = false ->
      is_faulted b' = true /\ gi_phase (g_inner g') = Fault /\ gi_receipt_hash (g_inner g') = None
  end /\
  (forall anchor, Some anchor = opening \/ Some anchor = bk_previous_until_installed b ->
     is_repaired_loser b r = false -> receipts_conflict anchor r = true ->
     is_repaired_loser b anchor = false -> o = IngestFault).
Proof.
  intros H. unfold ingest_adoption in H. apply bind_ok in H as (v & _ & H).
  apply refuse_if_bind_ok in H as [_ H]. cbv zeta in H. apply refuse_if_bind_ok in H as [Hs H].
  destruct (is_faulted b) eqn:Ef.
  { injection H as <- <- <-. split_and!; done. }
  destruct (is_repaired_loser b r) eqn:El.
  { injection H as <- <- <-. split_and!; try done. }
  apply bind_ok in H as ([o1 b1] & Hn & H). cbn [fst snd] in H.
  assert (Hf : o1 = IngestFault -> is_faulted b1 = true).
  { intros ->. destruct (List.find _ _); [by simplify_eq | by eapply ingest_fault_faulted]. }
  assert (Hanchor : forall anchor, Some anchor = opening \/ Some anchor = bk_previous_until_installed b ->
    receipts_conflict anchor r = true -> is_repaired_loser b anchor = false -> o1 = IngestFault).
  { intros x Hx Hc Hl.
    destruct (List.find _ _) eqn:Efind; [by simplify_eq|].
    exfalso. refine (find_conflict _ _ x _ _ Efind); [|by rewrite Hc, Hl].
    apply elem_of_app. destruct Hx as [<-|<-]; [left | right]; by apply list_elem_of_singleton. }
  destruct o1; res_inv; simplify_eq; split_and!; cbn; try done; eauto;
    try (intros x Hx _ Hc Hl; by specialize (Hanchor x Hx Hc Hl)).
  - exists a. split; [|done]. by destruct (bk_latest b'); simplify_eq/=.
  - exists a. split; [|done]. by destruct (bk_latest b'); simplify_eq/=.
Qed.

(** ** Witnesses *)

Definition toy_opening : Receipt := toy_receipt_at 3 5.

Definition toy_unit0 : unit_state := (toy_gate0, [], toy_book1).
Definition toy_unit1 : unit_state := (toy_gate_a, [toy_op 5 9], toy_book1).

Definition seal_or_same (u : unit_state) (r : Receipt) : unit_state :=
  match ingest_and_seal (C:=toy_crypto) u.2 r toy_group 3 u.1.1 with
  | Ok (_, _, b, g) => (g, u.1.2, b)
  | Err _ => u
  end.

Definition toy_unit2 : unit_state := seal_or_same toy_unit1 (toy_receipt_at 4 2).
Definition toy_unit3 : unit_state := seal_or_same toy_unit2 (toy_receipt_at 4 8).

Definition sealed_ops (u : unit_state) (r : Receipt) : list AdmittedOperation :=
  match ingest_and_seal (C:=toy_crypto) u.2 r toy_group 3 u.1.1 with
  | Ok (_, ops, _, _) => ops
  | Err _ => []
  end.

Lemma toy_unit_run :
  rtc (unit_step (C:=toy_crypto) toy_receipts (Some toy_opening)) toy_unit0
    (toy_unit3.1.1, toy_unit3.1.2, toy_unit3.2).
Proof.
  apply rtc_l with (y := toy_unit1).
  { apply (us_local _ _ (toy_op 5 9) Accepted toy_gate0 [] toy_book1 toy_gate_a [toy_op 5 9]);
      [apply toy_op_typed | by vm_compute]. }
  apply rtc_l with (y := (toy_unit2.1.1, [toy_op 5 9], toy_unit2.2)).
  { apply (us_receipt _ _ (toy_receipt_at 4 2) toy_group 3 IngestAdvanced
      (sealed_ops toy_unit1 (toy_receipt_at 4 2)));
      [apply list_elem_of_further, list_elem_of_here | apply toy_canonical_of; by vm_compute |
       by vm_compute]. }
  apply rtc_l with (y := (toy_unit3.1.1, [toy_op 5 9], toy_unit3.2)).
  { apply (us_receipt _ _ (toy_receipt_at 4 8) toy_group 3 IngestFault
      (sealed_ops toy_unit2 (toy_receipt_at 4 8)));
      [do 2 apply list_elem_of_further; apply list_elem_of_here |
       apply toy_canonical_of; by vm_compute | by vm_compute]. }
  assert (E : toy_unit3.1.2 = [toy_op 5 9]) by by vm_compute. rewrite E. apply rtc_refl.
Qed.

Lemma toy_book1_known : book_known toy_receipts toy_book1.
Proof.
  assert (E : bk_latest toy_book1 = Some toy_opening /\ bk_fault toy_book1 = None) by by vm_compute.
  destruct E as [E1 E2]. split; [rewrite E1 | by rewrite E2]. apply list_elem_of_here.
Qed.

Lemma restart_unit_survives_witness :
  exists gate_bs g', EpochGate_encode toy_unit3.1.1 = Ok gate_bs /\ EpochGate_decode gate_bs = Ok g' /\
    verify_restart (C:=toy_crypto) g' toy_unit3.1.2 toy_unit3.2 (Some toy_opening) = Ok tt.
Proof.
  destruct (restart_unit_survives (C:=toy_crypto) toy_receipts (Some toy_opening) toy_document 11 4
    (be_bytes 32 9) toy_book1 toy_unit3.1.1 toy_unit3.1.2 toy_unit3.2)
    as (gbs & bbs & g' & He & Hd & _ & _ & Hv & _).
  - exact toy_document_ok.
  - by vm_compute.
  - by vm_compute.
  - apply length_be_bytes.
  - exact toy_distinct.
  - split; [apply list_elem_of_here | apply toy_canonical_of; by vm_compute].
  - exact toy_book_ok1.
  - exact toy_book1_known.
  - by vm_compute.
  - exact toy_unit_run.
  - exact (ex_intro _ gbs (ex_intro _ g' (conj He (conj Hd Hv)))).
Defined.

Definition adopt_or_same (b : ReceiptBook) (r : Receipt) (g : EpochGate)
    : ReceiptIngest * ReceiptBook * EpochGate :=
  match ingest_adoption (C:=toy_crypto) b r toy_group 3 g (Some toy_opening) with
  | Ok p => p
  | Err _ => (IngestStale, b, g)
  end.

Definition toy_adopted : ReceiptIngest * ReceiptBook * EpochGate :=
  adopt_or_same toy_book1 (toy_receipt_at 9 2) toy_gate_a.

Lemma adoption_keeps_source_witness :
  gi_operations (g_inner toy_adopted.2) = gi_operations (g_inner toy_gate_a) /\
  gi_phase (g_inner toy_adopted.2) = Closing.
Proof.
  destruct (adoption_keeps_source (C:=toy_crypto) toy_book1 (toy_receipt_at 9 2) toy_group 3 toy_gate_a
    (Some toy_opening) IngestAdvanced toy_adopted.1.2 toy_adopted.2) as (Hk & _ & Ho & _);
    [by vm_compute|].
  exact (conj (proj1 (proj2 (proj2 Hk))) (proj1 Ho)).
Defined.
