(* ===== verification/RepairTransition.v ===== *)
(** Source-side repair of
    [crates/catcoms-replication/src/epoch/repair_transition.rs]: planning what a
    signed repair does to an epoch's gate, book and adoption mode, committing
    that plan only onto the state it was computed from (the gate's own commit is
    [commit_repair] of [Gate]), the persisted binding of the repair, and the
    fence it raises. The gate's lock is the atomicity of
    [commit_repair]; a plan and its commit are separate steps. *)

From S2P Require Import Prelude OrdMap Wire Context Crypto Codec EpochBase Authority.
From S2P Require Import Receipt Close Repair Gate Book Restart.
From stdpp Require Import base list.
From Stdlib Require Import Init.Byte.
Local Open Scope N_scope.

(** * Data *)

Inductive RepairHold : Type :=
| SequenceNotNewer
| RepairInProgress
| HoldSettled
| UnsupportedShape.

#[global] Instance RepairHold_eq_dec : EqDecision RepairHold.
Proof. solve_decision. Defined.

Inductive SourceRepairOutcome : Type :=
| Applied (d : RepairDisposition)
| AlreadyResolved (d : RepairDisposition)
| Held (h : RepairHold).

#[global] Instance SourceRepairOutcome_eq_dec : EqDecision SourceRepairOutcome.
Proof. solve_decision. Defined.

Record SourceRepairState := mkSourceRepairState {
  srs_repair : ReceiptRepair;
  srs_selected : Receipt;
  srs_losing : Receipt;
  srs_installed : bool;
  srs_install_pending : bool;
  srs_disposition : RepairDisposition
}.

Record RepairBinding := mkRepairBinding {
  rb_disposition : RepairDisposition;
  rb_hash : bytes
}.

#[global] Instance RepairBinding_eq_dec : EqDecision RepairBinding.
Proof. solve_decision. Defined.

Record RepairStateStamp := mkRepairStateStamp {
  rss_gate : EpochGateInner;
  rss_book : bytes;
  rss_adopting : bool;
  rss_binding : option RepairBinding;
  rss_opening : option Receipt
}.

Record RepairCandidate := mkRepairCandidate {
  rc_expected : RepairStateStamp;
  rc_book : ReceiptBook;
  rc_gate : EpochGateInner;
  rc_adopting : bool;
  rc_binding : RepairBinding
}.

Inductive RepairPlan : Type :=
| PlanCandidate (c : RepairCandidate)
| PlanUnchanged (o : SourceRepairOutcome).

(** The borrowed parts of a typed source. *)
Record RepairSource := mkRepairSource {
  rsrc_document : LogicalDocument;
  rsrc_gate : EpochGate;
  rsrc_book : ReceiptBook;
  rsrc_opening : option Receipt;
  rsrc_adopting : bool;
  rsrc_binding : option RepairBinding
}.

Definition latest_repair (b : ReceiptBook) : option ReceiptRepair := rs_repair <$> bk_resolved_repair b.

Definition fault_evidence (b : ReceiptBook) : option (Receipt * Receipt) := bk_fault b.

(** * The persisted binding *)

Definition disposition_tag (d : RepairDisposition) : N :=
  match d with Transitioned => 1 | Retargeted => 2 | Screened => 3 end.

(** [RepairBinding::encode_prefix] *)
Definition encode_prefix (binding : option RepairBinding) (adopting : bool) (e : bytes) : bytes :=
  match binding with
  | None => e |> put_u8 (if adopting then 2 else 1)
  | Some binding =>
      e |> put_u8 3
        |> put_u8 (if adopting then 1 else 0)
        |> put_u8 (disposition_tag (rb_disposition binding))
        |> put_u8 1
        |> put_hash (rb_hash binding)
  end.

Definition get_disposition : dec ReplError RepairDisposition :=
  tag ← mal get_u8;
  if tag =? 1 then mret Transitioned
  else if tag =? 2 then mret Retargeted
  else if tag =? 3 then mret Screened
  else dec_lift (Err Malformed).

(** [RepairBinding::decode_prefix] *)
Definition decode_prefix : dec ReplError (bool * option RepairBinding) :=
  version ← mal get_u8;
  if version =? 1 then mret (false, None)
  else if version =? 2 then mret (true, None)
  else if version =? 3 then
    adopting ← get_flag;
    disposition ← get_disposition;
    one ← mal get_u8;
    _ ← dec_refuse (negb (one =? 1)) Malformed;
    hash ← get_fixed 32;
    mret (adopting, Some (mkRepairBinding disposition hash))
  else dec_lift (Err Malformed).

Section transition.
Context {C : Crypto}.

Definition same_issuer_tenure (s : ResolvedRepair) : bool :=
  bool_decide (rp_owner_public_key (rs_repair s) = r_owner_public_key (rs_selected s))
  && bool_decide (rp_issuer_tenure_start_group_epoch (rs_repair s)
                  = Some (r_tenure_start_group_epoch (rs_selected s))).

Definition covers_any (s : ResolvedRepair) (rs : list Receipt) : bool := existsb (covers s) rs.

Definition covers_latest (s : ResolvedRepair) (b : ReceiptBook) : bool :=
  covers_any s (option_list (bk_latest b)).

(** [RepairBinding::validate] *)
Definition binding_validate (bd : RepairBinding) (book : ReceiptBook) (gate : EpochGate)
    (opening : option Receipt) (adopting : bool) : result ReplError unit :=
  resolved ← ok_or (bk_resolved_repair book) Malformed;
  _ ← Resolved_verify resolved (Some (g_document gate)) (bk_repair_sequence book);
  _ ← refuse_if (bool_decide (rb_hash bd <> Repair_hash (rs_repair resolved))) Malformed;
  let same_tenure := same_issuer_tenure resolved in
  _ ← refuse_if (bool_decide (rb_disposition bd = Retargeted) && negb same_tenure) Malformed;
  _ ← (if same_tenure && negb (is_faulted book) then
         _ ← refuse_if (covers_latest resolved book) Malformed;
         _ ← refuse_if (bool_decide (rb_disposition bd = Screened)
                        && covers_any resolved
                             (option_list opening ++ option_list (bk_previous_until_installed book)))
               Malformed;
         refuse_if (bool_decide (rb_disposition bd = Retargeted) && negb adopting
                    && bool_decide (opening = None)) Malformed
       else Ok tt);
  if bool_decide (rb_disposition bd <> Screened) && negb (is_faulted book) then
    _ ← refuse_if (same_tenure && bool_decide (gi_phase (g_inner gate) = Open)
                   && bool_decide (opening = None)) Malformed;
    _ ← refuse_if (same_tenure && negb adopting && covers_any resolved (option_list opening)) Malformed;
    refuse_if (negb same_tenure && adopting
               && bool_decide (bk_latest book = Some (rs_selected resolved))) Malformed
  else Ok tt.

(** [RepairBinding::state] *)
Definition binding_state (bd : RepairBinding) (book : ReceiptBook) (phase : EpochPhase)
    (opening : option Receipt) (adopting : bool) : option SourceRepairState :=
  r ← bk_resolved_repair book;
  if bool_decide (rb_hash bd <> Repair_hash (rs_repair r))
     || negb (bk_repair_sequence book =? rp_repair_sequence (rs_repair r)) then None
  else
    let installed := bool_decide (opening = Some (rs_selected r))
                     && match phase with Open | Closing => true | _ => false end in
    Some (mkSourceRepairState (rs_repair r) (rs_selected r) (rs_losing r) installed
            (bool_decide (rb_disposition bd <> Screened) && adopting
             && bool_decide (phase = Closing)
             && bool_decide (bk_latest book = Some (rs_selected r)) && negb installed)
            (rb_disposition bd)).

Definition install_pending (bd : option RepairBinding) (book : ReceiptBook) (phase : EpochPhase)
    (opening : option Receipt) (adopting : bool) : bool :=
  match (b ← bd; binding_state b book phase opening adopting) with
  | Some state => srs_install_pending state
  | None => false
  end.

(** [RepairBinding::pending_admission] *)
Definition pending_admission (bd : RepairBinding) (book : ReceiptBook) (phase : EpochPhase)
    (opening : option Receipt) (adopting : bool) (receipt : Receipt)
    : option (result ReplError ReceiptIngest) :=
  state ← binding_state bd book phase opening adopting;
  if negb (srs_install_pending state) then None
  else Some (if is_repaired_loser book receipt then Ok IngestStale
             else if bool_decide (bk_latest book = Some receipt) then Ok IngestDuplicate
             else Err ReceiptConflict).

(** * Planning *)

Definition rsrc_book_bytes (s : RepairSource) : result ReplError bytes :=
  encode_mode (rsrc_book s) (rsrc_adopting s).

Definition set_head (receipt : option Receipt) (c : RepairCandidate) : RepairCandidate :=
  let b := rc_book c in
  mkRepairCandidate (rc_expected c)
    (mkReceiptBook (bk_document b) (selection_of <$> receipt) receipt None (bk_fault b)
       (bk_repair_sequence b) (bk_resolved_repair b))
    (rc_gate c) (rc_adopting c) (rc_binding c).

Definition set_gate (p : EpochPhase) (h : option bytes) (adopting : bool) (c : RepairCandidate)
    : RepairCandidate :=
  mkRepairCandidate (rc_expected c) (rc_book c) (set_phase p h (rc_gate c)) adopting (rc_binding c).

Definition set_disposition (d : RepairDisposition) (c : RepairCandidate) : RepairCandidate :=
  mkRepairCandidate (rc_expected c) (rc_book c) (rc_gate c) (rc_adopting c)
    (mkRepairBinding d (rb_hash (rc_binding c))).

Definition adopt (selected : Receipt) (c : RepairCandidate) : RepairCandidate :=
  set_gate Closing (Some (Receipt_hash selected)) true (set_head (Some selected) c).

(** The head of the book that may keep closing the epoch after the repair. *)
Definition qualified (s : RepairSource) (resolved : ResolvedRepair) : option Receipt :=
  match bk_latest (rsrc_book s) with
  | Some head =>
      if (r_closed_epoch head =? g_epoch (rsrc_gate s))
         && bool_decide (selection_of head = selection_of (rs_selected resolved))
         && negb (covers resolved head)
      then Some head else None
  | None => None
  end.

(** The candidate of a repair that names the source's own fault; [None] is the
    unsupported shape. *)
Definition plan_fault (s : RepairSource) (resolved : ResolvedRepair) (same_tenure : bool)
    (book : ReceiptBook) (c : RepairCandidate) : option RepairCandidate :=
  let selected := rs_selected resolved in
  let c := set_disposition Transitioned
             (mkRepairCandidate (rc_expected c) book (rc_gate c) (rc_adopting c) (rc_binding c)) in
  if negb same_tenure then
    Some (set_gate Open None false (set_head (rsrc_opening s) c))
  else if bool_decide (rsrc_opening s = Some selected) then
    let q := qualified s resolved in
    Some (set_gate (match q with Some _ => Closing | None => Open end) (Receipt_hash <$> q) false
            (set_head (match q with Some r => Some r | None => rsrc_opening s end) c))
  else if covers_any resolved (option_list (rsrc_opening s)) then Some (adopt selected c)
  else if r_closed_epoch selected =? g_epoch (rsrc_gate s) then
    Some (set_gate Closing (Some (Receipt_hash selected)) (rsrc_adopting s)
            (set_head (Some selected) c))
  else if rsrc_adopting s then Some (adopt selected c)
  else None.

(** The candidate of a repair of another pair. *)
Definition plan_other (s : RepairSource) (resolved : ResolvedRepair) (same_tenure : bool)
    (c : RepairCandidate) : RepairCandidate :=
  let b := rc_book c in
  let c := mkRepairCandidate (rc_expected c)
             (mkReceiptBook (Some (rsrc_document s)) (bk_tenure b) (bk_latest b)
                (bk_previous_until_installed b) (bk_fault b)
                (rp_repair_sequence (rs_repair resolved)) (Some resolved))
             (rc_gate c) (rc_adopting c) (rc_binding c) in
  let covered := covers_any resolved
    (option_list (bk_latest (rsrc_book s)) ++ option_list (rsrc_opening s)
     ++ option_list (bk_previous_until_installed (rsrc_book s))) in
  if negb (is_faulted (rsrc_book s)) && same_tenure && covered
  then adopt (rs_selected resolved) (set_disposition Retargeted c)
  else c.

(** An Open result of a repair that changed the source drops rejected work. *)
Definition clear_quarantine (c : RepairCandidate) : RepairCandidate :=
  if bool_decide (gi_phase (rc_gate c) = Open) && bool_decide (rb_disposition (rc_binding c) <> Screened)
  then mkRepairCandidate (rc_expected c) (rc_book c) (set_quarantine [] (rc_gate c)) (rc_adopting c)
         (rc_binding c)
  else c.

Definition plan_held (h : RepairHold) : result ReplError RepairPlan := Ok (PlanUnchanged (Held h)).

(** The persisted-state checks a candidate passes before it is offered. *)
Definition check_candidate (s : RepairSource) (c : RepairCandidate) : result ReplError RepairPlan :=
  let next_gate := with_inner (rsrc_gate s) (rc_gate c) in
  encoded ← encode_mode (rc_book c) (rc_adopting c);
  _ ← decode_mode encoded (rc_adopting c);
  match verify_restart_mode next_gate (om_values (gi_operations (rc_gate c))) (rc_book c)
          (rsrc_opening s) (rc_adopting c) with
  | Err _ => plan_held UnsupportedShape
  | Ok _ =>
      _ ← binding_validate (rc_binding c) (rc_book c) next_gate (rsrc_opening s) (rc_adopting c);
      Ok (PlanCandidate c)
  end.

(** [(selected, losing)] of the pair [a], [b]. *)
Definition resolve_pair (repair : ReceiptRepair) (a b : Receipt) : ResolvedRepair :=
  if bool_decide (Receipt_hash a = rp_selected_receipt_hash repair)
  then mkResolvedRepair repair a b else mkResolvedRepair repair b a.

Definition is_fault_pair (book : ReceiptBook) (a b : Receipt) : bool :=
  match bk_fault book with
  | Some (x, y) => (bool_decide (x = a) && bool_decide (y = b))
                   || (bool_decide (x = b) && bool_decide (y = a))
  | None => false
  end.

(** [RepairSource::plan] *)
Definition source_plan {G} `{OwnerAuthority G} (s : RepairSource) (repair : ReceiptRepair)
    (a b : Receipt) (group : G) (issuer_tenure : N) : result ReplError RepairPlan :=
  _ ← Repair_verify_current_owner repair group issuer_tenure;
  _ ← check_evidence repair a b;
  _ ← refuse_if (bool_decide (rp_document repair <> rsrc_document s)
                 || bool_decide (g_document (rsrc_gate s) <> rsrc_document s)) EpochScope;
  let inner := g_inner (rsrc_gate s) in
  if bool_decide (gi_phase inner = Settled) then plan_held HoldSettled
  else if bool_decide (latest_repair (rsrc_book s) = Some repair) then
    match rsrc_binding s with
    | None => plan_held UnsupportedShape
    | Some binding =>
        _ ← binding_validate binding (rsrc_book s) (rsrc_gate s) (rsrc_opening s) (rsrc_adopting s);
        Ok (PlanUnchanged (AlreadyResolved (rb_disposition binding)))
    end
  else if rp_repair_sequence repair
          <=? repair_sequence_for_issuer_tenure (rsrc_book s) issuer_tenure
  then plan_held SequenceNotNewer
  else if install_pending (rsrc_binding s) (rsrc_book s) (gi_phase inner) (rsrc_opening s)
            (rsrc_adopting s)
  then plan_held RepairInProgress
  else
    let resolved := resolve_pair repair a b in
    let same_tenure := match Receipt_verify_current_owner (rs_selected resolved) group issuer_tenure with
                       | Ok _ => true
                       | Err _ => false
                       end in
    _ ← refuse_if (negb (Bool.eqb (bool_decide (gi_phase inner = Fault)) (is_faulted (rsrc_book s))))
          Malformed;
    bytes ← rsrc_book_bytes s;
    let expected := mkRepairStateStamp inner bytes (rsrc_adopting s) (rsrc_binding s) (rsrc_opening s) in
    let c := mkRepairCandidate expected (rsrc_book s) inner (rsrc_adopting s)
               (mkRepairBinding Screened (Repair_hash repair)) in
    if is_fault_pair (rsrc_book s) a b then
      applied ← apply_repair (rsrc_book s) repair group issuer_tenure;
      match plan_fault s resolved same_tenure applied.2 c with
      | None => plan_held UnsupportedShape
      | Some c => check_candidate s (clear_quarantine c)
      end
    else check_candidate s (clear_quarantine (plan_other s resolved same_tenure c)).

(** * Committing *)

(** [RepairSource::commit] *)
Definition source_commit (s : RepairSource) (c : RepairCandidate)
    : result ReplError (SourceRepairOutcome * RepairSource) :=
  bytes ← rsrc_book_bytes s;
  let expected := rc_expected c in
  _ ← refuse_if (bool_decide (bytes <> rss_book expected)
                 || negb (Bool.eqb (rsrc_adopting s) (rss_adopting expected))
                 || bool_decide (rsrc_binding s <> rss_binding expected)
                 || bool_decide (rsrc_opening s <> rss_opening expected)) ReceiptConflict;
  let disposition := rb_disposition (rc_binding c) in
  next ← commit_repair (g_inner (rsrc_gate s)) (rss_gate expected) (rc_gate c) disposition;
  Ok (Applied disposition,
      mkRepairSource (rsrc_document s) (with_inner (rsrc_gate s) next) (rc_book c) (rsrc_opening s)
        (rc_adopting c) (Some (rc_binding c))).

(** [RepairSource::apply] *)
Definition source_apply {G} `{OwnerAuthority G} (s : RepairSource) (repair : ReceiptRepair)
    (a b : Receipt) (group : G) (issuer_tenure : N)
    : result ReplError (SourceRepairOutcome * RepairSource) :=
  p ← source_plan s repair a b group issuer_tenure;
  match p with
  | PlanUnchanged outcome => Ok (outcome, s)
  | PlanCandidate c => source_commit s c
  end.
End transition.

(** * Lemmas *)

Section lemmas.
Context {C : Crypto}.

(** A change of phase, with the quarantine dropped when it reopens, always commits. *)
Lemma commit_repair_accepts inner p h c :
  gi_phase inner <> Settled -> rc_gate c = set_phase p h inner -> commit_shape p h = true ->
  rb_disposition (rc_binding c) <> Screened ->
  commit_repair inner inner (rc_gate (clear_quarantine c)) (rb_disposition (rc_binding (clear_quarantine c)))
  = Ok (rc_gate (clear_quarantine c)).
Proof.
  intros Hs Hg Hc Hd. unfold clear_quarantine. rewrite Hg. cbn [gi_phase set_phase].
  rewrite (bool_decide_eq_true_2 _ Hd), andb_true_r.
  unfold commit_repair. rewrite refuse_if_bind_false.
  2:{ rewrite !bool_decide_eq_false_2; [done|done|by intros []]. }
  destruct p, h as [h|]; try done;
    [rewrite (bool_decide_eq_true_2 (Open = Open)) by done
    |rewrite (bool_decide_eq_false_2 (Closing = Open)) by done; rewrite Hg];
    cbn [rc_gate rc_binding]; rewrite (bool_decide_eq_false_2 (_ = Screened)) by done; cbn;
    by rewrite bool_decide_eq_false_2 by (intros E; apply E; by destruct inner).
Qed.

Lemma clear_quarantine_frame c :
  rc_expected (clear_quarantine c) = rc_expected c /\ rc_book (clear_quarantine c) = rc_book c /\
  rc_adopting (clear_quarantine c) = rc_adopting c /\ rc_binding (clear_quarantine c) = rc_binding c.
Proof. unfold clear_quarantine. by destruct (_ && _). Qed.

(** Applying the repair of the source's own fault records the planned resolution. *)
Lemma fault_resolution {G} `{OwnerAuthority G} bk repair a b (group : G) start applied :
  latest_repair bk <> Some repair -> is_fault_pair bk a b = true -> check_evidence repair a b = Ok tt ->
  apply_repair bk repair group start = Ok applied ->
  bk_resolved_repair applied.2 = Some (resolve_pair repair a b) /\
  bk_fault applied.2 = None /\ bk_document applied.2 = bk_document bk.
Proof.
  intros Hl Hf He Ha. destruct applied as [[o losing] bk']. unfold apply_repair in Ha.
  apply bind_ok in Ha as (u & _ & Ha).
  assert (Hres : resolve_fault bk repair start = Ok (o, losing, bk')).
  { unfold latest_repair in Hl. destruct (bk_resolved_repair bk) as [s|]; [|done].
    rewrite bool_decide_eq_false_2 in Ha by (intros E; apply Hl; cbn; by rewrite E). done. }
  destruct (resolve_fault_shape _ _ _ _ _ _ Hres) as (x & y & sel & Hxy & Hsl & _ & Hsel & _ & _ & _ & ->).
  cbn. split; [|done]. f_equal. unfold is_fault_pair in Hf. rewrite Hxy in Hf. unfold resolve_pair.
  apply check_evidence_ok in He as ((_ & _ & _ & _ & _ & _ & (_ & _ & Hne & _)%receipts_conflict_true)%conflicting_receipt_pair_ok & _).
  assert (Hab : (sel, losing) = (a, b) \/ (sel, losing) = (b, a)).
  { apply orb_true_iff in Hf as [Hf|Hf]; bool_simpl; subst; tauto. }
  clear Hf. destruct Hab as [[= -> ->]|[= -> ->]]; case_bool_decide; done || congruence.
Qed.

(** What a planned candidate satisfies. *)
Record planned (s : RepairSource) (repair : ReceiptRepair) (a b : Receipt) (tenure : N)
    (c : RepairCandidate) : Prop := mkPlanned {
  pl_scope : rp_document repair = rsrc_document s /\ g_document (rsrc_gate s) = rsrc_document s;
  pl_newer : repair_sequence_for_issuer_tenure (rsrc_book s) tenure < rp_repair_sequence repair;
  pl_expected : exists bs, rsrc_book_bytes s = Ok bs /\ rc_expected c =
    mkRepairStateStamp (g_inner (rsrc_gate s)) bs (rsrc_adopting s) (rsrc_binding s) (rsrc_opening s);
  pl_hash : rb_hash (rc_binding c) = Repair_hash repair;
  pl_resolved : bk_resolved_repair (rc_book c) = Some (resolve_pair repair a b);
  pl_commit : commit_repair (g_inner (rsrc_gate s)) (g_inner (rsrc_gate s)) (rc_gate c)
                (rb_disposition (rc_binding c)) = Ok (rc_gate c);
  pl_decodes : exists bs b', encode_mode (rc_book c) (rc_adopting c) = Ok bs /\
    decode_mode bs (rc_adopting c) = Ok b';
  pl_restart : verify_restart_mode (with_inner (rsrc_gate s) (rc_gate c))
    (om_values (gi_operations (rc_gate c))) (rc_book c) (rsrc_opening s) (rc_adopting c) = Ok tt;
  pl_binding : binding_validate (rc_binding c) (rc_book c) (with_inner (rsrc_gate s) (rc_gate c))
    (rsrc_opening s) (rc_adopting c) = Ok tt
}.

Lemma check_candidate_ok s c0 c :
  check_candidate s c0 = Ok (PlanCandidate c) ->
  c0 = c /\ (exists bs b', encode_mode (rc_book c) (rc_adopting c) = Ok bs /\
    decode_mode bs (rc_adopting c) = Ok b') /\
  verify_restart_mode (with_inner (rsrc_gate s) (rc_gate c))
    (om_values (gi_operations (rc_gate c))) (rc_book c) (rsrc_opening s) (rc_adopting c) = Ok tt /\
  binding_validate (rc_binding c) (rc_book c) (with_inner (rsrc_gate s) (rc_gate c))
    (rsrc_opening s) (rc_adopting c) = Ok tt.
Proof.
  unfold check_candidate. intros H. apply bind_ok in H as (bs & He & H). apply bind_ok in H as (b' & Hd & H).
  destruct (verify_restart_mode _ _ _ _ _) as [[]|] eqn:Hv; [|done].
  apply bind_ok in H as ([] & Hb & H). injection H as ->. split_and!; try done. by exists bs, b'.
Qed.

(** The candidate of a fault keeps the stamp, the hash and the resolution, and changes only the phase. *)
Lemma plan_fault_frame s resolved st book c0 c :
  plan_fault s resolved st book c0 = Some c ->
  rc_expected c = rc_expected c0 /\ rb_hash (rc_binding c) = rb_hash (rc_binding c0) /\
  rb_disposition (rc_binding c) = Transitioned /\
  bk_resolved_repair (rc_book c) = bk_resolved_repair book /\
  exists p h, rc_gate c = set_phase p h (rc_gate c0) /\ commit_shape p h = true.
Proof.
  unfold plan_fault. cbv zeta. intros H.
  destruct (negb st); [|case_bool_decide; [|destruct (covers_any _ _); [|destruct (_ =? _); [|destruct (rsrc_adopting s)]]]];
    try done; injection H as <-; split_and!; try done; eexists _, _; split; try reflexivity.
  by destruct (qualified s resolved).
Qed.

Lemma plan_other_frame s resolved st c0 c :
  plan_other s resolved st c0 = c ->
  rc_expected c = rc_expected c0 /\ rb_hash (rc_binding c) = rb_hash (rc_binding c0) /\
  bk_resolved_repair (rc_book c) = Some resolved /\
  ((rc_gate c = rc_gate c0 /\ rc_binding c = rc_binding c0) \/
   (rb_disposition (rc_binding c) = Retargeted /\
    exists p h, rc_gate c = set_phase p h (rc_gate c0) /\ commit_shape p h = true)).
Proof.
  unfold plan_other. cbv zeta. intros <-. destruct (_ && _ && _); split_and!; try done; [|by left].
  right. split; [done|]. eexists _, _. split; reflexivity.
Qed.

Lemma source_plan_candidate {G} `{OwnerAuthority G} s repair a b (group : G) tenure c :
  source_plan s repair a b group tenure = Ok (PlanCandidate c) -> planned s repair a b tenure c.
Proof.
  unfold source_plan. intros H0. apply bind_ok in H0 as ([] & Hv & H0).
  apply bind_ok in H0 as ([] & He & H0). apply refuse_if_bind_ok in H0 as [Hsc H0]. cbv zeta in H0.
  case_bool_decide as Hset; [done|]. case_bool_decide as Hl.
  { destruct (rsrc_binding s); [|done]. by apply bind_ok in H0 as ([] & _ & H0). }
  destruct (N.leb_spec (rp_repair_sequence repair) (repair_sequence_for_issuer_tenure (rsrc_book s) tenure)); [done|].
  destruct (install_pending _ _ _ _ _); [done|].
  apply refuse_if_bind_ok in H0 as [Hph H0]. apply bind_ok in H0 as (bs & Hbs & H0).
  assert (Hscope : rp_document repair = rsrc_document s /\ g_document (rsrc_gate s) = rsrc_document s)
    by (by bool_simpl).
  set (c0 := mkRepairCandidate _ _ _ _ _) in H0.
  destruct (is_fault_pair _ _ _) eqn:Hf.
  - apply bind_ok in H0 as (applied & Ha & H0). destruct (plan_fault _ _ _ _ _) as [c1|] eqn:Hp; [|done].
    destruct (plan_fault_frame _ _ _ _ _ _ Hp) as (E1 & E2 & E3 & E4 & p & h & Eg & Esh).
    destruct (clear_quarantine_frame c1) as (Q1 & Q2 & Q3 & Q4).
    apply check_candidate_ok in H0 as (Ec & Hd & Hr & Hb). rewrite <- Ec in *. rewrite Q2, Q3, Q4 in *.
    constructor; rewrite ?Q1, ?Q2, ?Q3, ?Q4; try done; try congruence.
    + exists bs. by rewrite E1.
    + rewrite E4. exact (proj1 (fault_resolution _ _ _ _ _ _ _ Hl Hf He Ha)).
    + rewrite <- Q4. apply (commit_repair_accepts _ p h); [exact Hset|exact Eg|exact Esh|by rewrite E3].
  - match type of H0 with check_candidate _ (clear_quarantine ?x) = _ => remember x as c1 eqn:Hp end.
    symmetry in Hp. destruct (plan_other_frame _ _ _ _ _ Hp) as (E1 & E2 & E3 & E4).
    destruct (clear_quarantine_frame c1) as (Q1 & Q2 & Q3 & Q4).
    apply check_candidate_ok in H0 as (Ec & Hd & Hr & Hb). rewrite <- Ec in *. rewrite Q2, Q3, Q4 in *.
    constructor; rewrite ?Q1, ?Q2, ?Q3, ?Q4; try done; try congruence.
    + exists bs. by rewrite E1.
    + destruct E4 as [[Eg Eb]|(Ed & p & h & Eg & Esh)]; cycle 1.
      { rewrite <- Q4. apply (commit_repair_accepts _ p h); [exact Hset|exact Eg|exact Esh|by rewrite Ed]. }
      unfold clear_quarantine. rewrite Eb, Eg. cbn [c0 rc_binding rc_gate rb_disposition].
      rewrite (bool_decide_eq_false_2 (Screened <> Screened)) by (by intros []). rewrite andb_false_r, Eg.
      cbn [c0 rc_gate]. unfold commit_repair. rewrite refuse_if_bind_false.
      2:{ rewrite !bool_decide_eq_false_2; [done|done|by intros []]. }
      rewrite bool_decide_eq_true_2 by done. by rewrite bool_decide_eq_false_2 by (by intros []).
Qed.
End lemmas.

(** * The book in either persisted mode *)

Section modes.
Context {C : Crypto}.

Definition book_bytes_mode (adoption : bool) (b : ReceiptBook) : bytes :=
  be_bytes 1 (book_version b adoption) ++ opt_bytes tenure_bytes (bk_tenure b) ++
  opt_bytes receipt_bytes (bk_latest b) ++ opt_bytes receipt_bytes (bk_previous_until_installed b) ++
  opt_bytes fault_bytes (bk_fault b) ++ be_bytes 8 (bk_repair_sequence b) ++
  match bk_resolved_repair b with Some s => resolved_bytes s | None => [] end.

(** The document a decoder derives from the roles. *)
Definition derived_document (b : ReceiptBook) : option LogicalDocument :=
  match bk_latest b with
  | Some r => Some (r_document r)
  | None => (fun s => rp_document (rs_repair s)) <$> bk_resolved_repair b
  end.

(** Every field as a decoder delivers it. *)
Record book_typed (b : ReceiptBook) : Prop := mkBookTyped {
  bt_document : bk_document b = derived_document b;
  bt_tenure : bk_tenure b = selection_of <$> bk_latest b;
  bt_latest : opt_ok receipt_canonical (bk_latest b);
  bt_previous : opt_ok receipt_canonical (bk_previous_until_installed b);
  bt_fault : opt_ok fault_receipts_ok (bk_fault b);
  bt_fault_head : is_faulted b = true -> bk_latest b <> None;
  bt_sequence : bk_repair_sequence b <= u64_max;
  bt_resolved : opt_ok resolved_fields_ok (bk_resolved_repair b)
}.

Lemma book_ok_typed b : book_ok b -> book_typed b.
Proof.
  intros Hb. constructor; try apply Hb.
  - unfold is_faulted. pose proof (bo_fault b Hb) as Hf. destruct (bk_fault b) as [[x y]|]; [|done].
    intros _ El. destruct Hf as [Hf _].
    destruct (fault_consistent_true _ _ _ _ Hf) as (_ & _ & _ & _ & r & ? & _). congruence.
  - pose proof (bo_resolved b Hb) as Hs. destruct (bk_resolved_repair b) as [s|]; [|done].
    by destruct Hs as (? & ? & ? & _).
Qed.

Lemma encode_mode_bytes m b bs : encode_mode b m = Ok bs -> bs = book_bytes_mode m b.
Proof.
  unfold encode_mode. cbv zeta. intros H.
  match type of H with (if _ <? len ?x then _ else _) = _ => assert (Hx : x = book_bytes_mode m b) end.
  { unfold book_bytes_mode, put_u8, put_u64. rewrite put_fault_eq, !put_receipt_eq, put_tenure_eq.
    destruct (bk_resolved_repair b); rewrite ?Resolved_encode_eq, ?app_nil_r; by rewrite <- !app_assoc. }
  rewrite Hx in H. by destruct (_ <? _); simplify_eq.
Qed.

Lemma book_version_mode m b :
  book_version b m <= 5 /\
  (if m then (book_version b m = 3 \/ book_version b m = 5)
   else (book_version b m = 1 \/ book_version b m = 2 \/ book_version b m = 4)) /\
  (book_version b m = 4 \/ book_version b m = 5 <-> exists s, bk_resolved_repair b = Some s).
Proof.
  unfold book_version. destruct (bk_resolved_repair b), m, (historical_fault (bk_fault b) (bk_latest b));
    cbn; (split_and!; [lia|lia|]); (split; [eauto || lia|intros [? ?]; (done || lia)]).
Qed.

Lemma reads_book_mode m b :
  book_typed b -> reads (book_read m) (book_bytes_mode m b) (book_version b m, b).
Proof.
  intros []. unfold book_read, book_bytes_mode.
  destruct (book_version_mode m b) as (Hle & Hm & Hv).
  assert (Hres : reads (read_resolved (book_version b m))
    match bk_resolved_repair b with Some s => resolved_bytes s | None => [] end (bk_resolved_repair b)).
  { unfold read_resolved. destruct (bk_resolved_repair b) as [s|].
    - assert ((book_version b m =? 4) || (book_version b m =? 5) = true) as ->.
      { rewrite orb_true_iff, !N.eqb_eq. apply Hv. eauto. }
      eapply reads_bind_last; [|apply reads_ret]. by apply reads_resolved.
    - assert ((book_version b m =? 4) || (book_version b m =? 5) = false) as ->; [|apply reads_ret].
      apply not_true_iff_false. rewrite orb_true_iff, !N.eqb_eq. intros [? ?]%Hv. done. }
  replace (book_version b m, b) with (book_version b m,
    mkReceiptBook (derived_document b) (bk_tenure b) (bk_latest b) (bk_previous_until_installed b)
      (bk_fault b) (bk_repair_sequence b) (bk_resolved_repair b)) by (rewrite <- bt_document0; by destruct b).
  assert (Ht : opt_ok tenure_ok (bk_tenure b)).
  { rewrite bt_tenure0. destruct (bk_latest b); [|done]. by apply selection_tenure_ok. }
  reads_go; try done.
  - apply reads_mal, reads_u8. unfold u8_max. lia.
  - destruct m; apply not_true_iff_false; rewrite !andb_true_iff, !negb_true_iff, !N.eqb_neq; lia.
  - by apply reads_tenure.
  - apply reads_option. destruct (bk_latest b); [|done]. by apply reads_receipt_field.
  - apply reads_option. destruct (bk_previous_until_installed b); [|done]. by apply reads_receipt_field.
  - by apply reads_fault.
  - by apply reads_mal, reads_u64.
Qed.

(** A typed book whose bytes decode at all decodes to itself. *)
Lemma decode_mode_self m b bs b' :
  book_typed b -> encode_mode b m = Ok bs -> decode_mode bs m = Ok b' -> b' = b.
Proof.
  intros Hb ->%encode_mode_bytes H. unfold decode_mode in H. apply refuse_if_bind_ok in H as [_ H].
  rewrite (run_exact_reads _ _ _ (reads_book_mode m b Hb)), bind_Ok in H.
  do 6 (apply refuse_if_bind_ok in H as [_ H]). apply bind_ok in H as (u & _ & H). by injection H.
Qed.
End modes.

(** * Sources *)

(** The parts of a source as its decoders deliver them. *)
Definition source_ok {C : Crypto} (s : RepairSource) : Prop :=
  book_typed (rsrc_book s) /\ opt_ok receipt_canonical (rsrc_opening s).

Section sources.
Context {C : Crypto}.

Lemma restart_latest_scope g ops b opening m :
  verify_restart_mode g ops b opening m = Ok tt ->
  opt_ok (fun r => r_document r = g_document g) (bk_latest b) /\
  opt_ok (fun d => d = g_document g) (bk_document b).
Proof.
  unfold verify_restart_mode. intros H. apply bind_ok in H as ([] & Hu & H). split.
  - destruct (bk_latest b) as [r|] eqn:El; [|done]. destruct m.
    + unfold verify_adoption_state in H. rewrite El in H. cbn [ok_or] in H. rewrite bind_Ok in H.
      apply bind_ok in H as ([] & H & _). unfold held_receipts in H. rewrite El in H. cbn in H.
      res_inv. by bool_simpl.
    + apply refuse_if_bind_ok in H as [_ H]. apply bind_ok in H as ([] & H & _).
      unfold held_receipts in H. rewrite El in H. cbn in H. res_inv. by bool_simpl.
  - unfold check_unit in Hu. cbv zeta in Hu. apply refuse_if_bind_ok in Hu as [Hu _].
    destruct (bk_document b); [|done]. bool_simpl. done.
Qed.

Lemma check_evidence_swap repair a b : check_evidence repair a b = Ok tt -> check_evidence repair b a = Ok tt.
Proof.
  intros ((Ha & Hb & Va & Vb & Da & Db & Hc)%conflicting_receipt_pair_ok & Ht & Hh & Hp & Hv & Hs)%check_evidence_ok.
  pose proof Hc as (_ & Et & _)%receipts_conflict_true.
  apply check_evidence_ok. rewrite conflicting_receipt_pair_ok, receipts_conflict_sym, sort_pair_hashes.
  split_and!; try done. congruence.
Qed.

Lemma resolve_pair_typed repair a b :
  repair_ok repair -> check_evidence repair a b = Ok tt ->
  resolved_fields_ok (resolve_pair repair a b) /\ rs_repair (resolve_pair repair a b) = repair /\
  check_evidence repair (rs_selected (resolve_pair repair a b)) (rs_losing (resolve_pair repair a b)) = Ok tt.
Proof.
  intros Hr He. pose proof He as ((Ha & Hb & _)%conflicting_receipt_pair_ok & _)%check_evidence_ok.
  unfold resolve_pair. case_bool_decide; cbn; split_and!; try done. by apply check_evidence_swap.
Qed.

(** The roles a candidate holds are the source's, the opening or the selected receipt. *)
Definition candidate_typed (s : RepairSource) (c : RepairCandidate) : Prop :=
  bk_tenure (rc_book c) = selection_of <$> bk_latest (rc_book c) /\
  opt_ok receipt_canonical (bk_latest (rc_book c)) /\
  opt_ok receipt_canonical (bk_previous_until_installed (rc_book c)) /\
  opt_ok fault_receipts_ok (bk_fault (rc_book c)) /\
  (is_faulted (rc_book c) = true -> bk_latest (rc_book c) <> None) /\
  bk_document (rc_book c) <> None.

Lemma plan_fault_typed s resolved st book c0 c :
  source_ok s -> receipt_canonical (rs_selected resolved) -> bk_fault book = None ->
  bk_document book <> None -> plan_fault s resolved st book c0 = Some c -> candidate_typed s c.
Proof.
  intros [Hb Ho] Hs Hf Hd H. unfold plan_fault in H. cbv zeta in H.
  assert (Hset : forall r, opt_ok receipt_canonical r ->
    candidate_typed s (set_head r (mkRepairCandidate (rc_expected c0) book (rc_gate c0) (rc_adopting c0)
      (mkRepairBinding Transitioned (rb_hash (rc_binding c0)))))).
  { intros r Hr. unfold candidate_typed, is_faulted; cbn. rewrite Hf. by split_and!. }
  assert (Hq : opt_ok receipt_canonical match qualified s resolved with Some r => Some r | None => rsrc_opening s end).
  { unfold qualified. pose proof (bt_latest _ Hb). destruct (bk_latest (rsrc_book s)); [|done].
    by destruct (_ && _ && _). }
  destruct (negb st); [|case_bool_decide; [|destruct (covers_any _ _); [|destruct (_ =? _); [|destruct (rsrc_adopting s)]]]];
    try done; injection H as <-; by apply Hset.
Qed.

Lemma plan_other_typed s resolved st c0 :
  source_ok s -> receipt_canonical (rs_selected resolved) -> rc_book c0 = rsrc_book s ->
  candidate_typed s (plan_other s resolved st c0).
Proof.
  intros [[] Ho] Hs Hc. unfold plan_other, candidate_typed. cbv zeta. rewrite Hc.
  destruct (_ && _ && _) eqn:E; cbn; [|by split_and!]. unfold is_faulted in *; cbn. split_and!; try done.
Qed.

Lemma plan_typed {G} `{OwnerAuthority G} s repair a b (group : G) tenure c :
  source_ok s -> repair_ok repair -> source_plan s repair a b group tenure = Ok (PlanCandidate c) ->
  book_typed (rc_book c).
Proof.
  intros Hs Hr Hp. pose proof (source_plan_candidate _ _ _ _ _ _ _ Hp) as [[Hd1 Hd2] _ _ _ Hres _ _ Hv Hb].
  unfold source_plan in Hp. apply bind_ok in Hp as ([] & Hver & Hp).
  apply bind_ok in Hp as ([] & He & Hp). apply refuse_if_bind_ok in Hp as [_ Hp]. cbv zeta in Hp.
  destruct (resolve_pair_typed _ _ _ Hr He) as (Hrt & Hrr & _).
  case_bool_decide; [done|]. case_bool_decide as Hlr.
  { destruct (rsrc_binding s); [|done]. by apply bind_ok in Hp as ([] & _ & Hp). }
  destruct (_ <=? _); [done|]. destruct (install_pending _ _ _ _ _); [done|].
  apply refuse_if_bind_ok in Hp as [_ Hp]. apply bind_ok in Hp as (bs & _ & Hp).
  assert (Hty : candidate_typed s c).
  { destruct (is_fault_pair _ _ _) eqn:Hf.
    - apply bind_ok in Hp as ([[o l] book] & Ha & Hp). destruct (plan_fault _ _ _ _ _) as [c1|] eqn:Hpf; [|done].
      destruct (fault_resolution _ _ _ _ _ _ _ Hlr Hf He Ha) as (_ & Hnf & Hdoc).
      apply check_candidate_ok in Hp as (<- & _). destruct (clear_quarantine_frame c1) as (_ & Q & _).
      unfold candidate_typed. rewrite Q. eapply plan_fault_typed; try done; [by apply Hrt|].
      rewrite Hdoc, (bt_document _ (proj1 Hs)). unfold derived_document.
      assert (Hl : bk_latest (rsrc_book s) <> None); [|by destruct (bk_latest (rsrc_book s))].
      apply (bt_fault_head _ (proj1 Hs)). unfold is_fault_pair in Hf. unfold is_faulted.
      by destruct (bk_fault (rsrc_book s)).
    - apply check_candidate_ok in Hp as (<- & _).
      match goal with |- candidate_typed _ (clear_quarantine ?x) => destruct (clear_quarantine_frame x) as (_ & Q & _) end.
      unfold candidate_typed. rewrite Q. by apply plan_other_typed; [|apply Hrt|]. }
  destruct Hty as (T1 & T2 & T3 & T4 & T5 & T6). destruct (restart_latest_scope _ _ _ _ _ Hv) as [Hl Hdoc].
  cbn in Hl, Hdoc. constructor; try done.
  - unfold derived_document. destruct (bk_document (rc_book c)); [|done]. cbn in Hdoc. subst.
    destruct (bk_latest (rc_book c)); cbn in *; [congruence|]. rewrite Hres. cbn. congruence.
  - unfold binding_validate in Hb. rewrite Hres in Hb. cbn [ok_or] in Hb. rewrite bind_Ok in Hb.
    apply bind_ok in Hb as ([] & Hb & _). unfold Resolved_verify in Hb. res_inv. bool_simpl.
    rewrite Hrr in *. destruct Hr. congruence.
  - by rewrite Hres.
Qed.
End sources.

(** * Plans and commits *)

Section commits.
Context {C : Crypto}.

(** A plan that changes nothing never claims an application. *)
Lemma source_plan_unchanged {G} `{OwnerAuthority G} s repair a b (group : G) tenure d :
  source_plan s repair a b group tenure <> Ok (PlanUnchanged (Applied d)).
Proof.
  intros Hp. unfold source_plan in Hp. apply bind_ok in Hp as ([] & _ & Hp).
  apply bind_ok in Hp as ([] & _ & Hp). apply refuse_if_bind_ok in Hp as [_ Hp]. cbv zeta in Hp.
  assert (Hcheck : forall c, check_candidate s c <> Ok (PlanUnchanged (Applied d))).
  { intros c Hc. unfold check_candidate in Hc. cbv zeta in Hc. apply bind_ok in Hc as (? & _ & Hc).
    apply bind_ok in Hc as (? & _ & Hc). destruct (verify_restart_mode _ _ _ _ _); [|done].
    by apply bind_ok in Hc as (? & _ & Hc). }
  case_bool_decide; [done|]. case_bool_decide.
  { destruct (rsrc_binding s); [|done]. by apply bind_ok in Hp as ([] & _ & Hp). }
  destruct (_ <=? _); [done|]. destruct (install_pending _ _ _ _ _); [done|].
  apply refuse_if_bind_ok in Hp as [_ Hp]. apply bind_ok in Hp as (bs & _ & Hp).
  destruct (is_fault_pair _ _ _); [|by eapply Hcheck].
  apply bind_ok in Hp as (x & _ & Hp). destruct (plan_fault _ _ _ _ _); [by eapply Hcheck|done].
Qed.

(** The source a candidate becomes. *)
Definition committed (s : RepairSource) (c : RepairCandidate) : RepairSource :=
  mkRepairSource (rsrc_document s) (with_inner (rsrc_gate s) (rc_gate c)) (rc_book c)
    (rsrc_opening s) (rc_adopting c) (Some (rc_binding c)).

(** Everything a commit compares. *)
Definition same_state (s t : RepairSource) : Prop :=
  rsrc_book_bytes t = rsrc_book_bytes s /\ g_inner (rsrc_gate t) = g_inner (rsrc_gate s) /\
  rsrc_adopting t = rsrc_adopting s /\ rsrc_binding t = rsrc_binding s /\ rsrc_opening t = rsrc_opening s.

Lemma plan_commits s repair a b tenure c t :
  planned s repair a b tenure c -> same_state s t ->
  source_commit t c = Ok (Applied (rb_disposition (rc_binding c)), committed t c).
Proof.
  intros [_ _ (bs & Hbs & He) _ _ Hc _ _ _] (E1 & E2 & E3 & E4 & E5). unfold source_commit.
  rewrite E1, Hbs, bind_Ok, He. cbn [rss_gate rss_book rss_adopting rss_binding rss_opening].
  rewrite E2, E3, E4, E5, eqb_reflx, !bool_decide_eq_false_2 by (by intros []).
  cbv zeta. rewrite refuse_if_bind_false, Hc, bind_Ok by done. unfold committed. by rewrite E5.
Qed.

Lemma commit_matches s repair a b tenure c t r :
  planned s repair a b tenure c -> source_commit t c = Ok r -> same_state s t.
Proof.
  intros [_ _ (bs & Hbs & He) _ _ _ _ _ _] H. unfold source_commit in H.
  apply bind_ok in H as (bt & Hbt & H). rewrite He in H. cbv zeta in H.
  cbn [rss_gate rss_book rss_adopting rss_binding rss_opening] in H.
  apply refuse_if_bind_ok in H as [Hg H]. apply bind_ok in H as (next & Hn & _).
  apply commit_repair_ok in Hn as (Hi & _). bool_simpl. apply eqb_prop in H2. subst.
  unfold same_state. by rewrite Hbt, Hbs.
Qed.

(** The only refusal of a commit whose book encodes is the conflict. *)
Lemma commit_refuses t c e bs :
  rsrc_book_bytes t = Ok bs -> source_commit t c = Err e -> e = ReceiptConflict.
Proof.
  intros Hb. unfold source_commit, commit_repair, refuse_if. rewrite Hb, bind_Ok. cbv zeta. intros H.
  repeat (match type of H with context [if ?c then _ else _] => destruct c end; cbn in H; try congruence).
Qed.

Lemma source_apply_applied {G} `{OwnerAuthority G} s repair a b (group : G) tenure d s' :
  source_apply s repair a b group tenure = Ok (Applied d, s') ->
  exists c, source_plan s repair a b group tenure = Ok (PlanCandidate c) /\
    planned s repair a b tenure c /\ rb_disposition (rc_binding c) = d /\ s' = committed s c.
Proof.
  unfold source_apply. intros H0. apply bind_ok in H0 as ([c|o] & Hp & H0).
  - pose proof (source_plan_candidate _ _ _ _ _ _ _ Hp) as Hc. exists c.
    rewrite (plan_commits _ _ _ _ _ _ s Hc) in H0 by done. by injection H0 as <- <-.
  - injection H0 as -> <-. by apply source_plan_unchanged in Hp.
Qed.

(** The entry checks of a plan. *)
Lemma source_plan_checks {G} `{OwnerAuthority G} s repair a b (group : G) tenure p :
  source_plan s repair a b group tenure = Ok p ->
  Repair_verify_current_owner repair group tenure = Ok tt /\ check_evidence repair a b = Ok tt /\
  rp_document repair = rsrc_document s /\ g_document (rsrc_gate s) = rsrc_document s.
Proof.
  intros Hp. unfold source_plan in Hp. apply bind_ok in Hp as ([] & ? & Hp).
  apply bind_ok in Hp as ([] & ? & Hp). apply refuse_if_bind_ok in Hp as [? _]. by bool_simpl.
Qed.

Lemma resolve_pair_repair repair a b : rs_repair (resolve_pair repair a b) = repair.
Proof. unfold resolve_pair. by case_bool_decide. Qed.

(** The sequence a committed candidate records. *)
Lemma planned_sequence {G} `{OwnerAuthority G} s repair a b (group : G) tenure c :
  Repair_verify_current_owner repair group tenure = Ok tt -> planned s repair a b tenure c ->
  latest_repair (rc_book c) = Some repair /\
  repair_sequence_for_issuer_tenure (rc_book c) tenure = rp_repair_sequence repair.
Proof.
  intros (_ & Hi & _)%Repair_verify_current_owner_ok Hc. pose proof (pl_resolved _ _ _ _ _ _ Hc) as Hr.
  unfold latest_repair, repair_sequence_for_issuer_tenure. rewrite Hr. cbn.
  rewrite resolve_pair_repair. by rewrite bool_decide_eq_true_2.
Qed.

Lemma replan_resolved {G} `{OwnerAuthority G} s repair a b (group : G) tenure c :
  Repair_verify_current_owner repair group tenure = Ok tt -> check_evidence repair a b = Ok tt ->
  planned s repair a b tenure c ->
  source_plan (committed s c) repair a b group tenure
  = Ok (PlanUnchanged (AlreadyResolved (rb_disposition (rc_binding c)))).
Proof.
  intros Hv He Hc. destruct (planned_sequence _ _ _ _ _ _ _ Hv Hc) as [Hl _].
  destruct Hc as [[H1 H2] _ _ _ _ Hcm _ _ Hb]. apply commit_repair_ok in Hcm as (_ & _ & _ & _ & Hns & _).
  unfold source_plan. rewrite Hv, bind_Ok, He, bind_Ok. cbn [committed rsrc_document rsrc_gate rsrc_book
    rsrc_opening rsrc_adopting rsrc_binding with_inner g_document g_inner].
  rewrite refuse_if_bind_false by (rewrite !bool_decide_eq_false_2 by (by intros []); done).
  cbv zeta. rewrite (bool_decide_eq_false_2 _ Hns), (bool_decide_eq_true_2 _ Hl).
  by rewrite Hb, bind_Ok.
Qed.
End commits.

(** * Properties *)

(** A repair is applied at most once and never out of order. When a source
    applies a repair, its book records exactly that repair with a strictly
    higher sequence in its issuer's tenure; applying it again, by any retry,
    answers that it is already resolved with the original disposition and
    changes nothing; and every other valid repair of that tenure whose sequence
    is not higher is held without changing the source. *)
Theorem repair_applies_once {C : Crypto} {G} `{OwnerAuthority G} s repair a b (group : G) tenure d s' :
  source_apply s repair a b group tenure = Ok (Applied d, s') ->
  latest_repair (rsrc_book s') = Some repair /\
  repair_sequence_for_issuer_tenure (rsrc_book s) tenure
    < repair_sequence_for_issuer_tenure (rsrc_book s') tenure /\
  source_apply s' repair a b group tenure = Ok (AlreadyResolved d, s') /\
  (forall other x y, other <> repair -> rp_repair_sequence other <= rp_repair_sequence repair ->
     rp_document other = rp_document repair -> check_evidence other x y = Ok tt ->
     Repair_verify_current_owner other group tenure = Ok tt ->
     source_apply s' other x y group tenure = Ok (Held SequenceNotNewer, s')).
Proof.
  intros (c & Hp & Hc & <- & ->)%source_apply_applied.
  destruct (source_plan_checks _ _ _ _ _ _ _ Hp) as (Hv & He & Hd & Hgd).
  destruct (planned_sequence _ _ _ _ _ _ _ Hv Hc) as [Hl Hseq]. cbn [committed rsrc_book].
  rewrite Hseq. split_and!; [done|by apply (pl_newer _ _ _ _ _ _ Hc)|..].
  - unfold source_apply. by rewrite (replan_resolved _ _ _ _ _ _ _ Hv He Hc), bind_Ok.
  - intros other x y Hne Hle Hdoc Hex Hvo. pose proof (pl_commit _ _ _ _ _ _ Hc) as Hcm.
    apply commit_repair_ok in Hcm as (_ & _ & _ & _ & Hns & _).
    unfold source_apply, source_plan. rewrite Hvo, bind_Ok, Hex, bind_Ok.
    cbn [committed rsrc_document rsrc_gate rsrc_book with_inner g_document g_inner].
    rewrite refuse_if_bind_false by (rewrite !bool_decide_eq_false_2 by (intros Hx; apply Hx; congruence); done).
    cbv zeta. rewrite (bool_decide_eq_false_2 _ Hns), bool_decide_eq_false_2 by congruence.
    by rewrite Hseq, (proj2 (N.leb_le _ _) Hle).
Qed.

(** C9: an applied repair survives a restart, and loses no accepted work. From a
    source as its decoders deliver it, applying a repair leaves the accepted
    operations and their accounting untouched, drops the quarantine only when
    the epoch reopens, and leaves a unit that its own persisted checks accept:
    the book encodes and decodes to itself in the new mode, the restart check
    passes, and the stored binding validates. *)
Theorem repair_survives_restart {C : Crypto} {G} `{OwnerAuthority G} s repair a b (group : G) tenure d s' :
  source_ok s -> repair_ok repair -> source_apply s repair a b group tenure = Ok (Applied d, s') ->
  source_ok s' /\ same_work (g_inner (rsrc_gate s)) (g_inner (rsrc_gate s')) /\
  (gi_quarantine (g_inner (rsrc_gate s')) = gi_quarantine (g_inner (rsrc_gate s)) \/
   (gi_phase (g_inner (rsrc_gate s')) = Open /\ gi_quarantine (g_inner (rsrc_gate s')) = [])) /\
  (exists bs, rsrc_book_bytes s' = Ok bs /\ decode_mode bs (rsrc_adopting s') = Ok (rsrc_book s')) /\
  verify_restart_mode (rsrc_gate s') (om_values (gi_operations (g_inner (rsrc_gate s'))))
    (rsrc_book s') (rsrc_opening s') (rsrc_adopting s') = Ok tt /\
  opt_ok (fun bd => binding_validate bd (rsrc_book s') (rsrc_gate s') (rsrc_opening s')
                      (rsrc_adopting s') = Ok tt) (rsrc_binding s') /\ rsrc_binding s' <> None.
Proof.
  intros Hs Hr (c & Hp & Hc & <- & ->)%source_apply_applied.
  pose proof (plan_typed _ _ _ _ _ _ _ Hs Hr Hp) as Hty.
  destruct Hc as [_ _ _ _ _ Hcm (bs & b' & Hen & Hde) Hre Hbi].
  apply commit_repair_ok in Hcm as (_ & _ & _ & Hw & _ & Hscr & Hq & Hopen).
  unfold committed, rsrc_book_bytes.
  cbn [rsrc_book rsrc_gate rsrc_opening rsrc_adopting rsrc_binding with_inner g_inner opt_ok].
  split_and!; try done.
  - split; [done|apply Hs].
  - destruct (decide (gi_phase (rc_gate c) = Open)) as [Ho|Ho]; [|left; by apply Hq].
    destruct (decide (rb_disposition (rc_binding c) = Screened)) as [Hd|Hd]; [left; by rewrite Hscr|].
    right. split; [done|]. by apply Hopen.
  - exists bs. split; [done|]. by rewrite (decode_mode_self _ _ _ _ Hty Hen Hde) in Hde.
Qed.

(** A plan is good for exactly the state it was computed from. A planned
    candidate commits on every source whose book bytes, gate, mode, binding and
    opening are those it was planned on; on any other source whose book encodes
    the commit is refused as a conflict, so a gate that admitted one operation
    in between keeps it. *)
Theorem repair_commit_fenced {C : Crypto} {G} `{OwnerAuthority G} s repair a b (group : G) tenure c :
  source_plan s repair a b group tenure = Ok (PlanCandidate c) ->
  (forall t, same_state s t ->
     source_commit t c = Ok (Applied (rb_disposition (rc_binding c)), committed t c)) /\
  (forall t bs, rsrc_book_bytes t = Ok bs -> ~ same_state s t ->
     source_commit t c = Err ReceiptConflict).
Proof.
  intros Hp%source_plan_candidate. split.
  - intros t. by eapply plan_commits.
  - intros t bs Hbs Hne. destruct (source_commit t c) as [r|e] eqn:E.
    + exfalso. apply Hne. by eapply commit_matches.
    + by rewrite (commit_refuses _ _ _ _ Hbs E).
Qed.

Section fence.
Context {C : Crypto}.

(** The selected receipt is never its own repair's loser. *)
Lemma selected_not_covered s :
  check_evidence (rs_repair s) (rs_selected s) (rs_losing s) = Ok tt -> covers s (rs_selected s) = false.
Proof.
  intros ((_ & _ & _ & _ & _ & _ & (_ & _ & Hne & _)%receipts_conflict_true)%conflicting_receipt_pair_ok & _)%check_evidence_ok.
  unfold covers. rewrite (bool_decide_eq_false_2 (Receipt_hash _ = _)) by done. cbn.
  destruct (decide (selection_of (rs_selected s) = selection_of (rs_losing s))) as [E|E].
  - rewrite (bool_decide_eq_false_2 (_ <> _)) by (by intros []). by rewrite andb_false_r.
  - rewrite (bool_decide_eq_false_2 (selection_of _ = _)) by done. by rewrite !andb_false_r.
Qed.

(** A binding that validates in the issuer's own tenure vouches for the head. *)
Lemma binding_head bd book gate opening adopting s :
  binding_validate bd book gate opening adopting = Ok tt -> bk_resolved_repair book = Some s ->
  same_issuer_tenure s = true -> is_faulted book = false ->
  opt_ok (fun r => covers s r = false) (bk_latest book).
Proof.
  intros Hb Hs Ht Hf. unfold binding_validate in Hb. rewrite Hs in Hb. cbn [ok_or] in Hb. rewrite bind_Ok in Hb.
  apply bind_ok in Hb as ([] & _ & Hb). apply refuse_if_bind_ok in Hb as [_ Hb]. cbv zeta in Hb.
  apply refuse_if_bind_ok in Hb as [_ Hb]. apply bind_ok in Hb as ([] & Hb & _).
  rewrite Ht, Hf in Hb. cbn [andb negb] in Hb. apply refuse_if_bind_ok in Hb as [Hb _].
  unfold covers_latest, covers_any in Hb. destruct (bk_latest book); [|done]. cbn in *.
  by rewrite orb_false_r in Hb.
Qed.

(** The candidate of a retargeting plan adopts the selected receipt. *)
Lemma retarget_adopts {G} `{OwnerAuthority G} s repair a b (group : G) tenure c :
  source_plan s repair a b group tenure = Ok (PlanCandidate c) ->
  rb_disposition (rc_binding c) = Retargeted ->
  bk_latest (rc_book c) = Some (rs_selected (resolve_pair repair a b)) /\ rc_adopting c = true /\
  gi_phase (rc_gate c) = Closing /\ is_faulted (rc_book c) = false /\
  bk_repair_sequence (rc_book c) = rp_repair_sequence repair.
Proof.
  intros Hp Hd. unfold source_plan in Hp. apply bind_ok in Hp as ([] & _ & Hp).
  apply bind_ok in Hp as ([] & _ & Hp). apply refuse_if_bind_ok in Hp as [_ Hp]. cbv zeta in Hp.
  case_bool_decide; [done|]. case_bool_decide.
  { destruct (rsrc_binding s); [|done]. by apply bind_ok in Hp as ([] & _ & Hp). }
  destruct (_ <=? _); [done|]. destruct (install_pending _ _ _ _ _); [done|].
  apply refuse_if_bind_ok in Hp as [_ Hp]. apply bind_ok in Hp as (bs & _ & Hp).
  destruct (is_fault_pair _ _ _).
  - apply bind_ok in Hp as (x & _ & Hp). destruct (plan_fault _ _ _ _ _) as [c1|] eqn:Hpf; [|done].
    apply check_candidate_ok in Hp as (<- & _). destruct (clear_quarantine_frame c1) as (_ & _ & _ & Q).
    destruct (plan_fault_frame _ _ _ _ _ _ Hpf) as (_ & _ & E & _). rewrite Q in Hd. congruence.
  - apply check_candidate_ok in Hp as (<- & _). unfold plan_other in *. cbv zeta in *.
    destruct (negb (is_faulted (rsrc_book s)) && _ && _) eqn:E.
    + unfold clear_quarantine. cbn. rewrite resolve_pair_repair. split_and!; try done.
      unfold is_faulted in *; cbn. by destruct (bk_fault (rsrc_book s)).
    + unfold clear_quarantine in Hd. cbn in Hd. by rewrite andb_false_r in Hd.
Qed.

(** The opening of an adopting unit is not the receipt being adopted. *)
Lemma adoption_opening g ops b opening s l :
  verify_restart_mode g ops b opening true = Ok tt -> gi_phase (g_inner g) = Closing ->
  bk_latest b = Some l -> bk_resolved_repair b = Some s -> covers s l = false -> opening <> Some l.
Proof.
  unfold verify_restart_mode. intros H Hph Hl Hs Hc ->. apply bind_ok in H as (u & _ & H).
  unfold verify_adoption_state in H. rewrite Hl in H. cbn [ok_or] in H. rewrite bind_Ok in H.
  apply bind_ok in H as (u' & _ & H). apply refuse_if_ok, negb_false_iff in H.
  unfold adoption_valid in H. rewrite Hph in H. apply andb_true_iff in H as [_ H].
  unfold anchor_below, is_repaired_loser in H. rewrite Hs, Hc, N.ltb_irrefl in H.
  rewrite bool_decide_eq_false_2 in H by (by intros []). done.
Qed.

(** The fence of a retargeted source. *)
Lemma retarget_pending {G} `{OwnerAuthority G} s repair a b (group : G) tenure c :
  source_plan s repair a b group tenure = Ok (PlanCandidate c) ->
  rb_disposition (rc_binding c) = Retargeted ->
  exists st, binding_state (rc_binding c) (rc_book c) (gi_phase (rc_gate c)) (rsrc_opening s) (rc_adopting c)
             = Some st /\ srs_install_pending st = true.
Proof.
  intros Hp Hd. destruct (retarget_adopts _ _ _ _ _ _ _ Hp Hd) as (Hl & Had & Hph & Hf & Hseq).
  destruct (source_plan_checks _ _ _ _ _ _ _ Hp) as (_ & He & _).
  pose proof (source_plan_candidate _ _ _ _ _ _ _ Hp) as [_ _ _ Hh Hres _ _ Hre _].
  assert (Hcov : covers (resolve_pair repair a b) (rs_selected (resolve_pair repair a b)) = false).
  { apply selected_not_covered. rewrite resolve_pair_repair.
    revert He. unfold resolve_pair. case_bool_decide; [done|]. cbn. by apply check_evidence_swap. }
  rewrite Had in *. pose proof (adoption_opening _ _ _ _ _ _ Hre Hph Hl Hres Hcov) as Hop.
  unfold binding_state. rewrite Hres. cbn [mbind option_bind].
  rewrite resolve_pair_repair, Hh, Hseq, N.eqb_refl, Hl, Hd, Hph.
  rewrite (bool_decide_eq_false_2 (_ <> _)) by (by intros []). cbn [orb negb].
  eexists. split; [reflexivity|]. cbn. rewrite (bool_decide_eq_true_2 (Some _ = Some _)) by done.
  by rewrite (bool_decide_eq_false_2 _ Hop).
Qed.
End fence.

(** A repair never leaves its loser in charge, and a redirected source is
    fenced. After any application whose repair is of
    the selected receipt's own tenure and leaves no fault, the book's head is
    not a receipt the repair repudiates. When the application redirected a
    healthy source, the selected receipt is the head and its installation is
    pending: every offered receipt is answered without touching the source
    (losers stale, the selected receipt a duplicate, anything else refused), and
    any further newer repair is held until it is installed. *)
Theorem repair_loser_fenced {C : Crypto} {G} `{OwnerAuthority G} s repair a b (group : G) tenure d s' :
  source_apply s repair a b group tenure = Ok (Applied d, s') ->
  let resolved := resolve_pair repair a b in
  (same_issuer_tenure resolved = true -> is_faulted (rsrc_book s') = false ->
   opt_ok (fun r => covers resolved r = false) (bk_latest (rsrc_book s'))) /\
  (d = Retargeted ->
   bk_latest (rsrc_book s') = Some (rs_selected resolved) /\
   (exists bd, rsrc_binding s' = Some bd /\ forall r,
     pending_admission bd (rsrc_book s') (gi_phase (g_inner (rsrc_gate s'))) (rsrc_opening s')
       (rsrc_adopting s') r
     = Some (if covers resolved r then Ok IngestStale
             else if bool_decide (rs_selected resolved = r) then Ok IngestDuplicate
             else Err ReceiptConflict)) /\
   (forall other x y, rp_repair_sequence repair < rp_repair_sequence other ->
     rp_document other = rp_document repair -> check_evidence other x y = Ok tt ->
     Repair_verify_current_owner other group tenure = Ok tt ->
     source_apply s' other x y group tenure = Ok (Held RepairInProgress, s'))).
Proof.
  intros (c & Hp & Hc & <- & ->)%source_apply_applied resolved.
  destruct (source_plan_checks _ _ _ _ _ _ _ Hp) as (Hv & He & Hd & Hgd).
  destruct (planned_sequence _ _ _ _ _ _ _ Hv Hc) as [Hlr Hseq].
  pose proof Hc as [_ _ _ _ Hres Hcm _ _ Hb]. apply commit_repair_ok in Hcm as (_ & _ & _ & _ & Hns & _).
  cbn [committed rsrc_book rsrc_gate rsrc_opening rsrc_adopting rsrc_binding with_inner g_inner].
  split; [by apply (binding_head _ _ _ _ _ _ Hb)|]. intros Hret.
  destruct (retarget_adopts _ _ _ _ _ _ _ Hp Hret) as (Hl & _).
  destruct (retarget_pending _ _ _ _ _ _ _ Hp Hret) as (st & Hst & Hpend). split_and!; [done|..].
  - exists (rc_binding c). split; [done|]. intros r. unfold pending_admission. rewrite Hst.
    cbn [mbind option_bind]. rewrite Hpend. unfold is_repaired_loser. rewrite Hres, Hl. cbn [negb].
    fold resolved. f_equal. destruct (covers resolved r); [done|].
    by rewrite (bool_decide_ext (Some (rs_selected resolved) = Some r) (rs_selected resolved = r)) by naive_solver.
  - intros other x y Hlt Hdoc Hex Hvo. unfold source_apply, source_plan. rewrite Hvo, bind_Ok, Hex, bind_Ok.
    cbn [committed rsrc_document rsrc_gate rsrc_book rsrc_binding rsrc_opening rsrc_adopting with_inner
      g_document g_inner].
    rewrite refuse_if_bind_false by (rewrite !bool_decide_eq_false_2 by (intros Hx; apply Hx; congruence); done).
    cbv zeta. rewrite (bool_decide_eq_false_2 _ Hns), bool_decide_eq_false_2.
    2:{ rewrite Hlr. intros [= ->]. lia. }
    rewrite Hseq, (proj2 (N.leb_gt _ _) Hlt). unfold install_pending. cbn [mbind option_bind].
    by rewrite Hst, Hpend.
Qed.

(** ** The stored binding *)

Definition prefix_bytes (binding : option RepairBinding) (adopting : bool) : bytes :=
  match binding with
  | None => be_bytes 1 (if adopting then 2 else 1)
  | Some bd => be_bytes 1 3 ++ be_bytes 1 (if adopting then 1 else 0)
               ++ be_bytes 1 (disposition_tag (rb_disposition bd)) ++ be_bytes 1 1 ++ lp (rb_hash bd)
  end.

Lemma encode_prefix_eq binding adopting e :
  encode_prefix binding adopting e = e ++ prefix_bytes binding adopting.
Proof.
  unfold encode_prefix, prefix_bytes, put_u8. destruct binding as [bd|]; [|done].
  rewrite put_hash_eq. by rewrite <- !app_assoc.
Qed.

Lemma reads_prefix binding adopting :
  opt_ok (fun bd => length (rb_hash bd) = 32%nat) binding ->
  reads decode_prefix (prefix_bytes binding adopting) (adopting, binding).
Proof.
  intros H. unfold decode_prefix, prefix_bytes. destruct binding as [[d h]|]; cbn [rb_disposition rb_hash].
  - eapply reads_bind; [by apply reads_mal, reads_u8|]. cbn [N.eqb Pos.eqb].
    eapply reads_bind; [apply reads_flag|]. eapply reads_bind.
    { unfold get_disposition. eapply reads_bind_last; [by apply reads_mal, reads_u8; destruct d|].
      instantiate (1 := d). destruct d; cbn [N.eqb Pos.eqb disposition_tag]; apply reads_ret. }
    reads_go; [by apply reads_mal, reads_u8 | done | by apply reads_fixed].
  - eapply reads_bind_last; [by apply reads_mal, reads_u8; destruct adopting|].
    destruct adopting; cbn [N.eqb Pos.eqb]; apply reads_ret.
Qed.

Lemma consumes_disposition :
  consumes get_disposition (fun d bs => bs = be_bytes 1 (disposition_tag d)).
Proof.
  intros d x d' H. unfold get_disposition in H.
  apply dec_bind_ok in H as (t & d1 & Ht & H). destruct (consumes_m_u8 _ _ _ Ht) as (b1 & R1 & -> & _).
  destruct (N.eqb_spec t 1) as [->|]; [|destruct (N.eqb_spec t 2) as [->|]; [|destruct (N.eqb_spec t 3) as [->|]; [|done]]];
    apply dec_ret_ok in H as [<- <-]; by eexists.
Qed.
#[local] Hint Resolve consumes_disposition consumes_flag : mewtual_dec.

Lemma consumes_prefix :
  consumes decode_prefix (fun p bs => bs = prefix_bytes p.2 p.1 /\
    opt_ok (fun bd => length (rb_hash bd) = 32%nat) p.2).
Proof.
  intros d p d' H. unfold decode_prefix in H.
  apply dec_bind_ok in H as (t & d1 & Ht & H). destruct (consumes_m_u8 _ _ _ Ht) as (b1 & R1 & -> & _).
  destruct (N.eqb_spec t 1) as [->|]; [apply dec_ret_ok in H as [<- <-]; by eexists|].
  destruct (N.eqb_spec t 2) as [->|]; [apply dec_ret_ok in H as [<- <-]; by eexists|].
  destruct (N.eqb_spec t 3) as [->|]; [|done]. dec_step H.
  destruct Hr as [-> ?], Hr1 as [-> ?]. apply negb_false_iff, N.eqb_eq in Hr2 as ->.
  eexists; split_and!; [|reflexivity|done]. cbn [prefix_bytes fst snd rb_disposition rb_hash].
  rewrite R1, R, R0, R2, R3. by rewrite <- !app_assoc.
Qed.

(** The stored prefix of a repaired source is exact: bytes decode to a mode
    and binding exactly when they are that mode and binding's own encoding, so a
    restart recovers the original disposition and the exact repair it was
    applied for, and no other byte string is accepted. *)
Theorem repair_prefix_exact input adopting binding :
  run_exact decode_prefix input = Ok (adopting, binding) <->
  opt_ok (fun bd => length (rb_hash bd) = 32%nat) binding /\ encode_prefix binding adopting [] = input.
Proof.
  rewrite encode_prefix_eq. cbn [app]. split.
  - intros H. destruct (run_exact_consumes _ _ _ _ H consumes_prefix) as [-> Hb]. done.
  - intros [Hb <-]. by apply run_exact_reads, reads_prefix.
Qed.

(** ** Witnesses *)

Definition toy_fault_source : RepairSource :=
  mkRepairSource toy_document (gate_fault toy_gate1) toy_faulted (Some (toy_receipt_at 3 5)) false None.

Definition toy_loser_source : RepairSource :=
  mkRepairSource toy_document
    (with_inner toy_gate1 (set_phase Closing (Some (Receipt_hash (C:=toy_crypto) (toy_receipt_at 4 8)))
       (g_inner toy_gate1)))
    toy_book3 (Some (toy_receipt_at 3 5)) false None.

Definition apply_toy_repair (s : RepairSource) : RepairSource :=
  match source_apply (C:=toy_crypto) (G:=ServerGroup) s toy_repair (toy_receipt_at 4 2)
          (toy_receipt_at 4 8) toy_group 3 with
  | Ok (_, s') => s'
  | Err _ => s
  end.

Lemma toy_transitioned :
  source_apply (C:=toy_crypto) (G:=ServerGroup) toy_fault_source toy_repair (toy_receipt_at 4 2)
    (toy_receipt_at 4 8) toy_group 3 = Ok (Applied Transitioned, apply_toy_repair toy_fault_source).
Proof. by vm_compute. Qed.

Lemma toy_retargeted :
  source_apply (C:=toy_crypto) (G:=ServerGroup) toy_loser_source toy_repair (toy_receipt_at 4 2)
    (toy_receipt_at 4 8) toy_group 3 = Ok (Applied Retargeted, apply_toy_repair toy_loser_source).
Proof. by vm_compute. Qed.

Lemma toy_fault_source_ok : source_ok (C:=toy_crypto) toy_fault_source.
Proof.
  split; [apply book_ok_typed, toy_faulted_ok|]. cbn. apply toy_canonical_of. by vm_compute.
Qed.

Lemma repair_applies_once_witness :
  source_apply (C:=toy_crypto) (G:=ServerGroup) (apply_toy_repair toy_fault_source) toy_repair
    (toy_receipt_at 4 2) (toy_receipt_at 4 8) toy_group 3
  = Ok (AlreadyResolved Transitioned, apply_toy_repair toy_fault_source).
Proof.
  destruct (repair_applies_once (C:=toy_crypto) toy_fault_source toy_repair (toy_receipt_at 4 2)
    (toy_receipt_at 4 8) toy_group 3 Transitioned _ toy_transitioned) as (_ & _ & H & _). exact H.
Defined.

Lemma repair_survives_restart_witness :
  exists bs, rsrc_book_bytes (apply_toy_repair toy_fault_source) = Ok bs /\
    decode_mode (C:=toy_crypto) bs (rsrc_adopting (apply_toy_repair toy_fault_source))
    = Ok (rsrc_book (apply_toy_repair toy_fault_source)).
Proof.
  destruct (repair_survives_restart (C:=toy_crypto) toy_fault_source toy_repair (toy_receipt_at 4 2)
    (toy_receipt_at 4 8) toy_group 3 Transitioned _ toy_fault_source_ok toy_repair_ok toy_transitioned)
    as (_ & _ & _ & H & _). exact H.
Defined.

Lemma repair_loser_fenced_witness :
  bk_latest (rsrc_book (apply_toy_repair toy_loser_source))
  = Some (rs_selected (resolve_pair (C:=toy_crypto) toy_repair (toy_receipt_at 4 2) (toy_receipt_at 4 8))).
Proof.
  destruct (repair_loser_fenced (C:=toy_crypto) toy_loser_source toy_repair (toy_receipt_at 4 2)
    (toy_receipt_at 4 8) toy_group 3 Retargeted _ toy_retargeted) as (_ & H).
  destruct (H eq_refl) as (Hl & _). exact Hl.
Defined.

(** The same source after one more inbound operation. *)
Definition toy_raced_source : RepairSource :=
  mkRepairSource toy_document (admit_or_same (rsrc_gate toy_loser_source) (toy_op 7 8)) toy_book3
    (Some (toy_receipt_at 3 5)) false None.

Definition is_candidate (p : result ReplError RepairPlan) : bool :=
  match p with Ok (PlanCandidate _) => true | _ => false end.

Lemma is_candidate_true p : is_candidate p = true -> exists c, p = Ok (PlanCandidate c).
Proof. destruct p as [[c|]|]; [eauto|done..]. Qed.

Lemma toy_planned :
  is_candidate (source_plan (C:=toy_crypto) (G:=ServerGroup) toy_loser_source toy_repair
    (toy_receipt_at 4 2) (toy_receipt_at 4 8) toy_group 3) = true.
Proof. by vm_compute. Qed.

Lemma toy_raced_bytes : exists bs, rsrc_book_bytes toy_raced_source = Ok bs.
Proof. eexists; by vm_compute. Qed.

Lemma toy_raced_gate : g_inner (rsrc_gate toy_raced_source) <> g_inner (rsrc_gate toy_loser_source).
Proof.
  apply (bool_decide_eq_true_1
    (g_inner (rsrc_gate toy_raced_source) <> g_inner (rsrc_gate toy_loser_source))). by vm_compute.
Qed.

Lemma repair_commit_fenced_witness :
  exists c, source_commit toy_raced_source c = Err ReceiptConflict.
Proof.
  destruct (is_candidate_true _ toy_planned) as [c Hp]. destruct toy_raced_bytes as [bs Hb].
  destruct (repair_commit_fenced (C:=toy_crypto) _ _ _ _ _ _ c Hp) as [_ H].
  exists c. apply (H toy_raced_source bs Hb). intros (_ & Hg & _). exact (toy_raced_gate Hg).
Defined.
