(* ===== verification/JointRepair.v ===== *)
(** Joint repair of a source and its owner's journal, from
    [crates/catcoms-replication/src/epoch/repair_transition/joint.rs], and the
    takeover check of [epoch/succession.rs].

    A joint plan is computed once, the journal half is persisted first (B1) and
    the source half second (B2). The fingerprint of the typed document is
    computed by its owner and is an argument here. *)

From S2P Require Import Prelude OrdMap Wire Context Crypto Codec EpochBase Authority.
From S2P Require Import Receipt Close Repair Gate Book Restart Journal RepairTransition.
From stdpp Require Import base list.
From Stdlib Require Import Init.Byte.
Local Open Scope N_scope.

(** * Data *)

Record ReceiptRepairPlan := mkReceiptRepairPlan {
  jp_resolved : ResolvedRepair;
  jp_source_version : bytes;
  jp_source : RepairPlan;
  jp_expected : RepairStateStamp;
  jp_original_journal : bytes;
  jp_journal : OwnerReceiptJournal;
  jp_journal_effect : JournalRepairEffect
}.

Definition jp_repair (p : ReceiptRepairPlan) : ReceiptRepair := rs_repair (jp_resolved p).

Section joint.
Context {C : Crypto}.

Definition matches_original_journal (p : ReceiptRepairPlan) (current : OwnerReceiptJournal) : bool :=
  bool_decide (Journal_encode current = jp_original_journal p).

Definition source_outcome (p : ReceiptRepairPlan) : SourceRepairOutcome :=
  match jp_source p with
  | PlanCandidate c => Applied (rb_disposition (rc_binding c))
  | PlanUnchanged o => o
  end.

(** [RepairSource::stamp] *)
Definition source_stamp (s : RepairSource) : result ReplError RepairStateStamp :=
  bytes ← rsrc_book_bytes s;
  Ok (mkRepairStateStamp (g_inner (rsrc_gate s)) bytes (rsrc_adopting s) (rsrc_binding s) (rsrc_opening s)).

Definition compatible_journal (journal : OwnerReceiptJournal) (resolved : ResolvedRepair)
    : result ReplError unit :=
  _ ← Journal_decode (Journal_encode journal);
  refuse_if (covers_any resolved (option_list (effective_choice journal))) ReceiptConflict.

(** The gate's phase disagrees with its receipt hash, the head or the mode. *)
Definition incoherent_gate (gate : EpochGateInner) (book : ReceiptBook) (adopting : bool) : bool :=
  match gi_phase gate with
  | Open => bool_decide (gi_receipt_hash gate <> None) || adopting
  | Closing => bool_decide (gi_receipt_hash gate = None)
               || bool_decide (gi_receipt_hash gate <> Receipt_hash <$> bk_latest book)
  | Fault => false
  | Settled => true
  end.

Definition compatible_source (book : ReceiptBook) (gate : EpochGateInner) (opening : option Receipt)
    (adopting : bool) (binding : RepairBinding) (resolved : ResolvedRepair) : result ReplError unit :=
  _ ← refuse_if (bool_decide (rb_hash binding <> Repair_hash (rs_repair resolved))
                 || bool_decide (latest_repair book <> Some (rs_repair resolved))
                 || incoherent_gate gate book adopting) ReceiptConflict;
  _ ← refuse_if (negb (Bool.eqb (bool_decide (gi_phase gate = Fault)) (is_faulted book))) Malformed;
  if is_faulted book || negb (same_issuer_tenure resolved) then Ok tt
  else
    _ ← refuse_if (covers_latest resolved book) ReceiptConflict;
    refuse_if (covers_any resolved
                 (option_list opening ++ option_list (bk_previous_until_installed book))
               && negb (install_pending (Some binding) book (gi_phase gate) opening adopting))
      ReceiptConflict.

(** The source half as it will be once the plan has been applied. *)
Definition planned_roles (s : RepairSource) (source : RepairPlan)
    : result ReplError (ReceiptBook * EpochGateInner * bool * RepairBinding) :=
  match source with
  | PlanCandidate c => Ok (rc_book c, rc_gate c, rc_adopting c, rc_binding c)
  | PlanUnchanged _ =>
      binding ← ok_or (rsrc_binding s) Malformed;
      Ok (rsrc_book s, g_inner (rsrc_gate s), rsrc_adopting s, binding)
  end.

Definition is_held (p : RepairPlan) : bool :=
  match p with PlanUnchanged (Held _) => true | _ => false end.

(** [RepairSource::plan_joint] *)
Definition plan_joint {G} `{OwnerAuthority G} (s : RepairSource) (repair : ReceiptRepair)
    (a b : Receipt) (journal : OwnerReceiptJournal) (retiring_close : option CloseRecord)
    (source_version : bytes) (group : G) (issuer_tenure : N) : result ReplError ReceiptRepairPlan :=
  expected ← source_stamp s;
  source ← source_plan s repair a b group issuer_tenure;
  _ ← refuse_if (is_held source) ReceiptConflict;
  _ ← check_repair_progress journal repair;
  next ← resolve_repair journal repair a b retiring_close group issuer_tenure;
  let '(journal_effect, next_journal) := next in
  let resolved := resolve_pair repair a b in
  _ ← compatible_journal next_journal resolved;
  roles ← planned_roles s source;
  let '(book, gate, adopting, binding) := roles in
  _ ← compatible_source book gate (rsrc_opening s) adopting binding resolved;
  Ok (mkReceiptRepairPlan resolved source_version source expected (Journal_encode journal)
        next_journal journal_effect).

(** [RepairSource::commit_joint] *)
Definition commit_joint {G} `{OwnerAuthority G} (s : RepairSource) (plan : ReceiptRepairPlan)
    (current_journal : OwnerReceiptJournal) (source_version : bytes) (group : G) (issuer_tenure : N)
    : result ReplError (SourceRepairOutcome * RepairSource) :=
  _ ← Repair_verify_current_owner (jp_repair plan) group issuer_tenure;
  _ ← check_evidence (jp_repair plan) (rs_selected (jp_resolved plan)) (rs_losing (jp_resolved plan));
  _ ← refuse_if (bool_decide (rp_document (jp_repair plan) <> rsrc_document s)
                 || bool_decide (source_version <> jp_source_version plan)
                 || bool_decide (Journal_encode current_journal <> Journal_encode (jp_journal plan)))
        ReceiptConflict;
  bytes ← rsrc_book_bytes s;
  let expected := jp_expected plan in
  _ ← refuse_if (bool_decide (bytes <> rss_book expected)
                 || negb (Bool.eqb (rsrc_adopting s) (rss_adopting expected))
                 || bool_decide (rsrc_binding s <> rss_binding expected)
                 || bool_decide (rsrc_opening s <> rss_opening expected)) ReceiptConflict;
  match jp_source plan with
  | PlanCandidate c => source_commit s c
  | PlanUnchanged outcome =>
      next ← commit_repair (g_inner (rsrc_gate s)) (rss_gate expected) (rss_gate expected) Screened;
      Ok (outcome, mkRepairSource (rsrc_document s) (with_inner (rsrc_gate s) next) (rsrc_book s)
                     (rsrc_opening s) (rsrc_adopting s) (rsrc_binding s))
  end.

(** * Takeover of a frozen source *)

(** One receipt of the loop of [frozen_owner_inheritance]. *)
Definition check_frozen_receipt (document : LogicalDocument) (receipt : Receipt) : result ReplError unit :=
  _ ← refuse_if (bool_decide (r_document receipt <> document)
                 || negb (len (r_owner_public_key receipt) =? 32)) EpochScope;
  _ ← Receipt_decode (Receipt_encode receipt);
  _ ← restore_verified_from_vault receipt;
  Ok tt.

Fixpoint check_frozen (document : LogicalDocument) (rs : list Receipt) : result ReplError unit :=
  match rs with
  | [] => Ok tt
  | r :: rs => _ ← check_frozen_receipt document r; check_frozen document rs
  end.

(** The checkpoint a new owner inherits: the installed opening, or none at epoch zero. *)
Definition inherited_of (epoch : N) (opening : option Receipt) (tenure : N)
    : result ReplError InheritedCheckpoint :=
  match opening with
  | None => if epoch =? 0 then Ok EpochZero else Err ReceiptConflict
  | Some o =>
      if opens o epoch && (r_tenure_start_group_epoch o <? tenure)
      then Ok (Checkpoint epoch (r_close_record_hash o) (r_seed_change_hash o))
      else Err ReceiptConflict
  end.

Definition frozen_owner_inheritance (document : LogicalDocument) (epoch : N)
    (opening head previous : option Receipt) (group : ServerGroup) (tenure : N)
    : result ReplError InheritedCheckpoint :=
  _ ← refuse_if (bool_decide (server_id document <> group_id group) || (group_epoch group <? tenure))
        EpochScope;
  head ← ok_or head ReceiptConflict;
  _ ← check_frozen document (option_list opening ++ [head] ++ option_list previous);
  inherited ← inherited_of epoch opening tenure;
  _ ← match previous with
      | None => Ok tt
      | Some p =>
          _ ← refuse_if (tenure <? r_tenure_start_group_epoch p) ReceiptConflict;
          if r_tenure_start_group_epoch p =? tenure then
            _ ← Receipt_verify_current_owner p group tenure;
            refuse_if (negb (r_closed_epoch p =? epoch) || bool_decide (r_inherited p <> inherited))
              ReceiptConflict
          else Ok tt
      end;
  _ ← refuse_if ((tenure <=? r_tenure_start_group_epoch head)
                 && negb ((r_tenure_start_group_epoch head =? tenure)
                          && bool_decide (previous = Some head))) ReceiptConflict;
  Ok inherited.
End joint.

(** * Lemmas *)

Section lemmas.
Context {C : Crypto}.

(** Once a journal has taken a repair, or was found unaffected by it, taking it
    again changes nothing, whatever close accompanies it. *)
Lemma resolve_again {G} `{OwnerAuthority G} j repair a b close (group : G) tenure e j' :
  resolve_repair j repair a b close group tenure = Ok (e, j') ->
  (forall close', resolve_repair j' repair a b close' group tenure = Ok (JournalUnchanged, j')) /\
  (check_repair_progress j repair = Ok tt -> check_repair_progress j' repair = Ok tt).
Proof.
  intros H0. pose proof (resolve_repair_shape _ _ _ _ _ _ _ _ _ H0) as Hshape.
  unfold resolve_repair in *. apply bind_ok in H0 as ([] & Hv & H0). apply bind_ok in H0 as ([] & He & H0).
  apply refuse_if_bind_ok in H0 as [Hd H0].
  destruct Hshape as [[-> ->]|(s & retired & nm & Hne & Hs & _ & _ & _ & _ & _ & -> & _)].
  - split; [|done]. intros close'. rewrite Hv, bind_Ok, He, bind_Ok, refuse_if_bind_false by done.
    destruct (if bool_decide _ then (a, b) else (b, a)) as [selected losing]. cbv zeta in *.
    match type of H0 with (if ?c then _ else _) = _ => destruct c end; [done|].
    match type of H0 with (if ?c then _ else _) = _ => destruct c end; [done|]. exfalso.
    apply refuse_if_bind_ok in H0 as [_ H0]. apply refuse_if_bind_ok in H0 as [_ H0].
    apply bind_ok in H0 as (r & _ & H0). apply bind_ok in H0 as ([] & _ & H0).
    injection H0 as He' _. by destruct (hash_is _ _), (is_some r).
  - clear H0. split.
    + intros close'. rewrite Hv, bind_Ok, He, bind_Ok. cbn [oj_document oj_provenance pv_resolved].
      rewrite refuse_if_bind_false by done.
      destruct (if bool_decide _ then (a, b) else (b, a)) as [selected losing]. cbv zeta.
      by rewrite Hs, bool_decide_eq_true_2.
    + intros _. unfold check_repair_progress. cbn [oj_provenance pv_resolved].
      by rewrite Hs, bool_decide_eq_false_2 by (by intros []).
Qed.

Lemma resolve_pair_evidence repair a b :
  check_evidence repair a b = Ok tt ->
  check_evidence repair (rs_selected (resolve_pair repair a b)) (rs_losing (resolve_pair repair a b)) = Ok tt.
Proof. intros He. unfold resolve_pair. case_bool_decide; [done|]. by apply check_evidence_swap. Qed.

(** A plan that changes nothing and is not held confirms an earlier application. *)
Lemma plan_unchanged_resolved {G} `{OwnerAuthority G} s repair a b (group : G) tenure o :
  source_plan s repair a b group tenure = Ok (PlanUnchanged o) -> is_held (PlanUnchanged o) = false ->
  exists bd, rsrc_binding s = Some bd /\ o = AlreadyResolved (rb_disposition bd) /\
    gi_phase (g_inner (rsrc_gate s)) <> Settled /\ latest_repair (rsrc_book s) = Some repair.
Proof.
  intros Hp Hh. unfold source_plan in Hp. apply bind_ok in Hp as ([] & _ & Hp).
  apply bind_ok in Hp as ([] & _ & Hp). apply refuse_if_bind_ok in Hp as [_ Hp]. cbv zeta in Hp.
  assert (Hcheck : forall c, check_candidate s c <> Ok (PlanUnchanged o)).
  { intros c Hc. unfold check_candidate in Hc. cbv zeta in Hc. apply bind_ok in Hc as (? & _ & Hc).
    apply bind_ok in Hc as (? & _ & Hc). destruct (verify_restart_mode _ _ _ _ _); [|by injection Hc as <-].
    by apply bind_ok in Hc as (? & _ & Hc). }
  case_bool_decide as Hset; [by injection Hp as <-|]. case_bool_decide as Hl.
  { destruct (rsrc_binding s) as [bd|]; [|by injection Hp as <-]. apply bind_ok in Hp as ([] & _ & Hp).
    injection Hp as <-. by exists bd. }
  destruct (_ <=? _); [by injection Hp as <-|]. destruct (install_pending _ _ _ _ _); [by injection Hp as <-|].
  apply refuse_if_bind_ok in Hp as [_ Hp]. apply bind_ok in Hp as (bs & _ & Hp).
  destruct (is_fault_pair _ _ _); [|by apply Hcheck in Hp].
  apply bind_ok in Hp as (x & _ & Hp). destruct (plan_fault _ _ _ _ _); [by apply Hcheck in Hp|].
  by injection Hp as <-.
Qed.

(** The source once a plan has been committed. *)
Definition joint_next (s : RepairSource) (source : RepairPlan) : RepairSource :=
  match source with PlanCandidate c => committed s c | PlanUnchanged _ => s end.

(** What a successful joint plan checked. *)
Record joint_planned {G} `{OwnerAuthority G} (s : RepairSource) (repair : ReceiptRepair)
    (a b : Receipt) (j : OwnerReceiptJournal) (close : option CloseRecord) (version : bytes)
    (group : G) (tenure : N) (p : ReceiptRepairPlan) : Prop := mkJointPlanned {
  jo_authority : Repair_verify_current_owner repair group tenure = Ok tt;
  jo_evidence : check_evidence repair a b = Ok tt;
  jo_document : rp_document repair = rsrc_document s;
  jo_resolved : jp_resolved p = resolve_pair repair a b;
  jo_version : jp_source_version p = version;
  jo_original : jp_original_journal p = Journal_encode j;
  jo_stamp : source_stamp s = Ok (jp_expected p);
  jo_source : source_plan s repair a b group tenure = Ok (jp_source p);
  jo_held : is_held (jp_source p) = false;
  jo_progress : check_repair_progress j repair = Ok tt;
  jo_journal : resolve_repair j repair a b close group tenure = Ok (jp_journal_effect p, jp_journal p);
  jo_compatible : compatible_journal (jp_journal p) (resolve_pair repair a b) = Ok tt;
  jo_roles : exists book gate adopting binding,
    planned_roles s (jp_source p) = Ok (book, gate, adopting, binding) /\
    compatible_source book gate (rsrc_opening s) adopting binding (resolve_pair repair a b) = Ok tt
}.

Lemma plan_joint_ok {G} `{OwnerAuthority G} s repair a b j close version (group : G) tenure p :
  plan_joint s repair a b j close version group tenure = Ok p <->
  joint_planned s repair a b j close version group tenure p.
Proof.
  split.
  - unfold plan_joint. intros H0. apply bind_ok in H0 as (st & Hst & H0). apply bind_ok in H0 as (src & Hsrc & H0).
    apply refuse_if_bind_ok in H0 as [Hh H0]. apply bind_ok in H0 as ([] & Hpr & H0).
    apply bind_ok in H0 as ([e j'] & Hj & H0). cbv zeta in H0. apply bind_ok in H0 as ([] & Hcj & H0).
    apply bind_ok in H0 as ([[[book gate] ad] bd] & Hro & H0). apply bind_ok in H0 as ([] & Hcs & H0).
    injection H0 as <-. destruct (source_plan_checks _ _ _ _ _ _ _ Hsrc) as (? & ? & ? & ?).
    constructor; try done. by exists book, gate, ad, bd.
  - intros [_ _ _ E1 E2 E3 Hst Hsrc Hh Hpr Hj Hcj (book & gate & ad & bd & Hro & Hcs)].
    unfold plan_joint. rewrite Hst, bind_Ok, Hsrc, bind_Ok, refuse_if_bind_false, Hpr, bind_Ok, Hj, bind_Ok by done.
    cbv zeta beta iota. rewrite Hcj, bind_Ok, Hro, bind_Ok, Hcs, bind_Ok. destruct p; cbn in *. by subst.
Qed.

Lemma joint_commits {G} `{OwnerAuthority G} s repair a b j close version (group : G) tenure p :
  joint_planned s repair a b j close version group tenure p ->
  commit_joint s p (jp_journal p) version group tenure = Ok (source_outcome p, joint_next s (jp_source p)).
Proof.
  intros [Hv He Hd Hres Hver _ Hst Hsrc Hh _ _ _ _]. unfold commit_joint, jp_repair.
  rewrite Hres, resolve_pair_repair, Hv, bind_Ok, (resolve_pair_evidence _ _ _ He), bind_Ok.
  rewrite refuse_if_bind_false by (rewrite Hver, !bool_decide_eq_false_2 by (by intros []); done).
  unfold source_stamp in Hst. apply bind_ok in Hst as (bs & Hbs & Hst). injection Hst as Hst.
  rewrite Hbs, bind_Ok, <- Hst. cbn [rss_gate rss_book rss_adopting rss_binding rss_opening].
  rewrite refuse_if_bind_false by (rewrite eqb_reflx, !bool_decide_eq_false_2 by (by intros []); done).
  unfold source_outcome, joint_next. destruct (jp_source p) as [c|o] eqn:Ep.
  - apply source_plan_candidate in Hsrc. by apply (plan_commits _ _ _ _ _ _ s Hsrc).
  - destruct (plan_unchanged_resolved _ _ _ _ _ _ _ Hsrc Hh) as (bd & _ & _ & Hns & _).
    unfold commit_repair. rewrite refuse_if_bind_false
      by (rewrite !bool_decide_eq_false_2; [done|done|by intros []]).
    rewrite (bool_decide_eq_true_2 (Screened = Screened)), (bool_decide_eq_false_2 (_ <> _)) by (done || by intros []).
    cbn. by destruct s as [? [] ? ? ? ?].
Qed.
End lemmas.

(** * Properties *)

(** C8: a joint repair always completes, from every crash point. Once a plan for
    a source and its owner's journal exists, committing it on the unchanged
    source succeeds with the announced outcome. A restart after the journal was
    persisted but before the source was replans to the same source change and
    the same journal; a restart after both finds the repair already resolved,
    leaves the journal unchanged, and committing that plan again succeeds and
    changes nothing. *)
Theorem joint_repair_resumable {C : Crypto} {G} `{OwnerAuthority G}
    s repair a b j close version (group : G) tenure p :
  plan_joint s repair a b j close version group tenure = Ok p ->
  let s' := joint_next s (jp_source p) in let j' := jp_journal p in
  commit_joint s p j' version group tenure = Ok (source_outcome p, s') /\
  (forall close', exists p1,
     plan_joint s repair a b j' close' version group tenure = Ok p1 /\
     jp_source p1 = jp_source p /\ jp_journal p1 = j') /\
  (forall close' version', exists p2 d,
     plan_joint s' repair a b j' close' version' group tenure = Ok p2 /\ jp_journal p2 = j' /\
     commit_joint s' p2 j' version' group tenure = Ok (AlreadyResolved d, s')).
Proof.
  intros Hp%plan_joint_ok s' j'. split_and!; [by eapply joint_commits|..].
  - intros close'. destruct Hp as [Hv He Hd Hres Hver _ Hst Hsrc Hh Hpr Hj Hcj Hro].
    destruct (resolve_again _ _ _ _ _ _ _ _ _ Hj) as [Hj1 Hpr1].
    exists (mkReceiptRepairPlan (resolve_pair repair a b) version (jp_source p) (jp_expected p)
              (Journal_encode j') j' JournalUnchanged).
    split; [|done]. apply plan_joint_ok. constructor; cbn; auto.
  - intros close' version'.
    assert (Hnext : exists d st, source_plan s' repair a b group tenure = Ok (PlanUnchanged (AlreadyResolved d)) /\
      source_stamp s' = Ok st /\ rp_document repair = rsrc_document s' /\
      planned_roles s' (PlanUnchanged (AlreadyResolved d)) = planned_roles s (jp_source p) /\
      rsrc_opening s' = rsrc_opening s).
    { destruct Hp as [Hv He Hd _ _ _ Hst Hsrc Hh _ _ _ _]. unfold s', joint_next. destruct (jp_source p) as [c|o].
      - apply source_plan_candidate in Hsrc as Hc. exists (rb_disposition (rc_binding c)).
        pose proof (pl_decodes _ _ _ _ _ _ Hc) as (bs & _ & Hbs & _). eexists. split_and!; try done.
        + by apply (replan_resolved _ _ _ _ _ _ _ Hv He Hc).
        + unfold source_stamp, rsrc_book_bytes. cbn [committed rsrc_book rsrc_adopting]. by rewrite Hbs.
      - destruct (plan_unchanged_resolved _ _ _ _ _ _ _ Hsrc Hh) as (bd & _ & -> & _). eauto 10. }
    destruct Hnext as (d & st & Hsrc' & Hst' & Hd' & Hro' & Hop').
    destruct Hp as [Hv He Hd Hres Hver _ Hst Hsrc Hh Hpr Hj Hcj Hro].
    destruct (resolve_again _ _ _ _ _ _ _ _ _ Hj) as [Hj1 Hpr1].
    set (p2 := mkReceiptRepairPlan (resolve_pair repair a b) version' (PlanUnchanged (AlreadyResolved d)) st
              (Journal_encode j') j' JournalUnchanged).
    assert (Hp2 : joint_planned s' repair a b j' close' version' group tenure p2)
      by (constructor; cbn [p2 jp_resolved jp_source_version jp_source jp_expected jp_original_journal
            jp_journal jp_journal_effect]; auto; rewrite Hop', Hro'; exact Hro).
    exists p2, d. split_and!; [by apply plan_joint_ok|done|]. exact (joint_commits _ _ _ _ _ _ _ _ _ _ Hp2).
Qed.

(** After a joint repair neither half still stands for a loser. The journal's
    effective decision is not one the repair repudiates; the source records the
    repair, its phase agrees with its head and its fault; and, when the repair
    is of the selected receipt's own tenure and no other fault blocks the
    source, its head is not a loser and a losing opening or predecessor remains
    only behind the pending installation of the selected receipt. *)
Theorem joint_repair_agrees {C : Crypto} {G} `{OwnerAuthority G}
    s repair a b j close version (group : G) tenure p :
  plan_joint s repair a b j close version group tenure = Ok p ->
  let s' := joint_next s (jp_source p) in let resolved := resolve_pair repair a b in
  opt_ok (fun r => covers resolved r = false) (effective_choice (jp_journal p)) /\
  latest_repair (rsrc_book s') = Some repair /\
  incoherent_gate (g_inner (rsrc_gate s')) (rsrc_book s') (rsrc_adopting s') = false /\
  (gi_phase (g_inner (rsrc_gate s')) = Fault <-> is_faulted (rsrc_book s') = true) /\
  (is_faulted (rsrc_book s') = false -> same_issuer_tenure resolved = true ->
   opt_ok (fun r => covers resolved r = false) (bk_latest (rsrc_book s')) /\
   (covers_any resolved (option_list (rsrc_opening s')
                         ++ option_list (bk_previous_until_installed (rsrc_book s'))) = true ->
    install_pending (rsrc_binding s') (rsrc_book s') (gi_phase (g_inner (rsrc_gate s')))
      (rsrc_opening s') (rsrc_adopting s') = true)).
Proof.
  intros Hp%plan_joint_ok s' resolved. destruct Hp as [_ _ _ _ _ _ _ _ _ _ _ Hcj (book & gate & ad & bd & Hro & Hcs)].
  assert (Hs' : book = rsrc_book s' /\ gate = g_inner (rsrc_gate s') /\ ad = rsrc_adopting s' /\
    Some bd = rsrc_binding s' /\ rsrc_opening s = rsrc_opening s').
  { unfold s'. destruct (jp_source p); cbn in *; [by simplify_eq|]. destruct (rsrc_binding s); [|done].
    cbn in Hro. by simplify_eq. }
  destruct Hs' as (-> & -> & -> & Hbd & Hop). rewrite Hop in Hcs. rewrite <- Hbd.
  assert (Hnone : forall o, covers_any resolved (option_list o) = false -> opt_ok (fun r => covers resolved r = false) o)
    by (intros [r|]; cbn; [by rewrite orb_false_r|done]).
  unfold compatible_source in Hcs. fold resolved in Hcs.
  apply refuse_if_bind_ok in Hcs as [H1 Hcs]. apply refuse_if_bind_ok in Hcs as [H2 Hcs].
  apply orb_false_iff in H1 as [H1 Hig]. apply orb_false_iff in H1 as [_ Hlr].
  apply bool_decide_eq_false, dec_stable in Hlr. unfold resolved in Hlr. rewrite resolve_pair_repair in Hlr.
  apply negb_false_iff, eqb_prop in H2. split_and!; try done.
  - unfold compatible_journal in Hcj. apply bind_ok in Hcj as (? & _ & Hcj). by apply refuse_if_ok, Hnone in Hcj.
  - by rewrite <- H2, bool_decide_eq_true.
  - intros Hf Ht. rewrite Hf, Ht in Hcs. cbn [orb negb] in Hcs. apply refuse_if_bind_ok in Hcs as [Hl Hcs].
    apply refuse_if_ok in Hcs. split; [by apply Hnone|]. intros Hc. rewrite Hc in Hcs. cbn [andb] in Hcs.
    by apply negb_false_iff in Hcs.
Qed.

Section takeover.
Context {C : Crypto}.

Lemma check_frozen_ok document rs :
  check_frozen document rs = Ok tt <->
  Forall (fun r => check_frozen_receipt document r = Ok tt) rs.
Proof.
  induction rs as [|r rs IH]; [done|]. cbn [check_frozen]. rewrite Forall_cons, <- IH. split.
  - intros H. apply bind_ok in H as ([] & ? & ?). done.
  - intros [-> H]. by rewrite bind_Ok.
Qed.

Lemma check_frozen_receipt_accepts r :
  receipt_canonical r -> Receipt_verify_signature_only r = Ok tt ->
  check_frozen_receipt (r_document r) r = Ok tt.
Proof.
  intros Hc Hv. pose proof Hc as [Hf _]. unfold check_frozen_receipt. rewrite refuse_if_bind_false.
  2:{ rewrite bool_decide_eq_false_2 by (by intros []). by rewrite (len_of_length _ _ (rf_key _ Hf)). }
  rewrite (proj2 (Receipt_decode_spec _ r)), bind_Ok by done.
  apply restore_unit in Hv as [v ->]. done.
Qed.

(** The checks of a takeover, one by one. *)
Definition decided_before (previous : option Receipt) (group : ServerGroup) (epoch tenure : N)
    (inherited : InheritedCheckpoint) : Prop :=
  opt_ok (fun p => r_tenure_start_group_epoch p <= tenure /\
    (r_tenure_start_group_epoch p = tenure ->
     (exists v, Receipt_verify_current_owner p group tenure = Ok v) /\
     r_closed_epoch p = epoch /\ r_inherited p = inherited)) previous.

Lemma frozen_ok document epoch opening head previous group tenure inh :
  frozen_owner_inheritance document epoch opening (Some head) previous group tenure = Ok inh <->
  server_id document = group_id group /\ tenure <= group_epoch group /\
  Forall (fun r => check_frozen_receipt document r = Ok tt)
    (option_list opening ++ [head] ++ option_list previous) /\
  inherited_of epoch opening tenure = Ok inh /\ decided_before previous group epoch tenure inh /\
  (tenure <= r_tenure_start_group_epoch head ->
   r_tenure_start_group_epoch head = tenure /\ previous = Some head).
Proof.
  unfold frozen_owner_inheritance. cbn [ok_or]. split.
  - intros H. apply refuse_if_bind_ok in H as [H1 H]. rewrite bind_Ok in H.
    apply bind_ok in H as ([] & H2 & H). apply check_frozen_ok in H2. apply bind_ok in H as (i & Hi & H).
    apply bind_ok in H as ([] & Hpv & H). apply refuse_if_bind_ok in H as [Hh H]. injection H as ->.
    bool_simpl. split_and!; try done.
    + destruct previous as [p|]; [|done]. apply refuse_if_bind_ok in Hpv as [Hle Hpv]. apply N.ltb_ge in Hle.
      split; [done|]. intros E. rewrite (proj2 (N.eqb_eq _ _) E) in Hpv.
      apply bind_ok in Hpv as (v & Hv & Hpv). apply refuse_if_ok in Hpv. bool_simpl. eauto.
    + intros Hle. apply N.leb_le in Hle. rewrite Hle in Hh. destruct Hh as [Hh|Hh]; [done|].
      apply negb_false_iff in Hh. by bool_simpl.
  - intros (H1 & H2 & H3 & Hi & Hpv & Hh). rewrite refuse_if_bind_false.
    2:{ rewrite bool_decide_eq_false_2 by (by intros []). by apply N.ltb_ge. }
    rewrite bind_Ok, (proj2 (check_frozen_ok _ _) H3), bind_Ok, Hi, bind_Ok.
    assert (Hprev : match previous with
      | None => Ok tt
      | Some p => (_ ← refuse_if (tenure <? r_tenure_start_group_epoch p) ReceiptConflict;
          if r_tenure_start_group_epoch p =? tenure then
            (_ ← Receipt_verify_current_owner p group tenure;
             refuse_if (negb (r_closed_epoch p =? epoch) || bool_decide (r_inherited p <> inh)) ReceiptConflict)
          else Ok tt)
      end = Ok tt).
    { destruct previous as [p|]; [|done]. destruct Hpv as [Hle Hpv].
      rewrite refuse_if_bind_false by (by apply N.ltb_ge). destruct (N.eqb_spec (r_tenure_start_group_epoch p) tenure) as [E|]; [|done].
      destruct (Hpv E) as ([v ->] & -> & ->). rewrite bind_Ok, N.eqb_refl. cbn.
      by rewrite bool_decide_eq_false_2 by (by intros []). }
    rewrite Hprev, bind_Ok, refuse_if_bind_false; [done|].
    destruct (N.leb_spec tenure (r_tenure_start_group_epoch head)) as [Hle|]; [|done].
    destruct (Hh Hle) as [E ->]. by rewrite E, N.eqb_refl, bool_decide_eq_true_2.
Qed.

Lemma inherited_of_epoch epoch opening tenure inh :
  inherited_of epoch opening tenure = Ok inh -> inherited_epoch inh = epoch.
Proof.
  unfold inherited_of. destruct opening as [o|].
  - by destruct (_ && _); intros; simplify_eq.
  - destruct (N.eqb_spec epoch 0) as [->|]; intros; by simplify_eq.
Qed.
End takeover.

(** A new owner takes over a frozen epoch with one decision. The inherited
    checkpoint is of the frozen epoch itself; a held seal of the new tenure is
    accepted only when it is the very decision already journaled, which closed
    this epoch on this checkpoint. A current-owner receipt that closes the epoch
    on the inherited checkpoint is accepted by the journal of an older tenure
    with no unfinished repair, and once journaled the same call returns the same
    checkpoint both before and after that receipt has sealed the source. *)
Theorem takeover_decides_once {C : Crypto} document epoch opening head previous group tenure inh :
  frozen_owner_inheritance document epoch opening (Some head) previous group tenure = Ok inh ->
  inherited_epoch inh = epoch /\
  (tenure <= r_tenure_start_group_epoch head ->
   previous = Some head /\ r_closed_epoch head = epoch /\ r_inherited head = inh) /\
  (forall r v, receipt_canonical r -> r_document r = document ->
     Receipt_verify_current_owner r group tenure = Ok v -> r_closed_epoch r = epoch -> r_inherited r = inh ->
     (forall j old, oj_document j = Some document -> oj_tenure j = Some old -> ot_start old < tenure ->
        oj_provenance j = None -> prepare_verified j r = Ok (obligate j r)) /\
     (r_tenure_start_group_epoch head < tenure ->
      frozen_owner_inheritance document epoch opening (Some head) (Some r) group tenure = Ok inh) /\
     frozen_owner_inheritance document epoch opening (Some r) (Some r) group tenure = Ok inh).
Proof.
  intros (H1 & H2 & H3 & Hi & Hpv & Hh)%frozen_ok. pose proof (inherited_of_epoch _ _ _ _ Hi) as He.
  split_and!; [done|..].
  - intros Hle. destruct (Hh Hle) as [E ->]. destruct Hpv as [_ Hpv]. by destruct (Hpv E) as (_ & ? & ?).
  - intros r v Hc Hd Hv Hcl Hin. pose proof Hv as (_ & _ & Hst & _ & [Hsig _]%restore_verified_ok)%Receipt_verify_current_owner_ok.
    assert (Hr : check_frozen_receipt document r = Ok tt) by (rewrite <- Hd; by apply check_frozen_receipt_accepts).
    assert (Hdb : decided_before (Some r) group epoch tenure inh) by (split; [lia|eauto]).
    assert (Hfr : Forall (fun r => check_frozen_receipt document r = Ok tt) (option_list (Some r))) by (by repeat constructor).
    rewrite !Forall_app in H3. destruct H3 as (Ho & Hhd & _). split_and!.
    + intros j old Hjd Hjt Hlt Hjp. unfold prepare_verified. rewrite Hjd, Hjp. cbv zeta.
      assert (Hch : changes_tenure j r = true).
      { unfold changes_tenure. rewrite Hjt. apply bool_decide_eq_true_2. intros ->. cbn in Hlt. lia. }
      rewrite Hch, refuse_if_bind_false by (apply bool_decide_eq_false_2; by intros []).
      rewrite refuse_if_bind_false; [done|]. unfold first_of_tenure. rewrite Hjt, Hin, He, Hcl, N.eqb_refl. cbn.
      rewrite Hst, (proj2 (N.ltb_lt _ _) Hlt). done.
    + intros Hlt. apply frozen_ok. rewrite !Forall_app. split_and!; try done. intros; lia.
    + apply frozen_ok. rewrite !Forall_app. by split_and!.
Qed.

(** ** Witnesses *)

Definition toy_joint : result ReplError ReceiptRepairPlan :=
  plan_joint (C:=toy_crypto) (G:=ServerGroup) toy_fault_source toy_repair (toy_receipt_at 4 2)
    (toy_receipt_at 4 8) (jw_journal toy_w6) None [x07] toy_group 3.

Definition is_planned {A} (r : result ReplError A) : bool := match r with Ok _ => true | Err _ => false end.

Lemma is_planned_true {A} (r : result ReplError A) : is_planned r = true -> exists p, r = Ok p.
Proof. destruct r; [eauto|done]. Qed.

Lemma toy_joint_planned : is_planned toy_joint = true.
Proof. by vm_compute. Qed.

Lemma joint_repair_resumable_witness :
  exists p, commit_joint (C:=toy_crypto) (G:=ServerGroup) toy_fault_source p (jp_journal p) [x07] toy_group 3
            = Ok (source_outcome p, joint_next toy_fault_source (jp_source p)).
Proof.
  destruct (is_planned_true _ toy_joint_planned) as [p Hp]. exists p.
  exact (proj1 (joint_repair_resumable (C:=toy_crypto) _ _ _ _ _ _ _ _ _ p Hp)).
Defined.

Lemma joint_repair_agrees_witness :
  exists p, latest_repair (rsrc_book (joint_next toy_fault_source (jp_source p))) = Some toy_repair.
Proof.
  destruct (is_planned_true _ toy_joint_planned) as [p Hp]. exists p.
  destruct (joint_repair_agrees (C:=toy_crypto) _ _ _ _ _ _ _ _ _ p Hp) as (_ & H & _). exact H.
Defined.

Lemma toy_takeover :
  frozen_owner_inheritance (C:=toy_crypto) toy_document 4 (Some (toy_receipt_at 3 5))
    (Some (toy_receipt_at 4 2)) None toy_group 5
  = Ok (Checkpoint 4 (r_close_record_hash (toy_receipt_at 3 5)) (r_seed_change_hash (toy_receipt_at 3 5))).
Proof. by vm_compute. Qed.

Lemma takeover_decides_once_witness :
  inherited_epoch (Checkpoint 4 (r_close_record_hash (toy_receipt_at 3 5))
                     (r_seed_change_hash (toy_receipt_at 3 5))) = 4.
Proof.
  exact (proj1 (takeover_decides_once (C:=toy_crypto) _ _ _ _ _ _ _ _ toy_takeover)).
Defined.
