(* ===== verification/Recovery.v ===== *)
(** Recovery materializations of [crates/catcoms-replication/src/epoch.rs]:
    [RecoverySnapshot] (bounds, exact size preflight, codec, identity) and
    [RecoverySlots], the two retained slots and the staged one with the grace
    period before anything is evicted. *)

From S2P Require Import Prelude Wire Context Crypto Codec EpochBase Receipt Close.
From stdpp Require Import base list relations.
From Stdlib Require Import Init.Byte.
Local Open Scope N_scope.

(** * Snapshots *)

Inductive RecoveryReason : Type := Excluded | Rewound | ConflictOverflow | RepairReason.

#[global] Instance RecoveryReason_eq_dec : EqDecision RecoveryReason.
Proof. solve_decision. Defined.

Definition reason_tag (r : RecoveryReason) : N :=
  match r with Excluded => 1 | Rewound => 2 | ConflictOverflow => 3 | RepairReason => 4 end.

Definition reason_decode (value : N) : result ReplError RecoveryReason :=
  if value =? 1 then Ok Excluded
  else if value =? 2 then Ok Rewound
  else if value =? 3 then Ok ConflictOverflow
  else if value =? 4 then Ok RepairReason
  else Err Malformed.

Record RecoveryTombstone := mkRecoveryTombstone {
  rt_element_id : bytes; rt_op_id : bytes; rt_author : bytes
}.

Record RecoveryElement := mkRecoveryElement {
  re_element_id : bytes; re_predecessor : option bytes; re_op_id : bytes; re_author : bytes
}.

Record RecoveryConflictValue := mkRecoveryConflictValue {
  rv_value : bytes; rv_op_id : bytes; rv_author : bytes
}.

Record RecoveryConflict := mkRecoveryConflict {
  rc_target : bytes; rc_values : list RecoveryConflictValue
}.

Record RecoverySnapshot := mkRecoverySnapshot {
  sn_doc_type : DocType;
  sn_logical_key : bytes;
  sn_epoch : N;
  sn_base_close_record_hash : option bytes;
  sn_reason : RecoveryReason;
  sn_projection : bytes;
  sn_tombstones : list RecoveryTombstone;
  sn_elements : list RecoveryElement;
  sn_conflicts : list RecoveryConflict;
  sn_applied_ops : list bytes
}.

#[global] Instance RecoveryTombstone_eq_dec : EqDecision RecoveryTombstone.
Proof. solve_decision. Defined.
#[global] Instance RecoveryElement_eq_dec : EqDecision RecoveryElement.
Proof. solve_decision. Defined.
#[global] Instance RecoveryConflictValue_eq_dec : EqDecision RecoveryConflictValue.
Proof. solve_decision. Defined.
#[global] Instance RecoveryConflict_eq_dec : EqDecision RecoveryConflict.
Proof. solve_decision. Defined.
#[global] Instance RecoverySnapshot_eq_dec : EqDecision RecoverySnapshot.
Proof. solve_decision. Defined.

(** ** Bounds and size preflight *)

Definition conflict_refused (c : RecoveryConflict) : bool :=
  is_empty (rc_target c) || (MAX_RECOVERY_TARGET_BYTES <? len (rc_target c))
  || is_empty (rc_values c) || (MAX_CONFLICT_VALUES <? len (rc_values c))
  || existsb (fun v => MAX_DOMAIN_OP_BYTES <? len (rv_value v)) (rc_values c).

(** [items.windows(2).any(|pair| pair[0] >= pair[1])] *)
Definition unsorted (keys : list bytes) : bool := negb (strictly_ascending keys).

Definition snapshot_refused (s : RecoverySnapshot) : bool :=
  negb (is_epoch_managed_doc_type (sn_doc_type s))
  || is_empty (sn_logical_key s) || (MAX_LOGICAL_KEY_BYTES <? len (sn_logical_key s))
  || (MAX_RECOVERY_ITEMS <? len (sn_tombstones s)) || (MAX_RECOVERY_ITEMS <? len (sn_elements s))
  || (MAX_RECOVERY_CONFLICTS <? len (sn_conflicts s))
  || (MAX_RECOVERY_ITEMS <? len (sn_applied_ops s))
  || existsb conflict_refused (sn_conflicts s)
  || unsorted (rt_element_id <$> sn_tombstones s)
  || unsorted (re_element_id <$> sn_elements s)
  || unsorted (rc_target <$> sn_conflicts s)
  || existsb (fun c => unsorted (rv_op_id <$> rc_values c)) (sn_conflicts s)
  || unsorted (sn_applied_ops s).

(** [remaining = remaining.checked_sub(bytes).ok_or(EpochBound)?] *)
Definition charge (size remaining : N) : result ReplError N :=
  if size <=? remaining then Ok (remaining - size) else Err EpochBound.

Fixpoint charge_all (sizes : list N) (remaining : N) : result ReplError N :=
  match sizes with
  | [] => Ok remaining
  | n :: ns => r ← charge n remaining; charge_all ns r
  end.

Definition element_size (e : RecoveryElement) : N :=
  93 + match re_predecessor e with Some _ => 20 | None => 0 end.

Definition conflict_sizes (c : RecoveryConflict) : list N :=
  (5 + len (rc_target c)) :: concat ((fun v => [76; len (rv_value v)]) <$> rc_values c).

Definition check_encoded_size (s : RecoverySnapshot) : result ReplError unit :=
  remaining ← charge (1 + 2 + 4 + 8 + 1 + 1 + 4 + 4 * 4) MAX_RECOVERY_SNAPSHOT_BYTES;
  remaining ← charge (len (sn_logical_key s)) remaining;
  remaining ← charge (len (sn_projection s)) remaining;
  remaining ← match sn_base_close_record_hash s with
              | Some _ => charge 36 remaining
              | None => Ok remaining
              end;
  remaining ← charge (len (sn_tombstones s) * 92) remaining;
  remaining ← charge_all (element_size <$> sn_elements s) remaining;
  remaining ← charge_all (concat (conflict_sizes <$> sn_conflicts s)) remaining;
  _ ← charge (len (sn_applied_ops s) * 36) remaining;
  Ok tt.

(** ** Encoding *)

(** [for x in xs { put(&mut e, x) }] *)
Definition put_each {A} (put : A -> bytes -> bytes) (xs : list A) (e : bytes) : bytes :=
  fold_left (fun e x => put x e) xs e.

(** The same loop over a fallible put. *)
Fixpoint try_each {A} (put : A -> bytes -> result ReplError bytes) (xs : list A) (e : bytes)
    : result ReplError bytes :=
  match xs with
  | [] => Ok e
  | x :: xs => e ← put x e; try_each put xs e
  end.

Definition put_tombstone (t : RecoveryTombstone) (e : bytes) : bytes :=
  e |> put_bytes_x (rt_element_id t) |> put_hash (rt_op_id t) |> put_bytes_x (rt_author t).

Definition put_element (x : RecoveryElement) (e : bytes) : bytes :=
  e |> put_bytes_x (re_element_id x) |> put_option put_bytes_x (re_predecessor x)
    |> put_hash (re_op_id x) |> put_bytes_x (re_author x).

Definition put_value (v : RecoveryConflictValue) (e : bytes) : result ReplError bytes :=
  e ← put_bytes_b (rv_value v) e;
  Ok (e |> put_hash (rv_op_id v) |> put_bytes_x (rv_author v)).

Definition put_conflict (c : RecoveryConflict) (e : bytes) : result ReplError bytes :=
  e ← put_bytes_b (rc_target c) e;
  try_each put_value (rc_values c) (e |> put_u8 (len (rc_values c))).

Definition Snapshot_encode (s : RecoverySnapshot) : result ReplError bytes :=
  _ ← refuse_if (snapshot_refused s) EpochBound;
  _ ← check_encoded_size s;
  e ← put_bytes_b (sn_logical_key s) ([] |> put_u8 1 |> put_u16 (doc_tag (sn_doc_type s)));
  e ← put_bytes_b (sn_projection s)
        (e |> put_u64 (sn_epoch s) |> put_optional_hash (sn_base_close_record_hash s)
           |> put_u8 (reason_tag (sn_reason s)));
  let e := e |> put_u32 (len (sn_tombstones s)) |> put_each put_tombstone (sn_tombstones s)
             |> put_u32 (len (sn_elements s)) |> put_each put_element (sn_elements s) in
  e ← try_each put_conflict (sn_conflicts s) (e |> put_u32 (len (sn_conflicts s)));
  let e := e |> put_u32 (len (sn_applied_ops s)) |> put_each put_hash (sn_applied_ops s) in
  _ ← refuse_if (MAX_RECOVERY_SNAPSHOT_BYTES <? len e) EpochBound;
  Ok e.

Definition Snapshot_id `{C : Crypto} (s : RecoverySnapshot) : result ReplError bytes :=
  bs ← Snapshot_encode s;
  Ok (hash_parts (bytes_of_string "catcoms-recovery:v1") [bs]).

(** ** Decoding *)

Definition get_tombstone : dec ReplError RecoveryTombstone :=
  id ← get_fixed 16; op ← get_fixed 32; author ← get_fixed 32;
  mret (mkRecoveryTombstone id op author).

Definition get_element : dec ReplError RecoveryElement :=
  id ← get_fixed 16;
  predecessor ← get_option (get_fixed 16);
  op ← get_fixed 32;
  author ← get_fixed 32;
  mret (mkRecoveryElement id predecessor op author).

Definition get_value : dec ReplError RecoveryConflictValue :=
  value ← mal get_bytes;
  _ ← dec_refuse (MAX_DOMAIN_OP_BYTES <? len value) EpochBound;
  op ← get_fixed 32;
  author ← get_fixed 32;
  mret (mkRecoveryConflictValue value op author).

Definition get_conflict : dec ReplError RecoveryConflict :=
  target ← mal get_bytes;
  _ ← dec_refuse (is_empty target || (MAX_RECOVERY_TARGET_BYTES <? len target)) EpochBound;
  count ← mal get_u8;
  _ ← dec_refuse ((count =? 0) || (MAX_CONFLICT_VALUES <? count)) EpochBound;
  values ← get_n (N.to_nat count) get_value;
  mret (mkRecoveryConflict target values).

(** [count = get_u32()?; if count > max { EpochBound }; for _ in 0..count { ... }] *)
Definition get_counted {A} (max : N) (get : dec ReplError A) : dec ReplError (list A) :=
  count ← mal get_u32;
  _ ← dec_refuse (max <? count) EpochBound;
  get_n (N.to_nat count) get.

Definition Snapshot_read : dec ReplError RecoverySnapshot :=
  version ← mal get_u8;
  _ ← dec_refuse (negb (version =? 1)) Malformed;
  tag ← mal get_u16;
  t ← dec_lift (ok_or (doc_from_tag tag) Malformed);
  key ← mal get_bytes;
  epoch ← mal get_u64;
  base ← get_optional_hash;
  value ← mal get_u8;
  reason ← dec_lift (reason_decode value);
  projection ← mal get_bytes;
  tombstones ← get_counted MAX_RECOVERY_ITEMS get_tombstone;
  elements ← get_counted MAX_RECOVERY_ITEMS get_element;
  conflicts ← get_counted MAX_RECOVERY_CONFLICTS get_conflict;
  applied ← get_counted MAX_RECOVERY_ITEMS (get_fixed 32);
  mret (mkRecoverySnapshot t key epoch base reason projection tombstones elements conflicts applied).

Definition Snapshot_decode (input : bytes) : result ReplError RecoverySnapshot :=
  _ ← refuse_if (MAX_RECOVERY_SNAPSHOT_BYTES <? len input) EpochBound;
  s ← run_exact Snapshot_read input;
  bs ← Snapshot_encode s;
  _ ← refuse_if (bool_decide (bs <> input)) Malformed;
  Ok s.

(** * Slots *)

Record StagedRecovery := mkStagedRecovery { st_snapshot : RecoverySnapshot; st_staged_at_ms : N }.

Inductive RecoveryTransition : Type :=
| Promoted
| EvictionPending (oldest_snapshot staged_snapshot : bytes) (deadline_ms : N)
| Unchanged.

(** [sl_retained] is newest first. *)
Record RecoverySlots := mkRecoverySlots {
  sl_retained : list RecoverySnapshot;
  sl_staged : option StagedRecovery
}.

Definition RecoverySlots_default : RecoverySlots := mkRecoverySlots [] None.

#[global] Instance StagedRecovery_eq_dec : EqDecision StagedRecovery.
Proof. solve_decision. Defined.
#[global] Instance RecoveryTransition_eq_dec : EqDecision RecoveryTransition.
Proof. solve_decision. Defined.
#[global] Instance RecoverySlots_eq_dec : EqDecision RecoverySlots.
Proof. solve_decision. Defined.

(** [self.retained.iter().chain(self.staged.iter().map(|staged| &staged.snapshot))] *)
Definition held (sl : RecoverySlots) : list RecoverySnapshot :=
  sl_retained sl ++ option_list (st_snapshot <$> sl_staged sl).

Definition grace_deadline (staged_at_ms : N) : N := sat_add u64_max staged_at_ms RECOVERY_GRACE_MS.

Section slots.
Context {C : Crypto}.

Definition pending_transition (sl : RecoverySlots) : result ReplError RecoveryTransition :=
  staged ← ok_or (sl_staged sl) RecoveryPending;
  back ← ok_or (last (sl_retained sl)) RecoveryPending;
  oldest_snapshot ← Snapshot_id back;
  staged_snapshot ← Snapshot_id (st_snapshot staged);
  Ok (EvictionPending oldest_snapshot staged_snapshot (grace_deadline (st_staged_at_ms staged))).

(** In [stage], [last] of two or more retained snapshots exists: the source's
    [expect] there is not a failure path. *)

(** The loop of [stage]: whether a held snapshot has this id, refusing another scope. *)
Fixpoint already_held (snapshot : RecoverySnapshot) (snapshot_id : bytes)
    (hs : list RecoverySnapshot) : result ReplError bool :=
  match hs with
  | [] => Ok false
  | h :: hs =>
      _ ← refuse_if (bool_decide (sn_doc_type h <> sn_doc_type snapshot)
                     || bool_decide (sn_logical_key h <> sn_logical_key snapshot)) EpochScope;
      id ← Snapshot_id h;
      if bool_decide (id = snapshot_id) then Ok true else already_held snapshot snapshot_id hs
  end.

Definition stage (sl : RecoverySlots) (snapshot : RecoverySnapshot) (now_ms : N)
    : result ReplError (RecoveryTransition * RecoverySlots) :=
  _ ← Snapshot_encode snapshot;
  snapshot_id ← Snapshot_id snapshot;
  found ← already_held snapshot snapshot_id (held sl);
  if (found : bool) then
    match sl_staged sl with
    | Some staged =>
        if bool_decide (Snapshot_id (st_snapshot staged) = Ok snapshot_id)
        then (t ← pending_transition sl; Ok (t, sl))
        else Ok (Unchanged, sl)
    | None => Ok (Unchanged, sl)
    end
  else
    _ ← refuse_if (match sl_staged sl with Some _ => true | None => false end) RecoveryPending;
    if len (sl_retained sl) <? 2
    then Ok (Promoted, mkRecoverySlots (snapshot :: sl_retained sl) (sl_staged sl))
    else
      back ← ok_or (last (sl_retained sl)) RecoveryPending;
      oldest_snapshot ← Snapshot_id back;
      Ok (EvictionPending oldest_snapshot snapshot_id (grace_deadline now_ms),
          mkRecoverySlots (sl_retained sl) (Some (mkStagedRecovery snapshot now_ms))).

Definition promote_staged (sl : RecoverySlots) : RecoveryTransition * RecoverySlots :=
  match sl_staged sl with
  | None => (Unchanged, sl)
  | Some staged =>
      let kept := if len (sl_retained sl) =? 2 then removelast (sl_retained sl)
                  else sl_retained sl in
      (Promoted, mkRecoverySlots (st_snapshot staged :: kept) None)
  end.

Definition acknowledge_eviction (sl : RecoverySlots)
    (expected_oldest_snapshot expected_staged_snapshot : bytes)
    : result ReplError (RecoveryTransition * RecoverySlots) :=
  back ← ok_or (last (sl_retained sl)) RecoveryPending;
  actual_oldest ← Snapshot_id back;
  staged ← ok_or (sl_staged sl) RecoveryPending;
  actual_staged ← Snapshot_id (st_snapshot staged);
  _ ← refuse_if (bool_decide (actual_oldest <> expected_oldest_snapshot)
                 || bool_decide (actual_staged <> expected_staged_snapshot)) RecoveryPending;
  Ok (promote_staged sl).

Definition advance_time (sl : RecoverySlots) (now_ms : N) : RecoveryTransition * RecoverySlots :=
  match sl_staged sl with
  | None => (Unchanged, sl)
  | Some staged =>
      if now_ms <? grace_deadline (st_staged_at_ms staged) then (Unchanged, sl) else promote_staged sl
  end.

Definition eviction_pending (sl : RecoverySlots) : result ReplError (option RecoveryTransition) :=
  match sl_staged sl with
  | None => Ok None
  | Some _ => t ← pending_transition sl; Ok (Some t)
  end.

(** ** Persistence *)

Definition put_snapshot (s : RecoverySnapshot) (e : bytes) : result ReplError bytes :=
  bs ← Snapshot_encode s;
  put_bytes_b bs e.

Definition Slots_encode (sl : RecoverySlots) : result ReplError bytes :=
  _ ← refuse_if ((2 <? len (sl_retained sl))
                 || match sl_staged sl with
                    | Some _ => negb (len (sl_retained sl) =? 2)
                    | None => false
                    end) Malformed;
  e ← try_each put_snapshot (sl_retained sl) ([] |> put_u8 1 |> put_u8 (len (sl_retained sl)));
  e ← match sl_staged sl with
      | Some staged => put_snapshot (st_snapshot staged) (e |> put_u8 1 |> put_u64 (st_staged_at_ms staged))
      | None => Ok (e |> put_u8 0)
      end;
  _ ← refuse_if (MAX_RECOVERY_SLOTS_BYTES <? len e) EpochBound;
  Ok e.

Definition get_snapshot : dec ReplError RecoverySnapshot :=
  b ← mal get_bytes;
  dec_lift (Snapshot_decode b).

Definition Slots_read : dec ReplError RecoverySlots :=
  version ← mal get_u8;
  _ ← dec_refuse (negb (version =? 1)) Malformed;
  count ← mal get_u8;
  _ ← dec_refuse (2 <? count) Malformed;
  retained ← get_n (N.to_nat count) get_snapshot;
  staged ← get_option (at_ms ← mal get_u64; s ← get_snapshot; mret (mkStagedRecovery s at_ms));
  mret (mkRecoverySlots retained staged).

(** The scope and identity loop of [RecoverySlots::decode]. *)
Fixpoint check_slots (scope : option (DocType * bytes)) (ids : list bytes)
    (hs : list RecoverySnapshot) : result ReplError unit :=
  match hs with
  | [] => Ok tt
  | h :: hs =>
      _ ← refuse_if (match scope with
                     | Some (t, k) => bool_decide (t <> sn_doc_type h) || bool_decide (k <> sn_logical_key h)
                     | None => false
                     end) Malformed;
      id ← Snapshot_id h;
      _ ← refuse_if (bool_decide (id ∈ ids)) Malformed;
      check_slots (Some (default (sn_doc_type h, sn_logical_key h) scope)) (id :: ids) hs
  end.

Definition Slots_decode (input : bytes) : result ReplError RecoverySlots :=
  _ ← refuse_if (MAX_RECOVERY_SLOTS_BYTES <? len input) EpochBound;
  sl ← run_exact Slots_read input;
  _ ← check_slots None [] (held sl);
  bs ← Slots_encode sl;
  _ ← refuse_if (bool_decide (bs <> input)) Malformed;
  Ok sl.
End slots.

(** * Snapshot lemmas *)

Definition tombstone_bytes (t : RecoveryTombstone) : bytes :=
  lp (rt_element_id t) ++ lp (rt_op_id t) ++ lp (rt_author t).
Definition element_bytes (x : RecoveryElement) : bytes :=
  lp (re_element_id x) ++ opt_bytes lp (re_predecessor x) ++ lp (re_op_id x) ++ lp (re_author x).
Definition value_bytes (v : RecoveryConflictValue) : bytes :=
  lp (rv_value v) ++ lp (rv_op_id v) ++ lp (rv_author v).
Definition conflict_bytes (c : RecoveryConflict) : bytes :=
  lp (rc_target c) ++ be_bytes 1 (len (rc_values c)) ++ concat (value_bytes <$> rc_values c).

(** [put_u32(count)] and the items. *)
Definition counted_bytes {A} (enc : A -> bytes) (xs : list A) : bytes :=
  be_bytes 4 (len xs) ++ concat (enc <$> xs).

Definition snapshot_bytes (s : RecoverySnapshot) : bytes :=
  be_bytes 1 1 ++ be_bytes 2 (doc_tag (sn_doc_type s)) ++ lp (sn_logical_key s) ++
  be_bytes 8 (sn_epoch s) ++ opt_bytes lp (sn_base_close_record_hash s) ++
  be_bytes 1 (reason_tag (sn_reason s)) ++ lp (sn_projection s) ++
  counted_bytes tombstone_bytes (sn_tombstones s) ++ counted_bytes element_bytes (sn_elements s) ++
  counted_bytes conflict_bytes (sn_conflicts s) ++ counted_bytes lp (sn_applied_ops s).

(** The lengths of the fixed-size Rust arrays. *)
Definition tombstone_typed (t : RecoveryTombstone) : Prop :=
  length (rt_element_id t) = 16%nat /\ length (rt_op_id t) = 32%nat /\ length (rt_author t) = 32%nat.
Definition element_typed (x : RecoveryElement) : Prop :=
  length (re_element_id x) = 16%nat /\ opt_ok (fun p => length p = 16%nat) (re_predecessor x) /\
  length (re_op_id x) = 32%nat /\ length (re_author x) = 32%nat.
Definition value_typed (v : RecoveryConflictValue) : Prop :=
  length (rv_op_id v) = 32%nat /\ length (rv_author v) = 32%nat.

Record snapshot_typed (s : RecoverySnapshot) : Prop := mkSnapshotTyped {
  sy_epoch : sn_epoch s <= u64_max;
  sy_base : opt_ok (fun h => length h = 32%nat) (sn_base_close_record_hash s);
  sy_tombstones : Forall tombstone_typed (sn_tombstones s);
  sy_elements : Forall element_typed (sn_elements s);
  sy_conflicts : Forall (fun c => Forall value_typed (rc_values c)) (sn_conflicts s);
  sy_applied : Forall (fun h => length h = 32%nat) (sn_applied_ops s)
}.

Lemma len_tombstone t : tombstone_typed t -> len (tombstone_bytes t) = 92.
Proof.
  intros (H1 & H2 & H3). unfold tombstone_bytes. autorewrite with mewtual_len.
  by rewrite (len_of_length _ _ H1), (len_of_length _ _ H2), (len_of_length _ _ H3).
Qed.

Lemma len_element x : element_typed x -> len (element_bytes x) = element_size x.
Proof.
  intros (H1 & H2 & H3 & H4). unfold element_bytes, element_size. autorewrite with mewtual_len.
  rewrite (len_of_length _ _ H1), (len_of_length _ _ H3), (len_of_length _ _ H4).
  destruct (re_predecessor x); [|lia]. cbn in H2. autorewrite with mewtual_len.
  rewrite (len_of_length _ _ H2). lia.
Qed.

Lemma len_conflict c :
  Forall value_typed (rc_values c) -> len (conflict_bytes c) = sum_of (fun n => n) (conflict_sizes c).
Proof.
  intros Hv. unfold conflict_bytes, conflict_sizes. autorewrite with mewtual_len. cbn [sum_of].
  enough (len (concat (value_bytes <$> rc_values c)) =
          sum_of (fun n => n) (concat ((fun v => [76; len (rv_value v)]) <$> rc_values c))) by lia.
  induction Hv as [|v vs [H1 H2] _ IH]; [done|]. cbn [fmap list_fmap concat app sum_of].
  rewrite len_app, IH. unfold value_bytes. autorewrite with mewtual_len.
  rewrite (len_of_length _ _ H1), (len_of_length _ _ H2). lia.
Qed.

Lemma len_concat_all {A} (enc : A -> bytes) (size : A -> N) (P : A -> Prop) xs :
  (forall x, P x -> len (enc x) = size x) -> Forall P xs ->
  len (concat (enc <$> xs)) = sum_of size xs.
Proof. intros He HF. induction HF as [|x xs Hx _ IH]; [done|]. cbn. by rewrite len_app, IH, He. Qed.

Definition snapshot_size (s : RecoverySnapshot) : N :=
  37 + len (sn_logical_key s) + len (sn_projection s) +
  match sn_base_close_record_hash s with Some _ => 36 | None => 0 end +
  len (sn_tombstones s) * 92 + sum_of element_size (sn_elements s) +
  sum_of (fun n => n) (concat (conflict_sizes <$> sn_conflicts s)) + len (sn_applied_ops s) * 36.

Lemma sum_of_concat {A} (f : A -> list N) xs :
  sum_of (fun n => n) (concat (f <$> xs)) = sum_of (fun x => sum_of (fun n => n) (f x)) xs.
Proof. induction xs as [|x xs IH]; [done|]. cbn. by rewrite sum_of_app, IH. Qed.

Lemma len_snapshot_bytes s : snapshot_typed s -> len (snapshot_bytes s) = snapshot_size s.
Proof.
  intros []. unfold snapshot_bytes, snapshot_size, counted_bytes.
  rewrite !len_app, !len_be_bytes, !len_lp, len_opt_bytes, sum_of_concat.
  rewrite (len_concat_all _ (fun _ => 92) _ _ len_tombstone sy_tombstones0), sum_of_const.
  rewrite (len_concat_all _ _ _ _ len_element sy_elements0).
  rewrite (len_concat_all _ _ _ _ len_conflict sy_conflicts0), (len_hashes _ sy_applied0).
  destruct (sn_base_close_record_hash s) as [h|]; cbn in sy_base0; [|lia].
  rewrite len_lp, (len_of_length _ _ sy_base0). lia.
Qed.

Lemma charge_ok n m r : charge n m = Ok r <-> n <= m /\ r = m - n.
Proof. unfold charge. destruct (N.leb_spec n m); split; (naive_solver lia). Qed.

Lemma charge_all_ok ns : forall m r,
  charge_all ns m = Ok r <-> sum_of (fun n => n) ns <= m /\ r = m - sum_of (fun n => n) ns.
Proof.
  induction ns as [|n ns IH]; intros m r; cbn [charge_all sum_of].
  - split; [intros [= <-]; lia|]. intros [_ ->]. f_equal. lia.
  - split.
    + intros (r1 & [Hn ->]%charge_ok & [Hs ->]%IH)%bind_ok. lia.
    + intros [Hs ->]. rewrite (proj2 (charge_ok n m (m - n))), bind_Ok by (split; [lia|done]).
      apply IH. lia.
Qed.

Lemma sum_of_fmap {A} (f : A -> N) xs : sum_of (fun n => n) (f <$> xs) = sum_of f xs.
Proof. induction xs as [|x xs IH]; [done|]. cbn. by rewrite IH. Qed.

Lemma check_encoded_size_ok s :
  check_encoded_size s = Ok tt <-> snapshot_size s <= MAX_RECOVERY_SNAPSHOT_BYTES.
Proof.
  unfold check_encoded_size, snapshot_size.
  set (M := MAX_RECOVERY_SNAPSHOT_BYTES). set (K := len (sn_logical_key s)).
  set (P := len (sn_projection s)). set (T := len (sn_tombstones s) * 92).
  set (A := len (sn_applied_ops s) * 36).
  pose proof (sum_of_fmap element_size (sn_elements s)) as HE.
  set (Es := element_size <$> sn_elements s) in *.
  set (Cs := concat (conflict_sizes <$> sn_conflicts s)). rewrite <- HE. clear HE. split.
  - intros H. res_inv. rewrite charge_ok, charge_all_ok in *.
    destruct (sn_base_close_record_hash s); rewrite ?charge_ok in *; simplify_eq; lia.
  - intros H.
    do 3 (eapply bind_step; [apply charge_ok; split; [|reflexivity]; lia|]).
    eapply (bind_step _ (M - 37 - K - P - match sn_base_close_record_hash s with Some _ => 36 | None => 0 end)).
    { destruct (sn_base_close_record_hash s); [apply charge_ok; lia | f_equal; lia]. }
    eapply bind_step; [apply charge_ok; split; [|reflexivity]; lia|].
    do 2 (eapply bind_step; [apply charge_all_ok; split; [|reflexivity]; lia|]).
    eapply bind_step; [apply charge_ok; split; [|reflexivity]; lia|]. done.
Qed.

Lemma put_each_eq {A} (put : A -> bytes -> bytes) enc xs :
  (forall x e, put x e = e ++ enc x) -> forall e, put_each put xs e = e ++ concat (enc <$> xs).
Proof.
  intros Hp. unfold put_each. induction xs as [|x xs IH]; intros e; cbn.
  - by rewrite app_nil_r.
  - rewrite IH, Hp. by rewrite <- app_assoc.
Qed.

Lemma try_each_ok {A} (put : A -> bytes -> result ReplError bytes) enc xs :
  Forall (fun x => forall e, put x e = Ok (e ++ enc x)) xs ->
  forall e, try_each put xs e = Ok (e ++ concat (enc <$> xs)).
Proof.
  induction 1 as [|x xs Hx _ IH]; intros e; cbn [try_each fmap list_fmap concat].
  - by rewrite app_nil_r.
  - rewrite Hx, bind_Ok, IH. by rewrite <- app_assoc.
Qed.

Lemma put_tombstone_eq t e : put_tombstone t e = e ++ tombstone_bytes t.
Proof.
  unfold put_tombstone, tombstone_bytes. rewrite put_bytes_x_lp, put_hash_eq, put_bytes_x_lp.
  by rewrite <- !app_assoc.
Qed.

Lemma put_element_eq x e : put_element x e = e ++ element_bytes x.
Proof.
  unfold put_element, element_bytes.
  rewrite put_bytes_x_lp, put_hash_eq, (put_option_eq _ lp), put_bytes_x_lp; [by rewrite <- !app_assoc|].
  intros. apply put_bytes_x_lp.
Qed.

(** The bounds [encode] checks, read back. *)
Record snapshot_bounded (s : RecoverySnapshot) : Prop := mkSnapshotBounded {
  sb_managed : is_epoch_managed_doc_type (sn_doc_type s) = true;
  sb_key : 0 < len (sn_logical_key s) <= MAX_LOGICAL_KEY_BYTES;
  sb_tombstones : len (sn_tombstones s) <= MAX_RECOVERY_ITEMS;
  sb_elements : len (sn_elements s) <= MAX_RECOVERY_ITEMS;
  sb_conflicts : len (sn_conflicts s) <= MAX_RECOVERY_CONFLICTS;
  sb_applied : len (sn_applied_ops s) <= MAX_RECOVERY_ITEMS;
  sb_each_conflict : Forall (fun c => 0 < len (rc_target c) <= MAX_RECOVERY_TARGET_BYTES /\
    0 < len (rc_values c) <= MAX_CONFLICT_VALUES /\
    Forall (fun v => len (rv_value v) <= MAX_DOMAIN_OP_BYTES) (rc_values c)) (sn_conflicts s)
}.

Lemma snapshot_refused_bounded s : snapshot_refused s = false -> snapshot_bounded s.
Proof.
  unfold snapshot_refused. rewrite !orb_false_iff. 
  intros ((((((((((((H1 & H2) & H3) & H4) & H5) & H6) & H7) & H8) & _) & _) & _) & _) & _).
  constructor; try (by apply N.ltb_ge).
  - by apply negb_false_iff.
  - split; [by apply is_empty_len | by apply N.ltb_ge].
  - apply existsb_false_Forall in H8. eapply Forall_impl; [exact H8|]. intros c. unfold conflict_refused. rewrite !orb_false_iff, !N.ltb_ge.
    intros ((((? & ?) & ?) & ?) & Hv%existsb_false_Forall).
    split_and!; try done; [by apply is_empty_len | by apply is_empty_len|].
    eapply Forall_impl; [exact Hv|]. intros v. by rewrite N.ltb_ge.
Qed.

Lemma put_value_ok v e : len (rv_value v) <= u32_max -> put_value v e = Ok (e ++ value_bytes v).
Proof.
  intros H. unfold put_value, value_bytes. rewrite (put_bytes_b_ok _ _ H), bind_Ok.
  rewrite put_bytes_x_lp, put_hash_eq. by rewrite <- !app_assoc.
Qed.

Lemma put_conflict_ok c e :
  len (rc_target c) <= u32_max -> Forall (fun v => len (rv_value v) <= u32_max) (rc_values c) ->
  put_conflict c e = Ok (e ++ conflict_bytes c).
Proof.
  intros Ht Hv. unfold put_conflict, conflict_bytes. rewrite (put_bytes_b_ok _ _ Ht), bind_Ok.
  rewrite (try_each_ok _ value_bytes).
  - unfold put_u8. by rewrite <- !app_assoc.
  - eapply Forall_impl; [exact Hv|]. intros v H e'. by apply put_value_ok.
Qed.

Lemma bounded_u32 s : snapshot_bounded s ->
  Forall (fun c => len (rc_target c) <= u32_max /\
                   Forall (fun v => len (rv_value v) <= u32_max) (rc_values c)) (sn_conflicts s).
Proof.
  intros []. eapply Forall_impl; [exact sb_each_conflict0|]. intros c ([_ Ht] & _ & Hv).
  unfold MAX_RECOVERY_TARGET_BYTES, MAX_DOMAIN_OP_BYTES, u32_max in *. split; [lia|].
  eapply Forall_impl; [exact Hv|]. cbn. lia.
Qed.

(** Within the bounds the encoder is total, and its preflight is exact. *)
Lemma Snapshot_encode_ok s bs :
  snapshot_typed s ->
  Snapshot_encode s = Ok bs <->
  snapshot_refused s = false /\ len (snapshot_bytes s) <= MAX_RECOVERY_SNAPSHOT_BYTES /\
  bs = snapshot_bytes s.
Proof.
  intros Ht. rewrite (len_snapshot_bytes s Ht), <- check_encoded_size_ok.
  assert (Hgo : snapshot_refused s = false -> check_encoded_size s = Ok tt ->
                Snapshot_encode s = Ok (snapshot_bytes s)).
  { intros Hr Hc. pose proof (snapshot_refused_bounded s Hr) as Hb. unfold Snapshot_encode.
    rewrite Hr. cbn [refuse_if]. rewrite bind_Ok, Hc, bind_Ok.
    apply check_encoded_size_ok in Hc. pose proof Hc as Hc'. unfold snapshot_size, MAX_RECOVERY_SNAPSHOT_BYTES in Hc'.
    rewrite put_bytes_b_ok, bind_Ok by (unfold u32_max; lia).
    rewrite put_bytes_b_ok, bind_Ok by (unfold u32_max; lia). cbv zeta.
    rewrite (put_each_eq _ _ _ put_element_eq), (put_each_eq _ _ _ put_tombstone_eq).
    rewrite (try_each_ok _ conflict_bytes), bind_Ok; cycle 1.
    { eapply Forall_impl; [by apply bounded_u32|]. intros c [? ?] e. by apply put_conflict_ok. }
    rewrite (put_each_eq _ _ _ put_hash_eq).
    match goal with |- (_ ← refuse_if (_ <? len ?b) _; _) = _ => assert (E : b = snapshot_bytes s) end.
    { unfold snapshot_bytes, counted_bytes, put_u8, put_u16, put_u32, put_u64.
      rewrite put_optional_hash_eq. by rewrite <- !app_assoc. }
    rewrite E, refuse_if_bind_false; [done|]. apply N.ltb_ge. by rewrite (len_snapshot_bytes s Ht). }
  split; [|intros (Hr & Hc & ->); by apply Hgo].
  intros H. pose proof H as H'. unfold Snapshot_encode in H'.
  apply refuse_if_bind_ok in H' as [Hr H']. apply bind_ok in H' as ([] & Hc & _).
  rewrite (Hgo Hr Hc) in H. by injection H as <-.
Qed.

Lemma reads_counted {A} max (get : dec ReplError A) enc xs :
  len xs <= max -> max <= u32_max -> Forall (fun x => reads get (enc x) x) xs ->
  reads (get_counted max get) (counted_bytes enc xs) xs.
Proof.
  intros Hm Hu HF. unfold get_counted, counted_bytes. reads_go.
  - apply reads_mal, reads_u32. lia.
  - by apply N.ltb_ge.
  - unfold len. rewrite Nat2N.id. by apply reads_n.
Qed.

Lemma consumes_counted {A} max (get : dec ReplError A) (P : A -> Prop) :
  consumes get (fun x _ => P x) ->
  consumes (get_counted max get) (fun xs _ => Forall P xs).
Proof.
  intros Hg d xs d' H. unfold get_counted in H.
  apply dec_bind_ok in H as (n & d1 & Hn & H). destruct (consumes_m_u32 _ _ _ Hn) as (b1 & R1 & _).
  apply dec_bind_ok in H as (u & d2 & Hu & H). apply dec_refuse_ok in Hu as [_ <-].
  destruct (consumes_n _ _ (N.to_nat n) Hg _ _ _ H) as (b2 & R2 & _ & bss & -> & HF).
  exists (b1 ++ concat bss). split; [by rewrite R1, R2, app_assoc|].
  clear -HF. induction HF as [|x b xs bss Hx _ IH]; by constructor.
Qed.

Lemma reads_tombstone t : tombstone_typed t -> reads get_tombstone (tombstone_bytes t) t.
Proof.
  intros (H1 & H2 & H3). destruct t; cbn in *. unfold get_tombstone, tombstone_bytes; cbn.
  reads_go; by apply reads_fixed.
Qed.

Lemma consumes_tombstone :
  consumes get_tombstone (fun t bs => bs = tombstone_bytes t /\ tombstone_typed t).
Proof.
  intros d t d' H. unfold get_tombstone in H. dec_step H.
  destruct Hr as [-> ?], Hr0 as [-> ?], Hr1 as [-> ?].
  eexists; split; [|split; [reflexivity|done]]. unfold tombstone_bytes; cbn. rewrite R, R0, R1.
  by rewrite <- !app_assoc.
Qed.

Lemma reads_element x : element_typed x -> reads get_element (element_bytes x) x.
Proof.
  intros (H1 & H2 & H3 & H4). destruct x; cbn in *. unfold get_element, element_bytes; cbn.
  reads_go; try by apply reads_fixed. apply reads_option.
  destruct re_predecessor0; [|done]. by apply reads_fixed.
Qed.

Lemma consumes_element :
  consumes get_element (fun x bs => bs = element_bytes x /\ element_typed x).
Proof.
  intros d x d' H. unfold get_element in H.
  apply dec_bind_ok in H as (id & d1 & Hid & H). destruct (consumes_fixed _ _ _ _ Hid) as (b1 & R1 & -> & ?).
  apply dec_bind_ok in H as (p & d2 & Hp & H).
  destruct (consumes_option _ _ _ (consumes_fixed 16) _ _ _ Hp) as (b2 & R2 & -> & ?). dec_step H.
  destruct Hr as [-> ?], Hr0 as [-> ?].
  eexists; split; [|split; [reflexivity|done]]. unfold element_bytes; cbn. rewrite R1, R2, R, R0.
  by rewrite <- !app_assoc.
Qed.

Lemma reads_value v :
  value_typed v -> len (rv_value v) <= MAX_DOMAIN_OP_BYTES -> reads get_value (value_bytes v) v.
Proof.
  intros [H1 H2] Hl. destruct v; cbn in *. unfold get_value, value_bytes; cbn. reads_go.
  - apply reads_mal, reads_bytes. unfold MAX_DOMAIN_OP_BYTES, u32_max in *. lia.
  - by apply N.ltb_ge.
  - by apply reads_fixed.
  - by apply reads_fixed.
Qed.

Lemma consumes_value : consumes get_value (fun v bs => bs = value_bytes v /\ value_typed v).
Proof.
  intros d v d' H. unfold get_value in H. dec_step H.
  destruct Hr as [-> ?], Hr1 as [-> ?], Hr2 as [-> ?].
  eexists; split; [|split; [reflexivity|done]]. unfold value_bytes; cbn. rewrite R, R0, R1.
  by rewrite <- !app_assoc.
Qed.

Lemma reads_conflict c :
  0 < len (rc_target c) <= MAX_RECOVERY_TARGET_BYTES -> 0 < len (rc_values c) <= MAX_CONFLICT_VALUES ->
  Forall (fun v => len (rv_value v) <= MAX_DOMAIN_OP_BYTES) (rc_values c) ->
  Forall value_typed (rc_values c) -> reads get_conflict (conflict_bytes c) c.
Proof.
  intros Ht Hn Hv Hy. destruct c as [t vs]; cbn in *. unfold get_conflict, conflict_bytes; cbn.
  unfold MAX_RECOVERY_TARGET_BYTES, MAX_CONFLICT_VALUES in *. reads_go.
  - apply reads_mal, reads_bytes. unfold u32_max. lia.
  - rewrite orb_false_iff, N.ltb_ge. split; [apply is_empty_pos; lia | lia].
  - apply reads_mal, reads_u8. unfold u8_max. lia.
  - rewrite orb_false_iff, N.eqb_neq, N.ltb_ge. lia.
  - unfold len. rewrite Nat2N.id. apply reads_n. rewrite Forall_forall in *. intros v Hin.
    apply reads_value; auto.
Qed.

Lemma consumes_conflict : consumes get_conflict (fun c _ => Forall value_typed (rc_values c)).
Proof.
  intros d c d' H. unfold get_conflict in H.
  apply dec_bind_ok in H as (t & d1 & Ht & H). destruct (consumes_m_bytes _ _ _ Ht) as (b1 & R1 & _).
  apply dec_bind_ok in H as (u & d2 & Hu & H). apply dec_refuse_ok in Hu as [_ <-].
  apply dec_bind_ok in H as (n & d3 & Hn & H). destruct (consumes_m_u8 _ _ _ Hn) as (b3 & R3 & _).
  apply dec_bind_ok in H as (u' & d4 & Hu & H). apply dec_refuse_ok in Hu as [_ <-].
  apply dec_bind_ok in H as (vs & d5 & Hv & H). apply dec_ret_ok in H as [<- <-].
  destruct (consumes_n _ _ _ consumes_value _ _ _ Hv) as (b5 & R5 & _ & bss & -> & HF).
  exists (b1 ++ b3 ++ concat bss). split; [by rewrite R1, R3, R5, <- !app_assoc|]. cbn.
  clear -HF. induction HF as [|x b xs bss [_ Hx] _ IH]; by constructor.
Qed.

Lemma reason_decode_tag r : reason_decode (reason_tag r) = Ok r.
Proof. by destruct r. Qed.

Lemma reads_Snapshot s :
  snapshot_typed s -> snapshot_bounded s -> len (sn_projection s) <= u32_max ->
  reads Snapshot_read (snapshot_bytes s) s.
Proof.
  intros [] [] Hp. unfold Snapshot_read, snapshot_bytes. destruct s; cbn in *.
  unfold MAX_LOGICAL_KEY_BYTES, MAX_RECOVERY_ITEMS, MAX_EPOCH_OPERATIONS, MAX_RECOVERY_CONFLICTS in *.
  reads_go.
  - by apply reads_mal, reads_u8.
  - done.
  - apply reads_mal, reads_u16, doc_tag_u16.
  - by rewrite doc_from_tag_tag.
  - apply reads_mal, reads_bytes. unfold u32_max. lia.
  - by apply reads_mal, reads_u64.
  - by apply reads_optional_hash.
  - apply reads_mal, reads_u8. by destruct sn_reason0.
  - apply reason_decode_tag.
  - by apply reads_mal, reads_bytes.
  - apply reads_counted; [done | done|]. eapply Forall_impl; [done|]. apply reads_tombstone.
  - apply reads_counted; [done | done|]. eapply Forall_impl; [done|]. apply reads_element.
  - apply reads_counted; [done | done|]. rewrite Forall_forall in *. intros c Hc.
    destruct (sb_each_conflict0 c Hc) as (? & ? & ?). apply reads_conflict; auto.
  - apply reads_counted; [done | done|]. eapply Forall_impl; [done|]. intros h ?. by apply reads_fixed.
Qed.

Lemma consumes_part {A} (m : dec ReplError A) enc (P : A -> Prop) :
  consumes m (fun x bs => bs = enc x /\ P x) -> consumes m (fun x _ => P x).
Proof. intros H. eapply consumes_weaken; [exact H|]. by intros x bs [_ ?]. Qed.

Lemma consumes_Snapshot : consumes Snapshot_read (fun s _ => snapshot_typed s).
Proof.
  pose proof (consumes_counted MAX_RECOVERY_ITEMS _ _ (consumes_part _ _ _ consumes_tombstone)) as Ct.
  pose proof (consumes_counted MAX_RECOVERY_ITEMS _ _ (consumes_part _ _ _ consumes_element)) as Ce.
  pose proof (consumes_counted MAX_RECOVERY_CONFLICTS _ _ consumes_conflict) as Cc.
  pose proof (consumes_counted MAX_RECOVERY_ITEMS _ _ (consumes_part _ _ _ (consumes_fixed 32))) as Ca.
  intros d s d' H. unfold Snapshot_read in H. dec_step H.
  destruct Hr4 as [-> ?], Hr5 as [-> ?].
  eexists; split; [rewrite R, R0, R1, R2, R3, R4, R5, R6, R7, R8, R9; rewrite !app_assoc; reflexivity|].
  by constructor.
Qed.

Lemma Snapshot_decode_spec bs s :
  Snapshot_decode bs = Ok s <-> snapshot_typed s /\ Snapshot_encode s = Ok bs.
Proof.
  unfold Snapshot_decode. split.
  - intros [Hl H]%refuse_if_bind_ok. apply bind_ok in H as (s' & Hr & H).
    apply bind_ok in H as (bs' & He & H). apply refuse_if_bind_ok in H as [Hne H].
    injection H as ->. apply bool_decide_eq_false, dec_stable in Hne as ->.
    split; [|done]. exact (run_exact_consumes _ _ _ _ Hr consumes_Snapshot).
  - intros [Ht He]. pose proof (proj1 (Snapshot_encode_ok s bs Ht) He) as (Hr & Hl & ->).
    rewrite refuse_if_bind_false by (by apply N.ltb_ge).
    pose proof (snapshot_refused_bounded s Hr) as Hb.
    assert (Hp : len (sn_projection s) <= u32_max).
    { rewrite (len_snapshot_bytes s Ht) in Hl. unfold snapshot_size, MAX_RECOVERY_SNAPSHOT_BYTES in Hl.
      unfold u32_max. lia. }
    rewrite (run_exact_reads _ _ _ (reads_Snapshot s Ht Hb Hp)), bind_Ok, He, bind_Ok.
    rewrite refuse_if_bind_false; [done|]. apply bool_decide_eq_false_2. by intros [].
Qed.

(** * The slots invariant *)

Section slots_invariant.
Context {C : Crypto}.

(** A snapshot a Rust value can be and the encoder accepts. *)
Definition snapshot_ok (s : RecoverySnapshot) : Prop :=
  snapshot_typed s /\ Snapshot_encode s = Ok (snapshot_bytes s).

Definition in_scope (scope : DocType * bytes) (s : RecoverySnapshot) : Prop :=
  scope.1 = sn_doc_type s /\ scope.2 = sn_logical_key s.

(** The identity of an encodable snapshot. *)
Definition id_of (s : RecoverySnapshot) : bytes :=
  hash_parts (bytes_of_string "catcoms-recovery:v1") [snapshot_bytes s].

Record slots_ok (sl : RecoverySlots) : Prop := mkSlotsOk {
  so_len : len (sl_retained sl) <= 2;
  so_staged : sl_staged sl <> None -> len (sl_retained sl) = 2;
  so_held : Forall snapshot_ok (held sl);
  so_scope : exists scope, Forall (in_scope scope) (held sl);
  so_ids : NoDup (id_of <$> held sl);
  so_time : opt_ok (fun st => st_staged_at_ms st <= u64_max) (sl_staged sl)
}.

Lemma snapshot_ok_encode s bs :
  snapshot_typed s -> Snapshot_encode s = Ok bs -> snapshot_ok s /\ bs = snapshot_bytes s.
Proof.
  intros Ht H. pose proof (proj1 (Snapshot_encode_ok s bs Ht) H) as (_ & _ & ->). by split; [split|].
Qed.

Lemma Snapshot_id_ok s : snapshot_ok s -> Snapshot_id s = Ok (id_of s).
Proof. intros [_ H]. unfold Snapshot_id. by rewrite H, bind_Ok. Qed.

Lemma snapshot_ok_len s : snapshot_ok s -> len (snapshot_bytes s) <= MAX_RECOVERY_SNAPSHOT_BYTES.
Proof. intros [Ht H]. by apply (Snapshot_encode_ok s _ Ht) in H as (_ & ? & _). Qed.

Lemma already_held_ok s id hs : Forall snapshot_ok hs ->
  (already_held s id hs = Ok false ->
   Forall (in_scope (sn_doc_type s, sn_logical_key s)) hs /\ Forall (fun h => id_of h <> id) hs) /\
  (Forall (in_scope (sn_doc_type s, sn_logical_key s)) hs ->
   already_held s id hs = Ok (bool_decide (id ∈ id_of <$> hs))).
Proof.
  induction 1 as [|h hs Hh _ [IH1 IH2]]; cbn [already_held]; [done|]. split.
  - intros [Hs H]%refuse_if_bind_ok. rewrite (Snapshot_id_ok h Hh), bind_Ok in H.
    case_bool_decide; [done|]. destruct (IH1 H). bool_simpl. split; constructor; try done.
  - intros [[Ht Hk] Hsc]%Forall_cons. cbn in Ht, Hk.
    rewrite refuse_if_bind_false; cycle 1.
    { apply orb_false_iff. split; apply bool_decide_eq_false_2; intros Hn; by apply Hn. }
    rewrite (Snapshot_id_ok h Hh), bind_Ok. destruct (decide (id_of h = id)) as [He|He].
    + rewrite !bool_decide_eq_true_2; [done | | done]. subst. apply list_elem_of_here.
    + rewrite (bool_decide_eq_false_2 (id_of h = id)) by done. rewrite IH2 by done. f_equal. apply bool_decide_ext. rewrite fmap_cons, elem_of_cons.
      split; [by right | intros [->|]; done].
Qed.

(** What [stage] does on well-formed slots. *)
Lemma stage_cases sl s now t sl' :
  slots_ok sl -> snapshot_typed s -> stage sl s now = Ok (t, sl') ->
  snapshot_ok s /\
  ((sl' = sl /\ id_of s ∈ id_of <$> held sl) \/
   (~ id_of s ∈ id_of <$> held sl /\ Forall (in_scope (sn_doc_type s, sn_logical_key s)) (held sl) /\
    sl_staged sl = None /\
    ((t = Promoted /\ len (sl_retained sl) < 2 /\ sl' = mkRecoverySlots (s :: sl_retained sl) None) \/
     (len (sl_retained sl) = 2 /\ sl' = mkRecoverySlots (sl_retained sl) (Some (mkStagedRecovery s now)) /\
      exists back, last (sl_retained sl) = Some back /\
        t = EvictionPending (id_of back) (id_of s) (grace_deadline now))))).
Proof.
  intros Hsl Ht H. unfold stage in H. apply bind_ok in H as (bs & He & H).
  destruct (snapshot_ok_encode _ _ Ht He) as [Hs ->]. split; [done|].
  rewrite (Snapshot_id_ok s Hs), bind_Ok in H. apply bind_ok in H as (found & Hf & H).
  destruct (already_held_ok s (id_of s) (held sl) (so_held _ Hsl)) as [Hno _].
  destruct found.
  - left. assert (E : sl' = sl).
    { destruct (sl_staged sl); [case_bool_decide|]; res_inv; try simplify_eq; done. }
    split; [done|]. clear H.
    revert Hf. generalize (so_held _ Hsl). generalize (held sl). clear. intros hs Hhs.
    induction Hhs as [|h hs Hh _ IH]; cbn [already_held]; [done|].
    intros [_ H]%refuse_if_bind_ok. rewrite (Snapshot_id_ok h Hh), bind_Ok in H.
    rewrite fmap_cons, elem_of_cons. case_bool_decide; [by left | right; by apply IH].
  - right. destruct (Hno Hf) as [Hsc Hni].
    apply refuse_if_bind_ok in H as [Hst H]. destruct (sl_staged sl) eqn:Es; [done|]. split.
    { intros (h & E & Hin)%list_elem_of_fmap. rewrite Forall_forall in Hni. by apply (Hni h). }
    split_and!; try done. pose proof (so_len _ Hsl).
    destruct (N.ltb_spec (len (sl_retained sl)) 2) as [Hl|Hl].
    + left. injection H as <- <-. done.
    + right. split; [lia|]. destruct (last (sl_retained sl)) as [back|] eqn:El; [|done].
      cbn [ok_or] in H. rewrite bind_Ok in H.
      assert (Hb : snapshot_ok back).
      { pose proof (so_held _ Hsl) as Hh. unfold held in Hh. apply Forall_app in Hh as [Hh _].
        rewrite Forall_forall in Hh. apply Hh. apply last_Some in El as [l' ->]. set_solver. }
      rewrite (Snapshot_id_ok back Hb), bind_Ok in H. injection H as <- <-. split; [done|].
      by exists back.
Qed.

Lemma retained_two sl st :
  slots_ok sl -> sl_staged sl = Some st ->
  exists a b, sl_retained sl = [a; b] /\ held sl = [a; b; st_snapshot st].
Proof.
  intros Hsl Hst. pose proof (so_staged _ Hsl) as Hl. rewrite Hst in Hl. specialize (Hl ltac:(done)).
  unfold held. rewrite Hst. destruct (sl_retained sl) as [|a [|b [|c l]]]; unfold len in Hl; cbn in Hl;
    try lia. by exists a, b.
Qed.

Lemma promote_shape sl st :
  slots_ok sl -> sl_staged sl = Some st ->
  exists a b, sl_retained sl = [a; b] /\ held sl = [a; b; st_snapshot st] /\
    promote_staged sl = (Promoted, mkRecoverySlots [st_snapshot st; a] None).
Proof.
  intros Hsl Hst. destruct (retained_two sl st Hsl Hst) as (a & b & Hr & Hh).
  exists a, b. split_and!; try done. unfold promote_staged. by rewrite Hst, Hr.
Qed.

Lemma promote_ok sl st :
  slots_ok sl -> sl_staged sl = Some st -> slots_ok (promote_staged sl).2.
Proof.
  intros Hsl Hst. destruct (promote_shape sl st Hsl Hst) as (a & b & Hr & Hh & ->).
  destruct Hsl. rewrite Hh in *. cbn. constructor; cbn; try done.
  - unfold held; cbn. rewrite !Forall_cons in so_held0. rewrite !Forall_cons. naive_solver.
  - destruct so_scope0 as [sc Hsc]. exists sc. unfold held; cbn.
    rewrite !Forall_cons in Hsc. rewrite !Forall_cons. naive_solver.
  - unfold held; cbn. cbn in so_ids0. rewrite !NoDup_cons in so_ids0. rewrite !NoDup_cons. set_solver.
Qed.

Lemma stage_ok sl s now t sl' :
  slots_ok sl -> snapshot_typed s -> now <= u64_max -> stage sl s now = Ok (t, sl') -> slots_ok sl'.
Proof.
  intros Hsl Ht Hn H. destruct (stage_cases _ _ _ _ _ Hsl Ht H) as [Hs [[-> _]|(Hni & Hsc & Hst & Hcase)]];
    [done|]. destruct Hsl.
  assert (Hheld : held sl = sl_retained sl) by (unfold held; rewrite Hst; cbn; apply app_nil_r).
  rewrite Hheld in *. destruct Hcase as [(_ & Hl & ->)|(Hl & -> & _)].
  - constructor; cbn; try done.
    + rewrite len_cons. lia.
    + unfold held; cbn. rewrite app_nil_r. by constructor.
    + unfold held; cbn. rewrite app_nil_r. eexists. constructor; [|exact Hsc]. done.
    + unfold held; cbn. rewrite app_nil_r. by constructor.
  - constructor; cbn; try done.
    + unfold held; cbn. apply Forall_app. by split; [|constructor].
    + unfold held; cbn. eexists. apply Forall_app. split; [exact Hsc | by repeat constructor].
    + unfold held; cbn. rewrite fmap_app. apply NoDup_app. split_and!; [done | | apply NoDup_singleton].
      intros x Hx ->%list_elem_of_singleton. by apply Hni.
Qed.

(** ** Events *)

Inductive slots_event : Type :=
| EvStage (snapshot : RecoverySnapshot) (now_ms : N)
| EvAcknowledge (oldest_snapshot staged_snapshot : bytes)
| EvAdvance (now_ms : N).

Definition slots_apply (ev : slots_event) (sl : RecoverySlots)
    : result ReplError (RecoveryTransition * RecoverySlots) :=
  match ev with
  | EvStage s now => stage sl s now
  | EvAcknowledge o st => acknowledge_eviction sl o st
  | EvAdvance now => Ok (advance_time sl now)
  end.

Definition event_typed (ev : slots_event) : Prop :=
  match ev with EvStage s now => snapshot_typed s /\ now <= u64_max | _ => True end.

(** Acknowledging and advancing either leave the slots alone or promote. *)
Lemma event_promotes ev sl t sl' :
  slots_ok sl -> slots_apply ev sl = Ok (t, sl') ->
  match ev with
  | EvStage _ _ => True
  | EvAcknowledge o s => exists st back, sl_staged sl = Some st /\ last (sl_retained sl) = Some back /\
      Snapshot_id back = Ok o /\ Snapshot_id (st_snapshot st) = Ok s /\ (t, sl') = promote_staged sl
  | EvAdvance now => (t = Unchanged /\ sl' = sl) \/
      exists st, sl_staged sl = Some st /\ grace_deadline (st_staged_at_ms st) <= now /\
        (t, sl') = promote_staged sl
  end.
Proof.
  intros Hsl H. destruct ev as [s now|o s|now]; cbn in H; [done| |].
  - unfold acknowledge_eviction in H. destruct (last (sl_retained sl)) as [back|]; [|done].
    cbn [ok_or] in H. rewrite bind_Ok in H. apply bind_ok in H as (ao & Ho & H).
    destruct (sl_staged sl) as [st|]; [|done]. cbn [ok_or] in H. rewrite bind_Ok in H.
    apply bind_ok in H as (as_ & Hs & H). apply refuse_if_bind_ok in H as [Hr H]. bool_simpl. subst.
    exists st, back. split_and!; try done. congruence.
  - unfold advance_time in H. destruct (sl_staged sl) as [st|]; [|injection H as <- <-; by left].
    destruct (N.ltb_spec now (grace_deadline (st_staged_at_ms st))).
    + injection H as <- <-. by left.
    + right. exists st. split_and!; try done. congruence.
Qed.

Lemma event_ok ev sl t sl' :
  slots_ok sl -> event_typed ev -> slots_apply ev sl = Ok (t, sl') -> slots_ok sl'.
Proof.
  intros Hsl Hev H. pose proof (event_promotes _ _ _ _ Hsl H) as Hp.
  destruct ev as [s now|o s|now].
  - destruct Hev. by eapply stage_ok.
  - destruct Hp as (st & back & Hst & _ & _ & _ & E). change sl' with (t, sl').2. rewrite E.
    by eapply promote_ok.
  - destruct Hp as [[_ ->]|(st & Hst & _ & E)]; [done|]. change sl' with (t, sl').2. rewrite E.
    by eapply promote_ok.
Qed.
End slots_invariant.

(** * Slots persistence lemmas *)

Section slots_codec.
Context {C : Crypto}.

Definition snapshot_field (s : RecoverySnapshot) : bytes := lp (snapshot_bytes s).
Definition staged_bytes (st : StagedRecovery) : bytes :=
  be_bytes 8 (st_staged_at_ms st) ++ snapshot_field (st_snapshot st).
Definition slots_bytes (sl : RecoverySlots) : bytes :=
  be_bytes 1 1 ++ be_bytes 1 (len (sl_retained sl)) ++
  concat (snapshot_field <$> sl_retained sl) ++ opt_bytes staged_bytes (sl_staged sl).

Lemma put_snapshot_ok s e : snapshot_ok s -> put_snapshot s e = Ok (e ++ snapshot_field s).
Proof.
  intros H. pose proof (snapshot_ok_len s H) as Hl. destruct H as [_ H]. unfold put_snapshot.
  rewrite H, bind_Ok. apply put_bytes_b_ok. unfold MAX_RECOVERY_SNAPSHOT_BYTES, u32_max in *. lia.
Qed.

Lemma len_snapshot_field s :
  snapshot_ok s -> len (snapshot_field s) <= 4 + MAX_RECOVERY_SNAPSHOT_BYTES.
Proof. intros H. pose proof (snapshot_ok_len s H). unfold snapshot_field. rewrite len_lp. lia. Qed.

Lemma held_split sl : Forall snapshot_ok (held sl) ->
  Forall snapshot_ok (sl_retained sl) /\ opt_ok (fun st => snapshot_ok (st_snapshot st)) (sl_staged sl).
Proof.
  unfold held. rewrite Forall_app. intros [H1 H2]. split; [done|].
  destruct (sl_staged sl) as [st|]; [|done]. exact (proj1 (proj1 (Forall_cons _ _ _) H2)).
Qed.

Lemma len_slots_bytes sl : slots_ok sl -> len (slots_bytes sl) <= MAX_RECOVERY_SLOTS_BYTES.
Proof.
  intros Hsl. destruct (held_split sl (so_held _ Hsl)) as [Hr Hs]. pose proof (so_len _ Hsl) as Hl.
  unfold slots_bytes. rewrite !len_app, !len_be_bytes, len_opt_bytes.
  assert (len (concat (snapshot_field <$> sl_retained sl)) <= (4 + MAX_RECOVERY_SNAPSHOT_BYTES) * 2).
  { rewrite len_concat.
    etrans; [apply (sum_of_bound _ (4 + MAX_RECOVERY_SNAPSHOT_BYTES))|].
    - eapply Forall_impl; [exact Hr|]. apply len_snapshot_field.
    - apply N.mul_le_mono_l. lia. }
  destruct (sl_staged sl) as [st|]; unfold MAX_RECOVERY_SLOTS_BYTES; [|lia].
  cbn in Hs. unfold staged_bytes. rewrite len_app, len_be_bytes.
  pose proof (len_snapshot_field _ Hs). lia.
Qed.

Lemma Slots_encode_ok sl : slots_ok sl -> Slots_encode sl = Ok (slots_bytes sl).
Proof.
  intros Hsl. destruct (held_split sl (so_held _ Hsl)) as [Hr Hs]. unfold Slots_encode.
  rewrite refuse_if_bind_false; cycle 1.
  { apply orb_false_iff. split; [apply N.ltb_ge, Hsl|]. pose proof (so_staged _ Hsl) as Hst.
    destruct (sl_staged sl); [|done]. apply negb_false_iff, N.eqb_eq, Hst. done. }
  rewrite (try_each_ok _ snapshot_field), bind_Ok; cycle 1.
  { eapply Forall_impl; [exact Hr|]. intros s H e. by apply put_snapshot_ok. }
  eapply bind_step.
  - instantiate (1 := slots_bytes sl). unfold slots_bytes. destruct (sl_staged sl) as [st|].
    + rewrite put_snapshot_ok by done. unfold opt_bytes, staged_bytes, put_u8, put_u64.
      by rewrite <- !app_assoc.
    + unfold opt_bytes, put_u8. by rewrite <- !app_assoc.
  - rewrite refuse_if_bind_false; [done|]. apply N.ltb_ge. by apply len_slots_bytes.
Qed.

Lemma reads_snapshot_field s : snapshot_ok s -> reads get_snapshot (snapshot_field s) s.
Proof.
  intros H. pose proof (snapshot_ok_len s H) as Hl. unfold get_snapshot, snapshot_field.
  eapply reads_bind_last.
  - apply reads_mal, reads_bytes. unfold MAX_RECOVERY_SNAPSHOT_BYTES, u32_max in *. lia.
  - apply reads_lift_ok. by apply Snapshot_decode_spec.
Qed.

Lemma consumes_snapshot_field : consumes get_snapshot (fun s _ => snapshot_ok s).
Proof.
  intros d s d' H. unfold get_snapshot in H. dec_step H. destruct Hr as [-> _].
  apply Snapshot_decode_spec in H as [Ht He]. eexists; split; [exact R|].
  by destruct (snapshot_ok_encode _ _ Ht He).
Qed.

Lemma reads_Slots sl : slots_ok sl -> reads Slots_read (slots_bytes sl) sl.
Proof.
  intros Hsl. destruct (held_split sl (so_held _ Hsl)) as [Hr Hs].
  pose proof (so_len _ Hsl) as Hl. pose proof (so_time _ Hsl) as Ht. destruct sl as [rs st].
  unfold Slots_read, slots_bytes. cbn [sl_retained sl_staged] in *. reads_go.
  - by apply reads_mal, reads_u8.
  - done.
  - apply reads_mal, reads_u8. unfold u8_max. lia.
  - by apply N.ltb_ge.
  - unfold len. rewrite Nat2N.id. apply reads_n. eapply Forall_impl; [exact Hr|]. apply reads_snapshot_field.
  - apply reads_option. destruct st as [[s t]|]; [|done]. cbn in *. unfold staged_bytes. cbn [st_staged_at_ms st_snapshot].
    reads_go; [by apply reads_mal, reads_u64 | by apply reads_snapshot_field].
Qed.

Lemma consumes_Slots : consumes Slots_read (fun sl _ =>
  Forall snapshot_ok (held sl) /\ opt_ok (fun st => st_staged_at_ms st <= u64_max) (sl_staged sl)).
Proof.
  intros d sl d' H. unfold Slots_read in H.
  apply dec_bind_ok in H as (v & d1 & Hv & H). destruct (consumes_m_u8 _ _ _ Hv) as (b1 & R1 & _).
  apply dec_bind_ok in H as (u & d2 & Hu & H). apply dec_refuse_ok in Hu as [_ <-].
  apply dec_bind_ok in H as (n & d3 & Hn & H). destruct (consumes_m_u8 _ _ _ Hn) as (b3 & R3 & _).
  apply dec_bind_ok in H as (u' & d4 & Hu & H). apply dec_refuse_ok in Hu as [_ <-].
  apply dec_bind_ok in H as (rs & d5 & Hrs & H).
  destruct (consumes_n _ _ _ consumes_snapshot_field _ _ _ Hrs) as (b5 & R5 & _ & bss & -> & HF).
  apply dec_bind_ok in H as (st & d6 & Hst & H). apply dec_ret_ok in H as [<- <-].
  assert (Hrok : Forall snapshot_ok rs).
  { clear -HF. induction HF as [|x b xs bss Hx _ IH]; by constructor. }
  unfold get_option in Hst. apply dec_bind_ok in Hst as (tag & d7 & Htag & Hst).
  destruct (consumes_m_u8 _ _ _ Htag) as (b7 & R7 & _).
  destruct (tag =? 0); [|destruct (tag =? 1); [|done]].
  - apply dec_ret_ok in Hst as [<- <-]. eexists. split; [by rewrite R1, R3, R5, R7, !app_assoc|].
    unfold held; cbn. rewrite app_nil_r. done.
  - pose proof consumes_snapshot_field as Cs. dec_step Hst. destruct Hr0 as [-> ?].
    eexists. split; [by rewrite R1, R3, R5, R7, R, R0, !app_assoc|].
    unfold held; cbn. split; [|done]. apply Forall_app. by split; [|apply Forall_singleton].
Qed.

Lemma check_slots_ok scope ids hs : Forall snapshot_ok hs ->
  check_slots scope ids hs = Ok tt <->
  (exists sc, Forall (in_scope sc) hs /\ match scope with Some s => hs <> [] -> sc = s | None => True end) /\
  NoDup (id_of <$> hs) /\ Forall (fun h => ~ id_of h ∈ ids) hs.
Proof.
  intros Hhs. revert scope ids. induction Hhs as [|h hs Hh _ IH]; intros scope ids; cbn [check_slots].
  - split; [|done]. intros _. split_and!; [|constructor|done].
    destruct scope as [s|]; [by exists s | by exists (StudioIndex, [])].
  - rewrite (Snapshot_id_ok h Hh), fmap_cons, NoDup_cons, Forall_cons. split.
    + intros [Hs H]%refuse_if_bind_ok. rewrite bind_Ok in H. apply refuse_if_bind_ok in H as [Hn H].
      apply bool_decide_eq_false in Hn. apply IH in H as ((sc & Hsc & Heq) & Hnd & Hni).
      assert (Hin : in_scope (default (sn_doc_type h, sn_logical_key h) scope) h).
      { destruct scope as [[t k]|]; cbn; bool_simpl; by split. }
      split_and!; try done.
      * exists (default (sn_doc_type h, sn_logical_key h) scope). split.
        -- apply Forall_cons. split; [done|]. destruct hs; [done|]. by rewrite <- Heq.
        -- by destruct scope.
      * intros (x & E & Hx)%list_elem_of_fmap. rewrite Forall_forall in Hni.
        apply (Hni x Hx). rewrite <- E. apply list_elem_of_here.
      * eapply Forall_impl; [exact Hni|]. intros x Hx Hi. apply Hx. by apply list_elem_of_further.
    + intros ((sc & [Hsc1 Hsc]%Forall_cons & Heq) & [Hnh Hnd] & Hnid & Hni).
      assert (Hd : default (sn_doc_type h, sn_logical_key h) scope = sc).
      { destruct Hsc1 as [E1 E2]. destruct scope; cbn; [by rewrite Heq | destruct sc; cbn in *; congruence]. }
      rewrite refuse_if_bind_false; cycle 1.
      { destruct scope as [[t k]|]; [|done]. cbn in Hd. subst sc. destruct Hsc1 as [E1 E2]. cbn in *.
        apply orb_false_iff. split; apply bool_decide_eq_false_2; intros Hx; by apply Hx. }
      rewrite bind_Ok, refuse_if_bind_false by (by apply bool_decide_eq_false_2).
      apply IH. rewrite Hd. split_and!; [by exists sc | done |].
      rewrite Forall_forall in *. intros x Hx. rewrite elem_of_cons. intros [E|Hi]; [|by apply (Hni x)].
      apply Hnh. rewrite <- E. by apply list_elem_of_fmap_2.
Qed.

Lemma Slots_decode_ok sl : slots_ok sl -> Slots_decode (slots_bytes sl) = Ok sl.
Proof.
  intros Hsl. unfold Slots_decode.
  rewrite refuse_if_bind_false by (apply N.ltb_ge; by apply len_slots_bytes).
  rewrite (run_exact_reads _ _ _ (reads_Slots sl Hsl)), bind_Ok.
  eapply bind_step.
  { apply check_slots_ok; [by apply so_held|]. destruct (so_scope _ Hsl) as [sc Hsc].
    split_and!; [by exists sc | by apply so_ids | apply Forall_true; by intros x ?%not_elem_of_nil]. }
  rewrite (Slots_encode_ok sl Hsl), bind_Ok.
  rewrite refuse_if_bind_false; [done|]. apply bool_decide_eq_false_2. by intros [].
Qed.

Lemma Slots_decode_inv input sl :
  Slots_decode input = Ok sl -> slots_ok sl /\ Slots_encode sl = Ok input.
Proof.
  unfold Slots_decode. intros [_ H]%refuse_if_bind_ok. apply bind_ok in H as (sl' & Hr & H).
  apply bind_ok in H as ([] & Hc & H). apply bind_ok in H as (bs & He & H).
  apply refuse_if_bind_ok in H as [Hne H]. injection H as ->.
  apply bool_decide_eq_false, dec_stable in Hne as ->.
  destruct (run_exact_consumes _ _ _ _ Hr consumes_Slots) as [Hh Ht].
  apply check_slots_ok in Hc as ((sc & Hsc & _) & Hnd & _); [|done].
  split; [|done]. pose proof He as He'. unfold Slots_encode in He'. apply refuse_if_bind_ok in He' as [Hl _].
  apply orb_false_iff in Hl as [Hl Hst]. apply N.ltb_ge in Hl.
  constructor; try done; [|by exists sc]. intros Hs. destruct (sl_staged sl); [|done].
  by apply negb_false_iff, N.eqb_eq in Hst.
Qed.
End slots_codec.

(** * Properties *)

(** The size preflight is exact and the snapshot codec is canonical. For
    any snapshot the preflight passes exactly when the encoding it would
    produce is within 6 MiB, so encoding never builds an oversized buffer; and
    bytes decode to a snapshot exactly when that snapshot, with fields of the
    fixed widths, encodes to them: ordering, count and size bounds included. *)
Theorem snapshot_codec_exact (s : RecoverySnapshot) (bs : bytes) :
  (snapshot_typed s ->
   (check_encoded_size s = Ok tt <-> len (snapshot_bytes s) <= MAX_RECOVERY_SNAPSHOT_BYTES) /\
   (Snapshot_encode s = Ok bs <->
    snapshot_refused s = false /\ check_encoded_size s = Ok tt /\ bs = snapshot_bytes s)) /\
  (Snapshot_decode bs = Ok s <-> snapshot_typed s /\ Snapshot_encode s = Ok bs).
Proof.
  split; [|apply Snapshot_decode_spec]. intros Ht.
  pose proof (check_encoded_size_ok s) as Hs. rewrite <- (len_snapshot_bytes s Ht) in Hs.
  split; [done|]. rewrite (Snapshot_encode_ok s bs Ht). by rewrite Hs.
Qed.

Inductive slots_step {C : Crypto} : RecoverySlots -> RecoverySlots -> Prop :=
| ss_event ev t sl sl' : event_typed ev -> slots_apply ev sl = Ok (t, sl') -> slots_step sl sl'.

Lemma slots_default_ok {C : Crypto} : slots_ok RecoverySlots_default.
Proof. constructor; cbn; try done. - by exists (StudioIndex, []). - apply NoDup_nil_2. Qed.

Lemma slots_run_ok {C : Crypto} sl sl' : rtc slots_step sl sl' -> slots_ok sl -> slots_ok sl'.
Proof.
  induction 1 as [|x y z Hs _ IH]; [done|]. intros Hx. apply IH. destruct Hs as [ev t sl sl' He H].
  by eapply event_ok.
Qed.

(** Crash safety of the recovery slots. However staging, acknowledgements
    and clock advances interleave, at most two snapshots are retained, a third
    is staged only while both slots are full, all are of one document with
    distinct identities, and the slots encode within their cap and decode to
    exactly the same staged step and clock. Conversely bytes that decode are
    well-formed slots' own encoding. *)
Theorem slots_crash_safe {C : Crypto} sl :
  rtc slots_step RecoverySlots_default sl ->
  (slots_ok sl /\ exists bs, Slots_encode sl = Ok bs /\ len bs <= MAX_RECOVERY_SLOTS_BYTES /\
     Slots_decode bs = Ok sl) /\
  (forall input sl', Slots_decode input = Ok sl' -> Slots_encode sl' = Ok input /\ slots_ok sl').
Proof.
  intros Hr. pose proof (slots_run_ok _ _ Hr slots_default_ok) as Hsl.
  split; [|intros input sl' E; by destruct (Slots_decode_inv _ _ E)]. split; [done|].
  exists (slots_bytes sl).
  split_and!; [by apply Slots_encode_ok | by apply len_slots_bytes | by apply Slots_decode_ok].
Qed.

(** C25: no recovery snapshot disappears silently. If an event loses a snapshot
    that was held, that snapshot was the oldest retained one, a staged snapshot
    takes its place, and the event is either an acknowledgement naming both
    exact identities or a clock reading at or after the staged snapshot's full
    seven-day deadline; staging never evicts. *)
Theorem no_silent_eviction {C : Crypto} sl ev t sl' h :
  slots_ok sl -> event_typed ev -> slots_apply ev sl = Ok (t, sl') -> h ∈ held sl -> ~ h ∈ held sl' ->
  exists st, sl_staged sl = Some st /\ last (sl_retained sl) = Some h /\
    t = Promoted /\ st_snapshot st ∈ sl_retained sl' /\
    match ev with
    | EvStage _ _ => False
    | EvAcknowledge o s => Snapshot_id h = Ok o /\ Snapshot_id (st_snapshot st) = Ok s
    | EvAdvance now => grace_deadline (st_staged_at_ms st) <= now
    end.
Proof.
  intros Hsl Hev H Hin Hout. pose proof (event_promotes _ _ _ _ Hsl H) as Hp.
  assert (Hpro : forall st, sl_staged sl = Some st -> (t, sl') = promote_staged sl ->
    last (sl_retained sl) = Some h /\ t = Promoted /\ st_snapshot st ∈ sl_retained sl').
  { intros st Hst E. destruct (promote_shape sl st Hsl Hst) as (a & b & Hr & Hh & Hpr).
    rewrite Hpr in E. injection E as -> ->. rewrite Hr. unfold held in Hout; cbn in Hout.
    rewrite Hh in Hin. cbn. split_and!; [f_equal; set_solver | done | set_solver]. }
  destruct ev as [s now|o s|now].
  - exfalso. destruct Hev as [Ht _]. apply Hout.
    destruct (stage_cases _ _ _ _ _ Hsl Ht H) as [_ [[-> _]|(_ & _ & Hst & [(_ & _ & ->)|(_ & -> & _)])]];
      [done| |]; unfold held in *; rewrite Hst in Hin; cbn in *; set_solver.
  - destruct Hp as (st & back & Hst & Hb & Ho & Hs & E). destruct (Hpro st Hst E) as (Hl & Ht & Hi).
    exists st. rewrite Hl in Hb. injection Hb as <-. by split_and!.
  - destruct Hp as [[_ ->]|(st & Hst & Hd & E)]; [done|]. destruct (Hpro st Hst E) as (Hl & Ht & Hi).
    exists st. by split_and!.
Qed.

Lemma pending_shape {C : Crypto} sl st :
  slots_ok sl -> sl_staged sl = Some st ->
  exists back, last (sl_retained sl) = Some back /\
  pending_transition sl =
    Ok (EvictionPending (id_of back) (id_of (st_snapshot st)) (grace_deadline (st_staged_at_ms st))).
Proof.
  intros Hsl Hst. destruct (retained_two sl st Hsl Hst) as (a & b & Hr & Hh).
  pose proof (so_held _ Hsl) as HF. rewrite Hh, !Forall_cons in HF. destruct HF as (_ & Hb & Hs & _).
  exists b. split; [by rewrite Hr|]. unfold pending_transition. rewrite Hst. cbn [ok_or]. rewrite bind_Ok, Hr.
  cbn [last ok_or]. by rewrite bind_Ok, (Snapshot_id_ok b Hb), bind_Ok, (Snapshot_id_ok _ Hs), bind_Ok.
Qed.

Lemma stage_held {C : Crypto} sl s now :
  slots_ok sl -> snapshot_ok s -> Forall (in_scope (sn_doc_type s, sn_logical_key s)) (held sl) ->
  id_of s ∈ id_of <$> held sl ->
  stage sl s now = match sl_staged sl with
                   | Some st => if bool_decide (id_of (st_snapshot st) = id_of s)
                                then (t ← pending_transition sl; Ok (t, sl)) else Ok (Unchanged, sl)
                   | None => Ok (Unchanged, sl)
                   end.
Proof.
  intros Hsl Hs Hsc Hin. unfold stage. rewrite (proj2 Hs), bind_Ok, (Snapshot_id_ok s Hs), bind_Ok.
  rewrite (proj2 (already_held_ok s (id_of s) (held sl) (so_held _ Hsl)) Hsc), bind_Ok.
  rewrite bool_decide_eq_true_2 by done. destruct (sl_staged sl) as [st|] eqn:Hst; [|done].
  destruct (held_split sl (so_held _ Hsl)) as [_ Hok]. rewrite Hst in Hok. cbn in Hok.
  rewrite (Snapshot_id_ok _ Hok). repeat case_bool_decide; congruence || done.
Qed.

(** Staging a held snapshot ignores the clock. *)
Lemma stage_found {C : Crypto} sl s now t sl' later :
  slots_ok sl -> snapshot_typed s -> id_of s ∈ id_of <$> held sl -> stage sl s now = Ok (t, sl') ->
  stage sl s later = Ok (match t with EvictionPending _ _ _ => t | _ => Unchanged end, sl).
Proof.
  intros Hsl Ht Hin H. destruct (stage_cases _ _ _ _ _ Hsl Ht H) as [Hs [[-> _]|(Hni & _)]]; [|done].
  unfold stage in *. rewrite (proj2 Hs), bind_Ok, (Snapshot_id_ok s Hs), bind_Ok in *.
  apply bind_ok in H as (found & Hf & H). rewrite Hf, bind_Ok. destruct found.
  - destruct (sl_staged sl) as [st|] eqn:Hst; [|by injection H as <-].
    destruct (pending_shape sl st Hsl Hst) as (back & _ & Hp). rewrite Hp, bind_Ok in *.
    case_bool_decide; by injection H as <-.
  - destruct (already_held_ok s (id_of s) (held sl) (so_held _ Hsl)) as [Hno _].
    destruct (Hno Hf) as [_ Hni]. apply list_elem_of_fmap in Hin as (h & E & Hh).
    rewrite Forall_forall in Hni. by destruct (Hni h Hh).
Qed.

(** Staging is idempotent. Staging the same snapshot again, at any later
    time, leaves the slots unchanged; if the first call raised an eviction
    warning, the repeated call returns that exact warning with the original
    deadline, so retries cannot restart the grace period. *)
Theorem stage_idempotent {C : Crypto} sl s now t sl' later :
  slots_ok sl -> snapshot_typed s -> now <= u64_max -> stage sl s now = Ok (t, sl') ->
  stage sl' s later =
    Ok (match t with EvictionPending _ _ _ => t | _ => Unchanged end, sl').
Proof.
  intros Hsl Ht Hn H. pose proof (stage_ok _ _ _ _ _ Hsl Ht Hn H) as Hsl'.
  destruct (stage_cases _ _ _ _ _ Hsl Ht H) as [Hs [[-> Hin]|(_ & Hsc & Hst & Hcase)]];
    [by eapply stage_found|].
  assert (Hheld : held sl = sl_retained sl) by (unfold held; rewrite Hst; cbn; apply app_nil_r).
  rewrite Hheld in Hsc. destruct Hcase as [(-> & _ & ->)|(_ & -> & back & Hb & ->)].
  - rewrite stage_held; [done | done | done | | unfold held; cbn; left].
    unfold held; cbn. rewrite app_nil_r. by constructor.
  - rewrite stage_held; [ | done | done | |].
    + cbn [sl_staged st_snapshot]. rewrite bool_decide_eq_true_2 by done.
      destruct (pending_shape _ _ Hsl' eq_refl) as (back' & Hb' & ->). cbn in Hb'.
      rewrite Hb in Hb'. injection Hb' as <-. done.
    + unfold held; cbn. apply Forall_app. by split; [|repeat constructor].
    + unfold held; cbn. rewrite fmap_app. set_solver.
Qed.

(** ** Witnesses *)

Definition toy_snapshot (n : N) : RecoverySnapshot :=
  mkRecoverySnapshot StudioObject [x03] n None Excluded [x05; x06]
    [mkRecoveryTombstone (be_bytes 16 1) (be_bytes 32 2) (be_bytes 32 3)]
    [mkRecoveryElement (be_bytes 16 4) (Some (be_bytes 16 1)) (be_bytes 32 5) (be_bytes 32 3)]
    [mkRecoveryConflict [x07] [mkRecoveryConflictValue [x08] (be_bytes 32 9) (be_bytes 32 3)]]
    [be_bytes 32 2; be_bytes 32 5].

Lemma toy_snapshot_typed n : n <= u64_max -> snapshot_typed (toy_snapshot n).
Proof. intros H. by repeat constructor. Qed.

Definition apply_or_same (ev : slots_event) (sl : RecoverySlots) : RecoverySlots :=
  match slots_apply (C:=toy_crypto) ev sl with Ok (_, sl') => sl' | Err _ => sl end.

Definition toy_slots1 : RecoverySlots := apply_or_same (EvStage (toy_snapshot 1) 10) RecoverySlots_default.
Definition toy_slots2 : RecoverySlots := apply_or_same (EvStage (toy_snapshot 2) 20) toy_slots1.
Definition toy_slots3 : RecoverySlots := apply_or_same (EvStage (toy_snapshot 3) 30) toy_slots2.
Definition toy_slots4 : RecoverySlots := apply_or_same (EvAdvance (30 + RECOVERY_GRACE_MS)) toy_slots3.

Definition toy_warning : RecoveryTransition :=
  EvictionPending (id_of (C:=toy_crypto) (toy_snapshot 1)) (id_of (C:=toy_crypto) (toy_snapshot 3))
    (30 + RECOVERY_GRACE_MS).

Lemma toy_slots_run2 : rtc (slots_step (C:=toy_crypto)) RecoverySlots_default toy_slots2.
Proof.
  apply rtc_l with (y := toy_slots1).
  { apply (ss_event (EvStage (toy_snapshot 1) 10) Promoted); [split; [by apply toy_snapshot_typed | done] | by vm_compute]. }
  apply rtc_once.
  apply (ss_event (EvStage (toy_snapshot 2) 20) Promoted); [split; [by apply toy_snapshot_typed | done] | by vm_compute].
Qed.

Lemma toy_slots_run : rtc (slots_step (C:=toy_crypto)) RecoverySlots_default toy_slots3.
Proof.
  eapply rtc_r; [exact toy_slots_run2|].
  apply (ss_event (EvStage (toy_snapshot 3) 30) toy_warning); [split; [by apply toy_snapshot_typed | done] | by vm_compute].
Qed.

Lemma toy_slots3_ok : slots_ok (C:=toy_crypto) toy_slots3.
Proof. apply (slots_run_ok _ _ toy_slots_run), slots_default_ok. Qed.

Lemma slots_crash_safe_witness :
  exists bs, Slots_encode toy_slots3 = Ok bs /\ Slots_decode (C:=toy_crypto) bs = Ok toy_slots3.
Proof.
  destruct (slots_crash_safe (C:=toy_crypto) toy_slots3 toy_slots_run) as [(_ & bs & He & _ & Hd) _].
  exact (ex_intro _ bs (conj He Hd)).
Defined.

Lemma no_silent_eviction_witness :
  exists st, sl_staged toy_slots3 = Some st /\ last (sl_retained toy_slots3) = Some (toy_snapshot 1).
Proof.
  destruct (no_silent_eviction (C:=toy_crypto) toy_slots3 (EvAdvance (30 + RECOVERY_GRACE_MS)) Promoted
    toy_slots4 (toy_snapshot 1) toy_slots3_ok) as (st & H1 & H2 & _).
  - exact I.
  - by vm_compute.
  - assert (E : bool_decide (toy_snapshot 1 ∈ held toy_slots3) = true) by by vm_compute.
    exact (bool_decide_eq_true_1 _ E).
  - assert (E : bool_decide (toy_snapshot 1 ∈ held toy_slots4) = false) by by vm_compute.
    exact (bool_decide_eq_false_1 _ E).
  - exact (ex_intro _ st (conj H1 H2)).
Defined.

Lemma stage_idempotent_witness :
  stage (C:=toy_crypto) toy_slots3 (toy_snapshot 3) 5000 = Ok (toy_warning, toy_slots3).
Proof.
  refine (stage_idempotent (C:=toy_crypto) toy_slots2 (toy_snapshot 3) 30 toy_warning toy_slots3 5000 _ _ _ _).
  - apply (slots_run_ok _ _ toy_slots_run2), slots_default_ok.
  - by apply toy_snapshot_typed.
  - by vm_compute.
  - by vm_compute.
Defined.
