(* ===== verification/Blob.v ===== *)
(** The blob store of [crates/catcoms-storage/src/blob.rs] and [cid.rs]: the
    [BlobStore] operations that retention relies on, as an interface with its
    laws, and [MemoryBlobStore], the size-bounded FIFO store, which implements
    it. *)

From S2P Require Import Prelude Pad Crypto.
From stdpp Require Import base list gmap relations.
From Stdlib Require Import Init.Byte.
Local Open Scope N_scope.

(** [Cid]: 32 raw digest bytes. *)
Abbreviation Cid := bytes (only parsing).

Definition Cid_of `{C : Crypto} (data : bytes) : Cid := blake3 data.

(** * The interface *)

Class BlobStore (S : Type) := {
  store_put : S -> bytes -> result StorageError Cid * S;
  store_has : S -> Cid -> bool;
  store_delete : S -> Cid -> result StorageError bool * S
}.

(** What the trait documents: a put returns the address of the bytes and adds
    nothing else; a delete touches no other blob and never adds one, whether it
    succeeds or fails. A store may refuse or retain on delete, and may evict on
    put. *)
Class BlobStoreLaws `{C : Crypto} (S : Type) `{BlobStore S} : Prop := {
  put_address : forall s data c s', store_put s data = (Ok c, s') -> c = Cid_of data;
  put_adds_only : forall s data x,
    store_has (store_put s data).2 x = true -> store_has s x = true \/ x = Cid_of data;
  delete_only : forall s c x, x <> c -> store_has (store_delete s c).2 x = store_has s x;
  delete_adds_nothing : forall s c,
    store_has (store_delete s c).2 c = true -> store_has s c = true
}.

(** * The in-memory store *)

Definition DEFAULT_BLOB_BUDGET : N := 128 * 1024 * 1024.

(** [ms_read_epoch] numbers the generations of [ReadEpoch]: [retire] starts a new one. *)
Record MemoryBlobStore := mkMemoryBlobStore {
  ms_blobs : gmap bytes bytes;
  ms_staged : gmap bytes bytes;
  ms_order : list Cid;
  ms_total_bytes : N;
  ms_max_bytes : N;
  ms_read_epoch : N
}.

Definition with_budget (max_bytes : N) : MemoryBlobStore :=
  mkMemoryBlobStore ∅ ∅ [] 0 max_bytes 0.

(** The [while] loop of [evict_to_budget]; each turn pops one entry of the order. *)
Fixpoint evict_loop (max : N) (blobs : gmap bytes bytes) (total epoch : N) (order : list Cid)
    : gmap bytes bytes * N * N * list Cid :=
  match order with
  | old :: ((_ :: _) as rest) =>
      if max <? total then
        match blobs !! old with
        | Some b => evict_loop max (delete old blobs) (total - len b) (epoch + 1) rest
        | None => evict_loop max blobs total epoch rest
        end
      else (blobs, total, epoch, order)
  | _ => (blobs, total, epoch, order)
  end.

Definition evict_to_budget (s : MemoryBlobStore) : MemoryBlobStore :=
  let '(blobs, total, epoch, order) :=
    evict_loop (ms_max_bytes s) (ms_blobs s) (ms_total_bytes s) (ms_read_epoch s) (ms_order s) in
  mkMemoryBlobStore blobs (ms_staged s) order total (ms_max_bytes s) epoch.

Section memory_store.
Context {C : Crypto}.

(** [verify] *)
Definition verify (cid : Cid) (data : bytes) : result StorageError bytes :=
  if bool_decide (Cid_of data = cid) then Ok data else Err CidMismatch.

Definition mem_put (s : MemoryBlobStore) (data : bytes) : Cid * MemoryBlobStore :=
  let cid := Cid_of data in
  match ms_blobs s !! cid with
  | Some _ => (cid, s)
  | None =>
      (cid, evict_to_budget
              (mkMemoryBlobStore (<[cid := data]> (ms_blobs s)) (ms_staged s)
                 (ms_order s ++ [cid]) (ms_total_bytes s + len data) (ms_max_bytes s)
                 (ms_read_epoch s)))
  end.

Definition mem_get (s : MemoryBlobStore) (cid : Cid) : result StorageError (option bytes) :=
  match ms_blobs s !! cid with
  | Some b => d ← verify cid b; Ok (Some d)
  | None => Ok None
  end.

Definition mem_has (s : MemoryBlobStore) (cid : Cid) : bool := bool_decide (is_Some (ms_blobs s !! cid)).

Definition mem_get_bounded (s : MemoryBlobStore) (cid : Cid) (max_bytes : N)
    : result StorageError (option bytes) :=
  match ms_blobs s !! cid with
  | Some b => if max_bytes <? len b then Err BlobSizeLimit else (d ← verify cid b; Ok (Some d))
  | None => Ok None
  end.

Definition mem_delete (s : MemoryBlobStore) (cid : Cid) : bool * MemoryBlobStore :=
  match ms_blobs s !! cid with
  | Some b =>
      (true, mkMemoryBlobStore (delete cid (ms_blobs s)) (ms_staged s)
               (filter (fun c => c <> cid) (ms_order s)) (ms_total_bytes s - len b)
               (ms_max_bytes s) (ms_read_epoch s + 1))
  | None => (false, s)
  end.

Definition set_staged (s : MemoryBlobStore) (staged : gmap bytes bytes) : MemoryBlobStore :=
  mkMemoryBlobStore (ms_blobs s) staged (ms_order s) (ms_total_bytes s) (ms_max_bytes s)
    (ms_read_epoch s).

Definition mem_put_staged (s : MemoryBlobStore) (data : bytes) : Cid * MemoryBlobStore :=
  let cid := Cid_of data in
  match ms_staged s !! cid with
  | Some _ => (cid, s)
  | None => (cid, set_staged s (<[cid := data]> (ms_staged s)))
  end.

Definition mem_promote_staged (s : MemoryBlobStore) (cid : Cid) : bool * MemoryBlobStore :=
  match ms_staged s !! cid with
  | Some data => (true, (mem_put (set_staged s (delete cid (ms_staged s))) data).2)
  | None => (false, s)
  end.

Definition mem_drop_staged (s : MemoryBlobStore) (cid : Cid) : bool * MemoryBlobStore :=
  (bool_decide (is_Some (ms_staged s !! cid)), set_staged s (delete cid (ms_staged s))).

Definition mem_promote_staged_bounded (s : MemoryBlobStore) (cid : Cid) (max_bytes : N)
    : result StorageError (bool * MemoryBlobStore) :=
  match ms_staged s !! cid with
  | None => Ok (false, s)
  | Some data =>
      _ ← refuse_if (max_bytes <? len data) BlobSizeLimit;
      _ ← verify cid data;
      Ok (mem_promote_staged s cid)
  end.

Definition mem_clear_staging (s : MemoryBlobStore) : N * MemoryBlobStore :=
  (N.of_nat (size (ms_staged s)), set_staged s ∅).

#[global] Instance memory_blob_store : BlobStore MemoryBlobStore := {|
  store_put s data := (Ok (mem_put s data).1, (mem_put s data).2);
  store_has := mem_has;
  store_delete s cid := (Ok (mem_delete s cid).1, (mem_delete s cid).2)
|}.

(** A read guard is the generation it was issued in. *)
Definition guard_current (guard : N) (s : MemoryBlobStore) : bool := guard =? ms_read_epoch s.
End memory_store.

(** * Lemmas *)

Definition blob_len (blobs : gmap bytes bytes) (c : Cid) : N := len (default [] (blobs !! c)).

Lemma blob_len_delete blobs c x : x <> c -> blob_len (delete c blobs) x = blob_len blobs x.
Proof. intros H. unfold blob_len. by rewrite lookup_delete_ne. Qed.

Lemma elem_drop {A} (l : list A) k x : x ∈ drop k l -> x ∈ l.
Proof. intros H. rewrite <- (take_drop k l). apply elem_of_app. by right. Qed.

(** What the eviction loop leaves: the order without its [k] oldest entries, for
    the least [k] that fits the budget or leaves one entry. *)
Record evicted (max : N) (blobs : gmap bytes bytes) (epoch : N) (order : list Cid) (k : nat)
    (blobs' : gmap bytes bytes) (total' epoch' : N) (order' : list Cid) : Prop := mkEvicted {
  ev_order : order' = drop k order;
  ev_short : (k < length order \/ order = [])%nat;
  ev_blobs : forall c, blobs' !! c = if decide (c ∈ take k order) then None else blobs !! c;
  ev_total : total' = sum_of (blob_len blobs) order';
  ev_epoch : epoch' = epoch + N.of_nat k;
  ev_fits : total' <= max \/ (length order' <= 1)%nat;
  ev_least : forall j, (j < k)%nat -> max < sum_of (blob_len blobs) (drop j order)
}.

Lemma evict_loop_evicted max order : forall blobs total epoch,
  NoDup order -> (forall c, c ∈ order -> is_Some (blobs !! c)) ->
  total = sum_of (blob_len blobs) order ->
  exists k, let '(blobs', total', epoch', order') := evict_loop max blobs total epoch order in
    evicted max blobs epoch order k blobs' total' epoch' order'.
Proof.
  assert (Hstop : forall blobs total epoch order, total = sum_of (blob_len blobs) order ->
    total <= max \/ (length order <= 1)%nat ->
    evicted max blobs epoch order 0 blobs total epoch order).
  { intros blobs total epoch o -> Hf. constructor; [done | | | done | lia | done | lia].
    - destruct o; [by right | left; cbn; lia].
    - intros c. rewrite take_0, decide_False; [done|]. apply not_elem_of_nil. }
  induction order as [|old rest IH]; intros blobs total epoch Hnd Hdom Ht.
  { exists 0%nat. cbn. apply Hstop; [done|]. right. cbn. lia. }
  cbn [evict_loop]. destruct rest as [|next rest]; [exists 0%nat; apply Hstop; [done | right; cbn; lia]|].
  destruct (N.ltb_spec max total) as [Hm|Hm]; [|exists 0%nat; apply Hstop; [done | by left]].
  destruct (Hdom old) as [b Hb]; [apply list_elem_of_here|]. rewrite Hb.
  apply NoDup_cons in Hnd as [Hni Hnd].
  assert (Hne : forall c, c ∈ next :: rest -> c <> old) by (intros c Hc ->; done).
  assert (Hsum : sum_of (blob_len (delete old blobs)) (next :: rest) = sum_of (blob_len blobs) (next :: rest)).
  { apply sum_of_ext. apply Forall_forall. intros c Hc. apply blob_len_delete. by apply Hne. }
  destruct (IH (delete old blobs) (total - len b) (epoch + 1)) as [k Hk].
  - done.
  - intros c Hc. rewrite lookup_delete_ne by (by apply not_eq_sym, Hne). apply Hdom.
    by apply list_elem_of_further.
  - rewrite Hsum, Ht. cbn [sum_of]. unfold blob_len at 1. rewrite Hb. cbn [default from_option id]. lia.
  - exists (S k).
    destruct (evict_loop max (delete old blobs) (total - len b) (epoch + 1) (next :: rest))
      as [[[blobs' total'] epoch'] order']. destruct Hk.
    assert (Hin : forall c, c ∈ order' -> c ∈ next :: rest).
    { intros c Hc. rewrite ev_order0 in Hc. by eapply elem_drop. }
    constructor.
    + done.
    + left. cbn in *. destruct ev_short0; [lia|done].
    + intros c. rewrite ev_blobs0. cbn [take]. destruct (decide (c ∈ take k (next :: rest))) as [Hc|Hc].
      * rewrite decide_True; [done | by apply list_elem_of_further].
      * destruct (decide (c = old)) as [->|Hco].
        -- rewrite decide_True by apply list_elem_of_here. apply lookup_delete_eq.
        -- rewrite lookup_delete_ne by done. rewrite decide_False; [done|]. rewrite elem_of_cons. tauto.
    + rewrite ev_total0. apply sum_of_ext, Forall_forall. intros c Hc.
      apply blob_len_delete, Hne, Hin, Hc.
    + rewrite ev_epoch0. lia.
    + done.
    + intros [|j] Hj; cbn [drop].
      * rewrite <- Ht. done.
      * assert (Hj' : (j < k)%nat) by lia. specialize (ev_least0 j Hj').
        rewrite (sum_of_ext _ (blob_len blobs)) in ev_least0; [done|]. apply Forall_forall. intros c Hc.
        apply blob_len_delete, Hne. by eapply elem_drop.
Qed.

(** * The store invariant *)

Section invariant.
Context {C : Crypto}.

Definition addressed (m : gmap bytes bytes) : Prop := map_Forall (fun c b => Cid_of b = c) m.

Record mem_ok (s : MemoryBlobStore) : Prop := mkMemOk {
  mo_order : NoDup (ms_order s);
  mo_dom : forall c, c ∈ ms_order s <-> is_Some (ms_blobs s !! c);
  mo_addressed : addressed (ms_blobs s);
  mo_staged : addressed (ms_staged s);
  mo_total : ms_total_bytes s = sum_of (blob_len (ms_blobs s)) (ms_order s);
  mo_budget : ms_total_bytes s <= ms_max_bytes s \/ (length (ms_order s) <= 1)%nat
}.

Lemma with_budget_ok max : mem_ok (with_budget max).
Proof.
  constructor; cbn.
  - apply NoDup_nil_2.
  - intros c. rewrite lookup_empty. split; [by intros ?%not_elem_of_nil | by intros []].
  - apply map_Forall_empty.
  - apply map_Forall_empty.
  - done.
  - left. lia.
Qed.

(** Storing a new blob: the order grows by it at the end and then loses its
    oldest entries. *)
Lemma put_fresh s data :
  mem_ok s -> ms_blobs s !! Cid_of data = None ->
  exists k, let s' := (mem_put s data).2 in
    evicted (ms_max_bytes s) (<[Cid_of data := data]> (ms_blobs s)) (ms_read_epoch s)
      (ms_order s ++ [Cid_of data]) k (ms_blobs s') (ms_total_bytes s') (ms_read_epoch s') (ms_order s') /\
    ms_staged s' = ms_staged s /\ ms_max_bytes s' = ms_max_bytes s /\
    NoDup (ms_order s ++ [Cid_of data]) /\
    (forall c, c ∈ ms_order s ++ [Cid_of data] <-> is_Some (<[Cid_of data := data]> (ms_blobs s) !! c)).
Proof.
  intros [] Hn. set (cid := Cid_of data) in *.
  assert (Hni : ~ cid ∈ ms_order s) by (rewrite mo_dom0, Hn; by intros []).
  assert (Hnd : NoDup (ms_order s ++ [cid])).
  { apply NoDup_app. split_and!; [done | | apply NoDup_singleton].
    intros x Hx ->%list_elem_of_singleton. done. }
  assert (Hdom : forall c, c ∈ ms_order s ++ [cid] <-> is_Some (<[cid := data]> (ms_blobs s) !! c)).
  { intros c. rewrite elem_of_app, list_elem_of_singleton, mo_dom0.
    destruct (decide (c = cid)) as [->|Hc].
    - rewrite lookup_insert_eq. split; [by eexists | by right].
    - rewrite lookup_insert_ne by done. naive_solver. }
  assert (Htot : ms_total_bytes s + len data =
                 sum_of (blob_len (<[cid := data]> (ms_blobs s))) (ms_order s ++ [cid])).
  { rewrite sum_of_app. cbn [sum_of]. unfold blob_len at 2. rewrite lookup_insert_eq. cbn [default from_option id].
    rewrite mo_total0. rewrite (sum_of_ext (blob_len (<[cid := data]> (ms_blobs s))) (blob_len (ms_blobs s))); [lia|].
    apply Forall_forall. intros c Hc. unfold blob_len. rewrite lookup_insert_ne; [done|]. by intros ->. }
  destruct (evict_loop_evicted (ms_max_bytes s) (ms_order s ++ [cid]) (<[cid := data]> (ms_blobs s))
    (ms_total_bytes s + len data) (ms_read_epoch s) Hnd) as [k Hk]; [intros c; apply Hdom | done|].
  exists k. unfold mem_put. fold cid. rewrite Hn. unfold evict_to_budget. cbn [ms_max_bytes ms_blobs
    ms_total_bytes ms_read_epoch ms_order ms_staged snd].
  destruct (evict_loop _ _ _ _ _) as [[[blobs' total'] epoch'] order']. by split_and!.
Qed.

Lemma evicted_ok s s' max blobs epoch order k :
  evicted max blobs epoch order k (ms_blobs s') (ms_total_bytes s') (ms_read_epoch s') (ms_order s') ->
  max = ms_max_bytes s' -> ms_staged s' = ms_staged s -> addressed (ms_staged s) ->
  NoDup order -> (forall c, c ∈ order <-> is_Some (blobs !! c)) -> addressed blobs -> mem_ok s'.
Proof.
  intros [] -> Hst Has Hnd Hdom Hadr. rewrite <- (take_drop k order) in Hnd.
  apply NoDup_app in Hnd as (_ & Hdisj & Hnd). constructor.
  - by rewrite ev_order0.
  - intros c. rewrite ev_order0, ev_blobs0. split.
    + intros Hc. rewrite decide_False by (intros Ht; by apply (Hdisj c)). apply Hdom. by eapply elem_drop.
    + destruct (decide (c ∈ take k order)) as [|Hc]; [by intros []|]. intros Hs%Hdom.
      rewrite <- (take_drop k order), elem_of_app in Hs. tauto.
  - intros c b Hb. rewrite ev_blobs0 in Hb. destruct (decide (c ∈ take k order)); [done|]. by apply Hadr.
  - unfold addressed. by rewrite Hst.
  - rewrite ev_total0. apply sum_of_ext, Forall_forall. intros c Hc. unfold blob_len.
    rewrite ev_blobs0, decide_False; [done|]. intros Ht. rewrite ev_order0 in Hc. by apply (Hdisj c).
  - done.
Qed.

Lemma put_ok s data : mem_ok s -> mem_ok (mem_put s data).2.
Proof.
  intros Hs. destruct (ms_blobs s !! Cid_of data) as [b|] eqn:Hb.
  - unfold mem_put. by rewrite Hb.
  - destruct (put_fresh s data Hs Hb) as (k & He & Hst & Hmax & Hnd & Hdom). destruct Hs.
    eapply (evicted_ok s); try done. apply map_Forall_insert_2; done.
Qed.

Lemma delete_ok s cid : mem_ok s -> mem_ok (mem_delete s cid).2.
Proof.
  intros []. unfold mem_delete. destruct (ms_blobs s !! cid) as [b|] eqn:Hb; [|done].
  assert (Hin : cid ∈ ms_order s) by (apply mo_dom0; by rewrite Hb).
  assert (Hfil : forall l, NoDup l -> cid ∈ l ->
    sum_of (blob_len (ms_blobs s)) l =
    len b + sum_of (blob_len (delete cid (ms_blobs s))) (filter (fun c => c <> cid) l)).
  { intros l Hnd Hc. assert (Hp : l ≡ₚ cid :: filter (fun c => c <> cid) l).
    { apply NoDup_Permutation; [done | |].
      - apply NoDup_cons. split; [|by apply NoDup_filter]. rewrite list_elem_of_filter. by intros [].
      - intros x. rewrite elem_of_cons, list_elem_of_filter. destruct (decide (x = cid)); naive_solver. }
    rewrite (sum_of_perm _ _ _ Hp). cbn [sum_of]. f_equal.
    - unfold blob_len. by rewrite Hb.
    - apply sum_of_ext, Forall_forall. intros x [Hx _]%list_elem_of_filter. by rewrite blob_len_delete. }
  constructor; cbn [snd ms_order ms_blobs ms_staged ms_total_bytes ms_max_bytes].
  - by apply NoDup_filter.
  - intros c. rewrite list_elem_of_filter, mo_dom0. destruct (decide (c = cid)) as [->|Hc].
    + rewrite lookup_delete_eq. split; [by intros [] | by intros []].
    + rewrite lookup_delete_ne by done. tauto.
  - by apply map_Forall_delete.
  - done.
  - rewrite mo_total0, (Hfil _ mo_order0 Hin). lia.
  - destruct mo_budget0; [left; lia|]. right. etrans; [apply length_filter|]. done.
Qed.

Lemma staged_ok s m : mem_ok s -> addressed m -> mem_ok (set_staged s m).
Proof. by intros []. Qed.
End invariant.

(** * Runs *)

Inductive mem_step {C : Crypto} : MemoryBlobStore -> MemoryBlobStore -> Prop :=
| mst_put data s : mem_step s (mem_put s data).2
| mst_delete cid s : mem_step s (mem_delete s cid).2
| mst_put_staged data s : mem_step s (mem_put_staged s data).2
| mst_promote cid s : mem_step s (mem_promote_staged s cid).2
| mst_promote_bounded cid max b s s' :
    mem_promote_staged_bounded s cid max = Ok (b, s') -> mem_step s s'
| mst_drop cid s : mem_step s (mem_drop_staged s cid).2
| mst_clear s : mem_step s (mem_clear_staging s).2.

Section run_lemmas.
Context {C : Crypto}.

Lemma mem_promote_ok s cid : mem_ok s -> mem_ok (mem_promote_staged s cid).2.
Proof.
  intros Hs. unfold mem_promote_staged. destruct (ms_staged s !! cid); [|done].
  apply put_ok, staged_ok; [done|]. apply map_Forall_delete, Hs.
Qed.

Lemma promote_bounded_shape s cid max b s' :
  mem_promote_staged_bounded s cid max = Ok (b, s') -> s' = (mem_promote_staged s cid).2.
Proof.
  unfold mem_promote_staged_bounded, mem_promote_staged.
  destruct (ms_staged s !! cid) eqn:E; intros H; res_inv; [|done].
  match goal with Hx : (_, _) = _ |- _ => injection Hx as _ <- | _ => idtac end; done.
Qed.

Lemma mem_step_ok s s' : mem_step s s' -> mem_ok s -> mem_ok s'.
Proof.
  intros Hs. destruct Hs as [data s|cid s|data s|cid s|cid max b s s' H|cid s|s]; intros Hok.
  - by apply put_ok.
  - by apply delete_ok.
  - unfold mem_put_staged. destruct (ms_staged s !! Cid_of data); [done|].
    apply staged_ok; [done|]. apply map_Forall_insert_2; [done | apply Hok].
  - by apply mem_promote_ok.
  - rewrite (promote_bounded_shape _ _ _ _ _ H). by apply mem_promote_ok.
  - apply staged_ok; [done|]. apply map_Forall_delete, Hok.
  - apply staged_ok; [done|]. apply map_Forall_empty.
Qed.

Lemma mem_run_ok s s' : rtc mem_step s s' -> mem_ok s -> mem_ok s'.
Proof. induction 1; eauto using mem_step_ok. Qed.

(** A put or delete either keeps every blob in place or starts a new read generation. *)
Definition keeps_or_retires (s s' : MemoryBlobStore) : Prop :=
  ms_read_epoch s <= ms_read_epoch s' /\
  (ms_read_epoch s' = ms_read_epoch s -> ms_blobs s ⊆ ms_blobs s').

Lemma put_keeps s data : mem_ok s -> keeps_or_retires s (mem_put s data).2.
Proof.
  intros Hs. destruct (ms_blobs s !! Cid_of data) as [b|] eqn:Hb.
  - unfold mem_put. rewrite Hb. split; [done|]. intros _. done.
  - destruct (put_fresh s data Hs Hb) as (k & [] & _). split; [lia|]. intros E.
    assert (k = 0%nat) as -> by lia. apply map_subseteq_spec. intros c x Hx.
    rewrite ev_blobs0, decide_False by (rewrite take_0; apply not_elem_of_nil).
    rewrite lookup_insert_ne; [done|]. intros E'. rewrite <- E' in Hx. congruence.
Qed.

Lemma delete_keeps s cid : keeps_or_retires s (mem_delete s cid).2.
Proof.
  unfold mem_delete. destruct (ms_blobs s !! cid); cbn; split; cbn; [lia | lia | done|].
  intros _. done.
Qed.

Lemma mem_step_keeps s s' : mem_step s s' -> mem_ok s -> keeps_or_retires s s'.
Proof.
  assert (Hpro : forall s cid, mem_ok s -> keeps_or_retires s (mem_promote_staged s cid).2).
  { intros x cid Hok. unfold mem_promote_staged. destruct (ms_staged x !! cid); [|by split].
    apply (put_keeps (set_staged x (delete cid (ms_staged x)))).
    apply staged_ok; [done|]. apply map_Forall_delete, Hok. }
  intros Hs. destruct Hs as [data s|cid s|data s|cid s|cid max b s s' H|cid s|s]; intros Hok.
  - by apply put_keeps.
  - apply delete_keeps.
  - unfold mem_put_staged. by destruct (ms_staged s !! Cid_of data).
  - by apply Hpro.
  - rewrite (promote_bounded_shape _ _ _ _ _ H). by apply Hpro.
  - done.
  - done.
Qed.

Lemma mem_run_keeps s s' : rtc mem_step s s' -> mem_ok s -> keeps_or_retires s s'.
Proof.
  induction 1 as [s|s1 s2 s3 H12 _ IH]; intros Hok; [by split|].
  destruct (mem_step_keeps _ _ H12 Hok) as [L1 K1].
  destruct (IH (mem_step_ok _ _ H12 Hok)) as [L2 K2]. split; [lia|]. intros E.
  etrans; [apply K1; lia | apply K2; lia].
Qed.
End run_lemmas.

(** * Properties *)

(** The in-memory store is a sound content-addressed store. In every
    reachable state, whatever was put, deleted, staged, promoted or cleared:
    the byte counter is the sum of the held sizes, the budget is exceeded only
    by a single blob, the eviction order lists exactly the held addresses once,
    and every held blob reads back with bytes of its own address, bounded or
    not; staged blobs are never visible to reads. *)
Theorem memory_store_sound {C : Crypto} max s :
  rtc mem_step (with_budget max) s ->
  ms_total_bytes s = sum_of (blob_len (ms_blobs s)) (ms_order s) /\
  (ms_total_bytes s <= ms_max_bytes s \/ (length (ms_order s) <= 1)%nat) /\
  NoDup (ms_order s) /\ (forall c, c ∈ ms_order s <-> mem_has s c = true) /\
  forall c,
    (mem_has s c = false -> mem_get s c = Ok None) /\
    (mem_has s c = true -> exists b, ms_blobs s !! c = Some b /\ Cid_of b = c /\
       mem_get s c = Ok (Some b) /\
       forall limit, mem_get_bounded s c limit =
         if limit <? len b then Err BlobSizeLimit else Ok (Some b)).
Proof.
  intros Hr. destruct (mem_run_ok _ _ Hr (with_budget_ok max)). split_and!; try done.
  - intros c. rewrite mo_dom0. unfold mem_has. by rewrite bool_decide_eq_true.
  - intros c. unfold mem_has, mem_get, mem_get_bounded. destruct (ms_blobs s !! c) as [b|] eqn:Hb.
    + pose proof (mo_addressed0 c b Hb) as Ha. split; [by rewrite bool_decide_eq_true_2|]. intros _.
      exists b. unfold verify. rewrite (bool_decide_eq_true_2 _ Ha). split_and!; try done.
    + split; [done|]. rewrite bool_decide_eq_false_2; [done|]. by intros [].
Qed.

(** Eviction is oldest-first and minimal. Storing a new blob makes it
    readable, drops exactly the [k] oldest blobs for the least [k] that brings
    the store within budget (or leaves only the new blob), and keeps every
    other blob unchanged, in order. *)
Theorem put_evicts_oldest {C : Crypto} s data :
  mem_ok s -> ms_blobs s !! Cid_of data = None ->
  exists k, let s' := (mem_put s data).2 in
    ms_order s' = drop k (ms_order s ++ [Cid_of data]) /\ (k <= length (ms_order s))%nat /\
    mem_get s' (Cid_of data) = Ok (Some data) /\
    (forall c, c ∈ ms_order s -> ms_blobs s' !! c =
       if decide (c ∈ take k (ms_order s)) then None else ms_blobs s !! c) /\
    (forall j, (j < k)%nat ->
       ms_max_bytes s < sum_of (blob_len (<[Cid_of data := data]> (ms_blobs s)))
                          (drop j (ms_order s ++ [Cid_of data]))).
Proof.
  intros Hs Hn. destruct (put_fresh s data Hs Hn) as (k & [] & _ & _ & Hnd & Hdom).
  assert (Hk : (k <= length (ms_order s))%nat).
  { rewrite length_app in ev_short0. cbn in ev_short0.
    destruct ev_short0 as [|E]; [lia|]. by destruct (ms_order s). }
  assert (Htake : take k (ms_order s ++ [Cid_of data]) = take k (ms_order s)) by (by rewrite take_app_le).
  assert (Hni : ~ Cid_of data ∈ ms_order s) by (rewrite (mo_dom _ Hs), Hn; by intros []).
  exists k. split_and!; try done.
  - unfold mem_get. rewrite ev_blobs0, Htake, decide_False, lookup_insert_eq.
    + unfold verify. by rewrite bool_decide_eq_true_2.
    + intros Hin. apply Hni. rewrite <- (take_drop k (ms_order s)). apply elem_of_app. by left.
  - intros c Hc. rewrite ev_blobs0, Htake. destruct (decide _); [done|].
    rewrite lookup_insert_ne; [done|]. by intros <-.
Qed.

(** A read guard that is still current proves nothing it covered was
    removed: if no generation was retired between issuing the guard and its
    use, every blob held then is still held with the same bytes. *)
Theorem read_guard_sound {C : Crypto} s s' c b :
  mem_ok s -> rtc mem_step s s' -> guard_current (ms_read_epoch s) s' = true ->
  ms_blobs s !! c = Some b -> ms_blobs s' !! c = Some b.
Proof.
  intros Hs Hr Hg Hb. apply N.eqb_eq in Hg. destruct (mem_run_keeps _ _ Hr Hs) as [_ Hk].
  by apply (lookup_weaken _ _ _ _ Hb), Hk.
Qed.

(** * The store implements the interface *)

Lemma evict_loop_subset max order : forall blobs total epoch,
  (evict_loop max blobs total epoch order).1.1.1 ⊆ blobs.
Proof.
  induction order as [|old rest IH]; intros blobs total epoch; [done|]. cbn [evict_loop].
  destruct rest as [|next rest]; [done|]. destruct (max <? total); [|done].
  destruct (blobs !! old) as [b|]; [|apply IH]. etrans; [apply IH|]. apply delete_subseteq.
Qed.

Lemma mem_has_true s c : mem_has s c = true <-> is_Some (ms_blobs s !! c).
Proof. unfold mem_has. by rewrite bool_decide_eq_true. Qed.

#[global] Instance memory_store_laws {C : Crypto} : BlobStoreLaws MemoryBlobStore.
Proof.
  split; cbn.
  - intros s data c s' [= <- _]. unfold mem_put. by destruct (ms_blobs s !! Cid_of data).
  - intros s data x Hx. unfold mem_put in Hx. destruct (ms_blobs s !! Cid_of data); [by left|].
    apply mem_has_true in Hx as [b Hb]. rewrite mem_has_true.
    destruct (decide (x = Cid_of data)) as [|Hne]; [by right | left].
    unfold evict_to_budget in Hb. cbn in Hb.
    pose proof (evict_loop_subset (ms_max_bytes s) (ms_order s ++ [Cid_of data])
      (<[Cid_of data := data]> (ms_blobs s)) (ms_total_bytes s + len data) (ms_read_epoch s)) as Hsub.
    destruct (evict_loop _ _ _ _ _) as [[[blobs' total'] epoch'] order']. cbn in *.
    pose proof (lookup_weaken _ _ _ _ Hb Hsub) as Hw. rewrite lookup_insert_ne in Hw by done. by exists b.
  - intros s c x Hne. unfold mem_delete. destruct (ms_blobs s !! c); [|done]. unfold mem_has; cbn.
    by rewrite lookup_delete_ne.
  - intros s c. unfold mem_delete. destruct (ms_blobs s !! c) eqn:E; [|done].
    rewrite !mem_has_true; cbn. rewrite lookup_delete_eq. by intros [].
Qed.

(** ** Witnesses *)

Definition toy_store : MemoryBlobStore :=
  (mem_put (C:=toy_crypto) (mem_put (C:=toy_crypto) (with_budget 5) [x01; x02; x03]).2 [x04; x05]).2.

Definition toy_blob : bytes := [x06; x07; x08].

Lemma toy_store_run : rtc (mem_step (C:=toy_crypto)) (with_budget 5) toy_store.
Proof. eapply rtc_l; [apply mst_put|]. apply rtc_once. apply mst_put. Qed.

Lemma toy_store_ok : mem_ok (C:=toy_crypto) toy_store.
Proof. apply (mem_run_ok _ _ toy_store_run), with_budget_ok. Qed.

Lemma memory_store_sound_witness :
  ms_total_bytes toy_store = 5 /\ (forall c, c ∈ ms_order toy_store <-> mem_has toy_store c = true).
Proof.
  destruct (memory_store_sound (C:=toy_crypto) 5 toy_store toy_store_run) as (_ & _ & _ & Hd & _).
  split; [by vm_compute | exact Hd].
Defined.

Lemma put_evicts_oldest_witness :
  mem_get (C:=toy_crypto) (mem_put (C:=toy_crypto) toy_store toy_blob).2
    (Cid_of (C:=toy_crypto) toy_blob) = Ok (Some toy_blob).
Proof.
  destruct (put_evicts_oldest (C:=toy_crypto) toy_store toy_blob toy_store_ok) as (k & _ & _ & Hg & _);
    [by vm_compute | exact Hg].
Defined.

Lemma read_guard_sound_witness :
  ms_blobs (mem_put_staged (C:=toy_crypto) toy_store toy_blob).2 !! Cid_of (C:=toy_crypto) [x04; x05]
    = Some [x04; x05].
Proof.
  refine (read_guard_sound (C:=toy_crypto) toy_store _ _ _ toy_store_ok _ _ _).
  - apply rtc_once. apply mst_put_staged.
  - by vm_compute.
  - by vm_compute.
Defined.
