(* ===== verification/Retention.v ===== *)
(** Expiry and garbage collection of [crates/catcoms-storage/src/retention.rs]:
    the three-scope policy, the index of blob entries, [gc],
    [clear_older_than], [rehydrate] and their shared eviction loop, over any
    store that implements the [BlobStore] interface.

    The order in which a [HashMap] is iterated is a parameter: any enumeration
    of its entries. The random jitter is the [u64] drawn from the generator.
    Sums of [u64] are modelled as the wrapping additions of a release build. *)

From S2P Require Import Prelude Pad Crypto Blob.
From stdpp Require Import base list gmap relations.
From Stdlib Require Import Init.Byte.
Local Open Scope N_scope.

Definition ONE_MONTH_MS : N := 30 * 24 * 60 * 60 * 1000.

(** [a + b] on [u64], without overflow checks. *)
Definition wadd (a b : N) : N := (a + b) mod (u64_max + 1).

(** * Policy *)

Abbreviation ServerId := bytes (only parsing).

Inductive Expiry : Type := Never | After (ms : N).
Inductive BlobKind : Type := InlineMedia | File.

#[global] Instance BlobKind_eq_dec : EqDecision BlobKind.
Proof. solve_decision. Defined.

Record ExpiryPolicy := mkExpiryPolicy {
  global_ms : N;
  per_server : gmap bytes N;
  per_file : gmap bytes Expiry
}.

Definition ExpiryPolicy_default : ExpiryPolicy := mkExpiryPolicy ONE_MONTH_MS ∅ ∅.
Definition with_global (ms : N) : ExpiryPolicy := mkExpiryPolicy ms ∅ ∅.

Definition set_server (p : ExpiryPolicy) (server : ServerId) (expiry_ms : N) : ExpiryPolicy :=
  mkExpiryPolicy (global_ms p) (<[server := expiry_ms]> (per_server p)) (per_file p).

Definition set_file (p : ExpiryPolicy) (cid : Cid) (expiry : Expiry) : ExpiryPolicy :=
  mkExpiryPolicy (global_ms p) (per_server p) (<[cid := expiry]> (per_file p)).

Definition effective (p : ExpiryPolicy) (cid : Cid) (server : ServerId) : Expiry :=
  match per_file p !! cid with
  | Some e => e
  | None =>
      match per_server p !! server with
      | Some ms => After ms
      | None => After (global_ms p)
      end
  end.

(** * The index *)

Record BlobEntry := mkBlobEntry {
  be_cid : Cid;
  be_server : ServerId;
  be_created_at_ms : N;
  be_last_access_ms : N;
  be_size : N;
  be_kind : BlobKind;
  be_pinned : bool;
  be_evicted : bool;
  be_jitter_ms : N
}.

#[global] Instance BlobEntry_eq_dec : EqDecision BlobEntry.
Proof. solve_decision. Defined.

Definition set_evicted (evicted : bool) (e : BlobEntry) : BlobEntry :=
  mkBlobEntry (be_cid e) (be_server e) (be_created_at_ms e) (be_last_access_ms e) (be_size e)
    (be_kind e) (be_pinned e) evicted (be_jitter_ms e).

Inductive BlobState : Type := Available | EvictedRefetchable | MissingNoHolder | Unknown.

Record GcReport := mkGcReport { gr_evicted : N; gr_kept_no_replica : N }.

Record RetentionIndex := mkRetentionIndex {
  ri_entries : gmap bytes BlobEntry;
  ri_policy : ExpiryPolicy;
  ri_max_jitter_ms : N
}.

Definition RetentionIndex_new (policy : ExpiryPolicy) : RetentionIndex :=
  mkRetentionIndex ∅ policy (global_ms policy / 4).

(** [if let Some(e) = self.entries.get_mut(cid) { ... }] *)
Definition update_entry (f : BlobEntry -> BlobEntry) (cid : Cid) (idx : RetentionIndex)
    : RetentionIndex :=
  mkRetentionIndex (alter f cid (ri_entries idx)) (ri_policy idx) (ri_max_jitter_ms idx).

Definition insert_blob (idx : RetentionIndex) (cid : Cid) (server : ServerId) (size : N)
    (kind : BlobKind) (now_ms random : N) : RetentionIndex :=
  let jitter := if ri_max_jitter_ms idx =? 0 then 0
                else random mod (ri_max_jitter_ms idx + 1) in
  mkRetentionIndex
    (<[cid := mkBlobEntry cid server now_ms now_ms size kind false false jitter]> (ri_entries idx))
    (ri_policy idx) (ri_max_jitter_ms idx).

Definition touch (idx : RetentionIndex) (cid : Cid) (now_ms : N) : RetentionIndex :=
  update_entry (fun e => mkBlobEntry (be_cid e) (be_server e) (be_created_at_ms e) now_ms (be_size e)
                           (be_kind e) (be_pinned e) (be_evicted e) (be_jitter_ms e)) cid idx.

Definition set_pinned (idx : RetentionIndex) (cid : Cid) (pinned : bool) : RetentionIndex :=
  update_entry (fun e => mkBlobEntry (be_cid e) (be_server e) (be_created_at_ms e)
                           (be_last_access_ms e) (be_size e) (be_kind e) pinned (be_evicted e)
                           (be_jitter_ms e)) cid idx.

Definition entry_deadline (p : ExpiryPolicy) (e : BlobEntry) : option N :=
  if be_pinned e || bool_decide (be_kind e = InlineMedia) then None
  else match effective p (be_cid e) (be_server e) with
       | Never => None
       | After base => Some (wadd (wadd (be_created_at_ms e) base) (be_jitter_ms e))
       end.

Definition deadline (idx : RetentionIndex) (cid : Cid) : option N :=
  e ← ri_entries idx !! cid; entry_deadline (ri_policy idx) e.

Definition is_expired (idx : RetentionIndex) (cid : Cid) (now_ms : N) : bool :=
  match deadline idx cid with Some d => d <=? now_ms | None => false end.

Definition is_evicted (idx : RetentionIndex) (cid : Cid) : bool :=
  match ri_entries idx !! cid with Some e => be_evicted e | None => false end.

(** * Operations on the index and a store *)

Section operations.
Context {C : Crypto} {S : Type} `{BlobStore S}.

(** [HolderOracle::reachable_holder_count] *)
Variable oracle : Cid -> N.

Definition blob_state (idx : RetentionIndex) (store : S) (cid : Cid) : BlobState :=
  match ri_entries idx !! cid with
  | None => Unknown
  | Some _ =>
      if store_has store cid then Available
      else if 0 <? oracle cid then EvictedRefetchable else MissingNoHolder
  end.

(** The loop of [evict_set]. The index and the store keep what was done before
    a failing delete, which ends the pass. *)
Fixpoint evict_set (idx : RetentionIndex) (store : S) (cids : list Cid) (min_holders : N)
    (force : bool) (report : GcReport)
    : result StorageError GcReport * RetentionIndex * S :=
  match cids with
  | [] => (Ok report, idx, store)
  | cid :: cids =>
      if force || (min_holders <=? oracle cid) then
        match store_delete store cid with
        | (Err e, store') => (Err e, idx, store')
        | (Ok _, store') =>
            evict_set (update_entry (set_evicted true) cid idx) store' cids min_holders force
              (mkGcReport (gr_evicted report + 1) (gr_kept_no_replica report))
        end
      else
        evict_set idx store cids min_holders force
          (mkGcReport (gr_evicted report) (gr_kept_no_replica report + 1))
  end.

(** [entries] is the index's entries in the map's iteration order. *)
Definition gc (entries : list (Cid * BlobEntry)) (idx : RetentionIndex) (store : S)
    (now_ms min_holders : N) : result StorageError GcReport * RetentionIndex * S :=
  let due := List.filter (fun cid => is_expired idx cid now_ms && negb (is_evicted idx cid))
               (fst <$> entries) in
  evict_set idx store due min_holders false (mkGcReport 0 0).

Definition clear_older_than (entries : list (Cid * BlobEntry)) (idx : RetentionIndex) (store : S)
    (age_ms now_ms min_holders : N) (force : bool)
    : result StorageError GcReport * RetentionIndex * S :=
  let due := be_cid <$> List.filter
    (fun e => bool_decide (be_kind e = File) && negb (be_pinned e) && negb (be_evicted e)
              && (age_ms <=? now_ms - be_created_at_ms e)) (snd <$> entries) in
  evict_set idx store due min_holders force (mkGcReport 0 0).

Definition rehydrate (idx : RetentionIndex) (store : S) (cid : Cid) (data : bytes)
    : result StorageError unit * RetentionIndex * S :=
  match store_put store data with
  | (Err e, store') => (Err e, idx, store')
  | (Ok stored, store') =>
      if bool_decide (stored <> cid)
      then (Err CidMismatch, idx, (store_delete store' stored).2)
      else (Ok tt, update_entry (set_evicted false) cid idx, store')
  end.
End operations.

(** * Lemmas *)

(** The only change eviction makes to an entry. *)
Definition maybe_evicted (a b : option BlobEntry) : Prop := b = a \/ b = set_evicted true <$> a.

Lemma maybe_evicted_trans a b c : maybe_evicted a b -> maybe_evicted b c -> maybe_evicted a c.
Proof.
  intros [->| ->] [->| ->]; unfold maybe_evicted; auto.
  right. by destruct a.
Qed.

Section laws.
Context {C : Crypto} {S : Type} `{BlobStore S} `{!BlobStoreLaws S}.
Variable oracle : Cid -> N.

Definition allowed (min_holders : N) (force : bool) (cid : Cid) : Prop :=
  force = true \/ min_holders <= oracle cid.

Lemma allowed_spec min_holders force cid :
  force || (min_holders <=? oracle cid) = true <-> allowed min_holders force cid.
Proof. unfold allowed. by rewrite orb_true_iff, N.leb_le. Qed.

Record eviction (min_holders : N) (force : bool) (cids : list Cid) (idx idx' : RetentionIndex)
    (store store' : S) : Prop := mkEviction {
  en_policy : ri_policy idx' = ri_policy idx;
  en_jitter : ri_max_jitter_ms idx' = ri_max_jitter_ms idx;
  en_entry : forall c, maybe_evicted (ri_entries idx !! c) (ri_entries idx' !! c);
  en_entry_due : forall c, ri_entries idx' !! c <> ri_entries idx !! c ->
    c ∈ cids /\ allowed min_holders force c;
  en_store_due : forall c, store_has store c = true -> store_has store' c = false ->
    c ∈ cids /\ allowed min_holders force c;
  en_store_sub : forall c, store_has store' c = true -> store_has store c = true
}.

Lemma eviction_refl min_holders force cids idx store :
  eviction min_holders force cids idx idx store store.
Proof. constructor; try done; intros c; [by left | intros; congruence]. Qed.

Lemma eviction_skip min_holders force cid cids idx idx' store store' :
  eviction min_holders force cids idx idx' store store' ->
  eviction min_holders force (cid :: cids) idx idx' store store'.
Proof.
  intros []. constructor; try done.
  - intros c Hc. destruct (en_entry_due0 c Hc). split; [by apply list_elem_of_further | done].
  - intros c H1 H2. destruct (en_store_due0 c H1 H2). split; [by apply list_elem_of_further | done].
Qed.

Lemma delete_eviction min_holders force cid cids idx idx' store store' :
  allowed min_holders force cid ->
  eviction min_holders force cids (update_entry (set_evicted true) cid idx) idx'
    (store_delete store cid).2 store' ->
  eviction min_holders force (cid :: cids) idx idx' store store'.
Proof using BlobStoreLaws0.
  intros Ha []. constructor; try done.
  - intros c. specialize (en_entry0 c). cbn in en_entry0. destruct (decide (c = cid)) as [->|Hne].
    + rewrite lookup_alter_eq in en_entry0. apply (maybe_evicted_trans _ _ _ (or_intror eq_refl) en_entry0).
    + by rewrite lookup_alter_ne in en_entry0.
  - intros c Hc. destruct (decide (c = cid)) as [->|Hne]; [split; [apply list_elem_of_here | done]|].
    destruct (en_entry_due0 c) as [? ?]; [cbn; by rewrite lookup_alter_ne|].
    split; [by apply list_elem_of_further | done].
  - intros c H1 H2. destruct (decide (c = cid)) as [->|Hne]; [split; [apply list_elem_of_here | done]|].
    destruct (en_store_due0 c) as [? ?]; [by rewrite delete_only | done|].
    split; [by apply list_elem_of_further | done].
  - intros c Hc. specialize (en_store_sub0 c Hc). destruct (decide (c = cid)) as [->|Hne].
    + by apply delete_adds_nothing.
    + by rewrite delete_only in en_store_sub0.
Qed.

Lemma failed_delete_eviction min_holders force cid cids idx store :
  allowed min_holders force cid ->
  eviction min_holders force (cid :: cids) idx idx store (store_delete store cid).2.
Proof using BlobStoreLaws0.
  intros Ha. constructor; try done.
  - intros c. by left.
  - intros c H1 H2. destruct (decide (c = cid)) as [->|Hne]; [split; [apply list_elem_of_here | done]|].
    rewrite delete_only in H2 by done. congruence.
  - intros c Hc. destruct (decide (c = cid)) as [->|Hne]; [by apply delete_adds_nothing|].
    by rewrite delete_only in Hc.
Qed.

Lemma evict_set_eviction min_holders force cids : forall idx store report res idx' store',
  evict_set oracle idx store cids min_holders force report = (res, idx', store') ->
  eviction min_holders force cids idx idx' store store' /\
  (forall r, res = Ok r ->
     gr_evicted r + gr_kept_no_replica r = gr_evicted report + gr_kept_no_replica report + len cids).
Proof using BlobStoreLaws0.
  induction cids as [|cid cids IH]; intros idx store report res idx' store' Hrun; cbn [evict_set] in Hrun.
  - injection Hrun as <- <- <-. split; [apply eviction_refl|]. intros r [= <-]. rewrite len_nil. lia.
  - rewrite len_cons. destruct (force || (min_holders <=? oracle cid)) eqn:Ea.
    + apply allowed_spec in Ea. destruct (store_delete store cid) as [[b|e] store1] eqn:Ed.
      * destruct (IH _ _ _ _ _ _ Hrun) as [He Hr]. split.
        -- apply delete_eviction; [done|]. by rewrite Ed.
        -- intros r Hres. rewrite (Hr r Hres). cbn. lia.
      * injection Hrun as <- <- <-. split; [|done].
        pose proof (failed_delete_eviction min_holders force cid cids idx store Ea) as Hf. by rewrite Ed in Hf.
    + destruct (IH _ _ _ _ _ _ Hrun) as [He Hr]. split; [by apply eviction_skip|].
      intros r Hres. rewrite (Hr r Hres). cbn. lia.
Qed.

End laws.

(** ** What makes an entry due *)

(** The key of an entry is its address, and [entries] enumerates the index. *)
Definition enumerates (entries : list (Cid * BlobEntry)) (idx : RetentionIndex) : Prop :=
  entries ≡ₚ map_to_list (ri_entries idx).

Definition keyed (idx : RetentionIndex) : Prop :=
  map_Forall (fun c e => be_cid e = c) (ri_entries idx).

Lemma expired_entry idx cid now :
  is_expired idx cid now = true ->
  exists e d, ri_entries idx !! cid = Some e /\ be_pinned e = false /\ be_kind e = File /\
    entry_deadline (ri_policy idx) e = Some d /\ d <= now.
Proof.
  unfold is_expired, deadline. destruct (ri_entries idx !! cid) as [e|]; cbn; [|done].
  destruct (entry_deadline (ri_policy idx) e) as [d|] eqn:Ed; [|done]. intros Hd%N.leb_le.
  exists e, d. pose proof Ed as Ed'. unfold entry_deadline in Ed'.
  destruct (be_pinned e || bool_decide (be_kind e = InlineMedia)) eqn:Ep; [done|].
  apply orb_false_iff in Ep as [Hp Hk%bool_decide_eq_false]. split_and!; try done.
  by destruct (be_kind e).
Qed.

Lemma gc_due idx (entries : list (Cid * BlobEntry)) now c :
  c ∈ List.filter (fun cid => is_expired idx cid now && negb (is_evicted idx cid)) (fst <$> entries) ->
  is_expired idx c now = true /\ is_evicted idx c = false.
Proof. rewrite elem_List_filter, andb_true_iff, negb_true_iff. tauto. Qed.

Lemma clear_due idx entries age now c :
  enumerates entries idx -> keyed idx ->
  c ∈ be_cid <$> List.filter
    (fun e => bool_decide (be_kind e = File) && negb (be_pinned e) && negb (be_evicted e)
              && (age <=? now - be_created_at_ms e)) (snd <$> entries) ->
  exists e, ri_entries idx !! c = Some e /\ be_kind e = File /\ be_pinned e = false /\
    be_evicted e = false /\ age <= now - be_created_at_ms e.
Proof.
  intros Hen Hk (e & -> & He)%list_elem_of_fmap. apply elem_List_filter in He as [Hin Hp].
  apply list_elem_of_fmap in Hin as ([k e'] & -> & Hin). rewrite Hen, elem_of_map_to_list in Hin.
  cbn in *. rewrite !andb_true_iff, !negb_true_iff, bool_decide_eq_true, N.leb_le in Hp.
  rewrite (Hk _ _ Hin). exists e'. tauto.
Qed.

(** * Properties *)

(** Garbage collection never drops the last copy. Over any store that
    satisfies the interface, in any iteration order and even when a delete
    fails part-way: a blob whose bytes are gone afterwards was an unpinned,
    not-yet-evicted general file past its deadline with at least [min_holders]
    confirmed holders, no bytes appear, and every index entry is kept, with at
    most its evicted mark set; a completed pass reports each due blob once. *)
Theorem gc_never_drops_last_copy {C : Crypto} {S} `{BlobStore S} `{!BlobStoreLaws S}
    oracle entries idx (store : S) now min_holders res idx' store' :
  gc oracle entries idx store now min_holders = (res, idx', store') ->
  (forall c, store_has store c = true -> store_has store' c = false ->
     min_holders <= oracle c /\
     exists e d, ri_entries idx !! c = Some e /\ be_pinned e = false /\ be_kind e = File /\
       be_evicted e = false /\ entry_deadline (ri_policy idx) e = Some d /\ d <= now) /\
  (forall c, store_has store' c = true -> store_has store c = true) /\
  (forall c, ri_entries idx' !! c = ri_entries idx !! c \/
     (ri_entries idx' !! c = set_evicted true <$> ri_entries idx !! c /\ min_holders <= oracle c /\
      is_expired idx c now = true)) /\
  (forall r, res = Ok r -> gr_evicted r + gr_kept_no_replica r =
     len (List.filter (fun c => is_expired idx c now && negb (is_evicted idx c)) (fst <$> entries))).
Proof.
  intros Hrun. unfold gc in Hrun. cbv zeta in Hrun.
  destruct (evict_set_eviction oracle _ _ _ _ _ _ _ _ _ Hrun) as [[] Hr].
  assert (Hno : forall c, allowed oracle min_holders false c -> min_holders <= oracle c)
    by (intros c [|]; done).
  split_and!.
  - intros c H1 H2. destruct (en_store_due0 c H1 H2) as [[He Hev]%gc_due Ha]. split; [by apply Hno|].
    destruct (expired_entry _ _ _ He) as (e & d & Hl & Hp & Hk & Hd & Hle). exists e, d.
    unfold is_evicted in Hev. rewrite Hl in Hev. by split_and!.
  - done.
  - intros c. destruct (en_entry0 c) as [|E]; [by left|].
    destruct (decide (ri_entries idx' !! c = ri_entries idx !! c)) as [|Hne]; [by left | right].
    destruct (en_entry_due0 c Hne) as [[He _]%gc_due Ha]. split_and!; auto.
  - intros r Hres. rewrite (Hr r Hres). cbn. lia.
Qed.

(** Clearing the cache spares what the user must not lose. Whatever the
    age and even when forced, pinned blobs, inline media and blobs younger than
    the cutoff keep their bytes, and without [force] so does every blob with
    fewer than [min_holders] confirmed holders. *)
Theorem clear_spares_protected {C : Crypto} {S} `{BlobStore S} `{!BlobStoreLaws S}
    oracle entries idx (store : S) age now min_holders force res idx' store' c :
  enumerates entries idx -> keyed idx ->
  clear_older_than oracle entries idx store age now min_holders force = (res, idx', store') ->
  store_has store c = true -> store_has store' c = false ->
  (force = true \/ min_holders <= oracle c) /\
  exists e, ri_entries idx !! c = Some e /\ be_kind e = File /\ be_pinned e = false /\
    be_evicted e = false /\ age <= now - be_created_at_ms e.
Proof.
  intros Hen Hk Hrun H1 H2. unfold clear_older_than in Hrun. cbv zeta in Hrun.
  destruct (evict_set_eviction oracle _ _ _ _ _ _ _ _ _ Hrun) as [[] _].
  destruct (en_store_due0 c H1 H2) as [Hdue Ha]. split; [exact Ha|]. by eapply clear_due.
Qed.

(** The index after [insert] and the updates keeps its keys and its jitter bound. *)
Definition index_ok (idx : RetentionIndex) : Prop :=
  keyed idx /\ map_Forall (fun _ e => be_jitter_ms e <= ri_max_jitter_ms idx) (ri_entries idx).

Inductive index_step : RetentionIndex -> RetentionIndex -> Prop :=
| is_insert cid server size kind now random idx :
    index_step idx (insert_blob idx cid server size kind now random)
| is_touch cid now idx : index_step idx (touch idx cid now)
| is_pin cid pinned idx : index_step idx (set_pinned idx cid pinned)
| is_evict cid evicted idx : index_step idx (update_entry (set_evicted evicted) cid idx).

Lemma update_entry_ok f cid idx :
  (forall e, be_cid (f e) = be_cid e /\ be_jitter_ms (f e) = be_jitter_ms e) ->
  index_ok idx -> index_ok (update_entry f cid idx).
Proof.
  intros Hf [Hk Hj]. split; intros c e; cbn; destruct (decide (c = cid)) as [->|Hne].
  - rewrite lookup_alter_eq. intros (e' & He & ->)%fmap_Some. destruct (Hf e') as [-> _]. by apply Hk.
  - rewrite lookup_alter_ne by done. apply Hk.
  - rewrite lookup_alter_eq. intros (e' & He & ->)%fmap_Some. destruct (Hf e') as [_ ->]. by eapply Hj.
  - rewrite lookup_alter_ne by done. apply Hj.
Qed.

Lemma index_step_ok idx idx' :
  index_step idx idx' -> index_ok idx ->
  index_ok idx' /\ ri_max_jitter_ms idx' = ri_max_jitter_ms idx /\ ri_policy idx' = ri_policy idx.
Proof.
  intros Hs Hok. destruct Hs; (split; [|done]); try (by apply update_entry_ok).
  destruct Hok as [Hk Hj]. unfold insert_blob. split; cbn.
  - by apply map_Forall_insert_2.
  - apply map_Forall_insert_2; [|done]. cbn. destruct (N.eqb_spec (ri_max_jitter_ms idx) 0); [lia|].
    pose proof (N.mod_lt random (ri_max_jitter_ms idx + 1) ltac:(lia)). lia.
Qed.

Lemma index_run_ok idx idx' :
  rtc index_step idx idx' -> index_ok idx ->
  index_ok idx' /\ ri_max_jitter_ms idx' = ri_max_jitter_ms idx /\ ri_policy idx' = ri_policy idx.
Proof.
  induction 1 as [|x y z Hs _ IH]; [done|]. intros Hok.
  destruct (index_step_ok _ _ Hs Hok) as (Hok' & Hj & Hp). destruct (IH Hok') as (? & -> & ->). done.
Qed.

(** Deadlines are decorrelated but bounded. For every blob of an index
    built from a policy by inserting, touching, pinning and evicting, a blob
    with an age limit expires no earlier than its configured age after creation
    and at most a quarter of the global default later, provided these instants
    fit in 64 bits; pinned blobs, inline media and [Never] have no deadline. *)
Theorem deadline_window policy idx cid e :
  rtc index_step (RetentionIndex_new policy) idx -> ri_entries idx !! cid = Some e ->
  match deadline idx cid with
  | None => be_pinned e = true \/ be_kind e = InlineMedia \/ effective policy cid (be_server e) = Never
  | Some d => be_pinned e = false /\ be_kind e = File /\
      exists base, effective policy cid (be_server e) = After base /\
        (be_created_at_ms e + base + global_ms policy / 4 <= u64_max ->
         be_created_at_ms e + base <= d <= be_created_at_ms e + base + global_ms policy / 4)
  end.
Proof.
  intros Hrun He. destruct (index_run_ok _ _ Hrun) as ([Hk Hj] & Hm & Hp).
  { split; apply map_Forall_empty. }
  cbn in Hm, Hp. specialize (Hk _ _ He). specialize (Hj _ _ He). cbn in Hk, Hj. rewrite Hm in Hj.
  unfold deadline. rewrite He. cbn. unfold entry_deadline. rewrite Hp, Hk.
  destruct (be_pinned e); cbn; [by left|]. case_bool_decide; [by right; left|].
  destruct (effective policy cid (be_server e)) as [|base] eqn:Ee; [by right; right|].
  split_and!; [done | by destruct (be_kind e)|]. exists base. split; [done|]. intros Hfit. unfold wadd.
  rewrite (N.mod_small (be_created_at_ms e + base)) by (unfold u64_max in *; lia).
  rewrite N.mod_small by (unfold u64_max in *; lia). lia.
Qed.

(** The rollback of a mismatched re-fetch is not limited to what it wrote.
    When the offered bytes do not have the requested address, the call fails
    with [CidMismatch] and leaves the index unchanged, and the in-memory store
    no longer holds the offered bytes' own address: if a blob with that address
    was held before, it is deleted although this call did not write it. *)
Theorem rehydrate_mismatch_deletes {C : Crypto} idx s cid data :
  Cid_of data <> cid ->
  exists s', rehydrate idx s cid data = (Err CidMismatch, idx, s') /\ mem_has s' (Cid_of data) = false.
Proof.
  intros Hne. unfold rehydrate. cbn [store_put memory_blob_store].
  assert (Hc : (mem_put s data).1 = Cid_of data)
    by (unfold mem_put; by destruct (ms_blobs s !! Cid_of data)).
  rewrite Hc, bool_decide_eq_true_2 by done. eexists. split; [reflexivity|]. cbn.
  apply bool_decide_eq_false. unfold mem_delete.
  destruct (ms_blobs (mem_put s data).2 !! Cid_of data) eqn:E; cbn.
  - rewrite lookup_delete_eq. by intros [].
  - rewrite E. by intros [].
Qed.

(** The unchecked sum in [deadline] wraps: a server override meant to keep
    files for the longest representable time makes them expire at once. *)
Theorem deadline_overflow_expires_now p e :
  be_pinned e = false -> be_kind e = File -> be_jitter_ms e = 0 ->
  effective p (be_cid e) (be_server e) = After u64_max ->
  0 < be_created_at_ms e <= u64_max ->
  entry_deadline p e = Some (be_created_at_ms e - 1).
Proof.
  intros Hp Hk Hj He Hc. unfold entry_deadline. rewrite Hp, Hk, He, Hj. cbn. f_equal. unfold wadd.
  rewrite N.add_0_r, N.Div0.mod_mod.
  replace (be_created_at_ms e + u64_max) with (be_created_at_ms e - 1 + 1 * (u64_max + 1)) by lia.
  rewrite N.Div0.mod_add. apply N.mod_small. lia.
Qed.

(** ** Order independence over the in-memory store *)

Lemma filter_swap (l : list Cid) a b :
  filter (fun c => c <> a) (filter (fun c => c <> b) l) = filter (fun c => c <> b) (filter (fun c => c <> a) l).
Proof. rewrite !list_filter_filter. apply list_filter_iff. tauto. Qed.

Lemma mem_delete_swap s (a b : Cid) :
  (mem_delete (mem_delete s a).2 b).2 = (mem_delete (mem_delete s b).2 a).2.
Proof.
  destruct (decide (a = b)) as [->|Hne]; [done|]. unfold mem_delete.
  destruct (ms_blobs s !! a) as [x|] eqn:Ea; destruct (ms_blobs s !! b) as [y|] eqn:Eb; cbn;
    rewrite ?lookup_delete_ne, ?Ea, ?Eb by done; cbn; try done.
  rewrite filter_swap, delete_delete. f_equal; lia.
Qed.

Section order.
Context {C : Crypto}.
Variable oracle : Cid -> N.

Lemma evict_set_perm min_holders force cids cids' :
  cids ≡ₚ cids' -> forall idx (s : MemoryBlobStore) report,
  evict_set oracle idx s cids min_holders force report =
  evict_set oracle idx s cids' min_holders force report.
Proof.
  induction 1 as [|c l l' _ IH|a b l|l1 l2 l3 _ IH1 _ IH2]; intros idx s report.
  - done.
  - cbn [evict_set]. destruct (force || _); [|apply IH]. cbn [store_delete memory_blob_store]. apply IH.
  - cbn [evict_set]. destruct (force || (min_holders <=? oracle b)) eqn:Eb;
      destruct (force || (min_holders <=? oracle a)) eqn:Ea; cbn [store_delete memory_blob_store]; try done.
    rewrite mem_delete_swap.
    assert (Hu : update_entry (set_evicted true) a (update_entry (set_evicted true) b idx) =
                 update_entry (set_evicted true) b (update_entry (set_evicted true) a idx)).
    { unfold update_entry; cbn. destruct (decide (a = b)) as [->|Hne]; [done|]. by rewrite alter_alter_ne. }
    by rewrite Hu.
  - by rewrite IH1.
Qed.

End order.

(** Over the in-memory store the outcome of a pass does not depend on the
    hash map's iteration order: garbage collection and cache clearing return
    the same report, index and store for any two enumerations of the index. *)
Theorem eviction_order_independent {C : Crypto} oracle entries entries' idx (s : MemoryBlobStore)
    age now min_holders force :
  enumerates entries idx -> enumerates entries' idx ->
  gc oracle entries idx s now min_holders = gc oracle entries' idx s now min_holders /\
  clear_older_than oracle entries idx s age now min_holders force =
  clear_older_than oracle entries' idx s age now min_holders force.
Proof.
  intros H1 H2. assert (Hp : entries ≡ₚ entries') by (by rewrite H1, H2). split.
  - unfold gc. cbv zeta. apply evict_set_perm, List_filter_perm. by rewrite Hp.
  - unfold clear_older_than. cbv zeta. apply evict_set_perm, fmap_Permutation, List_filter_perm. by rewrite Hp.
Qed.

(** ** Witnesses *)

Definition toy_cid : Cid := Cid_of (C:=toy_crypto) [x04; x05].

Definition toy_index : RetentionIndex :=
  insert_blob (RetentionIndex_new (with_global 100)) toy_cid [x01] 2 File 50 77.

Definition toy_entry : BlobEntry := mkBlobEntry toy_cid [x01] 50 50 2 File false false 25.

Lemma toy_index_run : rtc index_step (RetentionIndex_new (with_global 100)) toy_index.
Proof. apply rtc_once. apply is_insert. Qed.

Lemma toy_index_entry : ri_entries toy_index !! toy_cid = Some toy_entry.
Proof. by vm_compute. Qed.

Definition toy_entries : list (Cid * BlobEntry) := map_to_list (ri_entries toy_index).

Definition toy_gc : result StorageError GcReport * RetentionIndex * MemoryBlobStore :=
  gc (fun _ => 2) toy_entries toy_index toy_store 175 2.

Lemma gc_never_drops_last_copy_witness :
  store_has toy_store toy_cid = true /\ store_has toy_gc.2 toy_cid = false /\ 2 <= 2.
Proof.
  split; [by vm_compute|]. split; [by vm_compute|].
  destruct (gc_never_drops_last_copy (C:=toy_crypto) (fun _ => 2) toy_entries toy_index toy_store 175 2
    toy_gc.1.1 toy_gc.1.2 toy_gc.2) as (Hd & _); [by vm_compute|].
  refine (proj1 (Hd toy_cid _ _)); by vm_compute.
Defined.

Definition toy_clear : result StorageError GcReport * RetentionIndex * MemoryBlobStore :=
  clear_older_than (fun _ => 0) toy_entries toy_index toy_store 10 175 2 true.

Lemma toy_index_keyed : keyed toy_index.
Proof. apply (index_run_ok _ _ toy_index_run). split; apply map_Forall_empty. Qed.

Lemma clear_spares_protected_witness :
  exists e, ri_entries toy_index !! toy_cid = Some e /\ be_pinned e = false /\
    10 <= 175 - be_created_at_ms e.
Proof.
  destruct (clear_spares_protected (C:=toy_crypto) (fun _ => 0) toy_entries toy_index toy_store 10 175 2 true
    toy_clear.1.1 toy_clear.1.2 toy_clear.2 toy_cid) as (_ & e & He & _ & Hp & _ & Ha).
  - unfold enumerates, toy_entries. reflexivity.
  - exact toy_index_keyed.
  - by vm_compute.
  - by vm_compute.
  - by vm_compute.
  - exact (ex_intro _ e (conj He (conj Hp Ha))).
Defined.

Lemma deadline_window_witness :
  deadline toy_index toy_cid = Some 175 /\
  exists base, effective (with_global 100) toy_cid [x01] = After base /\ 50 + base <= 175.
Proof.
  assert (Hd : deadline toy_index toy_cid = Some 175) by by vm_compute.
  split; [exact Hd|].
  pose proof (deadline_window (with_global 100) toy_index toy_cid toy_entry toy_index_run toy_index_entry) as H.
  rewrite Hd in H. destruct H as (_ & _ & base & Hb & Hw). exists base. split; [exact Hb|].
  apply Hw. assert (Hb' : effective (with_global 100) toy_cid [x01] = After 100) by by vm_compute.
  change (be_server toy_entry) with [x01] in Hb. rewrite Hb' in Hb. injection Hb as <-. by vm_compute.
Defined.

Lemma eviction_order_independent_witness :
  gc (fun _ => 2) toy_entries toy_index toy_store 175 2 =
  gc (fun _ => 2) (rev toy_entries) toy_index toy_store 175 2.
Proof.
  refine (proj1 (eviction_order_independent (C:=toy_crypto) (fun _ => 2) toy_entries (rev toy_entries)
    toy_index toy_store 0 175 2 false _ _)).
  - unfold enumerates, toy_entries. reflexivity.
  - unfold enumerates, toy_entries. symmetry. apply Permutation_rev.
Defined.

(** The held blob of the toy store is lost by a mismatched re-fetch. *)
Lemma rehydrate_mismatch_deletes_witness :
  mem_has toy_store toy_cid = true /\
  exists s', rehydrate toy_index toy_store (be_bytes 32 0) [x04; x05]
    = (Err CidMismatch, toy_index, s') /\ mem_has s' toy_cid = false.
Proof.
  split; [by vm_compute|].
  refine (rehydrate_mismatch_deletes (C:=toy_crypto) toy_index toy_store (be_bytes 32 0) [x04; x05] _).
  by vm_compute.
Defined.
