(* ===== verification/Protection.v ===== *)
(** Protection of blobs that creative documents refer to, from
    [crates/catcoms-app/src/store/creative_references.rs]: the durable
    references a complete scan finds, the holds that writers add before their
    I/O, the job-owned holds of work that is not durable yet, and the deletion
    guard of [ProtectedBlobs].

    An [Arc<()>] used only for identity is a number never used before. The
    owners whose [CreativeHold] has not been dropped are the live set: a weak
    reference has a strong count exactly while its owner is in it. A poisoned
    mutex is a flag of the shared state. *)

From S2P Require Import Prelude Pad Crypto Blob.
From stdpp Require Import base list gmap relations.
From Stdlib Require Import Init.Byte.
Local Open Scope N_scope.

Definition MAX_CREATIVE_REFERENCES : N := 65536.
Definition MAX_TRANSIENT_HOLD_OWNERS : N := 8.

(** [AppError::Invalid], the only error of this module *)
Inductive AppInvalid : Type := InvalidReferences.

(** * References *)

Record CreativeReferences := mkCreativeReferences {
  cr_groups : gmap bytes (gset Cid);
  cr_count : N
}.

Definition no_references : CreativeReferences := mkCreativeReferences ∅ 0.

Definition for_group (r : CreativeReferences) (group : bytes) : gset Cid := default ∅ (cr_groups r !! group).

Fixpoint add_references (r : CreativeReferences) (group : bytes) (cids : list Cid)
    : result AppInvalid unit * CreativeReferences :=
  match cids with
  | [] => (Ok tt, r)
  | cid :: rest =>
      if bool_decide (cid ∈ for_group r group) then add_references r group rest
      else if cr_count r =? MAX_CREATIVE_REFERENCES then (Err InvalidReferences, r)
      else add_references
             (mkCreativeReferences (<[group := {[cid]} ∪ for_group r group]> (cr_groups r)) (cr_count r + 1))
             group rest
  end.

Definition references_add (r : CreativeReferences) (group : bytes) (cids : list Cid)
    : result AppInvalid unit * CreativeReferences :=
  if (len group =? 0) || (256 <? len group) then (Err InvalidReferences, r) else add_references r group cids.

(** * Protection *)

Record TransientHold := mkTransientHold { th_owner : N; th_group : bytes; th_cids : gset Cid }.

Record Protection := mkProtection {
  pt_generation : N;
  pt_pins : option CreativeReferences;
  pt_transient : list TransientHold;
  (** identities handed out so far, the owners still alive, and the mutex *)
  pt_next : N;
  pt_live : gset N;
  pt_poisoned : bool
}.

Definition owned (s : Protection) (h : TransientHold) : bool := bool_decide (th_owner h ∈ pt_live s).

Definition Protection_new (epoch_files_absent : bool) : Protection :=
  mkProtection 0 (if epoch_files_absent then Some no_references else None) [] 1 ∅ false.

Definition set_pins (s : Protection) (pins : option CreativeReferences) : Protection :=
  mkProtection (pt_generation s) pins (pt_transient s) (pt_next s) (pt_live s) (pt_poisoned s).

Definition set_transient (s : Protection) (transient : list TransientHold) : Protection :=
  mkProtection (pt_generation s) (pt_pins s) transient (pt_next s) (pt_live s) (pt_poisoned s).

(** [self.generation = Arc::new(())] *)
Definition renew (s : Protection) : Protection :=
  mkProtection (pt_next s) (pt_pins s) (pt_transient s) (pt_next s + 1) (pt_live s) (pt_poisoned s).

Definition unknown (s : Protection) : Protection := set_pins (renew s) None.

Definition install (s : Protection) (generation : N) (pins : CreativeReferences)
    : result AppInvalid unit * Protection :=
  if generation =? pt_generation s then (Ok tt, set_pins s (Some pins)) else (Err InvalidReferences, s).

Definition reap (s : Protection) : Protection := set_transient s (List.filter (owned s) (pt_transient s)).

Definition transient_holds (s : Protection) (group : bytes) (cid : Cid) : bool :=
  existsb (fun h => owned s h && bool_decide (th_group h = group) && bool_decide (cid ∈ th_cids h)) (pt_transient s).

Definition live_transient_cids (s : Protection) : N :=
  sum_of (fun h => N.of_nat (size (th_cids h))) (List.filter (owned s) (pt_transient s)).

(** [hold_creative]: a writer's references, before its I/O; an error stands for
    references it could not determine. *)
Definition hold_creative (s : Protection) (group : bytes) (cids : result AppInvalid (list Cid)) : Protection :=
  if pt_poisoned s then s
  else
    let s := renew s in
    match cids with
    | Ok cids =>
        match pt_pins s with
        | Some pins =>
            let '(r, pins) := references_add pins group cids in
            set_pins s (if is_ok r then Some pins else None)
        | None => s
        end
    | Err _ => set_pins s None
    end.

Inductive CreativeHoldError : Type := Scope | Unavailable | Capacity.

(** Returns the owner of the new hold. [checked_add] on [usize]. *)
Definition hold_creative_transient (s : Protection) (group : bytes) (cids : gset Cid)
    : result CreativeHoldError N * Protection :=
  if (len group =? 0) || (256 <? len group) then (Err Scope, s)
  else if pt_poisoned s then (Err Unavailable, s)
  else
    let s := reap s in
    if MAX_TRANSIENT_HOLD_OWNERS <=? len (pt_transient s) then (Err Capacity, s)
    else
      let durable := match pt_pins s with Some pins => cr_count pins | None => 0 end in
      match (held ← checked_add usize_max durable (live_transient_cids s);
             checked_add usize_max held (N.of_nat (size cids))) with
      | Some total =>
          if MAX_CREATIVE_REFERENCES <? total then (Err Capacity, s)
          else
            let owner := pt_next s in
            (Ok owner,
             mkProtection (pt_generation s) (pt_pins s) (pt_transient s ++ [mkTransientHold owner group cids])
               (pt_next s + 1) ({[owner]} ∪ pt_live s) (pt_poisoned s))
      | None => (Err Capacity, s)
      end.

(** Dropping a [CreativeHold]: its entry goes if the mutex is sound, then its
    owner is freed. *)
Definition drop_hold (s : Protection) (owner : N) : Protection :=
  let s := if pt_poisoned s then s
           else set_transient s (List.filter (fun h => negb (owned s h && (th_owner h =? owner))) (pt_transient s)) in
  mkProtection (pt_generation s) (pt_pins s) (pt_transient s) (pt_next s) (pt_live s ∖ {[owner]}) (pt_poisoned s).

Definition creative_references_known (s : Protection) : bool :=
  negb (pt_poisoned s) && match pt_pins s with Some _ => true | None => false end.

(** * The guarded store *)

Definition protected_delete {I} (inner : I -> Cid -> result StorageError bool * I)
    (group : bytes) (s : Protection) (i : I) (cid : Cid) : result StorageError bool * Protection * I :=
  if pt_poisoned s then (Err Io, s, i)
  else
    let s := reap s in
    if transient_holds s group cid then (Ok false, s, i)
    else match pt_pins s with
         | None => (Err Io, s, i)
         | Some pins =>
             if bool_decide (cid ∈ for_group pins group) then (Ok false, s, i)
             else let '(r, i) := inner i cid in (r, s, i)
         end.

Definition protected_cids (group : bytes) (s : Protection) : option (gset Cid) * Protection :=
  if pt_poisoned s then (None, s)
  else
    let s := reap s in
    match pt_pins s with
    | None => (None, s)
    | Some pins =>
        (Some (foldl (fun acc h => acc ∪ th_cids h) (for_group pins group)
                 (List.filter (fun h => owned s h && bool_decide (th_group h = group)) (pt_transient s))), s)
    end.

(** * Runs *)

(** What other tasks do to the shared state between two moments: start a scan,
    install what a scan that captured [generation] found, hold references,
    finish a job, reap, or panic while holding the lock. *)
Inductive ProtEvent : Type :=
| EvUnknown
| EvInstall (generation : N) (pins : CreativeReferences)
| EvHold (group : bytes) (cids : result AppInvalid (list Cid))
| EvTransient (group : bytes) (cids : gset Cid)
| EvDrop (owner : N)
| EvReap
| EvPoison.

Definition prot_apply (s : Protection) (e : ProtEvent) : Protection :=
  match e with
  | EvUnknown => if pt_poisoned s then s else unknown s
  | EvInstall g pins => if pt_poisoned s then s else (install s g pins).2
  | EvHold group cids => hold_creative s group cids
  | EvTransient group cids => (hold_creative_transient s group cids).2
  | EvDrop owner => drop_hold s owner
  | EvReap => if pt_poisoned s then s else reap s
  | EvPoison => mkProtection (pt_generation s) (pt_pins s) (pt_transient s) (pt_next s) (pt_live s) true
  end.

Definition prot_run (s : Protection) (es : list ProtEvent) : Protection := foldl prot_apply s es.

Record references_ok (r : CreativeReferences) : Prop := mkReferencesOk {
  ro_count : cr_count r = sum_of (fun e => N.of_nat (size e.2)) (map_to_list (cr_groups r));
  ro_bound : cr_count r <= MAX_CREATIVE_REFERENCES
}.

Record prot_ok (s : Protection) : Prop := mkProtOk {
  po_generation : pt_generation s < pt_next s;
  po_owners : Forall (fun h => th_owner h < pt_next s) (pt_transient s);
  po_live : forall o, o ∈ pt_live s -> o < pt_next s;
  po_distinct : NoDup (th_owner <$> pt_transient s);
  po_few : len (pt_transient s) <= MAX_TRANSIENT_HOLD_OWNERS;
  po_pins : forall r, pt_pins s = Some r -> references_ok r
}.

(** ** References *)

Lemma sum_of_insert (m : gmap bytes (gset Cid)) g x :
  sum_of (fun e => N.of_nat (size e.2)) (map_to_list (<[g := x]> m)) + N.of_nat (size (default ∅ (m !! g))) =
  sum_of (fun e => N.of_nat (size e.2)) (map_to_list m) + N.of_nat (size x).
Proof.
  destruct (m !! g) as [y|] eqn:E; cbn [default from_option id].
  - rewrite <- (insert_delete_id m g y E) at 2. rewrite <- insert_delete_eq.
    rewrite !(sum_of_perm _ _ _ (map_to_list_insert (delete g m) g _ (lookup_delete_eq m g))). cbn [sum_of snd]. lia.
  - rewrite (sum_of_perm _ _ _ (map_to_list_insert m g x E)). cbn [sum_of snd]. rewrite size_empty. lia.
Qed.

Lemma add_references_ok cids : forall r group,
  references_ok r -> references_ok (add_references r group cids).2.
Proof.
  induction cids as [|c cids IH]; intros r group Hr; cbn; [done|].
  destruct (bool_decide (c ∈ for_group r group)) eqn:Hin; [by apply IH|].
  destruct (cr_count r =? MAX_CREATIVE_REFERENCES) eqn:Hc; [done|]. apply IH.
  destruct Hr as [Hcount Hb]. apply N.eqb_neq in Hc. apply bool_decide_eq_false in Hin. constructor; cbn; [|lia].
  pose proof (sum_of_insert (cr_groups r) group ({[c]} ∪ for_group r group)) as Hs.
  rewrite size_union in Hs by set_solver. rewrite size_singleton in Hs. fold (for_group r group) in Hs. lia.
Qed.

Lemma references_add_ok r group cids : references_ok r -> references_ok (references_add r group cids).2.
Proof. intros Hr. unfold references_add. destruct (_ || _); [done|by apply add_references_ok]. Qed.

Lemma for_group_insert r group x n g :
  for_group (mkCreativeReferences (<[group := x]> (cr_groups r)) n) g = if decide (g = group) then x else for_group r g.
Proof.
  unfold for_group. cbn. destruct (decide (g = group)) as [->|Hne]; [by rewrite lookup_insert_eq|by rewrite lookup_insert_ne].
Qed.

(** An addition keeps what was there, and one that succeeds adds every address. *)
Lemma add_references_grows cids : forall r group,
  let '(res, r') := add_references r group cids in
  (forall g, for_group r g ⊆ for_group r' g) /\
  (res = Ok tt -> forall c, c ∈ cids -> c ∈ for_group r' group).
Proof.
  induction cids as [|c cids IH]; intros r group; cbn; [split; [done|by intros _ c ?%elem_of_nil]|].
  destruct (bool_decide (c ∈ for_group r group)) eqn:Hin; [apply bool_decide_eq_true in Hin|].
  - specialize (IH r group). destruct (add_references r group cids) as [res r']. destruct IH as [Hsub Hall].
    split; [done|]. intros Hok d [->|Hd]%elem_of_cons; [by apply Hsub|by apply Hall].
  - destruct (cr_count r =? MAX_CREATIVE_REFERENCES); [split; done|].
    pose proof (for_group_insert r group ({[c]} ∪ for_group r group) (cr_count r + 1)) as Hfg.
    set (r1 := mkCreativeReferences _ _) in *. specialize (IH r1 group).
    destruct (add_references r1 group cids) as [res r']. destruct IH as [Hsub Hall]. split.
    + intros g x Hx. apply Hsub. rewrite Hfg. destruct (decide (g = group)) as [->|]; set_solver.
    + intros Hok d [->|Hd]%elem_of_cons; [|by apply Hall]. apply Hsub. rewrite Hfg, decide_True by done. set_solver.
Qed.

(** ** The invariant *)

Lemma Forall_owner_mono (l : list TransientHold) n m :
  n <= m -> Forall (fun h => th_owner h < n) l -> Forall (fun h => th_owner h < m) l.
Proof. intros Hle H. eapply Forall_impl; [exact H|]. cbn. intros h. lia. Qed.

Lemma filter_distinct (f : TransientHold -> bool) l :
  NoDup (th_owner <$> l) -> NoDup (th_owner <$> List.filter f l).
Proof.
  intros Hn. apply (sublist_NoDup _ _ Hn). clear Hn. induction l as [|h l IH]; cbn; [done|]. destruct (f h); cbn; by constructor.
Qed.

Lemma set_transient_ok s f : prot_ok s -> prot_ok (set_transient s (List.filter f (pt_transient s))).
Proof.
  intros [Hg Ho Hl Hd Hf Hp]. constructor; cbn; [done|by apply Forall_List_filter|done|by apply filter_distinct| |done].
  pose proof (len_filter_le f (pt_transient s)). lia.
Qed.

Lemma set_pins_ok s pins : prot_ok s -> (forall r, pins = Some r -> references_ok r) -> prot_ok (set_pins s pins).
Proof. by intros [Hg Ho Hl Hd Hf Hp] H; constructor. Qed.

Lemma renew_ok s : prot_ok s -> prot_ok (renew s).
Proof.
  intros [Hg Ho Hl Hd Hf Hp]. constructor; cbn; [lia|by eapply Forall_owner_mono; [|done]; lia| |done|done|done].
  intros o Hin. specialize (Hl o Hin). lia.
Qed.

Lemma reap_ok s : prot_ok s -> prot_ok (reap s).
Proof. apply set_transient_ok. Qed.

Create HintDb protection.
#[local] Hint Resolve set_transient_ok set_pins_ok renew_ok reap_ok : protection.

Lemma hold_creative_ok s group cids : prot_ok s -> prot_ok (hold_creative s group cids).
Proof.
  intros Hok. unfold hold_creative. destruct (pt_poisoned s); [done|].
  destruct cids as [cids|e]; [|apply set_pins_ok; auto with protection; done].
  cbn [renew pt_pins]. destruct (pt_pins s) as [pins|] eqn:E; [|auto with protection].
  destruct (references_add pins group cids) as [res r'] eqn:Ea. apply set_pins_ok; [auto with protection|].
  destruct (is_ok res); [|done]. intros r [= <-].
  pose proof (references_add_ok pins group cids (po_pins _ Hok _ E)) as H. by rewrite Ea in H.
Qed.

(** What an admitted hold adds. *)
Lemma hold_creative_transient_shape s group cids r s' :
  hold_creative_transient s group cids = (r, s') ->
  match r with
  | Ok owner =>
      owner = pt_next s /\ pt_poisoned s = false /\ len (pt_transient (reap s)) < MAX_TRANSIENT_HOLD_OWNERS /\
      (match pt_pins s with Some pins => cr_count pins | None => 0 end) + live_transient_cids (reap s)
        + N.of_nat (size cids) <= MAX_CREATIVE_REFERENCES /\
      s' = mkProtection (pt_generation s) (pt_pins s) (pt_transient (reap s) ++ [mkTransientHold owner group cids])
             (pt_next s + 1) ({[owner]} ∪ pt_live s) false
  | Err _ => s' = s \/ s' = reap s
  end.
Proof.
  unfold hold_creative_transient. destruct (_ || _); [intros [= <- <-]; by left|].
  destruct (pt_poisoned s) eqn:Hp; [intros [= <- <-]; by left|].
  destruct (N.leb_spec MAX_TRANSIENT_HOLD_OWNERS (len (pt_transient (reap s)))) as [L|L]; [intros [= <- <-]; by right|].
  cbn [reap set_transient pt_pins pt_generation pt_next pt_live pt_poisoned]. rewrite Hp.
  unfold checked_add. destruct (_ <=? usize_max); cbn [mbind option_bind]; [|intros [= <- <-]; by right].
  destruct (_ <=? usize_max); [|intros [= <- <-]; by right].
  destruct (N.ltb_spec MAX_CREATIVE_REFERENCES
    (match pt_pins s with Some pins => cr_count pins | None => 0 end + live_transient_cids (reap s) + N.of_nat (size cids)))
    as [L'|L']; [intros [= <- <-]; by right|].
  intros [= <- <-]. done.
Qed.

Lemma hold_creative_transient_ok s group cids : prot_ok s -> prot_ok (hold_creative_transient s group cids).2.
Proof.
  intros Hok. destruct (hold_creative_transient s group cids) as [r s'] eqn:E.
  apply hold_creative_transient_shape in E. cbn. destruct r as [owner|e].
  - destruct E as (-> & _ & Hlen & _ & ->). destruct (reap_ok s Hok) as [Hg Ho Hl Hd Hf Hp]. cbn in Hg, Hl.
    constructor; cbn [pt_generation pt_next pt_transient pt_live pt_pins]; [lia| | | | |apply Hok].
    + apply Forall_app. split; [by eapply Forall_owner_mono; [|done]; cbn; lia|]. constructor; [cbn; lia|done].
    + intros o [->%elem_of_singleton|Hin]%elem_of_union; [lia|]. specialize (Hl o Hin). lia.
    + rewrite fmap_app. apply NoDup_app. split; [done|]. split; [|apply NoDup_singleton].
      intros o (h & Eo & Hh)%list_elem_of_fmap Hs%list_elem_of_singleton. rewrite Forall_forall in Ho.
      specialize (Ho h Hh). cbn in Ho, Hs. lia.
    + rewrite len_app. change (len [_]) with 1. lia.
  - destruct E as [->| ->]; [done|by apply reap_ok].
Qed.

Lemma drop_hold_ok s owner : prot_ok s -> prot_ok (drop_hold s owner).
Proof.
  intros Hok. unfold drop_hold.
  set (s1 := if pt_poisoned s then s else _).
  assert (prot_ok s1) as [Hg Ho Hl Hd Hf Hp] by (subst s1; destruct (pt_poisoned s); auto with protection).
  constructor; cbn; [done|done| |done|done|done]. intros o [Hin _]%elem_of_difference. by apply Hl.
Qed.

Definition prot_event_ok (e : ProtEvent) : Prop :=
  match e with EvInstall _ pins => references_ok pins | _ => True end.

Lemma prot_apply_ok s e : prot_event_ok e -> prot_ok s -> prot_ok (prot_apply s e).
Proof.
  intros He Hok. destruct e as [|g pins|group cids|group cids|owner| |]; cbn.
  - destruct (pt_poisoned s); [done|]. apply set_pins_ok; [auto with protection|done].
  - destruct (pt_poisoned s); [done|]. unfold install. destruct (g =? pt_generation s); [|done].
    apply set_pins_ok; [done|]. by intros r [= <-].
  - by apply hold_creative_ok.
  - by apply hold_creative_transient_ok.
  - by apply drop_hold_ok.
  - destruct (pt_poisoned s); auto with protection.
  - destruct Hok. by constructor.
Qed.

Lemma prot_run_ok es : forall s, Forall prot_event_ok es -> prot_ok s -> prot_ok (prot_run s es).
Proof.
  induction es as [|e es IH]; intros s He Hok; [done|]. inversion He; subst. cbn. apply IH; [done|].
  by apply prot_apply_ok.
Qed.

Lemma Protection_new_ok absent : prot_ok (Protection_new absent).
Proof.
  constructor; cbn; [done|done|set_solver|constructor|done|].
  intros r. destruct absent; [|done]. intros [= <-]. by constructor.
Qed.

(** * The guard and the plan agree *)

Lemma transient_holds_true s group c :
  transient_holds s group c = true <->
  exists h, h ∈ pt_transient s /\ th_owner h ∈ pt_live s /\ th_group h = group /\ c ∈ th_cids h.
Proof.
  unfold transient_holds, owned. rewrite existsb_exists. setoid_rewrite <- list_elem_of_In.
  setoid_rewrite andb_true_iff. setoid_rewrite andb_true_iff. setoid_rewrite bool_decide_eq_true. naive_solver.
Qed.

Lemma reap_elem s h : h ∈ pt_transient (reap s) <-> h ∈ pt_transient s /\ th_owner h ∈ pt_live s.
Proof. cbn. rewrite elem_List_filter. unfold owned. by rewrite bool_decide_eq_true. Qed.

Lemma transient_holds_reap s group c : transient_holds (reap s) group c = transient_holds s group c.
Proof.
  apply eq_true_iff_eq. rewrite !transient_holds_true. setoid_rewrite reap_elem. cbn. naive_solver.
Qed.

Lemma foldl_union_elem (l : list TransientHold) : forall acc (c : Cid),
  c ∈ foldl (fun acc h => acc ∪ th_cids h) acc l <-> c ∈ acc \/ exists h, h ∈ l /\ c ∈ th_cids h.
Proof.
  induction l as [|h l IH]; intros acc c; cbn; [set_solver|]. rewrite IH. set_solver.
Qed.

Lemma protected_cids_elem group s p c :
  (protected_cids group s).1 = Some p ->
  c ∈ p <-> transient_holds s group c = true \/ exists r, pt_pins s = Some r /\ c ∈ for_group r group.
Proof.
  unfold protected_cids. destruct (pt_poisoned s); [done|]. cbn [reap set_transient pt_pins].
  destruct (pt_pins s) as [r|] eqn:E; [|done]. intros [= <-]. rewrite foldl_union_elem, transient_holds_true.
  setoid_rewrite elem_List_filter. setoid_rewrite andb_true_iff.
  setoid_rewrite bool_decide_eq_true. setoid_rewrite reap_elem. unfold owned. naive_solver.
Qed.

Lemma protected_delete_spec {I} (inner : I -> Cid -> result StorageError bool * I) group s i c :
  let '(r, s', i') := protected_delete inner group s i c in
  s' = (protected_cids group s).2 /\
  match (protected_cids group s).1 with
  | Some p => if decide (c ∈ p) then r = Ok false /\ i' = i else (r, i') = inner i c
  | None => r <> Ok true /\ i' = i
  end.
Proof.
  destruct ((protected_cids group s).1) as [p|] eqn:Ep.
  - pose proof (protected_cids_elem group s p c Ep) as Hp. revert Ep. unfold protected_cids, protected_delete.
    destruct (pt_poisoned s); [done|]. rewrite transient_holds_reap. cbn [reap set_transient pt_pins].
    destruct (pt_pins s) as [r|]; [|done]. intros _.
    destruct (transient_holds s group c).
    { split; [done|]. rewrite decide_True by (apply Hp; by left). done. }
    destruct (bool_decide (c ∈ for_group r group)) eqn:Hb.
    { apply bool_decide_eq_true in Hb. split; [done|]. rewrite decide_True by (apply Hp; right; by exists r). done. }
    apply bool_decide_eq_false in Hb. destruct (inner i c) as [res i'] eqn:Ei. split; [done|].
    rewrite decide_False; [done|]. intros [?|(r' & [= <-] & Hr)]%Hp; done.
  - revert Ep. unfold protected_cids, protected_delete. destruct (pt_poisoned s); [done|].
    cbn [reap set_transient pt_pins]. destruct (pt_pins s); [done|]. intros _.
    destruct (transient_holds _ _ _); done.
Qed.

(** Deletion is guarded by exactly the set eviction plans around. A delete
    reaches the store underneath if and only if that set is known and does not
    have the address; a protected address is answered [Ok(false)], and with the
    set unknown (never scanned, a writer's references unclear, or the lock
    poisoned) nothing is deleted. *)
Theorem protected_delete_exact {I} (inner : I -> Cid -> result StorageError bool * I) group s i c :
  let '(r, s', i') := protected_delete inner group s i c in
  s' = (protected_cids group s).2 /\
  match (protected_cids group s).1 with
  | Some p => if decide (c ∈ p) then r = Ok false /\ i' = i else (r, i') = inner i c
  | None => r <> Ok true /\ i' = i
  end.
Proof. apply protected_delete_spec. Qed.

(** * Holds outlive everything but their owner *)

Definition holds (s : Protection) (owner : N) (group : bytes) (cids : gset Cid) : Prop :=
  owner ∈ pt_live s /\ mkTransientHold owner group cids ∈ pt_transient s.

Lemma holds_set_pins s pins o g x : holds (set_pins s pins) o g x <-> holds s o g x.
Proof. done. Qed.

Lemma holds_renew s o g x : holds (renew s) o g x <-> holds s o g x.
Proof. done. Qed.

Lemma holds_reap s o g x : holds s o g x -> holds (reap s) o g x.
Proof. intros [Hl Hin]. split; [done|]. by apply reap_elem. Qed.

Lemma holds_apply s e o g x :
  holds s o g x -> e <> EvDrop o -> holds (prot_apply s e) o g x.
Proof.
  intros Hh He. destruct e as [|gen pins|group cids|group cids|owner| |]; cbn.
  - by destruct (pt_poisoned s).
  - destruct (pt_poisoned s); [done|]. unfold install. by destruct (gen =? pt_generation s).
  - unfold hold_creative. destruct (pt_poisoned s); [done|]. destruct cids as [cids|?]; [|done].
    destruct (pt_pins (renew s)); [|done]. by destruct (references_add _ _ _).
  - destruct (hold_creative_transient s group cids) as [r s'] eqn:E. apply hold_creative_transient_shape in E. cbn.
    destruct r as [owner|?]; [|destruct E as [->| ->]; [done|by apply holds_reap]].
    destruct E as (-> & _ & _ & _ & ->). destruct (holds_reap _ _ _ _ Hh) as [Hl Hin]. split; cbn in *; [set_solver|].
    apply elem_of_app. by left.
  - assert (owner <> o) as Hne by congruence. destruct Hh as [Hl Hin]. unfold drop_hold. split; [cbn; destruct (pt_poisoned s); set_solver|].
    cbn. destruct (pt_poisoned s); [done|]. cbn. apply elem_List_filter. split; [done|]. cbn.
    rewrite (proj2 (N.eqb_neq o owner)) by done. by rewrite andb_false_r.
  - destruct (pt_poisoned s); [done|]. by apply holds_reap.
  - done.
Qed.

(** C34: a job-owned hold protects its addresses for as long as the job lives. After
    a hold is admitted, whatever other tasks do (scans start and install,
    writers add holds, other jobs come and go, a task panics), until its own
    owner is dropped no delete of one of its addresses reaches the store, and
    any set eviction plans around has it. *)
Theorem transient_hold_protects {I} (inner : I -> Cid -> result StorageError bool * I) s group cids owner s' es c i :
  hold_creative_transient s group cids = (Ok owner, s') ->
  EvDrop owner ∉ es -> c ∈ cids ->
  let now := prot_run s' es in
  (protected_delete inner group now i c).2 = i /\
  (protected_delete inner group now i c).1.1 <> Ok true /\
  (forall p, (protected_cids group now).1 = Some p -> c ∈ p).
Proof.
  intros E Hes Hc now. assert (holds now owner group cids) as [Hl Hin].
  { apply hold_creative_transient_shape in E as (-> & _ & _ & _ & ->). subst now.
    match goal with |- holds (prot_run ?s1 es) _ _ _ => assert (holds s1 (pt_next s) group cids) as Hh end.
    { split; cbn; [set_solver|]. apply elem_of_app. right. by left. }
    revert Hh. generalize (mkProtection (pt_generation s) (pt_pins s)
      (pt_transient (reap s) ++ [mkTransientHold (pt_next s) group cids]) (pt_next s + 1) ({[pt_next s]} ∪ pt_live s) false) as s1.
    induction es as [|e es IH]; intros s1 Hh; [done|]. apply not_elem_of_cons in Hes as [He Hes].
    cbn. apply IH; [done|]. apply holds_apply; [done|congruence]. }
  assert (transient_holds now group c = true) as Ht.
  { apply transient_holds_true. exists (mkTransientHold owner group cids). done. }
  split; [|split].
  - unfold protected_delete. destruct (pt_poisoned now); [done|]. by rewrite transient_holds_reap, Ht.
  - unfold protected_delete. destruct (pt_poisoned now); [done|]. by rewrite transient_holds_reap, Ht.
  - intros p Hp. apply (protected_cids_elem group now p c Hp). by left.
Qed.

(** * Scans cannot take away a newer hold *)

(** [c] is protected, or nothing is known to be unprotected. *)
Definition kept (s : Protection) (group : bytes) (c : Cid) : Prop :=
  forall r, pt_pins s = Some r -> c ∈ for_group r group.

Lemma hold_creative_kept s group cids c :
  pt_poisoned s = false -> c ∈ cids -> kept (hold_creative s group (Ok cids)) group c.
Proof.
  intros Hp Hc. unfold hold_creative. rewrite Hp. cbn [renew pt_pins]. destruct (pt_pins s) as [pins|] eqn:E.
  - unfold references_add. destruct (_ || _); [by intros r|].
    pose proof (add_references_grows cids pins group) as H. destruct (add_references pins group cids) as [res r'].
    destruct H as [_ H]. intros r. cbn. destruct res as [[]|]; cbn; [|done]. intros [= <-]. by apply H.
  - intros r. cbn. by rewrite E.
Qed.

Definition older_install (generation : N) (e : ProtEvent) : Prop :=
  match e with EvInstall g _ => g < generation | _ => True end.

Lemma kept_apply s e generation group c :
  prot_ok s -> generation <= pt_generation s -> older_install generation e -> kept s group c ->
  kept (prot_apply s e) group c /\ generation <= pt_generation (prot_apply s e).
Proof.
  intros Hok Hg He Hk. pose proof (po_generation _ Hok) as Hlt.
  destruct e as [|gen pins|group' cids|group' cids|owner| |]; cbn in He |- *.
  - destruct (pt_poisoned s); [done|]. split; [by intros r|cbn; lia].
  - destruct (pt_poisoned s); [done|]. unfold install. destruct (gen =? pt_generation s) eqn:Eg; [|done].
    apply N.eqb_eq in Eg. lia.
  - unfold hold_creative. destruct (pt_poisoned s); [done|]. destruct cids as [cids|?]; [|split; [by intros r|cbn; lia]].
    cbn [renew pt_pins]. destruct (pt_pins s) as [r|] eqn:Er; [|split; [intros r; cbn; by rewrite Er|cbn; lia]].
    unfold references_add. destruct (_ || _); [split; [by intros r'|cbn; lia]|].
    pose proof (add_references_grows cids r group') as H. destruct (add_references r group' cids) as [res r'].
    destruct H as [Hsub _]. split; [|cbn; lia]. intros r1. cbn. destruct (is_ok res); [|done]. intros [= <-].
    apply Hsub. by apply Hk.
  - destruct (hold_creative_transient s group' cids) as [r s'] eqn:E. apply hold_creative_transient_shape in E. cbn.
    destruct r as [owner|?]; [destruct E as (_ & _ & _ & _ & ->); done|destruct E as [->| ->]; done].
  - unfold drop_hold. by destruct (pt_poisoned s).
  - by destruct (pt_poisoned s).
  - done.
Qed.

Lemma kept_run gen group c es : forall s,
  Forall prot_event_ok es -> Forall (older_install gen) es ->
  gen <= pt_generation s -> prot_ok s -> kept s group c -> kept (prot_run s es) group c.
Proof.
  induction es as [|e es IH]; intros s He Hold Hg Hok Hk; [done|].
  inversion He; subst. inversion Hold; subst. cbn.
  destruct (kept_apply s e gen group c) as [Hk' Hg']; try done. apply IH; try done. by apply prot_apply_ok.
Qed.

(** A scan that began before a writer's hold cannot take the hold away. Once a
    writer has held an address, no sequence of events in which every installed
    scan captured its generation before the hold lets a delete of that address
    reach the store. *)
Theorem durable_hold_survives_scans {I} (inner : I -> Cid -> result StorageError bool * I) s group cids es c i :
  prot_ok s -> pt_poisoned s = false -> c ∈ cids ->
  Forall prot_event_ok es -> Forall (older_install (pt_generation (hold_creative s group (Ok cids)))) es ->
  let now := prot_run (hold_creative s group (Ok cids)) es in
  (protected_delete inner group now i c).2 = i /\ (protected_delete inner group now i c).1.1 <> Ok true.
Proof.
  intros Hok Hp Hc Hes Hold now.
  assert (kept now group c) as Hk.
  { by apply (kept_run _ group c es _ Hes Hold (N.le_refl _) (hold_creative_ok s group (Ok cids) Hok)), hold_creative_kept. }
  unfold protected_delete. destruct (pt_poisoned now); [done|]. destruct (transient_holds (reap now) group c); [done|].
  cbn [reap set_transient pt_pins]. destruct (pt_pins now) as [r|] eqn:E; [|done].
  by rewrite (bool_decide_eq_true_2 (c ∈ for_group r group)) by by apply Hk.
Qed.

(** The rails hold in every reachable state: the reference count is the number
    of references and at most 65,536, at most eight jobs hold references and
    each under its own identity, and a new hold is admitted only while durable
    and held references together stay within the rail. *)
Theorem protection_bounded absent es :
  Forall prot_event_ok es ->
  let s := prot_run (Protection_new absent) es in
  len (pt_transient s) <= MAX_TRANSIENT_HOLD_OWNERS /\
  NoDup (th_owner <$> pt_transient s) /\
  (forall r, pt_pins s = Some r -> references_ok r) /\
  forall group cids owner s', hold_creative_transient s group cids = (Ok owner, s') ->
    match pt_pins s' with Some pins => cr_count pins | None => 0 end + live_transient_cids s' <= MAX_CREATIVE_REFERENCES.
Proof.
  intros Hes s. pose proof (prot_run_ok es _ Hes (Protection_new_ok absent)) as Hok. fold s in Hok.
  split; [apply Hok|]. split; [apply Hok|]. split; [apply Hok|].
  intros group cids owner s' E. apply hold_creative_transient_shape in E as (-> & _ & _ & Hb & ->).
  cbn [pt_pins]. unfold live_transient_cids in *. cbn [pt_transient pt_live]. rewrite List.filter_app, sum_of_app.
  assert (forall h, h ∈ pt_transient (reap s) -> owned (reap s) h = true) as Hall.
  { intros h [_ Hh]%reap_elem. by apply bool_decide_eq_true. }
  assert (forall (f : TransientHold -> bool), sum_of (fun h => N.of_nat (size (th_cids h))) (List.filter f (pt_transient (reap s)))
    <= sum_of (fun h => N.of_nat (size (th_cids h))) (List.filter (owned (reap s)) (pt_transient (reap s)))) as Hle.
  { intros f. rewrite (List_filter_id (owned (reap s))) by (by apply Forall_forall). apply sum_of_filter_le. }
  specialize (Hle (owned (mkProtection (pt_generation s) (pt_pins s)
    (pt_transient (reap s) ++ [mkTransientHold (pt_next s) group cids]) (pt_next s + 1) ({[pt_next s]} ∪ pt_live s) false))).
  cbn [List.filter]. destruct (owned _ (mkTransientHold _ _ _)); cbn [sum_of th_cids]; lia.
Qed.

(** * Witnesses *)

Definition toy_inner (i : N) (c : Cid) : result StorageError bool * N := (Ok true, i + 1).
Definition toy_prot : Protection := Protection_new true.
Definition toy_held : result CreativeHoldError N * Protection := hold_creative_transient toy_prot [x01] {[ [x07] ]}.

(** A scan starts, installs an empty set, and a writer holds another address. *)
Definition toy_events : list ProtEvent := [EvUnknown; EvInstall 2 no_references; EvHold [x01] (Ok [[x08]]); EvReap].

Lemma no_references_ok : references_ok no_references.
Proof. by constructor. Qed.

Lemma toy_held_ok : toy_held = (Ok 1, toy_held.2).
Proof. vm_compute. reflexivity. Qed.

Lemma transient_hold_protects_witness :
  (protected_delete toy_inner [x01] (prot_run toy_held.2 toy_events) 0 [x07]).2 = 0 /\
  (protected_delete toy_inner [x01] (prot_run toy_held.2 toy_events) 0 [x09]).2 = 1.
Proof.
  split; [|vm_compute; reflexivity].
  refine (proj1 (transient_hold_protects toy_inner toy_prot [x01] {[ [x07] ]} 1 toy_held.2 toy_events [x07] 0 toy_held_ok _ _)).
  - unfold toy_events. rewrite !elem_of_cons. intros [?|[?|[?|[?|?%elem_of_nil]]]]; done.
  - by apply elem_of_singleton.
Defined.

Lemma durable_hold_survives_scans_witness :
  (protected_delete toy_inner [x01] (prot_run (hold_creative toy_prot [x01] (Ok [[x07]])) [EvInstall 0 no_references]) 0 [x07]).2 = 0.
Proof.
  refine (proj1 (durable_hold_survives_scans toy_inner toy_prot [x01] [[x07]] [EvInstall 0 no_references] [x07] 0
    (Protection_new_ok true) eq_refl _ _ _)).
  - by left.
  - constructor; [exact no_references_ok|constructor].
  - constructor; [reflexivity|constructor].
Defined.

Lemma protection_bounded_witness : len (pt_transient (prot_run (Protection_new true) toy_events)) <= MAX_TRANSIENT_HOLD_OWNERS.
Proof.
  refine (proj1 (protection_bounded true toy_events _)). repeat constructor. exact (ro_bound _ no_references_ok).
Defined.
