(* ===== verification/CachePlan.v ===== *)
(** The size-limited blob cache: the index of [crates/catcoms-storage/src/cache.rs]
    (what one handle knows of its directory, and the scan that builds it) and
    the eviction planner of [crates/catcoms-app/src/cache_plan.rs].

    A [BTreeMap] is an ordered map, the mount set the ascending list of its
    elements, and a set the planner only tests for membership a finite set. A
    directory is what [read_dir] yields: entries that cannot be read, and the
    facts the scan asks of the others. *)

From S2P Require Import Prelude OrdMap Wire Crypto Blob.
From stdpp Require Import base list gmap relations sorting.
From Stdlib Require Import Init.Byte.
Local Open Scope N_scope.

Definition MIN_SEALED_RECORD : N := 40.
Definition MAX_CACHE_ENTRIES : N := 1048576.

(** * The cache index *)

Record CacheIndex := mkCacheIndex {
  ci_sizes : bmap Cid N;
  ci_mount : list Cid;
  ci_complete : bool;
  ci_usage : N
}.

Record CacheUsage := mkCacheUsage { cu_bytes : N; cu_complete : bool }.

#[global] Instance CacheUsage_eq_dec : EqDecision CacheUsage.
Proof. solve_decision. Defined.

Definition total (sizes : bmap Cid N) : N :=
  foldl (fun sum n => sat_add u64_max sum n) 0 (om_values sizes).

Definition summary (i : CacheIndex) : CacheUsage := mkCacheUsage (ci_usage i) (ci_complete i).

Definition with_mount (sizes : bmap Cid N) (mount : list Cid) (complete : bool) : CacheIndex :=
  mkCacheIndex sizes (List.filter (fun cid => om_has cid sizes) mount) complete (total sizes).

Definition from_sizes (sizes : bmap Cid N) (complete : bool) : CacheIndex :=
  with_mount sizes (om_keys sizes) complete.

(** [mount.remove] *)
Definition drop_cid (cid : Cid) (l : list Cid) : list Cid :=
  List.filter (fun c => negb (bool_decide (c = cid))) l.

Definition note_written (i : CacheIndex) (cid : Cid) (n : N) : CacheIndex :=
  let usage := match om_get cid (ci_sizes i) with
               | Some old => ci_usage i - old
               | None => ci_usage i
               end in
  mkCacheIndex (om_insert cid n (ci_sizes i)) (drop_cid cid (ci_mount i)) (ci_complete i)
    (sat_add u64_max usage n).

Definition note_removed (i : CacheIndex) (cid : Cid) : CacheIndex :=
  let usage := match om_get cid (ci_sizes i) with
               | Some old => ci_usage i - old
               | None => ci_usage i
               end in
  mkCacheIndex (om_remove cid (ci_sizes i)) (drop_cid cid (ci_mount i)) (ci_complete i) usage.

(** ** The scan *)

(** What the scan asks of a directory entry: the address its name spells, its
    type and length where they can be read, and whether unlinking it succeeds. *)
Record DirEntry := mkDirEntry {
  de_cid : option Cid;
  de_is_file : option bool;
  de_len : option N;
  de_unlinks : bool
}.

Record CacheScanReport := mkCacheScanReport {
  sr_entries : N;
  sr_bytes : N;
  sr_complete : bool;
  sr_recovered_temps : N;
  sr_removed_torn : N
}.

(** The loop's variables: entries examined, sizes, [complete], torn records removed. *)
Record ScanState := mkScanState {
  ss_entries : N;
  ss_sizes : bmap Cid N;
  ss_complete : bool;
  ss_torn : N
}.

Definition scan_incomplete (s : ScanState) : ScanState :=
  mkScanState (ss_entries s) (ss_sizes s) false (ss_torn s).

Definition scan_entry (sealed recover : bool) (e : DirEntry) (s : ScanState) : ScanState :=
  match de_cid e with
  | None => s
  | Some cid =>
      let s := mkScanState (ss_entries s + 1) (ss_sizes s) (ss_complete s) (ss_torn s) in
      match de_is_file e with
      | None => scan_incomplete s
      | Some false => s
      | Some true =>
          match de_len e with
          | None => scan_incomplete s
          | Some n =>
              if recover && sealed && (n <? MIN_SEALED_RECORD) then
                if de_unlinks e
                then mkScanState (ss_entries s) (ss_sizes s) (ss_complete s) (ss_torn s + 1)
                else scan_incomplete s
              else mkScanState (ss_entries s) (om_insert cid n (ss_sizes s)) (ss_complete s) (ss_torn s)
          end
      end
  end.

Fixpoint scan_loop (sealed recover : bool) (entries : list (option DirEntry)) (s : ScanState) : ScanState :=
  match entries with
  | [] => s
  | e :: rest =>
      if MAX_CACHE_ENTRIES <=? ss_entries s then scan_incomplete s
      else match e with
           | None => scan_loop sealed recover rest (scan_incomplete s)
           | Some e => scan_loop sealed recover rest (scan_entry sealed recover e s)
           end
  end.

(** A temporary file of [incoming/]: the process and mount generation its name
    spells (none for a name [parse_temp] refuses), whether it is a plain file
    and whether unlinking it succeeds. *)
Record TempEntry := mkTempEntry {
  te_owner : option (N * N);
  te_is_file : bool;
  te_unlinks : bool
}.

Definition abandoned (pid : N) (live : gset N) (e : TempEntry) : bool :=
  match te_owner e with
  | Some (owner, generation) => negb (owner =? pid) || negb (bool_decide (generation ∈ live))
  | None => true
  end.

(** [None] is a directory that cannot be listed; its unreadable entries are
    skipped by [flatten]. *)
Definition recover_incoming (pid : N) (live : gset N) (incoming : option (list (option TempEntry))) : N :=
  match incoming with
  | None => 0
  | Some entries =>
      len (List.filter (fun e => abandoned pid live e && te_is_file e && te_unlinks e)
             (take (N.to_nat MAX_CACHE_ENTRIES) (omap id entries)))
  end.

Definition scan (pid : N) (live : gset N) (incoming : option (list (option TempEntry)))
    (dir : option (list (option DirEntry))) (sealed recover : bool) (previous : option CacheIndex)
    : CacheIndex * CacheScanReport :=
  let temps := if recover then recover_incoming pid live incoming else 0 in
  let s0 := mkScanState 0 [] true 0 in
  let s := match dir with
           | Some entries => scan_loop sealed recover entries s0
           | None => scan_incomplete s0
           end in
  let sizes := ss_sizes s in
  let mount := if recover then om_keys sizes
               else match previous with
                    | Some index => List.filter (fun cid => om_has cid sizes) (ci_mount index)
                    | None => []
                    end in
  let bytes := total sizes in
  (mkCacheIndex sizes mount (ss_complete s) bytes,
   mkCacheScanReport (ss_entries s) bytes (ss_complete s) temps (ss_torn s)).

(** * The planner *)

Definition MIN_CACHE_LIMIT : N := 1024 * 1024 * 1024.
Definition MAX_CACHE_LIMIT : N := 1024 * MIN_CACHE_LIMIT.
Definition DEFAULT_CACHE_LIMIT : N := 5 * MIN_CACHE_LIMIT.
Definition LEAVING_SOON_DIVISOR : N := 10.
Definition NEARLY_FULL_PERCENT : N := 90.

Record PlanRow := mkPlanRow { pr_position : N; pr_file : Cid; pr_chunks : list Cid }.

Record PlanInput := mkPlanInput {
  pi_index : CacheIndex;
  pi_rows : list PlanRow;
  pi_profile_refs : gset Cid;
  pi_pins : gset Cid;
  pi_retained : gset Cid;
  pi_limit : option N;
  pi_unclaimed_allowed : bool
}.

Record CachePlan := mkCachePlan {
  cp_usage : N;
  cp_limit : option N;
  cp_pinned_bytes : N;
  cp_duplicates : list Cid;
  cp_evict : list Cid;
  cp_freed : N;
  cp_leaving_soon_files : N;
  cp_leaving_soon_bytes : N;
  cp_over_after : bool
}.

Definition usage_after (p : CachePlan) : N := cp_usage p - cp_freed p.

Record EvictCandidate := mkEvictCandidate { ca_cid : Cid; ca_file : option Cid; ca_bytes : N }.

(** [sizes[cid]], of an address the map is known to hold *)
Definition size_of (sizes : bmap Cid N) (cid : Cid) : N := default 0 (om_get cid sizes).

Definition note_chunk (row : PlanRow) (m : bmap Cid (N * Cid)) (chunk : Cid) : bmap Cid (N * Cid) :=
  let entry := default (pr_position row, pr_file row) (om_get chunk m) in
  om_insert chunk (if entry.1 <=? pr_position row then (pr_position row, pr_file row) else entry) m.

Definition chunk_position (rows : list PlanRow) : bmap Cid (N * Cid) :=
  foldl (fun m row => foldl (note_chunk row) m (pr_chunks row)) [] rows.

Section planner.
Context (input : PlanInput).

Definition plan_sizes : bmap Cid N := ci_sizes (pi_index input).

Definition plan_pinned_bytes : N :=
  foldl (fun sum e => sat_add u64_max sum e.2) 0
    (List.filter (fun e : Cid * N => bool_decide (e.1 ∈ pi_pins input)) plan_sizes).

Definition plan_duplicates : list Cid :=
  List.filter (fun cid => bool_decide (cid ∈ pi_retained input) && negb (bool_decide (cid ∈ pi_pins input)))
    (om_keys plan_sizes).

Definition freed_duplicates : N :=
  foldl (fun sum cid => sat_add u64_max sum (size_of plan_sizes cid)) 0 plan_duplicates.

Definition cache_eligible (cid : Cid) : bool :=
  om_has cid plan_sizes && negb (bool_decide (cid ∈ pi_pins input))
  && negb (bool_decide (cid ∈ plan_duplicates)) && negb (bool_decide (cid ∈ pi_profile_refs input)).

(** Class 1: one candidate per group. *)
Definition plan_unclaimed : list (list EvictCandidate) :=
  omap (fun cid =>
      if cache_eligible cid && negb (om_has cid (chunk_position (pi_rows input)))
         && negb (bool_decide (cid ∈ pi_profile_refs input))
      then Some [mkEvictCandidate cid None (size_of plan_sizes cid)]
      else None)
    (List.filter (fun _ => pi_unclaimed_allowed input) (ci_mount (pi_index input))).

(** Class 2: the listed chunks by position. *)
Definition push_listed (m : bmap N (list EvictCandidate)) (e : Cid * (N * Cid)) : bmap N (list EvictCandidate) :=
  if cache_eligible e.1
  then om_insert e.2.1 (default [] (om_get e.2.1 m) ++ [mkEvictCandidate e.1 (Some e.2.2) (size_of plan_sizes e.1)]) m
  else m.

Definition by_position : bmap N (list EvictCandidate) :=
  foldl push_listed [] (chunk_position (pi_rows input)).

Definition plan_ordered : list (list EvictCandidate) := plan_unclaimed ++ om_values by_position.

(** The eviction loop's variables. *)
Record Evicting := mkEvicting { ev_evict : list Cid; ev_current : N; ev_freed : N }.

Definition evict_candidate (s : Evicting) (c : EvictCandidate) : Evicting :=
  mkEvicting (ev_evict s ++ [ca_cid c]) (ev_current s - ca_bytes c) (sat_add u64_max (ev_freed s) (ca_bytes c)).

Fixpoint evict_groups (limit : N) (groups : list (list EvictCandidate)) (s : Evicting) : Evicting :=
  match groups with
  | [] => s
  | g :: rest => if ev_current s <=? limit then s else evict_groups limit rest (foldl evict_candidate s g)
  end.

(** The forecast loop's variables. *)
Record Leaving := mkLeaving { lv_projected : N; lv_bytes : N; lv_files : gset Cid }.

Definition leave_candidate (s : Leaving) (c : EvictCandidate) : Leaving :=
  mkLeaving (lv_projected s - ca_bytes c) (sat_add u64_max (lv_bytes s) (ca_bytes c))
    (match ca_file c with Some f => {[f]} ∪ lv_files s | None => lv_files s end).

Fixpoint leave_groups (limit : N) (groups : list (list EvictCandidate)) (s : Leaving) : Leaving :=
  match groups with
  | [] => s
  | g :: rest => if lv_projected s <=? limit then s else leave_groups limit rest (foldl leave_candidate s g)
  end.

Definition cache_plan : CachePlan :=
  let usage := ci_usage (pi_index input) in
  let after_duplicates := usage - freed_duplicates in
  match pi_limit input with
  | None =>
      mkCachePlan usage None plan_pinned_bytes plan_duplicates [] freed_duplicates 0 0 false
  | Some limit =>
      let e := evict_groups limit plan_ordered (mkEvicting [] after_duplicates freed_duplicates) in
      let l := leave_groups limit plan_ordered
                 (mkLeaving (sat_add u64_max after_duplicates (limit / LEAVING_SOON_DIVISOR)) 0 ∅) in
      mkCachePlan usage (Some limit) plan_pinned_bytes plan_duplicates (ev_evict e) (ev_freed e)
        (N.of_nat (size (lv_files l))) (lv_bytes l) (limit <? ev_current e)
  end.
End planner.

(** [u128] holds every intermediate value: [usage] is a [u64]. *)
Definition div_ceil (a b : N) : N := (a + b - 1) / b.

Definition migrated_limit (usage : N) : option N :=
  let needed := div_ceil (usage * 5) 4 in
  let whole := div_ceil needed MIN_CACHE_LIMIT * MIN_CACHE_LIMIT in
  let limit := N.max whole DEFAULT_CACHE_LIMIT in
  if limit <=? MAX_CACHE_LIMIT then Some limit else None.

Definition valid_limit (limit : option N) : bool :=
  match limit with
  | None => true
  | Some bytes => (MIN_CACHE_LIMIT <=? bytes) && (bytes <=? MAX_CACHE_LIMIT)
  end.

(** * Sums and the index invariant *)

Lemma sat_fold {A} (f : A -> N) l : forall acc,
  acc + sum_of f l <= u64_max ->
  foldl (fun sum x => sat_add u64_max sum (f x)) acc l = acc + sum_of f l.
Proof.
  induction l as [|x l IH]; intros acc H; cbn in *; [lia|].
  assert (sat_add u64_max acc (f x) = acc + f x) as -> by (unfold sat_add; lia).
  rewrite IH; lia.
Qed.

(** The bytes the records really take. *)
Definition held_bytes (sizes : bmap Cid N) : N := sum_of id (om_values sizes).

Lemma total_exact sizes : held_bytes sizes <= u64_max -> total sizes = held_bytes sizes.
Proof. intros H. unfold total. by rewrite (sat_fold id). Qed.

Record cache_index_ok (i : CacheIndex) : Prop := mkCacheIndexOk {
  cio_wf : om_wf (ci_sizes i);
  cio_mount : StronglySorted klt (ci_mount i);
  cio_held : Forall (fun c => om_has c (ci_sizes i) = true) (ci_mount i);
  cio_usage : ci_usage i = held_bytes (ci_sizes i);
  cio_bound : held_bytes (ci_sizes i) <= u64_max
}.

Lemma om_has_true {V} c (m : bmap Cid V) : om_has c m = true <-> is_Some (om_get c m).
Proof. unfold om_has. destruct (om_get c m) as [v|]; [by split; [by exists v|]|]. split; [done|by intros [? [=]]]. Qed.

Lemma om_has_keys {V} c (m : bmap Cid V) : om_wf m -> om_has c m = true <-> c ∈ om_keys m.
Proof.
  intros Hm. rewrite om_has_true, <- (om_get_keys c m Hm).
  split; [intros [? ->]; done|]. destruct (om_get c m); [eauto|done].
Qed.

Lemma om_keys_fmap_sum (sizes : bmap Cid N) : om_wf sizes -> held_bytes sizes = sum_of (size_of sizes) (om_keys sizes).
Proof.
  intros Hwf. unfold held_bytes, om_values, om_keys.
  assert (forall e, e ∈ sizes -> size_of sizes e.1 = e.2) as H.
  { intros [c n] He. unfold size_of. cbn [fst snd]. by rewrite (proj2 (om_get_elem c n sizes Hwf) He). }
  revert H. generalize (size_of sizes). clear Hwf. induction sizes as [|[c n] sizes IH]; intros f H; cbn; [done|].
  pose proof (H (c, n) ltac:(left)) as Hc. cbn in Hc. unfold id at 1. rewrite Hc. f_equal. apply IH. intros e He. apply H. by right.
Qed.

Lemma drop_cid_elem c d l : d ∈ drop_cid c l <-> d ∈ l /\ d <> c.
Proof.
  unfold drop_cid. rewrite elem_List_filter, negb_true_iff, bool_decide_eq_false. done.
Qed.

Lemma with_mount_ok sizes mount complete :
  om_wf sizes -> StronglySorted klt mount -> held_bytes sizes <= u64_max -> cache_index_ok (with_mount sizes mount complete).
Proof.
  intros Hwf Hm Hb. constructor; cbn [with_mount ci_sizes ci_mount ci_usage];
    [done|by apply StronglySorted_List_filter| |by apply total_exact|done].
  apply Forall_forall. by intros c [_ H]%elem_List_filter.
Qed.

Lemma from_sizes_ok sizes complete :
  strictly_ascending (om_keys sizes) = true -> held_bytes sizes <= u64_max -> cache_index_ok (from_sizes sizes complete).
Proof. intros H%strictly_ascending_sorted Hb. by apply with_mount_ok. Qed.

Lemma note_written_ok i c n :
  cache_index_ok i -> held_bytes (om_insert c n (ci_sizes i)) <= u64_max -> cache_index_ok (note_written i c n).
Proof.
  intros [Hwf Hm Hh Hu Hb] Hn. pose proof (om_sum_insert id c n (ci_sizes i)) as Hsum. fold (held_bytes (ci_sizes i)) (held_bytes (om_insert c n (ci_sizes i))) in Hsum.
  constructor; cbn [note_written ci_sizes ci_mount ci_usage]; [by apply om_wf_insert|by apply StronglySorted_List_filter| | |done].
  - apply Forall_forall. intros d Hd%drop_cid_elem. rewrite Forall_forall in Hh. destruct Hd as [Hd Hne].
    specialize (Hh d Hd). revert Hh. rewrite !om_has_true, om_get_insert_ne; done.
  - pose proof (om_sum_remove id c (ci_sizes i)) as Hr. fold (held_bytes (ci_sizes i)) in Hr.
    destruct (om_get c (ci_sizes i)) as [old|]; cbn in Hsum, Hr; unfold sat_add; lia.
Qed.

Lemma note_removed_ok i c : cache_index_ok i -> cache_index_ok (note_removed i c).
Proof.
  intros [Hwf Hm Hh Hu Hb]. pose proof (om_sum_remove id c (ci_sizes i)) as Hr.
  fold (held_bytes (ci_sizes i)) (held_bytes (om_remove c (ci_sizes i))) in Hr.
  constructor; cbn [note_removed ci_sizes ci_mount ci_usage]; [by apply om_wf_remove|by apply StronglySorted_List_filter| | |].
  - apply Forall_forall. intros d [Hd Hne]%drop_cid_elem. rewrite Forall_forall in Hh.
    specialize (Hh d Hd). revert Hh. rewrite !om_has_true, om_get_remove_ne; done.
  - destruct (om_get c (ci_sizes i)); cbn in Hr; lia.
  - lia.
Qed.

Lemma scan_entry_wf sealed recover e s : om_wf (ss_sizes s) -> om_wf (ss_sizes (scan_entry sealed recover e s)).
Proof.
  unfold scan_entry. destruct (de_cid e), (de_is_file e) as [[]|], (de_len e) as [n|]; cbn; try done.
  destruct (_ && _ && _); [by destruct (de_unlinks e)|]. by apply om_wf_insert.
Qed.

Lemma scan_loop_wf sealed recover entries : forall s,
  om_wf (ss_sizes s) -> om_wf (ss_sizes (scan_loop sealed recover entries s)).
Proof.
  induction entries as [|[e|] entries IH]; intros s Hs; cbn; [done| |];
    (destruct (_ <=? _); [done|]); apply IH; [by apply scan_entry_wf|done].
Qed.

Lemma scan_wf pid live incoming dir sealed recover previous :
  om_wf (ci_sizes (scan pid live incoming dir sealed recover previous).1).
Proof. cbn. destruct dir; [|apply om_wf_nil]. apply scan_loop_wf, om_wf_nil. Qed.

Lemma scan_ok pid live incoming dir sealed recover previous :
  let i := (scan pid live incoming dir sealed recover previous).1 in
  held_bytes (ci_sizes i) <= u64_max ->
  (forall p, previous = Some p -> StronglySorted klt (ci_mount p)) ->
  cache_index_ok i.
Proof.
  intros i Hb Hp. pose proof (scan_wf pid live incoming dir sealed recover previous) as Hwf. fold i in Hwf.
  constructor; [done| | |by apply total_exact|done].
  - subst i. cbn. destruct recover; [exact Hwf|]. destruct previous as [p|]; [|constructor].
    by apply StronglySorted_List_filter, Hp.
  - apply Forall_forall. intros c. subst i. unfold scan in *. cbn in *. destruct recover.
    + by apply om_has_keys.
    + destruct previous as [p|]; [|by intros ?%elem_of_nil]. by intros [_ H]%elem_List_filter.
Qed.

(** * Where a chunk stands in the listing *)

Lemma elem_concat {A} (x : A) (ls : list (list A)) : x ∈ concat ls <-> exists l, l ∈ ls /\ x ∈ l.
Proof. rewrite list_elem_of_In, in_concat. by setoid_rewrite list_elem_of_In. Qed.

(** The listings of [c] stand at [p] at the newest, in a row of file [f]. *)
Definition newest (rows : list PlanRow) (c : Cid) (p : N) (f : Cid) : Prop :=
  (exists row, row ∈ rows /\ c ∈ pr_chunks row /\ pr_position row = p /\ pr_file row = f) /\
  (forall row, row ∈ rows -> c ∈ pr_chunks row -> pr_position row <= p).

Definition listings (rows : list PlanRow) : list (PlanRow * Cid) :=
  concat ((fun row => (row,.) <$> pr_chunks row) <$> rows).

Lemma listings_elem rows row c : (row, c) ∈ listings rows <-> row ∈ rows /\ c ∈ pr_chunks row.
Proof.
  unfold listings. rewrite elem_concat. split.
  - intros (l & (r & -> & Hr)%list_elem_of_fmap & (c' & [= -> ->] & Hc)%list_elem_of_fmap). done.
  - intros [Hr Hc]. exists ((row,.) <$> pr_chunks row). split; apply list_elem_of_fmap; eauto.
Qed.

Lemma chunk_position_listings rows :
  chunk_position rows = foldl (fun m e => note_chunk e.1 m e.2) [] (listings rows).
Proof.
  unfold chunk_position, listings. generalize (@nil (Cid * (N * Cid))) as m.
  induction rows as [|row rows IH]; intros m; cbn; [done|]. rewrite foldl_app, <- IH. f_equal.
  clear IH. revert m. induction (pr_chunks row) as [|c cs IH]; intros m; cbn; [done|apply IH].
Qed.

Definition positions_ok (seen : list (PlanRow * Cid)) (m : bmap Cid (N * Cid)) : Prop :=
  om_wf m /\ forall c, match om_get c m with
    | None => forall e, e ∈ seen -> e.2 <> c
    | Some (p, f) =>
        (exists e, e ∈ seen /\ e.2 = c /\ pr_position e.1 = p /\ pr_file e.1 = f) /\
        (forall e, e ∈ seen -> e.2 = c -> pr_position e.1 <= p)
    end.

Lemma note_chunk_ok seen m e :
  positions_ok seen m -> positions_ok (seen ++ [e]) (note_chunk e.1 m e.2).
Proof.
  intros [Hwf H]. split; [by apply om_wf_insert|]. intros c. unfold note_chunk. specialize (H c).
  destruct (decide (e.2 = c)) as [<-|Hne].
  - rewrite om_get_insert_eq. destruct (om_get e.2 m) as [[p f]|] eqn:E; unfold id; cbn [from_option fst].
    + destruct H as [(x & Hx & Hxc & Hxp & Hxf) Hmax]. destruct (p <=? pr_position e.1) eqn:L.
      * apply N.leb_le in L. split; [exists e; set_solver|].
        intros y [Hy| ->%list_elem_of_singleton]%elem_of_app Hyc; [|lia]. specialize (Hmax y Hy Hyc). lia.
      * apply N.leb_gt in L. split; [exists x; set_solver|].
        intros y [Hy| ->%list_elem_of_singleton]%elem_of_app Hyc; [|lia]. by apply Hmax.
    + rewrite N.leb_refl. split; [exists e; set_solver|].
      intros y [Hy| ->%list_elem_of_singleton]%elem_of_app Hyc; [|lia]. by destruct (H y Hy).
  - rewrite om_get_insert_ne by done. destruct (om_get c m) as [[p f]|].
    + destruct H as [(x & Hx & Hrest) Hmax]. split; [exists x; set_solver|].
      intros y [Hy| ->%list_elem_of_singleton]%elem_of_app Hyc; [by apply Hmax|done].
    + intros y [Hy| ->%list_elem_of_singleton]%elem_of_app; [by apply H|done].
Qed.

Lemma fold_positions_ok es : forall seen m,
  positions_ok seen m -> positions_ok (seen ++ es) (foldl (fun m e => note_chunk e.1 m e.2) m es).
Proof.
  induction es as [|e es IH]; intros seen m H; cbn; [by rewrite app_nil_r|].
  rewrite cons_middle, app_assoc. by apply IH, note_chunk_ok.
Qed.

Lemma chunk_position_ok rows : positions_ok (listings rows) (chunk_position rows).
Proof.
  rewrite chunk_position_listings. apply (fold_positions_ok _ []). split; [apply om_wf_nil|].
  intros c. cbn. by intros e ?%elem_of_nil.
Qed.

Lemma chunk_position_wf rows : om_wf (chunk_position rows).
Proof. apply chunk_position_ok. Qed.

Lemma chunk_position_some rows c p f : om_get c (chunk_position rows) = Some (p, f) -> newest rows c p f.
Proof.
  intros E. destruct (chunk_position_ok rows) as [_ H]. specialize (H c). rewrite E in H.
  destruct H as [([row c'] & Hin & Hc & Hp & Hf) Hmax]. cbn in *. subst c'. apply listings_elem in Hin as [Hr Hc].
  split; [by exists row|]. intros row' Hr' Hc'. apply (Hmax (row', c)); [by apply listings_elem|done].
Qed.

Definition listed (rows : list PlanRow) (c : Cid) : Prop := exists row, row ∈ rows /\ c ∈ pr_chunks row.

Lemma chunk_position_none rows c : om_get c (chunk_position rows) = None <-> ~ listed rows c.
Proof.
  destruct (chunk_position_ok rows) as [_ H]. specialize (H c). split.
  - intros E. rewrite E in H. intros (row & Hr & Hc). apply (H (row, c)); [by apply listings_elem|done].
  - intros Hn. destruct (om_get c (chunk_position rows)) as [[p f]|]; [|done].
    destruct H as [([row c'] & Hin & Hc & _) _]. cbn in Hc. subst c'. apply listings_elem in Hin. destruct Hn. by exists row.
Qed.

Lemma chunk_position_listed rows c : om_has c (chunk_position rows) = true <-> listed rows c.
Proof.
  unfold om_has. pose proof (chunk_position_none rows c) as H.
  destruct (om_get c (chunk_position rows)) as [[p f]|] eqn:E.
  - split; [|done]. intros _. apply chunk_position_some in E as [(row & Hr & Hc & _) _]. by exists row.
  - split; [done|]. intros Hl. destruct (proj1 H eq_refl Hl).
Qed.

Lemma newest_position rows c p f p' f' : newest rows c p f -> newest rows c p' f' -> p = p'.
Proof.
  intros [(r & Hr & Hc & <- & _) H] [(r' & Hr' & Hc' & <- & _) H'].
  specialize (H r' Hr' Hc'). specialize (H' r Hr Hc). lia.
Qed.

(** * What the planner may offer *)

(** Held, not pinned, without a completed Keep copy, and no profile image. *)
Definition evictable (input : PlanInput) (c : Cid) : Prop :=
  c ∈ om_keys (plan_sizes input) /\ (c ∉ pi_pins input) /\ (c ∉ pi_retained input) /\ (c ∉ pi_profile_refs input).

(** Present before this mount wrote anything, and named by no visible row. *)
Definition unclaimed (input : PlanInput) (c : Cid) : Prop :=
  pi_unclaimed_allowed input = true /\ c ∈ ci_mount (pi_index input) /\ ~ listed (pi_rows input) c.

Definition offered (input : PlanInput) (c : Cid) : Prop :=
  evictable input c /\ (unclaimed input c \/ listed (pi_rows input) c).

Lemma plan_duplicates_elem input c :
  c ∈ plan_duplicates input <-> c ∈ om_keys (plan_sizes input) /\ c ∈ pi_retained input /\ c ∉ pi_pins input.
Proof.
  unfold plan_duplicates. rewrite elem_List_filter, andb_true_iff, negb_true_iff, bool_decide_eq_true, bool_decide_eq_false.
  done.
Qed.

Definition cand_of (input : PlanInput) (e : Cid * (N * Cid)) : EvictCandidate :=
  mkEvictCandidate e.1 (Some e.2.2) (size_of (plan_sizes input) e.1).

Lemma om_push_perm {K} `{OrdKey K} {A} (k : K) (x : A) (m : bmap K (list A)) :
  concat (om_values (om_insert k (default [] (om_get k m) ++ [x]) m)) ≡ₚ x :: concat (om_values m).
Proof.
  unfold om_values. induction m as [|[k' l] m IH]; cbn; [done|].
  destruct (kcmp k k'); cbn.
  - rewrite <- app_assoc. symmetry. apply Permutation_middle.
  - done.
  - rewrite IH. symmetry. apply Permutation_middle.
Qed.

Section groups.
Context (input : PlanInput).

Record positions_grouped (seen : list (Cid * (N * Cid))) (m : bmap N (list EvictCandidate)) : Prop := mkGrouped {
  pg_wf : om_wf m;
  pg_all : concat (om_values m) ≡ₚ cand_of input <$> List.filter (fun e => cache_eligible input e.1) seen;
  pg_at : forall p g, (p, g) ∈ m -> g <> [] /\ forall x, x ∈ g -> exists f, (ca_cid x, (p, f)) ∈ seen
}.

Lemma push_listed_ok seen m e :
  positions_grouped seen m -> positions_grouped (seen ++ [e]) (push_listed input m e).
Proof using.
  intros [Hwf Hall Hat]. unfold push_listed. destruct (cache_eligible input e.1) eqn:He.
  - constructor.
    + by apply om_wf_insert.
    + rewrite om_push_perm, Hall, List.filter_app. cbn. rewrite He, fmap_app. cbn. by rewrite Permutation_app_comm.
    + intros p g Hin. apply om_get_elem in Hin; [|by apply om_wf_insert].
      destruct (decide (p = e.2.1)) as [->|Hne].
      * rewrite om_get_insert_eq in Hin. injection Hin as <-. split; [by destruct (default _ _)|].
        intros x [Hx| ->%list_elem_of_singleton]%elem_of_app.
        -- destruct (om_get e.2.1 m) as [g|] eqn:E; [|by apply elem_of_nil in Hx].
           apply om_get_elem in E; [|done]. destruct (Hat _ _ E) as [_ H]. destruct (H x Hx) as [f Hf]. exists f. set_solver.
        -- exists e.2.2. cbn. apply elem_of_app. right. apply list_elem_of_singleton. by destruct e as [? []].
      * rewrite om_get_insert_ne in Hin by done. apply om_get_elem in Hin; [|done]. destruct (Hat _ _ Hin) as [Hg H].
        split; [done|]. intros x Hx. destruct (H x Hx) as [f Hf]. exists f. set_solver.
  - constructor; [done| |].
    + rewrite Hall, List.filter_app. cbn. by rewrite He, app_nil_r.
    + intros p g Hin. destruct (Hat _ _ Hin) as [Hg H]. split; [done|]. intros x Hx. destruct (H x Hx) as [f Hf].
      exists f. set_solver.
Qed.

Lemma fold_grouped es : forall seen m,
  positions_grouped seen m -> positions_grouped (seen ++ es) (foldl (push_listed input) m es).
Proof using.
  induction es as [|e es IH]; intros seen m H; cbn; [by rewrite app_nil_r|].
  rewrite cons_middle, app_assoc. by apply IH, push_listed_ok.
Qed.

Lemma by_position_grouped : positions_grouped (chunk_position (pi_rows input)) (by_position input).
Proof using.
  apply (fold_grouped _ []). constructor; [apply om_wf_nil|done|]. by intros p g ?%elem_of_nil.
Qed.

Context (Hok : cache_index_ok (pi_index input)).

Lemma cache_eligible_spec c : cache_eligible input c = true <-> evictable input c.
Proof using Hok.
  unfold cache_eligible, evictable.
  rewrite !andb_true_iff, !negb_true_iff, !bool_decide_eq_false, plan_duplicates_elem, (om_has_keys c (plan_sizes input)) by apply Hok.
  tauto.
Qed.

Lemma unclaimed_elem x :
  x ∈ concat (plan_unclaimed input) <->
  x = mkEvictCandidate (ca_cid x) None (size_of (plan_sizes input) (ca_cid x)) /\
  evictable input (ca_cid x) /\ unclaimed input (ca_cid x).
Proof using Hok.
  unfold plan_unclaimed, unclaimed. rewrite elem_concat.
  setoid_rewrite list_elem_of_omap. setoid_rewrite elem_List_filter.
  assert (forall c, (cache_eligible input c && negb (om_has c (chunk_position (pi_rows input)))
    && negb (bool_decide (c ∈ pi_profile_refs input))) = true <-> evictable input c /\ ~ listed (pi_rows input) c) as Hb.
  { intros c. rewrite !andb_true_iff, !negb_true_iff, cache_eligible_spec, bool_decide_eq_false.
    rewrite <- not_true_iff_false, chunk_position_listed. unfold evictable. tauto. }
  split.
  - intros (g & (c & [Hm Hu] & Hg) & Hx). destruct (_ && _ && _) eqn:E; [|done]. injection Hg as <-.
    apply list_elem_of_singleton in Hx as ->. cbn. apply Hb in E as [He Hl]. done.
  - intros (Hx & He & Hu & Hm & Hl). exists [x]. split; [|by left]. exists (ca_cid x). split; [done|].
    rewrite (proj2 (Hb _)) by done. by rewrite <- Hx.
Qed.

Lemma listed_elem x :
  x ∈ concat (om_values (by_position input)) <->
  exists p f, x = mkEvictCandidate (ca_cid x) (Some f) (size_of (plan_sizes input) (ca_cid x)) /\
    evictable input (ca_cid x) /\ om_get (ca_cid x) (chunk_position (pi_rows input)) = Some (p, f).
Proof using Hok.
  rewrite (pg_all _ _ by_position_grouped), list_elem_of_fmap. split.
  - intros ([c [p f]] & -> & [He Hc]%elem_List_filter). cbn in *. exists p, f.
    split; [done|]. split; [by apply cache_eligible_spec|]. apply om_get_elem; [apply chunk_position_wf|done].
  - intros (p & f & -> & He & Hp). cbn in *. apply om_get_elem in Hp; [|apply chunk_position_wf].
    exists (ca_cid x, (p, f)). split; [done|]. apply elem_List_filter. split; [done|]. by apply cache_eligible_spec.
Qed.
End groups.

(** * The eviction loop *)

Lemma evict_candidates g : forall s,
  ev_evict (foldl evict_candidate s g) = ev_evict s ++ (ca_cid <$> g) /\
  ev_current (foldl evict_candidate s g) = ev_current s - sum_of ca_bytes g /\
  (ev_freed s + sum_of ca_bytes g <= u64_max ->
   ev_freed (foldl evict_candidate s g) = ev_freed s + sum_of ca_bytes g).
Proof.
  induction g as [|c g IH]; intros s; cbn.
  { rewrite app_nil_r, N.sub_0_r, N.add_0_r. done. }
  destruct (IH (evict_candidate s c)) as (He & Hc & Hf). rewrite He, Hc. cbn in *.
  split; [by rewrite <- app_assoc|]. split; [lia|]. intros Hb.
  assert (sat_add u64_max (ev_freed s) (ca_bytes c) = ev_freed s + ca_bytes c) as E by (unfold sat_add; lia).
  rewrite E in Hf. rewrite Hf; lia.
Qed.

(** The loop evicts whole groups from the front, as few as bring the usage to the limit. *)
Lemma evict_groups_spec limit groups : forall s,
  let s' := evict_groups limit groups s in
  exists k, (k <= length groups)%nat /\
    ev_evict s' = ev_evict s ++ (ca_cid <$> concat (take k groups)) /\
    ev_current s' = ev_current s - sum_of ca_bytes (concat (take k groups)) /\
    (ev_freed s + sum_of ca_bytes (concat (take k groups)) <= u64_max ->
     ev_freed s' = ev_freed s + sum_of ca_bytes (concat (take k groups))) /\
    (forall j, (j < k)%nat -> limit < ev_current s - sum_of ca_bytes (concat (take j groups))) /\
    (ev_current s' <= limit \/ k = length groups).
Proof.
  induction groups as [|g groups IH]; intros s s'.
  - exists 0%nat. cbn. rewrite app_nil_r, N.sub_0_r, N.add_0_r. repeat split; [done|lia|by right].
  - subst s'. cbn. destruct (N.leb_spec (ev_current s) limit) as [L|L].
    { exists 0%nat. cbn. rewrite app_nil_r, N.sub_0_r, N.add_0_r. repeat split; [lia|lia|by left]. }
    destruct (evict_candidates g s) as (He & Hc & Hf).
    destruct (IH (foldl evict_candidate s g)) as (k & Hk & He' & Hc' & Hf' & Hj & Hend).
    rewrite He in He'. rewrite Hc in Hc', Hj. exists (S k). cbn. rewrite sum_of_app, fmap_app.
    split; [lia|]. split; [by rewrite He', app_assoc|]. split; [lia|]. split; [|split].
    + intros Hb. rewrite Hf in Hf' by lia. rewrite Hf'; lia.
    + intros [|j] Hlt; cbn; [lia|]. rewrite sum_of_app. specialize (Hj j ltac:(lia)). lia.
    + destruct Hend as [?| ->]; [by left|by right].
Qed.

(** * The plan *)

Section plan_facts.
Context (input : PlanInput) (Hok : cache_index_ok (pi_index input)).

Lemma plan_ordered_elem c : c ∈ ca_cid <$> concat (plan_ordered input) <-> offered input c.
Proof using Hok.
  unfold plan_ordered, offered. rewrite concat_app, fmap_app, elem_of_app, !list_elem_of_fmap. split.
  - intros [(x & -> & (_ & He & Hu)%(unclaimed_elem input Hok))|(x & -> & (p & f & _ & He & Hp)%(listed_elem input Hok))]; [by auto|].
    split; [done|]. right. apply chunk_position_some in Hp as [(row & Hr & Hc & _) _]. by exists row.
  - intros [He [Hu|Hl]].
    + left. exists (mkEvictCandidate c None (size_of (plan_sizes input) c)). split; [done|]. by apply (unclaimed_elem input Hok).
    + right. apply chunk_position_listed in Hl. apply om_has_true in Hl as [[p f] Hp].
      exists (mkEvictCandidate c (Some f) (size_of (plan_sizes input) c)). split; [done|]. apply (listed_elem input Hok). by exists p, f.
Qed.

Lemma plan_ordered_bytes x :
  x ∈ concat (plan_ordered input) -> ca_bytes x = size_of (plan_sizes input) (ca_cid x).
Proof using Hok.
  unfold plan_ordered. rewrite concat_app, elem_of_app.
  intros [(-> & _)%(unclaimed_elem input Hok)|(p & f & -> & _)%(listed_elem input Hok)]; done.
Qed.

Lemma plan_unclaimed_NoDup : NoDup (ca_cid <$> concat (plan_unclaimed input)).
Proof using Hok.
  unfold plan_unclaimed. pose proof (StronglySorted_List_filter _ (fun _ => pi_unclaimed_allowed input) _ (cio_mount _ Hok)) as Hs.
  revert Hs. generalize (List.filter (fun _ => pi_unclaimed_allowed input) (ci_mount (pi_index input))) as l.
  induction l as [|c l IH]; intros Hs; [constructor|]. inversion Hs as [|? ? Hs' Hall]; subst. cbn.
  destruct (_ && _ && _); [|by apply IH]. cbn. constructor; [|by apply IH].
  rewrite list_elem_of_fmap. intros (x & Hx & Hin). apply elem_concat in Hin as (g & Hg & Hxg).
  apply list_elem_of_omap in Hg as (d & Hd & Hg).
  destruct (_ && _ && _); [|done]. injection Hg as <-. apply list_elem_of_singleton in Hxg as ->. cbn in Hx. subst d.
  rewrite Forall_forall in Hall. by apply (klt_irrefl c), Hall.
Qed.

Lemma plan_ordered_NoDup : NoDup (ca_cid <$> concat (plan_ordered input)).
Proof using Hok.
  unfold plan_ordered. rewrite concat_app, fmap_app, NoDup_app. split; [apply plan_unclaimed_NoDup|]. split.
  - intros c (x & -> & (_ & _ & _ & _ & Hn)%(unclaimed_elem input Hok))%list_elem_of_fmap (y & E & Hy)%list_elem_of_fmap.
    apply (listed_elem input Hok) in Hy as (p & f & _ & _ & Hp). rewrite <- E in Hp.
    apply chunk_position_none in Hn. by rewrite Hn in Hp.
  - rewrite (pg_all _ _ _ (by_position_grouped input)). rewrite <- list_fmap_compose.
    rewrite (list_fmap_ext _ fst) by done.
    apply (sublist_NoDup _ (om_keys (chunk_position (pi_rows input)))); [apply om_keys_NoDup, chunk_position_wf|].
    unfold om_keys. generalize (chunk_position (pi_rows input)) as l.
    induction l as [|e l IH]; cbn; [done|]. destruct (cache_eligible input e.1); by constructor.
Qed.

Lemma plan_evict limit :
  pi_limit input = Some limit ->
  exists k, (k <= length (plan_ordered input))%nat /\
    cp_evict (cache_plan input) = ca_cid <$> concat (take k (plan_ordered input)) /\
    (forall j, (j < k)%nat -> limit < ci_usage (pi_index input) - freed_duplicates input
                                     - sum_of ca_bytes (concat (take j (plan_ordered input)))) /\
    (freed_duplicates input + sum_of ca_bytes (concat (take k (plan_ordered input))) <= u64_max ->
     cp_freed (cache_plan input) = freed_duplicates input + sum_of ca_bytes (concat (take k (plan_ordered input)))) /\
    cp_over_after (cache_plan input) =
      (limit <? ci_usage (pi_index input) - freed_duplicates input - sum_of ca_bytes (concat (take k (plan_ordered input)))) /\
    (cp_over_after (cache_plan input) = true -> k = length (plan_ordered input)).
Proof using.
  clear Hok. intros E. unfold cache_plan. rewrite E. cbn [cp_evict cp_freed cp_over_after].
  edestruct (evict_groups_spec limit (plan_ordered input)) as (k & Hk & He & Hc & Hf & Hj & Hend).
  exists k. rewrite He, Hc. cbn in *. split; [done|]. split; [done|]. split; [done|]. split; [exact Hf|]. split; [done|].
  intros L%N.ltb_lt. destruct Hend as [H|H]; [|done]. lia.
Qed.
End plan_facts.

(** The bytes left once the addresses of [gone] are deleted. *)
Definition bytes_without (sizes : bmap Cid N) (gone : list Cid) : N :=
  sum_of (size_of sizes) (List.filter (fun c => negb (bool_decide (c ∈ gone))) (om_keys sizes)).

Lemma bytes_split (sizes : bmap Cid N) l :
  om_wf sizes -> NoDup l -> (forall c, c ∈ l -> c ∈ om_keys sizes) ->
  sum_of (size_of sizes) l + bytes_without sizes l = held_bytes sizes.
Proof.
  intros Hwf Hnd Hsub. rewrite om_keys_fmap_sum by done. unfold bytes_without. rewrite <- sum_of_app.
  apply sum_of_perm. apply NoDup_Permutation; [|by apply om_keys_NoDup|].
  - apply NoDup_app. split; [done|]. split.
    + intros c Hc [_ H]%elem_List_filter. by rewrite (bool_decide_eq_true_2 (c ∈ l)) in H.
    + apply NoDup_ListNoDup, List.NoDup_filter, NoDup_ListNoDup. by apply om_keys_NoDup.
  - intros c. rewrite elem_of_app, elem_List_filter, negb_true_iff, bool_decide_eq_false.
    destruct (decide (c ∈ l)); naive_solver.
Qed.

Lemma concat_take_elem {A} (x : A) k ls : x ∈ concat (take k ls) -> x ∈ concat ls.
Proof. rewrite !elem_concat. intros (l & Hl & Hx). exists l. split; [by apply (subseteq_take k)|done]. Qed.

Section plan_bytes.
Context (input : PlanInput) (Hok : cache_index_ok (pi_index input)).

Lemma group_bytes groups k :
  (forall x, x ∈ concat groups -> ca_bytes x = size_of (plan_sizes input) (ca_cid x)) ->
  sum_of ca_bytes (concat (take k groups)) = sum_of (size_of (plan_sizes input)) (ca_cid <$> concat (take k groups)).
Proof using.
  clear Hok. intros H. assert (forall x, x ∈ concat (take k groups) -> ca_bytes x = size_of (plan_sizes input) (ca_cid x)) as H'.
  { intros x Hx. by eapply H, concat_take_elem. }
  revert H'. induction (concat (take k groups)) as [|x l IH]; intros H'; cbn; [done|].
  rewrite H' by left. f_equal. apply IH. intros y Hy. apply H'. by right.
Qed.

(** Class 0 and the first [k] groups. *)
Definition gone (k : nat) : list Cid :=
  plan_duplicates input ++ (ca_cid <$> concat (take k (plan_ordered input))).

Lemma group_offered k c : c ∈ ca_cid <$> concat (take k (plan_ordered input)) -> offered input c.
Proof using Hok.
  intros (x & -> & Hx%concat_take_elem)%list_elem_of_fmap.
  apply (plan_ordered_elem input Hok), list_elem_of_fmap. by exists x.
Qed.

Lemma gone_NoDup k : NoDup (gone k).
Proof using Hok.
  apply NoDup_app. split; [|split].
  - apply NoDup_ListNoDup, List.NoDup_filter, NoDup_ListNoDup. apply om_keys_NoDup, Hok.
  - by intros c (_ & Hr & _)%plan_duplicates_elem [(_ & _ & Hn & _) _]%group_offered.
  - pose proof (plan_ordered_NoDup input Hok) as Hn. rewrite <- (take_drop k (plan_ordered input)), concat_app, fmap_app in Hn.
    by apply NoDup_app in Hn as [Hn _].
Qed.

Lemma gone_held k c : c ∈ gone k -> c ∈ om_keys (plan_sizes input).
Proof using Hok.
  intros [Hc|Hc]%elem_of_app; [by apply plan_duplicates_elem in Hc as []|].
  by apply group_offered in Hc as [[] _].
Qed.

Lemma freed_duplicates_exact : freed_duplicates input = sum_of (size_of (plan_sizes input)) (plan_duplicates input).
Proof using Hok.
  unfold freed_duplicates. rewrite (sat_fold (size_of (plan_sizes input))); [lia|].
  pose proof (bytes_split (plan_sizes input) (gone 0) (cio_wf _ Hok) (gone_NoDup 0) (gone_held 0)) as Hs.
  unfold gone in Hs. rewrite take_0, app_nil_r in Hs. pose proof (cio_bound _ Hok) as Hb. unfold plan_sizes in *. lia.
Qed.

(** The usage once class 0 and the first [k] groups are gone. *)
Lemma gone_bytes k :
  let freed := freed_duplicates input + sum_of ca_bytes (concat (take k (plan_ordered input))) in
  freed = sum_of (size_of (plan_sizes input)) (gone k) /\
  freed <= u64_max /\
  ci_usage (pi_index input) - freed = bytes_without (plan_sizes input) (gone k).
Proof using Hok.
  intros freed.
  assert (freed = sum_of (size_of (plan_sizes input)) (gone k)) as E.
  { unfold freed, gone. rewrite sum_of_app, freed_duplicates_exact.
    by rewrite group_bytes by apply (plan_ordered_bytes input Hok). }
  pose proof (bytes_split (plan_sizes input) (gone k) (cio_wf _ Hok) (gone_NoDup k) (gone_held k)) as Hs.
  pose proof (cio_bound _ Hok) as Hb. pose proof (cio_usage _ Hok) as Hu. unfold plan_sizes in *. lia.
Qed.

(** What the plan deletes, and when it stops. *)
Lemma plan_gone :
  exists k, (k <= length (plan_ordered input))%nat /\
    cp_duplicates (cache_plan input) ++ cp_evict (cache_plan input) = gone k /\
    cp_duplicates (cache_plan input) = plan_duplicates input /\
    cp_evict (cache_plan input) = ca_cid <$> concat (take k (plan_ordered input)) /\
    cp_freed (cache_plan input) = sum_of (size_of (plan_sizes input)) (gone k) /\
    match pi_limit input with
    | None => k = 0%nat /\ cp_over_after (cache_plan input) = false
    | Some limit =>
        (forall j, (j < k)%nat -> limit < bytes_without (plan_sizes input) (gone j)) /\
        cp_over_after (cache_plan input) = (limit <? bytes_without (plan_sizes input) (gone k)) /\
        (cp_over_after (cache_plan input) = true -> k = length (plan_ordered input))
    end.
Proof using Hok.
  destruct (pi_limit input) as [limit|] eqn:El.
  - destruct (plan_evict input limit El) as (k & Hk & He & Hj & Hf & Ho & Hend). exists k.
    destruct (gone_bytes k) as (Hs & Hb & Hu).
    assert (cp_duplicates (cache_plan input) = plan_duplicates input) as Ed by (unfold cache_plan; by rewrite El).
    split; [done|]. split; [by rewrite Ed, He|]. split; [done|]. split; [done|]. split; [by rewrite Hf, Hs|].
    split; [|split; [|done]].
    + intros j Hlt. specialize (Hj j Hlt). destruct (gone_bytes j) as (_ & _ & Hu'). lia.
    + rewrite Ho. f_equal. rewrite <- Hu. lia.
  - exists 0%nat. unfold cache_plan. rewrite El. cbn [cp_duplicates cp_evict cp_freed cp_over_after]. unfold gone.
    rewrite take_0. cbn [concat fmap list_fmap]. rewrite app_nil_r. repeat split; [lia|apply freed_duplicates_exact].
Qed.
End plan_bytes.


(** * Order *)

Lemma sorted_app_lt {K V} `{OrdKey K} (m1 m2 : bmap K V) a b :
  om_wf (m1 ++ m2) -> a ∈ m1 -> b ∈ m2 -> klt a.1 b.1.
Proof.
  unfold om_wf, om_keys. rewrite fmap_app. intros Hs Ha Hb.
  apply (StronglySorted_app_1_elem_of klt (m1.*1) (m2.*1) a.1 b.1 Hs); by apply list_elem_of_fmap_2.
Qed.

Section order.
Context (input : PlanInput) (Hok : cache_index_ok (pi_index input)).

(** A listed chunk of the groups is in a group of its own newest position. *)
Lemma listed_group m c p f :
  m ⊆ by_position input -> newest (pi_rows input) c p f ->
  c ∈ ca_cid <$> concat (om_values m) -> exists g, (p, g) ∈ m.
Proof using.
  clear Hok. intros Hm Hn (x & -> & (g & Hg & Hx)%elem_concat)%list_elem_of_fmap.
  apply list_elem_of_fmap in Hg as ([q g'] & -> & Hg). exists g'.
  destruct (pg_at _ _ _ (by_position_grouped input) q g' (Hm _ Hg)) as [_ H]. destruct (H x Hx) as [f' Hf].
  apply om_get_elem in Hf; [|apply chunk_position_wf]. apply chunk_position_some in Hf.
  by rewrite (newest_position _ _ _ _ _ _ Hn Hf).
Qed.

Lemma unclaimed_not_listed c : listed (pi_rows input) c -> c ∉ ca_cid <$> concat (plan_unclaimed input).
Proof using Hok.
  intros Hl (x & -> & (_ & _ & _ & _ & Hn)%(unclaimed_elem input Hok))%list_elem_of_fmap. done.
Qed.

Lemma listed_offered_group c : listed (pi_rows input) c -> offered input c ->
  c ∈ ca_cid <$> concat (om_values (by_position input)).
Proof using Hok.
  intros Hl Ho. apply (plan_ordered_elem input Hok) in Ho. unfold plan_ordered in Ho.
  rewrite concat_app, fmap_app in Ho. apply elem_of_app in Ho as [Ho|Ho]; [|done]. by apply unclaimed_not_listed in Ho.
Qed.

(** A listed chunk among the first [k] groups: every unclaimed blob and every
    offered chunk that stands no later is among them too. *)
Lemma groups_oldest_first k c p f :
  newest (pi_rows input) c p f -> c ∈ ca_cid <$> concat (take k (plan_ordered input)) ->
  forall d, offered input d ->
  (~ listed (pi_rows input) d \/ exists q f', newest (pi_rows input) d q f' /\ q <= p) ->
  d ∈ ca_cid <$> concat (take k (plan_ordered input)).
Proof using Hok.
  intros Hc Hin d Hd Hcase. assert (listed (pi_rows input) c) as Hl.
  { destruct Hc as [(row & Hr & Hrc & _) _]. by exists row. }
  unfold plan_ordered in *. rewrite take_app, concat_app, fmap_app in Hin |- *.
  apply elem_of_app in Hin as [Hin|Hin].
  { exfalso. apply (unclaimed_not_listed c Hl). apply list_elem_of_fmap in Hin as (x & -> & Hx%concat_take_elem).
    apply list_elem_of_fmap. by exists x. }
  assert (length (plan_unclaimed input) <= k)%nat as Hlen.
  { destruct (Nat.le_gt_cases (length (plan_unclaimed input)) k); [done|].
    replace (k - length (plan_unclaimed input))%nat with 0%nat in Hin by lia. rewrite take_0 in Hin. by apply elem_of_nil in Hin. }
  rewrite (take_ge (plan_unclaimed input)) by done. revert Hin. generalize (k - length (plan_unclaimed input))%nat as n.
  intros n Hin. apply elem_of_app. unfold om_values in *. rewrite <- fmap_take in *. destruct Hcase as [Hn|(q & f' & Hq & Hle)].
  - left. apply (plan_ordered_elem input Hok) in Hd. unfold plan_ordered in Hd. rewrite concat_app, fmap_app in Hd.
    apply elem_of_app in Hd as [Hd|Hd]; [done|]. exfalso. apply Hn.
    apply list_elem_of_fmap in Hd as (x & -> & (q & g & _ & _ & Hx)%(listed_elem input Hok)).
    apply chunk_position_listed, om_has_true. by exists (q, g).
  - right. assert (listed (pi_rows input) d) as Hld. { destruct Hq as [(row & Hr & Hrd & _) _]. by exists row. }
    pose proof (listed_offered_group d Hld Hd) as Hg. unfold om_values in Hg.
    rewrite <- (take_drop n (by_position input)), fmap_app, concat_app, fmap_app in Hg.
    apply elem_of_app in Hg as [Hg|Hg]; [done|]. exfalso.
    destruct (listed_group (take n (by_position input)) c p f) as [gc Hgc]; [apply subseteq_take|done|done|].
    destruct (listed_group (drop n (by_position input)) d q f') as [gd Hgd]; [apply subseteq_drop|done|done|].
    pose proof (sorted_app_lt (take n (by_position input)) (drop n (by_position input)) _ _
      ltac:(rewrite take_drop; apply by_position_grouped) Hgc Hgd) as Hlt.
    unfold klt in Hlt. cbn in Hlt. rewrite N.compare_lt_iff in Hlt. lia.
Qed.

End order.

Lemma plan_group_shape input g :
  g ∈ plan_ordered input ->
  (exists x, g = [x]) \/
  (g <> [] /\ exists q, forall x, x ∈ g -> exists f, newest (pi_rows input) (ca_cid x) q f).
Proof.
  unfold plan_ordered. intros [Hg|Hg]%elem_of_app.
  - left. apply list_elem_of_omap in Hg as (c & _ & Hg). destruct (_ && _ && _); [|done]. injection Hg as <-. eauto.
  - right. apply list_elem_of_fmap in Hg as ([q g'] & -> & Hg). cbn.
    destruct (pg_at _ _ _ (by_position_grouped input) q g' Hg) as [Hne H]. split; [done|]. exists q.
    intros x Hx. destruct (H x Hx) as [f Hf]. exists f. apply chunk_position_some, om_get_elem; [apply chunk_position_wf|done].
Qed.

Lemma plan_gone_spec input c :
  cache_index_ok (pi_index input) -> c ∈ cp_duplicates (cache_plan input) ++ cp_evict (cache_plan input) ->
  c ∈ om_keys (plan_sizes input) /\ (c ∉ pi_pins input) /\ (c ∈ pi_retained input \/ offered input c).
Proof.
  intros Hok Hc. destruct (plan_gone input Hok) as (k & _ & Hg & _). rewrite Hg in Hc.
  apply elem_of_app in Hc as [Hc|Hc].
  - apply plan_duplicates_elem in Hc as (? & ? & ?). auto.
  - apply (group_offered input Hok) in Hc. split; [apply Hc|]. split; [apply Hc|by right].
Qed.

(** * What the plan promises *)

(** Whatever a member lists, the plan deletes each address at most once and
    only records this device holds; it deletes from the cache exactly the
    unpinned chunks a completed Keep copy also holds; and it never evicts a
    pinned chunk, a profile image, or a blob that is neither listed nor was
    present, unclaimed, when the cache was mounted. *)
Theorem cache_plan_protects input :
  cache_index_ok (pi_index input) ->
  let p := cache_plan input in
  NoDup (cp_duplicates p ++ cp_evict p) /\
  (forall c, c ∈ cp_duplicates p <-> c ∈ om_keys (plan_sizes input) /\ c ∈ pi_retained input /\ c ∉ pi_pins input) /\
  (forall c, c ∈ cp_evict p -> offered input c).
Proof.
  intros Hok p. destruct (plan_gone input Hok) as (k & _ & Hg & Hd & He & _). subst p. rewrite Hg, Hd, He.
  split; [by apply gone_NoDup|]. split; [apply plan_duplicates_elem|]. intros c. by apply group_offered.
Qed.

(** C33: the plan is exact and no larger than it has to be. [freed] is the size of
    what it deletes and [usage_after] the size of what stays; without a limit
    only Keep duplicates go; under a limit it stops as soon as the cache fits,
    so that without its last group (one unclaimed blob, or the chunks of one
    listing position) the cache would not fit, and when it reports the cache
    still over the limit nothing it may evict is left. *)
Theorem cache_plan_exact input :
  cache_index_ok (pi_index input) ->
  let p := cache_plan input in
  cp_freed p = sum_of (size_of (plan_sizes input)) (cp_duplicates p ++ cp_evict p) /\
  usage_after p = bytes_without (plan_sizes input) (cp_duplicates p ++ cp_evict p) /\
  match pi_limit input with
  | None => cp_evict p = [] /\ cp_over_after p = false
  | Some limit =>
      cp_over_after p = (limit <? usage_after p) /\
      (cp_over_after p = true -> forall c, offered input c -> c ∈ cp_evict p) /\
      (cp_evict p <> [] -> exists earlier later,
         cp_evict p = earlier ++ later /\ later <> [] /\
         limit < bytes_without (plan_sizes input) (cp_duplicates p ++ earlier) /\
         ((exists c, later = [c]) \/
          exists q, forall c, c ∈ later -> exists f, newest (pi_rows input) c q f))
  end.
Proof.
  intros Hok p. destruct (plan_gone input Hok) as (k & Hk & Hg & Hd & He & Hf & Hl).
  assert (usage_after p = bytes_without (plan_sizes input) (gone input k)) as Hu.
  { destruct (gone_bytes input Hok k) as (Hs & _ & Hb). unfold usage_after, p. rewrite Hf, <- Hs, <- Hb.
    unfold cache_plan. by destruct (pi_limit input). }
  rewrite Hu. subst p. rewrite Hg, Hf, He, Hd. split; [done|]. split; [done|].
  destruct (pi_limit input) as [limit|].
  - destruct Hl as (Hj & Ho & Hend). split; [done|]. split.
    { intros Hover c Hc. rewrite (Hend Hover), take_ge by done. by apply plan_ordered_elem. }
    intros Hne. destruct k as [|k]; [by rewrite take_0 in Hne|].
    destruct (lookup_lt_is_Some_2 (plan_ordered input) k) as [g Hlk]; [lia|].
    rewrite (take_S_r _ _ _ Hlk), concat_app, fmap_app. cbn [concat]. rewrite app_nil_r.
    exists (ca_cid <$> concat (take k (plan_ordered input))), (ca_cid <$> g). split; [done|].
    destruct (plan_group_shape input g) as [[x ->]|[Hg' [q Hq]]]; [by eapply list_elem_of_lookup_2| |].
    + split; [done|]. split; [apply (Hj k); lia|]. left. by exists (ca_cid x).
    + split; [by destruct g|]. split; [apply (Hj k); lia|]. right. exists q.
      intros c (x & -> & Hx)%list_elem_of_fmap. by apply Hq.
  - destruct Hl as [-> Ho]. done.
Qed.

(** The oldest leave first, and listing positions leave whole. A chunk stands at
    the newest position any row gives it; when the plan evicts a listed chunk
    it evicts every unclaimed blob it may, and every chunk it may that stands at
    the same or an older position. No row can make a chunk older than another
    row lists it, nor can one shield an older chunk. *)
Theorem cache_plan_oldest_first input c p f :
  cache_index_ok (pi_index input) ->
  c ∈ cp_evict (cache_plan input) -> newest (pi_rows input) c p f ->
  forall d, offered input d ->
  unclaimed input d \/ (exists q f', newest (pi_rows input) d q f' /\ q <= p) ->
  d ∈ cp_evict (cache_plan input).
Proof.
  intros Hok Hc Hn d Hd Hcase. destruct (plan_gone input Hok) as (k & _ & _ & _ & He & _). rewrite He in Hc |- *.
  apply (groups_oldest_first input Hok k c p f Hn Hc d Hd).
  destruct Hcase as [(_ & _ & Hl)|Hq]; [by left|by right].
Qed.

(** * Rows in any order *)

Definition with_rows (input : PlanInput) (rows : list PlanRow) : PlanInput :=
  mkPlanInput (pi_index input) rows (pi_profile_refs input) (pi_pins input) (pi_retained input) (pi_limit input)
    (pi_unclaimed_allowed input).

Lemma newest_perm rows rows' c p f : rows ≡ₚ rows' -> newest rows c p f -> newest rows' c p f.
Proof.
  intros Hp [(row & Hr & H) Hmax]. split; [exists row; by rewrite <- Hp|]. intros r Hr'. apply Hmax. by rewrite Hp.
Qed.

Lemma chunk_position_perm rows rows' :
  rows ≡ₚ rows' -> om_map fst (chunk_position rows) = om_map fst (chunk_position rows').
Proof.
  intros Hp. apply om_ext; [unfold om_wf; rewrite om_keys_map; apply chunk_position_wf..|].
  intros c. rewrite !om_get_map.
  destruct (om_get c (chunk_position rows)) as [[p f]|] eqn:E1, (om_get c (chunk_position rows')) as [[p' f']|] eqn:E2; cbn.
  - f_equal. apply chunk_position_some in E1, E2. apply (newest_perm _ _ _ _ _ Hp) in E1. by eapply newest_position.
  - apply chunk_position_none in E2. apply chunk_position_some in E1 as [(row & Hr & Hc & _) _].
    destruct E2. exists row. by rewrite <- Hp.
  - apply chunk_position_none in E1. apply chunk_position_some in E2 as [(row & Hr & Hc & _) _].
    destruct E1. exists row. by rewrite Hp.
  - done.
Qed.

(** What the loops read of a candidate, its file apart. *)
Definition erase (x : EvictCandidate) : Cid * N := (ca_cid x, ca_bytes x).
Definition erase_group (g : list EvictCandidate) : list (Cid * N) := erase <$> g.

Definition push_erased (input : PlanInput) (m : bmap N (list (Cid * N))) (e : Cid * N) : bmap N (list (Cid * N)) :=
  if cache_eligible input e.1
  then om_insert e.2 (default [] (om_get e.2 m) ++ [(e.1, size_of (plan_sizes input) e.1)]) m
  else m.

Lemma push_listed_erased input l : forall m,
  om_map erase_group (foldl (push_listed input) m l) =
  foldl (push_erased input) (om_map erase_group m) (om_map fst l).
Proof.
  induction l as [|[c [p f]] l IH]; intros m; [done|]. cbn [foldl]. rewrite IH. cbn [om_map fmap list_fmap foldl]. f_equal.
  unfold push_listed, push_erased. cbn [fst snd]. destruct (cache_eligible input c); [|done].
  rewrite om_insert_map, om_get_map. unfold erase_group at 1. rewrite fmap_app. f_equal. by destruct (om_get p m).
Qed.

Lemma evict_candidates_erased (g : list EvictCandidate) : forall (g' : list EvictCandidate) s,
  erase <$> g = erase <$> g' -> foldl evict_candidate s g = foldl evict_candidate s g'.
Proof.
  induction g as [|x g IH]; intros [|x' g'] s E; try done. cbn in E |- *. injection E as Ec Eb E.
  unfold evict_candidate at 2 4. rewrite Ec, Eb. by apply IH.
Qed.

Lemma evict_groups_erased limit (gs : list (list EvictCandidate)) : forall (gs' : list (list EvictCandidate)) s,
  erase_group <$> gs = erase_group <$> gs' -> evict_groups limit gs s = evict_groups limit gs' s.
Proof.
  induction gs as [|g gs IH]; intros [|g' gs'] s E; try done. cbn in E |- *. injection E as Eg E.
  destruct (_ <=? _); [done|]. rewrite (evict_candidates_erased g g') by done. by apply IH.
Qed.

Lemma leave_candidates_erased (g : list EvictCandidate) : forall (g' : list EvictCandidate) s s',
  erase <$> g = erase <$> g' -> lv_projected s = lv_projected s' -> lv_bytes s = lv_bytes s' ->
  lv_projected (foldl leave_candidate s g) = lv_projected (foldl leave_candidate s' g') /\
  lv_bytes (foldl leave_candidate s g) = lv_bytes (foldl leave_candidate s' g').
Proof.
  induction g as [|x g IH]; intros [|x' g'] s s' E Ep Eb; try done. cbn in E |- *. injection E as Ec Ex E.
  apply IH; [done|by cbn; rewrite ?Ep, ?Eb, Ex..].
Qed.

Lemma leave_groups_erased limit (gs : list (list EvictCandidate)) : forall (gs' : list (list EvictCandidate)) s s',
  erase_group <$> gs = erase_group <$> gs' -> lv_projected s = lv_projected s' -> lv_bytes s = lv_bytes s' ->
  lv_bytes (leave_groups limit gs s) = lv_bytes (leave_groups limit gs' s').
Proof.
  induction gs as [|g gs IH]; intros [|g' gs'] s s' E Ep Eb; try done. cbn in E |- *. injection E as Eg E.
  rewrite <- Ep. destruct (_ <=? _); [done|].
  destruct (leave_candidates_erased g g' s s' Eg Ep Eb) as [? ?]. by apply IH.
Qed.

Lemma plan_ordered_perm input rows :
  pi_rows input ≡ₚ rows ->
  erase_group <$> plan_ordered input = erase_group <$> plan_ordered (with_rows input rows).
Proof.
  intros Hp. unfold plan_ordered. rewrite !fmap_app. f_equal.
  - f_equal. unfold plan_unclaimed. cbn [with_rows pi_rows pi_unclaimed_allowed pi_index pi_profile_refs].
    apply list_omap_ext, Forall_Forall2_diag, Forall_true. intros c.
    enough (om_has c (chunk_position (pi_rows input)) = om_has c (chunk_position rows)) as -> by done.
    apply eq_true_iff_eq. rewrite !chunk_position_listed. unfold listed. by setoid_rewrite Hp.
  - rewrite <- !om_values_map. unfold by_position. rewrite !push_listed_erased. f_equal.
    rewrite (chunk_position_perm _ _ Hp). done.
Qed.

(** The order in which the rows are read does not matter: the plan deletes the
    same records in the same order, frees the same bytes, and forecasts the
    same bytes leaving. *)
Theorem cache_plan_row_order input rows :
  pi_rows input ≡ₚ rows ->
  let p := cache_plan input in
  let q := cache_plan (with_rows input rows) in
  cp_duplicates p = cp_duplicates q /\ cp_evict p = cp_evict q /\ cp_freed p = cp_freed q /\
  cp_over_after p = cp_over_after q /\ cp_leaving_soon_bytes p = cp_leaving_soon_bytes q.
Proof.
  intros Hp p q. pose proof (plan_ordered_perm input rows Hp) as He. subst p q. unfold cache_plan.
  cbn [with_rows pi_limit pi_index]. destruct (pi_limit input) as [limit|]; [|done].
  cbn [cp_duplicates cp_evict cp_freed cp_over_after cp_leaving_soon_bytes].
  change (freed_duplicates (with_rows input rows)) with (freed_duplicates input).
  rewrite (evict_groups_erased limit _ _ _ He). repeat split. by apply leave_groups_erased.
Qed.

(** * One mount *)

(** What happens to a handle's index after its mount scan: the handle writes or
    removes a record, or refreshes the index from the directory. The records on
    a disk take fewer than 2^64 bytes. *)
Inductive mount_step : CacheIndex -> CacheIndex -> Prop :=
| mount_written i c n :
    held_bytes (om_insert c n (ci_sizes i)) <= u64_max -> mount_step i (note_written i c n)
| mount_removed i c : mount_step i (note_removed i c)
| mount_refresh i i' pid live incoming dir :
    i' = (scan pid live incoming dir true false (Some i)).1 ->
    held_bytes (ci_sizes i') <= u64_max -> mount_step i i'.

Lemma mount_step_ok i i' : mount_step i i' -> cache_index_ok i -> cache_index_ok i'.
Proof.
  destruct 1 as [i c n Hb|i c|i i' pid live incoming dir -> Hb]; intros Hok;
    [by apply note_written_ok|by apply note_removed_ok|].
  apply scan_ok; [done|]. intros p [= <-]. apply Hok.
Qed.

Lemma mount_step_shrinks i i' : mount_step i i' -> ci_mount i' ⊆ ci_mount i.
Proof.
  destruct 1 as [i c n Hb|i c|i i' pid live incoming dir -> Hb]; intros d Hd; cbn in Hd.
  - by apply drop_cid_elem in Hd as [].
  - by apply drop_cid_elem in Hd as [].
  - by apply elem_List_filter in Hd as [].
Qed.

Lemma mount_run_ok i i' : rtc mount_step i i' -> cache_index_ok i -> cache_index_ok i' /\ ci_mount i' ⊆ ci_mount i.
Proof.
  induction 1 as [i|i j k Hs _ IH]; intros Hok; [done|].
  destruct (IH (mount_step_ok _ _ Hs Hok)) as [Hk Hsub]. split; [done|].
  etrans; [exact Hsub|by apply mount_step_shrinks].
Qed.

(** A blob this mount wrote is never presumed unclaimed. Through any further
    writes, removals and refreshes the index stays exact (its running usage is
    the sum of the record sizes) and the written address stays out of the mount
    set, so no plan over it evicts that blob unless a row lists it. *)
Theorem written_blob_never_unclaimed i c n i' input :
  cache_index_ok i -> held_bytes (om_insert c n (ci_sizes i)) <= u64_max ->
  rtc mount_step (note_written i c n) i' -> pi_index input = i' ->
  ci_usage i' = held_bytes (ci_sizes i') /\
  (c ∈ cp_evict (cache_plan input) -> listed (pi_rows input) c).
Proof.
  intros Hok Hb Hrun Hi. destruct (mount_run_ok _ _ Hrun) as [Hok' Hsub]; [by apply note_written_ok|].
  split; [apply Hok'|]. intros Hc. subst i'.
  destruct (plan_gone input Hok') as (k & _ & _ & _ & He & _). rewrite He in Hc.
  apply (group_offered input Hok') in Hc as [_ [(_ & Hm & _)|Hl]]; [|done].
  apply Hsub in Hm. cbn in Hm. by apply drop_cid_elem in Hm as [_ []].
Qed.

(** * The starting limit *)

Lemma div_ceil_spec a b : 0 < b -> a <= div_ceil a b * b /\ div_ceil a b * b < a + b.
Proof.
  intros Hb. unfold div_ceil. pose proof (N.div_mod (a + b - 1) b ltac:(lia)) as E.
  pose proof (N.mod_lt (a + b - 1) b ltac:(lia)) as L. rewrite (N.mul_comm _ b).
  revert E L. generalize (b * ((a + b - 1) / b)) ((a + b - 1) mod b). lia.
Qed.

Lemma migrated_limit_some u l :
  migrated_limit u = Some l -> valid_limit (Some l) = true /\ u * 5 <= l * 4 /\ DEFAULT_CACHE_LIMIT <= l.
Proof.
  unfold migrated_limit. destruct (N.leb_spec (N.max (div_ceil (div_ceil (u * 5) 4) MIN_CACHE_LIMIT * MIN_CACHE_LIMIT)
    DEFAULT_CACHE_LIMIT) MAX_CACHE_LIMIT) as [L|L]; [|done].
  pose proof (div_ceil_spec (u * 5) 4 ltac:(lia)) as [H1 _].
  pose proof (div_ceil_spec (div_ceil (u * 5) 4) MIN_CACHE_LIMIT ltac:(done)) as [H2 _].
  intros [= <-]. assert (MIN_CACHE_LIMIT <= DEFAULT_CACHE_LIMIT) by done.
  cbn [valid_limit]. rewrite andb_true_iff, !N.leb_le. lia.
Qed.

(** A cache that had no setting loses nothing to the limit it starts with. The
    starting limit is one a user could have chosen, no less than the default;
    usage is at most four fifths of it, under the 90% warning; and the first
    plan under it evicts nothing. There is no limit only where four fifths of
    the largest one would not hold the cache. *)
Theorem migration_drops_nothing input :
  pi_limit input = migrated_limit (ci_usage (pi_index input)) ->
  cp_evict (cache_plan input) = [] /\ cp_over_after (cache_plan input) = false /\
  match pi_limit input with
  | Some l => valid_limit (Some l) = true /\ DEFAULT_CACHE_LIMIT <= l /\
              ci_usage (pi_index input) * 100 <= l * NEARLY_FULL_PERCENT
  | None => MAX_CACHE_LIMIT * 4 < ci_usage (pi_index input) * 5
  end.
Proof.
  intros E. destruct (pi_limit input) as [l|] eqn:El.
  - symmetry in E. apply migrated_limit_some in E as (Hv & Hu & Hd).
    assert (ci_usage (pi_index input) - freed_duplicates input <= l) as Hle by lia.
    unfold cache_plan. rewrite El. cbn [cp_evict cp_over_after].
    assert (forall gs s, ev_current s <= l -> evict_groups l gs s = s) as Hstop.
    { intros [|g gs] s Hs; cbn; [done|]. by apply N.leb_le in Hs as ->. }
    rewrite Hstop by done. cbn. split; [done|]. split; [by apply N.ltb_ge|]. split; [done|]. split; [done|]. unfold NEARLY_FULL_PERCENT. lia.
  - unfold cache_plan. rewrite El. split; [done|]. split; [done|]. revert E. unfold migrated_limit.
    destruct (N.leb_spec (N.max (div_ceil (div_ceil (ci_usage (pi_index input) * 5) 4) MIN_CACHE_LIMIT * MIN_CACHE_LIMIT)
      DEFAULT_CACHE_LIMIT) MAX_CACHE_LIMIT) as [L|L]; [done|]. intros _.
    pose proof (div_ceil_spec (ci_usage (pi_index input) * 5) 4 ltac:(lia)) as [_ H1].
    pose proof (div_ceil_spec (div_ceil (ci_usage (pi_index input) * 5) 4) MIN_CACHE_LIMIT ltac:(done)) as [_ H2].
    assert (DEFAULT_CACHE_LIMIT <= MAX_CACHE_LIMIT) by done.
    assert (MAX_CACHE_LIMIT = 1024 * MIN_CACHE_LIMIT) by done.
    assert (1024 < div_ceil (div_ceil (ci_usage (pi_index input) * 5) 4) MIN_CACHE_LIMIT) as Hlt.
    { apply (N.mul_lt_mono_pos_r MIN_CACHE_LIMIT); [done|]. lia. }
    nia.
Qed.

(** * Witnesses *)

Definition toy_cache_index (entries : list (byte * N)) : CacheIndex :=
  from_sizes ((fun e => ([e.1], e.2)) <$> entries) true.

(** Chunks 1 and 2 are listed at position 0, chunk 3 at position 1 and again at
    position 5; 9 is listed nowhere and 8 is a profile image. *)
Definition toy_plan_input (limit : option N) : PlanInput :=
  mkPlanInput (toy_cache_index [(x01, 20); (x02, 20); (x03, 20); (x04, 20); (x08, 10); (x09, 10)])
    [mkPlanRow 0 [xa1] [[x01]; [x02]]; mkPlanRow 1 [xa2] [[x03]; [x08]]; mkPlanRow 5 [xa3] [[x03]; [x04]]]
    {[ [x08] ]} ∅ ∅ limit true.

Lemma toy_plan_index_ok limit : cache_index_ok (pi_index (toy_plan_input limit)).
Proof. by apply from_sizes_ok. Qed.

Lemma toy_plan_evicts :
  cp_evict (cache_plan (toy_plan_input (Some 60))) = [[x09]; [x01]; [x02]].
Proof. vm_compute. reflexivity. Qed.

Lemma cache_plan_protects_witness : NoDup [[x09]; [x01]; [x02]].
Proof.
  pose proof (cache_plan_protects (toy_plan_input (Some 60)) (toy_plan_index_ok _)) as [H _].
  rewrite toy_plan_evicts in H. exact H.
Defined.

Lemma cache_plan_exact_witness :
  cp_freed (cache_plan (toy_plan_input (Some 60))) = 50 /\ usage_after (cache_plan (toy_plan_input (Some 60))) = 50.
Proof.
  pose proof (cache_plan_exact (toy_plan_input (Some 60)) (toy_plan_index_ok _)) as (H1 & H2 & _).
  rewrite H1, H2. split; vm_compute; reflexivity.
Defined.

Lemma toy_newest_1 : newest (pi_rows (toy_plan_input (Some 60))) [x01] 0 [xa1].
Proof. apply chunk_position_some. reflexivity. Qed.

Lemma toy_newest_2 : newest (pi_rows (toy_plan_input (Some 60))) [x02] 0 [xa1].
Proof. apply chunk_position_some. reflexivity. Qed.

Lemma toy_offered_2 : offered (toy_plan_input (Some 60)) [x02].
Proof. apply (plan_ordered_elem _ (toy_plan_index_ok _)). vm_compute. set_solver. Qed.

Lemma cache_plan_oldest_first_witness : [x02] ∈ cp_evict (cache_plan (toy_plan_input (Some 60))).
Proof.
  apply (cache_plan_oldest_first (toy_plan_input (Some 60)) [x01] 0 [xa1]).
  - apply toy_plan_index_ok.
  - rewrite toy_plan_evicts. by right; left.
  - apply toy_newest_1.
  - apply toy_offered_2.
  - right. exists 0, [xa1]. split; [apply toy_newest_2|done].
Defined.

Lemma cache_plan_row_order_witness :
  cp_evict (cache_plan (toy_plan_input (Some 60))) =
  cp_evict (cache_plan (with_rows (toy_plan_input (Some 60)) (rev (pi_rows (toy_plan_input (Some 60)))))).
Proof. apply (cache_plan_row_order (toy_plan_input (Some 60))). apply Permutation_rev. Defined.

Definition toy_mount : CacheIndex := note_removed (note_written (toy_cache_index [(x01, 20)]) [x07] 5) [x01].

Lemma written_blob_never_unclaimed_witness : ci_usage toy_mount = held_bytes (ci_sizes toy_mount).
Proof.
  apply (written_blob_never_unclaimed (toy_cache_index [(x01, 20)]) [x07] 5 toy_mount (mkPlanInput toy_mount [] ∅ ∅ ∅ None true)).
  - by apply from_sizes_ok.
  - done.
  - apply rtc_once, mount_removed.
  - reflexivity.
Defined.

Definition toy_migrated : PlanInput := toy_plan_input (migrated_limit 100).

Lemma toy_migrated_limit : pi_limit toy_migrated = migrated_limit (ci_usage (pi_index toy_migrated)).
Proof. vm_compute. reflexivity. Qed.

Lemma migration_drops_nothing_witness : cp_evict (cache_plan toy_migrated) = [].
Proof. exact (proj1 (migration_drops_nothing toy_migrated toy_migrated_limit)). Defined.

(** A cache stays over its limit with nothing pinned: a blob written during this
    mount that no row lists yet is never offered. *)
Theorem over_limit_without_pins :
  let index := note_written (toy_cache_index [(x01, 20)]) [x07] 50 in
  let input := mkPlanInput index [mkPlanRow 0 [xa1] [[x01]]] ∅ ∅ ∅ (Some 30) true in
  pi_pins input = ∅ /\ cp_pinned_bytes (cache_plan input) = 0 /\
  cp_evict (cache_plan input) = [[x01]] /\ cp_over_after (cache_plan input) = true.
Proof. vm_compute. done. Qed.
