(* ===== verification/Housekeeping.v ===== *)
(** Cache housekeeping of [crates/catcoms-app/src/cache_housekeeping.rs]: the
    sealed per-server setting, the planner's inputs and what makes one of them
    untrustworthy, the turn that deletes at most one batch, and the status it
    reports. Deletes go through the protected store of [Protection] down to the
    sealing store's [delete], which updates the cache index.

    The server is the record of what housekeeping reads of it. A saved plan is
    the list of its chunk addresses; a file row and a profile record are what
    decoding them gives. The disk answers each unlink and each directory listing;
    the monotonic clock is an argument of every turn. *)

From S2P Require Import Prelude OrdMap Wire Pad Crypto Blob Protection CachePlan.
From stdpp Require Import base list gmap relations sorting.
From Stdlib Require Import Init.Byte.
Local Open Scope N_scope.

Definition IN_USE_MS : N := 10 * 60 * 1000.
Definition MAX_IN_USE_FILES : N := 64.
Definition PASS_INTERVAL_MS : N := 30000.
Definition EVALUATE_INTERVAL_MS : N := 60000.
Definition MAX_DELETES_PER_TURN : N := 64.
Definition STATUS_INTERVAL_MS : N := 1000.
Definition STUDIO_REQUEST_INTERVAL_MS : N := 60000.
Definition MAX_FILE_ENTRIES : N := 256.

(** * The setting *)

Inductive CacheLimit : Type := LimitPending | LimitUnreadable | Unlimited | LimitBytes (n : N).

#[global] Instance CacheLimit_eq_dec : EqDecision CacheLimit.
Proof. solve_decision. Defined.

Definition limit_bytes (l : CacheLimit) : option (option N) :=
  match l with
  | LimitBytes n => Some (Some n)
  | Unlimited => Some None
  | LimitPending | LimitUnreadable => None
  end.

Inductive CacheSettingOrigin : Type := Migrated | UserChosen.

Record CacheSetting := mkCacheSetting { st_limit : option N; st_origin : CacheSettingOrigin }.

Definition CACHE_SETTING_V1 : N := 1.

Definition setting_encode_for (s : CacheSetting) (group : bytes) : bytes :=
  let e := put_u8 CACHE_SETTING_V1 [] in
  let e := put_bytes_x group e in
  let e := match st_limit s with
           | None => put_u8 0 e
           | Some n => put_u64 n (put_u8 1 e)
           end in
  put_u8 (match st_origin s with Migrated => 0 | UserChosen => 1 end) e.

(** [.ok()?]: which read failed is not reported. *)
Definition opt_dec {A} (m : dec WireError A) : dec unit A := dec_map_err (fun _ => tt) m.

Definition setting_limit (tag : N) : dec unit (option N) :=
  if tag =? 0 then mret None
  else if tag =? 1 then n ← opt_dec get_u64; mret (Some n)
  else dec_lift (Err tt).

Definition setting_origin (o : N) : result unit CacheSettingOrigin :=
  if o =? 0 then Ok Migrated else if o =? 1 then Ok UserChosen else Err tt.

Definition setting_body : dec unit (bytes * CacheSetting) :=
  version ← opt_dec get_u8;
  _ ← dec_lift (refuse_if (negb (version =? CACHE_SETTING_V1)) tt);
  group ← opt_dec get_bytes;
  _ ← dec_lift (refuse_if ((len group =? 0) || (256 <? len group)) tt);
  tag ← opt_dec get_u8;
  limit ← setting_limit tag;
  o ← opt_dec get_u8;
  origin ← dec_lift (setting_origin o);
  mret (group, mkCacheSetting limit origin).

Definition setting_decode (input : bytes) : option (bytes * CacheSetting) :=
  match run_dec (x ← setting_body; _ ← opt_dec finish; mret x) input with
  | Ok (group, s) => if valid_limit (st_limit s) then Some (group, s) else None
  | Err _ => None
  end.

Definition as_limit (s : CacheSetting) : CacheLimit :=
  match st_limit s with None => Unlimited | Some n => LimitBytes n end.

(** * State *)

Inductive CachePause : Type :=
| NoCache | NotReady | ScanIncomplete | SettingUnreadable | IndexUnreadable | PinsUnknown | StudioUnknown.

#[global] Instance CachePause_eq_dec : EqDecision CachePause.
Proof. solve_decision. Defined.

Record CacheStatus := mkCacheStatus {
  cs_usage_bytes : N;
  cs_limit_bytes : option N;
  cs_unlimited : bool;
  cs_pinned_bytes : N;
  cs_leaving_soon_files : N;
  cs_leaving_soon_bytes : N;
  cs_nearly_full : bool;
  cs_over_limit : bool;
  cs_held_by_pins : bool;
  cs_paused : option CachePause
}.

#[global] Instance CacheStatus_eq_dec : EqDecision CacheStatus.
Proof. solve_decision. Defined.

Record InUse := mkInUse { iu_file : Cid; iu_until : N; iu_chunks : gset Cid }.

Record CacheRuntime := mkCacheRuntime {
  rt_limit : CacheLimit;
  rt_in_use : list InUse;
  rt_last_pass : option N;
  rt_last_evaluation : option N;
  rt_in_pass : bool;
  rt_forced : bool;
  rt_last_status : option CacheStatus;
  rt_last_status_event : option N;
  rt_status_held : bool;
  rt_status_cache : option (N * CacheStatus);
  rt_last_studio_request : option N
}.

Record CachePump := mkCachePump {
  pu_next_due : option N;
  pu_status : option CacheStatus;
  pu_studio_scan : bool;
  pu_deleted : N;
  pu_freed : N
}.

Inductive KeepPhase : Type := Resumable | Completed | Deleting.

#[global] Instance KeepPhase_eq_dec : EqDecision KeepPhase.
Proof. solve_decision. Defined.

(** A Keep transfer or a download: its phase, and its saved plans where they
    can be read. *)
Record Transfer := mkTransfer { tr_phase : KeepPhase; tr_plans : option (list (list Cid)) }.

(** A row of the file index: its position, its author as attested, and what its
    manifest decodes to (the whole-file address and the chunk addresses). *)
Record FileRow := mkFileRow {
  fr_position : N;
  fr_verified : bool;
  fr_identity : bytes;
  fr_manifest : option (Cid * list Cid)
}.

Record CacheServer := mkCacheServer {
  (** the store's cache mode and, once scanned, its index *)
  sv_cache : option (option CacheIndex);
  sv_kept_error : bool;
  sv_kept : list Transfer;
  sv_downloads : option (list Transfer);
  (** the file index document: its rows where the projection succeeds, and the raw row count *)
  sv_files : option (option (list FileRow) * N);
  sv_profiles : option (list (option Cid * option Cid));
  sv_retained : gset Cid;
  sv_group : bytes;
  sv_me : bytes;
  sv_protection : Protection;
  sv_runtime : CacheRuntime
}.

Definition blob_cache_index (sv : CacheServer) : option CacheIndex := mjoin (sv_cache sv).
Definition blob_cache_usage (sv : CacheServer) : option CacheUsage := summary <$> blob_cache_index sv.

Definition with_cache (sv : CacheServer) (c : option (option CacheIndex)) (p : Protection) : CacheServer :=
  mkCacheServer c (sv_kept_error sv) (sv_kept sv) (sv_downloads sv) (sv_files sv) (sv_profiles sv) (sv_retained sv)
    (sv_group sv) (sv_me sv) p (sv_runtime sv).

Definition with_runtime (sv : CacheServer) (r : CacheRuntime) : CacheServer :=
  mkCacheServer (sv_cache sv) (sv_kept_error sv) (sv_kept sv) (sv_downloads sv) (sv_files sv) (sv_profiles sv)
    (sv_retained sv) (sv_group sv) (sv_me sv) (sv_protection sv) r.

Definition set_cache_limit (sv : CacheServer) (limit : CacheLimit) : CacheServer :=
  let r := sv_runtime sv in
  with_runtime sv (mkCacheRuntime limit (rt_in_use r) (rt_last_pass r) (rt_last_evaluation r) (rt_in_pass r) true
    (rt_last_status r) (rt_last_status_event r) (rt_status_held r) None (rt_last_studio_request r)).

Definition cache_protection_changed (sv : CacheServer) : CacheServer :=
  let r := sv_runtime sv in
  with_runtime sv (mkCacheRuntime (rt_limit r) (rt_in_use r) (rt_last_pass r) (rt_last_evaluation r) (rt_in_pass r) true
    (rt_last_status r) (rt_last_status_event r) (rt_status_held r) (rt_status_cache r) (rt_last_studio_request r)).

Definition note_in_use (now : N) (file : Cid) (chunks : gset Cid) (l : list InUse) : list InUse :=
  let l := List.filter (fun e => negb (bool_decide (iu_file e = file)) && (now <? iu_until e)) l in
  let l := if MAX_IN_USE_FILES <=? len l then tail l else l in
  l ++ [mkInUse file (sat_add u64_max now IN_USE_MS) chunks].

Definition note_cache_use (now : N) (file : Cid) (chunks : gset Cid) (sv : CacheServer) : CacheServer :=
  let r := sv_runtime sv in
  with_runtime sv (mkCacheRuntime (rt_limit r) (note_in_use now file chunks (rt_in_use r)) (rt_last_pass r)
    (rt_last_evaluation r) (rt_in_pass r) (rt_forced r) (rt_last_status r) (rt_last_status_event r) (rt_status_held r)
    (rt_status_cache r) (rt_last_studio_request r)).

(** * The planner's inputs *)

Definition own_upload_chunks (me : bytes) (rows : list FileRow) : gset Cid :=
  list_to_set (concat (omap (fun r => snd <$> fr_manifest r)
    (List.filter (fun r => fr_verified r && bool_decide (fr_identity r = me)) rows))).

(** [pins.extend(plans.iter().flat_map(..))] over the transfers [skip] does not pass over *)
Fixpoint pin_transfers (skip : KeepPhase -> bool) (l : list Transfer) (pins : gset Cid)
    : result CachePause (gset Cid) :=
  match l with
  | [] => Ok pins
  | t :: rest =>
      if skip (tr_phase t) then pin_transfers skip rest pins
      else plans ← ok_or (tr_plans t) PinsUnknown;
           pin_transfers skip rest (pins ∪ list_to_set (concat plans))
  end.

Definition skip_kept (p : KeepPhase) : bool := match p with Completed | Deleting => true | Resumable => false end.
Definition skip_download (p : KeepPhase) : bool := bool_decide (p = Deleting).

Definition in_use_chunks (now : N) (l : list InUse) : gset Cid :=
  foldl (fun acc e => acc ∪ iu_chunks e) ∅ (List.filter (fun e => now <? iu_until e) l).

Definition cache_pins (sv : CacheServer) (rows : list FileRow) (now : N) : result CachePause (gset Cid) * Protection :=
  match (_ ← refuse_if (sv_kept_error sv) PinsUnknown;
         pins ← pin_transfers skip_kept (sv_kept sv) ∅;
         downloads ← ok_or (sv_downloads sv) PinsUnknown;
         pins ← pin_transfers skip_download downloads pins;
         Ok (pins ∪ in_use_chunks now (rt_in_use (sv_runtime sv)) ∪ own_upload_chunks (sv_me sv) rows)) with
  | Err e => (Err e, sv_protection sv)
  | Ok pins =>
      let '(studio, p) := protected_cids (sv_group sv) (sv_protection sv) in
      (match studio with Some studio => Ok (pins ∪ studio) | None => Err StudioUnknown end, p)
  end.

Definition plan_rows (rows : list FileRow) : list PlanRow :=
  omap (fun r => (fun m : Cid * list Cid => mkPlanRow (fr_position r) m.1 m.2) <$> fr_manifest r) rows.

Definition profile_images (records : list (option Cid * option Cid)) : gset Cid :=
  list_to_set (omap id (concat ((fun e => [e.1; e.2]) <$> records))).

(** Everything up to the pins. *)
Definition base_inputs (sv : CacheServer) : result CachePause (CacheIndex * option N * list FileRow * bool * gset Cid) :=
  index ← ok_or (blob_cache_index sv) NoCache;
  _ ← refuse_if (negb (ci_complete index)) ScanIncomplete;
  limit ← match rt_limit (sv_runtime sv) with
          | LimitUnreadable => Err SettingUnreadable
          | other => ok_or (limit_bytes other) NotReady
          end;
  files ← ok_or (sv_files sv) IndexUnreadable;
  rows ← ok_or files.1 IndexUnreadable;
  let unclaimed := files.2 <=? MAX_FILE_ENTRIES in
  match sv_profiles sv with
  | Some records => Ok (index, limit, rows, unclaimed, profile_images records)
  | None => Ok (index, limit, rows, false, ∅)
  end.

Definition cache_inputs (sv : CacheServer) (now : N) : result CachePause PlanInput * Protection :=
  match base_inputs sv with
  | Err e => (Err e, sv_protection sv)
  | Ok (index, limit, rows, unclaimed, profile_refs) =>
      let '(pins, p) := cache_pins sv rows now in
      (pins ← pins; Ok (mkPlanInput index (plan_rows rows) profile_refs pins (sv_retained sv) limit unclaimed), p)
  end.

(** [cache_inputs(now)] with the reaping it does on the shared protection *)
Definition read_inputs (sv : CacheServer) (now : N) : result CachePause PlanInput * CacheServer :=
  let '(r, p) := cache_inputs sv now in (r, with_cache sv (sv_cache sv) p).

(** * Status *)

Definition paused_status (usage : N) (limit : CacheLimit) (pause : CachePause) : CacheStatus :=
  mkCacheStatus usage (mjoin (limit_bytes limit)) (bool_decide (limit = Unlimited)) 0 0 0 false false false (Some pause).

Definition status_from (sv : CacheServer) (result : result CachePause CachePlan) : CacheStatus :=
  match result with
  | Ok plan =>
      let limit := cp_limit plan in
      let some_and (f : N -> bool) := match limit with Some l => f l | None => false end in
      mkCacheStatus (cp_usage plan) limit (match limit with None => true | Some _ => false end) (cp_pinned_bytes plan)
        (cp_leaving_soon_files plan) (cp_leaving_soon_bytes plan)
        (some_and (fun l => l * NEARLY_FULL_PERCENT <? cp_usage plan * 100))
        (some_and (fun l => l <? cp_usage plan))
        (cp_over_after plan && some_and (fun l => l <? usage_after plan)) None
  | Err pause =>
      paused_status (match blob_cache_usage sv with Some u => cu_bytes u | None => 0 end)
        (rt_limit (sv_runtime sv)) pause
  end.

Definition res_map {E A B} (f : A -> B) (r : result E A) : result E B :=
  match r with Ok a => Ok (f a) | Err e => Err e end.

Definition cache_status (sv : CacheServer) (now : N) : CacheStatus * CacheServer :=
  let '(r, sv) := read_inputs sv now in (status_from sv (res_map cache_plan r), sv).

Definition cache_status_cached (sv : CacheServer) (now : N) : CacheStatus * CacheServer :=
  let fresh :=
    let '(status, sv) := cache_status sv now in
    let r := sv_runtime sv in
    (status, with_runtime sv (mkCacheRuntime (rt_limit r) (rt_in_use r) (rt_last_pass r) (rt_last_evaluation r)
       (rt_in_pass r) (rt_forced r) (rt_last_status r) (rt_last_status_event r) (rt_status_held r)
       (Some (now, status)) (rt_last_studio_request r))) in
  match rt_status_cache (sv_runtime sv) with
  | Some (at_, status) => if now <? sat_add u64_max at_ STATUS_INTERVAL_MS then (status, sv) else fresh
  | None => fresh
  end.

(** [is_none_or(|last| now >= last.saturating_add(interval))] *)
Definition elapsed (now interval : N) (last : option N) : bool :=
  match last with None => true | Some last => sat_add u64_max last interval <=? now end.

Definition offer_status (now : N) (status : CacheStatus) (r : CacheRuntime) (pump : CachePump)
    : CacheRuntime * CachePump :=
  let set_status last event held :=
    mkCacheRuntime (rt_limit r) (rt_in_use r) (rt_last_pass r) (rt_last_evaluation r) (rt_in_pass r) (rt_forced r)
      last event held (Some (now, status)) (rt_last_studio_request r) in
  if bool_decide (rt_last_status r = Some status)
  then (set_status (rt_last_status r) (rt_last_status_event r) false, pump)
  else if elapsed now STATUS_INTERVAL_MS (rt_last_status_event r)
  then (set_status (Some status) (Some now) false,
        mkCachePump (pu_next_due pump) (Some status) (pu_studio_scan pump) (pu_deleted pump) (pu_freed pump))
  else (set_status (rt_last_status r) (rt_last_status_event r) true, pump).

(** * Deleting *)

Inductive Unlink : Type := Unlinked | NotFound | UnlinkFailed.

(** The disk during one turn: its answer to each unlink, and what a listing of
    the cache directory yields. *)
Record Disk := mkDisk {
  dk_unlink : Cid -> Unlink;
  dk_dir : option (list (option DirEntry))
}.

(** [SealingBlobStore::delete], the read epoch apart *)
Definition sealing_delete (disk : Disk) (cache : option (option CacheIndex)) (cid : Cid)
    : result StorageError bool * option (option CacheIndex) :=
  let removed := match dk_unlink disk cid with
                 | Unlinked => Ok true
                 | NotFound => Ok false
                 | UnlinkFailed => Err Io
                 end in
  (removed, if is_ok removed then option_map (option_map (fun i => note_removed i cid)) cache else cache).

Definition delete_blob (disk : Disk) (sv : CacheServer) (cid : Cid) : result StorageError bool * CacheServer :=
  let '(r, p, c) := protected_delete (sealing_delete disk) (sv_group sv) (sv_protection sv) (sv_cache sv) cid in
  (r, with_cache sv c p).

(** [blob_cache_scan(false)] *)
Definition blob_cache_scan (disk : Disk) (sv : CacheServer) : bool * CacheServer :=
  match sv_cache sv with
  | None => (false, sv)
  | Some previous =>
      (true, with_cache sv (Some (Some (scan 0 ∅ None (dk_dir disk) true false previous).1)) (sv_protection sv))
  end.

Definition count_delete (pump : CachePump) (bytes : N) : CachePump :=
  mkCachePump (pu_next_due pump) (pu_status pump) (pu_studio_scan pump) (pu_deleted pump + 1)
    (sat_add u64_max (pu_freed pump) bytes).

Fixpoint delete_batch (disk : Disk) (sizes : bmap Cid N) (batch : list Cid) (sv : CacheServer) (pump : CachePump)
    : CacheServer * CachePump :=
  match batch with
  | [] => (sv, pump)
  | cid :: rest =>
      let '(r, sv) := delete_blob disk sv cid in
      let pump := match r with Ok true => count_delete pump (size_of sizes cid) | _ => pump end in
      delete_batch disk sizes rest sv pump
  end.

Definition set_pass (sv : CacheServer) (in_pass : bool) (last_pass last_studio : option N) : CacheServer :=
  let r := sv_runtime sv in
  with_runtime sv (mkCacheRuntime (rt_limit r) (rt_in_use r) last_pass (rt_last_evaluation r) in_pass (rt_forced r)
    (rt_last_status r) (rt_last_status_event r) (rt_status_held r) (rt_status_cache r) last_studio).

Definition wants_delete (p : CachePlan) : bool :=
  negb (len (cp_duplicates p) =? 0) || negb (len (cp_evict p) =? 0).

(** The plan of this turn, made again from a refreshed index before the first
    delete of a pass. *)
Definition batch_inputs (disk : Disk) (sv : CacheServer) (now : N) : result CachePause PlanInput * CacheServer :=
  let '(r, sv) := read_inputs sv now in
  match r with
  | Ok inputs =>
      if wants_delete (cache_plan inputs) && negb (rt_in_pass (sv_runtime sv)) then
        let '(scanned, sv) := blob_cache_scan disk sv in
        if scanned then read_inputs sv now else (Err ScanIncomplete, sv)
      else (Ok inputs, sv)
  | Err e => (Err e, sv)
  end.

Definition run_batch (disk : Disk) (sv : CacheServer) (now : N) (pump : CachePump) : CacheServer * CachePump :=
  let '(result, sv) := batch_inputs disk sv now in
  let '(plan_result, sv, pump) :=
    match result with
    | Err StudioUnknown =>
        let ask := elapsed now STUDIO_REQUEST_INTERVAL_MS (rt_last_studio_request (sv_runtime sv)) in
        let pump := if ask then mkCachePump (pu_next_due pump) (pu_status pump) true (pu_deleted pump) (pu_freed pump)
                    else pump in
        (Err StudioUnknown,
         set_pass sv false (Some now) (if ask then Some now else rt_last_studio_request (sv_runtime sv)), pump)
    | Err e =>
        (Err e, set_pass sv false (Some now) (rt_last_studio_request (sv_runtime sv)), pump)
    | Ok inputs =>
        let plan := cache_plan inputs in
        let batch := firstn (N.to_nat MAX_DELETES_PER_TURN) (cp_duplicates plan ++ cp_evict plan) in
        let '(sv, pump) := delete_batch disk (ci_sizes (pi_index inputs)) batch sv pump in
        let remaining := len batch <? len (cp_duplicates plan) + len (cp_evict plan) in
        let in_pass := remaining && (0 <? pu_deleted pump) in
        let sv := set_pass sv in_pass (if in_pass then rt_last_pass (sv_runtime sv) else Some now)
                    (rt_last_studio_request (sv_runtime sv)) in
        if 0 <? pu_deleted pump
        then let '(r, sv) := read_inputs sv now in (res_map cache_plan r, sv, pump)
        else (Ok plan, sv, pump)
    end in
  let '(r, pump) := offer_status now (status_from sv plan_result) (sv_runtime sv) pump in
  (with_runtime sv r, pump).

(** * The turn *)

Definition empty_pump : CachePump := mkCachePump None None false 0 0.

Definition min_opt (a : N) (b : option N) : N := match b with Some b => N.min a b | None => a end.

Definition cache_pump (disk : Disk) (sv : CacheServer) (now : N) : CachePump * CacheServer :=
  let over := match blob_cache_usage sv, rt_limit (sv_runtime sv) with
              | Some usage, LimitBytes limit => limit <? cu_bytes usage
              | _, _ => false
              end in
  let pass_spaced := elapsed now PASS_INTERVAL_MS (rt_last_pass (sv_runtime sv)) in
  let evaluation_due := elapsed now EVALUATE_INTERVAL_MS (rt_last_evaluation (sv_runtime sv)) in
  let due := rt_in_pass (sv_runtime sv) || rt_forced (sv_runtime sv) || evaluation_due || (over && pass_spaced) in
  let '(sv, pump) :=
    if due then
      let r := sv_runtime sv in
      run_batch disk
        (with_runtime sv (mkCacheRuntime (rt_limit r) (rt_in_use r) (rt_last_pass r) (Some now) (rt_in_pass r) false
           (rt_last_status r) (rt_last_status_event r) (rt_status_held r) (rt_status_cache r) (rt_last_studio_request r)))
        now empty_pump
    else if rt_status_held (sv_runtime sv) then
      let '(status, sv) := cache_status sv now in
      let '(r, pump) := offer_status now status (sv_runtime sv) empty_pump in
      (with_runtime sv r, pump)
    else (sv, empty_pump) in
  let r := sv_runtime sv in
  let held := if rt_status_held r
              then Some (match rt_last_status_event r with
                         | Some last => sat_add u64_max last STATUS_INTERVAL_MS
                         | None => now
                         end)
              else None in
  let next :=
    if rt_in_pass r then now
    else
      let evaluation := match rt_last_evaluation r with
                        | Some last => sat_add u64_max last EVALUATE_INTERVAL_MS
                        | None => now
                        end in
      let next := if over
                  then N.min evaluation (match rt_last_pass r with
                                         | Some last => sat_add u64_max last PASS_INTERVAL_MS
                                         | None => now
                                         end)
                  else evaluation in
      min_opt next held in
  (mkCachePump (Some next) (pu_status pump) (pu_studio_scan pump) (pu_deleted pump) (pu_freed pump), sv).

(** * What housekeeping leaves alone *)

Lemma reap_reap s : reap (reap s) = reap s.
Proof.
  unfold reap, set_transient. cbn. f_equal. apply List_filter_id. apply Forall_forall. by intros h [_ H]%elem_List_filter.
Qed.

(** The facts a turn reads and never changes: the index, the schedule and the
    dead holds apart, the server. *)
Definition view (sv : CacheServer) : CacheServer :=
  with_runtime (with_cache sv None (reap (sv_protection sv)))
    (mkCacheRuntime (rt_limit (sv_runtime sv)) (rt_in_use (sv_runtime sv)) None None false false None None false None None).

Lemma view_with_cache sv c p : reap p = reap (sv_protection sv) -> view (with_cache sv c p) = view sv.
Proof. intros E. unfold view. cbn. by rewrite E. Qed.

Lemma view_with_runtime sv r :
  rt_limit r = rt_limit (sv_runtime sv) -> rt_in_use r = rt_in_use (sv_runtime sv) -> view (with_runtime sv r) = view sv.
Proof. intros E1 E2. unfold view. cbn. by rewrite E1, E2. Qed.

Lemma protected_cids_reap group s : (protected_cids group (reap s)).1 = (protected_cids group s).1.
Proof. unfold protected_cids. rewrite reap_reap. cbn. destruct (pt_poisoned s); [done|]. by destruct (pt_pins s). Qed.

Lemma protected_cids_state group s : reap (protected_cids group s).2 = reap s.
Proof.
  unfold protected_cids. destruct (pt_poisoned s); [done|]. cbn [reap set_transient pt_pins].
  destruct (pt_pins s); apply reap_reap.
Qed.

Lemma cache_inputs_state sv now : reap (cache_inputs sv now).2 = reap (sv_protection sv).
Proof.
  unfold cache_inputs. destruct (base_inputs sv) as [[[[[index limit] rows] unclaimed] refs]|e]; [|done].
  unfold cache_pins. destruct (_ ← _; _) as [pins|e]; [|done].
  pose proof (protected_cids_state (sv_group sv) (sv_protection sv)) as H.
  destruct (protected_cids _ _) as [studio p]. done.
Qed.

Lemma read_inputs_spec sv now r sv' :
  read_inputs sv now = (r, sv') ->
  r = (cache_inputs sv now).1 /\ sv_cache sv' = sv_cache sv /\ sv_runtime sv' = sv_runtime sv /\ view sv' = view sv.
Proof.
  unfold read_inputs. pose proof (cache_inputs_state sv now) as H. destruct (cache_inputs sv now) as [r0 p].
  intros [= <- <-]. cbn in H. repeat split. by apply view_with_cache.
Qed.

(** Planning reads only the view and the index. *)
Lemma cache_inputs_view sv sv' now :
  view sv = view sv' -> sv_cache sv = sv_cache sv' -> (cache_inputs sv now).1 = (cache_inputs sv' now).1.
Proof.
  intros E Ec. destruct sv as [c ke k d f pr rt g me p r], sv' as [c' ke' k' d' f' pr' rt' g' me' p' r'].
  unfold view in E. cbn in E, Ec. injection E as -> -> -> -> -> -> -> -> Ep Epp Et En El Eo Elim Einu. subst c'.
  assert ((protected_cids g' p).1 = (protected_cids g' p').1) as Hpc.
  { rewrite <- (protected_cids_reap g' p), <- (protected_cids_reap g' p'). unfold reap, set_transient. by rewrite Ep, Epp, Et, En, El, Eo. }
  unfold cache_inputs, base_inputs, cache_pins. cbn. rewrite Elim.
  destruct (_ ← _; _) as [[[[[index limit] rows] unclaimed] refs]|e]; [|done].
  rewrite Einu. destruct (_ ← _; _) as [pins|e]; [|done].
  destruct (protected_cids g' p) as [st s1], (protected_cids g' p') as [st' s2]. cbn in Hpc. by rewrite Hpc.
Qed.

(** * One batch *)

Definition cache_removed (gone : list Cid) (cache : option (option CacheIndex)) : option (option CacheIndex) :=
  option_map (option_map (fun i => foldl note_removed i gone)) cache.

Lemma cache_removed_nil cache : cache_removed [] cache = cache.
Proof. by destruct cache as [[]|]. Qed.

Lemma cache_removed_app g1 g2 cache : cache_removed (g1 ++ g2) cache = cache_removed g2 (cache_removed g1 cache).
Proof. destruct cache as [[i|]|]; cbn; [by rewrite foldl_app|done..]. Qed.

Lemma delete_blob_spec disk sv c r sv' :
  delete_blob disk sv c = (r, sv') ->
  view sv' = view sv /\ sv_runtime sv' = sv_runtime sv /\
  (sv_cache sv' = cache_removed [c] (sv_cache sv) \/ (sv_cache sv' = sv_cache sv /\ r <> Ok true)).
Proof.
  unfold delete_blob.
  pose proof (protected_delete_spec (sealing_delete disk) (sv_group sv) (sv_protection sv) (sv_cache sv) c) as H.
  destruct (protected_delete _ _ _ _ _) as [[r0 p] cache]. intros [= <- <-]. destruct H as [-> H].
  split; [apply view_with_cache, protected_cids_state|]. split; [done|]. cbn.
  destruct ((protected_cids _ _).1) as [s|]; [|right; by destruct H].
  destruct (decide (c ∈ s)); [right; by destruct H as [-> ->]|].
  unfold sealing_delete in H. destruct (dk_unlink disk c); injection H as -> ->; cbn; [by left|by left|by right].
Qed.

Record batch_outcome (batch : list Cid) (sv sv' : CacheServer) (pump pump' : CachePump) (gone : list Cid) : Prop := mkBatchOutcome {
  bo_view : view sv' = view sv;
  bo_runtime : sv_runtime sv' = sv_runtime sv;
  bo_cache : sv_cache sv' = cache_removed gone (sv_cache sv);
  bo_gone : sublist gone batch;
  bo_deleted : pu_deleted pump <= pu_deleted pump' <= pu_deleted pump + len gone;
  bo_pump : pu_status pump' = pu_status pump /\ pu_studio_scan pump' = pu_studio_scan pump /\ pu_next_due pump' = pu_next_due pump
}.

Lemma delete_batch_spec disk sizes batch : forall sv pump sv' pump',
  delete_batch disk sizes batch sv pump = (sv', pump') -> exists gone, batch_outcome batch sv sv' pump pump' gone.
Proof.
  induction batch as [|c batch IH]; intros sv pump sv' pump' E; cbn in E.
  { injection E as <- <-. exists []. constructor; rewrite ?cache_removed_nil; try done. rewrite len_nil. lia. }
  destruct (delete_blob disk sv c) as [r sv1] eqn:Ed. apply delete_blob_spec in Ed as (Hv & Hr & Hc).
  set (pump1 := match r with Ok true => _ | _ => _ end) in E.
  apply IH in E as [gone [Hv' Hr' Hc' Hg Hd Hp]].
  assert (pu_status pump1 = pu_status pump /\ pu_studio_scan pump1 = pu_studio_scan pump /\ pu_next_due pump1 = pu_next_due pump) as Hp1.
  { subst pump1. by destruct r as [[]|]. }
  destruct Hc as [Hc|[Hc Hn]].
  - exists (c :: gone). constructor; [by rewrite Hv'|by rewrite Hr'| |by constructor| |].
    + rewrite Hc', Hc. by rewrite <- cache_removed_app.
    + rewrite len_cons. subst pump1. destruct r as [[]|]; cbn in Hd; lia.
    + destruct Hp as (-> & -> & ->). done.
  - assert (pump1 = pump) as E1 by (subst pump1; by destruct r as [[]|]). rewrite E1 in *. exists gone.
    constructor; [by rewrite Hv'|by rewrite Hr'|by rewrite Hc', Hc|by constructor|lia|done].
Qed.

Lemma note_removed_all_get gone : forall i c,
  om_wf (ci_sizes i) -> om_get c (ci_sizes (foldl note_removed i gone)) = if decide (c ∈ gone) then None else om_get c (ci_sizes i).
Proof.
  induction gone as [|d gone IH]; intros i c Hwf; cbn [foldl]; [done|].
  rewrite IH by (cbn; by apply om_wf_remove). cbn [note_removed ci_sizes].
  destruct (decide (c ∈ gone)); [rewrite decide_True by (by right); done|].
  destruct (decide (c = d)) as [->|Hne].
  - rewrite decide_True by left. by apply om_get_remove_eq.
  - rewrite decide_False by (rewrite elem_of_cons; tauto). by rewrite om_get_remove_ne.
Qed.

Lemma note_removed_all_ok gone : forall i, cache_index_ok i -> cache_index_ok (foldl note_removed i gone).
Proof. induction gone as [|d gone IH]; intros i Hok; cbn; [done|]. by apply IH, note_removed_ok. Qed.

(** The index this turn plans from. *)
Definition refreshed (disk : Disk) (sv : CacheServer) : CacheIndex :=
  (scan 0 ∅ None (dk_dir disk) true false (blob_cache_index sv)).1.

Lemma batch_inputs_spec disk sv now r sv' :
  batch_inputs disk sv now = (r, sv') ->
  view sv' = view sv /\ sv_runtime sv' = sv_runtime sv /\
  (sv_cache sv' = sv_cache sv \/
   (rt_in_pass (sv_runtime sv) = false /\ sv_cache sv' = Some (Some (refreshed disk sv)) /\
    exists inputs, (cache_inputs sv now).1 = Ok inputs)) /\
  (forall inputs, r = Ok inputs -> (cache_inputs sv' now).1 = Ok inputs) /\
  (forall e, (cache_inputs sv now).1 = Err e -> r = Err e /\ sv_cache sv' = sv_cache sv).
Proof.
  unfold batch_inputs. destruct (read_inputs sv now) as [r1 sv1] eqn:E1. apply read_inputs_spec in E1 as (-> & Hc1 & Hr1 & Hv1).
  destruct (cache_inputs sv now).1 as [inputs|e] eqn:Ei.
  - destruct (_ && _) eqn:Hw.
    + apply andb_true_iff in Hw as [_ Hp%negb_true_iff]. rewrite Hr1 in Hp.
      unfold blob_cache_scan. destruct (sv_cache sv1) as [prev|] eqn:Ep; cbn.
      * intros E. apply read_inputs_spec in E as (-> & Hc & Hr & Hv).
        split; [by rewrite Hv, view_with_cache|]. split; [by rewrite Hr|]. split.
        { right. split; [done|]. split; [|by exists inputs]. rewrite Hc. cbn. unfold refreshed, blob_cache_index.
          by rewrite <- Hc1. }
        split; [|done]. intros i <-. symmetry. apply cache_inputs_view; [by rewrite Hv|by rewrite Hc].
      * intros [= <- <-]. split; [done|]. split; [done|]. split; [left; by rewrite Ep, Hc1|]. done.
    + intros [= <- <-]. split; [done|]. split; [done|]. split; [by left|]. split; [|done].
      intros i [= <-]. rewrite <- Ei. by apply cache_inputs_view.
  - intros [= <- <-]. split; [done|]. split; [done|]. split; [by left|]. split; [done|]. by intros e' [= <-].
Qed.

Definition batch_plan (inputs : PlanInput) : list Cid :=
  cp_duplicates (cache_plan inputs) ++ cp_evict (cache_plan inputs).

(** What a batch does, from the server [sv1] it plans on. *)
Inductive batch_run (now : N) (r : result CachePause PlanInput) (sv1 sv' : CacheServer) (pump' : CachePump) : Prop :=
| batch_paused e :
    r = Err e -> sv_cache sv' = sv_cache sv1 -> pu_deleted pump' = 0 -> rt_in_pass (sv_runtime sv') = false ->
    batch_run now r sv1 sv' pump'
| batch_deleted inputs gone :
    r = Ok inputs ->
    sublist gone (firstn (N.to_nat MAX_DELETES_PER_TURN) (batch_plan inputs)) ->
    sv_cache sv' = cache_removed gone (sv_cache sv1) -> pu_deleted pump' <= len gone ->
    (rt_in_pass (sv_runtime sv') = true -> 0 < pu_deleted pump') ->
    (rt_in_pass (sv_runtime sv') = false -> 0 < pu_deleted pump' ->
     firstn (N.to_nat MAX_DELETES_PER_TURN) (batch_plan inputs) = batch_plan inputs) ->
    batch_run now r sv1 sv' pump'.

Lemma offer_status_runtime now status r pump :
  let '(r', pump') := offer_status now status r pump in
  rt_limit r' = rt_limit r /\ rt_in_use r' = rt_in_use r /\ rt_in_pass r' = rt_in_pass r /\
  rt_last_pass r' = rt_last_pass r /\ rt_last_evaluation r' = rt_last_evaluation r /\
  pu_deleted pump' = pu_deleted pump /\ pu_freed pump' = pu_freed pump.
Proof. unfold offer_status. destruct (bool_decide _); [done|]. by destruct (elapsed _ _ _). Qed.

Lemma set_pass_view sv a b c : view (set_pass sv a b c) = view sv.
Proof. by apply view_with_runtime. Qed.

Lemma run_batch_spec disk sv now sv' pump' r sv1 :
  run_batch disk sv now empty_pump = (sv', pump') -> batch_inputs disk sv now = (r, sv1) ->
  view sv' = view sv1 /\ batch_run now r sv1 sv' pump'.
Proof.
  unfold run_batch. intros E Eb. rewrite Eb in E.
  destruct r as [inputs|e].
  - destruct (delete_batch disk (ci_sizes (pi_index inputs)) (firstn (N.to_nat MAX_DELETES_PER_TURN)
      (cp_duplicates (cache_plan inputs) ++ cp_evict (cache_plan inputs))) sv1 empty_pump) as [sv2 pump2] eqn:Ed.
    fold (batch_plan inputs) in Ed. apply delete_batch_spec in Ed as [gone [Hv Hr Hc Hg Hd _]]. cbn in Hd.
    fold (batch_plan inputs) in E.
    set (rem := len (firstn (N.to_nat MAX_DELETES_PER_TURN) (batch_plan inputs)) <?
      len (cp_duplicates (cache_plan inputs)) + len (cp_evict (cache_plan inputs))) in E.
    set (sv3 := set_pass sv2 (rem && (0 <? pu_deleted pump2))
      (if rem && (0 <? pu_deleted pump2) then rt_last_pass (sv_runtime sv2) else Some now)
      (rt_last_studio_request (sv_runtime sv2))) in E.
    assert (exists pr sv4, sv_cache sv4 = sv_cache sv2 /\ rt_in_pass (sv_runtime sv4) = rem && (0 <? pu_deleted pump2) /\
      view sv4 = view sv2 /\
      (let '(r0, pump0) := offer_status now (status_from sv4 pr) (sv_runtime sv4) pump2 in (with_runtime sv4 r0, pump0)) = (sv', pump'))
      as (pr & sv4 & Hc4 & Hp4 & Hv4 & E4).
    { destruct (0 <? pu_deleted pump2) eqn:H0.
      - destruct (read_inputs sv3 now) as [r3 sv4] eqn:E3. apply read_inputs_spec in E3 as (_ & Hc3 & Hr3 & Hv3).
        exists (res_map cache_plan r3), sv4. split; [by rewrite Hc3|]. split; [by rewrite Hr3|]. split; [rewrite Hv3; apply set_pass_view|done].
      - exists (Ok (cache_plan inputs)), sv3. split; [done|]. split; [done|]. split; [apply set_pass_view|done]. }
    pose proof (offer_status_runtime now (status_from sv4 pr) (sv_runtime sv4) pump2) as Ho.
    destruct (offer_status _ _ _ _) as [r0 pump0]. destruct Ho as (Hl & Hu & Hip & _ & _ & Hdel & _). injection E4 as <- <-.
    split; [rewrite view_with_runtime by done; by rewrite Hv4|].
    apply (batch_deleted _ _ _ _ _ inputs gone); [done|done|cbn; by rewrite Hc4|lia| |].
    + cbn. rewrite Hip, Hp4, Hdel, andb_true_iff, N.ltb_lt. tauto.
    + cbn. rewrite Hip, Hp4, Hdel. intros Hf H0. apply N.ltb_lt in H0 as H0'. rewrite H0', andb_true_r in Hf.
      subst rem. apply N.ltb_ge in Hf. unfold batch_plan in Hf |- *. rewrite <- len_app in Hf.
      unfold len in Hf. rewrite length_firstn in Hf. apply firstn_all2. lia.
  - assert (exists sv4 pump4, sv_cache sv4 = sv_cache sv1 /\ rt_in_pass (sv_runtime sv4) = false /\ view sv4 = view sv1 /\
      pu_deleted pump4 = 0 /\
      (let '(r0, pump0) := offer_status now (status_from sv4 (Err e)) (sv_runtime sv4) pump4 in (with_runtime sv4 r0, pump0)) = (sv', pump'))
      as (sv4 & pump4 & Hc4 & Hp4 & Hv4 & Hd4 & E4).
    { destruct e; try (exists (set_pass sv1 false (Some now) (rt_last_studio_request (sv_runtime sv1))), empty_pump;
        (split; [done|split; [done|split; [apply set_pass_view|split; [done|exact E]]]])).
      eexists _, _. split; [|split; [|split; [|split; [|exact E]]]]; [done|done|apply set_pass_view|by destruct (elapsed _ _ _)]. }
    pose proof (offer_status_runtime now (status_from sv4 (Err e)) (sv_runtime sv4) pump4) as Ho.
    destruct (offer_status _ _ _ _) as [r0 pump0]. destruct Ho as (Hl & Hu & Hip & _ & _ & Hdel & _). injection E4 as <- <-.
    split; [rewrite view_with_runtime by done; by rewrite Hv4|].
    apply (batch_paused _ _ _ _ _ e); [done|done|by rewrite Hdel|cbn; by rewrite Hip].
Qed.

(** * Pins *)

(** What must not leave the cache: the chunks of unfinished Keep transfers and
    of downloads, of files read in the last ten minutes, of this device's own
    attested uploads, and of what Studio refers to. *)
Inductive pinned (sv : CacheServer) (now : N) (c : Cid) : Prop :=
| pinned_keep t plans :
    t ∈ sv_kept sv -> tr_phase t = Resumable -> tr_plans t = Some plans -> c ∈ concat plans -> pinned sv now c
| pinned_download l t plans :
    sv_downloads sv = Some l -> t ∈ l -> tr_phase t <> Deleting -> tr_plans t = Some plans -> c ∈ concat plans ->
    pinned sv now c
| pinned_in_use e : e ∈ rt_in_use (sv_runtime sv) -> now < iu_until e -> c ∈ iu_chunks e -> pinned sv now c
| pinned_upload rows n row m :
    sv_files sv = Some (Some rows, n) -> row ∈ rows -> fr_verified row = true -> fr_identity row = sv_me sv ->
    fr_manifest row = Some m -> c ∈ m.2 -> pinned sv now c
| pinned_studio p : (protected_cids (sv_group sv) (sv_protection sv)).1 = Some p -> c ∈ p -> pinned sv now c.

Lemma pin_transfers_ok skip l : forall pins p,
  pin_transfers skip l pins = Ok p ->
  forall c, c ∈ p <-> c ∈ pins \/
    exists t plans, t ∈ l /\ skip (tr_phase t) = false /\ tr_plans t = Some plans /\ c ∈ concat plans.
Proof.
  induction l as [|t l IH]; intros pins p; cbn.
  { intros [= <-] c. split; [by left|]. intros [?|(t & plans & ?%elem_of_nil & _)]; done. }
  destruct (skip (tr_phase t)) eqn:Es.
  - intros E c. rewrite (IH _ _ E c). setoid_rewrite elem_of_cons. split; [naive_solver|].
    intros [?|(t' & plans & [->|?] & ? & ?)]; [by left|congruence|naive_solver].
  - destruct (tr_plans t) as [plans|] eqn:Et; cbn; [|done]. intros E c. rewrite (IH _ _ E c), elem_of_union, elem_of_list_to_set.
    setoid_rewrite elem_of_cons. split; [naive_solver|].
    intros [?|(t' & plans' & [->|?] & ? & ?)]; [naive_solver| |naive_solver]. left. right. naive_solver.
Qed.

Lemma pin_transfers_err skip l : forall pins,
  (exists e, pin_transfers skip l pins = Err e) <-> exists t, t ∈ l /\ skip (tr_phase t) = false /\ tr_plans t = None.
Proof.
  induction l as [|t l IH]; intros pins; cbn.
  { split; [by intros [e [=]]|]. by intros (t & ?%elem_of_nil & _). }
  setoid_rewrite elem_of_cons. destruct (skip (tr_phase t)) eqn:Es.
  - rewrite IH. split; [naive_solver|]. intros (t' & [->|?] & ? & ?); [congruence|naive_solver].
  - destruct (tr_plans t) as [plans|] eqn:Et; cbn.
    + rewrite IH. split; [naive_solver|]. intros (t' & [->|?] & ? & ?); [congruence|naive_solver].
    + split; [|by eexists]. intros _. exists t. auto.
Qed.

Lemma in_use_chunks_elem now l c :
  c ∈ in_use_chunks now l <-> exists e, e ∈ l /\ now < iu_until e /\ c ∈ iu_chunks e.
Proof.
  unfold in_use_chunks.
  assert (forall k (acc : gset Cid), c ∈ foldl (fun acc e => acc ∪ iu_chunks e) acc k <-> c ∈ acc \/ exists e, e ∈ k /\ c ∈ iu_chunks e) as H.
  { induction k as [|e k IH]; intros acc; cbn; [set_solver|]. rewrite IH. set_solver. }
  rewrite H. setoid_rewrite elem_List_filter. setoid_rewrite N.ltb_lt. set_solver.
Qed.

Lemma own_upload_chunks_elem me rows c :
  c ∈ own_upload_chunks me rows <->
  exists row m, row ∈ rows /\ fr_verified row = true /\ fr_identity row = me /\ fr_manifest row = Some m /\ c ∈ m.2.
Proof.
  unfold own_upload_chunks. rewrite elem_of_list_to_set, elem_concat. setoid_rewrite list_elem_of_omap.
  setoid_rewrite elem_List_filter. setoid_rewrite andb_true_iff. setoid_rewrite bool_decide_eq_true. split.
  - intros (l & (row & (Hr & Hv & Hi) & Hm) & Hc). destruct (fr_manifest row) as [m|] eqn:Em; [|done].
    injection Hm as <-. exists row, m. done.
  - intros (row & m & Hr & Hv & Hi & Hm & Hc). exists m.2. split; [|done]. exists row. split; [done|]. by rewrite Hm.
Qed.

Lemma cache_pins_ok sv rows n now pins :
  sv_files sv = Some (Some rows, n) -> (cache_pins sv rows now).1 = Ok pins ->
  forall c, c ∈ pins <-> pinned sv now c.
Proof.
  unfold cache_pins. intros Ef. destruct (_ ← _; _) as [p0|e] eqn:E; [|done].
  destruct (protected_cids (sv_group sv) (sv_protection sv)) as [studio p] eqn:Ep.
  destruct studio as [studio|]; [|done]. cbn. intros [= <-] c.
  apply refuse_if_bind_ok in E as [_ E]. apply bind_ok in E as (p1 & E1 & E). apply bind_ok in E as (l & El & E).
  apply bind_ok in E as (p2 & E2 & E). injection E as <-. cbn in E1, E2.
  assert (sv_downloads sv = Some l) as Hl by (destruct (sv_downloads sv); [by injection El as ->|done]).
  rewrite !elem_of_union, in_use_chunks_elem, own_upload_chunks_elem.
  rewrite (pin_transfers_ok _ _ _ _ E2), (pin_transfers_ok _ _ _ _ E1). split.
  - intros [[[[[?%elem_of_empty|(t & plans & Ht & Hs & Hp & Hc)]|(t & plans & Ht & Hs & Hp & Hc)]|(e & He & Hn & Hc)]
      |(row & m & Hr & Hv & Hi & Hm & Hc)]|Hc]; [done|..].
    + eapply pinned_keep; [done| |done|done]. by destruct (tr_phase t).
    + eapply pinned_download; [done|done| |done|done]. unfold skip_download in Hs. by apply bool_decide_eq_false in Hs.
    + by eapply pinned_in_use.
    + by eapply pinned_upload.
    + eapply (pinned_studio _ _ _ studio); [by rewrite Ep|done].
  - intros [t plans Ht Hs Hp Hc|l' t plans Hl' Ht Hs Hp Hc|e He Hn Hc|rows' n' row m Hf Hr Hv Hi Hm Hc|s Hs Hc].
    + left. left. left. left. right. exists t, plans. by rewrite Hs.
    + left. left. left. right. rewrite Hl in Hl'. injection Hl' as <-. exists t, plans.
      split; [done|]. split; [|done]. by apply bool_decide_eq_false.
    + left. left. right. by exists e.
    + left. right. rewrite Ef in Hf. injection Hf as <- <-. by exists row, m.
    + right. rewrite Ep in Hs. by injection Hs as <-.
Qed.

(** The inputs without which nothing is planned: a complete index, a limit, the
    projection of the file index, the Keep and download inventories with the
    saved plans of what is unfinished, Studio protection. A missing profile
    document, or more rows than the projection shows, is not among them: it
    rules out the unclaimed class only ([names_unknown]). Nor is a row whose
    manifest does not decode: it names no chunk. *)
Inductive input_missing (sv : CacheServer) : Prop :=
| missing_cache : blob_cache_index sv = None -> input_missing sv
| missing_scan i : blob_cache_index sv = Some i -> ci_complete i = false -> input_missing sv
| missing_limit : limit_bytes (rt_limit (sv_runtime sv)) = None -> input_missing sv
| missing_index : sv_files sv = None -> input_missing sv
| missing_rows n : sv_files sv = Some (None, n) -> input_missing sv
| missing_keeps : sv_kept_error sv = true -> input_missing sv
| missing_keep t : t ∈ sv_kept sv -> tr_phase t = Resumable -> tr_plans t = None -> input_missing sv
| missing_downloads : sv_downloads sv = None -> input_missing sv
| missing_download l t :
    sv_downloads sv = Some l -> t ∈ l -> tr_phase t <> Deleting -> tr_plans t = None -> input_missing sv
| missing_studio : (protected_cids (sv_group sv) (sv_protection sv)).1 = None -> input_missing sv.

(** A file's profile images, where the profile document can be read. *)
Definition profile_image (sv : CacheServer) (c : Cid) : Prop :=
  exists records, sv_profiles sv = Some records /\ c ∈ profile_images records.

Record inputs_read (sv : CacheServer) (now : N) (inputs : PlanInput) : Prop := mkInputsRead {
  ir_index : blob_cache_index sv = Some (pi_index inputs);
  ir_complete : ci_complete (pi_index inputs) = true;
  ir_limit : limit_bytes (rt_limit (sv_runtime sv)) = Some (pi_limit inputs);
  ir_pins : forall c, c ∈ pi_pins inputs <-> pinned sv now c;
  ir_retained : pi_retained inputs = sv_retained sv;
  ir_profile : forall c, c ∈ pi_profile_refs inputs <-> profile_image sv c;
  ir_rows : exists rows n, sv_files sv = Some (Some rows, n) /\ pi_rows inputs = plan_rows rows /\
    (pi_unclaimed_allowed inputs = true -> n <= MAX_FILE_ENTRIES /\ sv_profiles sv <> None)
}.

(** Who names a record cannot be known: the profile document is missing, or rows
    stand past the cap of the projection. *)
Definition names_unknown (sv : CacheServer) : Prop :=
  sv_profiles sv = None \/ exists rows n, sv_files sv = Some (rows, n) /\ MAX_FILE_ENTRIES < n.

(** A row of the file index whose manifest decodes names the chunk. *)
Definition row_names (sv : CacheServer) (c : Cid) : Prop :=
  exists rows n row m, sv_files sv = Some (Some rows, n) /\ row ∈ rows /\ fr_manifest row = Some m /\ c ∈ m.2.

Lemma ok_or_inv {E A} (o : option A) (e : E) a : ok_or o e = Ok a -> o = Some a.
Proof. destruct o; [by intros [= ->]|done]. Qed.

Lemma base_inputs_ok sv index limit rows unclaimed refs :
  base_inputs sv = Ok (index, limit, rows, unclaimed, refs) ->
  blob_cache_index sv = Some index /\ ci_complete index = true /\
  limit_bytes (rt_limit (sv_runtime sv)) = Some limit /\
  (exists n, sv_files sv = Some (Some rows, n) /\ (unclaimed = true -> n <= MAX_FILE_ENTRIES /\ sv_profiles sv <> None)) /\
  (forall c, c ∈ refs <-> profile_image sv c).
Proof.
  unfold base_inputs. intros E. apply bind_ok in E as (i & Ei & E). apply refuse_if_bind_ok in E as [Hc E].
  apply bind_ok in E as (l & El & E). apply bind_ok in E as ([ro n] & Ef & E). apply bind_ok in E as (rows' & Er & E).
  apply ok_or_inv in Ei, Ef, Er. cbn [fst snd] in Er, E. subst ro.
  assert (limit_bytes (rt_limit (sv_runtime sv)) = Some l) as Hl.
  { destruct (rt_limit (sv_runtime sv)); try done; by apply ok_or_inv in El. }
  apply negb_false_iff in Hc. unfold profile_image.
  destruct (sv_profiles sv) as [records|] eqn:Ep; injection E as <- <- <- <- <-.
  - repeat split; [done|done|done| |naive_solver|naive_solver]. exists n. split; [done|]. by intros ?%N.leb_le.
  - repeat split; [done|done|done| |set_solver|by intros (? & [=] & _)]. exists n. done.
Qed.

Lemma cache_inputs_read sv now inputs : (cache_inputs sv now).1 = Ok inputs -> inputs_read sv now inputs.
Proof.
  unfold cache_inputs. destruct (base_inputs sv) as [[[[[index limit] rows] unclaimed] refs]|e] eqn:Eb; [|done].
  apply base_inputs_ok in Eb as (Hi & Hc & Hl & (n & Hf & Hn) & Hr).
  pose proof (cache_pins_ok sv rows n now) as Hp. destruct (cache_pins sv rows now) as [[pins|] p]; [|done].
  intros [= <-]. constructor; cbn; [done|done|done|by apply Hp|done|done|]. by exists rows, n.
Qed.

Lemma base_inputs_complete sv i l rows n :
  blob_cache_index sv = Some i -> ci_complete i = true -> limit_bytes (rt_limit (sv_runtime sv)) = Some l ->
  sv_files sv = Some (Some rows, n) -> exists unclaimed refs, base_inputs sv = Ok (i, l, rows, unclaimed, refs).
Proof.
  intros Hi Hc Hl Hf. unfold base_inputs. rewrite Hi, Hf. cbn. rewrite Hc. cbn.
  destruct (rt_limit (sv_runtime sv)); cbn in Hl |- *; try done; injection Hl as <-; destruct (sv_profiles sv); cbn; eauto.
Qed.

Lemma cache_inputs_missing sv now : (exists e, (cache_inputs sv now).1 = Err e) <-> input_missing sv.
Proof.
  split.
  - intros [e E]. destruct (blob_cache_index sv) as [i|] eqn:Ei; [|by apply missing_cache].
    destruct (ci_complete i) eqn:Ec; [|by eapply missing_scan].
    destruct (limit_bytes (rt_limit (sv_runtime sv))) as [l|] eqn:El; [|by apply missing_limit].
    destruct (sv_files sv) as [[[rows|] n]|] eqn:Ef; [|by eapply missing_rows|by apply missing_index].
    destruct (base_inputs_complete sv i l rows n Ei Ec El Ef) as (u & refs & Eb). unfold cache_inputs in E. rewrite Eb in E.
    assert (exists e', (cache_pins sv rows now).1 = Err e') as [e' Ep].
    { destruct (cache_pins sv rows now) as [[pins|e'] p]; (done || by exists e'). }
    clear E. unfold cache_pins in Ep. destruct (sv_kept_error sv) eqn:Ek; [by apply missing_keeps|]. cbn in Ep.
    destruct (pin_transfers skip_kept (sv_kept sv) ∅) as [p1|e1] eqn:E1; cbn in Ep.
    2:{ destruct (proj1 (pin_transfers_err skip_kept (sv_kept sv) ∅)) as (t & Ht & Hs & Hn); [by exists e1|].
        eapply missing_keep; [done| |done]. by destruct (tr_phase t). }
    destruct (sv_downloads sv) as [l'|] eqn:Ed; [|by apply missing_downloads]. cbn in Ep.
    destruct (pin_transfers skip_download l' p1) as [p2|e2] eqn:E2; cbn in Ep.
    2:{ destruct (proj1 (pin_transfers_err skip_download l' p1)) as (t & Ht & Hs & Hn); [by exists e2|].
        eapply missing_download; [done|done| |done]. by apply bool_decide_eq_false in Hs. }
    apply missing_studio. destruct (protected_cids _ _) as [[studio|] p]; done.
  - intros H. destruct (cache_inputs sv now) as [r p] eqn:E. destruct r as [inputs|e]; [|by exists e]. exfalso.
    assert ((cache_inputs sv now).1 = Ok inputs) as Ei by (by rewrite E). clear E.
    pose proof (cache_inputs_read sv now inputs Ei) as [Hi Hc Hl _ _ _ _].
    unfold cache_inputs in Ei. destruct (base_inputs sv) as [[[[[index limit] rows] unclaimed] refs]|e] eqn:Eb; [|done].
    apply base_inputs_ok in Eb as (_ & _ & _ & (n & Hf & _) & _).
    destruct (cache_pins sv rows now) as [[pins|] p'] eqn:Ep; [|done].
    unfold cache_pins in Ep. destruct (_ ← _; _) as [p0|e] eqn:E0; [|done].
    apply refuse_if_bind_ok in E0 as [Hk E0]. apply bind_ok in E0 as (p1 & E1 & E0). apply bind_ok in E0 as (l & El & E0).
    apply bind_ok in E0 as (p2 & E2 & _). apply ok_or_inv in El.
    destruct H as [|i Hi' Hc'| | |n'| |t Ht Hs Hn| |l' t Hl' Ht Hs Hn|Hs]; try congruence.
    + destruct (proj2 (pin_transfers_err skip_kept (sv_kept sv) ∅)) as [e' He']; [exists t; by rewrite Hs|]. congruence.
    + assert (l' = l) as -> by congruence.
      destruct (proj2 (pin_transfers_err skip_download l p1)) as [e' He']; [|congruence].
      exists t. split; [done|]. split; [|done]. by apply bool_decide_eq_false.
    + destruct (protected_cids _ _) as [[studio|] p3]; cbn in Hs; [done|]. by injection Ep.
Qed.

(** * The turn *)

(** A turn either plans nothing, or runs one batch from where it starts. *)
Inductive turn_run (disk : Disk) (now : N) (sv sv' : CacheServer) (pump : CachePump) : Prop :=
| turn_idle :
    sv_cache sv' = sv_cache sv -> view sv' = view sv -> pu_deleted pump = 0 ->
    rt_in_pass (sv_runtime sv) = false -> rt_in_pass (sv_runtime sv') = false -> turn_run disk now sv sv' pump
| turn_batch sv0 r sv1 pump0 :
    sv_cache sv0 = sv_cache sv -> view sv0 = view sv -> rt_in_pass (sv_runtime sv0) = rt_in_pass (sv_runtime sv) ->
    batch_inputs disk sv0 now = (r, sv1) -> view sv' = view sv1 -> batch_run now r sv1 sv' pump0 ->
    pu_deleted pump = pu_deleted pump0 -> turn_run disk now sv sv' pump.

Lemma cache_pump_run disk sv now pump sv' : cache_pump disk sv now = (pump, sv') -> turn_run disk now sv sv' pump.
Proof.
  unfold cache_pump. destruct (_ || _ || _ || _) eqn:Hdue.
  - set (sv0 := with_runtime sv _). destruct (run_batch disk sv0 now empty_pump) as [sv2 pump2] eqn:E.
    destruct (batch_inputs disk sv0 now) as [r sv1] eqn:Eb.
    destruct (run_batch_spec _ _ _ _ _ _ _ E Eb) as [Hv Hb]. intros [= <- <-].
    eapply (turn_batch _ _ _ _ _ sv0 r sv1 pump2); done.
  - apply orb_false_iff in Hdue as [[[Hp _]%orb_false_iff _]%orb_false_iff _].
    destruct (rt_status_held (sv_runtime sv)).
    + unfold cache_status. destruct (read_inputs sv now) as [r sv1] eqn:E. apply read_inputs_spec in E as (_ & Hc & Hr & Hv).
      pose proof (offer_status_runtime now (status_from sv1 (res_map cache_plan r)) (sv_runtime sv1) empty_pump) as Ho.
      destruct (offer_status _ _ _ _) as [r0 pump0]. destruct Ho as (Hl & Hu & Hip & _ & _ & Hd & _). intros [= <- <-].
      apply turn_idle; [done|by rewrite view_with_runtime|done|done|]. cbn. rewrite Hip, Hr. exact Hp.
    + intros [= <- <-]. by apply turn_idle.
Qed.

Lemma sublist_firstn_le {A} (l k : list A) n : sublist l (firstn n k) -> len l <= N.of_nat n.
Proof. intros H%sublist_length. unfold len. rewrite length_firstn in H. lia. Qed.

Lemma pinned_view sv sv' now c : view sv = view sv' -> pinned sv now c -> pinned sv' now c.
Proof.
  intros E H. destruct sv as [c0 ke k d f pr rt g me p r], sv' as [c0' ke' k' d' f' pr' rt' g' me' p' r'].
  unfold view in E. cbn in E. injection E as -> -> -> -> -> -> -> -> Ep Epp Et En El Eo Elim Einu.
  assert ((protected_cids g' p).1 = (protected_cids g' p').1) as Hpc.
  { rewrite <- (protected_cids_reap g' p), <- (protected_cids_reap g' p'). unfold reap, set_transient. by rewrite Ep, Epp, Et, En, El, Eo. }
  destruct H; cbn in *; [by eapply pinned_keep|by eapply pinned_download| |by eapply pinned_upload|].
  - eapply pinned_in_use; cbn; [by rewrite <- Einu|done|done].
  - eapply pinned_studio; cbn; [by rewrite <- Hpc|done].
Qed.

Lemma view_fields sv sv' : view sv = view sv' ->
  sv_retained sv = sv_retained sv' /\ sv_profiles sv = sv_profiles sv' /\ sv_files sv = sv_files sv'.
Proof. destruct sv, sv'. unfold view. cbn. intros [=]. done. Qed.

(** What a turn removes from the index it works from was in the plan it made of it. *)
Lemma turn_removes disk sv now pump sv' :
  cache_pump disk sv now = (pump, sv') ->
  (forall i, blob_cache_index sv = Some i -> cache_index_ok i) ->
  held_bytes (ci_sizes (refreshed disk sv)) <= u64_max ->
  pu_deleted pump <= MAX_DELETES_PER_TURN /\
  exists base, (base = blob_cache_index sv \/ base = Some (refreshed disk sv)) /\
  match base with
  | None => blob_cache_index sv' = None
  | Some i => exists i', blob_cache_index sv' = Some i' /\ cache_index_ok i' /\
      forall c, om_has c (ci_sizes i) = true -> om_has c (ci_sizes i') = false ->
        exists sv1 inputs, view sv1 = view sv /\ inputs_read sv1 now inputs /\ pi_index inputs = i /\ cache_index_ok i /\ c ∈ batch_plan inputs
  end.
Proof.
  intros Hturn Hok Hb.
  assert (cache_index_ok (refreshed disk sv)) as Hrok.
  { apply scan_ok; [done|]. intros p Hp. by apply Hok. }
  assert (forall i, Some i = blob_cache_index sv \/ Some i = Some (refreshed disk sv) -> cache_index_ok i) as Hall.
  { intros i [Hi|[= ->]]; [by apply Hok|done]. }
  apply cache_pump_run in Hturn as [Hc Hv Hd _ _|sv0 r sv1 pump0 Hc0 Hv0 _ Hin Hv Hrun Hd].
  - split; [rewrite Hd; done|]. exists (blob_cache_index sv). split; [by left|]. unfold blob_cache_index in *. rewrite Hc.
    destruct (mjoin (sv_cache sv)) as [i|]; [|done]. exists i. split; [done|]. split; [by apply Hok|]. congruence.
  - apply batch_inputs_spec in Hin as (Hv1 & _ & Hcase & Hok1 & _).
    assert (exists base, (base = blob_cache_index sv \/ base = Some (refreshed disk sv)) /\ blob_cache_index sv1 = base)
      as (base & Hbase & Hb1).
    { destruct Hcase as [Hc1|(_ & Hc1 & _)].
      - exists (blob_cache_index sv). split; [by left|]. unfold blob_cache_index. by rewrite Hc1, Hc0.
      - exists (Some (refreshed disk sv)). split; [by right|]. unfold blob_cache_index. rewrite Hc1. cbn.
        unfold refreshed, blob_cache_index. by rewrite Hc0. }
    assert (forall gone, sv_cache sv' = cache_removed gone (sv_cache sv1) ->
      blob_cache_index sv' = (fun i => foldl note_removed i gone) <$> base) as Hidx.
    { intros gone Hg. rewrite <- Hb1. unfold blob_cache_index. rewrite Hg. by destruct (sv_cache sv1) as [[]|]. }
    destruct Hrun as [e -> Hc' Hd' _|inputs gone -> Hsub Hc' Hd' _ _].
    + split; [rewrite Hd, Hd'; done|]. exists base. split; [done|]. rewrite (Hidx []) by by rewrite cache_removed_nil.
      destruct base as [i|]; [|done]. exists i. split; [done|]. split; [by apply Hall|]. congruence.
    + split. { apply sublist_firstn_le in Hsub. rewrite N2Nat.id in Hsub. lia. }
      exists base. split; [done|]. rewrite (Hidx gone Hc').
      pose proof (cache_inputs_read _ _ _ (Hok1 _ eq_refl)) as Hread. pose proof (ir_index _ _ _ Hread) as Hi.
      rewrite Hb1 in Hi. rewrite Hi in Hbase |- *. cbn.
      assert (cache_index_ok (pi_index inputs)) as Hiok by by apply Hall.
      exists (foldl note_removed (pi_index inputs) gone). split; [done|]. split; [by apply note_removed_all_ok|].
      intros c Hhas Hnot. exists sv1, inputs. split; [by rewrite Hv1|]. split; [done|]. split; [done|]. split; [done|].
      assert (c ∈ gone) as Hgone.
      { unfold om_has in Hnot, Hhas. rewrite note_removed_all_get in Hnot by apply Hiok.
        destruct (decide (c ∈ gone)); [done|]. by destruct (om_get c (ci_sizes (pi_index inputs))). }
      apply (sublist_subseteq _ _ Hsub) in Hgone. by apply (subseteq_take (N.to_nat MAX_DELETES_PER_TURN)) in Hgone.
Qed.

(** C30: a turn removes nothing it must keep. Whatever the disk answers, a turn
    deletes at most 64 records; it works from the index it had or, at the start
    of a pass, from the refreshed one; and a record that index held and the turn
    removed was in a complete index, is pinned by nothing (no unfinished Keep or
    download, no file in use, no attested upload of this device, no Studio
    reference), and is a profile image only where a checked Keep copy holds it. *)
Theorem turn_keeps_pinned disk sv now pump sv' :
  cache_pump disk sv now = (pump, sv') ->
  (forall i, blob_cache_index sv = Some i -> cache_index_ok i) ->
  held_bytes (ci_sizes (refreshed disk sv)) <= u64_max ->
  pu_deleted pump <= MAX_DELETES_PER_TURN /\
  exists base, (base = blob_cache_index sv \/ base = Some (refreshed disk sv)) /\
  match base with
  | None => blob_cache_index sv' = None
  | Some i => exists i', blob_cache_index sv' = Some i' /\ cache_index_ok i' /\
      forall c, om_has c (ci_sizes i) = true -> om_has c (ci_sizes i') = false ->
        ci_complete i = true /\ ~ pinned sv now c /\ (c ∈ sv_retained sv \/ ~ profile_image sv c)
  end.
Proof.
  intros Hturn Hok Hb. destruct (turn_removes _ _ _ _ _ Hturn Hok Hb) as (Hmax & base & Hbase & H). split; [done|].
  exists base. split; [done|]. destruct base as [i|]; [|done]. destruct H as (i' & Hi' & Hok' & H). exists i'. split; [done|]. split; [done|].
  intros c Hhas Hnot. destruct (H c Hhas Hnot) as (sv1 & inputs & Hv & [_ Hcomp _ Hpins Hret Hprof _] & <- & Hiok & Hpl).
  destruct (plan_gone_spec inputs c Hiok Hpl) as (_ & Hnp & Hor). destruct (view_fields sv1 sv Hv) as (Hr1 & Hp1 & _).
  split; [done|]. split; [intros Hpin; by apply Hnp, Hpins, (pinned_view sv sv1)|].
  destruct Hor as [Hor|[(_ & _ & _ & Hor) _]]; [left; by rewrite <- Hr1, <- Hret|right].
  intros (records & Hrec & Hin). apply Hor, Hprof. exists records. by rewrite Hp1.
Qed.

(** C31: an input that cannot be read never loosens eviction. With no cache index
    or an incomplete one, no limit handed over, the file index document missing
    or its projection failing, a Keep or download inventory unreadable or the
    saved plan of an unfinished one, or Studio protection unknown, planning
    fails, and only then; a turn then deletes nothing, leaves the index alone
    and ends any pass. With the profile document missing, or more rows than the
    projection shows, planning goes on, but a turn then removes only records
    that a checked Keep copy also holds or that a readable row names. *)
Theorem unreadable_input_stops_eviction disk sv now pump sv' :
  cache_pump disk sv now = (pump, sv') ->
  (input_missing sv <-> exists e, (cache_inputs sv now).1 = Err e) /\
  (input_missing sv ->
   pu_deleted pump = 0 /\ sv_cache sv' = sv_cache sv /\ rt_in_pass (sv_runtime sv') = false) /\
  (names_unknown sv -> (forall i, blob_cache_index sv = Some i -> cache_index_ok i) ->
   held_bytes (ci_sizes (refreshed disk sv)) <= u64_max ->
   exists base, (base = blob_cache_index sv \/ base = Some (refreshed disk sv)) /\
   forall i i' c, base = Some i -> blob_cache_index sv' = Some i' ->
     om_has c (ci_sizes i) = true -> om_has c (ci_sizes i') = false -> c ∈ sv_retained sv \/ row_names sv c).
Proof.
  intros Hturn. split; [symmetry; apply cache_inputs_missing|]. split.
  - intros (e & He)%(cache_inputs_missing sv now).
    apply cache_pump_run in Hturn as [Hc Hv Hd _ Hp|sv0 r sv1 pump0 Hc0 Hv0 _ Hin Hv Hrun Hd]; [done|].
    apply batch_inputs_spec in Hin as (_ & _ & _ & _ & Herr).
    destruct (Herr e) as [-> Hc1]; [by rewrite (cache_inputs_view sv0 sv)|].
    destruct Hrun as [e' _ Hc' Hd' Hp'|inputs gone [=] _ _ _ _ _]. by rewrite Hd, Hd', Hc', Hc1, Hc0.
  - intros Hun Hok Hb. destruct (turn_removes _ _ _ _ _ Hturn Hok Hb) as (_ & base & Hbase & H). exists base. split; [done|].
    intros i i' c -> Hi' Hhas Hnot. destruct H as (i0 & Hi0 & _ & H). assert (i0 = i') as -> by congruence.
    destruct (H c Hhas Hnot) as (sv1 & inputs & Hv & [_ _ _ _ Hret _ (rows & n & Hf & Hrows & Hall)] & <- & Hiok & Hpl).
    destruct (plan_gone_spec inputs c Hiok Hpl) as (_ & _ & Hor). destruct (view_fields sv1 sv Hv) as (Hr1 & Hp1 & Hf1).
    destruct Hor as [Hor|[_ [[Hu _]|Hl]]]; [left; by rewrite <- Hr1, <- Hret| |].
    + destruct (Hall Hu) as [Hn Hp]. rewrite Hp1, Hf1 in *. destruct Hun as [Hun|(rows' & n' & E & Hlt)]; [done|].
      rewrite Hf in E. injection E as _ <-. lia.
    + right. destruct Hl as (r & Hr & Hc). rewrite Hrows in Hr. unfold plan_rows in Hr. apply list_elem_of_omap in Hr as (row & Hrow & Er).
      destruct (fr_manifest row) as [m|] eqn:Em; [|done]. injection Er as <-. exists rows, n, row, m. by rewrite <- Hf1.
Qed.

(** * A pass ends *)

Lemma note_removed_all_len gone : forall i, len (ci_sizes (foldl note_removed i gone)) <= len (ci_sizes i).
Proof.
  induction gone as [|c gone IH]; intros i; cbn [foldl]; [lia|]. specialize (IH (note_removed i c)). cbn in IH.
  pose proof (om_remove_len_le c (ci_sizes i)). lia.
Qed.

Definition records (sv : CacheServer) : N := match blob_cache_index sv with Some i => len (ci_sizes i) | None => 0 end.

Definition index_sound (sv : CacheServer) : Prop := forall i, blob_cache_index sv = Some i -> cache_index_ok i.

(** A turn of a pass works on the index it finds: it removes records from it and
    does not list the directory again; and if it keeps the pass going it has
    deleted a record. *)
Lemma turn_in_pass disk sv now pump sv' :
  cache_pump disk sv now = (pump, sv') -> rt_in_pass (sv_runtime sv) = true -> index_sound sv ->
  (exists gone, sv_cache sv' = cache_removed gone (sv_cache sv) /\ pu_deleted pump <= len gone) /\ index_sound sv' /\
  (rt_in_pass (sv_runtime sv') = true -> 0 < pu_deleted pump /\ records sv' < records sv).
Proof.
  intros Hturn Hp Hok.
  apply cache_pump_run in Hturn as [_ _ _ Hf _|sv0 r sv1 pump0 Hc0 Hv0 Hpass0 Hin Hv Hrun Hd]; [congruence|].
  apply batch_inputs_spec in Hin as (_ & _ & Hcase & Hok1 & _). destruct Hcase as [Hc1|(Hf & _)]; [|congruence].
  assert (forall gone, sv_cache sv' = cache_removed gone (sv_cache sv) ->
    blob_cache_index sv' = (fun i => foldl note_removed i gone) <$> blob_cache_index sv) as Hidx.
  { intros gone E. unfold blob_cache_index. rewrite E. by destruct (sv_cache sv) as [[]|]. }
  assert (forall gone, sv_cache sv' = cache_removed gone (sv_cache sv) -> index_sound sv') as Hok'.
  { intros gone E i. rewrite (Hidx gone E). destruct (blob_cache_index sv) as [i0|] eqn:Ei; [|done]. cbn. intros [= <-].
    by apply note_removed_all_ok, Hok. }
  rewrite Hc0 in Hc1. destruct Hrun as [e _ Hc' Hd' Hf|inputs gone -> Hsub Hc' Hd' Hdel _].
  - assert (sv_cache sv' = cache_removed [] (sv_cache sv)) as E by (by rewrite cache_removed_nil, Hc', Hc1).
    split; [exists []; split; [done|rewrite Hd, Hd'; done]|]. split; [by apply (Hok' [])|]. congruence.
  - rewrite Hc1 in Hc'. split; [exists gone; split; [done|by rewrite Hd]|]. split; [by apply (Hok' gone)|]. intros Hp'. specialize (Hdel Hp').
    split; [by rewrite Hd|]. destruct gone as [|c gone]; [rewrite len_nil in Hd'; lia|].
    pose proof (ir_index _ _ _ (cache_inputs_read _ _ _ (Hok1 _ eq_refl))) as Hi.
    assert (blob_cache_index sv = Some (pi_index inputs)) as Hi0 by (unfold blob_cache_index in *; by rewrite <- Hc1).
    pose proof (Hok _ Hi0) as Hiok. unfold records. rewrite (Hidx _ Hc'), Hi0. cbn [fmap option_fmap option_map foldl].
    assert (c ∈ batch_plan inputs) as Hpl.
    { apply (subseteq_take (N.to_nat MAX_DELETES_PER_TURN)), (sublist_subseteq _ _ Hsub). by left. }
    destruct (plan_gone_spec inputs c Hiok Hpl) as (Hheld & _). unfold plan_sizes in Hheld.
    pose proof (note_removed_all_len gone (note_removed (pi_index inputs) c)) as Hle. cbn in Hle.
    apply (om_has_keys c (ci_sizes (pi_index inputs)) (cio_wf _ Hiok)) in Hheld.
    pose proof (om_remove_len c (ci_sizes (pi_index inputs)) Hheld) as Hlen. lia.
Qed.

(** A turn, with the disk and the clock it meets, and what commands, sync and
    other users of the store make of the server before the next one. *)
Record PassTurn := mkPassTurn { pt_disk : Disk; pt_now : N; pt_then : CacheServer -> CacheServer }.

(** The pass is still on after each of these turns. *)
Fixpoint pass_lasts (sv : CacheServer) (turns : list PassTurn) : bool :=
  match turns with
  | [] => true
  | t :: rest =>
      let sv' := (cache_pump (pt_disk t) sv (pt_now t)).2 in rt_in_pass (sv_runtime sv') && pass_lasts (pt_then t sv') rest
  end.

(** Others may write and delete records, change rows, pins, holds or the limit,
    or scan; they keep the index consistent and do not touch the pass. *)
Fixpoint others_behave (sv : CacheServer) (turns : list PassTurn) : Prop :=
  match turns with
  | [] => True
  | t :: rest =>
      let sv' := (cache_pump (pt_disk t) sv (pt_now t)).2 in
      rt_in_pass (sv_runtime (pt_then t sv')) = rt_in_pass (sv_runtime sv') /\ index_sound (pt_then t sv') /\
      others_behave (pt_then t sv') rest
  end.

(** By how many records the others let the index grow between the turns. *)
Fixpoint records_added (sv : CacheServer) (turns : list PassTurn) : N :=
  match turns with
  | [] => 0
  | t :: rest =>
      let sv' := (cache_pump (pt_disk t) sv (pt_now t)).2 in
      (records (pt_then t sv') - records sv') + records_added (pt_then t sv') rest
  end.

(** C32: a pass ends. A turn taken during a pass works on the index it finds, from
    which it only removes records (the directory is not listed again), and if
    the pass goes on after it, it has deleted a record. So, whatever the disk
    refuses and whatever commands and sync do between the turns, as long as they
    keep the index consistent and leave the pass flag alone, a pass goes on for at
    most as many turns as the index had records plus the records added to it
    meanwhile. *)
Theorem pass_terminates :
  (forall disk sv now pump sv',
     cache_pump disk sv now = (pump, sv') -> rt_in_pass (sv_runtime sv) = true -> index_sound sv ->
     (exists gone, sv_cache sv' = cache_removed gone (sv_cache sv) /\ pu_deleted pump <= len gone) /\
     (rt_in_pass (sv_runtime sv') = true -> 0 < pu_deleted pump /\ records sv' < records sv)) /\
  (forall turns sv,
     rt_in_pass (sv_runtime sv) = true -> index_sound sv -> others_behave sv turns ->
     pass_lasts sv turns = true -> len turns <= records sv + records_added sv turns).
Proof.
  split; [intros disk sv now pump sv' E Hp Hok; by destruct (turn_in_pass _ _ _ _ _ E Hp Hok) as (? & _ & ?)|].
  induction turns as [|[disk now f] turns IH]; intros sv Hp Hok Hall Hl; [rewrite len_nil; lia|].
  cbn [pass_lasts records_added others_behave pt_disk pt_now pt_then] in *.
  destruct (cache_pump disk sv now) as [pump sv'] eqn:E. cbn [snd] in *. apply andb_true_iff in Hl as [Hp' Hl].
  destruct (turn_in_pass _ _ _ _ _ E Hp Hok) as (_ & Hok' & Hlt). destruct (Hlt Hp') as [_ Hlt']. destruct Hall as (Hpf & Hokf & Hall).
  specialize (IH (f sv') ltac:(by rewrite Hpf) Hokf Hall Hl). rewrite len_cons. lia.
Qed.

(** * The footer *)

Definition same_status (r r' : CacheRuntime) : Prop :=
  rt_last_status r' = rt_last_status r /\ rt_last_status_event r' = rt_last_status_event r /\
  rt_status_held r' = rt_status_held r.

Lemma read_inputs_runtime sv now : sv_runtime (read_inputs sv now).2 = sv_runtime sv.
Proof. unfold read_inputs. by destruct (cache_inputs sv now). Qed.

Lemma run_batch_offers disk sv now sv' pump' :
  run_batch disk sv now empty_pump = (sv', pump') ->
  exists st r0 pump0, same_status (sv_runtime sv) r0 /\ pu_status pump0 = None /\
    offer_status now st r0 pump0 = (sv_runtime sv', pump').
Proof.
  unfold run_batch. destruct (batch_inputs disk sv now) as [r sv1] eqn:Eb.
  apply batch_inputs_spec in Eb as (_ & Hr1 & _). rewrite <- Hr1. clear Hr1.
  destruct r as [inputs|e].
  - destruct (delete_batch _ _ _ _ _) as [sv2 pump2] eqn:Ed. apply delete_batch_spec in Ed as [gone [_ Hr2 _ _ _ [Hst _]]].
    cbn in Hst. rewrite <- Hr2. set (sv3 := set_pass sv2 _ _ _). destruct (0 <? pu_deleted pump2).
    + pose proof (read_inputs_runtime sv3 now) as Hr4. destruct (read_inputs sv3 now) as [r4 sv4]. cbn in Hr4.
      destruct (offer_status _ _ _ _) as [r0 pump0] eqn:Eo. intros [= <- <-]. rewrite Hr4 in Eo. eexists _, _, _.
      split; [|split; [|exact Eo]]; done.
    + destruct (offer_status _ _ _ _) as [r0 pump0] eqn:Eo. intros [= <- <-]. eexists _, _, _.
      split; [|split; [|exact Eo]]; done.
  - destruct e; (destruct (offer_status _ _ _ _) as [r0 pump0] eqn:Eo); intros [= <- <-]; eexists _, _, _;
      (split; [|split; [|exact Eo]]; [done|]); try done. by destruct (elapsed _ _ _).
Qed.

(** What the user was last shown is [rt_last_status]. *)
Lemma cache_pump_offers disk sv now pump sv' :
  cache_pump disk sv now = (pump, sv') ->
  (rt_status_held (sv_runtime sv) = false /\ pu_status pump = None /\ same_status (sv_runtime sv) (sv_runtime sv')) \/
  exists st r0 pump0 pump1, same_status (sv_runtime sv) r0 /\ pu_status pump0 = None /\
    offer_status now st r0 pump0 = (sv_runtime sv', pump1) /\ pu_status pump = pu_status pump1.
Proof.
  unfold cache_pump. destruct (_ || _ || _ || _).
  - destruct (run_batch _ _ _ _) as [sv2 pump2] eqn:E. apply run_batch_offers in E as (st & r0 & pump0 & Hs & Hn & Ho).
    intros [= <- <-]. right. exists st, r0, pump0, pump2. done.
  - destruct (rt_status_held (sv_runtime sv)) eqn:Hh.
    + unfold cache_status. pose proof (read_inputs_runtime sv now) as Hr. destruct (read_inputs sv now) as [r sv1]. cbn in Hr.
      destruct (offer_status _ _ _ _) as [r0 pump0] eqn:Eo. intros [= <- <-]. right. rewrite Hr in Eo.
      eexists _, _, _, _. split; [|split; [|split; [exact Eo|done]]]; done.
    + intros [= <- <-]. by left.
Qed.

(** The footer is never left showing an older state, and is never flooded. What
    the user was last shown is what a turn last emitted; a turn emits only a
    status that differs from it, and at least a second after the one before.
    A change inside that second is held, the turn asks to be woken when it is
    over, and no turn that computes a status leaves anything else: either the
    user has been shown exactly that status, or it is held. *)
Theorem status_reaches_footer disk sv now pump sv' :
  cache_pump disk sv now = (pump, sv') ->
  let r := sv_runtime sv in
  let r' := sv_runtime sv' in
  match pu_status pump with
  | Some st => rt_last_status r' = Some st /\ rt_last_status r <> Some st /\ rt_last_status_event r' = Some now /\
               elapsed now STATUS_INTERVAL_MS (rt_last_status_event r) = true
  | None => rt_last_status r' = rt_last_status r
  end /\
  (rt_status_held r' = true -> exists e due, rt_last_status_event r' = Some e /\
     now < sat_add u64_max e STATUS_INTERVAL_MS /\
     pu_next_due pump = Some due /\ due <= sat_add u64_max e STATUS_INTERVAL_MS) /\
  (rt_status_held r = true -> rt_status_held r' = false ->
     exists st, rt_status_cache r' = Some (now, st) /\ rt_last_status r' = Some st).
Proof.
  intros E r r'.
  assert (rt_status_held r' = true -> exists due, pu_next_due pump = Some due /\
    (now < match rt_last_status_event r' with Some last => sat_add u64_max last STATUS_INTERVAL_MS | None => now end ->
     due <= match rt_last_status_event r' with Some last => sat_add u64_max last STATUS_INTERVAL_MS | None => now end)) as Hdue.
  { revert E. unfold cache_pump. match goal with |- (let '(_, _) := ?x in _) = _ -> _ => destruct x as [sv2 pump2] end.
    intros [= <- <-] Hh. subst r'. cbn [pu_next_due]. eexists. split; [reflexivity|]. rewrite Hh.
    destruct (rt_in_pass (sv_runtime sv2)); [lia|]. unfold min_opt. lia. }
  apply cache_pump_offers in E as [(Hh & Hn & Hs1 & Hs2 & Hs3)|(st & r0 & pump0 & pump1 & (Hs1 & Hs2 & Hs3) & Hn & Ho & Hp)].
  - fold r' in Hs1, Hs2, Hs3. fold r in Hs1, Hs2, Hs3, Hh. rewrite Hn, Hs3, Hh. split; [done|]. split; done.
  - fold r in Hs1, Hs2, Hs3. fold r' in Ho. rewrite Hp. unfold offer_status in Ho. rewrite Hs1, Hs2 in Ho.
    case_bool_decide as Heq; [|destruct (elapsed now STATUS_INTERVAL_MS (rt_last_status_event r)) eqn:Hel];
      injection Ho as Hr' <-; rewrite <- Hr' in Hdue |- *; cbn in Hdue |- *.
    + rewrite Hn. split; [done|]. split; [done|]. intros _ _. exists st. done.
    + split; [done|]. split; [done|]. intros _ _. exists st. done.
    + rewrite Hn. split; [done|]. split; [|done]. intros _. destruct (Hdue eq_refl) as (due & Hd & Hle).
      unfold elapsed in Hel. destruct (rt_last_status_event r) as [e|]; [|done]. apply N.leb_gt in Hel. exists e, due. auto.
Qed.

(** * The sealed setting *)

Definition limit_field (l : option N) : bytes :=
  match l with None => be_bytes 1 0 | Some n => be_bytes 1 1 ++ be_bytes 8 n end.

Definition origin_tag (o : CacheSettingOrigin) : N := match o with Migrated => 0 | UserChosen => 1 end.

Lemma setting_encode_fields s group :
  setting_encode_for s group =
  be_bytes 1 CACHE_SETTING_V1 ++ lp group ++ limit_field (st_limit s) ++ be_bytes 1 (origin_tag (st_origin s)).
Proof.
  unfold setting_encode_for, put_u8, put_u64. rewrite put_bytes_x_lp. unfold limit_field, origin_tag.
  destruct (st_limit s); rewrite <- ?app_assoc; done.
Qed.

Lemma reads_setting s group :
  0 < len group <= 256 -> (forall n, st_limit s = Some n -> n <= u64_max) ->
  reads setting_body (setting_encode_for s group) (group, s).
Proof.
  intros Hg Hn. rewrite setting_encode_fields. unfold setting_body.
  eapply reads_bind; [apply reads_map_err, reads_u8; done|]. rewrite <- (app_nil_l (lp group ++ _)).
  eapply reads_bind; [by apply reads_lift_ok|].
  eapply reads_bind; [apply reads_map_err, reads_bytes; unfold u32_max; lia|].
  rewrite <- (app_nil_l (limit_field _ ++ _)). eapply reads_bind.
  { apply reads_lift_ok. rewrite (proj2 (N.eqb_neq _ _)), (proj2 (N.ltb_ge _ _)) by lia. done. }
  assert (forall rest b, reads (o ← opt_dec get_u8; origin ← dec_lift (setting_origin o);
    mret (group, mkCacheSetting (st_limit s) origin)) rest b ->
    reads (tag ← opt_dec get_u8; limit ← setting_limit tag; o ← opt_dec get_u8; origin ← dec_lift (setting_origin o);
      mret (group, mkCacheSetting limit origin)) (limit_field (st_limit s) ++ rest) b) as Hlimit.
  { intros rest b Hr. unfold limit_field. destruct (st_limit s) as [n|] eqn:El.
    - rewrite <- app_assoc. eapply reads_bind; [by apply reads_map_err, reads_u8|].
      eapply reads_bind; [|exact Hr]. rewrite <- (app_nil_r (be_bytes 8 n)). cbn.
      eapply reads_bind; [by apply reads_map_err, reads_u64, Hn|apply reads_ret].
    - eapply reads_bind; [by apply reads_map_err, reads_u8|]. rewrite <- (app_nil_l rest).
      eapply reads_bind; [apply reads_ret|exact Hr]. }
  apply Hlimit. rewrite <- (app_nil_r (be_bytes 1 _)).
  eapply reads_bind; [apply reads_map_err, reads_u8; by destruct (st_origin s)|]. rewrite <- (app_nil_l []).
  apply (reads_bind _ _ [] [] (st_origin s)); [apply reads_lift_ok; by destruct s as [? []]|].
  destruct s. apply reads_ret.
Qed.

Lemma consumes_opt_u8 : consumes (opt_dec get_u8) (fun v bs => bs = be_bytes 1 v /\ v < 256).
Proof. apply consumes_map_err, (consumes_be 1). Qed.

Lemma consumes_setting_limit tag :
  consumes (setting_limit tag) (fun l bs => be_bytes 1 tag ++ bs = limit_field l).
Proof.
  unfold setting_limit. destruct (N.eqb_spec tag 0) as [->|Hne].
  { eapply consumes_weaken; [apply consumes_ret|]. by intros l bs [-> ->]. }
  destruct (N.eqb_spec tag 1) as [->|Hne']; [|by intros d v d' [=]].
  eapply consumes_weaken.
  { eapply consumes_bind; [apply consumes_map_err, (consumes_be 8)|]. intros n. apply consumes_ret. }
  intros l bs (n & b1 & b2 & -> & [-> _] & -> & ->). by rewrite app_nil_r.
Qed.

Lemma consumes_setting :
  consumes setting_body (fun v bs => bs = setting_encode_for v.2 v.1 /\ 0 < len v.1 <= 256).
Proof.
  eapply consumes_weaken.
  { eapply consumes_bind; [apply consumes_opt_u8|]. intros version. eapply consumes_bind; [apply consumes_lift|]. intros ?.
    eapply consumes_bind; [apply consumes_map_err, consumes_bytes|]. intros group.
    eapply consumes_bind; [apply consumes_lift|]. intros ?.
    eapply consumes_bind; [apply consumes_opt_u8|]. intros tag. eapply consumes_bind; [apply consumes_setting_limit|]. intros limit.
    eapply consumes_bind; [apply consumes_opt_u8|]. intros o. eapply consumes_bind; [apply consumes_lift|]. intros origin.
    apply consumes_ret. }
  intros [g s] bs (version & b1 & ? & -> & [-> _] & u & ? & ? & -> & [Hv ->] & group & ? & ? & -> & [-> _] & u' & ? & ? & -> & [Hg ->]
    & tag & ? & ? & -> & [-> _] & limit & b & ? & -> & Hl & o & ? & ? & -> & [-> _] & origin & ? & ? & -> & [Ho ->] & [= -> ->] & ->).
  apply refuse_if_ok in Hv, Hg. apply negb_false_iff, N.eqb_eq in Hv. subst version.
  apply orb_false_iff in Hg as [Hg1%N.eqb_neq Hg2%N.ltb_ge]. cbn [fst snd]. split; [|lia].
  rewrite setting_encode_fields. cbn [st_limit st_origin]. rewrite <- Hl, !app_nil_l, !app_nil_r, <- !app_assoc.
  replace (origin_tag origin) with o; [done|]. unfold setting_origin in Ho.
  destruct (N.eqb_spec o 0); [by injection Ho as <-|]. destruct (N.eqb_spec o 1); [by injection Ho as <-|done].
Qed.

(** The sealed setting decodes to exactly what was encoded. A record decodes if
    and only if it is the encoding of the setting and group it decodes to, the
    group id has 1 to 256 bytes and the limit is one a user may set. *)
Theorem setting_codec_exact input group s :
  setting_decode input = Some (group, s) <->
  input = setting_encode_for s group /\ 0 < len group <= 256 /\ valid_limit (st_limit s) = true.
Proof.
  unfold setting_decode. split.
  - destruct (run_dec _ input) as [[g s']|] eqn:E; [|done]. destruct (valid_limit (st_limit s')) eqn:Hv; [|done].
    intros [= -> ->]. apply (consumes_finish_run _ _ _ _ _ consumes_setting) in E as [-> Hg]. done.
  - intros (-> & Hg & Hv). unfold opt_dec. rewrite (reads_finish_run _ _ _ (group, s)); [by rewrite Hv|].
    apply reads_setting; [done|]. intros n Hn. rewrite Hn in Hv. cbn in Hv.
    apply andb_true_iff in Hv as [_ Hv%N.leb_le]. unfold MAX_CACHE_LIMIT, MIN_CACHE_LIMIT in Hv. unfold u64_max. lia.
Qed.

(** * Files in use *)

(** Reads, oldest first: when, which file, its chunks. *)
Definition note_reads (reads : list (N * Cid * gset Cid)) (l : list InUse) : list InUse :=
  foldl (fun l r => note_in_use r.1.1 r.1.2 r.2 l) l reads.

Lemma note_in_use_bounded now file chunks l :
  len l <= MAX_IN_USE_FILES -> len (note_in_use now file chunks l) <= MAX_IN_USE_FILES.
Proof.
  intros Hl. unfold note_in_use. rewrite len_app. change (len [_]) with 1.
  set (k := List.filter _ l). assert (len k <= len l) by apply len_filter_le.
  destruct (N.leb_spec MAX_IN_USE_FILES (len k)) as [L|L]; [|lia].
  destruct k as [|x k]; [rewrite len_nil in L; unfold MAX_IN_USE_FILES in L; lia|]. cbn [tail]. rewrite len_cons in *. lia.
Qed.

Lemma note_reads_keep reads : forall l pre e post,
  l = pre ++ e :: post -> len post + len reads < MAX_IN_USE_FILES ->
  Forall (fun r => r.1.2 <> iu_file e /\ r.1.1 < iu_until e) reads ->
  e ∈ note_reads reads l.
Proof.
  induction reads as [|[[now file] chunks] reads IH]; intros l pre e post -> Hlen Hf; [apply elem_of_app; right; by left|].
  inversion Hf as [|? ? [Hne Hlt] Hf']; subst. cbn in Hne, Hlt. rewrite len_cons in Hlen.
  cbn [note_reads foldl fst snd]. unfold note_in_use at 2. rewrite List.filter_app. cbn [List.filter].
  rewrite (bool_decide_eq_false_2 (iu_file e = file)) by done. rewrite (proj2 (N.ltb_lt now (iu_until e)) Hlt). cbn [negb andb].
  set (pre' := List.filter _ pre). set (post' := List.filter _ post).
  assert (len post' <= len post) as Hp by apply len_filter_le.
  set (new := mkInUse file _ chunks).
  assert (exists pre2, (if MAX_IN_USE_FILES <=? len (pre' ++ e :: post') then tail (pre' ++ e :: post') else pre' ++ e :: post')
    = pre2 ++ e :: post') as [pre2 ->].
  { destruct (N.leb_spec MAX_IN_USE_FILES (len (pre' ++ e :: post'))) as [L|L]; [|by exists pre'].
    destruct pre' as [|x pre']; [|by exists pre']. cbn in L. rewrite len_cons in L. lia. }
  apply (IH _ pre2 e (post' ++ [new])); [by rewrite <- app_assoc|rewrite len_app; change (len [new]) with 1; lia|done].
Qed.

(** A file read is pinned while it is in use. At most 64 files are remembered;
    after a read of a file its chunks are pinned at every time within the next
    ten minutes, whatever at most 63 other files are read meanwhile. *)
Theorem file_in_use_pinned sv t file chunks reads now c :
  len (rt_in_use (sv_runtime sv)) <= MAX_IN_USE_FILES ->
  t + IN_USE_MS <= u64_max -> len reads < MAX_IN_USE_FILES ->
  Forall (fun r => r.1.2 <> file /\ r.1.1 <= now) reads -> now < t + IN_USE_MS -> c ∈ chunks ->
  let sv' := foldl (fun sv r => note_cache_use r.1.1 r.1.2 r.2 sv) (note_cache_use t file chunks sv) reads in
  len (rt_in_use (sv_runtime sv')) <= MAX_IN_USE_FILES /\ pinned sv' now c.
Proof.
  intros Hl Ht Hr Hf Hnow Hc sv'.
  assert (rt_in_use (sv_runtime sv') = note_reads reads (note_in_use t file chunks (rt_in_use (sv_runtime sv)))) as E.
  { subst sv'. clear. change (note_in_use t file chunks (rt_in_use (sv_runtime sv))) with
      (rt_in_use (sv_runtime (note_cache_use t file chunks sv))).
    generalize (note_cache_use t file chunks sv) as s. induction reads as [|r reads IH]; intros s; [done|]. cbn. by rewrite IH. }
  split.
  - rewrite E. apply (note_in_use_bounded t file chunks) in Hl. revert Hl. generalize (note_in_use t file chunks (rt_in_use (sv_runtime sv))).
    clear. induction reads as [|r reads IH]; intros l Hl; [done|]. cbn. by apply IH, note_in_use_bounded.
  - assert (sat_add u64_max t IN_USE_MS = t + IN_USE_MS) as Hs by (unfold sat_add; lia).
    apply (pinned_in_use sv' now c (mkInUse file (t + IN_USE_MS) chunks)); [|done|done].
    rewrite E. unfold note_in_use at 1. rewrite Hs. eapply note_reads_keep; [done|rewrite len_nil; lia|].
    eapply Forall_impl; [exact Hf|]. cbn. intros r [? ?]. split; [done|lia].
Qed.

(** * Witnesses *)

Definition toy_runtime (in_pass : bool) : CacheRuntime :=
  mkCacheRuntime (LimitBytes 30) [] None None in_pass false None None false None None.

(** Three records of 20 bytes, listed at positions 0, 1 and 2; the first is this device's upload. *)
Definition toy_server (in_pass : bool) : CacheServer :=
  mkCacheServer (Some (Some (toy_cache_index [(x01, 20); (x02, 20); (x03, 20)]))) false [] (Some [])
    (Some (Some [mkFileRow 0 true [xaa] (Some ([xa1], [[x01]])); mkFileRow 1 true [xbb] (Some ([xa2], [[x02]]));
                 mkFileRow 2 true [xbb] (Some ([xa3], [[x03]]))], 3))
    (Some []) ∅ [x0e] [xaa] (Protection_new true) (toy_runtime in_pass).

Definition toy_disk : Disk :=
  mkDisk (fun _ => Unlinked)
    (Some ((fun b => Some (mkDirEntry (Some [b]) (Some true) (Some 45) true)) <$> [x01; x02; x03])).

Definition toy_turn : CachePump * CacheServer := cache_pump toy_disk (toy_server true) 100.

Lemma toy_turn_eq : toy_turn = (toy_turn.1, toy_turn.2).
Proof. vm_compute. reflexivity. Qed.

Lemma toy_turn_deleted : pu_deleted toy_turn.1 = 2.
Proof. vm_compute. reflexivity. Qed.

Lemma toy_cache_index_ok : cache_index_ok (toy_cache_index [(x01, 20); (x02, 20); (x03, 20)]).
Proof. apply from_sizes_ok; vm_compute; [reflexivity|discriminate]. Qed.

Lemma toy_server_ok i : blob_cache_index (toy_server true) = Some i -> cache_index_ok i.
Proof. intros [= <-]. exact toy_cache_index_ok. Qed.

Lemma turn_keeps_pinned_witness : pu_deleted toy_turn.1 = 2 /\ pu_deleted toy_turn.1 <= MAX_DELETES_PER_TURN.
Proof.
  split; [exact toy_turn_deleted|].
  refine (proj1 (turn_keeps_pinned toy_disk (toy_server true) 100 toy_turn.1 toy_turn.2 toy_turn_eq toy_server_ok _)).
  vm_compute. discriminate.
Defined.

Lemma status_reaches_footer_witness : rt_last_status (sv_runtime toy_turn.2) = pu_status toy_turn.1.
Proof.
  pose proof (proj1 (status_reaches_footer toy_disk (toy_server true) 100 toy_turn.1 toy_turn.2 toy_turn_eq)) as H.
  vm_compute in H |- *. exact (proj1 H).
Defined.

(** The same server with Studio protection unknown. *)
Definition toy_blind : CacheServer := with_cache (toy_server true) (sv_cache (toy_server true)) (Protection_new false).

Definition toy_blind_turn : CachePump * CacheServer := cache_pump toy_disk toy_blind 100.

Lemma toy_blind_turn_eq : toy_blind_turn = (toy_blind_turn.1, toy_blind_turn.2).
Proof. vm_compute. reflexivity. Qed.

Lemma unreadable_input_stops_eviction_witness : pu_deleted toy_blind_turn.1 = 0.
Proof.
  refine (proj1 (proj1 (proj2 (unreadable_input_stops_eviction toy_disk toy_blind 100 toy_blind_turn.1 toy_blind_turn.2 toy_blind_turn_eq)) _)).
  apply missing_studio. reflexivity.
Defined.

(** Seventy records of one listing, two batches' worth. *)
Definition toy_big_chunks : list Cid := (fun i => [n2b (N.of_nat i)]) <$> seq 0 70.

Definition toy_big_index : CacheIndex := from_sizes ((fun c => (c, 1)) <$> toy_big_chunks) true.

Definition toy_big : CacheServer :=
  mkCacheServer (Some (Some toy_big_index)) false [] (Some [])
    (Some (Some [mkFileRow 0 true [xbb] (Some ([xa1], toy_big_chunks))], 1)) (Some []) ∅ [x0e] [xaa] (Protection_new true)
    (mkCacheRuntime (LimitBytes 0) [] None None true false None None false None None).

Lemma toy_big_index_ok : cache_index_ok toy_big_index.
Proof. apply from_sizes_ok; vm_compute; [reflexivity|discriminate]. Qed.

(** Between the turns a blob is written. *)
Definition toy_arrival (c : Cid) (n : N) (sv : CacheServer) : CacheServer :=
  with_cache sv (option_map (option_map (fun i => note_written i c n)) (sv_cache sv)) (sv_protection sv).

Definition toy_big_turns : list PassTurn := [mkPassTurn toy_disk 100 (toy_arrival [xff] 1)].

Lemma toy_big_ok : index_sound toy_big.
Proof. intros i [= <-]. exact toy_big_index_ok. Qed.

Lemma toy_arrival_pass c n sv : rt_in_pass (sv_runtime (toy_arrival c n sv)) = rt_in_pass (sv_runtime sv).
Proof. reflexivity. Qed.

Lemma toy_arrival_ok c n sv :
  index_sound sv -> (forall i, blob_cache_index sv = Some i -> held_bytes (om_insert c n (ci_sizes i)) <= u64_max) ->
  index_sound (toy_arrival c n sv).
Proof.
  unfold index_sound, toy_arrival, blob_cache_index. destruct sv as [[[i0|]|] ? ? ? ? ? ? ? ? ? ?]; try done. intros Hok Hb i [= <-].
  apply note_written_ok; [by apply Hok|by apply Hb].
Qed.

Lemma toy_big_room : exists i, blob_cache_index (cache_pump toy_disk toy_big 100).2 = Some i /\ held_bytes (om_insert [xff] 1 (ci_sizes i)) = 7.
Proof. eexists. split; [vm_compute; reflexivity|]. vm_compute. reflexivity. Qed.

Lemma toy_big_behave : others_behave toy_big toy_big_turns.
Proof.
  unfold toy_big_turns. cbn [others_behave pt_disk pt_now pt_then]. split; [apply toy_arrival_pass|]. split; [|exact I]. apply toy_arrival_ok.
  - destruct (cache_pump toy_disk toy_big 100) as [pump sv'] eqn:E. cbn [snd].
    by destruct (turn_in_pass _ _ _ _ _ E eq_refl toy_big_ok) as (_ & Hok & _).
  - intros i Hi. destruct toy_big_room as (i0 & Hi0 & E). rewrite Hi0 in Hi. injection Hi as <-. rewrite E. done.
Qed.

Lemma toy_big_lasts : pass_lasts toy_big toy_big_turns = true /\ records_added toy_big toy_big_turns = 1 /\ records toy_big = 70.
Proof. vm_compute. done. Qed.

Lemma pass_terminates_witness : len toy_big_turns <= 70 + 1.
Proof.
  destruct toy_big_lasts as (Hl & Ha & Hr). rewrite <- Ha, <- Hr.
  exact (proj2 pass_terminates toy_big_turns toy_big eq_refl toy_big_ok toy_big_behave Hl).
Defined.

Lemma file_in_use_pinned_witness :
  pinned (note_cache_use 20 [xa3] {[ [x03] ]} (note_cache_use 10 [xa2] {[ [x02] ]} (toy_server true))) 500 [x02].
Proof.
  refine (proj2 (file_in_use_pinned (toy_server true) 10 [xa2] {[ [x02] ]} [(20, [xa3], {[ [x03] ]})] 500 [x02] _ _ _ _ _ _)).
  - done.
  - done.
  - done.
  - constructor; [done|constructor].
  - done.
  - by apply elem_of_singleton.
Defined.
