(* ===== verification/Diagnostics.v ===== *)
(** The diagnostic hub of [crates/catcoms-diagnostics/src]: what is captured
    ([config.rs]), the event and the irreversible minimisation it goes through
    at the capture boundary ([event.rs], [redact.rs]), the bounded chronological
    store ([ring.rs]) and the hub that ties them together ([hub.rs]).

    A string is the list of its code points. The keyed hash is a parameter. The
    counters are incremented once per event and are modelled without an upper
    end; everything the code saturates or bounds is bounded here. *)

From S2P Require Import Prelude.
From stdpp Require Import base list gmap relations.
From Stdlib Require Import Init.Byte Strings.Ascii.
From Stdlib Require String.
Local Open Scope N_scope.

(** * Strings *)

Abbreviation str := (list N) (only parsing).

Fixpoint lit (s : String.string) : str :=
  match s with
  | String.EmptyString => []
  | String.String a s' => N_of_ascii a :: lit s'
  end.
Arguments lit _%_string_scope.

(** [char::is_control]: general category Cc *)
Definition is_control (c : N) : bool := (c <? 32) || ((127 <=? c) && (c <? 160)).

(** [char::is_whitespace]: the property White_Space *)
Definition is_whitespace (c : N) : bool :=
  ((9 <=? c) && (c <=? 13)) || (c =? 32) || (c =? 133) || (c =? 160) || (c =? 5760)
  || ((8192 <=? c) && (c <=? 8202)) || (c =? 8232) || (c =? 8233) || (c =? 8239) || (c =? 8287) || (c =? 12288).

(** Bytes of the UTF-8 encoding, which [str::len] counts *)
Definition utf8_width (c : N) : N := if c <? 128 then 1 else if c <? 2048 then 2 else if c <? 65536 then 3 else 4.
Definition str_len (s : str) : N := sum_of utf8_width s.

(** [split(sep)] on one character, and [split("::").next()] *)
Fixpoint split_char (sep : N) (s : str) (acc : str) : list str :=
  match s with
  | [] => [rev acc]
  | c :: s' => if c =? sep then rev acc :: split_char sep s' [] else split_char sep s' (c :: acc)
  end.

Fixpoint before_colons (s : str) : str :=
  match s with
  | c :: s' =>
      match s' with
      | d :: _ => if (c =? 58) && (d =? 58) then [] else c :: before_colons s'
      | [] => [c]
      end
  | [] => []
  end.

Fixpoint str_starts_with (prefix s : str) : bool :=
  match prefix, s with
  | [], _ => true
  | c :: p, d :: s => (c =? d) && str_starts_with p s
  | _ :: _, [] => false
  end.

(** * Configuration *)

Inductive CaptureMode : Type := ModeOff | ModeSafe | ModeEnhanced | ModeFull.

#[global] Instance CaptureMode_eq_dec : EqDecision CaptureMode.
Proof. solve_decision. Defined.

Definition allows_raw_addresses (m : CaptureMode) : bool :=
  match m with ModeEnhanced | ModeFull => true | _ => false end.
Definition captures (m : CaptureMode) : bool := match m with ModeOff => false | _ => true end.
Definition expires_at_restart (m : CaptureMode) : bool := match m with ModeFull => true | _ => false end.

Definition mode_as_str (m : CaptureMode) : str :=
  lit match m with ModeOff => "off" | ModeSafe => "safe" | ModeEnhanced => "enhanced" | ModeFull => "full" end.

Definition mode_parse (name : str) : option CaptureMode :=
  if bool_decide (name = lit "off") then Some ModeOff
  else if bool_decide (name = lit "safe") then Some ModeSafe
  else if bool_decide (name = lit "enhanced") then Some ModeEnhanced
  else if bool_decide (name = lit "full") then Some ModeFull
  else None.

Definition mode_u8 (m : CaptureMode) : N :=
  match m with ModeOff => 0 | ModeSafe => 1 | ModeEnhanced => 2 | ModeFull => 3 end.

Inductive Level : Type := LError | LWarn | LInfo | LDebug | LTrace.

#[global] Instance Level_eq_dec : EqDecision Level.
Proof. solve_decision. Defined.

Definition level_u8 (l : Level) : N :=
  match l with LError => 0 | LWarn => 1 | LInfo => 2 | LDebug => 3 | LTrace => 4 end.

Definition level_as_str (l : Level) : str :=
  lit match l with LError => "ERROR" | LWarn => "WARN" | LInfo => "INFO" | LDebug => "DEBUG" | LTrace => "TRACE" end.

Definition from_tracing (name : str) : Level :=
  if bool_decide (name = lit "ERROR") then LError
  else if bool_decide (name = lit "WARN") then LWarn
  else if bool_decide (name = lit "DEBUG") then LDebug
  else if bool_decide (name = lit "TRACE") then LTrace
  else LInfo.

Definition to_ascii_uppercase (s : str) : str :=
  (fun c => if (97 <=? c) && (c <=? 122) then c - 32 else c) <$> s.

Definition level_parse (name : str) : option Level :=
  let name := to_ascii_uppercase name in
  if bool_decide (name = lit "ERROR") then Some LError
  else if bool_decide (name = lit "WARN") then Some LWarn
  else if bool_decide (name = lit "INFO") then Some LInfo
  else if bool_decide (name = lit "DEBUG") then Some LDebug
  else if bool_decide (name = lit "TRACE") then Some LTrace
  else None.

Inductive DiagSection : Type :=
| SecDiag | SecStartup | SecUi | SecIpc | SecRuntime | SecVault | SecStorage | SecIdentity | SecMembership
| SecTransport | SecReachability | SecDiscovery | SecJoin | SecSync | SecChannels | SecDocuments | SecFiles
| SecVoice | SecDevices | SecUpdates | SecPerformance | SecPrivacy.

#[global] Instance DiagSection_eq_dec : EqDecision DiagSection.
Proof. solve_decision. Defined.

Definition SECTIONS : list DiagSection :=
  [SecDiag; SecStartup; SecUi; SecIpc; SecRuntime; SecVault; SecStorage; SecIdentity; SecMembership;
   SecTransport; SecReachability; SecDiscovery; SecJoin; SecSync; SecChannels; SecDocuments; SecFiles;
   SecVoice; SecDevices; SecUpdates; SecPerformance; SecPrivacy].

Definition section_index (s : DiagSection) : nat :=
  match s with
  | SecDiag => 0 | SecStartup => 1 | SecUi => 2 | SecIpc => 3 | SecRuntime => 4 | SecVault => 5 | SecStorage => 6
  | SecIdentity => 7 | SecMembership => 8 | SecTransport => 9 | SecReachability => 10 | SecDiscovery => 11
  | SecJoin => 12 | SecSync => 13 | SecChannels => 14 | SecDocuments => 15 | SecFiles => 16 | SecVoice => 17
  | SecDevices => 18 | SecUpdates => 19 | SecPerformance => 20 | SecPrivacy => 21
  end.

Definition section_as_str (s : DiagSection) : str :=
  lit match s with
  | SecDiag => "diag" | SecStartup => "startup" | SecUi => "ui" | SecIpc => "ipc" | SecRuntime => "runtime"
  | SecVault => "vault" | SecStorage => "storage" | SecIdentity => "identity" | SecMembership => "membership"
  | SecTransport => "transport" | SecReachability => "reachability" | SecDiscovery => "discovery"
  | SecJoin => "join" | SecSync => "sync" | SecChannels => "channels" | SecDocuments => "documents"
  | SecFiles => "files" | SecVoice => "voice" | SecDevices => "devices" | SecUpdates => "updates"
  | SecPerformance => "performance" | SecPrivacy => "privacy"
  end.

Definition section_parse (name : str) : option DiagSection :=
  find (fun s => bool_decide (section_as_str s = name)) SECTIONS.

Definition section_from_target (target : str) : DiagSection :=
  let root := before_colons target in
  if bool_decide (root = lit "catcoms_ui") then SecUi
  else if bool_decide (root = lit "catcoms_net") then SecTransport
  else if bool_decide (root = lit "catcoms_discovery") then SecDiscovery
  else if bool_decide (root = lit "catcoms_sync") then SecSync
  else if bool_decide (root = lit "catcoms_mls") then SecMembership
  else if bool_decide (root = lit "catcoms_storage") then SecStorage
  else if bool_decide (root = lit "catcoms_replication") then SecSync
  else if bool_decide (root = lit "catcoms_crypto") then SecIdentity
  else if bool_decide (root = lit "catcoms_log") || bool_decide (root = lit "catcoms_diagnostics") then SecDiag
  else SecRuntime.

(** [levels]: one slot per section *)
Record CaptureConfig := mkCaptureConfig { cc_mode : CaptureMode; cc_levels : list (option Level) }.

Definition config_level (c : CaptureConfig) (s : DiagSection) : option Level := mjoin (cc_levels c !! section_index s).

Definition config_set (c : CaptureConfig) (s : DiagSection) (l : option Level) : CaptureConfig :=
  mkCaptureConfig (cc_mode c) (<[section_index s := l]> (cc_levels c)).

Definition for_mode (m : CaptureMode) : CaptureConfig :=
  let base := match m with ModeFull => Some LTrace | _ => Some LDebug end in
  let config := mkCaptureConfig m (replicate 22 base) in
  match m with ModeOff | ModeSafe => config_set config SecTransport (Some LWarn) | _ => config end.

Definition config_admits (c : CaptureConfig) (s : DiagSection) (l : Level) : bool :=
  if negb (captures (cc_mode c)) then false
  else match config_level c s with Some threshold => level_u8 l <=? level_u8 threshold | None => false end.

(** The lock-free snapshot: the mode's discriminant, and per section 0 or the
    level's discriminant plus one. *)
Record CaptureGate := mkCaptureGate { gt_mode : N; gt_levels : list N }.

Definition gate_store (c : CaptureConfig) : CaptureGate :=
  mkCaptureGate (mode_u8 (cc_mode c))
    ((fun s => match config_level c s with Some l => level_u8 l + 1 | None => 0 end) <$> SECTIONS).

Definition gate_admits (g : CaptureGate) (s : DiagSection) (l : Level) : bool :=
  if gt_mode g =? mode_u8 ModeOff then false
  else
    let encoded := default 0 (gt_levels g !! section_index s) in
    negb (encoded =? 0) && (level_u8 l <? encoded).

(** * Values *)

Definition MAX_SAFE_TEXT : nat := 200.
Definition MAX_BRIDGED_MESSAGE : nat := 4000.
Definition MAX_ADDRESS_CHARS : nat := 300.
Definition MAX_FIELDS : N := 32.
Definition MAX_FIELD_NAME : nat := 64.
Definition MAX_TARGET : nat := 200.
Definition REF_CHARS : nat := 12.

Definition describe (text : str) : str := firstn MAX_SAFE_TEXT (List.filter (fun c => negb (is_control c)) text).

Definition bridged_keeps (c : N) : bool := (c =? 10) || negb (is_control c).
Definition bridged_new (text : str) : str := firstn MAX_BRIDGED_MESSAGE (List.filter bridged_keeps text).
Definition bridged_from_owned (text : str) : str :=
  if (str_len text <=? N.of_nat MAX_BRIDGED_MESSAGE) && negb (existsb (fun c => negb (c =? 10) && is_control c) text)
  then text else bridged_new text.

Definition SAFE_TEXT_OMITTED : str := lit "[text omitted by safe capture]".
Definition SAFE_BRIDGED_OMITTED : str := lit "[legacy log text omitted by safe capture]".

Definition TRANSPORTS : list str :=
  [lit "tcp"; lit "udp"; lit "quic"; lit "quic-v1"; lit "ws"; lit "wss"; lit "webtransport"; lit "webrtc";
   lit "webrtc-direct"; lit "p2p-circuit"; lit "tls"; lit "noise"].

Inductive AddressFamily : Type := FamilyV4 | FamilyV6 | FamilyDns | FamilyOther.

Record AddressValue := mkAddressValue { av_family : AddressFamily; av_transport : str; av_raw : option str }.

Definition AddressValue_new (addr : str) : AddressValue :=
  let family := if str_starts_with (lit "/ip4/") addr then FamilyV4
                else if str_starts_with (lit "/ip6/") addr then FamilyV6
                else if str_starts_with (lit "/dns") addr then FamilyDns
                else FamilyOther in
  let transport := default (lit "unknown")
    (find (fun part => bool_decide (part ∈ TRANSPORTS)) (rev (split_char 47 addr []))) in
  mkAddressValue family (describe transport) (Some (firstn MAX_ADDRESS_CHARS addr)).

Definition address_family_str (f : AddressFamily) : str :=
  lit match f with FamilyV4 => "ip4" | FamilyV6 => "ip6" | FamilyDns => "dns" | FamilyOther => "other" end.

Definition address_render (a : AddressValue) (mode : CaptureMode) : str :=
  match (if allows_raw_addresses mode then av_raw a else None) with
  | Some raw => raw
  | None => address_family_str (av_family a) ++ lit "/" ++ av_transport a
  end.

Definition address_minimize (a : AddressValue) (mode : CaptureMode) : AddressValue :=
  if allows_raw_addresses mode then a else mkAddressValue (av_family a) (av_transport a) None.

(** [Outcome] holds a literal of the source, [Ref] a reference derived under the salt. *)
Inductive SafeValue : Type :=
| VBool (v : bool) | VCount (v : N) | VDelta (v : Z) | VDuration (v : N) | VOutcome (v : str)
| VText (v : str) | VRef (v : str) | VAddress (v : AddressValue) | VBridged (v : str).

Definition value_minimize (v : SafeValue) (mode : CaptureMode) : SafeValue :=
  match v with
  | VAddress a => VAddress (address_minimize a mode)
  | VText t => VText (if allows_raw_addresses mode then t else describe SAFE_TEXT_OMITTED)
  | VBridged m => VBridged (if allows_raw_addresses mode then m else bridged_new SAFE_BRIDGED_OMITTED)
  | _ => v
  end.

Definition is_mode_sensitive (v : SafeValue) : bool :=
  match v with VAddress a => match av_raw a with Some _ => true | None => false end | _ => false end.

(** * Session references *)

Inductive RefDomain : Type :=
| RefServer | RefChannel | RefPeer | RefDevice | RefDocument | RefFile | RefTransfer | RefInvite.

Definition ref_prefix (d : RefDomain) : bytes :=
  bytes_of_string match d with
  | RefServer => "srv" | RefChannel => "chan" | RefPeer => "peer" | RefDevice => "dev" | RefDocument => "doc"
  | RefFile => "file" | RefTransfer => "xfer" | RefInvite => "inv"
  end.

Definition lower_hex_digit (n : N) : N := if n <? 10 then 48 + n else 87 + n.
Definition lower_hex (b : byte) : str := [lower_hex_digit (b2n b / 16); lower_hex_digit (b2n b mod 16)].

Definition ref_input (domain : RefDomain) (id : bytes) : bytes := ref_prefix domain ++ x00 :: id.

Definition TRACE_MASK : N := 11936128518282651045.

Section salt.
(** [blake3::keyed_hash]: the 32-byte digest of a message under the session's salt *)
Context (keyed_hash : bytes -> bytes -> bytes) (salt : bytes).

Definition reference (domain : RefDomain) (id : bytes) : str :=
  let hex := concat (lower_hex <$> firstn (REF_CHARS / 2) (keyed_hash salt (ref_input domain id))) in
  (b2n <$> ref_prefix domain) ++ lit "-" ++ firstn REF_CHARS hex.

Definition external_trace (raw : N) : N :=
  let digest := keyed_hash salt (bytes_of_string "trace" ++ x00 :: be_bytes 8 raw) in
  let reduced := be_val (firstn 8 digest) in
  if (reduced =? 0) || (reduced =? raw) then
    let reduced := N.lxor reduced TRACE_MASK in
    if reduced =? 0 then 1 else reduced
  else reduced.

Definition trace_proof (trace : N) : bytes :=
  firstn 16 (keyed_hash salt (bytes_of_string "trace-proof" ++ x00 :: be_bytes 8 trace)).

Definition verifies_trace_proof (trace : N) (proof : bytes) : bool :=
  if negb (len proof =? 16) then false
  else foldl (fun difference e => N.lor difference (N.lxor (b2n e.1) (b2n e.2))) 0 (zip (trace_proof trace) proof) =? 0.
End salt.

(** * Events *)

Inductive FieldName : Type := NameStatic (s : str) | NameOwned (s : str).

Definition field_name_str (n : FieldName) : str := match n with NameStatic s | NameOwned s => s end.

Definition forges_structure (c : N) : bool := (c =? 61) || is_whitespace c || is_control c.

Definition field_name_from (name : str) : FieldName :=
  if (str_len name <=? N.of_nat MAX_FIELD_NAME) && negb (existsb forges_structure name)
  then NameOwned name
  else NameOwned (firstn MAX_FIELD_NAME ((fun c => if forges_structure c then 95 else c) <$> name)).

(** decimal digits of a field's ordinal *)
Definition show_small (n : nat) : str :=
  if (n <? 10)%nat then [48 + N.of_nat n] else [48 + N.of_nat (n / 10); 48 + N.of_nat (n mod 10)].

Definition name_minimize (n : FieldName) (ordinal : nat) : FieldName :=
  match n with
  | NameOwned _ => NameOwned (lit "field_" ++ show_small ordinal)
  | NameStatic s => NameStatic s
  end.

Definition SAFE_ROOTS : list str :=
  [lit "catcoms_app"; lit "catcoms_ui"; lit "catcoms_net"; lit "catcoms_discovery"; lit "catcoms_sync";
   lit "catcoms_mls"; lit "catcoms_storage"; lit "catcoms_replication"; lit "catcoms_crypto"; lit "catcoms_log";
   lit "catcoms_diagnostics"].

Definition safe_target_root (target : str) : option str :=
  let root := before_colons target in if bool_decide (root ∈ SAFE_ROOTS) then Some root else None.

Inductive Phase : Type := PhStart | PhProgress | PhSuccess | PhFailure | PhCancel | PhTimeout | PhObservation.

Record Refs := mkRefs {
  rf_server : option str; rf_channel : option str; rf_peer : option str; rf_document : option str; rf_transfer : option str
}.

Record DiagnosticEvent := mkDiagnosticEvent {
  de_seq : N; de_at_ms : N; de_monotonic_ms : N; de_capture_mode : CaptureMode; de_capture_epoch : N;
  de_section : DiagSection; de_level : Level; de_code : str; de_phase : Phase; de_operation : str;
  de_trace : N; de_span : N; de_parent_span : N; de_refs : Refs; de_duration_ms : option N; de_attempt : option N;
  de_target : str; de_fields : list (FieldName * SafeValue); de_fields_dropped : N
}.

Definition event_new (section : DiagSection) (level : Level) (code : str) : DiagnosticEvent :=
  mkDiagnosticEvent 0 0 0 ModeSafe 0 section level code PhObservation [] 0 0 0 (mkRefs None None None None None) None None
    [] [] 0.

Definition with_target (e : DiagnosticEvent) (target : str) : DiagnosticEvent :=
  mkDiagnosticEvent (de_seq e) (de_at_ms e) (de_monotonic_ms e) (de_capture_mode e) (de_capture_epoch e) (de_section e)
    (de_level e) (de_code e) (de_phase e) (de_operation e) (de_trace e) (de_span e) (de_parent_span e) (de_refs e)
    (de_duration_ms e) (de_attempt e) target (de_fields e) (de_fields_dropped e).

Definition event_target (e : DiagnosticEvent) (target : str) : DiagnosticEvent :=
  with_target e (if str_len target <=? N.of_nat MAX_TARGET then target else firstn MAX_TARGET target).

Definition with_fields (e : DiagnosticEvent) (fields : list (FieldName * SafeValue)) (dropped : N) : DiagnosticEvent :=
  mkDiagnosticEvent (de_seq e) (de_at_ms e) (de_monotonic_ms e) (de_capture_mode e) (de_capture_epoch e) (de_section e)
    (de_level e) (de_code e) (de_phase e) (de_operation e) (de_trace e) (de_span e) (de_parent_span e) (de_refs e)
    (de_duration_ms e) (de_attempt e) (de_target e) fields dropped.

Definition event_field (e : DiagnosticEvent) (name : FieldName) (value : SafeValue) : DiagnosticEvent :=
  if len (de_fields e) <? MAX_FIELDS
  then with_fields e (de_fields e ++ [(name, value)]) (de_fields_dropped e)
  else with_fields e (de_fields e) (sat_add u32_max (de_fields_dropped e) 1).

Definition minimize_fields (mode : CaptureMode) (fields : list (FieldName * SafeValue)) : list (FieldName * SafeValue) :=
  imap (fun i f => (if allows_raw_addresses mode then f.1 else name_minimize f.1 (S i), value_minimize f.2 mode)) fields.

Definition prepare_for_capture (e : DiagnosticEvent) (mode : CaptureMode) (epoch : N) : DiagnosticEvent :=
  mkDiagnosticEvent (de_seq e) (de_at_ms e) (de_monotonic_ms e) mode epoch (de_section e)
    (de_level e) (de_code e) (de_phase e) (de_operation e) (de_trace e) (de_span e) (de_parent_span e) (de_refs e)
    (de_duration_ms e) (de_attempt e)
    (if allows_raw_addresses mode then de_target e else default [] (safe_target_root (de_target e)))
    (minimize_fields mode (de_fields e)) (de_fields_dropped e).

Definition set_seq (e : DiagnosticEvent) (seq : N) : DiagnosticEvent :=
  mkDiagnosticEvent seq (de_at_ms e) (de_monotonic_ms e) (de_capture_mode e) (de_capture_epoch e) (de_section e)
    (de_level e) (de_code e) (de_phase e) (de_operation e) (de_trace e) (de_span e) (de_parent_span e) (de_refs e)
    (de_duration_ms e) (de_attempt e) (de_target e) (de_fields e) (de_fields_dropped e).

Definition set_clocks (e : DiagnosticEvent) (at_ms monotonic : N) : DiagnosticEvent :=
  mkDiagnosticEvent (de_seq e) at_ms monotonic (de_capture_mode e) (de_capture_epoch e) (de_section e)
    (de_level e) (de_code e) (de_phase e) (de_operation e) (de_trace e) (de_span e) (de_parent_span e) (de_refs e)
    (de_duration_ms e) (de_attempt e) (de_target e) (de_fields e) (de_fields_dropped e).

(** * The ring *)

Record RingStats := mkRingStats {
  rs_errors : N; rs_warnings : N; rs_dropped : N; rs_filtered : N; rs_latest_seq : N
}.

Record Ring := mkRing {
  rg_events : list DiagnosticEvent;
  rg_capacity : N;
  rg_next_seq : N;
  rg_stats : RingStats;
  rg_per_section : list N;
  rg_per_section_errors : list N
}.

Definition Ring_new (capacity : N) : Ring :=
  mkRing [] (N.max capacity 1) 0 (mkRingStats 0 0 0 0 0) (replicate 22 0) (replicate 22 0).

(** [while self.events.len() > self.capacity { pop_front; dropped += 1 }] *)
Fixpoint ring_trim (capacity : N) (events : list DiagnosticEvent) (dropped : N) : list DiagnosticEvent * N :=
  match events with
  | [] => ([], dropped)
  | _ :: rest => if capacity <? len events then ring_trim capacity rest (dropped + 1) else (events, dropped)
  end.

Definition bump_count (l : list N) (i : nat) : list N := alter (N.add 1) i l.

Definition ring_push (r : Ring) (e : DiagnosticEvent) : N * Ring :=
  let seq := rg_next_seq r + 1 in
  let e := set_seq e seq in
  let s := rg_stats r in
  let at_ := section_index (de_section e) in
  let is_error := bool_decide (de_level e = LError) in
  let '(events, dropped) := ring_trim (rg_capacity r) (rg_events r ++ [e]) (rs_dropped s) in
  (seq,
   mkRing events (rg_capacity r) seq
     (mkRingStats (if is_error then rs_errors s + 1 else rs_errors s)
        (if bool_decide (de_level e = LWarn) then rs_warnings s + 1 else rs_warnings s) dropped (rs_filtered s) seq)
     (bump_count (rg_per_section r) at_)
     (if is_error then bump_count (rg_per_section_errors r) at_ else rg_per_section_errors r)).

Definition offset_after (r : Ring) (after_seq : N) : N :=
  match rg_events r with
  | [] => 0
  | front :: _ =>
      if after_seq <? de_seq front then 0
      else N.min (sat_add usize_max (after_seq - de_seq front) 1) (len (rg_events r))
  end.

Definition ring_since (r : Ring) (after_seq limit : N) : list DiagnosticEvent :=
  firstn (N.to_nat limit) (skipn (N.to_nat (offset_after r after_seq)) (rg_events r)).

Definition section_since (r : Ring) (section : DiagSection) (after_seq limit : N) : list DiagnosticEvent :=
  firstn (N.to_nat limit) (List.filter (fun e => bool_decide (de_section e = section))
    (skipn (N.to_nat (offset_after r after_seq)) (rg_events r))).

Definition ring_trace (r : Ring) (trace : N) : list DiagnosticEvent :=
  List.filter (fun e => de_trace e =? trace) (rg_events r).

Definition section_counts (r : Ring) (s : DiagSection) : N * N :=
  (default 0 (rg_per_section r !! section_index s), default 0 (rg_per_section_errors r !! section_index s)).

Definition ring_clear (r : Ring) : Ring :=
  mkRing [] (rg_capacity r) (rg_next_seq r) (rg_stats r) (rg_per_section r) (rg_per_section_errors r).

(** * The hub *)

Record Hub := mkHub {
  hb_ring : Ring;
  hb_config : CaptureConfig;
  hb_capture_epoch : N;
  hb_origin_ms : N;
  hb_gate : CaptureGate;
  hb_filtered : N;
  hb_next_id : N
}.

Definition hub_with_capacity (mode : CaptureMode) (capacity origin_ms : N) : Hub :=
  mkHub (Ring_new capacity) (for_mode mode) 1 origin_ms (gate_store (for_mode mode)) 0 0.

Definition hub_filter (h : Hub) : Hub :=
  mkHub (hb_ring h) (hb_config h) (hb_capture_epoch h) (hb_origin_ms h) (hb_gate h) (hb_filtered h + 1) (hb_next_id h).

Definition hub_record (h : Hub) (at_ms monotonic : N) (e : DiagnosticEvent) : option N * Hub :=
  if negb (gate_admits (hb_gate h) (de_section e) (de_level e)) then (None, hub_filter h)
  else if negb (config_admits (hb_config h) (de_section e) (de_level e)) then (None, hub_filter h)
  else
    let e := set_clocks e at_ms (monotonic - hb_origin_ms h) in
    let e := prepare_for_capture e (cc_mode (hb_config h)) (hb_capture_epoch h) in
    let '(seq, ring) := ring_push (hb_ring h) e in
    (Some seq, mkHub ring (hb_config h) (hb_capture_epoch h) (hb_origin_ms h) (hb_gate h) (hb_filtered h) (hb_next_id h)).

Definition hub_record_with (h : Hub) (at_ms monotonic : N) (section : DiagSection) (level : Level)
    (build : unit -> DiagnosticEvent) : option N * Hub :=
  if negb (gate_admits (hb_gate h) section level) then (None, hub_filter h) else hub_record h at_ms monotonic (build tt).

Definition hub_reconfigure (h : Hub) (config : CaptureConfig) (epoch : N) : Hub :=
  mkHub (hb_ring h) config epoch (hb_origin_ms h) (gate_store config) (hb_filtered h) (hb_next_id h).

Definition hub_set_mode (h : Hub) (mode : CaptureMode) : Hub :=
  if bool_decide (cc_mode (hb_config h) = mode) then hub_reconfigure h (hb_config h) (hb_capture_epoch h)
  else hub_reconfigure h (mkCaptureConfig mode (cc_levels (hb_config h))) (sat_add u64_max (hb_capture_epoch h) 1).

Definition hub_reset_levels (h : Hub) : Hub :=
  hub_reconfigure h (for_mode (cc_mode (hb_config h))) (hb_capture_epoch h).

Definition hub_set_section_level (h : Hub) (section : DiagSection) (level : option Level) : Hub :=
  hub_reconfigure h (config_set (hb_config h) section level) (hb_capture_epoch h).

Definition hub_stats (h : Hub) : RingStats :=
  let s := rg_stats (hb_ring h) in
  mkRingStats (rs_errors s) (rs_warnings s) (rs_dropped s) (hb_filtered h) (rs_latest_seq s).

Definition hub_new_id (h : Hub) : N * Hub :=
  (hb_next_id h + 1,
   mkHub (hb_ring h) (hb_config h) (hb_capture_epoch h) (hb_origin_ms h) (hb_gate h) (hb_filtered h) (hb_next_id h + 1)).

Definition hub_clear (h : Hub) : Hub :=
  mkHub (ring_clear (hb_ring h)) (hb_config h) (hb_capture_epoch h) (hb_origin_ms h) (hb_gate h) (hb_filtered h)
    (hb_next_id h).

(** * Runs *)

Inductive HubOp : Type :=
| OpRecord (at_ms monotonic : N) (e : DiagnosticEvent)
| OpSetMode (m : CaptureMode)
| OpResetLevels
| OpSetLevel (s : DiagSection) (l : option Level)
| OpNewId
| OpClear.

Definition hub_apply (h : Hub) (op : HubOp) : Hub :=
  match op with
  | OpRecord at_ms monotonic e => (hub_record h at_ms monotonic e).2
  | OpSetMode m => hub_set_mode h m
  | OpResetLevels => hub_reset_levels h
  | OpSetLevel s l => hub_set_section_level h s l
  | OpNewId => (hub_new_id h).2
  | OpClear => hub_clear h
  end.

Definition hub_run (h : Hub) (ops : list HubOp) : Hub := foldl hub_apply h ops.

(** * The gate *)

Lemma sections_index s : SECTIONS !! section_index s = Some s.
Proof. by destruct s. Qed.

Lemma gate_store_admits c s l : gate_admits (gate_store c) s l = config_admits c s l.
Proof.
  unfold gate_admits, config_admits, gate_store. cbn [gt_mode gt_levels].
  rewrite list_lookup_fmap, sections_index. cbn [fmap option_fmap option_map default from_option id].
  destruct (cc_mode c); cbn [mode_u8 captures negb N.eqb Pos.eqb]; [done|..];
    destruct (config_level c s) as [t|]; try done; destruct l, t; done.
Qed.

Lemma hub_gate_apply h op : hb_gate h = gate_store (hb_config h) -> hb_gate (hub_apply h op) = gate_store (hb_config (hub_apply h op)).
Proof.
  intros H. destruct op as [at_ms mono e|m| |s l| |]; cbn; try done.
  - unfold hub_record. destruct (negb _); [done|]. destruct (negb _); [done|]. by destruct (ring_push _ _).
  - unfold hub_set_mode. by case_bool_decide.
Qed.

Lemma hub_gate_run ops : forall h, hb_gate h = gate_store (hb_config h) -> hb_gate (hub_run h ops) = gate_store (hb_config (hub_run h ops)).
Proof. induction ops as [|op ops IH]; intros h H; [done|]. cbn. by apply IH, hub_gate_apply. Qed.

(** The lock-free gate and the configuration always agree. Through any sequence
    of mode and level changes, at every section and level, the snapshot read
    without a lock admits exactly what the configuration admits; so a filtered
    event is one the user excluded, and with capture off none is recorded. *)
Theorem gate_matches_config mode capacity origin ops s l :
  let h := hub_run (hub_with_capacity mode capacity origin) ops in
  gate_admits (hb_gate h) s l = config_admits (hb_config h) s l /\
  (cc_mode (hb_config h) = ModeOff -> gate_admits (hb_gate h) s l = false).
Proof.
  intros h. assert (hb_gate h = gate_store (hb_config h)) as -> by by apply hub_gate_run.
  rewrite gate_store_admits. split; [done|]. unfold config_admits. by intros ->.
Qed.

(** * The ring and its history *)

(** What the store has seen: every event pushed, numbered, how many of them it no
    longer holds, and how many of those a clear forgot. *)
Record RingHistory := mkRingHistory { hi_events : list DiagnosticEvent; hi_gone : nat; hi_cleared : nat }.

Inductive RingOp : Type := RPush (e : DiagnosticEvent) | RClear.

Definition ring_apply (r : Ring) (op : RingOp) : Ring :=
  match op with RPush e => (ring_push r e).2 | RClear => ring_clear r end.

Definition history_apply (capacity : N) (a : RingHistory) (op : RingOp) : RingHistory :=
  match op with
  | RPush e =>
      let events := hi_events a ++ [set_seq e (len (hi_events a) + 1)] in
      mkRingHistory events (Nat.max (hi_gone a) (length events - N.to_nat capacity)) (hi_cleared a)
  | RClear => mkRingHistory (hi_events a) (length (hi_events a)) (hi_cleared a + (length (hi_events a) - hi_gone a))
  end.

Definition count_if (f : DiagnosticEvent -> bool) (l : list DiagnosticEvent) : N := len (List.filter f l).

Definition at_level (l : Level) (e : DiagnosticEvent) : bool := bool_decide (de_level e = l).
Definition in_section (s : DiagSection) (e : DiagnosticEvent) : bool := bool_decide (de_section e = s).

Record represents (r : Ring) (a : RingHistory) : Prop := mkRepresents {
  rp_capacity : 1 <= rg_capacity r;
  rp_gone : (hi_cleared a <= hi_gone a <= length (hi_events a))%nat;
  rp_events : rg_events r = skipn (hi_gone a) (hi_events a);
  rp_bound : len (rg_events r) <= rg_capacity r;
  rp_numbered : forall i e, hi_events a !! i = Some e -> de_seq e = N.of_nat i + 1;
  rp_next : rg_next_seq r = len (hi_events a);
  rp_latest : rs_latest_seq (rg_stats r) = len (hi_events a);
  rp_errors : rs_errors (rg_stats r) = count_if (at_level LError) (hi_events a);
  rp_warnings : rs_warnings (rg_stats r) = count_if (at_level LWarn) (hi_events a);
  rp_dropped : rs_dropped (rg_stats r) = N.of_nat (hi_gone a - hi_cleared a);
  rp_slots : length (rg_per_section r) = 22%nat /\ length (rg_per_section_errors r) = 22%nat;
  rp_sections : forall s, section_counts r s =
    (count_if (in_section s) (hi_events a), count_if (fun e => in_section s e && at_level LError e) (hi_events a))
}.

Lemma ring_trim_spec capacity events : forall dropped,
  ring_trim capacity events dropped =
  (skipn (length events - N.to_nat capacity) events, dropped + N.of_nat (length events - N.to_nat capacity)).
Proof.
  induction events as [|e events IH]; intros dropped; cbn [ring_trim]; [cbn; by rewrite N.add_0_r|].
  destruct (N.ltb_spec capacity (len (e :: events))) as [L|L].
  - rewrite IH. unfold len in L. cbn [length] in *. replace (S (length events) - N.to_nat capacity)%nat
      with (S (length events - N.to_nat capacity)) by lia. cbn [skipn]. f_equal. lia.
  - unfold len in L. replace (length (e :: events) - N.to_nat capacity)%nat with 0%nat by lia. cbn. by rewrite N.add_0_r.
Qed.

Lemma count_if_snoc f l e : count_if f (l ++ [e]) = count_if f l + (if f e then 1 else 0).
Proof. unfold count_if. rewrite List.filter_app, len_app. cbn. by destruct (f e). Qed.

Lemma bump_count_lookup l i j :
  (i < length l)%nat -> default 0 (bump_count l i !! j) = default 0 (l !! j) + (if decide (i = j) then 1 else 0).
Proof.
  intros Hi. unfold bump_count. destruct (decide (i = j)) as [->|Hne].
  - rewrite list_lookup_alter_eq. destruct (lookup_lt_is_Some_2 l j Hi) as [x ->]. cbn. lia.
  - rewrite list_lookup_alter_ne by done. lia.
Qed.

Lemma section_index_lt s : (section_index s < 22)%nat.
Proof. destruct s; cbn; lia. Qed.

Lemma section_index_inj s t : section_index s = section_index t -> s = t.
Proof. intros H. pose proof (sections_index s) as Hs. rewrite H, sections_index in Hs. by injection Hs. Qed.

Lemma push_sections l s t :
  length l = 22%nat ->
  default 0 (bump_count l (section_index s) !! section_index t) = default 0 (l !! section_index t) + (if bool_decide (s = t) then 1 else 0).
Proof.
  intros Hl. rewrite bump_count_lookup by (rewrite Hl; apply section_index_lt). f_equal.
  destruct (decide (section_index s = section_index t)) as [E|E].
  - by rewrite bool_decide_eq_true_2 by by apply section_index_inj.
  - rewrite bool_decide_eq_false_2; [done|]. by intros ->.
Qed.

Lemma represents_new capacity : represents (Ring_new capacity) (mkRingHistory [] 0 0).
Proof.
  constructor; cbn; try done; [lia|unfold len; cbn; lia|]. intros s. unfold section_counts. cbn. by destruct s.
Qed.

Lemma represents_clear r a : represents r a -> represents (ring_clear r) (history_apply (rg_capacity r) a RClear).
Proof.
  intros [Hc Hg He Hb Hn Hnext Hl Herr Hw Hd Hs Hsec]. constructor; cbn [ring_clear history_apply rg_capacity rg_events rg_next_seq
    rg_stats rg_per_section rg_per_section_errors hi_events hi_gone hi_cleared]; try done.
  - lia.
  - by rewrite drop_all.
  - unfold len. cbn. lia.
  - rewrite Hd. f_equal. lia.
Qed.

Lemma push_events r a e :
  represents r a ->
  let hist := hi_events a ++ [e] in
  let k := Nat.max (hi_gone a) (length hist - N.to_nat (rg_capacity r)) in
  ring_trim (rg_capacity r) (rg_events r ++ [e]) (rs_dropped (rg_stats r)) =
  (skipn k hist, N.of_nat (k - hi_cleared a)).
Proof.
  intros [Hc Hg He Hb _ _ _ _ _ Hd _ _] hist k. rewrite ring_trim_spec.
  assert (rg_events r ++ [e] = skipn (hi_gone a) hist) as E.
  { subst hist. rewrite skipn_app, He. replace (hi_gone a - length (hi_events a))%nat with 0%nat by lia. done. }
  rewrite E, skipn_skipn, length_skipn. f_equal; [f_equal; lia|]. rewrite Hd. subst k. lia.
Qed.

Lemma represents_push r a e :
  represents r a -> represents (ring_push r e).2 (history_apply (rg_capacity r) a (RPush e)).
Proof.
  intros Hrep. pose proof (push_events r a (set_seq e (len (hi_events a) + 1)) Hrep) as Hpush.
  destruct Hrep as [Hc Hg He Hb Hn Hnext Hl Herr Hw Hd [Hs1 Hs2] Hsec].
  unfold ring_push. rewrite Hnext. rewrite Hpush. clear Hpush.
  constructor; cbn [snd history_apply rg_capacity rg_events rg_next_seq rg_stats rg_per_section rg_per_section_errors
    hi_events hi_gone hi_cleared rs_errors rs_warnings rs_dropped rs_latest_seq]; try done.
  - rewrite length_app. cbn. lia.
  - unfold len. rewrite length_skipn. lia.
  - intros i x Hi. destruct (Nat.lt_ge_cases i (length (hi_events a))) as [L|L].
    + rewrite lookup_app_l in Hi by done. by apply Hn.
    + rewrite lookup_app_r in Hi by done. apply list_lookup_singleton_Some in Hi as [Hi <-]. cbn. unfold len. lia.
  - rewrite len_app. done.
  - rewrite len_app. done.
  - rewrite count_if_snoc, Herr. unfold at_level. cbn [set_seq de_level]. destruct (bool_decide _); lia.
  - rewrite count_if_snoc, Hw. unfold at_level. cbn [set_seq de_level]. destruct (bool_decide _); lia.
  - unfold bump_count. split; [by rewrite length_alter|]. destruct (bool_decide _); [by rewrite length_alter|done].
  - intros s. specialize (Hsec s). unfold section_counts in Hsec |- *. cbn [rg_per_section rg_per_section_errors].
    injection Hsec as H1 H2. rewrite !count_if_snoc, push_sections by done. f_equal.
    + rewrite H1. unfold in_section. cbn [set_seq de_section]. done.
    + rewrite <- H2. unfold in_section, at_level. cbn [set_seq de_section de_level].
      destruct (bool_decide (de_level e = LError)); [rewrite push_sections by done; by rewrite andb_true_r|].
      rewrite andb_false_r. lia.
Qed.

Definition ring_run (r : Ring) (ops : list RingOp) : Ring := foldl ring_apply r ops.
Definition history_run (capacity : N) (ops : list RingOp) : RingHistory := foldl (history_apply capacity) (mkRingHistory [] 0 0) ops.

Lemma ring_apply_capacity r op : rg_capacity (ring_apply r op) = rg_capacity r.
Proof. destruct op; [|done]. cbn. unfold ring_push. by destruct (ring_trim _ _ _). Qed.

Lemma ring_run_represents capacity ops :
  let r := ring_run (Ring_new capacity) ops in
  rg_capacity r = N.max capacity 1 /\ represents r (history_run (N.max capacity 1) ops).
Proof.
  unfold ring_run, history_run.
  assert (forall r a, rg_capacity r = N.max capacity 1 -> represents r a ->
    rg_capacity (foldl ring_apply r ops) = N.max capacity 1 /\
    represents (foldl ring_apply r ops) (foldl (history_apply (N.max capacity 1)) a ops)) as H.
  { induction ops as [|op ops IH]; intros r a Hc Hr; [done|]. cbn. apply IH; [by rewrite ring_apply_capacity|].
    rewrite <- Hc. destruct op; [by apply represents_push|by apply represents_clear]. }
  apply H; [done|apply represents_new].
Qed.

(** C37: the store is its history, and honest about what it lost. After any pushes and
    clears the ring holds exactly the newest events of the whole numbered
    history, at most its capacity, dense and in order; its error, warning and
    per-section counts are those of the whole history, not of what it still
    holds; and the events it no longer holds are the ones it counted as dropped
    together with the ones a clear forgot. *)
Theorem ring_refines_history capacity ops :
  represents (ring_run (Ring_new capacity) ops) (history_run (N.max capacity 1) ops).
Proof. apply ring_run_represents. Qed.

(** * Reading *)

Lemma dense_filter (l : list DiagnosticEvent) : forall base after,
  (forall i e, l !! i = Some e -> de_seq e = base + N.of_nat i + 1) ->
  List.filter (fun e => after <? de_seq e) l = skipn (N.to_nat (after - base)) l.
Proof.
  induction l as [|e l IH]; intros base after Hn; cbn [List.filter]; [by rewrite skipn_nil|].
  pose proof (Hn 0%nat e eq_refl) as He.
  assert (forall i x, l !! i = Some x -> de_seq x = (base + 1) + N.of_nat i + 1) as Hn'.
  { intros i x Hi. rewrite (Hn (S i) x Hi). lia. }
  destruct (N.ltb_spec after (de_seq e)) as [L|L].
  - replace (N.to_nat (after - base)) with 0%nat by lia. cbn. f_equal. rewrite (IH (base + 1) after Hn').
    by replace (N.to_nat (after - (base + 1))) with 0%nat by lia.
  - rewrite (IH (base + 1) after Hn'). replace (N.to_nat (after - base)) with (S (N.to_nat (after - (base + 1)))) by lia. done.
Qed.

Lemma represents_dense r a i e :
  represents r a -> rg_events r !! i = Some e -> de_seq e = N.of_nat (hi_gone a) + N.of_nat i + 1.
Proof. intros Hr Hi. rewrite (rp_events _ _ Hr), lookup_drop in Hi. rewrite (rp_numbered _ _ Hr _ _ Hi). lia. Qed.

Lemma offset_after_scan r a after :
  represents r a -> rg_capacity r <= usize_max ->
  skipn (N.to_nat (offset_after r after)) (rg_events r) = List.filter (fun e => after <? de_seq e) (rg_events r).
Proof.
  intros Hr Hcap. rewrite (dense_filter _ (N.of_nat (hi_gone a))) by (intros i e; by apply represents_dense).
  pose proof (rp_bound _ _ Hr) as Hb. unfold offset_after.
  destruct (rg_events r) as [|front rest] eqn:E; [by rewrite !skipn_nil|].
  assert (de_seq front = N.of_nat (hi_gone a) + 1) as Hf.
  { rewrite (represents_dense r a 0 front Hr); [lia|by rewrite E]. }
  destruct (N.ltb_spec after (de_seq front)) as [L|L].
  - by replace (N.to_nat (after - N.of_nat (hi_gone a))) with 0%nat by lia.
  - unfold sat_add. destruct (N.le_gt_cases (len (front :: rest)) (after - N.of_nat (hi_gone a))) as [L'|L'].
    + rewrite !skipn_all2; [done|unfold len in *; lia|unfold len in *; lia].
    + f_equal. unfold len in *. lia.
Qed.

(** Reading by arithmetic is reading by scan. In every reachable store, the
    events after a sequence number, located without a scan, are exactly the
    first [limit] of the held events numbered above it, and for one section the
    first [limit] of those in that section. *)
Theorem since_exact capacity ops after limit section :
  N.max capacity 1 <= usize_max ->
  let r := ring_run (Ring_new capacity) ops in
  ring_since r after limit =
    firstn (N.to_nat limit) (List.filter (fun e => after <? de_seq e) (rg_events r)) /\
  section_since r section after limit =
    firstn (N.to_nat limit) (List.filter (fun e => in_section section e && (after <? de_seq e)) (rg_events r)).
Proof.
  intros Hcap r. destruct (ring_run_represents capacity ops) as [Hc Hr]. fold r in Hc, Hr.
  unfold ring_since, section_since. rewrite (offset_after_scan r _ after Hr) by (by rewrite Hc).
  split; [done|]. f_equal. clear. induction (rg_events r) as [|e l IH]; cbn; [done|].
  destruct (after <? de_seq e); cbn; [|by rewrite andb_false_r].
  rewrite andb_true_r. unfold in_section at 1. destruct (bool_decide _); [by rewrite IH|done].
Qed.

(** A reader that asks again with the newest number it has seen. *)
Fixpoint poll_all (r : Ring) (after limit : N) (fuel : nat) : list DiagnosticEvent :=
  match fuel with
  | O => []
  | S fuel =>
      let page := ring_since r after limit in
      match last page with
      | None => []
      | Some e => page ++ poll_all r (de_seq e) limit fuel
      end
  end.

Lemma numbered_skip (l : list DiagnosticEvent) base after n :
  (forall i e, l !! i = Some e -> de_seq e = base + N.of_nat i + 1) ->
  forall e, last (firstn n (skipn (N.to_nat (after - base)) l)) = Some e ->
  skipn (N.to_nat (de_seq e - base)) l = skipn n (skipn (N.to_nat (after - base)) l) /\
  (length (skipn (N.to_nat (de_seq e - base)) l) < length (skipn (N.to_nat (after - base)) l))%nat.
Proof.
  intros Hn e He. set (k := N.to_nat (after - base)) in *.
  rewrite last_lookup in He. set (m := length (firstn n (skipn k l))) in *.
  assert (pred m < m)%nat as Hm by (apply lookup_lt_Some in He; fold m in He; done).
  assert (m <= n)%nat by (subst m; rewrite length_firstn; lia).
  rewrite lookup_take_lt, lookup_drop in He by lia. apply lookup_lt_Some in He as Hlt. apply Hn in He.
  replace (N.to_nat (de_seq e - base)) with (k + m)%nat by lia. rewrite skipn_skipn, !length_skipn.
  split; [|lia]. subst m. rewrite length_firstn, length_skipn in *.
  destruct (Nat.le_gt_cases n (length l - k)) as [L|L]; [f_equal; lia|]. rewrite !skipn_all2 by lia. done.
Qed.

(** A reader that polls is told every event once. With any page size, asking
    again with the last number received until a page comes back empty yields
    exactly the held events numbered above the first request, each once and in
    order, and it takes no more polls than there are events. *)
Theorem polling_complete capacity ops after limit fuel :
  N.max capacity 1 <= usize_max -> 1 <= limit ->
  let r := ring_run (Ring_new capacity) ops in
  (length (rg_events r) <= fuel)%nat ->
  poll_all r after limit fuel = List.filter (fun e => after <? de_seq e) (rg_events r).
Proof.
  intros Hcap Hlim r Hfuel. destruct (ring_run_represents capacity ops) as [Hc Hr]. fold r in Hc, Hr.
  set (base := N.of_nat (hi_gone (history_run (N.max capacity 1) ops))).
  assert (forall i e, rg_events r !! i = Some e -> de_seq e = base + N.of_nat i + 1) as Hn by (intros i e; by apply represents_dense).
  rewrite (dense_filter _ base after Hn).
  assert (forall fuel after, (length (skipn (N.to_nat (after - base)) (rg_events r)) <= fuel)%nat ->
    poll_all r after limit fuel = skipn (N.to_nat (after - base)) (rg_events r)) as H.
  { clear fuel after Hfuel. induction fuel as [|fuel IH]; intros after Hf; cbn [poll_all].
    { symmetry. apply length_zero_iff_nil. lia. }
    unfold ring_since. rewrite (offset_after_scan r _ after Hr), (dense_filter _ base after Hn) by by rewrite Hc.
    set (rest := skipn (N.to_nat (after - base)) (rg_events r)) in *.
    destruct (last (firstn (N.to_nat limit) rest)) as [e|] eqn:El.
    - destruct (numbered_skip (rg_events r) base after (N.to_nat limit) Hn e El) as [Hs Hlt]. fold rest in Hs, Hlt.
      rewrite IH by lia. rewrite Hs. apply firstn_skipn.
    - apply last_None in El. destruct rest as [|x rest']; [done|]. destruct (N.to_nat limit) eqn:E; [lia|done]. }
  apply H. rewrite length_skipn. lia.
Qed.

(** * Safe capture *)

(** What Safe capture may keep: the shape of an event without its prose, its
    literal addresses, the names that came from outside, or a target past its
    crate. *)
Definition public_value (v : SafeValue) : SafeValue :=
  match v with
  | VText _ => VText []
  | VBridged _ => VBridged []
  | VAddress a => VAddress (mkAddressValue (av_family a) (av_transport a) None)
  | _ => v
  end.

Definition public_name (n : FieldName) : FieldName :=
  match n with NameOwned _ => NameOwned [] | NameStatic s => NameStatic s end.

Definition public_event (e : DiagnosticEvent) : DiagnosticEvent :=
  with_fields (with_target e (default [] (safe_target_root (de_target e))))
    ((fun f => (public_name f.1, public_value f.2)) <$> de_fields e) (de_fields_dropped e).

Lemma value_minimize_public mode v :
  allows_raw_addresses mode = false -> value_minimize (public_value v) mode = value_minimize v mode.
Proof.
  intros Hm. destruct v; cbn [value_minimize public_value]; unfold address_minimize; rewrite ?Hm; reflexivity.
Qed.

Lemma name_minimize_public n i : name_minimize (public_name n) i = name_minimize n i.
Proof. by destruct n. Qed.

Lemma minimize_fields_public mode fields :
  allows_raw_addresses mode = false ->
  minimize_fields mode ((fun f => (public_name f.1, public_value f.2)) <$> fields) = minimize_fields mode fields.
Proof.
  intros Hm. unfold minimize_fields. rewrite imap_fmap. apply imap_ext. intros i f _. cbn [compose fst snd].
  rewrite Hm, name_minimize_public, value_minimize_public by exact Hm. reflexivity.
Qed.

Lemma root_not_colons target : before_colons (before_colons target) = before_colons target.
Proof.
  induction target as [|c s IH]; [done|]. cbn. destruct s as [|d s']; [done|].
  destruct ((c =? 58) && (d =? 58)) eqn:E; [done|]. cbn [before_colons] in IH |- *.
  destruct s' as [|d' s''].
  - cbn. by rewrite E.
  - destruct ((d =? 58) && (d' =? 58)) eqn:E'; [done|]. cbn. rewrite E. cbn in IH. rewrite IH. done.
Qed.

Lemma safe_target_public target :
  default [] (safe_target_root (default [] (safe_target_root target))) = default [] (safe_target_root target).
Proof.
  unfold safe_target_root at 2 3. case_bool_decide as H; cbn [default from_option id]; [|done].
  unfold safe_target_root. rewrite root_not_colons. by rewrite bool_decide_eq_true_2.
Qed.

Lemma prepare_public e mode epoch :
  allows_raw_addresses mode = false -> prepare_for_capture (public_event e) mode epoch = prepare_for_capture e mode epoch.
Proof.
  intros Hm. unfold prepare_for_capture, public_event, with_fields, with_target.
  cbn [de_seq de_at_ms de_monotonic_ms de_section de_level de_code de_phase de_operation de_trace de_span de_parent_span
    de_refs de_duration_ms de_attempt de_target de_fields de_fields_dropped].
  rewrite Hm, safe_target_public, minimize_fields_public by exact Hm. reflexivity.
Qed.

Lemma hub_record_public h at_ms mono e :
  allows_raw_addresses (cc_mode (hb_config h)) = false -> hub_record h at_ms mono (public_event e) = hub_record h at_ms mono e.
Proof.
  intros Hm. unfold hub_record. cbn [public_event with_fields with_target de_section de_level].
  destruct (negb _); [done|]. destruct (negb _); [done|].
  change (set_clocks (public_event e) at_ms (mono - hb_origin_ms h)) with (public_event (set_clocks e at_ms (mono - hb_origin_ms h))).
  by rewrite prepare_public.
Qed.

(** Two runs of a hub that differ only in what Safe capture must not keep. *)
Inductive low_equivalent : Hub -> list HubOp -> list HubOp -> Prop :=
| low_nil h : low_equivalent h [] []
| low_same h op l k : low_equivalent (hub_apply h op) l k -> low_equivalent h (op :: l) (op :: k)
| low_record h at_ms mono e e' l k :
    allows_raw_addresses (cc_mode (hb_config h)) = false -> public_event e = public_event e' ->
    low_equivalent (hub_apply h (OpRecord at_ms mono e)) l k ->
    low_equivalent h (OpRecord at_ms mono e :: l) (OpRecord at_ms mono e' :: k).

(** C36: what is removed under Safe capture is removed for good. If two runs differ only
    in the prose, literal addresses, outside field names and target suffixes
    of events recorded while the mode did not allow raw addresses, the hub ends
    in the same state, so no later mode, read, rendering or export can tell
    them apart. *)
Theorem safe_capture_irreversible h ops ops' :
  low_equivalent h ops ops' -> hub_run h ops = hub_run h ops'.
Proof.
  induction 1 as [h|h op l k _ IH|h at_ms mono e e' l k Hm He _ IH]; [done|exact IH|].
  cbn [hub_run foldl hub_apply] in *. rewrite <- (hub_record_public h at_ms mono e') by done. rewrite <- He.
  by rewrite (hub_record_public h at_ms mono e).
Qed.

(** * Bounded events, honest names *)

Lemma event_field_fold fields : forall e,
  len (de_fields e) <= MAX_FIELDS -> de_fields_dropped e <= u32_max ->
  let e' := foldl (fun e f => event_field e f.1 f.2) e fields in
  de_fields e' = firstn (N.to_nat MAX_FIELDS) (de_fields e ++ fields) /\
  de_fields_dropped e' = N.min u32_max (de_fields_dropped e + (len (de_fields e) + len fields - MAX_FIELDS)).
Proof.
  induction fields as [|f fields IH]; intros e Hl Hd e'; subst e'.
  { rewrite len_nil, app_nil_r. split; [|cbn [foldl]; lia]. rewrite firstn_all2; [done|]. unfold len in Hl. lia. }
  cbn [foldl]. unfold event_field at 2 4. destruct (N.ltb_spec (len (de_fields e)) MAX_FIELDS) as [L|L].
  - destruct (IH (with_fields e (de_fields e ++ [(f.1, f.2)]) (de_fields_dropped e))) as [H1 H2];
      cbn [with_fields de_fields de_fields_dropped]; [rewrite len_app; change (len [_]) with 1; lia|done|].
    cbn [with_fields de_fields de_fields_dropped] in H1, H2. rewrite H1, H2. split; [rewrite <- app_assoc; by destruct f|].
    rewrite len_app, (len_cons f fields). change (len [(f.1, f.2)]) with 1. f_equal. lia.
  - destruct (IH (with_fields e (de_fields e) (sat_add u32_max (de_fields_dropped e) 1))) as [H1 H2];
      cbn [with_fields de_fields de_fields_dropped]; [done|unfold sat_add; lia|].
    cbn [with_fields de_fields de_fields_dropped] in H1, H2. rewrite H1, H2. split.
    + rewrite !firstn_app. unfold len in L, Hl. replace (N.to_nat MAX_FIELDS - length (de_fields e))%nat with 0%nat by lia. done.
    + rewrite len_cons. unfold sat_add. lia.
Qed.

(** An event cannot be grown without bound, and admits what it refused. However
    many fields a producer adds, the event keeps the first 32 in order and
    counts every other one, up to the largest [u32]. *)
Theorem event_fields_bounded section level code fields :
  let e := foldl (fun e f => event_field e f.1 f.2) (event_new section level code) fields in
  de_fields e = firstn (N.to_nat MAX_FIELDS) fields /\
  de_fields_dropped e = N.min u32_max (len fields - MAX_FIELDS).
Proof.
  destruct (event_field_fold fields (event_new section level code)) as [H1 H2]; [done|done|].
  split; [exact H1|]. exact H2.
Qed.

Lemma utf8_width_pos c : 1 <= utf8_width c.
Proof. unfold utf8_width. destruct (c <? 128), (c <? 2048), (c <? 65536); lia. Qed.

Lemma str_len_chars s : len s <= str_len s.
Proof.
  induction s as [|c s IH]; [done|]. unfold str_len in *. cbn [sum_of]. rewrite len_cons. pose proof (utf8_width_pos c). lia.
Qed.

(** A field name from outside can neither forge a field nor grow: it keeps at most
    64 characters, none of them an equals sign, whitespace or a control
    character, and a name that was short and clean already is kept as it was. *)
Theorem field_name_honest name :
  let kept := field_name_str (field_name_from name) in
  (length kept <= MAX_FIELD_NAME)%nat /\ Forall (fun c => forges_structure c = false) kept /\
  (str_len name <= N.of_nat MAX_FIELD_NAME -> Forall (fun c => forges_structure c = false) name -> kept = name).
Proof.
  intros kept. subst kept. unfold field_name_from.
  destruct ((str_len name <=? N.of_nat MAX_FIELD_NAME) && negb (existsb forges_structure name)) eqn:E; cbn [field_name_str].
  - apply andb_true_iff in E as [Hl%N.leb_le Hf%negb_true_iff]. pose proof (str_len_chars name) as Hc. unfold len in Hc.
    split; [lia|]. split; [by apply existsb_false_Forall|done].
  - split; [rewrite length_firstn; lia|]. split.
    + apply Forall_take, Forall_fmap, Forall_true. intros c. cbn. by destruct (forges_structure c) eqn:Ec.
    + intros Hl Hf. apply existsb_false_Forall in Hf. apply N.leb_le in Hl. by rewrite Hl, Hf in E.
Qed.

(** * Traces from outside *)

Lemma lor_fold_zero (l : list (byte * byte)) : forall acc,
  foldl (fun d e => N.lor d (N.lxor (b2n e.1) (b2n e.2))) acc l = 0 <-> acc = 0 /\ Forall (fun e => e.1 = e.2) l.
Proof.
  induction l as [|[a b] l IH]; intros acc; cbn [foldl]; [split; [by intros ->|by intros [-> _]]|].
  rewrite IH, N.lor_eq_0_iff, N.lxor_eq_0_iff, Forall_cons. cbn. split.
  - intros [[-> H%b2n_inj] Hf]. done.
  - intros (-> & -> & Hf). done.
Qed.

Lemma zip_all_eq (l k : list byte) : length l = length k -> Forall (fun e => e.1 = e.2) (zip l k) <-> l = k.
Proof.
  revert k. induction l as [|a l IH]; intros [|b k] Hl; try done. cbn. rewrite Forall_cons, IH by (cbn in Hl; lia). cbn.
  split; [by intros [-> ->]|by intros [= -> ->]].
Qed.

(** A trace crosses the untrusted boundary only with its own proof: with 32-byte
    digests, a proof is accepted exactly when it is the 16 bytes this session
    derives for that trace, whatever its length or contents. *)
Theorem trace_proof_exact keyed_hash salt trace proof :
  (forall k m, length (keyed_hash k m) = 32%nat) ->
  verifies_trace_proof keyed_hash salt trace proof = true <-> proof = trace_proof keyed_hash salt trace.
Proof.
  intros Hlen. assert (length (trace_proof keyed_hash salt trace) = 16%nat) as Hp.
  { unfold trace_proof. rewrite length_firstn, Hlen. done. }
  unfold verifies_trace_proof. destruct (N.eqb_spec (len proof) 16) as [E|E]; cbn [negb].
  - rewrite N.eqb_eq, lor_fold_zero, zip_all_eq by (unfold len in E; lia). split; [by intros [_ ->]|by intros ->].
  - split; [done|]. intros ->. destruct E. unfold len. by rewrite Hp.
Qed.

(** An outside trace never becomes "no trace", and is never kept as it came but
    in one case: a digest of zeros for the trace that is the mask itself. *)
Lemma external_trace_reduces keyed_hash salt raw :
  external_trace keyed_hash salt raw <> 0 /\
  (external_trace keyed_hash salt raw = raw -> raw = TRACE_MASK).
Proof.
  unfold external_trace. set (d := be_val _). destruct (N.eqb_spec d 0) as [->|H0]; cbn [orb].
  - rewrite N.lxor_0_l. split; [done|]. cbn. congruence.
  - destruct (N.eqb_spec d raw) as [->|Hr]; [|done].
    destruct (N.eqb_spec (N.lxor raw TRACE_MASK) 0) as [E|E].
    + apply N.lxor_eq in E. split; [done|]. intros _. exact E.
    + split; [done|]. intros Hx. apply (f_equal (N.lxor raw)) in Hx.
      by rewrite <- N.lxor_assoc, N.lxor_nilpotent, N.lxor_0_l in Hx.
Qed.

(** The exception: the value that came in is kept. *)
Lemma external_trace_can_echo :
  external_trace (fun _ _ => replicate 32 x00) [] TRACE_MASK = TRACE_MASK.
Proof. vm_compute. reflexivity. Qed.

(** * The theorems at work *)

(** Four events over three sections, one of them forgotten, in a store of two. *)
Definition sample_event (section : DiagSection) (level : Level) (secret : String.string) : DiagnosticEvent :=
  event_target (event_field (event_new section level (lit "peer.dial")) (field_name_from (lit secret)) (VText (describe (lit secret))))
    (lit "catcoms_net" ++ lit "::" ++ lit secret).
Arguments sample_event _ _ _%_string_scope.

Definition sample_ops : list RingOp :=
  [RPush (sample_event SecSync LError "a"); RClear; RPush (sample_event SecFiles LWarn "b");
   RPush (sample_event SecSync LInfo "c"); RPush (sample_event SecFiles LError "d")].

Lemma sample_ring :
  map de_seq (rg_events (ring_run (Ring_new 2) sample_ops)) = [3; 4] /\
  rg_stats (ring_run (Ring_new 2) sample_ops) = mkRingStats 2 1 1 0 4.
Proof. vm_compute. auto. Qed.

Lemma since_exact_witness :
  ring_since (ring_run (Ring_new 2) sample_ops) 3 8 =
  firstn (N.to_nat 8) (List.filter (fun e => 3 <? de_seq e) (rg_events (ring_run (Ring_new 2) sample_ops))).
Proof. apply (since_exact 2 sample_ops 3 8 SecFiles). vm_compute. discriminate. Defined.

Lemma polling_complete_witness :
  poll_all (ring_run (Ring_new 2) sample_ops) 0 1 2 =
  List.filter (fun e => 0 <? de_seq e) (rg_events (ring_run (Ring_new 2) sample_ops)).
Proof.
  apply (polling_complete 2 sample_ops 0 1 2); [vm_compute; discriminate|vm_compute; discriminate|].
  apply Nat.leb_le. vm_compute. reflexivity.
Defined.

(** A secret recorded under Safe capture is not there to be read once the mode is
    raised; the same secret recorded after the change is. *)
Definition secret_run (early late : String.string) : list HubOp :=
  [OpRecord 5 7 (sample_event SecFiles LWarn early); OpSetMode ModeFull; OpRecord 6 8 (sample_event SecFiles LWarn late)].
Arguments secret_run _%_string_scope _%_string_scope.

Lemma secret_run_public : public_event (sample_event SecFiles LWarn "hunter2") = public_event (sample_event SecFiles LWarn "s3cret").
Proof. vm_compute. reflexivity. Qed.

Lemma secret_run_sees_late :
  hub_run (hub_with_capacity ModeSafe 4 0) (secret_run "a" "b") <> hub_run (hub_with_capacity ModeSafe 4 0) (secret_run "a" "c").
Proof. vm_compute. discriminate. Qed.

Lemma safe_capture_irreversible_witness :
  hub_run (hub_with_capacity ModeSafe 4 0) (secret_run "hunter2" "b") =
  hub_run (hub_with_capacity ModeSafe 4 0) (secret_run "s3cret" "b").
Proof.
  apply safe_capture_irreversible. unfold secret_run. apply low_record; [reflexivity|exact secret_run_public|].
  apply low_same, low_same, low_nil.
Defined.

Lemma trace_proof_exact_witness :
  verifies_trace_proof (fun _ m => replicate 32 (default x00 (last m))) [] 5 (replicate 16 x05) = true.
Proof.
  apply trace_proof_exact; [intros k m; apply length_replicate|]. vm_compute. reflexivity.
Defined.
