(* ===== verification/Budget.v ===== *)
(** The storage admission of [crates/catcoms-app/src/store/epoch_budget.rs]: the
    accounting of one server's managed files, its pools and their ceilings, the
    reservation a write holds while it touches the disk, and the reconciliation
    that follows an uncertain one.

    A reservation borrows the budget exclusively, so nothing else happens to the
    budget between [reserve] and what becomes of the guard: it is committed,
    cancelled before any write, or dropped or leaked. Identifiers are byte
    strings; counters are [u64].

    The disk is kept apart from the budget ([World]): the managed files and the
    temporary files failed writes left behind. What a process does to it under a
    guard, and what an inventory of it must list, is [world_step]. *)

From S2P Require Import Prelude OrdMap.
From stdpp Require Import base list relations.
From Stdlib Require Import Init.Byte.
Local Open Scope N_scope.

(** * Data *)

Definition MAX_STORAGE_BYTES : N := 2 * 1024 * 1024 * 1024.
Definition SETTLEMENT_RESERVE_BYTES : N := 48 * 1024 * 1024.
Definition PROTOCOL_ALLOWANCE_BYTES : N := 16 * 1024 * 1024.
Definition CONTENT_ALLOWANCE_BYTES : N := MAX_STORAGE_BYTES - SETTLEMENT_RESERVE_BYTES - PROTOCOL_ALLOWANCE_BYTES.
Definition MAX_ACCOUNTED_RECORDS : N := 65536.

Inductive BudgetError : Type :=
| WrongScope | NeedsReconcile | LimitReached | RecordLimit | InventoryMismatch | SettlementBusy.

Record StorageScope := mkStorageScope { sp_server : N; sp_group : bytes }.

#[global] Instance StorageScope_eq_dec : EqDecision StorageScope.
Proof. solve_decision. Defined.

Definition StorageScope_new (server : N) (group : bytes) : result BudgetError StorageScope :=
  if (len group =? 0) || (256 <? len group) then Err WrongScope else Ok (mkStorageScope server group).

Record Footprint := mkFootprint { fp_content : N; fp_protocol : N; fp_settlement : N }.

#[global] Instance Footprint_eq_dec : EqDecision Footprint.
Proof. solve_decision. Defined.

Definition no_footprint : Footprint := mkFootprint 0 0 0.

Definition fp_total (f : Footprint) : result BudgetError N :=
  ok_or (v ← checked_add u64_max (fp_content f) (fp_protocol f); checked_add u64_max v (fp_settlement f)) LimitReached.

Definition fp_plus (a b : Footprint) : result BudgetError Footprint :=
  content ← ok_or (checked_add u64_max (fp_content a) (fp_content b)) LimitReached;
  protocol ← ok_or (checked_add u64_max (fp_protocol a) (fp_protocol b)) LimitReached;
  settlement ← ok_or (checked_add u64_max (fp_settlement a) (fp_settlement b)) LimitReached;
  Ok (mkFootprint content protocol settlement).

(** [-] on [u64], with its wrap-around; the budget's invariant keeps it from happening. *)
Definition wrapping_sub (a b : N) : N := (a + (u64_max + 1) - b) mod (u64_max + 1).

Definition fp_minus (a b : Footprint) : Footprint :=
  mkFootprint (wrapping_sub (fp_content a) (fp_content b)) (wrapping_sub (fp_protocol a) (fp_protocol b))
    (wrapping_sub (fp_settlement a) (fp_settlement b)).

Definition fp_check (f : Footprint) : result BudgetError unit :=
  if (CONTENT_ALLOWANCE_BYTES <? fp_content f) || (PROTOCOL_ALLOWANCE_BYTES <? fp_protocol f)
     || (SETTLEMENT_RESERVE_BYTES <? fp_settlement f)
  then Err LimitReached
  else
    t ← fp_total f;
    refuse_if (MAX_STORAGE_BYTES <? t) LimitReached.

Record StorageRecord := mkStorageRecord { rec_id : bytes; rec_document : bytes; rec_footprint : Footprint }.

#[global] Instance StorageRecord_eq_dec : EqDecision StorageRecord.
Proof. solve_decision. Defined.

Inductive WritePurpose : Type := Ordinary | Settlement.

Record Replacement := mkReplacement { rpl_record : StorageRecord; rpl_scratch : N; rpl_purpose : WritePurpose }.

Record EpochStorageBudget := mkBudget {
  bg_scope : StorageScope;
  bg_records : bmap bytes StorageRecord;
  bg_usage : Footprint;
  bg_pinned : option bytes;
  bg_ready : bool
}.

Record StorageReservation := mkReservation { rsv_record : StorageRecord; rsv_final_usage : Footprint }.

(** * Operations *)

Definition set_ready (ready : bool) (b : EpochStorageBudget) : EpochStorageBudget :=
  mkBudget (bg_scope b) (bg_records b) (bg_usage b) (bg_pinned b) ready.

Definition pinned_elsewhere (pinned : option bytes) (document : bytes) : bool :=
  match pinned with Some doc => negb (bool_decide (doc = document)) | None => false end.

Definition account (b : EpochStorageBudget) (r : StorageRecord) : result BudgetError EpochStorageBudget :=
  _ ← refuse_if (len (bg_records b) =? MAX_ACCOUNTED_RECORDS) RecordLimit;
  _ ← refuse_if (om_has (rec_id r) (bg_records b)) InventoryMismatch;
  let settles := negb (fp_settlement (rec_footprint r) =? 0) in
  _ ← refuse_if (settles && pinned_elsewhere (bg_pinned b) (rec_document r)) SettlementBusy;
  let pinned := if settles then Some (rec_document r) else bg_pinned b in
  usage ← fp_plus (bg_usage b) (rec_footprint r);
  _ ← fp_check usage;
  Ok (mkBudget (bg_scope b) (om_insert (rec_id r) r (bg_records b)) usage pinned (bg_ready b)).

Fixpoint account_all (b : EpochStorageBudget) (records : list StorageRecord) : result BudgetError EpochStorageBudget :=
  match records with
  | [] => Ok b
  | r :: rest => b ← account b r; account_all b rest
  end.

Definition empty_budget (scope : StorageScope) : EpochStorageBudget := mkBudget scope [] no_footprint None true.

Definition from_inventory (scope : StorageScope) (records : list StorageRecord) : result BudgetError EpochStorageBudget :=
  account_all (empty_budget scope) records.

Definition reconcile (b : EpochStorageBudget) (scope : StorageScope) (records : list StorageRecord)
    : result BudgetError unit * EpochStorageBudget :=
  let b := set_ready false b in
  if negb (bool_decide (bg_scope b = scope)) then (Err WrongScope, b)
  else match from_inventory scope records with
       | Ok next => (Ok tt, next)
       | Err e => (Err e, b)
       end.

Definition invalidate (b : EpochStorageBudget) : EpochStorageBudget := set_ready false b.

Definition verify_record (b : EpochStorageBudget) (scope : StorageScope) (id : bytes) (observed : option StorageRecord)
    : result BudgetError unit * EpochStorageBudget :=
  if negb (bg_ready b) then (Err NeedsReconcile, b)
  else if negb (bool_decide (bg_scope b = scope)) then (Err WrongScope, b)
  else if match observed with Some r => negb (bool_decide (rec_id r = id)) | None => false end
          || negb (bool_decide (om_get id (bg_records b) = observed))
  then (Err InventoryMismatch, set_ready false b)
  else (Ok tt, b).

(** The checks of [reserve], before it closes the budget and hands out the guard. *)
Definition reserve_check (b : EpochStorageBudget) (scope : StorageScope) (w : Replacement)
    : result BudgetError StorageReservation :=
  let r := rpl_record w in
  _ ← refuse_if (negb (bg_ready b)) NeedsReconcile;
  _ ← refuse_if (negb (bool_decide (bg_scope b = scope))) WrongScope;
  t ← fp_total (rec_footprint r);
  _ ← refuse_if (t =? 0) InventoryMismatch;
  let old := om_get (rec_id r) (bg_records b) in
  _ ← refuse_if match old with Some o => negb (bool_decide (rec_document o = rec_document r)) | None => false end
        InventoryMismatch;
  _ ← refuse_if (negb (bool_decide (is_Some old)) && (len (bg_records b) =? MAX_ACCOUNTED_RECORDS)) RecordLimit;
  let old_footprint := match old with Some o => rec_footprint o | None => no_footprint end in
  final_usage ← fp_plus (fp_minus (bg_usage b) old_footprint) (rec_footprint r);
  _ ← fp_check final_usage;
  _ ← match rpl_purpose w with
      | Ordinary =>
          _ ← refuse_if (negb (fp_settlement (rec_footprint r) =? 0)
                         || match old with Some o => negb (fp_settlement (rec_footprint o) =? 0) | None => false end)
                SettlementBusy;
          peak ← fp_plus (bg_usage b) (rec_footprint r);
          peak ← fp_plus peak (mkFootprint (rpl_scratch w) 0 0);
          fp_check peak
      | Settlement =>
          _ ← refuse_if (pinned_elsewhere (bg_pinned b) (rec_document r)) SettlementBusy;
          t ← fp_total (rec_footprint r);
          peak ← ok_or (v ← checked_add u64_max (fp_settlement (bg_usage b)) t; checked_add u64_max v (rpl_scratch w))
                   LimitReached;
          refuse_if (SETTLEMENT_RESERVE_BYTES <? peak) LimitReached
      end;
  Ok (mkReservation r final_usage).

Definition budget_reserve (b : EpochStorageBudget) (scope : StorageScope) (w : Replacement)
    : result BudgetError StorageReservation * EpochStorageBudget :=
  match reserve_check b scope w with
  | Ok guard => (Ok guard, set_ready false b)
  | Err e => (Err e, b)
  end.

Definition reserve_sync (b : EpochStorageBudget) (scope : StorageScope) (r : StorageRecord)
    : result BudgetError StorageReservation * EpochStorageBudget :=
  match verify_record b scope (rec_id r) (Some r) with
  | (Ok _, b) => (Ok (mkReservation r (bg_usage b)), set_ready false b)
  | (Err e, b) => (Err e, b)
  end.

Definition settling (r : StorageRecord) : bool := negb (fp_settlement (rec_footprint r) =? 0).

Definition first_settling (records : bmap bytes StorageRecord) : option bytes :=
  rec_document <$> List.find settling (om_values records).

Definition commit (guard : StorageReservation) (b : EpochStorageBudget) : EpochStorageBudget :=
  let records := om_insert (rec_id (rsv_record guard)) (rsv_record guard) (bg_records b) in
  mkBudget (bg_scope b) records (rsv_final_usage guard) (first_settling records) true.

Definition cancel_before_write (b : EpochStorageBudget) : EpochStorageBudget := set_ready true b.

Fixpoint preflight_loop (b : EpochStorageBudget) (scope : StorageScope) (steps : list Replacement) : result BudgetError unit :=
  match steps with
  | [] => Ok tt
  | w :: rest =>
      match budget_reserve b scope w with
      | (Ok guard, b) => preflight_loop (commit guard b) scope rest
      | (Err e, _) => Err e
      end
  end.

Definition preflight_sequence (b : EpochStorageBudget) (scope : StorageScope) (steps : list Replacement)
    : result BudgetError unit := preflight_loop b scope steps.

(** * Footprints *)

Definition fp_bytes (f : Footprint) : N := fp_content f + fp_protocol f + fp_settlement f.

Definition fp_add (a b : Footprint) : Footprint :=
  mkFootprint (fp_content a + fp_content b) (fp_protocol a + fp_protocol b) (fp_settlement a + fp_settlement b).

(** Every pool within its ceiling; the ceilings add up to the total. *)
Record pools_within (f : Footprint) : Prop := mkWithin {
  wi_content : fp_content f <= CONTENT_ALLOWANCE_BYTES;
  wi_protocol : fp_protocol f <= PROTOCOL_ALLOWANCE_BYTES;
  wi_settlement : fp_settlement f <= SETTLEMENT_RESERVE_BYTES
}.

Definition fits (f : Footprint) : Prop :=
  fp_content f <= u64_max /\ fp_protocol f <= u64_max /\ fp_settlement f <= u64_max.

Ltac sizes := unfold CONTENT_ALLOWANCE_BYTES, MAX_STORAGE_BYTES, SETTLEMENT_RESERVE_BYTES, PROTOCOL_ALLOWANCE_BYTES,
  MAX_ACCOUNTED_RECORDS, u64_max in *.

Lemma fp_ext a b :
  fp_content a = fp_content b -> fp_protocol a = fp_protocol b -> fp_settlement a = fp_settlement b -> a = b.
Proof. destruct a, b. cbn. by intros -> -> ->. Qed.

Lemma fp_add_cancel a b c : fp_add a c = fp_add b c -> a = b.
Proof.
  intros H. pose proof (f_equal fp_content H) as H1. pose proof (f_equal fp_protocol H) as H2.
  pose proof (f_equal fp_settlement H) as H3. cbn in H1, H2, H3. apply fp_ext; lia.
Qed.

Lemma fp_total_ok f t : fp_total f = Ok t <-> t = fp_bytes f /\ fp_bytes f <= u64_max.
Proof.
  unfold fp_total, fp_bytes. destruct (checked_add u64_max (fp_content f) (fp_protocol f)) as [v|] eqn:E; cbn [mbind option_bind].
  - apply checked_add_iff in E as [-> _]. destruct (checked_add u64_max _ (fp_settlement f)) as [w|] eqn:E; cbn [ok_or].
    + apply checked_add_iff in E as [-> H]. split; [by intros [= <-]|by intros [-> _]].
    + split; [done|]. intros [_ H]. by rewrite (proj2 (checked_add_iff _ _ _ _) (conj eq_refl H)) in E.
  - split; [done|]. intros [_ H]. assert (fp_content f + fp_protocol f <= u64_max) as H' by lia.
    by rewrite (proj2 (checked_add_iff _ _ _ _) (conj eq_refl H')) in E.
Qed.

Lemma checked_ok {E} max a b (e : E) n : ok_or (checked_add max a b) e = Ok n <-> n = a + b /\ a + b <= max.
Proof.
  rewrite <- checked_add_iff. destruct (checked_add max a b); cbn [ok_or]; split; congruence.
Qed.

Lemma fp_plus_ok a b c : fp_plus a b = Ok c <-> c = fp_add a b /\ fits (fp_add a b).
Proof.
  unfold fp_plus, fits. cbn [fp_add fp_content fp_protocol fp_settlement]. split.
  - intros H. apply bind_ok in H as (x & Hx%checked_ok & H). apply bind_ok in H as (y & Hy%checked_ok & H).
    apply bind_ok in H as (z & Hz%checked_ok & H). destruct Hx as [-> ?], Hy as [-> ?], Hz as [-> ?].
    injection H as <-. done.
  - intros (-> & Hx & Hy & Hz).
    rewrite (proj2 (checked_ok _ _ _ LimitReached _) (conj eq_refl Hx)), bind_Ok.
    rewrite (proj2 (checked_ok _ _ _ LimitReached _) (conj eq_refl Hy)), bind_Ok.
    by rewrite (proj2 (checked_ok _ _ _ LimitReached _) (conj eq_refl Hz)).
Qed.

Lemma fp_check_ok f u : fp_check f = Ok u <-> pools_within f.
Proof.
  unfold fp_check. destruct (N.ltb_spec CONTENT_ALLOWANCE_BYTES (fp_content f)); cbn [orb].
  { split; [done|]. intros []. lia. }
  destruct (N.ltb_spec PROTOCOL_ALLOWANCE_BYTES (fp_protocol f)); cbn [orb].
  { split; [done|]. intros []. lia. }
  destruct (N.ltb_spec SETTLEMENT_RESERVE_BYTES (fp_settlement f)).
  { split; [done|]. intros []. lia. }
  destruct u. split; [done|]. intros _.
  rewrite (proj2 (fp_total_ok f (fp_bytes f))) by (split; [done|]; unfold fp_bytes; sizes; lia). rewrite bind_Ok.
  destruct (N.ltb_spec MAX_STORAGE_BYTES (fp_bytes f)); [|done]. exfalso. unfold fp_bytes in *. sizes. lia.
Qed.

Lemma within_bytes f : pools_within f -> fp_bytes f <= MAX_STORAGE_BYTES.
Proof. intros []. unfold fp_bytes. sizes. lia. Qed.

Lemma wrapping_sub_exact a b : b <= a -> a <= u64_max -> wrapping_sub a b = a - b.
Proof.
  intros Hb Ha. unfold wrapping_sub. replace (a + (u64_max + 1) - b) with (a - b + 1 * (u64_max + 1)) by lia.
  rewrite N.Div0.mod_add, N.mod_small; lia.
Qed.

Definition footprint_sum (l : list StorageRecord) : Footprint :=
  mkFootprint (sum_of (fun r => fp_content (rec_footprint r)) l) (sum_of (fun r => fp_protocol (rec_footprint r)) l)
    (sum_of (fun r => fp_settlement (rec_footprint r)) l).

(** * The invariant *)

Record budget_ok (b : EpochStorageBudget) : Prop := mkBudgetOk {
  bo_wf : om_wf (bg_records b);
  bo_ids : forall k r, om_get k (bg_records b) = Some r -> rec_id r = k;
  bo_usage : bg_usage b = footprint_sum (om_values (bg_records b));
  bo_within : pools_within (bg_usage b);
  bo_count : len (bg_records b) <= MAX_ACCOUNTED_RECORDS;
  bo_settling : forall k r, om_get k (bg_records b) = Some r -> settling r = true -> bg_pinned b = Some (rec_document r);
  bo_pinned : forall d, bg_pinned b = Some d ->
    exists k r, om_get k (bg_records b) = Some r /\ settling r = true /\ rec_document r = d
}.

Lemma footprint_sum_insert k r (m : bmap bytes StorageRecord) :
  fp_add (footprint_sum (om_values (om_insert k r m))) (from_option rec_footprint no_footprint (om_get k m)) =
  fp_add (footprint_sum (om_values m)) (rec_footprint r).
Proof.
  apply fp_ext; cbn [fp_add footprint_sum fp_content fp_protocol fp_settlement];
    [pose proof (om_sum_insert (fun r => fp_content (rec_footprint r)) k r m) as H
    |pose proof (om_sum_insert (fun r => fp_protocol (rec_footprint r)) k r m) as H
    |pose proof (om_sum_insert (fun r => fp_settlement (rec_footprint r)) k r m) as H]; by destruct (om_get k m).
Qed.

(** An accounted record is inside the usage, so subtracting it is exact. *)
Lemma footprint_sum_member k r (m : bmap bytes StorageRecord) :
  om_get k m = Some r ->
  let s := footprint_sum (om_values m) in
  fp_content (rec_footprint r) <= fp_content s /\ fp_protocol (rec_footprint r) <= fp_protocol s /\
  fp_settlement (rec_footprint r) <= fp_settlement s.
Proof.
  intros Hk s.
  pose proof (om_sum_remove (fun r => fp_content (rec_footprint r)) k m) as H1.
  pose proof (om_sum_remove (fun r => fp_protocol (rec_footprint r)) k m) as H2.
  pose proof (om_sum_remove (fun r => fp_settlement (rec_footprint r)) k m) as H3.
  rewrite Hk in H1, H2, H3. cbn in H1, H2, H3 |- *. lia.
Qed.

Lemma set_ready_ok ready b : budget_ok b -> budget_ok (set_ready ready b).
Proof. intros []. by constructor. Qed.

Lemma empty_budget_ok scope : budget_ok (empty_budget scope).
Proof. constructor; cbn; try done. apply om_wf_nil. Qed.

Lemma account_inv b r b' :
  account b r = Ok b' ->
  len (bg_records b) <> MAX_ACCOUNTED_RECORDS /\ om_get (rec_id r) (bg_records b) = None /\
  (settling r = true -> pinned_elsewhere (bg_pinned b) (rec_document r) = false) /\
  pools_within (fp_add (bg_usage b) (rec_footprint r)) /\
  b' = mkBudget (bg_scope b) (om_insert (rec_id r) r (bg_records b)) (fp_add (bg_usage b) (rec_footprint r))
         (if settling r then Some (rec_document r) else bg_pinned b) (bg_ready b).
Proof.
  unfold account. intros H. apply refuse_if_bind_ok in H as [Hl%N.eqb_neq H]. apply refuse_if_bind_ok in H as [Hh H].
  apply refuse_if_bind_ok in H as [Hp H]. apply bind_ok in H as (u & [-> Hu]%fp_plus_ok & H).
  apply bind_ok in H as (x & Hw%fp_check_ok & H). injection H as <-. unfold om_has in Hh.
  destruct (om_get _ _) eqn:E; [done|]. split; [done|]. split; [done|]. split; [|done].
  unfold settling. intros Hs. by rewrite Hs in Hp.
Qed.

Lemma account_Ok b r :
  len (bg_records b) <> MAX_ACCOUNTED_RECORDS -> om_get (rec_id r) (bg_records b) = None ->
  (settling r = true -> pinned_elsewhere (bg_pinned b) (rec_document r) = false) ->
  pools_within (fp_add (bg_usage b) (rec_footprint r)) ->
  account b r = Ok (mkBudget (bg_scope b) (om_insert (rec_id r) r (bg_records b)) (fp_add (bg_usage b) (rec_footprint r))
         (if settling r then Some (rec_document r) else bg_pinned b) (bg_ready b)).
Proof.
  intros Hl Hg Hp Hw. unfold account. apply N.eqb_neq in Hl. rewrite Hl. unfold om_has. rewrite Hg.
  fold (settling r). replace (settling r && pinned_elsewhere (bg_pinned b) (rec_document r)) with false
    by (destruct (settling r); [by rewrite Hp|done]).
  rewrite !(refuse_if_bind_false _ _ _ eq_refl).
  assert (fits (fp_add (bg_usage b) (rec_footprint r))) as Hf by (destruct Hw; unfold fits; sizes; lia).
  rewrite (proj2 (fp_plus_ok _ _ _) (conj eq_refl Hf)), bind_Ok.
  by rewrite (proj2 (fp_check_ok _ tt) Hw), bind_Ok.
Qed.

Lemma pinned_elsewhere_false pinned d : pinned_elsewhere pinned d = false <-> pinned = None \/ pinned = Some d.
Proof.
  unfold pinned_elsewhere. destruct pinned as [x|]; [|by split; [left|]].
  case_bool_decide as E; cbn; split; try done; [by right; subst|intros [?|?]; congruence].
Qed.

Lemma get_insert (k k' : bytes) (r : StorageRecord) m :
  om_get k' (om_insert k r m) = if decide (k' = k) then Some r else om_get k' m.
Proof. case_decide as E; [subst; apply om_get_insert_eq|by apply om_get_insert_ne]. Qed.

Lemma account_ok b r b' : budget_ok b -> account b r = Ok b' -> budget_ok b'.
Proof.
  intros [Hwf Hid Hu Hw Hc Hs Hp] (Hl & Hg & Hpe & Hwi & ->)%account_inv.
  constructor; cbn [bg_records bg_usage bg_pinned].
  - by apply om_wf_insert.
  - intros k x. rewrite get_insert. case_decide as E; [by intros [= <-]|apply Hid].
  - pose proof (footprint_sum_insert (rec_id r) r (bg_records b)) as H. rewrite Hg in H. cbn [from_option] in H.
    rewrite Hu, <- H. apply fp_ext; cbn; lia.
  - done.
  - rewrite om_insert_len_new by done. lia.
  - intros k x. rewrite get_insert. case_decide as E; [by intros [= <-] ->|].
    intros Hk Hx. specialize (Hs k x Hk Hx). destruct (settling r) eqn:Er; [|done].
    destruct (proj1 (pinned_elsewhere_false _ _) (Hpe eq_refl)); congruence.
  - intros d. destruct (settling r) eqn:Er.
    + intros [= <-]. exists (rec_id r), r. by rewrite om_get_insert_eq.
    + intros (k & x & Hk & Hx)%Hp. exists k, x. rewrite get_insert. case_decide as E; [congruence|done].
Qed.

Lemma account_all_ok records : forall b b', budget_ok b -> account_all b records = Ok b' -> budget_ok b'.
Proof.
  induction records as [|r records IH]; intros b b' Hb H; cbn in H; [by injection H as <-|].
  apply bind_ok in H as (b1 & H1 & H). by eapply IH; [eapply account_ok|].
Qed.

Lemma account_all_frame records : forall b b',
  account_all b records = Ok b' ->
  bg_scope b' = bg_scope b /\ bg_ready b' = bg_ready b /\ bg_usage b' = fp_add (bg_usage b) (footprint_sum records).
Proof.
  induction records as [|r records IH]; intros b b' H; cbn in H.
  { injection H as <-. split; [done|]. split; [done|]. apply fp_ext; cbn; lia. }
  apply bind_ok in H as (b1 & (_ & _ & _ & _ & ->)%account_inv & H). apply IH in H as (-> & -> & ->). cbn [bg_scope bg_ready bg_usage].
  split; [done|]. split; [done|]. apply fp_ext; cbn; lia.
Qed.

Lemma from_inventory_inv scope records b :
  from_inventory scope records = Ok b ->
  budget_ok b /\ bg_scope b = scope /\ bg_ready b = true /\ bg_usage b = footprint_sum records.
Proof.
  unfold from_inventory. intros H. split; [eapply account_all_ok; [apply empty_budget_ok|done]|].
  apply account_all_frame in H as (-> & -> & ->). split; [done|]. split; [done|]. by apply fp_ext.
Qed.

(** * Reserving and committing *)

Definition old_footprint (b : EpochStorageBudget) (r : StorageRecord) : Footprint :=
  from_option rec_footprint no_footprint (om_get (rec_id r) (bg_records b)).

(** What the write can leave on the disk at once, over and above what is there. *)
Definition write_bytes (w : Replacement) : N := fp_bytes (rec_footprint (rpl_record w)) + rpl_scratch w.

Record reserved (b : EpochStorageBudget) (scope : StorageScope) (w : Replacement) (g : StorageReservation) : Prop := mkReserved {
  rd_ready : bg_ready b = true;
  rd_scope : bg_scope b = scope;
  rd_record : rsv_record g = rpl_record w;
  rd_some : fp_bytes (rec_footprint (rpl_record w)) <> 0;
  rd_owner : forall o, om_get (rec_id (rpl_record w)) (bg_records b) = Some o -> rec_document o = rec_document (rpl_record w);
  rd_room : om_get (rec_id (rpl_record w)) (bg_records b) = None -> len (bg_records b) <> MAX_ACCOUNTED_RECORDS;
  rd_final : fp_add (rsv_final_usage g) (old_footprint b (rpl_record w)) = fp_add (bg_usage b) (rec_footprint (rpl_record w));
  rd_within : pools_within (rsv_final_usage g);
  rd_peak : fp_bytes (bg_usage b) + write_bytes w <= MAX_STORAGE_BYTES;
  rd_ordinary : rpl_purpose w = Ordinary ->
    settling (rpl_record w) = false /\ fp_content (bg_usage b) + fp_content (rec_footprint (rpl_record w)) + rpl_scratch w <= CONTENT_ALLOWANCE_BYTES;
  rd_settlement : rpl_purpose w = Settlement ->
    pinned_elsewhere (bg_pinned b) (rec_document (rpl_record w)) = false /\
    fp_settlement (bg_usage b) + write_bytes w <= SETTLEMENT_RESERVE_BYTES
}.

(** Within the invariant the subtraction of the old record never wraps. *)
Lemma fp_minus_old b r :
  budget_ok b -> fp_add (fp_minus (bg_usage b) (old_footprint b r)) (old_footprint b r) = bg_usage b.
Proof.
  intros Hb. unfold old_footprint. pose proof (bo_within b Hb) as []. rewrite (bo_usage b Hb) in *.
  destruct (om_get (rec_id r) (bg_records b)) as [o|] eqn:E; cbn [from_option].
  - destruct (footprint_sum_member _ _ _ E) as (H1 & H2 & H3).
    apply fp_ext; cbn [fp_add fp_minus fp_content fp_protocol fp_settlement]; rewrite wrapping_sub_exact by (sizes; lia); lia.
  - apply fp_ext; cbn [fp_add fp_minus no_footprint fp_content fp_protocol fp_settlement];
      rewrite wrapping_sub_exact by (sizes; lia); lia.
Qed.

Lemma old_footprint_match b r :
  match om_get (rec_id r) (bg_records b) with Some o => rec_footprint o | None => no_footprint end = old_footprint b r.
Proof. unfold old_footprint. by destruct (om_get _ _). Qed.

Lemma reserve_check_ok b scope w g : budget_ok b -> reserve_check b scope w = Ok g -> reserved b scope w g.
Proof.
  intros Hb H. unfold reserve_check in H. set (r := rpl_record w) in *.
  apply refuse_if_bind_ok in H as [Hr%negb_false_iff H]. apply refuse_if_bind_ok in H as [Hs%negb_false_iff H].
  apply bool_decide_eq_true in Hs. apply bind_ok in H as (t & [-> Ht]%fp_total_ok & H).
  apply refuse_if_bind_ok in H as [Hz%N.eqb_neq H]. apply refuse_if_bind_ok in H as [Ho H].
  apply refuse_if_bind_ok in H as [Hl H]. rewrite old_footprint_match in H.
  apply bind_ok in H as (f & [-> Hf]%fp_plus_ok & H). apply bind_ok in H as (u & Hw%fp_check_ok & H).
  apply bind_ok in H as (v & Hp & H). injection H as <-.
  pose proof (fp_minus_old b r Hb) as Hold. pose proof (bo_within b Hb) as [].
  assert (fp_bytes (bg_usage b) + write_bytes w <= MAX_STORAGE_BYTES /\
    (rpl_purpose w = Ordinary -> settling r = false /\
       fp_content (bg_usage b) + fp_content (rec_footprint r) + rpl_scratch w <= CONTENT_ALLOWANCE_BYTES) /\
    (rpl_purpose w = Settlement -> pinned_elsewhere (bg_pinned b) (rec_document r) = false /\
       fp_settlement (bg_usage b) + write_bytes w <= SETTLEMENT_RESERVE_BYTES)) as (H1 & H2 & H3).
  { destruct (rpl_purpose w).
    - apply refuse_if_bind_ok in Hp as [[Hn _]%orb_false_iff Hp]. apply bind_ok in Hp as (p & [-> _]%fp_plus_ok & Hp).
      apply bind_ok in Hp as (q & [-> _]%fp_plus_ok & Hp). apply fp_check_ok in Hp.
      pose proof (within_bytes _ Hp) as Hb'. destruct Hp as [Hc _ _]. cbn in Hc. unfold fp_bytes, write_bytes in *. cbn in Hb'. fold r.
      split; [unfold fp_bytes; lia|]. split; [|done]. intros _. split; [exact Hn|]. lia.
    - apply refuse_if_bind_ok in Hp as [Hn Hp]. apply bind_ok in Hp as (t & [-> _]%fp_total_ok & Hp).
      apply bind_ok in Hp as (p & Hpk & Hp). apply refuse_if_ok, N.ltb_ge in Hp.
      assert (p = fp_settlement (bg_usage b) + write_bytes w) as ->.
      { unfold write_bytes. fold r. destruct (checked_add u64_max (fp_settlement (bg_usage b)) _) as [x|] eqn:E; cbn in Hpk; [|done].
        apply checked_add_iff in E as [-> _]. apply checked_ok in Hpk as [-> _]. lia. }
      split; [unfold fp_bytes in *; sizes; lia|]. split; [done|]. intros _. done. }
  constructor; cbn [rsv_record rsv_final_usage]; try done.
  - intros o Ho'. fold r in Ho'. rewrite Ho' in Ho. by apply negb_false_iff, bool_decide_eq_true in Ho.
  - intros Hn. fold r in Hn. rewrite Hn in Hl. rewrite bool_decide_eq_false_2 in Hl by by intros []. cbn in Hl. by apply N.eqb_neq.
  - fold r. rewrite <- Hold at 2. apply fp_ext; cbn; lia.
Qed.

Lemma first_settling_spec (m : bmap bytes StorageRecord) :
  om_wf m ->
  (forall k1 r1 k2 r2, om_get k1 m = Some r1 -> om_get k2 m = Some r2 -> settling r1 = true -> settling r2 = true ->
     rec_document r1 = rec_document r2) ->
  (forall k r, om_get k m = Some r -> settling r = true -> first_settling m = Some (rec_document r)) /\
  (forall d, first_settling m = Some d -> exists k r, om_get k m = Some r /\ settling r = true /\ rec_document r = d).
Proof.
  intros Hwf Hone. unfold first_settling. split.
  - intros k r Hk Hr. destruct (List.find settling (om_values m)) as [x|] eqn:E; cbn.
    + apply find_some in E as [Hx Hs]. apply list_elem_of_In, om_values_get in Hx as [k' Hk']; [|done]. f_equal. by eapply Hone.
    + assert (r ∈ om_values m) as Hin by (apply om_values_get; eauto).
      apply list_elem_of_In in Hin. by rewrite (find_none _ _ E r Hin) in Hr.
  - intros d. destruct (List.find settling (om_values m)) as [x|] eqn:E; cbn; [|done]. intros [= <-].
    apply find_some in E as [Hx Hs]. apply list_elem_of_In, om_values_get in Hx as [k' Hk']; [|done]. eauto.
Qed.

Lemma settling_one b k1 r1 k2 r2 :
  budget_ok b -> om_get k1 (bg_records b) = Some r1 -> om_get k2 (bg_records b) = Some r2 ->
  settling r1 = true -> settling r2 = true -> rec_document r1 = rec_document r2.
Proof.
  intros Hb H1 H2 S1 S2. pose proof (bo_settling b Hb _ _ H1 S1). pose proof (bo_settling b Hb _ _ H2 S2). congruence.
Qed.

(** A settling record can only be written for the document that holds the reserve. *)
Lemma reserved_settling b scope w g :
  reserved b scope w g -> settling (rpl_record w) = true ->
  pinned_elsewhere (bg_pinned b) (rec_document (rpl_record w)) = false.
Proof.
  intros Hg Hs. destruct (rpl_purpose w) eqn:E; [|by apply (rd_settlement _ _ _ _ Hg E)].
  destruct (rd_ordinary _ _ _ _ Hg E). congruence.
Qed.

Lemma reserved_commit_ok b scope w g : budget_ok b -> reserved b scope w g -> budget_ok (commit g (set_ready false b)).
Proof.
  intros Hb Hg. pose proof (reserved_settling _ _ _ _ Hg) as Hsettle. destruct Hg as [_ _ Hrec _ Howner Hroom Hfinal Hwithin _ _ _].
  set (r := rpl_record w) in *.
  unfold commit. rewrite Hrec. cbn [set_ready bg_records bg_scope]. set (m := om_insert (rec_id r) r (bg_records b)).
  assert (om_wf m) as Hwf by apply om_wf_insert, (bo_wf b Hb).
  assert (forall k x, om_get k m = Some x -> settling x = true -> x = r \/ bg_pinned b = Some (rec_document x)) as Hcase.
  { intros k x. subst m. rewrite get_insert. case_decide as E; [intros [= <-]; by left|].
    intros Hx Hs. right. by eapply bo_settling. }
  destruct (first_settling_spec m Hwf) as [F1 F2].
  { intros k1 r1 k2 r2 H1 H2 S1 S2. pose proof (Hcase _ _ H1 S1) as C1. pose proof (Hcase _ _ H2 S2) as C2.
    destruct C1 as [->|C1], C2 as [->|C2]; [done| | |congruence];
      destruct (proj1 (pinned_elsewhere_false _ _) (Hsettle ltac:(assumption))); congruence. }
  constructor; cbn [bg_records bg_usage bg_pinned]; try done.
  - intros k x. subst m. rewrite get_insert. case_decide as E; [by intros [= <-]|apply (bo_ids b Hb)].
  - pose proof (footprint_sum_insert (rec_id r) r (bg_records b)) as H. fold m in H. fold (old_footprint b r) in H.
    rewrite <- (bo_usage b Hb), <- Hfinal in H. symmetry. by apply fp_add_cancel in H.
  - subst m. pose proof (bo_count b Hb) as Hc. destruct (om_get (rec_id r) (bg_records b)) as [o|] eqn:E.
    + by erewrite om_insert_len_old.
    + rewrite om_insert_len_new by done. specialize (Hroom eq_refl). lia.
Qed.

(** A reservation that only flushes an unchanged file commits to the budget it started from. *)
Lemma sync_commit_same b scope r g b' :
  budget_ok b -> reserve_sync b scope r = (Ok g, b') -> b' = set_ready false b /\ bg_ready b = true /\ commit g b' = b.
Proof.
  intros Hb H. unfold reserve_sync, verify_record in H.
  destruct (bg_ready b) eqn:Er; cbn [negb] in H; [|done]. destruct (negb (bool_decide (bg_scope b = scope))); [done|].
  destruct (_ || _) eqn:E; [done|]. injection H as <- <-. split; [done|]. split; [done|].
  apply orb_false_iff in E as [_ Hg%negb_false_iff]. apply bool_decide_eq_true in Hg.
  unfold commit. cbn [rsv_record rsv_final_usage set_ready bg_records bg_scope bg_usage].
  assert (om_insert (rec_id r) r (bg_records b) = bg_records b) as ->.
  { apply om_ext; [apply om_wf_insert, (bo_wf b Hb)|apply (bo_wf b Hb)|]. intros k. rewrite get_insert. case_decide; congruence. }
  destruct (first_settling_spec (bg_records b) (bo_wf b Hb)) as [F1 F2].
  { intros. by eapply settling_one. }
  assert (first_settling (bg_records b) = bg_pinned b) as ->.
  { destruct (bg_pinned b) as [d|] eqn:Ep.
    - destruct (bo_pinned b Hb d Ep) as (k & x & Hk & Hx & <-). by eapply F1.
    - destruct (first_settling (bg_records b)) as [d|] eqn:Ef; [|done]. destruct (F2 d eq_refl) as (k & x & Hk & Hx & _).
      pose proof (bo_settling b Hb k x Hk Hx). congruence. }
  destruct b. cbn in *. by subst.
Qed.

(** * Runs *)

(** What becomes of a guard. *)
Inductive GuardEnd : Type := Committed | Cancelled | Abandoned.

Definition end_guard (e : GuardEnd) (g : StorageReservation) (b : EpochStorageBudget) : EpochStorageBudget :=
  match e with Committed => commit g b | Cancelled => cancel_before_write b | Abandoned => b end.

Inductive BudgetOp : Type :=
| BWrite (scope : StorageScope) (w : Replacement) (e : GuardEnd)
| BSync (scope : StorageScope) (r : StorageRecord) (e : GuardEnd)
| BVerify (scope : StorageScope) (id : bytes) (observed : option StorageRecord)
| BReconcile (scope : StorageScope) (records : list StorageRecord)
| BInvalidate.

Definition budget_apply (b : EpochStorageBudget) (op : BudgetOp) : EpochStorageBudget :=
  match op with
  | BWrite scope w e => match budget_reserve b scope w with (Ok g, b) => end_guard e g b | (Err _, b) => b end
  | BSync scope r e => match reserve_sync b scope r with (Ok g, b) => end_guard e g b | (Err _, b) => b end
  | BVerify scope id observed => (verify_record b scope id observed).2
  | BReconcile scope records => (reconcile b scope records).2
  | BInvalidate => invalidate b
  end.

Lemma reserve_inv b scope w r b' :
  budget_ok b -> budget_reserve b scope w = (r, b') ->
  match r with Ok g => reserved b scope w g /\ b' = set_ready false b | Err _ => b' = b end.
Proof.
  intros Hb. unfold budget_reserve. destruct (reserve_check b scope w) as [g|e] eqn:E; intros [= <- <-]; [|done].
  split; [by apply reserve_check_ok|done].
Qed.

Lemma verify_record_frame b scope id observed :
  (verify_record b scope id observed).2 = b \/ (verify_record b scope id observed).2 = set_ready false b.
Proof.
  unfold verify_record. destruct (negb _); [by left|]. destruct (negb _); [by left|]. destruct (_ || _); [by right|by left].
Qed.

Lemma reconcile_inv b scope records :
  match reconcile b scope records with
  | (Ok _, b') => bg_scope b = scope /\ from_inventory scope records = Ok b'
  | (Err _, b') => b' = set_ready false b
  end.
Proof.
  unfold reconcile. cbn [set_ready bg_scope]. case_bool_decide as E; cbn [negb]; [|done]. by destruct (from_inventory scope records).
Qed.

Lemma budget_apply_ok b op : budget_ok b -> budget_ok (budget_apply b op).
Proof.
  intros Hb. destruct op as [scope w e|scope r e|scope id obs|scope records|]; cbn [budget_apply].
  - destruct (budget_reserve b scope w) as [[g|] b'] eqn:E; apply reserve_inv in E; try done; [|by subst].
    destruct E as [Hg ->]. destruct e; cbn; [by eapply reserved_commit_ok|by repeat apply set_ready_ok..].
  - destruct (reserve_sync b scope r) as [[g|] b'] eqn:E.
    + apply sync_commit_same in E as (-> & Hr & Hc); [|done]. destruct e; cbn; [by rewrite Hc|by repeat apply set_ready_ok..].
    + unfold reserve_sync in E. pose proof (verify_record_frame b scope (rec_id r) (Some r)) as H.
      destruct (verify_record b scope (rec_id r) (Some r)) as [[]]; cbn in H; [done|]. injection E as _ <-.
      destruct H as [->| ->]; [done|by apply set_ready_ok].
  - destruct (verify_record_frame b scope id obs) as [->| ->]; [done|by apply set_ready_ok].
  - pose proof (reconcile_inv b scope records) as H. destruct (reconcile b scope records) as [[] b']; cbn.
    + destruct H as [_ (H & _)%from_inventory_inv]. exact H.
    + subst. by apply set_ready_ok.
  - by apply set_ready_ok.
Qed.

Definition budget_run (b : EpochStorageBudget) (ops : list BudgetOp) : EpochStorageBudget := foldl budget_apply b ops.

Lemma budget_run_ok ops : forall b, budget_ok b -> budget_ok (budget_run b ops).
Proof. induction ops as [|op ops IH]; intros b Hb; [done|]. cbn. by apply IH, budget_apply_ok. Qed.

(** The counters are the files. From any inventory the budget accepts, through
    any sequence of reserved, committed, cancelled and abandoned writes,
    flushes, checks, invalidations and reconciliations, the usage is exactly the
    sum of the accounted records, every pool is within its ceiling, at most
    65,536 records are accounted, and the reserve is held by the one document
    that has settlement bytes, if any does; subtracting a replaced record never
    wraps. *)
Theorem budget_accounting scope records b ops :
  from_inventory scope records = Ok b ->
  let b' := budget_run b ops in
  budget_ok b' /\ forall r, fp_add (fp_minus (bg_usage b') (old_footprint b' r)) (old_footprint b' r) = bg_usage b'.
Proof.
  intros H b'. assert (budget_ok b') as Hb by (apply budget_run_ok, (from_inventory_inv _ _ _ H)).
  split; [done|]. intros r. by apply fp_minus_old.
Qed.

Definition is_reconcile (op : BudgetOp) : bool := match op with BReconcile _ _ => true | _ => false end.

Lemma closed_apply b op : bg_ready b = false -> is_reconcile op = false -> budget_apply b op = b.
Proof.
  intros Hr Hop. assert (set_ready false b = b) as Hs by (destruct b; cbn in *; by subst).
  destruct op; [..|exact Hs]; try done; cbn [budget_apply]; unfold budget_reserve, reserve_check, reserve_sync, verify_record; by rewrite Hr.
Qed.

(** An interrupted write cannot be forgotten. A reservation that was handed out
    and neither committed nor cancelled leaves the budget closed: whatever is
    attempted afterwards short of a reconciliation changes nothing and every
    write, flush and check is refused until the disk has been inventoried. *)
Theorem abandoned_write_closes b scope w g b' ops :
  budget_reserve b scope w = (Ok g, b') -> Forall (fun op => is_reconcile op = false) ops ->
  let b'' := budget_run b' ops in
  b'' = b' /\ bg_ready b'' = false /\
  (forall scope w, budget_reserve b'' scope w = (Err NeedsReconcile, b'')) /\
  (forall scope r, reserve_sync b'' scope r = (Err NeedsReconcile, b'')) /\
  (forall scope id obs, verify_record b'' scope id obs = (Err NeedsReconcile, b'')).
Proof.
  intros H Hops b''. assert (bg_ready b' = false) as Hr.
  { unfold budget_reserve in H. destruct (reserve_check b scope w); [|done]. by injection H as _ <-. }
  assert (b'' = b') as ->.
  { subst b''. clear H. revert Hops. induction ops as [|op ops IH]; inversion 1; subst; [done|]. cbn. rewrite closed_apply by done. by apply IH. }
  split; [done|]. split; [done|]. unfold budget_reserve, reserve_check, reserve_sync, verify_record. rewrite Hr. done.
Qed.

(** * The disk *)

(** The guard that is out, if any: of a write, or of a flush of an unchanged file. *)
Inductive DiskGuard : Type := GuardWrite (g : StorageReservation) (w : Replacement) | GuardSync (g : StorageReservation).

(** The budget beside what is really on the disk: the files in place and the
    temporary copies, each with the id, document and bytes an inventory would
    find, whether the budget knows of it or not; two may have the same id. *)
Record World := mkWorld {
  wd_budget : EpochStorageBudget;
  wd_files : list StorageRecord;
  wd_temps : list StorageRecord;
  wd_guard : option DiskGuard
}.

Definition disk_bytes (l : list StorageRecord) : N := fp_bytes (footprint_sum l).
Definition wd_disk (w : World) : list StorageRecord := wd_files w ++ wd_temps w.

(** The rename that ends a write: the new file replaces those of its id. *)
Definition put_file (r : StorageRecord) (files : list StorageRecord) : list StorageRecord :=
  r :: List.filter (fun x => negb (bool_decide (rec_id x = rec_id r))) files.

(** A process that writes only under a reservation and no more than it reserved,
    and whose reconciliations read a complete inventory: every file that is on
    the disk at that moment, temporary ones included, in any order. Nothing of
    the budget decides what the disk holds. *)
Inductive world_step : World -> World -> Prop :=
| ws_begin b files temps scope w g b' :
    budget_reserve b scope w = (Ok g, b') ->
    world_step (mkWorld b files temps None) (mkWorld b' files temps (Some (GuardWrite g w)))
| ws_refused b files temps scope w e b' :
    budget_reserve b scope w = (Err e, b') ->
    world_step (mkWorld b files temps None) (mkWorld b' files temps None)
| ws_copy b files temps temps' g w :
    disk_bytes temps' <= write_bytes w ->
    world_step (mkWorld b files temps (Some (GuardWrite g w))) (mkWorld b files temps' (Some (GuardWrite g w)))
| ws_finish b files temps g w :
    world_step (mkWorld b files temps (Some (GuardWrite g w))) (mkWorld (commit g b) (put_file (rpl_record w) files) [] None)
| ws_cancel b files g w :
    world_step (mkWorld b files [] (Some (GuardWrite g w))) (mkWorld (cancel_before_write b) files [] None)
| ws_fail b files temps g w :
    world_step (mkWorld b files temps (Some (GuardWrite g w))) (mkWorld b files temps None)
| ws_fail_renamed b files temps g w temps' :
    disk_bytes temps' <= rpl_scratch w ->
    world_step (mkWorld b files temps (Some (GuardWrite g w))) (mkWorld b (put_file (rpl_record w) files) temps' None)
| ws_sync b files temps scope r g b' :
    reserve_sync b scope r = (Ok g, b') ->
    world_step (mkWorld b files temps None) (mkWorld b' files temps (Some (GuardSync g)))
| ws_sync_refused b files temps scope r e b' :
    reserve_sync b scope r = (Err e, b') ->
    world_step (mkWorld b files temps None) (mkWorld b' files temps None)
| ws_sync_end b files temps g e :
    world_step (mkWorld b files temps (Some (GuardSync g))) (mkWorld (end_guard e g b) files temps None)
| ws_cleanup b files temps files' temps' :
    bg_ready b = false -> sublist files' files -> sublist temps' temps ->
    world_step (mkWorld b files temps None) (mkWorld b files' temps' None)
| ws_reconcile b files temps scope inventory b' :
    inventory ≡ₚ files ++ temps -> reconcile b scope inventory = (Ok tt, b') ->
    world_step (mkWorld b files temps None) (mkWorld b' (files ++ temps) [] None)
| ws_reconcile_failed b files temps scope inventory e b' :
    reconcile b scope inventory = (Err e, b') ->
    world_step (mkWorld b files temps None) (mkWorld b' files temps None)
| ws_restart b files temps guard scope inventory b' :
    inventory ≡ₚ files ++ temps -> from_inventory scope inventory = Ok b' ->
    world_step (mkWorld b files temps guard) (mkWorld b' (files ++ temps) [] None)
| ws_verify b files temps scope id observed :
    world_step (mkWorld b files temps None) (mkWorld (verify_record b scope id observed).2 files temps None)
| ws_invalidate b files temps :
    world_step (mkWorld b files temps None) (mkWorld (invalidate b) files temps None).

(** The files in place are exactly the accounted records. *)
Definition accounts_for (b : EpochStorageBudget) (files : list StorageRecord) : Prop := files ≡ₚ om_values (bg_records b).

Record disk_world_ok (w : World) : Prop := mkWorldOk {
  wk_budget : budget_ok (wd_budget w);
  wk_physical : disk_bytes (wd_disk w) <= MAX_STORAGE_BYTES;
  wk_true : wd_guard w = None -> bg_ready (wd_budget w) = true -> accounts_for (wd_budget w) (wd_files w) /\ wd_temps w = [];
  wk_writing : forall g r, wd_guard w = Some (GuardWrite g r) ->
    exists b scope, budget_ok b /\ reserved b scope r g /\ wd_budget w = set_ready false b /\ accounts_for b (wd_files w);
  wk_syncing : forall g, wd_guard w = Some (GuardSync g) ->
    exists b, budget_ok b /\ bg_ready b = true /\ commit g (set_ready false b) = b /\ wd_budget w = set_ready false b /\
      accounts_for b (wd_files w) /\ wd_temps w = []
}.

Lemma disk_bytes_app l k : disk_bytes (l ++ k) = disk_bytes l + disk_bytes k.
Proof. unfold disk_bytes, fp_bytes, footprint_sum. cbn. rewrite !sum_of_app. lia. Qed.

Lemma disk_bytes_perm l k : l ≡ₚ k -> disk_bytes l = disk_bytes k.
Proof. intros H. unfold disk_bytes, footprint_sum. by rewrite !(sum_of_perm _ _ _ H). Qed.

Lemma disk_bytes_cons r l : disk_bytes (r :: l) = fp_bytes (rec_footprint r) + disk_bytes l.
Proof. unfold disk_bytes, fp_bytes, footprint_sum. cbn. lia. Qed.

Lemma disk_bytes_sublist l k : sublist l k -> disk_bytes l <= disk_bytes k.
Proof. induction 1; rewrite ?disk_bytes_cons; lia. Qed.

Lemma accounts_for_bytes b files : budget_ok b -> accounts_for b files -> disk_bytes files = fp_bytes (bg_usage b).
Proof. intros Hb H. rewrite (disk_bytes_perm _ _ H). unfold disk_bytes. by rewrite (bo_usage b Hb). Qed.

Lemma put_file_bytes r files : disk_bytes (put_file r files) <= disk_bytes files + fp_bytes (rec_footprint r).
Proof.
  unfold put_file. rewrite disk_bytes_cons. unfold disk_bytes, fp_bytes, footprint_sum. cbn.
  pose proof (sum_of_filter_le (fun r => fp_content (rec_footprint r)) (fun x => negb (bool_decide (rec_id x = rec_id r))) files).
  pose proof (sum_of_filter_le (fun r => fp_protocol (rec_footprint r)) (fun x => negb (bool_decide (rec_id x = rec_id r))) files).
  pose proof (sum_of_filter_le (fun r => fp_settlement (rec_footprint r)) (fun x => negb (bool_decide (rec_id x = rec_id r))) files). lia.
Qed.

(** Records kept under their own ids: values are as distinct as the keys. *)
Lemma values_NoDup (m : bmap bytes StorageRecord) :
  om_wf m -> (forall k r, om_get k m = Some r -> rec_id r = k) -> NoDup (om_values m).
Proof.
  intros Hwf Hid. apply (NoDup_fmap_1 rec_id). replace (rec_id <$> om_values m) with (om_keys m); [by apply om_keys_NoDup|].
  unfold om_keys, om_values. rewrite <- list_fmap_compose. apply list_fmap_ext. intros i [k r] Hi. cbn. symmetry. apply Hid.
  apply om_get_elem; [done|]. by apply list_elem_of_lookup_2 in Hi.
Qed.

(** Writing one record is replacing the files of its id. *)
Lemma accounts_for_put b files r :
  budget_ok b -> accounts_for b files -> put_file r files ≡ₚ om_values (om_insert (rec_id r) r (bg_records b)).
Proof.
  intros [Hwf Hid _ _ _ _ _] H. pose proof (values_NoDup _ Hwf Hid) as Hnd. unfold accounts_for in H. apply NoDup_Permutation.
  - unfold put_file. apply NoDup_cons. split; [|apply NoDup_ListNoDup, List.NoDup_filter, NoDup_ListNoDup; by rewrite H].
    intros [_ Hf]%elem_List_filter. by rewrite bool_decide_eq_true_2 in Hf.
  - apply values_NoDup; [by apply om_wf_insert|]. intros k x. rewrite get_insert. case_decide; [by intros [= <-]|apply Hid].
  - intros x. unfold put_file. rewrite elem_of_cons, elem_List_filter, negb_true_iff, bool_decide_eq_false.
    rewrite H, !om_values_get by auto using om_wf_insert. split.
    + intros [->|[(k & Hk) Hne]]; [exists (rec_id r); by rewrite om_get_insert_eq|]. exists k. rewrite get_insert. case_decide as E; [|done].
      subst k. by rewrite (Hid _ _ Hk) in Hne.
    + intros (k & Hk). rewrite get_insert in Hk. case_decide as E; [left; by injection Hk as <-|right]. split; [by exists k|].
      by rewrite (Hid _ _ Hk).
Qed.

(** An inventory the budget accepts is accounted file by file: none is dropped and none counted twice. *)
Lemma account_all_files records : forall b b',
  budget_ok b -> account_all b records = Ok b' -> om_values (bg_records b') ≡ₚ records ++ om_values (bg_records b).
Proof.
  induction records as [|r records IH]; intros b b' Hb H; cbn in H; [by injection H as <-|].
  apply bind_ok in H as (b1 & H1 & H). rewrite (IH b1 b') by eauto using account_ok.
  apply account_inv in H1 as (_ & Hg & _ & _ & ->). cbn [bg_records].
  unfold om_values. rewrite (om_insert_perm _ r _ Hg). cbn. by rewrite Permutation_middle.
Qed.

Lemma inventory_files scope records b : from_inventory scope records = Ok b -> accounts_for b records.
Proof.
  intros H. apply account_all_files in H; [|apply empty_budget_ok]. unfold accounts_for. by rewrite H, app_nil_r.
Qed.

(** A budget made from a complete inventory fits the disk it was made from. *)
Lemma inventoried_ok scope inventory b files temps :
  inventory ≡ₚ files ++ temps -> from_inventory scope inventory = Ok b -> disk_world_ok (mkWorld b (files ++ temps) [] None).
Proof.
  intros Hp H. pose proof (inventory_files _ _ _ H) as Ha. apply from_inventory_inv in H as (Hb & _ & _ & _).
  assert (accounts_for b (files ++ temps)) as Hf by (unfold accounts_for; by rewrite <- Hp).
  constructor; cbn; [done| |done|done|done]. unfold wd_disk. cbn [wd_files wd_temps]. rewrite app_nil_r, (accounts_for_bytes b) by done.
  apply within_bytes, (bo_within _ Hb).
Qed.

Lemma reserve_sync_err b scope r e b' : reserve_sync b scope r = (Err e, b') -> b' = b \/ b' = set_ready false b.
Proof.
  unfold reserve_sync. pose proof (verify_record_frame b scope (rec_id r) (Some r)) as H.
  destruct (verify_record b scope (rec_id r) (Some r)) as [[]]; cbn in H; [done|]. intros [= _ <-]. exact H.
Qed.

(** Closing the budget keeps the world consistent. *)
Lemma closed_world_ok b b' files temps :
  disk_world_ok (mkWorld b files temps None) -> b' = b \/ b' = set_ready false b -> disk_world_ok (mkWorld b' files temps None).
Proof.
  intros Hw [->| ->]; [done|]. destruct Hw as [Hb Hp _ _ _]. constructor; cbn in *; [by apply set_ready_ok|done..].
Qed.

Lemma world_step_ok w w' : world_step w w' -> disk_world_ok w -> disk_world_ok w'.
Proof.
  intros Hs Hok. pose proof Hok as [Hb Hp Ht Hw Hsy].
  destruct Hs as [b files temps scope w g b' Hres|b files temps scope w e b' Hres|b files temps temps' g w Hl|b files temps g w
    |b files g w|b files temps g w|b files temps g w temps' Hl|b files temps scope r g b' Hres|b files temps scope r e b' Hres
    |b files temps g e|b files temps files' temps' Hr Hsf Hst|b files temps scope inventory b' Hinv Hrec|b files temps scope inventory e b' Hrec
    |b files temps guard scope inventory b' Hinv Hrec|b files temps scope id observed|b files temps];
    cbn [wd_budget wd_files wd_temps wd_guard] in *; unfold wd_disk in *; cbn [wd_files wd_temps] in *.
  - apply reserve_inv in Hres as [Hg ->]; [|done]. destruct (Ht eq_refl (rd_ready _ _ _ _ Hg)) as [Ha ->].
    constructor; cbn; [by apply set_ready_ok|done|done| |done]. intros g' r' [= <- <-]. by exists b, scope.
  - apply reserve_inv in Hres; [|done]. by subst b'.
  - destruct (Hw g w eq_refl) as (b0 & scope & Hb0 & Hg & -> & Ha).
    constructor; cbn; [done| |done|by intros; eapply Hw|done].
    unfold wd_disk. cbn [wd_files wd_temps]. rewrite disk_bytes_app, (accounts_for_bytes b0) by done. pose proof (rd_peak _ _ _ _ Hg). lia.
  - destruct (Hw g w eq_refl) as (b0 & scope & Hb0 & Hg & -> & Ha).
    pose proof (reserved_commit_ok _ _ _ _ Hb0 Hg) as Hc.
    assert (accounts_for (commit g (set_ready false b0)) (put_file (rpl_record w) files)) as E.
    { unfold accounts_for, commit. cbn. rewrite (rd_record _ _ _ _ Hg). by apply accounts_for_put. }
    constructor; cbn [wd_budget wd_files wd_temps wd_guard]; [done| |done|done|done].
    unfold wd_disk. cbn [wd_files wd_temps]. rewrite app_nil_r, (accounts_for_bytes _ _ Hc E). apply within_bytes, (bo_within _ Hc).
  - destruct (Hw g w eq_refl) as (b0 & scope & Hb0 & Hg & -> & Ha).
    constructor; cbn; [by apply set_ready_ok, set_ready_ok|done|done|done|done].
  - destruct (Hw g w eq_refl) as (b0 & scope & Hb0 & Hg & -> & Ha). constructor; cbn; done.
  - destruct (Hw g w eq_refl) as (b0 & scope & Hb0 & Hg & -> & Ha). constructor; cbn [wd_budget wd_files wd_temps wd_guard]; [done| |done|done|done].
    unfold wd_disk. cbn [wd_files wd_temps]. rewrite disk_bytes_app. pose proof (put_file_bytes (rpl_record w) files) as H.
    rewrite (accounts_for_bytes b0 files) in H by done. pose proof (rd_peak _ _ _ _ Hg) as Hpk. unfold write_bytes in Hpk. lia.
  - apply sync_commit_same in Hres as (-> & Hr & Hc); [|done]. destruct (Ht eq_refl Hr) as [Ha ->].
    constructor; cbn; [by apply set_ready_ok|done|done|done|]. intros g' [= <-]. by exists b.
  - apply reserve_sync_err in Hres. by eapply closed_world_ok.
  - destruct (Hsy g eq_refl) as (b0 & Hb0 & Hr & Hc & -> & Ha & ->). assert (set_ready true (set_ready false b0) = b0) as E.
    { destruct b0. cbn in Hr. by subst. }
    destruct e; cbn [end_guard]; [rewrite Hc|unfold cancel_before_write; rewrite E|]; constructor; cbn; done.
  - constructor; cbn; [done| |congruence|done|done]. unfold wd_disk. cbn [wd_files wd_temps]. rewrite disk_bytes_app in *.
    pose proof (disk_bytes_sublist _ _ Hsf). pose proof (disk_bytes_sublist _ _ Hst). lia.
  - pose proof (reconcile_inv b scope inventory) as H. rewrite Hrec in H. destruct H as [_ H]. by eapply inventoried_ok.
  - pose proof (reconcile_inv b scope inventory) as H. rewrite Hrec in H. eapply closed_world_ok; [done|]. by right.
  - by eapply inventoried_ok.
  - eapply closed_world_ok; [done|]. apply verify_record_frame.
  - eapply closed_world_ok; [done|]. by right.
Qed.

(** C35: the disk never holds more than the limit. Start with a budget made from an
    inventory of everything on the disk. A process that writes only under a
    reservation and no more than it reserved, flushes only under [reserve_sync],
    and reconciles or restarts only with an inventory of all the files then on
    the disk, never has more than 2 GiB of managed files, counting old and new
    copies and scratch of the write in progress and whatever failed writes left
    behind; and while the budget is open with no guard out, the files on disk
    are its records, each once, its usage is their bytes, pool by pool, and no
    temporary file is there. *)
Theorem disk_within_limit scope disk b w :
  from_inventory scope disk = Ok b -> rtc world_step (mkWorld b disk [] None) w ->
  disk_bytes (wd_disk w) <= MAX_STORAGE_BYTES /\
  (wd_guard w = None -> bg_ready (wd_budget w) = true ->
     wd_files w ≡ₚ om_values (bg_records (wd_budget w)) /\ wd_temps w = [] /\ bg_usage (wd_budget w) = footprint_sum (wd_disk w)).
Proof.
  intros H Hrun. assert (disk_world_ok w) as [Hb Hp Ht _ _].
  { pose proof (inventoried_ok scope disk b disk [] ltac:(by rewrite app_nil_r) H) as H0. rewrite app_nil_r in H0. revert H0. clear - Hrun.
    induction Hrun as [|x y z Hs _ IH]; [done|]. intros Hx. by apply IH, (world_step_ok x y). }
  split; [done|]. intros Hg Hr. destruct (Ht Hg Hr) as [Ha Hte]. split; [done|]. split; [done|].
  unfold wd_disk. rewrite Hte, app_nil_r, (bo_usage _ Hb). unfold footprint_sum. by rewrite !(sum_of_perm _ _ _ Ha).
Qed.

(** * The settlement reserve *)

Lemma checked_reserve x y : x + y <= SETTLEMENT_RESERVE_BYTES -> checked_add u64_max x y = Some (x + y).
Proof. intros Hxy. apply checked_add_iff. split; [done|]. sizes. lia. Qed.

(** Replacing an accounted record by one of staged bytes only leaves every pool within its ceiling. *)
Lemma staged_final_ok b r :
  budget_ok b -> fp_content (rec_footprint r) = 0 -> fp_protocol (rec_footprint r) = 0 ->
  fp_settlement (bg_usage b) + fp_settlement (rec_footprint r) <= SETTLEMENT_RESERVE_BYTES ->
  exists f, fp_plus (fp_minus (bg_usage b) (old_footprint b r)) (rec_footprint r) = Ok f /\ fp_check f = Ok tt.
Proof.
  intros Hb Hc Hp Hs. pose proof (fp_minus_old b r Hb) as Hold. pose proof (bo_within b Hb) as [].
  pose proof (f_equal fp_content Hold) as H1. pose proof (f_equal fp_protocol Hold) as H2. pose proof (f_equal fp_settlement Hold) as H3.
  set (rest := fp_minus (bg_usage b) (old_footprint b r)) in *. cbn [fp_add fp_content fp_protocol fp_settlement] in H1, H2, H3.
  exists (fp_add rest (rec_footprint r)).
  assert (pools_within (fp_add rest (rec_footprint r))) as Hwi.
  { clearbody rest. constructor; cbn [fp_add fp_content fp_protocol fp_settlement]; lia. }
  split; [|by apply fp_check_ok]. apply fp_plus_ok. split; [done|]. destruct Hwi. unfold fits. sizes. lia.
Qed.

Lemma reserve_staged_ok b scope id document staged scratch :
  budget_ok b -> bg_ready b = true -> bg_scope b = scope -> staged <> 0 ->
  match om_get id (bg_records b) with
  | Some o => rec_document o = document
  | None => len (bg_records b) < MAX_ACCOUNTED_RECORDS
  end ->
  bg_pinned b = None \/ bg_pinned b = Some document ->
  fp_settlement (bg_usage b) + staged + scratch <= SETTLEMENT_RESERVE_BYTES ->
  is_ok (reserve_check b scope (mkReplacement (mkStorageRecord id document (mkFootprint 0 0 staged)) scratch Settlement)) = true.
Proof.
  intros Hb Hr Hs Hz Ho Hp Hk. set (r := mkStorageRecord id document (mkFootprint 0 0 staged)).
  destruct (staged_final_ok b r Hb eq_refl eq_refl) as (f & Hf1 & Hf2); [cbn; lia|].
  assert (fp_total (rec_footprint r) = Ok staged) as Ht by (apply fp_total_ok; change (fp_bytes (rec_footprint r)) with (0 + 0 + staged); sizes; lia).
  unfold reserve_check. cbn [rpl_record rpl_purpose rpl_scratch]. fold r. rewrite old_footprint_match.
  rewrite (refuse_if_bind_false (negb (bg_ready b))) by by rewrite Hr.
  rewrite (refuse_if_bind_false (negb (bool_decide (bg_scope b = scope)))) by by rewrite bool_decide_eq_true_2.
  rewrite Ht, bind_Ok, (refuse_if_bind_false (staged =? 0)) by by apply N.eqb_neq.
  rewrite refuse_if_bind_false; [|cbn; destruct (om_get id (bg_records b)); [by rewrite bool_decide_eq_true_2|done]].
  rewrite refuse_if_bind_false; [|cbn; destruct (om_get id (bg_records b)); [done|apply N.eqb_neq; lia]].
  rewrite Hf1, bind_Ok, Hf2, bind_Ok.
  rewrite (refuse_if_bind_false (pinned_elsewhere _ _)) by by apply pinned_elsewhere_false.
  rewrite bind_Ok, (checked_reserve (fp_settlement (bg_usage b)) staged) by lia. cbn [mbind option_bind].
  rewrite checked_reserve by lia. cbn [ok_or]. rewrite bind_Ok, (refuse_if_bind_false (_ <? _)); [done|]. by apply N.ltb_ge.
Qed.

(** Ordinary content cannot starve settlement. However full the content and
    protocol pools are, a write of staged bytes for a document is admitted
    exactly when the budget is open for that scope, the record is not empty,
    its id is free (with room for one more) or already its document's, no other
    document holds the reserve, and the copies fit in what is left of it. *)
Theorem settlement_reserve_available b scope id document staged scratch :
  budget_ok b ->
  is_ok (budget_reserve b scope (mkReplacement (mkStorageRecord id document (mkFootprint 0 0 staged)) scratch Settlement)).1 = true <->
  bg_ready b = true /\ bg_scope b = scope /\ staged <> 0 /\
  match om_get id (bg_records b) with
  | Some o => rec_document o = document
  | None => len (bg_records b) < MAX_ACCOUNTED_RECORDS
  end /\
  (bg_pinned b = None \/ bg_pinned b = Some document) /\
  fp_settlement (bg_usage b) + staged + scratch <= SETTLEMENT_RESERVE_BYTES.
Proof.
  intros Hb. set (r := mkStorageRecord id document (mkFootprint 0 0 staged)). set (w := mkReplacement r scratch Settlement).
  pose proof (bo_count b Hb) as Hcount. split.
  - intros H. destruct (budget_reserve b scope w) as [[g|] b'] eqn:E; [|done]. apply reserve_inv in E as [Hg _]; [|done].
    destruct Hg as [Hr Hs _ Hz Ho Hl _ _ _ _ Hset]. destruct (Hset eq_refl) as [Hp Hk]. apply pinned_elsewhere_false in Hp.
    unfold write_bytes, fp_bytes in *. cbn in *.
    split; [done|]. split; [done|]. split; [lia|]. split; [|split; [done|lia]].
    destruct (om_get id (bg_records b)) as [o|]; [by apply Ho|]. specialize (Hl eq_refl). lia.
  - intros (Hr & Hs & Hz & Ho & Hp & Hk).
    pose proof (reserve_staged_ok b scope id document staged scratch Hb Hr Hs Hz Ho Hp Hk) as H. unfold budget_reserve. fold r w in H.
    by destruct (reserve_check b scope w).
Qed.

(** * Inventories *)

Lemma om_insert_swap (m : bmap bytes StorageRecord) k1 k2 r1 r2 :
  om_wf m -> k1 <> k2 -> om_insert k1 r1 (om_insert k2 r2 m) = om_insert k2 r2 (om_insert k1 r1 m).
Proof.
  intros Hm Hne. apply om_ext; [auto with mewtual..|]. intros k. rewrite !get_insert. repeat case_decide; congruence.
Qed.

Lemma account_swap b x y b1 b2 :
  om_wf (bg_records b) -> account b x = Ok b1 -> account b1 y = Ok b2 ->
  exists b1', account b y = Ok b1' /\ account b1' x = Ok b2.
Proof.
  intros Hwf (Hl1 & Hg1 & Hp1 & Hw1 & ->)%account_inv H2.
  apply account_inv in H2 as (Hl2 & Hg2 & Hp2 & Hw2 & ->). cbn [bg_records bg_usage bg_pinned bg_scope bg_ready] in *.
  rewrite get_insert in Hg2. case_decide as Hne; [done|]. rewrite om_insert_len_new in Hl2 by done.
  eexists. split.
  - apply account_Ok; [done|done| |].
    + intros Hy. specialize (Hp2 Hy). destruct (settling x) eqn:Hx; [|done].
      apply pinned_elsewhere_false in Hp2 as [|[= E]]; [done|]. rewrite <- E. by apply Hp1.
    + destruct Hw2. constructor; cbn in *; lia.
  - cbn [bg_records bg_usage bg_pinned bg_scope bg_ready]. rewrite account_Ok; cbn [bg_records bg_usage bg_pinned bg_scope bg_ready].
    + f_equal. f_equal; [apply om_insert_swap; congruence|apply fp_ext; cbn; lia|].
      destruct (settling x) eqn:Hx, (settling y) eqn:Hy; try done.
      destruct (proj1 (pinned_elsewhere_false _ _) (Hp2 eq_refl)); congruence.
    + by rewrite om_insert_len_new.
    + rewrite get_insert. case_decide; congruence.
    + intros Hx. destruct (settling y) eqn:Hy; [|by apply Hp1]. specialize (Hp2 eq_refl). rewrite Hx in Hp2.
      apply pinned_elsewhere_false in Hp2 as [|[= ->]]; [done|]. apply pinned_elsewhere_false. by right.
    + destruct Hw2. constructor; cbn in *; lia.
Qed.

Lemma account_all_perm records records' : records ≡ₚ records' -> forall b b',
  om_wf (bg_records b) -> account_all b records = Ok b' -> account_all b records' = Ok b'.
Proof.
  induction 1 as [|r l k _ IH|x y l|l k m _ IH1 _ IH2]; intros b b' Hwf H; cbn in *; [done| | |by apply IH2, IH1].
  - apply bind_ok in H as (b1 & H1 & H). rewrite H1, bind_Ok. apply IH; [|done].
    apply account_inv in H1 as (_ & _ & _ & _ & ->). by apply om_wf_insert.
  - apply bind_ok in H as (b1 & H1 & H). apply bind_ok in H as (b2 & H2 & H).
    destruct (account_swap _ _ _ _ _ Hwf H1 H2) as (b1' & -> & H2'). rewrite bind_Ok. by rewrite H2', bind_Ok.
Qed.

(** Reconciliation does not depend on the order a directory is listed in: an
    inventory the budget accepts gives the same budget in every order. *)
Theorem inventory_order_irrelevant scope records records' b :
  records ≡ₚ records' -> from_inventory scope records = Ok b -> from_inventory scope records' = Ok b.
Proof. intros Hp. apply account_all_perm; [done|]. apply om_wf_nil. Qed.

(** * The theorems at work *)

Definition toy_scope : StorageScope := mkStorageScope 7 [x01].

Definition toy_storage : list StorageRecord :=
  [mkStorageRecord [x01] [x0a] (mkFootprint 100 10 0); mkStorageRecord [x02] [x0b] (mkFootprint 0 5 40)].

Definition toy_budget : EpochStorageBudget :=
  mkBudget toy_scope [([x01], mkStorageRecord [x01] [x0a] (mkFootprint 100 10 0));
                      ([x02], mkStorageRecord [x02] [x0b] (mkFootprint 0 5 40))]
    (mkFootprint 100 15 40) (Some [x0b]) true.

Lemma toy_inventory : from_inventory toy_scope toy_storage = Ok toy_budget.
Proof. vm_compute. reflexivity. Qed.

Definition toy_write : Replacement := mkReplacement (mkStorageRecord [x01] [x0a] (mkFootprint 120 10 0)) 30 Ordinary.

Definition toy_guard : StorageReservation := mkReservation (rpl_record toy_write) (mkFootprint 120 15 40).

Lemma toy_reserve : budget_reserve toy_budget toy_scope toy_write = (Ok toy_guard, set_ready false toy_budget).
Proof. vm_compute. reflexivity. Qed.

(** Another document cannot take the reserve, nor an ordinary write use it. *)
Lemma toy_refusals :
  (budget_reserve toy_budget toy_scope (mkReplacement (mkStorageRecord [x03] [x0c] (mkFootprint 0 0 1)) 0 Settlement)).1 = Err SettlementBusy /\
  (budget_reserve toy_budget toy_scope (mkReplacement (mkStorageRecord [x03] [x0c] (mkFootprint CONTENT_ALLOWANCE_BYTES 0 0)) 0 Ordinary)).1 = Err LimitReached /\
  (budget_reserve toy_budget (mkStorageScope 7 [x02]) toy_write).1 = Err WrongScope.
Proof. vm_compute. auto. Qed.

Lemma budget_accounting_witness :
  bg_usage (budget_run toy_budget [BWrite toy_scope toy_write Committed]) = mkFootprint 120 15 40 /\
  budget_ok (budget_run toy_budget [BWrite toy_scope toy_write Committed]).
Proof. split; [reflexivity|]. by apply (budget_accounting toy_scope toy_storage toy_budget _ toy_inventory). Defined.

Lemma abandoned_write_closes_witness :
  bg_ready (budget_run (set_ready false toy_budget) [BVerify toy_scope [x01] None; BInvalidate; BWrite toy_scope toy_write Committed]) = false.
Proof. apply (abandoned_write_closes _ _ _ _ _ _ toy_reserve). repeat constructor. Defined.

(** A write that reached the disk, was renamed and then failed to flush, leaving
    an orphan that the reconciliation accounts for. *)
Definition toy_orphan : StorageRecord := mkStorageRecord [x09] [x0a] (mkFootprint 30 0 0).

Definition toy_left : list StorageRecord := put_file (rpl_record toy_write) toy_storage ++ [toy_orphan].

Definition toy_reconciled : EpochStorageBudget := (reconcile (set_ready false toy_budget) toy_scope (rev toy_left)).2.

Lemma toy_world : rtc world_step (mkWorld toy_budget toy_storage [] None) (mkWorld toy_reconciled toy_left [] None).
Proof.
  eapply rtc_l; [apply (ws_begin _ _ _ _ _ _ _ toy_reserve)|].
  eapply rtc_l; [apply (ws_copy _ _ _ [mkStorageRecord [x09] [x0a] (mkFootprint 160 0 0)]); vm_compute; discriminate|].
  eapply rtc_l; [apply (ws_fail_renamed _ _ _ _ _ [toy_orphan]); vm_compute; discriminate|].
  eapply rtc_l; [|apply rtc_refl].
  apply (ws_reconcile _ _ _ toy_scope (rev toy_left)); [symmetry; apply Permutation_rev|vm_compute; reflexivity].
Qed.

Lemma disk_within_limit_witness :
  bg_usage toy_reconciled = mkFootprint 150 15 40 /\ bg_usage toy_reconciled = footprint_sum (toy_left ++ []).
Proof.
  split; [vm_compute; reflexivity|].
  apply (proj2 (disk_within_limit toy_scope toy_storage toy_budget _ toy_inventory toy_world)); vm_compute; reflexivity.
Defined.

Lemma settlement_reserve_available_witness :
  is_ok (budget_reserve toy_budget toy_scope (mkReplacement (mkStorageRecord [x03] [x0b] (mkFootprint 0 0 9)) 50331579 Settlement)).1 = true <->
  True /\ fp_settlement (bg_usage toy_budget) + 9 + 50331579 <= SETTLEMENT_RESERVE_BYTES.
Proof.
  rewrite settlement_reserve_available by apply (from_inventory_inv _ _ _ toy_inventory).
  split; [tauto|]. intros [_ H]. repeat split; try done. by right.
Defined.

Lemma inventory_order_irrelevant_witness : from_inventory toy_scope (rev toy_storage) = Ok toy_budget.
Proof. apply (inventory_order_irrelevant toy_scope toy_storage); [apply Permutation_rev|exact toy_inventory]. Defined.
