(* ===== verification/FileCrypto.v ===== *)
(** File encryption, [crates/catcoms-storage/src/filecrypto.rs]: sealing one chunk
    under its own content key and wrapping that key, opening it against the
    reference that names it, the codec of references and manifests, and the one
    chunk layout a file size allows.

    Errors are [StorageError]; a failure of the AEAD is its [Crypto] case. A
    string is its UTF-8 bytes. *)

From S2P Require Import Prelude Wire Context Pad Crypto Codec Blob SignedOp.
From stdpp Require Import base list.
From Stdlib Require Import Init.Byte.
Local Open Scope N_scope.

(** * Data *)

Record FileRef := mkFileRef {
  fr_plaintext_cid : Cid;
  fr_ciphertext_cid : Cid;
  fr_wrapped_key : SealedBlob;
  fr_size : N;
  fr_mime : bytes
}.

#[global] Instance FileRef_eq_dec : EqDecision FileRef.
Proof. solve_decision. Defined.

Record FileManifest := mkFileManifest {
  fm_plaintext_cid : Cid;
  fm_total_size : N;
  fm_mime : bytes;
  fm_chunks : list FileRef
}.

#[global] Instance FileManifest_eq_dec : EqDecision FileManifest.
Proof. solve_decision. Defined.

Definition MANIFEST_TAG : N := 241.
Definition MAX_CHUNKS : N := 128.
Definition LEGACY_MAX_SINGLE_BLOB : N := 16 * 1024 * 1024.

(** * Sealing and opening *)

Definition encode_blob (blob : SealedBlob) : bytes := sb_nonce blob ++ sb_ciphertext blob.

Definition decode_blob (b : bytes) : result StorageError SealedBlob :=
  if len b <? 24 then Err Pad.Malformed else Ok (mkSealedBlob (firstn 24 b) (skipn 24 b)).

Definition checked_len (plaintext : bytes) (r : FileRef) : result StorageError bytes :=
  if negb (len plaintext =? fr_size r) then Err Pad.Malformed else Ok plaintext.

Section sealing.
Context {C : Crypto} {A : Aead}.

Definition seal_file (plaintext mime wrap_key : bytes) (rng : Rng) : result StorageError (FileRef * bytes) * Rng :=
  let '(content_key, rng) := fill_bytes 32 rng in
  match pad plaintext CHUNK_PAD_FLOOR CHUNK_PAD_CEILING with
  | Err e => (Err e, rng)
  | Ok padded =>
      match SignedOp.seal content_key padded rng with
      | (Err _, rng) => (Err Pad.Crypto, rng)
      | (Ok content, rng) =>
          let stored := encode_blob content in
          match SignedOp.seal wrap_key content_key rng with
          | (Err _, rng) => (Err Pad.Crypto, rng)
          | (Ok wrapped_key, rng) =>
              (Ok (mkFileRef (Cid_of plaintext) (Cid_of stored) wrapped_key (len plaintext) mime, stored), rng)
          end
      end
  end.

Definition open_file (stored : bytes) (r : FileRef) (wrap_key : bytes) : result StorageError bytes :=
  _ ← refuse_if (negb (bool_decide (Cid_of stored = fr_ciphertext_cid r))) CidMismatch;
  content_key ← map_err (fun _ => Pad.Crypto) (SignedOp.unseal wrap_key (fr_wrapped_key r));
  _ ← refuse_if (negb (length content_key =? 32)%nat) Pad.Malformed;
  content ← decode_blob stored;
  sealed_payload ← map_err (fun _ => Pad.Crypto) (SignedOp.unseal content_key content);
  let fallback :=
    _ ← refuse_if (negb (bool_decide (Cid_of sealed_payload = fr_plaintext_cid r))) CidMismatch;
    checked_len sealed_payload r in
  match unpad sealed_payload CHUNK_PAD_FLOOR CHUNK_PAD_CEILING with
  | Ok body => if bool_decide (Cid_of body = fr_plaintext_cid r) then checked_len body r else fallback
  | Err _ => fallback
  end.
End sealing.

(** * The codecs *)

(** [FileRef::encode]; every [expect] concerns a field of bounded size. *)
Definition ref_encode (r : FileRef) : bytes :=
  [] |> put_bytes_x (fr_plaintext_cid r)
     |> put_bytes_x (fr_ciphertext_cid r)
     |> put_bytes_x (sb_nonce (fr_wrapped_key r))
     |> put_bytes_x (sb_ciphertext (fr_wrapped_key r))
     |> put_u64 (fr_size r)
     |> put_bytes_x (fr_mime r).

Definition get_ref : dec StorageError FileRef :=
  plaintext_cid ← get_exact Pad.Malformed 32;
  ciphertext_cid ← get_exact Pad.Malformed 32;
  nonce ← get_exact Pad.Malformed 24;
  ciphertext ← or_err Pad.Malformed get_bytes;
  size ← or_err Pad.Malformed get_u64;
  mime ← or_err Pad.Malformed get_str;
  mret (mkFileRef plaintext_cid ciphertext_cid (mkSealedBlob nonce ciphertext) size mime).

(** [FileRef::decode] *)
Definition ref_decode (input : bytes) : result StorageError FileRef := run_or Pad.Malformed get_ref input.

Definition put_refs (chunks : list FileRef) (buf : bytes) : bytes :=
  fold_left (fun b r => put_bytes_x (ref_encode r) b) chunks buf.

(** [FileManifest::encode]; [chunks.len() as u32] *)
Definition manifest_encode (m : FileManifest) : bytes :=
  [] |> put_u8 MANIFEST_TAG
     |> put_bytes_x (fm_plaintext_cid m)
     |> put_u64 (fm_total_size m)
     |> put_bytes_x (fm_mime m)
     |> put_u32 (len (fm_chunks m) mod (u32_max + 1))
     |> put_refs (fm_chunks m).

(** [FileManifest::validate_layout] *)
Definition div_up (a b : N) : N := (a + b - 1) / b.

Definition expected_chunks (total_size : N) : N := div_up (N.max total_size 1) CHUNK_PAD_CEILING.

(** [(self.total_size - start).min(CHUNK)]; the count check keeps the subtraction from wrapping *)
Definition expected_len (total_size : N) (i : nat) : N :=
  N.min (total_size - N.of_nat i * CHUNK_PAD_CEILING) CHUNK_PAD_CEILING.

Fixpoint sizes_match (total_size : N) (i : nat) (chunks : list FileRef) : bool :=
  match chunks with
  | [] => true
  | c :: rest => (fr_size c =? expected_len total_size i) && sizes_match total_size (S i) rest
  end.

Definition validate_layout (m : FileManifest) : result StorageError unit :=
  let expected := expected_chunks (fm_total_size m) in
  _ ← refuse_if ((MAX_CHUNKS <? expected) || negb (len (fm_chunks m) =? expected)) Pad.Malformed;
  refuse_if (negb (sizes_match (fm_total_size m) 0 (fm_chunks m))) Pad.Malformed.

Definition get_chunk : dec StorageError FileRef :=
  raw ← or_err Pad.Malformed get_bytes;
  dec_lift (ref_decode raw).

Definition get_manifest : dec StorageError FileManifest :=
  tag ← or_err Pad.Malformed get_u8;
  _ ← dec_refuse (negb (tag =? MANIFEST_TAG)) Pad.Malformed;
  plaintext_cid ← get_exact Pad.Malformed 32;
  total_size ← or_err Pad.Malformed get_u64;
  mime ← or_err Pad.Malformed get_str;
  count ← or_err Pad.Malformed get_u32;
  _ ← dec_refuse (MAX_CHUNKS <? count) Pad.Malformed;
  chunks ← get_n (N.to_nat count) get_chunk;
  mret (mkFileManifest plaintext_cid total_size mime chunks).

(** [FileManifest::decode] *)
Definition manifest_decode (input : bytes) : result StorageError FileManifest :=
  m ← run_or Pad.Malformed get_manifest input;
  _ ← validate_layout m;
  Ok m.

Definition decode_or_legacy (input : bytes) : result StorageError FileManifest :=
  match manifest_decode input with
  | Ok m => Ok m
  | Err _ =>
      r ← ref_decode input;
      _ ← refuse_if (LEGACY_MAX_SINGLE_BLOB <? fr_size r) Pad.Malformed;
      Ok (mkFileManifest (fr_plaintext_cid r) (fr_size r) (fr_mime r) [r])
  end.

(** * Exactness of the codecs *)

(** The widths a Rust value has. *)
Record ref_typed (r : FileRef) : Prop := mkRefTyped {
  rt_plain : length (fr_plaintext_cid r) = 32%nat;
  rt_cipher : length (fr_ciphertext_cid r) = 32%nat;
  rt_nonce : length (sb_nonce (fr_wrapped_key r)) = 24%nat;
  rt_key : len (sb_ciphertext (fr_wrapped_key r)) <= u32_max;
  rt_size : fr_size r <= u64_max;
  rt_mime : len (fr_mime r) <= u32_max /\ utf8_valid (fr_mime r) = true
}.

Lemma ref_encode_eq r :
  ref_encode r = lp (fr_plaintext_cid r) ++ lp (fr_ciphertext_cid r) ++ lp (sb_nonce (fr_wrapped_key r)) ++
    lp (sb_ciphertext (fr_wrapped_key r)) ++ be_bytes 8 (fr_size r) ++ lp (fr_mime r).
Proof. unfold ref_encode, put_u64. rewrite !put_bytes_x_lp. cbn [app]. by rewrite <- !app_assoc. Qed.

Lemma ref_decode_spec bs r : ref_decode bs = Ok r <-> bs = ref_encode r /\ ref_typed r.
Proof.
  split.
  - intros H. eapply (run_or_consumes _ get_ref (fun r bs => bs = ref_encode r /\ ref_typed r) _ _ H). clear.
    intros d r d' H. unfold get_ref in H. dec_step H.
    destruct Hr as [-> ?], Hr0 as [-> ?], Hr1 as [-> ?], Hr2 as [-> ?], Hr3 as [-> ?], Hr4 as (-> & ? & ?).
    eexists. split; [|split; [rewrite ref_encode_eq; cbn; reflexivity|by constructor]].
    rewrite R, R0, R1, R2, R3, R4. by rewrite <- !app_assoc.
  - intros [-> [H1 H2 H3 H4 H5 [H6 H7]]]. apply run_or_reads. rewrite ref_encode_eq. destruct r as [p c [n k] s m]; cbn in *.
    unfold get_ref. reads_go; try (by apply reads_exact); try (by apply reads_or, reads_bytes).
    + by apply reads_or, reads_u64.
    + by apply reads_or, reads_str.
Qed.

Definition chunk_bytes (r : FileRef) : bytes := lp (ref_encode r).

Lemma put_refs_eq chunks : forall buf, put_refs chunks buf = buf ++ concat (chunk_bytes <$> chunks).
Proof.
  induction chunks as [|c chunks IH]; intros buf; cbn; [by rewrite app_nil_r|].
  unfold put_refs in IH. rewrite IH, put_bytes_x_lp. by rewrite <- app_assoc.
Qed.

Lemma reads_chunk r : ref_typed r -> len (ref_encode r) <= u32_max -> reads get_chunk (chunk_bytes r) r.
Proof.
  intros Hr Hl. unfold get_chunk, chunk_bytes. eapply reads_bind_last; [by apply reads_or, reads_bytes|].
  apply reads_lift_ok. by apply ref_decode_spec.
Qed.

Lemma consumes_chunk : consumes get_chunk (fun r bs => bs = chunk_bytes r /\ (ref_typed r /\ len (ref_encode r) <= u32_max)).
Proof.
  intros d r d' H. unfold get_chunk in H. dec_step H. destruct Hr as [-> Hl]. apply ref_decode_spec in H as [-> Hr].
  exists (lp (ref_encode r)). done.
Qed.
#[export] Hint Resolve consumes_chunk : mewtual_dec.

Record manifest_typed (m : FileManifest) : Prop := mkManifestTyped {
  mt_plain : length (fm_plaintext_cid m) = 32%nat;
  mt_total : fm_total_size m <= u64_max;
  mt_mime : len (fm_mime m) <= u32_max /\ utf8_valid (fm_mime m) = true;
  mt_chunks : Forall (fun r => ref_typed r /\ len (ref_encode r) <= u32_max) (fm_chunks m)
}.

Lemma manifest_encode_eq m :
  len (fm_chunks m) <= u32_max ->
  manifest_encode m = be_bytes 1 MANIFEST_TAG ++ lp (fm_plaintext_cid m) ++ be_bytes 8 (fm_total_size m) ++ lp (fm_mime m) ++
    be_bytes 4 (len (fm_chunks m)) ++ concat (chunk_bytes <$> fm_chunks m).
Proof.
  intros Hl. unfold manifest_encode. rewrite put_refs_eq. unfold put_u8, put_u64, put_u32. rewrite !put_bytes_x_lp. cbn [app].
  rewrite N.mod_small by lia. by rewrite <- !app_assoc.
Qed.

Lemma get_manifest_spec bs m :
  run_or Pad.Malformed get_manifest bs = Ok m <->
  bs = manifest_encode m /\ manifest_typed m /\ len (fm_chunks m) <= MAX_CHUNKS.
Proof.
  split.
  - intros H. eapply (run_or_consumes _ get_manifest (fun m bs => bs = manifest_encode m /\ manifest_typed m /\ len (fm_chunks m) <= MAX_CHUNKS) _ _ H).
    clear. intros d m d' H. unfold get_manifest in H.
    apply dec_bind_ok in H as (tag & d1 & Htag & H). apply (consumes_or_u8 _) in Htag as (b1 & R1 & -> & _).
    apply dec_bind_ok in H as (u1 & d2 & [Ht E2]%dec_refuse_ok & H). subst d2. apply negb_false_iff, N.eqb_eq in Ht as ->.
    apply dec_bind_ok in H as (cid & d3 & Hcid & H). apply (consumes_exact _ _) in Hcid as (b3 & R3 & -> & Hc).
    apply dec_bind_ok in H as (size & d4 & Hs & H). apply (consumes_or_u64 _) in Hs as (b4 & R4 & -> & Hs).
    apply dec_bind_ok in H as (mime & d5 & Hm & H). apply (consumes_or_str _) in Hm as (b5 & R5 & -> & Hm).
    apply dec_bind_ok in H as (count & d6 & Hn & H). apply (consumes_or_u32 _) in Hn as (b6 & R6 & -> & Hn).
    apply dec_bind_ok in H as (u2 & d7 & [Hcount E7]%dec_refuse_ok & H). subst d7. apply N.ltb_ge in Hcount.
    apply dec_bind_ok in H as (chunks & d8 & Hch & H).
    apply (consumes_list _ chunk_bytes _ _ consumes_chunk) in Hch as (b8 & R8 & -> & Hl & Hf).
    apply dec_ret_ok in H as [<- <-].
    assert (len chunks = count) as Hlen by (unfold len; lia).
    eexists. split; [|split; [rewrite manifest_encode_eq; cbn; [reflexivity|lia]|]].
    + rewrite R1, R3, R4, R5, R6, R8, Hlen. by rewrite <- !app_assoc.
    + split; [by constructor|]. cbn. lia.
  - intros (-> & [H1 H2 [H3 H4] H5] & H6). apply run_or_reads. assert (MAX_CHUNKS <= u32_max) as Hmax by done.
    rewrite manifest_encode_eq by lia. destruct m as [p t mime chunks]; cbn in *. unfold get_manifest. reads_go.
    + by apply reads_or, reads_u8.
    + done.
    + by apply reads_exact.
    + by apply reads_or, reads_u64.
    + by apply reads_or, reads_str.
    + apply reads_or, reads_u32. lia.
    + by apply N.ltb_ge.
    + unfold len. rewrite Nat2N.id. apply reads_n. eapply Forall_impl; [exact H5|]. intros r [? ?]. by apply reads_chunk.
Qed.

(** * The layout *)

Lemma sizes_match_spec total chunks : forall i,
  sizes_match total i chunks = true <-> forall j c, chunks !! j = Some c -> fr_size c = expected_len total (i + j).
Proof.
  induction chunks as [|c chunks IH]; intros i; cbn; [by split|]. rewrite andb_true_iff, N.eqb_eq, IH. split.
  - intros [Hc H] [|j] x Hx; cbn in Hx; [injection Hx as <-; by rewrite Nat.add_0_r|]. rewrite (H _ _ Hx). f_equal. lia.
  - intros H. split; [rewrite (H 0%nat c eq_refl); f_equal; lia|]. intros j x Hx. rewrite (H (S j) x Hx). f_equal. lia.
Qed.

Record layout_ok (m : FileManifest) : Prop := mkLayoutOk {
  lo_count : len (fm_chunks m) = expected_chunks (fm_total_size m);
  lo_max : len (fm_chunks m) <= MAX_CHUNKS;
  lo_sizes : forall j c, fm_chunks m !! j = Some c -> fr_size c = expected_len (fm_total_size m) j
}.

Lemma validate_layout_ok m u : validate_layout m = Ok u <-> layout_ok m.
Proof.
  unfold validate_layout. destruct u. split.
  - intros H. apply refuse_if_bind_ok in H as [[H1%N.ltb_ge H2%negb_false_iff]%orb_false_iff H].
    apply N.eqb_eq in H2. apply refuse_if_ok, negb_false_iff in H. rewrite sizes_match_spec in H. constructor; [done|lia|exact H].
  - intros [H1 H2 H3]. rewrite refuse_if_bind_false.
    + by rewrite (proj2 (sizes_match_spec _ _ 0) H3).
    + apply orb_false_iff. split; [apply N.ltb_ge; lia|]. apply negb_false_iff. by apply N.eqb_eq.
Qed.

Lemma div_up_spec a b n : 0 < b -> 0 < a -> div_up a b = n <-> (n - 1) * b < a <= n * b.
Proof.
  intros Hb Ha. unfold div_up. pose proof (N.div_mod (a + b - 1) b ltac:(lia)) as Hd. pose proof (N.mod_lt (a + b - 1) b ltac:(lia)) as Hm.
  set (q := (a + b - 1) / b) in *. clearbody q. set (r := (a + b - 1) mod b) in *. clearbody r.
  assert (1 <= q) by (destruct (N.eq_dec q 0) as [->|]; lia). split.
  - intros <-. replace ((q - 1) * b) with (b * q - b) by nia. lia.
  - intros [H1 H2]. assert (q = n \/ q < n \/ n < q) as [Hq|[Hq|Hq]] by lia; [done|nia|nia].
Qed.

Lemma chunk_ceiling_pos : 0 < CHUNK_PAD_CEILING.
Proof. done. Qed.

Lemma expected_cover total : total <= expected_chunks total * CHUNK_PAD_CEILING /\ 1 <= expected_chunks total.
Proof.
  unfold expected_chunks. pose proof (proj1 (div_up_spec (N.max total 1) CHUNK_PAD_CEILING _ chunk_ceiling_pos ltac:(lia)) eq_refl) as [H1 H2].
  split; [lia|]. destruct (div_up _ _); lia.
Qed.

Lemma expected_sum total n :
  sum_of (expected_len total) (seq 0 n) = N.min total (N.of_nat n * CHUNK_PAD_CEILING).
Proof.
  induction n as [|n IH]; [cbn; lia|]. rewrite seq_S, sum_of_app, IH. cbn [sum_of Nat.add]. unfold expected_len.
  replace (N.of_nat (S n) * CHUNK_PAD_CEILING) with (N.of_nat n * CHUNK_PAD_CEILING + CHUNK_PAD_CEILING) by lia. lia.
Qed.

Lemma sum_of_lookup {X} (f : X -> N) (g : nat -> N) l : forall i,
  (forall j x, l !! j = Some x -> f x = g (i + j)%nat) -> sum_of f l = sum_of g (seq i (length l)).
Proof.
  induction l as [|x l IH]; intros i H; cbn; [done|]. rewrite (H 0%nat x eq_refl), Nat.add_0_r. f_equal. apply IH.
  intros j y Hy. rewrite (H (S j) y Hy). f_equal. lia.
Qed.

Lemma layout_total m : layout_ok m -> sum_of fr_size (fm_chunks m) = fm_total_size m.
Proof.
  intros [Hc _ Hs]. rewrite (sum_of_lookup fr_size (expected_len (fm_total_size m)) _ 0 Hs), expected_sum.
  pose proof (expected_cover (fm_total_size m)) as [H _]. unfold len in Hc. rewrite Hc. lia.
Qed.

(** Every chunk but the last is full. *)
Lemma layout_full m j c : layout_ok m -> fm_chunks m !! j = Some c -> (S j < length (fm_chunks m))%nat -> fr_size c = CHUNK_PAD_CEILING.
Proof.
  intros Hm Hj Hlt. rewrite (lo_sizes _ Hm _ _ Hj). unfold expected_len. pose proof (lo_count _ Hm) as Hc. unfold len in Hc.
  unfold expected_chunks in Hc. symmetry in Hc. apply div_up_spec in Hc; [|done|lia].
  assert (N.of_nat (S j) * CHUNK_PAD_CEILING <= (N.of_nat (length (fm_chunks m)) - 1) * CHUNK_PAD_CEILING) by nia.
  replace (N.of_nat (S j) * CHUNK_PAD_CEILING) with (N.of_nat j * CHUNK_PAD_CEILING + CHUNK_PAD_CEILING) in * by lia. lia.
Qed.

(** A manifest cannot make a reader do more work than its size says. Every
    manifest that decodes names between 1 and 128 chunks whose sizes add up to
    the declared size, at most 1 GiB, every chunk but the last full; and two
    manifests that declare one size have the same chunk sizes. *)
Theorem manifest_layout_bounded input m :
  manifest_decode input = Ok m ->
  1 <= len (fm_chunks m) <= MAX_CHUNKS /\ sum_of fr_size (fm_chunks m) = fm_total_size m /\
  fm_total_size m <= MAX_CHUNKS * CHUNK_PAD_CEILING /\
  (forall j c, fm_chunks m !! j = Some c -> (S j < length (fm_chunks m))%nat -> fr_size c = CHUNK_PAD_CEILING) /\
  (forall input' m', manifest_decode input' = Ok m' -> fm_total_size m' = fm_total_size m ->
     fr_size <$> fm_chunks m' = fr_size <$> fm_chunks m).
Proof.
  intros H. assert (forall i x, manifest_decode i = Ok x -> layout_ok x) as Hlay.
  { intros i x Hx. unfold manifest_decode in Hx. apply bind_ok in Hx as (y & _ & Hx). apply bind_ok in Hx as (u & Hu & Hx).
    injection Hx as <-. by apply validate_layout_ok in Hu. }
  pose proof (Hlay _ _ H) as Hm. pose proof (expected_cover (fm_total_size m)) as [Hcov Hone]. pose proof (lo_count m Hm). pose proof (lo_max m Hm).
  split; [lia|]. split; [by apply layout_total|]. split; [nia|]. split; [by intros; eapply layout_full|].
  intros i x Hx Et. apply Hlay in Hx. apply list_eq. intros j. rewrite !list_lookup_fmap.
  assert (length (fm_chunks x) = length (fm_chunks m)) as El.
  { pose proof (lo_count x Hx) as E1. rewrite Et in E1. unfold len in *. lia. }
  destruct (fm_chunks x !! j) as [c|] eqn:E1, (fm_chunks m !! j) as [c'|] eqn:E2; cbn;
    [|apply lookup_lt_Some in E1; apply lookup_ge_None in E2; lia|apply lookup_lt_Some in E2; apply lookup_ge_None in E1; lia|done].
  f_equal. rewrite (lo_sizes _ Hx _ _ E1), (lo_sizes _ Hm _ _ E2). by rewrite Et.
Qed.

Lemma manifest_decode_spec bs m :
  manifest_decode bs = Ok m <-> bs = manifest_encode m /\ manifest_typed m /\ layout_ok m.
Proof.
  unfold manifest_decode. split.
  - intros H. apply bind_ok in H as (y & Hy & H). apply bind_ok in H as (u & Hu & H). injection H as <-.
    apply get_manifest_spec in Hy as (-> & Ht & _). by apply validate_layout_ok in Hu.
  - intros (-> & Ht & Hl). rewrite (proj2 (get_manifest_spec _ m)) by (split_and!; [done|done|apply Hl]). rewrite bind_Ok.
    by rewrite (proj2 (validate_layout_ok m tt) Hl).
Qed.

(** A reference starts with the length prefix of its first address, not with the manifest tag. *)
Lemma ref_encode_head r rest : ref_typed r -> ref_encode r ++ rest <> be_bytes 1 MANIFEST_TAG ++ skipn 1 (ref_encode r ++ rest).
Proof.
  intros Hr. rewrite ref_encode_eq. unfold lp at 1. unfold len. rewrite (rt_plain r Hr), <- !app_assoc.
  intros H. apply (f_equal (firstn 1)) in H. rewrite !firstn_app, !length_be_bytes in H. discriminate H.
Qed.

(** One field, two formats, no confusion. A reference field reads exactly as the
    manifest it encodes, if it is the encoding of a typed manifest with the one
    legal layout, or else as the single chunk of a legacy entry, if it is the
    encoding of a typed reference of at most 16 MiB; nothing else reads, and no
    reference is ever taken for a manifest. *)
Theorem file_field_exact input m :
  decode_or_legacy input = Ok m <->
  (input = manifest_encode m /\ manifest_typed m /\ layout_ok m) \/
  (exists r, input = ref_encode r /\ ref_typed r /\ fr_size r <= LEGACY_MAX_SINGLE_BLOB /\
     m = mkFileManifest (fr_plaintext_cid r) (fr_size r) (fr_mime r) [r]).
Proof.
  rewrite <- manifest_decode_spec. unfold decode_or_legacy. split.
  - destruct (manifest_decode input) as [x|] eqn:E; [intros [= ->]; by left|]. intros H. right.
    apply bind_ok in H as (r & [-> Hr]%ref_decode_spec & H). apply refuse_if_bind_ok in H as [Hs%N.ltb_ge H]. injection H as <-. by exists r.
  - intros [->|(r & -> & Hr & Hs & ->)]; [done|].
    destruct (manifest_decode (ref_encode r)) as [x|] eqn:E.
    + exfalso. apply manifest_decode_spec in E as (E & _ & Hl). rewrite manifest_encode_eq in E
        by (pose proof (lo_max x Hl) as H; unfold MAX_CHUNKS, u32_max in *; lia).
      apply (ref_encode_head r [] Hr). rewrite app_nil_r, E. rewrite skipn_app, length_be_bytes. rewrite skipn_all2 by by rewrite length_be_bytes. done.
    + rewrite (proj2 (ref_decode_spec _ r) (conj eq_refl Hr)), bind_Ok. rewrite refuse_if_bind_false by by apply N.ltb_ge. done.
Qed.

(** * Opening *)

(** These two are different and have one BLAKE3 digest. *)
Definition address_collision `{C : Crypto} (a b : bytes) : Prop := a <> b /\ blake3 a = blake3 b.

Lemma checked_len_ok p r x : checked_len p r = Ok x <-> x = p /\ len p = fr_size r.
Proof. unfold checked_len. destruct (N.eqb_spec (len p) (fr_size r)); cbn; split; try done; [by intros [= <-]|by intros [-> _]|by intros [_ ?]]. Qed.

Lemma open_file_inv `{C : Crypto} `{A : Aead} stored r key p :
  open_file stored r key = Ok p ->
  Cid_of stored = fr_ciphertext_cid r /\ Cid_of p = fr_plaintext_cid r /\ len p = fr_size r.
Proof.
  unfold open_file. intros H. apply refuse_if_bind_ok in H as [Hc%negb_false_iff%bool_decide_eq_true H].
  apply bind_ok in H as (ck & _ & H). apply refuse_if_bind_ok in H as [_ H]. apply bind_ok in H as (content & _ & H).
  apply bind_ok in H as (payload & _ & H). split; [done|].
  assert ((_ ← refuse_if (negb (bool_decide (Cid_of payload = fr_plaintext_cid r))) CidMismatch; checked_len payload r) = Ok p ->
    Cid_of p = fr_plaintext_cid r /\ len p = fr_size r) as Hfall.
  { intros Hf. apply refuse_if_bind_ok in Hf as [Hp%negb_false_iff%bool_decide_eq_true Hf]. by apply checked_len_ok in Hf as [-> ?]. }
  destruct (unpad payload CHUNK_PAD_FLOOR CHUNK_PAD_CEILING) as [body|]; [|by apply Hfall].
  destruct (bool_decide (Cid_of body = fr_plaintext_cid r)) eqn:Hb; [|by apply Hfall].
  apply bool_decide_eq_true in Hb. by apply checked_len_ok in H as [-> ?].
Qed.

(** What opens is what the reference names. A blob opens only if its address is
    the one in the reference, and then the plaintext has the reference's
    plaintext address and its declared length; whichever keys, blobs and
    encryptions two references use, if they name one plaintext address what
    they open to is equal, or the two are a BLAKE3 collision. *)
Theorem open_file_sound {C : Crypto} {A : Aead} stored r key p stored' r' key' p' :
  open_file stored r key = Ok p -> open_file stored' r' key' = Ok p' -> fr_plaintext_cid r = fr_plaintext_cid r' ->
  Cid_of stored = fr_ciphertext_cid r /\ Cid_of p = fr_plaintext_cid r /\ len p = fr_size r /\
  (p = p' \/ address_collision p p').
Proof.
  intros (H1 & H2 & H3)%open_file_inv (_ & H2' & _)%open_file_inv E. split_and!; try done.
  destruct (decide (p = p')) as [|Hne]; [by left|right]. split; [done|]. unfold Cid_of in *. congruence.
Qed.

Section roundtrip.
Context {C : Crypto} {A : Aead} {L : AeadLaws A}.

Lemma seal_inv key p rng blob rng' :
  SignedOp.seal key p rng = (Ok blob, rng') ->
  length (sb_nonce blob) = 24%nat /\ aead_encrypt key (sb_nonce blob) p = Some (sb_ciphertext blob) /\ rng' = (fill_bytes 24 rng).2.
Proof.
  unfold SignedOp.seal. destruct (fill_bytes 24 rng) as [nonce r] eqn:E. destruct (aead_encrypt key nonce p) as [c|] eqn:Ec; [|done].
  intros [= <- <-]. cbn. split; [|done]. pose proof (length_fill 24 rng) as H. by rewrite E in H.
Qed.

Lemma decode_encode_blob blob : length (sb_nonce blob) = 24%nat -> decode_blob (encode_blob blob) = Ok blob.
Proof.
  intros Hn. unfold decode_blob, encode_blob. rewrite len_app.
  destruct (N.ltb_spec (len (sb_nonce blob) + len (sb_ciphertext blob)) 24) as [H|H]; [unfold len in H; lia|].
  rewrite firstn_app, skipn_app, Hn. cbn [Nat.sub]. rewrite firstn_0, app_nil_r.
  rewrite firstn_all2, skipn_all2 by lia. by destruct blob.
Qed.

(** A blob that carries [payload] under a key the reference wraps opens as the end of [open_file] decides. *)
Lemma open_file_payload ck kb cb payload wrap_key r :
  length ck = 32%nat -> aead_decrypt wrap_key (sb_nonce kb) (sb_ciphertext kb) = Some ck ->
  length (sb_nonce cb) = 24%nat -> aead_decrypt ck (sb_nonce cb) (sb_ciphertext cb) = Some payload ->
  fr_wrapped_key r = kb -> fr_ciphertext_cid r = Cid_of (encode_blob cb) ->
  open_file (encode_blob cb) r wrap_key =
  let fallback :=
    _ ← refuse_if (negb (bool_decide (Cid_of payload = fr_plaintext_cid r))) CidMismatch;
    checked_len payload r in
  match unpad payload CHUNK_PAD_FLOOR CHUNK_PAD_CEILING with
  | Ok body => if bool_decide (Cid_of body = fr_plaintext_cid r) then checked_len body r else fallback
  | Err _ => fallback
  end.
Proof.
  intros Hk Hw Hn Hd <- Hc. unfold open_file. rewrite Hc, bool_decide_eq_true_2 by done. cbn [negb].
  rewrite (refuse_if_bind_false _ _ _ eq_refl). unfold SignedOp.unseal. rewrite Hw. cbn [ok_or map_err]. rewrite bind_Ok.
  rewrite Hk, (refuse_if_bind_false (negb (32 =? 32)%nat)) by done. rewrite decode_encode_blob, bind_Ok by done. rewrite Hd. cbn [ok_or map_err].
  by rewrite bind_Ok.
Qed.

Lemma chunk_pad_len body frame : pad body CHUNK_PAD_FLOOR CHUNK_PAD_CEILING = Ok frame ->
  len frame = padded_len (len body) CHUNK_PAD_FLOOR CHUNK_PAD_CEILING + 4.
Proof.
  unfold pad. destruct (_ <? _); [done|]. intros [= <-]. autorewrite with mewtual_len. rewrite len_replicate.
  pose proof (padded_len_ge (len body) CHUNK_PAD_FLOOR CHUNK_PAD_CEILING). lia.
Qed.

Lemma seal_file_spec p mime key rng r stored rng' :
  seal_file p mime key rng = (Ok (r, stored), rng') ->
  open_file stored r key = Ok p /\ fr_plaintext_cid r = Cid_of p /\ fr_ciphertext_cid r = Cid_of stored /\ fr_size r = len p /\
  fr_mime r = mime /\ length (sb_nonce (fr_wrapped_key r)) = 24%nat /\ len (sb_ciphertext (fr_wrapped_key r)) = 48 /\
  len stored = padded_len (len p) CHUNK_PAD_FLOOR CHUNK_PAD_CEILING + 44 /\ rng_at rng' = (rng_at rng + 80)%nat /\ len p <= u32_max.
Proof using Type*.
  unfold seal_file. destruct (fill_bytes 32 rng) as [ck rng1] eqn:Eck.
  assert (length ck = 32%nat /\ rng_at rng1 = (rng_at rng + 32)%nat) as [Hck Hr1].
  { pose proof (length_fill 32 rng) as H. rewrite Eck in H. split; [exact H|]. unfold fill_bytes in Eck. by injection Eck as _ <-. }
  destruct (pad p CHUNK_PAD_FLOOR CHUNK_PAD_CEILING) as [padded|] eqn:Ep; [|done].
  destruct (SignedOp.seal ck padded rng1) as [[content|] rng2] eqn:E1; [|done].
  destruct (SignedOp.seal key ck rng2) as [[wrapped|] rng3] eqn:E2; [|done]. intros [= <- <- <-].
  apply seal_inv in E1 as (Hn1 & Hc1 & ->). apply seal_inv in E2 as (Hn2 & Hc2 & ->).
  cbn [fr_plaintext_cid fr_ciphertext_cid fr_wrapped_key fr_size fr_mime].
  split; [|split_and!; try done].
  - rewrite (open_file_payload ck wrapped content padded) by (done || by apply aead_opens). cbv zeta. cbn [fr_plaintext_cid].
    rewrite (unpad_pad _ _ _ _ Ep), bool_decide_eq_true_2 by done. by apply checked_len_ok.
  - rewrite (aead_tag _ _ _ _ Hc2). unfold len. by rewrite Hck.
  - unfold encode_blob. rewrite len_app, (aead_tag _ _ _ _ Hc1), (chunk_pad_len _ _ Ep). unfold len at 1. rewrite Hn1. lia.
  - cbn. rewrite Hr1. lia.
  - unfold pad in Ep. destruct (N.ltb_spec u32_max (len p)); [done|lia].
Qed.
End roundtrip.

(** A sealed file opens, and its blob shows a bucket. What is sealed under a
    group's file key opens under it to the same bytes; the reference carries
    the true address, length and type and survives its own codec; the stored
    blob is the padding bucket of the length and 44 bytes, so files in one
    bucket are indistinguishable by size; and sealing draws a content key and
    two nonces of its own, 80 fresh random bytes. *)
Theorem file_seal_roundtrip {C : Crypto} {CL : CryptoLaws C} {A : Aead} {L : AeadLaws A} p mime key rng r stored rng' :
  seal_file p mime key rng = (Ok (r, stored), rng') -> len mime <= u32_max -> utf8_valid mime = true ->
  open_file stored r key = Ok p /\ ref_decode (ref_encode r) = Ok r /\
  (fr_plaintext_cid r, fr_ciphertext_cid r, fr_size r, fr_mime r) = (Cid_of p, Cid_of stored, len p, mime) /\
  len stored = padded_len (len p) CHUNK_PAD_FLOOR CHUNK_PAD_CEILING + 44 /\ rng_at rng' = (rng_at rng + 80)%nat.
Proof.
  intros H Hm Hu. destruct (seal_file_spec _ _ _ _ _ _ _ H) as (Ho & E1 & E2 & E3 & E4 & Hn & Hk & Hs & Hr & Hl).
  split; [done|]. split; [|split; [by rewrite E1, E2, E3, E4|done]]. apply ref_decode_spec. split; [done|].
  constructor; rewrite ?E1, ?E2, ?E3, ?E4; unfold Cid_of; try apply blake3_length; try done; [rewrite Hk; unfold u32_max; lia|unfold u32_max, u64_max in *; lia].
Qed.

(** Blobs sealed before padding existed still open. If a blob carries the
    plaintext itself under a key the reference wraps, it opens to that
    plaintext, unless the plaintext happens to be a padded frame of other bytes
    with the very same BLAKE3 address. *)
Theorem unpadded_blob_opens {C : Crypto} {A : Aead} ck kb cb p wrap_key r :
  length ck = 32%nat -> aead_decrypt wrap_key (sb_nonce kb) (sb_ciphertext kb) = Some ck ->
  length (sb_nonce cb) = 24%nat -> aead_decrypt ck (sb_nonce cb) (sb_ciphertext cb) = Some p ->
  r = mkFileRef (Cid_of p) (Cid_of (encode_blob cb)) kb (len p) (fr_mime r) ->
  open_file (encode_blob cb) r wrap_key = Ok p \/ exists body, unpad p CHUNK_PAD_FLOOR CHUNK_PAD_CEILING = Ok body /\ address_collision body p.
Proof.
  intros Hck Hw Hn Hd Hr. rewrite (open_file_payload ck kb cb p) by (done || by rewrite Hr). cbv zeta.
  assert (fr_plaintext_cid r = Cid_of p) as -> by by rewrite Hr. assert (checked_len p r = Ok p) as Hp by (apply checked_len_ok; by rewrite Hr).
  rewrite (bool_decide_eq_true_2 (Cid_of p = Cid_of p)) by done. cbn [negb]. rewrite (refuse_if_bind_false false) by done.
  destruct (unpad p CHUNK_PAD_FLOOR CHUNK_PAD_CEILING) as [body|] eqn:E; [|by left].
  case_bool_decide as Hb; [|by left]. right. exists body. split; [done|]. split; [|exact Hb].
  intros ->. apply unpad_shape in E as [_ E]. apply (f_equal len) in E. revert E. autorewrite with mewtual_len. lia.
Qed.

(** * The theorems at work *)

Definition toy_file_key : bytes := replicate 32 x07.
Definition toy_plain : bytes := bytes_of_string "hello".
Definition toy_mime : bytes := bytes_of_string "text/plain".

Definition toy_sealed_file : result StorageError (FileRef * bytes) * Rng := seal_file toy_plain toy_mime toy_file_key toy_rng.

Definition toy_file_ref : FileRef := match toy_sealed_file.1 with Ok (r, _) => r | Err _ => mkFileRef [] [] (mkSealedBlob [] []) 0 [] end.
Definition toy_stored : bytes := match toy_sealed_file.1 with Ok (_, s) => s | Err _ => [] end.

Lemma toy_sealed_ok : seal_file toy_plain toy_mime toy_file_key toy_rng = (Ok (toy_file_ref, toy_stored), toy_sealed_file.2).
Proof. vm_compute. reflexivity. Qed.

Lemma toy_opens : open_file toy_stored toy_file_ref toy_file_key = Ok toy_plain.
Proof. vm_compute. reflexivity. Qed.

Lemma toy_opens_only_itself :
  open_file (x00 :: toy_stored) toy_file_ref toy_file_key = Err CidMismatch /\
  open_file toy_stored (mkFileRef (fr_plaintext_cid toy_file_ref) (fr_ciphertext_cid toy_file_ref) (fr_wrapped_key toy_file_ref) 4 toy_mime)
    toy_file_key = Err Pad.Malformed.
Proof. vm_compute. auto. Qed.

Lemma file_seal_roundtrip_witness : open_file toy_stored toy_file_ref toy_file_key = Ok toy_plain.
Proof. apply (file_seal_roundtrip (C:=toy_crypto) _ _ _ _ _ _ _ toy_sealed_ok); vm_compute; [discriminate|reflexivity]. Defined.

Lemma open_file_sound_witness : len toy_plain = fr_size toy_file_ref.
Proof. apply (open_file_sound (C:=toy_crypto) _ _ _ _ _ _ _ _ toy_opens toy_opens eq_refl). Defined.

Definition toy_manifest : FileManifest := mkFileManifest (Cid_of toy_plain) 5 toy_mime [toy_file_ref].

Lemma toy_manifest_decodes : manifest_decode (manifest_encode toy_manifest) = Ok toy_manifest.
Proof. vm_compute. reflexivity. Qed.

(** A second chunk, or another size, is refused. *)
Lemma toy_manifest_refused :
  manifest_decode (manifest_encode (mkFileManifest (Cid_of toy_plain) 5 toy_mime [toy_file_ref; toy_file_ref])) = Err Pad.Malformed /\
  manifest_decode (manifest_encode (mkFileManifest (Cid_of toy_plain) 6 toy_mime [toy_file_ref])) = Err Pad.Malformed /\
  decode_or_legacy (ref_encode toy_file_ref) = Ok toy_manifest.
Proof. vm_compute. auto. Qed.

Lemma manifest_layout_bounded_witness : sum_of fr_size (fm_chunks toy_manifest) = 5.
Proof. apply (manifest_layout_bounded _ _ toy_manifest_decodes). Defined.

(** A blob from before padding. *)
Definition toy_old_blob : SealedBlob := match (SignedOp.seal (replicate 32 x09) toy_plain toy_rng).1 with Ok b => b | Err _ => mkSealedBlob [] [] end.
Definition toy_old_key : SealedBlob := match (SignedOp.seal toy_file_key (replicate 32 x09) toy_rng).1 with Ok b => b | Err _ => mkSealedBlob [] [] end.

Lemma unpadded_blob_opens_witness :
  open_file (encode_blob toy_old_blob) (mkFileRef (Cid_of toy_plain) (Cid_of (encode_blob toy_old_blob)) toy_old_key (len toy_plain) toy_mime) toy_file_key = Ok toy_plain
  \/ exists body, unpad toy_plain CHUNK_PAD_FLOOR CHUNK_PAD_CEILING = Ok body /\ address_collision body toy_plain.
Proof. apply (unpadded_blob_opens (replicate 32 x09) toy_old_key); vm_compute; reflexivity. Defined.
