(* ===== verification/Listing.v ===== *)
(** The shared file index, [crates/catcoms-app/src/lib.rs]: the rows of the index
    document and the one bounded prefix of them every reader and writer uses
    ([file_index_positions]), writing, reading, unlisting and re-dating a
    listing, and the signature that binds a listing to its uploader.

    The document is what Automerge shows of it: the list objects at the file key
    in the order of their object ids, each with its rows, and the number of
    other values in conflict there. A row is the scalar each of its keys shows;
    a key that is absent, an object or of another type reads alike. *)

From S2P Require Import Prelude Wire Context Pad Crypto Codec GatedDoc Blob SignedOp FileCrypto.
From stdpp Require Import base list.
From Stdlib Require Import Init.Byte.
Local Open Scope N_scope.

(** * Data *)

Definition MAX_FILE_BYTES : N := 1024 * 1024 * 1024.
(** [MAX_FILE_ENTRIES], which bounds lengths of lists *)
Definition ROW_LIMIT : nat := 256.
Definition MAX_FILE_NAME_BYTES : N := 255.
Definition MAX_FILE_AUTHOR_BYTES : N := 128.
Definition MAX_FILE_PATH_BYTES : N := 2048.
Definition MAX_FILE_MIME_BYTES : N := 255.
Definition MAX_FILE_REF_BYTES : N := 64 * 1024.
Definition FILE_ENTRY_ATTEST_DOMAIN : bytes := bytes_of_string "catcoms/file-entry-attestation/v1".

Inductive FileExpiry : Type := Unrecorded | Never | ExpiresAt (ms : N).

Record FileEntry := mkFileEntry {
  fe_name : bytes;
  fe_size : N;
  fe_mime : bytes;
  fe_cid : bytes;
  fe_author : bytes;
  fe_author_identity : bytes;
  fe_author_verified : bool;
  fe_path : bytes;
  fe_file_ref : bytes;
  fe_expires : FileExpiry
}.

(** Automerge's scalars, as far as the index tells them apart. *)
Inductive RowScalar : Type := RsStr (s : bytes) | RsBytes (b : bytes) | RsNull | RsUint (n : N) | RsInt (z : Z) | RsOther.

Record IndexRow := mkIndexRow {
  row_name : option RowScalar;
  row_author : option RowScalar;
  row_path : option RowScalar;
  row_ref : option RowScalar;
  row_signer_key : option RowScalar;
  row_signature : option RowScalar;
  row_exp : option RowScalar
}.

(** [ix_lists]: the rows of each list, [None] for one that is not a map *)
Record FileIndex := mkFileIndex { ix_other : N; ix_lists : list (list (option IndexRow)) }.

(** * Positions *)

(** [None] is [AutomergeError::Fail]. *)
Definition file_index_lists (doc : FileIndex) : option (list (list (option IndexRow))) :=
  if N.of_nat ROW_LIMIT <? ix_other doc + len (ix_lists doc) then None else Some (ix_lists doc).

(** a row by the list and the index it stands at *)
Definition RowPosition : Type := nat * nat * option IndexRow.

Fixpoint positions_from (k taken : nat) (lists : list (list (option IndexRow))) : list RowPosition :=
  match lists with
  | [] => []
  | l :: rest =>
      let limit := Nat.min (length l) (ROW_LIMIT - taken) in
      let here := imap (fun i row => (k, i, row)) (firstn limit l) in
      if (taken + limit =? ROW_LIMIT)%nat then here else here ++ positions_from (S k) (taken + limit) rest
  end.

Definition file_index_positions (doc : FileIndex) : option (list RowPosition) := positions_from 0 0 <$> file_index_lists doc.

(** The count adds with [saturating_add]; a list of rows in memory is shorter. *)
Definition raw_file_index_row_count (doc : FileIndex) : N :=
  match file_index_lists doc with
  | Some lists => sum_of len lists
  | None => N.of_nat ROW_LIMIT + 1
  end.

(** * Fields *)

Definition bounded_file_string (v : option RowScalar) (max : N) : option bytes :=
  match v with
  | Some (RsStr text) => if len text <=? max then Some text else None
  | _ => Some []
  end.

Definition bounded_file_bytes (v : option RowScalar) (max : N) : option bytes :=
  match v with
  | Some (RsBytes b) => if len b <=? max then Some b else None
  | _ => Some []
  end.

Definition put_expiry (row : IndexRow) (expires : FileExpiry) : IndexRow :=
  let set v := mkIndexRow (row_name row) (row_author row) (row_path row) (row_ref row) (row_signer_key row) (row_signature row) (Some v) in
  match expires with
  | Unrecorded => row
  | Never => set RsNull
  | ExpiresAt ms => set (RsUint ms)
  end.

Definition expiry_field (row : IndexRow) : FileExpiry :=
  match row_exp row with
  | Some RsNull => Never
  | Some (RsUint u) => ExpiresAt u
  | Some (RsInt i) => if (0 <=? i)%Z then ExpiresAt (Z.to_N i) else Unrecorded
  | _ => Unrecorded
  end.

(** [path.split('/')] *)
Fixpoint split_slash (path : bytes) : list bytes :=
  match path with
  | [] => [[]]
  | b :: rest =>
      if Byte.eqb b x2f then [] :: split_slash rest
      else match split_slash rest with
           | s :: segments => (b :: s) :: segments
           | [] => [[b]]
           end
  end.

Fixpoint join_slash (segments : list bytes) : bytes :=
  match segments with
  | [] => []
  | [s] => s
  | s :: rest => s ++ x2f :: join_slash rest
  end.

Definition kept_segment (s : bytes) : bool :=
  negb (bool_decide (s = [])) && negb (bool_decide (s = [x2e])) && negb (bool_decide (s = [x2e; x2e])).

(** [trim] is [str::trim] *)
Definition normalize_path (trim : bytes -> bytes) (path : bytes) : bytes :=
  join_slash (List.filter kept_segment (trim <$> split_slash path)).

(** * Writing *)

Definition write_row (name author path file_ref : bytes) (expires : FileExpiry) (attestation : option (bytes * bytes)) : IndexRow :=
  put_expiry
    (mkIndexRow (Some (RsStr name)) (Some (RsStr author)) (Some (RsStr path)) (Some (RsBytes file_ref))
       (RsBytes ∘ fst <$> attestation) (RsBytes ∘ snd <$> attestation) None)
    expires.

(** Appends to the last list, or makes the first, which supersedes what was in conflict. *)
Fixpoint push_last (row : option IndexRow) (lists : list (list (option IndexRow))) : list (list (option IndexRow)) :=
  match lists with
  | [] => [[row]]
  | [l] => [l ++ [row]]
  | l :: rest => l :: push_last row rest
  end.

Definition write_file_entry (doc : FileIndex) (name author path file_ref : bytes) (expires : FileExpiry) (attestation : option (bytes * bytes))
    : option FileIndex :=
  lists ← file_index_lists doc;
  Some (mkFileIndex (if bool_decide (lists = []) then 0 else ix_other doc)
          (push_last (Some (write_row name author path file_ref expires attestation)) lists)).

(** * Reading *)

Section reading.
Context {C : Crypto}.

Definition push_attested_part (out part : bytes) : bytes := out ++ be_bytes 8 (len part) ++ part.

Definition file_entry_attestation_payload (group_id name author path file_ref : bytes) : bytes :=
  fold_left push_attested_part [group_id; name; author; path; file_ref] FILE_ENTRY_ATTEST_DOMAIN.

(** [catcoms_sync::roles::fingerprint] *)
Definition fingerprint (id : bytes) : bytes := concat (hex_byte <$> firstn 4 id).

Definition exact_len (n : N) (v : option bytes) : bytes :=
  match v with
  | Some b => if len b =? n then b else []
  | None => []
  end.

(** the row's signing key and signature, and whether they attest the listing *)
Definition author_check (group_id name author path ref_bytes : bytes) (row : IndexRow) : bytes * bool :=
  let public_key := exact_len 32 (bounded_file_bytes (row_signer_key row) 32) in
  let signature := exact_len 64 (bounded_file_bytes (row_signature row) 64) in
  let signer_id := from_public_key_bytes public_key in
  (signer_id,
   (len public_key =? 32) && (len signature =? 64) && bool_decide (fingerprint signer_id = author)
   && verify_with_public_bytes public_key (file_entry_attestation_payload group_id name author path ref_bytes) signature).

Definition read_file_row (group_id : bytes) (row : IndexRow) : option FileEntry :=
  ref_bytes ← bounded_file_bytes (row_ref row) MAX_FILE_REF_BYTES;
  match decode_or_legacy ref_bytes with
  | Err _ => None
  | Ok manifest =>
      if MAX_FILE_MIME_BYTES <? len (fm_mime manifest) then None
      else
        name ← bounded_file_string (row_name row) MAX_FILE_NAME_BYTES;
        author ← bounded_file_string (row_author row) MAX_FILE_AUTHOR_BYTES;
        path ← bounded_file_string (row_path row) MAX_FILE_PATH_BYTES;
        let '(signer_id, author_verified) := author_check group_id name author path ref_bytes row in
        Some (mkFileEntry name (fm_total_size manifest) (fm_mime manifest) (fm_plaintext_cid manifest) author
                (if author_verified then concat (hex_byte <$> signer_id) else []) author_verified path ref_bytes (expiry_field row))
  end.

(** each entry with its place in the bounded projection *)
Definition read_file_rows (doc : FileIndex) (group_id : bytes) : option (list (nat * FileEntry)) :=
  positions ← file_index_positions doc;
  Some (omap id (imap (fun position (p : RowPosition) => entry ← p.2 ≫= read_file_row group_id; Some (position, entry)) positions)).

Definition read_file_entries (doc : FileIndex) (group_id : bytes) : list FileEntry :=
  match read_file_rows doc group_id with
  | Some rows => rows.*2
  | None => []
  end.

(** * Unlisting and re-dating *)

(** the address and folder a row is matched by *)
Definition row_target (row : IndexRow) : option (bytes * bytes) :=
  ref_bytes ← bounded_file_bytes (row_ref row) MAX_FILE_REF_BYTES;
  match decode_or_legacy ref_bytes with
  | Err _ => None
  | Ok manifest => path ← bounded_file_string (row_path row) MAX_FILE_PATH_BYTES; Some (fm_plaintext_cid manifest, path)
  end.

Definition row_matches (cid : bytes) (folder : option bytes) (row : option IndexRow) : bool :=
  match row ≫= row_target with
  | Some (c, path) => bool_decide (c = cid) && match folder with Some expected => bool_decide (path = expected) | None => true end
  | None => false
  end.

Definition delete_positions (cid : bytes) (folder : option bytes) (positions : list RowPosition) (lists : list (list (option IndexRow)))
    : list (list (option IndexRow)) :=
  fold_left (fun lists p => if row_matches cid folder p.2 then alter (delete p.1.2) p.1.1 lists else lists) (rev positions) lists.

Definition delete_file_entry (doc : FileIndex) (cid : bytes) (folder : option bytes) : option FileIndex :=
  positions ← file_index_positions doc;
  Some (mkFileIndex (ix_other doc) (delete_positions cid folder positions (ix_lists doc))).

Definition redate_positions (cid folder : bytes) (expires : FileExpiry) (positions : list RowPosition) (lists : list (list (option IndexRow)))
    : list (list (option IndexRow)) :=
  fold_left (fun lists p => if row_matches cid (Some folder) p.2
                            then alter (alter (fmap (fun row => put_expiry row expires)) p.1.2) p.1.1 lists else lists) positions lists.

Definition set_file_entry_expiry (doc : FileIndex) (cid folder : bytes) (expires : FileExpiry) : option FileIndex :=
  positions ← file_index_positions doc;
  Some (mkFileIndex (ix_other doc) (redate_positions cid folder expires positions (ix_lists doc))).
End reading.

(** * The bounded prefix *)

Definition all_rows (lists : list (list (option IndexRow))) : list (option IndexRow) := concat lists.

Lemma imap_snd_rows (k : nat) (l : list (option IndexRow)) : forall f : nat -> nat, (imap (fun i row => (k, f i, row)) l).*2 = l.
Proof. induction l as [|x l IH]; intros f; [done|]. cbn. f_equal. apply (IH (f ∘ S)). Qed.

Lemma positions_rows lists : forall k taken, (taken <= ROW_LIMIT)%nat ->
  (positions_from k taken lists).*2 = firstn (ROW_LIMIT - taken) (all_rows lists).
Proof.
  induction lists as [|l lists IH]; intros k taken Ht; cbn [positions_from all_rows concat]; [by rewrite firstn_nil|].
  set (limit := Nat.min (length l) (ROW_LIMIT - taken)). cbv zeta.
  assert ((imap (fun i row => (k, i, row)) (firstn limit l)).*2 = firstn limit l) as Hhere.
  { apply (imap_snd_rows k _ id). }
  rewrite firstn_app. destruct (Nat.eqb_spec (taken + limit) ROW_LIMIT) as [E|E].
  - rewrite Hhere. replace (ROW_LIMIT - taken)%nat with limit by lia.
    replace (limit - length l)%nat with 0%nat by lia. by rewrite firstn_0, app_nil_r.
  - rewrite fmap_app, Hhere, IH by lia. replace limit with (length l) by lia. unfold all_rows. f_equal.
    + rewrite !firstn_all2 by lia. done.
    + f_equal. lia.
Qed.

Lemma file_index_positions_spec doc ps :
  file_index_positions doc = Some ps ->
  ps = positions_from 0 0 (ix_lists doc) /\ ps.*2 = firstn ROW_LIMIT (all_rows (ix_lists doc)).
Proof.
  unfold file_index_positions, file_index_lists. destruct (_ <? _); [done|]. cbn. intros [= <-]. split; [done|].
  rewrite positions_rows by lia. by rewrite Nat.sub_0_r.
Qed.

(** * Editing the prefix *)

Section editing.
Context {C : Crypto}.

(** A pass over the prefix that edits the rows it covers, list by list. *)
Fixpoint edit_prefix (edit : list (option IndexRow) -> list (option IndexRow)) (taken : nat) (lists : list (list (option IndexRow)))
    : list (list (option IndexRow)) :=
  match lists with
  | [] => []
  | l :: rest =>
      let limit := Nat.min (length l) (ROW_LIMIT - taken) in
      (edit (firstn limit l) ++ skipn limit l) ::
        (if (taken + limit =? ROW_LIMIT)%nat then rest else edit_prefix edit (taken + limit) rest)
  end.

Lemma edit_prefix_rows edit lists :
  (forall a b, edit (a ++ b) = edit a ++ edit b) -> edit [] = [] -> forall taken, (taken <= ROW_LIMIT)%nat ->
  all_rows (edit_prefix edit taken lists) =
  edit (firstn (ROW_LIMIT - taken) (all_rows lists)) ++ skipn (ROW_LIMIT - taken) (all_rows lists).
Proof.
  intros Happ Hnil. induction lists as [|l lists IH]; intros taken Ht; cbn [edit_prefix all_rows concat]; [by rewrite firstn_nil, skipn_nil, Hnil|].
  set (limit := Nat.min (length l) (ROW_LIMIT - taken)). cbv zeta. rewrite firstn_app, skipn_app.
  destruct (Nat.eqb_spec (taken + limit) ROW_LIMIT) as [E|E].
  - replace (ROW_LIMIT - taken)%nat with limit by lia. replace (limit - length l)%nat with 0%nat by lia.
    cbn [concat]. by rewrite firstn_0, skipn_0, app_nil_r, <- app_assoc.
  - cbn [concat]. fold (all_rows (edit_prefix edit (taken + limit) lists)). rewrite IH by lia. unfold all_rows.
    replace limit with (length l) by lia. rewrite (firstn_all2 (n:=length l)), (skipn_all2 (n:=length l)) by lia.
    rewrite (firstn_all2 (n:=ROW_LIMIT - taken)), (skipn_all2 (n:=ROW_LIMIT - taken)) by lia.
    rewrite Happ, app_nil_r, <- app_assoc. cbn [app]. do 2 f_equal; [do 2 f_equal; lia|f_equal; lia].
Qed.

Definition keep_rows (cid : bytes) (folder : option bytes) : list (option IndexRow) -> list (option IndexRow) :=
  List.filter (fun row => negb (row_matches cid folder row)).

Definition redate_row (cid folder : bytes) (expires : FileExpiry) (row : option IndexRow) : option IndexRow :=
  if row_matches cid (Some folder) row then (fun row => put_expiry row expires) <$> row else row.

Lemma alter_middle {X} (f : X -> X) (pre post : list X) x : alter f (length pre) (pre ++ x :: post) = pre ++ f x :: post.
Proof. induction pre as [|y pre IH]; [done|]. cbn. by f_equal. Qed.

Lemma delete_one_list cid folder a : forall pre t post,
  delete_positions cid folder (imap (fun i row => (length pre, i, row)) a) (pre ++ (a ++ t) :: post) = pre ++ (keep_rows cid folder a ++ t) :: post.
Proof.
  unfold delete_positions. induction a as [|x a IH] using rev_ind; intros pre t post; [done|].
  rewrite imap_app, rev_app_distr. cbn [imap rev app fold_left fst snd compose]. unfold keep_rows. rewrite List.filter_app. cbn [List.filter].
  rewrite Nat.add_0_r. destruct (row_matches cid folder x); cbn [negb].
  - rewrite alter_middle. rewrite <- (app_assoc a [x] t). cbn [app]. rewrite delete_middle, IH. unfold keep_rows. by rewrite app_nil_r.
  - rewrite <- app_assoc, IH. unfold keep_rows. by rewrite <- app_assoc.
Qed.

Lemma delete_positions_app cid folder ps qs lists :
  delete_positions cid folder (ps ++ qs) lists = delete_positions cid folder ps (delete_positions cid folder qs lists).
Proof. unfold delete_positions. by rewrite rev_app_distr, fold_left_app. Qed.

Lemma delete_positions_spec cid folder lists : forall pre taken,
  delete_positions cid folder (positions_from (length pre) taken lists) (pre ++ lists) = pre ++ edit_prefix (keep_rows cid folder) taken lists.
Proof.
  induction lists as [|l lists IH]; intros pre taken; [done|]. cbn [positions_from edit_prefix].
  set (limit := Nat.min (length l) (ROW_LIMIT - taken)). cbv zeta.
  assert (forall post, delete_positions cid folder (imap (fun i row => (length pre, i, row)) (firstn limit l)) (pre ++ l :: post) =
    pre ++ (keep_rows cid folder (firstn limit l) ++ skipn limit l) :: post) as Hone.
  { intros post. rewrite <- (firstn_skipn limit l) at 2. apply delete_one_list. }
  destruct (taken + limit =? ROW_LIMIT)%nat; [apply Hone|].
  rewrite delete_positions_app.
  specialize (IH (pre ++ [l]) (taken + limit)%nat). rewrite length_app, <- !app_assoc in IH. cbn [length app] in IH. rewrite Nat.add_1_r in IH.
  rewrite IH. apply Hone.
Qed.

Lemma redate_one_list cid folder expires a : forall pre seen t post,
  redate_positions cid folder expires (imap (fun i row => (length pre, (length seen + i)%nat, row)) a) (pre ++ (seen ++ a ++ t) :: post) =
  pre ++ (seen ++ (redate_row cid folder expires <$> a) ++ t) :: post.
Proof.
  unfold redate_positions. induction a as [|x a IH]; intros pre seen t post; [done|].
  cbn [imap fold_left fst snd fmap list_fmap app]. rewrite Nat.add_0_r.
  assert ((if row_matches cid (Some folder) x then
             alter (alter (fmap (fun row => put_expiry row expires)) (length seen)) (length pre) (pre ++ (seen ++ x :: a ++ t) :: post)
           else pre ++ (seen ++ x :: a ++ t) :: post) = pre ++ ((seen ++ [redate_row cid folder expires x]) ++ a ++ t) :: post) as ->.
  { unfold redate_row. destruct (row_matches cid (Some folder) x); [by rewrite !alter_middle, <- app_assoc|by rewrite <- app_assoc]. }
  specialize (IH pre (seen ++ [redate_row cid folder expires x]) t post). rewrite <- !app_assoc in IH. cbn [app] in IH. rewrite <- IH.
  f_equal; [|by rewrite <- app_assoc]. apply imap_ext. intros i y _. cbn. rewrite length_app. cbn. do 2 f_equal. lia.
Qed.

Lemma redate_positions_app cid folder expires ps qs lists :
  redate_positions cid folder expires (ps ++ qs) lists = redate_positions cid folder expires qs (redate_positions cid folder expires ps lists).
Proof. unfold redate_positions. by rewrite fold_left_app. Qed.

Lemma redate_positions_spec cid folder expires lists : forall pre taken,
  redate_positions cid folder expires (positions_from (length pre) taken lists) (pre ++ lists) =
  pre ++ edit_prefix (fmap (redate_row cid folder expires)) taken lists.
Proof.
  induction lists as [|l lists IH]; intros pre taken; [done|]. cbn [positions_from edit_prefix].
  set (limit := Nat.min (length l) (ROW_LIMIT - taken)). cbv zeta.
  assert (redate_positions cid folder expires (imap (fun i row => (length pre, i, row)) (firstn limit l)) (pre ++ l :: lists) =
    pre ++ ((redate_row cid folder expires <$> firstn limit l) ++ skipn limit l) :: lists) as Hone.
  { rewrite <- (firstn_skipn limit l) at 2. apply (redate_one_list _ _ _ _ pre []). }
  destruct (taken + limit =? ROW_LIMIT)%nat; [apply Hone|].
  rewrite redate_positions_app, Hone.
  set (l' := (redate_row cid folder expires <$> firstn limit l) ++ skipn limit l).
  specialize (IH (pre ++ [l']) (taken + limit)%nat). rewrite length_app, <- !app_assoc in IH. cbn [length app] in IH. by rewrite Nat.add_1_r in IH.
Qed.

(** Unlisting removes exactly the rows it names. Every row of the bounded prefix
    that lists the content, in the given folder if there is one, goes, although
    indices shift under the pass; every other row stays, in its order, and rows
    beyond the prefix are not touched, not even those the deletions bring
    into it. *)
Theorem unlist_exact doc cid folder doc' :
  delete_file_entry doc cid folder = Some doc' ->
  all_rows (ix_lists doc') =
    List.filter (fun row => negb (row_matches cid folder row)) (firstn ROW_LIMIT (all_rows (ix_lists doc))) ++
    skipn ROW_LIMIT (all_rows (ix_lists doc)).
Proof.
  unfold delete_file_entry. destruct (file_index_positions doc) as [ps|] eqn:E; [|done]. cbn. intros [= <-]. cbn [ix_lists].
  apply file_index_positions_spec in E as [-> _]. pose proof (delete_positions_spec cid folder (ix_lists doc) [] 0) as Hd. cbn [length app] in Hd. rewrite Hd.
  rewrite (edit_prefix_rows (keep_rows cid folder)); [|intros; apply List.filter_app|done|lia]. by rewrite Nat.sub_0_r.
Qed.

(** A new deadline reaches exactly one folder's listings of one content. Every
    row of the prefix for that content and folder shows the new expiry
    afterwards, and no other row, field or position changes. *)
Theorem redate_exact doc cid folder expires doc' :
  set_file_entry_expiry doc cid folder expires = Some doc' ->
  all_rows (ix_lists doc') =
    ((fun row => if row_matches cid (Some folder) row then (fun row => put_expiry row expires) <$> row else row) <$>
       firstn ROW_LIMIT (all_rows (ix_lists doc))) ++ skipn ROW_LIMIT (all_rows (ix_lists doc)) /\
  (expires <> Unrecorded -> forall row, expiry_field (put_expiry row expires) = expires /\ row_target (put_expiry row expires) = row_target row).
Proof.
  unfold set_file_entry_expiry. destruct (file_index_positions doc) as [ps|] eqn:E; [|done]. cbn. intros [= <-]. cbn [ix_lists]. split.
  - apply file_index_positions_spec in E as [-> _]. pose proof (redate_positions_spec cid folder expires (ix_lists doc) [] 0) as Hd. cbn [length app] in Hd. rewrite Hd.
    rewrite (edit_prefix_rows (fmap (redate_row cid folder expires))); [|intros; apply fmap_app|done|lia]. by rewrite Nat.sub_0_r.
  - intros He row. by destruct expires.
Qed.
End editing.

(** * Listings that are written are read *)

Section listing.
Context {C : Crypto}.

(** The entries of a run of rows. *)
Definition rows_read (group_id : bytes) (rows : list (option IndexRow)) : list (nat * FileEntry) :=
  omap id (imap (fun position row => entry ← row ≫= read_file_row group_id; Some (position, entry)) rows).

Lemma read_file_rows_spec doc group_id :
  read_file_rows doc group_id = (fun lists => rows_read group_id (firstn ROW_LIMIT (all_rows lists))) <$> file_index_lists doc.
Proof.
  unfold read_file_rows. destruct (file_index_positions doc) as [ps|] eqn:E.
  - pose proof (file_index_positions_spec _ _ E) as [_ Hp]. unfold file_index_positions in E. unfold file_index_lists in *.
    destruct (_ <? _); [done|]. cbn [fmap option_fmap option_map mbind option_bind]. rewrite <- Hp. unfold rows_read. by rewrite imap_fmap.
  - unfold file_index_positions in E. by destruct (file_index_lists doc).
Qed.

Lemma push_last_rows row lists : all_rows (push_last row lists) = all_rows lists ++ [row] /\ (length (push_last row lists) <= Nat.max 1 (length lists))%nat.
Proof.
  induction lists as [|l lists IH]; [done|]. destruct lists as [|l' lists]; [split; [cbn; by rewrite !app_nil_r|done]|].
  destruct IH as [IH Hl]. change (push_last row (l :: l' :: lists)) with (l :: push_last row (l' :: lists)).
  set (pushed := push_last row (l' :: lists)) in *. split; [|cbn [length] in *; lia]. 
  change (l ++ all_rows pushed = (l ++ all_rows (l' :: lists)) ++ [row]). by rewrite IH, app_assoc.
Qed.

(** The listing a write is meant to publish. *)
Definition written_entry (group_id name author path file_ref : bytes) (expires : FileExpiry) (attestation : option (bytes * bytes)) (m : FileManifest)
    : FileEntry :=
  let '(signer_id, verified) := author_check group_id name author path file_ref (write_row name author path file_ref expires attestation) in
  mkFileEntry name (fm_total_size m) (fm_mime m) (fm_plaintext_cid m) author (if verified then concat (hex_byte <$> signer_id) else []) verified
    path file_ref expires.

Lemma bounded_string_fits s max : len s <= max -> bounded_file_string (Some (RsStr s)) max = Some s.
Proof. intros H. unfold bounded_file_string. by rewrite (proj2 (N.leb_le _ _) H). Qed.

Lemma bounded_bytes_fits s max : len s <= max -> bounded_file_bytes (Some (RsBytes s)) max = Some s.
Proof. intros H. unfold bounded_file_bytes. by rewrite (proj2 (N.leb_le _ _) H). Qed.

Lemma read_written_row group_id name author path file_ref expires attestation m :
  decode_or_legacy file_ref = Ok m -> len (fm_mime m) <= MAX_FILE_MIME_BYTES -> len file_ref <= MAX_FILE_REF_BYTES ->
  len name <= MAX_FILE_NAME_BYTES -> len author <= MAX_FILE_AUTHOR_BYTES -> len path <= MAX_FILE_PATH_BYTES ->
  read_file_row group_id (write_row name author path file_ref expires attestation) =
  Some (written_entry group_id name author path file_ref expires attestation m).
Proof.
  intros Hm Hmime Href Hn Ha Hp. unfold read_file_row, written_entry. set (row := write_row name author path file_ref expires attestation).
  assert (row_ref row = Some (RsBytes file_ref) /\ row_name row = Some (RsStr name) /\ row_author row = Some (RsStr author) /\
    row_path row = Some (RsStr path) /\ expiry_field row = expires) as (-> & -> & -> & -> & ->) by (by destruct expires).
  rewrite bounded_bytes_fits by done. cbn [mbind option_bind]. rewrite Hm. rewrite (proj2 (N.ltb_ge _ _) Hmime).
  rewrite !bounded_string_fits by done. cbn [mbind option_bind]. by destruct (author_check _ _ _ _ _ _).
Qed.

(** An honest device's signature over a listing under its own fingerprint attests it. *)
Lemma attested_check group_id name path file_ref row dev signature :
  honest_device dev -> row_signer_key row = Some (RsBytes (public_key_bytes dev)) -> row_signature row = Some (RsBytes signature) ->
  let author := fingerprint (from_public_key_bytes (public_key_bytes dev)) in
  device_sign dev (file_entry_attestation_payload group_id name author path file_ref) = Some signature ->
  author_check group_id name author path file_ref row = (from_public_key_bytes (public_key_bytes dev), true).
Proof.
  intros Hd E1 E2 author Hs. pose proof Hd as (Hk & _ & Hsig). destruct (Hsig _ _ Hs) as [Hl64 _].
  unfold author_check. rewrite E1, E2, !bounded_bytes_fits by (unfold len; lia). unfold exact_len.
  assert ((len (public_key_bytes dev) =? 32) = true) as Hk' by (apply N.eqb_eq; unfold len; lia).
  assert ((len signature =? 64) = true) as Hs' by (apply N.eqb_eq; unfold len; lia).
  rewrite Hk', Hs', Hk', Hs', bool_decide_eq_true_2 by done. by rewrite (honest_verify dev _ _ Hd Hs).
Qed.

(** A published listing is visible. While the raw rows, readable or not, are
    fewer than 256, a listing that is written is read back in the place after
    the last row with exactly the fields it was written with, all earlier
    listings as before; and if its signature was made by an honest device over
    that listing under the device's own display fingerprint, the reader names
    that device as its verified author. *)
Theorem written_listing_visible doc group_id name author path file_ref expires attestation m doc' :
  write_file_entry doc name author path file_ref expires attestation = Some doc' ->
  raw_file_index_row_count doc < N.of_nat ROW_LIMIT -> decode_or_legacy file_ref = Ok m ->
  len (fm_mime m) <= MAX_FILE_MIME_BYTES -> len file_ref <= MAX_FILE_REF_BYTES ->
  len name <= MAX_FILE_NAME_BYTES -> len author <= MAX_FILE_AUTHOR_BYTES -> len path <= MAX_FILE_PATH_BYTES ->
  let entry := written_entry group_id name author path file_ref expires attestation m in
  read_file_rows doc' group_id =
    (fun before => before ++ [(N.to_nat (raw_file_index_row_count doc), entry)]) <$> read_file_rows doc group_id /\
  is_Some (read_file_rows doc group_id) /\
  (forall dev signature, attestation = Some (public_key_bytes dev, signature) -> honest_device dev ->
     author = fingerprint (from_public_key_bytes (public_key_bytes dev)) ->
     device_sign dev (file_entry_attestation_payload group_id name author path file_ref) = Some signature ->
     fe_author_verified entry = true /\ fe_author_identity entry = concat (hex_byte <$> from_public_key_bytes (public_key_bytes dev))).
Proof.
  intros Hw Hc Hm Hmime Href Hn Ha Hp. cbv zeta. rewrite !read_file_rows_spec. unfold write_file_entry in Hw. unfold raw_file_index_row_count in *.
  destruct (file_index_lists doc) as [lists|] eqn:El; [|done]. cbn in Hw. injection Hw as <-.
  destruct (push_last_rows (Some (write_row name author path file_ref expires attestation)) lists) as [Hrows Hlen].
  assert (sum_of len lists = len (all_rows lists)) as Hsum.
  { clear. induction lists as [|l lists IH]; [done|]. cbn [sum_of]. rewrite IH. unfold all_rows. cbn [concat]. by rewrite len_app. }
  rewrite Hsum in *. unfold len in Hc. assert (N.to_nat (len (all_rows lists)) = length (all_rows lists)) as -> by (unfold len; lia).
  split; [|split; [by eexists|]].
  - unfold file_index_lists at 1. cbn [ix_other ix_lists].
    assert ((N.of_nat ROW_LIMIT <? (if bool_decide (lists = []) then 0 else ix_other doc) +
      len (push_last (Some (write_row name author path file_ref expires attestation)) lists)) = false) as ->.
    { apply N.ltb_ge. unfold file_index_lists in El. destruct (N.ltb_spec (N.of_nat ROW_LIMIT) (ix_other doc + len (ix_lists doc))); [done|].
      injection El as <-. case_bool_decide as Hnil; [rewrite Hnil in *; cbn [length Nat.max] in Hlen; unfold len, ROW_LIMIT; lia|].
      unfold len in *. destruct (ix_lists doc); [done|]. cbn [length] in *. lia. }
    cbn [fmap option_fmap option_map]. f_equal. rewrite Hrows. rewrite !firstn_all2 by (rewrite ?length_app; cbn; lia).
    unfold rows_read. rewrite imap_app, omap_app. f_equal. cbn. rewrite read_written_row with (m := m) by done. cbn. by rewrite Nat.add_0_r.
  - intros dev signature -> Hd -> Hs. unfold written_entry. rewrite (attested_check _ _ _ _ _ dev signature) by (done || by destruct expires). done.
Qed.

(** What a row that reads says, and its bounds. *)
Lemma read_file_row_inv group_id row e :
  read_file_row group_id row = Some e ->
  exists m, decode_or_legacy (fe_file_ref e) = Ok m /\ fe_cid e = fm_plaintext_cid m /\ fe_size e = fm_total_size m /\ fe_mime e = fm_mime m /\
    len (fe_mime e) <= MAX_FILE_MIME_BYTES /\ len (fe_file_ref e) <= MAX_FILE_REF_BYTES /\ len (fe_name e) <= MAX_FILE_NAME_BYTES /\
    len (fe_author e) <= MAX_FILE_AUTHOR_BYTES /\ len (fe_path e) <= MAX_FILE_PATH_BYTES /\
    exists signer, author_check group_id (fe_name e) (fe_author e) (fe_path e) (fe_file_ref e) row = (signer, fe_author_verified e) /\
      fe_author_identity e = if fe_author_verified e then concat (hex_byte <$> signer) else [].
Proof.
  assert (forall v max b, bounded_file_bytes v max = Some b -> len b <= max) as Hb.
  { intros v max b. unfold bounded_file_bytes. destruct v as [[|x| | | |]|]; try (intros [= <-]; apply N.le_0_l). destruct (N.leb_spec (len x) max); [by intros [= <-]|done]. }
  assert (forall v max b, bounded_file_string v max = Some b -> len b <= max) as Hs.
  { intros v max b. unfold bounded_file_string. destruct v as [[x| | | | |]|]; try (intros [= <-]; apply N.le_0_l). destruct (N.leb_spec (len x) max); [by intros [= <-]|done]. }
  unfold read_file_row. destruct (bounded_file_bytes (row_ref row) MAX_FILE_REF_BYTES) as [ref_bytes|] eqn:Er; [|done]. cbn [mbind option_bind].
  destruct (decode_or_legacy ref_bytes) as [m|] eqn:Em; [|done]. destruct (N.ltb_spec MAX_FILE_MIME_BYTES (len (fm_mime m))); [done|].
  destruct (bounded_file_string (row_name row) MAX_FILE_NAME_BYTES) as [name|] eqn:En; [|done].
  destruct (bounded_file_string (row_author row) MAX_FILE_AUTHOR_BYTES) as [author|] eqn:Ea; [|done].
  destruct (bounded_file_string (row_path row) MAX_FILE_PATH_BYTES) as [path|] eqn:Ep; [|done]. cbn [mbind option_bind].
  destruct (author_check group_id name author path ref_bytes row) as [signer verified] eqn:Ec. intros [= <-]. exists m. cbn.
  split_and!; eauto.
Qed.

Lemma read_entries_inv doc group_id e :
  e ∈ read_file_entries doc group_id -> exists m, decode_or_legacy (fe_file_ref e) = Ok m /\ fe_cid e = fm_plaintext_cid m /\ fe_size e = fm_total_size m.
Proof.
  unfold read_file_entries. rewrite read_file_rows_spec. destruct (file_index_lists doc) as [lists|]; cbn [fmap option_fmap option_map]; [|by intros ?%elem_of_nil].
  intros ([n e'] & -> & He)%list_elem_of_fmap. unfold rows_read in He. apply list_elem_of_omap in He as (o & Ho & Eo). unfold id in Eo. subst o.
  apply elem_of_lookup_imap in Ho as (i & row & Ei & _). destruct (row ≫= read_file_row group_id) as [x|] eqn:Er; [|done]. cbn in Ei. injection Ei as _ <-.
  destruct row as [row|]; [|done]. cbn in Er. apply read_file_row_inv in Er as (m & H1 & H2 & H3 & _). by exists m.
Qed.

Lemma part_app_inj a b r s :
  len a <= u64_max -> len b <= u64_max -> (be_bytes 8 (len a) ++ a) ++ r = (be_bytes 8 (len b) ++ b) ++ s -> a = b /\ r = s.
Proof.
  intros Ha Hb H. rewrite <- !app_assoc in H. apply app_inj_1 in H as [Hl H]; [|by rewrite !length_be_bytes].
  apply be_bytes_inj in Hl; [|change (256 ^ N.of_nat 8) with (u64_max + 1); lia..]. apply app_inj_1 in H; [done|unfold len in Hl; lia].
Qed.

Definition attested_part (part : bytes) : bytes := be_bytes 8 (len part) ++ part.

Lemma attestation_payload_eq g n a p r :
  file_entry_attestation_payload g n a p r =
  FILE_ENTRY_ATTEST_DOMAIN ++ attested_part g ++ attested_part n ++ attested_part a ++ attested_part p ++ attested_part r ++ [].
Proof. unfold file_entry_attestation_payload, push_attested_part, attested_part. cbn [fold_left]. by rewrite app_nil_r, <- !app_assoc. Qed.

Definition payload_typed (g n a p r : bytes) : Prop := Forall (fun x => len x <= u64_max) [g; n; a; p; r].

Lemma attestation_payload_inj g n a p r g' n' a' p' r' :
  payload_typed g n a p r -> payload_typed g' n' a' p' r' ->
  file_entry_attestation_payload g n a p r = file_entry_attestation_payload g' n' a' p' r' -> (g, n, a, p, r) = (g', n', a', p', r').
Proof.
  unfold payload_typed. rewrite !Forall_cons. intros (T1 & T2 & T3 & T4 & T5 & _) (U1 & U2 & U3 & U4 & U5 & _) H. rewrite !attestation_payload_eq in H.
  apply app_inv_head in H. apply part_app_inj in H as [-> H]; [|done..]. apply part_app_inj in H as [-> H]; [|done..].
  apply part_app_inj in H as [-> H]; [|done..]. apply part_app_inj in H as [-> H]; [|done..]. by apply part_app_inj in H as [-> _].
Qed.

(** A listing as it is signed: group, name, author label, folder, reference. *)
Definition Listed : Type := bytes * bytes * bytes * bytes * bytes.
Definition listed_payload (l : Listed) : bytes := let '(g, n, a, p, r) := l in file_entry_attestation_payload g n a p r.
Definition listed_typed (l : Listed) : Prop := let '(g, n, a, p, r) := l in payload_typed g n a p r.

(** Of all the messages a key signed, those under the attestation domain are the
    payloads of [signed]. *)
Definition attestations_of (messages : list bytes) (signed : list Listed) : Prop :=
  Forall listed_typed signed /\
  forall m, m ∈ messages -> FILE_ENTRY_ATTEST_DOMAIN `prefix_of` m -> m ∈ listed_payload <$> signed.

(** C29: a verified author signed this very listing. A row shows a verified author
    only if it carries a key and a signature that verifies over the group, the
    name, the author label, the folder and the reference the reader shows; the
    full identity shown is that key's and the short label its fingerprint. And
    if that key verifies nothing but the messages its device signed, then the
    listing shown, in this group, is one of the listings the device attested:
    a signature made for another listing, another group or another purpose does
    not verify here. *)
Theorem verified_author_signed group_id row e :
  read_file_row group_id row = Some e -> fe_author_verified e = true -> len group_id <= u64_max ->
  exists key signature,
    row_signer_key row = Some (RsBytes key) /\ row_signature row = Some (RsBytes signature) /\
    fe_author_identity e = concat (hex_byte <$> from_public_key_bytes key) /\ fe_author e = fingerprint (from_public_key_bytes key) /\
    verify_with_public_bytes key (file_entry_attestation_payload group_id (fe_name e) (fe_author e) (fe_path e) (fe_file_ref e)) signature = true /\
    forall messages signed, unforgeable key messages -> attestations_of messages signed ->
      (group_id, fe_name e, fe_author e, fe_path e, fe_file_ref e) ∈ signed.
Proof.
  intros H Hv Hg. apply read_file_row_inv in H as (m & _ & _ & _ & _ & _ & H2 & H3 & H4 & H5 & signer & Hc & Hi). rewrite Hv in *.
  unfold author_check in Hc. injection Hc as <- Hc. rewrite !andb_true_iff, !N.eqb_eq, bool_decide_eq_true in Hc. destruct Hc as [[[Hk Hs] Hf] Hver].
  assert (forall n v max, len (exact_len n (bounded_file_bytes v max)) = n -> 0 < n -> exists b, v = Some (RsBytes b) /\ exact_len n (bounded_file_bytes v max) = b) as Hsized.
  { intros n v max. unfold exact_len, bounded_file_bytes. destruct v as [[|b| | | |]|]; try (destruct (len [] =? n); change (len []) with 0; lia).
    destruct (N.leb_spec (len b) max); [|change (len []) with 0; lia]. destruct (len b =? n); [|change (len []) with 0; lia]. intros _ _. by exists b. }
  destruct (Hsized _ _ _ Hk ltac:(done)) as (key & Ek & Ek'). destruct (Hsized _ _ _ Hs ltac:(done)) as (signature & Es & Es').
  rewrite Ek', Es' in *. exists key, signature. split_and!; try done. intros messages signed Hu [Hty Hdom].
  apply verify_point, Hu in Hver. apply Hdom in Hver; [|rewrite attestation_payload_eq; by eexists].
  apply list_elem_of_fmap in Hver as ([[[[g n] a] p] r] & E & Hin). rewrite Forall_forall in Hty. specialize (Hty _ Hin).
  apply attestation_payload_inj in E; [by rewrite E| |exact Hty].
  unfold MAX_FILE_REF_BYTES, MAX_FILE_NAME_BYTES, MAX_FILE_AUTHOR_BYTES, MAX_FILE_PATH_BYTES, u64_max, payload_typed in *.
  repeat (apply Forall_cons; split; [unfold u64_max; lia|]). apply Forall_nil_2.
Qed.
End listing.

(** * Folders *)

Lemma split_slash_cons path : exists s rest, split_slash path = s :: rest.
Proof. destruct path as [|b path]; cbn; [by eexists _, _|]. destruct (Byte.eqb b x2f); [by eexists _, _|]. destruct (split_slash path); by eexists _, _. Qed.

Lemma split_no_slash path : Forall (fun s => x2f ∉ s) (split_slash path).
Proof.
  induction path as [|b path IH]; cbn; [by repeat constructor; apply not_elem_of_nil|].
  destruct (Byte.eqb b x2f) eqn:E; [constructor; [apply not_elem_of_nil|done]|].
  destruct (split_slash_cons path) as (s & rest & Es). rewrite Es in *. apply Forall_cons in IH as [Hs Hr]. constructor; [|done].
  intros [H|H]%elem_of_cons; [|done]. subst b. discriminate E.
Qed.

Lemma split_segment s : x2f ∉ s -> split_slash s = [s].
Proof.
  induction s as [|b s IH]; [done|]. intros [Hb Hs]%not_elem_of_cons. cbn. destruct (Byte.eqb b x2f) eqn:E; [|by rewrite (IH Hs)].
  apply Byte.byte_dec_bl in E. congruence.
Qed.

Lemma split_prepend s path : x2f ∉ s -> split_slash (s ++ x2f :: path) = s :: split_slash path.
Proof.
  induction s as [|b s IH]; [done|]. intros [Hb Hs]%not_elem_of_cons. cbn. destruct (Byte.eqb b x2f) eqn:E; [|by rewrite (IH Hs)].
  apply Byte.byte_dec_bl in E. congruence.
Qed.

Lemma split_join segments : segments <> [] -> Forall (fun s => x2f ∉ s) segments -> split_slash (join_slash segments) = segments.
Proof.
  induction segments as [|s segments IH]; [done|]. intros _ [Hs Hr]%Forall_cons. destruct segments as [|s' segments]; [by apply split_segment|].
  change (join_slash (s :: s' :: segments)) with (s ++ x2f :: join_slash (s' :: segments)). rewrite split_prepend by done. by rewrite IH.
Qed.

Lemma List_filter_Forall {X} (f : X -> bool) (P : X -> Prop) l : Forall P l -> Forall P (List.filter f l).
Proof. rewrite !Forall_forall. intros H x Hx. apply H. apply elem_List_filter in Hx. tauto. Qed.

(** A folder is a plain path below the root. Whatever path a caller gives, the
    folder it is filed under has no empty, [.] or [..] segment, none with
    outer white space and no outer slash, and normalising it again changes nothing. *)
Theorem folder_normal (trim : bytes -> bytes) path :
  (forall s, trim (trim s) = trim s) -> (forall s, exists a b, s = a ++ trim s ++ b) ->
  normalize_path trim (normalize_path trim path) = normalize_path trim path /\
  (normalize_path trim path = [] \/
   Forall (fun s => s <> [] /\ s <> [x2e] /\ s <> [x2e; x2e] /\ trim s = s /\ x2f ∉ s) (split_slash (normalize_path trim path))).
Proof.
  intros Hidem Hpart. set (segments := List.filter kept_segment (trim <$> split_slash path)).
  assert (normalize_path trim path = join_slash segments) as -> by done.
  assert (Forall (fun s => trim s = s /\ x2f ∉ s) segments) as Hseg.
  { apply List_filter_Forall, Forall_fmap. eapply Forall_impl; [apply split_no_slash|]. intros s Hs. cbn. split; [apply Hidem|]. destruct (Hpart s) as (a & b & E). rewrite E in Hs.
    rewrite !elem_of_app in Hs. tauto. }
  assert (Forall (fun s => kept_segment s = true) segments) as Hkept by (apply Forall_forall; intros s Hs; by apply elem_List_filter in Hs as [_ ?]).
  destruct (decide (segments = [])) as [->|Hne].
  { split; [|by left]. unfold normalize_path. cbn [join_slash split_slash fmap list_fmap]. cbn [List.filter].
    destruct (Hpart []) as (a & b & E). symmetry in E. apply app_eq_nil in E as [_ [-> _]%app_eq_nil]. done. }
  assert (split_slash (join_slash segments) = segments) as Hsj by (apply split_join; [done|eapply Forall_impl; [exact Hseg|by intros s [_ ?]]]).
  split.
  - unfold normalize_path. rewrite Hsj. f_equal. rewrite <- (List_filter_id kept_segment segments) at 2 by done.
    f_equal. rewrite <- (list_fmap_id segments) at 2. apply list_fmap_ext. intros i s Hs. apply (Forall_lookup_1 _ _ _ _ Hseg Hs).
  - right. rewrite Hsj. rewrite Forall_forall in *. intros s Hs. destruct (Hseg s Hs) as [? ?]. pose proof (Hkept s Hs) as Hk.
    unfold kept_segment in Hk. rewrite !andb_true_iff, !negb_true_iff, !bool_decide_eq_false in Hk. tauto.
Qed.

(** * The theorems at work *)

Definition toy_group_id : bytes := bytes_of_string "group".
Definition toy_folder : bytes := bytes_of_string "docs".
Definition toy_name : bytes := bytes_of_string "a.txt".
Definition toy_uploader : MlsDevice := toy_device 7.
Definition toy_label : bytes := fingerprint (from_public_key_bytes (C:=toy_crypto) (public_key_bytes toy_uploader)).
Definition toy_ref_bytes : bytes := manifest_encode toy_manifest.
Definition toy_payload : bytes := file_entry_attestation_payload toy_group_id toy_name toy_label toy_folder toy_ref_bytes.
Definition toy_signature : bytes := default [] (device_sign toy_uploader toy_payload).
Definition toy_listing (folder : bytes) : IndexRow :=
  write_row toy_name toy_label folder toy_ref_bytes Never (Some (public_key_bytes toy_uploader, toy_signature)).
(** two concurrent lists, with a row that is no map *)
Definition toy_file_index : FileIndex := mkFileIndex 0 [[Some (toy_listing toy_folder); None]; [Some (toy_listing []); Some (toy_listing toy_folder)]].
Definition toy_manifest_cid : bytes := fm_plaintext_cid toy_manifest.

Definition toy_written : FileIndex :=
  default toy_file_index (write_file_entry toy_file_index toy_name toy_label toy_folder toy_ref_bytes (ExpiresAt 5) (Some (public_key_bytes toy_uploader, toy_signature))).

Lemma toy_signed : device_sign toy_uploader toy_payload = Some toy_signature.
Proof. vm_compute. reflexivity. Qed.

Lemma toy_listings_read :
  (fun e => (e.1, fe_path e.2)) <$> default [] (read_file_rows (C:=toy_crypto) toy_file_index toy_group_id) =
  [(0%nat, toy_folder); (2%nat, []); (3%nat, toy_folder)].
Proof. vm_compute. reflexivity. Qed.

Lemma unlist_exact_witness : exists doc', delete_file_entry toy_file_index toy_manifest_cid (Some toy_folder) = Some doc' /\ all_rows (ix_lists doc') = [None; Some (toy_listing [])].
Proof.
  eexists. split; [reflexivity|].
  rewrite (unlist_exact toy_file_index toy_manifest_cid (Some toy_folder) _ eq_refl). vm_compute. reflexivity.
Defined.

Lemma redate_exact_witness : exists doc', set_file_entry_expiry toy_file_index toy_manifest_cid toy_folder (ExpiresAt 9) = Some doc' /\
  all_rows (ix_lists doc') =
    [Some (put_expiry (toy_listing toy_folder) (ExpiresAt 9)); None; Some (toy_listing []); Some (put_expiry (toy_listing toy_folder) (ExpiresAt 9))].
Proof.
  eexists. split; [reflexivity|].
  rewrite (proj1 (redate_exact toy_file_index toy_manifest_cid toy_folder (ExpiresAt 9) _ eq_refl)). vm_compute. reflexivity.
Defined.

Lemma written_listing_visible_witness :
  is_Some (read_file_rows (C:=toy_crypto) toy_file_index toy_group_id) /\
  fe_author_verified (written_entry (C:=toy_crypto) toy_group_id toy_name toy_label toy_folder toy_ref_bytes (ExpiresAt 5)
    (Some (public_key_bytes toy_uploader, toy_signature)) toy_manifest) = true.
Proof.
  destruct (written_listing_visible (C:=toy_crypto) toy_file_index toy_group_id toy_name toy_label toy_folder toy_ref_bytes (ExpiresAt 5)
    (Some (public_key_bytes toy_uploader, toy_signature)) toy_manifest toy_written) as (_ & H1 & H2); try (vm_compute; (reflexivity || discriminate)).
  split; [exact H1|]. apply (H2 toy_uploader toy_signature eq_refl (toy_device_honest 7) eq_refl toy_signed).
Defined.

(** A device that signed one listing, in a world where its key verifies nothing else. *)
Definition toy_listed : Listed := (toy_group_id, toy_name, toy_label, toy_folder, toy_ref_bytes).
Definition attest_crypto : Crypto := one_payload_crypto toy_payload.

Lemma attest_unforgeable key : unforgeable (C:=attest_crypto) key [toy_payload].
Proof.
  intros m sig H. cbn in H. apply andb_true_iff in H as [H _]. apply bool_decide_eq_true in H as ->. apply list_elem_of_here.
Qed.

Lemma toy_attestations : attestations_of [toy_payload] [toy_listed].
Proof.
  split; [|intros m Hm _; exact Hm]. apply Forall_singleton. unfold listed_typed, toy_listed, payload_typed.
  repeat (apply Forall_cons; split; [vm_compute; discriminate|]). apply Forall_nil_2.
Qed.

Lemma verified_author_signed_witness :
  exists e, read_file_row (C:=attest_crypto) toy_group_id (toy_listing toy_folder) = Some e /\
    (toy_group_id, fe_name e, fe_author e, fe_path e, fe_file_ref e) ∈ [toy_listed] /\
    (fe_author_verified <$> read_file_row (C:=attest_crypto) toy_folder (toy_listing toy_folder)) = Some false.
Proof.
  destruct (read_file_row (C:=attest_crypto) toy_group_id (toy_listing toy_folder)) as [e|] eqn:E; [|vm_compute in E; discriminate E].
  destruct (verified_author_signed (C:=attest_crypto) toy_group_id (toy_listing toy_folder) e E) as (key & _ & _ & _ & _ & _ & _ & H).
  - vm_compute in E. injection E as <-. reflexivity.
  - vm_compute. discriminate.
  - exists e. split; [reflexivity|]. split; [exact (H _ _ (attest_unforgeable key) toy_attestations)|]. vm_compute. reflexivity.
Defined.

Lemma folder_normal_witness : normalize_path id (normalize_path id (bytes_of_string "/a/../b//.")) = bytes_of_string "a/b".
Proof.
  rewrite (proj1 (folder_normal id (bytes_of_string "/a/../b//.") (fun s => eq_refl) (fun s => ex_intro _ [] (ex_intro _ [] (eq_sym (app_nil_r s)))))).
  vm_compute. reflexivity.
Defined.
