(* ===== verification/Files.v ===== *)
(** Listed files, from upload to reading: splitting and sealing an upload
    ([Server::add_file_with_progress], [seal_upload_chunk], [publish_upload]),
    resolving the encrypted variants a server lists for one file
    ([crates/catcoms-app/src/file_resolution.rs]), and fetching chunks, whole
    files and byte ranges ([fetch_resolved_chunk], [download_file],
    [read_file_range] of [crates/catcoms-app/src/lib.rs]).

    The node's blob store and the network are a state [W] with the three
    operations the code calls; nothing is assumed of them. The texts of errors
    are left out. An index out of range of a vector is [Panicked]. *)

From S2P Require Import Prelude OrdMap Wire Context Pad Crypto Codec Blob SignedOp FileCrypto Listing.
From stdpp Require Import base list.
From Stdlib Require Import Init.Byte.
Local Open Scope N_scope.

(** * Data *)

Definition MAX_MANIFEST_VARIANTS : N := 4.
Definition CHUNK_BYTES : N := CHUNK_PAD_CEILING.

Record ResolvedFile := mkResolvedFile { rf_variants : list (FileEntry * FileManifest); rf_version : bytes }.

Inductive FileError : Type :=
| FileStorage (e : StorageError)
| FileSync
| ChunkOutOfRange
| DownloadCancelled
| ChunkUnavailable
| ChunkUnreadable
| ChunkUndecryptable (e : StorageError)
| NoUnambiguousManifest
| ManifestChanged
| WindowTooLarge
| ImplausibleSize
| ChunkLength
| IntegrityFailed
| FileTooLarge
| MetadataTooLarge
| NoChunks
| BadLayout
| Panicked.

Record FileRange := mkFileRange {
  fg_bytes : bytes;
  fg_total_size : N;
  fg_mime : bytes;
  fg_provider : option bytes
}.

(** * Resolution *)

Fixpoint all_zip {X Y} (f : X -> Y -> bool) (l : list X) (k : list Y) : bool :=
  match l, k with
  | x :: l, y :: k => f x y && all_zip f l k
  | _, _ => true
  end.

Definition same_chunk (a b : FileRef) : bool :=
  bool_decide (fr_plaintext_cid a = fr_plaintext_cid b) && (fr_size a =? fr_size b) && bool_decide (fr_mime a = fr_mime b).

Definition equivalent (a b : FileManifest) : bool :=
  bool_decide (fm_plaintext_cid a = fm_plaintext_cid b) && (fm_total_size a =? fm_total_size b)
  && bool_decide (fm_mime a = fm_mime b) && (len (fm_chunks a) =? len (fm_chunks b))
  && all_zip same_chunk (fm_chunks a) (fm_chunks b).

Section resolution.
Context {C : Crypto}.

Definition file_manifest_version (file_ref : bytes) : bytes :=
  blake3 (bytes_of_string "mewtual-file-media-manifest/v1" ++ be_bytes 8 (len file_ref) ++ file_ref).

Definition manifest_set_version (versions : list bytes) : bytes :=
  match versions with
  | [version] => version
  | _ => blake3 (bytes_of_string "mewtual-file-media-variants/v1" ++ be_bytes 8 (len versions) ++ concat versions)
  end.

Definition Variants : Type := bmap bytes (FileEntry * FileManifest).

Definition resolve_entry (variants : Variants) (entry : FileEntry) : option Variants :=
  let version := file_manifest_version (fe_file_ref entry) in
  if om_has version variants then Some variants
  else if len variants =? MAX_MANIFEST_VARIANTS then None
  else match decode_or_legacy (fe_file_ref entry) with
       | Err _ => None
       | Ok manifest =>
           if MAX_FILE_BYTES <? fm_total_size manifest then None
           else if match head (om_values variants) with
                   | Some (_, first) => negb (equivalent first manifest)
                   | None => false
                   end
           then None
           else Some (om_insert version (entry, manifest) variants)
       end.

Fixpoint resolve_loop (variants : Variants) (entries : list FileEntry) : option Variants :=
  match entries with
  | [] => Some variants
  | entry :: rest => variants ← resolve_entry variants entry; resolve_loop variants rest
  end.

Definition listed_as (cid : Cid) (entry : FileEntry) : bool := bool_decide (fe_cid entry = cid).

Definition resolve (entries : list FileEntry) (cid : Cid) : option ResolvedFile :=
  variants ← resolve_loop [] (List.filter (listed_as cid) entries);
  match variants with
  | [] => None
  | _ => Some (mkResolvedFile (om_values variants) (manifest_set_version (om_keys variants)))
  end.

Definition matches_upload (manifest : FileManifest) (total_size : N) (chunk_identities : list (Cid * N)) : bool :=
  (fm_total_size manifest =? total_size) && (len (fm_chunks manifest) =? len chunk_identities)
  && all_zip (fun chunk i => bool_decide (fr_plaintext_cid chunk = i.1) && (fr_size chunk =? i.2))
       (fm_chunks manifest) chunk_identities.

Definition reusable_upload_entry (entries : list FileEntry) (cid : Cid) (total_size : N) (chunk_identities : list (Cid * N))
    (verify : FileManifest -> bool) : option FileEntry :=
  resolved ← resolve entries cid;
  fst <$> List.find (fun v => matches_upload v.2 total_size chunk_identities && verify v.2) (rf_variants resolved).

Definition file_download_plan (entries : list FileEntry) (cid : Cid) : option (N * N) :=
  resolved ← resolve entries cid;
  '(_, manifest) ← head (rf_variants resolved);
  Some (len (fm_chunks manifest), fm_total_size manifest).

(** [FileMediaHead]: total size, type, manifest version *)
Definition file_head (entries : list FileEntry) (cid : Cid) : option (N * bytes * bytes) :=
  resolved ← resolve entries cid;
  '(entry, manifest) ← head (rf_variants resolved);
  Some (fm_total_size manifest, fe_mime entry, rf_version resolved).
End resolution.

(** * Reading *)

Section reading.
Context {C : Crypto} {A : Aead} {W : Type}.
Context (get_blob : W -> Cid -> option bytes) (has_blob : W -> Cid -> bool).
(** [request_blob_best_provider]: asks peers, may store the blob, names the provider *)
Context (request_blob : W -> Cid -> option (option bytes) * W).
(** [RequestCancellation::is_cancelled]; constantly false without a cancellation *)
Context (cancelled : W -> bool) (file_wrap_key : bytes).

Definition open_chunk (ciphertext : bytes) (r : FileRef) : result FileError bytes :=
  map_err ChunkUndecryptable (open_file ciphertext r file_wrap_key).

Definition fetch_and_open_chunk (w : W) (r : FileRef) : result FileError (bytes * option bytes) * W :=
  let '(provider, w) :=
    match get_blob w (fr_ciphertext_cid r) with
    | Some _ => (Some None, w)
    | None => request_blob w (fr_ciphertext_cid r)
    end in
  match provider with
  | None => (Err FileSync, w)
  | Some provider =>
      match get_blob w (fr_ciphertext_cid r) with
      | None => (Err (if has_blob w (fr_ciphertext_cid r) then ChunkUnreadable else ChunkUnavailable), w)
      | Some ciphertext => ((fun p => (p, provider)) <$> open_chunk ciphertext r, w)
      end
  end.

(** The first loop: an answer from a variant held locally, or the references to
    ask for and the last error. *)
Fixpoint local_chunk (w : W) (index : nat) (variants : list (FileEntry * FileManifest)) (missing : list FileRef) (last : FileError)
    : result FileError (bytes + list FileRef * FileError) :=
  match variants with
  | [] => Ok (inr (missing, last))
  | (_, manifest) :: rest =>
      match fm_chunks manifest !! index with
      | None => Err Panicked
      | Some r =>
          match get_blob w (fr_ciphertext_cid r) with
          | Some ciphertext =>
              match open_chunk ciphertext r with
              | Ok plaintext => Ok (inl plaintext)
              | Err e => local_chunk w index rest missing e
              end
          | None => local_chunk w index rest (missing ++ [r]) last
          end
      end
  end.

Fixpoint remote_chunk (w : W) (missing : list FileRef) (last : FileError) : result FileError (bytes * option bytes) * W :=
  match missing with
  | [] => (Err last, w)
  | r :: rest =>
      if cancelled w then (Err DownloadCancelled, w)
      else match fetch_and_open_chunk w r with
           | (Ok chunk, w) => (Ok chunk, w)
           | (Err e, w) => remote_chunk w rest e
           end
  end.

Definition first_manifest (resolved : ResolvedFile) : option (FileEntry * FileManifest) := head (rf_variants resolved).

Definition fetch_resolved_chunk (w : W) (resolved : ResolvedFile) (index : nat) : result FileError (bytes * option bytes) * W :=
  match first_manifest resolved with
  | None => (Err Panicked, w)
  | Some (_, first) =>
      if len (fm_chunks first) <=? N.of_nat index then (Err ChunkOutOfRange, w)
      else if cancelled w then (Err DownloadCancelled, w)
      else match local_chunk w index (rf_variants resolved) [] ChunkUnavailable with
           | Err e => (Err e, w)
           | Ok (inl plaintext) => (Ok (plaintext, None), w)
           | Ok (inr (missing, last)) => remote_chunk w missing last
           end
  end.

Fixpoint download_loop (w : W) (resolved : ResolvedFile) (indices : list nat) (out : bytes) : result FileError bytes * W :=
  match indices with
  | [] => (Ok out, w)
  | i :: rest =>
      match fetch_resolved_chunk w resolved i with
      | (Ok (chunk, _), w) => download_loop w resolved rest (out ++ chunk)
      | (Err e, w) => (Err e, w)
      end
  end.

Definition download_file (w : W) (entries : list FileEntry) (cid : Cid) : result FileError bytes * W :=
  match resolve entries cid with
  | None => (Err NoUnambiguousManifest, w)
  | Some resolved =>
      match first_manifest resolved with
      | None => (Err Panicked, w)
      | Some (_, manifest) =>
          if MAX_FILE_BYTES <? fm_total_size manifest then (Err ImplausibleSize, w)
          else match download_loop w resolved (seq 0 (length (fm_chunks manifest))) [] with
               | (Err e, w) => (Err e, w)
               | (Ok out, w) =>
                   (if bool_decide (Cid_of out = fm_plaintext_cid manifest) then Ok out else Err IntegrityFailed, w)
               end
      end
  end.

Definition fetch_file_chunk (w : W) (entries : list FileEntry) (cid : Cid) (index : nat) : result FileError (bytes * option bytes) * W :=
  match resolve entries cid with
  | None => (Err NoUnambiguousManifest, w)
  | Some resolved => fetch_resolved_chunk w resolved index
  end.

(** [Server::file_available]; [manifest.chunks[idx]] of a variant that lacks it panics *)
Definition any_variant_has (w : W) (resolved : ResolvedFile) (index : nat) : option bool :=
  fold_left (fun found v =>
    match found with
    | Some false => (fun r => has_blob w (fr_ciphertext_cid r)) <$> fm_chunks v.2 !! index
    | _ => found
    end) (rf_variants resolved) (Some false).

Definition file_available (w : W) (entries : list FileEntry) (cid : Cid) : option bool :=
  match resolve entries cid with
  | None => Some false
  | Some resolved =>
      match first_manifest resolved with
      | None => None
      | Some (_, manifest) =>
          fold_left (fun all i =>
            match all with
            | Some true => any_variant_has w resolved i
            | _ => all
            end) (seq 0 (length (fm_chunks manifest))) (Some true)
      end
  end.

Definition chunk_holding (w : W) (entry : FileEntry) : N * N :=
  match decode_or_legacy (fe_file_ref entry) with
  | Ok manifest => (len (List.filter (fun c => has_blob w (fr_ciphertext_cid c)) (fm_chunks manifest)), len (fm_chunks manifest))
  | Err _ => (0, 0)
  end.

(** [&chunk[lo..hi]] of one chunk of the window *)
Definition window_part (start end_ : N) (index : nat) (chunk : bytes) : bytes :=
  let base := N.of_nat index * CHUNK_BYTES in
  let lo := N.min (start - base) (len chunk) in
  let hi := N.min (end_ - base) (len chunk) in
  firstn (N.to_nat (hi - lo)) (skipn (N.to_nat lo) chunk).

Fixpoint range_loop (w : W) (resolved : ResolvedFile) (count : nat) (start end_ : N) (indices : list nat) (buf : bytes)
    (provider : option bytes) : result FileError (bytes * option bytes) * W :=
  match indices with
  | [] => (Ok (buf, provider), w)
  | i :: rest =>
      match fetch_resolved_chunk w resolved i with
      | (Err e, w) => (Err e, w)
      | (Ok (chunk, from), w) =>
          if negb (i =? count - 1)%nat && negb (len chunk =? CHUNK_BYTES) then (Err ChunkLength, w)
          else range_loop w resolved count start end_ rest (buf ++ window_part start end_ i chunk)
                 (match provider with Some p => Some p | None => from end)
      end
  end.

Definition window_indices (start end_ : N) : list nat :=
  let first := N.to_nat (start / CHUNK_BYTES) in
  let last := N.to_nat ((end_ - 1) / CHUNK_BYTES) in
  seq first (S last - first).

Definition read_file_range (w : W) (entries : list FileEntry) (cid : Cid) (expected_version : bytes) (start max_len : N)
    : result FileError FileRange * W :=
  if CHUNK_BYTES <? max_len then (Err WindowTooLarge, w)
  else match resolve entries cid with
       | None => (Err NoUnambiguousManifest, w)
       | Some resolved =>
           if negb (bool_decide (rf_version resolved = expected_version)) then (Err ManifestChanged, w)
           else match first_manifest resolved with
                | None => (Err Panicked, w)
                | Some (entry, manifest) =>
                    let total_size := fm_total_size manifest in
                    if MAX_FILE_BYTES <? total_size then (Err ImplausibleSize, w)
                    else if (total_size <=? start) || (max_len =? 0)
                    then (Ok (mkFileRange [] total_size (fe_mime entry) None), w)
                    else
                      let end_ := N.min (sat_add u64_max start max_len) total_size in
                      match range_loop w resolved (length (fm_chunks manifest)) start end_ (window_indices start end_) [] None with
                      | (Err e, w) => (Err e, w)
                      | (Ok (buf, provider), w) => (Ok (mkFileRange buf total_size (fe_mime entry) provider), w)
                      end
                end
       end.

(** [Server::manifest_held_verified]; the hasher is fed the chunks in order *)
Fixpoint open_held (w : W) (chunks : list FileRef) (so_far : bytes) : option bytes :=
  match chunks with
  | [] => Some so_far
  | c :: rest =>
      ciphertext ← get_blob w (fr_ciphertext_cid c);
      match open_file ciphertext c file_wrap_key with
      | Ok plaintext => open_held w rest (so_far ++ plaintext)
      | Err _ => None
      end
  end.

Definition manifest_held_verified (w : W) (manifest : FileManifest) : bool :=
  match open_held w (fm_chunks manifest) [] with
  | Some whole => bool_decide (Cid_of whole = fm_plaintext_cid manifest)
  | None => false
  end.
End reading.

(** * Uploading *)

(** [bytes.chunks(CHUNK_BYTES)]; the length is fuel enough *)
Fixpoint split_chunks (fuel size : nat) (l : bytes) : list bytes :=
  match fuel, l with
  | S fuel, _ :: _ => firstn size l :: split_chunks fuel size (skipn size l)
  | _, _ => []
  end.

Definition upload_chunks (data : bytes) : list bytes :=
  match split_chunks (length data) (N.to_nat CHUNK_BYTES) data with
  | [] => [[]]
  | chunks => chunks
  end.

Section uploading.
Context {C : Crypto} {A : Aead}.

(** [Server::seal_upload_chunk]: the reference and the blob it stages *)
Definition seal_upload_chunk (mime key chunk : bytes) (rng : Rng) : result FileError (FileRef * bytes) * Rng :=
  if CHUNK_BYTES <? len chunk then (Err FileTooLarge, rng)
  else let '(r, rng) := seal_file chunk mime key rng in (map_err FileStorage r, rng).

Fixpoint seal_chunks (mime key : bytes) (chunks : list bytes) (rng : Rng) : result FileError (list (FileRef * bytes)) * Rng :=
  match chunks with
  | [] => (Ok [], rng)
  | chunk :: rest =>
      match seal_upload_chunk mime key chunk rng with
      | (Err e, rng) => (Err e, rng)
      | (Ok sealed, rng) =>
          match seal_chunks mime key rest rng with
          | (Err e, rng) => (Err e, rng)
          | (Ok all, rng) => (Ok (sealed :: all), rng)
          end
      end
  end.

(** [Server::publish_upload], up to the manifest it will publish: [folder] is the
    normalised path, and the group has its file key. *)
Definition upload_manifest (name mime folder : bytes) (plaintext_cid : Cid) (total_size : N) (chunks : list FileRef)
    : result FileError FileManifest :=
  _ ← refuse_if (MAX_FILE_BYTES <? total_size) FileTooLarge;
  _ ← refuse_if (len chunks =? 0) NoChunks;
  _ ← refuse_if ((MAX_FILE_NAME_BYTES <? len name) || (MAX_FILE_MIME_BYTES <? len mime) || (MAX_FILE_PATH_BYTES <? len folder))
        MetadataTooLarge;
  let manifest := mkFileManifest plaintext_cid total_size mime chunks in
  _ ← map_err (fun _ => BadLayout) (validate_layout manifest);
  Ok manifest.
End uploading.

(** * What one resolution admits *)

Definition chunk_shape (r : FileRef) : Cid * N * bytes := (fr_plaintext_cid r, fr_size r, fr_mime r).

(** Everything of a manifest but its encryption. *)
Definition shape (m : FileManifest) : Cid * N * bytes * list (Cid * N * bytes) :=
  (fm_plaintext_cid m, fm_total_size m, fm_mime m, chunk_shape <$> fm_chunks m).

Lemma same_chunk_iff a b : same_chunk a b = true <-> chunk_shape a = chunk_shape b.
Proof.
  unfold same_chunk, chunk_shape. rewrite !andb_true_iff, !bool_decide_eq_true, N.eqb_eq. split; [by intros [[-> ->] ->]|by intros [= -> -> ->]].
Qed.

Lemma all_zip_shapes l : forall k, length l = length k -> all_zip same_chunk l k = true <-> chunk_shape <$> l = chunk_shape <$> k.
Proof.
  induction l as [|a l IH]; intros [|b k] H; try discriminate H; cbn; [done|]. injection H as H.
  rewrite andb_true_iff, same_chunk_iff, (IH _ H). split; [by intros [-> ->]|intros [Ha Hk]%(inj2 cons); done].
Qed.

Lemma equivalent_iff a b : equivalent a b = true <-> shape a = shape b.
Proof.
  unfold equivalent, shape. rewrite !andb_true_iff, !bool_decide_eq_true, !N.eqb_eq. split.
  - intros [[[[-> ->] ->] Hl] Hz]. apply all_zip_shapes in Hz; [by rewrite Hz|unfold len in Hl; lia].
  - intros [= -> -> -> H]. assert (length (fm_chunks a) = length (fm_chunks b)) as Hl.
    { apply (f_equal length) in H. by rewrite !length_fmap in H. }
    split_and!; [done|done|done|unfold len; by rewrite Hl|]. by apply all_zip_shapes.
Qed.

Section admitted.
Context {C : Crypto}.

(** A reference that a listing may carry. *)
Definition ref_reads (file_ref : bytes) (m : FileManifest) : Prop :=
  decode_or_legacy file_ref = Ok m /\ fm_total_size m <= MAX_FILE_BYTES.

(** The references resolution accepts as one file. *)
Record one_file (refs : list bytes) : Prop := mkOneFile {
  of_read : forall x, x ∈ refs -> exists m, ref_reads x m;
  of_shape : forall x y m k, x ∈ refs -> y ∈ refs -> ref_reads x m -> ref_reads y k -> shape m = shape k;
  of_few : len (remove_dups (file_manifest_version <$> refs)) <= MAX_MANIFEST_VARIANTS
}.

(** The listed references, all with digests of their own. *)
Definition distinct_versions (refs : list bytes) : Prop :=
  forall x y, x ∈ refs -> y ∈ refs -> file_manifest_version x = file_manifest_version y -> x = y.

(** [vs] holds exactly what the references [refs] name. *)
Record holds_refs (refs : list bytes) (vs : Variants) : Prop := mkHoldsRefs {
  hr_wf : om_wf vs;
  hr_sound : forall v e m, om_get v vs = Some (e, m) -> fe_file_ref e ∈ refs /\ v = file_manifest_version (fe_file_ref e) /\ ref_reads (fe_file_ref e) m;
  hr_complete : forall x, x ∈ refs -> om_get (file_manifest_version x) vs <> None
}.

Lemma holds_keys refs vs : holds_refs refs vs -> om_keys vs ≡ₚ remove_dups (file_manifest_version <$> refs).
Proof.
  intros [Hwf Hs Hc]. apply NoDup_Permutation; [by apply om_keys_NoDup|apply NoDup_remove_dups|].
  intros v. rewrite elem_of_remove_dups, list_elem_of_fmap, <- om_get_keys by done. split.
  - intros Hv. destruct (om_get v vs) as [[e m]|] eqn:E; [|done]. apply Hs in E as (He & -> & _). by exists (fe_file_ref e).
  - intros (x & -> & Hx). by apply Hc.
Qed.

Lemma holds_len refs vs : holds_refs refs vs -> len vs = len (remove_dups (file_manifest_version <$> refs)).
Proof. intros H%holds_keys%Permutation_length. unfold om_keys in H. rewrite length_fmap in H. unfold len. by rewrite H. Qed.

Lemma versions_mono (l k : list bytes) : l ⊆ k -> len (remove_dups (file_manifest_version <$> l)) <= len (remove_dups (file_manifest_version <$> k)).
Proof.
  intros Hs. unfold len. apply N2Z.inj_le. rewrite !nat_N_Z. apply Nat2Z.inj_le. apply NoDup_incl_length; [apply NoDup_ListNoDup, NoDup_remove_dups|].
  intros v. rewrite <- !list_elem_of_In, !elem_of_remove_dups, !list_elem_of_fmap. intros (x & -> & Hx). exists x. split; [done|by apply Hs].
Qed.

Lemma one_file_mono l k : l ⊆ k -> one_file k -> one_file l.
Proof. intros Hs [H1 H2 H3]. constructor; [eauto|eauto|]. pose proof (versions_mono l k Hs). lia. Qed.

Lemma reads_unique x m k : ref_reads x m -> ref_reads x k -> m = k.
Proof. intros [H1 _] [H2 _]. congruence. Qed.

(** One more listing. *)
Lemma resolve_entry_spec done vs e :
  holds_refs done vs -> one_file done -> distinct_versions (fe_file_ref e :: done) ->
  match resolve_entry vs e with
  | Some vs' => holds_refs (fe_file_ref e :: done) vs' /\ one_file (fe_file_ref e :: done)
  | None => ~ one_file (fe_file_ref e :: done)
  end.
Proof.
  intros Hh Ho Hd. set (x := fe_file_ref e) in *. unfold resolve_entry. fold x. unfold om_has.
  destruct (om_get (file_manifest_version x) vs) as [[e0 m0]|] eqn:Eg.
  { cbn. destruct (hr_sound _ _ Hh _ _ _ Eg) as (He & Hv & Hr).
    assert (x = fe_file_ref e0) as Hx by (apply Hd; [left|by right|done]). rewrite <- Hx in He.
    assert (forall y, y ∈ x :: done <-> y ∈ done) as Hin by (intros y; rewrite elem_of_cons; split; [intros [->|?]; done|by right]).
    split; [|apply (one_file_mono _ done); [intros y; by rewrite Hin|done]].
    destruct Hh as [H1 H2 H3]. constructor; [done| |].
    - intros v e' m' E. destruct (H2 _ _ _ E) as (? & ? & ?). by rewrite Hin.
    - intros y. rewrite Hin. apply H3. }
  cbn.
  assert (forall m, ref_reads x m -> holds_refs (x :: done) (om_insert (file_manifest_version x) (e, m) vs)) as Hnew.
  { intros m Hm. destruct Hh as [H1 H2 H3]. constructor; [by apply om_wf_insert| |].
    - intros v e' m'. destruct (decide (v = file_manifest_version x)) as [->|]; [rewrite om_get_insert_eq; intros [= <- <-]; split_and!; [left|done|done]|].
      rewrite om_get_insert_ne by done. intros E. destruct (H2 _ _ _ E) as (? & ? & ?). split_and!; [by right|done|done].
    - intros y [->|Hy]%elem_of_cons; [by rewrite om_get_insert_eq|]. rewrite om_get_insert. destruct (kcmp _ _); [done|by apply H3|by apply H3]. }
  assert (om_get (file_manifest_version x) vs = None -> forall m, ref_reads x m -> len (remove_dups (file_manifest_version <$> (x :: done))) = 1 + len vs) as Hlen.
  { intros Hn m Hm. rewrite <- (holds_len _ _ (Hnew m Hm)). by apply om_insert_len_new. }
  destruct (N.eqb_spec (len vs) MAX_MANIFEST_VARIANTS) as [Hfull|Hroom].
  { intros [O1 _ O3]. destruct (O1 x) as [m Hm]; [left|]. rewrite (Hlen Eg m Hm) in O3. lia. }
  destruct (decode_or_legacy x) as [m|] eqn:Em; [|intros [O1 _ _]; destruct (O1 x) as (m & Hm & _); [left|congruence]].
  destruct (N.ltb_spec MAX_FILE_BYTES (fm_total_size m)) as [Hbig|Hsize].
  { intros [O1 _ _]. destruct (O1 x) as (m' & Hm & Hs); [left|]. assert (m' = m) as -> by congruence. lia. }
  assert (ref_reads x m) as Hm by done.
  assert (len (remove_dups (file_manifest_version <$> (x :: done))) <= MAX_MANIFEST_VARIANTS) as Hfew.
  { rewrite (Hlen Eg m Hm). pose proof (of_few _ Ho) as Hf. rewrite <- (holds_len _ _ Hh) in Hf. lia. }
  destruct vs as [|[v0 [e0 m0]] vs']; cbn -[om_insert].
  - split; [by apply Hnew|]. assert (done = []) as ->. { destruct done as [|y done]; [done|]. by destruct (hr_complete _ _ Hh y ltac:(left)). }
    constructor; [|intros a b k l [->|[]%elem_of_nil]%elem_of_cons [->|[]%elem_of_nil]%elem_of_cons Ha Hb; by rewrite (reads_unique _ _ _ Ha Hb)|done].
    intros y [->|[]%elem_of_nil]%elem_of_cons. by exists m.
  - destruct (hr_sound _ _ Hh v0 e0 m0) as (He0 & _ & Hr0); [cbn [om_get]; by rewrite kcmp_refl|].
    destruct (equivalent m0 m) eqn:Eq; cbn -[om_insert].
    + apply equivalent_iff in Eq. split; [by apply Hnew|].
      assert (forall y k, y ∈ x :: done -> ref_reads y k -> shape k = shape m) as Hall.
      { intros y k [->|Hy]%elem_of_cons Hk; [by rewrite (reads_unique _ _ _ Hk Hm)|]. rewrite <- Eq. by apply (of_shape _ Ho y (fe_file_ref e0)). }
      constructor; [|intros a b k l Ha Hb Hk Hl; by rewrite (Hall a k), (Hall b l)|done].
      intros y [->|Hy]%elem_of_cons; [by exists m|by apply (of_read _ Ho)].
    + intros [_ O2 _]. assert (shape m0 = shape m) as H%equivalent_iff by (apply (O2 (fe_file_ref e0) x); [by right|left|done|done]). congruence.
Qed.

Lemma holds_refs_equiv l k vs : (forall x, x ∈ l <-> x ∈ k) -> holds_refs l vs -> holds_refs k vs.
Proof.
  intros He [H1 H2 H3]. constructor; [done| |intros x Hx; apply H3; by apply He].
  intros v e m E. destruct (H2 _ _ _ E) as (? & ? & ?). by rewrite <- He.
Qed.

Lemma resolve_loop_spec entries : forall done vs,
  holds_refs done vs -> one_file done -> distinct_versions (done ++ (fe_file_ref <$> entries)) ->
  match resolve_loop vs entries with
  | Some vs' => holds_refs (done ++ (fe_file_ref <$> entries)) vs' /\ one_file (done ++ (fe_file_ref <$> entries))
  | None => ~ one_file (done ++ (fe_file_ref <$> entries))
  end.
Proof.
  induction entries as [|e entries IH]; intros done vs Hh Ho Hd; cbn; [by rewrite app_nil_r|]. cbn in Hd.
  assert (forall x, x ∈ (fe_file_ref e :: done) ++ (fe_file_ref <$> entries) <-> x ∈ done ++ fe_file_ref e :: (fe_file_ref <$> entries)) as Hin.
  { intros x. rewrite !elem_of_app, !elem_of_cons. tauto. }
  pose proof (resolve_entry_spec done vs e Hh Ho) as Hstep.
  assert (distinct_versions (fe_file_ref e :: done)) as Hd'.
  { intros x y Hx Hy. apply Hd; apply Hin; apply elem_of_app; by left. }
  specialize (Hstep Hd'). destruct (resolve_entry vs e) as [vs'|]; cbn.
  - destruct Hstep as [Hh' Ho']. specialize (IH _ _ Hh' Ho').
    assert (distinct_versions ((fe_file_ref e :: done) ++ (fe_file_ref <$> entries))) as Hd2 by (intros x y Hx Hy; apply Hd; by apply Hin).
    specialize (IH Hd2). destruct (resolve_loop vs' entries) as [vs2|].
    + destruct IH as [I1 I2]. split; [by apply (holds_refs_equiv _ _ _ Hin)|]. apply (one_file_mono _ _ (fun x => proj2 (Hin x)) I2).
    + intros O. apply IH. apply (one_file_mono _ _ (fun x => proj1 (Hin x)) O).
  - intros O. apply Hstep. apply (one_file_mono _ _ (fun x (Hx : x ∈ fe_file_ref e :: done) => proj1 (Hin x) (proj2 (elem_of_app _ _ _) (or_introl Hx))) O).
Qed.

(** What resolution says of a file, which row carried it left aside. *)
Definition resolved_view (r : ResolvedFile) : bytes * list FileManifest := (rf_version r, snd <$> rf_variants r).

Lemma holds_unique refs vs vs' : holds_refs refs vs -> holds_refs refs vs' -> distinct_versions refs -> om_map snd vs = om_map snd vs'.
Proof.
  assert (forall vs vs' v, holds_refs refs vs -> holds_refs refs vs' -> distinct_versions refs ->
    forall m, snd <$> om_get v vs = Some m -> snd <$> om_get v vs' = Some m) as Hone.
  { clear vs vs'. intros vs vs' v [_ H _] [_ H' Hc'] Hd m Hm. destruct (om_get v vs) as [[e m0]|] eqn:E; [|done]. injection Hm as <-.
    destruct (H _ _ _ E) as (Hx & -> & Hr). specialize (Hc' _ Hx). destruct (om_get _ vs') as [[e' m']|] eqn:E'; [|done]. cbn. f_equal.
    destruct (H' _ _ _ E') as (Hx' & Hv & Hr'). rewrite (Hd _ _ Hx Hx' Hv) in Hr. by apply (reads_unique (fe_file_ref e')). }
  intros Hh Hh' Hd. apply om_ext; [by apply om_wf_map, Hh|by apply om_wf_map, Hh'|]. intros v. rewrite !om_get_map.
  destruct (snd <$> om_get v vs) as [m|] eqn:E; [by rewrite (Hone vs vs' v Hh Hh' Hd m E)|].
  destruct (snd <$> om_get v vs') as [m|] eqn:E'; [|done]. by rewrite (Hone vs' vs v Hh' Hh Hd m E') in E.
Qed.

Lemma holds_nil : holds_refs [] [].
Proof. constructor; [apply om_wf_nil|done|by intros x ?%elem_of_nil]. Qed.

Lemma one_file_nil : one_file [].
Proof. constructor; [by intros x ?%elem_of_nil|by intros x y m k ?%elem_of_nil|done]. Qed.

(** The references of the rows that list a file. *)
Definition listed_refs (cid : Cid) (entries : list FileEntry) : list bytes := fe_file_ref <$> List.filter (listed_as cid) entries.

Lemma holds_nonempty refs vs : holds_refs refs vs -> vs <> [] -> refs <> [].
Proof.
  intros Hh Hne ->. destruct vs as [|[v [e m]] vs]; [done|].
  destruct (hr_sound _ _ Hh v e m) as (Hx & _); [cbn [om_get]; by rewrite kcmp_refl|by apply elem_of_nil in Hx].
Qed.

Lemma resolve_spec entries cid :
  distinct_versions (listed_refs cid entries) ->
  match resolve entries cid with
  | Some r => exists vs, holds_refs (listed_refs cid entries) vs /\ listed_refs cid entries <> [] /\ one_file (listed_refs cid entries) /\
                rf_variants r = om_values vs /\ rf_version r = manifest_set_version (om_keys vs)
  | None => listed_refs cid entries = [] \/ ~ one_file (listed_refs cid entries)
  end.
Proof.
  intros Hd. pose proof (resolve_loop_spec (List.filter (listed_as cid) entries) [] [] holds_nil one_file_nil Hd) as H.
  unfold resolve. cbn [app] in H. fold (listed_refs cid entries) in H. destruct (resolve_loop _ _) as [vs|]; cbn; [|by right].
  destruct H as [Hh Ho]. destruct vs as [|v vs].
  - left. destruct (listed_refs cid entries) as [|x l]; [done|]. by destruct (hr_complete _ _ Hh x ltac:(left)).
  - exists (v :: vs). split_and!; [done|by apply (holds_nonempty _ _ Hh)|done|done|done].
Qed.

(** C13: what a file resolves to depends on the set of references listed for it, not
    on the rows: in whatever order rows arrive, however often a reference is
    repeated and whatever else they say, the version that authorises reads and
    the manifests in their order are the same; and a file resolves exactly when
    something is listed and its references are at most four encryptions that
    decode, stay within the file size limit and agree on everything but their
    encryption. Two listed references with one BLAKE3 digest are excluded. *)
Theorem resolve_by_references entries entries' cid :
  (forall x, x ∈ listed_refs cid entries <-> x ∈ listed_refs cid entries') -> distinct_versions (listed_refs cid entries) ->
  resolved_view <$> resolve entries cid = resolved_view <$> resolve entries' cid /\
  (is_Some (resolve entries cid) <-> listed_refs cid entries <> [] /\ one_file (listed_refs cid entries)).
Proof.
  intros He Hd. assert (distinct_versions (listed_refs cid entries')) as Hd' by (intros x y Hx Hy; apply Hd; by apply He).
  pose proof (resolve_spec entries cid Hd) as H. pose proof (resolve_spec entries' cid Hd') as H'.
  assert (one_file (listed_refs cid entries) <-> one_file (listed_refs cid entries')) as Ho by (split; apply one_file_mono; intros x; by rewrite He).
  assert (listed_refs cid entries = [] <-> listed_refs cid entries' = []) as Hn.
  { split; intros E; rewrite E in He; apply elem_of_nil_inv; intros x Hx; apply He in Hx; by apply elem_of_nil in Hx. }
  destruct (resolve entries cid) as [r|], (resolve entries' cid) as [r'|]; cbn.
  - destruct H as (vs & Hh & Hne & Hof & E1 & E2), H' as (vs' & Hh' & _ & _ & E1' & E2').
    apply (holds_refs_equiv _ _ _ (fun x => iff_sym (He x))) in Hh'. pose proof (holds_unique _ _ _ Hh Hh' Hd) as Hu. split.
    + unfold resolved_view. rewrite E1, E1', E2, E2'. f_equal. f_equal; [|by rewrite <- !om_values_map, Hu].
      rewrite <- (om_keys_map snd vs), <- (om_keys_map snd vs'), Hu. done.
    + split; [done|by exists r].
  - exfalso. destruct H as (_ & _ & Hne & Hof & _), H' as [E|E]; [by apply Hne, Hn|by apply E, Ho].
  - exfalso. destruct H' as (_ & _ & Hne & Hof & _), H as [E|E]; [by apply Hne, Hn|by apply E, Ho].
  - split; [done|]. split; [by intros [? ?]|]. intros [Hne Hof]. by destruct H.
Qed.
End admitted.

(** * What a resolved file can give *)

(** Without any assumption on digests: every variant is a listed reference that
    decodes within the limit, and all have one shape. *)
Record resolved_ok `{C : Crypto} (entries : list FileEntry) (cid : Cid) (r : ResolvedFile) : Prop := mkResolvedOk {
  ro_some : rf_variants r <> [];
  ro_few : len (rf_variants r) <= MAX_MANIFEST_VARIANTS;
  ro_listed : forall e m, (e, m) ∈ rf_variants r -> e ∈ entries /\ fe_cid e = cid /\ ref_reads (fe_file_ref e) m;
  ro_shape : forall e m e' m', (e, m) ∈ rf_variants r -> (e', m') ∈ rf_variants r -> shape m = shape m'
}.

Section resolved.
Context {C : Crypto}.

Record variants_ok (P : FileEntry -> Prop) (vs : Variants) : Prop := mkVariantsOk {
  vo_wf : om_wf vs;
  vo_few : len vs <= MAX_MANIFEST_VARIANTS;
  vo_listed : forall e m, (e, m) ∈ om_values vs -> P e /\ ref_reads (fe_file_ref e) m;
  vo_shape : forall e m e' m', (e, m) ∈ om_values vs -> (e', m') ∈ om_values vs -> shape m = shape m'
}.

Lemma resolve_entry_ok P vs e vs' : variants_ok P vs -> P e -> resolve_entry vs e = Some vs' -> variants_ok P vs'.
Proof.
  intros [H1 H2 H3 H4] He. unfold resolve_entry, om_has. destruct (om_get _ vs) eqn:Eg; cbn; [by intros [= <-]|].
  destruct (N.eqb_spec (len vs) MAX_MANIFEST_VARIANTS); [done|]. destruct (decode_or_legacy (fe_file_ref e)) as [m|] eqn:Em; [|done].
  destruct (N.ltb_spec MAX_FILE_BYTES (fm_total_size m)); [done|].
  destruct (match head (om_values vs) with Some (_, first) => negb (equivalent first m) | None => false end) eqn:Eq; [done|]. intros [= <-].
  assert (forall x, x ∈ om_values (om_insert (file_manifest_version (fe_file_ref e)) (e, m) vs) <-> x = (e, m) \/ x ∈ om_values vs) as Hin.
  { intros x. unfold om_values. rewrite (om_insert_perm _ (e, m) vs Eg). cbn. by rewrite elem_of_cons. }
  assert (forall e' m', (e', m') ∈ om_values vs -> shape m' = shape m) as Hs.
  { intros e' m' Hx. destruct (om_values vs) as [|[e0 m0] rest] eqn:Ev; [by apply elem_of_nil in Hx|]. cbn in Eq. apply negb_false_iff, equivalent_iff in Eq.
    rewrite <- Eq. by apply (H4 e' m' e0 m0); [|left]. }
  constructor; [by apply om_wf_insert|rewrite om_insert_len_new by done; lia| |].
  - intros e' m'. rewrite Hin. intros [[= -> ->]|Hx]; [done|by apply H3].
  - intros e1 m1 e2 m2. rewrite !Hin. intros [[= -> ->]|Hx] [[= -> ->]|Hy]; [done|by rewrite (Hs _ _ Hy)|by rewrite (Hs _ _ Hx)|by apply (H4 e1 m1 e2 m2)].
Qed.

Lemma resolve_ok entries cid r : resolve entries cid = Some r -> resolved_ok entries cid r.
Proof.
  unfold resolve. set (P := fun e => e ∈ entries /\ fe_cid e = cid).
  assert (forall es vs vs', Forall P es -> variants_ok P vs -> resolve_loop vs es = Some vs' -> variants_ok P vs') as Hloop.
  { induction es as [|e es IH]; intros vs vs' Hf Hv; cbn; [by intros [= <-]|]. apply Forall_cons in Hf as [He Hf].
    destruct (resolve_entry vs e) as [vs1|] eqn:E; [|done]. cbn. apply (IH vs1); [done|by apply (resolve_entry_ok P vs e)]. }
  destruct (resolve_loop [] _) as [vs|] eqn:E; [|done]. cbn. apply Hloop in E.
  - destruct E as [H1 H2 H3 H4]. destruct vs as [|v vs]; [done|]. intros [= <-]. constructor; cbn [rf_variants]; [done| | |done].
    + change (len (om_values (v :: vs)) <= MAX_MANIFEST_VARIANTS). unfold om_values, len in *. by rewrite length_fmap.
    + intros e m Hx. destruct (H3 e m Hx) as [[? ?] ?]. done.
  - apply Forall_forall. intros e He. apply elem_List_filter in He as [He Hl]. apply bool_decide_eq_true in Hl. done.
  - constructor; [apply om_wf_nil|done|by intros e m ?%elem_of_nil|by intros e m e' m' ?%elem_of_nil].
Qed.

(** A chunk of [m] in the clear. *)
Definition chunk_of (r : FileRef) (p : bytes) : Prop := Cid_of p = fr_plaintext_cid r /\ len p = fr_size r.

Lemma shape_chunks m m' i r r' : shape m = shape m' -> fm_chunks m !! i = Some r -> fm_chunks m' !! i = Some r' -> chunk_shape r = chunk_shape r'.
Proof.
  intros [= _ _ _ Hs] H H'. apply (f_equal (lookup i)) in Hs. rewrite !list_lookup_fmap, H, H' in Hs. by apply (inj Some) in Hs.
Qed.

Lemma shape_len m m' : shape m = shape m' -> length (fm_chunks m) = length (fm_chunks m').
Proof. intros [= _ _ _ Hs]. apply (f_equal length) in Hs. by rewrite !length_fmap in Hs. Qed.

Lemma chunk_of_shape r r' p : chunk_shape r = chunk_shape r' -> chunk_of r p -> chunk_of r' p.
Proof. intros [= E1 E2 _] [H1 H2]. split; congruence. Qed.
End resolved.

Section fetching.
Context {C : Crypto} {A : Aead} {W : Type}.
Context (get_blob : W -> Cid -> option bytes) (has_blob : W -> Cid -> bool) (request_blob : W -> Cid -> option (option bytes) * W).
Context (cancelled : W -> bool) (file_wrap_key : bytes).

Lemma open_chunk_inv ct r p : open_chunk file_wrap_key ct r = Ok p -> chunk_of r p.
Proof. unfold open_chunk. destruct (open_file ct r file_wrap_key) eqn:E; [|done]. intros [= <-]. by apply open_file_inv in E as (_ & ? & ?). Qed.

Lemma open_chunk_err ct r e : open_chunk file_wrap_key ct r = Err e -> e <> Panicked.
Proof. unfold open_chunk. destruct (open_file ct r file_wrap_key); [done|]. by intros [= <-]. Qed.

Lemma local_chunk_sound w i target variants : forall missing last,
  (forall e m, (e, m) ∈ variants -> exists r, fm_chunks m !! i = Some r /\ chunk_shape r = chunk_shape target) ->
  Forall (fun r => chunk_shape r = chunk_shape target) missing -> last <> Panicked ->
  match local_chunk get_blob file_wrap_key w i variants missing last with
  | Err _ => False
  | Ok (inl p) => chunk_of target p
  | Ok (inr (missing, last)) => Forall (fun r => chunk_shape r = chunk_shape target) missing /\ last <> Panicked
  end.
Proof.
  induction variants as [|[e m] variants IH]; intros missing last Hv Hm Hl; cbn [local_chunk]; [done|].
  destruct (Hv e m ltac:(left)) as (r & -> & Hr). assert (forall e m, (e, m) ∈ variants -> exists r, fm_chunks m !! i = Some r /\ chunk_shape r = chunk_shape target) as Hv'
    by (intros e' m' Hx; apply (Hv e' m'); by right).
  destruct (get_blob w (fr_ciphertext_cid r)) as [ct|].
  - destruct (open_chunk file_wrap_key ct r) as [p|err] eqn:E; [by apply (chunk_of_shape _ _ _ Hr), (open_chunk_inv ct)|].
    apply IH; [done|done|by apply (open_chunk_err ct r)].
  - apply IH; [done| |done]. apply Forall_app. split; [done|by constructor].
Qed.

Lemma fetch_and_open_sound w r : let res := (fetch_and_open_chunk get_blob has_blob request_blob file_wrap_key w r).1 in
  res <> Err Panicked /\ forall p from, res = Ok (p, from) -> chunk_of r p.
Proof.
  cbv zeta. unfold fetch_and_open_chunk. destruct (match get_blob w _ with Some _ => _ | None => _ end) as [[provider|] w']; [|done].
  destruct (get_blob w' (fr_ciphertext_cid r)) as [ct|]; [|by destruct (has_blob _ _)]. cbn [fst].
  destruct (open_chunk file_wrap_key ct r) as [p|e] eqn:E; cbn.
  - split; [done|]. intros p' from [= <- <-]. by apply (open_chunk_inv ct).
  - split; [|done]. intros [= ->]. by apply open_chunk_err in E.
Qed.

Lemma remote_chunk_sound target missing : forall w last,
  Forall (fun r => chunk_shape r = chunk_shape target) missing -> last <> Panicked ->
  let res := (remote_chunk get_blob has_blob request_blob cancelled file_wrap_key w missing last).1 in
  res <> Err Panicked /\ forall p from, res = Ok (p, from) -> chunk_of target p.
Proof.
  induction missing as [|r missing IH]; intros w last Hm Hl; cbn; [split; [congruence|done]|]. apply Forall_cons in Hm as [Hr Hm].
  destruct (cancelled w); [done|]. pose proof (fetch_and_open_sound w r) as [H1 H2].
  destruct (fetch_and_open_chunk _ _ _ _ w r) as [[[p from]|e] w']; cbn in *; [|apply IH; [done|congruence]].
  split; [done|]. intros p' from' [= <- <-]. apply (chunk_of_shape _ _ _ Hr). by apply (H2 p from).
Qed.

Definition fetch := fetch_resolved_chunk get_blob has_blob request_blob cancelled file_wrap_key.

(** Whatever store and network do: a chunk that is returned is the one the first
    manifest names, nothing panics, and an index beyond it is refused. *)
Lemma fetch_sound entries cid resolved w i :
  resolved_ok entries cid resolved -> exists e m, first_manifest resolved = Some (e, m) /\ (e, m) ∈ rf_variants resolved /\
  (fetch w resolved i).1 <> Err Panicked /\ forall p from, (fetch w resolved i).1 = Ok (p, from) -> exists r, fm_chunks m !! i = Some r /\ chunk_of r p.
Proof.
  intros [H1 _ _ H4]. unfold fetch, fetch_resolved_chunk, first_manifest. destruct (rf_variants resolved) as [|[e m] rest] eqn:Ev; [done|]. cbn [head].
  exists e, m. split; [done|]. split; [left|]. destruct (N.leb_spec (len (fm_chunks m)) (N.of_nat i)) as [|Hi]; [done|].
  destruct (cancelled w); [done|]. destruct (lookup_lt_is_Some_2 (fm_chunks m) i) as [target Ht]; [unfold len in Hi; lia|].
  pose proof (local_chunk_sound w i target ((e, m) :: rest) [] ChunkUnavailable) as Hl.
  assert (forall e' m', (e', m') ∈ (e, m) :: rest -> exists r, fm_chunks m' !! i = Some r /\ chunk_shape r = chunk_shape target) as Hv.
  { intros e' m' Hx. pose proof (H4 e' m' e m Hx ltac:(left)) as Hs.
    destruct (lookup_lt_is_Some_2 (fm_chunks m') i) as [r Hr]; [rewrite (shape_len _ _ Hs); by apply lookup_lt_Some in Ht|].
    exists r. split; [done|]. by apply (shape_chunks m' m i). }
  specialize (Hl Hv (Forall_nil_2 _) ltac:(done)). destruct (local_chunk _ _ _ _ _ _ _) as [[p|[missing last]]|err]; [| |done].
  - cbn. split; [done|]. intros p' from [= <- <-]. by exists target.
  - destruct Hl as [Hm Hl]. destruct (remote_chunk_sound target missing w last Hm Hl) as [Hr1 Hr2]. split; [done|].
    intros p from Hp. exists target. split; [done|]. by apply (Hr2 p from).
Qed.

Lemma ref_reads_layout x m :
  ref_reads x m -> fm_chunks m <> [] /\ sum_of fr_size (fm_chunks m) = fm_total_size m /\
  forall j c, fm_chunks m !! j = Some c -> (S j < length (fm_chunks m))%nat -> fr_size c = CHUNK_BYTES.
Proof.
  intros [Hd _]. unfold decode_or_legacy in Hd. destruct (manifest_decode x) as [m'|] eqn:E.
  - injection Hd as ->. apply manifest_decode_spec in E as (_ & _ & Hl). split; [|split; [by apply layout_total|by intros; eapply layout_full]].
    intros Hn. pose proof (lo_count m Hl) as Hc. rewrite Hn in Hc. pose proof (expected_cover (fm_total_size m)) as [_ H1]. change (len []) with 0 in Hc. lia.
  - apply bind_ok in Hd as (r & _ & Hd). apply refuse_if_bind_ok in Hd as [_ Hd]. injection Hd as <-. cbn [fm_chunks fm_total_size]. split; [done|].
    split; [cbn; lia|]. intros j c _ Hj. cbn in Hj. lia.
Qed.

(** The chunks one read is served, in order, until it ends. *)
Fixpoint served (w : W) (resolved : ResolvedFile) (indices : list nat) : list bytes :=
  match indices with
  | [] => []
  | i :: rest =>
      match fetch w resolved i with
      | (Ok (chunk, _), w) => chunk :: served w resolved rest
      | (Err _, _) => []
      end
  end.

Lemma download_loop_sound entries cid resolved e m indices :
  resolved_ok entries cid resolved -> first_manifest resolved = Some (e, m) -> forall w out,
  let res := download_loop get_blob has_blob request_blob cancelled file_wrap_key w resolved indices out in
  res.1 <> Err Panicked /\ forall all, res.1 = Ok all ->
    all = out ++ concat (served w resolved indices) /\ Forall2 (fun i p => exists r, fm_chunks m !! i = Some r /\ chunk_of r p) indices (served w resolved indices).
Proof.
  intros Hr Hf. induction indices as [|i indices IH]; intros w out; cbn [download_loop served].
  - split; [done|]. intros all [= <-]. by rewrite app_nil_r.
  - destruct (fetch_sound entries cid resolved w i Hr) as (e' & m' & Hf' & _ & Hp & Hc). rewrite Hf in Hf'. injection Hf' as <- <-.
    fold fetch. destruct (fetch w resolved i) as [[[chunk from]|err] w'] eqn:E; cbn [fst] in *; [|split; [congruence|done]].
    specialize (IH w' (out ++ chunk)) as [I1 I2]. split; [done|]. intros all Hall. destruct (I2 all Hall) as [-> I3].
    split; [by rewrite <- app_assoc|]. constructor; [by apply (Hc chunk from)|done].
Qed.

Lemma chunks_total m ps :
  Forall2 (fun i p => exists r, fm_chunks m !! i = Some r /\ chunk_of r p) (seq 0 (length (fm_chunks m))) ps -> len (concat ps) = sum_of fr_size (fm_chunks m).
Proof.
  assert (forall rs k, (forall j r, rs !! j = Some r -> fm_chunks m !! (k + j)%nat = Some r) -> forall ps,
    Forall2 (fun i p => exists r, fm_chunks m !! i = Some r /\ chunk_of r p) (seq k (length rs)) ps -> len (concat ps) = sum_of fr_size rs) as H.
  { induction rs as [|r rs IH]; intros k Hk qs Hq; cbn in Hq; inversion Hq; subst; [done|]. cbn [concat sum_of]. rewrite len_app.
    destruct H1 as (r' & Hr' & _ & Hl). pose proof (Hk 0%nat r eq_refl) as Hk0. rewrite Nat.add_0_r in Hk0. assert (r' = r) as -> by congruence.
    rewrite Hl. f_equal. apply (IH (S k)); [|done]. intros j x Hx. rewrite Nat.add_succ_l, <- Nat.add_succ_r. by apply Hk. }
  intros Hf. by apply (H (fm_chunks m) 0%nat).
Qed.
End fetching.

(** C14: a download is the file. Over a listing read from the index, whatever the
    local store holds and whatever peers answer, [download_file] either fails
    with an error or returns bytes whose BLAKE3 address is the one asked for and
    whose length is the listed size, at most 1 GiB; and a single chunk that is
    returned has the plaintext address and size the listed manifest gives it.
    Neither ever indexes out of range. *)
Theorem download_authentic {C : Crypto} {A : Aead} {W : Type} (get_blob : W -> Cid -> option bytes) has_blob request_blob cancelled
    (key group_id : bytes) doc cid w i :
  let entries := read_file_entries doc group_id in
  let whole := (download_file get_blob has_blob request_blob cancelled key w entries cid).1 in
  let chunk := (fetch_file_chunk get_blob has_blob request_blob cancelled key w entries cid i).1 in
  (whole <> Err Panicked /\ forall out, whole = Ok out ->
     Cid_of out = cid /\ exists e, e ∈ entries /\ fe_cid e = cid /\ len out = fe_size e /\ fe_size e <= MAX_FILE_BYTES) /\
  (chunk <> Err Panicked /\ forall p from, chunk = Ok (p, from) ->
     exists e m r, e ∈ entries /\ fe_cid e = cid /\ decode_or_legacy (fe_file_ref e) = Ok m /\ fm_chunks m !! i = Some r /\ Cid_of p = fr_plaintext_cid r /\ len p = fr_size r).
Proof.
  cbv zeta. unfold download_file, fetch_file_chunk. set (entries := read_file_entries doc group_id).
  destruct (resolve entries cid) as [resolved|] eqn:Er; [|done]. apply resolve_ok in Er.
  assert (forall e m, (e, m) ∈ rf_variants resolved -> e ∈ entries /\ fe_cid e = cid /\ ref_reads (fe_file_ref e) m /\ fe_cid e = fm_plaintext_cid m /\ fe_size e = fm_total_size m) as Hent.
  { intros e m Hx. destruct (ro_listed _ _ _ Er e m Hx) as (He & Hc & Hr). split_and!; try done;
      apply read_entries_inv in He as (m' & Hm & E1 & E2); destruct Hr as [Hm' _]; congruence. }
  split.
  - destruct (fetch_sound get_blob has_blob request_blob cancelled key entries cid resolved w 0 Er) as (e & m & Hf & Hx & _). rewrite Hf.
    destruct (N.ltb_spec MAX_FILE_BYTES (fm_total_size m)); [done|].
    destruct (download_loop_sound get_blob has_blob request_blob cancelled key entries cid resolved e m (seq 0 (length (fm_chunks m))) Er Hf w []) as [D1 D2].
    destruct (download_loop _ _ _ _ _ _ _ _ _) as [[out|err] w'] eqn:Ed; cbn [fst] in *; [|split; [congruence|done]].
    case_bool_decide as Hcid; [|done]. split; [done|]. intros out' [= <-]. destruct (D2 _ eq_refl) as [-> D3]. cbn [app] in *.
    destruct (Hent e m Hx) as (He & Hc & Hr & E1 & E2). split; [congruence|]. exists e. split_and!; [done|done| |lia].
    rewrite E2. rewrite (chunks_total m _ D3). by apply (ref_reads_layout (fe_file_ref e) m).
  - destruct (fetch_sound get_blob has_blob request_blob cancelled key entries cid resolved w i Er) as (e & m & Hf & Hx & Hp & Hc).
    fold (fetch get_blob has_blob request_blob cancelled key). split; [done|]. intros p from Ep. destruct (Hc p from Ep) as (r & Hr & H1 & H2).
    destruct (Hent e m Hx) as (He & Hcid & [Hd _] & _). by exists e, m, r.
Qed.

(** * Ranges *)

(** Bytes [a] to [b] of [f]. *)
Definition sub (a b : N) (f : bytes) : bytes := firstn (N.to_nat (b - a)) (skipn (N.to_nat a) f).

Lemma sub_app a b c f : a <= b -> b <= c -> sub a b f ++ sub b c f = sub a c f.
Proof.
  intros H1 H2. unfold sub. replace (N.to_nat (c - a)) with (N.to_nat (b - a) + N.to_nat (c - b))%nat by lia.
  rewrite <- take_take_drop, drop_drop. do 3 f_equal. lia.
Qed.

Lemma sub_sub a b x y f : a + y <= b -> sub x y (sub a b f) = sub (a + x) (a + y) f.
Proof.
  intros H. unfold sub. rewrite skipn_firstn_comm, firstn_firstn, skipn_skipn. f_equal; [lia|f_equal; lia].
Qed.

(** Where a chunk stands in the file. *)
Lemma part_at parts : forall i p size, parts !! i = Some p -> (forall j q, (j < i)%nat -> parts !! j = Some q -> len q = size) ->
  p = sub (N.of_nat i * size) (N.of_nat i * size + len p) (concat parts).
Proof.
  induction parts as [|q parts IH]; intros [|i] p size Hp Hs; try done; cbn [lookup list_lookup] in Hp.
  - injection Hp as ->. unfold sub. change (N.of_nat 0 * size) with 0. rewrite N.add_0_l, N.sub_0_r. change (N.to_nat 0) with 0%nat. cbn [concat]. rewrite drop_0. unfold len. rewrite Nat2N.id.
    by rewrite firstn_app, Nat.sub_diag, firstn_0, app_nil_r, firstn_all.
  - rewrite (IH i p size Hp) at 1 by (intros j x Hj Hx; apply (Hs (S j) x); [lia|done]).
    pose proof (Hs 0%nat q ltac:(lia) eq_refl) as Hq. unfold sub. cbn [concat].
    replace (N.of_nat (S i) * size) with (N.of_nat i * size + size) by lia. set (o := N.of_nat i * size). clearbody o. unfold len in Hq.
    rewrite skipn_app, (skipn_all2 q) by lia. cbn [app].
    f_equal; [lia|]. f_equal. lia.
Qed.

Lemma parts_total (parts : list bytes) : forall i p size, parts !! i = Some p -> length parts = S i -> (forall j q, (j < i)%nat -> parts !! j = Some q -> len q = size) ->
  len (concat parts) = N.of_nat i * size + len p.
Proof.
  induction parts as [|q parts IH]; intros [|i] p size Hp Hl Hs; try done; cbn [lookup list_lookup concat length] in *.
  - injection Hp as ->. injection Hl as Hl. apply nil_length_inv in Hl as ->. cbn [concat]. rewrite app_nil_r. lia.
  - rewrite len_app, (Hs 0%nat q) by (lia || done). rewrite (IH i p size Hp); [lia|lia|]. intros j x Hj Hx. apply (Hs (S j) x); [lia|done].
Qed.

(** No chunk that is served collides with the one it stands for. *)
Definition honestly_served `{C : Crypto} (parts given : list bytes) (indices : list nat) : Prop :=
  Forall2 (fun i p => forall q, parts !! i = Some q -> Cid_of q = Cid_of p -> q = p) (take (length given) indices) given.

Section ranges.
Context {C : Crypto} {A : Aead} {W : Type}.
Context (get_blob : W -> Cid -> option bytes) (has_blob : W -> Cid -> bool) (request_blob : W -> Cid -> option (option bytes) * W).
Context (cancelled : W -> bool) (file_wrap_key : bytes).

#[local] Abbreviation run_fetch := (fetch get_blob has_blob request_blob cancelled file_wrap_key).
#[local] Abbreviation run_served := (served get_blob has_blob request_blob cancelled file_wrap_key).
#[local] Abbreviation run_range := (range_loop get_blob has_blob request_blob cancelled file_wrap_key).

(** The part of the window one whole chunk gives. *)
Lemma window_part_sub start end_ i p whole :
  p = sub (N.of_nat i * CHUNK_BYTES) (N.of_nat i * CHUNK_BYTES + len p) whole -> N.of_nat i * CHUNK_BYTES < end_ -> start < end_ ->
  N.max start (N.of_nat i * CHUNK_BYTES) <= N.min end_ (N.of_nat i * CHUNK_BYTES + len p) ->
  window_part start end_ i p = sub (N.max start (N.of_nat i * CHUNK_BYTES)) (N.min end_ (N.of_nat i * CHUNK_BYTES + len p)) whole.
Proof.
  intros Hp Hi Hse Hle. unfold window_part. set (base := N.of_nat i * CHUNK_BYTES) in *.
  change (firstn (N.to_nat (N.min (end_ - base) (len p) - N.min (start - base) (len p))) (skipn (N.to_nat (N.min (start - base) (len p))) p))
    with (sub (N.min (start - base) (len p)) (N.min (end_ - base) (len p)) p).
  rewrite Hp at 3. rewrite sub_sub by lia. f_equal; lia.
Qed.

Variables (entries : list FileEntry) (cid : Cid) (resolved : ResolvedFile) (e : FileEntry) (m : FileManifest).
Hypothesis (Hok : resolved_ok entries cid resolved) (Hfirst : first_manifest resolved = Some (e, m)).
Variable parts : list bytes.
Hypothesis Hparts : Forall2 chunk_of (fm_chunks m) parts.

Lemma fetched_part w i p from w' :
  run_fetch w resolved i = (Ok (p, from), w') -> (forall q, parts !! i = Some q -> Cid_of q = Cid_of p -> q = p) ->
  (i < length (fm_chunks m))%nat /\ parts !! i = Some p.
Proof using Hok Hfirst Hparts.
  intros E Hc. destruct (fetch_sound get_blob has_blob request_blob cancelled file_wrap_key entries cid resolved w i Hok) as (e' & m' & Hf & _ & _ & Hr).
  rewrite Hfirst in Hf. injection Hf as <- <-. rewrite E in Hr. destruct (Hr p from eq_refl) as (r & Hl & Hp1 & _). split; [by apply lookup_lt_Some in Hl|].
  destruct (Forall2_lookup_l _ _ _ _ _ Hparts Hl) as (q & Hq & Hq1 & _). rewrite Hq. f_equal. apply Hc; [done|congruence].
Qed.

Lemma range_loop_sub start end_ count k : forall w i buf provider buf' provider' w',
  count = length (fm_chunks m) -> end_ <= len (concat parts) -> start < end_ ->
  (forall j q, (S j < count)%nat -> parts !! j = Some q -> len q = CHUNK_BYTES) ->
  (0 < k)%nat -> N.of_nat (i + k - 1) * CHUNK_BYTES < end_ -> end_ <= N.of_nat (i + k) * CHUNK_BYTES -> start < N.of_nat (S i) * CHUNK_BYTES ->
  run_range w resolved count start end_ (seq i k) buf provider = (Ok (buf', provider'), w') ->
  honestly_served parts (run_served w resolved (seq i k)) (seq i k) ->
  buf' = buf ++ sub (N.max start (N.of_nat i * CHUNK_BYTES)) end_ (concat parts).
Proof using Hok Hfirst Hparts.
  induction k as [|k IH]; intros w i buf provider buf' provider' w' Hcount Hend Hse Hfull Hk Hlo Hhi Hstart Hrun Hno; [lia|]. clear Hk.
  cbn [seq range_loop served] in Hrun, Hno. fold run_fetch in Hrun. destruct (run_fetch w resolved i) as [[[p from]|] w1] eqn:Ef; [|done].
  unfold honestly_served in Hno. cbn [length take] in Hno. apply Forall2_cons in Hno as [Hhead Hno].
  destruct (fetched_part w i p from w1 Ef Hhead) as [Hi Hp].
  destruct (negb (i =? count - 1)%nat && negb (len p =? CHUNK_BYTES)) eqn:Echeck; [done|].
  assert (p = sub (N.of_nat i * CHUNK_BYTES) (N.of_nat i * CHUNK_BYTES + len p) (concat parts)) as Hat.
  { apply part_at; [done|]. intros j q Hj Hq. apply (Hfull j q); [lia|done]. }
  assert (0 < CHUNK_BYTES) as Hpos by done.
  assert ((S i < count)%nat -> len p = CHUNK_BYTES) as Hlen by (intros H; by apply (Hfull i p)).
  destruct k as [|k].
  - cbn [seq range_loop] in Hrun. injection Hrun as <- _ _. f_equal. rewrite Nat.add_1_r in *. replace (S i - 1)%nat with i in Hlo by lia.
    assert (end_ <= N.of_nat i * CHUNK_BYTES + len p) as Hcover.
    { destruct (decide (S i < count)%nat) as [Hs|Hs]; [rewrite (Hlen Hs); lia|].
      rewrite <- (parts_total parts i p CHUNK_BYTES); [done|done|rewrite <- (Forall2_length _ _ _ Hparts); lia|].
      intros j q Hj Hq. apply (Hfull j q); [lia|done]. }
    rewrite (window_part_sub start end_ i p (concat parts)) by (done || lia). f_equal. lia.
  - assert (S i < count)%nat as Hnext.
    { pose proof Hrun as Hr. cbn [seq range_loop] in Hr. fold run_fetch in Hr. destruct (run_fetch w1 resolved (S i)) as [[[p2 from2]|] w2] eqn:Ef2; [|done].
      destruct (fetch_sound get_blob has_blob request_blob cancelled file_wrap_key entries cid resolved w1 (S i) Hok) as (e' & m' & Hf & _ & _ & Hx).
      rewrite Hfirst in Hf. injection Hf as <- <-. fold run_fetch in Hx. rewrite Ef2 in Hx. destruct (Hx p2 from2 eq_refl) as (r & Hl & _). apply lookup_lt_Some in Hl. lia. }
    specialize (Hlen Hnext). apply IH in Hrun; try done; [|lia|nia|nia|nia].
    rewrite Hrun, <- app_assoc. f_equal. rewrite (window_part_sub start end_ i p (concat parts)) by (done || nia). rewrite Hlen.
    replace (N.min end_ (N.of_nat i * CHUNK_BYTES + CHUNK_BYTES)) with (N.of_nat (S i) * CHUNK_BYTES) by nia.
    replace (N.max start (N.of_nat (S i) * CHUNK_BYTES)) with (N.of_nat (S i) * CHUNK_BYTES) by lia. apply sub_app; nia.
Qed.
End ranges.

Lemma range_slice {C : Crypto} {A : Aead} {W : Type} (get_blob : W -> Cid -> option bytes) has_blob request_blob cancelled (key : bytes)
    w entries cid version start max_len rg w' resolved e m parts :
  let indices := window_indices start (N.min (start + max_len) (fm_total_size m)) in
  read_file_range get_blob has_blob request_blob cancelled key w entries cid version start max_len = (Ok rg, w') ->
  resolve entries cid = Some resolved -> first_manifest resolved = Some (e, m) -> Forall2 chunk_of (fm_chunks m) parts ->
  honestly_served parts (served get_blob has_blob request_blob cancelled key w resolved indices) indices ->
  rf_version resolved = version /\ max_len <= CHUNK_BYTES /\ fg_total_size rg = len (concat parts) /\
  fg_bytes rg = sub start (N.min (start + max_len) (len (concat parts))) (concat parts).
Proof.
  intros indices Hrun Hres Hfirst Hparts Hno. pose proof (resolve_ok _ _ _ Hres) as Hok. unfold read_file_range in Hrun. rewrite Hres, Hfirst in Hrun.
  destruct (N.ltb_spec CHUNK_BYTES max_len) as [|Hmax]; [done|].
  destruct (bool_decide (rf_version resolved = version)) eqn:Ev; cbn [negb] in Hrun; [|done]. apply bool_decide_eq_true in Ev.
  destruct (N.ltb_spec MAX_FILE_BYTES (fm_total_size m)) as [|Hsize]; [done|].
  assert (exists x, ref_reads x m) as [x Hx].
  { exists (fe_file_ref e). unfold first_manifest in Hfirst. apply (ro_listed _ _ _ Hok). destruct (rf_variants resolved); [done|]. injection Hfirst as ->. left. }
  destruct (ref_reads_layout x m Hx) as (_ & Htot & Hfull).
  assert (len (concat parts) = fm_total_size m) as Hwhole.
  { rewrite <- Htot. clear -Hparts. induction Hparts as [|r p rs ps [_ Hl] _ IH]; [done|]. cbn [concat sum_of]. by rewrite len_app, Hl, IH. }
  split; [done|]. split; [done|]. rewrite Hwhole.
  destruct (N.leb_spec (fm_total_size m) start) as [Hpast|Hin]; cbn [orb] in Hrun.
  { injection Hrun as <- _. split; [done|]. cbn [fg_bytes]. unfold sub. by replace (N.to_nat (N.min (start + max_len) (fm_total_size m) - start)) with 0%nat by lia. }
  destruct (N.eqb_spec max_len 0) as [->|Hpos].
  { injection Hrun as <- _. split; [done|]. cbn [fg_bytes]. unfold sub. by replace (N.to_nat (N.min (start + 0) (fm_total_size m) - start)) with 0%nat by lia. }
  replace (N.min (sat_add u64_max start max_len) (fm_total_size m)) with (N.min (start + max_len) (fm_total_size m)) in Hrun
    by (unfold sat_add, MAX_FILE_BYTES, u64_max in *; lia).
  set (end_ := N.min (start + max_len) (fm_total_size m)) in *. assert (start < end_ <= fm_total_size m) as Hend by lia.
  destruct (range_loop _ _ _ _ _ _ _ _ _ _ _ _ _) as [[[buf provider]|] w1] eqn:Eloop; [|done]. injection Hrun as <- _. split; [done|]. cbn [fg_bytes].
  assert (0 < CHUNK_BYTES) as Hc by done.
  pose proof (N.div_mod start CHUNK_BYTES ltac:(lia)) as D1. pose proof (N.mod_lt start CHUNK_BYTES ltac:(lia)) as D2.
  pose proof (N.div_mod (end_ - 1) CHUNK_BYTES ltac:(lia)) as D3. pose proof (N.mod_lt (end_ - 1) CHUNK_BYTES ltac:(lia)) as D4.
  pose proof (N.Div0.div_le_mono start (end_ - 1) CHUNK_BYTES ltac:(lia)) as D5. unfold indices, window_indices in *.
  set (first := start / CHUNK_BYTES) in *. set (last := (end_ - 1) / CHUNK_BYTES) in *. set (r1 := start mod CHUNK_BYTES) in *.
  set (r2 := (end_ - 1) mod CHUNK_BYTES) in *. clearbody first last r1 r2.
  apply (range_loop_sub get_blob has_blob request_blob cancelled key entries cid resolved e m Hok Hfirst parts Hparts) in Eloop.
  - rewrite Eloop. cbn [app]. f_equal. rewrite N2Nat.id.
    nia.
  - done.
  - lia.
  - lia.
  - intros j q Hj Hq. destruct (Forall2_lookup_r _ _ _ _ _ Hparts Hq) as (r & Hr & _ & ->). by apply (Hfull j).
  - lia.
  - replace (N.of_nat (N.to_nat first + (S (N.to_nat last) - N.to_nat first) - 1)) with last by lia. lia.
  - replace (N.of_nat (N.to_nat first + (S (N.to_nat last) - N.to_nat first))) with (last + 1) by lia. lia.
  - replace (N.of_nat (S (N.to_nat first))) with (first + 1) by lia. lia.
  - exact Hno.
Qed.

(** C15: a range read is a slice of the file. If the chunks of the manifest that
    resolution puts first have plaintexts [parts], a range read that succeeds
    returns exactly the bytes from the requested offset on, as many as were
    asked for or as are left, and the file's size; it only ever answers for the
    version the caller was authorised for, and never more than one window. A
    served chunk that collides with one of [parts] in BLAKE3 is excluded. *)
Theorem range_is_slice {C : Crypto} {A : Aead} {W : Type} (get_blob : W -> Cid -> option bytes) has_blob request_blob cancelled (key : bytes)
    w entries cid version start max_len rg w' resolved e m parts :
  let indices := window_indices start (N.min (start + max_len) (fm_total_size m)) in
  read_file_range get_blob has_blob request_blob cancelled key w entries cid version start max_len = (Ok rg, w') ->
  resolve entries cid = Some resolved -> first_manifest resolved = Some (e, m) -> Forall2 chunk_of (fm_chunks m) parts ->
  honestly_served parts (served get_blob has_blob request_blob cancelled key w resolved indices) indices ->
  rf_version resolved = version /\ max_len <= CHUNK_BYTES /\ fg_total_size rg = len (concat parts) /\
  fg_bytes rg = sub start (N.min (start + max_len) (len (concat parts))) (concat parts).
Proof. exact (range_slice get_blob has_blob request_blob cancelled key w entries cid version start max_len rg w' resolved e m parts). Qed.

(** A listing from before chunking, of one blob between 8 and 16 MiB, resolves and
    downloads whole; a window that needs a byte beyond the first 8 MiB is refused. *)
Lemma legacy_tail_unreadable {C : Crypto} {A : Aead} {W : Type} (get_blob : W -> Cid -> option bytes) has_blob request_blob cancelled (key : bytes)
    w entries cid start max_len resolved e m r :
  resolve entries cid = Some resolved -> first_manifest resolved = Some (e, m) -> fm_chunks m = [r] -> fm_total_size m <= MAX_FILE_BYTES ->
  CHUNK_BYTES <= start -> start < fm_total_size m -> 0 < max_len <= CHUNK_BYTES ->
  (read_file_range get_blob has_blob request_blob cancelled key w entries cid (rf_version resolved) start max_len).1 = Err ChunkOutOfRange.
Proof.
  intros Hres Hfirst Hc Hsize Hs Hin [Hpos Hmax]. unfold read_file_range. rewrite (proj2 (N.ltb_ge _ _) Hmax), Hres, bool_decide_eq_true_2 by done. cbn [negb].
  rewrite Hfirst, (proj2 (N.ltb_ge _ _) Hsize), (proj2 (N.leb_gt _ _) Hin). cbn [orb]. destruct (N.eqb_spec max_len 0); [lia|].
  set (end_ := N.min (sat_add u64_max start max_len) (fm_total_size m)). unfold window_indices.
  assert (1 <= start / CHUNK_BYTES) as H1 by (apply N.div_le_lower_bound; [done|lia]).
  assert (start / CHUNK_BYTES <= (end_ - 1) / CHUNK_BYTES) as H2.
  { apply N.Div0.div_le_mono. unfold end_, sat_add, MAX_FILE_BYTES, u64_max in *. lia. }
  destruct (S (N.to_nat ((end_ - 1) / CHUNK_BYTES)) - N.to_nat (start / CHUNK_BYTES))%nat eqn:Ek; [lia|]. cbn [seq range_loop].
  unfold fetch_resolved_chunk. rewrite Hfirst, Hc. destruct (N.leb_spec (len [r]) (N.of_nat (N.to_nat (start / CHUNK_BYTES)))) as [|Hx]; [done|].
  change (len [r]) with 1 in Hx. lia.
Qed.

(** * Uploads *)

Lemma split_concat size : (0 < size)%nat -> forall fuel l, (length l <= fuel)%nat -> concat (split_chunks fuel size l) = l.
Proof.
  intros Hs. induction fuel as [|fuel IH]; intros [|b l] Hl; try done; [cbn in Hl; lia|]. cbn [split_chunks concat].
  rewrite IH, firstn_skipn; [done|]. rewrite length_skipn. cbn [length] in *. lia.
Qed.

Lemma split_lookup size : (0 < size)%nat -> forall fuel l j, (length l <= fuel)%nat ->
  split_chunks fuel size l !! j = if (j * size <? length l)%nat then Some (firstn size (skipn (j * size) l)) else None.
Proof.
  intros Hs. induction fuel as [|fuel IH]; intros l j Hl.
  { destruct l; [|cbn in Hl; lia]. cbn [split_chunks length]. destruct (Nat.ltb_spec (j * size) 0); [lia|done]. }
  destruct l as [|b l]; [cbn [split_chunks length]; destruct (Nat.ltb_spec (j * size) 0); [lia|done]|].
  remember (b :: l) as l0 eqn:E0. assert (split_chunks (S fuel) size l0 = firstn size l0 :: split_chunks fuel size (skipn size l0)) as -> by by rewrite E0.
  destruct j as [|j]; cbn [lookup list_lookup].
  - cbn [Nat.mul skipn]. destruct (Nat.ltb_spec 0 (length l0)); [done|]. subst l0. cbn in *. lia.
  - change (list_lookup j (split_chunks fuel size (skipn size l0))) with (split_chunks fuel size (skipn size l0) !! j).
    rewrite IH by (rewrite length_skipn; subst l0; cbn [length] in *; lia). rewrite length_skipn, skipn_skipn.
    replace (S j * size)%nat with (j * size + size)%nat by lia. destruct (Nat.ltb_spec (j * size) (length l0 - size)), (Nat.ltb_spec (j * size + size) (length l0)); (lia || done).
Qed.

(** The chunks of an upload are the layout of its size, in order. *)
Lemma upload_chunks_layout data :
  concat (upload_chunks data) = data /\ len (upload_chunks data) = expected_chunks (len data) /\
  forall j p, upload_chunks data !! j = Some p -> len p = expected_len (len data) j.
Proof.
  assert (0 < N.to_nat CHUNK_BYTES)%nat as Hs by (change CHUNK_BYTES with CHUNK_PAD_CEILING; pose proof chunk_ceiling_pos; lia).
  unfold upload_chunks. destruct data as [|b data].
  { cbn [length split_chunks]. split; [done|]. split; [vm_compute; reflexivity|]. intros [|j] p; [intros [= <-]; vm_compute; reflexivity|done]. }
  remember (b :: data) as l eqn:El. assert (l <> []) as Hne by (subst; done). clear El b data.
  pose proof (split_concat _ Hs (length l) l ltac:(lia)) as Hc. pose proof (split_lookup _ Hs (length l) l) as Hl.
  destruct (split_chunks (length l) (N.to_nat CHUNK_BYTES) l) as [|p0 ps] eqn:Es; [by destruct l|]. rewrite <- Es in *. split; [done|].
  set (parts := split_chunks (length l) (N.to_nat CHUNK_BYTES) l) in *. clearbody parts. change CHUNK_BYTES with CHUNK_PAD_CEILING in *. split.
  - symmetry. unfold expected_chunks. assert (0 < len l) as Hpos by (destruct l; [done|]; unfold len; cbn [length]; lia).
    apply div_up_spec; [apply chunk_ceiling_pos|lia|]. assert (parts <> []) as Hp by (intros ->; by rewrite Es in *).
    pose proof (Hl (length parts) ltac:(lia)) as H1. rewrite (proj2 (lookup_ge_None parts (length parts))) in H1 by lia.
    destruct (lookup_lt_is_Some_2 parts (length parts - 1)) as [p Hq]; [destruct parts; [done|cbn; lia]|].
    rewrite (Hl _ ltac:(lia)) in Hq. destruct (Nat.ltb_spec ((length parts - 1) * N.to_nat CHUNK_PAD_CEILING) (length l)) as [H2|]; [|done].
    destruct (Nat.ltb_spec (length parts * N.to_nat CHUNK_PAD_CEILING) (length l)) as [|H3]; [done|]. unfold len in *.
    assert (0 < length parts)%nat by (destruct parts; [done|cbn; lia]). replace (N.max (N.of_nat (length l)) 1) with (N.of_nat (length l)) by lia. nia.
  - intros j p Hj. rewrite (Hl j ltac:(lia)) in Hj. destruct (Nat.ltb_spec (j * N.to_nat CHUNK_PAD_CEILING) (length l)); [|done]. apply (inj Some) in Hj as <-.
    unfold expected_len, len. rewrite length_firstn, length_skipn. nia.
Qed.

Section upload.
Context {C : Crypto} {CL : CryptoLaws C} {A : Aead} {L : AeadLaws A}.

(** What one sealed chunk is good for. *)
Definition sealed_part (mime key : bytes) (part : bytes) (sealed : FileRef * bytes) : Prop :=
  open_file sealed.2 sealed.1 key = Ok part /\ chunk_of sealed.1 part /\ fr_mime sealed.1 = mime /\
  length (fr_plaintext_cid sealed.1) = 32%nat /\ length (fr_ciphertext_cid sealed.1) = 32%nat /\
  length (sb_nonce (fr_wrapped_key sealed.1)) = 24%nat /\ len (sb_ciphertext (fr_wrapped_key sealed.1)) = 48 /\ len part <= u32_max.

Lemma seal_chunks_parts mime key parts : forall rng sealed rng',
  seal_chunks mime key parts rng = (Ok sealed, rng') -> Forall2 (sealed_part mime key) parts sealed.
Proof using Type*.
  induction parts as [|p parts IH]; intros rng sealed rng'; cbn [seal_chunks]; [intros [= <- _]; constructor|].
  unfold seal_upload_chunk. destruct (CHUNK_BYTES <? len p); [done|]. destruct (seal_file p mime key rng) as [[[r s]|] rng1] eqn:E; cbn; [|done].
  destruct (seal_chunks mime key parts rng1) as [[all|] rng2] eqn:Ea; [|done]. intros [= <- <-]. constructor; [|by apply (IH rng1 _ rng2)].
  apply seal_file_spec in E as (Ho & E1 & E2 & E3 & E4 & Hn & Hk & _ & _ & Hu). unfold sealed_part, chunk_of. cbn [fst snd].
  split_and!; try done; rewrite ?E1, ?E2; unfold Cid_of; try apply blake3_length; congruence.
Qed.

Lemma sealed_ref_typed mime key p x : sealed_part mime key p x -> len mime <= MAX_FILE_MIME_BYTES -> utf8_valid mime = true ->
  ref_typed x.1 /\ len (ref_encode x.1) = 164 + len mime.
Proof.
  intros (_ & [_ Hl] & Hm & H1 & H2 & H3 & H4 & H5) Hmime Hu. unfold MAX_FILE_MIME_BYTES, u32_max, u64_max in *. split.
  - constructor; rewrite ?Hm, ?H4, <- ?Hl; try done; unfold u32_max, u64_max; lia || (split; [lia|done]).
  - rewrite ref_encode_eq. autorewrite with mewtual_len. rewrite Hm, H4. unfold len in *. lia.
Qed.

(** The manifest of a fresh upload. *)
Definition fresh_manifest (mime data : bytes) (sealed : list (FileRef * bytes)) : FileManifest := mkFileManifest (Cid_of data) (len data) mime sealed.*1.

Lemma fresh_manifest_ok mime key data rng sealed rng' :
  seal_chunks mime key (upload_chunks data) rng = (Ok sealed, rng') -> len data <= MAX_FILE_BYTES -> len mime <= MAX_FILE_MIME_BYTES -> utf8_valid mime = true ->
  layout_ok (fresh_manifest mime data sealed) /\ manifest_typed (fresh_manifest mime data sealed) /\
  len (manifest_encode (fresh_manifest mime data sealed)) <= MAX_FILE_REF_BYTES.
Proof using Type*.
  intros Hs Hd Hm Hu. apply seal_chunks_parts in Hs. destruct (upload_chunks_layout data) as (_ & Hcount & Hsizes).
  assert (len sealed = expected_chunks (len data)) as Hn by (rewrite <- Hcount; unfold len; by rewrite (Forall2_length _ _ _ Hs)).
  assert (expected_chunks (len data) <= MAX_CHUNKS) as Hmax.
  { unfold expected_chunks, div_up. apply N.lt_succ_r, N.Div0.div_lt_upper_bound. unfold MAX_FILE_BYTES, MAX_CHUNKS in *. change CHUNK_PAD_CEILING with 8388608. lia. }
  assert (Forall (fun x => ref_typed x.1 /\ len (ref_encode x.1) = 164 + len mime) sealed) as Hrefs.
  { apply Forall_forall. intros x Hx. apply list_elem_of_lookup_1 in Hx as [j Hj]. destruct (Forall2_lookup_r _ _ _ _ _ Hs Hj) as (p & _ & Hp).
    by apply (sealed_ref_typed mime key p). }
  split_and!.
  - constructor; cbn [fresh_manifest fm_chunks fm_total_size].
    + unfold len in *. by rewrite length_fmap.
    + unfold len in *. rewrite length_fmap. lia.
    + intros j c Hj. rewrite list_lookup_fmap in Hj. destruct (sealed !! j) as [x|] eqn:Ej; [|done]. injection Hj as <-.
      destruct (Forall2_lookup_r _ _ _ _ _ Hs Ej) as (p & Hp & _ & [_ Hl] & _). rewrite <- Hl. by apply Hsizes.
  - unfold MAX_FILE_BYTES, MAX_FILE_MIME_BYTES in *. constructor; cbn [fresh_manifest fm_chunks fm_total_size fm_plaintext_cid fm_mime]; unfold Cid_of.
    + apply blake3_length.
    + unfold u64_max. lia.
    + split; [unfold u32_max; lia|done].
    + apply Forall_fmap. eapply Forall_impl; [exact Hrefs|]. intros x [Ht Hl]. split; [done|]. change (len (ref_encode x.1) <= u32_max). rewrite Hl. unfold u32_max. lia.
  - rewrite manifest_encode_eq; cbn [fresh_manifest fm_chunks fm_total_size fm_plaintext_cid fm_mime];
      [|unfold len in *; rewrite length_fmap; unfold u32_max, MAX_CHUNKS in *; lia].
    autorewrite with mewtual_len. rewrite len_concat.
    assert (sum_of (fun x => len (chunk_bytes x)) sealed.*1 = len sealed * (168 + len mime)) as ->.
    { clear -Hrefs. induction Hrefs as [|x sealed [_ Hl] _ IH]; [done|]. cbn [fmap list_fmap sum_of]. rewrite IH. unfold chunk_bytes.
      autorewrite with mewtual_len. rewrite Hl. unfold len. cbn [length]. lia. }
    unfold Cid_of. assert (len (blake3 data) = 32) as -> by (unfold len; by rewrite blake3_length).
    unfold MAX_FILE_REF_BYTES, MAX_FILE_MIME_BYTES, MAX_CHUNKS in *. nia.
Qed.

(** A node that holds every sealed chunk of one listed upload. *)
Section held.
Context {W : Type} (get_blob : W -> Cid -> option bytes) (has_blob : W -> Cid -> bool) (request_blob : W -> Cid -> option (option bytes) * W).
Context (cancelled : W -> bool) (key : bytes) (w : W) (e : FileEntry) (m : FileManifest) (parts : list bytes).
Hypothesis Hlive : cancelled w = false.
Hypothesis Hheld : Forall2 (fun r p => exists s, get_blob w (fr_ciphertext_cid r) = Some s /\ open_file s r key = Ok p) (fm_chunks m) parts.
Variable version : bytes.

Definition sole : ResolvedFile := mkResolvedFile [(e, m)] version.

Lemma held_fetch i p : parts !! i = Some p -> fetch get_blob has_blob request_blob cancelled key w sole i = (Ok (p, None), w).
Proof using Hlive Hheld.
  intros Hp. destruct (Forall2_lookup_r _ _ _ _ _ Hheld Hp) as (r & Hr & s & Hs & Ho). unfold fetch, fetch_resolved_chunk. cbn [first_manifest sole rf_variants head].
  apply lookup_lt_Some in Hr as Hi. destruct (N.leb_spec (len (fm_chunks m)) (N.of_nat i)); [unfold len in *; lia|]. rewrite Hlive.
  cbn [local_chunk]. rewrite Hr, Hs. unfold open_chunk. by rewrite Ho.
Qed.

Lemma held_download rest : forall pre out, parts = pre ++ rest ->
  download_loop get_blob has_blob request_blob cancelled key w sole (seq (length pre) (length rest)) out = (Ok (out ++ concat rest), w).
Proof using Hlive Hheld.
  induction rest as [|p rest IH]; intros pre out E; cbn [length seq download_loop concat]; [by rewrite app_nil_r|].
  fold (fetch get_blob has_blob request_blob cancelled key). rewrite (held_fetch (length pre) p) by (rewrite E; apply list_lookup_middle; done).
  specialize (IH (pre ++ [p]) (out ++ p)). rewrite length_app in IH. cbn [length] in IH. rewrite Nat.add_1_r in IH. rewrite IH; [by rewrite <- app_assoc|by rewrite <- app_assoc].
Qed.

Lemma held_verified : open_held get_blob key w (fm_chunks m) [] = Some (concat parts).
Proof using Hheld.
  rewrite <- (app_nil_l (concat parts)). generalize (@nil byte) as out. clear version. revert Hheld. generalize (fm_chunks m) as rs.
  intros rs H. induction H as [|r p rs ps (s & Hs & Ho) _ IH]; intros out; cbn [open_held concat]; [by rewrite app_nil_r|].
  rewrite Hs. cbn [mbind option_bind]. rewrite Ho, IH. by rewrite <- app_assoc.
Qed.

Lemma held_served indices : Forall (fun i => (i < length parts)%nat) indices ->
  honestly_served parts (served get_blob has_blob request_blob cancelled key w sole indices) indices.
Proof using Hlive Hheld.
  induction 1 as [|i indices Hi _ IH]; unfold honestly_served in *; cbn [served take length]; [constructor|].
  destruct (lookup_lt_is_Some_2 _ _ Hi) as [p Hp]. rewrite (held_fetch i p Hp). cbn [take length]. constructor; [|done]. intros q Hq _. congruence.
Qed.

Lemma held_range start end_ indices : Forall (fun i => (i < length parts)%nat) indices ->
  (forall j q, (S j < length parts)%nat -> parts !! j = Some q -> len q = CHUNK_BYTES) ->
  forall buf provider, exists res, range_loop get_blob has_blob request_blob cancelled key w sole (length (fm_chunks m)) start end_ indices buf provider = (Ok res, w).
Proof using Hlive Hheld.
  intros H Hfull. induction H as [|i indices Hi _ IH]; intros buf provider; cbn [range_loop]; [by eexists|].
  destruct (lookup_lt_is_Some_2 _ _ Hi) as [p Hp]. fold (fetch get_blob has_blob request_blob cancelled key). rewrite (held_fetch i p Hp).
  assert (negb (i =? length (fm_chunks m) - 1)%nat && negb (len p =? CHUNK_BYTES) = false) as ->; [|apply IH].
  destruct (Nat.eqb_spec i (length (fm_chunks m) - 1)); [done|]. cbn. apply negb_false_iff, N.eqb_eq. apply (Hfull i p); [|done].
  rewrite (Forall2_length _ _ _ Hheld) in *. lia.
Qed.
End held.
End upload.

Lemma window_in_range start end_ n : end_ <= N.of_nat n * CHUNK_BYTES -> (0 < n)%nat -> Forall (fun i => (i < n)%nat) (window_indices start end_).
Proof.
  intros He Hn. apply Forall_forall. intros i Hi. unfold window_indices in Hi. apply elem_of_seq in Hi.
  assert ((end_ - 1) / CHUNK_BYTES < N.of_nat n) as H; [|lia]. apply N.Div0.div_lt_upper_bound. assert (0 < CHUNK_BYTES) by done. nia.
Qed.

Lemma resolve_sole {C : Crypto} e m :
  ref_reads (fe_file_ref e) m -> resolve [e] (fe_cid e) = Some (sole e m (file_manifest_version (fe_file_ref e))).
Proof.
  intros [Hd Hs]. unfold resolve. cbn [List.filter]. unfold listed_as. rewrite bool_decide_eq_true_2 by done. cbn [resolve_loop].
  unfold resolve_entry. cbn [om_has om_get om_values head fmap list_fmap]. change (len [] =? MAX_MANIFEST_VARIANTS) with false. cbn beta iota. rewrite Hd.
  rewrite (proj2 (N.ltb_ge _ _) Hs). reflexivity.
Qed.

Lemma held_read {C : Crypto} {A : Aead} {W : Type} (get_blob : W -> Cid -> option bytes) has_blob request_blob cancelled (key : bytes) w e m parts :
  cancelled w = false ->
  Forall2 (fun r p => exists s, get_blob w (fr_ciphertext_cid r) = Some s /\ open_file s r key = Ok p) (fm_chunks m) parts ->
  forall version entries cid start max_len, resolve entries cid = Some (sole e m version) -> max_len <= CHUNK_BYTES -> fm_total_size m <= MAX_FILE_BYTES ->
  Forall (fun i => (i < length parts)%nat) (window_indices start (N.min (start + max_len) (fm_total_size m))) ->
  (forall j q, (S j < length parts)%nat -> parts !! j = Some q -> len q = CHUNK_BYTES) ->
  exists rg, read_file_range get_blob has_blob request_blob cancelled key w entries cid version start max_len = (Ok rg, w).
Proof.
  intros Hlive Hopen version entries cid start max_len Hres Hmax Hsize Hwin Hfull. unfold read_file_range. rewrite (proj2 (N.ltb_ge _ _) Hmax), Hres.
  rewrite bool_decide_eq_true_2 by done. cbn [negb first_manifest sole rf_variants head]. rewrite (proj2 (N.ltb_ge _ _) Hsize).
  destruct ((fm_total_size m <=? start) || (max_len =? 0)); [by eexists|].
  replace (N.min (sat_add u64_max start max_len) (fm_total_size m)) with (N.min (start + max_len) (fm_total_size m))
    by (unfold sat_add, MAX_FILE_BYTES, u64_max in *; lia).
  destruct (held_range get_blob has_blob request_blob cancelled key w e m parts Hlive Hopen version start (N.min (start + max_len) (fm_total_size m)) _ Hwin Hfull [] None)
    as [[buf provider] ->]. by eexists.
Qed.

(** C12: an upload can be read. When every chunk of a file of at most 1 GiB was sealed,
    publication accepts its layout, the reference fits the index, the node's
    own verification of the staged copy succeeds, and from the listing alone a
    node that holds the blobs downloads exactly the uploaded bytes and reads any
    window of them, none of it using the network or changing the node. *)
Theorem upload_readable {C : Crypto} {CL : CryptoLaws C} {A : Aead} {L : AeadLaws A} {W : Type}
    (get_blob : W -> Cid -> option bytes) has_blob request_blob cancelled (key mime name folder data : bytes) rng sealed rng' w e :
  let m := fresh_manifest mime data sealed in
  seal_chunks mime key (upload_chunks data) rng = (Ok sealed, rng') -> len data <= MAX_FILE_BYTES ->
  len mime <= MAX_FILE_MIME_BYTES -> utf8_valid mime = true -> len name <= MAX_FILE_NAME_BYTES -> len folder <= MAX_FILE_PATH_BYTES ->
  (forall r s, (r, s) ∈ sealed -> get_blob w (fr_ciphertext_cid r) = Some s) -> cancelled w = false ->
  fe_cid e = Cid_of data -> fe_file_ref e = manifest_encode m ->
  upload_manifest name mime folder (Cid_of data) (len data) sealed.*1 = Ok m /\
  decode_or_legacy (manifest_encode m) = Ok m /\ len (manifest_encode m) <= MAX_FILE_REF_BYTES /\
  manifest_held_verified get_blob key w m = true /\
  download_file get_blob has_blob request_blob cancelled key w [e] (Cid_of data) = (Ok data, w) /\
  forall start max_len, max_len <= CHUNK_BYTES -> exists rg,
    read_file_range get_blob has_blob request_blob cancelled key w [e] (Cid_of data) (file_manifest_version (manifest_encode m)) start max_len = (Ok rg, w) /\
    fg_bytes rg = sub start (N.min (start + max_len) (len data)) data /\ fg_total_size rg = len data.
Proof.
  intros m Hs Hd Hm Hu Hn Hf Hheld Hlive Hcid Href. destruct (fresh_manifest_ok mime key data rng sealed rng' Hs Hd Hm Hu) as (Hlay & Htyped & Hlen). fold m in Hlay, Htyped, Hlen.
  apply seal_chunks_parts in Hs. destruct (upload_chunks_layout data) as (Hcat & Hcount & _). set (parts := upload_chunks data) in *.
  assert (Forall2 chunk_of (fm_chunks m) parts) as Hparts.
  { cbn [m fresh_manifest fm_chunks]. apply Forall2_flip, Forall2_fmap_r. eapply Forall2_impl; [exact Hs|]. by intros p x (_ & ? & _). }
  assert (Forall2 (fun r p => exists s, get_blob w (fr_ciphertext_cid r) = Some s /\ open_file s r key = Ok p) (fm_chunks m) parts) as Hopen.
  { cbn [m fresh_manifest fm_chunks]. apply Forall2_flip, Forall2_fmap_r. apply Forall2_same_length_lookup. split; [by apply (Forall2_length _ _ _ Hs)|].
    intros j p [r s] Hp Hx. destruct (proj1 (Forall2_same_length_lookup _ _ _) Hs) as [_ Hall]. destruct (Hall j p (r, s) Hp Hx) as [Ho _]. exists s. split; [|done].
    apply Hheld. by apply list_elem_of_lookup_2 in Hx. }
  assert (decode_or_legacy (manifest_encode m) = Ok m) as Hdec.
  { unfold decode_or_legacy. by rewrite (proj2 (manifest_decode_spec _ m)) by done. }
  assert (ref_reads (fe_file_ref e) m) as Hreads by (rewrite Href; done).
  pose proof (resolve_sole e m Hreads) as Hres. rewrite Hcid, Href in Hres.
  pose proof (Forall2_length _ _ _ Hparts) as Hplen. pose proof (expected_cover (len data)) as [Hcover Hone]. rewrite <- Hcount in Hcover, Hone.
  assert (fm_total_size m <= N.of_nat (length parts) * CHUNK_BYTES) as Htotal by done. assert (0 < length parts)%nat as Hpos by (unfold len in Hone; lia).
  assert (forall j q, (S j < length parts)%nat -> parts !! j = Some q -> len q = CHUNK_BYTES) as Hfull.
  { intros j q Hj Hq. destruct (Forall2_lookup_r _ _ _ _ _ Hparts Hq) as (r & Hr & _ & ->). apply (layout_full m j r Hlay Hr). lia. }
  split; [|split; [done|split; [done|]]]; [|split; [|split]].
  - unfold upload_manifest. rewrite refuse_if_bind_false by by apply N.ltb_ge. rewrite refuse_if_bind_false.
    + rewrite refuse_if_bind_false by (rewrite !orb_false_iff, !N.ltb_ge; done). fold (fresh_manifest mime data sealed). fold m.
      by rewrite (proj2 (validate_layout_ok m tt) Hlay).
    + apply N.eqb_neq. change (len (fm_chunks m) <> 0). rewrite (lo_count m Hlay). pose proof (expected_cover (fm_total_size m)). lia.
  - unfold manifest_held_verified. rewrite (held_verified get_blob key w m parts Hopen), Hcat. by rewrite bool_decide_eq_true_2.
  - unfold download_file. rewrite Hres. cbn [first_manifest sole rf_variants head].
    rewrite (proj2 (N.ltb_ge _ _) Hd : (MAX_FILE_BYTES <? fm_total_size m) = false), Hplen.
    rewrite (held_download get_blob has_blob request_blob cancelled key w e m parts Hlive Hopen _ parts [] [] eq_refl). cbn [app].
    by rewrite Hcat, bool_decide_eq_true_2.
  - intros start max_len Hmax.
    assert (Forall (fun i => (i < length parts)%nat) (window_indices start (N.min (start + max_len) (fm_total_size m)))) as Hwin.
    { apply window_in_range; [lia|done]. }
    destruct (held_read get_blob has_blob request_blob cancelled key w e m parts Hlive Hopen _ [e] (Cid_of data) start max_len Hres Hmax Hd Hwin Hfull) as [rg Hrg].
    exists rg. split; [exact Hrg|].
    destruct (range_slice get_blob has_blob request_blob cancelled key w [e] (Cid_of data) _ start max_len rg w _ e m parts Hrg Hres eq_refl Hparts) as (_ & _ & H1 & H2).
    + by apply held_served.
    + by rewrite H1, H2, Hcat.
Qed.

(** Deduplication never swaps content. An upload is replaced by a listing that
    already exists only if that listing is for the same address, names the
    upload's chunks one by one, and every one of its blobs is held and opens; the
    plaintext they open to is the uploaded data, or the two are a BLAKE3
    collision. *)
Theorem dedup_keeps_content {C : Crypto} {A : Aead} {W : Type} (get_blob : W -> Cid -> option bytes) (key group_id : bytes) doc data w e :
  let identities := (fun p => (Cid_of p, len p)) <$> upload_chunks data in
  reusable_upload_entry (read_file_entries doc group_id) (Cid_of data) (len data) identities (manifest_held_verified get_blob key w) = Some e ->
  exists m held, e ∈ read_file_entries doc group_id /\ fe_cid e = Cid_of data /\ decode_or_legacy (fe_file_ref e) = Ok m /\ fm_total_size m = len data /\
    (fun r => (fr_plaintext_cid r, fr_size r)) <$> fm_chunks m = identities /\
    open_held get_blob key w (fm_chunks m) [] = Some held /\ (held = data \/ address_collision held data).
Proof.
  intros identities. unfold reusable_upload_entry. destruct (resolve _ _) as [resolved|] eqn:Er; [|done]. cbn [mbind option_bind].
  destruct (List.find _ _) as [[e0 m]|] eqn:Ef; [|done]. cbn. intros [= ->]. apply List.find_some in Ef as [Hx Hf]. cbn [snd] in Hf.
  apply list_elem_of_In in Hx. apply andb_true_iff in Hf as [Hm Hv]. destruct (ro_listed _ _ _ (resolve_ok _ _ _ Er) _ _ Hx) as (He & Hc & Hd & _).
  unfold manifest_held_verified in Hv. destruct (open_held get_blob key w (fm_chunks m) []) as [held|] eqn:Eh; [|done]. apply bool_decide_eq_true in Hv.
  unfold matches_upload in Hm. rewrite !andb_true_iff, !N.eqb_eq in Hm. destruct Hm as [[Ht Hl] Hz].
  exists m, held. split_and!; try done.
  - assert (length (fm_chunks m) = length identities) as Hlen by (unfold len in Hl; lia). clear -Hz Hlen. revert Hz Hlen. generalize identities as ids, (fm_chunks m) as rs.
    intros ids rs. revert ids. induction rs as [|r rs IH]; intros [|[c n] ids] Hz Hlen; try done. cbn in Hz. rewrite !andb_true_iff, bool_decide_eq_true, N.eqb_eq in Hz.
    destruct Hz as [[E1 E2] Hz]. cbn. f_equal; [congruence|]. apply IH; [done|by injection Hlen].
  - destruct (read_entries_inv doc group_id e He) as (m' & Hd' & Hc' & _). assert (m' = m) as -> by congruence.
    destruct (decide (held = data)) as [|Hne]; [by left|right]. split; [done|]. unfold Cid_of in *. congruence.
Qed.

(** * The theorems at work *)

Lemma short_upload data : expected_chunks (len data) = 1 -> upload_chunks data = [data].
Proof.
  intros H. destruct (upload_chunks_layout data) as (Hc & Hn & _). rewrite H in Hn. destruct (upload_chunks data) as [|p [|q ps]]; [done| |unfold len in Hn; cbn [length] in Hn; lia].
  cbn in Hc. by rewrite app_nil_r in Hc; subst p.
Qed.

(** A node that holds one blob, and peers that answer with nothing. *)
Definition toy_get (w : unit) (c : Cid) : option bytes := if bool_decide (c = fr_ciphertext_cid toy_file_ref) then Some toy_stored else None.
Definition toy_has (w : unit) (c : Cid) : bool := bool_decide (c = fr_ciphertext_cid toy_file_ref).
Definition toy_request (w : unit) (c : Cid) : option (option bytes) * unit := (Some None, w).

Definition toy_file (name : bytes) : FileEntry :=
  mkFileEntry name 5 toy_mime toy_manifest_cid [] [] false toy_folder toy_ref_bytes Never.
(** the same blob listed the old way *)
Definition toy_legacy : FileEntry := mkFileEntry toy_name 5 toy_mime toy_manifest_cid [] [] false [] (ref_encode toy_file_ref) Unrecorded.

Definition toy_version : bytes := file_manifest_version toy_ref_bytes.

Lemma toy_upload : seal_chunks toy_mime toy_file_key (upload_chunks toy_plain) toy_rng = (Ok [(toy_file_ref, toy_stored)], toy_sealed_file.2).
Proof. rewrite short_upload by (vm_compute; reflexivity). vm_compute. reflexivity. Qed.

Lemma toy_download : download_file toy_get toy_has toy_request (fun _ => false) toy_file_key tt [toy_file toy_name] toy_manifest_cid = (Ok toy_plain, tt).
Proof. vm_compute. reflexivity. Qed.

(** Nothing held, and no peer that has it. *)
Lemma toy_download_fails :
  download_file (fun _ _ => None) (fun _ _ => false) toy_request (fun _ => false) toy_file_key tt [toy_file toy_name] toy_manifest_cid = (Err ChunkUnavailable, tt).
Proof. vm_compute. reflexivity. Qed.

Lemma upload_readable_witness :
  download_file toy_get toy_has toy_request (fun _ => false) toy_file_key tt [toy_file toy_name] (Cid_of toy_plain) = (Ok toy_plain, tt).
Proof.
  apply (upload_readable toy_get toy_has toy_request (fun _ => false) toy_file_key toy_mime toy_name toy_folder toy_plain toy_rng
    [(toy_file_ref, toy_stored)] toy_sealed_file.2 tt (toy_file toy_name) toy_upload); try (vm_compute; (reflexivity || discriminate)).
  intros r s [[= -> ->]|[]%elem_of_nil]%elem_of_cons. vm_compute. reflexivity.
Defined.

Definition toy_resolved : ResolvedFile := mkResolvedFile [(toy_file toy_name, toy_manifest)] toy_version.

Lemma toy_resolves : resolve [toy_file toy_name] toy_manifest_cid = Some toy_resolved.
Proof. vm_compute. reflexivity. Qed.

Lemma toy_window : window_indices 1 (N.min (1 + 3) (fm_total_size toy_manifest)) = [0%nat].
Proof. vm_compute. reflexivity. Qed.

Lemma toy_served_chunk : served toy_get toy_has toy_request (fun _ => false) toy_file_key tt toy_resolved [0%nat] = [toy_plain].
Proof. vm_compute. reflexivity. Qed.

Definition toy_range : FileRange := mkFileRange (bytes_of_string "ell") 5 toy_mime None.

Lemma toy_read :
  read_file_range toy_get toy_has toy_request (fun _ => false) toy_file_key tt [toy_file toy_name] toy_manifest_cid toy_version 1 3 = (Ok toy_range, tt).
Proof. vm_compute. reflexivity. Qed.

Lemma toy_parts : Forall2 chunk_of (fm_chunks toy_manifest) [toy_plain].
Proof. constructor; [|constructor]. split; vm_compute; reflexivity. Qed.

Lemma range_is_slice_witness : fg_total_size toy_range = len (concat [toy_plain]).
Proof.
  apply (range_is_slice toy_get toy_has toy_request (fun _ => false) toy_file_key tt [toy_file toy_name] toy_manifest_cid toy_version 1 3 toy_range tt
    toy_resolved (toy_file toy_name) toy_manifest [toy_plain] toy_read toy_resolves eq_refl toy_parts).
  rewrite toy_window, toy_served_chunk. constructor; [|constructor]. intros q Hq _. change (Some toy_plain = Some q) in Hq. congruence.
Defined.

Lemma toy_versions_differ : file_manifest_version toy_ref_bytes <> file_manifest_version (ref_encode toy_file_ref).
Proof. intros E. vm_compute in E. discriminate E. Qed.

Lemma resolve_by_references_witness :
  resolved_view <$> resolve [toy_file toy_name; toy_legacy; toy_file []] toy_manifest_cid = resolved_view <$> resolve [toy_legacy; toy_file toy_folder] toy_manifest_cid.
Proof.
  apply (resolve_by_references [toy_file toy_name; toy_legacy; toy_file []] [toy_legacy; toy_file toy_folder] toy_manifest_cid).
  - intros x. change (x ∈ [toy_ref_bytes; ref_encode toy_file_ref; toy_ref_bytes] <-> x ∈ [ref_encode toy_file_ref; toy_ref_bytes]).
    rewrite !elem_of_cons. tauto.
  - change (distinct_versions [toy_ref_bytes; ref_encode toy_file_ref; toy_ref_bytes]). intros x y Hx Hy.
    rewrite !elem_of_cons, elem_of_nil in Hx, Hy. pose proof toy_versions_differ as Hd. generalize dependent toy_ref_bytes. generalize (ref_encode toy_file_ref).
    intros a b Hx Hy Hd. destruct Hx as [->|[->|[->|[]]]], Hy as [->|[->|[->|[]]]]; congruence.
Defined.

Definition toy_doc : FileIndex := mkFileIndex 0 [[Some (write_row toy_name [] toy_folder toy_ref_bytes Never None)]].

Lemma dedup_keeps_content_witness : exists e, reusable_upload_entry (read_file_entries toy_doc toy_group_id) (Cid_of toy_plain) (len toy_plain)
    ((fun p => (Cid_of p, len p)) <$> upload_chunks toy_plain) (manifest_held_verified toy_get toy_file_key tt) = Some e /\ fe_cid e = Cid_of toy_plain.
Proof.
  destruct (reusable_upload_entry (read_file_entries toy_doc toy_group_id) (Cid_of toy_plain) (len toy_plain)
    ((fun p => (Cid_of p, len p)) <$> upload_chunks toy_plain) (manifest_held_verified toy_get toy_file_key tt)) as [e|] eqn:E.
  - exists e. split; [reflexivity|]. destruct (dedup_keeps_content toy_get toy_file_key toy_group_id toy_doc toy_plain tt e E) as (m & held & _ & H & _). exact H.
  - exfalso. rewrite short_upload in E by (vm_compute; reflexivity). vm_compute in E. discriminate E.
Defined.
