(* ===== verification/Dispatch.v ===== *)
(** Connection leases and bounded delivery to the application:
    [ConnectionLease] of [crates/catcoms-rt/src/transport.rs],
    [crates/catcoms-net/src/connection_leases.rs], the [Dispatcher] of
    [crates/catcoms-net/src/event_dispatch.rs], and the places of
    [crates/catcoms-net/src/lib.rs] where the network driver calls them.

    A lease is an [Arc], so leases live in a heap and are compared by identity.
    The driver is the only writer of its table and its dispatcher and handles one
    event at a time; a step of the model is one such event. A peer id is a number
    in the order of [PeerId]. What the network really is, which peers are
    connected over which paths, is kept apart from the driver ([Network]), and
    [network_step] moves both. *)

From S2P Require Import Prelude OrdMap Reconnect.
From stdpp Require Import base list gmap relations.
Local Open Scope N_scope.

(** * Leases *)

(** an address *)
Abbreviation Lease := nat.

Record ConnectionLeaseState := mkLeaseState { ls_live : bool; ls_parents : option (Lease * Lease) }.

Abbreviation Heap := (list ConnectionLeaseState).

Definition own_live (h : Heap) (l : Lease) : bool := match h !! l with Some s => ls_live s | None => false end.

Definition is_live (h : Heap) (l : Lease) : bool :=
  own_live h l &&
  match h !! l ≫= ls_parents with
  | Some (local, remote) => own_live h local && own_live h remote
  | None => true
  end.

(** [ConnectionLease::default] *)
Definition lease_default (h : Heap) : Lease * Heap := (length h, h ++ [mkLeaseState true None]).

(** [None] is the failed assertion. *)
Definition dependent (h : Heap) (local remote : Lease) : option (Lease * Heap) :=
  match h !! local ≫= ls_parents, h !! remote ≫= ls_parents with
  | None, None => Some (length h, h ++ [mkLeaseState true (Some (local, remote))])
  | _, _ => None
  end.

Definition lease_revoke (h : Heap) (l : Lease) : Heap := alter (fun s => mkLeaseState false (ls_parents s)) l h.

(** * The driver's table *)

Record Owners := mkOwners { ow_heap : Heap; ow_table : gmap N Lease }.

Definition owners_connected (o : Owners) (peer : N) : Owners :=
  if N.of_nat (size (ow_table o)) <? MAX_CONNECTED_PEER_SNAPSHOT then
    match ow_table o !! peer with
    | Some _ => o
    | None => let '(l, h) := lease_default (ow_heap o) in mkOwners h (<[peer := l]> (ow_table o))
    end
  else o.

Definition owners_disconnected (o : Owners) (peer : N) : Owners :=
  match ow_table o !! peer with
  | Some l => mkOwners (lease_revoke (ow_heap o) l) (delete peer (ow_table o))
  | None => o
  end.

Definition owners_clear (o : Owners) : Owners := mkOwners (map_fold (fun _ l h => lease_revoke h l) (ow_heap o) (ow_table o)) ∅.

Definition current (o : Owners) (peer : N) : option Lease :=
  l ← ow_table o !! peer; if is_live (ow_heap o) l then Some l else None.

(** * The dispatcher *)

Definition QUEUED : N := 64.
Definition LIFECYCLE : N := 2 * MAX_CONNECTED_PEER_SNAPSHOT.

(** [Gossip] and [Request] with what they carry *)
Inductive TransportEvent (Path Data : Type) : Type :=
| RecoveryNeeded
| Gossip (d : Data)
| Request (d : Data)
| PeerConnected (peer : N)
| PeerPathsChanged (peer : N) (active : list Path) (newly_established : option Path)
| PeerDisconnected (peer : N).
Arguments RecoveryNeeded {Path Data}.
Arguments Gossip {Path Data}.
Arguments Request {Path Data}.
Arguments PeerConnected {Path Data}.
Arguments PeerPathsChanged {Path Data}.
Arguments PeerDisconnected {Path Data}.

Section dispatch.
Context {Path Data : Type} `{EqDecision Path}.
#[local] Abbreviation Event := (TransportEvent Path Data).

Record Actual := mkActual { ac_lease : Lease; ac_active : list Path }.

Record Lifecycle := mkLifecycle {
  lf_actual : option Actual;
  lf_announced : option Lease;
  lf_paths : option (list Path);
  lf_newly : option Path;
  lf_clear_paths : bool
}.

Definition Lifecycle_default : Lifecycle := mkLifecycle None None None None false.

Definition dirty (h : Heap) (s : Lifecycle) : bool :=
  if lf_clear_paths s then true
  else match lf_announced s, lf_actual s with
       | Some old, Some new =>
           if is_live h old && bool_decide (old = ac_lease new)
           then negb (bool_decide (lf_paths s = Some (ac_active new))) || bool_decide (is_Some (lf_newly s))
           else true
       | Some _, None => true
       | None, Some new => is_live h (ac_lease new)
       | None, None => false
       end.

Definition ready (h : Heap) (s : Lifecycle) (lease : Lease) : bool :=
  is_live h lease && negb (lf_clear_paths s) && bool_decide (is_Some (lf_paths s)) && bool_decide (lf_announced s = Some lease).

Record Pending := mkPending { pe_event : Event; pe_carrier : N; pe_ingress : Lease }.

Record Dispatcher := mkDispatcher {
  dp_lifecycle : bmap N Lifecycle;
  dp_cursor : option N;
  dp_payloads : list Pending;
  dp_lost_gossip : bool;
  dp_turn : N
}.

Definition Dispatcher_default : Dispatcher := mkDispatcher [] None [] false 0.

Definition set_lifecycle (d : Dispatcher) (m : bmap N Lifecycle) : Dispatcher :=
  mkDispatcher m (dp_cursor d) (dp_payloads d) (dp_lost_gossip d) (dp_turn d).

Definition set_payloads (d : Dispatcher) (payloads : list Pending) (lost : bool) : Dispatcher :=
  mkDispatcher (dp_lifecycle d) (dp_cursor d) payloads lost (dp_turn d).

Definition connected_state (s : Lifecycle) (lease : Lease) (active : list Path) (newly : option Path) : Lifecycle :=
  let kept := match lf_actual s with
              | Some old => if bool_decide (ac_lease old = lease) then lf_newly s else None
              | None => None
              end in
  mkLifecycle (Some (mkActual lease active)) (lf_announced s) (lf_paths s) (match newly with Some _ => newly | None => kept end) (lf_clear_paths s).

Definition dispatcher_connected (d : Dispatcher) (peer : N) (lease : Lease) (active : list Path) (newly : option Path) : bool * Dispatcher :=
  match om_get peer (dp_lifecycle d) with
  | None =>
      if LIFECYCLE <=? len (dp_lifecycle d) then (false, d)
      else (true, set_lifecycle d (om_insert peer (connected_state Lifecycle_default lease active newly) (dp_lifecycle d)))
  | Some s => (true, set_lifecycle d (om_insert peer (connected_state s lease active newly) (dp_lifecycle d)))
  end.

Definition dispatcher_disconnected (d : Dispatcher) (peer : N) : Dispatcher :=
  match om_get peer (dp_lifecycle d) with
  | None => d
  | Some s =>
      let s := mkLifecycle None (lf_announced s) (lf_paths s) None (lf_clear_paths s) in
      if bool_decide (lf_announced s = None) && negb (lf_clear_paths s)
      then set_lifecycle d (om_remove peer (dp_lifecycle d))
      else set_lifecycle d (om_insert peer s (dp_lifecycle d))
  end.

Definition is_gossip (e : Event) : bool := match e with Gossip _ => true | _ => false end.

Definition carries (d : Dispatcher) (carrier : N) (ingress : Lease) : bool :=
  match om_get carrier (dp_lifecycle d) ≫= lf_actual with
  | Some actual => bool_decide (ac_lease actual = ingress)
  | None => false
  end.

Definition queue (h : Heap) (d : Dispatcher) (event : Event) (carrier : N) (ingress : Lease) : bool * Dispatcher :=
  if (QUEUED <=? len (dp_payloads d)) || negb (is_live h ingress) || negb (carries d carrier ingress)
  then (false, set_payloads d (dp_payloads d) (is_gossip event || dp_lost_gossip d))
  else (true, set_payloads d (dp_payloads d ++ [mkPending event carrier ingress]) (dp_lost_gossip d)).

Definition note_gossip_loss (d : Dispatcher) : Dispatcher := set_payloads d (dp_payloads d) true.

Definition has_pending (h : Heap) (d : Dispatcher) : bool :=
  negb (bool_decide (length (dp_payloads d) = 0%nat)) || dp_lost_gossip d || existsb (dirty h) (om_values (dp_lifecycle d)).

(** [min_by_key] with the key [(cursor.is_some_and(|c| peer <= c), peer)] *)
Definition past_cursor (cursor : option N) (peer : N) : bool := match cursor with Some c => peer <=? c | None => false end.

Definition key_le (cursor : option N) (a b : N) : bool :=
  match past_cursor cursor a, past_cursor cursor b with
  | false, true => true
  | true, false => false
  | _, _ => a <=? b
  end.

Fixpoint min_peer (cursor : option N) (peers : list N) : option N :=
  match peers with
  | [] => None
  | p :: rest =>
      match min_peer cursor rest with
      | Some q => if key_le cursor p q then Some p else Some q
      | None => Some p
      end
  end.

Definition stale (h : Heap) (s : Lifecycle) : bool :=
  match lf_announced s with
  | Some old => negb (is_live h old) || match lf_actual s with Some new => negb (bool_decide (old = ac_lease new)) | None => true end
  | None => false
  end.

(** One peer's next edge: the event and the state left, [None] if it is dropped.
    The outer [None] is the failed [expect]. *)
Definition lifecycle_edge (h : Heap) (peer : N) (s : Lifecycle) : option (Event * option Lifecycle) :=
  if lf_clear_paths s then
    Some (PeerPathsChanged peer [] None,
          if bool_decide (lf_actual s = None) && bool_decide (lf_announced s = None) then None
          else Some (mkLifecycle (lf_actual s) (lf_announced s) (lf_paths s) (lf_newly s) false))
  else if stale h s then
    Some (PeerDisconnected peer, Some (mkLifecycle (lf_actual s) None None (lf_newly s) true))
  else
    actual ← lf_actual s;
    match lf_announced s with
    | None => Some (PeerConnected peer, Some (mkLifecycle (lf_actual s) (Some (ac_lease actual)) (lf_paths s) (lf_newly s) (lf_clear_paths s)))
    | Some _ =>
        Some (PeerPathsChanged peer (ac_active actual) (lf_newly s),
              Some (mkLifecycle (lf_actual s) (lf_announced s) (Some (ac_active actual)) None (lf_clear_paths s)))
    end.

Inductive Edge : Type := NoEdge | EdgeEvent (e : Event) (d : Dispatcher) | EdgePanics.

Definition next_lifecycle (h : Heap) (d : Dispatcher) : Edge :=
  match min_peer (dp_cursor d) (om_keys (List.filter (fun e => dirty h e.2) (dp_lifecycle d))) with
  | None => NoEdge
  | Some peer =>
      match om_get peer (dp_lifecycle d) with
      | None => EdgePanics
      | Some s =>
          match lifecycle_edge h peer s with
          | None => EdgePanics
          | Some (event, kept) =>
              EdgeEvent event (mkDispatcher match kept with
                                            | Some s => om_insert peer s (dp_lifecycle d)
                                            | None => om_remove peer (dp_lifecycle d)
                                            end (Some peer) (dp_payloads d) (dp_lost_gossip d) (dp_turn d))
          end
      end
  end.

(** Payloads whose connection is gone leave the front of the queue. *)
Fixpoint drop_retired (h : Heap) (payloads : list Pending) (lost : bool) : list Pending * bool :=
  match payloads with
  | p :: rest => if negb (is_live h (pe_ingress p)) then drop_retired h rest (is_gossip (pe_event p) || lost) else (payloads, lost)
  | [] => ([], lost)
  end.

Definition front_ready (h : Heap) (d : Dispatcher) : bool :=
  match head (dp_payloads d) with
  | Some p => match om_get (pe_carrier p) (dp_lifecycle d) with Some s => ready h s (pe_ingress p) | None => false end
  | None => false
  end.

Definition from_source (h : Heap) (d : Dispatcher) (is_ready : bool) (source : N) : Edge :=
  match source with
  | 0 => if is_ready then match dp_payloads d with
                          | p :: rest => EdgeEvent (pe_event p) (set_payloads d rest (dp_lost_gossip d))
                          | [] => NoEdge
                          end
         else NoEdge
  | 1 => next_lifecycle h d
  | _ => if dp_lost_gossip d then EdgeEvent RecoveryNeeded (set_payloads d (dp_payloads d) false) else NoEdge
  end.

Fixpoint rotate (h : Heap) (d : Dispatcher) (is_ready : bool) (offsets : list N) : Edge :=
  match offsets with
  | [] => NoEdge
  | offset :: rest =>
      let source := (dp_turn d + offset) mod 3 in
      match from_source h d is_ready source with
      | EdgeEvent e d' => EdgeEvent e (mkDispatcher (dp_lifecycle d') (dp_cursor d') (dp_payloads d') (dp_lost_gossip d') ((source + 1) mod 3))
      | EdgePanics => EdgePanics
      | NoEdge => rotate h d is_ready rest
      end
  end.

(** The event, if any, and the dispatcher left. The outer [None] is a panic. *)
Definition next (h : Heap) (d : Dispatcher) : option (option Event * Dispatcher) :=
  let '(payloads, lost) := drop_retired h (dp_payloads d) (dp_lost_gossip d) in
  let d := set_payloads d payloads lost in
  match rotate h d (front_ready h d) [0; 1; 2] with
  | EdgeEvent e d => Some (Some e, d)
  | NoEdge => Some (None, d)
  | EdgePanics => None
  end.

(** * The driver *)

Record Driver := mkDriver { dr_peers : gset N; dr_owners : Owners; dr_delivery : Dispatcher }.

Definition Driver_new : Driver := mkDriver ∅ (mkOwners [] ∅) Dispatcher_default.

(** A refusal makes the driver close the connection, which comes back as an event. *)
Definition queue_connection_state (dr : Driver) (peer : N) (active : list Path) (newly : option Path) : Driver :=
  match current (dr_owners dr) peer with
  | None => dr
  | Some lease => mkDriver (dr_peers dr) (dr_owners dr) (dispatcher_connected (dr_delivery dr) peer lease active newly).2
  end.

(** [SwarmEvent::ConnectionEstablished] *)
Definition on_established (dr : Driver) (peer : N) (active : list Path) (path : Path) : Driver :=
  let owners := if bool_decide (peer ∈ dr_peers dr) then dr_owners dr else owners_connected (dr_owners dr) peer in
  queue_connection_state (mkDriver ({[peer]} ∪ dr_peers dr) owners (dr_delivery dr)) peer active (Some path).

(** [SwarmEvent::ConnectionClosed] *)
Definition on_closed (dr : Driver) (peer : N) (num_established : N) (paths_changed : bool) (active : list Path) : Driver :=
  if num_established =? 0 then
    mkDriver (dr_peers dr ∖ {[peer]}) (owners_disconnected (dr_owners dr) peer) (dispatcher_disconnected (dr_delivery dr) peer)
  else if paths_changed then queue_connection_state dr peer active None
  else dr.

(** A gossip message; [credit] says whether the budget admits it. *)
Definition on_gossip (dr : Driver) (carrier : N) (data : Data) (credit : bool) : Driver :=
  match current (dr_owners dr) carrier, credit with
  | Some ingress, true => mkDriver (dr_peers dr) (dr_owners dr) (queue (ow_heap (dr_owners dr)) (dr_delivery dr) (Gossip data) carrier ingress).2
  | _, _ => mkDriver (dr_peers dr) (dr_owners dr) (note_gossip_loss (dr_delivery dr))
  end.

Definition on_request (dr : Driver) (from : N) (data : Data) (credit : bool) : Driver :=
  match current (dr_owners dr) from, credit with
  | Some ingress, true => mkDriver (dr_peers dr) (dr_owners dr) (queue (ow_heap (dr_owners dr)) (dr_delivery dr) (Request data) from ingress).2
  | _, _ => dr
  end.

(** The turn taken with a permit of the application's sink. *)
Definition on_permit (dr : Driver) : option (option Event * Driver) :=
  '(e, d) ← next (ow_heap (dr_owners dr)) (dr_delivery dr); Some (e, mkDriver (dr_peers dr) (dr_owners dr) d).

Definition on_stop (dr : Driver) : Driver := mkDriver (dr_peers dr) (owners_clear (dr_owners dr)) (dr_delivery dr).
End dispatch.

(** * Leases die once *)

Lemma own_live_revoke h l x : own_live (lease_revoke h l) x = own_live h x && negb (bool_decide (x = l)).
Proof.
  unfold own_live, lease_revoke. destruct (decide (x = l)) as [->|Hne].
  - rewrite bool_decide_eq_true_2, andb_false_r by done. rewrite list_lookup_alter_eq. by destruct (h !! l).
  - rewrite bool_decide_eq_false_2, andb_true_r by done. by rewrite list_lookup_alter_ne.
Qed.

Lemma own_live_app h k x : own_live (h ++ k) x = if (x <? length h)%nat then own_live h x else own_live k (x - length h).
Proof.
  unfold own_live. destruct (Nat.ltb_spec x (length h)); [by rewrite lookup_app_l|by rewrite lookup_app_r].
Qed.

(** [h] becomes [h'] without reviving anything or changing who depends on whom. *)
Record heap_later (h h' : Heap) : Prop := mkHeapLater {
  hl_len : (length h <= length h')%nat;
  hl_parents : forall l, (l < length h)%nat -> (h' !! l ≫= ls_parents) = (h !! l ≫= ls_parents);
  hl_dead : forall l, (l < length h)%nat -> own_live h l = false -> own_live h' l = false
}.

#[export] Instance heap_later_preorder : PreOrder heap_later.
Proof.
  split.
  - by intros h.
  - intros a b c [A1 A2 A3] [B1 B2 B3]. constructor; [lia| |].
    + intros l Hl. rewrite B2 by lia. by apply A2.
    + intros l Hl Hd. apply B3; [lia|]. by apply A3.
Qed.

Lemma length_revoke h l : length (lease_revoke h l) = length h.
Proof. apply length_alter. Qed.

Lemma revoke_later h l : heap_later h (lease_revoke h l).
Proof.
  constructor; [by rewrite length_revoke| |].
  - intros x _. unfold lease_revoke. destruct (decide (x = l)) as [->|]; [|by rewrite list_lookup_alter_ne].
    rewrite list_lookup_alter_eq. by destruct (h !! l).
  - intros x _ Hd. by rewrite own_live_revoke, Hd.
Qed.

Lemma grow_later h k : heap_later h (h ++ k).
Proof.
  constructor; [rewrite length_app; lia| |].
  - intros l Hl. by rewrite lookup_app_l.
  - intros l Hl Hd. rewrite own_live_app. by rewrite (proj2 (Nat.ltb_lt _ _) Hl).
Qed.

Record owners_ok (o : Owners) : Prop := mkOwnersOk {
  oo_live : forall l, own_live (ow_heap o) l = true <-> exists peer, ow_table o !! peer = Some l;
  oo_inj : forall p q l, ow_table o !! p = Some l -> ow_table o !! q = Some l -> p = q;
  oo_base : forall l, (ow_heap o !! l ≫= ls_parents) = None;
  oo_few : N.of_nat (size (ow_table o)) <= MAX_CONNECTED_PEER_SNAPSHOT
}.

Lemma base_live o l : owners_ok o -> is_live (ow_heap o) l = own_live (ow_heap o) l.
Proof. intros Ho. unfold is_live. by rewrite (oo_base o Ho), andb_true_r. Qed.

Lemma current_table o p : owners_ok o -> current o p = ow_table o !! p.
Proof.
  intros Ho. unfold current. destruct (ow_table o !! p) as [l|] eqn:E; [|done]. cbn. rewrite (base_live o l Ho), (proj2 (oo_live o Ho l)); [done|by exists p].
Qed.

Lemma owners_connected_ok o p : owners_ok o -> owners_ok (owners_connected o p).
Proof.
  intros Ho. unfold owners_connected. destruct (N.ltb_spec (N.of_nat (size (ow_table o))) MAX_CONNECTED_PEER_SNAPSHOT) as [Hs|]; [|done].
  destruct (ow_table o !! p) eqn:E; [done|]. cbn. destruct Ho as [H1 H2 H3 H4].
  assert (forall l, (length (ow_heap o) <= l)%nat -> forall q, ow_table o !! q <> Some l) as Hfresh.
  { intros l Hl q Hq. assert (own_live (ow_heap o) l = true) as Hx by (apply H1; by exists q). unfold own_live in Hx.
    by rewrite (proj2 (lookup_ge_None _ _) Hl) in Hx. }
  constructor; cbn [ow_heap ow_table].
  - intros l. rewrite own_live_app. destruct (Nat.ltb_spec l (length (ow_heap o))) as [Hl|Hl].
    + rewrite H1. split; intros [q Hq]; exists q.
      * rewrite lookup_insert_ne; [done|]. intros ->. congruence.
      * apply lookup_insert_Some in Hq as [[_ <-]|[_ Hq]]; [lia|done].
    + split.
      * intros Hlive. exists p. destruct (l - length (ow_heap o))%nat as [|k] eqn:Ek; [|done]. rewrite lookup_insert_eq. f_equal. lia.
      * intros [q Hq]. apply lookup_insert_Some in Hq as [[_ <-]|[_ Hq]]; [by rewrite Nat.sub_diag|by destruct (Hfresh l Hl q)].
  - intros q q' l Hq Hq'. apply lookup_insert_Some in Hq as [[E1 E2]|[Hn Hq]], Hq' as [[E3 E4]|[Hn' Hq']]; [congruence|..|by apply (H2 q q' l)].
    + by destruct (Hfresh l ltac:(lia) q').
    + by destruct (Hfresh l ltac:(lia) q).
  - intros l. destruct (decide (l < length (ow_heap o))%nat); [by rewrite lookup_app_l|]. rewrite lookup_app_r by lia. by destruct (l - length (ow_heap o))%nat.
  - rewrite map_size_insert_None by done. lia.
Qed.

Lemma owners_connected_later o p : heap_later (ow_heap o) (ow_heap (owners_connected o p)).
Proof. unfold owners_connected. destruct (_ <? _); [|done]. destruct (ow_table o !! p); [done|]. apply grow_later. Qed.

Lemma owners_disconnected_ok o p : owners_ok o -> owners_ok (owners_disconnected o p).
Proof.
  intros Ho. unfold owners_disconnected. destruct (ow_table o !! p) as [l|] eqn:E; [|done]. destruct Ho as [H1 H2 H3 H4].
  constructor; cbn [ow_heap ow_table].
  - intros x. rewrite own_live_revoke, andb_true_iff, negb_true_iff, bool_decide_eq_false, H1. split.
    + intros [[q Hq] Hn]. exists q. rewrite lookup_delete_ne; [done|]. intros ->. congruence.
    + intros [q Hq]. apply lookup_delete_Some in Hq as [Hn Hq]. split; [by exists q|]. intros ->. apply Hn. by apply (H2 p q l).
  - intros q q' x Hq%lookup_delete_Some Hq'%lookup_delete_Some. destruct Hq as [_ Hq], Hq' as [_ Hq']. by apply (H2 q q' x).
  - intros x. destruct (decide (x < length (ow_heap o))%nat) as [Hl|]; [by rewrite (hl_parents _ _ (revoke_later (ow_heap o) l))|].
    rewrite (proj2 (lookup_ge_None _ _)); [done|rewrite length_revoke; lia].
  - rewrite map_size_delete_Some by done. lia.
Qed.

Lemma owners_disconnected_later o p : heap_later (ow_heap o) (ow_heap (owners_disconnected o p)).
Proof. unfold owners_disconnected. destruct (ow_table o !! p); [apply revoke_later|done]. Qed.

Lemma clear_heap h (m : gmap N Lease) :
  let h' := map_fold (fun _ l h => lease_revoke h l) h m in
  heap_later h h' /\ length h' = length h /\ forall l, own_live h' l = true <-> own_live h l = true /\ ~ exists p, m !! p = Some l.
Proof.
  cbv zeta. apply (map_fold_weak_ind (fun h' (m : gmap N Lease) => heap_later h h' /\ length h' = length h /\
    forall l, own_live h' l = true <-> own_live h l = true /\ ~ exists p, m !! p = Some l)).
  - split_and!; [done|done|]. intros l. split; [intros Hl; split; [done|]; intros [p Hp]; by rewrite lookup_empty in Hp|by intros [? _]].
  - intros p l m' h' Hm (H1 & H2 & H3). split_and!; [by etrans; [|apply revoke_later]|by rewrite length_revoke|].
    intros x. rewrite own_live_revoke, andb_true_iff, negb_true_iff, bool_decide_eq_false, H3. split.
    + intros [[Hl Hn] Hx]. split; [done|]. intros [q Hq]. apply lookup_insert_Some in Hq as [[_ E]|[_ Hq]]; [congruence|]. apply Hn. by exists q.
    + intros [Hl Hn]. split; [split; [done|]; intros [q Hq]; apply Hn; exists q; rewrite lookup_insert_ne; [done|congruence]|].
      intros ->. apply Hn. exists p. by rewrite lookup_insert_eq.
Qed.

Lemma owners_clear_ok o : owners_ok o -> owners_ok (owners_clear o) /\ heap_later (ow_heap o) (ow_heap (owners_clear o)).
Proof.
  intros [H1 H2 H3 H4]. destruct (clear_heap (ow_heap o) (ow_table o)) as (L1 & L2 & L3). split; [|done]. constructor; cbn [owners_clear ow_heap ow_table].
  - intros l. rewrite L3. split; [|intros [p Hp]; by rewrite lookup_empty in Hp]. intros [Hl Hn].
    by apply H1 in Hl.
  - intros p q l Hp. by rewrite lookup_empty in Hp.
  - intros l. destruct (decide (l < length (ow_heap o))%nat) as [Hl|]; [by rewrite (hl_parents _ _ L1)|]. rewrite (proj2 (lookup_ge_None _ _)); [done|lia].
  - by rewrite map_size_empty.
Qed.

(** * The driver's invariant *)

Section invariant.
Context {Path Data : Type} `{EqDecision Path}.
#[local] Abbreviation Event := (TransportEvent Path Data).
#[local] Abbreviation Disp := (Dispatcher (Path:=Path) (Data:=Data)).
#[local] Abbreviation Drv := (Driver (Path:=Path) (Data:=Data)).
Implicit Types d : Disp.
Implicit Types dr : Drv.

Record lifecycle_ok (s : Lifecycle (Path:=Path)) : Prop := mkStateOk {
  so_clear : lf_clear_paths s = true -> lf_announced s = None;
  so_paths : lf_announced s = None -> lf_paths s = None
}.

(** The connection the dispatcher has been told a peer has. *)
Definition actual_of d (p : N) : option Actual := om_get p (dp_lifecycle d) ≫= lf_actual.

Record delivery_ok (o : Owners) d : Prop := mkDeliveryOk {
  do_wf : om_wf (dp_lifecycle d);
  do_few : len (dp_lifecycle d) <= LIFECYCLE;
  do_queue : len (dp_payloads d) <= QUEUED;
  do_turn : dp_turn d < 3;
  do_state : forall p s, om_get p (dp_lifecycle d) = Some s -> lifecycle_ok s;
  do_actual : forall p a, actual_of d p = Some a ->
    (ac_lease a < length (ow_heap o))%nat /\ (own_live (ow_heap o) (ac_lease a) = true -> ow_table o !! p = Some (ac_lease a));
  do_pending : forall x, x ∈ dp_payloads d ->
    (pe_ingress x < length (ow_heap o))%nat /\ (own_live (ow_heap o) (pe_ingress x) = true -> carries d (pe_carrier x) (pe_ingress x) = true)
}.

Lemma carries_actual d c l : carries d c l = true <-> exists a, actual_of d c = Some a /\ ac_lease a = l.
Proof.
  unfold carries, actual_of. destruct (om_get c (dp_lifecycle d) ≫= lf_actual) as [a|]; [|split; [done|by intros (a & ? & _)]].
  rewrite bool_decide_eq_true. split; [by exists a|by intros (? & [= <-] & ?)].
Qed.

(** A table that forgets only leases that die. *)
Lemma delivery_ok_owners o o' d :
  delivery_ok o d -> heap_later (ow_heap o) (ow_heap o') ->
  (forall q l, ow_table o !! q = Some l -> own_live (ow_heap o') l = true -> ow_table o' !! q = Some l) -> delivery_ok o' d.
Proof.
  intros [D1 D2 D3 D4 D5 D6 D7] [L1 L2 L3] Ht. constructor; try done.
  - intros p a Ha. destruct (D6 p a Ha) as [Hl Hlive]. split; [lia|]. intros Hx. apply Ht; [|done]. apply Hlive.
    destruct (own_live (ow_heap o) (ac_lease a)) eqn:E; [done|]. by rewrite (L3 _ Hl E) in Hx.
  - intros x Hx. destruct (D7 x Hx) as [Hl Hlive]. split; [lia|]. intros Hy. apply Hlive.
    destruct (own_live (ow_heap o) (pe_ingress x)) eqn:E; [done|]. by rewrite (L3 _ Hl E) in Hy.
Qed.

Lemma established_table o p q l : ow_table o !! q = Some l -> ow_table (owners_connected o p) !! q = Some l.
Proof.
  intros Hq. unfold owners_connected. destruct (_ <? _); [|done]. destruct (ow_table o !! p) eqn:E; [done|]. cbn. rewrite lookup_insert_ne; [done|congruence].
Qed.

Lemma closed_table o p q l : owners_ok o -> ow_table o !! q = Some l -> own_live (ow_heap (owners_disconnected o p)) l = true ->
  ow_table (owners_disconnected o p) !! q = Some l.
Proof.
  intros Ho Hq Hl. destruct (proj1 (oo_live _ (owners_disconnected_ok o p Ho) l) Hl) as [q' Hq']. unfold owners_disconnected in *.
  destruct (ow_table o !! p) as [l'|]; [|done]. cbn [ow_table] in *. pose proof Hq' as [_ Hq2]%lookup_delete_Some. by rewrite (oo_inj o Ho q q' l Hq Hq2).
Qed.

(** The dispatcher keeps its invariant when it keeps what peers really have. *)
Lemma delivery_ok_next o d d' :
  delivery_ok o d -> om_wf (dp_lifecycle d') -> len (dp_lifecycle d') <= len (dp_lifecycle d) -> dp_turn d' < 3 ->
  (forall p s, om_get p (dp_lifecycle d') = Some s -> lifecycle_ok s) -> (forall p, actual_of d' p = actual_of d p) ->
  (exists gone, dp_payloads d = gone ++ dp_payloads d') -> delivery_ok o d'.
Proof.
  intros [D1 D2 D3 D4 D5 D6 D7] Hwf Hlen Hturn Hst Hact [gone Hpay]. constructor; try done.
  - lia.
  - rewrite Hpay, len_app in D3. lia.
  - intros p a. rewrite Hact. apply D6.
  - intros x Hx. destruct (D7 x) as [Hl Hc]; [rewrite Hpay; apply elem_of_app; by right|]. split; [done|]. intros Hlive.
    apply carries_actual. rewrite Hact. by apply carries_actual, Hc.
Qed.

Lemma connected_state_ok s lease active newly : lifecycle_ok s -> lifecycle_ok (connected_state s lease active newly).
Proof. intros [H1 H2]. by constructor. Qed.

Lemma default_state_ok : lifecycle_ok Lifecycle_default.
Proof. by constructor. Qed.

Lemma actual_of_insert d m p s q :
  m = om_insert p s (dp_lifecycle d) -> actual_of (set_lifecycle d m) q = if decide (q = p) then lf_actual s else actual_of d q.
Proof.
  intros ->. unfold actual_of. cbn [set_lifecycle dp_lifecycle]. destruct (decide (q = p)) as [->|]; [by rewrite om_get_insert_eq|by rewrite om_get_insert_ne].
Qed.

Lemma dispatcher_connected_ok o d p lease active newly :
  owners_ok o -> delivery_ok o d -> ow_table o !! p = Some lease -> delivery_ok o (dispatcher_connected d p lease active newly).2.
Proof.
  intros Ho Hd Ht. assert (own_live (ow_heap o) lease = true) as Hlive by (apply (oo_live o Ho); by exists p).
  assert (lease < length (ow_heap o))%nat as Hlt.
  { unfold own_live in Hlive. destruct (ow_heap o !! lease) eqn:E; [by apply lookup_lt_Some in E|done]. }
  assert (forall s, lifecycle_ok s -> len (om_insert p (connected_state s lease active newly) (dp_lifecycle d)) <= LIFECYCLE ->
    delivery_ok o (set_lifecycle d (om_insert p (connected_state s lease active newly) (dp_lifecycle d)))) as Hins.
  { intros s Hs Hlen. pose proof Hd as [D1 D2 D3 D4 D5 D6 D7]. constructor; cbn [set_lifecycle dp_lifecycle dp_payloads dp_turn]; [by apply om_wf_insert|done|done|done| | |].
    - intros q s'. destruct (decide (q = p)) as [->|]; [rewrite om_get_insert_eq; intros [= <-]; by apply connected_state_ok|rewrite om_get_insert_ne by done; apply D5].
    - intros q a. rewrite (actual_of_insert d _ p _ q eq_refl). destruct (decide (q = p)) as [->|]; [|apply D6]. intros [= <-]. done.
    - intros x Hx. destruct (D7 x Hx) as [Hl Hc]. split; [done|]. intros Hx'. apply carries_actual. rewrite (actual_of_insert d _ p _ _ eq_refl).
      destruct (proj1 (carries_actual _ _ _) (Hc Hx')) as (a & Ha & El). destruct (decide (pe_carrier x = p)) as [E|]; [|by exists a].
      exists (mkActual lease active). split; [done|]. cbn [ac_lease]. destruct (D6 _ _ Ha) as [_ Htab]. rewrite El, E in Htab. specialize (Htab Hx'). congruence. }
  unfold dispatcher_connected. destruct (om_get p (dp_lifecycle d)) as [s|] eqn:E; cbn [snd].
  - apply Hins; [by apply (do_state o d Hd p)|]. rewrite (om_insert_len_old _ _ _ _ E). apply Hd.
  - destruct (N.leb_spec LIFECYCLE (len (dp_lifecycle d))); [done|]. apply Hins; [apply default_state_ok|]. rewrite om_insert_len_new by done. lia.
Qed.

Lemma dispatcher_disconnected_ok o d p : delivery_ok o d -> ow_table o !! p = None -> delivery_ok o (dispatcher_disconnected d p).
Proof.
  intros Hd Ht. pose proof Hd as [D1 D2 D3 D4 D5 D6 D7]. unfold dispatcher_disconnected. destruct (om_get p (dp_lifecycle d)) as [s|] eqn:E; [|done].
  assert (forall m, om_wf m -> len m <= len (dp_lifecycle d) -> (forall q s, om_get q m = Some s -> lifecycle_ok s) ->
    (forall q, (om_get q m ≫= lf_actual) = if decide (q = p) then None else actual_of d q) -> delivery_ok o (set_lifecycle d m)) as Hset.
  { intros m Hwf Hlen Hst Hact. constructor; cbn [set_lifecycle dp_lifecycle dp_payloads dp_turn]; [done|lia|done|done|done| |].
    - intros q a. unfold actual_of. cbn [set_lifecycle dp_lifecycle]. rewrite Hact. destruct (decide (q = p)); [done|]. apply D6.
    - intros x Hx. destruct (D7 x Hx) as [Hl Hc]. split; [done|]. intros Hx'. destruct (proj1 (carries_actual _ _ _) (Hc Hx')) as (a & Ha & El).
      apply carries_actual. exists a. split; [|done]. unfold actual_of at 1. cbn [set_lifecycle dp_lifecycle]. rewrite Hact.
      destruct (decide (pe_carrier x = p)) as [Ep|]; [|done]. destruct (D6 _ _ Ha) as [_ Htab]. rewrite El, Ep in Htab. rewrite (Htab Hx') in Ht. done. }
  destruct (D5 p s E) as [S1 S2]. cbn [lf_announced lf_clear_paths].
  destruct (bool_decide (lf_announced s = None) && negb (lf_clear_paths s)).
  - apply Hset; [by apply om_wf_remove|apply om_remove_len_le| |].
    + intros q s'. destruct (decide (q = p)) as [->|]; [by rewrite om_get_remove_eq|rewrite om_get_remove_ne by done; apply D5].
    + intros q. destruct (decide (q = p)) as [->|]; [by rewrite om_get_remove_eq|by rewrite om_get_remove_ne].
  - apply Hset; [by apply om_wf_insert|by rewrite (om_insert_len_old _ _ _ _ E)| |].
    + intros q s'. destruct (decide (q = p)) as [->|]; [rewrite om_get_insert_eq; intros [= <-]; by constructor|rewrite om_get_insert_ne by done; apply D5].
    + intros q. destruct (decide (q = p)) as [->|]; [by rewrite om_get_insert_eq|by rewrite om_get_insert_ne].
Qed.

Lemma queue_ok o d e c l : owners_ok o -> delivery_ok o d -> delivery_ok o (queue (ow_heap o) d e c l).2.
Proof.
  intros Ho Hd. pose proof Hd as [D1 D2 D3 D4 D5 D6 D7]. unfold queue. destruct (N.leb_spec QUEUED (len (dp_payloads d))); cbn [orb].
  { by apply (delivery_ok_next o d); try done; exists []. }
  destruct (is_live (ow_heap o) l) eqn:El; cbn [negb orb]; [|by apply (delivery_ok_next o d); try done; exists []].
  destruct (carries d c l) eqn:Ec; cbn [negb snd]; [|by apply (delivery_ok_next o d); try done; exists []].
  rewrite (base_live o l Ho) in El.
  constructor; cbn [set_payloads dp_lifecycle dp_payloads dp_turn]; try done; [rewrite len_app; change (len [_]) with 1; lia|].
  intros x [Hx|Hx%list_elem_of_singleton]%elem_of_app; [by apply D7|]. subst x. cbn [pe_ingress pe_carrier]. split; [|done].
  unfold own_live in El. destruct (ow_heap o !! l) eqn:E; [by apply lookup_lt_Some in E|done].
Qed.
End invariant.

(** * Emission *)

Section emission.
Context {Path Data : Type} `{EqDecision Path}.
#[local] Abbreviation Event := (TransportEvent Path Data).
#[local] Abbreviation Disp := (Dispatcher (Path:=Path) (Data:=Data)).
#[local] Abbreviation Drv := (Driver (Path:=Path) (Data:=Data)).
Implicit Types d : Disp.
Implicit Types dr : Drv.
Implicit Types s : Lifecycle (Path:=Path).
Implicit Types x : Pending (Path:=Path) (Data:=Data).

Definition live_actual (h : Heap) s : bool := match lf_actual s with Some a => is_live h (ac_lease a) | None => false end.

Definition settled s : bool :=
  match lf_actual s with
  | Some a => bool_decide (lf_paths s = Some (ac_active a)) && bool_decide (lf_newly s = None)
  | None => false
  end.

(** The edges a peer's state still owes the application. *)
Definition owed (h : Heap) s : N :=
  if lf_clear_paths s then (if live_actual h s then 3 else 1)
  else match lf_announced s with
       | Some _ => if stale h s then (if live_actual h s then 4 else 2) else if settled s then 0 else 1
       | None => if live_actual h s then 2 else 0
       end.

Lemma dirty_owed h s : dirty h s = true <-> 0 < owed h s.
Proof.
  unfold dirty, owed, stale, live_actual, settled. destruct (lf_clear_paths s); [destruct (match lf_actual s with Some _ => _ | None => _ end); split; (done || lia)|].
  destruct (lf_announced s) as [old|], (lf_actual s) as [new|].
  - destruct (is_live h old) eqn:El, (bool_decide (old = ac_lease new)) eqn:Eb; cbn [andb negb orb]; try (destruct (is_live h (ac_lease new)); split; (done || lia)).
    destruct (bool_decide (lf_paths s = Some (ac_active new))); cbn [negb orb andb]; [|split; (done || lia)].
    destruct (lf_newly s) as [n|]; [rewrite bool_decide_eq_true_2 by (by eexists); rewrite bool_decide_eq_false_2 by done|rewrite bool_decide_eq_false_2 by (by intros [? ?]); rewrite bool_decide_eq_true_2 by done]; split; (done || lia).
  - rewrite orb_true_r. split; (done || lia).
  - destruct (is_live h (ac_lease new)); split; (done || lia).
  - split; (done || lia).
Qed.

(** What the application knows of a peer. *)
Inductive PeerPhase : Type := Absent | Connected (l : Lease) | Ready (l : Lease) (active : list Path) | Gone.

Definition phase_of s : PeerPhase :=
  if lf_clear_paths s then Gone
  else match lf_announced s with
       | None => Absent
       | Some l => match lf_paths s with None => Connected l | Some active => Ready l active end
       end.

Definition seen d (p : N) : PeerPhase := match om_get p (dp_lifecycle d) with Some s => phase_of s | None => Absent end.

Definition announced_as (ph : PeerPhase) (l : Lease) : Prop := ph = Connected l \/ exists active, ph = Ready l active.

(** The edges of one peer the application may see, and in which order. *)
Inductive edge_step (h : Heap) (p : N) : PeerPhase -> Event -> PeerPhase -> Prop :=
| ph_connected l : is_live h l = true -> edge_step h p Absent (PeerConnected p) (Connected l)
| ph_paths ph l active newly : announced_as ph l -> is_live h l = true -> edge_step h p ph (PeerPathsChanged p active newly) (Ready l active)
| ph_disconnected ph l : announced_as ph l -> edge_step h p ph (PeerDisconnected p) Gone
| ph_cleared : edge_step h p Gone (PeerPathsChanged p [] None) Absent.

Definition kept_phase (kept : option (Lifecycle (Path:=Path))) : PeerPhase := match kept with Some s => phase_of s | None => Absent end.

Lemma holds_announced s l : lf_clear_paths s = false -> lf_announced s = Some l -> announced_as (phase_of s) l.
Proof. intros Hc Ha. unfold phase_of. rewrite Hc, Ha. destruct (lf_paths s) as [a|]; [right; by exists a|by left]. Qed.

(** One edge: a legal step, one edge less owed, the real connection untouched. *)
Lemma lifecycle_edge_spec h p s :
  lifecycle_ok s -> dirty h s = true ->
  exists e kept, lifecycle_edge (Data:=Data) h p s = Some (e, kept) /\ edge_step h p (phase_of s) e (kept_phase kept) /\
    from_option (owed h) 0 kept < owed h s /\
    match kept with Some s' => lf_actual s' = lf_actual s /\ lifecycle_ok s' | None => lf_actual s = None end.
Proof.
  intros [S1 S2] Hd. unfold lifecycle_edge, owed, live_actual. destruct (lf_clear_paths s) eqn:Ec.
  - specialize (S1 eq_refl). rewrite S1. rewrite (bool_decide_eq_true_2 (@None Lease = None)), andb_true_r by done.
    eexists _, _. split; [reflexivity|]. unfold phase_of at 1. rewrite Ec. case_bool_decide as Ea.
    + split_and!; [apply ph_cleared|cbn; rewrite Ea; lia|done].
    + cbn [kept_phase from_option]. unfold phase_of, owed, live_actual. cbn [lf_clear_paths lf_announced lf_actual].
      split_and!; [apply ph_cleared|destruct (match lf_actual s with Some _ => _ | None => _ end); lia|done|constructor; [done|auto]].
  - destruct (stale h s) eqn:Est.
    + destruct (lf_announced s) as [old|] eqn:Eo; [|by unfold stale in Est; rewrite Eo in Est].
      eexists _, _. split; [reflexivity|]. cbn [kept_phase from_option]. split_and!; [|unfold owed, live_actual; cbn; destruct (match lf_actual s with Some _ => _ | None => _ end); lia|done|by constructor].
      unfold phase_of at 2. cbn [lf_clear_paths]. apply (ph_disconnected h p _ old). by apply holds_announced.
    + assert (lf_announced s = None \/ exists l, lf_announced s = Some l /\ is_live h l = true /\ exists a, lf_actual s = Some a /\ ac_lease a = l) as Hcase.
      { unfold stale in Est. destruct (lf_announced s) as [old|]; [right|by left]. exists old. destruct (is_live h old); [|done]. split; [done|]. split; [done|].
        destruct (lf_actual s) as [a|]; [|done]. exists a. split; [done|]. cbn in Est. apply negb_false_iff, bool_decide_eq_true in Est. congruence. }
      destruct Hcase as [En|(l & El & Hlive & a & Ea & Hal)].
      * rewrite En. unfold dirty in Hd. rewrite Ec, En in Hd. destruct (lf_actual s) as [a|] eqn:Ea; [|done]. rewrite Hd. cbn [mbind option_bind].
        eexists _, _. split; [reflexivity|]. cbn [kept_phase from_option]. unfold phase_of. cbn [lf_clear_paths lf_announced lf_paths]. rewrite Ec, En, (S2 En).
        split_and!; [by apply ph_connected| |done|by constructor]. unfold owed, stale, settled. cbn [lf_clear_paths lf_announced lf_paths lf_actual lf_newly].
        rewrite Hd, bool_decide_eq_true_2 by done. cbn [negb orb]. rewrite bool_decide_eq_false_2 by done. cbn [andb]. lia.
      * rewrite El, Ea. cbn [mbind option_bind]. eexists _, _. split; [reflexivity|]. cbn [kept_phase from_option].
        assert (settled s = false) as Hs.
        { apply dirty_owed in Hd. unfold owed in Hd. rewrite Ec, El, Est in Hd. by destruct (settled s). }
        rewrite Hs. split_and!; [| |done|by constructor].
        -- unfold phase_of at 2. cbn [lf_clear_paths lf_announced lf_paths]. apply ph_paths; [by apply holds_announced|done].
        -- unfold owed, stale, settled. cbn [lf_clear_paths lf_announced lf_paths lf_actual lf_newly]. rewrite Hlive, Hal, !bool_decide_eq_true_2 by done. cbn. lia.
Qed.

Lemma min_peer_spec c l : match min_peer c l with Some p => p ∈ l | None => l = [] end.
Proof.
  induction l as [|p l IH]; [done|]. cbn. destruct (min_peer c l) as [q|]; [|by left]. destruct (key_le c p q); [by left|by right].
Qed.

Lemma drop_retired_spec h (ps : list (Pending (Path:=Path) (Data:=Data))) : forall lost ps' lost', drop_retired h ps lost = (ps', lost') ->
  exists gone, ps = gone ++ ps' /\ Forall (fun x => is_live h (pe_ingress x) = false) gone /\
    (forall x, head ps' = Some x -> is_live h (pe_ingress x) = true) /\ (lost = true -> lost' = true) /\
    2 * len ps' + N.b2n lost' <= 2 * len ps + N.b2n lost.
Proof.
  induction ps as [|x ps IH]; intros lost ps' lost'; cbn; [intros [= <- <-]; by exists []|].
  destruct (is_live h (pe_ingress x)) eqn:El; cbn [negb].
  - intros [= <- <-]. exists []. split_and!; [done|done|by intros ? [= <-]|done|done].
  - intros H. apply IH in H as (gone & -> & Hg & Hh & Hl & Hw). exists (x :: gone). split_and!; [done|by constructor|done|intros ->; apply Hl, orb_true_r|].
    unfold len in *. cbn [length]. destruct (is_gossip (pe_event x)), lost; cbn [orb N.b2n] in *; lia.
Qed.

(** All the dispatcher still owes. *)
Definition backlog (h : Heap) d : N := sum_of (owed h) (om_values (dp_lifecycle d)) + 2 * len (dp_payloads d) + N.b2n (dp_lost_gossip d).

(** What one emission may be, seen by the application. *)
Inductive stream_step (h : Heap) (payloads : list (Pending (Path:=Path) (Data:=Data))) (v : N -> PeerPhase) : Event -> (N -> PeerPhase) -> Prop :=
| ss_edge p e ph v' : edge_step h p (v p) e ph -> (forall q, v' q = if decide (q = p) then ph else v q) -> stream_step h payloads v e v'
| ss_payload x active v' : x ∈ payloads -> is_live h (pe_ingress x) = true -> v (pe_carrier x) = Ready (pe_ingress x) active ->
    (forall q, v' q = v q) -> stream_step h payloads v (pe_event x) v'
| ss_recovery v' : (forall q, v' q = v q) -> stream_step h payloads v RecoveryNeeded v'.

(** The payloads whose connection still stands. *)
Definition live_payloads (h : Heap) d : list (Pending (Path:=Path) (Data:=Data)) := List.filter (fun x => is_live h (pe_ingress x)) (dp_payloads d).

Record emits (o : Owners) (d : Disp) (e : Event) (d' : Disp) : Prop := mkEmits {
  em_step : stream_step (ow_heap o) (dp_payloads d) (seen d) e (seen d');
  em_ok : delivery_ok o d';
  em_less : backlog (ow_heap o) d' < backlog (ow_heap o) d;
  em_actual : forall p, actual_of d' p = actual_of d p;
  em_keys : forall p, om_get p (dp_lifecycle d) = None -> om_get p (dp_lifecycle d') = None;
  em_lost : dp_lost_gossip d = true -> e = RecoveryNeeded \/ dp_lost_gossip d' = true;
  em_queue : (exists x, e = pe_event x /\ live_payloads (ow_heap o) d = x :: live_payloads (ow_heap o) d') \/
    live_payloads (ow_heap o) d' = live_payloads (ow_heap o) d
}.

Lemma next_lifecycle_spec o d :
  owners_ok o -> delivery_ok o d ->
  match next_lifecycle (ow_heap o) d with
  | NoEdge => forall s, s ∈ om_values (dp_lifecycle d) -> dirty (ow_heap o) s = false
  | EdgeEvent e d' => emits o d e d' /\ dp_turn d' = dp_turn d
  | EdgePanics => False
  end.
Proof.
  intros Ho Hd. set (h := ow_heap o). unfold next_lifecycle. pose proof (do_wf o d Hd) as Hwf.
  pose proof (min_peer_spec (dp_cursor d) (om_keys (List.filter (fun e => dirty h e.2) (dp_lifecycle d)))) as Hmin.
  destruct (min_peer _ _) as [p|].
  - unfold om_keys in Hmin. apply list_elem_of_fmap in Hmin as ([p' s] & -> & Hin). apply elem_List_filter in Hin as [Hin Hdirty]. cbn [fst snd] in *.
    apply (om_get_elem _ _ _ Hwf) in Hin. rewrite Hin. pose proof (do_state o d Hd p' s Hin) as Hs.
    destruct (lifecycle_edge_spec h p' s Hs Hdirty) as (e & kept & -> & Hstep & Hless & Hkept). split; [|done].
    set (m := match kept with Some s' => om_insert p' s' (dp_lifecycle d) | None => om_remove p' (dp_lifecycle d) end).
    assert (forall q, om_get q m = if decide (q = p') then kept else om_get q (dp_lifecycle d)) as Hget.
    { intros q. unfold m. destruct kept as [s'|], (decide (q = p')) as [->|]; [by rewrite om_get_insert_eq|by rewrite om_get_insert_ne|by rewrite om_get_remove_eq|by rewrite om_get_remove_ne]. }
    assert (om_wf m) as Hm by (unfold m; destruct kept; [by apply om_wf_insert|by apply om_wf_remove]).
    assert (len m <= len (dp_lifecycle d)) as Hlen by (unfold m; destruct kept; [by rewrite (om_insert_len_old _ _ _ _ Hin)|apply om_remove_len_le]).
    assert (forall q, (om_get q m ≫= lf_actual) = actual_of d q) as Hact.
    { intros q. rewrite Hget. destruct (decide (q = p')) as [->|]; [|done]. unfold actual_of. rewrite Hin. destruct kept as [s'|]; [by destruct Hkept as [Hk _]|done]. }
    constructor.
    + apply (ss_edge _ _ _ p' e (kept_phase kept)).
      * unfold seen. by rewrite Hin.
      * intros q. unfold seen. cbn [dp_lifecycle]. fold m. rewrite Hget. by destruct (decide (q = p')) as [->|].
    + apply (delivery_ok_next o d); [done|done|done|apply Hd| |done|by exists []].
      intros q s'. cbn [dp_lifecycle]. fold m. rewrite Hget. destruct (decide (q = p')) as [->|]; [|apply (do_state o d Hd)]. intros ->. by destruct Hkept.
    + unfold backlog. cbn [dp_lifecycle dp_payloads dp_lost_gossip]. fold m h.
      assert (sum_of (owed h) (om_values m) + owed h s = sum_of (owed h) (om_values (dp_lifecycle d)) + from_option (owed h) 0 kept) as Hsum.
      { unfold m. destruct kept as [s'|].
        - pose proof (om_sum_insert (owed h) p' s' (dp_lifecycle d)) as E. by rewrite Hin in E.
        - pose proof (om_sum_remove (owed h) p' (dp_lifecycle d)) as E. rewrite Hin in E. cbn [from_option] in *. lia. }
      lia.
    + exact Hact.
    + intros q Hq. cbn [dp_lifecycle]. fold m. rewrite Hget. destruct (decide (q = p')) as [->|]; congruence.
    + intros Hl. by right.
    + by right.
  - intros s Hs. apply list_elem_of_fmap in Hs as ([p s'] & -> & Hin). cbn [snd]. destruct (dirty h s') eqn:E; [|done]. exfalso.
    unfold om_keys in Hmin. apply fmap_nil_inv in Hmin. assert ((p, s') ∈ List.filter (fun e => dirty h e.2) (dp_lifecycle d)) as Hx by (apply elem_List_filter; done).
    rewrite Hmin in Hx. by apply elem_of_nil in Hx.
Qed.

Definition at_turn d (turn : N) : Disp := mkDispatcher (dp_lifecycle d) (dp_cursor d) (dp_payloads d) (dp_lost_gossip d) turn.

Lemma rotate_spec h d is_ready offsets :
  match rotate h d is_ready offsets with
  | EdgeEvent e d' => exists pre off post d1, offsets = pre ++ off :: post /\
      Forall (fun k => from_source h d is_ready ((dp_turn d + k) mod 3) = NoEdge) pre /\
      from_source h d is_ready ((dp_turn d + off) mod 3) = EdgeEvent e d1 /\ d' = at_turn d1 (((dp_turn d + off) mod 3 + 1) mod 3)
  | NoEdge => Forall (fun k => from_source h d is_ready ((dp_turn d + k) mod 3) = NoEdge) offsets
  | EdgePanics => exists off, from_source h d is_ready ((dp_turn d + off) mod 3) = EdgePanics
  end.
Proof.
  induction offsets as [|off offsets IH]; cbn [rotate]; [done|]. destruct (from_source h d is_ready _) as [|e d1|] eqn:E.
  - destruct (rotate h d is_ready offsets) as [|e d'|]; [by constructor| |done]. destruct IH as (pre & k & post & d1 & -> & Hp & Hf & ->).
    exists (off :: pre), k, post, d1. split_and!; [done|by constructor|done|done].
  - exists [], off, offsets, d1. by split_and!.
  - by exists off.
Qed.

Lemma ready_front h d s x : om_get (pe_carrier x) (dp_lifecycle d) = Some s -> ready h s (pe_ingress x) = true ->
  exists active, seen d (pe_carrier x) = Ready (pe_ingress x) active.
Proof.
  intros Hs Hr. unfold ready in Hr. rewrite !andb_true_iff, negb_true_iff, !bool_decide_eq_true in Hr. destruct Hr as [[[_ Hc] [active Hp]] Ha].
  exists active. unfold seen. rewrite Hs. unfold phase_of. by rewrite Hc, Ha, Hp.
Qed.

Lemma from_source_spec o d source :
  owners_ok o -> delivery_ok o d -> source < 3 -> (forall x, head (dp_payloads d) = Some x -> is_live (ow_heap o) (pe_ingress x) = true) ->
  match from_source (ow_heap o) d (front_ready (ow_heap o) d) source with
  | EdgeEvent e d' => emits o d e d'
  | EdgePanics => False
  | NoEdge => match source with
              | 0 => front_ready (ow_heap o) d = false
              | 1 => forall s, s ∈ om_values (dp_lifecycle d) -> dirty (ow_heap o) s = false
              | _ => dp_lost_gossip d = false
              end
  end.
Proof.
  intros Ho Hd Hs Hlive. assert (source = 0 \/ source = 1 \/ source = 2) as [E|[E|E]] by lia; rewrite E; cbn [from_source].
  - destruct (front_ready (ow_heap o) d) eqn:Er; [|done]. unfold front_ready in Er. destruct (dp_payloads d) as [|x rest] eqn:Ep; [done|]. cbn [head] in *.
    destruct (om_get (pe_carrier x) (dp_lifecycle d)) as [s|] eqn:Es; [|done]. destruct (ready_front _ d s x Es Er) as [active Hv]. constructor.
    + rewrite Ep. apply (ss_payload _ _ _ x active); [left|by apply Hlive|done|done].
    + apply (delivery_ok_next o d); [done|apply Hd|apply N.le_refl|apply Hd|apply Hd|done|]. exists [x]. by rewrite Ep.
    + unfold backlog. cbn [set_payloads dp_lifecycle dp_payloads dp_lost_gossip]. rewrite Ep. unfold len. cbn [length]. lia.
    + done.
    + done.
    + by right.
    + left. exists x. split; [done|]. unfold live_payloads. rewrite Ep. cbn [List.filter set_payloads dp_payloads]. by rewrite (Hlive x eq_refl).
  - pose proof (next_lifecycle_spec o d Ho Hd) as H. destruct (next_lifecycle (ow_heap o) d); [done|by destruct H|done].
  - destruct (dp_lost_gossip d) eqn:El; [|done]. constructor.
    + by apply ss_recovery.
    + apply (delivery_ok_next o d); [done|apply Hd|apply N.le_refl|apply Hd|apply Hd|done|by exists []].
    + unfold backlog. cbn [set_payloads dp_lifecycle dp_payloads dp_lost_gossip]. rewrite El. cbn [N.b2n]. lia.
    + done.
    + done.
    + by left.
    + by right.
Qed.

(** A payload whose connection is live is ready, or its peer still owes an edge. *)
Lemma live_front_progress o d x :
  owners_ok o -> delivery_ok o d -> head (dp_payloads d) = Some x -> is_live (ow_heap o) (pe_ingress x) = true ->
  front_ready (ow_heap o) d = true \/ exists s, s ∈ om_values (dp_lifecycle d) /\ dirty (ow_heap o) s = true.
Proof.
  intros Ho Hd Hx Hl. assert (x ∈ dp_payloads d) as Hin by (destruct (dp_payloads d); [done|]; injection Hx as ->; left).
  destruct (do_pending o d Hd x Hin) as [_ Hc]. rewrite <- (base_live o _ Ho) in Hc. destruct (proj1 (carries_actual _ _ _) (Hc Hl)) as (a & Ha & Ea).
  unfold actual_of in Ha. destruct (om_get (pe_carrier x) (dp_lifecycle d)) as [s|] eqn:Es; [|done]. cbn in Ha.
  destruct (dirty (ow_heap o) s) eqn:Ed; [right; exists s; split; [|done]; apply om_values_get; [apply Hd|by exists (pe_carrier x)]|left].
  unfold front_ready. rewrite Hx, Es. unfold dirty in Ed. unfold ready. rewrite Hl. rewrite Ha in Ed. destruct (lf_clear_paths s); [done|]. rewrite Ea in Ed.
  destruct (lf_announced s) as [old|]; [|by rewrite Hl in Ed]. destruct (is_live (ow_heap o) old); [|done]. cbn [andb] in Ed.
  destruct (bool_decide (old = pe_ingress x)) eqn:Eo; [|done]. apply bool_decide_eq_true in Eo as ->. apply orb_false_iff in Ed as [Ep%negb_false_iff%bool_decide_eq_true _].
  rewrite Ep, !bool_decide_eq_true_2 by (done || by eexists). done.
Qed.

Lemma stream_step_mono h ps qs v e v' : ps ⊆ qs -> stream_step h ps v e v' -> stream_step h qs v e v'.
Proof. intros Hs []; [by eapply ss_edge|eapply ss_payload; eauto|by apply ss_recovery]. Qed.

Lemma turn_cases turn : turn < 3 -> turn = 0 \/ turn = 1 \/ turn = 2.
Proof. lia. Qed.

(** A turn looks at all three sources. *)
Lemma rotation_covers turn source : turn < 3 -> source < 3 -> exists k, k ∈ [0; 1; 2] /\ (turn + k) mod 3 = source.
Proof.
  intros [E|[E|E]]%turn_cases [F|[F|F]]%turn_cases; subst;
    first [exists 0; split; [set_solver|reflexivity]|exists 1; split; [set_solver|reflexivity]|exists 2; split; [set_solver|reflexivity]].
Qed.

(** While a loss is unreported, a turn reports it or comes nearer to reporting it. *)
Lemma rotation_recovers h d is_ready pre off post e d1 :
  dp_turn d < 3 -> dp_lost_gossip d = true -> [0; 1; 2] = pre ++ off :: post ->
  Forall (fun k => from_source h d is_ready ((dp_turn d + k) mod 3) = NoEdge) pre -> from_source h d is_ready ((dp_turn d + off) mod 3) = EdgeEvent e d1 ->
  e = RecoveryNeeded \/ (2 - ((dp_turn d + off) mod 3 + 1) mod 3 < 2 - dp_turn d /\ dp_turn d < 2).
Proof.
  intros Ht Hl Eo Hpre Hf. assert (from_source h d is_ready 2 = EdgeEvent RecoveryNeeded (set_payloads d (dp_payloads d) false)) as H2 by (cbn; by rewrite Hl).
  assert ((off = 0 /\ pre = []) \/ (off = 1 /\ pre = [0]) \/ (off = 2 /\ pre = [0; 1])) as Hk.
  { destruct pre as [|a pre]; cbn in Eo; [left; by injection Eo as <- _|]. injection Eo as <- Eo.
    destruct pre as [|b pre]; cbn in Eo; [right; left; by injection Eo as <- _|]. injection Eo as <- Eo.
    destruct pre as [|c pre]; cbn in Eo; [right; right; by injection Eo as <- _|]. injection Eo as <- Eo. by destruct pre. }
  apply turn_cases in Ht as [Et|[Et|Et]]; rewrite Et in *; destruct Hk as [[-> ->]|[[-> ->]|[-> ->]]];
    rewrite ?Forall_cons in Hpre; change ((0 + 0) mod 3) with 0 in *; change ((0 + 1) mod 3) with 1 in *; change ((0 + 2) mod 3) with 2 in *;
    change ((1 + 0) mod 3) with 1 in *; change ((1 + 1) mod 3) with 2 in *; change ((1 + 2) mod 3) with 0 in *;
    change ((2 + 0) mod 3) with 2 in *; change ((2 + 1) mod 3) with 0 in *; change ((2 + 2) mod 3) with 1 in *;
    try (left; congruence); try (right; split; reflexivity); exfalso; destruct Hpre as [P1 P2]; try rewrite Forall_cons in P2; intuition congruence.
Qed.

(** One turn of the dispatcher: it never panics, what it emits is a legal step that
    leaves less to do, and it emits nothing only if nothing is left. *)
Lemma next_spec o d :
  owners_ok o -> delivery_ok o d -> exists e d', next (ow_heap o) d = Some (e, d') /\ (forall p, actual_of d' p = actual_of d p) /\
  (forall p, om_get p (dp_lifecycle d) = None -> om_get p (dp_lifecycle d') = None) /\
  match e with
  | Some e => emits o d e d' /\ (dp_lost_gossip d = true -> e = RecoveryNeeded \/ (2 - dp_turn d' < 2 - dp_turn d /\ dp_turn d < 2))
  | None => delivery_ok o d' /\ has_pending (ow_heap o) d' = false /\ (forall p, seen d' p = seen d p) /\ dp_lost_gossip d = false /\ live_payloads (ow_heap o) d = []
  end.
Proof.
  intros Ho Hd. unfold next. destruct (drop_retired (ow_heap o) (dp_payloads d) (dp_lost_gossip d)) as [ps lost] eqn:Edrop.
  apply drop_retired_spec in Edrop as (gone & Hpay & Hgone & Hlive & Hlost & Hw). set (d1 := set_payloads d ps lost).
  assert (live_payloads (ow_heap o) d1 = live_payloads (ow_heap o) d) as Hsame.
  { unfold live_payloads. rewrite Hpay, List.filter_app. cbn [d1 set_payloads dp_payloads]. clear -Hgone. induction Hgone as [|x gone Hx _ IH]; [done|]. cbn. by rewrite Hx. }
  assert (delivery_ok o d1) as Hd1 by (apply (delivery_ok_next o d); [done|apply Hd|apply N.le_refl|apply Hd|apply Hd|done|by exists gone]).
  pose proof (rotate_spec (ow_heap o) d1 (front_ready (ow_heap o) d1) [0; 1; 2]) as Hrot. pose proof (do_turn o d Hd) as Hturn.
  assert (forall k, (dp_turn d1 + k) mod 3 < 3) as Hmod by (intros k; apply N.mod_lt; lia).
  assert (forall k, match from_source (ow_heap o) d1 (front_ready (ow_heap o) d1) ((dp_turn d1 + k) mod 3) with EdgeEvent e d' => emits o d1 e d' | EdgePanics => False
    | NoEdge => match (dp_turn d1 + k) mod 3 with 0 => front_ready (ow_heap o) d1 = false | 1 => forall s, s ∈ om_values (dp_lifecycle d1) -> dirty (ow_heap o) s = false
      | _ => dp_lost_gossip d1 = false end end) as Hsrc by (intros k; by apply from_source_spec).
  destruct (rotate (ow_heap o) d1 (front_ready (ow_heap o) d1) [0; 1; 2]) as [|e d'|].
  - exists None, d1. split; [done|]. split; [done|]. split; [done|]. split; [done|].
    assert (forall source, source < 3 -> from_source (ow_heap o) d1 (front_ready (ow_heap o) d1) source = NoEdge) as Hidle.
    { intros source Hs. destruct (rotation_covers (dp_turn d1) source Hturn Hs) as (k & Hk & <-). rewrite Forall_forall in Hrot. by apply Hrot. }
    pose proof (from_source_spec o d1 0 Ho Hd1 ltac:(lia) Hlive) as I0. pose proof (from_source_spec o d1 1 Ho Hd1 ltac:(lia) Hlive) as I1.
    pose proof (from_source_spec o d1 2 Ho Hd1 ltac:(lia) Hlive) as I2. rewrite Hidle in I0, I1, I2 by lia. cbn iota in I0, I1, I2.
    assert (dp_payloads d1 = []) as Hempty.
    { destruct (dp_payloads d1) as [|x rest] eqn:Ep; [done|]. exfalso. assert (head (dp_payloads d1) = Some x) as Hx by by rewrite Ep.
      destruct (live_front_progress o d1 x Ho Hd1 Hx (Hlive x Hx)) as [Hr|(s & Hs & Hdirty)]; [congruence|]. by rewrite (I1 s Hs) in Hdirty. }
    split; [|split; [done|split]].
    + unfold has_pending. rewrite I2, orb_false_r, Hempty. cbn [length]. rewrite bool_decide_eq_true_2 by done. cbn [negb orb]. destruct (existsb _ _) eqn:Ex; [|done]. apply existsb_exists in Ex as (s & Hs%list_elem_of_In & Hdirty). by rewrite (I1 s Hs) in Hdirty.
    + destruct (dp_lost_gossip d) eqn:El; [|done]. by rewrite (Hlost eq_refl : dp_lost_gossip d1 = true) in I2.
    + rewrite <- Hsame. unfold live_payloads. by rewrite Hempty.
  - destruct Hrot as (pre & off & post & d2 & Eoff & Hpre & Hf & ->). pose proof (Hsrc off) as Hem. rewrite Hf in Hem. destruct Hem as [E1 E2 E3 E4 Ek E5 E6].
    exists (Some e), (at_turn d2 (((dp_turn d1 + off) mod 3 + 1) mod 3)). split; [done|]. split; [exact E4|]. split; [exact Ek|]. split.
    + constructor.
      * eapply stream_step_mono; [|exact E1]. intros x Hx. rewrite Hpay. apply elem_of_app. by right.
      * apply (delivery_ok_next o d2); [done|apply E2|apply N.le_refl|apply N.mod_lt; lia|apply E2|done|by exists []].
      * unfold backlog in *. cbn [at_turn d1 set_payloads dp_lifecycle dp_payloads dp_lost_gossip] in *. lia.
      * exact E4.
      * exact Ek.
      * intros Hl. cbn. by apply E5, Hlost.
      * change (live_payloads (ow_heap o) (at_turn d2 (((dp_turn d1 + off) mod 3 + 1) mod 3))) with (live_payloads (ow_heap o) d2). by rewrite <- Hsame.
    + intros Hl. cbn [at_turn dp_turn]. apply (rotation_recovers (ow_heap o) d1 (front_ready (ow_heap o) d1) pre off post e d2); [done|by apply Hlost|done|done|done].
  - destruct Hrot as [off Hf]. pose proof (Hsrc off) as H. by rewrite Hf in H.
Qed.
End emission.

(** * The driver and its stream *)

Section driver.
Context {Path Data : Type} `{EqDecision Path}.
#[local] Abbreviation Event := (TransportEvent Path Data).
#[local] Abbreviation Disp := (Dispatcher (Path:=Path) (Data:=Data)).
#[local] Abbreviation Drv := (Driver (Path:=Path) (Data:=Data)).
Implicit Types d : Disp.
Implicit Types dr : Drv.

Definition dr_heap dr : Heap := ow_heap (dr_owners dr).

(** One event of the driver, with what it sends to the application. *)
Inductive driver_step : Drv -> option Event -> Drv -> Prop :=
| ds_established dr peer active path : driver_step dr None (on_established dr peer active path)
| ds_closed dr peer num changed active : driver_step dr None (on_closed dr peer num changed active)
| ds_gossip dr carrier data credit : driver_step dr None (on_gossip dr carrier data credit)
| ds_request dr from data credit : driver_step dr None (on_request dr from data credit)
| ds_permit dr e dr' : on_permit dr = Some (e, dr') -> driver_step dr e dr'
| ds_stop dr : driver_step dr None (on_stop dr).

Definition driver_move dr dr' : Prop := exists e, driver_step dr e dr'.

Definition reachable dr : Prop := rtc driver_move Driver_new dr.

Record driver_ok dr : Prop := mkDriverOk { dk_owners : owners_ok (dr_owners dr); dk_delivery : delivery_ok (dr_owners dr) (dr_delivery dr) }.

Lemma driver_new_ok : driver_ok Driver_new.
Proof.
  constructor; cbn [Driver_new dr_owners dr_delivery].
  - constructor; cbn [ow_heap ow_table]; [|intros p q l Hp; by rewrite lookup_empty in Hp|done|by rewrite map_size_empty].
    intros l. split; [done|intros [p Hp]; by rewrite lookup_empty in Hp].
  - constructor; [apply om_wf_nil|done|done|done|done|done|]. intros x Hx. by apply elem_of_nil in Hx.
Qed.

Lemma queue_state_spec dr p active newly :
  driver_ok dr -> driver_ok (queue_connection_state dr p active newly) /\ dr_owners (queue_connection_state dr p active newly) = dr_owners dr /\
  forall q, seen (dr_delivery (queue_connection_state dr p active newly)) q = seen (dr_delivery dr) q.
Proof.
  intros [Ho Hd]. unfold queue_connection_state. destruct (current (dr_owners dr) p) as [l|] eqn:E; [|done]. rewrite (current_table _ _ Ho) in E.
  split; [|split; [done|]].
  - constructor; [done|]. by apply dispatcher_connected_ok.
  - intros q. cbn [dr_delivery]. unfold dispatcher_connected. destruct (om_get p (dp_lifecycle (dr_delivery dr))) as [s|] eqn:Es; cbn [snd].
    + unfold seen. cbn [set_lifecycle dp_lifecycle]. destruct (decide (q = p)) as [->|]; [by rewrite om_get_insert_eq, Es|by rewrite om_get_insert_ne].
    + destruct (LIFECYCLE <=? _); [done|]. unfold seen. cbn [snd set_lifecycle dp_lifecycle].
      destruct (decide (q = p)) as [->|]; [by rewrite om_get_insert_eq, Es|by rewrite om_get_insert_ne].
Qed.

Lemma established_spec dr p active path :
  driver_ok dr -> driver_ok (on_established dr p active path) /\ heap_later (dr_heap dr) (dr_heap (on_established dr p active path)) /\
  forall q, seen (dr_delivery (on_established dr p active path)) q = seen (dr_delivery dr) q.
Proof.
  intros [Ho Hd]. unfold on_established. set (owners := if bool_decide (p ∈ dr_peers dr) then dr_owners dr else owners_connected (dr_owners dr) p).
  assert (owners_ok owners /\ heap_later (ow_heap (dr_owners dr)) (ow_heap owners) /\ delivery_ok owners (dr_delivery dr)) as (Ho' & Hl & Hd').
  { unfold owners. case_bool_decide; [done|]. split_and!; [by apply owners_connected_ok|apply owners_connected_later|].
    apply (delivery_ok_owners (dr_owners dr)); [done|apply owners_connected_later|]. intros q l Hq _. by apply established_table. }
  destruct (queue_state_spec (mkDriver ({[p]} ∪ dr_peers dr) owners (dr_delivery dr)) p active (Some path)) as (H1 & H2 & H3); [by constructor|].
  split; [done|]. split; [|done]. unfold dr_heap. by rewrite H2.
Qed.

Lemma closed_spec dr p num changed active :
  driver_ok dr -> driver_ok (on_closed dr p num changed active) /\ heap_later (dr_heap dr) (dr_heap (on_closed dr p num changed active)) /\
  forall q, seen (dr_delivery (on_closed dr p num changed active)) q = seen (dr_delivery dr) q.
Proof.
  intros Hok. pose proof Hok as [Ho Hd]. unfold on_closed. destruct (num =? 0).
  - split; [|split; [apply owners_disconnected_later|]].
    + pose proof (owners_disconnected_ok _ p Ho) as Ho'. constructor; [done|]. cbn [dr_owners dr_delivery]. apply dispatcher_disconnected_ok.
      * apply (delivery_ok_owners (dr_owners dr)); [done|apply owners_disconnected_later|]. intros q l. by apply closed_table.
      * unfold owners_disconnected. destruct (ow_table (dr_owners dr) !! p) eqn:E; [apply lookup_delete_eq|done].
    + intros q. cbn [dr_delivery]. unfold dispatcher_disconnected. destruct (om_get p (dp_lifecycle (dr_delivery dr))) as [s|] eqn:Es; [|done].
      cbn [lf_announced lf_clear_paths]. pose proof (do_wf _ _ Hd) as Hwf.
      destruct (bool_decide (lf_announced s = None) && negb (lf_clear_paths s)) eqn:Eb; unfold seen; cbn [set_lifecycle dp_lifecycle].
      * destruct (decide (q = p)) as [->|]; [rewrite om_get_remove_eq, Es by done|by rewrite om_get_remove_ne].
        apply andb_true_iff in Eb as [Ea%bool_decide_eq_true Ec%negb_true_iff]. unfold phase_of. by rewrite Ec, Ea.
      * destruct (decide (q = p)) as [->|]; [by rewrite om_get_insert_eq, Es|by rewrite om_get_insert_ne].
  - destruct changed; [|done]. destruct (queue_state_spec dr p active None Hok) as (H1 & H2 & H3). split; [done|]. split; [unfold dr_heap; by rewrite H2|done].
Qed.

Lemma queued_spec dr e c l :
  driver_ok dr -> let dr' := mkDriver (dr_peers dr) (dr_owners dr) (queue (dr_heap dr) (dr_delivery dr) e c l).2 in
  driver_ok dr' /\ forall q, seen (dr_delivery dr') q = seen (dr_delivery dr) q.
Proof.
  intros [Ho Hd]. split; [constructor; [done|by apply queue_ok]|]. intros q. unfold queue. by destruct (_ || _ || _).
Qed.

(** A turn with a permit. *)
Lemma permit_spec dr :
  driver_ok dr -> exists e dr', on_permit dr = Some (e, dr') /\ dr_owners dr' = dr_owners dr /\ driver_ok dr' /\
  match e with
  | Some e => emits (dr_owners dr) (dr_delivery dr) e (dr_delivery dr')
  | None => has_pending (dr_heap dr) (dr_delivery dr') = false /\ forall p, seen (dr_delivery dr') p = seen (dr_delivery dr) p
  end.
Proof.
  intros [Ho Hd]. destruct (next_spec (dr_owners dr) (dr_delivery dr) Ho Hd) as (e & d' & Hn & _ & _ & He). unfold on_permit. rewrite Hn. cbn.
  exists e, (mkDriver (dr_peers dr) (dr_owners dr) d'). split; [done|]. split; [done|]. destruct e as [e|].
  - destruct He as [He _]. split; [|done]. constructor; [done|apply He].
  - by destruct He as (H1 & H2 & H3 & _).
Qed.

(** Every step keeps the invariant and revives no lease; only a permit changes what
    the application knows. *)
Lemma driver_step_spec dr e dr' :
  driver_ok dr -> driver_step dr e dr' -> driver_ok dr' /\ heap_later (dr_heap dr) (dr_heap dr') /\
  match e with
  | Some e => emits (dr_owners dr) (dr_delivery dr) e (dr_delivery dr')
  | None => forall p, seen (dr_delivery dr') p = seen (dr_delivery dr) p
  end.
Proof.
  intros Hok Hs. destruct Hs as [dr p a path|dr p num ch a|dr c x cr|dr c x cr|dr e dr' Hp|dr].
  - by apply established_spec.
  - by apply closed_spec.
  - unfold on_gossip. assert (driver_ok (mkDriver (dr_peers dr) (dr_owners dr) (note_gossip_loss (dr_delivery dr)))) as Hloss.
    { destruct Hok as [Ho Hd]. constructor; [done|]. apply (delivery_ok_next _ (dr_delivery dr)); [done|apply Hd|apply N.le_refl|apply Hd|apply Hd|done|by exists []]. }
    destruct (current _ c) as [l|], cr; try done. destruct (queued_spec dr (Gossip x) c l Hok) as [H1 H2]. done.
  - unfold on_request. destruct (current _ c) as [l|], cr; try done. destruct (queued_spec dr (Request x) c l Hok) as [H1 H2]. done.
  - destruct (permit_spec dr Hok) as (e' & dr2 & Hp' & Hown & Hok' & He). rewrite Hp in Hp'. injection Hp' as <- <-.
    split; [done|]. split; [unfold dr_heap; by rewrite Hown|]. destruct e; [done|by destruct He].
  - destruct Hok as [Ho Hd]. destruct (owners_clear_ok _ Ho) as [H1 H2]. split; [|done]. constructor; [done|].
    apply (delivery_ok_owners (dr_owners dr)); [done|done|]. intros q l _ Hl. destruct (proj1 (oo_live _ H1 l) Hl) as [p Hp].
    cbn [owners_clear ow_table] in Hp. by rewrite lookup_empty in Hp.
Qed.

Lemma run_spec dr dr' : driver_ok dr -> rtc driver_move dr dr' -> driver_ok dr' /\ heap_later (dr_heap dr) (dr_heap dr').
Proof.
  intros Hok Hr. induction Hr as [dr|dr dr1 dr' [e Hs] _ IH]; [done|]. destruct (driver_step_spec _ _ _ Hok Hs) as (H1 & H2 & _).
  destruct (IH H1) as [H3 H4]. split; [done|]. by etrans.
Qed.

Lemma reachable_ok dr : reachable dr -> driver_ok dr.
Proof. intros Hr. by destruct (run_spec _ _ driver_new_ok Hr). Qed.

(** A connection's authority dies with it. Whatever happens after a peer's last
    connection closes, the lease captured while it stood is never live again and
    never anybody's current lease, so work queued under it cannot pass for work of
    a later connection of the same peer; a further path of a standing
    connection keeps the lease; and the table of leases stays within 320 peers. *)
Theorem reconnect_is_fresh dr peer l changed active path dr' :
  reachable dr -> current (dr_owners dr) peer = Some l -> peer ∈ dr_peers dr -> rtc driver_move (on_closed dr peer 0 changed active) dr' ->
  current (dr_owners (on_established dr peer active path)) peer = Some l /\ is_live (dr_heap dr) l = true /\
  is_live (dr_heap dr') l = false /\ (forall q, current (dr_owners dr') q <> Some l) /\
  N.of_nat (size (ow_table (dr_owners dr'))) <= MAX_CONNECTED_PEER_SNAPSHOT.
Proof.
  intros Hr Hc Hp Hrun. pose proof (reachable_ok _ Hr) as Hok. pose proof Hok as [Ho Hd]. pose proof Hc as Ht. rewrite (current_table _ _ Ho) in Ht.
  assert (own_live (dr_heap dr) l = true) as Hlive by (apply (oo_live _ Ho); by exists peer).
  destruct (closed_spec dr peer 0 changed active Hok) as (Hok1 & _ & _). destruct (run_spec _ _ Hok1 Hrun) as [[Ho' Hd'] Hlater].
  assert (own_live (dr_heap dr') l = false) as Hdead.
  { apply (hl_dead _ _ Hlater); unfold dr_heap, on_closed, owners_disconnected; cbn [N.eqb dr_owners]; rewrite Ht; cbn [ow_heap].
    - rewrite length_revoke. unfold own_live, dr_heap in Hlive. destruct (ow_heap (dr_owners dr) !! l) eqn:E; [by apply lookup_lt_Some in E|done].
    - rewrite own_live_revoke, bool_decide_eq_true_2 by done. apply andb_false_r. }
  split_and!.
  - unfold on_established. rewrite bool_decide_eq_true_2 by done. unfold queue_connection_state. cbn [dr_owners]. by rewrite Hc.
  - unfold dr_heap in *. by rewrite (base_live _ _ Ho).
  - unfold dr_heap in *. by rewrite (base_live _ _ Ho').
  - intros q Hq. rewrite (current_table _ _ Ho') in Hq. assert (own_live (ow_heap (dr_owners dr')) l = true) as Hx by (apply (oo_live _ Ho'); by exists q).
    unfold dr_heap in Hdead. congruence.
  - apply Ho'.
Qed.

(** C38: the application sees a lawful stream. In every reachable state of the driver a
    turn with a permit neither panics nor breaks the order of events: a peer is
    announced before its paths, paths before its payloads; its end is announced
    and its paths cleared before it may be announced again; a payload is
    delivered only while the very connection it came over is live, announced and
    has its paths; and nothing the network does in between changes what the
    application knows. *)
Theorem stream_refines dr e dr' :
  reachable dr -> driver_step dr e dr' ->
  on_permit dr <> None /\
  match e with
  | Some e => stream_step (dr_heap dr) (dp_payloads (dr_delivery dr)) (seen (dr_delivery dr)) e (seen (dr_delivery dr'))
  | None => forall p, seen (dr_delivery dr') p = seen (dr_delivery dr) p
  end.
Proof.
  intros Hr%reachable_ok Hs. split.
  - destruct (permit_spec dr Hr) as (x & y & -> & _). done.
  - destruct (driver_step_spec _ _ _ Hr Hs) as (_ & _ & He). destruct e; [apply He|done].
Qed.

(** Permit after permit, with the network at rest. *)
Fixpoint drain (fuel : nat) (h : Heap) d : option (list Event * Disp) :=
  match fuel with
  | O => Some ([], d)
  | S fuel =>
      match next h d with
      | None => None
      | Some (None, d) => Some ([], d)
      | Some (Some e, d) => '(es, d) ← drain fuel h d; Some (e :: es, d)
      end
  end.

Lemma drain_spec o fuel : forall d, owners_ok o -> delivery_ok o d ->
  exists es d', drain fuel (ow_heap o) d = Some (es, d') /\ delivery_ok o d' /\ (forall p, actual_of d' p = actual_of d p) /\
    len es <= backlog (ow_heap o) d /\
    (backlog (ow_heap o) d < N.of_nat fuel -> has_pending (ow_heap o) d' = false /\ (pe_event <$> live_payloads (ow_heap o) d) `sublist_of` es) /\
    (dp_lost_gossip d = true -> (2 - dp_turn d < N.of_nat fuel) -> RecoveryNeeded ∈ es).
Proof.
  induction fuel as [|fuel IH]; intros d Ho Hd.
  { exists [], d. split; [done|]. split; [done|]. split; [done|]. split; [apply N.le_0_l|]. split; lia. }
  destruct (next_spec o d Ho Hd) as (e & d1 & Hn & Hact & _ & He). cbn [drain]. rewrite Hn. destruct e as [e|].
  - destruct He as [[_ E2 E3 _ _ E5 E6] Hturn]. destruct (IH d1 Ho E2) as (es & d2 & -> & I1 & I2 & I3 & I4 & I5). cbn.
    exists (e :: es), d2. split; [done|]. split; [done|]. split; [intros p; by rewrite I2|]. split; [unfold len in *; cbn [length]; lia|]. split.
    + intros Hf. destruct I4 as [I4 I6]; [lia|]. split; [done|]. destruct E6 as [(x & -> & ->)|Hsame]; [by apply sublist_skip|].
      rewrite Hsame in I6. by apply sublist_cons.
    + intros Hl Hf. destruct (Hturn Hl) as [->|[Hlt _]]; [left|]. destruct (E5 Hl) as [->|Hl1]; [left|]. right. apply I5; [done|lia].
  - destruct He as (H1 & H2 & _ & H4 & H5). exists [], d1. split; [done|]. split; [done|]. split; [done|]. split; [apply N.le_0_l|]. split.
    + intros _. split; [done|]. by rewrite H5.
    + congruence.
Qed.

Lemma clean_phase h (s : Lifecycle (Path:=Path)) : dirty h s = false ->
  phase_of s = match lf_actual s with Some a => if is_live h (ac_lease a) then Ready (ac_lease a) (ac_active a) else Absent | None => Absent end.
Proof.
  unfold dirty, phase_of. destruct (lf_clear_paths s); [done|]. destruct (lf_announced s) as [old|], (lf_actual s) as [new|]; try done.
  - destruct (is_live h old) eqn:El; [|done]. cbn [andb]. destruct (bool_decide (old = ac_lease new)) eqn:Eo; [|done]. apply bool_decide_eq_true in Eo as ->.
    rewrite El. by intros [Hp%negb_false_iff%bool_decide_eq_true _]%orb_false_iff; rewrite Hp.
  - by intros ->.
Qed.

Lemma owed_le h (s : Lifecycle (Path:=Path)) : owed h s <= 4.
Proof. unfold owed. repeat case_match; lia. Qed.

Lemma backlog_bound o d : delivery_ok o d -> backlog (ow_heap o) d <= 4 * LIFECYCLE + 2 * QUEUED + 1.
Proof.
  intros Hd. unfold backlog. pose proof (do_few _ _ Hd) as Hl. pose proof (do_queue _ _ Hd) as Hq.
  assert (sum_of (owed (ow_heap o)) (om_values (dp_lifecycle d)) <= 4 * len (dp_lifecycle d)) as Hs.
  { unfold om_values. clear. induction (dp_lifecycle d) as [|[p s] m IH]; [done|]. cbn [fmap list_fmap sum_of snd]. pose proof (owed_le (ow_heap o) s).
    unfold len in *. cbn [length]. lia. }
  destruct (dp_lost_gossip d); cbn [N.b2n]; lia.
Qed.

(** With nothing pending the application knows what the dispatcher was told. *)
Lemma drained_view o d p :
  delivery_ok o d -> has_pending (ow_heap o) d = false ->
  seen d p = match actual_of d p with
             | Some a => if is_live (ow_heap o) (ac_lease a) then Ready (ac_lease a) (ac_active a) else Absent
             | None => Absent
             end.
Proof.
  intros Hd Hp. unfold seen, actual_of. destruct (om_get p (dp_lifecycle d)) as [s|] eqn:Es; [|done]. cbn. apply clean_phase.
  unfold has_pending in Hp. rewrite !orb_false_iff in Hp. destruct Hp as [_ Hp]. destruct (dirty (ow_heap o) s) eqn:Ed; [|done].
  assert (existsb (dirty (ow_heap o)) (om_values (dp_lifecycle d)) = true) as Hx; [|congruence].
  apply existsb_exists. exists s. split; [|done]. apply list_elem_of_In, om_values_get; [apply Hd|by exists p].
Qed.

(** ** The network beside the driver

    What is really connected, whatever the driver makes of it: the paths of each
    connected peer; the peers whose connection the driver has asked the swarm to
    close because the dispatcher had no room for them; whether more peers than
    the lease table holds were ever connected at once; and every peer that was
    ever connected. *)
Record Network := mkNetwork { nw_paths : gmap N (list Path); nw_refused : gset N; nw_crowded : bool; nw_known : gset N }.

Definition Network_new : Network := mkNetwork ∅ ∅ false ∅.

(** [queue_connection_state] asks the swarm to disconnect the peer. *)
Definition refuses dr (peer : N) (active : list Path) (newly : option Path) : bool :=
  match current (dr_owners dr) peer with
  | Some lease => negb (dispatcher_connected (dr_delivery dr) peer lease active newly).1
  | None => false
  end.

Definition note_paths (nw : Network) (peer : N) (active : list Path) (refused : bool) : Network :=
  let paths := <[peer := active]> (nw_paths nw) in
  mkNetwork paths (if refused then {[peer]} ∪ nw_refused nw else nw_refused nw ∖ {[peer]})
    (nw_crowded nw || (MAX_CONNECTED_PEER_SNAPSHOT <? N.of_nat (size paths))) ({[peer]} ∪ nw_known nw).

Definition note_gone (nw : Network) (peer : N) : Network :=
  mkNetwork (delete peer (nw_paths nw)) (nw_refused nw ∖ {[peer]}) (nw_crowded nw) (nw_known nw).

(** The driver as it admits a connection, before it tells the dispatcher. *)
Definition with_lease dr (peer : N) : Drv :=
  mkDriver ({[peer]} ∪ dr_peers dr)
    (if bool_decide (peer ∈ dr_peers dr) then dr_owners dr else owners_connected (dr_owners dr) peer) (dr_delivery dr).

(** The running driver and the network move together: a connection comes up, one
    of several of a peer closes and leaves these paths, the last one closes, a
    payload arrives, the application takes an event. *)
Inductive network_step : Drv * Network -> Drv * Network -> Prop :=
| ns_established dr nw peer active path :
    network_step (dr, nw) (on_established dr peer active path, note_paths nw peer active (refuses (with_lease dr peer) peer active (Some path)))
| ns_paths dr nw peer num old active :
    num <> 0 -> nw_paths nw !! peer = Some old ->
    network_step (dr, nw)
      (on_closed dr peer num (negb (bool_decide (old = active))) active,
       if bool_decide (old = active) then nw else note_paths nw peer active (refuses dr peer active None))
| ns_gone dr nw peer changed active : network_step (dr, nw) (on_closed dr peer 0 changed active, note_gone nw peer)
| ns_gossip dr nw carrier data credit : network_step (dr, nw) (on_gossip dr carrier data credit, nw)
| ns_request dr nw from data credit : network_step (dr, nw) (on_request dr from data credit, nw)
| ns_permit dr nw e dr' : on_permit dr = Some (e, dr') -> network_step (dr, nw) (dr', nw).

Definition network_run dr (nw : Network) : Prop := rtc network_step (Driver_new, Network_new) (dr, nw).

Record network_ok dr (nw : Network) : Prop := mkNetworkOk {
  no_driver : driver_ok dr;
  no_peers : forall p, p ∈ dr_peers dr <-> is_Some (nw_paths nw !! p);
  no_leases : forall p l, ow_table (dr_owners dr) !! p = Some l -> is_Some (nw_paths nw !! p);
  no_told : forall p active l, nw_paths nw !! p = Some active -> ow_table (dr_owners dr) !! p = Some l -> (p ∉ nw_refused nw) ->
    actual_of (dr_delivery dr) p = Some (mkActual l active);
  no_refused : forall p, p ∈ nw_refused nw -> actual_of (dr_delivery dr) p = None;
  no_none : forall p, ow_table (dr_owners dr) !! p = None -> actual_of (dr_delivery dr) p = None;
  no_room : nw_crowded nw = false -> forall p, is_Some (nw_paths nw !! p) -> is_Some (ow_table (dr_owners dr) !! p);
  no_known : forall p, om_get p (dp_lifecycle (dr_delivery dr)) <> None -> p ∈ nw_known nw;
  no_full : N.of_nat (size (nw_known nw)) <= LIFECYCLE -> nw_refused nw = ∅
}.

Lemma connected_actual d p lease active newly :
  match dispatcher_connected d p lease active newly with
  | (true, d') => (forall q, actual_of d' q = if decide (q = p) then Some (mkActual lease active) else actual_of d q) /\
      (forall q, om_get q (dp_lifecycle d') <> None -> q = p \/ om_get q (dp_lifecycle d) <> None)
  | (false, d') => d' = d /\ om_get p (dp_lifecycle d) = None /\ LIFECYCLE <= len (dp_lifecycle d)
  end.
Proof.
  assert (forall s, (forall q, actual_of (set_lifecycle d (om_insert p (connected_state s lease active newly) (dp_lifecycle d))) q =
      if decide (q = p) then Some (mkActual lease active) else actual_of d q) /\
    (forall q, om_get q (om_insert p (connected_state s lease active newly) (dp_lifecycle d)) <> None -> q = p \/ om_get q (dp_lifecycle d) <> None)) as Hins.
  { intros s. split; [intros q; by rewrite (actual_of_insert d _ p _ q eq_refl)|]. intros q. destruct (decide (q = p)) as [->|]; [by left|].
    rewrite om_get_insert_ne by done. by right. }
  unfold dispatcher_connected. destruct (om_get p (dp_lifecycle d)) as [s|] eqn:E; [apply Hins|].
  destruct (N.leb_spec LIFECYCLE (len (dp_lifecycle d))); [done|]. apply Hins.
Qed.

Lemma disconnected_keys d p q : om_wf (dp_lifecycle d) ->
  om_get q (dp_lifecycle (dispatcher_disconnected d p)) <> None -> om_get q (dp_lifecycle d) <> None.
Proof.
  intros Hwf. unfold dispatcher_disconnected. destruct (om_get p (dp_lifecycle d)) as [s|] eqn:E; [|done].
  cbn [lf_announced lf_clear_paths]. destruct (_ && _); cbn [set_lifecycle dp_lifecycle]; destruct (decide (q = p)) as [->|];
    rewrite ?om_get_remove_eq, ?om_get_insert_eq by done; try congruence; by rewrite ?om_get_remove_ne, ?om_get_insert_ne.
Qed.

Lemma disconnected_actual d p q : om_wf (dp_lifecycle d) -> actual_of (dispatcher_disconnected d p) q = if decide (q = p) then None else actual_of d q.
Proof.
  intros Hwf. unfold dispatcher_disconnected. destruct (om_get p (dp_lifecycle d)) as [s|] eqn:E.
  - cbn [lf_announced lf_clear_paths]. destruct (_ && _).
    + unfold actual_of. cbn [set_lifecycle dp_lifecycle]. destruct (decide (q = p)) as [->|]; [by rewrite om_get_remove_eq|by rewrite om_get_remove_ne].
    + by rewrite (actual_of_insert d _ p _ q eq_refl).
  - destruct (decide (q = p)) as [->|]; [|done]. unfold actual_of. by rewrite E.
Qed.

(** Telling the dispatcher the paths of a connected peer, or being refused. *)
Lemma queue_state_network dr nw p active newly :
  driver_ok dr -> (forall q, q ∈ dr_peers dr <-> q = p \/ is_Some (nw_paths nw !! q)) ->
  (forall q l, ow_table (dr_owners dr) !! q = Some l -> q = p \/ is_Some (nw_paths nw !! q)) ->
  (forall q act l, q <> p -> nw_paths nw !! q = Some act -> ow_table (dr_owners dr) !! q = Some l -> (q ∉ nw_refused nw) ->
     actual_of (dr_delivery dr) q = Some (mkActual l act)) ->
  (forall q, q ∈ nw_refused nw -> actual_of (dr_delivery dr) q = None) ->
  (forall q, ow_table (dr_owners dr) !! q = None -> actual_of (dr_delivery dr) q = None) ->
  (nw_crowded nw = false -> N.of_nat (size (<[p := active]> (nw_paths nw))) <= MAX_CONNECTED_PEER_SNAPSHOT ->
     forall q, q = p \/ is_Some (nw_paths nw !! q) -> is_Some (ow_table (dr_owners dr) !! q)) ->
  (forall q, om_get q (dp_lifecycle (dr_delivery dr)) <> None -> q ∈ nw_known nw) ->
  (N.of_nat (size (nw_known nw)) <= LIFECYCLE -> nw_refused nw = ∅) ->
  network_ok (queue_connection_state dr p active newly) (note_paths nw p active (refuses dr p active newly)).
Proof.
  intros Hok Hpeers Hleases Htold Href Hnone Hroom Hknown Hfull. destruct (queue_state_spec dr p active newly Hok) as (Hok' & Hown & _).
  pose proof (current_table _ p (dk_owners _ Hok)) as Hcur.
  assert (forall q, is_Some (<[p := active]> (nw_paths nw) !! q) <-> q = p \/ is_Some (nw_paths nw !! q)) as Hdom.
  { intros q. destruct (decide (q = p)) as [->|Hne]; [rewrite lookup_insert_eq; split; [by left|by eexists]|].
    rewrite lookup_insert_ne by done. split; [by right|by intros [?|?]]. }
  assert (dr_peers (queue_connection_state dr p active newly) = dr_peers dr) as Hp' by (unfold queue_connection_state; by destruct (current _ _)).
  constructor; cbn [note_paths nw_paths nw_refused nw_crowded nw_known]; rewrite ?Hp', ?Hown.
  - done.
  - intros q. by rewrite Hpeers, Hdom.
  - intros q l Hl. rewrite Hdom. by apply (Hleases q l).
  - intros q act l Hact Hl Hnr. unfold queue_connection_state, refuses in *. rewrite Hcur in *. destruct (ow_table (dr_owners dr) !! p) as [lease|] eqn:Et.
    + pose proof (connected_actual (dr_delivery dr) p lease active newly) as Hc. destruct (dispatcher_connected _ _ _ _ _) as [[|] d']; cbn [fst snd negb dr_delivery] in *.
      * destruct Hc as [Hc _]. rewrite Hc. destruct (decide (q = p)) as [->|Hne].
        -- rewrite lookup_insert_eq in Hact. congruence.
        -- rewrite lookup_insert_ne in Hact by done. apply Htold; [done|done|done|]. set_solver.
      * destruct Hc as [-> _]. assert (q <> p) as Hne by set_solver. rewrite lookup_insert_ne in Hact by done. apply Htold; [done|done|done|]. set_solver.
    + assert (q <> p) as Hne by congruence. rewrite lookup_insert_ne in Hact by done. apply Htold; [done|done|done|]. set_solver.
  - intros q Hq. unfold queue_connection_state, refuses in *. rewrite Hcur in *. destruct (ow_table (dr_owners dr) !! p) as [lease|] eqn:Et.
    + pose proof (connected_actual (dr_delivery dr) p lease active newly) as Hc. destruct (dispatcher_connected _ _ _ _ _) as [[|] d']; cbn [fst snd negb dr_delivery] in *.
      * destruct Hc as [Hc _]. rewrite Hc. destruct (decide (q = p)) as [->|Hne]; [set_solver|]. apply Href. set_solver.
      * destruct Hc as (-> & Hc & _). assert (actual_of (dr_delivery dr) p = None) as Hp0 by (unfold actual_of; by rewrite Hc). apply elem_of_union in Hq as [->%elem_of_singleton|Hq]; [done|by apply Href].
    + apply Href. set_solver.
  - intros q Hq. unfold queue_connection_state in *. rewrite Hcur in *. destruct (ow_table (dr_owners dr) !! p) as [lease|] eqn:Et; [|by apply Hnone].
    pose proof (connected_actual (dr_delivery dr) p lease active newly) as Hc. destruct (dispatcher_connected _ _ _ _ _) as [[|] d']; cbn [fst snd negb dr_delivery] in *.
    + destruct Hc as [Hc _]. rewrite Hc. destruct (decide (q = p)) as [->|Hne]; [congruence|]. by apply Hnone.
    + destruct Hc as [-> _]. by apply Hnone.
  - intros [Hcr Hsz%N.ltb_ge]%orb_false_iff q Hq. apply (Hroom Hcr Hsz). by apply Hdom.
  - intros q Hq. apply elem_of_union. unfold queue_connection_state in Hq. destruct (current (dr_owners dr) p) as [lease|]; [|right; by apply Hknown].
    pose proof (connected_actual (dr_delivery dr) p lease active newly) as Hc. destruct (dispatcher_connected _ _ _ _ _) as [[|] d']; cbn [fst snd dr_delivery] in *.
    + destruct Hc as [_ Hc]. destruct (Hc q Hq) as [->|]; [left; by apply elem_of_singleton|right; by apply Hknown].
    + destruct Hc as [-> _]. right. by apply Hknown.
  - intros Hsz. assert (size (nw_known nw) <= size ({[p]} ∪ nw_known nw))%nat as Hle by (apply subseteq_size; set_solver).
    rewrite (Hfull ltac:(lia)). unfold refuses. destruct (current (dr_owners dr) p) as [lease|]; [|set_solver].
    pose proof (connected_actual (dr_delivery dr) p lease active newly) as Hc. destruct (dispatcher_connected _ _ _ _ _) as [[|] d']; cbn [fst negb] in *; [set_solver|].
    exfalso. destruct Hc as (_ & Hn & Hl). pose proof (do_wf _ _ (dk_delivery _ Hok)) as Hwf.
    assert (length (p :: om_keys (dp_lifecycle (dr_delivery dr))) <= size ({[p]} ∪ nw_known nw))%nat as Hlen.
    { rewrite <- (size_list_to_set (C:=gset N)).
      - apply subseteq_size. intros q. rewrite elem_of_list_to_set, elem_of_cons, elem_of_union, elem_of_singleton. intros [->|Hq]; [by left|right].
        apply Hknown. by apply om_get_keys.
      - apply NoDup_cons. split; [|by apply om_keys_NoDup]. intros Hq. by apply (om_get_keys p _ Hwf) in Hq. }
    cbn [length] in Hlen. unfold om_keys in Hlen. rewrite length_fmap in Hlen. unfold len in Hl. lia.
Qed.

Lemma established_network dr nw p active path :
  network_ok dr nw -> network_ok (on_established dr p active path) (note_paths nw p active (refuses (with_lease dr p) p active (Some path))).
Proof.
  intros [Hok N1 N2 N3 N4 N5 N6 N7 N8]. pose proof Hok as [Ho Hd]. change (on_established dr p active path) with (queue_connection_state (with_lease dr p) p active (Some path)).
  set (owners := if bool_decide (p ∈ dr_peers dr) then dr_owners dr else owners_connected (dr_owners dr) p).
  assert (forall q, q <> p -> ow_table owners !! q = ow_table (dr_owners dr) !! q) as Hother.
  { intros q Hne. unfold owners. case_bool_decide; [done|]. unfold owners_connected. destruct (_ <? _); [|done].
    destruct (ow_table (dr_owners dr) !! p); [done|]. cbn. by rewrite lookup_insert_ne. }
  assert (ow_table (dr_owners dr) !! p = None -> actual_of (dr_delivery dr) p = None) as Hp0 by apply N5.
  apply queue_state_network; cbn [with_lease dr_peers dr_owners dr_delivery]; fold owners.
  - constructor; cbn [with_lease dr_owners dr_delivery]; destruct (bool_decide (p ∈ dr_peers dr)); [done|by apply owners_connected_ok|done|].
    apply (delivery_ok_owners (dr_owners dr)); [done|apply owners_connected_later|]. intros q l Hq _. by apply established_table.
  - intros q. rewrite elem_of_union, elem_of_singleton. by rewrite N1.
  - intros q l Hq. destruct (decide (q = p)) as [->|Hne]; [by left|right]. rewrite Hother in Hq by done. by apply (N2 q l).
  - intros q act l Hne Hact Hl Hnr. rewrite Hother in Hl by done. by apply N3.
  - done.
  - intros q Hq. apply N5. destruct (decide (q = p)) as [->|Hne]; [|by rewrite <- Hother].
    unfold owners in Hq. destruct (bool_decide (p ∈ dr_peers dr)); [done|]. destruct (ow_table (dr_owners dr) !! p) as [l|] eqn:E; [|done].
    by rewrite (established_table (dr_owners dr) p p l E) in Hq.
  - intros Hcr Hsz q [->|Hq].
    + unfold owners. case_bool_decide as Hin; [by apply (N6 Hcr), N1|].
      assert (nw_paths nw !! p = None) as Hnp by (apply eq_None_not_Some; by rewrite <- N1).
      rewrite map_size_insert_None in Hsz by done. unfold owners_connected.
      assert (size (ow_table (dr_owners dr)) <= size (nw_paths nw))%nat as Hle.
      { rewrite <- !size_dom. apply subseteq_size. intros x [l Hl]%elem_of_dom. apply elem_of_dom. by apply (N2 x l). }
      rewrite (proj2 (N.ltb_lt _ _)) by lia. destruct (ow_table (dr_owners dr) !! p) eqn:E; [by rewrite E|]. cbn. by rewrite lookup_insert_eq.
    + destruct (decide (q = p)) as [->|Hne]; [|rewrite Hother by done; by apply (N6 Hcr)].
      unfold owners. rewrite bool_decide_eq_true_2 by (by apply N1). by apply (N6 Hcr).
  - done.
  - done.
Qed.

Lemma paths_network dr nw p num old active :
  network_ok dr nw -> num <> 0 -> nw_paths nw !! p = Some old ->
  network_ok (on_closed dr p num (negb (bool_decide (old = active))) active)
    (if bool_decide (old = active) then nw else note_paths nw p active (refuses dr p active None)).
Proof.
  intros Hnw Hnum Hp. unfold on_closed. rewrite (proj2 (N.eqb_neq _ _)) by done. case_bool_decide as E; cbn [negb]; [done|].
  destruct Hnw as [Hok N1 N2 N3 N4 N5 N6 N7 N8].
  assert (forall q, q = p \/ is_Some (nw_paths nw !! q) -> is_Some (nw_paths nw !! q)) as Hdom by (intros q [->|?]; [by exists old|done]).
  apply queue_state_network; [done| | |by auto|done|done| |done|done].
  - intros q. rewrite N1. split; [by right|apply Hdom].
  - intros q l Hl. right. by apply (N2 q l).
  - intros Hcr _ q Hq. by apply (N6 Hcr), Hdom.
Qed.

Lemma gone_network dr nw p changed active : network_ok dr nw -> network_ok (on_closed dr p 0 changed active) (note_gone nw p).
Proof.
  intros [Hok N1 N2 N3 N4 N5 N6 N7 N8]. destruct (closed_spec dr p 0 changed active Hok) as (Hok' & _ & _). pose proof Hok as [Ho Hd].
  assert (forall q, ow_table (owners_disconnected (dr_owners dr) p) !! q = if decide (q = p) then None else ow_table (dr_owners dr) !! q) as Htab.
  { intros q. unfold owners_disconnected. destruct (ow_table (dr_owners dr) !! p) as [l|] eqn:E; cbn [ow_table].
    - destruct (decide (q = p)) as [->|]; [by rewrite lookup_delete_eq|by rewrite lookup_delete_ne].
    - by destruct (decide (q = p)) as [->|]. }
  assert (forall q, is_Some (delete p (nw_paths nw) !! q) <-> q <> p /\ is_Some (nw_paths nw !! q)) as Hdom.
  { intros q. destruct (decide (q = p)) as [->|]; [rewrite lookup_delete_eq; split; [by intros [? ?]|by intros []]|]. rewrite lookup_delete_ne by done. tauto. }
  pose proof (fun q => disconnected_actual (dr_delivery dr) p q (do_wf _ _ Hd)) as Hact.
  constructor; [done|..]; cbn [on_closed N.eqb note_gone dr_peers dr_owners dr_delivery nw_paths nw_refused nw_crowded nw_known].
  - intros q. rewrite Hdom, <- N1, elem_of_difference, elem_of_singleton. tauto.
  - intros q l. rewrite Htab, Hdom. destruct (decide (q = p)); [done|]. intros Hl. split; [done|by apply (N2 q l)].
  - intros q act l Hq Hl Hnr. rewrite Htab in Hl. rewrite Hact. destruct (decide (q = p)) as [->|Hne]; [done|].
    rewrite lookup_delete_ne in Hq by done. apply N3; [done|done|]. set_solver.
  - intros q Hq. rewrite Hact. destruct (decide (q = p)); [done|]. apply N4. set_solver.
  - intros q Hq. rewrite Hact. rewrite Htab in Hq. destruct (decide (q = p)); [done|]. by apply N5.
  - intros Hcr q [Hne Hq]%Hdom. rewrite Htab. destruct (decide (q = p)); [done|]. by apply (N6 Hcr).
  - intros q Hq. apply N7. by apply (disconnected_keys _ p q (do_wf _ _ Hd)).
  - intros Hsz. rewrite (N8 Hsz). set_solver.
Qed.

(** What leaves peers, leases and told connections alone leaves the network told. *)
Lemma same_network dr dr' nw :
  network_ok dr nw -> driver_ok dr' -> dr_peers dr' = dr_peers dr -> dr_owners dr' = dr_owners dr ->
  (forall q, actual_of (dr_delivery dr') q = actual_of (dr_delivery dr) q) ->
  (forall q, om_get q (dp_lifecycle (dr_delivery dr)) = None -> om_get q (dp_lifecycle (dr_delivery dr')) = None) -> network_ok dr' nw.
Proof.
  intros [Hok N1 N2 N3 N4 N5 N6 N7 N8] Hok' Ep Eo Ea Ek. constructor; rewrite ?Ep, ?Eo; try done; try (setoid_rewrite Ea; done).
  intros q Hq. apply N7. intros Hn. by apply Hq, Ek.
Qed.

Lemma network_step_ok x y : network_step x y -> network_ok x.1 x.2 -> network_ok y.1 y.2 /\ driver_move x.1 y.1.
Proof.
  intros Hs Hnw. destruct Hs as [dr nw p active path|dr nw p num old active Hnum Hp|dr nw p changed active|dr nw c data credit|dr nw c data credit|dr nw e dr' Hpm]; cbn [fst snd] in *.
  - split; [by apply established_network|]. eexists. apply ds_established.
  - split; [by apply paths_network|]. eexists. apply ds_closed.
  - split; [by apply gone_network|]. eexists. apply ds_closed.
  - assert (driver_step dr None (on_gossip dr c data credit)) as Hst by constructor. split; [|by eexists].
    destruct (driver_step_spec _ _ _ (no_driver _ _ Hnw) Hst) as (Hok & _). apply (same_network dr); [done|done|..]; unfold on_gossip;
      destruct (current _ c) as [l|], credit; try done; intros q; unfold queue; by destruct (_ || _ || _).
  - assert (driver_step dr None (on_request dr c data credit)) as Hst by constructor. split; [|by eexists].
    destruct (driver_step_spec _ _ _ (no_driver _ _ Hnw) Hst) as (Hok & _). apply (same_network dr); [done|done|..]; unfold on_request;
      destruct (current _ c) as [l|], credit; try done; intros q; unfold queue; by destruct (_ || _ || _).
  - split; [|exists e; by constructor]. pose proof (no_driver _ _ Hnw) as Hok. destruct (driver_step_spec _ _ _ Hok (ds_permit _ _ _ Hpm)) as (Hok' & _).
    destruct Hok as [Ho Hd]. destruct (next_spec (dr_owners dr) (dr_delivery dr) Ho Hd) as (e' & d' & Hn & Hact & Hkeys & _).
    unfold on_permit in Hpm. rewrite Hn in Hpm. cbn in Hpm. injection Hpm as <- <-. by apply (same_network dr).
Qed.

Lemma network_new_ok : network_ok Driver_new Network_new.
Proof.
  constructor; [apply driver_new_ok|..]; cbn [Driver_new Network_new dr_peers dr_owners dr_delivery nw_paths nw_refused nw_crowded ow_table].
  - intros q. rewrite lookup_empty. split; [set_solver|by intros [? ?]].
  - intros q l Hl. by rewrite lookup_empty in Hl.
  - intros q act l Hq. by rewrite lookup_empty in Hq.
  - intros q Hq. set_solver.
  - done.
  - intros _ q [act Hq]. by rewrite lookup_empty in Hq.
  - done.
  - done.
Qed.

Lemma network_run_ok dr nw : network_run dr nw -> network_ok dr nw /\ reachable dr.
Proof.
  intros Hr. assert (forall x y, rtc network_step x y -> network_ok x.1 x.2 -> reachable x.1 -> network_ok y.1 y.2 /\ reachable y.1) as H.
  { clear. intros x y Hr. induction Hr as [x|x y z Hs _ IH]; [done|]. intros Hx Hre. destruct (network_step_ok x y Hs Hx) as [Hy Hm].
    apply IH; [done|]. eapply rtc_r; [exact Hre|exact Hm]. }
  apply (H _ _ Hr); [apply network_new_ok|apply rtc_refl].
Qed.

(** C39: the stream catches up with the network. From any state the running driver
    reaches, with the network at rest, at most 2689 permits empty the
    dispatcher: every queued payload whose connection stands is delivered, in
    order; a loss of gossip is reported within three events; and in the end the
    application knows, of every peer really connected that holds a lease and
    whose connection is not being closed for want of room, exactly that lease
    and the paths the peer really has, and of every other peer nothing. Every
    connected peer holds a lease unless more than 320 were connected at once, and
    no connection is refused while at most 640 peers have ever been connected. *)
Theorem drain_converges dr nw :
  network_run dr nw -> let h := dr_heap dr in let d := dr_delivery dr in
  exists es d', drain 2690 h d = Some (es, d') /\ len es <= 2689 /\ has_pending h d' = false /\
    (pe_event <$> live_payloads h d) `sublist_of` es /\
    (dp_lost_gossip d = true -> exists few d3, drain 3 h d = Some (few, d3) /\ RecoveryNeeded ∈ few) /\
    (forall p, seen d' p = match nw_paths nw !! p, current (dr_owners dr) p with
                           | Some active, Some lease => if decide (p ∈ nw_refused nw) then Absent else Ready lease active
                           | _, _ => Absent
                           end) /\
    (nw_crowded nw = false -> forall p, is_Some (nw_paths nw !! p) -> is_Some (current (dr_owners dr) p)) /\
    (N.of_nat (size (nw_known nw)) <= LIFECYCLE -> nw_refused nw = ∅).
Proof.
  intros [[[Ho Hd] N1 N2 N3 N4 N5 N6 N7 N8] _]%network_run_ok h d. pose proof (backlog_bound _ _ Hd) as Hb. change (4 * LIFECYCLE + 2 * QUEUED + 1) with 2689 in Hb.
  destruct (drain_spec (dr_owners dr) 2690 d Ho Hd) as (es & d' & E1 & E2 & E3 & E4 & E5 & _). destruct E5 as [E5 E6]; [fold d in Hb; lia|].
  exists es, d'. split; [exact E1|]. split; [fold d in Hb; lia|]. split; [done|]. split; [done|]. split; [|split; [|split; [|done]]].
  - intros Hl. destruct (drain_spec (dr_owners dr) 3 d Ho Hd) as (few & d3 & F1 & _ & _ & _ & _ & F5). exists few, d3. split; [exact F1|]. apply F5; [done|lia].
  - intros p. rewrite (current_table _ p Ho), (drained_view (dr_owners dr) d' p E2 E5), E3. unfold d.
    destruct (nw_paths nw !! p) as [active|] eqn:Ep.
    + destruct (ow_table (dr_owners dr) !! p) as [lease|] eqn:Et; [|by rewrite (N5 p Et)].
      destruct (decide (p ∈ nw_refused nw)) as [Hr|Hr]; [by rewrite (N4 p Hr)|]. rewrite (N3 p active lease Ep Et Hr). cbn [ac_lease ac_active].
      rewrite (base_live _ _ Ho), (proj2 (oo_live _ Ho lease)); [done|by exists p].
    + rewrite (N5 p); [done|]. apply eq_None_not_Some. intros [l Hl]. destruct (N2 p l Hl) as [act Hact]. congruence.
  - intros Hcr p Hp. rewrite (current_table _ p Ho). by apply (N6 Hcr).
Qed.
End driver.

(** A lease that depends on two others ends with the first of the three to end. *)
Lemma dependent_ends h a b l h' x :
  dependent h a b = Some (l, h') -> (a < length h)%nat -> (b < length h)%nat ->
  is_live h' l = own_live h a && own_live h b /\ (x = a \/ x = b \/ x = l -> is_live (lease_revoke h' x) l = false).
Proof.
  unfold dependent. destruct (h !! a ≫= ls_parents); [done|]. destruct (h !! b ≫= ls_parents); [done|]. intros [= <- <-] Ha Hb.
  assert ((h ++ [mkLeaseState true (Some (a, b))]) !! length h = Some (mkLeaseState true (Some (a, b)))) as Hl by by apply list_lookup_middle.
  split.
  - unfold is_live. rewrite Hl. cbn [mbind option_bind ls_parents]. rewrite !own_live_app, (proj2 (Nat.ltb_lt _ _) Ha), (proj2 (Nat.ltb_lt _ _) Hb).
    rewrite Nat.ltb_irrefl, Nat.sub_diag. done.
  - intros Hx. unfold is_live. rewrite (hl_parents _ _ (revoke_later _ _)) by (rewrite length_app; cbn; lia). rewrite Hl. cbn [mbind option_bind ls_parents].
    rewrite !own_live_revoke. assert (bool_decide (x = x) = true) as Hxx by by apply bool_decide_eq_true_2.
    destruct Hx as [E|[E|E]]; rewrite <- E, Hxx; cbn [negb]; by rewrite ?andb_false_r, ?andb_false_l, ?andb_false_r.
Qed.

(** * The theorems at work *)

Definition toy_driver : Driver (Path:=N) (Data:=N) := on_request (on_established Driver_new 1 [7] 7) 1 42 true.

Lemma toy_driver_reachable : reachable toy_driver.
Proof.
  eapply rtc_l; [exists None; apply (ds_established Driver_new 1 [7] 7)|]. eapply rtc_l; [exists None; apply (ds_request _ 1 42 true)|]. apply rtc_refl.
Qed.

Definition toy_connected : Driver (Path:=N) (Data:=N) := match on_permit toy_driver with Some (_, dr) => dr | None => toy_driver end.

Lemma toy_announced : on_permit toy_driver = Some (Some (PeerConnected 1), toy_connected).
Proof. vm_compute. reflexivity. Qed.

(** Announced, its path, its request; then the end of it. *)
Lemma toy_stream :
  fst <$> drain 9 (dr_heap toy_driver) (dr_delivery toy_driver) = Some [PeerConnected 1; PeerPathsChanged 1 [7] (Some 7); Request 42] /\
  fst <$> drain 9 (dr_heap (on_closed toy_connected 1 0 true [])) (dr_delivery (on_closed toy_connected 1 0 true [])) = Some [PeerDisconnected 1; PeerPathsChanged 1 [] None].
Proof. vm_compute. auto. Qed.

Lemma reconnect_is_fresh_witness : is_live (dr_heap (on_established (on_closed toy_driver 1 0 true []) 1 [8] 8)) 0%nat = false.
Proof.
  apply (reconnect_is_fresh toy_driver 1 0%nat true [] 8 (on_established (on_closed toy_driver 1 0 true []) 1 [8] 8) toy_driver_reachable).
  - vm_compute. reflexivity.
  - apply (bool_decide_unpack _). vm_compute. reflexivity.
  - eapply rtc_l; [exists None; apply (ds_established _ 1 [8] 8)|apply rtc_refl].
Defined.

Lemma stream_refines_witness :
  stream_step (dr_heap toy_driver) (dp_payloads (dr_delivery toy_driver)) (seen (dr_delivery toy_driver)) (PeerConnected 1) (seen (dr_delivery toy_connected)).
Proof. exact (proj2 (stream_refines toy_driver (Some (PeerConnected 1)) toy_connected toy_driver_reachable (ds_permit _ _ _ toy_announced))). Defined.

(** Peer 1 with its request still queued, and what the network has. *)
Definition toy_network : Network (Path:=N) :=
  note_paths Network_new 1 [7] (refuses (with_lease (Driver_new (Path:=N) (Data:=N)) 1) 1 [7] (Some 7)).

Lemma toy_network_run : network_run toy_driver toy_network.
Proof.
  eapply rtc_l; [apply (ns_established Driver_new Network_new 1 [7] 7)|]. eapply rtc_l; [apply (ns_request _ _ 1 42 true)|]. apply rtc_refl.
Qed.

Lemma drain_converges_witness :
  exists es d', drain 2690 (dr_heap toy_driver) (dr_delivery toy_driver) = Some (es, d') /\ has_pending (dr_heap toy_driver) d' = false /\
    seen d' 1 = Ready 0%nat [7] /\ seen d' 2 = Absent.
Proof.
  destruct (drain_converges toy_driver toy_network toy_network_run) as (es & d' & H1 & _ & H2 & _ & _ & H3 & _). exists es, d'.
  split; [exact H1|]. split; [exact H2|]. split; [rewrite (H3 1)|rewrite (H3 2)]; vm_compute; reflexivity.
Defined.
