(* ===== verification/Credits.v ===== *)
(** The delivery budget of [crates/catcoms-net/src/event_dispatch.rs]: one pool for
    the process and one count per server driver, charged before anything is
    delivered to the application and released when the last owner of the bytes
    goes ([Budget::charge], [ResponseBudget::retain], [Drop for Credit]).

    Charging and releasing hold both locks, so they are atomic steps. A credit is
    shared by reference counting; what counts is when it is made and when its
    last owner drops it. A counter that would go below zero, or a peer that is
    not counted, is a panic. *)

From S2P Require Import Prelude.
From stdpp Require Import base list gmap relations.
Local Open Scope N_scope.

Definition DRIVER_BYTES : N := 64 * 1024 * 1024.
Definition PROCESS_BYTES : N := 128 * 1024 * 1024.
Definition DRIVER_RECORDS : N := 320.
Definition PROCESS_RECORDS : N := 1024.
Definition DRIVER_REQUESTS : N := 16.
Definition PROCESS_REQUESTS : N := 64.
Definition OVERHEAD : N := 1024.
(** [MAX_REQUEST_RESPONSE_FRAME_BYTES] *)
Definition MAX_FRAME : N := 16 * 1024 * 1024.

Inductive RequestClass : Type := Ordinary | Maintenance.

#[export] Instance RequestClass_eq_dec : EqDecision RequestClass.
Proof. solve_decision. Defined.

Definition for_kind (kind : option N) : RequestClass :=
  match kind with
  | Some 2 | Some 4 | Some 12 | Some 26 => Maintenance
  | _ => Ordinary
  end.

Definition class_limit (c : RequestClass) : N := match c with Ordinary => 2 | Maintenance => 1 end.

(** [[usize; 2]], by class *)
Record PeerCounts := mkPeerCounts { pc_ordinary : N; pc_maintenance : N }.

#[export] Instance PeerCounts_eq_dec : EqDecision PeerCounts.
Proof. solve_decision. Defined.

Definition at_class (n : PeerCounts) (c : RequestClass) : N := match c with Ordinary => pc_ordinary n | Maintenance => pc_maintenance n end.

Definition set_class (n : PeerCounts) (c : RequestClass) (v : N) : PeerCounts :=
  match c with
  | Ordinary => mkPeerCounts v (pc_maintenance n)
  | Maintenance => mkPeerCounts (pc_ordinary n) v
  end.

Record Counts := mkCounts { cn_bytes : N; cn_records : N; cn_requests : N; cn_peers : gmap N PeerCounts }.

Definition Counts_default : Counts := mkCounts 0 0 0 ∅.

(** the driver it was charged to, and what it holds *)
Record Credit := mkCredit { cr_driver : nat; cr_bytes : N; cr_peer : option (N * RequestClass) }.

Definition class_count (n : Counts) (peer : N) (c : RequestClass) : N := match cn_peers n !! peer with Some k => at_class k c | None => 0 end.

(** [Budget::charge]: the bytes charged and the counts after *)
Definition charge_counts (process driver : Counts) (bytes : N) (peer : option (N * RequestClass)) : option (N * Counts * Counts) :=
  bytes ← checked_add usize_max bytes OVERHEAD;
  if (DRIVER_BYTES <? bytes)
     || (PROCESS_BYTES - bytes <? cn_bytes process)
     || (DRIVER_BYTES - bytes <? cn_bytes driver)
     || (DRIVER_RECORDS <=? cn_records driver)
     || (PROCESS_RECORDS <=? cn_records process)
     || match peer with
        | Some (peer, class) =>
            (DRIVER_REQUESTS <=? cn_requests driver) || (PROCESS_REQUESTS <=? cn_requests process)
            || (class_limit class <=? class_count driver peer class)
        | None => false
        end
  then None
  else
    let requests n := match peer with Some _ => cn_requests n + 1 | None => cn_requests n end in
    let peers := match peer with
                 | Some (p, class) =>
                     let n := default (mkPeerCounts 0 0) (cn_peers driver !! p) in
                     <[p := set_class n class (at_class n class + 1)]> (cn_peers driver)
                 | None => cn_peers driver
                 end in
    Some (bytes, mkCounts (cn_bytes process + bytes) (cn_records process + 1) (requests process) (cn_peers process),
                 mkCounts (cn_bytes driver + bytes) (cn_records driver + 1) (requests driver) peers).

(** [a -= b] on [usize] *)
Definition minus (a b : N) : option N := if a <? b then None else Some (a - b).

Definition release_peer (peers : gmap N PeerCounts) (p : N) (class : RequestClass) : option (gmap N PeerCounts) :=
  n ← peers !! p;
  rest ← minus (at_class n class) 1;
  let n := set_class n class rest in
  Some (if bool_decide (n = mkPeerCounts 0 0) then delete p peers else <[p := n]> peers).

(** [Drop for Credit] *)
Definition release_counts (process driver : Counts) (credit : Credit) : option (Counts * Counts) :=
  pb ← minus (cn_bytes process) (cr_bytes credit);
  db ← minus (cn_bytes driver) (cr_bytes credit);
  pr ← minus (cn_records process) 1;
  dr ← minus (cn_records driver) 1;
  match cr_peer credit with
  | None => Some (mkCounts pb pr (cn_requests process) (cn_peers process), mkCounts db dr (cn_requests driver) (cn_peers driver))
  | Some (p, class) =>
      pq ← minus (cn_requests process) 1;
      dq ← minus (cn_requests driver) 1;
      peers ← release_peer (cn_peers driver) p class;
      Some (mkCounts pb pr pq (cn_peers process), mkCounts db dr dq peers)
  end.

(** * Many drivers, one process *)

(** the pool, the drivers' counts, and the credits somebody still holds *)
Record Process := mkProcess { ps_pool : Counts; ps_drivers : list Counts; ps_held : list Credit }.

Definition Process_new : Process := mkProcess Counts_default [] [].

(** [Budget::shared] *)
Definition new_driver (w : Process) : Process := mkProcess (ps_pool w) (ps_drivers w ++ [Counts_default]) (ps_held w).

Definition charge_driver (w : Process) (i : nat) (bytes : N) (peer : option (N * RequestClass)) : option Process :=
  driver ← ps_drivers w !! i;
  '(charged, pool, driver) ← charge_counts (ps_pool w) driver bytes peer;
  Some (mkProcess pool (<[i := driver]> (ps_drivers w)) (mkCredit i charged peer :: ps_held w)).

Definition charge_request (w : Process) (i : nat) (bytes peer : N) (kind : option N) : option Process :=
  charge_driver w i bytes (Some (peer, for_kind kind)).

(** [ResponseBudget::retain]; [None] is [NoResponse] *)
Definition retain (w : Process) (i : nat) (bytes : N) : option Process :=
  if MAX_FRAME <? bytes then None
  else if usize_max <? bytes * 2 then None
  else charge_driver w i (bytes * 2) None.

(** The last owner of the [k]-th credit goes; [None] is a panic. *)
Definition drop_credit (w : Process) (k : nat) : option Process :=
  credit ← ps_held w !! k;
  driver ← ps_drivers w !! cr_driver credit;
  '(pool, driver) ← release_counts (ps_pool w) driver credit;
  Some (mkProcess pool (<[cr_driver credit := driver]> (ps_drivers w)) (delete k (ps_held w))).

(** * What the counts mean *)

Definition is_request (x : Credit) : bool := match cr_peer x with Some _ => true | None => false end.
Definition of_class (p : N) (c : RequestClass) (x : Credit) : bool := bool_decide (cr_peer x = Some (p, c)).
Definition own (i : nat) (held : list Credit) : list Credit := List.filter (fun x => (cr_driver x =? i)%nat) held.
Definition requests (held : list Credit) : N := len (List.filter is_request held).
Definition class_of (p : N) (c : RequestClass) (held : list Credit) : N := len (List.filter (of_class p c) held).

Record counted (n : Counts) (held : list Credit) : Prop := mkCounted {
  ct_bytes : cn_bytes n = sum_of cr_bytes held;
  ct_records : cn_records n = len held;
  ct_requests : cn_requests n = requests held
}.

(** a peer is in the map exactly while it holds something *)
Definition peer_entry (p : N) (held : list Credit) : option PeerCounts :=
  let n := mkPeerCounts (class_of p Ordinary held) (class_of p Maintenance held) in
  if bool_decide (n = mkPeerCounts 0 0) then None else Some n.

Definition peers_counted (m : gmap N PeerCounts) (held : list Credit) : Prop := forall p, m !! p = peer_entry p held.

Lemma counted_perm n l k : l ≡ₚ k -> counted n l -> counted n k.
Proof.
  intros Hp [H1 H2 H3]. constructor.
  - by rewrite H1, (sum_of_perm _ _ _ Hp).
  - rewrite H2. unfold len. by rewrite (Permutation_length Hp).
  - rewrite H3. unfold requests, len. by rewrite (Permutation_length (List_filter_perm is_request _ _ Hp)).
Qed.

Lemma peers_counted_perm m l k : l ≡ₚ k -> peers_counted m l -> peers_counted m k.
Proof.
  intros Hp H p. rewrite H. unfold peer_entry, class_of, len.
  by rewrite (Permutation_length (List_filter_perm (of_class p Ordinary) _ _ Hp)), (Permutation_length (List_filter_perm (of_class p Maintenance) _ _ Hp)).
Qed.

Lemma requests_cons x held : requests (x :: held) = N.b2n (is_request x) + requests held.
Proof. unfold requests. cbn [List.filter]. destruct (is_request x); unfold len; cbn [length N.b2n]; lia. Qed.

Lemma class_of_cons p c x held : class_of p c (x :: held) = N.b2n (of_class p c x) + class_of p c held.
Proof. unfold class_of. cbn [List.filter]. destruct (of_class p c x); unfold len; cbn [length N.b2n]; lia. Qed.

Lemma class_count_of m held n p c : peers_counted m held -> cn_peers n = m -> class_count n p c = class_of p c held.
Proof.
  intros Hm Hn. unfold class_count. rewrite Hn, Hm. unfold peer_entry. case_bool_decide as E; [|by destruct c].
  injection E as E1 E2. by destruct c.
Qed.

Lemma peer_entry_other p x held : (forall c, cr_peer x <> Some (p, c)) -> peer_entry p (x :: held) = peer_entry p held.
Proof.
  intros Hx. unfold peer_entry. rewrite !class_of_cons. unfold of_class.
  rewrite (bool_decide_eq_false_2 (cr_peer x = Some (p, Ordinary))), (bool_decide_eq_false_2 (cr_peer x = Some (p, Maintenance))) by apply Hx. done.
Qed.

Lemma peer_entry_same p c x held : cr_peer x = Some (p, c) ->
  peer_entry p (x :: held) = Some (let n := mkPeerCounts (class_of p Ordinary held) (class_of p Maintenance held) in set_class n c (at_class n c + 1)).
Proof.
  intros Hx. unfold peer_entry. rewrite !class_of_cons. unfold of_class. rewrite Hx. destruct c.
  - rewrite (bool_decide_eq_true_2 (Some (p, Ordinary) = Some (p, Ordinary))), (bool_decide_eq_false_2 (Some (p, Ordinary) = Some (p, Maintenance))) by done. cbn [N.b2n].
    rewrite bool_decide_eq_false_2 by (intros [= E _]; lia). cbn. f_equal. f_equal; lia.
  - rewrite (bool_decide_eq_true_2 (Some (p, Maintenance) = Some (p, Maintenance))), (bool_decide_eq_false_2 (Some (p, Maintenance) = Some (p, Ordinary))) by done. cbn [N.b2n].
    rewrite bool_decide_eq_false_2 by (intros [= _ E]; lia). cbn. f_equal. f_equal; lia.
Qed.

Lemma peers_counted_insert m held p c x : peers_counted m held -> cr_peer x = Some (p, c) ->
  let n := default (mkPeerCounts 0 0) (m !! p) in peers_counted (<[p := set_class n c (at_class n c + 1)]> m) (x :: held).
Proof.
  intros Hm Hx n q. destruct (decide (q = p)) as [->|Hne].
  - rewrite lookup_insert_eq, (peer_entry_same p c x held Hx). unfold n. rewrite Hm. unfold peer_entry. cbv zeta. case_bool_decide as E; [|done]. cbn [default]. by rewrite E.
  - rewrite lookup_insert_ne by done. rewrite peer_entry_other; [done|]. intros c'. rewrite Hx. congruence.
Qed.

Lemma release_peer_counted m held p c x : peers_counted m (x :: held) -> cr_peer x = Some (p, c) ->
  exists m', release_peer m p c = Some m' /\ peers_counted m' held.
Proof.
  intros Hm Hx. unfold release_peer. rewrite Hm, (peer_entry_same p c x held Hx). cbn [mbind option_bind].
  set (n := mkPeerCounts (class_of p Ordinary held) (class_of p Maintenance held)).
  assert (at_class (set_class n c (at_class n c + 1)) c = at_class n c + 1) as -> by by destruct c.
  unfold minus. destruct (N.ltb_spec (at_class n c + 1) 1); [lia|]. rewrite N.add_sub. cbn [mbind option_bind].
  assert (set_class (set_class n c (at_class n c + 1)) c (at_class n c) = n) as -> by by destruct c.
  eexists. split; [reflexivity|]. intros q. destruct (decide (q = p)) as [->|Hne].
  - unfold peer_entry. fold n. cbv zeta. case_bool_decide; [by rewrite lookup_delete_eq|by rewrite lookup_insert_eq].
  - rewrite <- (peer_entry_other q x held) by (intros c'; rewrite Hx; congruence). rewrite <- Hm. case_bool_decide; [by rewrite lookup_delete_ne|by rewrite lookup_insert_ne].
Qed.

(** * The process invariant *)

Record credit_within (bytes records reqs : N) (held : list Credit) : Prop := mkWithin {
  wi_bytes : sum_of cr_bytes held <= bytes;
  wi_records : len held <= records;
  wi_requests : requests held <= reqs
}.

Definition pool_within : list Credit -> Prop := credit_within PROCESS_BYTES PROCESS_RECORDS PROCESS_REQUESTS.
Definition driver_within : list Credit -> Prop := credit_within DRIVER_BYTES DRIVER_RECORDS DRIVER_REQUESTS.

Record process_ok (w : Process) : Prop := mkProcessOk {
  po_pool : counted (ps_pool w) (ps_held w) /\ cn_peers (ps_pool w) = ∅ /\ pool_within (ps_held w);
  po_driver : forall i n, ps_drivers w !! i = Some n ->
    counted n (own i (ps_held w)) /\ peers_counted (cn_peers n) (own i (ps_held w)) /\ driver_within (own i (ps_held w)) /\
    forall p c, class_of p c (own i (ps_held w)) <= class_limit c;
  po_held : Forall (fun x => (cr_driver x < length (ps_drivers w))%nat) (ps_held w)
}.

Lemma own_cons i x held : own i (x :: held) = if (cr_driver x =? i)%nat then x :: own i held else own i held.
Proof. done. Qed.

Lemma within_sub b r q l k x : l ≡ₚ x :: k -> credit_within b r q l -> credit_within b r q k.
Proof.
  intros Hp [H1 H2 H3]. pose proof (sum_of_perm cr_bytes _ _ Hp) as E1. cbn [sum_of] in E1. apply List_filter_perm with (f := is_request) in Hp as E3.
  apply Permutation_length in E3. fold (requests l) in *. pose proof (Permutation_length Hp) as E2. cbn [length] in E2.
  constructor; [lia|unfold len in *; lia|]. unfold requests, len in *. cbn [List.filter] in E3. destruct (is_request x); cbn [length] in E3; lia.
Qed.

(** When a charge is admitted, in terms of what is held. *)
Definition admissible (held mine : list Credit) (bytes : N) (peer : option (N * RequestClass)) : Prop :=
  bytes + OVERHEAD <= DRIVER_BYTES /\ sum_of cr_bytes held + (bytes + OVERHEAD) <= PROCESS_BYTES /\
  sum_of cr_bytes mine + (bytes + OVERHEAD) <= DRIVER_BYTES /\ len mine < DRIVER_RECORDS /\ len held < PROCESS_RECORDS /\
  match peer with
  | Some (p, c) => requests mine < DRIVER_REQUESTS /\ requests held < PROCESS_REQUESTS /\ class_of p c mine < class_limit c
  | None => True
  end.

Lemma charge_counts_spec pool n held mine bytes peer :
  counted pool held -> counted n mine -> peers_counted (cn_peers n) mine ->
  match charge_counts pool n bytes peer with
  | Some (charged, pool', n') => admissible held mine bytes peer /\ charged = bytes + OVERHEAD /\ cn_peers pool' = cn_peers pool /\
      forall i, let x := mkCredit i charged peer in counted pool' (x :: held) /\ counted n' (x :: mine) /\ peers_counted (cn_peers n') (x :: mine)
  | None => ~ admissible held mine bytes peer
  end.
Proof.
  intros [P1 P2 P3] [N1 N2 N3] Hp. unfold charge_counts. rewrite P1, P2, P3, N1, N2, N3.
  unfold checked_add. destruct (N.leb_spec (bytes + OVERHEAD) usize_max) as [Hu|Hu]; cbn [mbind option_bind].
  2:{ unfold admissible. intros [H _]. unfold DRIVER_BYTES, usize_max, u64_max in *. lia. }
  set (refused := _ || _ || _ || _ || _ || _).
  assert (refused = false <-> admissible held mine bytes peer) as Href.
  { unfold refused, admissible. rewrite !orb_false_iff, !N.ltb_ge, !N.leb_gt. destruct peer as [[p c]|].
    - rewrite !orb_false_iff, !N.leb_gt, (class_count_of (cn_peers n) mine n p c Hp eq_refl). unfold DRIVER_BYTES, PROCESS_BYTES in *. lia.
    - unfold DRIVER_BYTES, PROCESS_BYTES in *. intuition lia. }
  destruct refused; [by intros H%Href|]. split; [by apply Href|]. split; [done|]. split; [done|].
  intros i. set (x := mkCredit i (bytes + OVERHEAD) peer).
  assert (forall held, requests (x :: held) = match peer with Some _ => requests held + 1 | None => requests held end) as Hr.
  { intros l. rewrite requests_cons. unfold x, is_request. cbn [cr_peer]. destruct peer; cbn [N.b2n]; lia. }
  split; [|split].
  - constructor; cbn [cn_bytes cn_records cn_requests sum_of]; [unfold x; cbn [cr_bytes]; lia|unfold len; cbn [length]; lia|by rewrite Hr].
  - constructor; cbn [cn_bytes cn_records cn_requests sum_of]; [unfold x; cbn [cr_bytes]; lia|unfold len; cbn [length]; lia|by rewrite Hr].
  - cbn [cn_peers]. destruct peer as [[p c]|]; [by apply peers_counted_insert|]. intros q. rewrite (peer_entry_other q x mine) by done. apply Hp.
Qed.

Lemma release_counts_spec pool n held mine x :
  counted pool (x :: held) -> counted n (x :: mine) -> peers_counted (cn_peers n) (x :: mine) ->
  exists pool' n', release_counts pool n x = Some (pool', n') /\ cn_peers pool' = cn_peers pool /\ counted pool' held /\ counted n' mine /\
    peers_counted (cn_peers n') mine.
Proof.
  intros [P1 P2 P3] [N1 N2 N3] Hp. rewrite requests_cons in P3, N3. cbn [sum_of] in P1, N1. unfold len in P2, N2. cbn [length] in P2, N2.
  assert (forall a b, minus (a + b) a = Some b) as Hm by (intros a b; unfold minus; destruct (N.ltb_spec (a + b) a); [lia|f_equal; lia]).
  unfold release_counts. rewrite P1, N1, !Hm. cbn [mbind option_bind]. rewrite P2, N2.
  replace (N.of_nat (S (length held))) with (1 + len held) by (unfold len; lia). replace (N.of_nat (S (length mine))) with (1 + len mine) by (unfold len; lia).
  rewrite !Hm. cbn [mbind option_bind]. unfold is_request in P3, N3. destruct (cr_peer x) as [[p c]|] eqn:Ex; cbn [N.b2n] in P3, N3.
  - rewrite P3, N3, !Hm. cbn [mbind option_bind]. destruct (release_peer_counted _ _ p c x Hp Ex) as (m' & -> & Hm'). cbn [mbind option_bind].
    eexists _, _. split; [reflexivity|]. by split_and!.
  - eexists _, _. split; [reflexivity|]. split_and!; [done|constructor; (done || by rewrite P3)|constructor; (done || by rewrite N3)|].
    cbn [cn_peers]. intros q. rewrite Hp. apply peer_entry_other. by rewrite Ex.
Qed.

Inductive process_step (w : Process) : Process -> Prop :=
| pst_driver : process_step w (new_driver w)
| pst_charge i bytes w' : charge_driver w i bytes None = Some w' -> process_step w w'
| pst_request i bytes peer kind w' : charge_request w i bytes peer kind = Some w' -> process_step w w'
| pst_retain i bytes w' : retain w i bytes = Some w' -> process_step w w'
| pst_drop k w' : drop_credit w k = Some w' -> process_step w w'.

Definition process_run : Process -> Prop := rtc process_step Process_new.

Lemma process_new_ok : process_ok Process_new.
Proof. constructor; [|done|done]. split; [by constructor|]. split; [done|]. by constructor. Qed.

Lemma charge_driver_ok w i bytes peer w' :
  process_ok w -> charge_driver w i bytes peer = Some w' ->
  process_ok w' /\ exists n, ps_drivers w !! i = Some n /\ ps_held w' = mkCredit i (bytes + OVERHEAD) peer :: ps_held w /\ admissible (ps_held w) (own i (ps_held w)) bytes peer.
Proof.
  intros [[P1 [P2 P3]] H2 H3]. unfold charge_driver. destruct (ps_drivers w !! i) as [n|] eqn:Ei; [|done]. cbn [mbind option_bind].
  destruct (H2 i n Ei) as (C1 & C2 & C3 & C4). pose proof (charge_counts_spec (ps_pool w) n _ _ bytes peer P1 C1 C2) as Hc.
  destruct (charge_counts _ _ _ _) as [[[charged pool'] n']|]; [|done]. cbn. intros [= <-]. destruct Hc as (Ha & -> & Hpool & Hnew).
  destruct (Hnew i) as (D1 & D2 & D3). set (x := mkCredit i (bytes + OVERHEAD) peer) in *. split; [|by exists n].
  assert (forall b r q held, credit_within b r q held -> sum_of cr_bytes held + (bytes + OVERHEAD) <= b -> len held < r ->
    match peer with Some _ => requests held < q | None => True end -> credit_within b r q (x :: held)) as Hwith.
  { intros b r q held [W1 W2 W3] Hb Hr Hq. constructor; [cbn [sum_of]; unfold x; cbn [cr_bytes]; lia|unfold len in *; cbn [length]; lia|].
    rewrite requests_cons. unfold x, is_request. cbn [cr_peer]. destruct peer; cbn [N.b2n]; lia. }
  destruct Ha as (_ & A2 & A3 & A4 & A5 & A6). apply lookup_lt_Some in Ei as Hi.
  constructor; cbn [ps_pool ps_drivers ps_held].
  - split; [done|]. split; [congruence|]. apply Hwith; [done|done|done|]. destruct peer as [[p c]|]; [apply A6|done].
  - intros j m Hj. rewrite own_cons. cbn [x cr_driver]. destruct (Nat.eqb_spec i j) as [<-|Hne].
    + rewrite list_lookup_insert_eq in Hj by done. injection Hj as <-. split; [done|]. split; [done|]. split.
      * apply Hwith; [done|done|done|]. destruct peer as [[p c]|]; [apply A6|done].
      * intros p c. rewrite class_of_cons. unfold of_class, x. cbn [cr_peer]. case_bool_decide as E; cbn [N.b2n]; [|rewrite N.add_0_l; apply C4].
        subst peer. lia.
    + rewrite list_lookup_insert_ne in Hj by done. by apply H2.
  - rewrite length_insert. constructor; [done|done].
Qed.

Lemma drop_credit_spec w k x : process_ok w -> ps_held w !! k = Some x ->
  exists w', drop_credit w k = Some w' /\ process_ok w' /\ ps_held w' = delete k (ps_held w).
Proof.
  intros [[P1 [P2 P3]] H2 H3] Hk. unfold drop_credit. rewrite Hk. cbn [mbind option_bind]. pose proof (Forall_lookup_1 _ _ _ _ H3 Hk) as Hlt. cbn in Hlt.
  destruct (lookup_lt_is_Some_2 _ _ Hlt) as [n Hn]. rewrite Hn. cbn [mbind option_bind]. destruct (H2 _ _ Hn) as (C1 & C2 & C3 & C4).
  pose proof (delete_Permutation _ _ _ Hk) as Hperm. set (rest := delete k (ps_held w)) in *.
  assert (own (cr_driver x) (ps_held w) ≡ₚ x :: own (cr_driver x) rest) as Hmine.
  { unfold own. rewrite (List_filter_perm _ _ _ Hperm). cbn [List.filter]. by rewrite Nat.eqb_refl. }
  assert (forall j, j <> cr_driver x -> own j (ps_held w) ≡ₚ own j rest) as Hother.
  { intros j Hj. unfold own. rewrite (List_filter_perm _ _ _ Hperm). cbn [List.filter]. by rewrite (proj2 (Nat.eqb_neq (cr_driver x) j)) by congruence. }
  destruct (release_counts_spec (ps_pool w) n rest (own (cr_driver x) rest) x) as (pool' & n' & -> & Hp' & D1 & D2 & D3);
    [by apply (counted_perm _ _ _ Hperm)|by apply (counted_perm _ _ _ Hmine)|by apply (peers_counted_perm _ _ _ Hmine)|].
  cbn. eexists. split; [reflexivity|]. split; [|done]. constructor; cbn [ps_pool ps_drivers ps_held]; fold rest.
  - split; [done|]. split; [congruence|]. by apply (within_sub _ _ _ _ _ x Hperm).
  - intros j m Hj. destruct (decide (j = cr_driver x)) as [->|Hne].
    + rewrite list_lookup_insert_eq in Hj by done. injection Hj as <-. split; [done|]. split; [done|]. split; [by apply (within_sub _ _ _ _ _ x Hmine)|].
      intros p c. specialize (C4 p c). unfold class_of, len in *. rewrite (Permutation_length (List_filter_perm (of_class p c) _ _ Hmine)) in C4.
      cbn [List.filter] in C4. destruct (of_class p c x); cbn [length] in C4; lia.
    + rewrite list_lookup_insert_ne in Hj by done. destruct (H2 j m Hj) as (E1 & E2 & E3 & E4). pose proof (Hother j Hne) as Hp. split; [by apply (counted_perm _ _ _ Hp)|].
      split; [by apply (peers_counted_perm _ _ _ Hp)|]. split.
      * destruct E3 as [F1 F2 F3]. constructor; [by rewrite <- (sum_of_perm _ _ _ Hp)|unfold len in *; by rewrite <- (Permutation_length Hp)|].
        unfold requests, len in *. by rewrite <- (Permutation_length (List_filter_perm is_request _ _ Hp)).
      * intros p c. specialize (E4 p c). unfold class_of, len in *. by rewrite <- (Permutation_length (List_filter_perm (of_class p c) _ _ Hp)).
  - rewrite length_insert. rewrite Hperm in H3. by apply Forall_cons in H3 as [_ ?].
Qed.

Lemma new_driver_ok w : process_ok w -> process_ok (new_driver w).
Proof.
  intros [H1 H2 H3]. constructor; [done| |].
  - intros i n Hi. cbn [new_driver ps_drivers ps_held] in *. apply lookup_app_Some in Hi as [Hi|[Hl Hi]]; [by apply H2|].
    apply list_lookup_singleton_Some in Hi as [Hz <-]. assert (own i (ps_held w) = []) as ->.
    { unfold own. clear -H3 Hl. induction H3 as [|x held Hx _ IH]; [done|]. cbn. destruct (Nat.eqb_spec (cr_driver x) i); [lia|done]. }
    split; [by constructor|]. split; [done|]. split; [by constructor|]. intros p c. apply N.le_0_l.
  - cbn [new_driver ps_drivers ps_held]. eapply Forall_impl; [exact H3|]. intros x Hx. cbn in Hx. rewrite length_app. cbn. lia.
Qed.

Lemma process_step_ok w w' : process_ok w -> process_step w w' -> process_ok w'.
Proof.
  intros Hok [|i bytes w2 Hc|i bytes peer kind w2 Hc|i bytes w2 Hr|k w2 Hd].
  - by apply new_driver_ok.
  - by apply (charge_driver_ok w i bytes None).
  - by apply (charge_driver_ok w i bytes (Some (peer, for_kind kind))).
  - unfold retain in Hr. destruct (MAX_FRAME <? bytes); [done|]. destruct (usize_max <? bytes * 2); [done|]. by apply (charge_driver_ok w i (bytes * 2) None).
  - unfold drop_credit in Hd. destruct (ps_held w !! k) as [x|] eqn:E; [|done]. destruct (drop_credit_spec w k x Hok E) as (w3 & H3 & Hok3 & _).
    unfold drop_credit in H3. rewrite E in H3. congruence.
Qed.

Lemma process_run_ok w : process_run w -> process_ok w.
Proof.
  assert (forall a b, rtc process_step a b -> process_ok a -> process_ok b) as H.
  { induction 1 as [|a b c Hs _ IH]; [done|]. intros Ha. apply IH. by apply (process_step_ok a). }
  intros Hr. apply (H _ _ Hr), process_new_ok.
Qed.

(** C40: the delivery budget is exact. Drivers come up, deliveries, requests and
    responses are charged and credits dropped in any order. In every reachable
    process the pool's bytes, records and requests are exactly those of all the
    credits still held, and each driver's exactly those of its own, requests
    counted by peer and class; they are within 128 MiB and 64 MiB, 1024 and 320
    records, 64 and 16 requests, and at most two ordinary requests and one
    maintenance request of one peer. A charge adds one credit, of its bytes and
    1 KiB; releasing any held credit never panics and takes away that credit
    alone; and when every credit has been released all counters are zero and no
    peer is remembered. *)
Theorem credits_exact w :
  process_run w ->
  (cn_bytes (ps_pool w) = sum_of cr_bytes (ps_held w) /\ cn_records (ps_pool w) = len (ps_held w) /\
   cn_requests (ps_pool w) = requests (ps_held w) /\ cn_bytes (ps_pool w) <= PROCESS_BYTES /\
   cn_records (ps_pool w) <= PROCESS_RECORDS /\ cn_requests (ps_pool w) <= PROCESS_REQUESTS) /\
  (forall i n, ps_drivers w !! i = Some n ->
     cn_bytes n = sum_of cr_bytes (own i (ps_held w)) /\ cn_records n = len (own i (ps_held w)) /\ cn_requests n = requests (own i (ps_held w)) /\
     cn_bytes n <= DRIVER_BYTES /\ cn_records n <= DRIVER_RECORDS /\ cn_requests n <= DRIVER_REQUESTS /\
     forall p c, class_count n p c = class_of p c (own i (ps_held w)) /\ class_count n p c <= class_limit c) /\
  (forall i bytes peer w', charge_driver w i bytes peer = Some w' -> ps_held w' = mkCredit i (bytes + OVERHEAD) peer :: ps_held w) /\
  (forall i bytes peer kind w', charge_request w i bytes peer kind = Some w' ->
     ps_held w' = mkCredit i (bytes + OVERHEAD) (Some (peer, for_kind kind)) :: ps_held w) /\
  (forall k, (k < length (ps_held w))%nat -> exists w', drop_credit w k = Some w' /\ ps_held w' = delete k (ps_held w)) /\
  (ps_held w = [] -> ps_pool w = Counts_default /\ Forall (fun n => n = Counts_default) (ps_drivers w)).
Proof.
  intros Hok%process_run_ok. pose proof Hok as [[[P0 P0' P0''] [P2 [P3 P4 P5]]] H2 H3].
  assert (forall i bytes peer w', charge_driver w i bytes peer = Some w' -> ps_held w' = mkCredit i (bytes + OVERHEAD) peer :: ps_held w) as Hcharge.
  { intros i bytes peer w' Hc. by destruct (charge_driver_ok _ _ _ _ _ Hok Hc) as (_ & n & _ & -> & _). }
  split; [rewrite P0, P0', P0''; by split_and!|]. split; [|split; [done|split; [intros i bytes peer kind w'; apply Hcharge|split]]].
  - intros i n Hi. destruct (H2 i n Hi) as ([C1 C2 C3] & C4 & [C5 C6 C7] & C8). rewrite C1, C2, C3. split_and!; try done.
    intros p c. rewrite (class_count_of (cn_peers n) (own i (ps_held w)) n p c C4 eq_refl). done.
  - intros k Hk. destruct (lookup_lt_is_Some_2 _ _ Hk) as [x Hx]. destruct (drop_credit_spec w k x Hok Hx) as (w' & E & _ & Eh). by exists w'.
  - intros E. rewrite E in P0, P0', P0'', H2. assert (forall n, counted n [] -> cn_peers n = ∅ -> n = Counts_default) as Hz.
    { intros [b r q m] [B1 B2 B3] Hm. cbn in *. unfold Counts_default. by rewrite B1, B2, B3, Hm. }
    split; [by apply Hz|]. apply Forall_lookup. intros i n Hi. destruct (H2 i n Hi) as (C1 & C4 & _). apply Hz; [done|].
    apply map_eq. intros p. rewrite lookup_empty. apply C4.
Qed.

(** Admission depends on what is held and on nothing else. A charge is admitted
    exactly when its bytes and overhead fit the driver and the process, there is a
    free record, and, for a request, a free request slot and a free slot of its
    own class for that peer: ordinary requests of a peer never take its
    maintenance slot, and tags of other kinds never add one. *)
Theorem admission_exact w i bytes peer :
  process_run w -> (i < length (ps_drivers w))%nat ->
  (is_Some (charge_driver w i bytes peer) <-> admissible (ps_held w) (own i (ps_held w)) bytes peer).
Proof.
  intros Hok%process_run_ok Hi. pose proof Hok as [[P1 _] H2 _]. destruct (lookup_lt_is_Some_2 _ _ Hi) as [n Hn]. destruct (H2 i n Hn) as (C1 & C2 & _).
  pose proof (charge_counts_spec (ps_pool w) n _ _ bytes peer P1 C1 C2) as Hc. unfold charge_driver. rewrite Hn. cbn [mbind option_bind].
  destruct (charge_counts _ _ _ _) as [[[charged pool'] n']|]; cbn; [split; [by intros _; destruct Hc|by eexists]|]. split; [by intros [? ?]|done].
Qed.

(** * The theorems at work *)

Definition toy_one : Process := default Process_new (charge_request (new_driver Process_new) 0 100 9 (Some 3)).
Definition toy_two : Process := default Process_new (charge_request toy_one 0 100 9 (Some 2)).

Lemma toy_process_run : process_run toy_two.
Proof.
  eapply rtc_l; [apply pst_driver|]. eapply rtc_l; [apply (pst_request _ 0 100 9 (Some 3) toy_one); vm_compute; reflexivity|].
  eapply rtc_l; [apply (pst_request _ 0 100 9 (Some 2) toy_two); vm_compute; reflexivity|]. apply rtc_refl.
Qed.

Lemma credits_exact_witness : cn_bytes (ps_pool toy_two) = 2248 /\ cn_bytes (ps_pool toy_two) = sum_of cr_bytes (ps_held toy_two).
Proof. split; [vm_compute; reflexivity|]. apply (credits_exact toy_two toy_process_run). Defined.

Lemma admission_exact_witness : is_Some (charge_driver toy_two 0 5 (Some (9, Ordinary))) /\ ~ is_Some (charge_driver toy_two 0 5 (Some (9, Maintenance))).
Proof.
  split.
  - apply (admission_exact toy_two 0 5 (Some (9, Ordinary)) toy_process_run); [vm_compute; lia|]. vm_compute. intuition discriminate.
  - intros H. apply (admission_exact toy_two 0 5 (Some (9, Maintenance)) toy_process_run) in H; [|vm_compute; lia]. vm_compute in H. destruct H as (_ & _ & _ & _ & _ & _ & _ & H). discriminate H.
Defined.
