(* ===== verification/DiskStore.v ===== *)
(** The sealing blob store, [SealingBlobStore] of
    [crates/catcoms-storage/src/blob.rs]: blobs on disk under their plaintext
    address, sealed under the store's key, with the staging area of uploads and,
    for the primary cache, crash-safe writes through [incoming/] and the size
    index of [CachePlan].

    The file system is the regular files of the three directories, each with
    what it holds and whether that has been synced. Every call that changes it
    is answered by the environment: it succeeds or fails, and a write that fails
    or is interrupted has stored any prefix. [io_past] keeps the states the disk
    went through: no write of the primary cache flushes a directory, so a power
    cut may show under each name, independently of the others, the entry of any
    of them ([crash]); in particular the entry a rename made may be lost. Paths a
    read cannot read are in [io_unreadable]. *)

From S2P Require Import Prelude OrdMap Pad Crypto SignedOp Blob CachePlan FileCrypto.
From stdpp Require Import base list gmap relations.
From Stdlib Require Import Init.Byte.
Local Open Scope N_scope.

(** * The file system *)

(** A record by its address, a staged record, and the temporary of one write. *)
Inductive FsPath : Type := Held (c : Cid) | Staged (c : Cid) | Incoming (c : Cid) (generation sequence : N).

#[global] Instance FsPath_eq_dec : EqDecision FsPath.
Proof. solve_decision. Defined.

#[global] Instance FsPath_countable : Countable FsPath.
Proof.
  refine (inj_countable' (fun p => match p with Held c => inl c | Staged c => inr (inl c) | Incoming c g s => inr (inr (c, g, s)) end)
    (fun x => match x with inl c => Held c | inr (inl c) => Staged c | inr (inr (c, g, s)) => Incoming c g s end) _).
  by intros [].
Defined.

Record FsFile := mkFsFile { fl_data : bytes; fl_synced : bool }.

Abbreviation FileSystem := (gmap FsPath FsFile) (only parsing).

(** [Fails None] did nothing; [cut] is how much of the data a write had stored. *)
Inductive FsAnswer : Type := Succeeds (cut : nat) | Fails (cut : option nat).

Record DiskState := mkDiskState {
  io_files : FileSystem;
  io_unreadable : gset FsPath;
  io_answers : list FsAnswer;
  io_past : list FileSystem
}.

(** The next answer; a disk that is asked no more questions has none left. *)
Definition ask (io : DiskState) : FsAnswer * DiskState :=
  match io_answers io with
  | [] => (Succeeds 0, io)
  | a :: rest => (a, mkDiskState (io_files io) (io_unreadable io) rest (io_past io))
  end.

(** The files change; what was there is remembered. *)
Definition set_files (files : FileSystem) (io : DiskState) : DiskState :=
  mkDiskState files (io_unreadable io) (io_answers io) (io_files io :: io_past io).

(** [write_all], then [sync_all] where [synced]: a prefix first, then all of it. *)
Definition fs_write (p : FsPath) (data : bytes) (synced : bool) (io : DiskState) : result StorageError unit * DiskState :=
  let '(answer, io) := ask io in
  match answer with
  | Fails None => (Err Io, io)
  | Fails (Some cut) => (Err Io, set_files (<[p := mkFsFile (firstn cut data) false]> (io_files io)) io)
  | Succeeds cut =>
      let io := set_files (<[p := mkFsFile (firstn cut data) false]> (io_files io)) io in
      let io := set_files (<[p := mkFsFile data false]> (io_files io)) io in
      (Ok tt, if synced then set_files (<[p := mkFsFile data true]> (io_files io)) io else io)
  end.

(** [create_new]: [None] when the name is taken *)
Definition fs_create_new (p : FsPath) (io : DiskState) : result StorageError (option unit) * DiskState :=
  match io_files io !! p with
  | Some _ => (Ok None, io)
  | None =>
      let '(answer, io) := ask io in
      match answer with
      | Fails _ => (Err Io, io)
      | Succeeds _ => (Ok (Some tt), set_files (<[p := mkFsFile [] false]> (io_files io)) io)
      end
  end.

(** Replaces what is at the destination, for the running process. Nothing makes
    the new entry durable: after a power cut the destination may show what it
    held before, or nothing if it held nothing, and the source its file. *)
Definition fs_rename (from to : FsPath) (io : DiskState) : result StorageError unit * DiskState :=
  let '(answer, io) := ask io in
  match answer, io_files io !! from with
  | Succeeds _, Some f => (Ok tt, set_files (<[to := f]> (delete from (io_files io))) io)
  | _, _ => (Err Io, io)
  end.

(** [Ok false] is [ErrorKind::NotFound]. *)
Definition fs_remove (p : FsPath) (io : DiskState) : result StorageError bool * DiskState :=
  match io_files io !! p with
  | None => (Ok false, io)
  | Some _ =>
      let '(answer, io) := ask io in
      match answer with
      | Fails _ => (Err Io, io)
      | Succeeds _ => (Ok true, set_files (delete p (io_files io)) io)
      end
  end.

(** [create_dir_all] *)
Definition fs_mkdir (io : DiskState) : result StorageError unit * DiskState :=
  let '(answer, io) := ask io in
  match answer with Fails _ => (Err Io, io) | Succeeds _ => (Ok tt, io) end.

(** [metadata(p).ok()], its length *)
Definition fs_stat (p : FsPath) (io : DiskState) : option N * DiskState :=
  let '(answer, io) := ask io in
  (match answer with Fails _ => None | Succeeds _ => len ∘ fl_data <$> io_files io !! p end, io).

Definition fs_read (p : FsPath) (io : DiskState) : result StorageError (option bytes) :=
  if bool_decide (p ∈ io_unreadable io) then Err Io else Ok (fl_data <$> io_files io !! p).

Definition read_bounded (p : FsPath) (max_bytes : N) (io : DiskState) : result StorageError (option bytes) :=
  content ← fs_read p io;
  match content with
  | None => Ok None
  | Some b => if max_bytes <? len b then Err BlobSizeLimit else Ok (Some b)
  end.

(** * The store *)

Record CacheMode := mkCacheMode { cm_generation : N; cm_sequence : N; cm_index : option CacheIndex }.

Record SealingBlobStore := mkSealingBlobStore {
  sl_io : DiskState;
  sl_key : bytes;
  sl_rng : Rng;
  sl_read_epoch : N;
  sl_cache : option CacheMode
}.

Definition set_io (io : DiskState) (s : SealingBlobStore) : SealingBlobStore :=
  mkSealingBlobStore io (sl_key s) (sl_rng s) (sl_read_epoch s) (sl_cache s).

Definition set_rng (rng : Rng) (s : SealingBlobStore) : SealingBlobStore :=
  mkSealingBlobStore (sl_io s) (sl_key s) rng (sl_read_epoch s) (sl_cache s).

Definition set_mode (mode : option CacheMode) (s : SealingBlobStore) : SealingBlobStore :=
  mkSealingBlobStore (sl_io s) (sl_key s) (sl_rng s) (sl_read_epoch s) mode.

Definition encode_sealed (s : SealedBlob) : bytes := sb_nonce s ++ sb_ciphertext s.

Definition decode_sealed (b : bytes) : result StorageError SealedBlob :=
  if len b <=? 24 then Err Pad.Malformed else Ok (mkSealedBlob (firstn 24 b) (skipn 24 b)).

Section store.
Context {C : Crypto} {A : Aead}.

Definition open_record (key : bytes) (cid : Cid) (encoded : bytes) : result StorageError bytes :=
  sealed ← decode_sealed encoded;
  plaintext ← map_err (fun _ => Pad.Crypto) (SignedOp.unseal key sealed);
  verify cid plaintext.

Definition read_sealed_bounded (s : SealingBlobStore) (p : FsPath) (cid : Cid) (max_bytes : N) : result StorageError (option bytes) :=
  disk_limit ← ok_or (checked_add usize_max max_bytes 40) BlobSizeLimit;
  encoded ← read_bounded p disk_limit (sl_io s);
  match encoded with
  | None => Ok None
  | Some encoded =>
      sealed ← decode_sealed encoded;
      plaintext ← map_err (fun _ => Pad.Crypto) (SignedOp.unseal (sl_key s) sealed);
      _ ← refuse_if (max_bytes <? len plaintext) BlobSizeLimit;
      Some <$> verify cid plaintext
  end.

Definition sealing_get (s : SealingBlobStore) (cid : Cid) : result StorageError (option bytes) :=
  content ← fs_read (Held cid) (sl_io s);
  match content with
  | None => Ok None
  | Some encoded => Some <$> open_record (sl_key s) cid encoded
  end.

Definition sealing_get_bounded (s : SealingBlobStore) (cid : Cid) (max_bytes : N) : result StorageError (option bytes) :=
  read_sealed_bounded s (Held cid) cid max_bytes.

Definition sealing_has (s : SealingBlobStore) (cid : Cid) : bool := bool_decide (is_Some (io_files (sl_io s) !! Held cid)).

(** [matches!(r, Ok(Some(_)))] *)
Definition read_found (r : result StorageError (option bytes)) : bool := match r with Ok (Some _) => true | _ => false end.

(** The temporary of a write: up to seventeen names are tried. *)
Fixpoint open_temp (tries : nat) (cid : Cid) (generation sequence : N) (io : DiskState) : result StorageError N * N * DiskState :=
  let sequence := (sequence + 1) mod (u64_max + 1) in
  match fs_create_new (Incoming cid generation sequence) io with
  | (Err e, io) => (Err e, sequence, io)
  | (Ok (Some _), io) => (Ok sequence, sequence, io)
  | (Ok None, io) =>
      match tries with
      | O => (Err Io, sequence, io)
      | S tries => open_temp tries cid generation sequence io
      end
  end.

Definition write_atomic (s : SealingBlobStore) (mode : CacheMode) (cid : Cid) (encoded : bytes) : result StorageError unit * SealingBlobStore :=
  match fs_mkdir (sl_io s) with
  | (Err e, io) => (Err e, set_io io s)
  | (Ok _, io) =>
      let '(opened, sequence, io) := open_temp 16 cid (cm_generation mode) (cm_sequence mode) io in
      let s := set_mode (Some (mkCacheMode (cm_generation mode) sequence (cm_index mode))) s in
      match opened with
      | Err e => (Err e, set_io io s)
      | Ok sequence =>
          let temp := Incoming cid (cm_generation mode) sequence in
          let '(renamed, io) := match fs_write temp encoded true io with
                                | (Ok _, io) => fs_rename temp (Held cid) io
                                | (Err e, io) => (Err e, io)
                                end in
          let io := if is_ok renamed then io else (fs_remove temp io).2 in
          (renamed, set_io io s)
      end
  end.

Definition note_held (s : SealingBlobStore) (cid : Cid) : SealingBlobStore :=
  let '(length, io) := fs_stat (Held cid) (sl_io s) in
  let s := set_io io s in
  match sl_cache s with
  | Some (mkCacheMode generation sequence (Some index)) =>
      let index := match length with
                   | Some n => note_written index cid n
                   | None => note_removed index cid
                   end in
      set_mode (Some (mkCacheMode generation sequence (Some index))) s
  | _ => s
  end.

Definition sealing_put (s : SealingBlobStore) (data : bytes) : result StorageError Cid * SealingBlobStore :=
  let cid := Cid_of data in
  let '(written, s) :=
    if read_found (sealing_get_bounded s cid (len data)) then (Ok tt, s)
    else match SignedOp.seal (sl_key s) data (sl_rng s) with
         | (Err _, rng) => (Err Pad.Crypto, set_rng rng s)
         | (Ok sealed, rng) =>
             let s := set_rng rng s in
             let encoded := encode_sealed sealed in
             match sl_cache s with
             | Some mode => write_atomic s mode cid encoded
             | None => let '(r, io) := fs_write (Held cid) encoded false (sl_io s) in (r, set_io io s)
             end
         end in
  match written with
  | Err e => (Err e, s)
  | Ok _ => (Ok cid, match sl_cache s with Some _ => note_held s cid | None => s end)
  end.

Definition promote_staged_file (cid : Cid) (healthy : bool) (io : DiskState) : result StorageError bool * DiskState :=
  match io_files io !! Staged cid with
  | None => (Ok false, io)
  | Some _ =>
      if healthy
      then let '(r, io) := fs_remove (Staged cid) io in ((fun _ => true) <$> r, io)
      else let '(r, io) := fs_rename (Staged cid) (Held cid) io in ((fun _ => true) <$> r, io)
  end.

(** The record and both directories. *)
Definition flush_promoted (cid : Cid) (io : DiskState) : result StorageError unit * DiskState :=
  let '(answer, io) := ask io in
  match answer, io_files io !! Held cid with
  | Succeeds _, Some f => (Ok tt, set_files (<[Held cid := mkFsFile (fl_data f) true]> (io_files io)) io)
  | _, _ => (Err CommittedButNotDurable, io)
  end.

Definition sealing_put_staged (s : SealingBlobStore) (data : bytes) : result StorageError Cid * SealingBlobStore :=
  let cid := Cid_of data in
  match fs_mkdir (sl_io s) with
  | (Err e, io) => (Err e, set_io io s)
  | (Ok _, io) =>
      let s := set_io io s in
      match SignedOp.seal (sl_key s) data (sl_rng s) with
      | (Err _, rng) => (Err Pad.Crypto, set_rng rng s)
      | (Ok sealed, rng) =>
          let s := set_rng rng s in
          let '(r, io) := fs_write (Staged cid) (encode_sealed sealed) true (sl_io s) in
          ((fun _ => cid) <$> r, set_io io s)
      end
  end.

Definition sealing_promote_staged (s : SealingBlobStore) (cid : Cid) : result StorageError bool * SealingBlobStore :=
  let healthy := read_found (sealing_get s cid) in
  let '(promoted, io) := promote_staged_file cid healthy (sl_io s) in
  let s := set_io io s in
  match promoted with
  | Ok true =>
      let s := note_held s cid in
      (Ok true, set_io (flush_promoted cid (sl_io s)).2 s)
  | _ => (promoted, s)
  end.

Definition sealing_promote_staged_bounded (s : SealingBlobStore) (cid : Cid) (max_bytes : N) : result StorageError bool * SealingBlobStore :=
  match read_sealed_bounded s (Staged cid) cid max_bytes with
  | Err e => (Err e, s)
  | Ok None => (Ok false, s)
  | Ok (Some _) =>
      let healthy := read_found (sealing_get_bounded s cid max_bytes) in
      let '(promoted, io) := promote_staged_file cid healthy (sl_io s) in
      let s := set_io io s in
      match promoted with
      | Ok true =>
          let s := note_held s cid in
          match sealing_get_bounded s cid max_bytes with
          | Err e => (Err e, s)
          | Ok None => (Err Pad.Malformed, s)
          | Ok (Some _) =>
              let '(flushed, io) := flush_promoted cid (sl_io s) in
              ((fun _ => true) <$> flushed, set_io io s)
          end
      | _ => (promoted, s)
      end
  end.

Definition sealing_drop_staged (s : SealingBlobStore) (cid : Cid) : result StorageError bool * SealingBlobStore :=
  let '(r, io) := fs_remove (Staged cid) (sl_io s) in (r, set_io io s).

(** The entries of the staging directory, one after the other. *)
Fixpoint clear_entries (entries : list FsPath) (dropped : N) (io : DiskState) : N * DiskState :=
  match entries with
  | [] => (dropped, io)
  | p :: rest =>
      let '(r, io) := fs_remove p io in
      clear_entries rest (match r with Ok true => dropped + 1 | _ => dropped end) io
  end.

Definition staged_entries (files : FileSystem) : list FsPath :=
  List.filter (fun p => match p with Staged _ => true | _ => false end) (map_to_list files).*1.

Definition sealing_clear_staging (s : SealingBlobStore) : N * SealingBlobStore :=
  let '(n, io) := clear_entries (staged_entries (io_files (sl_io s))) 0 (sl_io s) in (n, set_io io s).

(** [SealingBlobStore::delete] with its read epoch *)
Definition sealing_remove (s : SealingBlobStore) (cid : Cid) : result StorageError bool * SealingBlobStore :=
  let '(removed, io) := fs_remove (Held cid) (sl_io s) in
  let s := mkSealingBlobStore io (sl_key s) (sl_rng s) (sl_read_epoch s + 1) (sl_cache s) in
  (removed,
   if is_ok removed then
     match sl_cache s with
     | Some (mkCacheMode generation sequence (Some index)) => set_mode (Some (mkCacheMode generation sequence (Some (note_removed index cid)))) s
     | _ => s
     end
   else s).
End store.

(** * Runs of the store *)

Inductive StoreOp : Type :=
| OpPut (data : bytes)
| OpStage (data : bytes)
| OpPromote (c : Cid)
| OpPromoteBounded (c : Cid) (max_bytes : N)
| OpDrop (c : Cid)
| OpClear
| OpDelete (c : Cid).

(** A store and the addresses whose staging succeeded and was not undone since. *)
Record StoreRun := mkStoreRun { sr_store : SealingBlobStore; sr_staged : gset Cid }.

Section runs.
Context {C : Crypto} {A : Aead}.

Definition store_apply (w : StoreRun) (op : StoreOp) : StoreRun :=
  let s := sr_store w in
  let staged := sr_staged w in
  match op with
  | OpPut data => mkStoreRun (sealing_put s data).2 staged
  | OpStage data =>
      let '(r, s) := sealing_put_staged s data in
      mkStoreRun s (if is_ok r then {[ Cid_of data ]} ∪ staged else staged ∖ {[ Cid_of data ]})
  | OpPromote c => mkStoreRun (sealing_promote_staged s c).2 staged
  | OpPromoteBounded c max => mkStoreRun (sealing_promote_staged_bounded s c max).2 staged
  | OpDrop c => mkStoreRun (sealing_drop_staged s c).2 (staged ∖ {[ c ]})
  | OpClear => mkStoreRun (sealing_clear_staging s).2 ∅
  | OpDelete c => mkStoreRun (sealing_remove s c).2 staged
  end.

Definition store_run (w : StoreRun) (ops : list StoreOp) : StoreRun := foldl store_apply w ops.

(** The callers' side of promotion, which neither store function checks: only
    what was staged successfully is promoted (an upload whose [put_staged]
    failed is dropped), or an address with no staged file, which is a no-op. *)
Definition promotable (w : StoreRun) (op : StoreOp) : Prop :=
  match op with
  | OpPromote c | OpPromoteBounded c _ => c ∈ sr_staged w \/ io_files (sl_io (sr_store w)) !! Staged c = None
  | _ => True
  end.

Fixpoint promotes_staged_only (w : StoreRun) (ops : list StoreOp) : Prop :=
  match ops with
  | [] => True
  | op :: ops => promotable w op /\ promotes_staged_only (store_apply w op) ops
  end.

(** What a power failure may leave of one name's entry [now]: a synced file as it
    is, of any other a prefix or nothing. *)
Definition torn (now after : option FsFile) : Prop :=
  match now, after with
  | None, None => True
  | Some f, Some f' => if fl_synced f then f' = f else exists n, fl_data f' = firstn n (fl_data f)
  | Some f, None => fl_synced f = false
  | None, Some _ => False
  end.

(** A power failure: each name shows what is left of the entry it had at some
    moment of the run so far, each name at a moment of its own, since entries
    reach the disk in no particular order and without a directory flush perhaps
    not at all. *)
Definition crash (io : DiskState) (fs' : FileSystem) : Prop :=
  forall p, exists fs, fs ∈ io_files io :: io_past io /\ torn (fs !! p) (fs' !! p).

(** A record that opens to the blob its name is the address of. *)
Definition complete (key : bytes) (c : Cid) (data : bytes) : Prop := exists b, open_record key c data = Ok b.

Definition clean (key : bytes) (fs : FileSystem) : Prop :=
  forall c f, fs !! Held c = Some f -> fl_synced f = true /\ complete key c (fl_data f).

(** ** The file system underneath *)

Definition always (P : FileSystem -> Prop) (io : DiskState) : Prop := P (io_files io) /\ Forall P (io_past io).

Definition held_part (P : FileSystem -> Prop) : Prop :=
  forall fs fs', (forall c, fs' !! Held c = fs !! Held c) -> P fs -> P fs'.

Lemma ask_same io : io_files (ask io).2 = io_files io /\ io_past (ask io).2 = io_past io /\ io_unreadable (ask io).2 = io_unreadable io.
Proof. unfold ask. by destruct (io_answers io). Qed.

Lemma ask_always P io : always P io -> always P (ask io).2.
Proof. unfold always. by destruct (ask_same io) as (-> & -> & _). Qed.

Lemma set_files_always P fs io : always P io -> P fs -> always P (set_files fs io).
Proof. intros [H1 H2] H. split; [done|]. by constructor. Qed.

(** A path that is not a record's. *)
Definition aside (p : FsPath) : Prop := forall c, p <> Held c.

Lemma fs_write_spec p data synced io r io' :
  fs_write p data synced io = (r, io') ->
  (forall q, q <> p -> io_files io' !! q = io_files io !! q) /\
  (is_ok r = true -> io_files io' !! p = Some (mkFsFile data synced)) /\
  (forall P, held_part P -> aside p -> always P io -> always P io').
Proof.
  unfold fs_write. pose proof (ask_same io) as (Ef & _). pose proof (fun P => ask_always P io) as Ha. destruct (ask io) as [answer io1]. cbn [snd] in *.
  assert (forall P f fs, held_part P -> aside p -> P fs -> P (<[p := f]> fs)) as Hput.
  { intros P f fs Hp Hpp H2. apply (Hp fs); [|done]. intros c. by rewrite lookup_insert_ne. }
  destruct answer as [cut|[cut|]].
  - destruct synced; intros [= <- <-]; (split; [|split; [intros _; cbn [io_files set_files]; by rewrite lookup_insert_eq|]]).
    1, 3: intros q Hq; cbn [io_files set_files]; by rewrite !lookup_insert_ne, Ef by done.
    all: intros P Hp Hpp H; apply Ha in H; repeat apply set_files_always; try apply H; repeat (apply (Hput P); [done..|]); apply H.
  - intros [= <- <-]; split_and!; [|done|].
    + intros q Hq. cbn [io_files set_files]. by rewrite !lookup_insert_ne, Ef by done.
    + intros P Hp Hpp H. apply Ha in H. apply set_files_always, (Hput P); try apply H; done.
  - intros [= <- <-]; split_and!; [|done|auto]. intros q _. by rewrite Ef.
Qed.

Lemma fs_create_spec p io r io' :
  fs_create_new p io = (r, io') ->
  (forall q, q <> p -> io_files io' !! q = io_files io !! q) /\
  (forall P, held_part P -> aside p -> always P io -> always P io').
Proof.
  unfold fs_create_new. destruct (io_files io !! p); [by intros [= <- <-]|].
  pose proof (ask_same io) as (Ef & _). pose proof (fun P => ask_always P io) as Ha. destruct (ask io) as [answer io1]. cbn [snd] in *.
  destruct answer; intros [= <- <-]; cbn [io_files set_files]; split; intros.
  - by rewrite lookup_insert_ne, Ef by done.
  - apply set_files_always; [by apply Ha|]. apply (H (io_files io1)); [|by apply Ha]. intros c. by rewrite lookup_insert_ne.
  - by rewrite Ef.
  - by apply Ha.
Qed.

Lemma fs_remove_spec p io r io' :
  fs_remove p io = (r, io') ->
  (forall q, q <> p -> io_files io' !! q = io_files io !! q) /\
  (is_ok r = true -> io_files io' !! p = None) /\
  (io_files io' !! p = io_files io !! p \/ io_files io' !! p = None) /\
  (forall P, P (delete p (io_files io)) -> always P io -> always P io').
Proof.
  unfold fs_remove. destruct (io_files io !! p) as [f|] eqn:E; [|by intros [= <- <-]; auto].
  pose proof (ask_same io) as (Ef & _). pose proof (fun P => ask_always P io) as Ha. destruct (ask io) as [answer io1]. cbn [snd] in *.
  destruct answer; intros [= <- <-]; cbn [io_files set_files is_ok]; rewrite ?Ef; split_and!.
  - intros q Hq. by rewrite lookup_delete_ne.
  - intros _. by rewrite lookup_delete_eq.
  - right. by rewrite lookup_delete_eq.
  - intros P HP H. apply set_files_always; [by apply Ha|done].
  - done.
  - done.
  - by left.
  - intros P _ H. by apply Ha.
Qed.

Lemma fs_rename_spec from to io r io' :
  fs_rename from to io = (r, io') -> from <> to ->
  match r with
  | Ok _ => exists f, io_files io !! from = Some f /\ io_files io' = <[to := f]> (delete from (io_files io)) /\
              (forall P, P (<[to := f]> (delete from (io_files io))) -> always P io -> always P io')
  | Err _ => io_files io' = io_files io /\ (forall P, always P io -> always P io')
  end.
Proof.
  unfold fs_rename. pose proof (ask_same io) as (Ef & _). pose proof (fun P => ask_always P io) as Ha. destruct (ask io) as [answer io1]. cbn [snd] in *.
  rewrite Ef. intros E Hne. destruct answer as [cut|cut], (io_files io !! from) as [f|] eqn:Eq; injection E as <- <-; try (split; [done|auto]).
  exists f. cbn [io_files set_files]. split_and!; [done|done|]. intros P HP H. apply set_files_always; [by apply Ha|done].
Qed.

(** ** What each operation changes *)

(** Nothing but temporaries differs, and every state on the way keeps [P]. *)
Definition quiet (io io' : DiskState) : Prop :=
  io_unreadable io' = io_unreadable io /\
  (forall q, (forall c g n, q <> Incoming c g n) -> io_files io' !! q = io_files io !! q) /\
  (forall P, held_part P -> always P io -> always P io').

Lemma quiet_refl io : quiet io io.
Proof. done. Qed.

Lemma quiet_trans io io1 io2 : quiet io io1 -> quiet io1 io2 -> quiet io io2.
Proof.
  intros (U & F & H) (U' & F' & H'). split_and!; [by rewrite U', U|intros q Hq; by rewrite F', F|auto].
Qed.

Lemma fs_unreadable_same io :
  (forall p d b, io_unreadable (fs_write p d b io).2 = io_unreadable io) /\ (forall p, io_unreadable (fs_create_new p io).2 = io_unreadable io) /\
  (forall p, io_unreadable (fs_remove p io).2 = io_unreadable io) /\ (forall p q, io_unreadable (fs_rename p q io).2 = io_unreadable io).
Proof.
  pose proof (ask_same io) as (_ & _ & E).
  split_and!; intros; unfold fs_write, fs_create_new, fs_remove, fs_rename; destruct (ask io) as [answer io1]; cbn [snd] in E.
  - destruct answer as [cut|[cut|]], b; done.
  - destruct (io_files io !! p), answer; done.
  - destruct (io_files io !! p), answer; done.
  - destruct answer, (io_files io1 !! p); done.
Qed.

Lemma fs_mkdir_quiet io : quiet io (fs_mkdir io).2.
Proof.
  unfold fs_mkdir. pose proof (ask_same io) as (Ef & _ & Eu). pose proof (fun P => ask_always P io) as Ha. destruct (ask io) as [answer io1]. cbn [snd] in *.
  destruct answer; cbn [snd]; (split_and!; [done|intros q _; by rewrite Ef|auto]).
Qed.

Lemma fs_stat_quiet p io : quiet io (fs_stat p io).2 /\ match (fs_stat p io).1 with Some n => exists f, io_files io !! p = Some f /\ len (fl_data f) = n | None => True end.
Proof.
  unfold fs_stat. pose proof (ask_same io) as (Ef & _ & Eu). pose proof (fun P => ask_always P io) as Ha. destruct (ask io) as [answer io1]. cbn [snd fst] in *.
  split; [cbn [snd]; split_and!; [done|intros q _; by rewrite Ef|auto]|]. destruct answer; [|done]. rewrite Ef. destruct (io_files io !! p) as [f|]; [by exists f|done].
Qed.

Lemma open_temp_quiet tries cid generation : forall sequence io, quiet io (open_temp tries cid generation sequence io).2.
Proof.
  induction tries as [|tries IH]; intros sequence io; cbn [open_temp]; cbv zeta; set (p := Incoming cid generation _).
  all: pose proof (fs_create_spec p io) as H; pose proof (proj1 (proj2 (fs_unreadable_same io)) p) as Hu; destruct (fs_create_new p io) as [r io1]; cbn [snd] in *.
  all: assert (quiet io io1) as Hq by (destruct (H _ _ eq_refl) as [Hf Ha]; split_and!; [done|intros q Hq; apply Hf, Hq|intros P HP; by apply Ha]).
  all: destruct r as [[u|]|e]; cbn [snd]; try exact Hq. apply (quiet_trans _ _ _ Hq), IH.
Qed.

Lemma temp_aside c g n : aside (Incoming c g n).
Proof. done. Qed.

Lemma staged_aside c : aside (Staged c).
Proof. done. Qed.

Lemma fs_write_temp_quiet c g n data io : quiet io (fs_write (Incoming c g n) data true io).2.
Proof.
  pose proof (fs_write_spec (Incoming c g n) data true io) as H. pose proof (proj1 (fs_unreadable_same io) (Incoming c g n) data true) as Hu.
  destruct (fs_write _ _ _ io) as [r io1]. destruct (H _ _ eq_refl) as (Hf & _ & Ha).
  split_and!; [done|intros q Hq; apply Hf, Hq|intros P HP; by apply Ha].
Qed.

Lemma fs_remove_temp_quiet c g n io : quiet io (fs_remove (Incoming c g n) io).2.
Proof.
  pose proof (fs_remove_spec (Incoming c g n) io) as H. pose proof (proj1 (proj2 (proj2 (fs_unreadable_same io))) (Incoming c g n)) as Hu.
  destruct (fs_remove _ io) as [r io1]. destruct (H _ _ eq_refl) as (Hf & _ & _ & Ha).
  split_and!; [done|intros q Hq; apply Hf, Hq|]. intros P HP Hal. apply Ha; [|done]. apply (HP (io_files io)); [|apply Hal].
  intros d. by rewrite lookup_delete_ne.
Qed.

(** Apart from temporaries only the record of [cid] may differ, which has become [f]. *)
Definition places (cid : Cid) (f : FsFile) (done : bool) (io io' : DiskState) : Prop :=
  io_unreadable io' = io_unreadable io /\
  (forall q, (forall c g n, q <> Incoming c g n) -> q <> Held cid -> io_files io' !! q = io_files io !! q) /\
  io_files io' !! Held cid = (if done then Some f else io_files io !! Held cid) /\
  (forall P, held_part P -> (forall fs, P fs -> P (<[Held cid := f]> fs)) -> always P io -> always P io').

Lemma quiet_places cid f io io' : quiet io io' -> places cid f false io io'.
Proof. intros (U & F & H). split_and!; [done|auto|by rewrite F|auto]. Qed.

Lemma quiet_before cid f b io io1 io2 : quiet io io1 -> places cid f b io1 io2 -> places cid f b io io2.
Proof.
  intros (U & F & H) (U' & F' & E & H'). split_and!; [by rewrite U', U|intros q Hq Hn; by rewrite F', F|rewrite E; destruct b; [done|by rewrite F]|auto].
Qed.

Lemma quiet_after cid f b io io1 io2 : places cid f b io io1 -> quiet io1 io2 -> places cid f b io io2.
Proof.
  intros (U & F & E & H) (U' & F' & H'). split_and!; [by rewrite U', U|intros q Hq Hn; by rewrite F', F|by rewrite F'|auto].
Qed.

Lemma write_atomic_spec s mode cid encoded r s' :
  write_atomic s mode cid encoded = (r, s') ->
  places cid (mkFsFile encoded true) (is_ok r) (sl_io s) (sl_io s') /\ sl_key s' = sl_key s /\
  (exists sequence, sl_cache s' = Some (mkCacheMode (cm_generation mode) sequence (cm_index mode)) \/ sl_cache s' = sl_cache s /\ is_ok r = false).
Proof.
  unfold write_atomic. pose proof (fs_mkdir_quiet (sl_io s)) as Hm. destruct (fs_mkdir (sl_io s)) as [[u|e] io1]; cbn [snd] in Hm.
  2: { intros [= <- <-]. cbn. split_and!; [by apply quiet_places|done|]. exists 0. by right. }
  pose proof (open_temp_quiet 16 cid (cm_generation mode) (cm_sequence mode) io1) as Ho.
  destruct (open_temp 16 cid _ _ io1) as [[opened sequence] io2]. cbn [snd] in Ho.
  destruct opened as [seq|e]; [|intros [= <- <-]; cbn; split_and!; [by apply quiet_places, (quiet_trans _ _ _ Hm)|done|exists sequence; by left]].
  pose proof (fs_write_spec (Incoming cid (cm_generation mode) seq) encoded true io2) as Hs.
  pose proof (fs_write_temp_quiet cid (cm_generation mode) seq encoded io2) as Hw.
  destruct (fs_write _ encoded true io2) as [[u'|e] io3]; cbn [snd] in Hw.
  - destruct (Hs _ _ eq_refl) as (_ & Hf & _). specialize (Hf eq_refl).
    pose proof (fs_rename_spec (Incoming cid (cm_generation mode) seq) (Held cid) io3) as Hr.
    pose proof (proj2 (proj2 (proj2 (fs_unreadable_same io3))) (Incoming cid (cm_generation mode) seq) (Held cid)) as Hu.
    destruct (fs_rename _ _ io3) as [[[]|e] io4]; specialize (Hr _ _ eq_refl ltac:(done)); cbn [snd] in Hu.
    + destruct Hr as (f & E & Ef & Ha). rewrite Hf in E. injection E as <-. cbn [is_ok]. intros [= <- <-]. cbn [sl_io sl_key sl_cache set_io set_mode].
      split_and!; [|done|exists sequence; by left]. apply (quiet_before _ _ _ _ io3); [by apply (quiet_trans _ _ _ Hm), (quiet_trans _ _ _ Ho)|].
      split_and!; [done| |by rewrite Ef, lookup_insert_eq|].
      * intros q Hq Hn. rewrite Ef, lookup_insert_ne by done. rewrite lookup_delete_ne; [done|]. intros <-. by eapply Hq.
      * intros P HP Hi Hal. apply Ha; [|done]. apply Hi. apply (HP (io_files io3)); [|apply Hal]. intros c. by rewrite lookup_delete_ne.
    + destruct Hr as [Ef Ha]. cbn [is_ok]. intros [= <- <-]. cbn [sl_io sl_key sl_cache set_io set_mode].
      split_and!; [|done|exists sequence; by left]. apply quiet_places.
      apply (quiet_trans _ io3); [by apply (quiet_trans _ _ _ Hm), (quiet_trans _ _ _ Ho)|]. apply (quiet_trans _ io4); [|apply fs_remove_temp_quiet].
      split_and!; [done|intros; by rewrite Ef|auto].
  - cbn [is_ok]. intros [= <- <-]. cbn [sl_io sl_key sl_cache set_io set_mode]. split_and!; [|done|exists sequence; by left]. apply quiet_places.
    apply (quiet_trans _ io3); [by apply (quiet_trans _ _ _ Hm), (quiet_trans _ _ _ Ho)|apply fs_remove_temp_quiet].
Qed.

Definition index_sizes (s : SealingBlobStore) : option (bmap Cid N) := mode ← sl_cache s; ci_sizes <$> cm_index mode.

(** Every indexed record, [except] apart, is there with the size the index has. *)
Definition sizes_true (except : option Cid) (s : SealingBlobStore) : Prop :=
  forall sizes, index_sizes s = Some sizes -> om_wf sizes /\
    forall c n, om_get c sizes = Some n -> except <> Some c -> exists f, io_files (sl_io s) !! Held c = Some f /\ len (fl_data f) = n.

Lemma note_held_spec s cid :
  quiet (sl_io s) (sl_io (note_held s cid)) /\ sl_key (note_held s cid) = sl_key s /\ (is_Some (sl_cache (note_held s cid)) <-> is_Some (sl_cache s)) /\
  (sizes_true (Some cid) s -> sizes_true None (note_held s cid)).
Proof.
  unfold note_held. pose proof (fs_stat_quiet (Held cid) (sl_io s)) as [Hq Hn]. destruct (fs_stat (Held cid) (sl_io s)) as [length io]. cbn [fst snd] in *.
  cbn [sl_cache set_io]. destruct (sl_cache s) as [[generation sequence [index|]]|] eqn:Ec; cbn [sl_io sl_key sl_cache set_io set_mode].
  - split_and!; [done|done|by split; eauto|]. intros H sizes Hs. cbn in Hs. injection Hs as <-.
    destruct (H (ci_sizes index)) as [Hwf Hg]; [unfold index_sizes; by rewrite Ec|]. destruct Hq as (_ & Hf & _).
    assert (forall c n, c <> cid -> om_get c (ci_sizes index) = Some n -> exists f, io_files io !! Held c = Some f /\ len (fl_data f) = n) as Ho.
    { intros c n Hne E. destruct (Hg c n E) as (f & Ef & El); [congruence|]. exists f. by rewrite Hf. }
    destruct length as [n|]; cbn [ci_sizes note_written note_removed].
    + split; [by apply om_wf_insert|]. intros c m E _. cbn [sl_io]. destruct (decide (c = cid)) as [->|Hne].
      * rewrite om_get_insert_eq in E by done. injection E as <-. destruct Hn as (f & Ef & El). exists f. by rewrite Hf.
      * rewrite om_get_insert_ne in E by done. by apply Ho.
    + split; [by apply om_wf_remove|]. intros c m E _. cbn [sl_io]. destruct (decide (c = cid)) as [->|Hne].
      * by rewrite om_get_remove_eq in E.
      * rewrite om_get_remove_ne in E by done. by apply Ho.
  - split_and!; [done|done|by split; eauto|]. intros _ sizes Hs. unfold index_sizes in Hs. cbn in Hs. by rewrite Ec in Hs.
  - split_and!; [done|done|by rewrite Ec|]. intros _ sizes Hs. unfold index_sizes in Hs. cbn in Hs. by rewrite Ec in Hs.
Qed.

Lemma sizes_true_places cid f b s s' :
  places cid f b (sl_io s) (sl_io s') -> index_sizes s' = index_sizes s -> sizes_true None s -> sizes_true (if b then Some cid else None) s'.
Proof.
  intros (_ & F & E & _) Ei H sizes Hs. rewrite Ei in Hs. destruct (H _ Hs) as [Hwf Hg]. split; [done|]. intros c n Hc Hx.
  destruct (Hg c n Hc) as (g & Eg & El); [done|]. exists g. destruct (decide (c = cid)) as [->|Hne]; [|by rewrite F by congruence].
  rewrite E. by destruct b.
Qed.

Lemma sizes_true_weaken x s : sizes_true None s -> sizes_true x s.
Proof. intros H sizes Hs. destruct (H _ Hs) as [? Hg]. split; [done|]. intros c n Hc _. by apply Hg. Qed.

Lemma verify_ok cid b x : verify cid b = Ok x -> x = b /\ Cid_of b = cid.
Proof. unfold verify. case_bool_decide; [by intros [= <-]|done]. Qed.

Lemma bounded_read_opens s p cid max b :
  read_sealed_bounded s p cid max = Ok (Some b) ->
  (p ∉ io_unreadable (sl_io s)) /\ exists f, io_files (sl_io s) !! p = Some f /\ open_record (sl_key s) cid (fl_data f) = Ok b.
Proof.
  unfold read_sealed_bounded, read_bounded, fs_read, open_record. destruct (checked_add usize_max max 40); [|done]. cbn [ok_or mbind result_bind].
  case_bool_decide as Hu; [done|]. cbn [mbind result_bind]. destruct (io_files (sl_io s) !! p) as [f|] eqn:E; cbn [fmap option_fmap option_map]; [|done].
  destruct (_ <? len (fl_data f)); [done|]. cbn [mbind result_bind]. destruct (decode_sealed (fl_data f)) as [sealed|] eqn:Ed; [|done]. cbn [mbind result_bind].
  destruct (map_err _ _) as [plain|] eqn:Em; [|done]. cbn [mbind result_bind]. destruct (max <? len plain); [done|]. cbn [mbind result_bind refuse_if].
  destruct (verify cid plain) as [x|] eqn:Ev; [|done]. intros [= <-]. split; [done|]. exists f. split; [done|]. rewrite Ed. cbn [mbind result_bind]. by rewrite Em.
Qed.

Lemma get_opens s cid b :
  sealing_get s cid = Ok (Some b) <->
  (Held cid ∉ io_unreadable (sl_io s)) /\ exists f, io_files (sl_io s) !! Held cid = Some f /\ open_record (sl_key s) cid (fl_data f) = Ok b.
Proof.
  unfold sealing_get, fs_read. case_bool_decide as Hu; cbn [mbind result_bind]; [split; [done|by intros [? _]]|].
  destruct (io_files (sl_io s) !! Held cid) as [f|]; cbn [fmap option_fmap option_map]; [|split; [done|by intros (_ & g & ? & _)]].
  destruct (open_record (sl_key s) cid (fl_data f)) as [x|] eqn:E; cbn; [|split; [done|intros (_ & g & [= <-] & E'); congruence]].
  split; [intros [= <-]; eauto|]. intros (_ & g & [= <-] & E'). congruence.
Qed.

Lemma open_record_address key cid data b : open_record key cid data = Ok b -> Cid_of b = cid.
Proof.
  unfold open_record. destruct (decode_sealed data); [|done]. cbn. destruct (map_err _ _); [|done]. cbn. intros Hv. apply verify_ok in Hv as [-> <-]. done.
Qed.

(** Records that are written whole may be added. *)
Definition admits_record (key : bytes) (P : FileSystem -> Prop) (cid : Cid) : Prop :=
  forall fs f, P fs -> fl_synced f = true -> complete key cid (fl_data f) -> P (<[Held cid := f]> fs).
End runs.

Section sealing.
Context {C : Crypto} {A : Aead} {L : AeadLaws A}.

Lemma sealed_record_opens key data rng sealed rng' :
  SignedOp.seal key data rng = (Ok sealed, rng') -> open_record key (Cid_of data) (encode_sealed sealed) = Ok data.
Proof using L.
  unfold SignedOp.seal. pose proof (length_fill 24 rng) as Hn. destruct (fill_bytes 24 rng) as [nonce r]. cbn [fst] in Hn.
  destruct (aead_encrypt key nonce data) as [ct|] eqn:Ee; [|done]. intros [= <- <-]. unfold open_record, decode_sealed, encode_sealed. cbn [sb_nonce sb_ciphertext].
  pose proof (aead_tag _ _ _ _ Ee) as Ht. assert ((len (nonce ++ ct) <=? 24) = false) as ->.
  { apply N.leb_gt. rewrite len_app. unfold len in *. lia. }
  cbn [mbind result_bind]. rewrite <- Hn at 1 2. rewrite take_app_length, drop_app_length. unfold SignedOp.unseal. cbn [sb_nonce sb_ciphertext].
  rewrite (aead_opens _ _ _ _ Ee). cbn. unfold verify. by rewrite bool_decide_eq_true_2.
Qed.

Lemma put_spec s data r s' :
  sealing_put s data = (r, s') -> is_Some (sl_cache s) ->
  let cid := Cid_of data in
  sl_key s' = sl_key s /\ is_Some (sl_cache s') /\ io_unreadable (sl_io s') = io_unreadable (sl_io s) /\
  (forall q, (forall c g n, q <> Incoming c g n) -> q <> Held cid -> io_files (sl_io s') !! q = io_files (sl_io s) !! q) /\
  (forall P, held_part P -> admits_record (sl_key s) P cid -> always P (sl_io s) -> always P (sl_io s')) /\
  (sizes_true None s -> sizes_true None s') /\
  (is_ok r = false -> io_files (sl_io s') !! Held cid = io_files (sl_io s) !! Held cid) /\
  (forall c, r = Ok c -> c = cid /\ exists f b, io_files (sl_io s') !! Held cid = Some f /\ open_record (sl_key s) cid (fl_data f) = Ok b /\ (b = data \/ address_collision b data)).
Proof using L.
  intros H Hc cid. unfold sealing_put in H. fold cid in H. destruct (read_found (sealing_get_bounded s cid (len data))) eqn:Eh.
  - destruct Hc as [mode Ec]. rewrite Ec in H. cbv zeta in H. injection H as <- <-. pose proof (note_held_spec s cid) as (Hq & Hk & Hcc & Hs).
    unfold read_found in Eh. destruct (sealing_get_bounded s cid (len data)) as [[b|]|] eqn:Eg; try done.
    apply bounded_read_opens in Eg as (Hu & f & Ef & Eo). destruct Hq as (U & F & Ha).
    split_and!; [done|by apply Hcc|done|intros; by apply F|auto|intros; by apply Hs, sizes_true_weaken|done|].
    intros c [= <-]. split; [done|]. exists f, b. rewrite F by done. split_and!; [done|done|].
    destruct (decide (b = data)) as [->|Hne]; [by left|right]. split; [done|]. by apply open_record_address in Eo.
  - destruct (SignedOp.seal (sl_key s) data (sl_rng s)) as [[sealed|e] rng] eqn:Es.
    2: { injection H as <- <-. cbn. split_and!; [done|done|done|done|auto|done|done|done]. }
    cbv zeta in H. cbn [sl_cache set_rng] in H. destruct Hc as [mode Ec]. rewrite Ec in H.
    destruct (write_atomic (set_rng rng s) mode cid (encode_sealed sealed)) as [[u|e] s1] eqn:Ew; apply write_atomic_spec in Ew as (Hp & Hk & Hm); cbn [is_ok] in *.
    + assert (exists m, sl_cache s1 = Some m /\ cm_index m = cm_index mode) as (m & Em & Ei).
      { destruct Hm as [seq [E|[E _]]]; [by eexists|]. cbn in E. rewrite Ec in E. eauto. }
      rewrite Em in H. injection H as <- <-. pose proof (note_held_spec s1 cid) as (Hq & Hk' & Hcc & Hs).
      pose proof (quiet_after _ _ _ _ _ _ Hp Hq) as (U & F & E & Ha). cbn [sl_io set_rng] in *.
      pose proof (sealed_record_opens _ _ _ _ _ Es) as Ho.
      split_and!; [by rewrite Hk', Hk|apply Hcc; by rewrite Em|done|done| | |done|].
      * intros P HP Hadm Hal. apply Ha; [done| |done]. intros fs Hfs. apply Hadm; [done|done|]. by exists data.
      * intros Ht. apply Hs. apply (sizes_true_places cid (mkFsFile (encode_sealed sealed) true) true (set_rng rng s)); [exact Hp| |exact Ht].
        unfold index_sizes. cbn. by rewrite Em, Ec; cbn; rewrite Ei.
      * intros c [= <-]. split; [done|]. exists (mkFsFile (encode_sealed sealed) true), data. cbn [fl_data]. split_and!; [done|exact Ho|by left].
    + injection H as <- <-. destruct Hp as (U & F & E & Ha). cbn [sl_io sl_key set_rng] in *.
      pose proof (sealed_record_opens _ _ _ _ _ Es) as Ho. split_and!; [done| |done|done| | |done|done].
      * destruct Hm as [seq [E'|[E' _]]]; rewrite E'; [by eexists|cbn; by rewrite Ec].
      * intros P HP Hadm Hal. apply Ha; [done| |done]. intros fs Hfs. apply Hadm; [done|done|]. by exists data.
      * intros Ht. apply (sizes_true_places cid (mkFsFile (encode_sealed sealed) true) false (set_rng rng s)); [split_and!; done| |exact Ht].
        unfold index_sizes. cbn. destruct Hm as [seq [E'|[E' _]]]; rewrite E'; [by rewrite Ec|done].
Qed.

(** A staged record that was stored and synced. *)
Definition staged_whole (key : bytes) (fs : FileSystem) (c : Cid) : Prop :=
  forall f, fs !! Staged c = Some f -> fl_synced f = true /\ complete key c (fl_data f).

Lemma promote_file_spec key cid healthy io r io' :
  promote_staged_file cid healthy io = (r, io') ->
  io_unreadable io' = io_unreadable io /\
  (forall q, q <> Staged cid -> q <> Held cid -> io_files io' !! q = io_files io !! q) /\
  (forall q, is_ok r = false -> io_files io' !! q = io_files io !! q) /\
  (r = Ok false -> io_files io !! Staged cid = None /\ io' = io) /\
  (r = Ok true -> io_files io' !! Staged cid = None) /\
  (r = Ok true -> healthy = false -> exists f, io_files io !! Staged cid = Some f /\ io_files io' !! Held cid = Some f) /\
  (healthy = true -> io_files io' !! Held cid = io_files io !! Held cid) /\
  (forall P, held_part P -> admits_record key P cid -> staged_whole key (io_files io) cid -> always P io -> always P io').
Proof using.
  unfold promote_staged_file. destruct (io_files io !! Staged cid) as [f|] eqn:Es; [|intros [= <- <-]; split_and!; done].
  destruct healthy.
  - pose proof (fs_remove_spec (Staged cid) io) as H. pose proof (proj1 (proj2 (proj2 (fs_unreadable_same io))) (Staged cid)) as Hu.
    unfold fs_remove in *. rewrite Es in *. pose proof (ask_same io) as (Ef & _). destruct (ask io) as [answer io1]. cbn [snd] in *.
    destruct answer as [cut|cut]; destruct (H _ _ eq_refl) as (Hf & Hd & _ & Ha); intros [= <- <-]; cbn [snd is_ok] in *.
    + split_and!; [done|intros; by apply Hf|done|done|by intros _; apply Hd|done|intros _; by apply Hf|].
      intros P HP _ _ Hal. apply Ha; [|done]. apply (HP (io_files io)); [|apply Hal]. intros c. by rewrite lookup_delete_ne.
    + split_and!; [done|intros; by rewrite Ef|intros; by rewrite Ef|done|done|done|intros _; by rewrite Ef|].
      intros P HP _ _ Hal. apply Ha; [|done]. apply (HP (io_files io)); [|apply Hal]. intros c. by rewrite lookup_delete_ne.
  - pose proof (fs_rename_spec (Staged cid) (Held cid) io) as H. pose proof (proj2 (proj2 (proj2 (fs_unreadable_same io))) (Staged cid) (Held cid)) as Hu.
    destruct (fs_rename _ _ io) as [[[]|e] io1]; specialize (H _ _ eq_refl ltac:(done)); cbn [snd] in Hu; cbn [fmap result_fmap]; intros [= <- <-]; cbn [is_ok].
    + destruct H as (g & Eg & Ef & Ha). rewrite Es in Eg. injection Eg as <-. split_and!; [done| |done|done| | |done|].
      * intros q Hq Hq'. by rewrite Ef, lookup_insert_ne, lookup_delete_ne by done.
      * intros _. by rewrite Ef, lookup_insert_ne, lookup_delete_eq.
      * intros _ _. exists f. by rewrite Ef, lookup_insert_eq.
      * intros P HP Hadm Hw Hal. apply Ha; [|done]. destruct (Hw f Es) as [Hsy Hco]. apply Hadm; [|done|done].
        apply (HP (io_files io)); [|apply Hal]. intros c. by rewrite lookup_delete_ne.
    + destruct H as [Ef Ha]. split_and!; [done|intros; by rewrite Ef|intros; by rewrite Ef|done|done|done|done|auto].
Qed.

Lemma flush_spec key cid io r io' :
  flush_promoted cid io = (r, io') ->
  io_unreadable io' = io_unreadable io /\
  (forall q, q <> Held cid -> io_files io' !! q = io_files io !! q) /\
  fl_data <$> io_files io' !! Held cid = fl_data <$> io_files io !! Held cid /\
  (forall P, held_part P -> admits_record key P cid -> (forall f, io_files io !! Held cid = Some f -> complete key cid (fl_data f)) -> always P io -> always P io').
Proof using.
  unfold flush_promoted. pose proof (ask_same io) as (Ef & _ & Eu). pose proof (fun P => ask_always P io) as Ha. destruct (ask io) as [answer io1]. cbn [snd] in *.
  rewrite Ef. destruct answer as [cut|cut], (io_files io !! Held cid) as [f|] eqn:E; intros [= <- <-]; cbn [io_files io_unreadable set_files]; rewrite ?Ef, ?E.
  - split_and!; [done|intros; by rewrite lookup_insert_ne|by rewrite lookup_insert_eq|]. intros P HP Hadm Hc Hal. apply set_files_always; [by apply Ha|].
    apply Hadm; [apply Hal|done|]. exact (Hc f eq_refl).
  - split_and!; [done|done|done|auto].
  - split_and!; [done|done|done|auto].
  - split_and!; [done|done|done|auto].
Qed.

(** Only [cid]'s two names differ, and what holds of every disk with whole records
    still does. *)
Record promotes (s s' : SealingBlobStore) (cid : Cid) : Prop := mkPromotes {
  pm_key : sl_key s' = sl_key s;
  pm_cache : is_Some (sl_cache s') <-> is_Some (sl_cache s);
  pm_unreadable : io_unreadable (sl_io s') = io_unreadable (sl_io s);
  pm_staged : io_files (sl_io s') !! Staged cid = io_files (sl_io s) !! Staged cid \/ io_files (sl_io s') !! Staged cid = None;
  pm_others : forall q, q <> Staged cid -> q <> Held cid -> (forall c g n, q <> Incoming c g n) -> io_files (sl_io s') !! q = io_files (sl_io s) !! q;
  pm_held : forall b, sealing_get s cid = Ok (Some b) -> exists b', sealing_get s' cid = Ok (Some b') /\ (b' = b \/ address_collision b' b);
  pm_present : is_Some (io_files (sl_io s) !! Held cid) -> is_Some (io_files (sl_io s') !! Held cid);
  pm_sizes : sizes_true None s -> sizes_true None s';
  pm_always : forall P, held_part P -> admits_record (sl_key s) P cid -> staged_whole (sl_key s) (io_files (sl_io s)) cid ->
    always P (sl_io s) -> always P (sl_io s')
}.

Lemma get_same_data s s' cid :
  sl_key s' = sl_key s -> io_unreadable (sl_io s') = io_unreadable (sl_io s) ->
  fl_data <$> io_files (sl_io s') !! Held cid = fl_data <$> io_files (sl_io s) !! Held cid -> sealing_get s' cid = sealing_get s cid.
Proof using. intros Ek Eu Ef. unfold sealing_get, fs_read. by rewrite Eu, Ef, Ek. Qed.

Lemma promotes_refl s cid : promotes s s cid.
Proof using. constructor; eauto. Qed.

Lemma promotes_error s io cid :
  io_unreadable io = io_unreadable (sl_io s) -> (forall q, io_files io !! q = io_files (sl_io s) !! q) ->
  (forall P, held_part P -> admits_record (sl_key s) P cid -> staged_whole (sl_key s) (io_files (sl_io s)) cid -> always P (sl_io s) -> always P io) ->
  promotes s (set_io io s) cid.
Proof using.
  intros Eu Ef Ha. constructor; cbn [sl_io sl_key sl_cache set_io]; [done|done|done|by left|auto| |by rewrite Ef| |done].
  - intros b Hb. exists b. rewrite (get_same_data s (set_io io s) cid); [auto|done|done|cbn; by rewrite Ef].
  - intros H sizes Hs. destruct (H sizes Hs) as [Hw Hg]. split; [done|]. intros c n E1 E2. destruct (Hg c n E1 E2) as (f & E & El). exists f. cbn. by rewrite Ef.
Qed.

(** The file is in place; the index and the flush follow. *)
Lemma promoted_then s cid healthy io1 s2 :
  promote_staged_file cid healthy (sl_io s) = (Ok true, io1) ->
  (healthy = true -> exists b, sealing_get s cid = Ok (Some b)) -> 
  (healthy = false -> forall b f, sealing_get s cid = Ok (Some b) -> io_files (sl_io s) !! Staged cid = Some f -> complete (sl_key s) cid (fl_data f)) ->
  s2 = note_held (set_io io1 s) cid ->
  promotes s s2 cid /\ promotes s (set_io (flush_promoted cid (sl_io s2)).2 s2) cid.
Proof using.
  intros Hp Hh Hnh ->. pose proof (promote_file_spec (sl_key s) _ _ _ _ _ Hp) as (U & F & _ & _ & Hgone & Hren & Hsame & Ha).
  specialize (Hgone eq_refl). pose proof (note_held_spec (set_io io1 s) cid) as (Hq & Hk & Hc & Hs). set (s2 := note_held (set_io io1 s) cid) in *. cbn [sl_io sl_key sl_cache set_io] in *.
  destruct Hq as (U2 & F2 & Ha2).
  assert (forall b, sealing_get s cid = Ok (Some b) -> exists b', sealing_get s2 cid = Ok (Some b') /\ (b' = b \/ address_collision b' b)) as Hget.
  { intros b Hb. destruct healthy.
    - exists b. rewrite (get_same_data s s2 cid); [auto|done|by rewrite U2|]. rewrite F2 by done. by rewrite Hsame.
    - destruct (Hren eq_refl eq_refl) as (f & Ef & Eh). destruct (Hnh eq_refl b f Hb Ef) as [b' Ho]. exists b'. split.
      + apply get_opens. apply get_opens in Hb as [Hu _]. rewrite U2, U, Hk. split; [done|]. exists f. by rewrite F2.
      + apply get_opens in Hb as (_ & g & _ & Hg). apply open_record_address in Ho, Hg. unfold Cid_of in *.
        destruct (decide (b' = b)) as [->|Hne]; [by left|right]. split; [done|congruence]. }
  assert (sizes_true None s -> sizes_true None s2) as Hsz.
  { intros Ht. apply Hs. intros sizes Hi. destruct (Ht sizes Hi) as [Hw Hg]. split; [done|]. intros c n E1 Hne. cbn [sl_io set_io].
    destruct (Hg c n E1) as (f & E & El); [done|]. exists f. by rewrite F by congruence. }
  assert (is_Some (io_files (sl_io s) !! Held cid) -> is_Some (io_files (sl_io s2) !! Held cid)) as Hpr.
  { intros Hi. rewrite F2 by done. destruct healthy; [by rewrite Hsame|]. destruct (Hren eq_refl eq_refl) as (f & _ & ->). done. }
  assert (promotes s s2 cid) as Hfirst.
  { constructor; [done|done|by rewrite U2|right; by rewrite F2|intros q H1 H2 H3; by rewrite F2, F|done|done|done|]. intros P HP Hadm Hw Hal. apply Ha2; [done|]. by apply (Ha P). }
  split; [done|]. pose proof (flush_spec (sl_key s) cid (sl_io s2)) as Hfl. destruct (flush_promoted cid (sl_io s2)) as [rf io3]. cbn [snd].
  destruct (Hfl _ _ eq_refl) as (U3 & F3 & D3 & Ha3). destruct Hfirst as [K1 K2 K3 Kst K4 K5 K5' K6 K7].
  constructor; cbn [sl_io sl_key sl_cache set_io]; [done|done|by rewrite U3|right; rewrite F3 by done; by rewrite F2|intros; rewrite F3 by done; auto| | | |].
  - intros b Hb. apply Hget in Hb as (b' & Hb & Hor). exists b'. split; [|done]. rewrite <- Hb. by apply get_same_data.
  - intros Hi. apply Hpr in Hi. apply (fmap_is_Some fl_data). rewrite D3. by apply fmap_is_Some.
  - intros Ht sizes Hi. destruct (Hsz Ht sizes Hi) as [Hw Hg]. split; [done|]. intros c n E1 Hne. cbn [sl_io set_io]. destruct (Hg c n E1 Hne) as (f & E & El).
    destruct (decide (c = cid)) as [->|Hd]; [|exists f; by rewrite F3 by congruence].
    rewrite E in D3. destruct (io_files io3 !! Held cid) as [g|]; [|done]. injection D3 as D3. exists g. by rewrite D3.
  - intros P HP Hadm Hw Hal. apply (Ha3 P); [done|done| |by apply K7]. intros f Ef. rewrite F2 in Ef by done. destruct healthy.
    + destruct (Hh eq_refl) as [b Hb]. apply get_opens in Hb as (_ & g & Eg & Ho). rewrite Hsame, Eg in Ef by done. injection Ef as <-. by exists b.
    + destruct (Hren eq_refl eq_refl) as (g & Eg & Eh). rewrite Eh in Ef. injection Ef as <-. by apply Hw.
Qed.

Lemma promote_spec s cid r s' : sealing_promote_staged s cid = (r, s') -> promotes s s' cid.
Proof using.
  unfold sealing_promote_staged. destruct (promote_staged_file cid (read_found (sealing_get s cid)) (sl_io s)) as [promoted io1] eqn:Ep.
  destruct promoted as [[|]|e].
  - destruct (promoted_then s cid (read_found (sealing_get s cid)) io1 (note_held (set_io io1 s) cid) Ep) as [_ H]; try done.
    + unfold read_found. destruct (sealing_get s cid) as [[b|]|]; [by exists b|done|done].
    + unfold read_found. intros Hh b f Hb. by rewrite Hb in Hh.
    + intros [= <- <-]. exact H.
  - destruct (promote_file_spec (sl_key s) _ _ _ _ _ Ep) as (_ & _ & _ & Hno & _). destruct (Hno eq_refl) as [_ ->]. intros [= <- <-].
    replace (set_io (sl_io s) s) with s by (by destruct s). apply promotes_refl.
  - destruct (promote_file_spec (sl_key s) _ _ _ _ _ Ep) as (U & _ & Hsame & _ & _ & _ & _ & Ha). intros [= <- <-]. apply promotes_error; [done|intros; by apply Hsame|done].
Qed.

Lemma bounded_get s cid max b : sealing_get_bounded s cid max = Ok (Some b) -> sealing_get s cid = Ok (Some b).
Proof using. intros H. apply get_opens. by apply bounded_read_opens in H. Qed.

Lemma promote_bounded_spec s cid max r s' : sealing_promote_staged_bounded s cid max = (r, s') -> promotes s s' cid.
Proof using.
  unfold sealing_promote_staged_bounded. destruct (read_sealed_bounded s (Staged cid) cid max) as [[b|]|e] eqn:Er; [|intros [= <- <-]; apply promotes_refl..].
  destruct (promote_staged_file cid (read_found (sealing_get_bounded s cid max)) (sl_io s)) as [promoted io1] eqn:Ep. destruct promoted as [[|]|e].
  - destruct (promoted_then s cid (read_found (sealing_get_bounded s cid max)) io1 (note_held (set_io io1 s) cid) Ep) as [Hone Hboth]; try done.
    + unfold read_found. destruct (sealing_get_bounded s cid max) as [[x|]|] eqn:Eg; [intros _; exists x; by apply (bounded_get _ _ max)|done|done].
    + intros _ _ f _ Ef. apply bounded_read_opens in Er as (_ & g & Eg & Ho). rewrite Ef in Eg. injection Eg as <-. by exists b.
    + cbv zeta. destruct (sealing_get_bounded (note_held _ _) cid max) as [[x|]|]; [|intros [= <- <-]; exact Hone..].
      destruct (flush_promoted cid _) as [flushed io3]. intros [= <- <-]. exact Hboth.
  - destruct (promote_file_spec (sl_key s) _ _ _ _ _ Ep) as (_ & _ & _ & Hno & _). destruct (Hno eq_refl) as [_ ->]. intros [= <- <-].
    replace (set_io (sl_io s) s) with s by (by destruct s). apply promotes_refl.
  - destruct (promote_file_spec (sl_key s) _ _ _ _ _ Ep) as (U & _ & Hsame & _ & _ & _ & _ & Ha). intros [= <- <-]. apply promotes_error; [done|intros; by apply Hsame|done].
Qed.

(** Only staged names differ. *)
Record stages (s s' : SealingBlobStore) : Prop := mkStages {
  sg_key : sl_key s' = sl_key s;
  sg_cache : sl_cache s' = sl_cache s;
  sg_unreadable : io_unreadable (sl_io s') = io_unreadable (sl_io s);
  sg_held : forall c, io_files (sl_io s') !! Held c = io_files (sl_io s) !! Held c;
  sg_always : forall P, held_part P -> always P (sl_io s) -> always P (sl_io s')
}.

Lemma stages_get s s' c : stages s s' -> sealing_get s' c = sealing_get s c.
Proof using. intros [K1 K2 K3 K4 K5]. apply get_same_data; [done|done|]. by rewrite K4. Qed.

Lemma stages_sizes s s' : stages s s' -> sizes_true None s -> sizes_true None s'.
Proof using.
  intros [K1 K2 K3 K4 K5] H sizes Hs. unfold index_sizes in Hs. rewrite K2 in Hs. destruct (H sizes Hs) as [Hw Hg]. split; [done|]. intros c n E Hne.
  destruct (Hg c n E Hne) as (f & Ef & El). exists f. by rewrite K4.
Qed.

Lemma quiet_stages s io : quiet (sl_io s) io -> stages s (set_io io s).
Proof using. intros (U & F & Ha). constructor; cbn [sl_io sl_key sl_cache set_io]; [done|done|done|intros; by apply F|auto]. Qed.

Lemma remove_staged s c : stages s (set_io (fs_remove (Staged c) (sl_io s)).2 s).
Proof using.
  pose proof (fs_remove_spec (Staged c) (sl_io s)) as H. pose proof (proj1 (proj2 (proj2 (fs_unreadable_same (sl_io s)))) (Staged c)) as Hu.
  destruct (fs_remove _ _) as [r io1]. destruct (H _ _ eq_refl) as (F & _ & _ & Ha). cbn [snd] in *.
  constructor; cbn [sl_io sl_key sl_cache set_io]; [done|done|done|intros; by apply F|]. intros P HP Hal. apply Ha; [|done].
  apply (HP (io_files (sl_io s))); [|apply Hal]. intros d. by rewrite lookup_delete_ne.
Qed.

Lemma drop_spec s c : stages s (sealing_drop_staged s c).2 /\ (forall c', c' <> c -> io_files (sl_io (sealing_drop_staged s c).2) !! Staged c' = io_files (sl_io s) !! Staged c') /\
  ((sealing_drop_staged s c).1 = Ok true -> io_files (sl_io (sealing_drop_staged s c).2) !! Staged c = None).
Proof using.
  unfold sealing_drop_staged. pose proof (remove_staged s c) as H. pose proof (fs_remove_spec (Staged c) (sl_io s)) as Hs.
  destruct (fs_remove _ _) as [r io1]. cbn [fst snd] in *. destruct (Hs _ _ eq_refl) as (F & Hn & _). split; [done|]. split; [|intros ->; by apply Hn].
  intros c' Hne. apply F. congruence.
Qed.

Lemma clear_entries_stages entries : forall n s, Forall (fun p => exists c, p = Staged c) entries -> stages s (set_io (clear_entries entries n (sl_io s)).2 s).
Proof using.
  induction entries as [|p entries IH]; intros n s Hall; cbn [clear_entries]; [by constructor|].
  apply Forall_cons in Hall as [[c ->] Hall]. pose proof (remove_staged s c) as H. destruct (fs_remove (Staged c) (sl_io s)) as [r io1]. cbn [snd] in H.
  specialize (IH (match r with Ok true => n + 1 | _ => n end) (set_io io1 s) Hall). cbn [sl_io set_io] in IH.
  destruct H as [K1 K2 K3 K4 K5], IH as [J1 J2 J3 J4 J5]. cbn [sl_io sl_key sl_cache set_io] in *.
  constructor; cbn [sl_io sl_key sl_cache set_io]; [done|done|by rewrite J3|intros; by rewrite J4|auto].
Qed.

Lemma clear_spec s : stages s (sealing_clear_staging s).2.
Proof using.
  unfold sealing_clear_staging. pose proof (clear_entries_stages (staged_entries (io_files (sl_io s))) 0 s) as H. destruct (clear_entries _ _ _) as [n io1]. apply H.
  apply Forall_forall. intros p Hp. unfold staged_entries in Hp. apply elem_List_filter in Hp as [_ Hp]. destruct p; [done|by eexists|done].
Qed.

Lemma put_staged_spec s data r s' :
  sealing_put_staged s data = (r, s') -> stages s s' /\ (forall c, c <> Cid_of data -> io_files (sl_io s') !! Staged c = io_files (sl_io s) !! Staged c) /\
  (forall c, r = Ok c -> c = Cid_of data /\ exists f, io_files (sl_io s') !! Staged c = Some f /\ fl_synced f = true /\ open_record (sl_key s) c (fl_data f) = Ok data).
Proof using L.
  unfold sealing_put_staged. pose proof (fs_mkdir_quiet (sl_io s)) as Hm. destruct (fs_mkdir (sl_io s)) as [[u|e] io1]; cbn [snd] in Hm.
  2: { intros [= <- <-]. split_and!; [by apply quiet_stages| |done]. intros c _. cbn. by apply (proj1 (proj2 Hm)). }
  cbv zeta. cbn [sl_key sl_rng set_io]. destruct (SignedOp.seal (sl_key s) data (sl_rng s)) as [[sealed|e] rng] eqn:Es.
  2: { intros [= <- <-]. split_and!; [| |done]; [|intros c _; cbn; by apply (proj1 (proj2 Hm))]. destruct (quiet_stages s io1 Hm) as [K1 K2 K3 K4 K5]. constructor; assumption. }
  cbn [sl_io set_rng set_io]. pose proof (fs_write_spec (Staged (Cid_of data)) (encode_sealed sealed) true io1) as H.
  pose proof (proj1 (fs_unreadable_same io1) (Staged (Cid_of data)) (encode_sealed sealed) true) as Hu. destruct (fs_write _ _ true io1) as [w io2]. cbn [snd] in Hu.
  destruct (H _ _ eq_refl) as (F & Hf & Ha). destruct Hm as (U1 & F1 & Ha1). intros [= <- <-]. split_and!.
  - constructor; cbn [sl_io sl_key sl_cache set_io set_rng]; [done|done|by rewrite Hu|intros; by rewrite F, F1|]. intros P HP Hal. apply Ha; [done|apply staged_aside|by apply Ha1].
  - intros c Hne. cbn. rewrite F by congruence. by apply F1.
  - intros c. destruct w as [[]|]; cbn; [|done]. intros [= <-]. split; [done|]. exists (mkFsFile (encode_sealed sealed) true). cbn.
    split_and!; [by apply Hf|done|by apply (sealed_record_opens _ _ _ _ _ Es)].
Qed.

Lemma remove_spec s c r s' :
  sealing_remove s c = (r, s') ->
  sl_key s' = sl_key s /\ (is_Some (sl_cache s') <-> is_Some (sl_cache s)) /\ io_unreadable (sl_io s') = io_unreadable (sl_io s) /\
  (forall q, q <> Held c -> io_files (sl_io s') !! q = io_files (sl_io s) !! q) /\
  (sizes_true None s -> sizes_true None s') /\
  (forall P, P (delete (Held c) (io_files (sl_io s))) -> always P (sl_io s) -> always P (sl_io s')).
Proof using.
  unfold sealing_remove. pose proof (fs_remove_spec (Held c) (sl_io s)) as H. pose proof (proj1 (proj2 (proj2 (fs_unreadable_same (sl_io s)))) (Held c)) as Hu.
  unfold fs_remove in *.
  destruct (io_files (sl_io s) !! Held c) as [f|] eqn:E.
  - pose proof (ask_same (sl_io s)) as (Ef & _). destruct (ask (sl_io s)) as [answer io1]. cbn [snd] in *.
    destruct answer as [cut|cut]; destruct (H _ _ eq_refl) as (F & Hn & _ & Ha); cbn [is_ok snd] in *; intros [= <- <-].
    + destruct (sl_cache s) as [[g n [index|]]|] eqn:Ec; cbn [sl_io sl_key sl_cache set_mode]; (split_and!; [done|by rewrite ?Ec; split; eauto|done|done| |done]).
      * intros Ht sizes Hi. injection Hi as <-. destruct (Ht (ci_sizes index)) as [Hw Hg]; [unfold index_sizes; by rewrite Ec|].
        cbn [note_removed ci_sizes]. split; [by apply om_wf_remove|]. intros d m Em _. destruct (decide (d = c)) as [->|Hne]; [by rewrite om_get_remove_eq in Em|].
        rewrite om_get_remove_ne in Em by done. destruct (Hg d m Em) as (x & Ex & El); [done|]. exists x. cbn [sl_io]. by rewrite F by congruence.
      * intros _ sizes Hi. unfold index_sizes in Hi. by rewrite ?Ec in Hi.
      * intros _ sizes Hi. unfold index_sizes in Hi. by rewrite ?Ec in Hi.
    + cbn. split_and!; [done|done|done|intros; by rewrite Ef| |done]. intros Ht sizes Hi. destruct (Ht sizes Hi) as [Hw Hg]. split; [done|].
      intros d m Em Hne. destruct (Hg d m Em Hne) as (x & Ex & El). exists x. cbn. by rewrite Ef.
  - cbn [is_ok]. intros [= <- <-]. destruct (H _ _ eq_refl) as (F & _ & _ & Ha). clear H.
    destruct (sl_cache s) as [[g n [index|]]|] eqn:Ec; cbn [sl_io sl_key sl_cache set_mode]; (split_and!; [done|by rewrite ?Ec; split; eauto|done|done| |done]).
    + intros Ht sizes Hi. injection Hi as <-. destruct (Ht (ci_sizes index)) as [Hw Hg]; [unfold index_sizes; by rewrite Ec|].
      cbn [note_removed ci_sizes]. split; [by apply om_wf_remove|]. intros d m Em _. destruct (decide (d = c)) as [->|Hne]; [by rewrite om_get_remove_eq in Em|].
      rewrite om_get_remove_ne in Em by done. by apply Hg.
    + intros _ sizes Hi. unfold index_sizes in Hi. by rewrite ?Ec in Hi.
    + intros _ sizes Hi. unfold index_sizes in Hi. by rewrite ?Ec in Hi.
Qed.
End sealing.

(** * Nothing torn, nothing lost *)

Section crashes.
Context {C : Crypto} {A : Aead} {L : AeadLaws A}.

(** Records are whole, and those in [keep] are there. *)
Definition whole (keep : Cid -> Prop) (key : bytes) (fs : FileSystem) : Prop :=
  clean key fs /\ forall c, keep c -> is_Some (fs !! Held c).

Lemma whole_held_part keep key : held_part (whole keep key).
Proof. intros fs fs' E [H1 H2]. split; [intros c f; rewrite E; apply H1|intros c Hc; rewrite E; by apply H2]. Qed.

Lemma whole_admits keep key c : admits_record key (whole keep key) c.
Proof.
  intros fs f [H1 H2] Hs Hc. split.
  - intros d g E. destruct (decide (d = c)) as [->|Hne]; [rewrite lookup_insert_eq in E; by injection E as <-|]. rewrite lookup_insert_ne in E by congruence. by apply H1.
  - intros d Hd. destruct (decide (d = c)) as [->|Hne]; [by rewrite lookup_insert_eq|]. rewrite lookup_insert_ne by congruence. by apply H2.
Qed.

Record store_run_inv (keep : Cid -> Prop) (key : bytes) (w : StoreRun) : Prop := mkStoreRunInv {
  rk_key : sl_key (sr_store w) = key;
  rk_cache : is_Some (sl_cache (sr_store w));
  rk_always : always (whole keep key) (sl_io (sr_store w));
  rk_staged : forall c, c ∈ sr_staged w -> staged_whole key (io_files (sl_io (sr_store w))) c;
  rk_sizes : sizes_true None (sr_store w)
}.

Definition deletes (op : StoreOp) (c : Cid) : Prop := op = OpDelete c.

Lemma stages_ok keep key w s staged :
  store_run_inv keep key w -> stages (sr_store w) s -> (forall c, c ∈ staged -> staged_whole key (io_files (sl_io s)) c) -> store_run_inv keep key (mkStoreRun s staged).
Proof.
  intros [R1 R2 R3 R4 R5] Hst Hs. constructor; cbn [sr_store sr_staged].
  - by rewrite (sg_key _ _ Hst).
  - by rewrite (sg_cache _ _ Hst).
  - apply (sg_always _ _ Hst); [apply whole_held_part|done].
  - exact Hs.
  - by apply (stages_sizes _ _ Hst).
Qed.

Lemma promotes_ok keep key w s c :
  store_run_inv keep key w -> c ∈ sr_staged w \/ io_files (sl_io (sr_store w)) !! Staged c = None ->
  promotes (sr_store w) s c -> store_run_inv keep key (mkStoreRun s (sr_staged w)).
Proof using.
  clear L. intros [R1 R2 R3 R4 R5] Hc [K1 K2 K3 Kst K4 K5 K5' K6 K7].
  assert (staged_whole key (io_files (sl_io (sr_store w))) c) as Hwhole.
  { destruct Hc as [Hc|Hn]; [by apply R4|]. intros f. by rewrite Hn. }
  constructor; cbn [sr_store sr_staged].
  - by rewrite K1.
  - by apply K2.
  - apply K7; [apply whole_held_part|rewrite R1; apply whole_admits|by rewrite R1|done].
  - intros d Hd f. destruct (decide (d = c)) as [->|Hne]; [|rewrite K4 by congruence; by apply R4].
    destruct Kst as [->| ->]; [apply Hwhole|done].
  - by apply K6.
Qed.

Lemma apply_ok keep key w op : store_run_inv keep key w -> promotable w op -> (forall c, keep c -> ~ deletes op c) -> store_run_inv keep key (store_apply w op).
Proof using L.
  intros Hw Hpr Hop. pose proof Hw as [R1 R2 R3 R4 R5]. unfold store_apply. destruct op as [data|data|c|c max|c| |c].
  - destruct (sealing_put (sr_store w) data) as [r s] eqn:E. cbn [snd]. destruct (put_spec _ _ _ _ E R2) as (K1 & K2 & _ & K4 & K5 & K6 & _).
    constructor; cbn [sr_store sr_staged]; [by rewrite K1|done| | |by apply K6].
    + apply K5; [apply whole_held_part|rewrite R1; apply whole_admits|done].
    + intros d Hd f. rewrite K4 by done. by apply R4.
  - destruct (sealing_put_staged (sr_store w) data) as [r s] eqn:E. destruct (put_staged_spec _ _ _ _ E) as (Hst & Hoth & Hok).
    apply (stages_ok keep key w); [done|done|]. intros c Hc f Ef. destruct (decide (c = Cid_of data)) as [->|Hne].
    + destruct r as [x|e]; cbn [is_ok] in Hc; [|set_solver]. destruct (Hok x eq_refl) as (-> & g & Eg & Hsy & Ho). rewrite Eg in Ef. injection Ef as <-.
      split; [done|]. exists data. by rewrite <- R1.
    + rewrite Hoth in Ef by done. apply (R4 c); [|done]. destruct (is_ok r); set_solver.
  - destruct (sealing_promote_staged (sr_store w) c) as [r s] eqn:E. apply (promotes_ok keep key w s c); [done|done|by apply promote_spec in E].
  - destruct (sealing_promote_staged_bounded (sr_store w) c max) as [r s] eqn:E. apply (promotes_ok keep key w s c); [done|done|by apply promote_bounded_spec in E].
  - destruct (drop_spec (sr_store w) c) as (Hst & Hoth & _). apply (stages_ok keep key w); [done|done|]. intros d [Hd Hne]%elem_of_difference f.
    rewrite Hoth by set_solver. by apply R4.
  - apply (stages_ok keep key w); [done|apply clear_spec|set_solver].
  - destruct (sealing_remove (sr_store w) c) as [r s] eqn:E. cbn [snd]. destruct (remove_spec _ _ _ _ E) as (K1 & K2 & _ & K4 & K5 & K6).
    constructor; cbn [sr_store sr_staged]; [by rewrite K1|by apply K2| | |by apply K5].
    + apply K6; [|done]. destruct R3 as [[H1 H2] _]. split.
      * intros d f Ed. destruct (decide (d = c)) as [->|Hne]; [by rewrite lookup_delete_eq in Ed|]. rewrite lookup_delete_ne in Ed by congruence. by apply H1.
      * intros d Hd. rewrite lookup_delete_ne; [by apply H2|]. intros [= <-]. by apply (Hop c).
    + intros d Hd f. rewrite K4 by done. by apply R4.
Qed.

Lemma store_run_ok keep key ops : forall w, store_run_inv keep key w -> promotes_staged_only w ops -> (forall c, keep c -> OpDelete c ∉ ops) -> store_run_inv keep key (store_run w ops).
Proof using L.
  induction ops as [|op ops IH]; intros w Hw Hpr Hk; [done|]. destruct Hpr as [Hp Hpr]. apply IH; [|done|intros c Hc Hin; by apply (Hk c Hc); right].
  apply apply_ok; [done|done|]. intros c Hc Hdel. apply (Hk c Hc). rewrite Hdel. left.
Qed.

(** What is held stays held through all but its deletion. *)
Lemma apply_present w op c : is_Some (sl_cache (sr_store w)) -> op <> OpDelete c ->
  is_Some (io_files (sl_io (sr_store w)) !! Held c) -> is_Some (io_files (sl_io (sr_store (store_apply w op))) !! Held c).
Proof using L.
  intros Hm Hop Hi. unfold store_apply. destruct op as [data|data|d|d max|d| |d].
  - destruct (sealing_put (sr_store w) data) as [r s] eqn:E. cbn [snd sr_store]. destruct (put_spec _ _ _ _ E Hm) as (_ & _ & _ & K4 & _ & _ & Ke & Ko).
    destruct (decide (c = Cid_of data)) as [->|Hne]; [|by rewrite K4 by congruence]. destruct r as [x|e]; [|by rewrite Ke].
    destruct (Ko x eq_refl) as (_ & f & b & -> & _). done.
  - destruct (sealing_put_staged (sr_store w) data) as [r s] eqn:E. destruct (put_staged_spec _ _ _ _ E) as (Hst & _). cbn. by rewrite (sg_held _ _ Hst).
  - destruct (sealing_promote_staged (sr_store w) d) as [r s] eqn:E. apply promote_spec in E as [_ _ _ _ K4 _ K5 _ _]. cbn.
    destruct (decide (c = d)) as [->|Hne]; [by apply K5|by rewrite K4 by congruence].
  - destruct (sealing_promote_staged_bounded (sr_store w) d max) as [r s] eqn:E. apply promote_bounded_spec in E as [_ _ _ _ K4 _ K5 _ _]. cbn.
    destruct (decide (c = d)) as [->|Hne]; [by apply K5|by rewrite K4 by congruence].
  - cbn [sr_store]. by rewrite (sg_held _ _ (proj1 (drop_spec (sr_store w) d))).
  - cbn [sr_store]. by rewrite (sg_held _ _ (clear_spec (sr_store w))).
  - destruct (sealing_remove (sr_store w) d) as [r s] eqn:E. cbn [snd sr_store]. destruct (remove_spec _ _ _ _ E) as (_ & _ & _ & K4 & _). rewrite K4; [done|congruence].
Qed.

Lemma run_present ops : forall w c, (exists key, store_run_inv (fun _ => False) key w) -> promotes_staged_only w ops -> OpDelete c ∉ ops ->
  is_Some (io_files (sl_io (sr_store w)) !! Held c) -> is_Some (io_files (sl_io (sr_store (store_run w ops))) !! Held c).
Proof using L.
  induction ops as [|op ops IH]; intros w c [key Hw] Hpr Hd Hi; [done|]. destruct Hpr as [Hp Hpr]. apply IH.
  - exists key. by apply apply_ok.
  - done.
  - intros Hin. apply Hd. by right.
  - apply apply_present; [apply (rk_cache _ _ _ Hw)|intros ->; apply Hd; left|done].
Qed.

(** Every name is looked at on its own, so it does not matter that the disk left
    behind is of no one moment. *)
Lemma crash_whole keep key io fs' : always (whole keep key) io -> crash io fs' -> whole keep key fs'.
Proof.
  intros [Ha Hp] Hcr.
  assert (forall c, exists fs, whole keep key fs /\ fs' !! Held c = fs !! Held c) as Hsame.
  { intros c. destruct (Hcr (Held c)) as (fs & Hin & Ht). exists fs.
    assert (whole keep key fs) as Hw by (apply elem_of_cons in Hin as [->|Hin]; [done|by apply (proj1 (Forall_forall _ _) Hp)]).
    split; [done|]. unfold torn in Ht. destruct (fs !! Held c) as [f|] eqn:E, (fs' !! Held c) as [f'|]; try done.
    - rewrite (proj1 (proj1 Hw c f E)) in Ht. by rewrite Ht.
    - by rewrite (proj1 (proj1 Hw c f E)) in Ht. }
  split; intros c; destruct (Hsame c) as (fs & [H1 H2] & ->); [apply H1|apply H2].
Qed.

(** C28: a record never appears torn and is never lost but by deletion. Take a cache
    whose records are whole and durable, with files staged whole by an earlier
    run or none. Run any operations that promote only what was staged
    successfully, let the disk answer each call as it likes and cut the power at
    any moment, in the middle of a write included, with each name then showing
    its entry of any moment of the run (a rename that was not flushed may be
    undone): whatever is found under an address is a complete record that opens
    to a blob with that address, and every address durably held at the start
    that no operation deleted is still held. *)
Theorem no_torn_record s staged ops fs' :
  clean (sl_key s) (io_files (sl_io s)) -> io_past (sl_io s) = [] -> is_Some (sl_cache s) -> sizes_true None s ->
  (forall c, c ∈ staged -> staged_whole (sl_key s) (io_files (sl_io s)) c) ->
  promotes_staged_only (mkStoreRun s staged) ops ->
  crash (sl_io (sr_store (store_run (mkStoreRun s staged) ops))) fs' ->
  (forall c f, fs' !! Held c = Some f -> exists b, open_record (sl_key s) c (fl_data f) = Ok b /\ Cid_of b = c) /\
  (forall c, is_Some (io_files (sl_io s) !! Held c) -> OpDelete c ∉ ops -> is_Some (fs' !! Held c)).
Proof using L.
  intros Hc Hp Hm Hs Hst Hpr Hcr. set (keep := fun c => is_Some (io_files (sl_io s) !! Held c) /\ OpDelete c ∉ ops).
  assert (store_run_inv keep (sl_key s) (store_run (mkStoreRun s staged) ops)) as [_ _ Hal _ _].
  { apply store_run_ok; [|done|by intros c [_ ?]]. constructor; cbn [sr_store sr_staged]; [done|done| |done|done].
    split; [split; [done|by intros c [? _]]|]. rewrite Hp. constructor. }
  destruct (crash_whole _ _ _ _ Hal Hcr) as [H1 H2]. split; [|intros c Hh Hd; by apply H2].
  intros c f E. destruct (H1 c f E) as [_ [b Hb]]. exists b. split; [done|]. by apply open_record_address in Hb.
Qed.

(** What was put can be read. After a put that succeeded, through any later
    operations that do not delete it and promote only what was staged, and
    whatever the disk does, a store whose
    records are whole reads the blob back (or a BLAKE3 collision of it); and the
    size index never names a record that is not there with that size. *)
Theorem stored_blob_read_back s data c s' ops :
  clean (sl_key s) (io_files (sl_io s)) -> io_past (sl_io s) = [] -> is_Some (sl_cache s) -> sizes_true None s ->
  sealing_put s data = (Ok c, s') -> promotes_staged_only (mkStoreRun s' ∅) ops -> OpDelete c ∉ ops -> Held c ∉ io_unreadable (sl_io (sr_store (store_run (mkStoreRun s' ∅) ops))) ->
  let s'' := sr_store (store_run (mkStoreRun s' ∅) ops) in
  (exists b, sealing_get s'' c = Ok (Some b) /\ (b = data \/ address_collision b data)) /\ sizes_true None s''.
Proof using L.
  intros Hc Hp Hm Hs Hput Hpr Hd Hu s''. subst s''. destruct (put_spec _ _ _ _ Hput Hm) as (K1 & K2 & K3 & K4 & K5 & K6 & _ & K8). destruct (K8 c eq_refl) as (-> & f & b0 & Ef & Ho & Hb0).
  assert (store_run_inv (fun _ => False) (sl_key s) (mkStoreRun s' ∅)) as Hw.
  { constructor; cbn [sr_store sr_staged]; [done|done| |set_solver|by apply K6].
    apply K5; [apply whole_held_part|apply whole_admits|]. split; [by split|rewrite Hp; constructor]. }
  pose proof (store_run_ok _ _ ops _ Hw Hpr ltac:(done)) as [Hk _ [[Hcl _] _] _ Hsz]. split; [|done].
  destruct (run_present ops (mkStoreRun s' ∅) (Cid_of data)) as [g Eg]; [by exists (sl_key s)|done|done|by exists f|].
  destruct (Hcl _ _ Eg) as [_ [b Hb]]. exists b. split; [apply get_opens; rewrite Hk; eauto|].
  apply open_record_address in Hb. destruct (decide (b = data)) as [->|Hne]; [by left|by right].
Qed.
End crashes.

(** * The theorems at work *)

Lemma torn_refl now : torn now now.
Proof. unfold torn. destruct now as [f|]; [|done]. destruct (fl_synced f); [done|]. exists (length (fl_data f)). by rewrite firstn_all. Qed.

(** An empty cache on a disk that fails the first write after three bytes. *)
Definition toy_sealing : SealingBlobStore :=
  mkSealingBlobStore (mkDiskState ∅ ∅ [Succeeds 0; Succeeds 0; Fails (Some 3%nat)] []) toy_file_key toy_rng 0
    (Some (mkCacheMode 1 0 (Some (from_sizes [] true)))).

Definition toy_store_ops : list StoreOp :=
  [OpPut [x01]; OpPut [x02]; OpStage [x03]; OpPromote (Cid_of (C:=toy_crypto) [x03])].

Definition toy_after : SealingBlobStore := sr_store (store_run (C:=toy_crypto) (mkStoreRun toy_sealing ∅) toy_store_ops).

Example toy_after_reads :
  sealing_get (C:=toy_crypto) toy_after (Cid_of (C:=toy_crypto) [x01]) = Ok None /\
  sealing_get (C:=toy_crypto) toy_after (Cid_of (C:=toy_crypto) [x02]) = Ok (Some [x02]) /\
  sealing_get (C:=toy_crypto) toy_after (Cid_of (C:=toy_crypto) [x03]) = Ok (Some [x03]) /\
  (om_get (Cid_of (C:=toy_crypto) [x02]) <$> index_sizes toy_after) = Some (Some 41).
Proof. vm_compute. done. Qed.

Lemma toy_sealing_clean : clean (C:=toy_crypto) (sl_key toy_sealing) (io_files (sl_io toy_sealing)) /\ sizes_true None toy_sealing.
Proof.
  split; [intros c f; cbn; by rewrite lookup_empty|]. intros sizes [= <-]. split; [apply om_wf_nil|]. done.
Qed.

Definition toy_record_file : FsFile :=
  default (mkFsFile [] false) (io_files (sl_io toy_after) !! Held (Cid_of (C:=toy_crypto) [x02])).

Lemma toy_record_there : io_files (sl_io toy_after) !! Held (Cid_of (C:=toy_crypto) [x02]) = Some toy_record_file.
Proof. vm_compute. reflexivity. Qed.

(** The power fails after the run and the rename of the promoted record is lost. *)
Definition toy_cut : FileSystem := delete (Held (Cid_of (C:=toy_crypto) [x03])) (io_files (sl_io toy_after)).

Lemma toy_cut_crash : crash (sl_io toy_after) toy_cut.
Proof.
  intros p. destruct (decide (p = Held (Cid_of (C:=toy_crypto) [x03]))) as [->|Hne].
  - assert (existsb (fun fs : FileSystem => negb (bool_decide (is_Some (fs !! Held (Cid_of (C:=toy_crypto) [x03]))))) (io_past (sl_io toy_after)) = true) as Hex
      by (vm_compute; reflexivity).
    apply existsb_exists in Hex as (fs & Hin & Hn). exists fs. split; [right; by apply list_elem_of_In|].
    apply negb_true_iff, bool_decide_eq_false in Hn. unfold toy_cut. rewrite lookup_delete_eq. apply eq_None_not_Some in Hn. by rewrite Hn.
  - exists (io_files (sl_io toy_after)). split; [left|]. unfold toy_cut. rewrite lookup_delete_ne by done. apply torn_refl.
Qed.

Lemma no_torn_record_witness :
  toy_cut !! Held (Cid_of (C:=toy_crypto) [x03]) = None /\
  exists b, open_record (C:=toy_crypto) toy_file_key (Cid_of (C:=toy_crypto) [x02]) (fl_data toy_record_file) = Ok b /\
    Cid_of (C:=toy_crypto) b = Cid_of (C:=toy_crypto) [x02].
Proof.
  split; [unfold toy_cut; apply lookup_delete_eq|]. destruct toy_sealing_clean as [Hc Hs].
  refine (proj1 (no_torn_record (C:=toy_crypto) toy_sealing ∅ toy_store_ops toy_cut Hc eq_refl _ Hs _ _ toy_cut_crash) _ _ _).
  - by eexists.
  - set_solver.
  - vm_compute. repeat split. left. reflexivity.
  - unfold toy_cut. rewrite lookup_delete_ne; [exact toy_record_there|]. vm_compute. discriminate.
Defined.

Definition toy_put : result StorageError Cid * SealingBlobStore :=
  sealing_put (C:=toy_crypto) (mkSealingBlobStore (mkDiskState ∅ ∅ [] []) toy_file_key toy_rng 0 (Some (mkCacheMode 1 0 None))) [x05].

Lemma stored_blob_read_back_witness :
  exists b, sealing_get (C:=toy_crypto) (sr_store (store_run (C:=toy_crypto) (mkStoreRun toy_put.2 ∅) [OpPut [x06]])) (Cid_of (C:=toy_crypto) [x05]) = Ok (Some b) /\
    (b = [x05] \/ address_collision (C:=toy_crypto) b [x05]).
Proof.
  refine (proj1 (stored_blob_read_back (C:=toy_crypto) (mkSealingBlobStore (mkDiskState ∅ ∅ [] []) toy_file_key toy_rng 0 (Some (mkCacheMode 1 0 None))) [x05]
    (Cid_of (C:=toy_crypto) [x05]) toy_put.2 [OpPut [x06]] _ eq_refl _ _ _ _ _ _)).
  - intros c f. cbn. by rewrite lookup_empty.
  - by eexists.
  - intros sizes. done.
  - vm_compute. reflexivity.
  - done.
  - set_solver.
  - vm_compute. set_solver.
Defined.
